(* ===== verification/_CoqProject ===== *)
-Q . S2P
Prelude.v
Lru.v
Utf8.v
Crypto.v
Binary.v
Page.v
PageSpec.v
BTree.v
BTreeCells.v
BTreeRep.v
BTreeRead.v
BTreeOwn.v
BTreeWrite.v
BTreeTree.v
BTreeDurable.v
BTreeTheorems.v
Pager.v
Keys.v
Json.v
GoLower.v
Text.v
Limits.v
Rounding.v
Histogram.v
OrderKey.v
Predicate.v
Search.v
Entities.v
Cells.v
Wal.v
Recovery.v
GroupCommit.v
Feed.v
Changes.v
Checkpoint.v
Transaction.v
Engine.v
EngineRep.v
EngineApply.v
EngineOps.v
EngineTheorems.v
Startup.v
Cache.v
Heap.v
HeapRep.v
HeapTheorems.v
HeapStore.v
Compaction.v
CompactionTheorems.v
HeapSegments.v
Epochs.v
Query.v
QueryScan.v
QueryRows.v
QueryPaths.v
QueryText.v
QueryTheorems.v
QueryPaging.v
Aggregate.v
QueryFold.v
QueryGroup.v
Lower.v
Mutate.v
Constraints.v
LowerView.v
Referential.v
LowerExamples.v
Sequences.v
CompactionExamples.v
Opening.v
Routes.v
RoutesTheorems.v
Metrics.v
Stats.v
Auth.v
Posture.v
Router.v
Cli.v
CliStats.v
