(* ===== verification/Prelude.v ===== *)
(** * FacetQL: a verification development

    FacetQL is a single-node database behind an HTTP interface.  Nodes (JSON
    documents with an address, a kind and an owner) and edges are kept in an
    append-only heap of records, reached through B+tree indexes, written
    through a write-ahead log, and queried with a small expression language.
    This library models the whole of it, from the pages on the disk to the
    requests of its command line client, and proves what makes it correct.
    Paths below are under src/src/.

    ** How the parts interact

    A request passes the guards ([Router]: bound on requests in flight,
    authentication, rate limit) and reaches a handler ([Routes]), which reads
    the engine through [Query] and [QueryFold] or hands it a mutation.  A
    mutation is lowered to operations and checked ([Lower], [Mutate]), logged
    ([Transaction] over [Wal]), applied to the heap and the indexes
    ([Engine] over [Heap] and [BTree]), made durable ([GroupCommit]) and
    announced ([Feed]).  A checkpoint publishes the indexes, compacts the
    heap ([Compaction]) and shortens the log; a start loads what was
    published ([Startup]) and replays the log above the checkpoint
    ([Recovery], both put together in [Opening]).

    ** The files

    Foundations:
    - [Prelude]: results with an error kind, bytes, slices, little- and
      big-endian numbers, lexicographic order, shared tactics and hints.
    - [Lru]: the order of use kept by three bounded structures.
    - [Utf8], [Text], [Json]: what the program uses of characters, strings,
      numbers and [serde_json] values; doubles are IEEE-754 [spec_float]s.
    - [Crypto] (crypto.rs): the encryption envelope, hexadecimal keys.
    - [Binary] (storage/binary.rs, storage/location.rs): CRC-32, record
      frames, record logs with their torn tails, record locations.

    Pages, trees and the heap:
    - [Page], [PageSpec] (storage/page.rs): slotted pages over the 16356
      bytes of a page body, and the list of cells they implement.
    - [Pager] (storage/pager.rs): paged files behind a bounded write-back
      cache, as the page store the tree and the heap are written against.
    - [BTree] (storage/btree.rs): the copy-on-write B+tree; [BTreeCells],
      [BTreeRep], [BTreeRead], [BTreeOwn], [BTreeWrite], [BTreeTree] and
      [BTreeDurable] build the proof, [BTreeTheorems] states it.
    - [Heap] (storage/catalog.rs, storage/heap.rs): the catalog and the
      record heap; [HeapRep], [HeapTheorems] and [HeapStore] prove that it
      is the record store the engine needs, [HeapSegments] that it is what
      compaction needs.
    - [Cache] (storage/cache.rs): the cache of decoded records.

    Keys, expressions and what is stored:
    - [Keys], [OrderKey] (storage/index.rs): the keys of the built-in
      indexes; the order-preserving encoding of the declared ones.
    - [GoLower] (core/go_lower_table.rs), [Predicate] (core/predicate.rs):
      expressions, their validation, evaluation and the analyses the planner
      uses.  [Search] (storage/text.rs): the trigram index.
    - [Entities] (core/node.rs, core/edge.rs, core/history.rs, core/user.rs,
      core/coordinate.rs, storage/reference.rs): the stored records and the
      registry of references.

    The log:
    - [Wal] (storage/wal.rs), [Recovery] (storage/recovery.rs), [Checkpoint]
      (storage/checkpoint.rs), [Transaction] (storage/transaction.rs,
      storage/commit.rs): the log over the bytes of its file, startup, the
      checkpoint with its fences, the frame protocol with a failure possible
      at every append and at application.
    - [GroupCommit] ([sync_pending] of storage/wal.rs): the threads, the
      writer and the disk as one step relation.
    - [Changes] (storage/changes.rs): the log as a feed of changes.

    The engine (storage/engine.rs):
    - [Engine]: applying an operation with all its index maintenance, over
      the class [RecordStore]; [EngineRep], [EngineApply], [EngineOps] and
      [EngineTheorems] prove it.
    - [Startup]: loading the published files.
    - [Compaction], [CompactionTheorems], [CompactionExamples], [Epochs]:
      draining segments, and the reads pinned beside it.
    - [Opening]: the whole of Database::new after a crash, from the files to
      the running engine.
    - [Query]: the planner, all of its access paths, pages and cursors;
      [QueryScan], [QueryRows], [QueryPaths], [QueryText], [QueryTheorems]
      and [QueryPaging] prove that the path does not change the answer.
    - [Aggregate] (core/aggregate.rs), [QueryFold], [QueryGroup]: counts,
      aggregates and groups over the same paths.
    - [Lower], [Mutate]: batches as the operations they stand for, the
      checks before they are logged; [LowerView], [Constraints],
      [Referential] and [LowerExamples] prove them.
    - [Sequences]: blocks of identifiers.  [Stats]: the statistics.

    The server and its client:
    - [Feed] (database.rs, [subscribe_events] of api/routes.rs): the live
      event feed.
    - [Routes], [RoutesTheorems] (api/routes.rs): the handlers.  [Router]:
      the table of routes and the guards.
    - [Auth] (auth.rs), [Limits] (api/limits.rs), [Posture] (config.rs, the
      checks and copies of main.rs): who may call, how often, and what the
      server insists on before it starts; backup and restore.
    - [Rounding], [Histogram], [Cells], [Metrics] (metrics.rs): the latency
      histogram in doubles, the lock-free table of coordinates, the counters
      and windows.
    - [Cli], [CliStats] (cli/mod.rs, cli/client.rs, cli/error.rs): the
      operator's commands as programs over a server.

    ** How state and effects are modelled

    A file is its bytes; a crash leaves any bytes in what was not synced.
    Fallible code returns [result]; the stateful components thread their
    state through a small state-and-error monad of their own ([BTree.M],
    [Engine.M], [Cli.C]).  What runs concurrently is a step relation in which
    every access to shared memory and every call of the system is a step
    ([GroupCommit], [Epochs], [Cells], [Metrics]).  A [u16], [u32] or [u64]
    is a [Z] with its bounds as part of the invariant; a wrap-around or a
    saturation is written out.  Bytes are [Z] below 256.  Code outside the
    repository is a class or an argument with its documented laws, with
    instances in the witnesses: the cipher ([Crypto.Aead]), bincode
    ([Crypto.Bincode]), serde_json ([Json.SerdeJson], [Aggregate.IntJson],
    [Query.CursorJson], [Sequences.U64Json]), the token hash
    ([Auth.TokenHash]), and for the client the HTTP library and its reading
    of a URL.  Inside the repository, classes are the contracts between
    components, and each is discharged: [PageSpec.PageImpl] by [Page],
    [Engine.RecordStore] by [Heap], [Compaction.SegmentStore] by
    [HeapSegments], [Recovery.ReplayEngine] by [Opening].

    ** What the theorems show

    - Storage.  The B+tree is a sorted map: any sequence of calls, commits,
      crashes and reopenings has the answers of the map; a crash inside a
      commit leaves the old or the new contents; a snapshot taken at a
      commit is stable.  Pages are lists of cells, paged files are page
      stores, the heap is a list of records, and each survives a crash with
      what was synced.
    - Durability.  The log is a list of records under appends torn at any
      byte, restarts and rotations; startup replays exactly the committed
      units above the checkpoint; a mutation is all or nothing; whatever the
      interleaving, as long as no sync of the directory fails, a call that
      returned is durable, and every call returns; a database that is opened
      again is the one that was closed, or, after a crash without changes of
      definitions since the checkpoint, the one that crashed.
    - Consistency.  Every admissible operation leaves every index listing
      exactly the stored collections, and replay converges.  The overlay a
      batch is judged against is exact; unique indexes stay unique;
      references keep resolving, under the conditions the theorem names.
      Compaction loses no record, and a pinned read keeps its segment.
    - Answers.  For the queries [QueryRows.answerable] describes, the access
      path changes neither a page, nor a count, nor an aggregate, and
      following cursors that can be read back returns every row once; byte
      order of index keys is value order but for the negative zero; the
      statistics count what is stored.
    - Access.  No request of one owner changes a node of another; the change
      scan misses nothing, repeats nothing and shows no one what they may
      not read; a revoked identity is refused at once; a production server
      does not start on defaults.
    - Measures.  Every charged call is attributed exactly once; the windows
      partition the requests; reported latencies bound the true quantiles
      within an eighth.
    - The client, given plain segments, calls the routes it means to, asks
      before it destroys, and its statistics are exact or fail.

    Some theorems prove a defect on a concrete history: a snapshot taken
    between commits, a folded text index on a field that is not text, the
    negative zero, a standalone mutation that fails to apply, a partial
    publication of the indexes, a partial failed append, a rotation whose
    directory sync fails, a crash between the two edge indexes of a
    compaction, a null or a long value in a cursor, a parent that is
    overwritten, an index declared over a field that held a value too long
    for it, an edge replaced through a batch, races of the handlers
    that read before they lock, rates that refuse everyone, an address with
    the mark of a fragment.

    ** Fuel and bounds

    Tree recursion takes [MAX_TREE_DEPTH] as the code does, and the proofs
    show that the height of a tree that fits in the file stays below it;
    range loops take one more step than the entries of the tree; predicate
    recursion is structural and carries the code's own depth limit of 64.
    Reading a log is structural on its bytes or takes the length of the
    file as fuel; closures of deletes take a bound on the nodes they can
    reach; the client's count takes one page more than the listing has.  In
    each case a theorem says that this fuel gives the result.  Counters are
    bounded by hypotheses of the form "fewer than 2^64 numbers were drawn";
    page counts wrap at 2^32 as in a release build, and the theorems ask for
    headroom below it.

    ** Not modelled

    - The server process: binding, TLS, signals, draining, and the texts of
      a failed start; the lock of the data directory is one call of the
      kernel.  They keep no state of the database.
    - The handlers that declare an index or a reference, because their
      status depends on whether the wording of an error contains a word;
      what they call is modelled.  Wordings of errors are values elsewhere.
    - The tables the client prints, and the parsing of its arguments.
    - What the operating system reports of the process, and errors of the
      device other than those named in [Transaction], [Wal] and
      [GroupCommit].
*)

From Stdlib Require Import ZArith Lia.
From stdpp Require Import base tactics list gmap sorting option.

(** ** Results: the value or the error a fallible operation returns

    [std::io::Error] carries an [ErrorKind] and a message; callers branch on
    the kind only, so the kind is what the model keeps. *)

Inductive error_kind : Set :=
| InvalidData
| InvalidInput
| UnexpectedEof
| NotFound
| OtherError.

#[export] Instance error_kind_eq_dec : EqDecision error_kind.
Proof. solve_decision. Defined.

Inductive result (E A : Type) : Type :=
| Ok (a : A)
| Err (e : E).
Arguments Ok {E A} a.
Arguments Err {E A} e.

#[export] Instance result_ret {E} : MRet (result E) := fun A a => Ok a.
#[export] Instance result_bind {E} : MBind (result E) := fun A B f m =>
  match m with Ok a => f a | Err e => Err e end.

Lemma result_bind_ok {E A B} (f : A -> result E B) a : (Ok a ≫= f) = f a.
Proof. reflexivity. Qed.

Lemma result_bind_err {E A B} (f : A -> result E B) e : (Err e ≫= f) = Err e.
Proof. reflexivity. Qed.

Lemma result_bind_inv {E A B} (f : A -> result E B) m b :
  (m ≫= f) = Ok b -> exists a, m = Ok a /\ f a = Ok b.
Proof. destruct m; cbn; [eauto | discriminate]. Qed.

(** ** The development's hint databases and tactics *)

Create HintDb fq discriminated.
Create Rewrite HintDb fqlen.

(** Split conjunctions and existentials of the context. *)
Ltac dsimp :=
  repeat match goal with
  | H : exists _, _ |- _ => let x := fresh "x" in destruct H as [x H]
  | H : _ /\ _ |- _ => let H' := fresh H in destruct H as [H H']
  end.

(** Case analysis on the scrutinee of the innermost [match] or [if] of the
    goal, keeping its equation. *)
Ltac case_goal :=
  match goal with
  | |- context [match ?x with _ => _ end] =>
      lazymatch x with
      | context [match _ with _ => _ end] => fail
      | _ => let E := fresh "E" in destruct x eqn:E
      end
  end.

(** The same on a hypothesis. *)
Ltac case_hyp H :=
  match type of H with
  | context [match ?x with _ => _ end] =>
      lazymatch x with
      | context [match _ with _ => _ end] => fail
      | _ => let E := fresh "E" in destruct x eqn:E
      end
  end.

(** Turn boolean comparisons of the context into propositions. *)
Ltac breflect :=
  repeat match goal with
  | H : (_ && _)%bool = true |- _ => apply andb_prop in H; destruct H
  | H : (_ || _)%bool = false |- _ => apply orb_false_elim in H; destruct H
  | H : (_ <? _)%nat = true |- _ => apply Nat.ltb_lt in H
  | H : (_ <? _)%nat = false |- _ => apply Nat.ltb_ge in H
  | H : (_ <=? _)%nat = true |- _ => apply Nat.leb_le in H
  | H : (_ <=? _)%nat = false |- _ => apply Nat.leb_gt in H
  | H : (_ =? _)%nat = true |- _ => apply Nat.eqb_eq in H
  | H : (_ =? _)%nat = false |- _ => apply Nat.eqb_neq in H
  | H : (_ <? _)%Z = true |- _ => apply Z.ltb_lt in H
  | H : (_ <? _)%Z = false |- _ => apply Z.ltb_ge in H
  | H : (_ <=? _)%Z = true |- _ => apply Z.leb_le in H
  | H : (_ <=? _)%Z = false |- _ => apply Z.leb_gt in H
  | H : (_ =? _)%Z = true |- _ => apply Z.eqb_eq in H
  | H : (_ =? _)%Z = false |- _ => apply Z.eqb_neq in H
  | H : bool_decide _ = true |- _ => apply bool_decide_eq_true in H
  | H : bool_decide _ = false |- _ => apply bool_decide_eq_false in H
  end.

(** ** Lists: slices and splices

    [slice l i j] is Rust's [l[i..j]]; [splice l i d] is
    [l[i..i + d.len()].copy_from_slice(d)].  Rust panics when the range is out
    of bounds; the lemmas carry the bounds under which the code runs them. *)

Definition slice {A} (l : list A) (i j : nat) : list A := take (j - i) (drop i l).

Definition splice {A} (l : list A) (i : nat) (d : list A) : list A :=
  take i l ++ d ++ drop (i + length d) l.

Section slices.
Context {A : Type}.
Implicit Types (l d : list A).

Lemma length_slice l i j : (i <= j)%nat -> (j <= length l)%nat -> length (slice l i j) = (j - i)%nat.
Proof. intros. unfold slice. rewrite length_take, length_drop. lia. Qed.

Lemma length_splice l i d : (i + length d <= length l)%nat -> length (splice l i d) = length l.
Proof. intros. unfold splice. rewrite !length_app, length_take, length_drop. lia. Qed.

Lemma slice_all l n : n = length l -> slice l 0 n = l.
Proof. intros ->. unfold slice. rewrite drop_0, Nat.sub_0_r. apply take_ge. lia. Qed.

Lemma lookup_slice l i j k : (k < j - i)%nat -> slice l i j !! k = l !! (i + k)%nat.
Proof. intros. unfold slice. rewrite lookup_take_lt by lia. apply lookup_drop. Qed.

Lemma lookup_slice_ge l i j k : (j - i <= k)%nat -> slice l i j !! k = None.
Proof. intros. unfold slice. apply lookup_ge_None. rewrite length_take. lia. Qed.

Lemma lookup_splice_in l i d k :
  (i + length d <= length l)%nat -> (i <= k < i + length d)%nat ->
  splice l i d !! k = d !! (k - i)%nat.
Proof.
  intros. unfold splice.
  rewrite lookup_app_r by (rewrite length_take; lia).
  rewrite length_take, Nat.min_l by lia. apply lookup_app_l. lia.
Qed.

Lemma lookup_splice_out l i d k :
  (i + length d <= length l)%nat -> (k < i \/ i + length d <= k)%nat ->
  splice l i d !! k = l !! k.
Proof.
  intros ? [?|?]; unfold splice.
  - rewrite lookup_app_l by (rewrite length_take; lia). apply lookup_take_lt. lia.
  - rewrite lookup_app_r by (rewrite length_take; lia).
    rewrite length_take, Nat.min_l by lia.
    rewrite lookup_app_r by lia. rewrite lookup_drop. f_equal. lia.
Qed.

(** Two slices agree when the lists agree on the range. *)
Lemma slice_ext l l' i j :
  (forall k, (i <= k < j)%nat -> l !! k = l' !! k) -> slice l i j = slice l' i j.
Proof.
  intros H. apply list_eq. intros k. destruct (decide (k < j - i)%nat).
  - rewrite !lookup_slice by lia. apply H. lia.
  - rewrite !lookup_slice_ge by lia. reflexivity.
Qed.

Lemma slice_splice_eq l i j d :
  (i + length d <= length l)%nat -> j = (i + length d)%nat -> slice (splice l i d) i j = d.
Proof.
  intros ? ->. apply list_eq. intros k. destruct (decide (k < length d)%nat).
  - rewrite lookup_slice by lia. rewrite lookup_splice_in by lia. f_equal. lia.
  - rewrite lookup_slice_ge by lia. symmetry. apply lookup_ge_None. lia.
Qed.

Lemma slice_splice_ne l i d a b :
  (i + length d <= length l)%nat -> (b <= i \/ i + length d <= a)%nat ->
  slice (splice l i d) a b = slice l a b.
Proof. intros. apply slice_ext. intros. apply lookup_splice_out; lia. Qed.

Lemma slice_splice_in l i d a b :
  (i + length d <= length l)%nat -> (i <= a)%nat -> (b <= i + length d)%nat ->
  slice (splice l i d) a b = slice d (a - i) (b - i).
Proof.
  intros. apply list_eq. intros k. destruct (decide (k < b - a)%nat).
  - rewrite !lookup_slice by lia. rewrite lookup_splice_in by lia. f_equal. lia.
  - rewrite !lookup_slice_ge by lia. done.
Qed.

Lemma slice_slice l i j a b : (b <= j - i)%nat -> slice (slice l i j) a b = slice l (i + a) (i + b).
Proof.
  intros. apply list_eq. intros k. destruct (decide (k < b - a)%nat).
  - rewrite !lookup_slice by lia. f_equal. lia.
  - rewrite !lookup_slice_ge by lia. done.
Qed.

Lemma slice_app_l l l' i j : (j <= length l)%nat -> slice (l ++ l') i j = slice l i j.
Proof.
  intros. apply slice_ext. intros. apply lookup_app_l. lia.
Qed.

Lemma slice_app_r l l' i j n :
  n = length l -> (n <= i)%nat -> slice (l ++ l') i j = slice l' (i - n) (j - n).
Proof.
  intros -> ?. unfold slice. rewrite drop_app_ge by lia. f_equal. lia.
Qed.

Lemma Forall_slice (P : A -> Prop) l i j : Forall P l -> Forall P (slice l i j).
Proof. intros. unfold slice. by apply Forall_take, Forall_drop. Qed.

Lemma Forall_splice (P : A -> Prop) l i d : Forall P l -> Forall P d -> Forall P (splice l i d).
Proof. intros. unfold splice. repeat apply Forall_app_2; auto using Forall_take, Forall_drop. Qed.
End slices.

(** A fold keeps an invariant that each of its steps keeps. *)
Lemma fold_left_inv {A B} (P : A -> Prop) (Q : B -> Prop) (f : A -> B -> A) l a :
  (forall a b, P a -> Q b -> P (f a b)) -> Forall Q l -> P a -> P (fold_left f l a).
Proof. intros Hf Hl. revert a. induction Hl; intros a Ha; cbn; auto. Qed.

(** A fold whose step is injective in its state, and in the element, on an
    invariant: equal inputs separate states, and one changed element shows. *)
Section fold_inj.
Context {A B : Type} (P : A -> Prop) (Q : B -> Prop) (f : A -> B -> A).
Context (Hstep : forall a b, P a -> Q b -> P (f a b)).
Context (Hstate : forall a a' b, P a -> P a' -> Q b -> f a b = f a' b -> a = a').
Context (Helem : forall a b b', P a -> Q b -> Q b' -> f a b = f a b' -> b = b').

Lemma fold_left_inj l a a' : Forall Q l -> P a -> P a' -> fold_left f l a = fold_left f l a' -> a = a'.
Proof using Hstep Hstate.
  intros Hl. revert a a'. induction Hl as [|b l Hb Hl IH]; intros a a' Ha Ha' E; [exact E|]. cbn in E.
  apply IH in E; auto. by eapply Hstate.
Qed.

Lemma fold_left_changed l i x b a :
  Forall Q l -> Q b -> P a -> l !! i = Some x -> x <> b -> fold_left f (<[i := b]> l) a <> fold_left f l a.
Proof using Hstep Hstate Helem.
  intros Hl. revert i a. induction Hl as [|y l Hy Hl IH]; intros i a Hb Ha Hx Hne E; [done|].
  destruct i as [|i]; cbn in Hx, E.
  - injection Hx as ->. apply fold_left_inj in E; auto. symmetry in E. by apply Helem in E.
  - revert E. apply IH; auto.
Qed.
End fold_inj.

Lemma sorted_snoc {A} (R : relation A) l x : StronglySorted R l -> Forall (fun y => R y x) l -> StronglySorted R (l ++ [x]).
Proof.
  induction 1 as [|y l Hl IH Hy]; cbn [app]; [by repeat constructor|]. intros [Hyx Hf]%Forall_cons_1. constructor; [by apply IH|].
  apply Forall_app. split; [done|]. by constructor.
Qed.

Lemma filter_all {A} (Q : A -> Prop) `{forall x, Decision (Q x)} l : Forall Q l -> filter Q l = l.
Proof. induction 1; [done|]. rewrite filter_cons_True by done. by f_equal. Qed.

Lemma filter_none {A} (Q : A -> Prop) `{forall x, Decision (Q x)} l : Forall (fun x => ~ Q x) l -> filter Q l = [].
Proof. induction 1; [done|]. by rewrite filter_cons_False. Qed.

Lemma Forall_filter {A} (Q R : A -> Prop) `{forall x, Decision (R x)} l : Forall Q l -> Forall Q (filter R l).
Proof. induction 1 as [|x l Hx _ IH]; [constructor|]. rewrite filter_cons. case_decide; [by constructor|done]. Qed.

#[export] Hint Rewrite @length_app @length_take @length_drop @length_cons @length_nil @length_map
  @length_reverse @length_replicate : fqlen.

(** ** Bytes and machine words

    A byte is a [Z] in [0, 256); a word of [n] bytes is a [Z] and its
    little-endian image, as [to_le_bytes]/[from_le_bytes] produce it. *)

Definition is_byte (b : Z) : Prop := (0 <= b < 256)%Z.
Abbreviation bytes := (Forall is_byte).

#[export] Instance is_byte_dec b : Decision (is_byte b).
Proof. unfold is_byte. apply _. Defined.

(** Decide that a concrete string is made of bytes. *)
Ltac solve_bytes := apply (bool_decide_unpack _); vm_compute; exact I.

Fixpoint le_bytes (n : nat) (z : Z) : list Z :=
  match n with
  | O => []
  | S n => (z mod 256)%Z :: le_bytes n (z / 256)%Z
  end.

Fixpoint le_val (l : list Z) : Z :=
  match l with
  | [] => 0
  | b :: l => (b + 256 * le_val l)%Z
  end.

(** [to_be_bytes] and [from_be_bytes]. *)
Definition be_bytes (n : nat) (z : Z) : list Z := reverse (le_bytes n z).
Definition be_val (l : list Z) : Z := le_val (reverse l).

Section words.
Local Open Scope Z_scope.

Lemma length_le_bytes n z : length (le_bytes n z) = n.
Proof. revert z. induction n; intros; cbn; auto. Qed.

Lemma length_be_bytes n z : length (be_bytes n z) = n.
Proof. unfold be_bytes. by rewrite length_reverse, length_le_bytes. Qed.

Lemma le_bytes_bytes n z : bytes (le_bytes n z).
Proof.
  revert z. induction n; intros; cbn; constructor; auto.
  apply Z.mod_pos_bound. lia.
Qed.

Lemma be_bytes_bytes n z : bytes (be_bytes n z).
Proof. unfold be_bytes. apply Forall_reverse, le_bytes_bytes. Qed.

Lemma le_val_le_bytes n z : le_val (le_bytes n z) = z mod 256 ^ Z.of_nat n.
Proof.
  revert z. induction n; intros; cbn [le_val le_bytes].
  - by rewrite Z.mod_1_r.
  - rewrite IHn, Nat2Z.inj_succ, Z.pow_succ_r by lia.
    rewrite Z.rem_mul_r; [lia | lia | apply Z.pow_pos_nonneg; lia].
Qed.

Lemma le_val_le_bytes_small n z :
  0 <= z < 256 ^ Z.of_nat n -> le_val (le_bytes n z) = z.
Proof. intros. rewrite le_val_le_bytes. by apply Z.mod_small. Qed.

Lemma be_val_be_bytes_small n z :
  0 <= z < 256 ^ Z.of_nat n -> be_val (be_bytes n z) = z.
Proof. intros. unfold be_val, be_bytes. rewrite reverse_involutive. by apply le_val_le_bytes_small. Qed.

Lemma le_val_bound l : bytes l -> 0 <= le_val l < 256 ^ Z.of_nat (length l).
Proof.
  induction 1 as [|b l Hb Hl IH]; cbn [le_val length]; [lia|].
  rewrite Nat2Z.inj_succ, Z.pow_succ_r by lia. unfold is_byte in Hb. lia.
Qed.

Lemma le_bytes_le_val l : bytes l -> le_bytes (length l) (le_val l) = l.
Proof.
  induction 1 as [|b l Hb Hl IH]; cbn [le_val length le_bytes]; [done|].
  unfold is_byte in Hb. rewrite (Z.mul_comm 256).
  rewrite Z.mod_add, Z.div_add, Z.mod_small, Z.div_small by lia. by rewrite Z.add_0_l, IH.
Qed.

Lemma le_val_inj l l' : bytes l -> bytes l' -> length l = length l' -> le_val l = le_val l' -> l = l'.
Proof.
  intros Hl Hl' Hlen Hv. rewrite <- (le_bytes_le_val l), <- (le_bytes_le_val l') by done.
  by rewrite Hlen, Hv.
Qed.

Lemma le_bytes_inj n x y :
  0 <= x < 256 ^ Z.of_nat n -> 0 <= y < 256 ^ Z.of_nat n -> le_bytes n x = le_bytes n y -> x = y.
Proof.
  intros Hx Hy H. rewrite <- (le_val_le_bytes_small n x), <- (le_val_le_bytes_small n y) by done.
  by rewrite H.
Qed.

Lemma be_bytes_inj n x y :
  0 <= x < 256 ^ Z.of_nat n -> 0 <= y < 256 ^ Z.of_nat n -> be_bytes n x = be_bytes n y -> x = y.
Proof. intros ?? H. apply (le_bytes_inj n); auto. unfold be_bytes in H. by apply (inj reverse) in H. Qed.
End words.

#[export] Hint Resolve le_bytes_bytes be_bytes_bytes Forall_slice Forall_splice Forall_app_2
  Forall_take Forall_drop : fq.
#[export] Hint Rewrite length_le_bytes length_be_bytes : fqlen.

(** Machine widths. *)
Notation u16 z := (0 <= z < 65536)%Z.
Notation u32 z := (0 <= z < 4294967296)%Z.
Notation u64 z := (0 <= z < 18446744073709551616)%Z.

Section bitwise.
Local Open Scope Z_scope.

(** A non-negative word is below [2^n] exactly when its bits from [n] on are clear. *)
Lemma below_pow2_bits a n :
  0 <= n -> 0 <= a -> (forall i, n <= i -> Z.testbit a i = false) -> a < 2 ^ n.
Proof.
  intros Hn Ha Hb. destruct (Z.lt_ge_cases a (2 ^ n)) as [|Hge]; [done|].
  destruct (Z.le_gt_cases a 0) as [Hz|Hp].
  { assert (0 < 2 ^ n) by (apply Z.pow_pos_nonneg; lia). lia. }
  assert (n <= Z.log2 a) as Hl by (apply Z.log2_le_pow2; lia).
  specialize (Hb (Z.log2 a) Hl). rewrite Z.bit_log2 in Hb by lia. discriminate.
Qed.

Lemma bits_above a n i : 0 <= a < 2 ^ n -> n <= i -> Z.testbit a i = false.
Proof.
  intros Ha Hi. destruct (decide (a = 0)) as [->|]; [apply Z.bits_0|].
  apply Z.bits_above_log2; [lia|]. assert (Z.log2 a < n) by (apply Z.log2_lt_pow2; lia). lia.
Qed.

Lemma lxor_u32 a b : u32 a -> u32 b -> u32 (Z.lxor a b).
Proof.
  intros Ha Hb. change 4294967296 with (2 ^ 32) in *.
  assert (0 <= Z.lxor a b) by (apply Z.lxor_nonneg; lia). split; [done|].
  apply below_pow2_bits; [lia|done|]. intros i Hi.
  rewrite Z.lxor_spec, !(bits_above _ 32) by done. done.
Qed.

Lemma land_u32 a b : u32 a -> u32 (Z.land a b).
Proof.
  intros Ha. change 4294967296 with (2 ^ 32) in *.
  assert (0 <= Z.land a b) by (apply Z.land_nonneg; lia). split; [done|].
  apply below_pow2_bits; [lia|done|]. intros i Hi.
  rewrite Z.land_spec, (bits_above a 32) by done. done.
Qed.
End bitwise.

(** Arithmetic on lengths: push every [length] inwards, then [lia]. *)
Ltac len := autorewrite with fqlen in *; lia.

(** ** The lexicographic order on byte strings, which is how Rust compares slices *)

Fixpoint lex_cmp (a b : list Z) : comparison :=
  match a, b with
  | [], [] => Eq
  | [], _ :: _ => Lt
  | _ :: _, [] => Gt
  | x :: a, y :: b =>
      match (x ?= y)%Z with
      | Eq => lex_cmp a b
      | c => c
      end
  end.

Definition lex_lt (a b : list Z) : Prop := lex_cmp a b = Lt.
Definition lex_le (a b : list Z) : Prop := lex_cmp a b <> Gt.

Declare Scope key_scope.
Delimit Scope key_scope with key.
Notation "a ≺ b" := (lex_lt a b) (at level 70) : key_scope.
Notation "a ≼ b" := (lex_le a b) (at level 70) : key_scope.

Section lex.
Local Open Scope key_scope.

Lemma lex_cmp_refl a : lex_cmp a a = Eq.
Proof. induction a; cbn; [done|]. by rewrite Z.compare_refl. Qed.

Lemma lex_cmp_eq a b : lex_cmp a b = Eq <-> a = b.
Proof.
  split; [|intros ->; apply lex_cmp_refl].
  revert b. induction a as [|x a IH]; intros [|y b]; cbn; try done.
  destruct (Z.compare_spec x y); try done. intros H'. by f_equal; [|apply IH].
Qed.

Lemma lex_cmp_antisym a b : lex_cmp b a = CompOpp (lex_cmp a b).
Proof.
  revert b. induction a as [|x a IH]; intros [|y b]; cbn; try done.
  rewrite Z.compare_antisym. by destruct (x ?= y)%Z; cbn.
Qed.

Lemma lex_lt_trans a b c : a ≺ b -> b ≺ c -> a ≺ c.
Proof.
  unfold lex_lt. revert b c. induction a as [|x a IH]; intros [|y b] [|z c]; cbn; try done.
  destruct (Z.compare_spec x y), (Z.compare_spec y z); intros; subst; try done.
  - rewrite Z.compare_refl. eauto.
  - destruct (Z.compare_spec y z); done || lia.
  - destruct (Z.compare_spec x z); done || lia.
  - destruct (Z.compare_spec x z); done || lia.
Qed.

#[export] Instance lex_lt_strict : StrictOrder lex_lt.
Proof.
  split.
  - intros a H. unfold lex_lt in H. by rewrite lex_cmp_refl in H.
  - intros a b c. apply lex_lt_trans.
Qed.

#[export] Instance lex_lt_dec a b : Decision (a ≺ b).
Proof. unfold lex_lt. destruct (lex_cmp a b); (left; done) || (right; done). Defined.

Lemma lex_lt_irrefl a : ~ a ≺ a.
Proof. apply irreflexivity. apply _. Qed.

Lemma lex_gt_lt a b : lex_cmp a b = Gt <-> b ≺ a.
Proof. unfold lex_lt. rewrite (lex_cmp_antisym a b). by destruct (lex_cmp a b). Qed.

Lemma lex_le_lt_or_eq a b : a ≼ b <-> a ≺ b \/ a = b.
Proof.
  unfold lex_le, lex_lt. rewrite <- lex_cmp_eq. destruct (lex_cmp a b); intuition congruence.
Qed.

Lemma lex_not_lt a b : ~ a ≺ b <-> b ≼ a.
Proof. unfold lex_le. by rewrite lex_gt_lt. Qed.

Lemma lex_le_refl a : a ≼ a.
Proof. apply lex_le_lt_or_eq. auto. Qed.

Lemma lex_le_lt_trans a b c : a ≼ b -> b ≺ c -> a ≺ c.
Proof. intros [?| ->]%lex_le_lt_or_eq ?; [by etransitivity|done]. Qed.

Lemma lex_lt_le_trans a b c : a ≺ b -> b ≼ c -> a ≺ c.
Proof. intros ? [?| ->]%lex_le_lt_or_eq; [by etransitivity|done]. Qed.

Lemma lex_le_trans a b c : a ≼ b -> b ≼ c -> a ≼ c.
Proof.
  intros H [H'| ->]%lex_le_lt_or_eq; [|done].
  apply lex_le_lt_or_eq. left. by eapply lex_le_lt_trans.
Qed.

Lemma lex_lt_le a b : a ≺ b -> a ≼ b.
Proof. intros. apply lex_le_lt_or_eq. auto. Qed.

Lemma lex_total a b : a ≺ b \/ a = b \/ b ≺ a.
Proof.
  destruct (lex_cmp a b) eqn:E.
  - right; left. by apply lex_cmp_eq.
  - by left.
  - right; right. by apply lex_gt_lt.
Qed.

Lemma lex_nil_le a : [] ≼ a.
Proof. by destruct a. Qed.

Lemma lex_lt_cons x y a b : x :: a ≺ y :: b <-> (x < y)%Z \/ x = y /\ a ≺ b.
Proof. unfold lex_lt. cbn [lex_cmp]. destruct (Z.compare_spec x y); intuition (congruence || lia). Qed.

Lemma lex_le_cons x y a b : x :: a ≼ y :: b <-> (x < y)%Z \/ x = y /\ a ≼ b.
Proof. unfold lex_le. cbn [lex_cmp]. destruct (Z.compare_spec x y); intuition (congruence || lia). Qed.

Lemma lex_lt_nil a : ~ a ≺ [].
Proof. by destruct a. Qed.

(** A common prefix does not influence the comparison. *)
Lemma lex_cmp_app p a b : lex_cmp (p ++ a) (p ++ b) = lex_cmp a b.
Proof. induction p; cbn; [done|]. by rewrite Z.compare_refl. Qed.

Lemma lex_prefix_le p a : p ≼ p ++ a.
Proof. rewrite <- (app_nil_r p) at 1. unfold lex_le. rewrite lex_cmp_app. by destruct a. Qed.

(** Strings of equal length: what follows them decides only when they are equal. *)
Lemma lex_cmp_app_same_length a b x y :
  length a = length b ->
  lex_cmp (a ++ x) (b ++ y) = match lex_cmp a b with Eq => lex_cmp x y | c => c end.
Proof.
  revert b. induction a as [|z a IH]; intros [|w b] H; cbn in *; try done.
  destruct (z ?= w)%Z; auto.
Qed.
End lex.

#[export] Hint Resolve lex_lt_trans lex_le_lt_trans lex_lt_le_trans lex_le_trans lex_lt_le
  lex_le_refl lex_nil_le : fq.
