(* ===== verification/Lru.v ===== *)
(** * Use order
    ([src/src/storage/cache.rs], [pager.rs], [heap.rs])

    Three structures keep at most a given number of entries and drop the
    least recently used one: the record cache, the buffer pool of a paged
    file and the table of open segments.  Each holds a map of entries stamped
    with a tick, a map from ticks back to keys, and the last tick.  This file
    states what ties the two maps together and proves what touching, admitting
    and forgetting an entry does to it. *)

From Stdlib Require Import ZArith Lia.
From stdpp Require Import base tactics list option gmap sorting.
From S2P Require Import Prelude.

Local Open Scope Z_scope.

(** ** The order, oldest first *)

Definition tick_le {A} (a b : Z * A) : Prop := a.1 <= b.1.

#[export] Instance tick_le_dec {A} (a b : Z * A) : Decision (tick_le a b).
Proof. unfold tick_le. apply _. Defined.

#[export] Instance tick_le_total {A} : Total (@tick_le A).
Proof. intros a b. unfold tick_le. lia. Qed.

#[export] Instance tick_le_trans {A} : Transitive (@tick_le A).
Proof. intros a b c. unfold tick_le. lia. Qed.

(** [BTreeMap::iter]: the entries in the order of their ticks. *)
Definition in_order {A} (m : gmap Z A) : list (Z * A) := merge_sort tick_le (map_to_list m).

Definition oldest {A} (m : gmap Z A) : option (Z * A) := head (in_order m).

Lemma in_order_elem {A} (m : gmap Z A) t a : (t, a) ∈ in_order m <-> m !! t = Some a.
Proof. unfold in_order. rewrite merge_sort_Permutation. apply elem_of_map_to_list. Qed.

Lemma oldest_spec {A} (m : gmap Z A) :
  match oldest m with
  | Some (t, a) => m !! t = Some a /\ forall t' a', m !! t' = Some a' -> t <= t'
  | None => m = ∅
  end.
Proof.
  unfold oldest. pose proof (StronglySorted_merge_sort tick_le (map_to_list m)) as Hs.
  pose proof (in_order_elem m) as Hin. fold (in_order m) in Hs. destruct (in_order m) as [|[t a] l]; cbn [head].
  - apply map_empty. intros t. destruct (m !! t) as [a|] eqn:E; [|done]. apply Hin, not_elem_of_nil in E as [].
  - split; [apply Hin; left|]. intros t' a' E%Hin. apply StronglySorted_inv in Hs as [_ Hall].
    apply elem_of_cons in E as [[= -> ->]|E]; [lia|]. by eapply Forall_forall in E; [|exact Hall].
Qed.

(** ** The two maps agree *)

Section lru.
Context {K : Type} `{Countable K}.
Implicit Types (ticks : gmap K Z) (order : gmap Z K).

Record lru_ok ticks order (tick : Z) : Prop := {
  lru_agree k t : ticks !! k = Some t <-> order !! t = Some k;
  lru_bound t k : order !! t = Some k -> t <= tick;
}.

Lemma lru_empty : lru_ok ∅ ∅ 0.
Proof. split; [intros k t|intros t k]; rewrite !lookup_empty; [by split|done]. Qed.

Lemma lru_fresh ticks order tick : lru_ok ticks order tick -> order !! (tick + 1) = None.
Proof. intros Hl. destruct (order !! (tick + 1)) as [k|] eqn:E; [|done]. apply (lru_bound _ _ _ Hl) in E. lia. Qed.

Lemma lru_forget ticks order tick k t : lru_ok ticks order tick -> ticks !! k = Some t ->
  lru_ok (delete k ticks) (delete t order) tick.
Proof.
  intros Hl Hk. pose proof (lru_agree _ _ _ Hl) as Ha. split.
  - intros k' t'. rewrite !lookup_delete_Some, Ha. apply Ha in Hk. split; intros [Hne Ho]; (split; [|done]); intros <-.
    + rewrite Hk in Ho. by injection Ho as ->.
    + apply Ha in Hk, Ho. congruence.
  - intros t' k' [_ Ho]%lookup_delete_Some. by apply (lru_bound _ _ _ Hl) in Ho.
Qed.

Lemma lru_admit ticks order tick k : lru_ok ticks order tick -> ticks !! k = None ->
  lru_ok (<[k := tick + 1]> ticks) (<[tick + 1 := k]> order) (tick + 1).
Proof.
  intros Hl Hk. pose proof (lru_agree _ _ _ Hl) as Ha. pose proof (lru_fresh _ _ _ Hl) as Hf. split.
  - intros k' t'. rewrite !lookup_insert_Some. split.
    + intros [[-> <-]|[Hne Ht]]; [by left|]. right. split; [|by apply Ha]. intros <-. apply Ha in Ht. congruence.
    + intros [[<- ->]|[Hne Ht]]; [by left|]. right. split; [|by apply Ha]. intros <-. apply Ha in Ht. congruence.
  - intros t' k' [[<- _]|[_ Ho]]%lookup_insert_Some; [lia|]. apply (lru_bound _ _ _ Hl) in Ho. lia.
Qed.

(** A use moves an entry to the end of the order. *)
Lemma lru_touch ticks order tick k t : lru_ok ticks order tick -> ticks !! k = Some t ->
  lru_ok (<[k := tick + 1]> ticks) (<[tick + 1 := k]> (delete t order)) (tick + 1).
Proof.
  intros Hl Hk. rewrite <- insert_delete_eq. apply lru_admit; [by apply lru_forget|apply lookup_delete_eq].
Qed.

Lemma lru_size ticks order tick : lru_ok ticks order tick -> size order = size ticks.
Proof.
  intros Hl. pose proof (lru_agree _ _ _ Hl) as Ha. rewrite <- (length_map_to_list order), <- (length_map_to_list ticks).
  rewrite <- (length_fmap (fun p : Z * K => (p.2, p.1)) (map_to_list order)).
  apply Permutation_length, NoDup_Permutation.
  - apply NoDup_fmap_2; [|apply NoDup_map_to_list]. intros [] []. cbn. congruence.
  - apply NoDup_map_to_list.
  - intros [k t]. rewrite elem_of_map_to_list, Ha, list_elem_of_fmap. split.
    + intros ([t' k'] & [= -> ->] & Ho%elem_of_map_to_list). done.
    + intros Ho. exists (t, k). split; [done|]. by apply elem_of_map_to_list.
Qed.

(** The oldest entry is the newest only when it is alone. *)
Lemma lru_alone ticks order tick k : lru_ok ticks order tick -> order !! tick = Some k -> oldest order = Some (tick, k) -> size ticks = 1%nat.
Proof.
  intros Hl Hk Ho. rewrite <- (lru_size _ _ _ Hl). pose proof (oldest_spec order) as Hs. rewrite Ho in Hs. destruct Hs as [_ Hmin].
  assert (order = {[tick := k]}) as ->; [|apply map_size_singleton]. apply map_eq. intros t. destruct (decide (t = tick)) as [->|Hne].
  - by rewrite lookup_singleton_eq.
  - rewrite lookup_singleton_ne by done. destruct (order !! t) as [k'|] eqn:E; [|done]. pose proof (Hmin _ _ E). pose proof (lru_bound _ _ _ Hl _ _ E). lia.
Qed.

Lemma lru_oldest ticks order tick : lru_ok ticks order tick -> (0 < size ticks)%nat ->
  exists t k, oldest order = Some (t, k) /\ ticks !! k = Some t.
Proof.
  intros Hl Hs. pose proof (oldest_spec order) as Ho. destruct (oldest order) as [[t k]|] eqn:E.
  - exists t, k. split; [done|]. apply (lru_agree _ _ _ Hl), Ho.
  - rewrite <- (lru_size _ _ _ Hl), Ho, map_size_empty in Hs. lia.
Qed.
End lru.
