(* ===== verification/Utf8.v ===== *)
(** * Characters and their UTF-8 bytes

    What the program uses of [str] and [char]: decoding a byte string into its
    characters, encoding characters, and [str::from_utf8]'s refusal of byte
    strings that encode nothing.  A character is its scalar value. *)

From Stdlib Require Import ZArith Lia.
From stdpp Require Import base tactics list option.
From S2P Require Import Prelude.
Local Open Scope Z_scope.

(** [String::push] and [str::chars]. *)
Definition utf8 (c : Z) : list Z :=
  if c <? 128 then [c]
  else if c <? 2048 then [192 + c / 64; 128 + c mod 64]
  else if c <? 65536 then [224 + c / 4096; 128 + (c / 64) mod 64; 128 + c mod 64]
  else [240 + c / 262144; 128 + (c / 4096) mod 64; 128 + (c / 64) mod 64; 128 + c mod 64].

Fixpoint chars_of (l : list Z) : list Z :=
  match l with
  | [] => []
  | b0 :: l1 =>
      if b0 <? 128 then b0 :: chars_of l1
      else match l1 with
      | [] => []
      | b1 :: l2 =>
          if b0 <? 224 then ((b0 - 192) * 64 + b1 mod 64) :: chars_of l2
          else match l2 with
          | [] => []
          | b2 :: l3 =>
              if b0 <? 240 then ((b0 - 224) * 4096 + (b1 mod 64) * 64 + b2 mod 64) :: chars_of l3
              else match l3 with
              | [] => []
              | b3 :: l4 =>
                  ((b0 - 240) * 262144 + (b1 mod 64) * 4096 + (b2 mod 64) * 64 + b3 mod 64) :: chars_of l4
              end
          end
      end
  end.

(** A scalar value: in range and not a surrogate. *)
Definition is_scalar (c : Z) : bool := ((0 <=? c) && (c <? 55296)) || ((57344 <=? c) && (c <? 1114112)).

(** [std::str::from_utf8]: the characters, if the bytes are exactly their encoding. *)
Definition from_utf8 (l : list Z) : option (list Z) :=
  let cs := chars_of l in
  if forallb is_scalar cs && bool_decide (flat_map utf8 cs = l) then Some cs else None.

(** ** Round trips *)

Definition scalar (c : Z) : Prop := 0 <= c < 1114112.

Lemma chars_of_utf8 c l : scalar c -> chars_of (utf8 c ++ l) = c :: chars_of l.
Proof.
  unfold scalar, utf8. intros Hc. repeat case_goal; breflect; cbn [app chars_of].
  - by apply Z.ltb_lt in E as ->.
  - destruct (Z.ltb_spec (192 + c / 64) 128), (Z.ltb_spec (192 + c / 64) 224);
      try (exfalso; Z.to_euclidean_division_equations; lia).
    f_equal. Z.to_euclidean_division_equations; lia.
  - destruct (Z.ltb_spec (224 + c / 4096) 128), (Z.ltb_spec (224 + c / 4096) 224), (Z.ltb_spec (224 + c / 4096) 240);
      try (exfalso; Z.to_euclidean_division_equations; lia).
    f_equal. Z.to_euclidean_division_equations; lia.
  - destruct (Z.ltb_spec (240 + c / 262144) 128), (Z.ltb_spec (240 + c / 262144) 224), (Z.ltb_spec (240 + c / 262144) 240);
      try (exfalso; Z.to_euclidean_division_equations; lia).
    f_equal. Z.to_euclidean_division_equations; lia.
Qed.

Lemma utf8_bytes c : scalar c -> bytes (utf8 c).
Proof.
  unfold scalar, utf8. intros Hc. repeat case_goal; breflect; repeat apply Forall_cons_2; try apply Forall_nil_2;
    unfold is_byte; Z.to_euclidean_division_equations; lia.
Qed.

Lemma flat_utf8_bytes cs : Forall scalar cs -> bytes (flat_map utf8 cs).
Proof. induction 1 as [|c cs Hc _ IH]; cbn; [constructor|]. apply Forall_app_2; [by apply utf8_bytes|done]. Qed.


Lemma chars_of_flat cs : Forall scalar cs -> chars_of (flat_map utf8 cs) = cs.
Proof.
  induction 1 as [|c cs Hc Hcs IH]; [done|]. cbn [flat_map]. rewrite chars_of_utf8 by done. by rewrite IH.
Qed.

(** ASCII bytes are their own characters. *)
Lemma utf8_ascii l : Forall (fun c => 0 <= c < 128) l -> flat_map utf8 l = l.
Proof.
  induction 1 as [|c l Hc _ IH]; [done|]. cbn [flat_map]. rewrite IH. unfold utf8.
  destruct (Z.ltb_spec c 128); [done|lia].
Qed.

Lemma from_utf8_ascii l : Forall (fun c => 0 <= c < 128) l -> from_utf8 l = Some l.
Proof.
  intros Hl. unfold from_utf8. assert (chars_of l = l) as ->.
  { rewrite <- (utf8_ascii l Hl) at 1. apply chars_of_flat. induction Hl; constructor; [unfold scalar; lia|done]. }
  rewrite utf8_ascii, bool_decide_eq_true_2 by done. rewrite andb_true_r.
  assert (forallb is_scalar l = true) as ->; [|done].
  induction Hl as [|c l Hc _ IH]; [done|]. cbn [forallb]. rewrite IH, andb_true_r. unfold is_scalar. lia.
Qed.
