(* ===== verification/Crypto.v ===== *)
(** * Encryption envelope and hexadecimal text ([src/src/crypto.rs])

    [encrypt] and [decrypt] wrap an AEAD cipher (the [aes_gcm] crate, which is
    not part of this repository and is the class [Aead] here): a blob is a
    12-byte nonce followed by the sealed text.  [encode_hex]/[decode_hex] are
    the text form of a WAL frame; [key_defect_in] is the startup check on
    [FACETQL_MASTER_KEY]. *)

From Stdlib Require Import ZArith Lia.
From stdpp Require Import base tactics list option.
From S2P Require Import Prelude.

Local Open Scope Z_scope.

(** ** The cipher, as the engine relies on it

    What [aes_gcm] documents of AES-256-GCM: opening what was sealed under the
    same nonce gives the plaintext back, and the tag costs 16 bytes. *)

Definition NONCE_LEN : nat := 12.
Definition TAG_LEN : nat := 16.

Class Aead := {
  aead_seal : list Z -> list Z -> list Z;
  aead_open : list Z -> list Z -> option (list Z);
  aead_open_seal : forall nonce text, aead_open nonce (aead_seal nonce text) = Some text;
  aead_seal_length : forall nonce text, length (aead_seal nonce text) = (length text + TAG_LEN)%nat;
  aead_seal_bytes : forall nonce text, bytes text -> bytes (aead_seal nonce text);
}.

(** A serializer for [T] (the [bincode] crate): it may refuse a value, and
    what it produces reads back as the value. *)
Class Bincode (T : Type) := {
  bincode_serialize : T -> option (list Z);
  bincode_deserialize : list Z -> option T;
  bincode_roundtrip : forall x b, bincode_serialize x = Some b -> bincode_deserialize b = Some x;
  bincode_bytes : forall x b, bincode_serialize x = Some b -> bytes b;
}.

(** ** Sealed blobs *)

Section sealed.
Context `{Aead}.

(** [encrypt] draws a fresh 12-byte nonce; the nonce is its argument here. *)
Definition encrypt (nonce plaintext : list Z) : list Z :=
  nonce ++ aead_seal nonce plaintext.

Definition decrypt (blob : list Z) : option (list Z) :=
  if (length blob <? NONCE_LEN)%nat then None
  else aead_open (take NONCE_LEN blob) (drop NONCE_LEN blob).

Lemma decrypt_encrypt nonce text :
  length nonce = NONCE_LEN -> decrypt (encrypt nonce text) = Some text.
Proof.
  intros Hn. unfold decrypt, encrypt.
  destruct (Nat.ltb_spec (length (nonce ++ aead_seal nonce text)) NONCE_LEN) as [Hlt|_].
  { rewrite length_app, Hn in Hlt. lia. }
  rewrite take_app_length', drop_app_length' by done. apply aead_open_seal.
Qed.

Lemma length_encrypt nonce text :
  length nonce = NONCE_LEN -> length (encrypt nonce text) = (NONCE_LEN + length text + TAG_LEN)%nat.
Proof. intros Hn. unfold encrypt. rewrite length_app, aead_seal_length, Hn. lia. Qed.

Lemma encrypt_bytes nonce text : bytes nonce -> bytes text -> bytes (encrypt nonce text).
Proof. intros. unfold encrypt. apply Forall_app_2; [done|]. by apply aead_seal_bytes. Qed.
End sealed.

(** A concrete cipher for the witnesses: the text followed by sixteen zero
    bytes of tag.  It satisfies the laws, nothing more. *)
Definition open_null (nonce text : list Z) : option (list Z) :=
  Some (take (length text - TAG_LEN) text).

Definition null_aead : Aead.
Proof.
  refine {| aead_seal := fun _ t => t ++ replicate TAG_LEN 0; aead_open := open_null |}.
  - intros n t. unfold open_null. f_equal. rewrite length_app, length_replicate.
    rewrite Nat.add_sub. apply take_app_length.
  - intros n t. by rewrite length_app, length_replicate.
  - intros n t Ht. apply Forall_app_2; [done|]. by repeat constructor.
Defined.

(** ** Hexadecimal text

    A [str] is the list of its characters (Unicode scalar values); an ASCII
    string is also the list of its bytes. *)

(** [char::is_whitespace], which [str::trim] removes at both ends. *)
Definition is_whitespace (c : Z) : bool :=
  ((9 <=? c) && (c <=? 13)) || (c =? 32) || (c =? 133) || (c =? 160) || (c =? 5760)
  || ((8192 <=? c) && (c <=? 8202)) || (c =? 8232) || (c =? 8233) || (c =? 8239)
  || (c =? 8287) || (c =? 12288).

Fixpoint trim_start (s : list Z) : list Z :=
  match s with
  | [] => []
  | c :: s' => if is_whitespace c then trim_start s' else s
  end.

Definition trim (s : list Z) : list Z := reverse (trim_start (reverse (trim_start s))).

(** UTF-8 width of a character. *)
Definition char_len (c : Z) : nat :=
  if c <? 128 then 1 else if c <? 2048 then 2 else if c <? 65536 then 3 else 4.

Definition str_len (s : list Z) : nat := list_sum (map char_len s).

Definition to_digit16 (c : Z) : option Z :=
  if (48 <=? c) && (c <=? 57) then Some (c - 48)
  else if (97 <=? c) && (c <=? 102) then Some (c - 87)
  else if (65 <=? c) && (c <=? 70) then Some (c - 55)
  else None.

(** [u8::from_str_radix(pair, 16)] on a two-character slice; a leading [+] is
    the sign the standard library accepts. *)
Definition from_str_radix16 (a b : Z) : option Z :=
  if a =? 43 then to_digit16 b
  else match to_digit16 a, to_digit16 b with
       | Some x, Some y => Some (16 * x + y)
       | _, _ => None
       end.

(** What [decode_hex] does: bytes, an error message, or the panic of slicing a
    [str] inside a character. *)
Inductive hex_outcome : Type :=
| HexOk (bs : list Z)
| HexErr
| HexPanic.

Fixpoint decode_pairs (s : list Z) : hex_outcome :=
  match s with
  | [] => HexOk []
  | c :: s' =>
      match char_len c with
      | 1%nat =>
          match s' with
          | [] => HexPanic
          | d :: s'' =>
              if (char_len d =? 1)%nat then
                match from_str_radix16 c d with
                | None => HexErr
                | Some b =>
                    match decode_pairs s'' with
                    | HexOk bs => HexOk (b :: bs)
                    | e => e
                    end
                end
              else HexPanic
          end
      | 2%nat => HexErr
      | _ => HexPanic
      end
  end.

Definition decode_hex (s : list Z) : hex_outcome :=
  let s := trim s in
  if Nat.odd (str_len s) then HexErr else decode_pairs s.

Definition hex_digit (n : Z) : Z := if n <? 10 then 48 + n else 87 + n.

Definition hex_byte (b : Z) : list Z := [hex_digit (b / 16); hex_digit (b mod 16)].

Definition encode_hex (bs : list Z) : list Z := concat (map hex_byte bs).

(** ** Properties of the text form *)

Definition is_ascii (c : Z) : Prop := 0 <= c < 128.

(** The characters [encode_hex] writes. *)
Definition is_hex_digit (c : Z) : Prop := 48 <= c <= 57 \/ 97 <= c <= 102.

Lemma hex_digit_is_hex n : 0 <= n < 16 -> is_hex_digit (hex_digit n).
Proof. intros. unfold hex_digit, is_hex_digit. destruct (Z.ltb_spec n 10); lia. Qed.

Lemma to_digit16_hex_digit n : 0 <= n < 16 -> to_digit16 (hex_digit n) = Some n.
Proof.
  intros. unfold to_digit16, hex_digit.
  destruct (Z.ltb_spec n 10).
  - destruct (Z.leb_spec 48 (48 + n)), (Z.leb_spec (48 + n) 57); cbn; try lia. f_equal; lia.
  - destruct (Z.leb_spec 48 (87 + n)), (Z.leb_spec (87 + n) 57); cbn; try lia.
    destruct (Z.leb_spec 97 (87 + n)), (Z.leb_spec (87 + n) 102); cbn; try lia. f_equal; lia.
Qed.

Lemma byte_nibbles b : is_byte b -> 0 <= b / 16 < 16 /\ 0 <= b mod 16 < 16.
Proof.
  intros [? ?]. split; [|apply Z.mod_pos_bound; lia].
  split; [apply Z.div_pos; lia | apply Z.div_lt_upper_bound; lia].
Qed.

Lemma encode_hex_digits bs : bytes bs -> Forall is_hex_digit (encode_hex bs).
Proof.
  induction 1 as [|b bs Hb _ IH]; cbn; [constructor|].
  destruct (byte_nibbles b Hb). do 2 (apply Forall_cons_2; [by apply hex_digit_is_hex|]). exact IH.
Qed.

Lemma length_encode_hex bs : length (encode_hex bs) = (2 * length bs)%nat.
Proof. induction bs as [|b bs IH]; [done|]. unfold encode_hex in *. cbn [map concat]. rewrite length_app, IH. cbn. lia. Qed.

Lemma encode_hex_app a b : encode_hex (a ++ b) = encode_hex a ++ encode_hex b.
Proof. unfold encode_hex. by rewrite map_app, concat_app. Qed.

Lemma hex_digit_not_space c : is_hex_digit c -> is_whitespace c = false.
Proof.
  unfold is_hex_digit, is_whitespace. intros.
  rewrite !orb_false_iff, !andb_false_iff, !Z.eqb_neq, !Z.leb_gt. lia.
Qed.

Lemma trim_start_hex s : Forall is_hex_digit s -> trim_start s = s.
Proof. destruct 1 as [|c s Hc _]; cbn; [done|]. by rewrite hex_digit_not_space. Qed.

Lemma trim_hex s : Forall is_hex_digit s -> trim s = s.
Proof.
  intros Hs. unfold trim. rewrite (trim_start_hex s) by done.
  rewrite trim_start_hex by by apply Forall_reverse. apply reverse_involutive.
Qed.

Lemma char_len_hex c : is_hex_digit c -> char_len c = 1%nat.
Proof. unfold is_hex_digit, char_len. intros. destruct (Z.ltb_spec c 128); lia. Qed.

Lemma str_len_cons c s : str_len (c :: s) = (char_len c + str_len s)%nat.
Proof. reflexivity. Qed.

Lemma str_len_hex s : Forall is_hex_digit s -> str_len s = length s.
Proof.
  induction 1 as [|c s Hc _ IH]; [done|]. rewrite str_len_cons. by rewrite char_len_hex, IH.
Qed.

Lemma from_str_radix16_hex b : is_byte b -> from_str_radix16 (hex_digit (b / 16)) (hex_digit (b mod 16)) = Some b.
Proof.
  intros Hb. destruct (byte_nibbles b Hb) as [H1 H2]. unfold from_str_radix16.
  destruct (Z.eqb_spec (hex_digit (b / 16)) 43) as [E|_].
  { pose proof (hex_digit_is_hex _ H1). unfold is_hex_digit in *. lia. }
  rewrite !to_digit16_hex_digit by done. f_equal. rewrite Z.add_comm, Z.mul_comm, Z.add_comm.
  pose proof (Z.div_mod b 16). lia.
Qed.

Lemma decode_pairs_encode bs s :
  bytes bs -> decode_pairs (encode_hex bs ++ s) =
    match decode_pairs s with HexOk t => HexOk (bs ++ t) | e => e end.
Proof.
  induction 1 as [|b bs Hb _ IH]; cbn -[from_str_radix16 char_len Z.div Z.modulo].
  - by destruct (decode_pairs s).
  - destruct (byte_nibbles b Hb) as [H1 H2].
    rewrite !char_len_hex by by apply hex_digit_is_hex. cbn [Nat.eqb].
    rewrite from_str_radix16_hex by done.
    unfold encode_hex in IH. rewrite IH. by destruct (decode_pairs s).
Qed.

Lemma decode_pairs_encode_hex bs : bytes bs -> decode_pairs (encode_hex bs) = HexOk bs.
Proof.
  intros Hb. pose proof (decode_pairs_encode bs [] Hb) as E. cbn [decode_pairs] in E.
  by rewrite !app_nil_r in E.
Qed.

Lemma decode_hex_encode_hex bs : bytes bs -> decode_hex (encode_hex bs) = HexOk bs.
Proof.
  intros Hb. unfold decode_hex.
  pose proof (encode_hex_digits bs Hb) as Hd.
  rewrite trim_hex, str_len_hex, length_encode_hex by done.
  rewrite Nat.odd_mul. cbn [Nat.odd Nat.even negb andb].
  by apply decode_pairs_encode_hex.
Qed.

(** Any initial segment of a written frame decodes: an odd cut is a reported
    error, an even one yields the bytes written so far. *)
Lemma decode_hex_take bs n :
  bytes bs ->
  decode_hex (take n (encode_hex bs)) =
    if Nat.odd (Nat.min n (2 * length bs)) then HexErr else HexOk (take (Nat.div2 n) bs).
Proof.
  intros Hb. unfold decode_hex.
  assert (Forall is_hex_digit (take n (encode_hex bs))) as Hd by by apply Forall_take, encode_hex_digits.
  rewrite trim_hex, str_len_hex, length_take, length_encode_hex by done.
  destruct (Nat.odd (n `min` (2 * length bs))) eqn:Eo; [done|].
  assert (take n (encode_hex bs) = encode_hex (take (Nat.div2 n) bs)) as ->.
  { destruct (decide (2 * length bs <= n)%nat) as [Hle|Hgt].
    - rewrite take_ge by (rewrite length_encode_hex; lia).
      rewrite take_ge; [done|]. rewrite Nat.div2_div. apply Nat.div_le_lower_bound; lia.
    - rewrite Nat.min_l in Eo by lia.
      assert (n = 2 * Nat.div2 n)%nat as En.
      { rewrite (Nat.div2_odd n) at 1. rewrite Eo. cbn. lia. }
      rewrite En at 1. rewrite <- (take_drop (Nat.div2 n) bs) at 1.
      rewrite encode_hex_app. rewrite take_app_length'; [done|].
      rewrite length_encode_hex, length_take. lia. }
  by apply decode_pairs_encode_hex, Forall_take.
Qed.

(** [decode_hex] reports an error rather than panicking on any ASCII input. *)
Lemma char_len_ascii c : is_ascii c -> char_len c = 1%nat.
Proof. unfold is_ascii, char_len. intros. destruct (Z.ltb_spec c 128); lia. Qed.

Lemma str_len_ascii s : Forall is_ascii s -> str_len s = length s.
Proof.
  induction 1 as [|c s Hc _ IH]; [done|]. rewrite str_len_cons. by rewrite char_len_ascii, IH.
Qed.

Lemma Forall_trim_start (P : Z -> Prop) s : Forall P s -> Forall P (trim_start s).
Proof. induction 1; cbn; [constructor|]. case_match; auto. Qed.

Lemma Forall_trim (P : Z -> Prop) s : Forall P s -> Forall P (trim s).
Proof. intros. unfold trim. by apply Forall_reverse, Forall_trim_start, Forall_reverse, Forall_trim_start. Qed.

Lemma decode_pairs_ascii s : Forall is_ascii s -> Nat.even (length s) = true -> decode_pairs s <> HexPanic.
Proof.
  intros Hs. remember (length s) as n eqn:En. revert s Hs En.
  induction n as [n IH] using lt_wf_ind. intros s Hs En He. destruct s as [|c [|d s]].
  - done.
  - subst n. done.
  - inversion Hs as [|? ? Hc Hs']; subst. inversion Hs' as [|? ? Hd Hs'']; subst.
    cbn [decode_pairs]. rewrite !char_len_ascii by done. cbn [Nat.eqb].
    destruct (from_str_radix16 c d); [|done].
    specialize (IH (length s)). cbn in He.
    assert (decode_pairs s <> HexPanic) by (eapply IH; eauto; cbn; lia).
    by destruct (decode_pairs s).
Qed.

(** ** The master key *)

Inductive key_defect : Type :=
| NotConfigured
| Malformed
| AllZero.

(** What the startup check concludes: [KeyDefect] is [Some(defect)],
    [KeyAccepted] is [None], and [KeyPanic] is the panic of [decode_hex] on a
    variable that is not ASCII text. *)
Inductive key_check : Type :=
| KeyAccepted
| KeyDefect (d : key_defect)
| KeyPanic.

Definition key_defect_in (raw : option (list Z)) : key_check :=
  match raw with
  | None => KeyDefect NotConfigured
  | Some raw =>
      match decode_hex raw with
      | HexPanic => KeyPanic
      | HexErr => KeyDefect Malformed
      | HexOk bs =>
          if negb (length bs =? 32)%nat then KeyDefect Malformed
          else if forallb (fun b => b =? 0) bs then KeyDefect AllZero
          else KeyAccepted
      end
  end.

Lemma forallb_zero_replicate bs : forallb (fun b => b =? 0) bs = true <-> bs = replicate (length bs) 0.
Proof.
  induction bs as [|b bs IH]; cbn; [done|]. rewrite andb_true_iff, Z.eqb_eq, IH.
  split; [intros [-> ->]; by rewrite length_replicate | intros [= -> ?]; auto].
Qed.
