(* ===== verification/Binary.v ===== *)
(** * Record frames, record logs and record locations
    ([src/src/storage/binary.rs], [src/src/storage/location.rs])

    [crc32_parts] is the checksum every durable structure uses.  A record frame
    is [magic | version | length | crc | payload]; [encode_frame]/[decode_frame]
    are its two directions, [read_one_frame] and [read_all_records_framed] the
    reader of an append-only log of frames (the user, index and reference
    definition logs), and [append_record] its writer.  [location_encode] and
    [location_decode] are the 14-byte physical address the indexes store. *)

From Stdlib Require Import ZArith Lia.
From stdpp Require Import base tactics list option.
From S2P Require Import Prelude Crypto.

Local Open Scope Z_scope.

(** ** CRC-32 (reflected polynomial 0xEDB88320) *)

Definition MASK32 : Z := 4294967295.

(** One of the eight inner steps; [mask] is [(crc & 1).wrapping_neg()]. *)
Definition crc_shift (crc : Z) : Z :=
  let mask := (- Z.land crc 1) mod 4294967296 in
  Z.lxor (Z.shiftr crc 1) (Z.land 3988292384 mask).

Definition crc_byte (crc byte : Z) : Z :=
  Nat.iter 8 crc_shift (Z.lxor crc byte).

Definition crc32_parts (parts : list (list Z)) : Z :=
  Z.lxor (fold_left (fun crc part => fold_left crc_byte part crc) parts MASK32) MASK32.

Definition crc32 (data : list Z) : Z := crc32_parts [data].

(** Every intermediate checksum is a 32-bit word. *)
Lemma crc_shift_u32 crc : u32 crc -> u32 (crc_shift crc).
Proof.
  intros. unfold crc_shift. apply lxor_u32.
  - rewrite Z.shiftr_div_pow2 by lia. change (2 ^ 1) with 2.
    split; [apply Z.div_pos; lia | apply Z.div_lt_upper_bound; lia].
  - apply land_u32. lia.
Qed.

Lemma crc_iter_u32 n crc : u32 crc -> u32 (Nat.iter n crc_shift crc).
Proof. intros Hc. induction n as [|n IH]; cbn [Nat.iter]; [done|]. by apply crc_shift_u32. Qed.

Lemma crc_byte_eq crc b : crc_byte crc b = Nat.iter 8 crc_shift (Z.lxor crc b).
Proof. unfold crc_byte. reflexivity. Qed.

Lemma crc_byte_u32 crc b : u32 crc -> is_byte b -> u32 (crc_byte crc b).
Proof.
  intros Hc Hb. assert (u32 b) as Hb' by (unfold is_byte in Hb; lia).
  rewrite crc_byte_eq. apply crc_iter_u32. by apply lxor_u32.
Qed.

Lemma crc_fold_u32 part crc : bytes part -> u32 crc -> u32 (fold_left crc_byte part crc).
Proof.
  intros Hp. apply (fold_left_inv (fun crc => u32 crc) is_byte); [|done].
  intros. by apply crc_byte_u32.
Qed.

Lemma crc32_parts_u32 parts : Forall (Forall is_byte) parts -> u32 (crc32_parts parts).
Proof.
  intros Hp. unfold crc32_parts. apply lxor_u32; [|unfold MASK32; lia].
  apply (fold_left_inv (fun crc => u32 crc) (Forall is_byte)); [|done|unfold MASK32; lia].
  intros. by apply crc_fold_u32.
Qed.

Lemma crc32_u32 data : bytes data -> u32 (crc32 data).
Proof. intros. apply crc32_parts_u32. by constructor. Qed.

(** *** No single-byte change goes unnoticed

    The top bit of a step's result tells which way the step went, so a step is
    injective, and with it the whole checksum in each byte of its input. *)

Lemma crc_shift_cases crc :
  u32 crc -> crc_shift crc = if Z.odd crc then Z.lxor (crc / 2) 3988292384 else crc / 2.
Proof.
  intros Hc. unfold crc_shift. rewrite Z.shiftr_div_pow2 by lia. change (2 ^ 1) with 2.
  change 1 with (Z.ones 1) at 1. rewrite Z.land_ones by lia. change (2 ^ 1) with 2. rewrite Zmod_odd.
  destruct (Z.odd crc); [done|]. change (- 0 mod 4294967296) with 0. by rewrite Z.land_0_r, Z.lxor_0_r.
Qed.

Lemma crc_shift_top crc : u32 crc -> Z.testbit (crc_shift crc) 31 = Z.odd crc.
Proof.
  intros Hc. rewrite crc_shift_cases by done.
  assert (Z.testbit (crc / 2) 31 = false) as Hb.
  { apply (bits_above _ 31); [|lia]. split; [apply Z.div_pos; lia|apply Z.div_lt_upper_bound; lia]. }
  destruct (Z.odd crc); [|done]. rewrite Z.lxor_spec, Hb. done.
Qed.

Lemma crc_shift_inj a b : u32 a -> u32 b -> crc_shift a = crc_shift b -> a = b.
Proof.
  intros Ha Hb E. assert (Z.odd a = Z.odd b) as Eo by (by rewrite <- !crc_shift_top, E).
  rewrite !crc_shift_cases, Eo in E by done. assert (a / 2 = b / 2) as Ed.
  { destruct (Z.odd b); [|done]. apply (f_equal (fun z => Z.lxor z 3988292384)) in E.
    by rewrite !Z.lxor_assoc, Z.lxor_nilpotent, !Z.lxor_0_r in E. }
  rewrite (Z.div_mod a 2), (Z.div_mod b 2), Ed, !Zmod_odd, Eo by lia. done.
Qed.

Lemma crc_iter_inj n a b : u32 a -> u32 b -> Nat.iter n crc_shift a = Nat.iter n crc_shift b -> a = b.
Proof.
  induction n as [|n IH]; intros Ha Hb E; [done|]. cbn [Nat.iter] in E.
  apply IH; auto. apply crc_shift_inj; auto using crc_iter_u32.
Qed.

Lemma lxor_inj_l a b c : Z.lxor a c = Z.lxor b c -> a = b.
Proof. intros E%(f_equal (fun z => Z.lxor z c)). by rewrite !Z.lxor_assoc, Z.lxor_nilpotent, !Z.lxor_0_r in E. Qed.

Lemma lxor_inj_r a b c : Z.lxor c a = Z.lxor c b -> a = b.
Proof. rewrite !(Z.lxor_comm c). apply lxor_inj_l. Qed.

Lemma byte_u32 b : is_byte b -> u32 b.
Proof. unfold is_byte. lia. Qed.

Lemma crc_byte_inj_state c c' b : u32 c -> u32 c' -> is_byte b -> crc_byte c b = crc_byte c' b -> c = c'.
Proof.
  intros Hc Hc' Hb%byte_u32. rewrite !crc_byte_eq. intros E%crc_iter_inj; auto using lxor_u32. by apply lxor_inj_l in E.
Qed.

Lemma crc_byte_inj_byte c b b' : u32 c -> is_byte b -> is_byte b' -> crc_byte c b = crc_byte c b' -> b = b'.
Proof.
  intros Hc Hb%byte_u32 Hb'%byte_u32. rewrite !crc_byte_eq. intros E%crc_iter_inj; auto using lxor_u32. by apply lxor_inj_r in E.
Qed.

Lemma crc32_parts_concat parts : crc32_parts parts = Z.lxor (fold_left crc_byte (concat parts) MASK32) MASK32.
Proof.
  unfold crc32_parts. f_equal. generalize MASK32.
  induction parts as [|p parts IH]; intros c; [done|]. cbn [fold_left concat]. by rewrite IH, fold_left_app.
Qed.

Lemma crc_fold_byte_changed l i x b c :
  bytes l -> is_byte b -> u32 c -> l !! i = Some x -> x <> b ->
  fold_left crc_byte (<[i := b]> l) c <> fold_left crc_byte l c.
Proof.
  apply (fold_left_changed (fun c => u32 c) is_byte crc_byte).
  - apply crc_byte_u32.
  - apply crc_byte_inj_state.
  - apply crc_byte_inj_byte.
Qed.

(** Changing one byte of the input changes the checksum. *)
Lemma crc32_parts_changed parts parts' i x b :
  concat parts' = <[i := b]> (concat parts) -> bytes (concat parts) -> is_byte b -> concat parts !! i = Some x -> x <> b ->
  crc32_parts parts' <> crc32_parts parts.
Proof.
  intros E Hl Hb Hx Hne Hc. rewrite !crc32_parts_concat, E in Hc. apply lxor_inj_l in Hc. revert Hc.
  eapply crc_fold_byte_changed; eauto. unfold MASK32. lia.
Qed.

(** ** Record frames *)

(** ["FQR1"]. *)
Definition RECORD_MAGIC : list Z := [70; 81; 82; 49].
Definition RECORD_FORMAT_VERSION : Z := 2.
Definition FRAME_HEADER_LEN : nat := 13.
Definition MAX_RECORD_PAYLOAD_LEN : Z := 64 * 1024 * 1024.
Definition MAX_RECORD_FRAME_LEN : Z := Z.of_nat FRAME_HEADER_LEN + MAX_RECORD_PAYLOAD_LEN.

Definition encode_frame (payload : list Z) : result error_kind (list Z) :=
  if MAX_RECORD_PAYLOAD_LEN <? Z.of_nat (length payload) then Err InvalidData
  else if 4294967295 <? Z.of_nat (length payload) then Err InvalidInput
  else Ok (RECORD_MAGIC ++ [RECORD_FORMAT_VERSION]
           ++ le_bytes 4 (Z.of_nat (length payload))
           ++ le_bytes 4 (crc32 payload) ++ payload).

Definition decode_frame (b : list Z) : result error_kind (list Z) :=
  if (length b <? FRAME_HEADER_LEN)%nat then Err UnexpectedEof
  else if negb (bool_decide (slice b 0 4 = RECORD_MAGIC)) then Err InvalidData
  else if negb (b !!! 4%nat =? RECORD_FORMAT_VERSION) then Err InvalidData
  else
    let declared := Z.to_nat (le_val (slice b 5 9)) in
    let expected_crc := le_val (slice b 9 13) in
    if negb (length b =? FRAME_HEADER_LEN + declared)%nat then Err InvalidData
    else
      let payload := drop FRAME_HEADER_LEN b in
      if negb (crc32 payload =? expected_crc) then Err InvalidData
      else Ok payload.

(** *** The shape of a frame *)

Definition frame_of (payload : list Z) : list Z :=
  RECORD_MAGIC ++ [RECORD_FORMAT_VERSION] ++ le_bytes 4 (Z.of_nat (length payload))
  ++ le_bytes 4 (crc32 payload) ++ payload.

Lemma encode_frame_ok payload f :
  encode_frame payload = Ok f ->
  f = frame_of payload /\ Z.of_nat (length payload) <= MAX_RECORD_PAYLOAD_LEN.
Proof.
  unfold encode_frame. intros H. repeat case_hyp H; try discriminate. breflect.
  injection H as <-. auto.
Qed.

Lemma encode_frame_fits payload :
  Z.of_nat (length payload) <= MAX_RECORD_PAYLOAD_LEN -> encode_frame payload = Ok (frame_of payload).
Proof.
  unfold encode_frame, MAX_RECORD_PAYLOAD_LEN. intros.
  destruct (Z.ltb_spec (64 * 1024 * 1024) (Z.of_nat (length payload))); [lia|].
  destruct (Z.ltb_spec 4294967295 (Z.of_nat (length payload))); [lia|]. reflexivity.
Qed.

Lemma length_frame_of payload : length (frame_of payload) = (FRAME_HEADER_LEN + length payload)%nat.
Proof. unfold frame_of. autorewrite with fqlen. cbn. lia. Qed.

Lemma frame_of_fields payload :
  slice (frame_of payload) 0 4 = RECORD_MAGIC /\
  frame_of payload !!! 4%nat = RECORD_FORMAT_VERSION /\
  slice (frame_of payload) 5 9 = le_bytes 4 (Z.of_nat (length payload)) /\
  slice (frame_of payload) 9 13 = le_bytes 4 (crc32 payload) /\
  drop FRAME_HEADER_LEN (frame_of payload) = payload.
Proof. unfold frame_of. repeat split. Qed.

Lemma frame_length_u32 (payload : list Z) :
  Z.of_nat (length payload) <= MAX_RECORD_PAYLOAD_LEN -> 0 <= Z.of_nat (length payload) < 256 ^ Z.of_nat 4.
Proof. unfold MAX_RECORD_PAYLOAD_LEN. change (256 ^ Z.of_nat 4) with 4294967296. lia. Qed.

Lemma decode_frame_of payload :
  bytes payload -> Z.of_nat (length payload) <= MAX_RECORD_PAYLOAD_LEN ->
  decode_frame (frame_of payload) = Ok payload.
Proof.
  intros Hb Hl. unfold decode_frame. rewrite length_frame_of.
  destruct (frame_of_fields payload) as (-> & -> & -> & -> & ->).
  rewrite !le_val_le_bytes_small by
    (auto using frame_length_u32; change (256 ^ Z.of_nat 4) with 4294967296; by apply crc32_u32).
  rewrite Nat2Z.id, Nat.eqb_refl, !Z.eqb_refl, bool_decide_true by done.
  destruct (Nat.ltb_spec (FRAME_HEADER_LEN + length payload) FRAME_HEADER_LEN); [lia|]. reflexivity.
Qed.

(** ** The append-only record log *)

Inductive frame_outcome : Type :=
| FRecord (payload : list Z) (consumed : nat)
| FTruncated
| FCorrupt
| FUnsupportedVersion (found : Z) (offset : nat).

Inductive tail_state : Type :=
| TailClean
| TailTruncated (offset : nat).

(** [read_one_frame(file, offset, file_len)] with the cursor at [offset]. *)
Definition read_one_frame (file : list Z) (offset : nat) : frame_outcome :=
  let remaining := (length file - offset)%nat in
  if (remaining <? FRAME_HEADER_LEN)%nat then FTruncated
  else
    let header := slice file offset (offset + FRAME_HEADER_LEN) in
    if negb (bool_decide (slice header 0 4 = RECORD_MAGIC)) then FCorrupt
    else
      let version := header !!! 4%nat in
      if negb (version =? RECORD_FORMAT_VERSION) then FUnsupportedVersion version offset
      else
        let payload_len := le_val (slice header 5 9) in
        let stored_crc := le_val (slice header 9 13) in
        if MAX_RECORD_PAYLOAD_LEN <? payload_len then FCorrupt
        else
          let payload_available := (remaining - FRAME_HEADER_LEN)%nat in
          if Z.of_nat payload_available <? payload_len then FTruncated
          else
            let n := Z.to_nat payload_len in
            let payload := slice file (offset + FRAME_HEADER_LEN) (offset + FRAME_HEADER_LEN + n) in
            if negb (crc32 payload =? stored_crc) then FCorrupt
            else FRecord payload (FRAME_HEADER_LEN + n).

Section record_log.
Context `{Aead} {T : Type} `{!Bincode T}.

(** [append_record]: the log after the append, and the record's offset. *)
Definition append_record (file nonce : list Z) (record : T) : result error_kind (list Z * nat) :=
  match bincode_serialize record with
  | None => Err InvalidData
  | Some b =>
      frame ← encode_frame (encrypt nonce b);
      Ok (file ++ frame, length file)
  end.

(** The reader's loop: [None] is fuel running out, which the reader's own
    fuel never does ([read_all_records_framed_total]). *)
Fixpoint read_loop (fuel : nat) (file : list Z) (offset : nat) (records : list (nat * T))
  : option (result error_kind (list (nat * T) * tail_state)) :=
  match fuel with
  | O => None
  | S fuel =>
      if (offset <? length file)%nat then
        match read_one_frame file offset with
        | FRecord payload consumed =>
            match decrypt payload with
            | None => Some (Err InvalidData)
            | Some decrypted =>
                match bincode_deserialize decrypted with
                | None => Some (Err InvalidData)
                | Some record =>
                    read_loop fuel file (offset + consumed) (records ++ [(offset, record)])
                end
            end
        | FTruncated => Some (Ok (records, TailTruncated offset))
        | FCorrupt => Some (Err InvalidData)
        | FUnsupportedVersion _ _ => Some (Err InvalidData)
        end
      else Some (Ok (records, TailClean))
  end.

(** A single record at a known offset, verified before it is decrypted. *)
Definition read_record_at (file : list Z) (offset : nat) : result error_kind T :=
  match read_one_frame file offset with
  | FRecord payload _ =>
      match decrypt payload with
      | None => Err InvalidData
      | Some decrypted => match bincode_deserialize decrypted with None => Err InvalidData | Some record => Ok record end
      end
  | FTruncated => Err UnexpectedEof
  | FCorrupt => Err InvalidData
  | FUnsupportedVersion _ _ => Err InvalidData
  end.

(** [None] for the file is the log that does not exist yet. *)
Definition read_all_records_framed (file : option (list Z))
  : option (result error_kind (list (nat * T) * tail_state)) :=
  match file with
  | None => Some (Ok ([], TailClean))
  | Some file => read_loop (S (length file)) file 0 []
  end.

(** [read_all_records]: the torn tail is reported on stderr and dropped. *)
Definition read_all_records (file : option (list Z))
  : option (result error_kind (list (nat * T))) :=
  match read_all_records_framed file with
  | None => None
  | Some r => Some ('(records, _) ← r; Ok records)
  end.

(** [rewrite_records]: the body of the replacement file. *)
Fixpoint rewrite_body (nonces : list (list Z)) (records : list T) : result error_kind (list Z) :=
  match records with
  | [] => Ok []
  | record :: records =>
      match bincode_serialize record with
      | None => Err InvalidData
      | Some b =>
          frame ← encode_frame (encrypt (default [] (head nonces)) b);
          rest ← rewrite_body (tail nonces) records;
          Ok (frame ++ rest)
      end
  end.
End record_log.

(** ** Record locations *)

Definition LOCATION_LEN : nat := 14.

Record record_location := RecordLocation {
  loc_segment : Z;
  loc_page : Z;
  loc_slot : Z;
  loc_length : Z;
}.

#[export] Instance record_location_eq_dec : EqDecision record_location.
Proof. solve_decision. Defined.

Definition location_ok (l : record_location) : Prop :=
  u32 (loc_segment l) /\ u32 (loc_page l) /\ u16 (loc_slot l) /\ u32 (loc_length l).

Definition location_encode (l : record_location) : list Z :=
  le_bytes 4 (loc_segment l) ++ le_bytes 4 (loc_page l) ++ le_bytes 2 (loc_slot l)
  ++ le_bytes 4 (loc_length l).

Definition location_decode (b : list Z) : result error_kind record_location :=
  if negb (length b =? LOCATION_LEN)%nat then Err InvalidData
  else Ok {| loc_segment := le_val (slice b 0 4);
             loc_page := le_val (slice b 4 8);
             loc_slot := le_val (slice b 8 10);
             loc_length := le_val (slice b 10 14) |}.

(** ** Record frames: theorems *)

(** a record frame round-trips.  Whatever payload [encode_frame] accepts,
    [decode_frame] returns unchanged; and [encode_frame] accepts every payload
    up to the 64 MiB bound the reader enforces, so nothing is written that the
    read path would reject. *)
Theorem record_frame_roundtrip (payload : list Z) (Hbytes : bytes payload) :
  (Z.of_nat (length payload) <= MAX_RECORD_PAYLOAD_LEN ->
     exists f, encode_frame payload = Ok f /\ decode_frame f = Ok payload) /\
  (MAX_RECORD_PAYLOAD_LEN < Z.of_nat (length payload) -> encode_frame payload = Err InvalidData).
Proof.
  split; intros Hl.
  - exists (frame_of payload). rewrite encode_frame_fits by done. auto using decode_frame_of.
  - unfold encode_frame. destruct (Z.ltb_spec MAX_RECORD_PAYLOAD_LEN (Z.of_nat (length payload))); [done|lia].
Qed.

Lemma record_frame_roundtrip_witness :
  exists f, encode_frame [1; 2; 255] = Ok f /\ decode_frame f = Ok [1; 2; 255].
Proof.
  apply (record_frame_roundtrip [1; 2; 255]).
  - repeat constructor; unfold is_byte; lia.
  - unfold MAX_RECORD_PAYLOAD_LEN. cbn. lia.
Defined.

Lemma location_fields l :
  slice (location_encode l) 0 4 = le_bytes 4 (loc_segment l) /\
  slice (location_encode l) 4 8 = le_bytes 4 (loc_page l) /\
  slice (location_encode l) 8 10 = le_bytes 2 (loc_slot l) /\
  slice (location_encode l) 10 14 = le_bytes 4 (loc_length l).
Proof. unfold location_encode. repeat split. Qed.

Lemma length_location_encode l : length (location_encode l) = LOCATION_LEN.
Proof. unfold location_encode. by autorewrite with fqlen. Qed.

Lemma location_encode_bytes l : bytes (location_encode l).
Proof. unfold location_encode. auto with fq. Qed.

Lemma location_decode_encode l : location_ok l -> location_decode (location_encode l) = Ok l.
Proof.
  intros (Hs & Hp & Hsl & Hn). unfold location_decode. rewrite length_location_encode, Nat.eqb_refl.
  destruct (location_fields l) as (-> & -> & -> & ->).
  rewrite !le_val_le_bytes_small by (cbn -[Z.lt Z.le]; lia). by destruct l.
Qed.

(** a location round-trips through the 14 bytes an index stores, and only
    14-byte values are accepted as locations. *)
Theorem location_roundtrip (l : record_location) (Hl : location_ok l) :
  location_decode (location_encode l) = Ok l /\
  length (location_encode l) = LOCATION_LEN /\
  forall b, length b <> LOCATION_LEN -> location_decode b = Err InvalidData.
Proof.
  split; [by apply location_decode_encode|]. split; [apply length_location_encode|].
  intros b Hb. unfold location_decode. destruct (Nat.eqb_spec (length b) LOCATION_LEN); done.
Qed.

Lemma location_roundtrip_witness :
  location_decode (location_encode (RecordLocation 3 70000 65535 4294967295))
    = Ok (RecordLocation 3 70000 65535 4294967295).
Proof. apply location_roundtrip. unfold location_ok; cbn; lia. Defined.

(** ** The record log under a crash *)

Lemma lookup_total_slice (l : list Z) i j k :
  (k < j - i)%nat -> slice l i j !!! k = l !!! (i + k)%nat.
Proof. intros. rewrite !list_lookup_total_alt. by rewrite lookup_slice. Qed.

(** Reading at the start of a frame that lies wholly in the file. *)
Lemma read_one_frame_whole pre payload post :
  bytes payload -> Z.of_nat (length payload) <= MAX_RECORD_PAYLOAD_LEN ->
  read_one_frame (pre ++ frame_of payload ++ post) (length pre)
    = FRecord payload (FRAME_HEADER_LEN + length payload).
Proof.
  intros Hb Hl. unfold read_one_frame.
  assert (forall i j, (j <= FRAME_HEADER_LEN + length payload)%nat ->
    slice (pre ++ frame_of payload ++ post) (length pre + i) (length pre + j) = slice (frame_of payload) i j) as Hs.
  { intros i j Hj. rewrite (slice_app_r pre _ _ _ (length pre)) by lia.
    rewrite slice_app_l by (rewrite length_frame_of; lia). f_equal; lia. }
  rewrite !length_app, length_frame_of.
  destruct (Nat.ltb_spec (length pre + (FRAME_HEADER_LEN + length payload + length post) - length pre)
    FRAME_HEADER_LEN); [lia|].
  assert (slice (pre ++ frame_of payload ++ post) (length pre) (length pre + FRAME_HEADER_LEN)
    = slice (frame_of payload) 0 FRAME_HEADER_LEN) as ->.
  { rewrite <- (Nat.add_0_r (length pre)) at 1. apply Hs. lia. }
  change (slice (slice (frame_of payload) 0 FRAME_HEADER_LEN) 0 4) with RECORD_MAGIC.
  change (slice (slice (frame_of payload) 0 FRAME_HEADER_LEN) 5 9) with (le_bytes 4 (Z.of_nat (length payload))).
  change (slice (slice (frame_of payload) 0 FRAME_HEADER_LEN) 9 13) with (le_bytes 4 (crc32 payload)).
  change (slice (frame_of payload) 0 FRAME_HEADER_LEN !!! 4%nat) with RECORD_FORMAT_VERSION.
  rewrite !le_val_le_bytes_small by
    (auto using frame_length_u32; change (256 ^ Z.of_nat 4) with 4294967296; by apply crc32_u32).
  rewrite bool_decide_true, Z.eqb_refl by done. cbn [negb].
  rewrite (proj2 (Z.ltb_ge _ _)) by done. rewrite (proj2 (Z.ltb_ge _ _)) by lia.
  rewrite Nat2Z.id, <- Nat.add_assoc, Hs by lia.
  assert (slice (frame_of payload) FRAME_HEADER_LEN (FRAME_HEADER_LEN + length payload) = payload) as ->.
  { unfold slice. destruct (frame_of_fields payload) as (_ & _ & _ & _ & ->). apply take_ge. lia. }
  by rewrite Z.eqb_refl.
Qed.

(** Reading a frame whose write was cut short. *)
Lemma read_one_frame_torn pre payload m :
  bytes payload -> Z.of_nat (length payload) <= MAX_RECORD_PAYLOAD_LEN ->
  (m < FRAME_HEADER_LEN + length payload)%nat ->
  read_one_frame (pre ++ take m (frame_of payload)) (length pre) = FTruncated.
Proof.
  intros Hb Hl Hm. unfold read_one_frame.
  rewrite length_app, length_take, length_frame_of.
  destruct (Nat.ltb_spec (length pre + m `min` (FRAME_HEADER_LEN + length payload) - length pre)
    FRAME_HEADER_LEN); [done|].
  assert (slice (pre ++ take m (frame_of payload)) (length pre) (length pre + FRAME_HEADER_LEN)
    = slice (frame_of payload) 0 FRAME_HEADER_LEN) as ->.
  { rewrite (slice_app_r pre _ _ _ (length pre)) by lia. rewrite Nat.sub_diag, Nat.add_comm, Nat.add_sub.
    apply slice_ext. intros k ?. apply lookup_take_lt. lia. }
  change (slice (slice (frame_of payload) 0 FRAME_HEADER_LEN) 0 4) with RECORD_MAGIC.
  change (slice (slice (frame_of payload) 0 FRAME_HEADER_LEN) 5 9) with (le_bytes 4 (Z.of_nat (length payload))).
  change (slice (slice (frame_of payload) 0 FRAME_HEADER_LEN) 9 13) with (le_bytes 4 (crc32 payload)).
  change (slice (frame_of payload) 0 FRAME_HEADER_LEN !!! 4%nat) with RECORD_FORMAT_VERSION.
  rewrite (le_val_le_bytes_small 4 (Z.of_nat (length payload))) by auto using frame_length_u32.
  rewrite bool_decide_true, Z.eqb_refl by done. cbn [negb].
  rewrite (proj2 (Z.ltb_ge _ _)) by done. rewrite (proj2 (Z.ltb_lt _ _)) by lia. done.
Qed.

Section record_log_crash.
Context `{Aead} {T : Type} `{!Bincode T}.

(** A log written by successive appends, with the offset of each record. *)
Inductive log_written : list Z -> list (nat * T) -> Prop :=
| log_empty : log_written [] []
| log_append file records nonce x file' offset :
    log_written file records -> length nonce = NONCE_LEN -> bytes nonce ->
    append_record file nonce x = Ok (file', offset) ->
    log_written file' (records ++ [(offset, x)]).

(** The frame an append adds: its payload decrypts and deserializes to the record. *)
Lemma append_record_frame file nonce (x : T) file' offset :
  length nonce = NONCE_LEN -> bytes nonce -> append_record file nonce x = Ok (file', offset) ->
  exists payload, file' = file ++ frame_of payload /\ offset = length file /\ bytes payload /\
    Z.of_nat (length payload) <= MAX_RECORD_PAYLOAD_LEN /\
    exists b, decrypt payload = Some b /\ bincode_deserialize b = Some x.
Proof.
  intros Hn Hnb. unfold append_record.
  destruct (bincode_serialize x) as [b|] eqn:Es; [|done].
  intros Ha. apply result_bind_inv in Ha as (f & Hf & [= <- <-]).
  apply encode_frame_ok in Hf as [-> Hl]. exists (encrypt nonce b). split_and!; auto.
  - apply encrypt_bytes; [done|]. eauto using bincode_bytes.
  - exists b. split; [by apply decrypt_encrypt|]. eauto using bincode_roundtrip.
Qed.

(** The offset an append returns reads the record back, whatever is appended after it. *)
Lemma read_appended_record file nonce (x : T) file' offset later :
  length nonce = NONCE_LEN -> bytes nonce -> append_record file nonce x = Ok (file', offset) -> read_record_at (file' ++ later) offset = Ok x.
Proof.
  intros Hn Hnb Ha. destruct (append_record_frame _ _ _ _ _ Hn Hnb Ha) as (payload & -> & -> & Hb & Hl & b & Hd & Hx).
  unfold read_record_at. rewrite <- app_assoc, read_one_frame_whole by done. by rewrite Hd, Hx.
Qed.

(** Reading a written log: the loop reaches its end having collected every
    record, whatever follows, and spends at most one unit of fuel per byte. *)
Lemma read_loop_written file records :
  log_written file records ->
  forall post, exists n, (n <= length file)%nat /\ forall fuel,
    read_loop (n + fuel) (file ++ post) 0 [] = read_loop fuel (file ++ post) (length file) records.
Proof.
  induction 1 as [|file records nonce x file' offset Hlog IH Hn Hnb Ha]; intros post.
  - exists 0%nat. split; [cbn; lia|]. done.
  - destruct (append_record_frame _ _ _ _ _ Hn Hnb Ha) as (p & -> & -> & Hpb & Hpl & b & Hd & Hs).
    destruct (IH (frame_of p ++ post)) as (n & Hle & Hrun). exists (n + 1)%nat.
    rewrite length_app, length_frame_of. split; [unfold FRAME_HEADER_LEN; lia|].
    intros fuel. rewrite <- app_assoc. replace (n + 1 + fuel)%nat with (n + S fuel)%nat by lia.
    rewrite Hrun. cbn [read_loop].
    rewrite (proj2 (Nat.ltb_lt _ _)) by (rewrite !length_app, length_frame_of; unfold FRAME_HEADER_LEN; lia).
    rewrite read_one_frame_whole, Hd, Hs by done. done.
Qed.

Lemma read_written_log file records :
  log_written file records ->
  read_all_records_framed (Some file) = Some (Ok (records, TailClean)).
Proof.
  intros Hlog. destruct (read_loop_written _ _ Hlog []) as (n & Hle & Hrun).
  cbn [read_all_records_framed].
  rewrite app_nil_r in Hrun. replace (S (length file)) with (n + S (length file - n))%nat by lia.
  rewrite Hrun. cbn [read_loop]. by rewrite Nat.ltb_irrefl.
Qed.

(** an append-only definition log survives a crash at any byte.  If the
    write of one more record is cut after [m] of its bytes, reading the log
    succeeds, returns exactly the records acknowledged before it, and reports
    the tear at the end of the last whole record. *)
Theorem record_log_crash_safe (file nonce file' : list Z) (records : list (nat * T)) (x : T)
    (offset m : nat)
    (Hlog : log_written file records)
    (Hnonce : length nonce = NONCE_LEN /\ bytes nonce)
    (Happend : append_record file nonce x = Ok (file', offset))
    (Hcut : (0 < m < length file' - length file)%nat) :
  read_all_records_framed (Some (take (length file + m) file'))
    = Some (Ok (records, TailTruncated (length file))).
Proof.
  destruct Hnonce as [Hn Hnb].
  destruct (append_record_frame _ _ _ _ _ Hn Hnb Happend) as (p & -> & _ & Hpb & Hpl & _).
  rewrite length_app, length_frame_of in Hcut.
  rewrite take_app_ge by lia. rewrite Nat.add_comm, Nat.add_sub. cbn [read_all_records_framed].
  destruct (read_loop_written _ _ Hlog (take m (frame_of p))) as (n & Hle & Hrun).
  assert (length (file ++ take m (frame_of p)) = length file + m)%nat as Hlen.
  { rewrite length_app, length_take, length_frame_of. lia. }
  rewrite Hlen. replace (S (length file + m)) with (n + S (length file + m - n))%nat by lia.
  rewrite Hrun. cbn [read_loop]. rewrite Hlen, (proj2 (Nat.ltb_lt _ _)) by lia.
  rewrite read_one_frame_torn by lia || done. done.
Qed.
End record_log_crash.

(** A serializer for the witnesses: a byte string is its own serialization. *)
Definition bytes_bincode : Bincode (list Z).
Proof.
  refine {| bincode_serialize := fun x => if bool_decide (bytes x) then Some x else None;
            bincode_deserialize := Some |}.
  - intros x b. case_bool_decide; [by intros [= <-]|done].
  - intros x b. case_bool_decide; [by intros [= <-]|done].
Defined.

(** Two records are written and the third is cut after five bytes. *)
Definition sample_nonce : list Z := replicate NONCE_LEN 7.
Definition sample_log (xs : list (list Z)) : list Z :=
  concat (map (fun x => frame_of (@encrypt null_aead sample_nonce x)) xs).

Lemma record_log_crash_safe_witness :
  @read_all_records_framed null_aead (list Z) bytes_bincode
    (Some (take (85 + 5) (sample_log [[1]; [2; 3]; [4]])))
  = Some (Ok ([(0%nat, [1]); (42%nat, [2; 3])], TailTruncated 85)).
Proof.
  assert (length sample_nonce = NONCE_LEN /\ bytes sample_nonce) as Hn.
  { split; [done|]. apply Forall_replicate. unfold is_byte; lia. }
  apply (@record_log_crash_safe null_aead (list Z) bytes_bincode
    (sample_log [[1]; [2; 3]]) sample_nonce (sample_log [[1]; [2; 3]; [4]])
    [(0%nat, [1]); (42%nat, [2; 3])] [4] 85 5).
  - eapply (log_append (sample_log [[1]]) [(0%nat, [1])] sample_nonce [2; 3]); try apply Hn.
    + eapply (log_append [] [] sample_nonce [1]); try apply Hn; [constructor|vm_compute; reflexivity].
    + vm_compute. reflexivity.
  - exact Hn.
  - vm_compute. reflexivity.
  - vm_compute. lia.
Defined.
