(* ===== verification/Page.v ===== *)
(** * The slotted page ([src/src/storage/page.rs])

    A page is the 16 356-byte body the code holds, and every operation here is
    the byte manipulation the code performs: a 24-byte header, a directory of
    [(offset, length)] slots growing upwards from it and the cells growing
    downwards from the end of the body.  [page_ok] is the invariant of that
    layout; [page_abs] forgets it and keeps what the B+tree and the heap use —
    the page's kind, its auxiliary word and its list of cells.  Each operation
    is proved to act on that list as its name says ([insert_cell_spec],
    [remove_cell_spec], [replace_cell_spec], [compact_spec], ...). *)

From Stdlib Require Import ZArith Lia.
From stdpp Require Import base tactics list option sorting sets.
From S2P Require Import Prelude Binary.

(** ** Layout constants *)

Definition PAGE_SIZE : nat := Z.to_nat (16 * 1024).
Definition PAGE_ENVELOPE_LEN : nat := 12 + 16.
Definition PAGE_BODY_LEN : nat := PAGE_SIZE - PAGE_ENVELOPE_LEN.
Definition PAGE_HEADER_LEN : nat := 24.
Definition SLOT_LEN : nat := 4.
Definition MAX_CELL_LEN : nat := PAGE_BODY_LEN - PAGE_HEADER_LEN - SLOT_LEN.

(** ["FQPG"]. *)
Definition PAGE_MAGIC : list Z := [70; 81; 80; 71]%Z.
Definition PAGE_FORMAT_VERSION : Z := 1.

Definition OFF_MAGIC : nat := 0.
Definition OFF_KIND : nat := 4.
Definition OFF_VERSION : nat := 5.
Definition OFF_SLOT_COUNT : nat := 6.
Definition OFF_FREE_END : nat := 8.
Definition OFF_EXTRA : nat := 12.
Definition OFF_CRC : nat := 16.

(** ** Page kinds *)

Inductive page_kind : Set := Meta | Leaf | Branch | Heap | Overflow.

#[export] Instance page_kind_eq_dec : EqDecision page_kind.
Proof. solve_decision. Defined.

Definition kind_to_byte (k : page_kind) : Z :=
  match k with Meta => 1 | Leaf => 2 | Branch => 3 | Heap => 4 | Overflow => 5 end%Z.

Definition kind_from_byte (b : Z) : option page_kind :=
  match b with
  | 1 => Some Meta | 2 => Some Leaf | 3 => Some Branch | 4 => Some Heap | 5 => Some Overflow
  | _ => None
  end%Z.

(** ** The page body and its fields *)

Record page := Page { body : list Z }.

(** Little-endian reads and writes of a field. *)
Definition rd16 (b : list Z) (at_ : nat) : nat := Z.to_nat (le_val (slice b at_ (at_ + 2))).
Definition wr16 (b : list Z) (at_ v : nat) : list Z := splice b at_ (le_bytes 2 (Z.of_nat v)).

(** [kind()] panics on an unknown kind byte; no page holds one ([page_ok], and
    [decode] checks it), so the value given to it is never observed. *)
Definition kind (p : page) : page_kind := default Meta (kind_from_byte (body p !!! OFF_KIND)).

Definition extra (p : page) : Z := le_val (slice (body p) OFF_EXTRA (OFF_EXTRA + 4)).
Definition set_extra (p : page) (value : Z) : page := Page (splice (body p) OFF_EXTRA (le_bytes 4 value)).

Definition slot_count (p : page) : nat := rd16 (body p) OFF_SLOT_COUNT.
Definition set_slot_count (p : page) (count : nat) : page := Page (wr16 (body p) OFF_SLOT_COUNT count).

Definition free_end (p : page) : nat := rd16 (body p) OFF_FREE_END.
Definition set_free_end (p : page) (value : nat) : page := Page (wr16 (body p) OFF_FREE_END value).

Definition slot_at (index : nat) : nat := PAGE_HEADER_LEN + index * SLOT_LEN.

Definition slot (p : page) (index : nat) : nat * nat :=
  let at_ := slot_at index in (rd16 (body p) at_, rd16 (body p) (at_ + 2)).

Definition set_slot (p : page) (index offset length : nat) : page :=
  let at_ := slot_at index in Page (wr16 (wr16 (body p) at_ offset) (at_ + 2) length).

Definition slot_bytes (p : page) (s : nat * nat) : list Z := slice (body p) s.1 (s.1 + s.2).

(** [cell]: the bytes of a slot, [None] past the directory. *)
Definition cell (p : page) (index : nat) : option (list Z) :=
  if slot_count p <=? index then None else Some (slot_bytes p (slot p index)).

(** A new, empty page. *)
Definition page_new (k : page_kind) : page :=
  let b := replicate PAGE_BODY_LEN 0%Z in
  let b := splice b OFF_MAGIC PAGE_MAGIC in
  let b := splice b OFF_KIND [kind_to_byte k] in
  let b := splice b OFF_VERSION [PAGE_FORMAT_VERSION] in
  let p := Page b in
  let p := set_slot_count p 0 in
  let p := set_free_end p PAGE_BODY_LEN in
  set_extra p 0.

(** ** Space accounting *)

Definition directory_end (p : page) : nat := slot_at (slot_count p).

(** [free_end.saturating_sub(directory_end)]. *)
Definition free_space (p : page) : nat := free_end p - directory_end p.

Definition slots (p : page) : list (nat * nat) := map (slot p) (seq 0 (slot_count p)).

Definition used (ss : list (nat * nat)) : nat := list_sum (map snd ss).

Definition reclaimable_space (p : page) : nat :=
  PAGE_BODY_LEN - PAGE_HEADER_LEN - slot_count p * SLOT_LEN - used (slots p).

(** ** Mutation *)

(** The second loop of [compact]: the saved cells are written downwards from
    [free_end], each slot repointed. *)
Fixpoint compact_loop (cells : list (list Z)) (index fe : nat) (p : page) : page * nat :=
  match cells with
  | [] => (p, fe)
  | c :: cells =>
      let fe := fe - length c in
      let p := Page (splice (body p) fe c) in
      compact_loop cells (S index) fe (set_slot p index fe (length c))
  end.

Definition compact (p : page) : page :=
  let cells := map (slot_bytes p) (slots p) in
  let '(p, fe) := compact_loop cells 0 PAGE_BODY_LEN p in
  set_free_end p fe.

(** [insert_cell]: the page afterwards and whether the cell was placed. *)
Definition insert_cell (p : page) (index : nat) (data : list Z) : page * bool :=
  let count := slot_count p in
  if (count <? index) || (MAX_CELL_LEN <? length data) then (p, false)
  else
    let needed := length data + SLOT_LEN in
    if (free_space p <? needed) && (reclaimable_space p <? needed) then (p, false)
    else
      let p := if free_space p <? needed then compact p else p in
      let directory_end := slot_at count in
      let p := Page (splice (body p) (slot_at (S index)) (slice (body p) (slot_at index) directory_end)) in
      let fe := free_end p - length data in
      let p := Page (splice (body p) fe data) in
      let p := set_free_end p fe in
      let p := set_slot_count p (S count) in
      (set_slot p index fe (length data), true).

Definition push_cell (p : page) (data : list Z) : page * option nat :=
  let index := slot_count p in
  let '(p', ok) := insert_cell p index data in
  (p', if ok then Some index else None).

Definition remove_cell (p : page) (index : nat) : page :=
  let count := slot_count p in
  if count <=? index then p
  else
    let directory_end := slot_at count in
    let p := Page (splice (body p) (slot_at index) (slice (body p) (slot_at (S index)) directory_end)) in
    set_slot_count p (count - 1).

Definition replace_cell (p : page) (index : nat) (data : list Z) : page * bool :=
  if slot_count p <=? index then (p, false)
  else
    let '(offset, old_length) := slot p index in
    if old_length =? length data then (Page (splice (body p) offset data), true)
    else insert_cell (remove_cell p index) index data.

(** ** The on-disk form *)

Definition compute_crc (p : page) : Z :=
  crc32_parts [take OFF_CRC (body p); drop (OFF_CRC + 4) (body p)].

(** [encode]: the body with its checksum brought up to date. *)
Definition encode (p : page) : list Z := splice (body p) OFF_CRC (le_bytes 4 (compute_crc p)).

Definition slot_in_bounds (p : page) (s : nat * nat) : bool :=
  negb ((s.1 <? free_end p) || (PAGE_BODY_LEN <? s.1 + s.2)).

Definition decode (b : list Z) : result error_kind page :=
  if negb (length b =? PAGE_BODY_LEN) then Err InvalidData
  else
    let p := Page b in
    if negb (bool_decide (slice b OFF_MAGIC (OFF_MAGIC + 4) = PAGE_MAGIC)) then Err InvalidData
    else if negb (b !!! OFF_VERSION =? PAGE_FORMAT_VERSION)%Z then Err InvalidData
    else if negb (bool_decide (is_Some (kind_from_byte (b !!! OFF_KIND)))) then Err InvalidData
    else if negb (le_val (slice b OFF_CRC (OFF_CRC + 4)) =? compute_crc p)%Z then Err InvalidData
    else if (free_end p <? directory_end p) || (PAGE_BODY_LEN <? free_end p) then Err InvalidData
    else if negb (forallb (slot_in_bounds p) (slots p)) then Err InvalidData
    else Ok p.

(** ** The invariant of the layout *)

(** Two cells do not share a byte. *)
Definition apart (a b : nat * nat) : Prop := a.1 + a.2 <= b.1 \/ b.1 + b.2 <= a.1.

Definition slot_within (lo hi : nat) (s : nat * nat) : Prop := lo <= s.1 /\ s.1 + s.2 <= hi.

Record page_ok (p : page) : Prop := {
  ok_length : length (body p) = PAGE_BODY_LEN;
  ok_bytes : bytes (body p);
  ok_head : slice (body p) 0 6 = PAGE_MAGIC ++ [kind_to_byte (kind p); PAGE_FORMAT_VERSION];
  ok_directory : directory_end p <= free_end p <= PAGE_BODY_LEN;
  ok_slots : Forall (slot_within (free_end p) PAGE_BODY_LEN) (slots p);
  ok_apart : StronglySorted apart (slots p);
  ok_used : used (slots p) <= PAGE_BODY_LEN - free_end p;
}.

Definition page_cells (p : page) : list (list Z) := map (slot_bytes p) (slots p).

(** ** Reading back what was written *)

Lemma PAGE_BODY_LEN_val : Z.of_nat PAGE_BODY_LEN = 16356%Z.
Proof. reflexivity. Qed.

#[global] Opaque PAGE_SIZE PAGE_BODY_LEN.

(** The layout arithmetic: constants are brought in, lengths pushed inwards. *)
Ltac layout :=
  pose proof PAGE_BODY_LEN_val;
  unfold MAX_CELL_LEN, free_space, directory_end, slot_at, slot_within, apart, PAGE_HEADER_LEN, SLOT_LEN,
    OFF_MAGIC, OFF_KIND, OFF_VERSION, OFF_SLOT_COUNT, OFF_FREE_END, OFF_EXTRA, OFF_CRC in *;
  cbn [fst snd] in *; autorewrite with fqlen in *; lia.

Lemma length_wr16 b at_ v : at_ + 2 <= length b -> length (wr16 b at_ v) = length b.
Proof. intros. unfold wr16. apply length_splice. by rewrite length_le_bytes. Qed.

Lemma wr16_bytes b at_ v : bytes b -> bytes (wr16 b at_ v).
Proof. intros. unfold wr16. auto with fq. Qed.

Lemma rd16_wr16 b at_ v : at_ + 2 <= length b -> v < Z.to_nat 65536 -> rd16 (wr16 b at_ v) at_ = v.
Proof.
  intros Hl Hv. unfold rd16, wr16. rewrite slice_splice_eq by (autorewrite with fqlen; done).
  rewrite le_val_le_bytes_small; [apply Nat2Z.id|]. change (256 ^ Z.of_nat 2)%Z with 65536%Z. lia.
Qed.

Lemma rd16_splice_ne b i d at_ :
  i + length d <= length b -> at_ + 2 <= i \/ i + length d <= at_ -> rd16 (splice b i d) at_ = rd16 b at_.
Proof. intros. unfold rd16. by rewrite slice_splice_ne by lia. Qed.

Lemma rd16_wr16_ne b at_ v at' :
  at_ + 2 <= length b -> at' + 2 <= at_ \/ at_ + 2 <= at' -> rd16 (wr16 b at_ v) at' = rd16 b at'.
Proof. intros. unfold wr16. apply rd16_splice_ne; rewrite length_le_bytes; lia. Qed.

Lemma slice_wr16_ne b at_ v i j :
  at_ + 2 <= length b -> j <= at_ \/ at_ + 2 <= i -> slice (wr16 b at_ v) i j = slice b i j.
Proof. intros. unfold wr16. apply slice_splice_ne; rewrite length_le_bytes; lia. Qed.

#[export] Hint Resolve wr16_bytes : fq.

(** The fields of two bodies agree wherever the bodies do. *)
Lemma kind_ext p q : slice (body p) 0 6 = slice (body q) 0 6 -> kind p = kind q.
Proof.
  intros E. unfold kind. do 2 f_equal. rewrite !list_lookup_total_alt. f_equal.
  change OFF_KIND with (0 + 4).
  rewrite <- (lookup_slice (body p) 0 6 4), <- (lookup_slice (body q) 0 6 4) by lia. by rewrite E.
Qed.

(** Writing outside the header leaves it alone. *)
Lemma splice_header b i d :
  i + length d <= length b -> PAGE_HEADER_LEN <= i ->
  slice (splice b i d) 0 6 = slice b 0 6 /\ slice (splice b i d) OFF_EXTRA (OFF_EXTRA + 4) = slice b OFF_EXTRA (OFF_EXTRA + 4) /\
  rd16 (splice b i d) OFF_SLOT_COUNT = rd16 b OFF_SLOT_COUNT /\ rd16 (splice b i d) OFF_FREE_END = rd16 b OFF_FREE_END.
Proof. intros. rewrite !slice_splice_ne, !rd16_splice_ne by layout. auto. Qed.

(** ** Slots *)

Lemma length_slots p : length (slots p) = slot_count p.
Proof. unfold slots. by rewrite length_map, length_seq. Qed.

Lemma length_page_cells p : length (page_cells p) = slot_count p.
Proof. unfold page_cells. by rewrite length_map, length_slots. Qed.

Lemma slots_lookup p i : i < slot_count p -> slots p !! i = Some (slot p i).
Proof. intros. unfold slots. rewrite list_lookup_fmap, lookup_seq_lt by done. done. Qed.

Lemma slots_eq p ss :
  slot_count p = length ss -> (forall i s, ss !! i = Some s -> slot p i = s) -> slots p = ss.
Proof.
  intros Hc Hs. apply list_eq. intros i. destruct (decide (i < slot_count p)).
  - rewrite slots_lookup by done. destruct (ss !! i) as [s|] eqn:E; [by rewrite (Hs i s)|].
    apply lookup_ge_None in E. lia.
  - rewrite !(proj2 (lookup_ge_None _ _)); [done|lia|rewrite length_slots; lia].
Qed.

Lemma cell_lookup p i : cell p i = page_cells p !! i.
Proof.
  unfold cell, page_cells. destruct (Nat.leb_spec (slot_count p) i).
  - symmetry. apply lookup_ge_None. rewrite length_map, length_slots. done.
  - rewrite list_lookup_fmap, slots_lookup by done. done.
Qed.

Lemma slot_set_slot_eq p i o n :
  slot_at (S i) <= length (body p) -> o < Z.to_nat 65536 -> n < Z.to_nat 65536 ->
  slot (set_slot p i o n) i = (o, n).
Proof.
  intros. unfold slot, set_slot. cbn [body].
  rewrite rd16_wr16_ne by (rewrite ?length_wr16; layout).
  rewrite !rd16_wr16 by (rewrite ?length_wr16; layout). done.
Qed.

Lemma slot_set_slot_ne p i o n j :
  slot_at (S i) <= length (body p) -> i <> j -> slot (set_slot p i o n) j = slot p j.
Proof.
  intros. unfold slot, set_slot. cbn [body].
  rewrite !rd16_wr16_ne by (rewrite ?length_wr16; layout). done.
Qed.

Lemma slot_splice_ne p i d j :
  i + length d <= length (body p) -> i + length d <= slot_at j \/ slot_at (S j) <= i ->
  slot (Page (splice (body p) i d)) j = slot p j.
Proof. intros. unfold slot. cbn [body]. rewrite !rd16_splice_ne by layout. done. Qed.

Lemma slot_bytes_length p s : slot_within 0 (length (body p)) s -> length (slot_bytes p s) = s.2.
Proof. intros. unfold slot_bytes. rewrite length_slice; layout. Qed.

(** The bytes of a set of slots survive a change below them. *)
Lemma slot_bytes_ext p q lo hi ss :
  Forall (slot_within lo hi) ss -> (forall k, lo <= k < hi -> body p !! k = body q !! k) ->
  map (slot_bytes p) ss = map (slot_bytes q) ss.
Proof.
  intros Hss Hk. apply map_ext_in. intros s Hs. rewrite <- list_elem_of_In in Hs.
  eapply Forall_forall in Hss; [|done]. unfold slot_bytes. apply slice_ext. intros. apply Hk. layout.
Qed.

Lemma length_set_slot p i o n : slot_at (S i) <= length (body p) -> length (body (set_slot p i o n)) = length (body p).
Proof. intros. unfold set_slot. cbn [body]. by rewrite !length_wr16 by (rewrite ?length_wr16; layout). Qed.

Lemma lookup_set_slot_out p i o n k :
  slot_at (S i) <= length (body p) -> k < slot_at i \/ slot_at (S i) <= k ->
  body (set_slot p i o n) !! k = body p !! k.
Proof.
  intros. unfold set_slot, wr16. cbn [body].
  by rewrite !lookup_splice_out by (rewrite ?length_splice by layout; layout).
Qed.

Lemma set_slot_header p i o n :
  slot_at (S i) <= length (body p) ->
  slice (body (set_slot p i o n)) 0 6 = slice (body p) 0 6 /\ extra (set_slot p i o n) = extra p /\
  slot_count (set_slot p i o n) = slot_count p /\ free_end (set_slot p i o n) = free_end p.
Proof.
  intros. unfold extra, slot_count, free_end, set_slot. cbn [body].
  rewrite !slice_wr16_ne, !rd16_wr16_ne by (rewrite ?length_wr16; layout). auto.
Qed.

Lemma used_app a b : used (a ++ b) = used a + used b.
Proof. unfold used. by rewrite map_app, list_sum_app. Qed.

Lemma used_cons s ss : used (s :: ss) = s.2 + used ss.
Proof. reflexivity. Qed.

Definition cells_len (cs : list (list Z)) : nat := list_sum (map length cs).

Lemma cells_len_cons c cs : cells_len (c :: cs) = length c + cells_len cs.
Proof. reflexivity. Qed.

(** ** Compaction *)

(** What one run of the rewriting loop establishes: the cells occupy
    [[fe', fe)] in disjoint slots numbered from [index], and nothing at or
    above [fe], no earlier slot and no header field has changed. *)
Record compacted (cells : list (list Z)) (index fe : nat) (p p' : page) (fe' : nat) (ss : list (nat * nat)) : Prop := {
  cp_fe : fe' = fe - cells_len cells;
  cp_length : length (body p') = length (body p);
  cp_bytes : bytes (body p');
  cp_head : slice (body p') 0 6 = slice (body p) 0 6;
  cp_extra : extra p' = extra p;
  cp_count : slot_count p' = slot_count p;
  cp_above : forall k, fe <= k -> body p' !! k = body p !! k;
  cp_before : forall k, k < index -> slot p' k = slot p k;
  cp_slots : forall k s, ss !! k = Some s -> slot p' (index + k) = s;
  cp_cells : map (slot_bytes p') ss = cells;
  cp_within : Forall (slot_within fe' fe) ss;
  cp_apart : StronglySorted apart ss;
  cp_used : used ss = cells_len cells;
}.

Lemma compact_loop_spec cells index fe p :
  bytes (body p) -> Forall (Forall is_byte) cells -> length (body p) = PAGE_BODY_LEN -> fe <= PAGE_BODY_LEN ->
  slot_at (index + length cells) + cells_len cells <= fe ->
  exists ss, length ss = length cells /\
    compacted cells index fe p (compact_loop cells index fe p).1 (compact_loop cells index fe p).2 ss.
Proof.
  revert index fe p. induction cells as [|c cells IH]; intros index fe p Hb Hcs Hlen Hfe Hfit.
  { exists []. split; [done|]. cbn. split; cbn; auto; try constructor; try done. lia. }
  inversion Hcs as [|? ? Hc Hcs']; subst. rewrite cells_len_cons in Hfit. cbn [length] in Hfit.
  cbn [compact_loop]. set (fe1 := fe - length c).
  set (p1 := set_slot (Page (splice (body p) fe1 c)) index fe1 (length c)).
  assert (fe1 + length c <= length (body p)) as Hin by (unfold fe1; lia).
  assert (length (body (Page (splice (body p) fe1 c))) = length (body p)) as Hl0 by (cbn; by apply length_splice).
  assert (slot_at (S index) <= fe1) as Hdir by (unfold fe1; layout).
  assert (length (body p1) = length (body p)) as Hl1 by (unfold p1; rewrite length_set_slot; lia).
  destruct (IH (S index) fe1 p1) as (ss & Hlss & Hcp).
  { unfold p1, set_slot. cbn [body]. auto with fq. }
  { done. } { lia. } { unfold fe1; lia. } { unfold fe1; layout. }
  set (res := compact_loop cells (S index) fe1 p1) in *. destruct Hcp.
  assert (slot p1 index = (fe1, length c)) as Hslot.
  { unfold p1. apply slot_set_slot_eq; try lia; unfold fe1; layout. }
  pose proof (splice_header (body p) fe1 c Hin ltac:(layout)) as (Hh6 & Hhx & Hhc & _).
  pose proof (set_slot_header (Page (splice (body p) fe1 c)) index fe1 (length c) ltac:(layout)) as (Hs6 & Hsx & Hsc & _).
  exists ((fe1, length c) :: ss). split; [cbn; lia|]. split.
  - rewrite cp_fe0, cells_len_cons. unfold fe1. lia.
  - lia.
  - done.
  - rewrite cp_head0. unfold p1. by rewrite Hs6.
  - rewrite cp_extra0. unfold p1. rewrite Hsx. unfold extra. cbn [body]. by rewrite Hhx.
  - rewrite cp_count0. unfold p1. by rewrite Hsc.
  - intros k Hk. rewrite cp_above0 by (unfold fe1; lia). unfold p1.
    rewrite lookup_set_slot_out by (unfold fe1 in *; layout). cbn [body].
    apply lookup_splice_out; unfold fe1 in *; lia.
  - intros k Hk. rewrite cp_before0 by lia. unfold p1. rewrite slot_set_slot_ne by layout.
    apply slot_splice_ne; layout.
  - intros [|k] s; cbn.
    + intros [= <-]. rewrite Nat.add_0_r, cp_before0 by lia. done.
    + intros Hk. rewrite <- (cp_slots0 k s Hk). f_equal. lia.
  - cbn [map]. f_equal; [|done]. unfold slot_bytes. cbn [fst snd].
    transitivity (slice (body p1) fe1 (fe1 + length c)).
    { apply slice_ext. intros k Hk. apply cp_above0. lia. }
    transitivity (slice (splice (body p) fe1 c) fe1 (fe1 + length c)).
    { apply slice_ext. intros k Hk. unfold p1. apply lookup_set_slot_out; layout. }
    by apply slice_splice_eq.
  - constructor; [unfold fe1 in *; layout|].
    eapply Forall_impl; [done|]. intros s. unfold fe1. layout.
  - constructor; [done|]. eapply Forall_impl; [done|]. intros s Hs. right. layout.
  - rewrite used_cons, cp_used0, cells_len_cons. done.
Qed.

(** The cells of a well-formed page have the lengths their slots record. *)
Lemma page_cells_length p : page_ok p -> map length (page_cells p) = map snd (slots p).
Proof.
  intros H. unfold page_cells. rewrite map_map. apply map_ext_in. intros s Hs.
  rewrite <- list_elem_of_In in Hs. eapply Forall_forall in Hs; [|apply H].
  apply slot_bytes_length. rewrite (ok_length _ H). layout.
Qed.

Lemma page_cells_used p : page_ok p -> cells_len (page_cells p) = used (slots p).
Proof. intros. unfold cells_len, used. by rewrite page_cells_length. Qed.

Lemma page_cells_bytes p : bytes (body p) -> Forall (Forall is_byte) (page_cells p).
Proof.
  intros Hb. unfold page_cells. apply Forall_map, Forall_true. intros s. unfold slot_bytes. auto with fq.
Qed.

(** What the tree and the heap see of a page. *)
Record apage := APage { a_kind : page_kind; a_extra : Z; a_cells : list (list Z) }.

Definition page_abs (p : page) : apage := APage (kind p) (extra p) (page_cells p).

(** Bytes of the body that cells and their slots occupy. *)
Definition cells_space (cs : list (list Z)) : nat := cells_len cs + SLOT_LEN * length cs.

Definition PAGE_CAPACITY : nat := PAGE_BODY_LEN - PAGE_HEADER_LEN.

Lemma page_cells_fit p : page_ok p -> cells_space (page_cells p) <= PAGE_CAPACITY.
Proof.
  intros H. unfold cells_space, PAGE_CAPACITY. rewrite page_cells_used, length_page_cells by done.
  pose proof (ok_used _ H). pose proof (ok_directory _ H). layout.
Qed.

(** [reclaimable_space] is the capacity the cells leave. *)
Lemma reclaimable_spec p : page_ok p -> reclaimable_space p = PAGE_CAPACITY - cells_space (page_cells p).
Proof.
  intros H. unfold reclaimable_space, cells_space, PAGE_CAPACITY.
  rewrite page_cells_used, length_page_cells by done. layout.
Qed.

Lemma free_le_reclaimable p : page_ok p -> free_space p <= reclaimable_space p.
Proof.
  intros H. rewrite reclaimable_spec by done. unfold cells_space, PAGE_CAPACITY.
  rewrite page_cells_used, length_page_cells by done.
  pose proof (ok_used _ H). pose proof (ok_directory _ H). layout.
Qed.

(** Rebuild [page_ok] from a slot list known to describe the page. *)
Lemma page_ok_intro p q ss :
  length (body q) = PAGE_BODY_LEN -> bytes (body q) -> page_ok p ->
  slice (body q) 0 6 = slice (body p) 0 6 -> slots q = ss ->
  slot_at (length ss) <= free_end q <= PAGE_BODY_LEN ->
  Forall (slot_within (free_end q) PAGE_BODY_LEN) ss -> StronglySorted apart ss ->
  used ss <= PAGE_BODY_LEN - free_end q ->
  page_ok q.
Proof.
  intros Hl Hb Hp H6 Hs Hd Hw Ha Hu. subst ss. rewrite length_slots in Hd. split; auto.
  rewrite H6, (ok_head _ Hp). by rewrite (kind_ext q p).
Qed.

(** Compaction moves cell bytes and nothing else.  It keeps the invariant,
    the kind, the auxiliary word, the number of slots and the bytes every slot
    index names, and turns all reclaimable space into contiguous free space. *)
Lemma compact_spec (p : page) (Hok : page_ok p) :
  page_ok (compact p) /\ page_abs (compact p) = page_abs p /\
  slot_count (compact p) = slot_count p /\ free_space (compact p) = reclaimable_space p.
Proof.
  unfold compact. fold (page_cells p).
  pose proof (ok_used _ Hok) as Hu. pose proof (ok_directory _ Hok) as Hd. pose proof (ok_length _ Hok) as Hlen.
  destruct (compact_loop_spec (page_cells p) 0 PAGE_BODY_LEN p) as (ss & Hlss & [ ]); auto.
  { apply Hok. } { by apply page_cells_bytes, Hok. }
  { rewrite page_cells_used, length_page_cells by done. layout. }
  rewrite length_page_cells in Hlss. rewrite page_cells_used in cp_fe0, cp_used0 by done.
  destruct (compact_loop (page_cells p) 0 PAGE_BODY_LEN p) as [q fe]. cbn [fst snd] in *.
  assert (OFF_FREE_END + 2 <= length (body q)) as H8 by layout.
  assert (slots (set_free_end q fe) = ss) as Hslots.
  { apply slots_eq.
    - unfold slot_count, set_free_end. cbn [body]. rewrite rd16_wr16_ne by layout. by rewrite Hlss, <- cp_count0.
    - intros i s Hi. rewrite <- (cp_slots0 i s Hi). unfold slot, set_free_end. cbn [body].
      rewrite !rd16_wr16_ne by layout. done. }
  assert (free_end (set_free_end q fe) = fe) as Hfe.
  { unfold free_end, set_free_end. cbn [body]. apply rd16_wr16; layout. }
  assert (slice (body (set_free_end q fe)) 0 6 = slice (body p) 0 6) as H6.
  { unfold set_free_end. cbn [body]. rewrite slice_wr16_ne by layout. done. }
  assert (slot_count (set_free_end q fe) = slot_count p) as Hc by (rewrite <- length_slots, Hslots; done).
  split_and!.
  - apply (page_ok_intro p _ ss); rewrite ?Hfe; auto; try layout.
    + unfold set_free_end. cbn [body]. rewrite length_wr16; layout.
    + unfold set_free_end. cbn [body]. auto with fq.
  - unfold page_abs. f_equal.
    + by apply kind_ext.
    + unfold extra, set_free_end. cbn [body]. by rewrite slice_wr16_ne by layout.
    + unfold page_cells at 1. rewrite Hslots, <- cp_cells0.
      apply (slot_bytes_ext _ _ fe PAGE_BODY_LEN); [done|]. intros k Hk. unfold set_free_end, wr16. cbn [body].
      apply lookup_splice_out; rewrite length_le_bytes; layout.
  - done.
  - unfold free_space. rewrite Hfe. unfold directory_end. rewrite Hc.
    rewrite reclaimable_spec by done. unfold cells_space, PAGE_CAPACITY.
    rewrite page_cells_used, length_page_cells by done. layout.
Qed.

(** ** Insertion *)

(** The part of [insert_cell] after the room has been made. *)
Definition place_cell (p : page) (index : nat) (data : list Z) : page :=
  let count := slot_count p in
  let p := Page (splice (body p) (slot_at (S index)) (slice (body p) (slot_at index) (slot_at count))) in
  let fe := free_end p - length data in
  let p := Page (splice (body p) fe data) in
  set_slot (set_slot_count (set_free_end p fe) (S count)) index fe (length data).

Lemma apart_sym a b : apart a b -> apart b a.
Proof. unfold apart. lia. Qed.

Lemma StronglySorted_apart_insert l1 l2 s :
  StronglySorted apart (l1 ++ l2) -> Forall (apart s) (l1 ++ l2) -> StronglySorted apart (l1 ++ s :: l2).
Proof.
  rewrite !StronglySorted_app, StronglySorted_cons, Forall_app, !Forall_forall.
  intros (H12 & H1 & H2) [Hs1 Hs2]. split_and!; auto.
  intros x y Hx [->|Hy]%elem_of_cons; auto using apart_sym.
Qed.

(** The placement, one body after another. *)
Section place.
Variables (p : page) (index : nat) (data : list Z).
Hypotheses (Hok : page_ok p) (Hdata : bytes data) (Hindex : index <= slot_count p)
  (Hfree : length data + SLOT_LEN <= free_space p).

Let count := slot_count p.
Let fe := free_end p - length data.
Let tail_ := slice (body p) (slot_at index) (slot_at count).
Let b1 := splice (body p) (slot_at (S index)) tail_.
Let b2 := splice b1 fe data.
Let b3 := wr16 b2 OFF_FREE_END fe.
Let b4 := wr16 b3 OFF_SLOT_COUNT (S count).
Let q := set_slot (Page b4) index fe (length data).

#[local] Lemma place_bounds :
  length (body p) = PAGE_BODY_LEN /\ fe + length data = free_end p /\ free_end p <= PAGE_BODY_LEN /\
  slot_at (S count) <= fe /\ slot_at (S index) <= slot_at (S count) /\
  slot_at (S index) + length tail_ = slot_at (S count).
Proof.
  pose proof (ok_length _ Hok). pose proof (ok_directory _ Hok).
  assert (length tail_ = slot_at count - slot_at index) as -> by (apply length_slice; unfold count; layout).
  unfold fe, count. layout.
Qed.

#[local] Lemma place_lengths :
  length b1 = PAGE_BODY_LEN /\ length b2 = PAGE_BODY_LEN /\ length b3 = PAGE_BODY_LEN /\ length b4 = PAGE_BODY_LEN.
Proof.
  pose proof place_bounds as (? & ? & ? & ? & ? & ?).
  assert (length b1 = PAGE_BODY_LEN) by (unfold b1; rewrite length_splice; lia).
  assert (length b2 = PAGE_BODY_LEN) by (unfold b2; rewrite length_splice; lia).
  assert (length b3 = PAGE_BODY_LEN) by (unfold b3; rewrite length_wr16; layout).
  unfold b4. rewrite length_wr16; layout.
Qed.

(** Bring the bounds in and solve layout arithmetic. *)
#[local] Ltac plc :=
  pose proof place_bounds as (? & ? & ? & ? & ? & ?);
  pose proof place_lengths as (? & ? & ? & ?); layout.

#[local] Lemma place_cell_eq : place_cell p index data = q.
Proof.
  unfold place_cell. fold count tail_ b1.
  assert (free_end (Page b1) = free_end p) as ->; [|reflexivity].
  unfold free_end. cbn [body]. unfold b1. apply rd16_splice_ne; plc.
Qed.

(** A field outside the directory, the counters and the new cell keeps its bytes. *)
#[local] Lemma place_slice_out i j :
  j <= OFF_SLOT_COUNT \/ (OFF_SLOT_COUNT + 4 <= i /\ j <= PAGE_HEADER_LEN) \/ free_end p <= i ->
  slice (body q) i j = slice (body p) i j.
Proof.
  intros Hij. unfold q, set_slot. cbn [body].
  rewrite slice_wr16_ne by (rewrite ?length_wr16; plc).
  rewrite slice_wr16_ne by plc. unfold b4. rewrite slice_wr16_ne by plc.
  unfold b3. rewrite slice_wr16_ne by plc. unfold b2. rewrite slice_splice_ne by plc.
  unfold b1. apply slice_splice_ne; plc.
Qed.

#[local] Lemma place_slot_count : slot_count q = S count.
Proof.
  unfold q. destruct (set_slot_header (Page b4) index fe (length data)) as (_ & _ & -> & _); [cbn; plc|].
  unfold slot_count. cbn [body]. unfold b4. apply rd16_wr16; plc.
Qed.

#[local] Lemma place_free_end : free_end q = fe.
Proof.
  unfold q. destruct (set_slot_header (Page b4) index fe (length data)) as (_ & _ & _ & ->); [cbn; plc|].
  unfold free_end. cbn [body]. unfold b4. rewrite rd16_wr16_ne by plc. unfold b3. apply rd16_wr16; plc.
Qed.

#[local] Lemma place_slot_ne k : k < S count -> k <> index -> slot q k = slot (Page b1) k.
Proof.
  intros. unfold q. rewrite slot_set_slot_ne by (cbn; plc). unfold slot. cbn [body].
  unfold b4. rewrite !rd16_wr16_ne by plc. unfold b3. rewrite !rd16_wr16_ne by plc.
  unfold b2. rewrite !rd16_splice_ne by plc. done.
Qed.

(** The directory gains one entry at [index]; the later ones move up by one. *)
#[local] Lemma place_slots :
  slots q = take index (slots p) ++ (fe, length data) :: drop index (slots p).
Proof.
  assert (length (take index (slots p)) = index) as Hti by (rewrite length_take, length_slots; fold count; lia).
  apply slots_eq.
  { rewrite place_slot_count, length_app, Hti. cbn [length]. rewrite length_drop, length_slots. fold count. lia. }
  intros k s Hk. destruct (lt_eq_lt_dec k index) as [[Hlt| ->]|Hgt].
  - rewrite lookup_app_l, lookup_take_lt, slots_lookup in Hk by (fold count; lia). injection Hk as <-.
    rewrite place_slot_ne by (fold count in Hindex; lia). apply slot_splice_ne; plc.
  - rewrite list_lookup_middle in Hk by done. injection Hk as <-. apply slot_set_slot_eq; cbn [body]; plc.
  - rewrite lookup_app_r, Hti in Hk by lia.
    rewrite lookup_cons_ne_0, lookup_drop in Hk by lia.
    replace (index + Nat.pred (k - index)) with (k - 1) in Hk by lia.
    assert (k - 1 < count) as Hkc by (apply lookup_lt_Some in Hk; by rewrite length_slots in Hk).
    rewrite slots_lookup in Hk by done. injection Hk as <-.
    rewrite place_slot_ne by lia. unfold slot, rd16. cbn [body]. unfold b1.
    rewrite !slice_splice_in by plc. unfold tail_. rewrite !slice_slice by plc.
    f_equal; (do 2 f_equal); (f_equal; plc).
Qed.

#[local] Lemma place_cells :
  page_cells q = take index (page_cells p) ++ data :: drop index (page_cells p).
Proof.
  assert (map (slot_bytes q) (slots p) = page_cells p) as Hold.
  { apply map_ext_in. intros s Hs. rewrite <- list_elem_of_In in Hs. unfold slot_bytes.
    eapply Forall_forall in Hs; [|apply Hok]. apply place_slice_out. plc. }
  assert (slot_bytes q (fe, length data) = data) as Hnew.
  { unfold slot_bytes, q, set_slot. cbn [body fst snd].
    rewrite slice_wr16_ne by (rewrite ?length_wr16; plc). rewrite slice_wr16_ne by plc.
    unfold b4. rewrite slice_wr16_ne by plc. unfold b3. rewrite slice_wr16_ne by plc.
    unfold b2. apply slice_splice_eq; plc. }
  unfold page_cells at 1. rewrite place_slots, map_app. cbn [map]. rewrite Hnew, <- Hold, <- fmap_take, <- fmap_drop. done.
Qed.

#[local] Lemma place_ok : page_ok q.
Proof.
  pose proof (ok_slots _ Hok) as Hw. pose proof (ok_used _ Hok) as Hu.
  apply (page_ok_intro p q (slots q)); rewrite ?place_free_end; auto.
  - unfold q. rewrite length_set_slot; cbn [body]; plc.
  - unfold q, set_slot, b4, b3, b2, b1, tail_. cbn [body]. pose proof (ok_bytes _ Hok). auto 10 with fq.
  - apply place_slice_out. plc.
  - rewrite length_slots, place_slot_count. plc.
  - rewrite place_slots. apply Forall_app_2; [|constructor].
    + apply Forall_take. eapply Forall_impl; [exact Hw|]. intros s. plc.
    + plc.
    + apply Forall_drop. eapply Forall_impl; [exact Hw|]. intros s. plc.
  - rewrite place_slots. apply StronglySorted_apart_insert; rewrite take_drop; [apply Hok|].
    eapply Forall_impl; [exact Hw|]. intros s. plc.
  - rewrite place_slots, used_app, used_cons.
    rewrite <- (take_drop index (slots p)), used_app in Hu. plc.
Qed.

Lemma place_cell_spec :
  page_ok (place_cell p index data) /\ kind (place_cell p index data) = kind p /\
  extra (place_cell p index data) = extra p /\
  page_cells (place_cell p index data) = take index (page_cells p) ++ data :: drop index (page_cells p).
Proof.
  rewrite place_cell_eq. split_and!; auto using place_ok, place_cells.
  - apply kind_ext, place_slice_out. plc.
  - unfold extra. rewrite place_slice_out by plc. done.
Qed.
End place.

(** Room for one more cell of [n] bytes. *)
Definition has_room (cs : list (list Z)) (n : nat) : Prop := cells_space cs + n + SLOT_LEN <= PAGE_CAPACITY.

#[export] Instance has_room_dec cs n : Decision (has_room cs n).
Proof. unfold has_room. apply _. Defined.

(** [insert_cell] places the cell exactly when the index is in range and the
    page has room for it; otherwise it leaves the page untouched. *)
Lemma insert_cell_spec p index data :
  page_ok p -> bytes data ->
  if decide (index <= slot_count p /\ has_room (page_cells p) (length data)) then
    exists q, insert_cell p index data = (q, true) /\ page_ok q /\ kind q = kind p /\ extra q = extra p /\
      page_cells q = take index (page_cells p) ++ data :: drop index (page_cells p)
  else insert_cell p index data = (p, false).
Proof.
  intros Hok Hd. unfold has_room. pose proof (reclaimable_spec p Hok) as Hr.
  pose proof (page_cells_fit p Hok). pose proof (free_le_reclaimable p Hok).
  case_decide as Hc; unfold insert_cell.
  - destruct Hc as [Hi Hroom].
    rewrite (proj2 (Nat.ltb_ge _ _)) by lia.
    rewrite (proj2 (Nat.ltb_ge MAX_CELL_LEN _)) by (unfold PAGE_CAPACITY in *; layout). cbn [orb].
    rewrite (proj2 (Nat.ltb_ge (reclaimable_space p) _)) by lia. rewrite andb_false_r.
    assert (exists p', (if free_space p <? length data + SLOT_LEN then compact p else p) = p' /\
      page_ok p' /\ page_abs p' = page_abs p /\ slot_count p' = slot_count p /\
      length data + SLOT_LEN <= free_space p') as (p' & -> & Hok' & Ha & Hcnt & Hfree).
    { eexists. split; [reflexivity|]. destruct (Nat.ltb_spec (free_space p) (length data + SLOT_LEN)).
      - destruct (compact_spec p Hok) as (? & ? & ? & ->). split_and!; auto. lia.
      - split_and!; auto. }
    injection Ha as Hk Hx Hcells.
    destruct (place_cell_spec p' index data) as (H1 & H2 & H3 & H4); auto; [lia|].
    exists (place_cell p' index data). rewrite <- Hk, <- Hx, <- Hcells. split_and!; auto.
    unfold place_cell. by rewrite Hcnt.
  - destruct (Nat.ltb_spec (slot_count p) index); [done|].
    destruct (Nat.ltb_spec MAX_CELL_LEN (length data)); [done|]. cbn [orb].
    rewrite (proj2 (Nat.ltb_lt (reclaimable_space p) _)) by lia.
    rewrite (proj2 (Nat.ltb_lt (free_space p) _)) by lia. done.
Qed.

Lemma push_cell_spec p data :
  page_ok p -> bytes data ->
  if decide (has_room (page_cells p) (length data)) then
    exists q, push_cell p data = (q, Some (slot_count p)) /\ page_ok q /\ kind q = kind p /\ extra q = extra p /\
      page_cells q = page_cells p ++ [data]
  else push_cell p data = (p, None).
Proof.
  intros Hok Hd. pose proof (insert_cell_spec p (slot_count p) data Hok Hd) as H. unfold push_cell.
  case_decide as Hr; case_decide as Hr'.
  - destruct H as (q & -> & ? & ? & ? & Hcells). exists q. split_and!; auto.
    by rewrite Hcells, take_ge, drop_ge by by rewrite length_page_cells.
  - exfalso. apply Hr'. apply Hr.
  - exfalso. apply Hr. auto.
  - by rewrite H.
Qed.

(** ** Removal *)

Section remove.
Variables (p : page) (index : nat).
Hypotheses (Hok : page_ok p) (Hindex : index < slot_count p).

Let count := slot_count p.
Let tail_ := slice (body p) (slot_at (S index)) (slot_at count).
Let b1 := splice (body p) (slot_at index) tail_.
Let q := set_slot_count (Page b1) (count - 1).

#[local] Lemma remove_bounds :
  length (body p) = PAGE_BODY_LEN /\ slot_at (S index) <= slot_at count <= free_end p /\
  free_end p <= PAGE_BODY_LEN /\ slot_at index + length tail_ + SLOT_LEN = slot_at count /\
  length b1 = PAGE_BODY_LEN.
Proof.
  pose proof (ok_length _ Hok). pose proof (ok_directory _ Hok).
  assert (length tail_ = slot_at count - slot_at (S index)) as Ht by (apply length_slice; unfold count; layout).
  assert (length b1 = PAGE_BODY_LEN) by (unfold b1; rewrite length_splice; unfold count in *; layout).
  unfold count in *. layout.
Qed.

#[local] Ltac rmv := pose proof remove_bounds as (? & ? & ? & ? & ?); layout.

#[local] Lemma remove_cell_eq : remove_cell p index = q.
Proof. unfold remove_cell. by rewrite (proj2 (Nat.leb_gt _ _)). Qed.

#[local] Lemma remove_slice_out i j :
  j <= OFF_SLOT_COUNT \/ (OFF_SLOT_COUNT + 2 <= i /\ j <= PAGE_HEADER_LEN) \/ free_end p <= i ->
  slice (body q) i j = slice (body p) i j.
Proof.
  intros. unfold q, set_slot_count. cbn [body]. rewrite slice_wr16_ne by rmv.
  unfold b1. apply slice_splice_ne; rmv.
Qed.

#[local] Lemma remove_slot_count : slot_count q = count - 1.
Proof. unfold q, slot_count, set_slot_count. cbn [body]. apply rd16_wr16; rmv. Qed.

#[local] Lemma remove_free_end : free_end q = free_end p.
Proof. unfold free_end, rd16. do 2 f_equal. apply remove_slice_out. layout. Qed.

#[local] Lemma remove_slots : slots q = take index (slots p) ++ drop (S index) (slots p).
Proof.
  assert (length (take index (slots p)) = index) as Hti by (rewrite length_take, length_slots; fold count; lia).
  apply slots_eq; [rewrite remove_slot_count, length_app, Hti, length_drop, length_slots; fold count; lia|].
  intros k s Hk. unfold slot, q, set_slot_count. cbn [body]. rewrite !rd16_wr16_ne by rmv.
  destruct (decide (k < index)).
  - rewrite lookup_app_l, lookup_take_lt, slots_lookup in Hk by (fold count; lia).
    injection Hk as <-. unfold b1. rewrite !rd16_splice_ne by rmv. done.
  - rewrite lookup_app_r, lookup_drop, Hti in Hk by lia.
    replace (S index + (k - index)) with (S k) in Hk by lia.
    assert (S k < count) as Hkc by (apply lookup_lt_Some in Hk; by rewrite length_slots in Hk).
    rewrite slots_lookup in Hk by done. injection Hk as <-. unfold slot, rd16, b1.
    rewrite !slice_splice_in by rmv. unfold tail_. rewrite !slice_slice by rmv.
    f_equal; (do 2 f_equal); (f_equal; rmv).
Qed.

#[local] Lemma remove_ok : page_ok q.
Proof.
  assert (slots p = take index (slots p) ++ slot p index :: drop (S index) (slots p)) as Hsplit
    by (symmetry; apply take_drop_middle, slots_lookup; done).
  apply (page_ok_intro p q (slots q)); rewrite ?remove_free_end; auto.
  - unfold q, set_slot_count. cbn [body]. rewrite length_wr16; rmv.
  - unfold q, set_slot_count, b1, tail_. cbn [body]. pose proof (ok_bytes _ Hok). auto with fq.
  - apply remove_slice_out. layout.
  - rewrite length_slots, remove_slot_count. unfold count. rmv.
  - rewrite remove_slots. pose proof (ok_slots _ Hok). auto using Forall_app_2, Forall_take, Forall_drop.
  - pose proof (ok_apart _ Hok) as Ha. rewrite Hsplit in Ha. revert Ha.
    rewrite remove_slots, !StronglySorted_app, StronglySorted_cons.
    intros (H12 & H1 & _ & H2). split_and!; auto. intros x y Hx Hy. apply H12; [done|by right].
  - pose proof (ok_used _ Hok) as Hu. rewrite Hsplit, used_app, used_cons in Hu.
    rewrite remove_slots, used_app. lia.
Qed.

Lemma remove_cell_spec :
  page_ok (remove_cell p index) /\ kind (remove_cell p index) = kind p /\
  extra (remove_cell p index) = extra p /\
  page_cells (remove_cell p index) = take index (page_cells p) ++ drop (S index) (page_cells p).
Proof.
  rewrite remove_cell_eq. split_and!.
  - apply remove_ok.
  - apply kind_ext, remove_slice_out. layout.
  - unfold extra. by rewrite remove_slice_out by layout.
  - unfold page_cells at 1. rewrite remove_slots, map_app, <- firstn_map, <- skipn_map.
    assert (map (slot_bytes q) (slots p) = page_cells p) as ->; [|done].
    apply map_ext_in. intros s Hin. rewrite <- list_elem_of_In in Hin.
    eapply Forall_forall in Hin; [|apply Hok]. apply remove_slice_out. layout.
Qed.
End remove.

(** ** Replacement *)

Lemma apart_lookup p i j :
  page_ok p -> i < slot_count p -> j < slot_count p -> i <> j -> apart (slot p i) (slot p j).
Proof.
  intros Hok Hi Hj Hne. pose proof (ok_apart _ Hok) as Ha.
  assert (forall a b, a < b -> b < slot_count p -> apart (slot p a) (slot p b)) as H.
  { intros a b Hab Hb. rewrite <- (take_drop_middle (slots p) a (slot p a)) in Ha by (apply slots_lookup; lia).
    apply StronglySorted_app in Ha as (_ & _ & Ha). apply StronglySorted_cons in Ha as [Ha _].
    eapply Forall_forall in Ha; [exact Ha|]. apply list_elem_of_lookup. exists (b - S a).
    rewrite lookup_drop. replace (S a + (b - S a)) with b by lia. by apply slots_lookup. }
  destruct (lt_eq_lt_dec i j) as [[?|?]|?]; auto using apart_sym. done.
Qed.

(** Overwriting a cell with bytes of the same length. *)
Lemma overwrite_spec p index data :
  page_ok p -> bytes data -> index < slot_count p -> (slot p index).2 = length data ->
  let q := Page (splice (body p) (slot p index).1 data) in
  page_ok q /\ kind q = kind p /\ extra q = extra p /\ page_cells q = <[index:=data]> (page_cells p).
Proof.
  intros Hok Hd Hi Hl q. pose proof (ok_length _ Hok) as Hlen. pose proof (ok_directory _ Hok) as Hdir.
  assert (forall k, k < slot_count p -> slot_within (free_end p) PAGE_BODY_LEN (slot p k)) as Hw.
  { intros k Hk. eapply Forall_lookup_1; [apply Hok|]. by apply slots_lookup. }
  pose proof (Hw index Hi) as Hwi.
  destruct (splice_header (body p) (slot p index).1 data) as (H6 & Hx & Hc & Hf); [layout..|].
  assert (slots q = slots p) as Hs.
  { apply slots_eq; [rewrite length_slots; exact Hc|]. intros k s Hk.
    assert (k < slot_count p) by (apply lookup_lt_Some in Hk; by rewrite length_slots in Hk).
    rewrite slots_lookup in Hk by done. injection Hk as <-. apply slot_splice_ne; layout. }
  split_and!; [|by apply kind_ext|unfold extra; by rewrite <- Hx|].
  - apply (page_ok_intro p q (slots q)); auto; rewrite ?Hs; try apply Hok.
    + unfold q. cbn [body]. rewrite length_splice; layout.
    + unfold q. cbn [body]. pose proof (ok_bytes _ Hok). auto with fq.
    + unfold free_end, q. cbn [body]. rewrite Hf, length_slots. exact Hdir.
    + unfold free_end, q. cbn [body]. rewrite Hf. apply Hok.
    + unfold free_end, q. cbn [body]. rewrite Hf. apply Hok.
  - apply list_eq. intros k. rewrite <- cell_lookup. destruct (decide (k < slot_count p)) as [Hk|Hk].
    + unfold cell. unfold slot_count at 1, q. cbn [body]. rewrite Hc. fold (slot_count p).
      rewrite (proj2 (Nat.leb_gt _ _)) by done. rewrite slot_splice_ne by (specialize (Hw k Hk); layout).
      unfold slot_bytes. cbn [body]. destruct (decide (k = index)) as [->|Hne].
      * rewrite list_lookup_insert_eq by by rewrite length_page_cells. f_equal.
        apply slice_splice_eq; layout.
      * rewrite list_lookup_insert_ne, <- cell_lookup by done. unfold cell.
        rewrite (proj2 (Nat.leb_gt _ _)) by done. f_equal. apply slice_splice_ne; [layout|].
        pose proof (apart_lookup p k index Hok Hk Hi Hne). layout.
    + rewrite cell_lookup, !(proj2 (lookup_ge_None _ _)); [done|rewrite length_insert, length_page_cells; lia|].
      rewrite length_page_cells. unfold slot_count at 1, q. cbn [body]. rewrite Hc. fold (slot_count p). lia.
Qed.

Lemma cells_len_app a b : cells_len (a ++ b) = cells_len a + cells_len b.
Proof. unfold cells_len. by rewrite map_app, list_sum_app. Qed.

Lemma cells_space_app a b : cells_space (a ++ b) = cells_space a + cells_space b.
Proof. unfold cells_space. rewrite cells_len_app, length_app. lia. Qed.

Lemma cells_space_cons c cs : cells_space (c :: cs) = length c + SLOT_LEN + cells_space cs.
Proof. unfold cells_space. rewrite cells_len_cons. cbn [length]. lia. Qed.

Lemma cells_space_nil : cells_space [] = 0.
Proof. reflexivity. Qed.

#[export] Hint Rewrite cells_space_app cells_space_cons cells_space_nil : fqlen.

(** [replace_cell] succeeds exactly when the cells still fit afterwards; when
    they do not, the old cell is gone (the code's callers check first). *)
Lemma replace_cell_spec p index data old :
  page_ok p -> bytes data -> page_cells p !! index = Some old ->
  if decide (cells_space (<[index:=data]> (page_cells p)) <= PAGE_CAPACITY) then
    exists q, replace_cell p index data = (q, true) /\ page_ok q /\ kind q = kind p /\ extra q = extra p /\
      page_cells q = <[index:=data]> (page_cells p)
  else replace_cell p index data = (remove_cell p index, false).
Proof.
  intros Hok Hd Hold.
  assert (index < slot_count p) as Hi by (apply lookup_lt_Some in Hold; by rewrite length_page_cells in Hold).
  assert (length old = (slot p index).2) as Hlo.
  { rewrite <- cell_lookup in Hold. unfold cell in Hold. rewrite (proj2 (Nat.leb_gt _ _)) in Hold by done.
    injection Hold as <-. apply slot_bytes_length. rewrite (ok_length _ Hok).
    pose proof (Forall_lookup_1 _ _ _ _ (ok_slots _ Hok) (slots_lookup p index Hi)). layout. }
  pose proof (page_cells_fit p Hok) as Hfit.
  rewrite insert_take_drop by by rewrite length_page_cells.
  pose proof (take_drop_middle _ _ _ Hold) as Hsplit. rewrite <- Hsplit in Hfit.
  destruct (remove_cell_spec p index Hok Hi) as (Hrok & Hrk & Hrx & Hrc).
  assert (index <= slot_count (remove_cell p index)) as Hri.
  { rewrite <- length_page_cells, Hrc, length_app, length_take, length_page_cells. lia. }
  pose proof (insert_cell_spec (remove_cell p index) index data Hrok Hd) as Hins.
  unfold replace_cell. rewrite (proj2 (Nat.leb_gt _ _)) by done.
  destruct (slot p index) as [off oldlen] eqn:Es. cbn [snd] in Hlo. subst oldlen.
  unfold has_room in Hins. rewrite Hrc in Hins. autorewrite with fqlen in *.
  destruct (Nat.eqb_spec (length old) (length data)) as [E|E].
  - rewrite decide_True by lia. destruct (overwrite_spec p index data) as (? & ? & ? & Hc); rewrite ?Es; auto.
    rewrite Es in *. cbn [fst] in *. eexists. split_and!; eauto. rewrite Hc.
    apply insert_take_drop. by rewrite length_page_cells.
  - destruct (decide (cells_space (take index (page_cells p)) + (length data + SLOT_LEN +
      cells_space (drop (S index) (page_cells p))) <= PAGE_CAPACITY)) as [Hc|Hc];
      [rewrite decide_True in Hins by len|rewrite decide_False in Hins by len].
    + destruct Hins as (q & -> & ? & ? & ? & Hcells). exists q. split_and!; eauto; try congruence.
      rewrite Hcells, take_app_length', drop_app_length'; [done|..];
        rewrite length_take, length_page_cells; lia.
    + done.
Qed.

(** ** Fresh pages and the auxiliary word *)

Lemma set_extra_spec p v :
  page_ok p -> u32 v ->
  page_ok (set_extra p v) /\ kind (set_extra p v) = kind p /\ extra (set_extra p v) = v /\
  page_cells (set_extra p v) = page_cells p.
Proof.
  intros Hok Hv. pose proof (ok_length _ Hok) as Hlen. pose proof (ok_directory _ Hok) as Hdir.
  assert (OFF_EXTRA + length (le_bytes 4 v) <= length (body p)) as Hin by layout.
  assert (forall i j, j <= OFF_EXTRA \/ PAGE_HEADER_LEN <= i ->
    slice (body (set_extra p v)) i j = slice (body p) i j) as Hout.
  { intros. unfold set_extra. cbn [body]. apply slice_splice_ne; layout. }
  assert (slots (set_extra p v) = slots p) as Hs.
  { unfold slots, slot_count, rd16. rewrite Hout by layout. apply map_ext. intros k. unfold slot, rd16.
    rewrite !Hout by layout. done. }
  assert (free_end (set_extra p v) = free_end p) as Hf by (unfold free_end, rd16; rewrite Hout by layout; done).
  split_and!.
  - apply (page_ok_intro p _ (slots p)); rewrite ?Hf, ?length_slots; auto; try apply Hok.
    + unfold set_extra. cbn [body]. rewrite length_splice; layout.
    + unfold set_extra. cbn [body]. pose proof (ok_bytes _ Hok). auto with fq.
    + apply Hout. layout.
  - apply kind_ext, Hout. layout.
  - unfold extra, set_extra. cbn [body]. rewrite slice_splice_eq by (autorewrite with fqlen; layout).
    apply le_val_le_bytes_small. change (256 ^ Z.of_nat 4)%Z with 4294967296%Z. lia.
  - unfold page_cells. rewrite Hs. apply map_ext_in. intros s Hin'. rewrite <- list_elem_of_In in Hin'.
    eapply Forall_forall in Hin'; [|apply Hok]. apply Hout. layout.
Qed.

Lemma kind_from_to k : kind_from_byte (kind_to_byte k) = Some k.
Proof. by destruct k. Qed.

Lemma splice_app_l {A} (h t : list A) i d :
  i + length d <= length h -> splice (h ++ t) i d = splice h i d ++ t.
Proof.
  intros. unfold splice. rewrite take_app_le, drop_app_le by lia. by rewrite <- !app_assoc.
Qed.

(** The body of a fresh page: its header, then zeroes. *)
Lemma page_new_body k :
  body (page_new k) =
    (PAGE_MAGIC ++ [kind_to_byte k; PAGE_FORMAT_VERSION; 0; 0; 228; 63] ++ replicate 14 0)%Z
    ++ replicate (PAGE_BODY_LEN - PAGE_HEADER_LEN) 0%Z.
Proof.
  unfold page_new, set_extra, set_free_end, set_slot_count, wr16. cbn [body]. rewrite PAGE_BODY_LEN_val.
  replace PAGE_BODY_LEN with (PAGE_HEADER_LEN + (PAGE_BODY_LEN - PAGE_HEADER_LEN)) at 1 by layout.
  rewrite replicate_add. generalize (replicate (PAGE_BODY_LEN - PAGE_HEADER_LEN) 0%Z). intros t.
  repeat (rewrite splice_app_l by (vm_compute; lia)). f_equal.
Qed.

Lemma page_new_spec k :
  page_ok (page_new k) /\ kind (page_new k) = k /\ extra (page_new k) = 0%Z /\ page_cells (page_new k) = [].
Proof.
  assert (kind (page_new k) = k) as Hk.
  { unfold kind. rewrite page_new_body. cbn. by rewrite kind_from_to. }
  assert (slot_count (page_new k) = 0) as Hc by (unfold slot_count, rd16; rewrite page_new_body; done).
  assert (free_end (page_new k) = PAGE_BODY_LEN) as Hf.
  { unfold free_end, rd16. rewrite page_new_body. pose proof PAGE_BODY_LEN_val.
    rewrite slice_app_l by (cbn; lia).
    change (Z.to_nat 16356 = PAGE_BODY_LEN). lia. }
  assert (slots (page_new k) = []) as Hs by (unfold slots; by rewrite Hc).
  split_and!; [|done| |].
  - split; rewrite ?Hs, ?Hk, ?Hf.
    + rewrite page_new_body, length_app, length_replicate. cbn. layout.
    + rewrite page_new_body. apply Forall_app_2; [|apply Forall_replicate; unfold is_byte; lia].
      destruct k; solve_bytes.
    + rewrite page_new_body. rewrite slice_app_l by (cbn; lia). done.
    + unfold directory_end. rewrite Hc. layout.
    + constructor.
    + constructor.
    + cbn. lia.
  - unfold extra. rewrite page_new_body. rewrite slice_app_l by (cbn; lia). done.
  - unfold page_cells. by rewrite Hs.
Qed.

(** ** The on-disk form round-trips *)

Lemma encode_length p : page_ok p -> length (encode p) = PAGE_BODY_LEN.
Proof. intros H. unfold encode. rewrite length_splice; rewrite (ok_length _ H); layout. Qed.

Lemma encode_slice p i j :
  page_ok p -> j <= OFF_CRC \/ OFF_CRC + 4 <= i -> slice (encode p) i j = slice (body p) i j.
Proof.
  intros H Hij. unfold encode. apply slice_splice_ne; rewrite length_le_bytes; [rewrite (ok_length _ H); layout|lia].
Qed.

Lemma encode_crc p : page_ok p -> compute_crc (Page (encode p)) = compute_crc p.
Proof.
  intros H. unfold compute_crc. cbn [body]. pose proof (ok_length _ H) as Hl.
  assert (forall b : list Z, take OFF_CRC b = slice b 0 OFF_CRC) as Ht.
  { intros b. unfold slice. by rewrite drop_0, Nat.sub_0_r. }
  assert (forall b : list Z, length b = PAGE_BODY_LEN -> drop (OFF_CRC + 4) b = slice b (OFF_CRC + 4) PAGE_BODY_LEN) as Hd.
  { intros b Hb. unfold slice. rewrite take_ge by (rewrite length_drop; lia). done. }
  rewrite !Ht, !Hd by auto using encode_length. rewrite !encode_slice by (auto; lia). done.
Qed.

Lemma compute_crc_u32 p : bytes (body p) -> u32 (compute_crc p).
Proof. intros. apply crc32_parts_u32. repeat constructor; auto with fq. Qed.

(** The encoded body is the page again, its checksum field aside. *)
Lemma encode_page p :
  page_ok p -> page_ok (Page (encode p)) /\ page_abs (Page (encode p)) = page_abs p /\
    slots (Page (encode p)) = slots p /\ free_end (Page (encode p)) = free_end p.
Proof.
  intros H. pose proof (ok_length _ H) as Hl. pose proof (ok_directory _ H) as Hd.
  assert (slots (Page (encode p)) = slots p) as Hs.
  { unfold slots, slot_count, rd16. cbn [body]. rewrite encode_slice by layout || done.
    apply map_ext. intros k. unfold slot, rd16. cbn [body]. rewrite !encode_slice by (done || layout). done. }
  assert (free_end (Page (encode p)) = free_end p) as Hf.
  { unfold free_end, rd16. cbn [body]. rewrite encode_slice by (done || layout). done. }
  split_and!; auto.
  - apply (page_ok_intro p _ (slots p)); rewrite ?Hf, ?length_slots; auto; try apply H.
    + cbn [body]. by apply encode_length.
    + unfold encode. cbn [body]. pose proof (ok_bytes _ H). auto with fq.
    + apply encode_slice; [done|layout].
  - unfold page_abs. f_equal.
    + apply kind_ext, encode_slice; [done|layout].
    + unfold extra. cbn [body]. rewrite encode_slice by (done || layout). done.
    + unfold page_cells. rewrite Hs. apply map_ext_in. intros s Hs'. rewrite <- list_elem_of_In in Hs'.
      eapply Forall_forall in Hs'; [|apply H]. apply encode_slice; [done|layout].
Qed.

Lemma decode_encode p : page_ok p -> decode (encode p) = Ok (Page (encode p)).
Proof.
  intros H. destruct (encode_page p H) as (Hok & Habs & Hs & Hf). unfold decode.
  rewrite encode_length, Nat.eqb_refl by done. cbn [negb].
  pose proof (ok_head _ Hok) as H6. cbn [body] in H6.
  assert (slice (encode p) OFF_MAGIC (OFF_MAGIC + 4) = PAGE_MAGIC) as Hmagic.
  { transitivity (slice (slice (encode p) 0 6) 0 4); [by rewrite slice_slice by lia|]. by rewrite H6. }
  assert (forall k, k < 6 -> encode p !!! k = slice (encode p) 0 6 !!! k) as Hlk.
  { intros k Hk. rewrite !list_lookup_total_alt. by rewrite lookup_slice by lia. }
  rewrite bool_decide_true by exact Hmagic. cbn [negb].
  rewrite (Hlk OFF_VERSION), (Hlk OFF_KIND), H6 by (unfold OFF_VERSION, OFF_KIND; lia).
  change ((PAGE_MAGIC ++ [kind_to_byte (kind (Page (encode p))); PAGE_FORMAT_VERSION]) !!! OFF_VERSION)
    with PAGE_FORMAT_VERSION.
  change ((PAGE_MAGIC ++ [kind_to_byte (kind (Page (encode p))); PAGE_FORMAT_VERSION]) !!! OFF_KIND)
    with (kind_to_byte (kind (Page (encode p)))).
  rewrite Z.eqb_refl, kind_from_to, bool_decide_true by eauto. cbn [negb].
  assert (le_val (slice (encode p) OFF_CRC (OFF_CRC + 4)) = compute_crc (Page (encode p))) as ->.
  { rewrite encode_crc by done. unfold encode.
    rewrite slice_splice_eq by (rewrite ?length_le_bytes, ?(ok_length _ H); layout).
    apply le_val_le_bytes_small. change (256 ^ Z.of_nat 4)%Z with 4294967296%Z. apply compute_crc_u32, H. }
  rewrite Z.eqb_refl. cbn [negb].
  pose proof (ok_directory _ Hok) as Hd.
  rewrite (proj2 (Nat.ltb_ge _ _)) by lia. rewrite (proj2 (Nat.ltb_ge PAGE_BODY_LEN _)) by lia. cbn [orb].
  assert (forallb (slot_in_bounds (Page (encode p))) (slots (Page (encode p))) = true) as ->; [|done].
  apply forallb_forall. intros s Hin. rewrite <- list_elem_of_In in Hin.
  eapply Forall_forall in Hin; [|apply Hok]. unfold slot_in_bounds.
  rewrite (proj2 (Nat.ltb_ge _ _)), (proj2 (Nat.ltb_ge PAGE_BODY_LEN _)) by layout. done.
Qed.

(** *** Corruption *)

Lemma insert_splits {A} (l : list A) i j k x :
  j <= k -> k <= length l -> i < length l -> (i < j \/ k <= i) ->
  take j (<[i := x]> l) ++ drop k (<[i := x]> l) =
  <[(if decide (i < j) then i else i - (k - j)) := x]> (take j l ++ drop k l).
Proof.
  intros Hjk Hk Hi Hij. apply list_eq. intros m.
  assert (length (take j (<[i := x]> l)) = j) as L1 by (rewrite length_take, length_insert; lia).
  assert (length (take j l) = j) as L2 by (rewrite length_take; lia).
  set (i' := if decide (i < j) then i else i - (k - j)).
  assert (i' < length (take j l ++ drop k l)) as Hi'.
  { subst i'. rewrite length_app, L2, length_drop. case_decide; lia. }
  destruct (decide (m = i')) as [->|Hm].
  - rewrite list_lookup_insert_eq by done. subst i'. case_decide.
    + rewrite lookup_app_l, lookup_take_lt by lia. by rewrite list_lookup_insert_eq.
    + rewrite lookup_app_r, L1, lookup_drop by lia. replace (k + (i - (k - j) - j)) with i by lia.
      by rewrite list_lookup_insert_eq.
  - rewrite list_lookup_insert_ne by done. destruct (decide (m < j)).
    + rewrite !lookup_app_l, !lookup_take_lt by lia. apply list_lookup_insert_ne. subst i'. case_decide; lia.
    + rewrite !lookup_app_r, L1, L2, !lookup_drop by lia. apply list_lookup_insert_ne. subst i'. case_decide; lia.
Qed.

(** A changed byte outside the checksum changes what the checksum should be. *)
Lemma compute_crc_changed (b : list Z) i x y :
  bytes b -> length b = PAGE_BODY_LEN -> is_byte y -> b !! i = Some x -> x <> y -> i < OFF_CRC \/ OFF_CRC + 4 <= i ->
  compute_crc (Page (<[i := y]> b)) <> compute_crc (Page b).
Proof.
  intros Hb Hl Hy Hx Hne Hi. pose proof (lookup_lt_Some _ _ _ Hx) as Hlt. unfold compute_crc. cbn [body].
  apply (crc32_parts_changed _ _ (if decide (i < OFF_CRC) then i else i - 4) x y); cbn [concat]; rewrite ?app_nil_r; auto.
  - rewrite (insert_splits b i OFF_CRC (OFF_CRC + 4) y) by layout. by replace (OFF_CRC + 4 - OFF_CRC) with 4 by lia.
  - auto with fq.
  - case_decide.
    + rewrite lookup_app_l by (rewrite length_take; layout). by rewrite lookup_take_lt.
    + assert (length (take OFF_CRC b) = OFF_CRC) as L by (rewrite length_take; layout).
      rewrite lookup_app_r, L, lookup_drop by lia. by replace (OFF_CRC + 4 + (i - 4 - OFF_CRC)) with i by lia.
Qed.

(** A page whose checksum does not match is refused, whatever else it says. *)
Lemma decode_bad_crc b :
  le_val (slice b OFF_CRC (OFF_CRC + 4)) <> compute_crc (Page b) -> decode b = Err InvalidData.
Proof.
  intros Hc. unfold decode. cbn zeta. rewrite (proj2 (Z.eqb_neq _ _) Hc). cbn [negb]. by repeat case_goal.
Qed.

(** A page survives the disk: decoding the encoded page succeeds and gives back the same kind,
    auxiliary word and cells. *)
Theorem page_roundtrip (p : page) :
  page_ok p -> exists q, decode (encode p) = Ok q /\ page_ok q /\ page_abs q = page_abs p.
Proof.
  intros H. destruct (encode_page p H) as (Hok & Habs & _). exists (Page (encode p)). by split; [apply decode_encode|].
Qed.

Lemma page_roundtrip_witness :
  exists q, decode (encode (page_new Leaf)) = Ok q /\ page_ok q /\ page_abs q = page_abs (page_new Leaf).
Proof. apply page_roundtrip. apply page_new_spec. Defined.

(** Any change of one byte of an encoded page, wherever it falls, is detected: [decode] refuses
    the page. *)
Theorem page_corruption_detected (p : page) (i : nat) (x y : Z) :
  page_ok p -> encode p !! i = Some x -> is_byte y -> x <> y -> decode (<[i := y]> (encode p)) = Err InvalidData.
Proof.
  intros H Hx Hy Hne. destruct (encode_page p H) as (Hok & _). pose proof (ok_length _ Hok) as Hl. pose proof (ok_bytes _ Hok) as Hb.
  cbn [body] in Hl, Hb. pose proof (lookup_lt_Some _ _ _ Hx) as Hlt. apply decode_bad_crc.
  assert (le_val (slice (encode p) OFF_CRC (OFF_CRC + 4)) = compute_crc (Page (encode p))) as Hcrc.
  { rewrite encode_crc by done. unfold encode.
    rewrite slice_splice_eq by (rewrite ?length_le_bytes, ?(ok_length _ H); layout).
    apply le_val_le_bytes_small. change (256 ^ Z.of_nat 4)%Z with 4294967296%Z. apply compute_crc_u32, H. }
  destruct (decide (i < OFF_CRC \/ OFF_CRC + 4 <= i)) as [Hout|Hin].
  - replace (slice (<[i := y]> (encode p)) OFF_CRC (OFF_CRC + 4)) with (slice (encode p) OFF_CRC (OFF_CRC + 4)).
    + rewrite Hcrc. intros E. symmetry in E. by eapply compute_crc_changed in E.
    + apply slice_ext. intros k Hk. symmetry. apply list_lookup_insert_ne. lia.
  - replace (compute_crc (Page (<[i := y]> (encode p)))) with (compute_crc (Page (encode p))).
    + rewrite <- Hcrc. intros E. apply le_val_inj in E; [|by auto using Forall_slice, Forall_insert|by auto using Forall_slice|].
      * apply Hne. apply (f_equal (fun l => l !! (i - OFF_CRC))) in E. rewrite !lookup_slice in E by lia.
        replace (OFF_CRC + (i - OFF_CRC)) with i in E by lia. rewrite list_lookup_insert_eq in E by done. congruence.
      * rewrite !length_slice by (rewrite ?length_insert; layout). done.
    + unfold compute_crc. cbn [body]. f_equal. f_equal; [|f_equal].
      * by rewrite take_insert_ge by lia.
      * by rewrite drop_insert_lt by lia.
Qed.

Lemma page_corruption_detected_witness : decode (<[100 := 1%Z]> (encode (page_new Leaf))) = Err InvalidData.
Proof.
  apply (page_corruption_detected (page_new Leaf) 100 0 1).
  - apply page_new_spec.
  - vm_compute. reflexivity.
  - unfold is_byte. lia.
  - lia.
Defined.
