(* ===== verification/PageSpec.v ===== *)
(** * What a slotted page promises to the structures built on it

    [PageImpl] is the contract between [src/src/storage/page.rs] and its two
    clients, the B+tree and the record heap: a page is a kind, an auxiliary
    word and a list of cells within a capacity.  [byte_page] discharges the
    contract for the byte-level page of [Page.v]; [list_page] is the reference
    implementation that simply stores the list, used where a client is run on
    concrete inputs.  The clients' theorems are proved for every [PageImpl]. *)

From Stdlib Require Import ZArith Lia.
From stdpp Require Import base tactics list option.
From S2P Require Import Prelude Binary Page.

(** Bytes the contract requires of a cell list: it fits, and is made of bytes. *)
Definition cells_ok (cs : list (list Z)) : Prop :=
  cells_space cs <= PAGE_CAPACITY /\ Forall (Forall is_byte) cs.

Class PageImpl (P : Type) := {
  pg_ok : P -> Prop;
  pg_abs : P -> apage;

  pg_new : page_kind -> P;
  pg_kind : P -> page_kind;
  pg_extra : P -> Z;
  pg_set_extra : P -> Z -> P;
  pg_slot_count : P -> nat;
  pg_cell : P -> nat -> option (list Z);
  pg_reclaimable : P -> nat;
  pg_insert : P -> nat -> list Z -> P * bool;
  pg_push : P -> list Z -> P * option nat;
  pg_replace : P -> nat -> list Z -> P * bool;
  pg_remove : P -> nat -> P;

  pg_cells_ok p : pg_ok p -> cells_ok (a_cells (pg_abs p));
  pg_extra_u32 p : pg_ok p -> u32 (a_extra (pg_abs p));
  pg_kind_abs p : pg_kind p = a_kind (pg_abs p);
  pg_extra_abs p : pg_extra p = a_extra (pg_abs p);
  pg_slot_count_abs p : pg_slot_count p = length (a_cells (pg_abs p));
  pg_cell_abs p i : pg_cell p i = a_cells (pg_abs p) !! i;
  pg_reclaimable_abs p : pg_ok p -> pg_reclaimable p = PAGE_CAPACITY - cells_space (a_cells (pg_abs p));
  pg_new_spec k : pg_ok (pg_new k) /\ pg_abs (pg_new k) = APage k 0 [];
  pg_set_extra_spec p v : pg_ok p -> u32 v ->
    pg_ok (pg_set_extra p v) /\ pg_abs (pg_set_extra p v) = APage (pg_kind p) v (a_cells (pg_abs p));
  pg_insert_spec p i d : pg_ok p -> bytes d -> i <= pg_slot_count p ->
    cells_space (a_cells (pg_abs p)) + length d + SLOT_LEN <= PAGE_CAPACITY ->
    exists q, pg_insert p i d = (q, true) /\ pg_ok q /\
      pg_abs q = APage (pg_kind p) (pg_extra p) (take i (a_cells (pg_abs p)) ++ d :: drop i (a_cells (pg_abs p)));
  pg_insert_full p i d : pg_ok p -> bytes d ->
    PAGE_CAPACITY < cells_space (a_cells (pg_abs p)) + length d + SLOT_LEN -> pg_insert p i d = (p, false);
  pg_push_spec p d : pg_ok p -> bytes d ->
    if decide (cells_space (a_cells (pg_abs p)) + length d + SLOT_LEN <= PAGE_CAPACITY) then
      exists q, pg_push p d = (q, Some (pg_slot_count p)) /\ pg_ok q /\
        pg_abs q = APage (pg_kind p) (pg_extra p) (a_cells (pg_abs p) ++ [d])
    else pg_push p d = (p, None);
  pg_replace_spec p i d : pg_ok p -> bytes d -> i < pg_slot_count p ->
    cells_space (<[i:=d]> (a_cells (pg_abs p))) <= PAGE_CAPACITY ->
    exists q, pg_replace p i d = (q, true) /\ pg_ok q /\
      pg_abs q = APage (pg_kind p) (pg_extra p) (<[i:=d]> (a_cells (pg_abs p)));
  pg_remove_spec p i : pg_ok p -> i < pg_slot_count p ->
    pg_ok (pg_remove p i) /\
    pg_abs (pg_remove p i) =
      APage (pg_kind p) (pg_extra p) (take i (a_cells (pg_abs p)) ++ drop (S i) (a_cells (pg_abs p)));
}.

Lemma apage_eq p k x cs : a_kind p = k -> a_extra p = x -> a_cells p = cs -> p = APage k x cs.
Proof. destruct p; cbn. by intros -> -> ->. Qed.

(** ** The byte-level page keeps the contract *)

Lemma page_extra_u32 p : bytes (body p) -> length (body p) = PAGE_BODY_LEN -> u32 (extra p).
Proof.
  intros Hb Hl. unfold extra. pose proof (le_val_bound _ (Forall_slice _ _ OFF_EXTRA (OFF_EXTRA + 4) Hb)) as H.
  rewrite length_slice in H by layout. exact H.
Qed.

#[export] Program Instance byte_page : PageImpl page := {|
  pg_ok := page_ok; pg_abs := page_abs; pg_new := page_new; pg_kind := kind; pg_extra := extra;
  pg_set_extra := set_extra; pg_slot_count := slot_count; pg_cell := cell; pg_reclaimable := reclaimable_space;
  pg_insert := insert_cell; pg_push := push_cell; pg_replace := replace_cell; pg_remove := remove_cell |}.
Next Obligation. intros p H. split; [by apply page_cells_fit|]. apply page_cells_bytes, H. Qed.
Next Obligation. intros p H. apply page_extra_u32; apply H. Qed.
Next Obligation. done. Qed.
Next Obligation. done. Qed.
Next Obligation. intros p. symmetry. apply length_page_cells. Qed.
Next Obligation. intros p i. apply cell_lookup. Qed.
Next Obligation. intros p H. by apply reclaimable_spec. Qed.
Next Obligation. intros k. destruct (page_new_spec k) as (? & ? & ? & ?). split; [done|]. by apply apage_eq. Qed.
Next Obligation. intros p v H Hv. destruct (set_extra_spec p v H Hv) as (? & ? & ? & ?). split; [done|]. by apply apage_eq. Qed.
Next Obligation.
  intros p i d H Hd Hi Hr. pose proof (insert_cell_spec p i d H Hd) as Hs.
  rewrite decide_True in Hs by (split; [done|]; unfold has_room, page_abs in *; cbn [a_cells] in *; lia).
  destruct Hs as (q & ? & ? & ? & ? & ?). exists q. split_and!; auto. by apply apage_eq.
Qed.
Next Obligation.
  intros p i d H Hd Hr. pose proof (insert_cell_spec p i d H Hd) as Hs.
  rewrite decide_False in Hs by (unfold has_room, page_abs in *; cbn [a_cells] in *; lia). done.
Qed.
Next Obligation.
  intros p d H Hd. pose proof (push_cell_spec p d H Hd) as Hs. unfold has_room, page_abs in *. cbn [a_cells] in *.
  case_decide; [|done]. destruct Hs as (q & ? & ? & ? & ? & ?). exists q. split_and!; auto. by apply apage_eq.
Qed.
Next Obligation.
  intros p i d H Hd Hi Hr. unfold page_abs in *. cbn [a_cells] in *.
  destruct (lookup_lt_is_Some_2 (page_cells p) i) as [old Hold]; [by rewrite length_page_cells|].
  pose proof (replace_cell_spec p i d old H Hd Hold) as Hs. rewrite decide_True in Hs by done.
  destruct Hs as (q & ? & ? & ? & ? & ?). exists q. split_and!; auto. by apply apage_eq.
Qed.
Next Obligation.
  intros p i H Hi. destruct (remove_cell_spec p i H Hi) as (? & ? & ? & ?). split; [done|]. by apply apage_eq.
Qed.

(** ** The reference page: the list itself *)

Definition list_insert (p : apage) (i : nat) (d : list Z) : apage * bool :=
  if decide (i <= length (a_cells p) /\ cells_space (a_cells p) + length d + SLOT_LEN <= PAGE_CAPACITY)
  then (APage (a_kind p) (a_extra p) (take i (a_cells p) ++ d :: drop i (a_cells p)), true)
  else (p, false).

Definition list_push (p : apage) (d : list Z) : apage * option nat :=
  if decide (cells_space (a_cells p) + length d + SLOT_LEN <= PAGE_CAPACITY)
  then (APage (a_kind p) (a_extra p) (a_cells p ++ [d]), Some (length (a_cells p)))
  else (p, None).

Definition list_replace (p : apage) (i : nat) (d : list Z) : apage * bool :=
  if decide (cells_space (<[i:=d]> (a_cells p)) <= PAGE_CAPACITY)
  then (APage (a_kind p) (a_extra p) (<[i:=d]> (a_cells p)), true)
  else (p, false).

Definition list_remove (p : apage) (i : nat) : apage :=
  APage (a_kind p) (a_extra p) (take i (a_cells p) ++ drop (S i) (a_cells p)).

Lemma cells_space_take_drop i (cs : list (list Z)) : cells_space (take i cs) + cells_space (drop i cs) = cells_space cs.
Proof. rewrite <- (take_drop i cs) at 3. by rewrite cells_space_app. Qed.

Lemma cells_space_drop_S i (cs : list (list Z)) : cells_space (take i cs ++ drop (S i) cs) <= cells_space cs.
Proof.
  destruct (cs !! i) as [c|] eqn:E.
  - rewrite <- (take_drop_middle cs i c E) at 3. rewrite !cells_space_app, cells_space_cons. lia.
  - apply lookup_ge_None in E. rewrite drop_ge, app_nil_r, take_ge by lia. lia.
Qed.

Program Definition list_page : PageImpl apage := {|
  pg_ok := fun p => cells_ok (a_cells p) /\ u32 (a_extra p); pg_abs := id;
  pg_new := fun k => APage k 0 []; pg_kind := a_kind; pg_extra := a_extra;
  pg_set_extra := fun p v => APage (a_kind p) v (a_cells p);
  pg_slot_count := fun p => length (a_cells p); pg_cell := fun p i => a_cells p !! i;
  pg_reclaimable := fun p => PAGE_CAPACITY - cells_space (a_cells p);
  pg_insert := list_insert; pg_push := list_push; pg_replace := list_replace; pg_remove := list_remove |}.
Next Obligation. intros p [H _]. exact H. Qed.
Next Obligation. intros p [_ H]. exact H. Qed.
Next Obligation. done. Qed.
Next Obligation. done. Qed.
Next Obligation. done. Qed.
Next Obligation. done. Qed.
Next Obligation. done. Qed.
Next Obligation. intros k. unfold cells_ok, id. cbn [a_cells a_extra]. rewrite cells_space_nil. split_and!; (lia || constructor). Qed.
Next Obligation. intros p v [H _] Hv. auto. Qed.
Next Obligation.
  intros p i d [[Hf Hb] Hx] Hd Hi Hr. cbn [id] in *. unfold list_insert. rewrite decide_True by done.
  eexists. split; [reflexivity|]. split; [|done]. split; [|done]. split; cbn [a_cells].
  - rewrite cells_space_app, cells_space_cons. pose proof (cells_space_take_drop i (a_cells p)). lia.
  - apply Forall_app_2; [by apply Forall_take|]. constructor; [done|]. by apply Forall_drop.
Qed.
Next Obligation. intros p i d _ _ Hr. unfold list_insert, id in *. rewrite decide_False by lia. done. Qed.
Next Obligation.
  intros p d [[Hf Hb] Hx] Hd. cbn [id] in *. unfold list_push. case_decide as Hc; [|done].
  eexists. split; [reflexivity|]. split; [|done]. split; [|done]. split; cbn [a_cells].
  - rewrite cells_space_app, cells_space_cons, cells_space_nil. lia.
  - apply Forall_app_2; [done|]. by repeat constructor.
Qed.
Next Obligation.
  intros p i d [[Hf Hb] Hx] Hd Hi Hr. cbn [id] in *. unfold list_replace. rewrite decide_True by done.
  eexists. split; [reflexivity|]. split; [|done]. split; [|done]. split; cbn [a_cells]; [done|].
  by apply Forall_insert.
Qed.
Next Obligation.
  intros p i [[Hf Hb] Hx] Hi. cbn [id] in *. split; [|done]. split; [|done]. split; cbn [list_remove a_cells].
  - pose proof (cells_space_drop_S i (a_cells p)). lia.
  - apply Forall_app_2; [by apply Forall_take|by apply Forall_drop].
Qed.

(** ** A page is its list of cells

    The same operations run on any page that keeps the contract and on the
    reference page give the same answers and the same contents. *)

Inductive page_op : Type :=
| OInsert (index : nat) (data : list Z)
| OPush (data : list Z)
| OReplace (index : nat) (data : list Z)
| ORemove (index : nat)
| OSetExtra (value : Z).

Section ops.
Context {P : Type} `{PageImpl P}.

Definition page_step (o : page_op) (p : P) : P * bool :=
  match o with
  | OInsert i d => pg_insert p i d
  | OPush d => let '(q, slot) := pg_push p d in (q, bool_decide (is_Some slot))
  | OReplace i d => pg_replace p i d
  | ORemove i => (pg_remove p i, true)
  | OSetExtra v => (pg_set_extra p v, true)
  end.

Fixpoint page_steps (os : list page_op) (p : P) : P * list bool :=
  match os with
  | [] => (p, [])
  | o :: os => let '(q, b) := page_step o p in let '(r, bs) := page_steps os q in (r, b :: bs)
  end.
End ops.

(** What the callers of [page.rs] guarantee of an operation on the contents [a]. *)
Definition op_legal (o : page_op) (a : apage) : Prop :=
  match o with
  | OInsert i d => i <= length (a_cells a) /\ bytes d
  | OPush d => bytes d
  | OReplace i d => i < length (a_cells a) /\ bytes d /\ cells_space (<[i := d]> (a_cells a)) <= PAGE_CAPACITY
  | ORemove i => i < length (a_cells a)
  | OSetExtra v => u32 v
  end.

Fixpoint ops_legal (os : list page_op) (a : apage) : Prop :=
  match os with
  | [] => True
  | o :: os => op_legal o a /\ ops_legal os (page_step (H := list_page) o a).1
  end.

Lemma page_step_refines {P} `{PageImpl P} (o : page_op) (p : P) :
  pg_ok p -> op_legal o (pg_abs p) ->
  pg_ok (page_step o p).1 /\ pg_abs (page_step o p).1 = (page_step (H := list_page) o (pg_abs p)).1 /\
  (page_step o p).2 = (page_step (H := list_page) o (pg_abs p)).2.
Proof.
  intros Hok Hl. destruct o as [i d|d|i d|i|v]; cbn [op_legal page_step pg_insert pg_push pg_replace pg_remove pg_set_extra list_page] in *.
  - destruct Hl as [Hi Hd]. rewrite <- pg_slot_count_abs in Hi. unfold list_insert. case_decide as Hc.
    + destruct (pg_insert_spec p i d Hok Hd Hi) as (q & -> & Hq & Ha); [lia|]. cbn [fst snd]. by rewrite Ha, pg_kind_abs, pg_extra_abs.
    + rewrite (pg_insert_full p i d Hok Hd); [done|]. rewrite pg_slot_count_abs in Hi. lia.
  - pose proof (pg_push_spec p d Hok Hl) as Hp. unfold list_push. case_decide.
    + destruct Hp as (q & -> & Hq & Ha). cbn [fst snd]. by rewrite Ha, pg_kind_abs, pg_extra_abs.
    + by rewrite Hp.
  - destruct Hl as (Hi & Hd & Hs). unfold list_replace. rewrite decide_True by done. rewrite <- pg_slot_count_abs in Hi.
    destruct (pg_replace_spec p i d Hok Hd Hi Hs) as (q & -> & Hq & Ha). cbn [fst snd]. by rewrite Ha, pg_kind_abs, pg_extra_abs.
  - rewrite <- pg_slot_count_abs in Hl. destruct (pg_remove_spec p i Hok Hl) as [Hq Ha]. cbn [fst snd]. by rewrite Ha, pg_kind_abs, pg_extra_abs.
  - destruct (pg_set_extra_spec p v Hok Hl) as [Hq Ha]. cbn [fst snd]. by rewrite Ha, pg_kind_abs.
Qed.

(** C31: The slotted page is its list of cells: any sequence of insertions, appends, replacements,
    removals and header updates on a fresh page (compactions included) gives the same answers, and
    leaves the same kind, auxiliary word and cells, as the same sequence on a plain list with the
    page's capacity. *)
Theorem page_refines_list (k : page_kind) (os : list page_op) :
  ops_legal os (APage k 0 []) ->
  let '(p, bs) := page_steps os (page_new k) in
  let '(a, bs') := page_steps (H := list_page) os (APage k 0 []) in
  page_ok p /\ page_abs p = a /\ bs = bs'.
Proof.
  destruct (pg_new_spec (PageImpl := byte_page) k) as [Hok Ha]. cbn [pg_new pg_ok pg_abs byte_page] in *.
  rewrite <- Ha. revert Hok. clear Ha. generalize (page_new k) as p.
  induction os as [|o os IH]; intros p Hok Hl; cbn [page_steps]; [done|]. destruct Hl as [Ho Hl].
  destruct (page_step_refines (H := byte_page) o p Hok Ho) as (Hok' & Ha' & Hb'). cbn [pg_abs byte_page pg_ok] in *.
  rewrite <- Ha' in Hl. specialize (IH _ Hok' Hl).
  rewrite (surjective_pairing (page_step (H := list_page) o (page_abs p))), <- Ha', <- Hb'.
  destruct (page_step o p) as [q b]. cbn [fst snd] in *. destruct (page_steps os q) as [r bs].
  destruct (page_steps (H := list_page) os (page_abs q)) as [a bs']. destruct IH as (? & ? & ->). done.
Qed.

Lemma page_refines_list_witness :
  let os := [OPush [1; 2; 3]%Z; OInsert 0 [9]%Z; OReplace 1 [4; 5]%Z; ORemove 0; OSetExtra 7] in
  let '(p, bs) := page_steps os (page_new Leaf) in
  let '(a, bs') := page_steps (H := list_page) os (APage Leaf 0 []) in
  page_ok p /\ page_abs p = a /\ bs = bs'.
Proof.
  apply (page_refines_list Leaf [OPush [1; 2; 3]%Z; OInsert 0 [9]%Z; OReplace 1 [4; 5]%Z; ORemove 0; OSetExtra 7]).
  unfold ops_legal, op_legal. split_and!; try solve_bytes; try (vm_compute; lia); try (vm_compute; done).
  all: apply Nat.leb_le; vm_compute; reflexivity.
Defined.
