(* ===== verification/BTree.v ===== *)
(** * The copy-on-write B+tree ([src/src/storage/btree.rs])

    Every operation of the tree, over any page that keeps the contract of
    [PageSpec.v] and a page store [id -> page] (what [src/src/storage/pager.rs]
    provides; [Pager.v] shows that the real pager, a write-back cache over an
    encrypted file, behaves as this store).  [M] threads the tree's state and
    its errors the way [Result] and [&mut TreeState] do; an operation that
    fails leaves the changes it had already made.  Tree walks carry the fuel
    [MAX_TREE_DEPTH] the code bounds them with. *)

From Stdlib Require Import ZArith Lia.
From stdpp Require Import base tactics list option gmap.
From S2P Require Import Prelude Binary Page PageSpec.

(** ** Constants *)

Definition MAX_KEY_LEN : nat := 1024.
Definition MAX_VALUE_LEN : nat := Z.to_nat 4096.
Definition MAX_FREE_ENTRIES : nat := 1024.
Definition META_A : Z := 0.
Definition META_B : Z := 1.
Definition FIRST_DATA_PAGE : Z := 2.
Definition MAX_TREE_DEPTH : nat := 64.

(** ["FQBT"]. *)
Definition META_MAGIC : list Z := [70; 81; 66; 84]%Z.

Inductive seek_mode : Set := Ge_ | Gt_ | Le_ | Lt_.

#[export] Instance seek_mode_eq_dec : EqDecision seek_mode.
Proof. solve_decision. Defined.

(** ** Cell encoding *)

Definition leaf_cell (key value : list Z) : list Z :=
  le_bytes 2 (Z.of_nat (length key)) ++ key ++ value.

Definition u16_at (c : list Z) : nat := Z.to_nat (le_val (slice c 0 2)).

Definition leaf_key (c : list Z) : list Z :=
  if length c <? 2 then []
  else let len := u16_at c in
       if length c <? 2 + len then [] else slice c 2 (2 + len).

Definition leaf_value (c : list Z) : list Z :=
  if length c <? 2 then []
  else let len := u16_at c in
       if length c <? 2 + len then [] else drop (2 + len) c.

Definition branch_cell (key : list Z) (child : Z) : list Z :=
  le_bytes 2 (Z.of_nat (length key)) ++ le_bytes 4 child ++ key.

Definition branch_key (c : list Z) : list Z :=
  if length c <? 6 then []
  else let len := u16_at c in
       if length c <? 6 + len then [] else slice c 6 (6 + len).

Definition branch_child (c : list Z) : Z :=
  if length c <? 6 then 0%Z else le_val (slice c 2 6).

(** ** Splitting an overfull cell list *)

Definition fits (cells : list (list Z)) : bool := cells_space cells <=? MAX_CELL_LEN + SLOT_LEN.

(** The index at which the running size first reaches half of the total. *)
Fixpoint midpoint_from (cells : list (list Z)) (index running total : nat) : nat :=
  match cells with
  | [] => 1
  | c :: cells =>
      let running := running + (length c + SLOT_LEN) in
      if total <=? running * 2 then Nat.max index 1
      else midpoint_from cells (S index) running total
  end.

Definition split_candidates (midpoint n : nat) : list nat :=
  concat (map (fun offset => [midpoint + offset; midpoint - offset]) (seq 0 n)).

Definition good_split (cells : list (list Z)) (candidate : nat) : bool :=
  negb ((candidate =? 0) || (length cells <=? candidate))
  && fits (take candidate cells) && fits (drop candidate cells).

Definition split_point (cells : list (list Z)) : option nat :=
  if length cells <? 2 then None
  else
    let midpoint := midpoint_from cells 0 0 (cells_space cells) in
    List.find (good_split cells) (split_candidates midpoint (length cells)).

(** The first key past every key that starts with [prefix]. *)
Fixpoint bound_rev (rprefix : list Z) : option (list Z) :=
  match rprefix with
  | [] => None
  | last :: rest => if (last =? 255)%Z then bound_rev rest else Some (reverse ((last + 1)%Z :: rest))
  end.

Definition prefix_upper_bound (prefix : list Z) : option (list Z) := bound_rev (reverse prefix).

(** ** Meta pages *)

Record free_entry := FreeEntry { fe_generation : Z; fe_page : Z }.

Record meta_state := MetaState {
  ms_generation : Z; ms_root : Z; ms_entries : Z; ms_high_water : Z; ms_free : list free_entry }.

Definition free_encode (e : free_entry) : list Z := le_bytes 8 (fe_generation e) ++ le_bytes 4 (fe_page e).

Definition meta_encode (m : meta_state) : list Z :=
  let count := Nat.min (length (ms_free m)) MAX_FREE_ENTRIES in
  META_MAGIC ++ le_bytes 8 (ms_generation m) ++ le_bytes 4 (ms_root m) ++ le_bytes 8 (ms_entries m)
  ++ le_bytes 4 (ms_high_water m) ++ le_bytes 2 (Z.of_nat count)
  ++ concat (map free_encode (take count (ms_free m))).

Definition META_FIXED : nat := 30.

Definition meta_decode (b : list Z) : option meta_state :=
  if (length b <? META_FIXED) || negb (bool_decide (slice b 0 4 = META_MAGIC)) then None
  else
    let count := Z.to_nat (le_val (slice b 28 30)) in
    if length b <? META_FIXED + count * 12 then None
    else Some {|
      ms_generation := le_val (slice b 4 12);
      ms_root := le_val (slice b 12 16);
      ms_entries := le_val (slice b 16 24);
      ms_high_water := le_val (slice b 24 28);
      ms_free := map (fun index =>
        let at_ := META_FIXED + index * 12 in
        FreeEntry (le_val (slice b at_ (at_ + 8))) (le_val (slice b (at_ + 8) (at_ + 12))))
        (seq 0 count) |}.

(** ** The tree *)

(** [Vec::swap_remove]: the last element takes the removed one's place. *)
Definition swap_remove {A} (l : list A) (i : nat) : list A :=
  match last l with
  | None => l
  | Some x => take (length l - 1) (<[i:=x]> l)
  end.

Section btree.
Context {P : Type} `{PageImpl P}.

(** [TreeState] together with the pager: its page count, what a read of a
    page returns ([store]) and what is on stable storage ([disk]). *)
Record tree_state := TreeState {
  generation : Z;
  root : Z;
  entries : Z;
  free : list free_entry;
  dirty : gset Z;
  readers : gmap Z nat;
  store : gmap Z P;
  page_count : Z;
  disk : gmap Z P;
}.

Definition set_root (t : tree_state) (r : Z) : tree_state :=
  TreeState (generation t) r (entries t) (free t) (dirty t) (readers t) (store t) (page_count t) (disk t).
Definition set_entries (t : tree_state) (n : Z) : tree_state :=
  TreeState (generation t) (root t) n (free t) (dirty t) (readers t) (store t) (page_count t) (disk t).
Definition set_free (t : tree_state) (f : list free_entry) : tree_state :=
  TreeState (generation t) (root t) (entries t) f (dirty t) (readers t) (store t) (page_count t) (disk t).
Definition set_dirty (t : tree_state) (d : gset Z) : tree_state :=
  TreeState (generation t) (root t) (entries t) (free t) d (readers t) (store t) (page_count t) (disk t).
Definition set_readers (t : tree_state) (r : gmap Z nat) : tree_state :=
  TreeState (generation t) (root t) (entries t) (free t) (dirty t) r (store t) (page_count t) (disk t).
Definition set_generation (t : tree_state) (g : Z) : tree_state :=
  TreeState g (root t) (entries t) (free t) (dirty t) (readers t) (store t) (page_count t) (disk t).
Definition set_store (t : tree_state) (s : gmap Z P) (n : Z) : tree_state :=
  TreeState (generation t) (root t) (entries t) (free t) (dirty t) (readers t) s n (disk t).

Definition set_disk (t : tree_state) (d : gmap Z P) : tree_state :=
  TreeState (generation t) (root t) (entries t) (free t) (dirty t) (readers t) (store t) (page_count t) d.

(** *** The monad: state and error *)

Definition M (A : Type) : Type := tree_state -> result error_kind A * tree_state.

#[global] Instance M_ret : MRet M := fun A a t => (Ok a, t).
#[global] Instance M_bind : MBind M := fun A B f c t =>
  match c t with
  | (Ok a, t') => f a t'
  | (Err e, t') => (Err e, t')
  end.

Definition raise {A} (e : error_kind) : M A := fun t => (Err e, t).
Definition get_state : M tree_state := fun t => (Ok t, t).
Definition modify (f : tree_state -> tree_state) : M unit := fun t => (Ok tt, f t).

(** *** The pager, as a page store

    A page past the count is refused, whatever the file holds there.  The count is a [u32], and wraps as
    the arithmetic of a release build does. *)

Definition pager_read (id : Z) : M P := fun t =>
  if (page_count t <=? id)%Z then (Err InvalidInput, t)
  else match store t !! id with
       | Some p => (Ok p, t)
       | None => (Err UnexpectedEof, t)
       end.

Definition pager_write (id : Z) (p : P) : M unit := fun t =>
  (Ok tt, set_store t (<[id:=p]> (store t))
            (if (page_count t <=? id)%Z then ((id + 1) mod 2 ^ 32)%Z else page_count t)).

Definition pager_allocate : M Z := fun t =>
  (Ok (page_count t), set_store t (store t) ((page_count t + 1) mod 2 ^ 32)).

(** [Pager::flush]: everything written so far is on stable storage. *)
Definition pager_flush : M unit := modify (fun t => set_disk t (store t)).

(** *** Page allocation *)

Definition building (t : tree_state) : Z := (generation t + 1)%Z.

(** [readers.keys().next()]: the least pinned generation. *)
Definition oldest_reader (t : tree_state) : option Z :=
  match elements (dom (readers t)) with
  | [] => None
  | g :: gs => Some (fold_left Z.min gs g)
  end.

Definition reusable (t : tree_state) (e : free_entry) : Prop :=
  (fe_generation e + 2 <= building t)%Z /\
  match oldest_reader t with Some pinned => (fe_generation e <= pinned)%Z | None => True end.

#[global] Instance reusable_dec t e : Decision (reusable t e).
Proof. unfold reusable. destruct (oldest_reader t); apply _. Defined.

Definition allocate : M Z := fun t =>
  match list_find (reusable t) (free t) with
  | Some (index, e) => (Ok (fe_page e), set_free t (swap_remove (free t) index))
  | None => pager_allocate t
  end.

Definition release (page : Z) : M unit :=
  modify (fun t =>
    if MAX_FREE_ENTRIES <=? length (free t) then t
    else set_free t (free t ++ [FreeEntry (building t) page])).

Definition mark_dirty (id : Z) : M unit := modify (fun t => set_dirty t ({[id]} ∪ dirty t)).

Definition cow (page_id : Z) : M (Z * P) :=
  page ← pager_read page_id;
  t ← get_state;
  if decide (page_id ∈ dirty t) then mret (page_id, page)
  else
    fresh ← allocate;
    _ ← mark_dirty fresh;
    _ ← release page_id;
    mret (fresh, page).

(** *** Pages as nodes *)

Definition page_cells_of (p : P) : list (list Z) :=
  omap (pg_cell p) (seq 0 (pg_slot_count p)).

Definition branch_child_at (p : P) (slot : nat) : Z :=
  match slot with
  | O => pg_extra p
  | S i => match pg_cell p i with Some c => branch_child c | None => 0%Z end
  end.

(** The scan of [branch_child_for]: the first cell whose key is past [key]. *)
Fixpoint branch_scan (p : P) (key : list Z) (n index slot : nat) : nat :=
  match n with
  | O => slot
  | S n =>
      match pg_cell p index with
      | None => slot
      | Some c =>
          match lex_cmp (branch_key c) key with
          | Gt => slot
          | _ => branch_scan p key n (S index) (S index)
          end
      end
  end.

Definition branch_child_for (p : P) (key : list Z) : nat * Z :=
  let slot := branch_scan p key (pg_slot_count p) 0 0 in (slot, branch_child_at p slot).

Definition set_branch_child (p : P) (slot : nat) (child : Z) : P :=
  match slot with
  | O => pg_set_extra p child
  | S i =>
      match pg_cell p i with
      | None => p
      | Some c => (pg_replace p i (branch_cell (branch_key c) child)).1
      end
  end.

(** Binary search of a leaf; the interval halves, so its length is fuel enough. *)
Fixpoint search_loop (fuel : nat) (p : P) (key : list Z) (low high : nat) : nat * bool :=
  match fuel with
  | O => (low, false)
  | S fuel =>
      if low <? high then
        let mid := (low + high) / 2 in
        match pg_cell p mid with
        | None => (low, false)
        | Some c =>
            match lex_cmp (leaf_key c) key with
            | Lt => search_loop fuel p key (S mid) high
            | Gt => search_loop fuel p key low mid
            | Eq => (mid, true)
            end
        end
      else (low, false)
  end.

Definition leaf_search (p : P) (key : list Z) : nat * bool :=
  search_loop (S (pg_slot_count p)) p key 0 (pg_slot_count p).

Fixpoint push_all (p : P) (cells : list (list Z)) : result error_kind P :=
  match cells with
  | [] => Ok p
  | c :: cells =>
      match pg_push p c with
      | (_, None) => Err OtherError
      | (p, Some _) => push_all p cells
      end
  end.

Definition build_page (k : page_kind) (ex : Z) (cells : list (list Z)) : result error_kind P :=
  push_all (pg_set_extra (pg_new k) ex) cells.

Definition lift {A} (r : result error_kind A) : M A := fun t => (r, t).

(** *** Reading *)

Fixpoint descend (fuel : nat) (page_id : Z) (key : list Z) : M Z :=
  match fuel with
  | O => raise InvalidData
  | S fuel =>
      page ← pager_read page_id;
      match pg_kind page with
      | Leaf => mret page_id
      | Branch => descend fuel (branch_child_for page key).2 key
      | _ => raise InvalidData
      end
  end.

Definition get_at (root_ : Z) (key : list Z) : M (option (list Z)) :=
  leaf ← descend MAX_TREE_DEPTH root_ key;
  page ← pager_read leaf;
  match leaf_search page key with
  | (index, true) => mret (leaf_value <$> pg_cell page index)
  | (_, false) => mret None
  end.

(** *** Snapshots *)

Definition snapshot : M (Z * Z) :=
  t ← get_state;
  let g := generation t in
  _ ← modify (fun t => set_readers t (<[g := S (default 0 (readers t !! g))]> (readers t)));
  mret (g, root t).

Definition release_snapshot (g : Z) : M unit :=
  modify (fun t =>
    match readers t !! g with
    | None => t
    | Some n =>
        if n - 1 =? 0 then set_readers t (delete g (readers t))
        else set_readers t (<[g := n - 1]> (readers t))
    end).

(** The snapshot a read takes, around the read; it is dropped on every path. *)
Definition with_snapshot {A} (read : Z -> M A) : M A := fun t =>
  match snapshot t with
  | (Err e, t) => (Err e, t)
  | (Ok (g, r), t) => let '(v, t) := read r t in (v, (release_snapshot g t).2)
  end.

Definition get (key : list Z) : M (option (list Z)) := with_snapshot (fun r => get_at r key).

(** *** Seeking *)

Definition entry_of (c : list Z) : list Z * list Z := (leaf_key c, leaf_value c).

(** The descent of [seek_at]; the path grows at its head. *)
Fixpoint seek_descend (fuel : nat) (page_id : Z) (key : list Z) (path : list (Z * nat)) :
    M (P * list (Z * nat)) :=
  match fuel with
  | O => raise InvalidData
  | S fuel =>
      page ← pager_read page_id;
      match pg_kind page with
      | Leaf => mret (page, path)
      | Branch =>
          let '(slot, child) := branch_child_for page key in
          seek_descend fuel child key ((page_id, slot) :: path)
      | _ => raise InvalidData
      end
  end.

Definition forward (mode : seek_mode) : bool :=
  match mode with Ge_ | Gt_ => true | _ => false end.

(** The slot of the answer when it is in the leaf itself. *)
Definition seek_candidate (leaf : P) (mode : seek_mode) (index : nat) (found : bool) : option nat :=
  if forward mode then
    let start := if found && bool_decide (mode = Gt_) then S index else index in
    if start <? pg_slot_count leaf then Some start else None
  else if found && bool_decide (mode = Le_) then Some index
  else if 0 <? index then Some (index - 1) else None.

(** The first answer of a list of subtrees. *)
Fixpoint first_entry {A} (walk : Z -> M (option A)) (children : list Z) : M (option A) :=
  match children with
  | [] => mret None
  | c :: children =>
      e ← walk c;
      match e with
      | Some e => mret (Some e)
      | None => first_entry walk children
      end
  end.

Fixpoint edge_entry_at (fuel : nat) (page_id : Z) (first : bool) : M (option (list Z * list Z)) :=
  match fuel with
  | O => raise InvalidData
  | S fuel =>
      page ← pager_read page_id;
      match pg_kind page with
      | Leaf =>
          let count := pg_slot_count page in
          if count =? 0 then mret None
          else mret (entry_of <$> pg_cell page (if first then 0 else count - 1))
      | Branch =>
          let children := S (pg_slot_count page) in
          first_entry (fun child => edge_entry_at fuel child first)
            (map (fun step => branch_child_at page (if first then step else children - 1 - step))
                 (seq 0 children))
      | _ => raise InvalidData
      end
  end.

Definition edge_entry (page_id : Z) (first : bool) : M (option (list Z * list Z)) :=
  edge_entry_at MAX_TREE_DEPTH page_id first.

(** Back up the path, into the neighbouring subtree in the direction of travel. *)
Fixpoint seek_back (fwd : bool) (path : list (Z * nat)) : M (option (list Z * list Z)) :=
  match path with
  | [] => mret None
  | (branch_id, slot) :: path =>
      branch ← pager_read branch_id;
      let neighbour :=
        if fwd then
          if slot <? pg_slot_count branch then Some (branch_child_at branch (slot + 1)) else None
        else
          if 0 <? slot then Some (branch_child_at branch (slot - 1)) else None in
      match neighbour with
      | None => seek_back fwd path
      | Some child =>
          e ← edge_entry child fwd;
          match e with
          | Some e => mret (Some e)
          | None => seek_back fwd path
          end
      end
  end.

Definition seek_at (root_ : Z) (key : list Z) (mode : seek_mode) : M (option (list Z * list Z)) :=
  lp ← seek_descend MAX_TREE_DEPTH root_ key [];
  let '(leaf, path) := lp in
  let '(index, found) := leaf_search leaf key in
  match seek_candidate leaf mode index found with
  | Some slot =>
      match pg_cell leaf slot with
      | Some c => mret (Some (entry_of c))
      | None => seek_back (forward mode) path
      end
  | None => seek_back (forward mode) path
  end.

Definition seek (key : list Z) (mode : seek_mode) : M (option (list Z * list Z)) :=
  with_snapshot (fun r => seek_at r key mode).

(** *** Range scans: the visitor threads a state of its own *)

Definition starts_with (key prefix : list Z) : bool := bool_decide (take (length prefix) key = prefix).

Definition range_next (root_ : Z) (prefix : list Z) (reverse : bool) (cursor : option (list Z)) :
    M (option (list Z * list Z)) :=
  if reverse then
    match cursor with
    | Some key => seek_at root_ key Lt_
    | None =>
        match prefix_upper_bound prefix with
        | Some bound => seek_at root_ bound Lt_
        | None => edge_entry root_ false
        end
    end
  else
    match cursor with
    | Some key => seek_at root_ key Gt_
    | None => seek_at root_ prefix Ge_
    end.

(** One round per entry visited; the loop of the code is unbounded and
    [fuel] stands for it: running out is a distinct outcome, [None]. *)
Fixpoint for_each_range_at {S_ : Type} (visit : S_ -> list Z -> list Z -> result error_kind bool * S_)
    (fuel : nat) (root_ : Z) (prefix : list Z) (cursor : option (list Z)) (reverse : bool) (s : S_) :
    M (option (result error_kind unit * S_)) :=
  match fuel with
  | O => mret None
  | S fuel =>
      entry ← range_next root_ prefix reverse cursor;
      match entry with
      | None => mret (Some (Ok tt, s))
      | Some (key, value) =>
          if starts_with key prefix then
            match visit s key value with
            | (Err e, s) => mret (Some (Err e, s))
            | (Ok false, s) => mret (Some (Ok tt, s))
            | (Ok true, s) => for_each_range_at visit fuel root_ prefix (Some key) reverse s
            end
          else mret (Some (Ok tt, s))
      end
  end.

(** *** Writing *)

Inductive insert_outcome : Set :=
| Kept (page : Z)
| Split (left : Z) (separator : list Z) (right : Z).

(** The split of a leaf: its cells, the new one among them, over two pages. *)
Definition split_leaf (id : Z) (cells : list (list Z)) : M insert_outcome :=
  match split_point cells with
  | None => raise OtherError
  | Some point =>
      let separator := leaf_key (default [] (cells !! point)) in
      left_ ← lift (build_page Leaf 0 (take point cells));
      right_ ← lift (build_page Leaf 0 (drop point cells));
      right_id ← allocate;
      _ ← mark_dirty right_id;
      _ ← pager_write id left_;
      _ ← pager_write right_id right_;
      mret (Split id separator right_id)
  end.

(** The split of a branch: the separator at the split point moves up, and its
    child becomes the right half's leftmost one. *)
Definition split_branch (id leftmost : Z) (cells : list (list Z)) : M insert_outcome :=
  match split_point cells with
  | None => raise OtherError
  | Some point =>
      let at_point := default [] (cells !! point) in
      let promoted := branch_key at_point in
      let right_leftmost := branch_child at_point in
      left_page ← lift (build_page Branch leftmost (take point cells));
      right_page ← lift (build_page Branch right_leftmost (drop (S point) cells));
      right_id ← allocate;
      _ ← mark_dirty right_id;
      _ ← pager_write id left_page;
      _ ← pager_write right_id right_page;
      mret (Split id promoted right_id)
  end.

Definition insert_into_leaf (page_id : Z) (key value : list Z) : M insert_outcome :=
  ip ← cow page_id;
  let '(id, page) := ip in
  let cell_ := leaf_cell key value in
  let '(index, found) := leaf_search page key in
  let old_len := match pg_cell page index with Some c => length c | None => 0 end in
  if found && (length cell_ <=? pg_reclaimable page + old_len) then
    _ ← pager_write id (pg_replace page index cell_).1;
    mret (Kept id)
  else if negb found && (length cell_ + SLOT_LEN <=? pg_reclaimable page) then
    _ ← pager_write id (pg_insert page index cell_).1;
    mret (Kept id)
  else
    let cells := page_cells_of page in
    let cells := if found then <[index := cell_]> cells
                 else take index cells ++ cell_ :: drop index cells in
    split_leaf id cells.

(** The part of [insert_into_branch] after the child has been inserted into. *)
Definition insert_into_branch (page_id : Z) (slot : nat) (child : Z) (outcome : insert_outcome) :
    M insert_outcome :=
  match outcome with
  | Kept new_child =>
      if (new_child =? child)%Z then mret (Kept page_id)
      else
        ip ← cow page_id;
        let '(id, page) := ip in
        _ ← pager_write id (set_branch_child page slot new_child);
        mret (Kept id)
  | Split left_id separator right_id =>
      ip ← cow page_id;
      let '(id, page) := ip in
      let page := set_branch_child page slot left_id in
      let cell_ := branch_cell separator right_id in
      if length cell_ + SLOT_LEN <=? pg_reclaimable page then
        _ ← pager_write id (pg_insert page slot cell_).1;
        mret (Kept id)
      else
        let cells := page_cells_of page in
        let cells := take slot cells ++ cell_ :: drop slot cells in
        split_branch id (pg_extra page) cells
  end.

Fixpoint insert_into (fuel : nat) (page_id : Z) (key value : list Z) : M insert_outcome :=
  match fuel with
  | O => raise InvalidData
  | S fuel =>
      page ← pager_read page_id;
      match pg_kind page with
      | Leaf => insert_into_leaf page_id key value
      | Branch =>
          let '(slot, child) := branch_child_for page key in
          outcome ← insert_into fuel child key value;
          insert_into_branch page_id slot child outcome
      | _ => raise InvalidData
      end
  end.

Definition put_root (outcome : insert_outcome) : M unit :=
  match outcome with
  | Kept page => modify (fun t => set_root t page)
  | Split left_id separator right_id =>
      match pg_insert (pg_set_extra (pg_new Branch) left_id) 0 (branch_cell separator right_id) with
      | (_, false) => raise OtherError
      | (branch, true) =>
          id ← allocate;
          _ ← mark_dirty id;
          _ ← pager_write id branch;
          modify (fun t => set_root t id)
      end
  end.

Definition put (key value : list Z) : M unit :=
  if (length key =? 0) || (MAX_KEY_LEN <? length key) then raise InvalidInput
  else if MAX_VALUE_LEN <? length value then raise InvalidInput
  else
    old ← get key;
    t ← get_state;
    outcome ← insert_into MAX_TREE_DEPTH (root t) key value;
    _ ← put_root outcome;
    match old with
    | Some _ => mret tt
    | None => modify (fun t => set_entries t (entries t + 1))
    end.

Record removal := Removal { rm_page : Z; rm_removed : bool; rm_empty : bool }.

(** The part of [remove_from] after a child has been removed from. *)
Definition remove_from_branch (page_id : Z) (slot : nat) (outcome : removal) : M removal :=
  if negb (rm_removed outcome) then mret (Removal page_id false false)
  else
    ip ← cow page_id;
    let '(id, page) := ip in
    if rm_empty outcome then
      _ ← release (rm_page outcome);
      match slot with
      | O =>
          if pg_slot_count page =? 0 then
            _ ← pager_write id page;
            mret (Removal id true true)
          else
            let promoted := branch_child_at page 1 in
            _ ← pager_write id (pg_remove (pg_set_extra page promoted) 0);
            mret (Removal id true false)
      | S i =>
          _ ← pager_write id (pg_remove page i);
          mret (Removal id true false)
      end
    else
      _ ← pager_write id (set_branch_child page slot (rm_page outcome));
      mret (Removal id true false).

Fixpoint remove_from (fuel : nat) (page_id : Z) (key : list Z) : M removal :=
  match fuel with
  | O => raise InvalidData
  | S fuel =>
      page ← pager_read page_id;
      match pg_kind page with
      | Leaf =>
          match leaf_search page key with
          | (_, false) => mret (Removal page_id false false)
          | (index, true) =>
              ip ← cow page_id;
              let '(id, page) := ip in
              let page := pg_remove page index in
              let empty := pg_slot_count page =? 0 in
              _ ← pager_write id page;
              mret (Removal id true empty)
          end
      | Branch =>
          let '(slot, child) := branch_child_for page key in
          outcome ← remove_from fuel child key;
          remove_from_branch page_id slot outcome
      | _ => raise InvalidData
      end
  end.

(** A root branch without separators gives way to its only child. *)
Fixpoint collapse_root (fuel : nat) : M unit :=
  match fuel with
  | O => mret tt
  | S fuel =>
      t ← get_state;
      let root_id := root t in
      page ← pager_read root_id;
      match pg_kind page with
      | Branch =>
          if 0 <? pg_slot_count page then mret tt
          else
            let child := pg_extra page in
            _ ← release root_id;
            _ ← modify (fun t => set_root t child);
            collapse_root fuel
      | _ => mret tt
      end
  end.

Definition remove (key : list Z) : M bool :=
  t ← get_state;
  outcome ← remove_from MAX_TREE_DEPTH (root t) key;
  if negb (rm_removed outcome) then mret false
  else
    _ ← modify (fun t => set_root t (rm_page outcome));
    _ ← modify (fun t => set_entries t (Z.max 0 (entries t - 1)));
    _ ← collapse_root MAX_TREE_DEPTH;
    mret true.

(** *** Commit and open *)

Definition meta_of (t : tree_state) : meta_state :=
  MetaState (building t) (root t) (entries t) (page_count t) (free t).

Definition meta_slot (g : Z) : Z := if (g mod 2 =? 0)%Z then META_A else META_B.

(** Step 1 of [commit]: the data pages are durable and the meta page is built. *)
Definition commit_prepare : M (meta_state * P) :=
  _ ← pager_flush;
  t ← get_state;
  let meta := meta_of t in
  _ ← modify (fun t => set_free t []);
  match pg_push (pg_new Meta) (meta_encode meta) with
  | (_, None) => raise OtherError
  | (page, Some _) => mret (meta, page)
  end.

(** Step 2: the meta page, durable; the generation is then current. *)
Definition commit_publish (mp : meta_state * P) : M unit :=
  let '(meta, page) := mp in
  _ ← pager_write (meta_slot (ms_generation meta)) page;
  _ ← pager_flush;
  modify (fun t => set_dirty (set_free (set_generation t (ms_generation meta)) (ms_free meta)) ∅).

Definition commit : M unit :=
  mp ← commit_prepare; commit_publish mp.

Definition read_meta (d : gmap Z P) (slot : Z) : option meta_state :=
  page ← d !! slot;
  match pg_kind page with
  | Meta => c ← pg_cell page 0; meta_decode c
  | _ => None
  end.

Definition open_meta (d : gmap Z P) : option meta_state :=
  match read_meta d META_A, read_meta d META_B with
  | Some a, Some b => Some (if (ms_generation b <=? ms_generation a)%Z then a else b)
  | Some a, None => Some a
  | None, Some b => Some b
  | None, None => None
  end.

Definition initialize (d : gmap Z P) : result error_kind tree_state :=
  let t := TreeState 0 FIRST_DATA_PAGE 0 [] ∅ ∅ d 0 d in
  match (_ ← pager_allocate; _ ← pager_allocate; _ ← pager_allocate;
         _ ← pager_write FIRST_DATA_PAGE (pg_new Leaf); commit) t with
  | (Ok _, t) => Ok t
  | (Err e, _) => Err e
  end.

(** [d] is the file and [n] the pages in it. *)
Definition open_tree (d : gmap Z P) (n : Z) : result error_kind tree_state :=
  if (n <? FIRST_DATA_PAGE)%Z then initialize d
  else
    match open_meta d with
    | None => Err InvalidData
    | Some m =>
        Ok (TreeState (ms_generation m) (ms_root m) (ms_entries m) (ms_free m) ∅ ∅ d (ms_high_water m) d)
    end.
End btree.

#[global] Arguments tree_state P : clear implicits.
#[global] Arguments M P A : clear implicits.
