(* ===== verification/BTreeCells.v ===== *)
(** * The pure parts of the B+tree: cells, separators, splits and sorted contents

    Lemmas about the definitions of [BTree.v] that do not touch a page store:
    the cell encodings read back what was written, a split point exists for
    every overfull list of legal cells, the meta page round-trips, the upper
    bound of a prefix delimits it.  [kv_insert], [kv_remove], [kv_get] and
    [kv_seek] on sorted association lists are the abstract specification the
    tree refines in [BTreeRep.v] and the files after it. *)

From Stdlib Require Import ZArith Lia Sorted.
From stdpp Require Import base tactics list option gmap.
From S2P Require Import Prelude Binary Page PageSpec BTree.

Local Open Scope key_scope.

(** ** Sorted association lists *)

Abbreviation kv := (list Z * list Z)%type.

Definition kv_lt (a b : kv) : Prop := a.1 ≺ b.1.
Abbreviation kv_sorted := (StronglySorted kv_lt).

Fixpoint kv_insert (k v : list Z) (l : list kv) : list kv :=
  match l with
  | [] => [(k, v)]
  | (k', v') :: l' =>
      match lex_cmp k' k with
      | Lt => (k', v') :: kv_insert k v l'
      | Eq => (k, v) :: l'
      | Gt => (k, v) :: l
      end
  end.

Definition kv_remove (k : list Z) (l : list kv) : list kv := filter (fun e => e.1 <> k) l.

Fixpoint kv_get (k : list Z) (l : list kv) : option (list Z) :=
  match l with
  | [] => None
  | (k', v') :: l => if decide (k' = k) then Some v' else kv_get k l
  end.

(** The entry nearest [k] in the direction of [mode]. *)
Definition kv_seek (mode : seek_mode) (k : list Z) (l : list kv) : option kv :=
  match mode with
  | Ge_ => head (filter (fun e => ~ e.1 ≺ k) l)
  | Gt_ => head (filter (fun e => k ≺ e.1) l)
  | Le_ => last (filter (fun e => ~ k ≺ e.1) l)
  | Lt_ => last (filter (fun e => e.1 ≺ k) l)
  end.

Definition keys_below (k : list Z) : list kv -> Prop := Forall (fun e => e.1 ≺ k).
Definition keys_above (k : list Z) : list kv -> Prop := Forall (fun e => k ≺ e.1).

Section kv.
Implicit Types (l : list kv) (k v : list Z).

Lemma lex_cmp_lt a b : a ≺ b -> lex_cmp a b = Lt.
Proof. done. Qed.

Lemma lex_cmp_gt a b : b ≺ a -> lex_cmp a b = Gt.
Proof. apply lex_gt_lt. Qed.

Lemma lex_lt_ne a b : a ≺ b -> a <> b.
Proof. intros Hl ->. by apply lex_lt_irrefl in Hl. Qed.

Lemma lex_lt_asym a b : a ≺ b -> ~ b ≺ a.
Proof. intros H1 H2. apply (lex_lt_irrefl a). by etransitivity. Qed.

Lemma sorted_app_inv l1 l2 :
  kv_sorted (l1 ++ l2) <-> kv_sorted l1 /\ kv_sorted l2 /\ forall a b, a ∈ l1 -> b ∈ l2 -> kv_lt a b.
Proof.
  induction l1 as [|x l1 IH]; cbn.
  - split; [|by intros (? & ? & ?)]. intros. split_and!; [constructor|done|]. intros a b Ha. by apply elem_of_nil in Ha.
  - split.
    + inversion 1 as [|? ? Hs Hf]; subst. apply IH in Hs as (H1 & H2 & H3). apply Forall_app in Hf as [Hf1 Hf2].
      split_and!; [by constructor|done|]. intros a b [->|Ha]%elem_of_cons Hb; [|by apply H3].
      rewrite Forall_forall in Hf2. by apply Hf2.
    + intros (Hs & H2 & H3). inversion Hs; subst. constructor.
      * apply IH. split_and!; [done|done|]. intros. apply H3; [by apply elem_of_cons; right|done].
      * apply Forall_app. split; [done|]. apply Forall_forall. intros b Hb. apply H3; [by apply elem_of_cons; left|done].
Qed.

Lemma sorted_take n l : kv_sorted l -> kv_sorted (take n l).
Proof. intros Hs. rewrite <- (take_drop n l) in Hs. by apply sorted_app_inv in Hs as (? & _). Qed.

Lemma sorted_drop n l : kv_sorted l -> kv_sorted (drop n l).
Proof. intros Hs. rewrite <- (take_drop n l) in Hs. by apply sorted_app_inv in Hs as (_ & ? & _). Qed.

Lemma sorted_lookup_lt l i j a b : kv_sorted l -> l !! i = Some a -> l !! j = Some b -> i < j -> kv_lt a b.
Proof.
  intros Hs Ha Hb Hij. rewrite <- (take_drop j l) in Hs. apply sorted_app_inv in Hs as (_ & _ & Hs). apply Hs.
  - apply list_elem_of_lookup. exists i. by rewrite lookup_take_lt.
  - apply list_elem_of_lookup. exists 0. by rewrite lookup_drop, Nat.add_0_r.
Qed.

(** *** The three-way split of a list around a key *)

Lemma kv_insert_below l1 l2 k v : keys_below k l1 -> kv_insert k v (l1 ++ l2) = l1 ++ kv_insert k v l2.
Proof.
  induction 1 as [|[k' v'] l1 Hk _ IH]; cbn; [done|]. cbn in Hk. rewrite lex_cmp_lt by done. by rewrite IH.
Qed.

Lemma kv_insert_above l1 l2 k v : keys_above k l2 -> kv_insert k v (l1 ++ l2) = kv_insert k v l1 ++ l2.
Proof.
  intros H2. induction l1 as [|[k' v'] l1 IH]; cbn.
  - destruct H2 as [|[k' v'] l2 Hk _]; cbn; [done|]. cbn in Hk. by rewrite lex_cmp_gt.
  - destruct (lex_cmp k' k); cbn; by rewrite ?IH.
Qed.

Lemma kv_insert_ctx l1 l l2 k v :
  keys_below k l1 -> keys_above k l2 -> kv_insert k v (l1 ++ l ++ l2) = l1 ++ kv_insert k v l ++ l2.
Proof. intros. by rewrite kv_insert_below, kv_insert_above. Qed.

Lemma kv_insert_present l1 l2 k v v' : keys_below k l1 -> kv_insert k v (l1 ++ (k, v') :: l2) = l1 ++ (k, v) :: l2.
Proof. intros. rewrite kv_insert_below by done. cbn. by rewrite lex_cmp_refl. Qed.

Lemma kv_insert_absent l1 l2 k v :
  keys_below k l1 -> keys_above k l2 -> kv_insert k v (l1 ++ l2) = l1 ++ (k, v) :: l2.
Proof. intros. rewrite kv_insert_below by done. f_equal. by rewrite <- (app_nil_l l2), kv_insert_above. Qed.

Lemma kv_insert_nonempty l k v : kv_insert k v l <> [].
Proof. destruct l as [|[k' v'] l]; cbn; [done|]. by destruct (lex_cmp k' k). Qed.

Lemma Forall_kv_insert (Q : kv -> Prop) l k v : Forall Q l -> Q (k, v) -> Forall Q (kv_insert k v l).
Proof.
  intros Hl Hk. induction Hl as [|[k' v'] l H' Hl IH]; cbn; [by constructor|].
  destruct (lex_cmp k' k); repeat constructor; auto.
Qed.

Lemma sorted_kv_insert l k v : kv_sorted l -> kv_sorted (kv_insert k v l).
Proof.
  induction 1 as [|[k' v'] l Hs IH Hf]; cbn; [repeat constructor|].
  destruct (lex_cmp k' k) eqn:E.
  - apply lex_cmp_eq in E as ->. by constructor.
  - constructor; [done|]. apply Forall_kv_insert; [done|]. exact E.
  - apply lex_gt_lt in E. constructor; [by constructor|]. constructor; [exact E|].
    eapply Forall_impl; [exact Hf|]. intros [k1 v1] H1. unfold kv_lt in *. cbn in *. by etransitivity.
Qed.

Lemma keys_below_not_in k l : keys_below k l -> kv_remove k l = l.
Proof.
  intros Hk. unfold kv_remove. apply filter_all.
  eapply Forall_impl; [exact Hk|]. intros. by apply lex_lt_ne.
Qed.

Lemma keys_above_not_in k l : keys_above k l -> kv_remove k l = l.
Proof.
  intros Hk. unfold kv_remove. apply filter_all.
  eapply Forall_impl; [exact Hk|]. intros. cbn in *. intros Heq. symmetry in Heq. revert Heq. by apply lex_lt_ne.
Qed.

Lemma kv_remove_ctx l1 l l2 k :
  keys_below k l1 -> keys_above k l2 -> kv_remove k (l1 ++ l ++ l2) = l1 ++ kv_remove k l ++ l2.
Proof.
  intros H1 H2. unfold kv_remove. rewrite !filter_app. fold (kv_remove k l1) (kv_remove k l2).
  by rewrite keys_below_not_in, keys_above_not_in.
Qed.

Lemma kv_remove_present l1 l2 k v :
  keys_below k l1 -> keys_above k l2 -> kv_remove k (l1 ++ (k, v) :: l2) = l1 ++ l2.
Proof.
  intros H1 H2. change ((k, v) :: l2) with ([(k, v)] ++ l2). rewrite kv_remove_ctx by done. f_equal.
  unfold kv_remove. rewrite filter_cons_False, filter_nil by (cbn; auto). done.
Qed.

Lemma kv_get_below l1 l2 k : keys_below k l1 -> kv_get k (l1 ++ l2) = kv_get k l2.
Proof.
  induction 1 as [|[k' v'] l1 Hk _ IH]; cbn; [done|]. rewrite decide_False; [done|]. by apply lex_lt_ne.
Qed.

Lemma kv_get_above l1 l2 k : keys_above k l2 -> kv_get k (l1 ++ l2) = kv_get k l1.
Proof.
  intros H2. induction l1 as [|[k' v'] l1 IH]; cbn; [|by destruct (decide (k' = k))].
  induction H2 as [|[k' v'] l2 Hk _ IH]; cbn; [done|]. rewrite decide_False; [done|].
  cbn in Hk. intros ->. by apply lex_lt_irrefl in Hk.
Qed.

Lemma kv_get_ctx l1 l l2 k : keys_below k l1 -> keys_above k l2 -> kv_get k (l1 ++ l ++ l2) = kv_get k l.
Proof. intros. by rewrite kv_get_below, kv_get_above. Qed.

Lemma kv_get_None k l : kv_get k l = None <-> k ∉ l.*1.
Proof.
  induction l as [|[k' v'] l IH]; cbn; [by split; [intros _ ?%elem_of_nil|]|].
  rewrite not_elem_of_cons. destruct (decide (k' = k)) as [->|]; [by split; [|intros [? ?]]|].
  rewrite IH. split; [|by intros [? ?]]. by split; [congruence|].
Qed.

Lemma kv_remove_absent k l : kv_get k l = None -> kv_remove k l = l.
Proof.
  rewrite kv_get_None. intros Hn. unfold kv_remove. apply filter_all, Forall_forall.
  intros e Hin <-. apply Hn. by apply (list_elem_of_fmap_2 fst) in Hin.
Qed.

(** *** The specification as a finite map *)

Lemma sorted_NoDup_keys l : kv_sorted l -> NoDup l.*1.
Proof.
  induction 1 as [|[k v] l Hs IH Hf]; cbn; [constructor|]. constructor; [|done].
  intros ([k' v'] & -> & Hin)%list_elem_of_fmap. rewrite Forall_forall in Hf. apply Hf in Hin.
  by apply lex_lt_irrefl in Hin.
Qed.

Lemma kv_get_map k l : kv_get k l = (list_to_map l : gmap (list Z) (list Z)) !! k.
Proof.
  induction l as [|[k' v'] l IH]; cbn; [by rewrite lookup_empty|].
  destruct (decide (k' = k)) as [->|]; [by rewrite lookup_insert_eq|]. by rewrite lookup_insert_ne.
Qed.

Lemma kv_insert_map k v l :
  (list_to_map (kv_insert k v l) : gmap (list Z) (list Z)) = <[k:=v]> (list_to_map l).
Proof.
  induction l as [|[k' v'] l IH]; cbn; [done|]. destruct (lex_cmp k' k) eqn:E; cbn.
  - apply lex_cmp_eq in E as ->. by rewrite insert_insert_eq.
  - rewrite IH. apply insert_insert_ne. by apply lex_lt_ne.
  - done.
Qed.

Lemma kv_remove_map k l :
  (list_to_map (kv_remove k l) : gmap (list Z) (list Z)) = delete k (list_to_map l).
Proof.
  unfold kv_remove. induction l as [|[k' v'] l IH]; [cbn; by rewrite delete_empty|].
  rewrite filter_cons. case_decide as Hd; cbn in *.
  - rewrite IH. symmetry. by apply delete_insert_ne.
  - assert (k' = k) as -> by (destruct (decide (k' = k)); [done|by exfalso]). by rewrite delete_insert_eq.
Qed.

Lemma length_kv_insert k v l :
  kv_sorted l ->
  length (kv_insert k v l) = match kv_get k l with Some _ => length l | None => S (length l) end.
Proof.
  intros Hs.
  induction Hs as [|[k' v'] l Hs IH Hf]; cbn; [done|].
  destruct (lex_cmp k' k) eqn:E; cbn.
  - apply lex_cmp_eq in E as ->. by rewrite decide_True.
  - rewrite decide_False by (by apply lex_lt_ne). rewrite IH. by destruct (kv_get k l).
  - apply lex_gt_lt in E. rewrite decide_False by (intros ->; by apply lex_lt_irrefl in E).
    rewrite <- (app_nil_l l), (kv_get_above [] l); [done|].
    eapply Forall_impl; [exact Hf|]. intros [k1 v1] H1. unfold kv_lt in H1. cbn in *. by etransitivity.
Qed.
End kv.

(** ** Cells *)

Definition legal_key (k : list Z) : Prop := 0 < length k <= MAX_KEY_LEN /\ bytes k.
Definition legal_kv (e : kv) : Prop := legal_key e.1 /\ length e.2 <= MAX_VALUE_LEN /\ bytes e.2.

(** A separator and the child to its right. *)
Abbreviation sep := (list Z * Z)%type.
Definition legal_sep (s : sep) : Prop := length s.1 <= MAX_KEY_LEN /\ bytes s.1 /\ u32 s.2.

Definition kv_cell (e : kv) : list Z := leaf_cell e.1 e.2.
Definition sep_cell (s : sep) : list Z := branch_cell s.1 s.2.
#[global] Arguments kv_cell _ : simpl never.
#[global] Arguments sep_cell _ : simpl never.

Section cells.
Lemma u16_at_app n rest : (Z.of_nat n < 65536)%Z -> u16_at (le_bytes 2 (Z.of_nat n) ++ rest) = n.
Proof.
  intros Hn. unfold u16_at. rewrite slice_app_l by len. rewrite slice_all by len.
  rewrite le_val_le_bytes_small; [lia|]. change (256 ^ Z.of_nat 2)%Z with 65536%Z. lia.
Qed.

Lemma leaf_key_cell k v : (Z.of_nat (length k) < 65536)%Z -> leaf_key (leaf_cell k v) = k.
Proof.
  intros Hk. unfold leaf_key, leaf_cell. rewrite u16_at_app by done.
  do 2 (case_goal; breflect; [len|]).
  rewrite (slice_app_r _ _ _ _ 2), slice_app_l, slice_all; try done; len.
Qed.

Lemma leaf_value_cell k v : (Z.of_nat (length k) < 65536)%Z -> leaf_value (leaf_cell k v) = v.
Proof.
  intros Hk. unfold leaf_value, leaf_cell. rewrite u16_at_app by done.
  do 2 (case_goal; breflect; [len|]).
  rewrite drop_app_ge by len. rewrite length_le_bytes. rewrite drop_app_ge by lia.
  replace (2 + length k - 2 - length k) with 0 by lia. done.
Qed.

Lemma branch_key_cell k c : (Z.of_nat (length k) < 65536)%Z -> branch_key (branch_cell k c) = k.
Proof.
  intros Hk. unfold branch_key, branch_cell. rewrite u16_at_app by done.
  do 2 (case_goal; breflect; [len|]).
  rewrite (slice_app_r _ _ _ _ 2), (slice_app_r _ _ _ _ 4), slice_all; try done; len.
Qed.

Lemma branch_child_cell k c : u32 c -> branch_child (branch_cell k c) = c.
Proof.
  intros Hc. unfold branch_child, branch_cell. case_goal; breflect; [len|].
  rewrite (slice_app_r _ _ _ _ 2), slice_app_l, slice_all by len.
  apply le_val_le_bytes_small. exact Hc.
Qed.

Lemma length_leaf_cell k v : length (leaf_cell k v) = 2 + length k + length v.
Proof. unfold leaf_cell. len. Qed.

Lemma length_branch_cell k c : length (branch_cell k c) = 6 + length k.
Proof. unfold branch_cell. len. Qed.

Lemma max_key_u16 (k : list Z) : length k <= MAX_KEY_LEN -> (Z.of_nat (length k) < 65536)%Z.
Proof. unfold MAX_KEY_LEN. lia. Qed.

Lemma kv_cell_key e : legal_kv e -> leaf_key (kv_cell e) = e.1.
Proof. intros ((? & ?) & ? & ?). apply leaf_key_cell, max_key_u16. lia. Qed.

Lemma kv_cell_value e : legal_kv e -> leaf_value (kv_cell e) = e.2.
Proof. intros ((? & ?) & ? & ?). apply leaf_value_cell, max_key_u16. lia. Qed.

Lemma kv_cell_bytes e : legal_kv e -> bytes (kv_cell e).
Proof. intros ((? & ?) & ? & ?). unfold kv_cell, leaf_cell. auto with fq. Qed.

Lemma sep_cell_key s : legal_sep s -> branch_key (sep_cell s) = s.1.
Proof. intros (? & ? & ?). by apply branch_key_cell, max_key_u16. Qed.

Lemma sep_cell_child s : legal_sep s -> branch_child (sep_cell s) = s.2.
Proof. intros (? & ? & ?). by apply branch_child_cell. Qed.

Lemma sep_cell_bytes s : legal_sep s -> bytes (sep_cell s).
Proof. intros (? & ? & ?). unfold sep_cell, branch_cell. auto with fq. Qed.

Lemma map_bytes {A} (Q : A -> Prop) (f : A -> list Z) l :
  (forall x, Q x -> bytes (f x)) -> Forall Q l -> Forall (Forall is_byte) (map f l).
Proof. intros Hf Hl. induction Hl; cbn; constructor; auto. Qed.
End cells.

(** ** Splits *)

(** The largest cell a legal entry makes: two length bytes, key and value. *)
Definition MAX_ENTRY_LEN : nat := 2 + MAX_KEY_LEN + MAX_VALUE_LEN.

Definition small_cell (c : list Z) : Prop := length c <= MAX_ENTRY_LEN.

Section splits.
Implicit Types cells : list (list Z).

Lemma page_capacity : PAGE_CAPACITY = Z.to_nat 16332.
Proof. vm_compute. reflexivity. Qed.

Lemma max_entry_len : MAX_ENTRY_LEN = Z.to_nat 5122.
Proof. vm_compute. reflexivity. Qed.

Lemma fits_spec cells : fits cells = true <-> cells_space cells <= PAGE_CAPACITY.
Proof. unfold fits. rewrite Nat.leb_le. by replace (MAX_CELL_LEN + SLOT_LEN) with PAGE_CAPACITY by reflexivity. Qed.

Lemma kv_cell_small e : legal_kv e -> small_cell (kv_cell e).
Proof.
  intros ((? & ?) & ? & ?). unfold small_cell, kv_cell, MAX_ENTRY_LEN. rewrite length_leaf_cell. lia.
Qed.

Lemma sep_cell_small s : legal_sep s -> small_cell (sep_cell s).
Proof.
  intros (? & ? & ?). unfold small_cell, sep_cell, MAX_ENTRY_LEN. rewrite length_branch_cell.
  unfold MAX_VALUE_LEN. lia.
Qed.

Lemma midpoint_from_spec cells index running total :
  running + cells_space cells = total -> running * 2 < total ->
  exists i, i < length cells /\ midpoint_from cells index running total = Nat.max (index + i) 1 /\
    (running + cells_space (take i cells)) * 2 < total /\
    total <= (running + cells_space (take (S i) cells)) * 2.
Proof.
  revert index running. induction cells as [|c cells IH]; intros index running Ht Hr.
  { rewrite cells_space_nil in Ht. lia. }
  rewrite cells_space_cons in Ht. cbn [midpoint_from]. case_goal; breflect.
  - exists 0. cbn [take length]. rewrite cells_space_cons, cells_space_nil, Nat.add_0_r. split_and!; (done || lia).
  - destruct (IH (S index) (running + (length c + SLOT_LEN))) as (i & Hi & -> & H1 & H2); [lia|lia|].
    exists (S i). cbn [length]. rewrite !firstn_cons, !cells_space_cons in *. split_and!; (f_equal; lia) || lia.
Qed.

(** Every overfull list of legal cells has a split point whose halves fit. *)
Lemma split_point_spec cells :
  Forall small_cell cells -> PAGE_CAPACITY < cells_space cells ->
  cells_space cells <= PAGE_CAPACITY + MAX_ENTRY_LEN + SLOT_LEN ->
  exists p, split_point cells = Some p /\ 0 < p < length cells /\
    cells_space (take p cells) <= PAGE_CAPACITY /\ cells_space (drop p cells) <= PAGE_CAPACITY.
Proof.
  rewrite page_capacity, max_entry_len. intros Hs Hlo Hhi.
  destruct (midpoint_from_spec cells 0 0 (cells_space cells)) as (i & Hi & Hm & H1 & H2); [lia|lia|].
  destruct (lookup_lt_is_Some_2 cells i Hi) as [c Hc].
  assert (length c <= MAX_ENTRY_LEN) as Hcl by (eapply Forall_lookup in Hs; eauto).
  rewrite max_entry_len in Hcl. rewrite (take_S_r _ _ _ Hc), cells_space_app, cells_space_cons, cells_space_nil in H2.
  unfold SLOT_LEN in *. pose (p := Nat.max (0 + i) 1).
  pose proof (cells_space_take_drop i cells) as Htd.
  assert (0 < p < length cells /\ cells_space (take p cells) <= Z.to_nat 16332 /\
          cells_space (drop p cells) <= Z.to_nat 16332) as (Hp & Hl & Hr).
  { subst p. destruct i as [|i].
    - destruct cells as [|c0 [|c1 cells]]; cbn in Hc; simplify_eq.
      + rewrite cells_space_cons, cells_space_nil in Hlo. unfold SLOT_LEN in *. lia.
      + cbn [length Nat.max Nat.add take drop] in *. rewrite ?cells_space_cons, ?cells_space_nil in *.
        unfold SLOT_LEN in *. lia.
    - replace (Nat.max (0 + S i) 1) with (S i) by lia. lia. }
  exists p. split; [|done]. unfold split_point.
  case_goal; breflect; [lia|]. rewrite Hm. fold p.
  destruct (length cells) as [|n] eqn:El; [lia|]. cbn [split_candidates seq map concat List.find app].
  unfold split_candidates. cbn [seq map concat List.find app].
  rewrite Nat.add_0_r. replace (good_split cells p) with true; [done|].
  symmetry. unfold good_split. rewrite !andb_true_iff, !fits_spec, page_capacity, negb_true_iff, orb_false_iff.
  rewrite Nat.eqb_neq, Nat.leb_gt. lia.
Qed.

Lemma cells_space_insert i c cells old :
  cells !! i = Some old -> cells_space (<[i:=c]> cells) + length old = cells_space cells + length c.
Proof.
  intros Hi. rewrite insert_take_drop by (eapply lookup_lt_Some; eauto).
  rewrite <- (take_drop_middle cells i old Hi) at 3. rewrite !cells_space_app, !cells_space_cons. lia.
Qed.

Lemma cells_space_add i c cells :
  cells_space (take i cells ++ c :: drop i cells) = cells_space cells + length c + SLOT_LEN.
Proof. rewrite cells_space_app, cells_space_cons. pose proof (cells_space_take_drop i cells). lia. Qed.
End splits.

(** ** Prefixes *)

Section prefixes.
Implicit Types (k p q : list Z).

Lemma starts_with_spec k p : starts_with k p = true <-> exists r, k = p ++ r.
Proof.
  unfold starts_with. rewrite bool_decide_eq_true. split.
  - intros H. exists (drop (length p) k). by rewrite <- H at 1; rewrite take_drop.
  - intros [r ->]. by rewrite take_app_length.
Qed.

Lemma bound_rev_spec r :
  match bound_rev r with
  | Some b => exists q x n, reverse r = q ++ x :: replicate n 255%Z /\ x <> 255%Z /\ b = q ++ [(x + 1)%Z]
  | None => reverse r = replicate (length r) 255%Z
  end.
Proof.
  induction r as [|x r IH]; cbn [bound_rev]; [done|]. destruct (Z.eqb_spec x 255) as [->|Hx].
  - destruct (bound_rev r) as [b|].
    + destruct IH as (q & y & n & Hr & Hy & ->). exists q, y, (S n). rewrite reverse_cons, Hr, <- app_assoc. cbn.
      split_and!; [|done|done]. by rewrite replicate_cons_app.
    + rewrite reverse_cons, IH. cbn. by rewrite replicate_cons_app.
  - exists (reverse r), x, 0. rewrite reverse_cons. by rewrite reverse_cons.
Qed.

(** Nothing but an extension is at or above a string of 255s. *)
Lemma all_max_le n k : bytes k -> replicate n 255%Z ≼ k -> exists r, k = replicate n 255%Z ++ r.
Proof.
  revert k. induction n as [|n IH]; intros k Hk Hle; cbn in *; [by exists k|].
  destruct Hk as [|x k Hx Hk]; [done|]. unfold is_byte in Hx.
  apply lex_le_cons in Hle as [?|[<- Hle]]; [lia|].
  destruct (IH k Hk Hle) as [r ->]. by exists r.
Qed.

Lemma between_bound q x n k :
  bytes k -> q ++ x :: replicate n 255%Z ≼ k -> k ≺ q ++ [(x + 1)%Z] ->
  exists r, k = (q ++ x :: replicate n 255%Z) ++ r.
Proof.
  revert k. induction q as [|a q IH]; intros k Hk; (destruct Hk as [|y k Hy Hk]; [done|]); cbn [app];
    rewrite lex_le_cons, lex_lt_cons; intros [?|[<- Hle]] [?|[? Hlt]]; try lia.
  - by apply lex_lt_nil in Hlt.
  - destruct (all_max_le n k Hk Hle) as [r ->]. by exists r.
  - destruct (IH k Hk Hle Hlt) as [r ->]. by exists r.
Qed.

Lemma extension_below q x n r : (q ++ x :: replicate n 255%Z) ++ r ≺ q ++ [(x + 1)%Z].
Proof.
  rewrite <- app_assoc. unfold lex_lt. rewrite lex_cmp_app. cbn. by destruct (Z.compare_spec x (x + 1)); [lia| |lia].
Qed.

(** The bound delimits exactly the keys that start with the prefix. *)
Lemma prefix_upper_bound_spec p k :
  bytes k ->
  starts_with k p = true <->
  p ≼ k /\ match prefix_upper_bound p with Some b => k ≺ b | None => True end.
Proof.
  intros Hk. rewrite starts_with_spec. unfold prefix_upper_bound. pose proof (bound_rev_spec (reverse p)) as H.
  rewrite reverse_involutive in H. destruct (bound_rev (reverse p)) as [b|].
  - destruct H as (q & x & n & -> & Hx & ->). split.
    + intros [r ->]. split; [apply lex_prefix_le|apply extension_below].
    + intros [H1 H2]. by apply between_bound.
  - rewrite length_reverse in H. split; [intros [r ->]; split; [apply lex_prefix_le|done]|].
    intros [Hle _]. rewrite H in Hle |- *. by apply all_max_le.
Qed.
End prefixes.

(** ** Meta pages *)

Definition legal_free (e : free_entry) : Prop := u64 (fe_generation e) /\ u32 (fe_page e).

Definition legal_meta (m : meta_state) : Prop :=
  u64 (ms_generation m) /\ u32 (ms_root m) /\ u64 (ms_entries m) /\ u32 (ms_high_water m) /\
  length (ms_free m) <= MAX_FREE_ENTRIES /\ Forall legal_free (ms_free m).

Section meta.
Lemma length_free_encode e : length (free_encode e) = 12.
Proof. unfold free_encode. len. Qed.

Lemma length_free_list l : length (concat (map free_encode l)) = length l * 12.
Proof. induction l; cbn [map concat]; [done|]. rewrite length_app, length_free_encode, IHl. cbn [length]. lia. Qed.

Lemma length_meta_encode m :
  length (meta_encode m) = META_FIXED + Nat.min (length (ms_free m)) MAX_FREE_ENTRIES * 12.
Proof.
  unfold meta_encode. rewrite !length_app, length_free_list, !length_le_bytes, length_take.
  unfold META_FIXED. cbn [length META_MAGIC]. lia.
Qed.

Lemma free_encode_fields e :
  legal_free e ->
  le_val (slice (free_encode e) 0 8) = fe_generation e /\ le_val (slice (free_encode e) 8 12) = fe_page e.
Proof.
  intros (Hg & Hp). unfold free_encode. split.
  - rewrite slice_app_l, slice_all by len. by apply le_val_le_bytes_small.
  - rewrite (slice_app_r _ _ _ _ 8), slice_all by len. by apply le_val_le_bytes_small.
Qed.

Lemma slice_free_list l i e :
  l !! i = Some e -> forall a b, b <= 12 ->
  slice (concat (map free_encode l)) (i * 12 + a) (i * 12 + b) = slice (free_encode e) a b.
Proof.
  revert i. induction l as [|x l IH]; intros i H a b Hb; [done|]. cbn [map concat]. destruct i as [|i].
  - injection H as ->. apply slice_app_l. by rewrite length_free_encode.
  - change (l !! i = Some e) in H. rewrite (slice_app_r _ _ _ _ 12) by (rewrite ?length_free_encode; lia).
    replace (S i * 12 + a - 12) with (i * 12 + a) by lia. replace (S i * 12 + b - 12) with (i * 12 + b) by lia. auto.
Qed.

Lemma map_seq_lookup {A} (f : nat -> A) l : (forall i x, l !! i = Some x -> f i = x) -> map f (seq 0 (length l)) = l.
Proof.
  intros Hf. apply list_eq. intros i. change (map f) with (fmap f : list nat -> list A). rewrite list_lookup_fmap.
  destruct (l !! i) as [x|] eqn:E.
  - rewrite lookup_seq_lt by (eapply lookup_lt_Some; eauto). cbn. f_equal. by apply Hf.
  - rewrite lookup_seq_ge by (by apply lookup_ge_None). done.
Qed.

Lemma slice_field {A} (pre f post : list A) i j :
  i = length pre -> j = i + length f -> slice (pre ++ f ++ post) i j = f.
Proof. intros -> ->. rewrite (slice_app_r _ _ _ _ (length pre)) by lia. rewrite slice_app_l by lia. rewrite Nat.sub_diag. apply slice_all. lia. Qed.

Lemma meta_roundtrip m : legal_meta m -> meta_decode (meta_encode m) = Some m.
Proof.
  intros (Hg & Hr & He & Hh & Hl & Hf). unfold meta_decode. rewrite length_meta_encode, Nat.min_l by done.
  destruct (META_FIXED + length (ms_free m) * 12 <? META_FIXED) eqn:E; breflect; [lia|]. clear E. cbn [orb].
  assert (length (ms_free m) <= 1024) as Hl' by exact Hl.
  set (tl := concat (map free_encode (ms_free m))).
  assert (meta_encode m = META_MAGIC ++ le_bytes 8 (ms_generation m) ++ le_bytes 4 (ms_root m) ++
            le_bytes 8 (ms_entries m) ++ le_bytes 4 (ms_high_water m) ++ le_bytes 2 (Z.of_nat (length (ms_free m))) ++ tl)
    as Henc by (unfold meta_encode; by rewrite Nat.min_l, take_ge by (done || lia)).
  assert (slice (meta_encode m) 0 4 = META_MAGIC) as -> by (rewrite Henc; by apply (slice_field [])).
  assert (slice (meta_encode m) 4 12 = le_bytes 8 (ms_generation m)) as ->
    by (rewrite Henc; by apply (slice_field META_MAGIC)).
  assert (slice (meta_encode m) 12 16 = le_bytes 4 (ms_root m)) as ->
    by (rewrite Henc, app_assoc; by apply slice_field).
  assert (slice (meta_encode m) 16 24 = le_bytes 8 (ms_entries m)) as ->
    by (rewrite Henc, app_assoc, app_assoc; by apply slice_field).
  assert (slice (meta_encode m) 24 28 = le_bytes 4 (ms_high_water m)) as ->
    by (rewrite Henc, app_assoc, app_assoc, app_assoc; by apply slice_field).
  assert (slice (meta_encode m) 28 30 = le_bytes 2 (Z.of_nat (length (ms_free m)))) as ->
    by (rewrite Henc, app_assoc, app_assoc, app_assoc, app_assoc; by apply slice_field).
  rewrite bool_decide_true by done. cbn [negb].
  rewrite !le_val_le_bytes_small; try exact Hg || exact Hr || exact He || exact Hh.
  2: { change (256 ^ Z.of_nat 2)%Z with 65536%Z. lia. }
  rewrite Nat2Z.id.
  destruct (META_FIXED + length (ms_free m) * 12 <? META_FIXED + length (ms_free m) * 12) eqn:E; breflect; [lia|]. clear E.
  f_equal. destruct m as [g r n hw fr]. cbn [ms_generation ms_root ms_entries ms_high_water ms_free] in *. f_equal.
  apply map_seq_lookup. intros i e Hi.
  assert (legal_free e) as Hle by (eapply Forall_lookup in Hf; eauto).
  assert (forall a b, b <= 12 -> slice (meta_encode (MetaState g r n hw fr)) (META_FIXED + i * 12 + a)
            (META_FIXED + i * 12 + b) = slice (free_encode e) a b) as Hs.
  { intros a b Hb. unfold META_FIXED. rewrite Henc, !app_assoc.
    rewrite (slice_app_r _ _ _ _ 30) by (autorewrite with fqlen; change (length META_MAGIC) with 4; lia).
    rewrite <- (slice_free_list _ _ _ Hi) by done. f_equal; lia. }
  destruct (free_encode_fields e Hle) as (H1 & H2).
  replace (META_FIXED + i * 12) with (META_FIXED + i * 12 + 0) at 1 by lia. rewrite !Hs by lia. rewrite H1, H2. by destruct e.
Qed.
End meta.
