(* ===== verification/BTreeRep.v ===== *)
(** * The contents of a B+tree: the representation predicate

    [rep h s lo hi id kvs fp] says that the pages of the store [s] reached from
    page [id] form a tree of height [h] whose entries, in order, are [kvs], all
    of them within the bounds [lo] (inclusive) and [hi] (exclusive), and that
    [fp] lists those pages.  Every subtree below the root holds an entry.  The
    file shows that the page-level routines of [BTree.v] (binary search, the
    separator scan, child replacement, page building) implement their list
    counterparts, and that the node at a slot can be replaced, split or dropped
    ([segs_focus]). *)

From Stdlib Require Import ZArith Lia Sorted.
From stdpp Require Import base tactics list option gmap.
From S2P Require Import Prelude Binary Page PageSpec BTree BTreeCells.

Local Open Scope key_scope.

(** ** Bounds *)

Definition lo_ok (lo : option (list Z)) (k : list Z) : Prop := match lo with Some a => a ≼ k | None => True end.
Definition lo_lt (lo : option (list Z)) (k : list Z) : Prop := match lo with Some a => a ≺ k | None => True end.
Definition hi_ok (hi : option (list Z)) (k : list Z) : Prop := match hi with Some b => k ≺ b | None => True end.

Definition in_range (lo hi : option (list Z)) (k : list Z) : Prop := lo_ok lo k /\ hi_ok hi k.
(** A separator lies strictly inside the bounds of its branch. *)
Definition sep_in (lo hi : option (list Z)) (k : list Z) : Prop := lo_lt lo k /\ hi_ok hi k.

(** [lo'] is no larger than [lo], and [hi'] no smaller than [hi]. *)
Definition lo_le (lo' lo : option (list Z)) : Prop :=
  match lo', lo with None, _ => True | Some a, Some b => a ≼ b | Some _, None => False end.
Definition hi_le (hi hi' : option (list Z)) : Prop :=
  match hi, hi' with _, None => True | Some a, Some b => a ≼ b | None, Some _ => False end.

Lemma lo_le_ok lo' lo k : lo_le lo' lo -> lo_ok lo k -> lo_ok lo' k.
Proof. destruct lo', lo; cbn; try done. eauto with fq. Qed.

Lemma lo_le_lt lo' lo k : lo_le lo' lo -> lo_lt lo k -> lo_lt lo' k.
Proof. destruct lo', lo; cbn; try done. eauto with fq. Qed.

Lemma hi_le_ok hi hi' k : hi_le hi hi' -> hi_ok hi k -> hi_ok hi' k.
Proof. destruct hi, hi'; cbn; try done. eauto with fq. Qed.

Lemma lo_le_refl lo : lo_le lo lo.
Proof. destruct lo; cbn; auto with fq. Qed.

Lemma hi_le_refl hi : hi_le hi hi.
Proof. destruct hi; cbn; auto with fq. Qed.

Lemma lo_lt_ok lo k : lo_lt lo k -> lo_ok lo k.
Proof. destruct lo; cbn; auto with fq. Qed.

Lemma lo_lt_trans lo a k : lo_lt lo a -> a ≺ k -> lo_lt lo k.
Proof. destruct lo; cbn; eauto with fq. Qed.

Lemma lo_ok_lt lo a k : lo_ok lo a -> a ≺ k -> lo_lt lo k.
Proof. destruct lo; cbn; eauto with fq. Qed.

Lemma lo_lt_le lo a k : lo_lt lo a -> a ≼ k -> lo_ok lo k.
Proof. destruct lo; cbn; eauto with fq. Qed.

Lemma hi_ok_trans hi a k : k ≺ a -> hi_ok hi a -> hi_ok hi k.
Proof. destruct hi; cbn; eauto with fq. Qed.

Lemma sep_in_lo_le lo hi k : sep_in lo hi k -> lo_le lo (Some k).
Proof. intros [? _]. destruct lo; cbn in *; auto with fq. Qed.

Lemma sep_in_hi_le lo hi k : sep_in lo hi k -> hi_le (Some k) hi.
Proof. intros [_ ?]. destruct hi; cbn in *; auto with fq. Qed.

#[export] Hint Resolve lo_lt_ok lo_lt_trans lo_ok_lt lo_lt_le hi_ok_trans sep_in_lo_le sep_in_hi_le
  lo_le_refl hi_le_refl lo_le_ok lo_le_lt hi_le_ok : fq.

(** Entries entirely on one side of a bound. *)
Definition kvs_below (lo : option (list Z)) (l : list kv) : Prop :=
  match lo with Some a => keys_below a l | None => l = [] end.
Definition kvs_above (hi : option (list Z)) (l : list kv) : Prop :=
  match hi with Some b => Forall (fun e => b ≼ e.1) l | None => l = [] end.

Lemma kvs_below_key lo l k : kvs_below lo l -> lo_ok lo k -> keys_below k l.
Proof.
  destruct lo as [a|]; cbn; [|intros -> _; constructor]. intros Hl ?. eapply Forall_impl; [exact Hl|].
  cbn. intros. by eapply lex_lt_le_trans.
Qed.

Lemma kvs_above_key hi l k : kvs_above hi l -> hi_ok hi k -> keys_above k l.
Proof.
  destruct hi as [a|]; cbn; [|intros -> _; constructor]. intros Hl ?. eapply Forall_impl; [exact Hl|].
  cbn. intros. by eapply lex_lt_le_trans.
Qed.

Definition in_ranges (lo hi : option (list Z)) : list kv -> Prop := Forall (fun e => in_range lo hi e.1).

Lemma in_ranges_below lo k l : in_ranges lo (Some k) l -> keys_below k l.
Proof. intros Hl. eapply Forall_impl; [exact Hl|]. by intros ? [_ ?]. Qed.

Lemma in_ranges_above k hi l : in_ranges (Some k) hi l -> Forall (fun e => k ≼ e.1) l.
Proof. intros Hl. eapply Forall_impl; [exact Hl|]. by intros ? [? _]. Qed.

Lemma in_ranges_widen lo hi lo' hi' l : lo_le lo' lo -> hi_le hi hi' -> in_ranges lo hi l -> in_ranges lo' hi' l.
Proof. intros Hl Hh Hk. eapply Forall_impl; [exact Hk|]. intros e [? ?]. split; eauto with fq. Qed.

(** ** The children of a branch

    [R lo hi id kvs fp] is the property of one child; [segs R lo hi c0 cs]
    chains the leftmost child and the children right of each separator. *)

Abbreviation seg_prop := (option (list Z) -> option (list Z) -> Z -> list kv -> list Z -> Prop).

Fixpoint segs (R : seg_prop) (lo hi : option (list Z)) (c0 : Z) (cs : list sep)
    (kvs : list kv) (fp : list Z) : Prop :=
  match cs with
  | [] => R lo hi c0 kvs fp
  | (k, c) :: cs =>
      exists kvs1 kvs2 fp1 fp2, kvs = kvs1 ++ kvs2 /\ fp = fp1 ++ fp2 /\ sep_in lo hi k /\
        R lo (Some k) c0 kvs1 fp1 /\ segs R (Some k) hi c cs kvs2 fp2
  end.

(** The child at a slot, and its replacement: slot 0 is the leftmost child. *)
Definition child_at (c0 : Z) (cs : list sep) (slot : nat) : Z :=
  match slot with O => c0 | S i => match cs !! i with Some s => s.2 | None => 0%Z end end.

Definition set_child (c0 : Z) (cs : list sep) (slot : nat) (c : Z) : Z * list sep :=
  match slot with
  | O => (c, cs)
  | S i => match cs !! i with Some s => (c0, <[i := (s.1, c)]> cs) | None => (c0, cs) end
  end.

(** Dropping the child at a slot: the next child takes the place of the leftmost one. *)
Definition drop_child (c0 : Z) (cs : list sep) (slot : nat) : Z * list sep :=
  match slot with
  | O => (child_at c0 cs 1, drop 1 cs)
  | S i => (c0, take i cs ++ drop (S i) cs)
  end.

(** What follows a child whose upper bound is [hi']. *)
Definition seg_tail (R : seg_prop) (lo hi' hi : option (list Z)) (cs : list sep) (l : list kv) (f : list Z) : Prop :=
  match cs with
  | [] => hi' = hi /\ l = [] /\ f = []
  | (k, c) :: cs => hi' = Some k /\ sep_in lo hi k /\ segs R (Some k) hi c cs l f
  end.

(** The children on both sides of a slot, next to it. *)
Definition left_neighbour (R : seg_prop) (c0 : Z) (cs : list sep) (slot : nat) (l1 : list kv) : Prop :=
  match slot with
  | O => l1 = []
  | S i => exists lo hi la lb f, l1 = la ++ lb /\ R lo hi (child_at c0 cs i) lb f
  end.

Definition right_neighbour (R : seg_prop) (c0 : Z) (cs : list sep) (slot : nat) (l2 : list kv) : Prop :=
  if slot <? length cs then exists lo hi la lb f, l2 = la ++ lb /\ R lo hi (child_at c0 cs (S slot)) la f
  else l2 = [].

Section segs.
Implicit Types (R : seg_prop) (cs : list sep).

Lemma segs_app R lo hi c0 cs1 k c cs2 kvs fp :
  segs R lo hi c0 (cs1 ++ (k, c) :: cs2) kvs fp <->
  exists kvs1 kvs2 fp1 fp2, kvs = kvs1 ++ kvs2 /\ fp = fp1 ++ fp2 /\ sep_in lo hi k /\
    segs R lo (Some k) c0 cs1 kvs1 fp1 /\ segs R (Some k) hi c cs2 kvs2 fp2.
Proof.
  revert lo c0 kvs fp. induction cs1 as [|[k1 c1] cs1 IH]; intros lo c0 kvs fp; [done|]. cbn [app segs]. split.
  - intros (kv1 & kv2 & f1 & f2 & -> & -> & Hs1 & HR & (kv3 & kv4 & f3 & f4 & -> & -> & [Hl Hh] & H1 & H2)%IH).
    exists (kv1 ++ kv3), kv4, (f1 ++ f3), f4. rewrite !app_assoc. split_and!; auto.
    + destruct Hs1. split; eauto with fq.
    + exists kv1, kv3, f1, f3. split_and!; auto. destruct Hs1. by split.
  - intros (kv1 & kv2 & f1 & f2 & -> & -> & [Hl Hh] & (kv3 & kv4 & f3 & f4 & -> & -> & [Hl1 Hh1] & HR & H1) & H2).
    exists kv3, (kv4 ++ kv2), f3, (f4 ++ f2). rewrite !app_assoc. split_and!; auto; [split; eauto with fq|].
    apply IH. exists kv4, kv2, f4, f2. split_and!; auto. by split.
Qed.

(** What one property implies of each child, the chain implies. *)
Lemma segs_mono R R' lo hi c0 cs kvs fp :
  (forall lo hi c l f, f ⊆ fp -> R lo hi c l f -> R' lo hi c l f) ->
  segs R lo hi c0 cs kvs fp -> segs R' lo hi c0 cs kvs fp.
Proof.
  revert lo c0 kvs fp. induction cs as [|[k c] cs IH]; intros lo c0 kvs fp HR; cbn [segs]; [by apply HR|].
  intros (kv1 & kv2 & f1 & f2 & -> & -> & Hs & H1 & H2). exists kv1, kv2, f1, f2. split_and!; auto.
  - apply HR; [set_solver|done].
  - apply IH; [|done]. intros. apply HR; [set_solver|done].
Qed.

(** Properties of a chain's contents, from those of its children. *)
Lemma segs_kvs R lo hi c0 cs kvs fp :
  (forall lo hi c l f, R lo hi c l f -> kv_sorted l /\ in_ranges lo hi l /\ Forall legal_kv l) ->
  segs R lo hi c0 cs kvs fp -> kv_sorted kvs /\ in_ranges lo hi kvs /\ Forall legal_kv kvs.
Proof.
  intros HR. revert lo c0 kvs fp. induction cs as [|[k c] cs IH]; intros lo c0 kvs fp; cbn [segs]; [by apply HR|].
  intros (kv1 & kv2 & f1 & f2 & -> & -> & Hs & (Hs1 & Hr1 & Hl1)%HR & (Hs2 & Hr2 & Hl2)%IH).
  split_and!.
  - apply sorted_app_inv. split_and!; auto. intros a b Ha Hb.
    apply in_ranges_below in Hr1. apply in_ranges_above in Hr2. rewrite Forall_forall in Hr2.
    eapply Forall_forall in Hr1; [|exact Ha]. unfold kv_lt. eapply lex_lt_le_trans; [exact Hr1|]. by apply Hr2.
  - apply Forall_app. split; (eapply in_ranges_widen; [..|eassumption]; eauto with fq).
  - by apply Forall_app.
Qed.

Definition widens R : Prop := forall lo hi lo' hi' c l f,
  lo_le lo' lo -> hi_le hi hi' -> R lo hi c l f -> R lo' hi' c l f.

Lemma segs_widen R lo hi lo' hi' c0 cs kvs fp :
  widens R -> lo_le lo' lo -> hi_le hi hi' ->
  segs R lo hi c0 cs kvs fp -> segs R lo' hi' c0 cs kvs fp.
Proof.
  intros HR Hl Hh. revert lo lo' Hl c0 kvs fp.
  induction cs as [|[k c] cs IH]; intros lo lo' Hl c0 kvs fp; cbn [segs]; [by apply HR|].
  intros (kv1 & kv2 & f1 & f2 & -> & -> & [Hs Hs'] & H1 & H2). exists kv1, kv2, f1, f2. split_and!; auto.
  - split; eauto with fq.
  - eapply HR; [exact Hl| |exact H1]. auto with fq.
  - eapply IH; [|exact H2]. auto with fq.
Qed.

Lemma segs_head R lo hi c0 cs kvs fp :
  segs R lo hi c0 cs kvs fp <->
  exists hi' l l2 f f2, kvs = l ++ l2 /\ fp = f ++ f2 /\ R lo hi' c0 l f /\ seg_tail R lo hi' hi cs l2 f2.
Proof.
  destruct cs as [|[k c] cs]; cbn [segs seg_tail]; split.
  - intros HR. exists hi, kvs, [], fp, []. by rewrite !app_nil_r.
  - intros (hi' & l & l2 & f & f2 & -> & -> & HR & -> & -> & ->). by rewrite !app_nil_r.
  - intros (l & l2 & f & f2 & -> & -> & Hs & H1 & H2). exists (Some k), l, l2, f, f2. by split_and!.
  - intros (hi' & l & l2 & f & f2 & -> & -> & HR & -> & Hs & H2). exists l, l2, f, f2. by split_and!.
Qed.

Lemma seg_tail_lo R lo lo' hi' hi cs l f :
  (forall k, hi' = Some k -> lo_lt lo' k) -> seg_tail R lo hi' hi cs l f -> seg_tail R lo' hi' hi cs l f.
Proof. destruct cs as [|[k c] cs]; [done|]. intros Hl (-> & [? ?] & ?). split_and!; auto. by split; [apply Hl|]. Qed.

Lemma seg_tail_mono R R' lo hi' hi cs l f :
  (forall lo hi c l' f', f' ⊆ f -> R lo hi c l' f' -> R' lo hi c l' f') ->
  seg_tail R lo hi' hi cs l f -> seg_tail R' lo hi' hi cs l f.
Proof.
  destruct cs as [|[k c] cs]; [done|]. intros HR (-> & ? & ?). split_and!; auto. by eapply segs_mono.
Qed.

Lemma seg_tail_facts R lo hi' hi cs l f :
  (forall lo hi c l f, R lo hi c l f -> kv_sorted l /\ in_ranges lo hi l /\ Forall legal_kv l) ->
  seg_tail R lo hi' hi cs l f ->
  kvs_above hi' l /\ hi_le hi' hi /\ forall key, hi_ok hi key -> (forall s, head cs = Some s -> key ≺ s.1) -> hi_ok hi' key.
Proof.
  intros HR. destruct cs as [|[k c] cs]; cbn [seg_tail].
  - intros (-> & -> & ->). split_and!; [by destruct hi; cbn|auto with fq|done].
  - intros (-> & Hs & (_ & Hr & _)%segs_kvs); [|done]. split_and!; eauto with fq.
    + cbn. by eapply in_ranges_above.
    + intros key _ Hk. cbn. by apply (Hk (k, c)).
Qed.

(** The three ways the slot whose child lies within [lo'] and [hi'] can change. *)
Definition slot_changes (R' : seg_prop) (lo hi lo' hi' : option (list Z)) (c0 : Z) (cs : list sep) (slot : nat)
    (l1 l2 : list kv) (f1 f2 : list Z) : Prop :=
  (forall c' l' f', R' lo' hi' c' l' f' ->
     segs R' lo hi (set_child c0 cs slot c').1 (set_child c0 cs slot c').2 (l1 ++ l' ++ l2) (f1 ++ f' ++ f2)) /\
  (forall c' k c'' la lb fa fb, sep_in lo' hi' k -> R' lo' (Some k) c' la fa -> R' (Some k) hi' c'' lb fb ->
     segs R' lo hi (set_child c0 cs slot c').1
       (take slot (set_child c0 cs slot c').2 ++ (k, c'') :: drop slot (set_child c0 cs slot c').2)
       (l1 ++ (la ++ lb) ++ l2) (f1 ++ (fa ++ fb) ++ f2)) /\
  (widens R' -> 0 < length cs ->
     segs R' lo hi (drop_child c0 cs slot).1 (drop_child c0 cs slot).2 (l1 ++ l2) (f1 ++ f2)).

Lemma slot_changes_head R' lo hi hi' c0 cs l2 f2 :
  hi_le hi' hi -> seg_tail R' lo hi' hi cs l2 f2 -> slot_changes R' lo hi lo hi' c0 cs 0 [] l2 [] f2.
Proof.
  intros Hle Ht. split_and!.
  - intros c' l' f' H'. apply segs_head. exists hi', l', l2, f', f2. by split_and!.
  - intros c' k c'' la lb fa fb [Hl Hh] Hra Hrb. cbn [take drop app set_child fst snd segs].
    exists la, (lb ++ l2), fa, (fb ++ f2). rewrite !app_assoc. split_and!; auto; [split; eauto with fq|].
    apply segs_head. exists hi', lb, l2, fb, f2. split_and!; auto. eapply seg_tail_lo; [|exact Ht].
    intros k' ->. exact Hh.
  - intros Hw Hlen. destruct cs as [|[k c] cs]; [cbn in Hlen; lia|]. destruct Ht as (-> & Hse & Hs').
    cbn. rewrite drop_0. eapply segs_widen; [done|..|exact Hs']; eauto with fq.
Qed.

Lemma slot_changes_right R' lo hi hi' c0 cs i k c l1 l2 f1 f2 :
  cs !! i = Some (k, c) -> sep_in lo hi k -> hi_le hi' hi ->
  segs R' lo (Some k) c0 (take i cs) l1 f1 -> seg_tail R' (Some k) hi' hi (drop (S i) cs) l2 f2 ->
  slot_changes R' lo hi (Some k) hi' c0 cs (S i) l1 l2 f1 f2.
Proof.
  intros Hi Hse Hle H1 Ht.
  assert (Hlen : length (take i cs) = i) by (apply lookup_lt_Some in Hi; rewrite length_take; lia).
  set (cs1 := take i cs) in *. set (cs2 := drop (S i) cs) in *.
  assert (Hset : forall c', set_child c0 cs (S i) c' = (c0, cs1 ++ (k, c') :: cs2)).
  { intros c'. cbn. rewrite Hi. cbn. f_equal. by rewrite insert_take_drop by (by eapply lookup_lt_Some). }
  assert (Hdr : forall c', drop (S i) (cs1 ++ (k, c') :: cs2) = cs2).
  { intros c'. rewrite drop_app_ge by lia. by replace (S i - length cs1) with 1 by lia. }
  assert (Htk : forall c', take (S i) (cs1 ++ (k, c') :: cs2) = cs1 ++ [(k, c')]).
  { intros c'. rewrite take_app_ge by lia. by replace (S i - length cs1) with 1 by lia. }
  split_and!.
  - intros c' l' f' H'. rewrite Hset. cbn [fst snd]. apply segs_app.
    exists l1, (l' ++ l2), f1, (f' ++ f2). split_and!; auto. apply segs_head. exists hi', l', l2, f', f2. by split_and!.
  - intros c' k' c'' la lb fa fb [Hl Hh] Hra Hrb. rewrite Hset. cbn [fst snd].
    rewrite Hdr, Htk, <- app_assoc. cbn [app]. apply segs_app.
    exists l1, ((la ++ lb) ++ l2), f1, ((fa ++ fb) ++ f2). split_and!; auto. cbn [segs].
    exists la, (lb ++ l2), fa, (fb ++ f2). rewrite !app_assoc. split_and!; auto; [split; eauto with fq|].
    apply segs_head. exists hi', lb, l2, fb, f2. split_and!; auto. eapply seg_tail_lo; [|exact Ht].
    intros ? ->. exact Hh.
  - intros Hw _. cbn [drop_child fst snd]. fold cs1 cs2. destruct cs2 as [|[k2 c2] cs2'].
    + destruct Ht as (-> & -> & ->). rewrite !app_nil_r. eapply segs_widen; [done|..|exact H1]; eauto with fq.
    + destruct Ht as (-> & [Hl2 Hh2] & Hs2). apply segs_app. exists l1, l2, f1, f2. split_and!; auto.
      * destruct Hse. split; eauto with fq.
      * eapply segs_widen; [done|..|exact H1]; [auto with fq|]. cbn. auto with fq.
Qed.

Lemma segs_last R lo hi c0 cs kvs fp :
  segs R lo hi c0 cs kvs fp ->
  exists lo' la lb f, kvs = la ++ lb /\ R lo' hi (child_at c0 cs (length cs)) lb f.
Proof.
  revert lo c0 kvs fp. induction cs as [|[k c] cs IH]; intros lo c0 kvs fp; cbn [segs].
  - intros HR. by exists lo, [], kvs, fp.
  - intros (l1 & l2 & f1 & f2 & -> & -> & _ & _ & H2).
    destruct (IH _ _ _ _ H2) as (lo' & la & lb & f & -> & HR). exists lo', (l1 ++ la), lb, f. rewrite app_assoc.
    split; [done|]. cbn [length child_at]. by destruct cs.
Qed.

Lemma seg_tail_right R lo hi' hi c0 cs slot l f :
  slot <= length cs -> seg_tail R lo hi' hi (drop slot cs) l f -> right_neighbour R c0 cs slot l.
Proof.
  intros Hslot. unfold right_neighbour. destruct (drop slot cs) as [|[k c] cs'] eqn:E; cbn [seg_tail].
  - intros (_ & -> & _). apply (f_equal length) in E. rewrite length_drop in E. cbn in E.
    case_goal; breflect; [lia|done].
  - intros (_ & _ & (hi2 & la & lb & fa & fb & -> & _ & HR & _)%segs_head).
    assert (cs !! slot = Some (k, c)) as Hs by (by rewrite <- (Nat.add_0_r slot), <- lookup_drop, E).
    pose proof (lookup_lt_Some _ _ _ Hs). case_goal; breflect; [|lia].
    exists (Some k), hi2, la, lb, fa. split; [done|]. cbn [child_at]. by rewrite Hs.
Qed.

Lemma segs_left R lo hi c0 cs i l f :
  i < length cs -> segs R lo hi c0 (take i cs) l f -> left_neighbour R c0 cs (S i) l.
Proof.
  intros Hi (lo' & la & lb & f' & -> & HR)%segs_last. exists lo', hi, la, lb, f'. split; [done|].
  rewrite length_take, Nat.min_l in HR by lia. destruct i as [|j]; [done|]. cbn [child_at] in *.
  by rewrite lookup_take_lt in HR by lia.
Qed.

(** The node at a slot, its context, and how the slot can change. *)
Lemma segs_focus R lo hi c0 cs kvs fp slot :
  (forall lo hi c l f, R lo hi c l f -> kv_sorted l /\ in_ranges lo hi l /\ Forall legal_kv l) ->
  segs R lo hi c0 cs kvs fp -> slot <= length cs ->
  exists lo' hi' l1 l l2 f1 f f2, kvs = l1 ++ l ++ l2 /\ fp = f1 ++ f ++ f2 /\
    R lo' hi' (child_at c0 cs slot) l f /\ kvs_below lo' l1 /\ kvs_above hi' l2 /\
    (forall key, in_range lo hi key -> (forall s, s ∈ take slot cs -> s.1 ≼ key) ->
       (forall s, cs !! slot = Some s -> key ≺ s.1) -> in_range lo' hi' key) /\
    left_neighbour R c0 cs slot l1 /\ right_neighbour R c0 cs slot l2 /\
    forall R', (forall lo hi c l' f', f' ⊆ f1 ++ f2 -> R lo hi c l' f' -> R' lo hi c l' f') ->
      slot_changes R' lo hi lo' hi' c0 cs slot l1 l2 f1 f2.
Proof.
  intros HR Hs Hslot. destruct slot as [|i].
  - apply segs_head in Hs as (hi' & l & l2 & f & f2 & -> & -> & Hc & Ht).
    destruct (seg_tail_facts _ _ _ _ _ _ _ HR Ht) as (Ha & Hle & Hk).
    exists lo, hi', [], l, l2, [], f, f2. split_and!; auto; [by destruct lo; [constructor|]|..].
    + intros key [? Hh] _ Hn. split; [done|]. apply Hk; [done|]. intros s ?. apply Hn. by rewrite <- head_lookup.
    + done.
    + eapply (seg_tail_right _ _ _ _ _ cs 0); [lia|]. by rewrite drop_0.
    + intros R' Hm. apply slot_changes_head; [done|]. by eapply seg_tail_mono.
  - destruct (lookup_lt_is_Some_2 cs i Hslot) as [[k c] Hi].
    rewrite <- (take_drop_middle cs i (k, c) Hi) in Hs.
    apply segs_app in Hs as (kv1 & kv2 & g1 & g2 & -> & -> & Hse & H1 & H2).
    pose proof (segs_kvs _ _ _ _ _ _ _ HR H1) as (_ & Hr1 & _).
    apply segs_head in H2 as (hi' & l & l2 & f & f2 & -> & -> & Hc & Ht).
    destruct (seg_tail_facts _ _ _ _ _ _ _ HR Ht) as (Ha & Hle & Hk).
    exists (Some k), hi', kv1, l, l2, g1, f, f2. split_and!; auto.
    + cbn. by rewrite Hi.
    + cbn. by eapply in_ranges_below.
    + intros key [? Hh] Hb Hn. split.
      * cbn. apply (Hb (k, c)). rewrite (take_S_r _ _ _ Hi). set_solver +.
      * apply Hk; [done|]. intros s Hs. apply Hn. rewrite <- Hs. by rewrite head_lookup, lookup_drop, Nat.add_0_r.
    + by eapply segs_left.
    + by eapply seg_tail_right.
    + intros R' Hm. eapply slot_changes_right; eauto.
      * eapply segs_mono; [|exact H1]. intros. apply Hm; [by apply list_subseteq_app_l|done].
      * eapply seg_tail_mono; [|exact Ht]. intros. apply Hm; [by apply list_subseteq_app_r|done].
Qed.
End segs.

Section rep.
Context {P : Type} `{PageImpl P}.

Abbreviation cells_of p := (a_cells (pg_abs p)).

(** A leaf page holding [kvs], and a branch page with separators [cs]. *)
Definition leaf_page (p : P) (kvs : list kv) : Prop :=
  pg_ok p /\ pg_kind p = Leaf /\ cells_of p = map kv_cell kvs /\ kv_sorted kvs /\ Forall legal_kv kvs.

Definition branch_page (p : P) (cs : list sep) : Prop :=
  pg_ok p /\ pg_kind p = Branch /\ cells_of p = map sep_cell cs /\ Forall legal_sep cs.

Fixpoint rep (h : nat) (s : gmap Z P) (lo hi : option (list Z)) (id : Z) (kvs : list kv) (fp : list Z) : Prop :=
  match h with
  | O => exists p, s !! id = Some p /\ leaf_page p kvs /\ in_ranges lo hi kvs /\ fp = [id]
  | S h =>
      exists p cs f, s !! id = Some p /\ branch_page p cs /\ fp = id :: f /\
        segs (fun lo hi id kvs fp => rep h s lo hi id kvs fp /\ kvs <> []) lo hi (pg_extra p) cs kvs f
  end.

Definition child_rep (h : nat) (s : gmap Z P) : seg_prop := fun lo hi id kvs fp =>
  rep h s lo hi id kvs fp /\ kvs <> [].

Lemma rep_S h s lo hi id kvs fp :
  rep (S h) s lo hi id kvs fp <->
  exists p cs f, s !! id = Some p /\ branch_page p cs /\ fp = id :: f /\
    segs (child_rep h s) lo hi (pg_extra p) cs kvs f.
Proof. done. Qed.

Lemma rep_facts h s lo hi id kvs fp :
  rep h s lo hi id kvs fp -> kv_sorted kvs /\ in_ranges lo hi kvs /\ Forall legal_kv kvs.
Proof.
  revert lo hi id kvs fp. induction h as [|h IH]; intros lo hi id kvs fp.
  - intros (p & _ & (_ & _ & _ & ? & ?) & ? & _). done.
  - intros (p & cs & f & _ & _ & _ & Hs). eapply segs_kvs; [|exact Hs]. intros ????? [? _]. by eapply IH.
Qed.

Lemma child_rep_facts h s lo hi id kvs fp :
  child_rep h s lo hi id kvs fp -> kv_sorted kvs /\ in_ranges lo hi kvs /\ Forall legal_kv kvs.
Proof. intros [? _]. by eapply rep_facts. Qed.

Lemma rep_widen h s : widens (rep h s).
Proof.
  induction h as [|h IH]; intros lo hi lo' hi' id kvs fp Hl Hh.
  - intros (p & ? & ? & ? & ->). exists p. split_and!; auto. by eapply in_ranges_widen.
  - intros (p & cs & f & ? & ? & -> & Hs). exists p, cs, f. split_and!; auto.
    eapply segs_widen; [|exact Hl|exact Hh|exact Hs]. intros ??????? Hl' Hh' [? ?]. split; [|done]. by eapply IH.
Qed.

Lemma child_rep_widen h s : widens (child_rep h s).
Proof. intros ??????? Hl Hh [? ?]. split; [|done]. by eapply rep_widen. Qed.

(** Only the pages of the footprint matter. *)
Lemma rep_store h s s' lo hi id kvs fp :
  (forall x, x ∈ fp -> s' !! x = s !! x) -> rep h s lo hi id kvs fp -> rep h s' lo hi id kvs fp.
Proof.
  revert lo hi id kvs fp. induction h as [|h IH]; intros lo hi id kvs fp Heq.
  - intros (p & ? & ? & ? & ->). exists p. split_and!; auto. by rewrite Heq by (by apply elem_of_cons; left).
  - intros (p & cs & f & ? & ? & -> & Hs). exists p, cs, f. split_and!; auto.
    + by rewrite Heq by (by apply elem_of_cons; left).
    + eapply segs_mono; [|exact Hs]. intros ????? Hsub [Hr ?]. split; [|done].
      eapply IH; [|exact Hr]. intros x Hx. apply Heq. apply elem_of_cons. right. by apply Hsub.
Qed.

Lemma child_rep_store h s s' lo hi id kvs fp :
  (forall x, x ∈ fp -> s' !! x = s !! x) -> child_rep h s lo hi id kvs fp -> child_rep h s' lo hi id kvs fp.
Proof. intros Heq [? ?]. split; [|done]. by eapply rep_store. Qed.

Lemma rep_root h s lo hi id kvs fp : rep h s lo hi id kvs fp -> exists f, fp = id :: f.
Proof.
  destruct h; [intros (p & ? & ? & ? & ->); by exists []|]. intros (p & cs & f & ? & ? & -> & _). by exists f.
Qed.

(** ** The page-level routines *)

Lemma page_cells_of_abs p : page_cells_of p = cells_of p.
Proof.
  unfold page_cells_of. rewrite pg_slot_count_abs.
  assert (forall n, n <= length (cells_of p) -> omap (pg_cell p) (seq 0 n) = take n (cells_of p)) as Hn.
  { induction n as [|n IH]; intros Hlen; [done|].
    destruct (lookup_lt_is_Some_2 (cells_of p) n) as [c Hc]; [lia|].
    rewrite (take_S_r _ _ _ Hc), seq_S, omap_app, IH by lia. cbn. by rewrite pg_cell_abs, Hc. }
  rewrite Hn, take_ge by lia. done.
Qed.

Lemma leaf_lookup p kvs i : leaf_page p kvs -> pg_cell p i = kv_cell <$> (kvs !! i).
Proof. intros (_ & _ & Hc & _). rewrite pg_cell_abs, Hc. apply list_lookup_fmap. Qed.

Lemma branch_lookup p cs i : branch_page p cs -> pg_cell p i = sep_cell <$> (cs !! i).
Proof. intros (_ & _ & Hc & _). rewrite pg_cell_abs, Hc. apply list_lookup_fmap. Qed.

Lemma leaf_slots p kvs : leaf_page p kvs -> pg_slot_count p = length kvs.
Proof. intros (_ & _ & Hc & _). by rewrite pg_slot_count_abs, Hc, length_map. Qed.

Lemma branch_slots p cs : branch_page p cs -> pg_slot_count p = length cs.
Proof. intros (_ & _ & Hc & _). by rewrite pg_slot_count_abs, Hc, length_map. Qed.

(** Where a key is, or would be, in a sorted list. *)
Definition position (kvs : list kv) (key : list Z) (r : nat * bool) : Prop :=
  r.1 <= length kvs /\ keys_below key (take r.1 kvs) /\
  if r.2 then exists v, kvs !! r.1 = Some (key, v) /\ keys_above key (drop (S r.1) kvs)
  else keys_above key (drop r.1 kvs).

Lemma keys_below_take kvs key i e :
  kv_sorted kvs -> kvs !! i = Some e -> e.1 ≺ key -> keys_below key (take (S i) kvs).
Proof.
  intros Hs Hi Hlt. rewrite (take_S_r _ _ _ Hi). apply Forall_app. split; [|by constructor].
  apply Forall_forall. intros a (j & Ha)%list_elem_of_lookup. apply lookup_take_Some in Ha as [Ha ?].
  eapply lex_lt_trans; [|exact Hlt]. exact (sorted_lookup_lt _ _ _ _ _ Hs Ha Hi ltac:(lia)).
Qed.

Lemma keys_above_drop kvs key i e :
  kv_sorted kvs -> kvs !! i = Some e -> key ≼ e.1 -> keys_above key (drop (S i) kvs).
Proof.
  intros Hs Hi Hle. apply Forall_forall. intros a (j & Ha)%list_elem_of_lookup. rewrite lookup_drop in Ha.
  eapply lex_le_lt_trans; [exact Hle|]. exact (sorted_lookup_lt _ _ _ _ _ Hs Hi Ha ltac:(lia)).
Qed.

Lemma search_loop_spec p kvs key fuel low high :
  leaf_page p kvs -> high - low < fuel -> low <= high -> high <= length kvs ->
  keys_below key (take low kvs) -> keys_above key (drop high kvs) ->
  position kvs key (search_loop fuel p key low high).
Proof.
  intros Hp. pose proof Hp as (_ & _ & _ & Hs & Hl).
  revert low high. induction fuel as [|fuel IH]; intros low high Hf Hle Hn Hb Ha; [lia|]. cbn [search_loop].
  case_goal; breflect.
  2: { replace high with low in Ha by lia. split_and!; cbn; auto. lia. }
  pose proof (Nat.div_mod_eq (low + high) 2). pose proof (Nat.mod_upper_bound (low + high) 2).
  set (mid := (low + high) / 2) in *.
  destruct (lookup_lt_is_Some_2 kvs mid) as [e He]; [lia|].
  rewrite (leaf_lookup _ _ _ Hp), He. cbn [fmap option_fmap option_map].
  rewrite kv_cell_key by (by eapply Forall_lookup in Hl). destruct (lex_cmp e.1 key) eqn:Ec.
  - apply lex_cmp_eq in Ec as <-. split_and!; cbn [fst snd]; [lia|..].
    + apply Forall_forall. intros a (j & Haj)%list_elem_of_lookup. apply lookup_take_Some in Haj as [Haj ?].
      by apply (sorted_lookup_lt kvs j mid).
    + exists e.2. split; [by destruct e|]. eapply keys_above_drop; eauto with fq.
  - apply IH; try lia; [|done]. by eapply keys_below_take.
  - apply lex_gt_lt in Ec. apply IH; try lia; [done|].
    rewrite (drop_S _ _ _ He). constructor; [done|]. eapply keys_above_drop; eauto with fq.
Qed.

Lemma leaf_search_spec p kvs key : leaf_page p kvs -> position kvs key (leaf_search p key).
Proof.
  intros Hp. unfold leaf_search. rewrite (leaf_slots _ _ Hp). eapply search_loop_spec; eauto; [lia|lia|constructor|].
  rewrite drop_ge by lia. constructor.
Qed.

(** What a position says about the three operations on a sorted list. *)
Lemma position_insert kvs key v r :
  position kvs key r -> kv_insert key v kvs = take r.1 kvs ++ (key, v) :: drop (if r.2 then S r.1 else r.1) kvs.
Proof.
  destruct r as [i [|]]; intros (Hi & Hb & Hr); cbn [fst snd] in *.
  - destruct Hr as (v' & Hv & _). rewrite <- (take_drop_middle _ _ _ Hv) at 1. by rewrite kv_insert_present.
  - rewrite <- (take_drop i kvs) at 1. by rewrite kv_insert_absent.
Qed.

Lemma position_remove kvs key i :
  position kvs key (i, true) -> kv_remove key kvs = take i kvs ++ drop (S i) kvs.
Proof.
  intros (Hi & Hb & v & Hv & Ha); cbn [fst snd] in *. rewrite <- (take_drop_middle _ _ _ Hv) at 1.
  by rewrite kv_remove_present.
Qed.

Lemma position_get kvs key r :
  position kvs key r -> kv_get key kvs = if r.2 then snd <$> kvs !! r.1 else None.
Proof.
  destruct r as [i [|]]; intros (Hi & Hb & Hr); cbn [fst snd] in *.
  - destruct Hr as (v & Hv & Ha). rewrite Hv. rewrite <- (take_drop_middle _ _ _ Hv), kv_get_below by done.
    cbn. by rewrite decide_True.
  - rewrite <- (take_drop i kvs), kv_get_below by done. by apply (kv_get_above []).
Qed.

Lemma branch_scan_spec p cs key n index :
  branch_page p cs -> index + n = length cs -> (forall s, s ∈ take index cs -> s.1 ≼ key) ->
  let slot := branch_scan p key n index index in
  slot <= length cs /\ (forall s, s ∈ take slot cs -> s.1 ≼ key) /\ (forall s, cs !! slot = Some s -> key ≺ s.1).
Proof.
  intros Hp. pose proof Hp as (_ & _ & _ & Hl). revert index.
  induction n as [|n IH]; intros index Hn Hb; cbn [branch_scan].
  - split_and!; [lia|done|]. intros s Hs%lookup_lt_Some. lia.
  - destruct (lookup_lt_is_Some_2 cs index) as [s Hs]; [lia|].
    rewrite (branch_lookup _ _ _ Hp), Hs. cbn [fmap option_fmap option_map].
    rewrite sep_cell_key by (by eapply Forall_lookup in Hl).
    assert (lex_cmp s.1 key <> Gt -> forall s', s' ∈ take (S index) cs -> s'.1 ≼ key) as Hnext.
    { intros Hle s'. rewrite (take_S_r _ _ _ Hs), elem_of_app, list_elem_of_singleton. intros [?| ->]; auto. }
    destruct (lex_cmp s.1 key) eqn:Ec.
    + apply IH; [lia|]. by apply Hnext.
    + apply IH; [lia|]. by apply Hnext.
    + split_and!; [lia|done|]. intros s' Hs'. rewrite Hs in Hs'. injection Hs' as <-. by apply lex_gt_lt.
Qed.

Lemma branch_child_at_spec p cs slot :
  branch_page p cs -> slot <= length cs -> branch_child_at p slot = child_at (pg_extra p) cs slot.
Proof.
  intros Hp Hslot. destruct slot as [|i]; cbn; [done|]. rewrite (branch_lookup _ _ _ Hp).
  destruct (lookup_lt_is_Some_2 cs i) as [s Hs]; [lia|]. rewrite Hs. cbn.
  destruct Hp as (_ & _ & _ & Hl). apply sep_cell_child. by eapply Forall_lookup in Hl.
Qed.

Lemma branch_child_for_spec p cs key :
  branch_page p cs ->
  exists slot, branch_child_for p key = (slot, child_at (pg_extra p) cs slot) /\ slot <= length cs /\
    (forall s, s ∈ take slot cs -> s.1 ≼ key) /\ (forall s, cs !! slot = Some s -> key ≺ s.1).
Proof.
  intros Hp. unfold branch_child_for. rewrite (branch_slots _ _ Hp).
  destruct (branch_scan_spec p cs key (length cs) 0 Hp) as (H1 & H2 & H3); [lia|intros s Hs; by apply elem_of_nil in Hs|].
  eexists. split; [|done]. f_equal. by apply branch_child_at_spec.
Qed.
End rep.

(** ** Changing and building pages *)

Section build.
Context {P : Type} `{PageImpl P}.

Abbreviation cells_of p := (a_cells (pg_abs p)).

Lemma branch_page_ok (p : P) x cs :
  pg_ok p -> pg_abs p = APage Branch x (map sep_cell cs) -> Forall legal_sep cs ->
  branch_page p cs /\ pg_extra p = x.
Proof. intros Hok Ha Hl. split; [|by rewrite pg_extra_abs, Ha]. split_and!; auto; [by rewrite pg_kind_abs, Ha|by rewrite Ha]. Qed.

Lemma leaf_page_ok (p : P) x kvs :
  pg_ok p -> pg_abs p = APage Leaf x (map kv_cell kvs) -> kv_sorted kvs -> Forall legal_kv kvs -> leaf_page p kvs.
Proof. intros Hok Ha Hs Hl. split_and!; auto; [by rewrite pg_kind_abs, Ha|by rewrite Ha]. Qed.

Lemma branch_space (p : P) cs : branch_page p cs -> cells_space (map sep_cell cs) <= PAGE_CAPACITY.
Proof. intros (Hok & _ & Hc & _). rewrite <- Hc. apply (pg_cells_ok p Hok). Qed.

Lemma set_child_space c0 cs slot c :
  cells_space (map sep_cell (set_child c0 cs slot c).2) = cells_space (map sep_cell cs).
Proof.
  destruct slot as [|i]; cbn [set_child snd]; [done|]. destruct (cs !! i) as [s|] eqn:E; cbn [snd]; [|done].
  change (map sep_cell) with (fmap sep_cell : list sep -> list (list Z)). rewrite list_fmap_insert.
  assert ((sep_cell <$> cs) !! i = Some (sep_cell s)) as Ei by (by rewrite list_lookup_fmap, E).
  pose proof (cells_space_insert i (sep_cell (s.1, c)) _ _ Ei) as Hs.
  assert (length (sep_cell (s.1, c)) = length (sep_cell s)) by (unfold sep_cell; by rewrite !length_branch_cell).
  lia.
Qed.

Lemma set_child_legal c0 cs slot c : Forall legal_sep cs -> u32 c -> Forall legal_sep (set_child c0 cs slot c).2.
Proof.
  intros Hl Hc. destruct slot as [|i]; cbn; [done|]. destruct (cs !! i) as [s|] eqn:E; cbn; [|done].
  apply Forall_insert; [done|]. assert (legal_sep s) as (? & ? & ?) by (by eapply Forall_lookup in Hl). by split; [|split].
Qed.

Lemma length_set_child c0 cs slot c : length (set_child c0 cs slot c).2 = length cs.
Proof. destruct slot as [|i]; cbn; [done|]. destruct (cs !! i); cbn; [|done]. apply length_insert. Qed.

Lemma set_branch_child_spec (p : P) cs slot c :
  branch_page p cs -> slot <= length cs -> u32 c ->
  branch_page (set_branch_child p slot c) (set_child (pg_extra p) cs slot c).2 /\
  pg_extra (set_branch_child p slot c) = (set_child (pg_extra p) cs slot c).1.
Proof.
  intros Hp Hslot Hc. pose proof Hp as (Hok & Hk & Hcs & Hl). destruct slot as [|i]; cbn [set_branch_child set_child].
  - destruct (pg_set_extra_spec p c Hok Hc) as (Hok' & Ha'). apply branch_page_ok; auto. by rewrite Ha', Hk, Hcs.
  - destruct (lookup_lt_is_Some_2 cs i) as [s Hs]; [lia|].
    rewrite (branch_lookup _ _ _ Hp), Hs. cbn [fmap option_fmap option_map fst snd].
    assert (legal_sep s) as Hls by (by eapply Forall_lookup in Hl). rewrite sep_cell_key by done.
    assert (legal_sep (s.1, c)) as Hls' by (destruct Hls as (? & ? & ?); by split; [|split]).
    destruct (pg_replace_spec p i (sep_cell (s.1, c)) Hok) as (q & Hq & Hok' & Ha').
    + by apply sep_cell_bytes.
    + by rewrite (branch_slots _ _ Hp).
    + rewrite Hcs. change (map sep_cell) with (fmap sep_cell : list sep -> list (list Z)).
      rewrite <- list_fmap_insert. pose proof (set_child_space (pg_extra p) cs (S i) c) as Hsp.
      cbn [set_child] in Hsp. rewrite Hs in Hsp. cbn [snd] in Hsp. change (map sep_cell) with (fmap sep_cell : list sep -> list (list Z)) in Hsp. rewrite Hsp.
      by apply (branch_space p).
    + unfold sep_cell in Hq at 1. cbn [fst snd] in Hq. rewrite Hq. cbn [fst].
      apply branch_page_ok; auto; [|by apply Forall_insert]. rewrite Ha', Hk, Hcs.
      by change (map sep_cell) with (fmap sep_cell : list sep -> list (list Z)); rewrite list_fmap_insert.
Qed.

Lemma push_all_spec (cells : list (list Z)) (p : P) :
  pg_ok p -> cells_space (cells_of p) + cells_space cells <= PAGE_CAPACITY -> Forall (Forall is_byte) cells ->
  exists q, push_all p cells = Ok q /\ pg_ok q /\ pg_abs q = APage (pg_kind p) (pg_extra p) (cells_of p ++ cells).
Proof.
  revert p. induction cells as [|c cells IH]; intros p Hok Hsp Hb; cbn [push_all].
  - exists p. split_and!; auto. rewrite app_nil_r, pg_kind_abs, pg_extra_abs. by destruct (pg_abs p).
  - rewrite cells_space_cons in Hsp. inversion Hb as [|? ? Hc Hb']; subst.
    pose proof (pg_push_spec p c Hok Hc) as Hpush. rewrite decide_True in Hpush by lia.
    destruct Hpush as (q & Hq & Hok' & Ha'). rewrite Hq.
    destruct (IH q Hok') as (r & Hr & Hok'' & Ha''); [|done|].
    { rewrite Ha'. cbn [a_cells]. rewrite cells_space_app, cells_space_cons, cells_space_nil. lia. }
    exists r. split_and!; auto. rewrite Ha''. rewrite pg_kind_abs, pg_extra_abs, Ha'. cbn [a_kind a_extra a_cells].
    by rewrite <- app_assoc.
Qed.

Lemma build_page_spec k x cells :
  u32 x -> cells_ok cells -> exists q : P, build_page k x cells = Ok q /\ pg_ok q /\ pg_abs q = APage k x cells.
Proof.
  intros Hx [Hsp Hb]. unfold build_page. destruct (pg_new_spec k) as (Hok & Ha).
  destruct (pg_set_extra_spec (pg_new k) x Hok Hx) as (Hok' & Ha'). rewrite Ha, pg_kind_abs, Ha in Ha'. cbn in Ha'.
  destruct (push_all_spec cells (pg_set_extra (pg_new k) x)) as (q & Hq & Hokq & Haq); auto.
  { rewrite Ha'. cbn [a_cells]. rewrite cells_space_nil. lia. }
  exists q. split_and!; auto. rewrite Haq, pg_kind_abs, pg_extra_abs, Ha'. done.
Qed.

Lemma build_leaf kvs :
  kv_sorted kvs -> Forall legal_kv kvs -> cells_space (map kv_cell kvs) <= PAGE_CAPACITY ->
  exists q : P, build_page Leaf 0 (map kv_cell kvs) = Ok q /\ leaf_page q kvs.
Proof.
  intros Hs Hl Hsp. destruct (build_page_spec Leaf 0 (map kv_cell kvs)) as (q & Hq & Hok & Ha); [lia| |].
  { split; [done|]. eapply map_bytes; [|exact Hl]. apply kv_cell_bytes. }
  exists q. split; [done|]. by eapply leaf_page_ok.
Qed.

Lemma build_branch x cs :
  u32 x -> Forall legal_sep cs -> cells_space (map sep_cell cs) <= PAGE_CAPACITY ->
  exists q : P, build_page Branch x (map sep_cell cs) = Ok q /\ branch_page q cs /\ pg_extra q = x.
Proof.
  intros Hx Hl Hsp. destruct (build_page_spec Branch x (map sep_cell cs)) as (q & Hq & Hok & Ha); [done| |].
  { split; [done|]. eapply map_bytes; [|exact Hl]. apply sep_cell_bytes. }
  exists q. split; [done|]. by eapply branch_page_ok.
Qed.
End build.
