(* ===== verification/BTreeRead.v ===== *)
(** * Reading a B+tree: lookups, seeks and range scans

    On pages that represent [kvs] ([BTreeRep.v]) the lookups of [BTree.v]
    return what the sorted list says, and leave the tree's state as it was:
    [get_at] is [kv_get], [seek_at] is [kv_seek], and a range scan visits
    exactly the listed entries in order and terminates. *)

From Stdlib Require Import ZArith Lia Sorted.
From stdpp Require Import base tactics list option gmap.
From S2P Require Import Prelude Binary Page PageSpec BTree BTreeCells BTreeRep.

Local Open Scope key_scope.

Section monad.
Context {P : Type} `{PageImpl P}.

Lemma bind_ok {A B} (c : M P A) (f : A -> M P B) t a t' : c t = (Ok a, t') -> (c ≫= f) t = f a t'.
Proof. intros E. unfold mbind, M_bind. by rewrite E. Qed.

(** The pages a read finds: those below the page count. *)
Definition visible (t : tree_state P) : gmap Z P := filter (fun x => (x.1 < page_count t)%Z) (store t).

Lemma visible_spec (t : tree_state P) id p : visible t !! id = Some p <-> store t !! id = Some p /\ (id < page_count t)%Z.
Proof. unfold visible. by rewrite map_lookup_filter_Some. Qed.

Lemma visible_below (t : tree_state P) id : (id < page_count t)%Z -> visible t !! id = store t !! id.
Proof. intros Hid. apply option_eq. intros p. rewrite visible_spec. tauto. Qed.

Lemma rep_visible h (t : tree_state P) lo hi id kvs fp :
  Forall (fun x => x < page_count t)%Z fp -> rep h (store t) lo hi id kvs fp -> rep h (visible t) lo hi id kvs fp.
Proof. intros Hf. apply rep_store. intros x Hx. apply visible_below. by eapply Forall_forall in Hf. Qed.

Lemma read_ok (t : tree_state P) id p : visible t !! id = Some p -> pager_read id t = (Ok p, t).
Proof. intros [E Hid]%visible_spec. unfold pager_read. destruct (Z.leb_spec (page_count t) id); [lia|]. by rewrite E. Qed.
End monad.

Section read.
Context {P : Type} `{PageImpl P}.
Implicit Type t : tree_state P.

(** ** Lookups *)

Lemma descend_spec h t lo hi id kvs fp key fuel :
  rep h (visible t) lo hi id kvs fp -> in_range lo hi key -> h < fuel ->
  exists leaf p l1 l l2, descend fuel id key t = (Ok leaf, t) /\ visible t !! leaf = Some p /\ leaf_page p l /\
    kvs = l1 ++ l ++ l2 /\ keys_below key l1 /\ keys_above key l2.
Proof.
  revert h lo hi id kvs fp. induction fuel as [|fuel IH]; intros h lo hi id kvs fp Hrep Hin Hf; [lia|]. cbn [descend].
  destruct h as [|h].
  - destruct Hrep as (p & Hp & Hlp & Hr & ->). rewrite (bind_ok _ _ _ _ _ (read_ok _ _ _ Hp)).
    pose proof Hlp as (_ & -> & _). exists id, p, [], kvs, []. rewrite app_nil_r. split_and!; auto; constructor.
  - apply rep_S in Hrep as (p & cs & f & Hp & Hbp & -> & Hs). rewrite (bind_ok _ _ _ _ _ (read_ok _ _ _ Hp)).
    pose proof Hbp as (_ & -> & _).
    destruct (branch_child_for_spec p cs key Hbp) as (slot & -> & Hslot & Hle & Hlt). cbn [snd].
    destruct (segs_focus _ _ _ _ _ _ _ _ (child_rep_facts h (visible t)) Hs Hslot)
      as (lo' & hi' & l1 & l & l2 & f1 & f' & f2 & -> & -> & [Hc _] & Hb & Ha & Hrange & _).
    specialize (Hrange key Hin Hle Hlt).
    destruct (IH h lo' hi' _ l f' Hc Hrange ltac:(lia)) as (leaf & q & m1 & m & m2 & Hd & Hq & Hlq & -> & Hm1 & Hm2).
    exists leaf, q, (l1 ++ m1), m, (m2 ++ l2). rewrite !app_assoc. split_and!; auto; apply Forall_app; split; auto.
    + destruct Hrange. by eapply kvs_below_key.
    + destruct Hrange. by eapply kvs_above_key.
Qed.

Lemma get_at_spec h t id kvs fp key :
  rep h (visible t) None None id kvs fp -> h < MAX_TREE_DEPTH ->
  get_at id key t = (Ok (kv_get key kvs), t).
Proof.
  intros Hrep Hh. destruct (descend_spec _ _ _ _ _ _ _ key _ Hrep ltac:(done) Hh)
    as (leaf & p & l1 & l & l2 & Hd & Hp & Hlp & -> & Hb & Ha).
  unfold get_at. rewrite (bind_ok _ _ _ _ _ Hd), (bind_ok _ _ _ _ _ (read_ok _ _ _ Hp)).
  rewrite kv_get_ctx by done. pose proof (leaf_search_spec _ _ key Hlp) as Hpos.
  rewrite (position_get _ _ _ Hpos). destruct (leaf_search p key) as [i [|]]; [|done]. cbn [fst snd].
  rewrite (leaf_lookup _ _ _ Hlp). destruct Hlp as (_ & _ & _ & _ & Hl).
  destruct (l !! i) as [e|] eqn:E; [|done]. cbn. by rewrite kv_cell_value by (by eapply Forall_lookup in Hl).
Qed.

(** A read through a snapshot leaves the state as it was. *)
Definition readers_ok t : Prop := forall g n, readers t !! g = Some n -> 0 < n.

Lemma with_snapshot_spec {A} (read : Z -> M P A) t v :
  readers_ok t -> (forall rd, read (root t) (set_readers t rd) = (v, set_readers t rd)) ->
  with_snapshot read t = (v, t).
Proof.
  intros Hok Hread. unfold with_snapshot, snapshot, get_state, modify, mbind, M_bind, mret, M_ret.
  rewrite Hread. f_equal. unfold release_snapshot, modify. cbn [snd readers set_readers].
  rewrite lookup_insert_eq. destruct (readers t !! generation t) as [n|] eqn:E; cbn [default Nat.sub].
  - pose proof (Hok _ _ E). cbn [id]. rewrite Nat.sub_0_r. destruct (n =? 0) eqn:En; breflect; [lia|].
    unfold set_readers. cbn. rewrite insert_insert_eq, insert_id by done. by destruct t.
  - cbn. unfold set_readers. cbn. rewrite delete_insert_id by done. by destruct t.
Qed.

Lemma get_spec h t kvs fp key :
  rep h (visible t) None None (root t) kvs fp -> h < MAX_TREE_DEPTH -> readers_ok t ->
  get key t = (Ok (kv_get key kvs), t).
Proof.
  intros Hrep Hh Hok. apply with_snapshot_spec; [done|]. intros rd. by eapply (get_at_spec h (set_readers t rd)).
Qed.

(** ** The first and last entries of a subtree *)

Lemma edge_entry_spec h t lo hi id kvs fp first fuel :
  rep h (visible t) lo hi id kvs fp -> h < fuel ->
  edge_entry_at fuel id first t = (Ok (if first then head kvs else last kvs), t).
Proof.
  revert h lo hi id kvs fp. induction fuel as [|fuel IH]; intros h lo hi id kvs fp Hrep Hf; [lia|]. cbn [edge_entry_at].
  destruct h as [|h].
  - destruct Hrep as (p & Hp & Hlp & Hr & ->). rewrite (bind_ok _ _ _ _ _ (read_ok _ _ _ Hp)).
    pose proof Hlp as (_ & -> & _ & _ & Hl). rewrite (leaf_slots _ _ Hlp).
    destruct (length kvs =? 0) eqn:E; breflect; [apply nil_length_inv in E as ->; by destruct first|].
    rewrite (leaf_lookup _ _ _ Hlp). unfold mret, M_ret. do 2 f_equal.
    assert (forall i, entry_of <$> (kv_cell <$> kvs !! i) = kvs !! i) as Hent.
    { intros i. destruct (kvs !! i) as [e|] eqn:Ei; [|done]. cbn. unfold entry_of.
      assert (legal_kv e) by (by eapply Forall_lookup in Hl). rewrite kv_cell_key, kv_cell_value by done. by destruct e. }
    destruct first; rewrite Hent; [by rewrite head_lookup|]. rewrite last_lookup. f_equal. lia.
  - apply rep_S in Hrep as (p & cs & f & Hp & Hbp & -> & Hs). rewrite (bind_ok _ _ _ _ _ (read_ok _ _ _ Hp)).
    pose proof Hbp as (_ & -> & _). rewrite (branch_slots _ _ Hbp). cbn [seq map first_entry].
    rewrite branch_child_at_spec with (cs := cs) by (done || destruct first; lia).
    destruct first.
    + apply segs_head in Hs as (hi' & l & l2 & g & g2 & -> & -> & [Hc Hne] & _). cbn [child_at].
      rewrite (bind_ok _ _ _ _ _ (IH _ _ _ _ _ _ Hc ltac:(lia))). destruct l as [|e l]; [done|]. done.
    + apply segs_last in Hs as (lo' & l & l2 & g & -> & [Hc Hne]).
      replace (S (length cs) - 1 - 0) with (length cs) by lia.
      rewrite (bind_ok _ _ _ _ _ (IH _ _ _ _ _ _ Hc ltac:(lia))). rewrite last_app.
      apply last_is_Some in Hne as [e ->]. done.
Qed.

(** ** Seeking *)

(** The branches passed on the way down, and the entries left and right of the path. *)
Inductive path_ctx (s : gmap Z P) : list (Z * nat) -> list kv -> list kv -> Prop :=
| path_nil : path_ctx s [] [] []
| path_cons id slot path p cs h l1 r1 l r :
    path_ctx s path l r -> s !! id = Some p -> branch_page p cs -> slot <= length cs -> h < MAX_TREE_DEPTH ->
    left_neighbour (child_rep h s) (pg_extra p) cs slot l1 ->
    right_neighbour (child_rep h s) (pg_extra p) cs slot r1 ->
    path_ctx s ((id, slot) :: path) (l ++ l1) (r1 ++ r).

Lemma seek_back_spec t fwd path l r :
  path_ctx (visible t) path l r -> seek_back fwd path t = (Ok (if fwd then head r else last l), t).
Proof.
  induction 1 as [|id slot path p cs h l1 r1 l r Hctx IH Hp Hbp Hslot Hh Hl Hr]; cbn [seek_back]; [by destruct fwd|].
  rewrite (bind_ok _ _ _ _ _ (read_ok _ _ _ Hp)). rewrite (branch_slots _ _ Hbp). destruct fwd.
  - unfold right_neighbour in Hr. destruct (slot <? length cs) eqn:E; breflect; [|by subst].
    destruct Hr as (lo & hi & la & lb & f & -> & [Hc Hne]).
    rewrite branch_child_at_spec with (cs := cs) by (done || lia). rewrite Nat.add_1_r. unfold edge_entry.
    rewrite (bind_ok _ _ _ _ _ (edge_entry_spec _ _ _ _ _ _ _ true _ Hc Hh)). by destruct la.
  - destruct slot as [|i]; cbn [left_neighbour Nat.ltb Nat.leb] in *; [subst; by rewrite app_nil_r|].
    destruct Hl as (lo & hi & la & lb & f & -> & [Hc Hne]).
    rewrite branch_child_at_spec with (cs := cs) by (done || lia). replace (S i - 1) with i by lia. unfold edge_entry.
    rewrite (bind_ok _ _ _ _ _ (edge_entry_spec _ _ _ _ _ _ _ false _ Hc Hh)).
    rewrite !last_app. apply last_is_Some in Hne as [e ->]. done.
Qed.

Lemma seek_descend_spec h t lo hi id kvs fp key fuel path l r :
  rep h (visible t) lo hi id kvs fp -> in_range lo hi key -> h < fuel -> fuel <= MAX_TREE_DEPTH ->
  path_ctx (visible t) path l r -> keys_below key l -> keys_above key r ->
  exists p path' l' m r', seek_descend fuel id key path t = (Ok (p, path'), t) /\ leaf_page p m /\
    path_ctx (visible t) path' l' r' /\ l ++ kvs ++ r = l' ++ m ++ r' /\ keys_below key l' /\ keys_above key r'.
Proof.
  revert h lo hi id kvs fp path l r.
  induction fuel as [|fuel IH]; intros h lo hi id kvs fp path l r Hrep Hin Hf Hmax Hctx Hl Hr; [lia|]. cbn [seek_descend].
  destruct h as [|h].
  - destruct Hrep as (p & Hp & Hlp & _ & ->). rewrite (bind_ok _ _ _ _ _ (read_ok _ _ _ Hp)).
    pose proof Hlp as (_ & -> & _). exists p, path, l, kvs, r. by split_and!.
  - apply rep_S in Hrep as (p & cs & f & Hp & Hbp & -> & Hs). rewrite (bind_ok _ _ _ _ _ (read_ok _ _ _ Hp)).
    pose proof Hbp as (_ & -> & _).
    destruct (branch_child_for_spec p cs key Hbp) as (slot & -> & Hslot & Hle & Hlt).
    destruct (segs_focus _ _ _ _ _ _ _ _ (child_rep_facts h (visible t)) Hs Hslot)
      as (lo' & hi' & l1 & m & l2 & f1 & f' & f2 & -> & -> & [Hc _] & Hb & Ha & Hrange & Hln & Hrn & _).
    specialize (Hrange key Hin Hle Hlt). destruct Hrange as [Hlo Hhi].
    destruct (IH h lo' hi' _ m f' ((id, slot) :: path) (l ++ l1) (l2 ++ r) Hc ltac:(by split) ltac:(lia) ltac:(lia))
      as (q & path' & l' & m' & r' & Hd & Hlq & Hctx' & Heq & Hl' & Hr').
    + apply (path_cons _ _ _ _ p cs h); auto. lia.
    + apply Forall_app. split; [done|]. by eapply kvs_below_key.
    + apply Forall_app. split; [|done]. by eapply kvs_above_key.
    + exists q, path', l', m', r'. split_and!; auto. rewrite <- Heq. by rewrite <- !app_assoc.
Qed.

(** A seek on a list cut at the key, the key itself on the right or on the left. *)
Lemma kv_seek_right a b k :
  keys_below k a -> Forall (fun e : kv => k ≼ e.1) b ->
  kv_seek Ge_ k (a ++ b) = head b /\ kv_seek Lt_ k (a ++ b) = last a.
Proof.
  intros Ha Hb. unfold kv_seek. rewrite !filter_app. split.
  - rewrite filter_none, filter_all; [done|..].
    + eapply Forall_impl; [exact Hb|]. intros e He. by apply lex_not_lt.
    + eapply Forall_impl; [exact Ha|]. cbn. tauto.
  - rewrite filter_all by exact Ha. rewrite filter_none, app_nil_r; [done|].
    eapply Forall_impl; [exact Hb|]. intros e He. by apply lex_not_lt.
Qed.

Lemma kv_seek_left a b k :
  Forall (fun e : kv => e.1 ≼ k) a -> keys_above k b ->
  kv_seek Gt_ k (a ++ b) = head b /\ kv_seek Le_ k (a ++ b) = last a.
Proof.
  intros Ha Hb. unfold kv_seek. rewrite !filter_app. split.
  - rewrite filter_none, filter_all; [done|exact Hb|].
    eapply Forall_impl; [exact Ha|]. intros e He. by apply lex_not_lt.
  - rewrite filter_all; [rewrite filter_none, app_nil_r; [done|]|].
    + eapply Forall_impl; [exact Hb|]. cbn. tauto.
    + eapply Forall_impl; [exact Ha|]. intros e He. by apply lex_not_lt.
Qed.

Lemma keys_below_le k l : keys_below k l -> Forall (fun e : kv => e.1 ≼ k) l.
Proof. intros Hl. eapply Forall_impl; [exact Hl|]. intros. by apply lex_lt_le. Qed.

Lemma keys_above_le k l : keys_above k l -> Forall (fun e : kv => k ≼ e.1) l.
Proof. intros Hl. eapply Forall_impl; [exact Hl|]. intros. by apply lex_lt_le. Qed.

Lemma take_snoc {A} (l : list A) i x : l !! i = Some x -> last (take (S i) l) = Some x.
Proof. intros Hx. by rewrite (take_S_r _ _ _ Hx), last_snoc. Qed.

(** What the leaf answers, by the position of the key in it. *)
Definition seek_slot (mode : seek_mode) (m : list kv) (l r : list kv) (r_ : nat * bool) : option kv :=
  let '(i, found) := r_ in
  if forward mode then head (drop (if found && bool_decide (mode = Gt_) then S i else i) m ++ r)
  else last (l ++ take (if found && bool_decide (mode = Le_) then S i else i) m).

Lemma seek_slot_spec mode key l m r pos :
  keys_below key l -> keys_above key r -> position m key pos ->
  kv_seek mode key (l ++ m ++ r) = seek_slot mode m l r pos.
Proof.
  intros Hl Hr. destruct pos as [i [|]]; intros (Hi & Hb & Hpos); cbn [fst snd] in *.
  - destruct Hpos as (v & Hv & Ha).
    assert (l ++ m ++ r = (l ++ take i m) ++ (drop i m ++ r)) as E1 by (by rewrite <- app_assoc, (app_assoc (take i m)), take_drop).
    assert (l ++ m ++ r = (l ++ take (S i) m) ++ (drop (S i) m ++ r)) as E2
      by (by rewrite <- app_assoc, (app_assoc (take (S i) m)), take_drop).
    destruct (kv_seek_right (l ++ take i m) (drop i m ++ r) key) as [Hge Hlt].
    { by apply Forall_app. }
    { rewrite (drop_S _ _ _ Hv). constructor; [apply lex_le_refl|]. apply Forall_app. auto using keys_above_le. }
    destruct (kv_seek_left (l ++ take (S i) m) (drop (S i) m ++ r) key) as [Hgt Hle].
    { rewrite (take_S_r _ _ _ Hv). rewrite !Forall_app. split_and!; auto using keys_below_le. constructor; [apply lex_le_refl|done]. }
    { by apply Forall_app. }
    destruct mode; cbn; [by rewrite E1|by rewrite E2|by rewrite E2|by rewrite E1].
  - assert (l ++ m ++ r = (l ++ take i m) ++ (drop i m ++ r)) as E1 by (by rewrite <- app_assoc, (app_assoc (take i m)), take_drop).
    assert (keys_below key (l ++ take i m)) by (by apply Forall_app).
    assert (keys_above key (drop i m ++ r)) by (by apply Forall_app).
    destruct (kv_seek_right (l ++ take i m) (drop i m ++ r) key) as [Hge Hlt]; auto using keys_above_le.
    destruct (kv_seek_left (l ++ take i m) (drop i m ++ r) key) as [Hgt Hle]; auto using keys_below_le.
    rewrite E1. by destruct mode; cbn.
Qed.

(** The code's candidate slot is that answer when the leaf has it. *)
Lemma seek_candidate_spec mode m l r (p : P) key pos :
  leaf_page p m -> position m key pos ->
  match seek_candidate p mode pos.1 pos.2 with
  | Some slot => exists e, m !! slot = Some e /\ seek_slot mode m l r pos = Some e
  | None => seek_slot mode m l r pos = if forward mode then head r else last l
  end.
Proof.
  intros Hp. destruct pos as [i found]. intros (Hi & Hb & Hpos). unfold seek_candidate, seek_slot. cbn [fst snd] in *.
  rewrite (leaf_slots _ _ Hp). destruct (forward mode) eqn:Efw.
  - set (start := if found && bool_decide (mode = Gt_) then S i else i). case_goal; breflect.
    + destruct (lookup_lt_is_Some_2 m start) as [e He]; [lia|]. exists e. split; [done|]. by rewrite (drop_S _ _ _ He).
    + by rewrite drop_ge by lia.
  - destruct (found && bool_decide (mode = Le_)) eqn:Ef.
    + apply andb_prop in Ef as [-> _]. destruct Hpos as (v & Hv & _). exists (key, v). split; [done|].
      by rewrite last_app, (take_snoc _ _ _ Hv).
    + destruct i as [|i]; [by rewrite take_0, app_nil_r|]. cbn [Nat.ltb Nat.leb]. replace (S i - 1) with i by lia.
      destruct (lookup_lt_is_Some_2 m i) as [e He]; [lia|]. exists e. split; [done|].
      by rewrite last_app, (take_snoc _ _ _ He).
Qed.

Lemma leaf_entry (p : P) m i e : leaf_page p m -> m !! i = Some e -> entry_of (kv_cell e) = e.
Proof.
  intros (_ & _ & _ & _ & Hl) He. assert (legal_kv e) by (by eapply Forall_lookup in Hl).
  unfold entry_of. rewrite kv_cell_key, kv_cell_value by done. by destruct e.
Qed.

Lemma seek_at_spec h t id kvs fp key mode :
  rep h (visible t) None None id kvs fp -> h < MAX_TREE_DEPTH ->
  seek_at id key mode t = (Ok (kv_seek mode key kvs), t).
Proof.
  intros Hrep Hh.
  destruct (seek_descend_spec _ _ _ _ _ _ _ key _ [] [] [] Hrep ltac:(done) Hh ltac:(lia) (path_nil _) ltac:(constructor)
    ltac:(constructor)) as (p & path & l & m & r & Hd & Hlp & Hctx & Heq & Hl & Hr).
  rewrite app_nil_r in Heq. cbn [app] in Heq. subst kvs. unfold seek_at. rewrite (bind_ok _ _ _ _ _ Hd).
  pose proof (leaf_search_spec _ _ key Hlp) as Hpos. rewrite (seek_slot_spec _ _ _ _ _ _ Hl Hr Hpos).
  pose proof (seek_candidate_spec mode m l r p key _ Hlp Hpos) as Hc.
  destruct (leaf_search p key) as [i found]. cbn [fst snd] in *. destruct (seek_candidate p mode i found) as [slot|].
  - destruct Hc as (e & He & ->). rewrite (leaf_lookup _ _ _ Hlp), He. cbn [fmap option_fmap option_map].
    by rewrite (leaf_entry _ _ _ _ Hlp He).
  - rewrite (seek_back_spec _ _ _ _ _ Hctx). by rewrite Hc.
Qed.
End read.

(** ** Range scans *)

(** The visitor applied to a list of entries, stopping where it says so. *)
Fixpoint visit_all {S_ : Type} (visit : S_ -> list Z -> list Z -> result error_kind bool * S_) (s : S_) (l : list kv) :
    result error_kind unit * S_ :=
  match l with
  | [] => (Ok tt, s)
  | (k, v) :: l =>
      match visit s k v with
      | (Err e, s) => (Err e, s)
      | (Ok false, s) => (Ok tt, s)
      | (Ok true, s) => visit_all visit s l
      end
  end.

(** The entries a scan is meant to visit, in its order. *)
Definition past_cursor (reverse_ : bool) (cursor : option (list Z)) (k : list Z) : Prop :=
  match cursor with None => True | Some c => if reverse_ then k ≺ c else c ≺ k end.

#[export] Instance past_cursor_dec r c k : Decision (past_cursor r c k).
Proof. unfold past_cursor. destruct c, r; apply _. Defined.

Definition range_entries (prefix : list Z) (cursor : option (list Z)) (reverse_ : bool) (kvs : list kv) : list kv :=
  let l := filter (fun e => starts_with e.1 prefix = true /\ past_cursor reverse_ cursor e.1) kvs in
  if reverse_ then reverse l else l.

Section range.
Context {P : Type} `{PageImpl P} {S_ : Type} (visit : S_ -> list Z -> list Z -> result error_kind bool * S_).
Context (h : nat) (t : tree_state P) (root_ : Z) (kvs : list kv) (fp : list Z).
Context (Hrep : rep h (visible t) None None root_ kvs fp) (Hh : h < MAX_TREE_DEPTH).

Fixpoint take_while (prefix : list Z) (l : list kv) : list kv :=
  match l with
  | [] => []
  | e :: l => if starts_with e.1 prefix then e :: take_while prefix l else []
  end.

(** The scan visits what [range_next] yields, as long as it has the prefix. *)
Lemma range_loop (I : list kv -> Prop) prefix reverse_ :
  (forall e rest, I (e :: rest) -> range_next root_ prefix reverse_ (Some e.1) t = (Ok (head rest), t) /\ I rest) ->
  forall rest fuel cursor s, I rest -> length rest < fuel ->
  range_next root_ prefix reverse_ cursor t = (Ok (head rest), t) ->
  for_each_range_at visit fuel root_ prefix cursor reverse_ s t =
    (Ok (Some (visit_all visit s (take_while prefix rest))), t).
Proof.
  intros Hstep. induction rest as [|[k v] rest IH]; intros fuel cursor s HI Hf Hn;
    (destruct fuel as [|fuel]; [lia|]); cbn [for_each_range_at]; rewrite (bind_ok _ _ _ _ _ Hn); cbn [head]; [done|].
  cbn [take_while fst]. destruct (starts_with k prefix); [|done]. cbn [visit_all].
  destruct (visit s k v) as [[[|]|e] s']; try done.
  destruct (Hstep _ _ HI) as [Hn' HI']. apply IH; auto. cbn in Hf. lia.
Qed.

Lemma forward_step A e rest prefix :
  kvs = A ++ e :: rest -> range_next root_ prefix false (Some e.1) t = (Ok (head rest), t).
Proof.
  intros E. unfold range_next. rewrite (seek_at_spec _ _ _ _ _ _ _ Hrep Hh). do 2 f_equal.
  destruct (rep_facts _ _ _ _ _ _ _ Hrep) as (Hs & _ & _). rewrite E in Hs |- *.
  rewrite cons_middle, app_assoc in Hs |- *. apply sorted_app_inv in Hs as (Hs1 & _ & Hlt).
  apply sorted_app_inv in Hs1 as (_ & _ & Hlt1). apply kv_seek_left.
  - apply Forall_app. split; [|constructor; [apply lex_le_refl|done]]. apply Forall_forall. intros a Ha.
    apply lex_lt_le, Hlt1; [done|by apply list_elem_of_singleton].
  - apply Forall_forall. intros b Hb. apply Hlt; [|done]. apply elem_of_app. right. by apply list_elem_of_singleton.
Qed.

Lemma reverse_step B e rest prefix :
  kvs = reverse (e :: rest) ++ B -> range_next root_ prefix true (Some e.1) t = (Ok (head rest), t).
Proof.
  intros E. unfold range_next. rewrite (seek_at_spec _ _ _ _ _ _ _ Hrep Hh). do 2 f_equal.
  destruct (rep_facts _ _ _ _ _ _ _ Hrep) as (Hs & _ & _).
  rewrite E, reverse_cons, <- app_assoc in Hs |- *. cbn [app] in *. apply sorted_app_inv in Hs as (_ & Hs & Hlt).
  replace (head rest) with (last (reverse rest)) by apply last_reverse. apply kv_seek_right.
  - apply Forall_forall. intros a Ha. apply Hlt; [done|by apply elem_of_cons; left].
  - inversion Hs as [|? ? _ Hf]; subst. constructor; [apply lex_le_refl|]. eapply Forall_impl; [exact Hf|].
    intros. by apply lex_lt_le.
Qed.

(** A list whose prefixed entries come first is cut where they end. *)
Lemma take_while_filter prefix l :
  (forall l1 e l2, l = l1 ++ e :: l2 -> starts_with e.1 prefix = true -> Forall (fun e => starts_with e.1 prefix = true) l1) ->
  take_while prefix l = filter (fun e => starts_with e.1 prefix = true) l.
Proof.
  induction l as [|e l IH]; intros Hc; [done|]. cbn [take_while]. destruct (starts_with e.1 prefix) eqn:E.
  - rewrite filter_cons_True by done. f_equal. apply IH. intros l1 e' l2 -> He'.
    specialize (Hc (e :: l1) e' l2 eq_refl He'). by inversion Hc.
  - rewrite filter_none; [done|]. constructor; [by rewrite E|]. apply Forall_forall. intros e' He' Hs'.
    apply list_elem_of_split in He' as (l1 & l2 & ->). specialize (Hc (e :: l1) e' l2 eq_refl Hs').
    inversion Hc. congruence.
Qed.

(** An upward (downward) closed filter of a sorted list is a suffix (prefix). *)
Lemma filter_suffix (Q : kv -> Prop) `{forall e, Decision (Q e)} (l : list kv) :
  kv_sorted l -> (forall a b, kv_lt a b -> Q a -> Q b) -> exists A, l = A ++ filter Q l.
Proof.
  intros Hs HQ. induction Hs as [|e l Hs [A IH] Hf]; [by exists []|]. rewrite filter_cons. case_decide as Hq.
  - exists []. cbn. f_equal. symmetry. apply filter_all. eapply Forall_impl; [exact Hf|]. intros b Hb. by eapply HQ.
  - exists (e :: A). cbn. by rewrite <- IH.
Qed.

Lemma filter_prefix (Q : kv -> Prop) `{forall e, Decision (Q e)} (l : list kv) :
  kv_sorted l -> (forall a b, kv_lt a b -> Q b -> Q a) -> exists B, l = filter Q l ++ B.
Proof.
  intros Hs HQ. induction Hs as [|e l Hs [B IH] Hf]; [by exists []|]. rewrite filter_cons. case_decide as Hq.
  - exists B. cbn. by rewrite <- IH.
  - exists (e :: l). rewrite filter_none; [done|]. eapply Forall_impl; [exact Hf|]. intros b Hb Hb'. apply Hq. by eapply HQ.
Qed.

Definition cursor_ok (prefix : list Z) (cursor : option (list Z)) : Prop :=
  forall c, cursor = Some c -> bytes c /\ starts_with c prefix = true.

Lemma kvs_bytes : Forall (fun e : kv => bytes e.1) kvs.
Proof.
  destruct (rep_facts _ _ _ _ _ _ _ Hrep) as (_ & _ & Hl). eapply Forall_impl; [exact Hl|]. by intros e ((_ & ?) & _).
Qed.

(** Between two entries, or an entry and the end of the prefix, the prefix holds. *)
Lemma starts_with_between prefix a b :
  bytes a -> bytes b -> prefix ≼ a -> a ≼ b -> starts_with b prefix = true -> starts_with a prefix = true.
Proof.
  intros Ha Hb Hle Hab Hsb. apply (prefix_upper_bound_spec prefix b Hb) in Hsb as [_ Hbound].
  apply (prefix_upper_bound_spec prefix a Ha). split; [done|].
  destruct (prefix_upper_bound prefix); [|done]. by eapply lex_le_lt_trans.
Qed.

Lemma forward_entries prefix cursor :
  cursor_ok prefix cursor ->
  exists A rest, kvs = A ++ rest /\ range_next root_ prefix false cursor t = (Ok (head rest), t) /\
    take_while prefix rest = range_entries prefix cursor false kvs.
Proof.
  intros Hc. destruct (rep_facts _ _ _ _ _ _ _ Hrep) as (Hs & _ & _).
  pose (Q := fun e : kv => match cursor with Some c => c ≺ e.1 | None => ~ e.1 ≺ prefix end).
  assert (forall e, Decision (Q e)) as HQ by (intros e; subst Q; destruct cursor; apply _).
  assert (forall e, Q e -> prefix ≼ e.1) as Hlow.
  { intros e. subst Q. cbn. destruct cursor as [c|]; [|intros He; by apply lex_not_lt]. intros He.
    destruct (Hc c eq_refl) as [_ [r ->]%starts_with_spec]. eapply lex_le_trans; [apply lex_prefix_le|by apply lex_lt_le]. }
  destruct (filter_suffix Q kvs Hs) as [A HA].
  { intros a b Hab. subst Q. cbn. unfold kv_lt in Hab. destruct cursor as [c|]; [intros; by etransitivity|].
    intros Hn Hb. apply Hn. by etransitivity. }
  exists A, (filter Q kvs). split_and!; [done|..].
  - unfold range_next. subst Q. destruct cursor as [c|]; rewrite (seek_at_spec _ _ _ _ _ _ _ Hrep Hh); cbn [kv_seek];
      do 3 f_equal; by apply list_filter_iff.
  - rewrite take_while_filter.
    + rewrite list_filter_filter. unfold range_entries. apply list_filter_iff. intros e. subst Q. cbn.
      destruct cursor as [c|]; cbn; [done|]. split; [by intros [? _]|]. intros [Hst _]. split; [done|].
      apply lex_not_lt. apply starts_with_spec in Hst as [r ->]. apply lex_prefix_le.
    + intros l1 e l2 E He. pose proof kvs_bytes as Hby. apply Forall_forall. intros a Ha.
      assert (kv_sorted (filter Q kvs)) as Hsf by (rewrite HA in Hs; by apply sorted_app_inv in Hs as (_ & ? & _)).
      assert (forall x, x ∈ filter Q kvs -> Q x /\ bytes x.1) as Hin.
      { intros x [? Hx]%list_elem_of_filter. split; [done|]. by eapply Forall_forall in Hby. }
      assert (a ∈ filter Q kvs) as Ha' by (rewrite E; apply elem_of_app; auto).
      assert (e ∈ filter Q kvs) as He' by (rewrite E; apply elem_of_app; right; by apply elem_of_cons; left).
      destruct (Hin _ Ha') as [? ?], (Hin _ He') as [? ?]. apply (starts_with_between prefix a.1 e.1); auto.
      rewrite E in Hsf. apply sorted_app_inv in Hsf as (_ & _ & Hlt). apply lex_lt_le, Hlt; [done|by apply elem_of_cons; left].
Qed.

Lemma reverse_entries prefix cursor :
  cursor_ok prefix cursor ->
  exists B rest, kvs = reverse rest ++ B /\ range_next root_ prefix true cursor t = (Ok (head rest), t) /\
    take_while prefix rest = range_entries prefix cursor true kvs.
Proof.
  intros Hc. destruct (rep_facts _ _ _ _ _ _ _ Hrep) as (Hs & _ & _).
  pose (Q := fun e : kv => match cursor with
    | Some c => e.1 ≺ c
    | None => match prefix_upper_bound prefix with Some b => e.1 ≺ b | None => True end end).
  assert (forall e, Decision (Q e)) as HQ.
  { intros e; subst Q; cbn. destruct cursor; [|destruct (prefix_upper_bound prefix)]; apply _. }
  assert (forall e, bytes e.1 -> Q e -> prefix ≼ e.1 -> starts_with e.1 prefix = true) as Hup.
  { intros e Hb. subst Q. cbn. intros He Hle. apply prefix_upper_bound_spec; [done|]. split; [done|].
    destruct cursor as [c|]; [|done]. destruct (Hc c eq_refl) as [Hbc Hsc].
    apply (prefix_upper_bound_spec prefix c Hbc) in Hsc as [_ Hsc]. destruct (prefix_upper_bound prefix); [|done].
    by etransitivity. }
  destruct (filter_prefix Q kvs Hs) as [B HB].
  { intros a b Hab. subst Q. cbn. unfold kv_lt in Hab. destruct cursor as [c|]; [intros; by etransitivity|].
    destruct (prefix_upper_bound prefix); [|done]. intros; by etransitivity. }
  exists B, (reverse (filter Q kvs)). rewrite reverse_involutive. split_and!; [done|..].
  - unfold range_next. rewrite head_reverse. subst Q. destruct cursor as [c|]; [|destruct (prefix_upper_bound prefix) as [b|]].
    1-2: rewrite (seek_at_spec _ _ _ _ _ _ _ Hrep Hh); cbn [kv_seek]; do 3 f_equal; by apply list_filter_iff.
    unfold edge_entry. rewrite (edge_entry_spec _ _ _ _ _ _ _ false _ Hrep Hh). do 3 f_equal. symmetry. apply filter_all.
    by apply Forall_forall.
  - pose proof kvs_bytes as Hby. rewrite take_while_filter.
    + rewrite filter_reverse, list_filter_filter. unfold range_entries. f_equal.
      enough (forall e, e ∈ kvs -> starts_with e.1 prefix = true /\ Q e <-> starts_with e.1 prefix = true /\ past_cursor true cursor e.1) as Hiff.
      { clear -Hiff. induction kvs as [|e l IH]; [done|]. rewrite !filter_cons. pose proof (Hiff e ltac:(by apply elem_of_cons; left)).
        rewrite IH by (intros; apply Hiff; by apply elem_of_cons; right). do 2 case_decide; tauto. }
      intros e He. eapply Forall_forall in Hby; [|exact He]. subst Q. cbn. destruct cursor as [c|]; cbn; [done|].
      split; [by intros [? _]|]. intros [Hst _]. split; [done|].
      by apply (prefix_upper_bound_spec prefix e.1 Hby) in Hst as [_ ?].
    + intros l1 e l2 E He. apply Forall_forall. intros a Ha.
      assert (filter Q kvs = reverse l2 ++ e :: reverse l1) as E'.
      { rewrite <- (reverse_involutive (filter Q kvs)), E. by rewrite reverse_app, reverse_cons, <- app_assoc. }
      assert (kv_sorted (filter Q kvs)) as Hsf by (rewrite HB in Hs; by apply sorted_app_inv in Hs as (? & _ & _)).
      assert (a ∈ filter Q kvs) as Ha' by (rewrite E'; apply elem_of_app; right; apply elem_of_cons; right; by apply elem_of_reverse).
      apply list_elem_of_filter in Ha' as [HQa Hak]. eapply Forall_forall in Hby; [|exact Hak].
      apply Hup; auto. apply starts_with_spec in He as [r He]. eapply lex_le_trans; [apply (lex_prefix_le _ r)|].
      rewrite <- He. rewrite E' in Hsf. apply sorted_app_inv in Hsf as (_ & Hsf & _). inversion Hsf as [|? ? _ Hf]; subst.
      apply lex_lt_le. rewrite Forall_forall in Hf. apply Hf. by apply elem_of_reverse.
Qed.

Lemma for_each_range_spec prefix cursor reverse_ s fuel :
  cursor_ok prefix cursor -> length kvs < fuel ->
  for_each_range_at visit fuel root_ prefix cursor reverse_ s t =
    (Ok (Some (visit_all visit s (range_entries prefix cursor reverse_ kvs))), t).
Proof.
  intros Hc Hf. destruct reverse_.
  - destruct (reverse_entries prefix cursor Hc) as (B & rest & E & Hn & <-).
    eapply (range_loop (fun rest => exists B, kvs = reverse rest ++ B)); eauto.
    + intros e rest' [B' E']. split; [by eapply reverse_step|]. exists (e :: B'). by rewrite E', reverse_cons, <- app_assoc.
    + apply (f_equal length) in E. rewrite length_app, length_reverse in E. lia.
  - destruct (forward_entries prefix cursor Hc) as (A & rest & E & Hn & <-).
    eapply (range_loop (fun rest => exists A, kvs = A ++ rest)); eauto.
    + intros e rest' [A' E']. split; [by eapply forward_step|]. exists (A' ++ [e]). by rewrite <- app_assoc.
    + apply (f_equal length) in E. rewrite length_app in E. lia.
Qed.
End range.
