(* ===== verification/BTreeOwn.v ===== *)
(** * Page ownership in the B+tree: allocation, release and copy-on-write

    [wf t own] says that the pages [own] (those of the tree being worked on)
    and the pages of the free list are distinct data pages of the file.
    [shielded t g v] says that the pages [v] of an earlier generation [g] are
    protected: none is dirty, and none can be handed out by [allocate], either
    because the generation is one of the two last committed ones or because a
    reader is pinned at or below it.  [evolves t t'] is what every step of a
    write does: it leaves each clean page as it was and keeps every shield.
    The allocation primitives of [BTree.v] keep all of this. *)

From Stdlib Require Import ZArith Lia Sorted.
From stdpp Require Import base tactics list option gmap.
From S2P Require Import Prelude Binary Page PageSpec BTree BTreeCells BTreeRep BTreeRead.

Local Open Scope Z_scope.

Lemma swap_remove_perm {A} (l : list A) i x : l !! i = Some x -> x :: swap_remove l i ≡ₚ l.
Proof.
  intros Hi. unfold swap_remove. destruct (last l) as [y|] eqn:E.
  2: { apply last_None in E as ->. done. }
  apply last_Some in E as [l' ->]. rewrite length_app. cbn [length]. replace (length l' + 1 - 1)%nat with (length l') by lia.
  destruct (decide (i < length l')%nat) as [Hlt|Hge].
  - rewrite lookup_app_l in Hi by done. rewrite insert_app_l by done.
    rewrite take_app_le by (by rewrite length_insert). rewrite take_ge by (by rewrite length_insert).
    rewrite insert_take_drop by done. rewrite <- (take_drop_middle _ _ _ Hi) at 3. solve_Permutation.
  - assert (i = length l') as -> by (apply lookup_lt_Some in Hi; rewrite length_app in Hi; cbn in Hi; lia).
    rewrite list_lookup_middle in Hi by done. injection Hi as ->.
    rewrite insert_app_r_alt by lia. rewrite Nat.sub_diag. cbn. rewrite take_app_length. solve_Permutation.
Qed.

Lemma length_swap_remove {A} (l : list A) i x : l !! i = Some x -> length (swap_remove l i) = (length l - 1)%nat.
Proof. intros Hi. rewrite <- (swap_remove_perm l i x Hi) at 2. cbn. lia. Qed.

Section own.
Context {P : Type} `{PageImpl P}.
Implicit Types (t : tree_state P) (own : list Z).

Definition free_pages t : list Z := map fe_page (free t).

Record wf t own : Prop := Wf {
  wf_nodup : NoDup (free_pages t ++ own);
  wf_range : Forall (fun x => FIRST_DATA_PAGE <= x < page_count t) (free_pages t ++ own);
  wf_count : page_count t < 2 ^ 32;
  wf_free_len : (length (free t) <= MAX_FREE_ENTRIES)%nat;
  wf_free_gen : Forall (fun e => 0 <= fe_generation e <= building t) (free t);
  wf_gen : 0 <= generation t;
  wf_first : FIRST_DATA_PAGE <= page_count t;
}.

#[global] Instance wf_perm t : Proper ((≡ₚ) ==> iff) (wf t).
Proof.
  assert (forall o o', o ≡ₚ o' -> wf t o -> wf t o') as Hone.
  { intros o o' Hp [Hn Hr ? ? ? ? ?]. rewrite Hp in Hn, Hr. by split. }
  intros o o' Hp. split; apply Hone; [done|by symmetry].
Qed.

Lemma wf_page_u32 t own x : wf t own -> x ∈ own -> u32 x.
Proof.
  intros Hwf Hx. pose proof (wf_range _ _ Hwf) as Hr. rewrite Forall_app in Hr. destruct Hr as [_ Hr].
  eapply Forall_forall in Hr; [|exact Hx]. pose proof (wf_count _ _ Hwf). unfold FIRST_DATA_PAGE in Hr. lia.
Qed.

Lemma wf_below t own : wf t own -> Forall (fun x => x < page_count t) own.
Proof. intros Hwf. pose proof (wf_range _ _ Hwf) as Hr. rewrite Forall_app in Hr. eapply Forall_impl; [apply Hr|]. cbn. lia. Qed.

(** The tree's own pages are readable. *)
Lemma read_own t own id p : wf t own -> id ∈ own -> store t !! id = Some p -> pager_read id t = (Ok p, t).
Proof. intros Hwf Hid Hp. apply read_ok, visible_spec. split; [done|]. pose proof (wf_below _ _ Hwf) as Hb. by eapply Forall_forall in Hb. Qed.

(** A shield over the pages [v] of generation [g]. *)
Record shielded t (g : Z) (v : list Z) : Prop := Shielded {
  sh_dirty x : x ∈ v -> x ∉ dirty t;
  sh_free e : e ∈ free t -> fe_page e ∈ v -> g < fe_generation e;
  sh_count x : x ∈ v -> x < page_count t;
  sh_gen : g <= generation t;
  sh_why : generation t - 1 <= g \/ exists g', g' ∈ dom (readers t) /\ g' <= g;
}.

Lemma oldest_reader_le t g : g ∈ dom (readers t) -> exists m, oldest_reader t = Some m /\ m <= g.
Proof.
  intros Hg. apply elem_of_elements in Hg. unfold oldest_reader. destruct (elements (dom (readers t))) as [|x l]; [by apply elem_of_nil in Hg|].
  exists (fold_left Z.min l x). split; [done|].
  assert (forall l x, fold_left Z.min l x <= x /\ forall y, y ∈ l -> fold_left Z.min l x <= y) as Hmin.
  { clear. induction l as [|z l IH]; intros x; cbn.
    - split; [lia|]. intros y Hy. by apply elem_of_nil in Hy.
    - destruct (IH (Z.min x z)) as [H1 H2]. split; [lia|]. intros y [->|Hy]%elem_of_cons; [lia|by apply H2]. }
  destruct (Hmin l x) as [H1 H2]. apply elem_of_cons in Hg as [->|Hg]; auto.
Qed.

Lemma shielded_not_reusable t g v e : shielded t g v -> e ∈ free t -> reusable t e -> fe_page e ∉ v.
Proof.
  intros Hsh He [Hr1 Hr2] Hv. pose proof (sh_free _ _ _ Hsh e He Hv). unfold building in Hr1.
  destruct (sh_why _ _ _ Hsh) as [Hg|(g' & Hg' & Hle)]; [lia|].
  destruct (oldest_reader_le _ _ Hg') as (m & Hm & Hmg). rewrite Hm in Hr2. lia.
Qed.

(** What a step of a write may do. *)
Record evolves t t' : Prop := Evolves {
  ev_gen : generation t' = generation t;
  ev_root : root t' = root t;
  ev_entries : entries t' = entries t;
  ev_readers : readers t' = readers t;
  ev_disk : disk t' = disk t;
  ev_dirty : dirty t ⊆ dirty t';
  ev_count : page_count t <= page_count t';
  ev_store x : x ∉ dirty t' -> store t' !! x = store t !! x;
  ev_shield g v : shielded t g v -> shielded t' g v;
}.

#[global] Instance evolves_preorder : PreOrder evolves.
Proof.
  split; [by constructor|]. intros t1 t2 t3 E1 E2. destruct E1, E2. constructor; try congruence; try lia.
  - by etransitivity.
  - intros x Hx. rewrite ev_store1 by done. apply ev_store0. by intros Hin%ev_dirty1.
  - auto.
Qed.

(** ** Primitives *)

(** [allocate] followed by [mark_dirty], as every caller does. *)
Lemma allocate_spec t own :
  wf t own -> page_count t + 1 < 2 ^ 32 ->
  exists id t0 t', allocate t = (Ok id, t0) /\ mark_dirty id t0 = (Ok tt, t') /\
    wf t' (id :: own) /\ evolves t t' /\ store t' = store t /\ page_count t' <= page_count t + 1 /\
    id ∈ dirty t' /\ id ∉ own.
Proof.
  intros [Hn Hr Hc Hl Hg Hge Hfi] Hlt. unfold allocate. destruct (list_find (reusable t) (free t)) as [[i e]|] eqn:E.
  - apply list_find_Some in E as (Hi & Hre & _). eexists _, _, _. split; [done|]. split; [done|].
    assert (free_pages t ≡ₚ fe_page e :: map fe_page (swap_remove (free t) i)) as Hp.
    { unfold free_pages. rewrite <- (swap_remove_perm _ _ _ Hi) at 1. done. }
    assert (forall e', e' ∈ swap_remove (free t) i -> e' ∈ free t) as Hsub.
    { intros e' He'. rewrite <- (swap_remove_perm _ _ _ Hi). by right. }
    rewrite Hp in Hn, Hr. cbn [app] in *. inversion Hn as [|? ? Hni Hn']; subst. split_and!.
    + split; unfold free_pages; cbn [free set_dirty set_free page_count generation building]; auto.
      * rewrite <- Permutation_middle. done.
      * rewrite <- Permutation_middle. done.
      * rewrite (length_swap_remove _ _ _ Hi). lia.
      * apply Forall_forall. intros e' He'. rewrite Forall_forall in Hg. by apply Hg, Hsub.
    + constructor; cbn; try done; [apply union_subseteq_r|].
      intros g v Hsh. pose proof Hsh as [Hd Hf Hco Hgen Hw].
      constructor; cbn; auto. intros x Hx. rewrite not_elem_of_union, not_elem_of_singleton. split; [|by apply Hd].
      intros ->. eapply shielded_not_reusable; eauto. by apply list_elem_of_lookup_2 in Hi.
    + done.
    + cbn. lia.
    + cbn. by apply elem_of_union_l, elem_of_singleton.
    + rewrite not_elem_of_app in Hni. tauto.
  - unfold pager_allocate. rewrite Z.mod_small by (unfold FIRST_DATA_PAGE in *; lia). exists (page_count t). eexists _, _. split; [done|]. split; [done|].
    assert ((page_count t ∉ own) /\ (page_count t ∉ free_pages t)) as [Hno Hnf].
    { rewrite Forall_app in Hr. destruct Hr as [Hr1 Hr2]. rewrite Forall_forall in Hr1, Hr2.
      split; [intros Hx%Hr2|intros Hx%Hr1]; lia. }
    split_and!.
    + split; unfold free_pages; cbn [free set_dirty set_store page_count generation building]; auto; try lia.
      * rewrite <- Permutation_middle. constructor; [|done]. rewrite not_elem_of_app. done.
      * rewrite <- Permutation_middle. constructor; [lia|]. eapply Forall_impl; [exact Hr|]. intros x Hx. cbn in Hx. lia.
    + constructor; cbn; try done; [apply union_subseteq_r|lia|].
      intros g v Hsh. pose proof Hsh as [Hd Hf Hco Hgen Hw].
      constructor; cbn; auto.
      * intros x Hx. rewrite not_elem_of_union, not_elem_of_singleton. split; [|by apply Hd]. apply Hco in Hx. lia.
      * intros x Hx. apply Hco in Hx. lia.
    + done.
    + cbn. lia.
    + cbn. by apply elem_of_union_l, elem_of_singleton.
    + done.
Qed.

Lemma release_spec t own x :
  wf t (x :: own) ->
  exists t', release x t = (Ok tt, t') /\ wf t' own /\ evolves t t' /\ store t' = store t /\ dirty t' = dirty t /\
    page_count t' = page_count t.
Proof.
  intros [Hn Hr Hc Hl Hg Hge Hfi]. unfold release, modify. eexists. split; [done|]. case_goal; breflect.
  - split_and!; [|done..]. rewrite <- Permutation_middle in Hn, Hr. split; auto; [by inversion Hn|by inversion Hr].
  - split_and!; try done.
    + split; unfold free_pages; cbn [free set_free page_count generation building]; auto.
      * rewrite map_app, <- app_assoc. done.
      * rewrite map_app, <- app_assoc. done.
      * rewrite length_app. cbn [length]. lia.
      * apply Forall_app. split; [done|]. constructor; [|constructor]. unfold building. cbn. lia.
    + constructor; cbn; try done. intros g v [Hd Hf Hco Hgen Hw]. constructor; cbn; auto.
      intros e [He| ->%list_elem_of_singleton]%elem_of_app; [by apply Hf|]. cbn. intros _. unfold building. lia.
Qed.

Lemma write_spec t own id p :
  wf t (id :: own) -> id ∈ dirty t ->
  exists t', pager_write id p t = (Ok tt, t') /\ wf t' (id :: own) /\ evolves t t' /\
    store t' = <[id := p]> (store t) /\ dirty t' = dirty t /\ page_count t' = page_count t.
Proof.
  intros Hwf Hd. unfold pager_write.
  assert (id < page_count t) as Hid.
  { pose proof (wf_range _ _ Hwf) as Hr. rewrite <- Permutation_middle in Hr. inversion Hr. lia. }
  replace (page_count t <=? id) with false by (symmetry; by apply Z.leb_gt).
  eexists. split; [done|]. split_and!; try done.
  - by destruct Hwf.
  - constructor; cbn; try done.
    + intros x Hx. rewrite lookup_insert_ne; [done|]. by intros <-.
    + intros g v []. by constructor.
Qed.

Lemma cow_spec t own id p :
  wf t (id :: own) -> store t !! id = Some p -> page_count t + 1 < 2 ^ 32 ->
  exists id' t', cow id t = (Ok (id', p), t') /\ wf t' (id' :: own) /\ evolves t t' /\ id' ∈ dirty t' /\
    store t' = store t /\ page_count t' <= page_count t + 1.
Proof.
  intros Hwf Hp Hc. unfold cow. rewrite (bind_ok _ _ _ _ _ (read_own _ _ _ _ Hwf ltac:(by left) Hp)).
  unfold get_state at 1. unfold mbind at 1, M_bind at 1. case_decide as Hd.
  - exists id, t. split_and!; try done. lia.
  - destruct (allocate_spec _ _ Hwf Hc) as (fresh & t0 & t1 & Ha & Hm & Hwf1 & Hev1 & Hst1 & Hpc1 & Hd1 & _).
    rewrite (bind_ok _ _ _ _ _ Ha), (bind_ok _ _ _ _ _ Hm).
    assert (wf t1 (id :: fresh :: own)) as Hwf1' by (by rewrite (Permutation_swap fresh id)).
    destruct (release_spec _ _ _ Hwf1') as (t2 & Hr & Hwf2 & Hev2 & Hst2 & Hd2 & Hpc2).
    rewrite (bind_ok _ _ _ _ _ Hr). exists fresh, t2. split_and!; try done.
    + by etransitivity.
    + by rewrite Hd2.
    + congruence.
    + lia.
Qed.
End own.
