(* ===== verification/BTreeWrite.v ===== *)
(** * Writing a B+tree: insertion, splits and removal

    [insert_into] on a subtree that represents [kvs] leaves one subtree, or two
    around a separator, that represent [kv_insert key value kvs]; [remove_from]
    leaves one that represents [kv_remove key kvs].  Both touch only pages they
    own: everything else in the store, the pages of [F] in the statements, is
    as before, and every shield of [BTreeOwn.v] holds. *)

From Stdlib Require Import ZArith Lia Sorted.
From stdpp Require Import base tactics list option gmap.
From S2P Require Import Prelude Binary Page PageSpec BTree BTreeCells BTreeRep BTreeRead BTreeOwn.

Local Open Scope key_scope.

Section write.
Context {P : Type} `{PageImpl P}.
Implicit Types (t : tree_state P) (F : list Z) (s : gmap Z P).

(** ** Representations after a write *)

Lemma rep_leaf_written s id (p : P) lo hi kvs :
  leaf_page p kvs -> in_ranges lo hi kvs -> rep 0 (<[id := p]> s) lo hi id kvs [id].
Proof. intros. exists p. by rewrite lookup_insert_eq. Qed.

Lemma rep_branch_written h s id (p : P) cs lo hi kvs f :
  branch_page p cs -> segs (child_rep h s) lo hi (pg_extra p) cs kvs f -> (id ∉ f) ->
  rep (S h) (<[id := p]> s) lo hi id kvs (id :: f).
Proof.
  intros Hp Hs Hid. apply rep_S. exists p, cs, f. rewrite lookup_insert_eq. split_and!; auto.
  eapply segs_mono; [|exact Hs]. intros ????? Hsub Hc. eapply child_rep_store; [|exact Hc].
  intros x Hx. apply lookup_insert_ne. intros <-. apply Hid. by apply Hsub.
Qed.

Lemma segs_nonempty h s lo hi c0 cs kvs f : segs (child_rep h s) lo hi c0 cs kvs f -> kvs <> [].
Proof.
  intros (hi' & l & l2 & g & g2 & -> & _ & [_ Hne] & _)%segs_head. intros [-> _]%app_eq_nil. done.
Qed.

(** What an insertion leaves behind, with its pages. *)
Definition outcome_rep (h : nat) s lo hi (out : insert_outcome) (kvs : list kv) (fp : list Z) : Prop :=
  match out with
  | Kept id => rep h s lo hi id kvs fp
  | Split l k r =>
      exists la lb fa fb, kvs = la ++ lb /\ fp = fa ++ fb /\ sep_in lo hi k /\ (length k <= MAX_KEY_LEN /\ bytes k) /\
        child_rep h s lo (Some k) l la fa /\ child_rep h s (Some k) hi r lb fb
  end.

(** From [t] to [t']: the outcome, within at most [n] new pages, and everything else as before. *)
Definition changed (h : nat) t t' lo hi (out : insert_outcome) (kvs : list kv) F (n : Z) : Prop :=
  exists fp, outcome_rep h (store t') lo hi out kvs fp /\ wf t' (fp ++ F) /\ evolves t t' /\
    (forall x, x ∈ F -> store t' !! x = store t !! x) /\ (page_count t' <= page_count t + n)%Z.

Definition inserted (h : nat) t t' lo hi (out : insert_outcome) (kvs : list kv) F : Prop :=
  changed h t t' lo hi out kvs F (2 * Z.of_nat (S h)).

Lemma wf_not_in t x own : wf t (x :: own) -> x ∉ own.
Proof. intros Hwf. pose proof (wf_nodup _ _ Hwf) as Hn. apply NoDup_app in Hn as (_ & _ & Hn). by inversion Hn. Qed.

Lemma map_take_drop {A B} (f : A -> B) i x (l : list A) :
  take i (map f l) ++ f x :: drop i (map f l) = map f (take i l ++ x :: drop i l).
Proof. by rewrite firstn_map, skipn_map, map_app. Qed.

(** The tail of both splits: a page for the right half, and the two writes. *)
Lemma write_halves t F id k (pl pr : P) :
  wf t (id :: F) -> id ∈ dirty t -> (page_count t + 1 < 2 ^ 32)%Z ->
  exists rid t',
    (right_id ← allocate; _ ← mark_dirty right_id; _ ← pager_write id pl; _ ← pager_write right_id pr;
     mret (Split id k right_id)) t = (Ok (Split id k rid), t') /\
    store t' = <[rid := pr]> (<[id := pl]> (store t)) /\ wf t' (id :: rid :: F) /\ evolves t t' /\
    (page_count t' <= page_count t + 1)%Z /\ id <> rid /\ (forall x, x ∈ F -> store t' !! x = store t !! x).
Proof.
  intros Hwf Hd Hpc.
  destruct (allocate_spec _ _ Hwf Hpc) as (rid & t0 & t1 & Ha & Hm & Hwf1 & Hev1 & Hst1 & Hpc1 & Hd1 & Hni).
  rewrite (bind_ok _ _ _ _ _ Ha), (bind_ok _ _ _ _ _ Hm).
  assert (wf t1 (id :: rid :: F)) as Hwf1' by (by rewrite (Permutation_swap rid id)).
  destruct (write_spec _ _ id pl Hwf1') as (t2 & Hw2 & Hwf2 & Hev2 & Hst2 & Hd2 & Hpc2); [by apply (ev_dirty _ _ Hev1)|].
  rewrite (bind_ok _ _ _ _ _ Hw2). rewrite (Permutation_swap rid id) in Hwf2.
  destruct (write_spec _ _ rid pr Hwf2) as (t3 & Hw3 & Hwf3 & Hev3 & Hst3 & Hd3 & Hpc3); [by rewrite Hd2|].
  rewrite (bind_ok _ _ _ _ _ Hw3). exists rid, t3. rewrite not_elem_of_cons in Hni. destruct Hni as [Hne Hni].
  assert (store t3 = <[rid := pr]> (<[id := pl]> (store t))) as Hst by (by rewrite Hst3, Hst2, Hst1).
  split_and!; auto; [by rewrite (Permutation_swap rid id)|by do 2 (etransitivity; [eassumption|])|lia|].
  intros x Hx. rewrite Hst, !lookup_insert_ne; [done|..]; intros <-; [|done]. by apply wf_not_in in Hwf.
Qed.

(** ** Leaves *)

(** The two halves of a sorted list around the key at an index. *)
Lemma halves_in_range lo hi kvs n e :
  kv_sorted kvs -> in_ranges lo hi kvs -> kvs !! n = Some e -> 0 < n ->
  sep_in lo hi e.1 /\ in_ranges lo (Some e.1) (take n kvs) /\ in_ranges (Some e.1) hi (drop n kvs).
Proof.
  intros Hs Hr He Hn. split_and!.
  - assert (in_range lo hi e.1) as [_ ?] by (eapply Forall_lookup in Hr; eauto). split; [|done].
    destruct (lookup_lt_is_Some_2 kvs 0) as [e0 He0]; [apply lookup_lt_Some in He; lia|].
    assert (in_range lo hi e0.1) as [? _] by (eapply Forall_lookup in Hr; eauto).
    eapply lo_ok_lt; [done|]. by apply (sorted_lookup_lt kvs 0 n).
  - apply Forall_lookup. intros j a Hj. apply lookup_take_Some in Hj as [Hj ?]. split.
    + assert (in_range lo hi a.1) as [? _] by (eapply Forall_lookup in Hr; eauto). done.
    + by apply (sorted_lookup_lt kvs j n).
  - apply Forall_lookup. intros j a Hj. rewrite lookup_drop in Hj. split.
    + destruct j as [|j]; [rewrite Nat.add_0_r, He in Hj; injection Hj as <-; apply lex_le_refl|].
      apply lex_lt_le. apply (sorted_lookup_lt kvs n (n + S j)); auto. lia.
    + assert (in_range lo hi a.1) as [_ ?] by (eapply Forall_lookup in Hr; eauto). done.
Qed.

Lemma split_leaf_spec t F id lo hi kvs :
  wf t (id :: F) -> id ∈ dirty t -> (page_count t + 1 < 2 ^ 32)%Z ->
  kv_sorted kvs -> Forall legal_kv kvs -> in_ranges lo hi kvs ->
  PAGE_CAPACITY < cells_space (map kv_cell kvs) <= PAGE_CAPACITY + MAX_ENTRY_LEN + SLOT_LEN ->
  exists out t' fp, split_leaf id (map kv_cell kvs) t = (Ok out, t') /\
    outcome_rep 0 (store t') lo hi out kvs fp /\ wf t' (fp ++ F) /\ evolves t t' /\
    (page_count t' <= page_count t + 1)%Z /\ (forall x, x ∈ F -> store t' !! x = store t !! x).
Proof.
  intros Hwf Hd Hpc Hs Hl Hr [Hlo Hhi].
  destruct (split_point_spec (map kv_cell kvs)) as (n & Hn & [Hn1 Hn2] & Hsp1 & Hsp2); auto.
  { apply Forall_map. eapply Forall_impl; [exact Hl|]. apply kv_cell_small. }
  rewrite length_map in Hn2. rewrite firstn_map in Hsp1. rewrite skipn_map in Hsp2.
  unfold split_leaf. rewrite Hn, firstn_map, skipn_map. destruct (lookup_lt_is_Some_2 kvs n Hn2) as [e He].
  assert (legal_kv e) as Hle by (by eapply Forall_lookup in Hl).
  assert (leaf_key (default [] (map kv_cell kvs !! n)) = e.1) as ->.
  { change (map kv_cell) with (fmap kv_cell : list kv -> list (list Z)). rewrite list_lookup_fmap, He. by apply kv_cell_key. }
  destruct (build_leaf (take n kvs)) as (pl & -> & Hlp); auto using sorted_take, Forall_take.
  destruct (build_leaf (drop n kvs)) as (pr & -> & Hrp); auto using sorted_drop, Forall_drop.
  unfold lift at 1 2. do 2 (unfold mbind at 1, M_bind at 1).
  destruct (write_halves t F id e.1 pl pr Hwf Hd Hpc) as (rid & t' & -> & Hst & Hwf' & Hev & Hpc' & Hne & Hfr).
  exists (Split id e.1 rid), t', [id; rid]. split_and!; auto.
  destruct (halves_in_range _ _ _ _ _ Hs Hr He Hn1) as (Hsep & Hra & Hrb).
  exists (take n kvs), (drop n kvs), [id], [rid]. destruct Hle as ((? & ?) & _). split_and!; auto.
  - by rewrite take_drop.
  - lia.
  - split; [|intros Hnil%(f_equal length); rewrite length_take in Hnil; cbn in Hnil; lia].
    rewrite Hst, insert_insert_ne by done. by apply rep_leaf_written.
  - split; [|intros Hnil%(f_equal length); rewrite length_drop in Hnil; cbn in Hnil; lia].
    rewrite Hst. by apply rep_leaf_written.
Qed.

(** The in-page insertions: a replaced or an added cell. *)
Lemma replace_leaf (p : P) kvs key value i :
  leaf_page p kvs -> legal_kv (key, value) -> position kvs key (i, true) ->
  length (leaf_cell key value) <= pg_reclaimable p + length (default [] (pg_cell p i)) ->
  leaf_page (pg_replace p i (leaf_cell key value)).1 (kv_insert key value kvs).
Proof.
  intros Hp Hk Hpos Hroom. pose proof Hp as (Hok & Hkind & Hc & Hs & Hl).
  pose proof (position_insert _ _ value _ Hpos) as Hins. destruct Hpos as (_ & _ & v & Hv & _). cbn [fst snd] in *.
  pose proof (lookup_lt_Some _ _ _ Hv) as Hi.
  assert (<[i := leaf_cell key value]> (map kv_cell kvs) = map kv_cell (kv_insert key value kvs)) as Hcells.
  { rewrite Hins, map_app. cbn [map]. rewrite <- firstn_map, <- skipn_map. apply insert_take_drop. by rewrite length_map. }
  destruct (pg_replace_spec p i (leaf_cell key value) Hok) as (q & -> & Hok' & Ha').
  - by apply (kv_cell_bytes (key, value)).
  - by rewrite (leaf_slots _ _ Hp).
  - rewrite pg_reclaimable_abs, pg_cell_abs, Hc in Hroom by done.
    assert (map kv_cell kvs !! i = Some (kv_cell (key, v))) as Hci.
    { change (map kv_cell) with (fmap kv_cell : list kv -> list (list Z)). by rewrite list_lookup_fmap, Hv. }
    rewrite Hci in Hroom. cbn [default id] in Hroom. rewrite Hc.
    pose proof (cells_space_insert i (leaf_cell key value) _ _ Hci).
    pose proof (proj1 (pg_cells_ok p Hok)) as Hcap. rewrite Hc in Hcap.
    destruct (decide (cells_space (<[i:=leaf_cell key value]> (map kv_cell kvs)) <= PAGE_CAPACITY)); [done|]. lia.
  - cbn [fst]. eapply leaf_page_ok; [done|by rewrite Ha', Hkind, Hc, Hcells|..];
      auto using sorted_kv_insert, Forall_kv_insert.
Qed.

Lemma insert_leaf (p : P) kvs key value i :
  leaf_page p kvs -> legal_kv (key, value) -> position kvs key (i, false) ->
  length (leaf_cell key value) + SLOT_LEN <= pg_reclaimable p ->
  leaf_page (pg_insert p i (leaf_cell key value)).1 (kv_insert key value kvs).
Proof.
  intros Hp Hk Hpos Hroom. pose proof Hp as (Hok & Hkind & Hc & Hs & Hl).
  pose proof (position_insert _ _ value _ Hpos) as Hins. destruct Hpos as (Hi & _). cbn [fst snd] in *.
  rewrite pg_reclaimable_abs, Hc in Hroom by done.
  destruct (pg_insert_spec p i (leaf_cell key value) Hok) as (q & -> & Hok' & Ha').
  - by apply (kv_cell_bytes (key, value)).
  - by rewrite (leaf_slots _ _ Hp).
  - rewrite Hc. unfold SLOT_LEN in *. lia.
  - cbn [fst]. rewrite Hc in Ha'. rewrite (map_take_drop kv_cell i (key, value)), <- Hins in Ha'.
    eapply leaf_page_ok; [done|by rewrite Ha', Hkind|..]; auto using sorted_kv_insert, Forall_kv_insert.
Qed.

(** Otherwise the cell list overflows, by at most the new cell. *)
Lemma leaf_overflow (p : P) kvs key value i found :
  leaf_page p kvs -> legal_kv (key, value) -> position kvs key (i, found) ->
  (found && (length (leaf_cell key value) <=?
     pg_reclaimable p + match pg_cell p i with Some c => length c | None => 0 end)) = false ->
  (negb found && (length (leaf_cell key value) + SLOT_LEN <=? pg_reclaimable p)) = false ->
  (if found then <[i := leaf_cell key value]> (page_cells_of p)
   else take i (page_cells_of p) ++ leaf_cell key value :: drop i (page_cells_of p))
  = map kv_cell (kv_insert key value kvs) /\
  PAGE_CAPACITY < cells_space (map kv_cell (kv_insert key value kvs)) <= PAGE_CAPACITY + MAX_ENTRY_LEN + SLOT_LEN.
Proof.
  intros Hp Hk Hpos. pose proof Hp as (Hok & Hkind & Hc & Hs & Hl).
  pose proof (position_insert _ _ value _ Hpos) as Hins. destruct Hpos as (Hi & _ & Hpos). cbn [fst snd] in *.
  rewrite page_cells_of_abs, pg_reclaimable_abs, Hc by done.
  pose proof (proj1 (pg_cells_ok p Hok)) as Hcap. rewrite Hc in Hcap.
  pose proof (kv_cell_small _ Hk) as Hsmall. unfold small_cell, kv_cell in Hsmall. cbn [fst snd] in Hsmall.
  destruct found; cbn [andb negb]; intros Hr1 Hr2; breflect.
  - destruct Hpos as (v & Hv & _). pose proof (lookup_lt_Some _ _ _ Hv) as Hlt.
    assert (map kv_cell kvs !! i = Some (kv_cell (key, v))) as Hci.
    { change (map kv_cell) with (fmap kv_cell : list kv -> list (list Z)). by rewrite list_lookup_fmap, Hv. }
    assert (<[i := leaf_cell key value]> (map kv_cell kvs) = map kv_cell (kv_insert key value kvs)) as Hcells.
    { rewrite Hins, map_app. cbn [map]. rewrite <- firstn_map, <- skipn_map. apply insert_take_drop. by rewrite length_map. }
    rewrite pg_cell_abs, Hc, Hci in Hr1. split; [done|]. rewrite <- Hcells.
    pose proof (cells_space_insert i (leaf_cell key value) _ _ Hci). lia.
  - rewrite (map_take_drop kv_cell i (key, value)), <- Hins. split; [done|].
    rewrite Hins, <- (map_take_drop kv_cell i (key, value)), cells_space_add. unfold kv_cell at 2 4. cbn [fst snd]. lia.
Qed.

Lemma insert_into_leaf_spec t F id (p : P) lo hi kvs key value :
  store t !! id = Some p -> leaf_page p kvs -> in_ranges lo hi kvs -> in_range lo hi key -> legal_kv (key, value) ->
  wf t (id :: F) -> (page_count t + 2 < 2 ^ 32)%Z ->
  exists out t', insert_into_leaf id key value t = (Ok out, t') /\
    inserted 0 t t' lo hi out (kv_insert key value kvs) F.
Proof.
  intros Hp Hlp Hr Hin Hk Hwf Hpc. unfold insert_into_leaf.
  destruct (cow_spec _ _ _ _ Hwf Hp) as (id' & t1 & Hc & Hwf1 & Hev1 & Hd1 & Hst1 & Hpc1); [lia|].
  rewrite (bind_ok _ _ _ _ _ Hc). pose proof (leaf_search_spec _ _ key Hlp) as Hpos.
  destruct (leaf_search p key) as [i found].
  assert (in_ranges lo hi (kv_insert key value kvs)) as Hr' by (by apply Forall_kv_insert).
  assert (forall q, leaf_page q (kv_insert key value kvs) -> exists out t',
    (_ ← pager_write id' q; mret (Kept id')) t1 = (Ok out, t') /\ inserted 0 t t' lo hi out (kv_insert key value kvs) F) as Hkept.
  { intros q Hq. destruct (write_spec _ _ id' q Hwf1 Hd1) as (t2 & Hw & Hwf2 & Hev2 & Hst2 & Hd2 & Hpc2).
    rewrite (bind_ok _ _ _ _ _ Hw). exists (Kept id'), t2. split; [done|]. exists [id']. split_and!.
    - cbn. rewrite Hst2. by apply rep_leaf_written.
    - done.
    - by etransitivity.
    - intros x Hx. rewrite Hst2, lookup_insert_ne, Hst1; [done|]. intros <-. by apply wf_not_in in Hwf1.
    - lia. }
  match goal with |- context [if found && ?b then _ else _] => destruct (found && b) eqn:E end;
    [|match goal with |- context [if negb found && ?b then _ else _] => destruct (negb found && b) eqn:E0 end].
  - apply andb_prop in E as [-> E]. breflect. apply Hkept, replace_leaf; auto. by destruct (pg_cell p i).
  - apply andb_prop in E0 as [E0 E1]. destruct found; [done|]. breflect. by apply Hkept, insert_leaf.
  - destruct (leaf_overflow _ _ _ value _ _ Hlp Hk Hpos E E0) as [-> Hover].
    pose proof Hlp as (_ & _ & _ & Hs & Hl).
    destruct (split_leaf_spec t1 F id' lo hi (kv_insert key value kvs)) as (out & t2 & fp & -> & Hout & Hwf2 & Hev2 & Hpc2 & Hfr);
      auto using sorted_kv_insert, Forall_kv_insert; [lia|].
    exists out, t2. split; [done|]. exists fp. split_and!; auto; [by etransitivity| |lia].
    intros x Hx. by rewrite Hfr, Hst1.
Qed.

(** ** Branches *)

Lemma child_rep_frame h s id (q : P) f lo hi c l g :
  (id ∉ f) -> g ⊆ f -> child_rep h s lo hi c l g -> child_rep h (<[id := q]> s) lo hi c l g.
Proof. intros Hid Hsub. apply child_rep_store. intros x Hx. apply lookup_insert_ne. intros <-. by apply Hid, Hsub. Qed.

(** A branch page written over its own children. *)
Lemma write_branch t F id (q : P) h lo hi cs kvs f :
  wf t (id :: f ++ F) -> id ∈ dirty t -> branch_page q cs ->
  segs (child_rep h (store t)) lo hi (pg_extra q) cs kvs f ->
  exists t', (_ ← pager_write id q; mret (Kept id)) t = (Ok (Kept id), t') /\ changed (S h) t t' lo hi (Kept id) kvs F 0 /\
    store t' !! id = Some q.
Proof.
  intros Hwf Hd Hq Hs. destruct (write_spec _ _ id q Hwf Hd) as (t' & Hw & Hwf' & Hev & Hst & _ & Hpc).
  rewrite (bind_ok _ _ _ _ _ Hw). exists t'. split; [done|]. apply wf_not_in in Hwf. rewrite not_elem_of_app in Hwf.
  split; [|by rewrite Hst, lookup_insert_eq]. exists (id :: f). destruct Hwf. split_and!; auto; [..|lia].
  - cbn. rewrite Hst. by eapply rep_branch_written.
  - intros x Hx. rewrite Hst, lookup_insert_ne; [done|]. by intros <-.
Qed.

Lemma split_branch_spec t F id h lo hi c0 cs kvs f :
  wf t (id :: f ++ F) -> id ∈ dirty t -> (page_count t + 1 < 2 ^ 32)%Z -> u32 c0 -> Forall legal_sep cs ->
  segs (child_rep h (store t)) lo hi c0 cs kvs f ->
  PAGE_CAPACITY < cells_space (map sep_cell cs) <= PAGE_CAPACITY + MAX_ENTRY_LEN + SLOT_LEN ->
  exists k rid t', split_branch id c0 (map sep_cell cs) t = (Ok (Split id k rid), t') /\
    changed (S h) t t' lo hi (Split id k rid) kvs F 1.
Proof.
  intros Hwf Hd Hpc Hc0 Hl Hs [Hlo Hhi].
  destruct (split_point_spec (map sep_cell cs)) as (n & Hn & [Hn1 Hn2] & Hsp1 & Hsp2); auto.
  { apply Forall_map. eapply Forall_impl; [exact Hl|]. apply sep_cell_small. }
  rewrite length_map in Hn2. rewrite firstn_map in Hsp1. rewrite skipn_map in Hsp2.
  unfold split_branch. rewrite Hn, firstn_map, skipn_map. destruct (lookup_lt_is_Some_2 cs n Hn2) as [[k c] He].
  assert (legal_sep (k, c)) as Hle by (by eapply Forall_lookup in Hl).
  assert (default [] (map sep_cell cs !! n) = sep_cell (k, c)) as ->.
  { change (map sep_cell) with (fmap sep_cell : list sep -> list (list Z)). by rewrite list_lookup_fmap, He. }
  rewrite sep_cell_key, sep_cell_child by done. cbn [fst snd].
  rewrite (drop_S _ _ _ He) in Hsp2. cbn [map] in Hsp2. rewrite cells_space_cons in Hsp2.
  destruct Hle as (Hkl & Hkb & Hcu). cbn [fst snd] in *.
  destruct (build_branch c0 (take n cs)) as (pl & -> & Hlp & Hlx); auto using Forall_take.
  destruct (build_branch c (drop (S n) cs)) as (pr & -> & Hrp & Hrx); auto using Forall_drop; [lia|].
  unfold lift at 1 2. do 2 (unfold mbind at 1, M_bind at 1).
  destruct (write_halves t (f ++ F) id k pl pr Hwf Hd Hpc) as (rid & t' & -> & Hst & Hwf' & Hev & Hpc' & Hne & Hfr).
  exists k, rid, t'. split; [done|].
  rewrite <- (take_drop_middle cs n (k, c) He) in Hs.
  apply segs_app in Hs as (la & lb & fa & fb & -> & -> & Hsep & Hsa & Hsb).
  assert ((id ∉ fa ++ fb) /\ (rid ∉ fa ++ fb)) as [Hida Hrida].
  { apply wf_not_in in Hwf as Hid. apply (wf_perm _ _ _ (Permutation_swap rid id _)), wf_not_in in Hwf' as Hrid.
    rewrite !not_elem_of_cons, !not_elem_of_app in *. tauto. }
  rewrite not_elem_of_app in Hida, Hrida. exists ((id :: fa) ++ (rid :: fb)). split_and!; auto.
  - exists la, lb, (id :: fa), (rid :: fb). split_and!; auto.
    + split; [|by eapply segs_nonempty]. rewrite Hst, insert_insert_ne by done.
      eapply rep_branch_written; [done| |tauto]. rewrite Hlx. eapply segs_mono; [|exact Hsa]. intros.
      eapply child_rep_frame; [|done..]. tauto.
    + split; [|by eapply segs_nonempty]. rewrite Hst.
      eapply rep_branch_written; [done| |tauto]. rewrite Hrx. eapply segs_mono; [|exact Hsb]. intros.
      eapply child_rep_frame; [|done..]. tauto.
  - eapply wf_perm; [|exact Hwf']. solve_Permutation.
  - intros x Hx. apply Hfr. apply elem_of_app. auto.
Qed.

Lemma set_child_same c0 (cs : list sep) slot :
  slot <= length cs -> set_child c0 cs slot (child_at c0 cs slot) = (c0, cs).
Proof.
  destruct slot as [|i]; intros Hslot; cbn; [done|]. destruct (lookup_lt_is_Some_2 cs i) as [[k c] E]; [lia|].
  rewrite E. cbn. by rewrite list_insert_id.
Qed.

Lemma changed_trans h t t1 t2 lo hi out kvs F n m k :
  evolves t t1 -> (forall x, x ∈ F -> store t1 !! x = store t !! x) -> (page_count t1 <= page_count t + n)%Z ->
  changed h t1 t2 lo hi out kvs F m -> (n + m <= k)%Z -> changed h t t2 lo hi out kvs F k.
Proof.
  intros Hev Hfr Hpc (fp & Hout & Hwf & Hev' & Hfr' & Hpc') Hk. exists fp. split_and!; auto; [by etransitivity| |lia].
  intros x Hx. by rewrite Hfr', Hfr.
Qed.

(** The separators a kept branch has: no fewer than before. *)
Definition slots_grow s (p : P) (out : insert_outcome) : Prop :=
  match out with
  | Kept id => exists q, s !! id = Some q /\ pg_slot_count p <= pg_slot_count q
  | Split _ _ _ => True
  end.

(** A branch after the child at [slot] split: the new separator goes in, or the branch splits. *)
Lemma add_separator t F id (p : P) h lo hi cs slot k r kvs f :
  wf t (id :: f ++ F) -> id ∈ dirty t -> (page_count t + 1 < 2 ^ 32)%Z -> branch_page p cs -> slot <= length cs ->
  length k <= MAX_KEY_LEN -> bytes k -> u32 r ->
  segs (child_rep h (store t)) lo hi (pg_extra p) (take slot cs ++ (k, r) :: drop slot cs) kvs f ->
  exists out t', (if length (branch_cell k r) + SLOT_LEN <=? pg_reclaimable p
     then _ ← pager_write id (pg_insert p slot (branch_cell k r)).1; mret (Kept id)
     else split_branch id (pg_extra p) (take slot (page_cells_of p) ++ branch_cell k r :: drop slot (page_cells_of p))) t
    = (Ok out, t') /\ changed (S h) t t' lo hi out kvs F 1 /\ slots_grow (store t') p out.
Proof.
  intros Hwf Hd Hpc Hp Hslot Hkl Hkb Hr Hs. pose proof Hp as (Hok & Hkind & Hc & Hl).
  assert (legal_sep (k, r)) as Hle by (by split; [|split]).
  assert (Forall legal_sep (take slot cs ++ (k, r) :: drop slot cs)) as Hl'.
  { apply Forall_app. split; [by apply Forall_take|]. constructor; [done|by apply Forall_drop]. }
  change (branch_cell k r) with (sep_cell (k, r)).
  rewrite pg_reclaimable_abs, page_cells_of_abs, Hc, map_take_drop by done. case_goal; breflect.
  - destruct (pg_insert_spec p slot (sep_cell (k, r)) Hok) as (q & -> & Hokq & Haq);
      [by apply sep_cell_bytes|by rewrite (branch_slots _ _ Hp)|rewrite Hc; unfold SLOT_LEN in *; lia|].
    rewrite Hc, map_take_drop, Hkind in Haq. apply branch_page_ok in Haq as [Hq Hx]; [|done..]. cbn [fst].
    rewrite <- Hx in Hs. destruct (write_branch t F id q h lo hi _ kvs f Hwf Hd Hq Hs) as (t' & -> & Hch & Hq').
    exists (Kept id), t'. split_and!; [done|..].
    + by eapply (changed_trans _ t t _ _ _ _ _ _ 0 0); [..|exact Hch|]; try done; lia.
    + exists q. split; [done|]. rewrite (branch_slots _ _ Hp), (branch_slots _ _ Hq).
      rewrite length_app, length_take, length_cons, length_drop. lia.
  - destruct (split_branch_spec t F id h lo hi (pg_extra p) (take slot cs ++ (k, r) :: drop slot cs) kvs f)
      as (k' & rid & t' & -> & Hch); auto.
    + rewrite pg_extra_abs. by apply pg_extra_u32.
    + pose proof (branch_space _ _ Hp). pose proof (sep_cell_small _ Hle) as Hsm. unfold small_cell in Hsm.
      rewrite <- map_take_drop, cells_space_add. lia.
    + by exists (Split id k' rid), t'.
Qed.

Lemma insert_into_branch_spec t F id (p : P) h lo hi lo' hi' cs slot out kvs l1 l2 fc f1 f2 :
  store t !! id = Some p -> branch_page p cs -> slot <= length cs ->
  outcome_rep h (store t) lo' hi' out kvs fc -> kvs <> [] ->
  slot_changes (child_rep h (store t)) lo hi lo' hi' (pg_extra p) cs slot l1 l2 f1 f2 ->
  wf t (fc ++ id :: f1 ++ f2 ++ F) -> (page_count t + 2 < 2 ^ 32)%Z ->
  exists out' t', insert_into_branch id slot (child_at (pg_extra p) cs slot) out t = (Ok out', t') /\
    changed (S h) t t' lo hi out' (l1 ++ kvs ++ l2) F 2 /\ slots_grow (store t') p out'.
Proof.
  intros Hp Hbp Hslot Hout Hne (Hset & Hsplit & _) Hwf Hpc.
  assert (fc ++ id :: f1 ++ f2 ++ F ≡ₚ id :: (f1 ++ fc ++ f2) ++ F) as Hperm by solve_Permutation.
  assert (forall x, x ∈ fc -> u32 x) as Hu32 by (intros x Hx; eapply wf_page_u32; [exact Hwf|by apply elem_of_app; left]).
  rewrite Hperm in Hwf. destruct out as [c|c k r]; cbn [insert_into_branch outcome_rep] in *.
  - pose proof (rep_root _ _ _ _ _ _ _ Hout) as (fc' & Hfc).
    specialize (Hset c kvs fc (conj Hout Hne)). case_goal; breflect.
    + subst c. rewrite set_child_same in Hset by done. exists (Kept id), t. split_and!; [done|..].
      * exists (id :: f1 ++ fc ++ f2). split_and!; auto; [|done|lia]. apply rep_S. by exists p, cs, (f1 ++ fc ++ f2).
      * by exists p.
    + destruct (cow_spec _ _ _ _ Hwf Hp) as (id' & t1 & Hcow & Hwf1 & Hev1 & Hd1 & Hst1 & Hpc1); [lia|].
      rewrite (bind_ok _ _ _ _ _ Hcow).
      destruct (set_branch_child_spec p cs slot c Hbp Hslot) as (Hq & Hx); [apply Hu32; rewrite Hfc; by left|].
      rewrite <- Hx, <- Hst1 in Hset.
      destruct (write_branch t1 F id' _ h lo hi _ _ _ Hwf1 Hd1 Hq Hset) as (t2 & -> & Hch & Hq2).
      exists (Kept id'), t2. split_and!; [done|..].
      * eapply (changed_trans _ _ t1 _ _ _ _ _ _ 1 0); eauto; [|lia]. intros. by rewrite Hst1.
      * eexists. split; [exact Hq2|]. by rewrite (branch_slots _ _ Hbp), (branch_slots _ _ Hq), length_set_child.
  - destruct Hout as (la & lb & fa & fb & -> & -> & Hsep & [Hkl Hkb] & Hca & Hcb).
    destruct (cow_spec _ _ _ _ Hwf Hp) as (id' & t1 & Hcow & Hwf1 & Hev1 & Hd1 & Hst1 & Hpc1); [lia|].
    rewrite (bind_ok _ _ _ _ _ Hcow).
    pose proof (rep_root _ _ _ _ _ _ _ (proj1 Hca)) as (fa' & Hfa). pose proof (rep_root _ _ _ _ _ _ _ (proj1 Hcb)) as (fb' & Hfb).
    destruct (set_branch_child_spec p cs slot c Hbp Hslot) as (Hq & Hx).
    { apply Hu32. rewrite Hfa. by left. }
    specialize (Hsplit c k r la lb fa fb Hsep Hca Hcb). rewrite <- Hx, <- Hst1 in Hsplit.
    destruct (add_separator t1 F id' _ h lo hi _ slot k r _ _ Hwf1 Hd1 ltac:(lia) Hq ltac:(by rewrite length_set_child) Hkl Hkb
      ltac:(apply Hu32; rewrite Hfb; apply elem_of_app; right; by left) Hsplit) as (out' & t2 & Hadd & Hch & Hgrow).
    exists out', t2. split_and!; [exact Hadd|..].
    + eapply (changed_trans _ _ t1 _ _ _ _ _ _ 1 1); eauto; [|lia]. intros. by rewrite Hst1.
    + destruct out' as [id''|]; [|done]. destruct Hgrow as (q & Hq' & Hle). exists q. split; [done|].
      rewrite (branch_slots _ _ Hbp). by rewrite (branch_slots _ _ Hq), length_set_child in Hle.
Qed.

Lemma insert_into_spec h fuel t F id lo hi kvs fp key value :
  rep h (store t) lo hi id kvs fp -> in_range lo hi key -> legal_kv (key, value) -> h < fuel ->
  wf t (fp ++ F) -> (page_count t + 2 * Z.of_nat (S h) < 2 ^ 32)%Z ->
  exists out t', insert_into fuel id key value t = (Ok out, t') /\
    inserted h t t' lo hi out (kv_insert key value kvs) F /\
    (forall p, store t !! id = Some p -> pg_kind p = Branch -> slots_grow (store t') p out).
Proof.
  revert fuel t F id lo hi kvs fp. induction h as [|h IH]; intros fuel t F id lo hi kvs fp Hrep Hin Hk Hf Hwf Hpc;
    (destruct fuel as [|fuel]; [lia|]); cbn [insert_into].
  - destruct Hrep as (p & Hp & Hlp & Hr & ->). rewrite (bind_ok _ _ _ _ _ (read_own _ _ _ _ Hwf ltac:(by left) Hp)). pose proof Hlp as (_ & -> & _).
    destruct (insert_into_leaf_spec t F id p lo hi kvs key value) as (out & t' & -> & Hins); auto.
    exists out, t'. split_and!; auto. intros p' Hp'. rewrite Hp in Hp'. injection Hp' as <-. by destruct Hlp as (_ & -> & _).
  - apply rep_S in Hrep as (p & cs & f & Hp & Hbp & -> & Hs). rewrite (bind_ok _ _ _ _ _ (read_own _ _ _ _ Hwf ltac:(by left) Hp)).
    pose proof Hbp as (_ & -> & _).
    destruct (branch_child_for_spec p cs key Hbp) as (slot & -> & Hslot & Hle & Hlt).
    destruct (segs_focus _ _ _ _ _ _ _ _ (child_rep_facts h (store t)) Hs Hslot)
      as (lo' & hi' & l1 & l & l2 & f1 & f' & f2 & -> & -> & [Hc _] & Hb & Ha & Hrange & _ & _ & Hchg).
    specialize (Hrange key Hin Hle Hlt).
    assert ((id :: f1 ++ f' ++ f2) ++ F ≡ₚ f' ++ (id :: f1 ++ f2 ++ F)) as Hperm by solve_Permutation.
    rewrite Hperm in Hwf.
    destruct (IH fuel t (id :: f1 ++ f2 ++ F) _ lo' hi' l f' Hc Hrange Hk ltac:(lia) Hwf ltac:(lia))
      as (out & t1 & Hrun & (fc & Hout & Hwf1 & Hev1 & Hfr1 & Hpc1) & _).
    rewrite (bind_ok _ _ _ _ _ Hrun). rewrite <- (Hfr1 id) in Hp by (by left).
    assert (slot_changes (child_rep h (store t1)) lo hi lo' hi' (pg_extra p) cs slot l1 l2 f1 f2) as Hsc.
    { apply Hchg. intros ????? Hsub. apply child_rep_store. intros x Hx. apply Hfr1. right. rewrite app_assoc.
      apply elem_of_app. left. by apply Hsub. }
    destruct (insert_into_branch_spec t1 F id p h lo hi lo' hi' cs slot out _ l1 l2 fc f1 f2 Hp Hbp Hslot Hout
      (kv_insert_nonempty _ _ _) Hsc Hwf1 ltac:(lia)) as (out' & t2 & -> & Hch & Hgrow).
    exists out', t2. split_and!; [done|..].
    + destruct Hrange. rewrite kv_insert_ctx by (by eapply kvs_below_key || by eapply kvs_above_key).
      eapply changed_trans; [exact Hev1| |exact Hpc1|exact Hch|lia].
      intros x Hx. apply Hfr1. right. rewrite !elem_of_app. auto.
    + intros p' Hp' _. rewrite <- (Hfr1 id) in Hp' by (by left). rewrite Hp in Hp'. by injection Hp' as <-.
Qed.

(** ** Removal *)

Lemma wf_sub t own own' : wf t own -> own' ⊆+ own -> wf t own'.
Proof.
  intros Hwf [k Hk]%submseteq_Permutation. rewrite Hk, Permutation_app_comm in Hwf. destruct Hwf as [Hn Hr ? ? ? ? ?]. split; auto.
  - apply NoDup_app in Hn as (? & Hd & Hn). apply NoDup_app in Hn as (_ & _ & ?). apply NoDup_app. split_and!; auto.
    intros x Hx Hx'. apply (Hd x Hx). apply elem_of_app. auto.
  - rewrite !Forall_app in *. tauto.
Qed.

(** What a removal that found its key leaves behind. *)
Definition removed (h : nat) t t' lo hi (r : removal) (kvs : list kv) F : Prop :=
  rm_removed r = true /\ evolves t t' /\ (forall x, x ∈ F -> store t' !! x = store t !! x) /\
  (page_count t' <= page_count t + Z.of_nat (S h))%Z /\
  if rm_empty r
  then kvs = [] /\ wf t' (rm_page r :: F) /\ (h = 0 -> rep 0 (store t') lo hi (rm_page r) [] [rm_page r])
  else exists fp, rep h (store t') lo hi (rm_page r) kvs fp /\ kvs <> [] /\ wf t' (fp ++ F).

Lemma remove_leaf (p : P) kvs key i :
  leaf_page p kvs -> position kvs key (i, true) -> leaf_page (pg_remove p i) (kv_remove key kvs).
Proof.
  intros Hp Hpos. pose proof Hp as (Hok & Hkind & Hc & Hs & Hl). rewrite (position_remove _ _ _ Hpos).
  destruct Hpos as (_ & _ & v & Hv & _). cbn [fst] in Hv. pose proof (lookup_lt_Some _ _ _ Hv).
  destruct (pg_remove_spec p i Hok) as (Hok' & Ha'); [by rewrite (leaf_slots _ _ Hp)|].
  rewrite Hc, Hkind, firstn_map, skipn_map, <- map_app in Ha'. eapply leaf_page_ok; eauto.
  - rewrite <- (take_drop_middle _ _ _ Hv) in Hs. apply sorted_app_inv in Hs as (H1 & H2 & H3).
    apply sorted_app_inv. inversion H2; subst. split_and!; auto. intros a b Ha Hb. apply H3; [done|by right].
  - apply Forall_app. split; [by apply Forall_take|by apply Forall_drop].
Qed.

Lemma remove_branch (p : P) cs slot :
  branch_page p cs -> slot <= length cs -> 0 < length cs ->
  let q := match slot with O => pg_remove (pg_set_extra p (branch_child_at p 1)) 0 | S i => pg_remove p i end in
  branch_page q (drop_child (pg_extra p) cs slot).2 /\ pg_extra q = (drop_child (pg_extra p) cs slot).1.
Proof.
  intros Hp Hslot Hlen. pose proof Hp as (Hok & Hkind & Hc & Hl). destruct slot as [|i]; cbn [drop_child fst snd].
  - rewrite branch_child_at_spec with (cs := cs) by (done || lia).
    destruct (lookup_lt_is_Some_2 cs 0 Hlen) as [s0 Hs0]. cbn [child_at]. rewrite Hs0.
    assert (legal_sep s0) as (_ & _ & Hu) by (by eapply Forall_lookup in Hl).
    destruct (pg_set_extra_spec p s0.2 Hok Hu) as (Hok1 & Ha1).
    destruct (pg_remove_spec (pg_set_extra p s0.2) 0 Hok1) as (Hok2 & Ha2).
    { rewrite pg_slot_count_abs, Ha1. cbn [a_cells]. by rewrite Hc, length_map. }
    rewrite pg_kind_abs, pg_extra_abs, Ha1 in Ha2. cbn [a_kind a_extra a_cells take app] in Ha2.
    rewrite Hc, Hkind, skipn_map in Ha2. apply branch_page_ok; auto. by apply Forall_drop.
  - destruct (pg_remove_spec p i Hok) as (Hok2 & Ha2); [rewrite (branch_slots _ _ Hp); lia|].
    rewrite Hc, Hkind, firstn_map, skipn_map, <- map_app in Ha2. apply branch_page_ok; auto.
    apply Forall_app. split; [by apply Forall_take|by apply Forall_drop].
Qed.

Lemma remove_from_leaf t F id (p : P) lo hi kvs key i :
  store t !! id = Some p -> leaf_page p kvs -> in_ranges lo hi kvs -> position kvs key (i, true) ->
  wf t (id :: F) -> (page_count t + 1 < 2 ^ 32)%Z ->
  exists r t', (ip ← cow id; let '(id, page) := ip in let page := pg_remove page i in
     let empty := pg_slot_count page =? 0 in _ ← pager_write id page; mret (Removal id true empty)) t = (Ok r, t') /\
    removed 0 t t' lo hi r (kv_remove key kvs) F.
Proof.
  intros Hp Hlp Hr Hpos Hwf Hpc.
  destruct (cow_spec _ _ _ _ Hwf Hp) as (id' & t1 & Hcow & Hwf1 & Hev1 & Hd1 & Hst1 & Hpc1); [lia|].
  rewrite (bind_ok _ _ _ _ _ Hcow). pose proof (remove_leaf _ _ _ _ Hlp Hpos) as Hq.
  destruct (write_spec _ _ id' (pg_remove p i) Hwf1 Hd1) as (t2 & Hw & Hwf2 & Hev2 & Hst2 & Hd2 & Hpc2).
  cbn zeta. rewrite (bind_ok _ _ _ _ _ Hw). eexists _, t2. split; [done|].
  assert (rep 0 (store t2) lo hi id' (kv_remove key kvs) [id']) as Hrep'.
  { rewrite Hst2. apply rep_leaf_written; [done|]. by apply Forall_filter. }
  split_and!; cbn [rm_removed rm_empty rm_page]; auto; [by etransitivity|..].
  - intros x Hx. rewrite Hst2, lookup_insert_ne, Hst1; [done|]. intros <-. by apply wf_not_in in Hwf1.
  - lia.
  - rewrite (leaf_slots _ _ Hq). case_goal; breflect.
    + apply nil_length_inv in E. rewrite E in Hrep'. by split_and!.
    + exists [id']. split_and!; auto. intros Hnil. by rewrite Hnil in E.
Qed.

(** The branch page [q] written over the children [f] that remain. *)
Lemma write_remaining t0 t F id (q : P) h lo hi cs kvs f :
  evolves t0 t -> (forall x, x ∈ F -> store t !! x = store t0 !! x) ->
  (page_count t <= page_count t0 + Z.of_nat (S (S h)))%Z -> wf t (id :: f ++ F) -> id ∈ dirty t ->
  branch_page q cs -> segs (child_rep h (store t)) lo hi (pg_extra q) cs kvs f ->
  exists t', (_ ← pager_write id q; mret (Removal id true false)) t = (Ok (Removal id true false), t') /\
    removed (S h) t0 t' lo hi (Removal id true false) kvs F.
Proof.
  intros Hev Hfr Hpc Hwf Hd Hq Hs. destruct (write_spec _ _ id q Hwf Hd) as (t3 & Hw & Hwf3 & Hev3 & Hst3 & _ & Hpc3).
  rewrite (bind_ok _ _ _ _ _ Hw). exists t3. split; [done|]. apply wf_not_in in Hwf. rewrite not_elem_of_app in Hwf.
  destruct Hwf. split_and!; cbn [rm_removed rm_empty rm_page]; auto; [by etransitivity| |lia|].
  - intros x Hx. rewrite Hst3, lookup_insert_ne by (by intros <-). auto.
  - exists (id :: f). split_and!; auto; [|by eapply segs_nonempty]. rewrite Hst3. by eapply rep_branch_written.
Qed.

Lemma remove_from_branch_spec t F id (p : P) h lo hi lo' hi' cs slot r l0 l1 l2 f1 f2 t0 :
  store t !! id = Some p -> branch_page p cs -> slot <= length cs ->
  removed h t0 t lo' hi' r l0 (id :: f1 ++ f2 ++ F) ->
  slot_changes (child_rep h (store t)) lo hi lo' hi' (pg_extra p) cs slot l1 l2 f1 f2 ->
  left_neighbour (child_rep h (store t0)) (pg_extra p) cs slot l1 ->
  right_neighbour (child_rep h (store t0)) (pg_extra p) cs slot l2 ->
  (page_count t + 1 < 2 ^ 32)%Z ->
  exists r' t', remove_from_branch id slot r t = (Ok r', t') /\
    removed (S h) t0 t' lo hi r' (l1 ++ l0 ++ l2) F /\ (0 < length cs -> rm_empty r' = false).
Proof.
  intros Hp Hbp Hslot (Hrm & Hev & Hfr & Hpc & Hr) (Hset & _ & Hdrop) Hln Hrn Hpc32.
  unfold remove_from_branch. rewrite Hrm. cbn [negb].
  assert (forall x, x ∈ F -> store t !! x = store t0 !! x) as HfrF.
  { intros x Hx. apply Hfr. right. rewrite !elem_of_app. auto. }
  destruct (rm_empty r) eqn:Eem.
  - destruct Hr as (-> & Hwf & _). rewrite (Permutation_swap id (rm_page r)) in Hwf.
    destruct (cow_spec _ _ _ _ Hwf Hp) as (id' & t1 & Hcow & Hwf1 & Hev1 & Hd1 & Hst1 & Hpc1); [lia|].
    rewrite (bind_ok _ _ _ _ _ Hcow). rewrite (Permutation_swap (rm_page r) id') in Hwf1.
    destruct (release_spec _ _ _ Hwf1) as (t2 & Hrel & Hwf2 & Hev2 & Hst2 & Hd2 & Hpc2).
    rewrite (bind_ok _ _ _ _ _ Hrel). rewrite <- Hd2 in Hd1. rewrite Hst1 in Hst2. rewrite app_assoc in Hwf2.
    assert (evolves t0 t2) as Hev02 by (by do 2 (etransitivity; [eassumption|])).
    destruct (decide (0 < length cs)) as [Hlen|Hlen].
    + destruct (remove_branch p cs slot Hbp Hslot Hlen) as (Hq & Hx).
      specialize (Hdrop (child_rep_widen _ _) Hlen). rewrite <- Hx, <- Hst2 in Hdrop.
      destruct (write_remaining t0 t2 F id' _ h lo hi _ _ _ Hev02 ltac:(intros; rewrite Hst2; auto) ltac:(lia) Hwf2 Hd1 Hq Hdrop)
        as (t' & Hw & Hrm'). exists (Removal id' true false), t'. split_and!; [|done..].
      destruct slot as [|i]; [|exact Hw]. rewrite (branch_slots _ _ Hbp). destruct (length cs =? 0) eqn:E; breflect; [lia|exact Hw].
    + assert (slot = 0) as -> by lia. rewrite (branch_slots _ _ Hbp). destruct (length cs =? 0) eqn:E; breflect; [|lia].
      cbn [left_neighbour] in Hln. unfold right_neighbour in Hrn. rewrite E in Hrn. cbn in Hrn. subst l1 l2.
      destruct (write_spec _ _ id' p Hwf2 Hd1) as (t3 & Hw & Hwf3 & Hev3 & Hst3 & _ & Hpc3).
      rewrite (bind_ok _ _ _ _ _ Hw). eexists _, t3. split; [done|]. split; [|lia]. apply wf_not_in in Hwf2.
      rewrite not_elem_of_app in Hwf2. destruct Hwf2.
      split_and!; cbn [rm_removed rm_empty rm_page]; auto; [by etransitivity| |lia|].
      * intros x Hx. rewrite Hst3, lookup_insert_ne, Hst2 by (by intros <-). auto.
      * split_and!; auto; [|done]. eapply wf_sub; [exact Hwf3|]. apply submseteq_skip, submseteq_inserts_l. done.
  - destruct Hr as (fc & Hrep & Hne & Hwf).
    assert (fc ++ id :: f1 ++ f2 ++ F ≡ₚ id :: (f1 ++ fc ++ f2) ++ F) as Hperm by solve_Permutation. rewrite Hperm in Hwf.
    destruct (cow_spec _ _ _ _ Hwf Hp) as (id' & t1 & Hcow & Hwf1 & Hev1 & Hd1 & Hst1 & Hpc1); [lia|].
    rewrite (bind_ok _ _ _ _ _ Hcow). pose proof (rep_root _ _ _ _ _ _ _ Hrep) as (fc' & Hfc).
    destruct (set_branch_child_spec p cs slot (rm_page r) Hbp Hslot) as (Hq & Hx).
    { eapply wf_page_u32; [exact Hwf|]. rewrite Hfc, elem_of_cons, !elem_of_app, elem_of_cons. tauto. }
    specialize (Hset _ _ _ (conj Hrep Hne)). rewrite <- Hx, <- Hst1 in Hset.
    destruct (write_remaining t0 t1 F id' _ h lo hi _ _ _ ltac:(by etransitivity) ltac:(intros; rewrite Hst1; auto) ltac:(lia)
      Hwf1 Hd1 Hq Hset) as (t' & Hw & Hrm'). by exists (Removal id' true false), t'.
Qed.

Lemma remove_from_spec h fuel t F id lo hi kvs fp key :
  rep h (store t) lo hi id kvs fp -> in_range lo hi key -> h < fuel ->
  wf t (fp ++ F) -> (page_count t + Z.of_nat (S h) < 2 ^ 32)%Z ->
  exists r t', remove_from fuel id key t = (Ok r, t') /\
    match kv_get key kvs with
    | None => rm_removed r = false /\ t' = t
    | Some _ => removed h t t' lo hi r (kv_remove key kvs) F /\
        (forall p, store t !! id = Some p -> pg_kind p = Branch -> 0 < pg_slot_count p -> rm_empty r = false)
    end.
Proof.
  revert fuel t F id lo hi kvs fp. induction h as [|h IH]; intros fuel t F id lo hi kvs fp Hrep Hin Hf Hwf Hpc;
    (destruct fuel as [|fuel]; [lia|]); cbn [remove_from].
  - destruct Hrep as (p & Hp & Hlp & Hr & ->). rewrite (bind_ok _ _ _ _ _ (read_own _ _ _ _ Hwf ltac:(by left) Hp)). pose proof Hlp as (_ & -> & _).
    pose proof (leaf_search_spec _ _ key Hlp) as Hpos. rewrite (position_get _ _ _ Hpos).
    destruct (leaf_search p key) as [i [|]]; cbn [fst snd].
    + destruct (remove_from_leaf t F id p lo hi kvs key i) as (r & t' & Hrun & Hrm); auto.
      exists r, t'. split; [exact Hrun|]. destruct Hpos as (_ & _ & v & Hv & _). cbn [fst] in Hv. rewrite Hv. split; [done|].
      intros p' Hp'. rewrite Hp in Hp'. injection Hp' as <-. by destruct Hlp as (_ & -> & _).
    + by exists (Removal id false false), t.
  - apply rep_S in Hrep as (p & cs & f & Hp & Hbp & -> & Hs). rewrite (bind_ok _ _ _ _ _ (read_own _ _ _ _ Hwf ltac:(by left) Hp)).
    pose proof Hbp as (_ & -> & _).
    destruct (branch_child_for_spec p cs key Hbp) as (slot & -> & Hslot & Hle & Hlt).
    destruct (segs_focus _ _ _ _ _ _ _ _ (child_rep_facts h (store t)) Hs Hslot)
      as (lo' & hi' & l1 & l & l2 & f1 & f' & f2 & -> & -> & [Hc _] & Hb & Ha & Hrange & Hln & Hrn & Hchg).
    specialize (Hrange key Hin Hle Hlt).
    assert ((id :: f1 ++ f' ++ f2) ++ F ≡ₚ f' ++ (id :: f1 ++ f2 ++ F)) as Hperm by solve_Permutation.
    rewrite Hperm in Hwf. destruct Hrange as [Hlo Hhi].
    rewrite kv_get_ctx by (by eapply kvs_below_key || by eapply kvs_above_key).
    destruct (IH fuel t (id :: f1 ++ f2 ++ F) _ lo' hi' l f' Hc ltac:(by split) ltac:(lia) Hwf ltac:(lia)) as (r & t1 & Hrun & Hres).
    rewrite (bind_ok _ _ _ _ _ Hrun). destruct (kv_get key l) as [v|].
    + destruct Hres as [Hrm _]. pose proof Hrm as (_ & _ & Hfr1 & Hpc1 & _). rewrite <- (Hfr1 id) in Hp by (by left).
      assert (slot_changes (child_rep h (store t1)) lo hi lo' hi' (pg_extra p) cs slot l1 l2 f1 f2) as Hsc.
      { apply Hchg. intros ????? Hsub. apply child_rep_store. intros x Hx. apply Hfr1. right. rewrite app_assoc.
        apply elem_of_app. left. by apply Hsub. }
      destruct (remove_from_branch_spec t1 F id p h lo hi lo' hi' cs slot r _ l1 l2 f1 f2 t Hp Hbp Hslot Hrm Hsc Hln Hrn
        ltac:(lia)) as (r' & t2 & -> & Hrm' & Hne).
      exists r', t2. split; [done|]. rewrite kv_remove_ctx by (by eapply kvs_below_key || by eapply kvs_above_key).
      split; [done|]. intros p' Hp' _. rewrite <- (Hfr1 id) in Hp' by (by left). rewrite Hp in Hp'. injection Hp' as <-.
      by rewrite (branch_slots _ _ Hbp).
    + destruct Hres as [Hrm ->]. unfold remove_from_branch. rewrite Hrm. by exists (Removal id false false), t.
Qed.
End write.
