(* ===== verification/BTreeTree.v ===== *)
(** * The B+tree as a whole: [put], [remove], [commit], and what a trace of them means

    [tree_ok t kvs]: the tree [t] holds exactly the sorted entries [kvs].  Each
    public operation of [btree.rs] keeps it, with the contents and the answer
    the sorted list prescribes; [headroom] is the executable condition under
    which none can run out of page ids or of levels. *)

From Stdlib Require Import ZArith Lia Sorted.
From stdpp Require Import base tactics list option gmap.
From S2P Require Import Prelude Binary Page PageSpec BTree BTreeCells BTreeRep BTreeRead BTreeOwn BTreeWrite.

Local Open Scope key_scope.

Section tree.
Context {P : Type} `{PageImpl P}.
Implicit Types (t : tree_state P) (s : gmap Z P).

(** A root branch always has a separator. *)
Definition root_ok s (id : Z) : Prop := forall p, s !! id = Some p -> pg_kind p = Branch -> 0 < pg_slot_count p.

Record tree_inv (h : nat) t (kvs : list kv) (fp : list Z) : Prop := TreeInv {
  ti_rep : rep h (store t) None None (root t) kvs fp;
  ti_wf : wf t fp;
  ti_entries : entries t = Z.of_nat (length kvs);
  ti_readers : readers_ok t;
  ti_root : root_ok (store t) (root t);
}.

Lemma own_visible h t kvs fp : rep h (store t) None None (root t) kvs fp -> wf t fp -> rep h (visible t) None None (root t) kvs fp.
Proof. intros Hrep Hwf. apply rep_visible; [by apply wf_below|done]. Qed.

Lemma inv_visible h t kvs fp : tree_inv h t kvs fp -> rep h (visible t) None None (root t) kvs fp.
Proof. intros []. by apply own_visible. Qed.

Definition tree_ok t (kvs : list kv) : Prop := exists h fp, tree_inv h t kvs fp.

(** A leaf is reached from page [id] within [fuel] levels, going left. *)
Fixpoint reaches_leaf (fuel : nat) s (id : Z) : bool :=
  match fuel with
  | O => false
  | S fuel =>
      match s !! id with
      | Some p => match pg_kind p with Leaf => true | Branch => reaches_leaf fuel s (pg_extra p) | _ => false end
      | None => false
      end
  end.

(** Fewer levels than [MAX_TREE_DEPTH], and page ids for one insertion: two per level and a root. *)
Definition headroom t : bool :=
  reaches_leaf MAX_TREE_DEPTH (store t) (root t) && (page_count t + 129 <? 2 ^ 32)%Z.

Lemma reaches_leaf_height h s lo hi id kvs fp fuel :
  rep h s lo hi id kvs fp -> reaches_leaf fuel s id = true -> h < fuel.
Proof.
  revert h lo hi id kvs fp. induction fuel as [|fuel IH]; intros h lo hi id kvs fp Hrep; [done|]. cbn.
  destruct h as [|h]; [lia|]. apply rep_S in Hrep as (p & cs & f & -> & (_ & -> & _) & _ & Hs).
  apply segs_head in Hs as (? & ? & ? & ? & ? & _ & _ & [Hc _] & _). intros Hl. apply IH in Hc; [lia|done].
Qed.

Lemma headroom_height h t kvs fp :
  tree_inv h t kvs fp -> headroom t = true ->
  h < MAX_TREE_DEPTH /\ (page_count t + 2 * Z.of_nat (S h) + 1 < 2 ^ 32)%Z.
Proof.
  intros [Hrep _ _ _ _] [Hl Hc]%andb_prop. breflect. eapply reaches_leaf_height in Hl; [|exact Hrep].
  split; [done|]. unfold MAX_TREE_DEPTH in Hl. lia.
Qed.

(** What a write does to everything outside the tree's own record. *)
Record moves t t' : Prop := Moves {
  mv_gen : generation t' = generation t;
  mv_readers : readers t' = readers t;
  mv_disk : disk t' = disk t;
  mv_store x : x ∉ dirty t' -> store t' !! x = store t !! x;
  mv_dirty : dirty t ⊆ dirty t';
  mv_shield g v : shielded t g v -> shielded t' g v;
}.

#[global] Instance moves_preorder : PreOrder moves.
Proof.
  split; [by constructor|]. intros t1 t2 t3 E1 E2. destruct E1, E2. constructor; try congruence.
  - intros x Hx. rewrite mv_store1 by done. apply mv_store0. by intros Hin%mv_dirty1.
  - by etransitivity.
  - auto.
Qed.

Lemma evolves_moves t t' : evolves t t' -> moves t t'.
Proof. intros []. by constructor. Qed.

Lemma set_root_moves t r : moves t (set_root t r).
Proof. constructor; try done. intros g v []. by constructor. Qed.

Lemma set_entries_moves t n : moves t (set_entries t n).
Proof. constructor; try done. intros g v []. by constructor. Qed.

Lemma wf_set_root t r own : wf t own -> wf (set_root t r) own.
Proof. intros []. by split. Qed.

Lemma wf_set_entries t n own : wf t own -> wf (set_entries t n) own.
Proof. intros []. by split. Qed.

(** ** Insertion *)

Lemma put_root_spec h t0 t kvs out n :
  changed h t0 t None None out kvs [] n -> (page_count t + 1 < 2 ^ 32)%Z ->
  match out with Kept id => root_ok (store t) id | Split _ _ _ => True end ->
  exists t' h' fp, put_root out t = (Ok tt, t') /\ rep h' (store t') None None (root t') kvs fp /\ wf t' fp /\
    moves t t' /\ entries t' = entries t /\ root_ok (store t') (root t').
Proof.
  intros (fp & Hout & Hwf & Hev & _ & _) Hpc Hroot. rewrite app_nil_r in Hwf. destruct out as [id|l k r]; cbn [put_root].
  - exists (set_root t id), h, fp. split_and!; auto using wf_set_root, set_root_moves.
  - destruct Hout as (la & lb & fa & fb & -> & -> & Hsep & [Hkl Hkb] & Hca & Hcb).
    pose proof (rep_root _ _ _ _ _ _ _ (proj1 Hca)) as (fa' & Hfa). pose proof (rep_root _ _ _ _ _ _ _ (proj1 Hcb)) as (fb' & Hfb).
    assert (u32 l) as Hul by (eapply wf_page_u32; [exact Hwf|]; rewrite Hfa; by left).
    assert (u32 r) as Hur by (eapply wf_page_u32; [exact Hwf|]; rewrite Hfb; apply elem_of_app; right; by left).
    destruct (pg_new_spec Branch) as (Hok0 & Ha0). destruct (pg_set_extra_spec _ l Hok0 Hul) as (Hok1 & Ha1).
    rewrite Ha0, pg_kind_abs, Ha0 in Ha1. cbn [a_kind a_cells] in Ha1.
    assert (legal_sep (k, r)) as Hle by (by split; [|split]).
    destruct (pg_insert_spec _ 0 (branch_cell k r) Hok1) as (q & -> & Hokq & Haq).
    + by apply (sep_cell_bytes (k, r)).
    + lia.
    + rewrite Ha1. cbn [a_cells]. rewrite cells_space_nil, length_branch_cell, page_capacity.
      unfold MAX_KEY_LEN, SLOT_LEN in *. lia.
    + rewrite pg_kind_abs, pg_extra_abs, Ha1 in Haq. cbn [a_kind a_extra a_cells take drop app] in Haq.
      change [branch_cell k r] with (map sep_cell [(k, r)]) in Haq. 
      apply branch_page_ok in Haq as [Hq Hx]; [|done|by apply Forall_singleton].
      destruct (allocate_spec _ _ Hwf Hpc) as (id & t1 & t2 & Hal & Hm & Hwf2 & Hev2 & Hst2 & _ & Hd2 & Hni).
      rewrite (bind_ok _ _ _ _ _ Hal), (bind_ok _ _ _ _ _ Hm).
      destruct (write_spec _ _ id q Hwf2 Hd2) as (t3 & Hw & Hwf3 & Hev3 & Hst3 & _ & _). rewrite (bind_ok _ _ _ _ _ Hw).
      exists (set_root t3 id), (S h), (id :: fa ++ fb). split_and!; auto using wf_set_root.
      * cbn [store root set_root]. rewrite Hst3, Hst2. eapply rep_branch_written; [exact Hq| |done]. rewrite Hx.
        by exists la, lb, fa, fb.
      * etransitivity; [apply evolves_moves; by etransitivity|apply set_root_moves].
      * cbn. by rewrite (ev_entries _ _ Hev3), (ev_entries _ _ Hev2).
      * intros p. cbn [store root set_root]. rewrite Hst3, lookup_insert_eq. intros [= <-] _. rewrite (branch_slots _ _ Hq). cbn. lia.
Qed.

Lemma put_spec h t kvs fp k v :
  tree_inv h t kvs fp -> headroom t = true -> legal_kv (k, v) ->
  exists t', put k v t = (Ok tt, t') /\ tree_ok t' (kv_insert k v kvs) /\ moves t t'.
Proof.
  intros Hinv Hhead Hk. destruct (headroom_height _ _ _ _ Hinv Hhead) as [Hh Hpc]. destruct Hinv as [Hrep Hwf Hent Hrd Hroot].
  pose proof Hk as ((Hkl & _) & Hvl & _). cbn [fst snd] in *. unfold put.
  replace ((length k =? 0) || (MAX_KEY_LEN <? length k)) with false by
    (symmetry; apply orb_false_iff; rewrite Nat.eqb_neq, Nat.ltb_ge; lia).
  replace (MAX_VALUE_LEN <? length v) with false by (symmetry; apply Nat.ltb_ge; lia).
  rewrite (bind_ok _ _ _ _ _ (get_spec _ _ _ _ k (own_visible _ _ _ _ Hrep Hwf) Hh Hrd)). unfold get_state at 1, mbind at 1, M_bind at 1.
  rewrite <- (app_nil_r fp) in Hwf.
  destruct (insert_into_spec h MAX_TREE_DEPTH t [] (root t) None None kvs fp k v Hrep ltac:(done) Hk Hh Hwf ltac:(lia))
    as (out & t1 & Hins & Hch & Hgrow).
  rewrite (bind_ok _ _ _ _ _ Hins). pose proof Hch as (fp1 & Hout & _ & Hev1 & _ & Hpc1).
  assert (match out with Kept id => root_ok (store t1) id | Split _ _ _ => True end) as Hroot1.
  { destruct out as [id|]; [|done]. intros q Hq Hqk. destruct h as [|h].
    - destruct Hout as (q' & Hq' & (_ & Hqk' & _) & _). congruence.
    - apply rep_S in Hrep as (p & cs & f & Hp & (Hok & Hpk & _) & _).
      destruct (Hgrow p Hp Hpk) as (q' & Hq' & Hle). rewrite Hq in Hq'. injection Hq' as <-. specialize (Hroot p Hp Hpk). lia. }
  destruct (put_root_spec _ _ _ _ _ _ Hch ltac:(lia) Hroot1) as (t2 & h2 & fp2 & Hpr & Hrep2 & Hwf2 & Hmv2 & Hent2 & Hroot2).
  rewrite (bind_ok _ _ _ _ _ Hpr). destruct (rep_facts _ _ _ _ _ _ _ Hrep) as (Hs & _ & _).
  pose proof (length_kv_insert k v kvs Hs) as Hlen. apply evolves_moves in Hev1 as Hmv1.
  assert (moves t t2) as Hmv by (by etransitivity).
  assert (readers_ok t2) as Hrd2 by (unfold readers_ok; by rewrite (mv_readers _ _ Hmv)).
  assert (entries t2 = entries t) as Hent2' by (by rewrite Hent2, (ev_entries _ _ Hev1)).
  destruct (kv_get k kvs) as [old|].
  - exists t2. split_and!; [done| |done]. exists h2, fp2. split; auto. by rewrite Hlen, Hent2'.
  - exists (set_entries t2 (entries t2 + 1)). split_and!; [done| |etransitivity; [exact Hmv|apply set_entries_moves]].
    exists h2, fp2. split; auto using wf_set_entries. cbn. rewrite Hlen, Hent2', Hent. lia.
Qed.

(** ** Removal *)

Lemma release_moves t own x :
  wf t (x :: own) -> exists t', release x t = (Ok tt, t') /\ wf t' own /\ moves t t' /\ store t' = store t /\
    entries t' = entries t.
Proof.
  intros Hwf. destruct (release_spec _ _ _ Hwf) as (t' & -> & Hwf' & Hev & Hst & _). exists t'.
  split_and!; auto using evolves_moves. by apply ev_entries.
Qed.

Lemma collapse_root_spec h fuel t kvs fp :
  rep h (store t) None None (root t) kvs fp -> wf t fp -> h < fuel ->
  exists t' h' fp', collapse_root fuel t = (Ok tt, t') /\ rep h' (store t') None None (root t') kvs fp' /\ wf t' fp' /\
    moves t t' /\ entries t' = entries t /\ root_ok (store t') (root t').
Proof.
  revert t h fp. induction fuel as [|fuel IH]; intros t h fp Hrep Hwf Hf; [lia|]. cbn [collapse_root].
  unfold get_state at 1, mbind at 1, M_bind at 1. destruct h as [|h].
  - pose proof Hrep as (p & Hp & (_ & Hk & _) & _ & Ef). rewrite (bind_ok _ _ _ _ _ (read_own _ _ _ _ Hwf ltac:(rewrite Ef; by left) Hp)), Hk.
    exists t, 0, fp. split_and!; auto; [done|]. intros q Hq. rewrite Hp in Hq. injection Hq as <-. by rewrite Hk.
  - pose proof Hrep as (p & cs & f & Hp & Hbp & -> & Hs)%rep_S. pose proof Hbp as (_ & Hk & _).
    rewrite (bind_ok _ _ _ _ _ (read_own _ _ _ _ Hwf ltac:(by left) Hp)), Hk, (branch_slots _ _ Hbp). case_goal; breflect.
    + exists t, (S h), (root t :: f). split_and!; auto; [done|]. intros q Hq _. rewrite Hp in Hq. injection Hq as <-.
      by rewrite (branch_slots _ _ Hbp).
    + destruct cs; [|cbn in E; lia]. destruct Hs as [Hc _].
      destruct (release_moves _ _ _ Hwf) as (t1 & Hrel & Hwf1 & Hmv1 & Hst1 & He1). rewrite (bind_ok _ _ _ _ _ Hrel).
      unfold modify at 1, mbind at 1, M_bind at 1. rewrite <- Hst1 in Hc.
      destruct (IH (set_root t1 (pg_extra p)) h f Hc ltac:(by apply wf_set_root) ltac:(lia))
        as (t2 & h2 & fp2 & -> & Hrep2 & Hwf2 & Hmv2 & He2 & Hroot2).
      exists t2, h2, fp2. split_and!; auto; [|by rewrite He2].
      etransitivity; [exact Hmv1|]. etransitivity; [apply set_root_moves|exact Hmv2].
Qed.

Lemma length_kv_remove k kvs v : kv_sorted kvs -> kv_get k kvs = Some v -> length kvs = S (length (kv_remove k kvs)).
Proof.
  intros Hs. induction Hs as [|[k' v'] l Hs IH Hf]; [done|]. cbn [kv_get]. unfold kv_remove. rewrite filter_cons.
  case_decide as Hd; [subst k'|].
  - intros _. rewrite decide_False by (cbn; auto). fold (kv_remove k l). rewrite keys_above_not_in; [done|]. exact Hf.
  - intros Hg. rewrite decide_True by done. cbn. f_equal. by apply IH.
Qed.

Lemma remove_spec h t kvs fp k :
  tree_inv h t kvs fp -> headroom t = true ->
  exists t', remove k t = (Ok (bool_decide (is_Some (kv_get k kvs))), t') /\ tree_ok t' (kv_remove k kvs) /\ moves t t'.
Proof.
  intros Hinv Hhead. destruct (headroom_height _ _ _ _ Hinv Hhead) as [Hh Hpc]. pose proof Hinv as [Hrep Hwf Hent Hrd Hroot].
  unfold remove. unfold get_state at 1, mbind at 1, M_bind at 1. rewrite <- (app_nil_r fp) in Hwf.
  destruct (remove_from_spec h MAX_TREE_DEPTH t [] (root t) None None kvs fp k Hrep ltac:(done) Hh Hwf ltac:(lia))
    as (r & t1 & Hrun & Hres). rewrite (bind_ok _ _ _ _ _ Hrun). destruct (kv_get k kvs) as [v|] eqn:Eg.
  2: { destruct Hres as [-> ->]. exists t. split_and!; [done| |done]. exists h, fp. by rewrite kv_remove_absent. }
  destruct Hres as [(-> & Hev & _ & _ & Hr) Hne]. cbn [negb]. destruct (rep_facts _ _ _ _ _ _ _ Hrep) as (Hs & _ & _).
  pose proof (length_kv_remove _ _ _ Hs Eg) as Hlen.
  do 2 (unfold modify at 1, mbind at 1, M_bind at 1).
  set (t2 := set_entries (set_root t1 (rm_page r)) _).
  assert (exists fp1, rep h (store t1) None None (rm_page r) (kv_remove k kvs) fp1 /\ wf t1 fp1) as (fp1 & Hrep1 & Hwf1).
  { destruct (rm_empty r) eqn:Ee.
    - destruct Hr as (-> & Hwf1 & Hl). destruct h as [|h]; [exists [rm_page r]; auto|].
      apply rep_S in Hrep as (p & cs & f & Hp & (_ & Hpk & _) & _). exfalso. specialize (Hroot p Hp Hpk).
      by specialize (Hne p Hp Hpk Hroot).
    - destruct Hr as (fp1 & ? & _ & Hwf1). rewrite app_nil_r in Hwf1. eauto. }
  destruct (collapse_root_spec h MAX_TREE_DEPTH t2 (kv_remove k kvs) fp1) as (t3 & h3 & fp3 & Hcol & Hrep3 & Hwf3 & Hmv3 & He3 & Hroot3);
    [done|by apply wf_set_entries, wf_set_root|done|].
  rewrite (bind_ok _ _ _ _ _ Hcol). exists t3. rewrite bool_decide_true by done.
  assert (moves t t3) as Hmv.
  { etransitivity; [by apply evolves_moves|]. etransitivity; [|exact Hmv3]. subst t2.
    etransitivity; [apply set_root_moves|apply set_entries_moves]. }
  split_and!; [done| |done]. exists h3, fp3. split; auto.
  - rewrite He3. subst t2. cbn. rewrite (ev_entries _ _ Hev), Hent. lia.
  - unfold readers_ok. by rewrite (mv_readers _ _ Hmv).
Qed.
End tree.
