(* ===== verification/BTreeDurable.v ===== *)
(** * Durability of the B+tree: commit, crash and reopening

    [committed t m h kvs fp] says what is on stable storage: a readable meta
    page [m] of the current generation whose tree holds [kvs] on the pages
    [fp], which no write of the next generation can touch.  [commit] renews it
    with the current contents, every write keeps it, and [open_tree] of any
    file a crash can leave rebuilds a tree with exactly those contents. *)

From Stdlib Require Import ZArith Lia Sorted.
From stdpp Require Import base tactics list option gmap.
From S2P Require Import Prelude Binary Page PageSpec BTree BTreeCells BTreeRep BTreeRead BTreeOwn BTreeWrite BTreeTree.

Local Open Scope Z_scope.

Section durable.
Context {P : Type} `{PageImpl P}.
Implicit Types (t : tree_state P) (d s : gmap Z P).

(** ** How many entries a tree of so many pages can have *)

(** The slots a page has room for. *)
Definition MAX_SLOTS : nat := PAGE_CAPACITY / SLOT_LEN.

Lemma cells_length cs : (length cs * SLOT_LEN <= cells_space cs)%nat.
Proof.
  induction cs as [|c cs IH]; [done|]. rewrite cells_space_cons. cbn [length]. unfold SLOT_LEN in *. lia.
Qed.

Lemma max_slots : MAX_SLOTS = Z.to_nat 4083.
Proof. vm_compute. reflexivity. Qed.

Lemma leaf_entries (p : P) kvs : leaf_page p kvs -> (length kvs <= MAX_SLOTS)%nat.
Proof.
  intros (Hok & _ & Hc & _). destruct (pg_cells_ok p Hok) as [Hsp _]. rewrite Hc in Hsp.
  pose proof (cells_length (map kv_cell kvs)) as Hl. rewrite length_map in Hl. rewrite max_slots.
  rewrite page_capacity in Hsp. unfold SLOT_LEN in Hl. lia.
Qed.

Lemma segs_length (R : seg_prop) n lo hi c0 cs kvs fp :
  (forall lo hi c l f, R lo hi c l f -> (length l <= length f * n)%nat) ->
  segs R lo hi c0 cs kvs fp -> (length kvs <= length fp * n)%nat.
Proof.
  intros HR. revert lo c0 kvs fp. induction cs as [|[k c] cs IH]; intros lo c0 kvs fp; cbn [segs]; [by apply HR|].
  intros (l1 & l2 & f1 & f2 & -> & -> & _ & H1%HR & H2%IH). rewrite !length_app. lia.
Qed.

Lemma rep_length h s lo hi id kvs fp : rep h s lo hi id kvs fp -> (length kvs <= length fp * MAX_SLOTS)%nat.
Proof.
  revert lo hi id kvs fp. induction h as [|h IH]; intros lo hi id kvs fp.
  - intros (p & _ & Hl%leaf_entries & _ & ->). cbn [length]. lia.
  - intros (p & cs & f & _ & _ & -> & Hs)%rep_S. apply (segs_length _ MAX_SLOTS) in Hs; [cbn [length]; lia|].
    intros ????? [Hc _]. by eapply IH.
Qed.

Lemma NoDup_range_length l n : 0 <= n -> NoDup l -> Forall (fun x => 0 <= x < n) l -> Z.of_nat (length l) <= n.
Proof.
  intros Hn Hd Hr. assert (l ⊆+ seqZ 0 n) as Hsub.
  { apply NoDup_submseteq; [done|]. intros x Hx. apply elem_of_seqZ. eapply Forall_forall in Hr; [|exact Hx]. lia. }
  apply submseteq_length in Hsub. rewrite length_seqZ in Hsub. lia.
Qed.

Lemma entries_u64 h t kvs fp : tree_inv h t kvs fp -> u64 (entries t).
Proof.
  intros [Hrep Hwf Hent _ _]. rewrite Hent. split; [lia|]. apply rep_length in Hrep. rewrite max_slots in Hrep.
  pose proof (wf_nodup _ _ Hwf) as Hn. pose proof (wf_range _ _ Hwf) as Hr. pose proof (wf_count _ _ Hwf).
  apply NoDup_app in Hn as (_ & _ & Hn). rewrite Forall_app in Hr. destruct Hr as [_ Hr].
  apply (NoDup_range_length _ (page_count t)) in Hn; [lia|pose proof (wf_first _ _ Hwf); unfold FIRST_DATA_PAGE in *; lia|].
  eapply Forall_impl; [exact Hr|]. unfold FIRST_DATA_PAGE. cbn. lia.
Qed.

(** ** Meta pages *)

Lemma meta_encode_bytes m : bytes (meta_encode m).
Proof.
  unfold meta_encode. repeat apply Forall_app_2; auto using le_bytes_bytes.
  - unfold META_MAGIC, is_byte. repeat constructor; lia.
  - induction (take _ (ms_free m)); cbn [map concat]; [constructor|]. apply Forall_app_2; [|done]. unfold free_encode. auto with fq.
Qed.

Lemma meta_page m :
  legal_meta m ->
  exists q : P, pg_push (pg_new Meta) (meta_encode m) = (q, Some 0%nat) /\ pg_kind q = Meta /\ pg_cell q 0 = Some (meta_encode m).
Proof.
  intros Hm. destruct (pg_new_spec Meta) as (Hok & Ha). pose proof (pg_push_spec _ _ Hok (meta_encode_bytes m)) as Hp.
  rewrite decide_True in Hp.
  - destruct Hp as (q & Hq & _ & Haq). rewrite pg_slot_count_abs, Ha in Hq. exists q. split; [exact Hq|].
    rewrite pg_kind_abs, pg_cell_abs, Haq, Ha, pg_kind_abs, Ha. done.
  - rewrite Ha. cbn [a_cells]. rewrite cells_space_nil, length_meta_encode, page_capacity.
    destruct Hm as (_ & _ & _ & _ & Hl & _). unfold MAX_FREE_ENTRIES, META_FIXED, SLOT_LEN in *. lia.
Qed.

Lemma read_meta_page d slot (q : P) m :
  legal_meta m -> pg_kind q = Meta -> pg_cell q 0 = Some (meta_encode m) -> d !! slot = Some q -> read_meta d slot = Some m.
Proof. intros Hm Hk Hc Hd. unfold read_meta. rewrite Hd. cbn. rewrite Hk, Hc. cbn. by apply meta_roundtrip. Qed.

Lemma read_meta_ext d d' slot : d !! slot = d' !! slot -> read_meta d slot = read_meta d' slot.
Proof. intros E. unfold read_meta. by rewrite E. Qed.

Lemma meta_slot_cases g : (meta_slot g = META_A /\ meta_slot (g + 1) = META_B) \/ (meta_slot g = META_B /\ meta_slot (g + 1) = META_A).
Proof.
  unfold meta_slot. rewrite (Z.add_mod g 1 2) by lia. pose proof (Z.mod_pos_bound g 2 ltac:(lia)).
  assert (g mod 2 = 0 \/ g mod 2 = 1) as [-> | ->] by lia; cbn; auto.
Qed.

Lemma meta_slot_next g : meta_slot (g + 1 + 1) = meta_slot g.
Proof. destruct (meta_slot_cases g) as [[? ?]|[? ?]], (meta_slot_cases (g + 1)) as [[? ?]|[? ?]]; congruence. Qed.

Lemma meta_slot_ne g : meta_slot g <> meta_slot (g + 1).
Proof. destruct (meta_slot_cases g) as [[-> ->]|[-> ->]]; done. Qed.

Lemma meta_slot_data g : meta_slot g < FIRST_DATA_PAGE.
Proof. destruct (meta_slot_cases g) as [[-> _]|[-> _]]; done. Qed.

Lemma meta_slot_in g v : meta_slot g ∈ META_A :: META_B :: v.
Proof. destruct (meta_slot_cases g) as [[-> _]|[-> _]]; [by left|by right; left]. Qed.

(** [open_meta] takes the newer of two readable metas. *)
Lemma open_meta_newer d g m :
  read_meta d (meta_slot g) = Some m ->
  (forall m', read_meta d (meta_slot (g + 1)) = Some m' -> ms_generation m' < ms_generation m) -> open_meta d = Some m.
Proof.
  intros Hm Ho. unfold open_meta. destruct (meta_slot_cases g) as [[E1 E2]|[E1 E2]]; rewrite E1 in Hm; rewrite E2 in Ho; rewrite Hm.
  - destruct (read_meta d META_B) as [m'|]; [|done]. specialize (Ho m' eq_refl). case_goal; breflect; [done|lia].
  - destruct (read_meta d META_A) as [m'|]; [|done]. specialize (Ho m' eq_refl). case_goal; breflect; [lia|done].
Qed.

(** ** What is on stable storage *)

(** The tree [open_tree] builds from the file [d] and its meta [m]. *)
Definition opened d (m : meta_state) : tree_state P :=
  TreeState (ms_generation m) (ms_root m) (ms_entries m) (ms_free m) ∅ ∅ d (ms_high_water m) d.

Record committed t (m : meta_state) (h : nat) (kvs : list kv) (fp : list Z) : Prop := Committed {
  cm_gen : ms_generation m = generation t;
  cm_meta : read_meta (disk t) (meta_slot (generation t)) = Some m;
  cm_other m' : read_meta (disk t) (meta_slot (generation t + 1)) = Some m' -> ms_generation m' < generation t;
  cm_tree : tree_inv h (opened (disk t) m) kvs fp;
  cm_shield : shielded t (generation t) (META_A :: META_B :: fp);
  cm_clean x : x ∉ dirty t -> store t !! x = disk t !! x;
}.

(** A file a crash can leave: pages written since the last commit hold anything. *)
Definition crash_file t d : Prop := forall x, x ∉ dirty t -> d !! x = disk t !! x.

Lemma opened_inv d d' m h kvs fp :
  (forall x, x ∈ fp -> d' !! x = d !! x) -> tree_inv h (opened d m) kvs fp -> tree_inv h (opened d' m) kvs fp.
Proof.
  intros Heq [Hrep Hwf Hent Hrd Hroot]. split; auto.
  - eapply rep_store; [|exact Hrep]. exact Heq.
  - by destruct Hwf.
  - intros p. cbn. rewrite Heq; [apply Hroot|]. destruct (rep_root _ _ _ _ _ _ _ Hrep) as (f & ->). by left.
Qed.

Lemma fresh_shield t fp :
  wf t fp -> dirty t = ∅ -> shielded t (generation t) (META_A :: META_B :: fp).
Proof.
  intros Hwf Hd. pose proof Hwf as [Hn Hr _ _ _ _ Hfi]. rewrite Forall_app in Hr. destruct Hr as [Hr1 Hr2]. split; [..|lia|lia].
  - intros x _. by rewrite Hd.
  - intros e He Hin. exfalso. assert (fe_page e ∈ free_pages t) as Hp by (by apply (list_elem_of_fmap_2 fe_page)).
    pose proof Hp as Hp'. eapply Forall_forall in Hp'; [|exact Hr1]. cbn in Hp'.
    apply elem_of_cons in Hin as [Hin|Hin]; [rewrite Hin in Hp'; by destruct Hp'|].
    apply elem_of_cons in Hin as [Hin|Hin]; [rewrite Hin in Hp'; by destruct Hp'|].
    apply NoDup_app in Hn as (_ & Hdis & _). by apply (Hdis _ Hp).
  - intros x Hx. unfold FIRST_DATA_PAGE, META_A, META_B in *. apply elem_of_cons in Hx as [->|Hx]; [lia|].
    apply elem_of_cons in Hx as [->|Hx]; [lia|]. eapply Forall_forall in Hr2; [|exact Hx]. lia.
Qed.

(** A reopened tree is committed as it stands. *)
Lemma opened_committed d m h kvs fp :
  tree_inv h (opened d m) kvs fp -> read_meta d (meta_slot (ms_generation m)) = Some m ->
  (forall m', read_meta d (meta_slot (ms_generation m + 1)) = Some m' -> ms_generation m' < ms_generation m) ->
  committed (opened d m) m h kvs fp.
Proof. intros Hinv Hm Ho. split; auto. apply (fresh_shield (opened d m)); [by destruct Hinv|done]. Qed.

Lemma crash_committed t m h kvs fp d n :
  committed t m h kvs fp -> crash_file t d -> FIRST_DATA_PAGE <= n ->
  open_tree d n = Ok (opened d m) /\ tree_inv h (opened d m) kvs fp /\ committed (opened d m) m h kvs fp.
Proof.
  intros [Hg Hm Ho Ht Hsh Hcl] Hcr Hn.
  assert (forall x, x ∈ META_A :: META_B :: fp -> d !! x = disk t !! x) as Hd by (intros x Hx; by apply Hcr, (sh_dirty _ _ _ Hsh)).
  assert (read_meta d (meta_slot (ms_generation m)) = Some m) as Hm'.
  { rewrite Hg, <- Hm. apply read_meta_ext, Hd, meta_slot_in. }
  assert (forall m', read_meta d (meta_slot (ms_generation m + 1)) = Some m' -> ms_generation m' < ms_generation m) as Ho'.
  { intros m'. rewrite Hg, (read_meta_ext d (disk t)) by apply Hd, meta_slot_in. apply Ho. }
  assert (tree_inv h (opened d m) kvs fp) as Hinv.
  { eapply opened_inv; [|exact Ht]. intros x Hx. apply Hd. by do 2 right. }
  split_and!; [|done|by apply opened_committed].
  unfold open_tree. case_goal; breflect; [lia|]. by rewrite (open_meta_newer d (ms_generation m) m).
Qed.

(** Every write keeps what is committed. *)
Lemma committed_moves t t' m h kvs fp : committed t m h kvs fp -> moves t t' -> committed t' m h kvs fp.
Proof.
  intros [Hg Hm Ho Ht Hsh Hcl] [Eg Er Ed Es Edi Esh]. split; rewrite ?Eg, ?Ed; auto.
  intros x Hx. rewrite Es by done. apply Hcl. by intros Hin%Edi.
Qed.

(** ** Commit *)

Lemma meta_of_legal h t kvs fp : tree_inv h t kvs fp -> generation t + 1 < 2 ^ 64 -> legal_meta (meta_of t).
Proof.
  intros Hinv Hg. pose proof (entries_u64 _ _ _ _ Hinv) as He. destruct Hinv as [Hrep Hwf _ _ _].
  pose proof Hwf as [_ Hr Hc Hl Hfg Hgen Hfi]. unfold meta_of, legal_meta, building, FIRST_DATA_PAGE in *.
  cbn [ms_generation ms_root ms_entries ms_high_water ms_free].
  split; [lia|]. split; [|split; [done|split; [lia|split; [done|]]]].
  - eapply wf_page_u32; [exact Hwf|]. destruct (rep_root _ _ _ _ _ _ _ Hrep) as (f & ->). by left.
  - apply Forall_forall. intros e He'. eapply Forall_forall in Hfg; [|exact He']. rewrite Forall_app in Hr. destruct Hr as [Hr _].
    assert (fe_page e ∈ free_pages t) as Hp by (by apply (list_elem_of_fmap_2 fe_page)).
    eapply Forall_forall in Hr; [|exact Hp]. cbn in Hr. split; lia.
Qed.

(** The state after step 1: everything is on disk, and the meta page is ready. *)
Lemma commit_prepare_spec h t kvs fp :
  tree_inv h t kvs fp -> generation t + 1 < 2 ^ 64 ->
  exists q, commit_prepare t = (Ok (meta_of t, q), set_free (set_disk t (store t)) []) /\
    pg_kind q = Meta /\ pg_cell q 0 = Some (meta_encode (meta_of t)).
Proof.
  intros Hinv Hg. destruct (meta_page _ (meta_of_legal _ _ _ _ Hinv Hg)) as (q & Hq & Hk & Hc). exists q.
  split; [|done]. unfold commit_prepare, pager_flush, modify, get_state, mbind, M_bind.
  change (meta_of (set_disk t (store t))) with (meta_of t). by rewrite Hq.
Qed.

(** The state after [commit] with the meta page [q]. *)
Definition after_commit t (q : P) : tree_state P :=
  let s := <[meta_slot (building t) := q]> (store t) in
  TreeState (building t) (root t) (entries t) (free t) ∅ (readers t) s (page_count t) s.

Lemma commit_spec h t kvs fp :
  tree_inv h t kvs fp -> generation t + 1 < 2 ^ 64 ->
  exists q, commit t = (Ok tt, after_commit t q) /\ tree_inv h (after_commit t q) kvs fp /\
    pg_kind q = Meta /\ pg_cell q 0 = Some (meta_encode (meta_of t)).
Proof.
  intros Hinv Hg. destruct (commit_prepare_spec _ _ _ _ Hinv Hg) as (q & Hq & Hk & Hc). exists q.
  pose proof Hinv as [Hrep Hwf Hent Hrd Hroot]. pose proof (meta_slot_data (building t)) as Hms.
  assert (forall x, x ∈ fp -> <[meta_slot (building t):=q]> (store t) !! x = store t !! x) as Hst.
  { intros x Hx. apply lookup_insert_ne. pose proof (wf_range _ _ Hwf) as Hr. rewrite Forall_app in Hr.
    destruct Hr as [_ Hr]. eapply Forall_forall in Hr; [|exact Hx]. lia. }
  split_and!; auto.
  - unfold commit. rewrite (bind_ok _ _ _ _ _ Hq). unfold commit_publish, pager_write, pager_flush, modify, mbind, M_bind.
    cbn [page_count set_free set_disk meta_of ms_generation]. pose proof (wf_first _ _ Hwf).
    replace (page_count t <=? meta_slot (building t)) with false by (symmetry; apply Z.leb_gt; lia). done.
  - split; auto.
    + eapply rep_store; [|exact Hrep]. exact Hst.
    + destruct Hwf as [? ? ? ? Hfg ? ?]. unfold building in Hfg.
      split; auto; unfold building; cbn [generation after_commit free]; unfold building; [|lia].
      eapply Forall_impl; [exact Hfg|]. intros e He. cbn beta in He. lia.
    + intros p. cbn [store root after_commit]. rewrite Hst; [apply Hroot|].
      destruct (rep_root _ _ _ _ _ _ _ Hrep) as (f & ->). by left.
Qed.

Lemma opened_after_commit h t q kvs fp :
  tree_inv h (after_commit t q) kvs fp -> tree_inv h (opened (disk (after_commit t q)) (meta_of t)) kvs fp.
Proof. intros [Hrep Hwf Hent _ Hroot]. split; auto; [by destruct Hwf|]. intros g n Hgn. cbn in Hgn. by rewrite lookup_empty in Hgn. Qed.

(** Committing makes the current contents the committed ones. *)
Lemma commit_committed h t kvs fp q :
  tree_inv h t kvs fp -> generation t + 1 < 2 ^ 64 -> pg_kind q = Meta -> pg_cell q 0 = Some (meta_encode (meta_of t)) ->
  (forall m', read_meta (store t) (meta_slot (generation t)) = Some m' -> ms_generation m' <= generation t) ->
  tree_inv h (after_commit t q) kvs fp ->
  committed (after_commit t q) (meta_of t) h kvs fp.
Proof.
  intros Hinv Hg Hk Hc Ho Hinv'. split; auto.
  - cbn [disk after_commit generation]. eapply read_meta_page; eauto using meta_of_legal. by rewrite lookup_insert_eq.
  - intros m'. cbn [disk after_commit generation]. unfold building. rewrite meta_slot_next.
    rewrite (read_meta_ext _ (store t)) by (apply lookup_insert_ne; intros E; symmetry in E; by apply meta_slot_ne in E).
    intros Hm'. apply Ho in Hm'. lia.
  - by apply opened_after_commit.
  - apply fresh_shield; [by destruct Hinv'|done].
Qed.

Lemma committed_other t m h kvs fp m' :
  committed t m h kvs fp -> read_meta (store t) (meta_slot (generation t)) = Some m' -> ms_generation m' <= generation t.
Proof.
  intros [Hg Hm Ho Ht Hsh Hcl] Hm'.
  rewrite (read_meta_ext _ (disk t)) in Hm' by apply Hcl, (sh_dirty _ _ _ Hsh), meta_slot_in.
  rewrite Hm in Hm'. injection Hm' as <-. lia.
Qed.

(** ** A crash during [commit]: the meta slot is old, new, or torn *)

Definition torn_commit t (q : P) d : Prop :=
  (forall x, x <> meta_slot (building t) -> d !! x = store t !! x) /\
  (d !! meta_slot (building t) = store t !! meta_slot (building t) \/ d !! meta_slot (building t) = None \/
   d !! meta_slot (building t) = Some q).

Lemma torn_commit_spec h t kvs fp m h0 kvs0 fp0 q d n :
  tree_inv h t kvs fp -> generation t + 1 < 2 ^ 64 -> committed t m h0 kvs0 fp0 ->
  pg_kind q = Meta -> pg_cell q 0 = Some (meta_encode (meta_of t)) -> torn_commit t q d -> FIRST_DATA_PAGE <= n ->
  (open_tree d n = Ok (opened d m) /\ tree_inv h0 (opened d m) kvs0 fp0 /\ committed (opened d m) m h0 kvs0 fp0) \/
  (open_tree d n = Ok (opened d (meta_of t)) /\ tree_inv h (opened d (meta_of t)) kvs fp /\
   committed (opened d (meta_of t)) (meta_of t) h kvs fp).
Proof.
  intros Hinv Hg Hcm Hk Hc [Hd Hslot] Hn. pose proof Hcm as [Hgen Hm Ho Ht Hsh Hcl].
  assert (forall x, x ∈ META_A :: META_B :: fp0 -> store t !! x = disk t !! x) as Hst
    by (intros x Hx; by apply Hcl, (sh_dirty _ _ _ Hsh)).
  assert (read_meta d (meta_slot (generation t)) = Some m) as Hm0.
  { rewrite <- Hm. apply read_meta_ext. rewrite Hd by apply meta_slot_ne. apply Hst, meta_slot_in. }
  assert (forall x, x ∈ fp0 -> d !! x = disk t !! x) as Hfp0.
  { intros x Hx. rewrite Hd, Hst; [done|by do 2 right|]. pose proof (ti_wf _ _ _ _ Ht) as Hwf0.
    pose proof (wf_range _ _ Hwf0) as Hr. rewrite Forall_app in Hr. destruct Hr as [_ Hr].
    eapply Forall_forall in Hr; [|exact Hx]. pose proof (meta_slot_data (building t)). lia. }
  unfold open_tree. destruct (n <? FIRST_DATA_PAGE) eqn:E; breflect; [lia|].
  assert (tree_inv h0 (opened d m) kvs0 fp0) as Hinv0 by (by eapply (opened_inv (disk t))).
  assert ((forall m', read_meta d (meta_slot (building t)) = Some m' -> ms_generation m' < generation t) ->
    open_meta d = Some m /\ committed (opened d m) m h0 kvs0 fp0) as Hold.
  { intros Hlt. rewrite <- Hgen in Hm0, Hlt. unfold building in Hlt. rewrite <- Hgen in Hlt.
    split; [by apply (open_meta_newer d (ms_generation m))|by apply opened_committed]. }
  destruct Hslot as [Hslot|[Hslot|Hslot]].
  - left. destruct Hold as [-> Hc0]; [|done]. intros m'. rewrite (read_meta_ext _ (disk t)); [apply Ho|].
    rewrite Hslot. apply Hst, meta_slot_in.
  - left. destruct Hold as [-> Hc0]; [|done]. intros m'. unfold read_meta. by rewrite Hslot.
  - right. assert (read_meta d (meta_slot (building t)) = Some (meta_of t)) as Hnew
      by (eapply read_meta_page; eauto using meta_of_legal).
    assert (forall m', read_meta d (meta_slot (building t + 1)) = Some m' -> ms_generation m' < building t) as Hlt.
    { intros m'. unfold building at 1. rewrite meta_slot_next, Hm0. intros [= <-]. unfold building. lia. }
    rewrite (open_meta_newer d (building t) (meta_of t)) by done.
    destruct (commit_spec _ _ _ _ Hinv Hg) as (q' & _ & Hinv' & _). apply opened_after_commit in Hinv'.
    assert (tree_inv h (opened d (meta_of t)) kvs fp) as Hinv1.
    { eapply opened_inv; [|exact Hinv']. intros x Hx. cbn [disk after_commit].
      assert (x <> meta_slot (building t)) as Hne.
      { pose proof (wf_range _ _ (ti_wf _ _ _ _ Hinv)) as Hr. rewrite Forall_app in Hr. destruct Hr as [_ Hr].
        eapply Forall_forall in Hr; [|exact Hx]. pose proof (meta_slot_data (building t)). lia. }
      rewrite Hd by done. symmetry. by apply lookup_insert_ne. }
    split_and!; [done|done|]. by apply opened_committed.
Qed.
End durable.
