(* ===== verification/BTreeTheorems.v ===== *)
(** * What the B+tree promises

    The tree as a transition system: calls of the public operations of
    [btree.rs] in any order, with crashes (between calls, and in the middle of
    [commit]) followed by reopening.  Its abstract specification is a pair of
    sorted lists, the current and the committed contents.  The theorems: every
    run of the tree is a run of the specification with the same answers; every
    crash is recovered from; a snapshot keeps reading what it saw; range scans,
    splits, prefix bounds and meta pages do what they are meant to. *)

From Stdlib Require Import ZArith Lia Sorted.
From stdpp Require Import base tactics list option gmap.
From S2P Require Import Prelude Binary Page PageSpec BTree BTreeCells BTreeRep BTreeRead BTreeOwn BTreeWrite BTreeTree BTreeDurable.

(** ** Calls and their answers *)

Inductive call : Set :=
| CGet (key : list Z)
| CSeek (key : list Z) (mode : seek_mode)
| CPut (key value : list Z)
| CRemove (key : list Z)
| CCommit.

Inductive answer : Set :=
| AValue (v : option (list Z))
| AEntry (e : option (list Z * list Z))
| AUnit
| ABool (b : bool)
| AErr (e : error_kind).

Definition legal_call (c : call) : Prop :=
  match c with CPut k v => legal_kv (k, v) | _ => True end.

(** The specification: the current and the committed contents. *)
Definition spec_state : Type := list kv * list kv.

Definition spec_call (c : call) (s : spec_state) : answer * spec_state :=
  match c with
  | CGet k => (AValue (kv_get k s.1), s)
  | CSeek k mode => (AEntry (kv_seek mode k s.1), s)
  | CPut k v => (AUnit, (kv_insert k v s.1, s.2))
  | CRemove k => (ABool (bool_decide (is_Some (kv_get k s.1))), (kv_remove k s.1, s.2))
  | CCommit => (AUnit, (s.1, s.1))
  end.

Section system.
Context {P : Type} `{PageImpl P}.
Implicit Types (t : tree_state P) (d : gmap Z P).

Definition answer_of {A} (f : A -> answer) (r : result error_kind A * tree_state P) : answer * tree_state P :=
  (match r.1 with Ok a => f a | Err e => AErr e end, r.2).

Definition do_call (c : call) t : answer * tree_state P :=
  match c with
  | CGet k => answer_of AValue (get k t)
  | CSeek k mode => answer_of AEntry (seek k mode t)
  | CPut k v => answer_of (fun _ => AUnit) (put k v t)
  | CRemove k => answer_of ABool (remove k t)
  | CCommit => answer_of (fun _ => AUnit) (commit t)
  end.

(** Room for the call: levels, page ids and generations. *)
Definition ready t : bool := headroom t && (generation t + 1 <? 2 ^ 64)%Z.

Inductive event : Set :=
| ECall (c : call) (a : answer)
| ECrash
| ETornCommit.

(** A step of the real tree: a call, or a crash and the reopening of the file it leaves. *)
Inductive step : tree_state P -> event -> tree_state P -> Prop :=
| step_call c t : ready t = true -> legal_call c -> step t (ECall c (do_call c t).1) (do_call c t).2
| step_crash t d n t' : crash_file t d -> (FIRST_DATA_PAGE <= n)%Z -> open_tree d n = Ok t' -> step t ECrash t'
| step_torn t m q t1 d n t' :
    ready t = true -> commit_prepare t = (Ok (m, q), t1) -> torn_commit t q d -> (FIRST_DATA_PAGE <= n)%Z ->
    open_tree d n = Ok t' -> step t ETornCommit t'.

Inductive steps : tree_state P -> list event -> tree_state P -> Prop :=
| steps_nil t : steps t [] t
| steps_cons t e t' es t'' : step t e t' -> steps t' es t'' -> steps t (e :: es) t''.

(** The same events in the specification. *)
Inductive spec_step : spec_state -> event -> spec_state -> Prop :=
| spec_step_call c s : spec_step s (ECall c (spec_call c s).1) (spec_call c s).2
| spec_step_crash s : spec_step s ECrash (s.2, s.2)
| spec_step_torn_old s : spec_step s ETornCommit (s.2, s.2)
| spec_step_torn_new s : spec_step s ETornCommit (s.1, s.1).

Inductive spec_steps : spec_state -> list event -> spec_state -> Prop :=
| spec_steps_nil s : spec_steps s [] s
| spec_steps_cons s e s' es s'' : spec_step s e s' -> spec_steps s' es s'' -> spec_steps s (e :: es) s''.

(** ** The simulation relation *)

Definition refines t (s : spec_state) : Prop :=
  exists h fp m h0 fp0, tree_inv h t s.1 fp /\ committed t m h0 s.2 fp0.

Lemma seek_spec h t kvs fp k mode : tree_inv h t kvs fp -> h < MAX_TREE_DEPTH -> seek k mode t = (Ok (kv_seek mode k kvs), t).
Proof.
  intros Hinv Hh. pose proof (inv_visible _ _ _ _ Hinv) as Hrep. destruct Hinv. apply with_snapshot_spec; [done|]. intros rd. by eapply (seek_at_spec h (set_readers t rd)).
Qed.

Lemma call_refines c t s :
  refines t s -> ready t = true -> legal_call c ->
  (do_call c t).1 = (spec_call c s).1 /\ refines (do_call c t).2 (spec_call c s).2.
Proof.
  intros (h & fp & m & h0 & fp0 & Hinv & Hcm) [Hhead Hg]%andb_prop Hl. breflect.
  destruct (headroom_height _ _ _ _ Hinv Hhead) as [Hh _]. pose proof Hinv as [Hrep _ _ Hrd _].
  destruct c as [k|k mode|k v|k|]; cbn [do_call spec_call].
  - rewrite (get_spec _ _ _ _ k (inv_visible _ _ _ _ Hinv) Hh Hrd). split; [done|]. by exists h, fp, m, h0, fp0.
  - rewrite (seek_spec _ _ _ _ k mode Hinv Hh). split; [done|]. by exists h, fp, m, h0, fp0.
  - destruct (put_spec _ _ _ _ k v Hinv Hhead Hl) as (t' & -> & (h' & fp' & Hinv') & Hmv). split; [done|].
    exists h', fp', m, h0, fp0. split; [done|]. by eapply committed_moves.
  - destruct (remove_spec _ _ _ _ k Hinv Hhead) as (t' & -> & (h' & fp' & Hinv') & Hmv). split; [done|].
    exists h', fp', m, h0, fp0. split; [done|]. by eapply committed_moves.
  - destruct (commit_spec _ _ _ _ Hinv Hg) as (q & -> & Hinv' & Hk & Hc). split; [done|].
    exists h, fp, (meta_of t), h, fp. split; [done|]. apply commit_committed; auto. intros m' Hm'. by eapply committed_other.
Qed.

Lemma step_refines t s e t' : refines t s -> step t e t' -> exists s', spec_step s e s' /\ refines t' s'.
Proof.
  intros Href Hstep. destruct Hstep as [c t Hr Hl|t d n t' Hcr Hn Ho|t m' q t1 d n t' Hr Hp Htorn Hn Ho].
  - destruct (call_refines c t s Href Hr Hl) as [-> Hr']. eexists. split; [constructor|done].
  - destruct Href as (h & fp & m & h0 & fp0 & Hinv & Hcm).
    destruct (crash_committed _ _ _ _ _ _ _ Hcm Hcr Hn) as (Ho' & Hinv' & Hcm'). rewrite Ho in Ho'. injection Ho' as ->.
    eexists. split; [constructor|]. by exists h0, fp0, m, h0, fp0.
  - destruct Href as (h & fp & m & h0 & fp0 & Hinv & Hcm). apply andb_prop in Hr as [_ Hg]. breflect.
    destruct (commit_prepare_spec _ _ _ _ Hinv Hg) as (q' & Hp' & Hk & Hc). rewrite Hp in Hp'. injection Hp' as -> ->.
    destruct (torn_commit_spec _ _ _ _ _ _ _ _ _ _ _ Hinv Hg Hcm Hk Hc Htorn Hn) as [(Ho' & Hinv' & Hcm')|(Ho' & Hinv' & Hcm')];
      rewrite Ho in Ho'; injection Ho' as ->.
    + eexists. split; [apply spec_step_torn_old|]. by exists h0, fp0, m, h0, fp0.
    + eexists. split; [apply spec_step_torn_new|]. by exists h, fp, (meta_of t), h, fp.
Qed.

(** A fresh tree holds nothing, durably. *)
Lemma initialize_refines : exists t, initialize (∅ : gmap Z P) = Ok t /\ refines t ([], []).
Proof.
  set (t1 := TreeState 0 FIRST_DATA_PAGE 0 [] ∅ ∅ (<[FIRST_DATA_PAGE := pg_new Leaf]> (∅ : gmap Z P)) 3 (∅ : gmap Z P)).
  assert (tree_inv 0 t1 [] [FIRST_DATA_PAGE]) as Hinv.
  { destruct (pg_new_spec Leaf) as (Hok & Ha). split; cbn; try done.
    - eapply rep_leaf_written; [|constructor]. eapply leaf_page_ok; [done|by rewrite Ha|constructor|constructor].
    - split; cbn; unfold FIRST_DATA_PAGE, MAX_FREE_ENTRIES; try lia; [apply NoDup_singleton|..|constructor].
      apply Forall_singleton. lia.
    - intros p. rewrite lookup_insert_eq. intros [= <-]. by rewrite pg_kind_abs, Ha. }
  destruct (commit_spec _ _ _ _ Hinv) as (q & Hc & Hinv' & Hk & Hcell); [done|].
  exists (after_commit t1 q). split.
  - unfold initialize, pager_allocate, pager_write, mbind, M_bind. cbn -[commit FIRST_DATA_PAGE].
    change (match commit t1 with (Ok _, t) => Ok t | (Err e, _) => Err e end = Ok (after_commit t1 q)). by rewrite Hc.
  - exists 0, [FIRST_DATA_PAGE], (meta_of t1), 0, [FIRST_DATA_PAGE]. split; [done|].
    apply commit_committed; auto; [done|]. intros m'. unfold read_meta.
    cbn [store t1]. rewrite lookup_insert_ne by done. by rewrite lookup_empty.
Qed.

Lemma steps_refine t s es t' : refines t s -> steps t es t' -> exists s', spec_steps s es s' /\ refines t' s'.
Proof.
  intros Href Hsteps. revert s Href. induction Hsteps as [t|t e t' es t'' Hstep _ IH]; intros s Href.
  - exists s. split; [constructor|done].
  - destruct (step_refines _ _ _ _ Href Hstep) as (s' & Hs' & Href'). destruct (IH s' Href') as (s'' & Hs'' & Href'').
    exists s''. split; [by econstructor|done].
Qed.
End system.

(** ** Refinement and recovery *)

Section claims.
Context {P : Type} `{PageImpl P}.
Implicit Types (t : tree_state P) (d : gmap Z P).

(** C1: Every run of the copy-on-write B+tree from an empty file (lookups, seeks, insertions,
    removals, commits, crashes between calls and crashes inside [commit], each crash followed by
    reopening the file) is a run of the map specification with the same events and the same
    answers, and ends in a tree that holds the specification's contents. *)
Theorem btree_refines_map (t0 t : tree_state P) (es : list event) :
  initialize ∅ = Ok t0 -> steps t0 es t -> exists s, spec_steps ([], []) es s /\ refines t s.
Proof.
  intros Hi Hs. destruct initialize_refines as (t1 & Hi1 & Href). rewrite Hi in Hi1. injection Hi1 as <-.
  by eapply steps_refine.
Qed.

(** C2: After any run, whatever a crash leaves in the pages written since the last commit,
    reopening the file succeeds and yields the contents of that commit, durably. *)
Theorem btree_crash_recovers (t0 t : tree_state P) (es : list event) d n :
  initialize ∅ = Ok t0 -> steps t0 es t -> crash_file t d -> (FIRST_DATA_PAGE <= n)%Z ->
  exists s t', spec_steps ([], []) es s /\ open_tree d n = Ok t' /\ refines t' (s.2, s.2).
Proof.
  intros Hi Hs Hcr Hn. destruct initialize_refines as (t1 & Hi1 & Href). rewrite Hi in Hi1. injection Hi1 as <-.
  destruct (steps_refine _ _ _ _ Href Hs) as (s & Hss & h & fp & m & h0 & fp0 & Hinv & Hcm).
  destruct (crash_committed _ _ _ _ _ _ _ Hcm Hcr Hn) as (Ho & Hinv' & Hcm').
  exists s, (opened d m). split_and!; auto. by exists h0, fp0, m, h0, fp0.
Qed.

(** C3: [commit] is atomic.  If it is interrupted once the data pages are flushed, with the meta
    slot holding its old page, a torn page or the new page, reopening succeeds and yields either
    exactly the previously committed contents or exactly the new ones. *)
Theorem btree_commit_atomic (t : tree_state P) (s : spec_state) m q t1 d n :
  refines t s -> ready t = true -> commit_prepare t = (Ok (m, q), t1) -> torn_commit t q d -> (FIRST_DATA_PAGE <= n)%Z ->
  exists t', open_tree d n = Ok t' /\ (refines t' (s.2, s.2) \/ refines t' (s.1, s.1)).
Proof.
  intros (h & fp & m0 & h0 & fp0 & Hinv & Hcm) Hr Hp Htorn Hn. apply andb_prop in Hr as [_ Hg]. breflect.
  destruct (commit_prepare_spec _ _ _ _ Hinv Hg) as (q' & Hp' & Hk & Hc). rewrite Hp in Hp'. injection Hp' as -> ->.
  destruct (torn_commit_spec _ _ _ _ _ _ _ _ _ _ _ Hinv Hg Hcm Hk Hc Htorn Hn) as [(Ho' & Hinv' & Hcm')|(Ho' & Hinv' & Hcm')];
    (eexists; split; [exact Ho'|]).
  - left. by exists h0, fp0, m0, h0, fp0.
  - right. by exists h, fp, (meta_of t), h, fp.
Qed.

(** ** Snapshots *)

Fixpoint do_calls (cs : list call) t : tree_state P :=
  match cs with
  | [] => t
  | c :: cs => do_calls cs (do_call c t).2
  end.

Fixpoint all_ready (cs : list call) t : bool :=
  match cs with
  | [] => true
  | c :: cs => ready t && all_ready cs (do_call c t).2
  end.

(** A reader's view: the pages [v] of generation [g], pinned. *)
Record pinned t (g r : Z) (h : nat) (kvs : list kv) (v : list Z) : Prop := Pinned {
  pin_shield : shielded t g v;
  pin_rep : rep h (store t) None None r kvs v;
  pin_data : Forall (fun x => FIRST_DATA_PAGE <= x)%Z v;
  pin_reader : g ∈ dom (readers t);
}.

Lemma pinned_moves t t' g r h kvs v : pinned t g r h kvs v -> moves t t' -> pinned t' g r h kvs v.
Proof.
  intros [Hsh Hrep Hd Hr] Hmv. pose proof (mv_shield _ _ Hmv _ _ Hsh) as Hsh'. split; auto.
  - eapply rep_store; [|exact Hrep]. intros x Hx. by apply (mv_store _ _ Hmv), (sh_dirty _ _ _ Hsh').
  - by rewrite (mv_readers _ _ Hmv).
Qed.

Lemma pinned_commit t q g r h kvs v : pinned t g r h kvs v -> pinned (after_commit t q) g r h kvs v.
Proof.
  intros [[Hdi Hf Hc Hg Hw] Hrep Hd Hr]. split; auto.
  - split; auto.
    + intros x _. cbn. apply not_elem_of_empty.
    + cbn. unfold building. lia.
    + right. exists g. split; [done|lia].
  - eapply rep_store; [|exact Hrep]. intros x Hx. cbn [store after_commit]. apply lookup_insert_ne.
    eapply Forall_forall in Hd; [|exact Hx]. pose proof (meta_slot_data (building t)). cbn in Hd. lia.
Qed.

Lemma pinned_call t s c g r h kvs v :
  refines t s -> ready t = true -> legal_call c -> pinned t g r h kvs v -> pinned (do_call c t).2 g r h kvs v.
Proof.
  intros (ht & fp & m & h0 & fp0 & Hinv & Hcm) [Hhead Hg]%andb_prop Hl Hpin. breflect.
  destruct (headroom_height _ _ _ _ Hinv Hhead) as [Hh _]. pose proof Hinv as [Hrep _ _ Hrd _].
  destruct c as [k|k mode|k v'|k|]; cbn [do_call].
  - by rewrite (get_spec _ _ _ _ k (inv_visible _ _ _ _ Hinv) Hh Hrd).
  - by rewrite (seek_spec _ _ _ _ k mode Hinv Hh).
  - destruct (put_spec _ _ _ _ k v' Hinv Hhead Hl) as (t' & -> & _ & Hmv). by eapply pinned_moves.
  - destruct (remove_spec _ _ _ _ k Hinv Hhead) as (t' & -> & _ & Hmv). by eapply pinned_moves.
  - destruct (commit_spec _ _ _ _ Hinv Hg) as (q & -> & _ & _). by apply pinned_commit.
Qed.

Lemma pinned_calls cs t s g r h kvs v :
  refines t s -> Forall legal_call cs -> all_ready cs t = true -> pinned t g r h kvs v -> pinned (do_calls cs t) g r h kvs v.
Proof.
  revert t s. induction cs as [|c cs IH]; intros t s Href Hl Hr Hpin; [done|]. cbn in *.
  apply andb_prop in Hr as [Hr Hrs]. inversion Hl as [|? ? Hlc Hls]; subst.
  destruct (call_refines c t s Href Hr Hlc) as [_ Href']. eapply IH; eauto. by eapply pinned_call.
Qed.

(** Pinning changes the readers and nothing else. *)
Lemma snapshot_refines t s g r t1 :
  snapshot t = (Ok (g, r), t1) -> refines t s ->
  refines t1 s /\ g = generation t /\ r = root t /\ (g ∈ dom (readers t1)) /\ store t1 = store t /\ generation t1 = generation t /\
  dirty t1 = dirty t /\ free t1 = free t /\ page_count t1 = page_count t.
Proof.
  unfold snapshot, get_state, modify, mbind, M_bind, mret, M_ret. intros [= <- <- <-] (h & fp & m & h0 & fp0 & Hinv & Hcm).
  split; [|split_and!; try done; cbn; rewrite dom_insert; by apply elem_of_union_l, elem_of_singleton].
  exists h, fp, m, h0, fp0. split.
  - destruct Hinv as [? [] ? Hrd ?]. split; auto; [done|]. intros g n. cbn.
    destruct (decide (generation t = g)) as [<-|Hne]; [rewrite lookup_insert_eq; intros [= <-]; lia|].
    rewrite lookup_insert_ne by done. apply Hrd.
  - destruct Hcm as [? ? ? ? [] ?]. split; auto. split; auto. destruct sh_why as [|(g' & Hg' & Hle)]; [by left|].
    right. exists g'. split; [|done]. cbn. rewrite dom_insert. by apply elem_of_union_r.
Qed.

(** C4: Snapshot isolation.  A snapshot taken right after a commit (no page dirty) keeps reading
    the contents of that commit, whatever lookups, insertions, removals and commits follow while
    it is held. *)
Theorem snapshot_isolation (t : tree_state P) (s : spec_state) g r t1 (cs : list call) key :
  refines t s -> dirty t = ∅ -> headroom t = true -> snapshot t = (Ok (g, r), t1) ->
  Forall legal_call cs -> all_ready cs t1 = true ->
  get_at r key (do_calls cs t1) = (Ok (kv_get key s.1), do_calls cs t1).
Proof.
  intros Href Hd Hhead Hsnap Hl Hr. pose proof Href as (h & fp & _ & _ & _ & Hinv & _).
  destruct (headroom_height _ _ _ _ Hinv Hhead) as [Hh _]. pose proof Hinv as [Hrep Hwf _ _ _].
  destruct (snapshot_refines _ _ _ _ _ Hsnap Href) as (Href1 & -> & -> & Hdom & Hst & Hgen & Hd1 & Hf1 & Hpc1).
  assert (pinned t1 (generation t) (root t) h s.1 fp) as Hpin.
  { pose proof (fresh_shield t fp Hwf Hd) as [_ Hf Hc _ _]. pose proof (wf_range _ _ Hwf) as Hrg. rewrite Forall_app in Hrg.
    destruct Hrg as [_ Hrg]. split; [split| | |]; rewrite ?Hst, ?Hgen, ?Hf1, ?Hpc1, ?Hd1, ?Hd; auto; try lia.
    - intros x _. apply not_elem_of_empty.
    - intros e He Hv. apply Hf; [done|]. by do 2 right.
    - intros x Hx. apply Hc. by do 2 right.
    - eapply Forall_impl; [exact Hrg|]. cbn. lia. }
  destruct (pinned_calls cs t1 s _ _ _ _ _ Href1 Hl Hr Hpin) as [Hsh Hrep' _ _]. eapply get_at_spec; [|exact Hh].
  apply rep_visible; [|exact Hrep']. apply Forall_forall. apply Hsh.
Qed.

(** ** Scans *)

(** A range scan of the tree (prefix, optional resume key with that prefix, either direction)
    terminates, and is the visitor applied, in order and until it stops, to exactly the entries
    with the prefix that lie past the resume key; it leaves the tree as it was. *)
Theorem btree_range_scan {S_ : Type} (visit : S_ -> list Z -> list Z -> result error_kind bool * S_)
    (t : tree_state P) (s : spec_state) prefix cursor reverse_ (st : S_) fuel :
  refines t s -> headroom t = true -> cursor_ok prefix cursor -> length s.1 < fuel ->
  for_each_range_at visit fuel (root t) prefix cursor reverse_ st t =
    (Ok (Some (visit_all visit st (range_entries prefix cursor reverse_ s.1))), t).
Proof.
  intros (h & fp & _ & _ & _ & Hinv & _) Hhead Hc Hf. destruct (headroom_height _ _ _ _ Hinv Hhead) as [Hh _].
  apply inv_visible in Hinv. by eapply for_each_range_spec.
Qed.
End claims.

(** A page that overflows by a legal entry can always be split: the code's split point exists,
    lies strictly inside the cell list, and both halves fit in a page. *)
Theorem split_point_progress (cells : list (list Z)) :
  Forall small_cell cells -> PAGE_CAPACITY < cells_space cells ->
  cells_space cells <= PAGE_CAPACITY + MAX_ENTRY_LEN + SLOT_LEN ->
  exists p, split_point cells = Some p /\ 0 < p < length cells /\
    fits (take p cells) = true /\ fits (drop p cells) = true.
Proof.
  intros Hs Hlo Hhi. destruct (split_point_spec cells Hs Hlo Hhi) as (p & ? & ? & ? & ?).
  exists p. by rewrite !fits_spec.
Qed.

(** The upper bound of a prefix delimits it: a key starts with the prefix exactly when it is at
    or above the prefix and below the bound (or above the prefix alone when there is no bound). *)
Theorem prefix_bound_delimits (prefix key : list Z) :
  bytes key ->
  starts_with key prefix = true <->
  (prefix ≼ key)%key /\ match prefix_upper_bound prefix with Some b => (key ≺ b)%key | None => True end.
Proof. apply prefix_upper_bound_spec. Qed.

(** A meta page reads back as written: every field within its width, and the whole free list up
    to the [MAX_FREE_ENTRIES] the page has room for. *)
Theorem meta_page_roundtrip (m : meta_state) : legal_meta m -> meta_decode (meta_encode m) = Some m.
Proof. apply meta_roundtrip. Qed.

(** ** Concrete runs *)

Module Demo.
#[local] Existing Instance list_page.

Definition blank : tree_state apage := TreeState 0 0 0 [] ∅ ∅ ∅ 0 ∅.

(** A fresh tree, and the tree after two insertions, a commit and one more. *)
Definition t0 : tree_state apage := match initialize ∅ with Ok t => t | Err _ => blank end.
Definition t1 : tree_state apage := do_calls [CPut [1%Z] [10%Z]; CPut [2%Z] [20%Z]; CCommit] t0.
Definition t2 : tree_state apage := do_calls [CPut [3%Z] [30%Z]] t1.

Lemma t0_init : initialize ∅ = Ok t0.
Proof. vm_compute. reflexivity. Qed.

Lemma legal_small k v : legal_kv ([k], [v]) <-> is_byte k /\ is_byte v.
Proof.
  unfold legal_kv, legal_key, MAX_KEY_LEN, MAX_VALUE_LEN. cbn [fst snd length]. rewrite !Forall_singleton. split; [tauto|].
  intros [? ?]. split_and!; auto; lia.
Qed.

Lemma call_step c t a t' : ready t = true -> legal_call c -> do_call c t = (a, t') -> step t (ECall c a) t'.
Proof. intros Hr Hl E. pose proof (step_call c t Hr Hl) as Hs. by rewrite E in Hs. Qed.

Ltac call := eapply steps_cons; [apply call_step; [vm_compute; reflexivity|..|vm_compute; reflexivity];
  first [exact I | apply legal_small; unfold is_byte; lia]|].

Definition es1 : list event :=
  [ECall (CPut [1%Z] [10%Z]) AUnit; ECall (CPut [2%Z] [20%Z]) AUnit; ECall CCommit AUnit].

Lemma run1 : steps t0 es1 t1.
Proof. unfold es1. do 3 call. constructor. Qed.

Lemma run2 : steps t0 (es1 ++ [ECall (CPut [3%Z] [30%Z]) AUnit]) t2.
Proof. unfold es1. cbn [app]. do 4 call. constructor. Qed.

Lemma t1_refines : refines t1 ([([1%Z], [10%Z]); ([2%Z], [20%Z])], [([1%Z], [10%Z]); ([2%Z], [20%Z])]).
Proof.
  destruct (initialize_refines (P := apage)) as (t & Hi & Href). rewrite t0_init in Hi. injection Hi as <-.
  destruct (call_refines (CPut [1%Z] [10%Z]) t0 _ Href) as [_ H1]; [vm_compute; reflexivity|apply legal_small; unfold is_byte; lia|].
  destruct (call_refines (CPut [2%Z] [20%Z]) _ _ H1) as [_ H2]; [vm_compute; reflexivity|apply legal_small; unfold is_byte; lia|].
  by destruct (call_refines CCommit _ _ H2) as [_ H3]; [vm_compute; reflexivity|exact I|].
Qed.

Lemma t2_refines :
  refines t2 ([([1%Z], [10%Z]); ([2%Z], [20%Z]); ([3%Z], [30%Z])], [([1%Z], [10%Z]); ([2%Z], [20%Z])]).
Proof.
  by destruct (call_refines (CPut [3%Z] [30%Z]) t1 _ t1_refines) as [_ H1];
    [vm_compute; reflexivity|apply legal_small; unfold is_byte; lia|].
Qed.
End Demo.

Lemma btree_refines_map_witness :
  exists s, spec_steps ([], []) (Demo.es1 ++ [ECall (CPut [3%Z] [30%Z]) AUnit]) s /\ @refines apage list_page Demo.t2 s.
Proof. exact (@btree_refines_map apage list_page Demo.t0 Demo.t2 _ Demo.t0_init Demo.run2). Defined.

Lemma btree_crash_recovers_witness :
  exists s t', spec_steps ([], []) (Demo.es1 ++ [ECall (CPut [3%Z] [30%Z]) AUnit]) s /\
    @open_tree apage list_page (disk Demo.t2) 5 = Ok t' /\ @refines apage list_page t' (s.2, s.2).
Proof.
  apply (@btree_crash_recovers apage list_page Demo.t0 Demo.t2 _ (disk Demo.t2) 5 Demo.t0_init Demo.run2).
  - intros x _. reflexivity.
  - unfold FIRST_DATA_PAGE. lia.
Defined.

(** The meta page an interrupted commit of [Demo.t2] was writing. *)
Definition demo_meta_page : meta_state * apage :=
  match @commit_prepare apage list_page Demo.t2 with
  | (Ok mp, _) => mp
  | (Err _, _) => (MetaState 0 0 0 0 [], @pg_new apage list_page Meta)
  end.

Lemma btree_commit_atomic_witness :
  exists t', @open_tree apage list_page (delete (meta_slot (building Demo.t2)) (store Demo.t2)) 5 = Ok t' /\
    (@refines apage list_page t' ([([1%Z], [10%Z]); ([2%Z], [20%Z])], [([1%Z], [10%Z]); ([2%Z], [20%Z])]) \/
     @refines apage list_page t' ([([1%Z], [10%Z]); ([2%Z], [20%Z]); ([3%Z], [30%Z])],
                                  [([1%Z], [10%Z]); ([2%Z], [20%Z]); ([3%Z], [30%Z])])).
Proof.
  apply (@btree_commit_atomic apage list_page Demo.t2 _ demo_meta_page.1 demo_meta_page.2
           (@commit_prepare apage list_page Demo.t2).2 _ 5 Demo.t2_refines).
  - vm_compute. reflexivity.
  - vm_compute. reflexivity.
  - split; [|right; left; apply lookup_delete_eq]. intros x Hx. by apply lookup_delete_ne.
  - unfold FIRST_DATA_PAGE. lia.
Defined.

Lemma snapshot_isolation_witness :
  let t := (@snapshot apage Demo.t1).2 in
  let cs := [CPut [1%Z] [11%Z]; CRemove [2%Z]; CCommit; CPut [4%Z] [40%Z]] in
  @get_at apage list_page (root Demo.t1) [1%Z] (@do_calls apage list_page cs t) =
    (Ok (Some [10%Z]), @do_calls apage list_page cs t).
Proof.
  apply (@snapshot_isolation apage list_page Demo.t1 _ (generation Demo.t1) (root Demo.t1) (@snapshot apage Demo.t1).2
           [CPut [1%Z] [11%Z]; CRemove [2%Z]; CCommit; CPut [4%Z] [40%Z]] [1%Z] Demo.t1_refines).
  - vm_compute. reflexivity.
  - vm_compute. reflexivity.
  - vm_compute. reflexivity.
  - repeat apply Forall_cons_2; try apply Forall_nil_2; try exact I; apply Demo.legal_small; unfold is_byte; lia.
  - vm_compute. reflexivity.
Defined.

Lemma btree_range_scan_witness :
  @for_each_range_at apage list_page (list (list Z)) (fun s k v => (Ok true, s ++ [k])) 10 (root Demo.t2) [] (Some [3%Z]) true [] Demo.t2
  = (Ok (Some (Ok tt, [[2%Z]; [1%Z]])), Demo.t2).
Proof.
  apply (@btree_range_scan apage list_page _ (fun s k v => (Ok true, s ++ [k])) Demo.t2 _ [] (Some [3%Z]) true [] 10 Demo.t2_refines).
  - vm_compute. reflexivity.
  - intros c [= <-]. split; [solve_bytes|reflexivity].
  - cbn. lia.
Defined.

Lemma split_point_progress_witness :
  let cells := replicate 5 (replicate (Z.to_nat 4000) 0%Z) in
  exists p, split_point cells = Some p /\ 0 < p < length cells /\
    fits (take p cells) = true /\ fits (drop p cells) = true.
Proof.
  apply split_point_progress.
  - apply Forall_replicate. unfold small_cell. rewrite length_replicate, max_entry_len. lia.
  - apply Nat.ltb_lt. vm_compute. reflexivity.
  - apply Nat.leb_le. vm_compute. reflexivity.
Defined.

Lemma prefix_bound_delimits_witness :
  starts_with [7; 255; 3]%Z [7; 255]%Z = true <->
  ([7; 255]%Z ≼ [7; 255; 3]%Z)%key /\ match prefix_upper_bound [7; 255]%Z with Some b => ([7; 255; 3]%Z ≺ b)%key | None => True end.
Proof. apply prefix_bound_delimits. solve_bytes. Defined.

Lemma meta_page_roundtrip_witness :
  meta_decode (meta_encode (MetaState 7 2 3 9 [FreeEntry 6 4; FreeEntry 7 5])) = Some (MetaState 7 2 3 9 [FreeEntry 6 4; FreeEntry 7 5]).
Proof.
  apply meta_page_roundtrip. unfold legal_meta, MAX_FREE_ENTRIES. cbn [ms_generation ms_root ms_entries ms_high_water ms_free length].
  repeat (split; [lia|]). repeat apply Forall_cons_2; try apply Forall_nil_2; unfold legal_free; cbn; lia.
Defined.

(** ** Where a snapshot is not one *)

(** The documentation of [BTree::snapshot] says that it pins the committed tree and keeps reading
    it as it stood.  Taken while a generation is being built it pins the uncommitted root, and a
    later insertion in the same generation, which modifies the dirty page in place, changes what
    the held snapshot reads. *)
Theorem mid_generation_snapshot_changes :
  let t := @do_calls apage list_page [CPut [1%Z] [10%Z]] Demo.t0 in
  let snap := @snapshot apage t in
  snap.1 = Ok (generation t, root t) /\
  (@get_at apage list_page (root t) [1%Z] snap.2).1 = Ok (Some [10%Z]) /\
  (@get_at apage list_page (root t) [1%Z] (@do_calls apage list_page [CPut [1%Z] [11%Z]] snap.2)).1 = Ok (Some [11%Z]).
Proof. vm_compute. split_and!; reflexivity. Qed.
