(* ===== verification/Pager.v ===== *)
(** * Paged files with a bounded buffer pool ([src/src/storage/pager.rs])

    A file of encrypted pages behind a write-back cache of at most a given
    number of pages.  The file models the pager on the bytes of its file, with
    the eviction that writes a dirty page before dropping it, and proves that
    it behaves as the page store the B+tree of [BTree.v] is written against,
    and that what was flushed survives a crash in the pages not written since. *)

From Stdlib Require Import ZArith Lia.
From stdpp Require Import base tactics list option gmap sorting.
From S2P Require Import Prelude Crypto Binary Page PageSpec BTree Lru.

Local Open Scope Z_scope.

Definition DEFAULT_CACHE_PAGES : nat := 256.

Record Entry := MkEntry { en_page : page; en_dirty : bool; en_tick : Z }.

(** [PagerInner]; [pi_drawn] counts the nonces [encrypt] has drawn. *)
Record PagerInner := MkPager {
  pi_file : list Z;
  pi_page_count : Z;
  pi_cache : gmap Z Entry;
  pi_order : gmap Z Z;
  pi_tick : Z;
  pi_capacity : nat;
  pi_drawn : nat;
}.

Definition set_pool (p : PagerInner) (cache : gmap Z Entry) (order : gmap Z Z) (tick : Z) : PagerInner :=
  MkPager (pi_file p) (pi_page_count p) cache order tick (pi_capacity p) (pi_drawn p).

(** Writing at an offset: the file grows, with zeros in the hole if there is one. *)
Definition file_write (file : list Z) (offset : nat) (data : list Z) : list Z :=
  splice (file ++ replicate (offset + length data - length file) 0) offset data.

Definition page_offset (id : Z) : nat := Z.to_nat id * PAGE_SIZE.

Section pager.
Context `{Aead} (nonces : nat -> list Z).
Implicit Types (p : PagerInner) (id : Z).

(** [configured] is the parsed value of [FACETQL_PAGE_CACHE_PAGES], if there is one. *)
Definition pager_open (file : list Z) (configured : option nat) : PagerInner :=
  MkPager file ((Z.of_nat (length file) / Z.of_nat PAGE_SIZE) mod 2 ^ 32) ∅ ∅ 0
    (match configured with Some n => if (0 <? n)%nat then n else DEFAULT_CACHE_PAGES | None => DEFAULT_CACHE_PAGES end) 0.

Definition set_page_count (pages : Z) p : PagerInner :=
  MkPager (pi_file p) pages (pi_cache p) (pi_order p) (pi_tick p) (pi_capacity p) (pi_drawn p).

(** The count is a [u32]: its arithmetic wraps, as in a release build. *)
Definition page_allocate p : PagerInner * Z := (set_page_count ((pi_page_count p + 1) mod 2 ^ 32) p, pi_page_count p).

Definition write_to_disk id p : PagerInner * result error_kind unit :=
  match pi_cache p !! id with
  | None => (p, Ok tt)
  | Some e =>
      let blob := encrypt (nonces (pi_drawn p)) (encode (en_page e)) in
      if negb (length blob =? PAGE_SIZE)%nat then
        (MkPager (pi_file p) (pi_page_count p) (pi_cache p) (pi_order p) (pi_tick p) (pi_capacity p) (S (pi_drawn p)), Err OtherError)
      else
        (MkPager (file_write (pi_file p) (page_offset id) blob) (pi_page_count p)
           (<[id := MkEntry (en_page e) false (en_tick e)]> (pi_cache p)) (pi_order p) (pi_tick p) (pi_capacity p) (S (pi_drawn p)), Ok tt)
  end.

Definition read_from_disk id p : result error_kind page :=
  if pi_page_count p <=? id then Err InvalidInput
  else if (length (pi_file p) <? page_offset id + PAGE_SIZE)%nat then Err UnexpectedEof
  else match decrypt (slice (pi_file p) (page_offset id) (page_offset id + PAGE_SIZE)) with
       | None => Err InvalidData
       | Some body => decode body
       end.

(** The loop of [admit]: drop the oldest pages, writing the dirty ones, but never the page just
    admitted; it runs at most once per page. *)
Fixpoint evict (fuel : nat) id p : PagerInner * result error_kind unit :=
  match fuel with
  | O => (p, Ok tt)
  | S fuel =>
      if (size (pi_cache p) <=? pi_capacity p)%nat then (p, Ok tt)
      else match oldest (pi_order p) with
           | None => (p, Ok tt)
           | Some (t, victim) =>
               if victim =? id then (p, Ok tt)
               else
                 let p := set_pool p (pi_cache p) (delete t (pi_order p)) (pi_tick p) in
                 let '(p, r) :=
                   match pi_cache p !! victim with
                   | Some e => if en_dirty e then write_to_disk victim p else (p, Ok tt)
                   | None => (p, Ok tt)
                   end in
                 match r with
                 | Err x => (p, Err x)
                 | Ok _ => evict fuel id (set_pool p (delete victim (pi_cache p)) (pi_order p) (pi_tick p))
                 end
           end
  end.

Definition admit_page id (pg : page) (dirty : bool) p : PagerInner * result error_kind unit :=
  let order := match pi_cache p !! id with Some e => delete (en_tick e) (pi_order p) | None => pi_order p end in
  let tick := pi_tick p + 1 in
  let cache := <[id := MkEntry pg dirty tick]> (pi_cache p) in
  evict (size cache) id (set_pool p cache (<[tick := id]> order) tick).

Definition page_read id p : PagerInner * result error_kind page :=
  match pi_cache p !! id with
  | Some e =>
      let tick := pi_tick p + 1 in
      (set_pool p (<[id := MkEntry (en_page e) (en_dirty e) tick]> (pi_cache p)) (<[tick := id]> (delete (en_tick e) (pi_order p))) tick,
       Ok (en_page e))
  | None =>
      match read_from_disk id p with
      | Err x => (p, Err x)
      | Ok pg => let '(p, r) := admit_page id pg false p in (p, match r with Ok _ => Ok pg | Err x => Err x end)
      end
  end.

Definition page_write id (pg : page) p : PagerInner * result error_kind unit :=
  let p := if pi_page_count p <=? id then set_page_count ((id + 1) mod 2 ^ 32) p else p in
  admit_page id pg true p.

Fixpoint write_each (ids : list Z) p : PagerInner * result error_kind unit :=
  match ids with
  | [] => (p, Ok tt)
  | id :: ids => match write_to_disk id p with (p, Ok _) => write_each ids p | (p, Err x) => (p, Err x) end
  end.

Definition flush p : PagerInner * result error_kind unit :=
  write_each (map fst (filter (fun x => en_dirty x.2 = true) (map_to_list (pi_cache p)))) p.

(** ** What is on the file *)

Definition region (file : list Z) id : list Z := slice file (page_offset id) (page_offset id + PAGE_SIZE).

Definition on_file (file : list Z) id (a : apage) : Prop :=
  length (region file id) = PAGE_SIZE /\ exists body pg, decrypt (region file id) = Some body /\ decode body = Ok pg /\ page_ok pg /\ page_abs pg = a.

Lemma length_region file id : length (region file id) = Nat.min PAGE_SIZE (length file - page_offset id).
Proof. unfold region, slice. rewrite length_take, length_drop. lia. Qed.

Lemma PAGE_SIZE_val : Z.of_nat PAGE_SIZE = 16384.
Proof. vm_compute. reflexivity. Qed.

Lemma PAGE_SIZE_pos : (0 < PAGE_SIZE)%nat.
Proof. pose proof PAGE_SIZE_val. lia. Qed.

Lemma region_full file id : length (region file id) = PAGE_SIZE <-> (page_offset id + PAGE_SIZE <= length file)%nat.
Proof. rewrite length_region. pose proof PAGE_SIZE_pos. lia. Qed.

Lemma region_lookup file id i : (i < PAGE_SIZE)%nat -> region file id !! i = file !! (page_offset id + i)%nat.
Proof. intros Hi. unfold region. rewrite lookup_slice by lia. done. Qed.

Lemma length_file_write file off data : length (file_write file off data) = Nat.max (length file) (off + length data).
Proof. unfold file_write. rewrite length_splice; rewrite length_app, length_replicate; lia. Qed.

Lemma file_write_same file id data : length data = PAGE_SIZE -> region (file_write file (page_offset id) data) id = data.
Proof.
  intros Hd. unfold region, file_write. rewrite <- Hd. apply slice_splice_eq; rewrite ?length_app, ?length_replicate; lia.
Qed.

Lemma offsets_apart id id' : 0 <= id -> 0 <= id' -> id <> id' ->
  (page_offset id + PAGE_SIZE <= page_offset id' \/ page_offset id' + PAGE_SIZE <= page_offset id)%nat.
Proof. intros H1 H2 Hne. unfold page_offset. assert (Z.to_nat id < Z.to_nat id' \/ Z.to_nat id' < Z.to_nat id)%nat as [?|?] by lia; [left|right]; nia. Qed.

Lemma file_write_other file id id' data : 0 <= id -> 0 <= id' -> id <> id' -> length data = PAGE_SIZE ->
  length (region file id') = PAGE_SIZE -> region (file_write file (page_offset id) data) id' = region file id'.
Proof.
  intros H1 H2 Hne Hd Hfull%region_full. unfold region, file_write. rewrite slice_splice_ne.
  - apply slice_app_l. lia.
  - rewrite length_app, length_replicate. lia.
  - rewrite Hd. destruct (offsets_apart id id' H1 H2 Hne); lia.
Qed.

(** ** The pager as a store of pages

    [s] is what a read of each page returns, [written] the pages written since the last flush, [d] what
    is certain to be on stable storage. *)

Hypothesis nonce_length : forall i, length (nonces i) = NONCE_LEN.

Definition ticks_of (p : PagerInner) : gmap Z Z := en_tick <$> pi_cache p.

Record pages_rep p (s : gmap Z apage) (count : Z) (written : gset Z) (d : gmap Z apage) : Prop := {
  rep_count : pi_page_count p = count;
  rep_range id a : s !! id = Some a -> 0 <= id < count;
  rep_cached id e : pi_cache p !! id = Some e -> page_ok (en_page e) /\ s !! id = Some (page_abs (en_page e)) /\ (en_dirty e = true -> id ∈ written);
  rep_file id a : s !! id = Some a -> (forall e, pi_cache p !! id = Some e -> en_dirty e = false) -> on_file (pi_file p) id a;
  rep_disk id : id ∉ written -> d !! id = s !! id;
}.

Record pager_rep p (s : gmap Z apage) (count : Z) (written : gset Z) (d : gmap Z apage) : Prop := {
  rep_pages : pages_rep p s count written d;
  rep_lru : lru_ok (ticks_of p) (pi_order p) (pi_tick p);
  rep_pool : (size (pi_cache p) <= pi_capacity p)%nat;
  rep_capacity : (0 < pi_capacity p)%nat;
}.

Lemma ticks_lookup p id : ticks_of p !! id = en_tick <$> pi_cache p !! id.
Proof. apply lookup_fmap. Qed.

Lemma encrypted_length i pg : page_ok pg -> length (encrypt (nonces i) (encode pg)) = PAGE_SIZE.
Proof. intros Hok. rewrite length_encrypt, encode_length by done. pose proof PAGE_SIZE_val. pose proof PAGE_BODY_LEN_val. unfold NONCE_LEN, TAG_LEN. lia. Qed.

Lemma encrypted_on_file file id i pg : page_ok pg -> on_file (file_write file (page_offset id) (encrypt (nonces i) (encode pg))) id (page_abs pg).
Proof.
  intros Hok. unfold on_file. rewrite file_write_same by (by apply encrypted_length). split; [by apply encrypted_length|].
  destruct (encode_page pg Hok) as (Hok' & Habs & _). exists (encode pg), (Page (encode pg)).
  split_and!; [by apply decrypt_encrypt|by apply decode_encode|done|done].
Qed.

Lemma on_file_other file id id' data a : 0 <= id -> 0 <= id' -> id <> id' -> length data = PAGE_SIZE ->
  on_file file id' a -> on_file (file_write file (page_offset id) data) id' a.
Proof. intros H1 H2 Hne Hd [Hl Hon]. unfold on_file. by rewrite file_write_other. Qed.

(** ** Writing and dropping pages *)

Lemma write_to_disk_spec p s count written d id e : pages_rep p s count written d -> pi_cache p !! id = Some e ->
  exists p', write_to_disk id p = (p', Ok tt) /\ pages_rep p' s count written d /\
    pi_cache p' = <[id := MkEntry (en_page e) false (en_tick e)]> (pi_cache p) /\
    pi_order p' = pi_order p /\ pi_tick p' = pi_tick p /\ pi_capacity p' = pi_capacity p.
Proof.
  intros Hr He. destruct (rep_cached _ _ _ _ _ Hr _ _ He) as (Hok & Hs & Hd). pose proof (rep_range _ _ _ _ _ Hr _ _ Hs) as Hid.
  unfold write_to_disk. rewrite He, encrypted_length, Nat.eqb_refl by done. cbn [negb]. eexists. split; [done|]. split_and!; try done.
  split; cbn [pi_page_count pi_cache pi_file]; [apply Hr|apply Hr| | |apply Hr].
  - intros id' e' [[<- <-]|[_ He']]%lookup_insert_Some; [|by apply Hr]. cbn [en_page en_dirty]. done.
  - intros id' a Hs' Hclean. destruct (decide (id = id')) as [<-|Hne].
    + rewrite Hs in Hs'. injection Hs' as <-. by apply encrypted_on_file.
    + pose proof (rep_range _ _ _ _ _ Hr _ _ Hs'). apply on_file_other; [lia|lia|done|by apply encrypted_length|].
      apply Hr; [done|]. intros e' He'. apply Hclean. by rewrite lookup_insert_ne.
Qed.

Lemma drop_spec p s count written d id e order tick : pages_rep p s count written d -> pi_cache p !! id = Some e -> en_dirty e = false ->
  pages_rep (set_pool p (delete id (pi_cache p)) order tick) s count written d.
Proof.
  intros Hr He Hc. split; cbn [set_pool pi_page_count pi_cache pi_file]; [apply Hr|apply Hr| | |apply Hr].
  - intros id' e' [_ He']%lookup_delete_Some. by apply Hr.
  - intros id' a Hs Hclean. apply Hr; [done|]. intros e' He'. destruct (decide (id = id')) as [<-|Hne]; [congruence|]. apply Hclean. by rewrite lookup_delete_ne.
Qed.

Lemma ticks_clean p id e : pi_cache p !! id = Some e -> en_tick <$> <[id := MkEntry (en_page e) false (en_tick e)]> (pi_cache p) = ticks_of p.
Proof. intros He. rewrite fmap_insert. cbn [en_tick]. apply insert_id. by rewrite ticks_lookup, He. Qed.

(** One round of the eviction loop. *)
Lemma evict_round p s count written d t v : pages_rep p s count written d -> lru_ok (ticks_of p) (pi_order p) (pi_tick p) ->
  ticks_of p !! v = Some t ->
  exists p', (match pi_cache p !! v with Some e => if en_dirty e then write_to_disk v (set_pool p (pi_cache p) (delete t (pi_order p)) (pi_tick p)) else (set_pool p (pi_cache p) (delete t (pi_order p)) (pi_tick p), Ok tt) | None => (set_pool p (pi_cache p) (delete t (pi_order p)) (pi_tick p), Ok tt) end) = (p', Ok tt) /\
    let p'' := set_pool p' (delete v (pi_cache p')) (pi_order p') (pi_tick p') in
    pages_rep p'' s count written d /\ lru_ok (ticks_of p'') (pi_order p'') (pi_tick p'') /\ pi_cache p'' = delete v (pi_cache p) /\
    pi_order p'' = delete t (pi_order p) /\ pi_tick p'' = pi_tick p /\ pi_capacity p'' = pi_capacity p.
Proof.
  intros Hr Hl Hv. pose proof (lru_forget _ _ _ _ _ Hl Hv) as Hf. rewrite ticks_lookup in Hv. apply fmap_Some in Hv as (e & He & ->). rewrite He.
  set (p0 := set_pool p (pi_cache p) (delete (en_tick e) (pi_order p)) (pi_tick p)).
  assert (pages_rep p0 s count written d) as Hr0 by (split; apply Hr).
  assert (exists p', (if en_dirty e then write_to_disk v p0 else (p0, Ok tt)) = (p', Ok tt) /\ pages_rep p' s count written d /\
    (exists e', pi_cache p' !! v = Some e' /\ en_dirty e' = false) /\ delete v (pi_cache p') = delete v (pi_cache p) /\
    pi_order p' = pi_order p0 /\ pi_tick p' = pi_tick p /\ pi_capacity p' = pi_capacity p) as (p' & -> & Hr' & (e' & He' & Hc) & Ed & Eo & Et & Ec).
  { destruct (en_dirty e) eqn:Hd.
    - destruct (write_to_disk_spec p0 s count written d v e Hr0 He) as (p' & -> & Hr' & Ecache & Eo & Et & Ec). exists p'. split; [done|].
      split; [done|]. rewrite Ecache, lookup_insert_eq, delete_insert_eq. split_and!; try done. by eexists.
    - exists p0. split_and!; try done. by exists e. }
  exists p'. split; [done|]. cbv zeta. split_and!; try done; [by eapply drop_spec|].
  cbn [set_pool pi_order pi_tick]. unfold ticks_of. cbn [set_pool pi_cache]. by rewrite Ed, fmap_delete, Eo, Et.
Qed.

Lemma evict_spec fuel id p s count written d : pages_rep p s count written d -> lru_ok (ticks_of p) (pi_order p) (pi_tick p) ->
  pi_order p !! pi_tick p = Some id -> (0 < pi_capacity p)%nat -> (size (pi_cache p) <= fuel)%nat ->
  exists p', evict fuel id p = (p', Ok tt) /\ pager_rep p' s count written d /\ pi_capacity p' = pi_capacity p.
Proof.
  revert p. induction fuel as [|fuel IH]; intros p Hr Hl Hid Hcap Hsz; cbn [evict].
  - exists p. split_and!; try done. split; try done. lia.
  - destruct (Nat.leb_spec (size (pi_cache p)) (pi_capacity p)) as [Hle|Hgt]; [exists p; split_and!; try done; by split|].
    assert (size (ticks_of p) = size (pi_cache p)) as Es by apply map_size_fmap.
    destruct (lru_oldest _ _ _ Hl) as (t & v & Eo & Hv); [lia|]. rewrite Eo.
    destruct (Z.eqb_spec v id) as [->|Hne].
    { exfalso. pose proof (proj2 (lru_agree _ _ _ Hl id _) Hid) as Hid'. rewrite Hid' in Hv. injection Hv as <-.
      rewrite (lru_alone _ _ _ _ Hl Hid Eo) in Es. lia. }
    destruct (evict_round p s count written d t v Hr Hl Hv) as (p' & Ep & Hr' & Hl' & Ecache & Eorder & Etick & Ecap).
    cbn [set_pool pi_cache]. rewrite Ep. rewrite <- Ecap.
    apply IH; [done|done| |lia|].
    + rewrite Eorder, Etick, lookup_delete_ne; [done|]. intros ->. apply (proj1 (lru_agree _ _ _ Hl v _)) in Hv. congruence.
    + rewrite Ecache. rewrite ticks_lookup in Hv. apply fmap_Some in Hv as (e & He & _). rewrite map_size_delete_Some by eauto. lia.
Qed.

(** Admitting a page makes it what a read returns. *)
Lemma admit_spec id pg (dirty : bool) p s count written d s' (written' : gset Z) : pager_rep p s count written d -> page_ok pg -> 0 <= id < count ->
  s' = <[id := page_abs pg]> s -> written' = (if dirty then {[id]} ∪ written else written) ->
  (dirty = false -> on_file (pi_file p) id (page_abs pg) /\ pi_cache p !! id = None /\ s !! id = Some (page_abs pg)) ->
  exists p', admit_page id pg dirty p = (p', Ok tt) /\ pager_rep p' s' count written' d /\ pi_capacity p' = pi_capacity p.
Proof.
  intros [Hr Hl Hsz Hcap] Hok Hid -> -> Hclean. unfold admit_page. cbv zeta. set (p0 := set_pool _ _ _ _).
  assert (ticks_of p0 = <[id := pi_tick p + 1]> (ticks_of p)) as Et by apply (fmap_insert en_tick).
  destruct (evict_spec (size (pi_cache p0)) id p0 (<[id := page_abs pg]> s) count (if dirty then {[id]} ∪ written else written) d) as (p' & E & Hr' & Ec).
  - split; cbn [p0 set_pool pi_page_count pi_cache pi_file].
    + apply Hr.
    + intros id' a [[<- _]|[_ Hs]]%lookup_insert_Some; [done|by apply Hr in Hs].
    + intros id' e [[<- <-]|[Hne He]]%lookup_insert_Some; cbn [en_page en_dirty].
      * split; [done|]. split; [by rewrite lookup_insert_eq|]. intros ->. set_solver.
      * destruct (rep_cached _ _ _ _ _ Hr _ _ He) as (? & ? & Hw). split; [done|]. rewrite lookup_insert_ne by done. split; [done|].
        intros ?%Hw. destruct dirty; set_solver.
    + intros id' a [[<- <-]|[Hne Hs]]%lookup_insert_Some Hcl.
      * specialize (Hcl _ (lookup_insert_eq _ _ _)). cbn in Hcl. by apply Hclean.
      * apply Hr; [done|]. intros e He. apply Hcl. by rewrite lookup_insert_ne.
    + intros id' Hw. destruct dirty.
      * rewrite lookup_insert_ne by set_solver. apply Hr. set_solver.
      * destruct Hclean as (_ & _ & Hs); [done|]. rewrite (insert_id s) by done. by apply Hr.
  - rewrite Et. cbn [p0 set_pool pi_order pi_tick]. destruct (pi_cache p !! id) as [e|] eqn:He.
    + apply lru_touch; [done|]. by rewrite ticks_lookup, He.
    + apply lru_admit; [done|]. by rewrite ticks_lookup, He.
  - apply lookup_insert_eq.
  - done.
  - done.
  - exists p'. done.
Qed.

Lemma read_spec id p s count written d a : pager_rep p s count written d -> s !! id = Some a ->
  exists p' pg, page_read id p = (p', Ok pg) /\ page_abs pg = a /\ page_ok pg /\ pager_rep p' s count written d /\ pi_capacity p' = pi_capacity p.
Proof.
  intros Hp Hs. destruct Hp as [Hr Hl Hsz Hcap] eqn:Ep. clear Ep. pose proof (rep_range _ _ _ _ _ Hr _ _ Hs) as Hid.
  unfold page_read. destruct (pi_cache p !! id) as [e|] eqn:He.
  - destruct (rep_cached _ _ _ _ _ Hr _ _ He) as (Hok & Hs' & Hd). rewrite Hs in Hs'. injection Hs' as ->.
    eexists _, _. split; [done|]. split; [done|]. split; [done|]. split; [|done]. split; [split|..]; cbn [set_pool pi_page_count pi_cache pi_file pi_order pi_tick pi_capacity].
    + apply Hr.
    + apply Hr.
    + intros id' e' [[<- <-]|[_ He']]%lookup_insert_Some; [done|by apply Hr].
    + intros id' a Ha Hcl. apply Hr; [done|]. intros e' He'. destruct (decide (id = id')) as [<-|Hne].
      * rewrite He in He'. injection He' as <-. by apply (Hcl _ (lookup_insert_eq _ _ _)).
      * apply Hcl. by rewrite lookup_insert_ne.
    + apply Hr.
    + unfold ticks_of. cbn [set_pool pi_cache]. rewrite fmap_insert. apply lru_touch; [done|]. by rewrite lookup_fmap, He.
    + by rewrite map_size_insert_Some.
    + done.
  - assert (on_file (pi_file p) id a) as Hon by (apply Hr; [done|congruence]). destruct Hon as [Hfull (body & pg & Hdec & Hpg & Hok & <-)] eqn:Eh. clear Eh.
    unfold read_from_disk. rewrite (rep_count _ _ _ _ _ Hr). destruct (Z.leb_spec count id) as [?|_]; [lia|].
    pose proof Hfull as Hfull'%region_full. destruct (Nat.ltb_spec (length (pi_file p)) (page_offset id + PAGE_SIZE)) as [?|_]; [lia|].
    unfold region in Hdec. rewrite Hdec, Hpg.
    destruct (admit_spec id pg false p s count written d s written) as (p' & -> & Hr' & Ec); [by split|done|done|by rewrite insert_id|done| |].
    + intros _. split; [|done]. split; [done|]. by exists body, pg.
    + exists p', pg. done.
Qed.

(** A read past the end is refused and changes nothing. *)
Lemma read_past_end id p s count written d : pager_rep p s count written d -> count <= id -> page_read id p = (p, Err InvalidInput).
Proof.
  intros [Hr _ _ _] Hid. unfold page_read. destruct (pi_cache p !! id) as [e|] eqn:He.
  { destruct (rep_cached _ _ _ _ _ Hr _ _ He) as (_ & Hs & _). pose proof (rep_range _ _ _ _ _ Hr _ _ Hs). lia. }
  unfold read_from_disk. rewrite (rep_count _ _ _ _ _ Hr). destruct (Z.leb_spec count id); [done|lia].
Qed.

Lemma grown p s count count' written d : pager_rep p s count written d -> count <= count' -> pager_rep (set_page_count count' p) s count' written d.
Proof.
  intros [Hr Hl Hsz Hcap] Hle. split; [split|..]; try done; try apply Hr. intros id a Hs. pose proof (rep_range _ _ _ _ _ Hr _ _ Hs). lia.
Qed.

Lemma page_write_spec id pg p s count written d : pager_rep p s count written d -> page_ok pg -> 0 <= id -> id + 1 < 2 ^ 32 ->
  exists p', page_write id pg p = (p', Ok tt) /\ pi_capacity p' = pi_capacity p /\
    pager_rep p' (<[id := page_abs pg]> s) (if count <=? id then id + 1 else count) ({[id]} ∪ written) d.
Proof.
  intros Hp Hok Hid Hb. unfold page_write. cbv zeta. rewrite (Z.mod_small (id + 1)) by lia. rewrite (rep_count _ _ _ _ _ (rep_pages _ _ _ _ _ Hp)). destruct (Z.leb_spec count id) as [Hle|Hlt].
  - destruct (admit_spec id pg true (set_page_count (id + 1) p) s (id + 1) written d (<[id := page_abs pg]> s) ({[id]} ∪ written)) as (p' & E & Hr & Ec); [apply grown with count; [done|lia]|done|lia|done|done|done|].
    by exists p'.
  - destruct (admit_spec id pg true p s count written d (<[id := page_abs pg]> s) ({[id]} ∪ written) Hp Hok) as (p' & E & Hr & Ec); [lia|done|done|done|]. by exists p'.
Qed.

(** ** Flushing *)

Lemma write_each_spec ids p s count written d : pager_rep p s count written d -> (forall id, id ∈ ids -> is_Some (pi_cache p !! id)) ->
  exists p', write_each ids p = (p', Ok tt) /\ pager_rep p' s count written d /\ pi_capacity p' = pi_capacity p /\
    (forall id e, pi_cache p' !! id = Some e -> en_dirty e = true -> (id ∉ ids) /\ pi_cache p !! id = Some e).
Proof.
  revert p. induction ids as [|id ids IH]; intros p Hp Hin; cbn [write_each].
  { exists p. split_and!; try done. intros. split; [apply not_elem_of_nil|done]. }
  destruct (Hin id) as [e He]; [by left|]. destruct Hp as [Hr Hl Hsz Hcap].
  destruct (write_to_disk_spec p s count written d id e Hr He) as (p1 & -> & Hr1 & Ecache & Eo & Et & Ec).
  destruct (IH p1) as (p' & -> & Hp' & Ec' & Hd).
  - split; [done| | |by rewrite Ec].
    + unfold ticks_of. rewrite Ecache, Eo, Et, ticks_clean; done.
    + rewrite Ecache, Ec, map_size_insert_Some; done.
  - intros id' Hid'. rewrite Ecache. destruct (decide (id = id')) as [<-|Hne]; [rewrite lookup_insert_eq; eauto|]. rewrite lookup_insert_ne by done. apply Hin. by right.
  - exists p'. split; [done|]. split; [done|]. split; [congruence|]. intros id' e' He' Hdirty. destruct (Hd id' e' He' Hdirty) as [Hn Hc]. rewrite Ecache in Hc.
    apply lookup_insert_Some in Hc as [[_ <-]|[Hne Hc]]; [done|]. split; [|done]. rewrite not_elem_of_cons. done.
Qed.

(** After a flush every page is on stable storage. *)
Lemma flush_spec p s count written d : pager_rep p s count written d ->
  exists p', flush p = (p', Ok tt) /\ pager_rep p' s count ∅ s /\ pi_capacity p' = pi_capacity p.
Proof.
  intros Hp. unfold flush. set (ids := map fst _).
  assert (forall id, id ∈ ids <-> exists e, pi_cache p !! id = Some e /\ en_dirty e = true) as Hids.
  { intros id. unfold ids. rewrite list_elem_of_fmap. split.
    - intros ([id' e] & -> & [Hd He%elem_of_map_to_list]%list_elem_of_filter). by exists e.
    - intros (e & He & Hd). exists (id, e). split; [done|]. apply list_elem_of_filter. split; [done|]. by apply elem_of_map_to_list. }
  destruct (write_each_spec ids p s count written d Hp) as (p' & E & [Hr Hl Hsz Hcap] & Ec & Hd); [intros id (e & He & _)%Hids; eauto|].
  exists p'. split; [done|]. split; [|done]. split; [split|..]; try done; try apply Hr.
  intros id e He. destruct (rep_cached _ _ _ _ _ Hr _ _ He) as (Hok & Hs & _). split; [done|]. split; [done|]. intros Hdirty.
  destruct (Hd id e He Hdirty) as [Hn Hc]. destruct Hn. apply Hids. by exists e.
Qed.

(** ** The pager refines the page store of the tree

    [pages] is the page store of [BTree.v]: what a read returns, the page count and what the last flush
    made durable. *)

Inductive pager_call := CRead (id : Z) | CWrite (id : Z) (pg : page) | CAllocate | CFlush.
Inductive pager_answer := RPage (r : result error_kind apage) | RId (id : Z) | RDone (r : result error_kind unit).

Definition pager_step (c : pager_call) p : PagerInner * pager_answer :=
  match c with
  | CRead id => let '(p, r) := page_read id p in (p, RPage (match r with Ok pg => Ok (page_abs pg) | Err x => Err x end))
  | CWrite id pg => let '(p, r) := page_write id pg p in (p, RDone r)
  | CAllocate => let '(p, id) := page_allocate p in (p, RId id)
  | CFlush => let '(p, r) := flush p in (p, RDone r)
  end.

Fixpoint pager_run (l : list pager_call) p : PagerInner * list pager_answer :=
  match l with
  | [] => (p, [])
  | c :: l => let '(p, r) := pager_step c p in let '(p, rs) := pager_run l p in (p, r :: rs)
  end.

(** The same calls on the page store the tree is modelled over. *)
Definition store_step (c : pager_call) (t : tree_state apage) : tree_state apage * pager_answer :=
  match c with
  | CRead id => let '(r, t) := pager_read id t in (t, RPage r)
  | CWrite id pg => let '(r, t) := pager_write id (page_abs pg) t in (t, RDone r)
  | CAllocate => let '(r, t) := pager_allocate t in (t, RId (match r with Ok id => id | Err _ => 0 end))
  | CFlush => let '(r, t) := pager_flush t in (t, RDone r)
  end.

Fixpoint store_run (l : list pager_call) (t : tree_state apage) : tree_state apage * list pager_answer :=
  match l with
  | [] => (t, [])
  | c :: l => let '(t, r) := store_step c t in let '(t, rs) := store_run l t in (t, r :: rs)
  end.

(** A legal call: a read of a page that was written or lies past the end, a write of a well-formed page,
    an allocation, as long as the page count they lead to is a [u32]. *)
Definition call_ok (t : tree_state apage) (c : pager_call) : Prop :=
  match c with
  | CRead id => is_Some (store t !! id) \/ page_count t <= id
  | CWrite id pg => page_ok pg /\ 0 <= id /\ id + 1 < 2 ^ 32
  | CAllocate => page_count t + 1 < 2 ^ 32
  | CFlush => True
  end.

Fixpoint calls_ok (l : list pager_call) (t : tree_state apage) : Prop :=
  match l with [] => True | c :: l => call_ok t c /\ calls_ok l (store_step c t).1 end.

(** The pages written since the last flush. *)
Definition written_step (c : pager_call) (w : gset Z) : gset Z :=
  match c with CWrite id _ => {[id]} ∪ w | CFlush => ∅ | _ => w end.

Definition pager_sim p (t : tree_state apage) (w : gset Z) : Prop := 0 <= page_count t /\ pager_rep p (store t) (page_count t) w (disk t).

Lemma pager_step_sim c p t w : pager_sim p t w -> call_ok t c ->
  (pager_step c p).2 = (store_step c t).2 /\ pager_sim (pager_step c p).1 (store_step c t).1 (written_step c w) /\
  pi_capacity (pager_step c p).1 = pi_capacity p.
Proof.
  intros [Hpos Hp] Hc. destruct c as [id|id pg| |]; cbn [pager_step store_step written_step call_ok] in *.
  - unfold pager_read. destruct Hc as [[a Ha]|Hle].
    + destruct (read_spec id p _ _ _ _ a Hp Ha) as (p' & pg & -> & <- & _ & Hp' & Ec). rewrite Ha.
      pose proof (rep_range _ _ _ _ _ (rep_pages _ _ _ _ _ Hp) _ _ Ha). destruct (Z.leb_spec (page_count t) id); [lia|done].
    + rewrite (read_past_end id p _ _ _ _ Hp Hle). destruct (Z.leb_spec (page_count t) id); [done|lia].
  - destruct Hc as (Hok & Hid & Hb). destruct (page_write_spec id pg p _ _ _ _ Hp Hok Hid Hb) as (p' & -> & Ec & Hp'). cbn [pager_write fst snd set_store].
    rewrite (Z.mod_small (id + 1)) by lia. split; [done|]. split; [|done].
    split; unfold set_store; cbn [page_count store disk]; [|done]. destruct (Z.leb_spec (page_count t) id); lia.
  - unfold page_allocate, pager_allocate. cbn [fst snd set_store]. rewrite (rep_count _ _ _ _ _ (rep_pages _ _ _ _ _ Hp)), !(Z.mod_small (page_count t + 1)) by lia.
    split; [done|]. split; [|done]. split; unfold set_store; cbn [page_count store disk]; [lia|]. apply grown with (page_count t); [done|lia].
  - destruct (flush_spec p _ _ _ _ Hp) as (p' & -> & Hp' & Ec). done.
Qed.

(** A read past the end is refused; nothing else is an error. *)
Definition no_failure (a : pager_answer) : Prop :=
  match a with RPage (Err x) => x = InvalidInput | RDone (Err _) => False | _ => True end.

Lemma store_step_fine c p t w : pager_sim p t w -> call_ok t c -> no_failure (store_step c t).2.
Proof.
  intros [_ Hp] Hc. destruct c as [id| | |]; cbn [store_step call_ok] in *; [|done..]. unfold pager_read.
  destruct (Z.leb_spec (page_count t) id) as [|Hlt]; [done|]. destruct Hc as [[a Ha]|Hle]; [by rewrite Ha|lia].
Qed.

Lemma pager_run_sim l p t w : pager_sim p t w -> calls_ok l t ->
  (pager_run l p).2 = (store_run l t).2 /\ pager_sim (pager_run l p).1 (store_run l t).1 (foldl (fun w c => written_step c w) w l) /\
  pi_capacity (pager_run l p).1 = pi_capacity p /\ Forall no_failure (store_run l t).2.
Proof.
  revert p t w. induction l as [|c l IH]; intros p t w Hs Hok; cbn [pager_run store_run calls_ok foldl] in *; [split_and!; try done; constructor|].
  destruct Hok as [Hc Hl]. destruct (pager_step_sim c p t w Hs Hc) as (Er & Hs' & Ec). pose proof (store_step_fine c p t w Hs Hc) as Hfine.
  destruct (pager_step c p) as [p1 r1], (store_step c t) as [t1 r2]. cbn [fst snd] in *. subst r2.
  destruct (IH p1 t1 _ Hs' Hl) as (Ers & Hs2 & Ec2 & Hall). destruct (pager_run l p1) as [p2 rs], (store_run l t1) as [t2 rs']. cbn [fst snd] in *.
  split; [congruence|]. split; [done|]. split; [congruence|by constructor].
Qed.

(** A file as a crash or a shutdown leaves it, opened again: the pages it holds whole are there. *)
Lemma open_rep file configured s : (forall id a, s !! id = Some a -> 0 <= id /\ on_file file id a) ->
  Z.of_nat (length file) / Z.of_nat PAGE_SIZE < 2 ^ 32 ->
  pager_rep (pager_open file configured) s (Z.of_nat (length file) / Z.of_nat PAGE_SIZE) ∅ s.
Proof.
  intros Hs Hlen. pose proof PAGE_SIZE_pos. assert (0 <= Z.of_nat (length file) / Z.of_nat PAGE_SIZE) by (apply Z.div_pos; lia).
  split; [split|..]; cbn [pager_open pi_page_count pi_cache pi_file pi_order pi_tick pi_capacity].
  - apply Z.mod_small. lia.
  - intros id a Ha. destruct (Hs id a Ha) as [Hid [Hfull%region_full _]]. split; [done|].
    assert (id + 1 <= Z.of_nat (length file) / Z.of_nat PAGE_SIZE); [|lia]. apply Z.div_le_lower_bound; [lia|]. unfold page_offset in Hfull. nia.
  - intros id e He. by rewrite lookup_empty in He.
  - intros id a Ha _. by apply Hs.
  - done.
  - unfold ticks_of. cbn [pager_open pi_cache]. rewrite fmap_empty. apply lru_empty.
  - rewrite map_size_empty. lia.
  - unfold DEFAULT_CACHE_PAGES. destruct configured as [n|]; [|lia]. destruct (Nat.ltb_spec 0 n); lia.
Qed.

(** C16: The pager is the page store the tree is written against.  Any sequence of legal reads, writes,
    allocations and flushes (reads of pages that were written or lie past the end, and identifiers and a
    page count that fit 32 bits), over any file and under any capacity of the buffer pool, gives the
    answers of the plain store of pages, whatever was evicted, encrypted and read back in between: a read
    past the end is refused, and no other call fails.  It never keeps more pages in memory than its
    capacity. *)
Theorem pager_refines_store l p t w : pager_sim p t w -> calls_ok l t ->
  (pager_run l p).2 = (store_run l t).2 /\ Forall no_failure (pager_run l p).2 /\ (exists w', pager_sim (pager_run l p).1 (store_run l t).1 w') /\
  (size (pi_cache (pager_run l p).1) <= pi_capacity p)%nat.
Proof.
  intros Hs Hok. destruct (pager_run_sim l p t w Hs Hok) as (Er & Hs' & Ec & Hall). split; [done|]. split; [by rewrite Er|]. split; [eauto|].
  rewrite <- Ec. apply Hs'.
Qed.

(** What was flushed survives.  After any legal run, let a crash leave in the pages written since the
    last flush, and past the end, whatever it likes: the file opens, and every other page of the last flush
    reads as it stood then. *)
Theorem pager_crash_keeps_flushed l p t w configured file' : pager_sim p t w -> calls_ok l t ->
  let w' := foldl (fun w c => written_step c w) w l in
  (forall id, 0 <= id -> id ∉ w' -> region file' id = region (pi_file (pager_run l p).1) id) ->
  Z.of_nat (length file') / Z.of_nat PAGE_SIZE < 2 ^ 32 ->
  forall id a, disk (store_run l t).1 !! id = Some a -> id ∉ w' ->
  exists p' pg, page_read id (pager_open file' configured) = (p', Ok pg) /\ page_abs pg = a.
Proof.
  intros Hs Hok w' Hfile Hlen id a Ha Hid. destruct (pager_run_sim l p t w Hs Hok) as (_ & [_ Hp] & _). fold w' in Hp.
  destruct Hp as [Hr _ _ _]. pose proof Ha as Hst. rewrite (rep_disk _ _ _ _ _ Hr id Hid) in Hst.
  assert (on_file file' id a) as Hon.
  { pose proof (rep_range _ _ _ _ _ Hr _ _ Hst) as Hrange. assert (on_file (pi_file (pager_run l p).1) id a) as Hon.
    { apply Hr; [done|]. intros e He. destruct (en_dirty e) eqn:Hd; [|done]. destruct (rep_cached _ _ _ _ _ Hr _ _ He) as (_ & _ & Hw). destruct Hid. by apply Hw. }
    unfold on_file in *. by rewrite Hfile by lia || done. }
  destruct (read_spec id (pager_open file' configured) {[id := a]} (Z.of_nat (length file') / Z.of_nat PAGE_SIZE) ∅ {[id := a]} a) as (p' & pg & E & Habs & _).
  - apply open_rep; [|done]. intros id' a' [<- <-]%lookup_singleton_Some. split; [|done]. by apply (rep_range _ _ _ _ _ Hr _ _ Hst).
  - apply lookup_singleton_eq.
  - by exists p', pg.
Qed.
End pager.

(** Two pages through a pool of one. *)
Section examples.
Local Existing Instance null_aead.

Definition zero_nonces (_ : nat) : list Z := replicate NONCE_LEN 0.
Definition empty_store : tree_state apage := TreeState 0 0 0 [] ∅ ∅ ∅ 0 ∅.
Definition two_pages : list pager_call :=
  [CAllocate; CWrite 0 (page_new Leaf); CAllocate; CWrite 1 (page_new Branch); CRead 0; CRead 7; CFlush; CWrite 1 (page_new Heap)].

Lemma empty_sim : pager_sim (pager_open [] (Some 1%nat)) empty_store ∅.
Proof.
  split; [done|]. apply (open_rep [] (Some 1%nat) ∅); [|done]. intros id a Ha. by rewrite lookup_empty in Ha.
Qed.

Lemma page_new_ok k : page_ok (page_new k).
Proof. apply page_new_spec. Qed.

Lemma two_pages_ok : calls_ok two_pages empty_store.
Proof.
  pose proof page_new_ok as Hnew.
  split; [reflexivity|]. split; [split; [apply Hnew|lia]|]. split; [reflexivity|]. split; [split; [apply Hnew|lia]|].
  split; [left; exists (page_abs (page_new Leaf)); reflexivity|]. split; [right; apply Z.leb_le; lazy; reflexivity|].
  split; [exact I|]. split; [split; [apply Hnew|lia]|exact I].
Qed.

Lemma pager_refines_store_witness :
  (pager_run zero_nonces two_pages (pager_open [] (Some 1%nat))).2 = (store_run two_pages empty_store).2 /\
  (size (pi_cache (pager_run zero_nonces two_pages (pager_open [] (Some 1%nat))).1) <= 1)%nat.
Proof.
  destruct (pager_refines_store zero_nonces (fun _ => eq_refl) two_pages _ _ _ empty_sim two_pages_ok) as (H1 & _ & _ & H2). split; [exact H1|exact H2].
Defined.

(** The file after the run, with the page written since the flush torn to zeros. *)
Definition last_file : list Z := pi_file (pager_run zero_nonces two_pages (pager_open [] (Some 1%nat))).1.
Definition torn_file : list Z := file_write last_file (page_offset 1) (replicate PAGE_SIZE 0).

Lemma last_file_length : length last_file = (PAGE_SIZE + PAGE_SIZE)%nat.
Proof.
  assert (Z.of_nat (length last_file) = 32768) by (vm_compute; reflexivity). pose proof PAGE_SIZE_val. lia.
Qed.

Lemma torn_file_length : length torn_file = (PAGE_SIZE + PAGE_SIZE)%nat.
Proof. unfold torn_file. rewrite length_file_write, length_replicate, last_file_length. unfold page_offset. change (Z.to_nat 1) with 1%nat. lia. Qed.

Lemma torn_elsewhere id : 0 <= id -> id <> 1 -> region torn_file id = region last_file id.
Proof.
  intros Hid Hne. destruct (decide (id = 0)) as [->|Hne0].
  - apply file_write_other; [lia|lia|lia|apply length_replicate|]. apply region_full. rewrite last_file_length. unfold page_offset. change (Z.to_nat 0) with 0%nat. lia.
  - pose proof PAGE_SIZE_pos. assert (length (region torn_file id) = 0%nat /\ length (region last_file id) = 0%nat) as [->%nil_length_inv ->%nil_length_inv]; [|done].
    rewrite !length_region, torn_file_length, last_file_length. assert (2 <= Z.to_nat id)%nat by lia. unfold page_offset. nia.
Qed.

Lemma pager_crash_keeps_flushed_witness :
  exists p' pg, page_read zero_nonces 0 (pager_open torn_file None) = (p', Ok pg) /\ page_abs pg = page_abs (page_new Leaf).
Proof.
  apply (pager_crash_keeps_flushed zero_nonces (fun _ => eq_refl) two_pages _ _ _ None torn_file empty_sim two_pages_ok).
  - intros id Hid Hw. apply torn_elsewhere; [done|]. intros ->. apply Hw. vm_compute. reflexivity.
  - rewrite torn_file_length, Nat2Z.inj_add, PAGE_SIZE_val. reflexivity.
  - reflexivity.
  - vm_compute. discriminate.
Defined.
End examples.
