(* ===== verification/Keys.v ===== *)
(** * The keys of the built-in indexes ([src/src/storage/index.rs])

    Composite keys are length-prefixed components followed by an unprefixed
    tail.  The theorems: keys are injective, the prefix a scan filters on
    selects exactly its own entries, history keys sort by version, and the
    checks made before a mutation is logged guarantee that [BTree::put] will
    accept every key the mutation produces. *)

From Stdlib Require Import ZArith Lia.
From stdpp Require Import base tactics list option.
From S2P Require Import Prelude Binary Page PageSpec BTree BTreeCells.

(** Strings are their UTF-8 bytes, as [as_bytes] and [len] see them. *)

(** ** Key encoding *)

Definition component (value : list Z) : list Z :=
  be_bytes 2 (Z.of_nat (length value) mod 65536) ++ value.

Definition split_component (key : list Z) : option (list Z * list Z) :=
  if length key <? 2 then None
  else
    let len := Z.to_nat (be_val (slice key 0 2)) in
    if length key <? 2 + len then None else Some (slice key 2 (2 + len), drop (2 + len) key).

Definition kind_prefix (kind : list Z) : list Z := component kind.
Definition kind_key (kind address : list Z) : list Z := component kind ++ address.
Definition owner_prefix (owner : list Z) : list Z := component owner.
Definition owner_key (owner address : list Z) : list Z := component owner ++ address.
Definition edge_out_prefix (from : list Z) : list Z := component from.
Definition edge_out_key (from kind to : list Z) : list Z := component from ++ component kind ++ to.
Definition edge_in_prefix (to : list Z) : list Z := component to.
Definition edge_in_key (to kind from : list Z) : list Z := component to ++ component kind ++ from.
Definition history_prefix (address : list Z) : list Z := component address.
Definition history_key (address : list Z) (version : Z) : list Z := component address ++ be_bytes 8 version.

(** ** Admissibility, decided before anything is logged *)

Definition MAX_COMPONENT_LEN : Z := 65535.

(** A refusal; the code's message says which key. *)
Definition check : Type := result unit unit.

Definition check_component (value : list Z) : check :=
  if (MAX_COMPONENT_LEN <? Z.of_nat (length value))%Z then Err tt else Ok tt.

Definition check_key_admissible (key : list Z) : check :=
  if length key =? 0 then Err tt else if MAX_KEY_LEN <? length key then Err tt else Ok tt.

Definition U64_MAX : Z := 18446744073709551615.

Definition check_node_keys (address kind owner : list Z) : check :=
  _ ← check_component address;
  _ ← check_component kind;
  _ ← check_component owner;
  _ ← check_key_admissible address;
  _ ← check_key_admissible (kind_key kind address);
  _ ← check_key_admissible (owner_key owner address);
  check_key_admissible (history_key address U64_MAX).

Definition check_history_keys (address node_address node_kind node_owner : list Z) : check :=
  _ ← check_component address;
  _ ← check_key_admissible (history_key address U64_MAX);
  check_node_keys node_address node_kind node_owner.

Definition check_edge_keys (from to kind : list Z) : check :=
  _ ← check_component from;
  _ ← check_component to;
  _ ← check_component kind;
  _ ← check_key_admissible (edge_out_key from kind to);
  check_key_admissible (edge_in_key to kind from).

(** ** Components *)

(** Short enough for the [u16] length prefix. *)
Definition short (s : list Z) : Prop := (Z.of_nat (length s) <= MAX_COMPONENT_LEN)%Z.

Lemma check_component_short s : check_component s = Ok tt <-> short s.
Proof. unfold check_component, short. case_goal; breflect; split; (done || lia). Qed.

Lemma component_eq s : short s -> component s = be_bytes 2 (Z.of_nat (length s)) ++ s.
Proof. unfold short, MAX_COMPONENT_LEN, component. intros. by rewrite Z.mod_small by lia. Qed.

Lemma length_component s : length (component s) = 2 + length s.
Proof. unfold component. rewrite length_app, length_be_bytes. lia. Qed.

Lemma component_bytes s : bytes s -> bytes (component s).
Proof. intros. unfold component. auto with fq. Qed.

(** A component cannot be confused with what follows it. *)
Lemma split_component_app s rest : short s -> split_component (component s ++ rest) = Some (s, rest).
Proof.
  intros Hs. pose proof Hs as Hl. unfold short, MAX_COMPONENT_LEN in Hl. unfold split_component.
  rewrite component_eq by done. rewrite <- app_assoc.
  assert (be_val (slice (be_bytes 2 (Z.of_nat (length s)) ++ s ++ rest) 0 2) = Z.of_nat (length s)) as ->.
  { rewrite slice_app_l, slice_all by (rewrite length_be_bytes; lia). apply be_val_be_bytes_small.
    change (256 ^ Z.of_nat 2)%Z with 65536%Z. lia. }
  rewrite Nat2Z.id, !length_app, length_be_bytes. do 2 (case_goal; breflect; [lia|]). do 2 f_equal.
  - rewrite (slice_app_r _ _ _ _ 2) by (rewrite ?length_be_bytes; lia). rewrite slice_app_l by lia. apply slice_all. lia.
  - rewrite drop_app_ge by (rewrite length_be_bytes; lia). rewrite length_be_bytes.
    replace (2 + length s - 2) with (length s) by lia. apply drop_app_length.
Qed.

Lemma component_inj s s' r r' : short s -> short s' -> component s ++ r = component s' ++ r' -> s = s' /\ r = r'.
Proof.
  intros Hs Hs' E. pose proof (split_component_app s r Hs) as H. rewrite E, split_component_app in H by done.
  injection H as -> ->. done.
Qed.

(** A key starts with a component exactly when that is its first component. *)
Lemma component_prefix s s' r : short s -> short s' -> starts_with (component s ++ r) (component s') = true <-> s = s'.
Proof.
  intros Hs Hs'. rewrite starts_with_spec. split.
  - intros [r' E]. by apply component_inj in E as [-> _].
  - intros ->. by exists r.
Qed.

Lemma check_bind (c d : check) : (_ ← c; d) = Ok tt <-> c = Ok tt /\ d = Ok tt.
Proof. destruct c as [[]|[]]; cbn; split; [auto|by intros [_ ?]|done|by intros [? _]]. Qed.

Lemma check_key_legal key : check_key_admissible key = Ok tt <-> 0 < length key <= MAX_KEY_LEN.
Proof. unfold check_key_admissible. repeat case_goal; breflect; split; (done || lia). Qed.

Lemma length_history_key a v : length (history_key a v) = 10 + length a.
Proof. unfold history_key. rewrite length_app, length_component, length_be_bytes. lia. Qed.

(** Big-endian words compare as numbers. *)
Lemma le_val_app l r : le_val (l ++ r) = (le_val l + 256 ^ Z.of_nat (length l) * le_val r)%Z.
Proof.
  induction l as [|b l IH]; cbn [app le_val length]; [lia|].
  rewrite IH, Nat2Z.inj_succ, Z.pow_succ_r by lia. lia.
Qed.

Lemma be_val_cons b l : be_val (b :: l) = (b * 256 ^ Z.of_nat (length l) + be_val l)%Z.
Proof. unfold be_val. rewrite reverse_cons, le_val_app, length_reverse. cbn [le_val]. lia. Qed.

Lemma be_val_bound l : bytes l -> (0 <= be_val l < 256 ^ Z.of_nat (length l))%Z.
Proof. intros Hl. unfold be_val. rewrite <- length_reverse. by apply le_val_bound, Forall_reverse. Qed.

Lemma lex_cmp_be a b : bytes a -> bytes b -> length a = length b -> lex_cmp a b = (be_val a ?= be_val b)%Z.
Proof.
  intros Ha. revert b. induction Ha as [|x a Hx Ha IH]; intros [|y b] Hb Hl; try done. inversion Hb as [|? ? Hy Hb']; subst.
  injection Hl as Hl. cbn [lex_cmp]. rewrite !be_val_cons, IH, Hl by done.
  pose proof (be_val_bound a Ha). pose proof (be_val_bound b Hb'). rewrite Hl in *.
  assert (0 < 256 ^ Z.of_nat (length b))%Z by (apply Z.pow_pos_nonneg; lia).
  destruct (Z.compare_spec x y) as [->|Hlt|Hgt].
  - symmetry. apply Z.add_compare_mono_l.
  - symmetry. apply Z.compare_lt_iff. nia.
  - symmetry. apply Z.compare_gt_iff. nia.
Qed.

Lemma lex_cmp_be_bytes n x y :
  (0 <= x < 256 ^ Z.of_nat n)%Z -> (0 <= y < 256 ^ Z.of_nat n)%Z -> lex_cmp (be_bytes n x) (be_bytes n y) = (x ?= y)%Z.
Proof.
  intros. rewrite lex_cmp_be by (auto with fq; by rewrite !length_be_bytes). by rewrite !be_val_be_bytes_small.
Qed.

(** ** What the keys promise *)

(** Every composite key determines its parts (for parts within the component limit), and the
    prefix of a scan selects exactly the entries of its own kind, owner or node. *)
Theorem index_keys_unambiguous (k a k' a' t t' : list Z) (v v' : Z) :
  short k -> short k' -> short a -> short a' -> u64 v -> u64 v' ->
  (kind_key k a = kind_key k' a' -> k = k' /\ a = a') /\
  (owner_key k a = owner_key k' a' -> k = k' /\ a = a') /\
  (edge_out_key a k t = edge_out_key a' k' t' -> a = a' /\ k = k' /\ t = t') /\
  (edge_in_key a k t = edge_in_key a' k' t' -> a = a' /\ k = k' /\ t = t') /\
  (history_key a v = history_key a' v' -> a = a' /\ v = v') /\
  (starts_with (kind_key k t) (kind_prefix k') = true <-> k = k') /\
  (starts_with (owner_key k t) (owner_prefix k') = true <-> k = k') /\
  (starts_with (edge_out_key a k t) (edge_out_prefix a') = true <-> a = a') /\
  (starts_with (edge_in_key a k t) (edge_in_prefix a') = true <-> a = a') /\
  (starts_with (history_key a v) (history_prefix a') = true <-> a = a').
Proof.
  intros Hk Hk' Ha Ha' Hv Hv'.
  refine (conj _ (conj _ (conj _ (conj _ (conj _ (conj _ (conj _ (conj _ (conj _ _))))))))).
  1,2: by intros E%component_inj.
  1,2: intros [-> E]%component_inj; auto; by apply component_inj in E as [-> ->].
  1: intros [-> E]%component_inj; auto; split; [done|]; by apply be_bytes_inj in E.
  all: by apply component_prefix.
Qed.

Lemma index_keys_unambiguous_witness :
  starts_with (kind_key [80; 111]%Z [97; 98]%Z) (kind_prefix [80; 111]%Z) = true <-> [80; 111]%Z = [80; 111]%Z.
Proof.
  refine (proj1 (proj2 (proj2 (proj2 (proj2 (proj2 (index_keys_unambiguous [80; 111]%Z [97]%Z [80; 111]%Z [98]%Z [97; 98]%Z [] 1 2 _ _ _ _ _ _)))))));
    unfold short, MAX_COMPONENT_LEN; cbn; lia.
Defined.

(** The archived states of one node sort by version: comparing two history keys of the same
    address compares the versions as numbers. *)
Theorem history_keys_sort_by_version (a : list Z) (v v' : Z) :
  u64 v -> u64 v' -> lex_cmp (history_key a v) (history_key a v') = (v ?= v')%Z.
Proof. intros Hv Hv'. unfold history_key. rewrite lex_cmp_app. by apply lex_cmp_be_bytes. Qed.

Lemma history_keys_sort_by_version_witness : lex_cmp (history_key [97%Z] 255) (history_key [97%Z] 256) = (255 ?= 256)%Z.
Proof. apply history_keys_sort_by_version; lia. Defined.

(** Admissibility is sound and complete: the check made before a node mutation is logged passes
    exactly when every key the mutation can produce (primary, kind, owner, and history at any
    version) has a length [BTree::put] accepts and no component overflows its length prefix. *)
Theorem node_keys_admissible (address kind owner : list Z) :
  check_node_keys address kind owner = Ok tt <->
  (short address /\ short kind /\ short owner) /\
  forall version, Forall (fun key => 0 < length key <= MAX_KEY_LEN)
    [address; kind_key kind address; owner_key owner address; history_key address version].
Proof.
  unfold check_node_keys. rewrite !check_bind, !check_component_short, !check_key_legal. rewrite length_history_key. split.
  - intros (? & ? & ? & ? & ? & ? & ?). split; [done|]. intros v.
    repeat apply Forall_cons_2; try apply Forall_nil_2; auto. by rewrite length_history_key.
  - intros [(? & ? & ?) Hall]. specialize (Hall 0%Z).
    do 4 apply Forall_cons_1 in Hall as [? Hall]. by rewrite length_history_key in *.
Qed.

(** The same for edges: both index keys of an edge are accepted by [BTree::put] exactly when
    [check_edge_keys] passes (the components being within the length prefix). *)
Theorem edge_keys_admissible (from to kind : list Z) :
  check_edge_keys from to kind = Ok tt <->
  (short from /\ short to /\ short kind) /\
  0 < length (edge_out_key from kind to) <= MAX_KEY_LEN /\ 0 < length (edge_in_key to kind from) <= MAX_KEY_LEN.
Proof.
  unfold check_edge_keys. rewrite !check_bind, !check_component_short, !check_key_legal. tauto.
Qed.
