(* ===== verification/Json.v ===== *)
(** * Doubles, strings and JSON values

    What the query side of the program computes with: [f64] (the language's
    IEEE-754 doubles, here the Standard Library's [spec_float] at 53 bits of
    precision), strings with their UTF-8 bytes, and [serde_json::Value].
    Numbers inside a JSON value are [serde_json]'s own type, so that type and
    its conversions are the class [SerdeJson]; the documented behaviour the
    program relies on is [SerdeLaws]. *)

From Stdlib Require Import ZArith Lia SpecFloat Ascii String.
From stdpp Require Import base tactics list strings option.
From S2P Require Import Prelude.

(** ** [f64] *)

Abbreviation f64 := spec_float.

Definition f64_valid (x : f64) : bool := valid_binary 53 1024 x.

Definition is_finite (x : f64) : bool :=
  match x with S754_zero _ | S754_finite _ _ _ => true | _ => false end.

Definition f64_add : f64 -> f64 -> f64 := SFadd 53 1024.
Definition f64_sub : f64 -> f64 -> f64 := SFsub 53 1024.
Definition f64_mul : f64 -> f64 -> f64 := SFmul 53 1024.
Definition f64_div : f64 -> f64 -> f64 := SFdiv 53 1024.
Definition f64_zero : f64 := S754_zero false.

(** An integer as the nearest double ([as f64]). *)
Definition f64_of_Z (z : Z) : f64 := binary_normalize 53 1024 z 0 false.

(** [f64::trunc]: towards zero, keeping the sign of zero. *)
Definition f64_trunc (x : f64) : f64 :=
  match x with
  | S754_finite s m e =>
      if (0 <=? e)%Z then x
      else binary_normalize 53 1024 (cond_Zopp s (Z.shiftr (Zpos m) (- e))) 0 s
  | _ => x
  end.

(** [%]: the exact remainder of the truncated quotient, with the sign of the dividend. *)
Definition f64_rem (x y : f64) : f64 :=
  match x, y with
  | S754_nan, _ | _, S754_nan | S754_infinity _, _ | _, S754_zero _ => S754_nan
  | S754_zero _, _ | _, S754_infinity _ => x
  | S754_finite sx mx ex, S754_finite _ my ey =>
      let e := Z.min ex ey in
      let r := (Z.shiftl (Zpos mx) (ex - e) mod Z.shiftl (Zpos my) (ey - e))%Z in
      binary_normalize 53 1024 (cond_Zopp sx r) e sx
  end.

Definition is_sign_negative (x : f64) : bool :=
  match x with S754_zero s | S754_infinity s | S754_finite s _ _ => s | S754_nan => false end.

(** [f64::to_bits].  A finite number is canonical (53-bit mantissa, or the least
    exponent), so its biased exponent and fraction are [mantissa + (e + 1074) * 2^52]. *)
Definition magnitude_bits (x : f64) : Z :=
  match x with
  | S754_zero _ => 0
  | S754_finite _ m e => Zpos m + (e + 1074) * 2 ^ 52
  | S754_infinity _ => 2047 * 2 ^ 52
  | S754_nan => 2047 * 2 ^ 52 + 2 ^ 51
  end.

Definition to_bits (x : f64) : Z := (if is_sign_negative x then 2 ^ 63 else 0) + magnitude_bits x.

Section bits.
Local Open Scope Z_scope.

Lemma digits2_pos_bound m : 2 ^ (Zpos (digits2_pos m) - 1) <= Zpos m < 2 ^ Zpos (digits2_pos m).
Proof.
  induction m as [m IH|m IH|]; cbn [digits2_pos]; [| |lia];
    rewrite Pos2Z.inj_succ; set (d := Zpos (digits2_pos m)) in *;
    assert (1 <= d) by (subst d; lia);
    replace (Z.succ d - 1) with (Z.succ (d - 1)) by lia; rewrite !Z.pow_succ_r by lia; lia.
Qed.

(** The canonical form, in inequalities. *)
Lemma finite_bounds s m e :
  f64_valid (S754_finite s m e) = true ->
  Zpos m < 2 ^ 53 /\ -1074 <= e <= 971 /\ (-1074 < e -> 2 ^ 52 <= Zpos m).
Proof.
  unfold f64_valid. cbn [valid_binary]. unfold bounded, canonical_mantissa, fexp, emin.
  intros [Hc%Z.eqb_eq Hb%Z.leb_le]%andb_prop. pose proof (digits2_pos_bound m) as [Hlo Hhi].
  assert (Zpos (digits2_pos m) <= 53) as Hd by lia. split; [|split; [lia|]].
  - eapply Z.lt_le_trans; [exact Hhi|]. apply Z.pow_le_mono_r; lia.
  - intros He. assert (Zpos (digits2_pos m) = 53) as E by lia. rewrite E in Hlo. exact Hlo.
Qed.

Lemma magnitude_finite s m e :
  f64_valid (S754_finite s m e) = true -> 1 <= magnitude_bits (S754_finite s m e) < 2047 * 2 ^ 52.
Proof.
  intros (Hm & He & _)%finite_bounds. cbn [magnitude_bits].
  change (2 ^ 53) with (2 * 2 ^ 52) in Hm. split; [nia|]. nia.
Qed.

(** On canonical finite numbers the bits of the magnitude order as the pairs (exponent, mantissa). *)
Lemma magnitude_cmp s m e s' m' e' :
  f64_valid (S754_finite s m e) = true -> f64_valid (S754_finite s' m' e') = true ->
  (magnitude_bits (S754_finite s m e) ?= magnitude_bits (S754_finite s' m' e')) =
  match e ?= e' with Eq => Pos.compare m m' | c => c end.
Proof.
  intros (Hm & He & Hn)%finite_bounds (Hm' & He' & Hn')%finite_bounds. cbn [magnitude_bits].
  change (2 ^ 53) with (2 * 2 ^ 52) in *. destruct (Z.compare_spec e e') as [->|Hlt|Hgt].
  - rewrite !(Z.add_comm _ ((e' + 1074) * 2 ^ 52)). apply Z.add_compare_mono_l.
  - apply Z.compare_lt_iff. specialize (Hn' ltac:(lia)). nia.
  - apply Z.compare_gt_iff. specialize (Hn ltac:(lia)). nia.
Qed.
End bits.

(** ** Strings *)

(** [str::as_bytes]; [str::len] is the length of it. *)
Definition as_bytes (s : string) : list Z := map (fun c => Z.of_N (N_of_ascii c)) (list_ascii_of_string s).
Definition str_len (s : string) : nat := String.length s.

Lemma as_bytes_bytes s : bytes (as_bytes s).
Proof.
  unfold as_bytes. induction (list_ascii_of_string s) as [|c l IH]; cbn; constructor; [|exact IH].
  pose proof (N_ascii_bounded c). unfold is_byte. lia.
Qed.

Lemma as_bytes_cons c s : as_bytes (String c s) = Z.of_N (N_of_ascii c) :: as_bytes s.
Proof. reflexivity. Qed.

Lemma ascii_code_inj c c' : Z.of_N (N_of_ascii c) = Z.of_N (N_of_ascii c') -> c = c'.
Proof. intros E%N2Z.inj. rewrite <- (ascii_N_embedding c), E. apply ascii_N_embedding. Qed.

#[export] Instance as_bytes_inj : Inj (=) (=) as_bytes.
Proof.
  intros s. induction s as [|c s IH]; intros [|c' s'] E; try done.
  rewrite !as_bytes_cons in E. injection E as Ec E. apply ascii_code_inj in Ec as ->. f_equal. by apply IH.
Qed.

Lemma length_as_bytes s : length (as_bytes s) = str_len s.
Proof. unfold as_bytes, str_len. rewrite length_map. induction s; cbn; [done|]. by rewrite IHs. Qed.

(** [str::starts_with], [contains], [ends_with], on strings as on their bytes. *)
Fixpoint str_contains (s p : string) : bool :=
  String.prefix p s || match s with EmptyString => false | String _ s' => str_contains s' p end.

Fixpoint str_ends_with (s p : string) : bool :=
  String.eqb s p || match s with EmptyString => false | String _ s' => str_ends_with s' p end.

Lemma prefix_spec p s : String.prefix p s = true <-> exists r, s = (p +:+ r)%string.
Proof.
  revert s. induction p as [|c p IH]; intros [|c' s]; cbn; try (split; [done|intros [? ?]; done]).
  - split; [by exists ""%string|done].
  - split; [by exists (String c' s)|done].
  - destruct (ascii_dec c c') as [->|Hne].
    + rewrite IH. split; [intros [r ->]; by exists r|intros [r E]; injection E as ->; by exists r].
    + split; [done|]. intros [r E]. by injection E.
Qed.

Lemma append_nil s : (s +:+ EmptyString)%string = s.
Proof. induction s as [|c s IH]; [done|]. exact (f_equal (String c) IH). Qed.

Lemma str_contains_spec s p : str_contains s p = true <-> exists a b, s = (a +:+ p +:+ b)%string.
Proof.
  induction s as [|c s IH]; cbn [str_contains]; rewrite orb_true_iff, prefix_spec.
  - split; [intros [[r E]|?]; [by exists ""%string, r|done]|]. intros (a & b & E). left. destruct a; [by exists b|done].
  - rewrite IH. split.
    + intros [[r E]|(a & b & ->)]; [by exists ""%string, r|by exists (String c a), b].
    + intros ([|c' a] & b & E); [left; by exists b|right]. injection E as -> ->. by exists a, b.
Qed.

Lemma str_ends_with_spec s p : str_ends_with s p = true <-> exists a, s = (a +:+ p)%string.
Proof.
  induction s as [|c s IH]; cbn [str_ends_with]; rewrite orb_true_iff, String.eqb_eq.
  - split; [intros [E|?]; [by exists ""%string|done]|]. intros ([|] & E); [by left|done].
  - rewrite IH. split.
    + intros [E|[a ->]]; [by exists ""%string|by exists (String c a)].
    + intros ([|c' a] & E); [by left|right]. injection E as -> ->. by exists a.
Qed.

(** ** JSON values *)

Inductive value (N : Type) : Type :=
| JNull
| JBool (b : bool)
| JNumber (n : N)
| JString (s : string)
| JArray (l : list (value N))
| JObject (l : list (string * value N)).
Arguments JNull {N}.
Arguments JBool {N} b.
Arguments JNumber {N} n.
Arguments JString {N} s.
Arguments JArray {N} l.
Arguments JObject {N} l.

(** [serde_json]: numbers and text. *)
Class SerdeJson (N : Type) := {
  num_as_f64 : N -> option f64;      (* Number::as_f64 *)
  num_from_f64 : f64 -> option N;    (* Number::from_f64 *)
  num_is_int : N -> bool;            (* is_i64() || is_u64() *)
  num_eqb : N -> N -> bool;          (* PartialEq *)
  to_string : value N -> string;     (* Display *)
  from_str : string -> option (value N);
}.

Definition negative_zero : f64 := S754_zero true.

(** Its documented behaviour: a number is a finite double or an integer with a
    finite nearest double; [from_f64] refuses infinities and NaN; numbers that
    compare equal are the same number, but for the two zeros. *)
Class SerdeLaws (N : Type) `{SerdeJson N} : Prop := {
  num_as_f64_finite n : exists x, num_as_f64 n = Some x /\ is_finite x = true /\ f64_valid x = true;
  num_from_f64_finite x : is_finite x = true -> f64_valid x = true ->
    exists n, num_from_f64 x = Some n /\ num_as_f64 n = Some x;
  num_from_f64_special x : is_finite x = false -> num_from_f64 x = None;
  num_eqb_same n n' : num_eqb n n' = true -> num_as_f64 n <> Some negative_zero ->
    num_as_f64 n' <> Some negative_zero -> n = n';
}.

Section value.
Context {N : Type} `{SerdeJson N}.

(** [Value]'s [PartialEq]: objects are key-ordered maps. *)
Fixpoint value_eqb (a b : value N) : bool :=
  match a, b with
  | JNull, JNull => true
  | JBool x, JBool y => eqb x y
  | JNumber x, JNumber y => num_eqb x y
  | JString x, JString y => String.eqb x y
  | JArray l, JArray l' =>
      (fix go (l l' : list (value N)) : bool :=
         match l, l' with
         | [], [] => true
         | x :: l, y :: l' => value_eqb x y && go l l'
         | _, _ => false
         end) l l'
  | JObject l, JObject l' =>
      (fix go (l l' : list (string * value N)) : bool :=
         match l, l' with
         | [], [] => true
         | (k, x) :: l, (k', y) :: l' => String.eqb k k' && value_eqb x y && go l l'
         | _, _ => false
         end) l l'
  | _, _ => false
  end.

(** [Value::get] with a string index. *)
Fixpoint assoc (k : string) (l : list (string * value N)) : option (value N) :=
  match l with
  | [] => None
  | (k', v) :: l => if String.eqb k k' then Some v else assoc k l
  end.

Definition get_field (v : value N) (field : string) : option (value N) :=
  match v with JObject l => assoc field l | _ => None end.

(** [Value::as_f64]. *)
Definition as_f64 (v : value N) : option f64 :=
  match v with JNumber n => num_as_f64 n | _ => None end.

(** No number of the value is the negative zero. *)
Fixpoint no_neg_zero (v : value N) : Prop :=
  match v with
  | JNumber n => num_as_f64 n <> Some negative_zero
  | JArray l => (fix go l := match l with [] => True | x :: l => no_neg_zero x /\ go l end) l
  | JObject l =>
      (fix go (l : list (string * value N)) := match l with [] => True | (_, x) :: l => no_neg_zero x /\ go l end) l
  | _ => True
  end.

(** Structural equality is Leibniz equality away from the negative zero. *)
Lemma value_eqb_same `{!SerdeLaws N} a b : no_neg_zero a -> no_neg_zero b -> value_eqb a b = true -> a = b.
Proof.
  revert a b. fix IH 1. intros a b Ha Hb E. destruct a, b; cbn in *; try discriminate E.
  - done.
  - by apply eqb_prop in E as ->.
  - f_equal. by apply num_eqb_same.
  - by apply String.eqb_eq in E as ->.
  - f_equal. revert l l0 Ha Hb E. fix IHl 1. intros [|x l] [|y l'] Ha Hb E; try done.
    apply andb_prop in E as [E1 E2]. destruct Ha, Hb. f_equal; [by apply IH|by apply IHl].
  - f_equal. revert l l0 Ha Hb E. fix IHl 1. intros [|[k x] l] [|[k' y] l'] Ha Hb E; try done.
    apply andb_prop in E as [[->%String.eqb_eq E1]%andb_prop E2]. destruct Ha, Hb.
    f_equal; [f_equal; by apply IH|by apply IHl].
Qed.
End value.

(** ** An instance: numbers that are finite doubles

    It shows that the laws can hold, and lets examples be computed.  Its
    [Display] tells apart the kinds of values only. *)

Definition double : Type := { x : f64 | is_finite x && f64_valid x = true }.

Definition double_of (x : f64) : option double :=
  match decide (is_finite x && f64_valid x = true) with left p => Some (exist _ x p) | right _ => None end.

Definition example_to_string (v : value double) : string :=
  match v with
  | JNull => "null"
  | JBool b => if b then "true" else "false"
  | JString s => s
  | JNumber _ => "0"
  | JArray _ => "[]"
  | JObject _ => "{}"
  end%string.

Definition double_json : SerdeJson double := {|
  num_as_f64 x := Some (proj1_sig x);
  num_from_f64 := double_of;
  num_is_int _ := false;
  num_eqb x y := SFeqb (proj1_sig x) (proj1_sig y);
  to_string := example_to_string;
  from_str _ := None;
|}.

Lemma SFeqb_same x y : SFeqb x y = true -> x <> negative_zero -> y <> negative_zero -> x = y.
Proof.
  unfold SFeqb, negative_zero. destruct x as [[]|[]| |[] m e], y as [[]|[]| |[] m' e']; cbn; try done;
    change (Pos.compare_cont Eq m m') with (Pos.compare m m');
    destruct (Z.compare_spec e e') as [->| |], (Pos.compare_spec m m') as [->| |]; done.
Qed.

Lemma double_laws : @SerdeLaws double double_json.
Proof.
  split; cbn.
  - intros [x p]. pose proof (andb_prop _ _ p) as [? ?]. by exists x.
  - intros x Hf Hv. unfold double_of. destruct decide as [p|n]; [eauto|]. destruct n. by rewrite Hf, Hv.
  - intros x Hf. unfold double_of. destruct decide as [p|n]; [|done]. exfalso. by rewrite Hf in p.
  - intros [x p] [y q] E Hx Hy. cbn in *. assert (x = y) as <- by (apply SFeqb_same; congruence).
    f_equal. apply proof_irrel.
Qed.
