(* ===== verification/Text.v ===== *)
(** * Strings and numbers of the standard library

    What the configuration of the server uses of [str] and [f64]: splitting,
    trimming, comparing without case, and reading a decimal number as the
    nearest double. *)

From Stdlib Require Import ZArith Lia SpecFloat Ascii String.
From stdpp Require Import base tactics list strings option.
From S2P Require Import Prelude Utf8 Json GoLower.

(** ** Splitting *)

(** [str::split(c)] for an ASCII character: one piece more than separators. *)
Fixpoint split_on (c : ascii) (s : string) : list string :=
  match s with
  | EmptyString => [EmptyString]
  | String x s =>
      if Ascii.eqb x c then EmptyString :: split_on c s
      else match split_on c s with p :: ps => String x p :: ps | [] => [String x EmptyString] end
  end.

(** [str::split_once(c)] *)
Fixpoint split_once (c : ascii) (s : string) : option (string * string) :=
  match s with
  | EmptyString => None
  | String x s => if Ascii.eqb x c then Some (EmptyString, s) else match split_once c s with Some (a, b) => Some (String x a, b) | None => None end
  end.

(** [str::splitn(3, c)] *)
Definition splitn3 (c : ascii) (s : string) : list string :=
  match split_once c s with
  | None => [s]
  | Some (a, rest) => match split_once c rest with None => [a; rest] | Some (b, rest) => [a; b; rest] end
  end.

(** ** Trimming *)

(** The characters with the Unicode property White_Space. *)
Definition is_whitespace (c : Z) : bool :=
  ((9 <=? c) && (c <=? 13) || (c =? 32) || (c =? 133) || (c =? 160) || (c =? 5760) || (8192 <=? c) && (c <=? 8202) ||
   (c =? 8232) || (c =? 8233) || (c =? 8239) || (c =? 8287) || (c =? 12288))%Z.

Fixpoint skip_while (p : Z -> bool) (l : list Z) : list Z := match l with [] => [] | c :: l' => if p c then skip_while p l' else l end.

(** [str::trim] *)
Definition trim (s : string) : string :=
  text_of (rev (skip_while is_whitespace (rev (skip_while is_whitespace (chars_of (as_bytes s)))))).

(** ** Letters without case *)

Definition to_ascii_lowercase (b : Z) : Z := if ((65 <=? b) && (b <=? 90))%Z then (b + 32)%Z else b.
Definition eq_ignore_ascii_case (a b : string) : bool := bool_decide (map to_ascii_lowercase (as_bytes a) = map to_ascii_lowercase (as_bytes b)).

(** ** [f64::from_str] *)

Definition is_digit (b : Z) : bool := ((48 <=? b) && (b <=? 57))%Z.

Fixpoint digits (l : list Z) : list Z * list Z :=
  match l with
  | b :: l' => if is_digit b then let '(ds, rest) := digits l' in (b - 48 :: ds, rest)%Z else ([], l)
  | [] => ([], [])
  end.

Definition number_of (ds : list Z) : Z := foldl (fun n d => 10 * n + d)%Z 0%Z ds.

(** An optional sign. *)
Definition signed (l : list Z) : bool * list Z :=
  match l with
  | 43%Z :: l => (false, l)
  | 45%Z :: l => (true, l)
  | _ => (false, l)
  end.

(** The double nearest to [mantissa * 10^exponent]: one rounding of the exact quotient. *)
Definition nearest (negative : bool) (mantissa exponent : Z) : f64 :=
  match mantissa with
  | Zpos m =>
      if (0 <=? exponent)%Z then binary_normalize 53 1024 (cond_Zopp negative (mantissa * 10 ^ exponent)) 0 negative
      else f64_div (S754_finite negative m 0) (S754_finite false (Pos.pow 10 (Z.to_pos (- exponent))) 0)
  | _ => S754_zero negative
  end.

(** The exponent, when the letter is there. *)
Definition exponent_of (l : list Z) : option Z :=
  match l with
  | [] => Some 0%Z
  | (101%Z | 69%Z) :: l =>
      let '(negative, l) := signed l in
      match digits l with
      | ([], _) => None
      | (ds, []) => Some (if negative then - number_of ds else number_of ds)%Z
      | _ => None
      end
  | _ => None
  end.

Definition parse_f64 (s : string) : option f64 :=
  let '(negative, l) := signed (as_bytes s) in
  let word := map to_ascii_lowercase l in
  if decide (word = as_bytes "inf" \/ word = as_bytes "infinity") then Some (S754_infinity negative)
  else if decide (word = as_bytes "nan") then Some S754_nan
  else
    let '(whole, l) := digits l in
    let '(fraction, l) := match l with 46%Z :: l => digits l | _ => ([], l) end in
    match whole ++ fraction with
    | [] => None
    | ds => match exponent_of l with Some x => Some (nearest negative (number_of ds) (x - Z.of_nat (length fraction))) | None => None end
    end.

(** ** Comparing and rounding doubles *)

Definition f64_gt (x y : f64) : bool := match SFcompare x y with Some Gt => true | _ => false end.
Definition f64_ge (x y : f64) : bool := match SFcompare x y with Some Gt | Some Eq => true | _ => false end.

(** [f64::min]: the other argument when one is not a number. *)
Definition f64_min (x y : f64) : f64 :=
  match SFcompare x y with
  | Some Lt | Some Eq => x
  | Some Gt => y
  | None => match x with S754_nan => y | _ => x end
  end.

(** [f64::ceil] as an integer. *)
Definition f64_ceil (x : f64) : option Z :=
  match x with
  | S754_zero _ => Some 0%Z
  | S754_finite s m e => Some (if (0 <=? e)%Z then Z.shiftl (cond_Zopp s (Zpos m)) e else - Z.shiftr (- cond_Zopp s (Zpos m)) (- e))%Z
  | _ => None
  end.

Example parse_examples :
  parse_f64 "600" = Some (f64_of_Z 600) /\ parse_f64 "0.5" = Some (f64_div (f64_of_Z 1) (f64_of_Z 2)) /\ parse_f64 "1e3" = Some (f64_of_Z 1000) /\
  parse_f64 "." = None /\ parse_f64 "" = None /\ parse_f64 "3x" = None /\ parse_f64 "-inf" = Some (S754_infinity true) /\ trim "  a b " = "a b"%string.
Proof. vm_compute. split_and!; reflexivity. Qed.
