(* ===== verification/Limits.v ===== *)
(** * Resource guards ([src/src/api/limits.rs])

    What a request meets before it may cost anything: the bound on requests
    in flight, and a token bucket for every identity and class of endpoint.
    An [Instant] is a number of nanoseconds; the arithmetic of the buckets is
    that of doubles, rounding included. *)

From Stdlib Require Import ZArith Lia SpecFloat Ascii String.
From stdpp Require Import base tactics list strings option gmap.
From S2P Require Import Prelude Json Text.

(** ** Classes of endpoints *)

Inductive EndpointClass := Read | Write | Bulk | Admin | Subscribe.

#[export] Instance endpoint_class_eq_dec : EqDecision EndpointClass.
Proof. solve_decision. Defined.

#[export] Instance endpoint_class_countable : Countable EndpointClass.
Proof.
  refine (inj_countable' (fun c => match c with Read => 0%nat | Write => 1%nat | Bulk => 2%nat | Admin => 3%nat | Subscribe => 4%nat end)
    (fun n => match n with 0%nat => Read | 1%nat => Write | 2%nat => Bulk | 3%nat => Admin | _ => Subscribe end) _).
  by intros [].
Defined.

(** The non-empty segments of a path. *)
Definition segments (path : string) : list string := filter (fun s => s <> EmptyString) (split_on "/" path).

(** [EndpointClass::of], on the segments. *)
Definition class_of_segments (method : string) (path : list string) : EndpointClass :=
  match path with
  | [] => Read
  | [s] =>
      if decide (s = "admin" \/ s = "stats") then Admin
      else if decide (s = "events") then Subscribe
      else if decide (s = "transaction" \/ s = "changes") then Bulk
      else if decide (s = "publish" \/ s = "edge" \/ s = "node") then Write
      else if decide (s = "nodes") then Read
      else Admin
  | [s; t] =>
      if decide (s = "admin") then Admin
      else if decide (s = "nodes" /\ (t = "multiget" \/ t = "query" \/ t = "count" \/ t = "count_by" \/ t = "aggregate" \/ t = "aggregate_by")) then Bulk
      else if decide (s = "node") then (if decide (method = "GET") then Read else Write)
      else Admin
  | [s; _; u] =>
      if decide (s = "admin") then Admin
      else if decide (s = "node" /\ u = "claim" \/ s = "sequence" /\ u = "next") then Write
      else if decide (s = "node" /\ (u = "history" \/ u = "owned")) then Read
      else Admin
  | [s; _; u; _] =>
      if decide (s = "admin") then Admin else if decide (s = "node" /\ u = "edges") then Read else Admin
  | _ => Admin
  end%string.

Definition class_of (method path : string) : EndpointClass := class_of_segments method (segments path).

Definition env_var (c : EndpointClass) : string :=
  match c with
  | Read => "FACETQL_RATE_READ"
  | Write => "FACETQL_RATE_WRITE"
  | Bulk => "FACETQL_RATE_BULK"
  | Admin => "FACETQL_RATE_ADMIN"
  | Subscribe => "FACETQL_RATE_SUBSCRIBE"
  end.

(** Burst, and refill per second. *)
Definition default_rate (c : EndpointClass) : f64 * f64 :=
  match c with
  | Read => (f64_of_Z 600, f64_of_Z 300)
  | Write => (f64_of_Z 300, f64_of_Z 150)
  | Bulk => (f64_of_Z 120, f64_of_Z 60)
  | Admin => (f64_of_Z 60, f64_of_Z 30)
  | Subscribe => (f64_of_Z 30, f64_of_Z 5)
  end.

(** A number above zero. *)
Definition positive (s : string) : option f64 := match parse_f64 s with Some x => if f64_gt x f64_zero then Some x else None | None => None end.

Definition parse_rate_from (c : EndpointClass) (raw : option string) : option (f64 * f64) :=
  match raw with
  | None => Some (default_rate c)
  | Some raw =>
      let raw := trim raw in
      if eq_ignore_ascii_case raw "off" then None
      else
        let '(burst, refill) := match split_once ":" raw with Some (b, r) => (trim b, Some (trim r)) | None => (raw, None) end in
        match positive burst with
        | None => Some (default_rate c)
        | Some burst =>
            match refill with
            | None => Some (burst, burst)
            | Some refill => match positive refill with None => Some (default_rate c) | Some refill => Some (burst, refill) end
            end
        end
  end.

(** The bound of a class, with the environment as an argument. *)
Definition configured_rate (env : string -> option string) (c : EndpointClass) : option (f64 * f64) := parse_rate_from c (env (env_var c)).

(** ** Token buckets *)

Record Bucket := MkBucket { b_tokens : f64; b_updated : Z }.

Definition NANOS_PER_SEC : Z := 1000000000.
Definition f64_one : f64 := f64_of_Z 1.

(** [now.saturating_duration_since(updated).as_secs_f64()] *)
Definition elapsed (updated now : Z) : f64 :=
  let d := Z.max 0 (now - updated) in
  f64_add (f64_of_Z (d / NANOS_PER_SEC)) (f64_div (f64_of_Z (d mod NANOS_PER_SEC)) (f64_of_Z NANOS_PER_SEC)).

Definition full (burst : f64) (now : Z) : Bucket := MkBucket burst now.

(** [Duration::from_secs_f64] of a whole number of seconds; [None] is its panic. *)
Definition from_secs_f64 (x : option Z) : option Z := match x with Some z => if ((0 <=? z) && (z <? 2 ^ 64))%Z then Some z else None | None => None end.

(** Allowed, refused with the seconds to wait, or a panic while computing them. *)
Inductive taken := Taken | Wait (seconds : Z) | Panicked.

#[export] Instance taken_eq_dec : EqDecision taken.
Proof. solve_decision. Defined.

Definition refilled (b : Bucket) (burst refill : f64) (now : Z) : f64 := f64_min (f64_add (b_tokens b) (f64_mul (elapsed (b_updated b) now) refill)) burst.

(** [Bucket::take] *)
Definition bucket_take (b : Bucket) (burst refill : f64) (now : Z) : Bucket * taken :=
  let tokens := refilled b burst refill now in
  if f64_ge tokens f64_one then (MkBucket (f64_sub tokens f64_one) now, Taken)
  else (MkBucket tokens now,
        match from_secs_f64 (f64_ceil (f64_div (f64_sub f64_one tokens) refill)) with Some s => Wait s | None => Panicked end).

Definition is_full (b : Bucket) (burst refill : f64) (now : Z) : bool := f64_ge (f64_add (b_tokens b) (f64_mul (elapsed (b_updated b) now) refill)) burst.

Definition MAX_TRACKED_BUCKETS : nat := Z.to_nat 10000.

Abbreviation key := (string * EndpointClass)%type.

(** The table and the mutex around it: a panic inside poisons it. *)
Record limiter := MkLimiter { l_buckets : gmap key Bucket; l_poisoned : bool }.

Definition limiter_new : limiter := MkLimiter ∅ false.

Inductive decision := Allow | Deny (retry : option Z).

Section limiter.
(** The bounds of the classes, read once from the environment. *)
Context (rate : EndpointClass -> option (f64 * f64)).

(** The buckets that are not full are kept, those of a class without a bound are not. *)
Definition keep_bucket (now : Z) (x : key * Bucket) : Prop :=
  match rate x.1.2 with Some (burst, refill) => is_full x.2 burst refill now = false | None => False end.

#[export] Instance keep_bucket_dec now x : Decision (keep_bucket now x).
Proof. unfold keep_bucket. destruct (rate x.1.2) as [[]|]; apply _. Defined.

(** A decision, or a panic that poisons the lock; a bucket of the table was updated before the panic. *)
Definition settle (k : key) (r : Bucket * taken) (present : bool) (m : gmap key Bucket) : limiter * option decision :=
  match r with
  | (b, Taken) => (MkLimiter (<[k := b]> m) false, Some Allow)
  | (b, Wait s) => (MkLimiter (<[k := b]> m) false, Some (Deny (Some s)))
  | (b, Panicked) => (MkLimiter (if present then <[k := b]> m else m) true, None)
  end.

(** [Buckets::take] *)
Definition buckets_take (k : key) (burst refill : f64) (now : Z) (m : gmap key Bucket) : limiter * option decision :=
  match m !! k with
  | Some b => settle k (bucket_take b burst refill now) true m
  | None =>
      let m := if (MAX_TRACKED_BUCKETS <=? size m)%nat then filter (keep_bucket now) m else m in
      if (MAX_TRACKED_BUCKETS <=? size m)%nat then (MkLimiter m false, Some (Deny None))
      else settle k (bucket_take (full burst now) burst refill now) false m
  end.

(** What the middleware answers: the request runs, a refusal with its status and the header, or nothing at all when
    the handler panicked. *)
Inductive guarded := Runs | Refused (status : Z) (retry_after : option Z) | Lost.

Definition overloaded : guarded := Refused 503 (Some 1%Z).

(** [rate_limit], with the identity the authentication attached. *)
Definition rate_limit (owner : option string) (method path : string) (now : Z) (l : limiter) : limiter * guarded :=
  let c := class_of method path in
  match rate c with
  | None => (l, Runs)
  | Some (burst, refill) =>
      match owner with
      | None => (l, overloaded)
      | Some owner =>
          if l_poisoned l then (l, Refused 429 None)
          else match buckets_take (owner, c) burst refill now (l_buckets l) with
               | (l, Some Allow) => (l, Runs)
               | (l, Some (Deny retry)) => (l, Refused 429 retry)
               | (l, None) => (l, Lost)
               end
      end
  end.
End limiter.

(** ** Requests in flight *)

Definition DEFAULT_MAX_CONCURRENT_REQUESTS : nat := 512.
Definition DEFAULT_MAX_CONNECTIONS : nat := 2048.
Definition DEFAULT_MAX_SUBSCRIBERS : nat := 256.
Definition DEFAULT_MAX_BODY_BYTES : nat := Z.to_nat 4194304.

(** [env_usize]: a whole number above zero. *)
Definition env_usize (raw : option string) : option Z :=
  match raw with
  | None => None
  | Some raw =>
      let l := match as_bytes (trim raw) with 43%Z :: l => l | l => l end in
      match digits l with
      | ([], _) => None
      | (ds, []) => let n := number_of ds in if ((n <? 2 ^ 64) && (0 <? n))%Z then Some n else None
      | _ => None
      end
  end.

Definition is_telemetry (method path : string) : bool :=
  (String.eqb method "GET" || String.eqb method "HEAD") && (String.eqb path "/" || String.eqb path "/stats").

(** A bound from the environment, or its default. *)
Definition bound (standard : nat) (raw : option string) : nat := match env_usize raw with Some n => Z.to_nat n | None => standard end.

Definition max_body_bytes (raw : option string) : nat := bound DEFAULT_MAX_BODY_BYTES raw.
Definition max_concurrent_requests (raw : option string) : nat := bound DEFAULT_MAX_CONCURRENT_REQUESTS raw.

(** The permits taken, of [max]. *)
Definition try_acquire (max taken : nat) : option nat := if (taken <? max)%nat then Some (S taken) else None.

Definition connection_permit (raw : option string) (taken : nat) : option nat := try_acquire (bound DEFAULT_MAX_CONNECTIONS raw) taken.
Definition subscriber_permit (raw : option string) (taken : nat) : option nat := try_acquire (bound DEFAULT_MAX_SUBSCRIBERS raw) taken.
Definition in_flight_requests (max available : nat) : nat := (max - available)%nat.

(** [concurrency]: whether the request starts, and the permits taken then. *)
Definition start_request (max : nat) (method path : string) (taken : nat) : nat * guarded :=
  if is_telemetry method path then (taken, Runs)
  else match try_acquire max taken with Some taken => (taken, Runs) | None => (taken, overloaded) end.

Definition finish_request (method path : string) (taken : nat) : nat := if is_telemetry method path then taken else (taken - 1)%nat.

(** ** The table *)

Section theorems.
Context (rate : EndpointClass -> option (f64 * f64)).
Implicit Types (l : limiter) (m : gmap key Bucket) (k : key).

(** A request as the middleware sees it. *)
Record arrival := MkArrival { ar_owner : string; ar_method : string; ar_path : string; ar_now : Z }.

Definition key_of (a : arrival) : key := (ar_owner a, class_of (ar_method a) (ar_path a)).

Definition arrive (a : arrival) (l : limiter) : limiter * guarded := rate_limit rate (Some (ar_owner a)) (ar_method a) (ar_path a) (ar_now a) l.

(** The answers to a run of requests, each with the key it was made under. *)
Fixpoint answers (l : limiter) (xs : list arrival) : limiter * list (key * guarded) :=
  match xs with
  | [] => (l, [])
  | a :: xs => let '(l, g) := arrive a l in let '(l, gs) := answers l xs in (l, (key_of a, g) :: gs)
  end.

Lemma settle_size k r present m : (present = true -> is_Some (m !! k)) -> (size m < MAX_TRACKED_BUCKETS \/ present = true)%nat -> (size m <= MAX_TRACKED_BUCKETS)%nat ->
  (size (l_buckets (settle k r present m).1) <= MAX_TRACKED_BUCKETS)%nat.
Proof.
  intros Hk Hlt Hle. assert (Hi : forall b, (size (<[k := b]> m) <= MAX_TRACKED_BUCKETS)%nat).
  { intros b. destruct (m !! k) eqn:E; [rewrite map_size_insert_Some by eauto; done|]. rewrite map_size_insert_None by done. destruct Hlt as [?| ->]; [lia|]. by destruct (Hk eq_refl). }
  destruct r as [b []]; cbn; [apply Hi|apply Hi|]. destruct present; [apply Hi|done].
Qed.

Lemma buckets_take_size k burst refill now m : (size m <= MAX_TRACKED_BUCKETS)%nat -> (size (l_buckets (buckets_take rate k burst refill now m).1) <= MAX_TRACKED_BUCKETS)%nat.
Proof.
  intros Hle. unfold buckets_take. destruct (m !! k) as [b|] eqn:E; [apply settle_size; eauto|].
  set (m' := if (MAX_TRACKED_BUCKETS <=? size m)%nat then filter (keep_bucket rate now) m else m).
  assert (Hle' : (size m' <= MAX_TRACKED_BUCKETS)%nat) by (unfold m'; case_match; [etrans; [apply map_size_filter|done]|done]).
  destruct (Nat.leb_spec MAX_TRACKED_BUCKETS (size m')); [done|]. apply settle_size; [done|by left|done].
Qed.

Lemma arrive_size a l : (size (l_buckets l) <= MAX_TRACKED_BUCKETS)%nat -> (size (l_buckets (arrive a l).1) <= MAX_TRACKED_BUCKETS)%nat.
Proof.
  intros Hle. unfold arrive, rate_limit. destruct (rate _) as [[burst refill]|]; [|done]. destruct (l_poisoned l); [done|].
  pose proof (buckets_take_size (ar_owner a, class_of (ar_method a) (ar_path a)) burst refill (ar_now a) _ Hle) as H. destruct (buckets_take _ _ _ _ _ _) as [l' [[|r]|]]; exact H.
Qed.

(** The table never holds more than its bound, whatever identities ask. *)
Lemma table_bounded xs l : (size (l_buckets l) <= MAX_TRACKED_BUCKETS)%nat -> (size (l_buckets (answers l xs).1) <= MAX_TRACKED_BUCKETS)%nat.
Proof.
  revert l. induction xs as [|a xs IH]; intros l Hle; cbn [answers]; [done|]. pose proof (arrive_size a l Hle) as H. destruct (arrive a l) as [l1 g]. specialize (IH l1 H).
  by destruct (answers l1 xs).
Qed.

(** ** One caller and the others *)

(** The bucket a request of this key meets. *)
Definition current m k (burst : f64) (now : Z) : Bucket := default (full burst now) (m !! k).

Definition answer_of (t : taken) : guarded := match t with Taken => Runs | Wait s => Refused 429 (Some s) | Panicked => Lost end.

(** With room in the table, a request only updates its own bucket. *)
Lemma arrive_own a l burst refill : l_poisoned l = false -> rate (key_of a).2 = Some (burst, refill) -> (is_Some (l_buckets l !! key_of a) \/ size (l_buckets l) < MAX_TRACKED_BUCKETS)%nat ->
  let r := bucket_take (current (l_buckets l) (key_of a) burst (ar_now a)) burst refill (ar_now a) in
  (arrive a l).2 = answer_of r.2 /\ l_poisoned (arrive a l).1 = bool_decide (r.2 = Panicked) /\
  (r.2 <> Panicked -> l_buckets (arrive a l).1 = <[key_of a := r.1]> (l_buckets l)).
Proof.
  intros Hp Hr Hroom r. unfold arrive, rate_limit. fold (key_of a). change (class_of (ar_method a) (ar_path a)) with (key_of a).2. rewrite Hr, Hp. unfold buckets_take, current in *.
  change (ar_owner a, (key_of a).2) with (key_of a). destruct (l_buckets l !! key_of a) as [b|] eqn:E; subst r; cbn [default from_option]; unfold id.
  - destruct (bucket_take b burst refill (ar_now a)) as [b' []]; (split_and!; [done|reflexivity|done]).
  - destruct Hroom as [[b Hb]|Hlt]; [congruence|]. destruct (Nat.leb_spec MAX_TRACKED_BUCKETS (size (l_buckets l))); [lia|].
    destruct (Nat.leb_spec MAX_TRACKED_BUCKETS (size (l_buckets l))); [lia|]. destruct (bucket_take (full burst (ar_now a)) burst refill (ar_now a)) as [b' []]; (split_and!; [done|reflexivity|done]).
Qed.

Lemma arrive_unlimited a l : rate (key_of a).2 = None -> arrive a l = (l, Runs).
Proof. intros Hr. unfold arrive, rate_limit. change (class_of (ar_method a) (ar_path a)) with (key_of a).2. by rewrite Hr. Qed.

Lemma arrive_poisoned a l : l_poisoned l = true -> l_poisoned (arrive a l).1 = true.
Proof. intros Hp. unfold arrive, rate_limit. destruct (rate _) as [[b r]|]; [|done]. by rewrite Hp. Qed.

Lemma answers_poisoned xs l : l_poisoned l = true -> l_poisoned (answers l xs).1 = true.
Proof.
  revert l. induction xs as [|a xs IH]; intros l Hp; cbn [answers]; [done|]. pose proof (arrive_poisoned a l Hp) as H. destruct (arrive a l) as [l1 g]. specialize (IH l1 H). by destruct (answers l1 xs).
Qed.

Definition only k (xs : list arrival) : list arrival := filter (fun a => key_of a = k) xs.

Definition keys_of (xs : list arrival) : gset key := list_to_set (map key_of xs).

Lemma answers_isolated xs k : forall l l', l_poisoned l = false -> l_poisoned l' = false -> l_buckets l !! k = l_buckets l' !! k -> dom (l_buckets l') ⊆ ({[k]} : gset key) ->
  (size (dom (l_buckets l) ∪ keys_of xs) <= MAX_TRACKED_BUCKETS)%nat -> l_poisoned (answers l xs).1 = false ->
  filter (fun x => x.1 = k) (answers l xs).2 = (answers l' (only k xs)).2.
Proof.
  induction xs as [|a xs IH]; intros l l' Hp Hp' Hk Hdom Hsize Hfinal; [done|]. cbn [answers] in Hfinal |- *.
  assert (Hroom : (is_Some (l_buckets l !! key_of a) \/ size (l_buckets l) < MAX_TRACKED_BUCKETS)%nat).
  { destruct (l_buckets l !! key_of a) eqn:E; [eauto|]. right. rewrite <- size_dom. enough (size (dom (l_buckets l) ∪ {[key_of a]}) <= MAX_TRACKED_BUCKETS)%nat as H.
    - rewrite size_union in H by (apply not_elem_of_dom in E; set_solver). rewrite size_singleton in H. lia.
    - etrans; [|exact Hsize]. apply subseteq_size. unfold keys_of. cbn. set_solver. }
  destruct (rate (key_of a).2) as [[burst refill]|] eqn:Hr; cycle 1.
  { rewrite arrive_unlimited in Hfinal |- * by done. destruct (answers l xs) as [lf gs] eqn:Ea. cbn [fst snd] in *. unfold only. rewrite filter_cons. cbn [fst].
    assert (IHl : forall l'', l_poisoned l'' = false -> l_buckets l'' = l_buckets l' -> filter (fun x => x.1 = k) gs = (answers l'' (only k xs)).2).
    { intros l'' H1 H2. specialize (IH l l'' Hp H1). rewrite Ea in IH. cbn [fst snd] in IH. apply IH; [by rewrite H2|by rewrite H2| |done]. etrans; [|exact Hsize]. apply subseteq_size. unfold keys_of. cbn. set_solver. }
    rewrite filter_cons. cbn [fst]. destruct (decide (key_of a = k)) as [Ek|Ek]; [|by apply IHl]. cbn [answers]. rewrite arrive_unlimited by done. specialize (IHl l' Hp' eq_refl). unfold only in IHl.
    destruct (answers l' (filter _ xs)) as [lf' gs']. cbn [snd] in *. by rewrite IHl. }
  destruct (arrive_own a l burst refill Hp Hr Hroom) as (Hg & Hpo & Hb). destruct (arrive a l) as [l1 g] eqn:E1. cbn [fst snd] in Hg, Hpo, Hb.
  destruct (decide ((bucket_take (current (l_buckets l) (key_of a) burst (ar_now a)) burst refill (ar_now a)).2 = Panicked)) as [Hpan|Hpan].
  { rewrite bool_decide_eq_true_2 in Hpo by done. exfalso. pose proof (answers_poisoned xs l1 Hpo) as H. destruct (answers l1 xs). cbn in *. congruence. }
  rewrite bool_decide_eq_false_2 in Hpo by done. specialize (Hb Hpan). destruct (answers l1 xs) as [lf gs] eqn:Ea. cbn [fst snd] in *.
  assert (Hsize1 : (size (dom (l_buckets l1) ∪ keys_of xs) <= MAX_TRACKED_BUCKETS)%nat).
  { etrans; [|exact Hsize]. apply subseteq_size. rewrite Hb, dom_insert_L. unfold keys_of. cbn. set_solver. }
  unfold only. rewrite !filter_cons. cbn [fst]. destruct (decide (key_of a = k)) as [Ek|Ek].
  - assert (Hroom' : (is_Some (l_buckets l' !! key_of a) \/ size (l_buckets l') < MAX_TRACKED_BUCKETS)%nat).
    { destruct (l_buckets l' !! key_of a) eqn:E; [eauto|]. right. assert (dom (l_buckets l') = ∅) as He. { apply leibniz_equiv, elem_of_equiv_empty. intros x Hx. assert (x = k) by set_solver. subst x. apply elem_of_dom in Hx as [b Hb']. congruence. }
      rewrite <- size_dom, He, size_empty. unfold MAX_TRACKED_BUCKETS. lia. }
    destruct (arrive_own a l' burst refill Hp' Hr Hroom') as (Hg' & Hpo' & Hb'). cbn [answers]. destruct (arrive a l') as [l1' g'] eqn:E1'. cbn [fst snd] in *.
    assert (Ec : current (l_buckets l') (key_of a) burst (ar_now a) = current (l_buckets l) (key_of a) burst (ar_now a)) by (unfold current; by rewrite Ek, Hk). rewrite Ec in *.
    rewrite bool_decide_eq_false_2 in Hpo' by done. specialize (Hb' Hpan). specialize (IH l1 l1' Hpo Hpo'). rewrite Ea in IH. cbn [fst snd] in IH. unfold only in IH.
    destruct (answers l1' (filter _ xs)) as [lf' gs']. cbn [snd] in *. rewrite IH; [by rewrite Hg, Hg'|by rewrite Hb, Hb', Ek, !lookup_insert_eq|rewrite Hb', dom_insert_L, Ek; set_solver|done|done].
  - specialize (IH l1 l' Hpo Hp'). rewrite Ea in IH. cbn [fst snd] in IH. apply IH; [|done|done|done]. rewrite Hb. by rewrite lookup_insert_ne.
Qed.

(** One caller cannot spend another's allowance.  As long as no more identities and classes are seen than the table
    tracks and no request panics the limiter, the answers an identity gets in a class are, request by request, those it
    would get if nobody else asked anything, and the table stays within its bound. *)
Theorem limiter_isolates xs k : (size (keys_of xs) <= MAX_TRACKED_BUCKETS)%nat -> l_poisoned (answers limiter_new xs).1 = false ->
  filter (fun x => x.1 = k) (answers limiter_new xs).2 = (answers limiter_new (only k xs)).2 /\ (size (l_buckets (answers limiter_new xs).1) <= MAX_TRACKED_BUCKETS)%nat.
Proof.
  intros Hsize Hp. split; [|apply table_bounded; cbn; rewrite map_size_empty; unfold MAX_TRACKED_BUCKETS; lia].
  apply answers_isolated; [done|done|done|cbn; rewrite dom_empty; set_solver| |done]. cbn. by rewrite dom_empty_L, (left_id_L ∅ (∪)).
Qed.
End theorems.

(** ** Configurations *)

(** Two requests in a burst of two, the third refused; the requests of another identity in between change nothing. *)
Definition tight (c : EndpointClass) : option (f64 * f64) := parse_rate_from c (Some "2:1").
Definition asks (owner : string) (now : Z) : arrival := MkArrival owner "GET" "/node/a" now.
Definition busy : list arrival := [asks "me" 0; asks "you" 1; asks "me" 2; asks "you" 3; asks "me" 4; asks "me" 2000000000].

Lemma limiter_isolates_witness :
  map snd (filter (fun x => x.1 = ("me"%string, Read)) (answers tight limiter_new busy).2) = [Runs; Runs; Refused 429 (Some 1%Z); Runs] /\
  (size (l_buckets (answers tight limiter_new busy).1) <= MAX_TRACKED_BUCKETS)%nat.
Proof.
  destruct (limiter_isolates tight busy ("me"%string, Read)) as [-> Hs]; [vm_compute; lia|vm_compute; reflexivity|]. split; [vm_compute; reflexivity|exact Hs].
Defined.

(** A burst below one is accepted as a rate and admits nothing: the bucket never holds a whole token, and the refusal
    keeps telling the caller to come back in a second. *)
Theorem fractional_burst_refuses_all :
  let half c := parse_rate_from c (Some "0.5") in
  half Read = Some (f64_div (f64_of_Z 1) (f64_of_Z 2), f64_div (f64_of_Z 1) (f64_of_Z 2)) /\
  map snd (answers half limiter_new [asks "me" 0; asks "me" 1000000000; asks "me" 3600000000000]).2 = [Refused 429 (Some 1%Z); Refused 429 (Some 1%Z); Refused 429 (Some 1%Z)].
Proof. vm_compute. split; reflexivity. Qed.

(** A very slow refill is accepted too: the seconds to wait do not fit a duration, the refusal panics under the lock, and
    from then on every identity is refused in every class, with 429 and no hint, although the documentation promises a 503. *)
Theorem slow_refill_blocks_everyone :
  let slow c := match c with Admin => parse_rate_from c (Some "1:1e-20") | _ => Some (default_rate c) end in
  let request owner path := MkArrival owner "GET" path 0 in
  map snd (answers slow limiter_new [request "you" "/node/a"; request "me" "/stats"; request "me" "/stats"; request "you" "/node/a"]).2
    = [Runs; Runs; Lost; Refused 429 None].
Proof. vm_compute. reflexivity. Qed.

(** Permits: the requests in flight never exceed the bound, and telemetry is admitted whatever is in flight. *)
Lemma start_bounded max method path taken : (taken <= max)%nat -> ((start_request max method path taken).1 <= max)%nat.
Proof. intros H. unfold start_request, try_acquire. destruct (is_telemetry method path); [done|]. destruct (Nat.ltb_spec taken max); cbn; lia. Qed.

Lemma telemetry_admitted max method path taken : is_telemetry method path = true -> start_request max method path taken = (taken, Runs).
Proof. intros H. unfold start_request. by rewrite H. Qed.
