(* ===== verification/Rounding.v ===== *)
(** * Rounding a positive double

    What the rounding of a product does to its value, in inequalities: the
    mantissa that is kept lies between the exact quotient rounded down and
    the exact quotient rounded up. *)

From Stdlib Require Import ZArith Lia SpecFloat.
From stdpp Require Import base tactics option.
From S2P Require Import Prelude Json Text.

Local Open Scope Z_scope.

(** ** Shifting right *)

(** The record of a mantissa [m0] shifted by [k] bits: the quotient, and whether something was shifted out. *)
Definition shifted (m0 k : Z) (x : shr_record) : Prop :=
  shr_m x = m0 / 2 ^ k /\ shr_r x || shr_s x = negb (m0 mod 2 ^ k =? 0).

Lemma div_pow_succ m k : 0 <= k -> m / 2 ^ (k + 1) = m / 2 ^ k / 2.
Proof. intros Hk. rewrite Z.pow_add_r, Z.div_div by lia. done. Qed.

Lemma mod_pow_succ m k : 0 <= k -> m mod 2 ^ (k + 1) = m mod 2 ^ k + 2 ^ k * ((m / 2 ^ k) mod 2).
Proof. intros Hk. rewrite Z.pow_add_r by lia. apply Z.rem_mul_r; lia. Qed.

Lemma shr_1_shifted m0 k x : 0 <= m0 -> 0 <= k -> shifted m0 k x -> shifted m0 (k + 1) (shr_1 x).
Proof.
  intros Hm Hk [H1 H2]. destruct x as [m r s]. cbn in H1, H2. unfold shifted. rewrite div_pow_succ, mod_pow_succ, <- H1 by done.
  assert (0 <= m) by (rewrite H1; apply Z.div_pos; lia). assert (0 <= m0 mod 2 ^ k < 2 ^ k) by (apply Z.mod_pos_bound; lia).
  assert (Hev : shr_m (shr_1 (Build_shr_record m r s)) = m / 2 /\ shr_r (shr_1 (Build_shr_record m r s)) = (m mod 2 =? 1) /\ shr_s (shr_1 (Build_shr_record m r s)) = r || s).
  { rewrite <- Z.div2_div. destruct m as [|[p|p|]|]; cbn; try done; rewrite ?Zpos_mod_2; try lia; split_and!; try done; symmetry.
    - rewrite Pos2Z.inj_xI. apply Z.eqb_eq. rewrite Z.add_comm, Z.mul_comm, Z.mod_add by lia. done.
    - rewrite Pos2Z.inj_xO. apply Z.eqb_neq. rewrite Z.mul_comm, Z.mod_mul by lia. done. }
  destruct Hev as (-> & -> & ->). split; [done|]. rewrite H2. pose proof (Z.mod_pos_bound m 2 ltac:(lia)).
  assert (m mod 2 = 0 \/ m mod 2 = 1) as [-> | ->] by lia; cbn [Z.eqb orb]; rewrite ?Z.mul_0_r, ?Z.add_0_r, ?Z.mul_1_r; [done|]. symmetry. apply negb_true_iff, Z.eqb_neq. lia.
Qed.

Lemma iter_shifted m0 p : 0 <= m0 -> forall k x, 0 <= k -> shifted m0 k x -> shifted m0 (k + Zpos p) (iter_pos shr_1 p x).
Proof.
  intros Hm. induction p as [p IH|p IH|]; intros k x Hk Hx; cbn [iter_pos].
  - replace (k + Zpos p~1) with (k + 1 + Zpos p + Zpos p) by lia. apply IH; [lia|]. apply IH; [lia|]. by apply shr_1_shifted.
  - replace (k + Zpos p~0) with (k + Zpos p + Zpos p) by lia. apply IH; [lia|]. by apply IH.
  - by apply shr_1_shifted.
Qed.

Lemma shr_shifted m e n : 0 <= m -> 0 <= n -> exists x, shr (shr_record_of_loc m loc_Exact) e n = (x, e + n) /\ shifted m n x.
Proof.
  intros Hm Hn. assert (H0 : shifted m 0 (shr_record_of_loc m loc_Exact)) by (split; cbn; [by rewrite Z.div_1_r|by rewrite Z.mod_1_r]).
  destruct n as [|p|p]; [|clear Hn|lia]; cbn.
  - eexists. rewrite Z.add_0_r. by split.
  - eexists. split; [done|]. apply (iter_shifted m p Hm 0); [lia|done].
Qed.

(** ** Rounding to nearest *)

Lemma round_between m0 k x : shifted m0 k x ->
  m0 / 2 ^ k <= round_nearest_even (shr_m x) (loc_of_shr_record x) <= m0 / 2 ^ k + (if m0 mod 2 ^ k =? 0 then 0 else 1).
Proof.
  intros [H1 H2]. rewrite <- H1. destruct x as [m r s]. cbn in H2 |- *. destruct r, s; cbn in H2 |- *; symmetry in H2; rewrite ?negb_true_iff, ?negb_false_iff in H2; rewrite H2; repeat case_match; lia.
Qed.

Lemma digits2_unique m d : 0 < d -> 2 ^ (d - 1) <= Zpos m < 2 ^ d -> Zpos (digits2_pos m) = d.
Proof.
  intros Hd Hm. pose proof (digits2_pos_bound m) as Hb. destruct (Z.lt_trichotomy (Zpos (digits2_pos m)) d) as [Hlt|[?|Hlt]]; [exfalso|done|exfalso].
  - assert (2 ^ Zpos (digits2_pos m) <= 2 ^ (d - 1)) by (apply Z.pow_le_mono_r; lia). lia.
  - assert (2 ^ d <= 2 ^ (Zpos (digits2_pos m) - 1)) by (apply Z.pow_le_mono_r; lia). lia.
Qed.

(** A mantissa of at least 53 bits, away from the ends of the range, is cut to 53: the result is [m' * 2^(e + k)] with
    [m'] the quotient by [2^k], rounded down or up. *)
Lemma round_aux_between s m e d : Zpos (digits2_pos m) = d -> 53 <= d -> -1021 <= d + e <= 1000 ->
  exists m' x f, binary_round_aux 53 1024 s (Zpos m) e loc_Exact = S754_finite s x f /\
    e + (d - 53) <= f /\ 2 ^ 52 <= Zpos x < 2 ^ 53 /\ Zpos x * 2 ^ (f - (e + (d - 53))) = m' /\
    Zpos m / 2 ^ (d - 53) <= m' <= Zpos m / 2 ^ (d - 53) + (if Zpos m mod 2 ^ (d - 53) =? 0 then 0 else 1).
Proof.
  intros Hd Hd53 Hde. unfold binary_round_aux, shr_fexp. cbn [Zdigits2]. rewrite Hd. set (k := d - 53).
  replace (fexp 53 1024 (d + e) - e) with k by (unfold fexp, emin, k; lia).
  destruct (shr_shifted (Zpos m) e k ltac:(lia) ltac:(lia)) as (x & -> & Hx). pose proof (round_between _ _ _ Hx) as Hr.
  set (m' := round_nearest_even _ _) in *. pose proof (digits2_pos_bound m) as Hb. rewrite Hd in Hb.
  assert (Hq : 2 ^ 52 <= Zpos m / 2 ^ k < 2 ^ 53).
  { split; [apply Z.div_le_lower_bound|apply Z.div_lt_upper_bound]; try lia; rewrite <- Z.pow_add_r by lia; unfold k; [replace (d - 53 + 52) with (d - 1) by lia|replace (d - 53 + 53) with d by lia]; lia. }
  assert (Hm' : 2 ^ 52 <= m' <= 2 ^ 53) by (case_match; lia). destruct m' as [|p|p]; [lia| |lia].
  destruct (Z.eq_dec (Zpos p) (2 ^ 53)) as [Ep|Ep].
  - assert (Hp : Zdigits2 (Zpos p) = 54) by (cbn [Zdigits2]; apply digits2_unique; lia). rewrite Hp.
    replace (fexp 53 1024 (54 + (e + k)) - (e + k)) with 1 by (unfold fexp, emin, k; lia).
    destruct (shr_shifted (Zpos p) (e + k) 1 ltac:(lia) ltac:(lia)) as (y & -> & [Hy _]). rewrite Hy, Ep.
    replace (2 ^ 53 / 2 ^ 1) with (2 ^ 52) by reflexivity. change (2 ^ 52) with (Zpos (2 ^ 52)%positive). cbn [shr_m].
    exists (Zpos p), (2 ^ 52)%positive, (e + k + 1). destruct (Z.leb_spec (e + k + 1) (1024 - 53)); [|unfold k in *; lia]. split_and!; [done|lia|done|done| |lia|lia].
    replace (e + k + 1 - (e + k)) with 1 by lia. rewrite Ep. reflexivity.
  - assert (Hp : Zdigits2 (Zpos p) = 53) by (cbn [Zdigits2]; apply digits2_unique; lia). rewrite Hp.
    replace (fexp 53 1024 (53 + (e + k)) - (e + k)) with 0 by (unfold fexp, emin, k; lia). cbn [shr shr_record_of_loc shr_m].
    exists (Zpos p), p, (e + k). destruct (Z.leb_spec (e + k) (1024 - 53)); [|unfold k in *; lia]. split_and!; [done|lia|lia|lia| |lia|lia].
    rewrite Z.sub_diag. lia.
Qed.

(** ** Integers *)

Lemma iter_xO m d : Zpos (Pos.iter xO m d) = Zpos m * 2 ^ Zpos d.
Proof.
  revert m. induction d as [|d IH] using Pos.peano_ind; intros m; [cbn; lia|]. rewrite Pos.iter_succ, Pos2Z.inj_xO, IH, Pos2Z.inj_succ, Z.pow_succ_r by lia. lia.
Qed.

(** An integer below [2^53] is a double, with a mantissa of 53 bits. *)
Lemma f64_of_small m : Zpos m < 2 ^ 53 -> exists x,
  f64_of_Z (Zpos m) = S754_finite false x (Zpos (digits2_pos m) - 53) /\ Zpos x = Zpos m * 2 ^ (53 - Zpos (digits2_pos m)) /\ Zpos (digits2_pos x) = 53.
Proof.
  intros Hm. pose proof (digits2_pos_bound m) as Hb. set (d := Zpos (digits2_pos m)) in *. assert (1 <= d <= 53).
  { split; [unfold d; lia|]. apply Z.nlt_ge. intros Hlt. assert (2 ^ 53 <= 2 ^ (d - 1)) by (apply Z.pow_le_mono_r; lia). lia. }
  unfold f64_of_Z, binary_normalize, binary_round. fold d. rewrite Z.add_0_r. replace (fexp 53 1024 d) with (d - 53) by (unfold fexp, emin; lia).
  assert (exists x, shl_align m 0 (d - 53) = (x, d - 53) /\ Zpos x = Zpos m * 2 ^ (53 - d)) as (x & -> & Hx).
  { unfold shl_align. rewrite Z.sub_0_r. destruct (d - 53) as [|q|q] eqn:E; [|lia|].
    - exists m. replace (53 - d) with 0 by lia. split; [done|]. cbn; lia.
    - eexists. split; [done|]. rewrite iter_xO. f_equal. f_equal. lia. }
  assert (Hd : Zpos (digits2_pos x) = 53).
  { apply digits2_unique; [lia|]. rewrite Hx. replace (53 - 1) with (d - 1 + (53 - d)) by lia. replace 53 with (d + (53 - d)) at 4 by lia. rewrite !Z.pow_add_r by lia. nia. }
  exists x. split_and!; [|done|done]. destruct (round_aux_between false x (d - 53) 53 Hd ltac:(lia) ltac:(lia)) as (m' & y & f & -> & Hf & Hy53 & Hy & Hr).
  cbn in Hr. rewrite Z.div_1_r, Z.mod_1_r in Hr. cbn in Hr. rewrite Z.sub_diag, Z.add_0_r in *. pose proof (digits2_pos_bound x) as Hxb. rewrite Hd in Hxb.
  assert (f = d - 53) as ->.
  { destruct (Z.eq_dec f (d - 53)); [done|exfalso]. assert (2 ^ 1 <= 2 ^ (f - (d - 53))) by (apply Z.pow_le_mono_r; lia). nia. }
  rewrite Z.sub_diag in Hy. f_equal. lia.
Qed.

(** ** The ceiling *)

(** The ceiling of a double that is [m' / 2^b]. *)
Lemma ceil_between x f m' b : 0 < b -> - b <= f -> Zpos x * 2 ^ (f + b) = m' -> exists c, f64_ceil (S754_finite false x f) = Some c /\ (c - 1) * 2 ^ b < m' <= c * 2 ^ b.
Proof.
  intros Hb Hf Hm. cbn [f64_ceil cond_Zopp]. eexists. split; [done|]. destruct (Z.leb_spec 0 f) as [H0|H0].
  - rewrite Z.shiftl_mul_pow2 by done. rewrite Z.pow_add_r in Hm by lia. assert (0 < 2 ^ b) by lia. nia.
  - rewrite Z.shiftr_div_pow2 by lia. pose proof (Z.div_mod (- Zpos x) (2 ^ (- f)) ltac:(lia)) as Hdm. pose proof (Z.mod_pos_bound (- Zpos x) (2 ^ (- f)) ltac:(lia)).
    set (c := - ((- Zpos x) / 2 ^ (- f))). assert (Hc : Zpos x = c * 2 ^ (- f) - (- Zpos x) mod 2 ^ (- f)) by (unfold c; lia).
    assert (E : 2 ^ b = 2 ^ (- f) * 2 ^ (f + b)) by (rewrite <- Z.pow_add_r by lia; f_equal; lia). rewrite E, <- Hm. assert (0 < 2 ^ (f + b)) by lia. nia.
Qed.

(** ** A share of a count *)

(** A double just below the fraction [a / c]: its mantissa at the exponent -53 is the fraction of [2^53], rounded down
    by less than one half. *)
Definition share_of (q : f64) (a c : Z) : Prop :=
  exists m, q = S754_finite false m (-53) /\ 2 ^ 52 <= Zpos m < 2 ^ 53 /\ c * Zpos m <= a * 2 ^ 53 /\ 2 * a * 2 ^ 53 <= 2 * c * Zpos m + c.

(** The least integer that is at least the fraction. *)
Definition ceil_div (a c : Z) : Z := (a + c - 1) / c.

Lemma ceil_div_spec a c : 0 < c -> (ceil_div a c - 1) * c < a <= ceil_div a c * c.
Proof. intros Hc. unfold ceil_div. pose proof (Z.div_mod (a + c - 1) c ltac:(lia)). pose proof (Z.mod_pos_bound (a + c - 1) c Hc). nia. Qed.

Lemma ceil_unique a b x y : 0 < b -> (x - 1) * b < a <= x * b -> (y - 1) * b < a <= y * b -> x = y.
Proof. nia. Qed.

Lemma div_between M T lo hi : 0 < T -> lo * T <= M <= hi * T -> lo <= M / T /\ M / T + (if M mod T =? 0 then 0 else 1) <= hi.
Proof.
  intros HT [Hlo Hhi]. split; [apply Z.div_le_lower_bound; lia|]. pose proof (Z.div_mod M T ltac:(lia)). pose proof (Z.mod_pos_bound M T HT). destruct (Z.eqb_spec (M mod T) 0); nia.
Qed.

(** The bounds of the product, all scaled to its mantissa. *)
Lemma share_bounds n m a c K W P B T X : W = 256 * 2 ^ 45 -> 0 < n < 2 ^ 45 -> 1 <= c <= 100 -> c * m <= a * W -> 2 * a * W <= 2 * c * m + c ->
  (K - 1) * c < a * n <= K * c -> 0 < P -> 0 < X <= 2 ^ 45 -> B * T = W * P -> T <= X * P ->
  ((K - 1) * B + 1) * T <= n * m * P <= K * B * T.
Proof.
  intros HW Hn Hc Hlo Hhi HK HP HX Ebk Ek.
  assert (Hup : n * m <= K * W).
  { assert (n * (c * m) <= n * (a * W)) by (apply Z.mul_le_mono_nonneg_l; lia). assert (a * n * W <= K * c * W) by (apply Z.mul_le_mono_nonneg_r; lia).
    apply (Z.mul_le_mono_pos_l _ _ c); lia. }
  assert (Hdown : (K - 1) * W + X <= n * m).
  { assert (H1 : (K - 1) * c * W <= (a * n - 1) * W) by (apply Z.mul_le_mono_nonneg_r; lia). assert (H2 : n * (2 * a * W) <= n * (2 * c * m + c)) by (apply Z.mul_le_mono_nonneg_l; lia).
    assert (H3 : c * X <= 100 * 2 ^ 45) by (apply Z.mul_le_mono_nonneg; lia). assert (H4 : c * n <= 100 * 2 ^ 45) by (apply Z.mul_le_mono_nonneg; lia).
    apply (Z.mul_le_mono_pos_l _ _ (2 * c)); lia. }
  split.
  - replace (((K - 1) * B + 1) * T) with ((K - 1) * (B * T) + T) by lia. rewrite Ebk. assert (((K - 1) * W + X) * P <= n * m * P) by (apply Z.mul_le_mono_nonneg_r; lia). lia.
  - replace (K * B * T) with (K * (B * T)) by lia. rewrite Ebk. assert (n * m * P <= K * W * P) by (apply Z.mul_le_mono_nonneg_r; lia). lia.
Qed.

(** For fewer than [2^45] samples the product with the fraction, rounded, has the ceiling of the exact product. *)
Lemma share_ceil q a c n : 0 < n < 2 ^ 45 -> 1 <= c <= 100 -> share_of q a c -> f64_ceil (f64_mul (f64_of_Z n) q) = Some (ceil_div (a * n) c).
Proof.
  intros Hn Hc (m & -> & Hm & Hlo & Hhi). destruct n as [|p|p]; [lia| |lia].
  destruct (f64_of_small p ltac:(lia)) as (x & -> & Hx & Hxd). pose proof (digits2_pos_bound p) as Hpb. set (d := Zpos (digits2_pos p)) in *.
  assert (1 <= d <= 45). { split; [unfold d; lia|]. apply Z.nlt_ge. intros Hlt. assert (2 ^ 45 <= 2 ^ (d - 1)) by (apply Z.pow_le_mono_r; lia). lia. }
  cbn [f64_mul SFmul xorb]. pose proof (digits2_pos_bound x) as Hxb. rewrite Hxd in Hxb. pose proof (digits2_pos_bound (x * m)) as HMb. set (D := Zpos (digits2_pos (x * m))) in *.
  rewrite Pos2Z.inj_mul in HMb.
  assert (105 <= D <= 106).
  { assert (2 ^ 104 <= Zpos x * Zpos m < 2 ^ 106) by (replace (2 ^ 104) with (2 ^ 52 * 2 ^ 52) by reflexivity; replace (2 ^ 106) with (2 ^ 53 * 2 ^ 53) by reflexivity; cbn [Z.sub] in Hxb; nia).
    split; apply Z.nlt_ge; intros Hlt; [assert (2 ^ D <= 2 ^ 104) by (apply Z.pow_le_mono_r; lia)|assert (2 ^ 106 <= 2 ^ (D - 1)) by (apply Z.pow_le_mono_r; lia)]; lia. }
  destruct (round_aux_between false (x * m) (d - 53 + -53) D eq_refl ltac:(lia) ltac:(lia)) as (m' & y & f & -> & Hf & _ & Hy & Hr).
  rewrite Pos2Z.inj_mul, Hx in Hr. set (k := D - 53) in *. set (b := 106 - d - k).
  destruct (ceil_between y f m' b ltac:(unfold b, k; lia) ltac:(unfold b, k in *; lia)) as (r & -> & Hr').
  { rewrite <- Hy. f_equal. f_equal. unfold b, k. lia. }
  f_equal. set (K := ceil_div (a * Zpos p) c). pose proof (ceil_div_spec (a * Zpos p) c ltac:(lia)) as HK. fold K in HK.
  apply (ceil_unique m' (2 ^ b)); [unfold b, k; lia|done|]. set (M := Zpos p * 2 ^ (53 - d) * Zpos m) in *.
  assert (Ebk : 2 ^ b * 2 ^ k = 2 ^ 53 * 2 ^ (53 - d)) by (rewrite <- !Z.pow_add_r by (unfold b, k; lia); f_equal; unfold b; lia).
  assert (Ek : 2 ^ k <= 2 ^ d * 2 ^ (53 - d)) by (rewrite <- Z.pow_add_r by lia; apply Z.pow_le_mono_r; unfold k; lia).
  assert (Ed : 2 ^ d <= 2 ^ 45) by (apply Z.pow_le_mono_r; lia). assert (HP : 0 < 2 ^ (53 - d)) by lia. assert (Hk : 0 < 2 ^ k) by (unfold k; lia).
  assert (HM : ((K - 1) * 2 ^ b + 1) * 2 ^ k <= Zpos p * Zpos m * 2 ^ (53 - d) <= K * 2 ^ b * 2 ^ k).
  { apply (share_bounds (Zpos p) (Zpos m) a c K (2 ^ 53) (2 ^ (53 - d)) (2 ^ b) (2 ^ k) (2 ^ d)); try done; lia. }
  replace (Zpos p * Zpos m * 2 ^ (53 - d)) with M in HM by (unfold M; lia). set (B := 2 ^ b) in *. set (T := 2 ^ k) in *.
  pose proof (div_between M T ((K - 1) * B + 1) (K * B) ltac:(unfold T; lia) HM) as Hd. lia.
Qed.
