(* ===== verification/Histogram.v ===== *)
(** * The latency histogram ([src/src/metrics.rs], [Histogram] and [LatencyStats])

    Samples in microseconds are counted in 512 buckets, eight to an octave.
    A bucket's upper bound is reported for the median, the 99th percentile
    and the maximum of a window. *)

From Stdlib Require Import ZArith Lia SpecFloat.
From stdpp Require Import base tactics list option sorting.
From S2P Require Import Prelude Json Text Rounding.

Local Open Scope Z_scope.

(** ** Buckets *)

Definition SUB_BITS : Z := 3.
Definition SUB_BUCKETS : Z := 8.
Definition BUCKET_COUNT : nat := 512.

Definition U64_MAX : Z := 2 ^ 64 - 1.

(** [u64::leading_zeros] *)
Definition leading_zeros (x : Z) : Z := if x =? 0 then 64 else 63 - Z.log2 x.

Definition bucket_index (us : Z) : Z :=
  if us <? SUB_BUCKETS then us
  else
    let msb := 63 - leading_zeros us in
    let sub := Z.land (Z.shiftr us (msb - SUB_BITS)) (SUB_BUCKETS - 1) in
    Z.min ((msb - SUB_BITS + 1) * SUB_BUCKETS + sub) (Z.of_nat BUCKET_COUNT - 1).

(** [<<] drops the bits above the width; the last addition saturates. *)
Definition bucket_upper_us (index : Z) : Z :=
  if index <? SUB_BUCKETS then index
  else
    let octave := index / SUB_BUCKETS in
    let sub := index mod SUB_BUCKETS in
    let msb := octave + SUB_BITS - 1 in
    let width := Z.shiftl 1 (msb - SUB_BITS) mod 2 ^ 64 in
    let base := Z.shiftl (SUB_BUCKETS + sub) (msb - SUB_BITS) mod 2 ^ 64 in
    Z.min (base + (width - 1)) U64_MAX.

(** ** Counting *)

Definition histogram_new : list Z := replicate BUCKET_COUNT 0.

(** [fetch_add] wraps around. *)
Definition fetch_add (by_ : Z) (counter : Z) : Z := (counter + by_) mod 2 ^ 64.

Definition histogram_record (us : Z) (h : list Z) : list Z := alter (fetch_add 1) (Z.to_nat (bucket_index us)) h.

(** ** Percentiles *)

Record LatencyStats := MkLatency { ls_count : Z; ls_p50_us : option Z; ls_p99_us : option Z; ls_max_us : option Z }.

Definition latency_default : LatencyStats := MkLatency 0 None None None.

(** The loop over the buckets, from [index] on; additions of a release build wrap around. *)
Fixpoint quantile_from (rank seen : Z) (index : nat) (delta : list Z) : option Z :=
  match delta with
  | [] => None
  | n :: delta => let seen := fetch_add n seen in if rank <=? seen then Some (bucket_upper_us (Z.of_nat index)) else quantile_from rank seen (S index) delta
  end.

(** [((count as f64) * q).ceil().max(1.0) as u64]; the conversion saturates. *)
Definition rank_of (q : f64) (count : Z) : Z :=
  match f64_ceil (f64_mul (f64_of_Z count) q) with Some c => Z.min (Z.max c 1) U64_MAX | None => U64_MAX end.

(** [iter().rposition(|n| n > 0)] *)
Fixpoint rposition_from (index : nat) (delta : list Z) (found : option nat) : option nat :=
  match delta with
  | [] => found
  | n :: delta => rposition_from (S index) delta (if 0 <? n then Some index else found)
  end.

(** [iter().sum()] *)
Definition sum_counts (delta : list Z) : Z := foldl (fun s n => fetch_add n s) 0 delta.

(** The literals 0.50 and 0.99. *)
Definition half : f64 := nearest false 50 (-2).
Definition ninety_nine : f64 := nearest false 99 (-2).

Definition from_delta (delta : list Z) : LatencyStats :=
  let count := sum_counts delta in
  if count =? 0 then latency_default
  else
    let quantile q := quantile_from (rank_of q count) 0 0 delta in
    MkLatency count (quantile half) (quantile ninety_nine) (bucket_upper_us ∘ Z.of_nat <$> rposition_from 0 delta None).

(** ** The buckets cover the range *)

Definition is_u64 (x : Z) : Prop := 0 <= x < 2 ^ 64.


(** A sample of at least eight: [q * 2^k] and less than [2^k] more, with [q] of four bits. *)
Lemma octave us : SUB_BUCKETS <= us < 2 ^ 64 -> exists q k r, us = q * 2 ^ k + r /\ 8 <= q < 16 /\ 0 <= k <= 60 /\ 0 <= r < 2 ^ k /\
  bucket_index us = (k + 1) * 8 + (q - 8).
Proof.
  unfold SUB_BUCKETS. intros Hus. pose proof (Z.log2_spec us ltac:(lia)) as Hl. set (k := Z.log2 us - 3).
  assert (Hlog : 3 <= Z.log2 us <= 63). { split; [change 3 with (Z.log2 8)|change 63 with (Z.log2 (2 ^ 64 - 1))]; apply Z.log2_le_mono; lia. }
  assert (Hk : 0 < 2 ^ k) by (unfold k; lia). pose proof (Z.div_mod us (2 ^ k) ltac:(lia)). pose proof (Z.mod_pos_bound us (2 ^ k) Hk).
  assert (Hq : 8 <= us / 2 ^ k < 16).
  { split; [apply Z.div_le_lower_bound|apply Z.div_lt_upper_bound]; try lia.
    - replace (2 ^ k * 8) with (2 ^ Z.log2 us) by (change 8 with (2 ^ 3); rewrite <- Z.pow_add_r by (unfold k; lia); f_equal; unfold k; lia). lia.
    - replace (2 ^ k * 16) with (2 ^ Z.succ (Z.log2 us)) by (change 16 with (2 ^ 4); rewrite <- Z.pow_add_r by (unfold k; lia); f_equal; unfold k; lia). lia. }
  exists (us / 2 ^ k), k, (us mod 2 ^ k). split_and!; try (unfold k; lia); try lia.
  unfold bucket_index, leading_zeros, SUB_BUCKETS, SUB_BITS, BUCKET_COUNT. destruct (Z.ltb_spec us 8); [lia|]. destruct (Z.eqb_spec us 0); [lia|].
  replace (63 - (63 - Z.log2 us)) with (Z.log2 us) by lia. fold k. change (8 - 1) with (Z.ones 3). rewrite Z.land_ones, Z.shiftr_div_pow2 by (unfold k; lia).
  replace (us / 2 ^ k) with (us / 2 ^ k - 8 + 1 * 2 ^ 3) at 1 by lia. rewrite Z.mod_add, Z.mod_small by lia. unfold k in *. lia.
Qed.

(** The bounds of a bucket of this shape. *)
Lemma upper_octave q k : 8 <= q < 16 -> 0 <= k <= 60 -> bucket_upper_us ((k + 1) * 8 + (q - 8)) = q * 2 ^ k + (2 ^ k - 1).
Proof.
  intros Hq Hk. unfold bucket_upper_us, SUB_BUCKETS, SUB_BITS, U64_MAX. destruct (Z.ltb_spec ((k + 1) * 8 + (q - 8)) 8); [lia|].
  rewrite (Z.add_comm ((k + 1) * 8)). rewrite Z.div_add, (Z.div_small (q - 8)), Z.mod_add, (Z.mod_small (q - 8)) by lia.
  replace (0 + (k + 1) + 3 - 1 - 3) with k by lia. replace (8 + (q - 8)) with q by lia. rewrite !Z.shiftl_mul_pow2, Z.mul_1_l by lia.
  assert (2 ^ k <= 2 ^ 60) by (apply Z.pow_le_mono_r; lia). rewrite !Z.mod_small by nia. nia.
Qed.

(** The bucket of a sample is one of the first 496, its upper bound is a sample of the same bucket, at least the sample
    and at most an eighth more. *)
Lemma bucket_bounds us : is_u64 us ->
  0 <= bucket_index us < 496 /\ us <= bucket_upper_us (bucket_index us) <= us + us / 8 /\ bucket_upper_us (bucket_index us) < 2 ^ 64 /\
  bucket_index (bucket_upper_us (bucket_index us)) = bucket_index us.
Proof.
  intros Hus. destruct (Z.lt_ge_cases us SUB_BUCKETS) as [Hlt|Hge].
  - assert (Hi : bucket_index us = us) by (unfold bucket_index; destruct (Z.ltb_spec us SUB_BUCKETS); [done|lia]).
    assert (Hu : bucket_upper_us us = us) by (unfold bucket_upper_us; destruct (Z.ltb_spec us SUB_BUCKETS); [done|lia]).
    rewrite Hi, Hu, Hi. unfold is_u64, SUB_BUCKETS in *. rewrite Z.div_small by lia. lia.
  - destruct (octave us) as (q & k & r & Eus & Hq & Hk & Hr & Ei); [unfold is_u64 in Hus; lia|]. rewrite Ei, upper_octave by done.
    assert (Hp : 2 ^ k <= 2 ^ 60) by (apply Z.pow_le_mono_r; lia). assert (0 < 2 ^ k) by lia. unfold SUB_BUCKETS in Hge.
    assert (Hup : q * 2 ^ k + (2 ^ k - 1) < 2 ^ 64) by nia. split_and!; try nia; try lia.
    + assert (2 ^ k - 1 - r <= us / 8) by (apply Z.div_le_lower_bound; nia). lia.
    + destruct (octave (q * 2 ^ k + (2 ^ k - 1))) as (q' & k' & r' & E' & Hq' & Hk' & Hr' & Ei'); [unfold SUB_BUCKETS; nia|]. rewrite Ei'.
      assert (k' = k) as ->.
      { destruct (Z.lt_trichotomy k k') as [Hlt|[?|Hlt]]; [exfalso|done|exfalso].
        - assert (2 ^ (k + 1) <= 2 ^ k') by (apply Z.pow_le_mono_r; lia). rewrite Z.pow_add_r in * by lia. nia.
        - assert (2 ^ (k' + 1) <= 2 ^ k) by (apply Z.pow_le_mono_r; lia). rewrite Z.pow_add_r in * by lia. nia. }
      nia.
Qed.

Lemma bucket_index_mono x y : is_u64 x -> is_u64 y -> x <= y -> bucket_index x <= bucket_index y.
Proof.
  intros Hx Hy Hxy. destruct (Z.lt_ge_cases x SUB_BUCKETS) as [Hlt|Hge].
  - assert (Hi : bucket_index x = x) by (unfold bucket_index; destruct (Z.ltb_spec x SUB_BUCKETS); [done|lia]). rewrite Hi.
    destruct (bucket_bounds y Hy) as (? & ? & ?). destruct (Z.lt_ge_cases y SUB_BUCKETS) as [Hlt'|Hge'].
    + unfold bucket_index. destruct (Z.ltb_spec y SUB_BUCKETS); lia.
    + destruct (octave y) as (q & k & r & ? & ? & ? & ? & ->); [unfold is_u64 in *; lia|]. unfold SUB_BUCKETS in *. lia.
  - destruct (octave x) as (q & k & r & E & Hq & Hk & Hr & ->); [unfold is_u64 in *; lia|]. destruct (octave y) as (q' & k' & r' & E' & Hq' & Hk' & Hr' & ->); [unfold is_u64 in *; lia|].
    destruct (Z.lt_trichotomy k k') as [Hlt|[->|Hlt]]; [lia|nia|exfalso]. assert (2 ^ (k' + 1) <= 2 ^ k) by (apply Z.pow_le_mono_r; lia). rewrite Z.pow_add_r in * by lia. nia.
Qed.

(** ** Counts of samples *)

(** The number of samples of a bucket, and of those below one. *)
Definition in_bucket (xs : list Z) (i : nat) : Z := Z.of_nat (length (filter (fun x => bucket_index x = Z.of_nat i) xs)).
Definition tally (xs : list Z) : list Z := map (in_bucket xs) (seq 0 BUCKET_COUNT).

Lemma lookup_tally xs i : (i < BUCKET_COUNT)%nat -> tally xs !! i = Some (in_bucket xs i).
Proof. intros Hi. unfold tally. rewrite list_lookup_fmap, lookup_seq_lt by done. done. Qed.

Lemma in_bucket_snoc xs x i : in_bucket (xs ++ [x]) i = in_bucket xs i + (if decide (bucket_index x = Z.of_nat i) then 1 else 0).
Proof. unfold in_bucket. rewrite filter_app, length_app, filter_cons, filter_nil. case_decide; cbn; lia. Qed.

(** Recording a sample of a histogram that did not wrap around counts it. *)
Lemma record_tally xs x : is_u64 x -> Z.of_nat (length xs) < U64_MAX -> histogram_record x (tally xs) = tally (xs ++ [x]).
Proof.
  intros Hx Hn. destruct (bucket_bounds x Hx) as ([Hb0 Hb] & _). apply list_eq. intros i. unfold histogram_record.
  destruct (decide (i < BUCKET_COUNT)%nat) as [Hi|Hi].
  - rewrite (lookup_tally (xs ++ [x])), in_bucket_snoc by done. case_decide as E.
    + rewrite E, Nat2Z.id, list_lookup_alter_eq, lookup_tally by done. cbn. f_equal. unfold fetch_add. rewrite Z.mod_small; [done|].
      assert (length (filter (fun x => bucket_index x = Z.of_nat i) xs) <= length xs)%nat by apply length_filter. unfold in_bucket, U64_MAX in *. lia.
    + rewrite list_lookup_alter_ne, lookup_tally by (done || lia). f_equal. lia.
  - rewrite !lookup_ge_None_2; [done| |]; rewrite ?length_alter; unfold tally; rewrite length_map, length_seq; lia.
Qed.

Lemma tally_nil : tally [] = histogram_new.
Proof. vm_compute. done. Qed.

(** The samples below bucket [i], of all and of those the list [delta] counts from [index] on. *)
Definition below (xs : list Z) (i : nat) : Z := Z.of_nat (length (filter (fun x => bucket_index x < Z.of_nat i) xs)).

Lemma below_succ xs i : below xs (S i) = below xs i + in_bucket xs i.
Proof.
  unfold below, in_bucket. induction xs as [|x xs IH]; [done|]. rewrite !filter_cons. repeat case_decide; cbn [length]; lia.
Qed.

Lemma below_all xs i : Forall is_u64 xs -> (496 <= i)%nat -> below xs i = Z.of_nat (length xs).
Proof.
  intros Hxs Hi. unfold below. rewrite filter_all; [done|]. apply (Forall_impl _ _ _ Hxs). intros x Hx. destruct (bucket_bounds x Hx) as ([_ ?] & _). lia.
Qed.

Lemma below_zero xs : Forall is_u64 xs -> below xs 0 = 0.
Proof. intros Hxs. unfold below. rewrite filter_none; [done|]. apply (Forall_impl _ _ _ Hxs). intros x Hx. destruct (bucket_bounds x Hx) as ([? _] & _). lia. Qed.

Lemma below_le xs i : below xs i <= Z.of_nat (length xs).
Proof. unfold below. apply Nat2Z.inj_le, length_filter. Qed.

Section delta.
Context (xs : list Z) (Hn : Z.of_nat (length xs) < 2 ^ 64).

Lemma add_bucket i : fetch_add (in_bucket xs i) (below xs i) = below xs (S i).
Proof. rewrite below_succ. unfold fetch_add. rewrite Z.mod_small; [done|]. rewrite <- below_succ. pose proof (below_le xs (S i)). split; [apply Zle_0_nat|lia]. Qed.

Lemma sum_from i n : foldl (fun s n => fetch_add n s) (below xs i) (map (in_bucket xs) (seq i n)) = below xs (i + n).
Proof.
  revert i. induction n as [|n IH]; intros i; cbn; [by rewrite Nat.add_0_r|]. rewrite add_bucket, IH. f_equal. lia.
Qed.

(** The loop stops at the first bucket up to which there are at least [rank] samples. *)
Lemma quantile_from_spec rank i n j : below xs i < rank -> (i <= j < i + n)%nat -> below xs j < rank <= below xs (S j) ->
  quantile_from rank (below xs i) i (map (in_bucket xs) (seq i n)) = Some (bucket_upper_us (Z.of_nat j)).
Proof.
  revert i. induction n as [|n IH]; intros i Hi Hj Hr; [lia|]. cbn. rewrite add_bucket. destruct (Z.leb_spec rank (below xs (S i))) as [Hle|Hlt].
  - assert (i = j) as ->; [|done]. destruct (decide (i = j)) as [|Hne]; [done|exfalso]. assert (below xs (S i) <= below xs j); [|lia].
    clear - Hj Hne. assert (Hle : (S i <= j)%nat) by lia. induction Hle as [|k Hle IHk]; [lia|]. rewrite (below_succ xs k). assert (0 <= in_bucket xs k) by apply Zle_0_nat.
    destruct (decide (i = k)); [lia|]. specialize (IHk ltac:(lia) ltac:(lia)). lia.
  - apply IH; [done| |done]. destruct (decide (i = j)) as [->|]; lia.
Qed.

Lemma rposition_spec i n found j : (i <= j < i + n)%nat -> 0 < in_bucket xs j -> (forall k, (j < k < i + n)%nat -> in_bucket xs k = 0) ->
  rposition_from i (map (in_bucket xs) (seq i n)) found = Some j.
Proof.
  revert i found. induction n as [|n IH]; intros i found Hj Hp Hz; [lia|]. cbn. destruct (decide (i = j)) as [->|Hne].
  - destruct (Z.ltb_spec 0 (in_bucket xs j)); [|lia]. assert (Hz' : forall k, (S j <= k < S j + n)%nat -> in_bucket xs k = 0) by (intros k Hk; apply Hz; lia).
    generalize (S j) as i, Hz'. clear. induction n as [|n IH]; intros i Hz; [done|]. cbn. rewrite Hz by lia. cbn. apply IH. intros k Hk. apply Hz. lia.
  - apply IH; [lia|done|]. intros k Hk. apply Hz. lia.
Qed.
End delta.

(** ** Order statistics *)

Lemma sorted_counts l k v : StronglySorted Z.le l -> l !! k = Some v ->
  (length (filter (fun x => (x < v)%Z) l) <= k < length (filter (fun x => (x <= v)%Z) l))%nat.
Proof.
  intros Hs Hk. assert (Hlen : (k < length l)%nat) by (by eapply lookup_lt_Some). rewrite <- (take_drop_middle l k v Hk) in Hs |- *.
  rewrite !filter_app, !filter_cons, !length_app. rewrite (decide_False (P := (v < v)%Z)), (decide_True (P := (v <= v)%Z)) by lia.
  assert (Hlo : Forall (fun x => (x <= v)%Z) (take k l)).
  { apply Forall_forall. intros x Hx. eapply (StronglySorted_app_1_elem_of _ _ _ _ _ Hs Hx); left. }
  assert (Hhi : Forall (fun x => ~ (x < v)%Z) (drop (S k) l)).
  { apply StronglySorted_app_1_r in Hs. inversion Hs as [|? ? _ Hf]; subst. apply (Forall_impl _ _ _ Hf). lia. }
  rewrite (filter_none _ (drop (S k) l) Hhi), (filter_all _ (take k l) Hlo), length_take. cbn [length].
  pose proof (length_filter (fun x => (x < v)%Z) (take k l)) as Hle. rewrite length_take in Hle. lia.
Qed.

(** The [k]-th smallest sample, counted from one. *)
Definition smallest (xs : list Z) (k : Z) : option Z := merge_sort Z.le xs !! Z.to_nat (k - 1).

Lemma smallest_counts xs k v : 1 <= k -> smallest xs k = Some v ->
  v ∈ xs /\ Z.of_nat (length (filter (fun x => x < v) xs)) < k <= Z.of_nat (length (filter (fun x => x <= v) xs)).
Proof.
  unfold smallest. intros Hk Hv. assert (Hp : merge_sort Z.le xs ≡ₚ xs) by apply merge_sort_Permutation. split.
  - rewrite <- Hp. by eapply list_elem_of_lookup_2.
  - assert (StronglySorted Z.le (merge_sort Z.le xs)) as Hs by (apply StronglySorted_merge_sort; apply _).
    pose proof (sorted_counts _ _ _ Hs Hv) as Hc. rewrite !(Permutation_length (filter_Permutation _ _ _ Hp)) in Hc. lia.
Qed.

Lemma smallest_some xs k : 1 <= k <= Z.of_nat (length xs) -> is_Some (smallest xs k).
Proof. intros Hk. unfold smallest. apply lookup_lt_is_Some_2. rewrite (Permutation_length (merge_sort_Permutation Z.le xs)). lia. Qed.

Lemma filter_weaken {A} (P Q : A -> Prop) `{!forall x, Decision (P x)} `{!forall x, Decision (Q x)} l :
  (forall x, x ∈ l -> P x -> Q x) -> (length (filter P l) <= length (filter Q l))%nat.
Proof.
  induction l as [|x l IH]; intros Hw; [done|]. rewrite !filter_cons. assert (P x -> Q x) by (apply Hw; left). specialize (IH (fun y Hy => Hw y (list_elem_of_further _ _ _ Hy))).
  repeat case_decide; cbn; tauto || lia.
Qed.

(** The [k]-th smallest sample lies in the first bucket up to which there are [k] samples. *)
Lemma smallest_bucket xs k v : Forall is_u64 xs -> 1 <= k -> smallest xs k = Some v ->
  is_u64 v /\ below xs (Z.to_nat (bucket_index v)) < k <= below xs (S (Z.to_nat (bucket_index v))).
Proof.
  intros Hxs Hk Hv. destruct (smallest_counts xs k v Hk Hv) as (Hin & Hlt & Hle). rewrite Forall_forall in Hxs. assert (Hu : is_u64 v) by by apply Hxs. split; [done|].
  destruct (bucket_bounds v Hu) as ([Hb _] & _). unfold below. split.
  - eapply Z.le_lt_trans; [|exact Hlt]. apply Nat2Z.inj_le, filter_weaken. intros x Hx Hlt'. apply Z.nle_gt. intros Hle'.
    pose proof (bucket_index_mono v x Hu (Hxs x Hx) Hle'). lia.
  - etrans; [exact Hle|]. apply Nat2Z.inj_le, filter_weaken. intros x Hx Hle'. pose proof (bucket_index_mono x v (Hxs x Hx) Hu Hle'). lia.
Qed.

Section report.
Context (xs : list Z) (Hxs : Forall is_u64 xs) (Hn : Z.of_nat (length xs) < 2 ^ 64).

Lemma tally_quantile k v : 1 <= k -> smallest xs k = Some v -> quantile_from k 0 0 (tally xs) = Some (bucket_upper_us (bucket_index v)).
Proof.
  intros Hk Hv. destruct (smallest_bucket xs k v Hxs Hk Hv) as [Hu Hb]. destruct (bucket_bounds v Hu) as ([? ?] & _).
  rewrite <- (Z2Nat.id (bucket_index v)) by done. pose proof (below_zero xs Hxs) as Hz.
  rewrite <- Hz at 1. unfold tally. apply (quantile_from_spec xs Hn); [rewrite Hz; lia|unfold BUCKET_COUNT; lia|done].
Qed.

Lemma tally_sum : sum_counts (tally xs) = Z.of_nat (length xs).
Proof.
  unfold sum_counts, tally. pose proof (below_zero xs Hxs) as Hz.
  rewrite <- Hz at 1. rewrite (sum_from xs Hn). apply below_all; [done|]. unfold BUCKET_COUNT. lia.
Qed.

Lemma tally_max v : xs <> [] -> smallest xs (Z.of_nat (length xs)) = Some v -> rposition_from 0 (tally xs) None = Some (Z.to_nat (bucket_index v)).
Proof.
  intros Hne Hv. assert (Hk : 1 <= Z.of_nat (length xs)) by (destruct xs; [done|cbn; lia]). destruct (smallest_bucket xs _ v Hxs Hk Hv) as [Hu [Hb1 Hb2]]. destruct (bucket_bounds v Hu) as ([? ?] & _).
  unfold tally. apply rposition_spec; [unfold BUCKET_COUNT; lia|rewrite below_succ in Hb2; lia|]. intros k Hk'. destruct (smallest_counts xs _ v Hk Hv) as (_ & _ & Hle).
  unfold in_bucket. rewrite filter_none; [done|]. assert (Hall : Forall (fun x => x <= v) xs).
  { apply Forall_forall. intros x Hx. apply Z.nlt_ge. intros Hlt. assert (length (filter (fun x => (x <= v)%Z) xs) < length xs)%nat; [|lia]. eapply length_filter_lt; [exact Hx|]. lia. }
  rewrite Forall_forall in Hall, Hxs |- *. intros x Hx E. pose proof (bucket_index_mono x v (Hxs x Hx) Hu (Hall x Hx)). lia.
Qed.
End report.

(** ** A window *)

(** The counts of a window: those now, less those when it was opened. *)
Definition window_delta (now_ opened : list Z) : list Z := zip_with (fun n o => Z.max 0 (n - o)) now_ opened.

Lemma tally_window ys xs : window_delta (tally (ys ++ xs)) (tally ys) = tally xs.
Proof.
  apply list_eq. intros i. unfold window_delta. destruct (decide (i < BUCKET_COUNT)%nat) as [Hi|Hi].
  - rewrite lookup_zip_with, !lookup_tally by done. cbn. f_equal. unfold in_bucket. rewrite filter_app, length_app. lia.
  - trans (@None Z); [|symmetry]; apply lookup_ge_None_2; rewrite ?length_zip_with; unfold tally; rewrite ?length_map, ?length_seq; lia.
Qed.

Lemma records_tally xs : Forall is_u64 xs -> Z.of_nat (length xs) < 2 ^ 64 -> foldl (fun h us => histogram_record us h) histogram_new xs = tally xs.
Proof.
  induction xs as [|x xs IH] using rev_ind; intros Hxs Hn; [by rewrite tally_nil|]. apply Forall_app in Hxs as [Hxs Hx]. apply Forall_cons_1 in Hx as [Hx _]. rewrite length_app in Hn. cbn in Hn.
  rewrite foldl_app, IH by (done || lia). cbn. apply record_tally; [done|]. unfold U64_MAX. lia.
Qed.

Lemma half_share : share_of half 1 2.
Proof. exists (2 ^ 52)%positive. split_and!; done. Qed.

Lemma ninety_nine_share : share_of ninety_nine 99 100.
Proof. eexists. split_and!; [vm_compute; reflexivity|..]; done. Qed.

Lemma rank_exact q a c n : share_of q a c -> 1 <= c <= 100 -> 0 < a <= c -> 0 < n < 2 ^ 45 -> rank_of q n = ceil_div (a * n) c /\ 1 <= rank_of q n <= n.
Proof.
  intros Hq Hc Ha Hn. unfold rank_of. rewrite (share_ceil q a c n Hn Hc Hq). pose proof (ceil_div_spec (a * n) c ltac:(lia)) as Hs. unfold U64_MAX. set (K := ceil_div (a * n) c) in *.
  assert (1 <= K <= n) by nia. lia.
Qed.

(** The number reported for a sample: never below it, and at most an eighth above. *)
Definition reported (p : option Z) (v : option Z) : Prop := exists r x, p = Some r /\ v = Some x /\ x <= r <= x + x / 8.

Lemma reported_bucket v : is_u64 v -> reported (Some (bucket_upper_us (bucket_index v))) (Some v).
Proof. intros Hv. destruct (bucket_bounds v Hv) as (_ & Hb & _). by exists (bucket_upper_us (bucket_index v)), v. Qed.

Lemma rank_reported xs k q : Forall is_u64 xs -> Z.of_nat (length xs) < 2 ^ 64 -> 1 <= k <= Z.of_nat (length xs) -> rank_of q (Z.of_nat (length xs)) = k ->
  reported (quantile_from (rank_of q (Z.of_nat (length xs))) 0 0 (tally xs)) (smallest xs k).
Proof.
  intros Hxs Hn Hk ->. destruct (smallest_some xs k Hk) as [v Hv]. rewrite (tally_quantile xs Hxs Hn k v) by (done || lia). rewrite Hv.
  apply reported_bucket. by destruct (smallest_bucket xs k v Hxs ltac:(lia) Hv).
Qed.

(** C34: Whatever samples [ys] were recorded before a window and [xs] in it, fewer than 2^45 in all: the report of the
    window counts exactly [xs], its median is the bound of the bucket of the sample of rank n/2 rounded up, its 99th
    percentile that of the sample of rank 99n/100 rounded up (the product in doubles rounds to exactly that rank), its
    maximum that of the largest sample; each is at least the sample and at most one eighth above. *)
Theorem latency_report_bounds ys xs : Forall is_u64 (ys ++ xs) -> xs <> [] -> Z.of_nat (length (ys ++ xs)) < 2 ^ 45 ->
  let record := foldl (fun h us => histogram_record us h) in
  let opened := record histogram_new ys in
  let s := from_delta (window_delta (record opened xs) opened) in
  let n := Z.of_nat (length xs) in
  ls_count s = n /\ reported (ls_p50_us s) (smallest xs (ceil_div n 2)) /\ reported (ls_p99_us s) (smallest xs (ceil_div (99 * n) 100)) /\
  reported (ls_max_us s) (smallest xs n).
Proof.
  intros Hall Hne Hlen record opened s n. assert (Hd : window_delta (record opened xs) opened = tally xs).
  { unfold opened, record. rewrite <- foldl_app. assert (Z.of_nat (length ys) < 2 ^ 64) by (rewrite length_app in Hlen; lia).
    rewrite !records_tally by (done || lia || by apply Forall_app in Hall as [? _]). apply tally_window. }
  subst s. rewrite Hd. apply Forall_app in Hall as [_ Hxs]. rewrite length_app in Hlen. assert (Hn : 0 < n < 2 ^ 45) by (subst n; destruct xs; [done|cbn in *; lia]).
  assert (Hn' : Z.of_nat (length xs) < 2 ^ 64) by lia. unfold from_delta. rewrite tally_sum by done. fold n. destruct (Z.eqb_spec n 0); [lia|]. cbn [ls_count ls_p50_us ls_p99_us ls_max_us].
  destruct (rank_exact half 1 2 n half_share ltac:(lia) ltac:(lia) Hn) as [E1 B1]. destruct (rank_exact ninety_nine 99 100 n ninety_nine_share ltac:(lia) ltac:(lia) Hn) as [E2 B2].
  rewrite Z.mul_1_l in E1. rewrite E1 in B1. rewrite E2 in B2. split_and!; [done|by apply rank_reported|by apply rank_reported|].
  destruct (smallest_some xs n ltac:(lia)) as [v Hv]. rewrite (tally_max xs Hxs Hn' v Hne Hv), Hv. cbn. destruct (smallest_bucket xs n v Hxs ltac:(lia) Hv) as [Hu _].
  destruct (bucket_bounds v Hu) as ([? _] & _). rewrite Z2Nat.id by done. by apply reported_bucket.
Qed.

(** Five samples before the window, a hundred in it. *)
Definition sample_window : list Z := map (fun i => Z.of_nat i * 37) (seq 1 100).

Lemma latency_report_bounds_witness :
  let record := foldl (fun h us => histogram_record us h) in
  let opened := record histogram_new [5; 900; 12; 3; 70000] in
  let s := from_delta (window_delta (record opened sample_window) opened) in
  ls_count s = 100 /\ reported (ls_p50_us s) (smallest sample_window 50) /\ reported (ls_p99_us s) (smallest sample_window 99) /\ reported (ls_max_us s) (smallest sample_window 100) /\
  smallest sample_window 50 = Some 1850 /\ ls_p50_us s = Some 1919 /\ smallest sample_window 99 = Some 3663 /\ ls_p99_us s = Some 3839.
Proof.
  assert (Hall : Forall is_u64 ([5; 900; 12; 3; 70000] ++ sample_window)) by (apply (bool_decide_unpack _); vm_compute; exact I).
  destruct (latency_report_bounds [5; 900; 12; 3; 70000] sample_window Hall ltac:(discriminate) ltac:(vm_compute; reflexivity)) as (H1 & H2 & H3 & H4).
  split_and!; [exact H1|exact H2|exact H3|exact H4|vm_compute; reflexivity..].
Defined.
