(* ===== verification/OrderKey.v ===== *)
(** * Keys over a [data] field ([src/src/storage/index.rs], second half)

    The byte encoding a declared index is keyed by and the comparator a sorted
    read uses are two definitions of one order.  The theorems: the encoding
    orders as the comparator does, the address can be recovered, an equality
    scan and a [starts_with] scan select exactly their entries, and the checks
    made before a write is logged bound every key it produces.  The one
    exception is the negative zero, for which the two orders differ. *)

From Stdlib Require Import ZArith Lia SpecFloat Ascii String.
From stdpp Require Import base tactics list strings option.
From S2P Require Import Prelude Binary Page PageSpec BTree BTreeCells Keys Json.

Section order.
Context {N : Type} `{SerdeJson N}.

(** ** The comparator *)

Definition type_rank (v : option (value N)) : Z :=
  match v with
  | Some JNull => 16
  | Some (JBool _) => 32
  | Some (JNumber _) => 48
  | Some (JString _) => 64
  | Some (JArray _) | Some (JObject _) => 80
  | None => 240
  end.

Definition cmp_bool (x y : bool) : comparison :=
  match x, y with false, true => Lt | true, false => Gt | _, _ => Eq end.

(** [as_f64().unwrap_or(0.0)] *)
Definition f64_or_zero (n : N) : f64 := default f64_zero (num_as_f64 n).

Definition compare_order_values (a b : option (value N)) : comparison :=
  match (type_rank a ?= type_rank b)%Z with
  | Eq =>
      match a, b with
      | Some (JBool x), Some (JBool y) => cmp_bool x y
      | Some (JNumber x), Some (JNumber y) => default Eq (SFcompare (f64_or_zero x) (f64_or_zero y))
      | Some (JString x), Some (JString y) => lex_cmp (as_bytes x) (as_bytes y)
      | Some (JArray _ as x), Some y | Some (JObject _ as x), Some y =>
          lex_cmp (as_bytes (to_string x)) (as_bytes (to_string y))
      | _, _ => Eq
      end
  | c => c
  end.

(** ** The encoding *)

(** The order-preserving transform of a double's bits. *)
Definition ordered_bits (f : f64) : Z :=
  if is_sign_negative f then (2 ^ 64 - 1 - to_bits f)%Z else Z.lxor (to_bits f) (Z.shiftl 1 63).

Definition encode_value_body (v : option (value N)) : list Z :=
  type_rank v ::
  match v with
  | Some (JBool b) => [if b then 1%Z else 0%Z]
  | Some (JNumber n) => be_bytes 8 (ordered_bits (f64_or_zero n))
  | Some (JString s) => as_bytes s
  | Some (JArray _ as x) | Some (JObject _ as x) => as_bytes (to_string x)
  | Some JNull | None => []
  end.

Fixpoint escape (l : list Z) : list Z :=
  match l with
  | [] => []
  | b :: l => if (b =? 0)%Z then 0%Z :: 255%Z :: escape l else b :: escape l
  end.

Definition append_escaped (out l : list Z) : list Z := out ++ escape l ++ [0; 0]%Z.

Definition encode_string_prefix (prefix : string) : list Z :=
  type_rank (Some (JString EmptyString)) :: escape (as_bytes prefix).

Definition encode_order_value (v : option (value N)) : list Z := append_escaped [] (encode_value_body v).

Definition data_key (v : option (value N)) (address : list Z) : list Z := encode_order_value v ++ address.

Fixpoint address_from_data_key (key : list Z) : option (list Z) :=
  match key with
  | a :: ((b :: rest) as tail) =>
      if (a =? 0)%Z then if (b =? 0)%Z then Some rest else address_from_data_key rest
      else address_from_data_key tail
  | _ => None
  end.

(** ** Index declarations and the keys a node produces in them *)

Record IndexDef := { def_name : string; def_kind : string; def_field : string; def_unique : bool }.

Definition MAX_INDEX_NAME_LEN : nat := 64.
Definition MAX_INDEX_VALUE_LEN : nat := 512.

(** [is_ascii_alphanumeric() || b == b'_' || b == b'-'] *)
Definition name_byte (b : Z) : bool :=
  ((48 <=? b) && (b <=? 57) || (65 <=? b) && (b <=? 90) || (97 <=? b) && (b <=? 122) || (b =? 95) || (b =? 45))%Z.

Definition index_def_validate (d : IndexDef) : check :=
  if (str_len (def_name d) =? 0) || (MAX_INDEX_NAME_LEN <? str_len (def_name d)) then Err tt
  else if negb (forallb name_byte (as_bytes (def_name d))) then Err tt
  else if str_len (def_kind d) =? 0 then Err tt
  else if str_len (def_field d) =? 0 then Err tt
  else _ ← check_component (as_bytes (def_kind d)); check_component (as_bytes (def_field d)).

Fixpoint check_data_keys_of (decoded : option (value N)) (defs : list IndexDef) (address : list Z) : check :=
  match defs with
  | [] => Ok tt
  | d :: defs =>
      let v := decoded ≫= (fun j => get_field j (def_field d)) in
      if MAX_INDEX_VALUE_LEN <? length (encode_order_value v) then Err tt
      else
        _ ← check_key_admissible (encode_order_value v ++ address);
        check_data_keys_of decoded defs address
  end.

Definition check_data_keys (defs : list IndexDef) (address : list Z) (data : string) : check :=
  check_data_keys_of (from_str data) defs address.

(** ** The escaping keeps the order, whatever follows the terminator *)

Lemma escape_cmp a b x y :
  bytes a -> bytes b ->
  lex_cmp (escape a ++ [0; 0]%Z ++ x) (escape b ++ [0; 0]%Z ++ y) =
  match lex_cmp a b with Eq => lex_cmp x y | c => c end.
Proof.
  intros Ha. revert b. induction Ha as [|p a Hp Ha IH]; intros b Hb; destruct Hb as [|q b Hq Hb]; cbn [escape lex_cmp].
  - by rewrite lex_cmp_app.
  - unfold is_byte in Hq. case_goal; breflect; cbn [app lex_cmp]; [done|].
    destruct (Z.compare_spec 0 q); (done || lia).
  - unfold is_byte in Hp. case_goal; breflect; cbn [app lex_cmp]; [done|].
    destruct (Z.compare_spec p 0); (done || lia).
  - specialize (IH b Hb). cbn [app] in IH. unfold is_byte in Hp, Hq.
    destruct (Z.eqb_spec p 0) as [->|], (Z.eqb_spec q 0) as [->|]; cbn [app lex_cmp].
    + exact IH.
    + destruct (Z.compare_spec 0 q); (done || lia).
    + destruct (Z.compare_spec p 0); (done || lia).
    + by destruct (p ?= q)%Z.
Qed.

Lemma escape_app a b : escape (a ++ b) = escape a ++ escape b.
Proof. induction a as [|p a IH]; cbn [escape app]; [done|]. case_goal; cbn; by rewrite IH. Qed.

Lemma address_escaped l rest : bytes l -> address_from_data_key (escape l ++ [0; 0]%Z ++ rest) = Some rest.
Proof.
  induction 1 as [|p l Hp Hl IH]; [done|]. cbn [escape]. destruct (Z.eqb_spec p 0) as [->|Hne]; [exact IH|].
  destruct (escape l ++ [0; 0]%Z ++ rest) as [|b tl] eqn:El; [by destruct (escape l)|].
  cbn [app] in *. rewrite El. cbn [address_from_data_key]. by apply Z.eqb_neq in Hne as ->.
Qed.

(** ** The transform of doubles keeps the order *)

Definition usable (f : f64) : Prop := is_finite f = true /\ f64_valid f = true.

Lemma magnitude_bound f : usable f -> (0 <= magnitude_bits f < 2047 * 2 ^ 52)%Z.
Proof. intros [Hf Hv]. destruct f; try done. pose proof (magnitude_finite s m e Hv). lia. Qed.

Lemma ordered_bits_eq f :
  usable f ->
  ordered_bits f = (if is_sign_negative f then 2 ^ 63 - 1 - magnitude_bits f else 2 ^ 63 + magnitude_bits f)%Z.
Proof.
  intros Hf. pose proof (magnitude_bound f Hf) as Hm. unfold ordered_bits, to_bits. destruct (is_sign_negative f); [lia|].
  change (Z.shiftl 1 63) with (2 ^ 63)%Z. rewrite Z.add_0_l, <- Z.add_nocarry_lxor; [lia|].
  apply Z.bits_inj'. intros i Hi. rewrite Z.land_spec, Z.bits_0, Z.pow2_bits_eqb by lia.
  destruct (Z.eqb_spec 63 i) as [<-|]; [|by rewrite andb_false_r]. rewrite (bits_above _ 63) by lia. done.
Qed.

Lemma ordered_bits_u64 f : usable f -> u64 (ordered_bits f).
Proof. intros Hf. rewrite ordered_bits_eq by done. pose proof (magnitude_bound f Hf). case_goal; lia. Qed.

Lemma ordered_bits_cmp f g :
  usable f -> usable g -> f <> negative_zero -> g <> negative_zero ->
  SFcompare f g = Some (ordered_bits f ?= ordered_bits g)%Z.
Proof.
  intros Hf Hg Nf Ng. rewrite !ordered_bits_eq by done.
  pose proof (magnitude_bound f Hf). pose proof (magnitude_bound g Hg). destruct Hf as [Ff Vf], Hg as [Fg Vg].
  destruct f as [[]|[]| |[] m e], g as [[]|[]| |[] m' e']; try done; cbn [SFcompare is_sign_negative];
    f_equal; symmetry; try (apply Z.compare_lt_iff; lia); try (apply Z.compare_gt_iff; lia).
  all: try (pose proof (magnitude_finite _ _ _ Vf); try (apply Z.compare_lt_iff; cbn [magnitude_bits] in *; lia);
            apply Z.compare_gt_iff; cbn [magnitude_bits] in *; lia).
  all: try (pose proof (magnitude_finite _ _ _ Vg); try (apply Z.compare_lt_iff; cbn [magnitude_bits] in *; lia);
            apply Z.compare_gt_iff; cbn [magnitude_bits] in *; lia).
  - transitivity (CompOpp (magnitude_bits (S754_finite true m e) ?= magnitude_bits (S754_finite true m' e'))%Z).
    + rewrite <- Z.compare_antisym. unfold Z.sub. rewrite Z.add_compare_mono_l. apply Z.compare_opp.
    + rewrite magnitude_cmp by done. by destruct (e ?= e')%Z.
  - rewrite Z.add_compare_mono_l. by apply magnitude_cmp.
Qed.

(** ** The encoding of a value *)

Context `{!SerdeLaws N}.

Definition plain (v : option (value N)) : Prop :=
  match v with Some (JNumber n) => num_as_f64 n <> Some negative_zero | _ => True end.

Lemma f64_or_zero_usable n : usable (f64_or_zero n).
Proof. unfold f64_or_zero. destruct (num_as_f64_finite n) as (x & -> & ? & ?). by split. Qed.

Lemma f64_or_zero_plain n : num_as_f64 n <> Some negative_zero -> f64_or_zero n <> negative_zero.
Proof. unfold f64_or_zero. destruct (num_as_f64_finite n) as (x & -> & ? & ?). cbn. congruence. Qed.

Lemma encode_body_bytes v : bytes (encode_value_body v).
Proof.
  apply Forall_cons_2; [by destruct v as [[]|]; cbn|]. destruct v as [[|[]| | | |]|]; auto using be_bytes_bytes, as_bytes_bytes.
  all: repeat constructor; done.
Qed.

Lemma encode_body_cmp a b :
  plain a -> plain b -> lex_cmp (encode_value_body a) (encode_value_body b) = compare_order_values a b.
Proof.
  intros Ha Hb. unfold encode_value_body, compare_order_values. cbn [lex_cmp].
  destruct (type_rank a ?= type_rank b)%Z eqn:E; try done.
  destruct a as [[|x|n|s|l|l]|], b as [[|y|n'|s'|l'|l']|]; try discriminate E; try done.
  - by destruct x, y.
  - cbn in Ha, Hb. rewrite ordered_bits_cmp by auto using f64_or_zero_usable, f64_or_zero_plain.
    cbn [default]. apply lex_cmp_be_bytes; apply ordered_bits_u64, f64_or_zero_usable.
Qed.

Lemma data_key_cmp a b x y :
  plain a -> plain b ->
  lex_cmp (data_key a x) (data_key b y) = match compare_order_values a b with Eq => lex_cmp x y | c => c end.
Proof.
  intros. unfold data_key, encode_order_value, append_escaped. cbn [app]. rewrite <- !app_assoc.
  rewrite escape_cmp by apply encode_body_bytes. by rewrite encode_body_cmp.
Qed.

Lemma encode_body_inj a b x y :
  data_key a x = data_key b y -> encode_value_body a = encode_value_body b /\ x = y.
Proof.
  unfold data_key, encode_order_value, append_escaped. cbn [app]. rewrite <- !app_assoc. intros E%lex_cmp_eq.
  rewrite escape_cmp in E by apply encode_body_bytes.
  destruct (lex_cmp (encode_value_body a) (encode_value_body b)) eqn:C; try done.
  apply lex_cmp_eq in C, E. done.
Qed.

Lemma escaped_prefix p l rest :
  bytes p -> bytes l ->
  (exists r, escape l ++ [0; 0]%Z ++ rest = escape p ++ r) <-> exists t, l = p ++ t.
Proof.
  intros Hp. revert l. induction Hp as [|b p Hb Hp IH]; intros l Hl.
  { split; intros _; [by exists l|eauto]. }
  destruct Hl as [|c l Hc Hl]; cbn [escape].
  - split; [|by intros [? ?]]. intros [r E]. exfalso. destruct (Z.eqb_spec b 0) as [->|]; cbn in E; congruence.
  - destruct (Z.eqb_spec b 0) as [->|], (Z.eqb_spec c 0) as [->|]; cbn [app].
    all: split; intros [r E]; try congruence.
    + injection E as E. destruct (proj1 (IH l Hl)) as [t ->]; [by exists r|]. by exists t.
    + injection E as ->. destruct (proj2 (IH _ Hl)) as [t E]; [by exists r|]. exists t. cbn [app] in E. by rewrite E.
    + injection E as -> E. destruct (proj1 (IH l Hl)) as [t ->]; [by exists r|]. by exists t.
    + injection E as -> ->. destruct (proj2 (IH _ Hl)) as [t E]; [by exists r|]. exists t. cbn [app] in E. by rewrite E.
Qed.

Lemma as_bytes_prefix p s : (exists t, as_bytes s = as_bytes p ++ t) <-> String.prefix p s = true.
Proof.
  rewrite prefix_spec. split; intros [t E].
  - revert s E. induction p as [|c p IH]; intros s E; [by exists s|]. destruct s as [|c' s]; [done|].
    rewrite !as_bytes_cons in E. injection E as Ec E. apply ascii_code_inj in Ec as ->. destruct (IH _ E) as [r ->]. by exists r.
  - subst s. exists (as_bytes t). induction p as [|c p IH]; [done|]. exact (f_equal (cons _) IH).
Qed.

(** ** What the keys of a declared index promise *)

(** C30: Index order is read order, but for the negative zero: for any two field values (absent
    included) neither of which is the number -0.0, and any addresses, comparing the index keys
    byte by byte gives the comparator's answer, and entries with equal values follow the order of
    their addresses. *)
Theorem data_keys_sort (a b : option (value N)) (x y : list Z) :
  plain a -> plain b ->
  lex_cmp (data_key a x) (data_key b y) = match compare_order_values a b with Eq => lex_cmp x y | c => c end.
Proof. apply data_key_cmp. Qed.

(** The address survives the key: it is recovered from every index key, whatever the value,
    its zero bytes included. *)
Theorem data_key_roundtrip (v : option (value N)) (address : list Z) :
  address_from_data_key (data_key v address) = Some address.
Proof.
  unfold data_key, encode_order_value, append_escaped. cbn [app]. rewrite <- app_assoc.
  apply address_escaped, encode_body_bytes.
Qed.

(** An equality scan selects exactly its rows: an index key starts with the encoding of a value
    exactly when its own value compares equal to it. *)
Theorem equality_scan_exact (v w : option (value N)) (address : list Z) :
  plain v -> plain w ->
  starts_with (data_key v address) (encode_order_value w) = true <-> compare_order_values v w = Eq.
Proof.
  intros Hv Hw. rewrite starts_with_spec, <- encode_body_cmp, lex_cmp_eq by done. split.
  - intros [r E]. by apply (encode_body_inj v w address r) in E as [? _].
  - intros E. exists address. unfold data_key, encode_order_value. by rewrite E.
Qed.

(** A [starts_with] scan selects exactly its rows: an index key starts with the encoding of a
    string prefix exactly when its value is a string with that prefix. *)
Theorem prefix_scan_exact (v : option (value N)) (p : string) (address : list Z) :
  starts_with (data_key v address) (encode_string_prefix p) = true <->
  exists s, v = Some (JString s) /\ String.prefix p s = true.
Proof.
  rewrite starts_with_spec.
  change (encode_string_prefix p) with (escape ([64%Z] ++ as_bytes p)).
  unfold data_key, encode_order_value, append_escaped. cbn [app]. rewrite <- app_assoc.
  rewrite escaped_prefix by (apply encode_body_bytes || (apply Forall_cons_2; [done|apply as_bytes_bytes])). split.
  - intros [t E]. destruct v as [[]|]; try discriminate E. exists s. split; [done|].
    apply as_bytes_prefix. exists t. by injection E.
  - intros (s & -> & [t E]%as_bytes_prefix). exists t. exact (f_equal (cons 64%Z) E).
Qed.

(** The pre-log check of a write against the declared indexes passes exactly when every key it
    produces is one [BTree::put] accepts and every encoded value is within its bound. *)
Theorem data_keys_admissible (defs : list IndexDef) (address : list Z) (data : string) :
  check_data_keys defs address data = Ok tt <->
  Forall (fun d =>
    let v := from_str data ≫= (fun j => get_field j (def_field d)) in
    length (encode_order_value v) <= MAX_INDEX_VALUE_LEN /\ 0 < length (data_key v address) <= MAX_KEY_LEN) defs.
Proof.
  unfold check_data_keys. induction defs as [|d defs IH]; cbn [check_data_keys_of]; [by split|].
  rewrite Forall_cons_iff. fold (data_key (from_str data ≫= (fun j => get_field j (def_field d))) address).
  destruct (Nat.ltb_spec MAX_INDEX_VALUE_LEN (length (encode_order_value (from_str data ≫= (fun j => get_field j (def_field d)))))).
  - split; [done|]. intros [[? _] _]. lia.
  - rewrite check_bind, check_key_legal, IH. tauto.
Qed.
End order.

(** A validated index name is safe in a file name: it is one to sixty-four bytes long and every
    byte is a letter, a digit, an underscore or a hyphen, so never a separator, a dot or a NUL. *)
Theorem index_name_is_plain (d : IndexDef) :
  index_def_validate d = Ok tt ->
  1 <= str_len (def_name d) <= 64 /\ (1 <= Z.of_nat (str_len (def_kind d)) <= 65535)%Z /\ (1 <= Z.of_nat (str_len (def_field d)) <= 65535)%Z /\
  Forall (fun b => name_byte b = true /\ b <> 0 /\ b <> 46 /\ b <> 47)%Z (as_bytes (def_name d)).
Proof.
  unfold index_def_validate. destruct (_ || _) eqn:E1; [done|]. destruct (negb _) eqn:E2; [done|].
  destruct (str_len (def_kind d) =? 0) eqn:E3; [done|]. destruct (str_len (def_field d) =? 0) eqn:E4; [done|].
  rewrite check_bind, !check_component_short. unfold short, MAX_COMPONENT_LEN. rewrite !length_as_bytes. intros [Hk Hf].
  breflect. unfold MAX_INDEX_NAME_LEN in *. refine (conj _ (conj _ (conj _ _))); [lia..|].
  apply negb_false_iff in E2. rewrite forallb_forall in E2. apply Forall_forall. intros b Hb. specialize (E2 b Hb).
  split; [done|]. unfold name_byte in E2. lia.
Qed.

Definition example_index : IndexDef :=
  {| def_name := "by_score"; def_kind := "Post"; def_field := "score"; def_unique := false |}.

Lemma index_name_is_plain_witness : 1 <= str_len (def_name example_index) <= 64.
Proof. exact (proj1 (index_name_is_plain example_index eq_refl)). Defined.

(** Doubles for the examples. *)
Definition dbl (x : f64) (p : is_finite x && f64_valid x = true) : value double := JNumber (exist _ x p).
Definition one : value double := dbl (f64_of_Z 1) eq_refl.
Definition minus_two : value double := dbl (f64_of_Z (-2)) eq_refl.
Definition pos_zero : value double := dbl f64_zero eq_refl.
Definition neg_zero : value double := dbl negative_zero eq_refl.

Lemma data_keys_sort_witness :
  lex_cmp (data_key (H := double_json) (Some minus_two) [97%Z]) (data_key (H := double_json) (Some one) [97%Z]) = Lt.
Proof. rewrite (@data_keys_sort double double_json double_laws); [reflexivity|done|done]. Defined.

Lemma equality_scan_exact_witness :
  starts_with (data_key (H := double_json) (Some one) [97%Z]) (encode_order_value (H := double_json) (Some one)) = true.
Proof. apply (@equality_scan_exact double double_json double_laws); [done|done|reflexivity]. Defined.

(** The two zeros order differently in the index and in a sort: the comparator calls them
    equal while their encodings differ, so an equality scan for [0.0] does not return the row that
    holds [-0.0]. *)
Theorem negative_zero_breaks_order :
  compare_order_values (H := double_json) (Some neg_zero) (Some pos_zero) = Eq /\
  forall address, starts_with (data_key (H := double_json) (Some neg_zero) address)
                              (encode_order_value (H := double_json) (Some pos_zero)) = false.
Proof.
  split; [reflexivity|]. intros address.
  apply not_true_iff_false. rewrite starts_with_spec. intros [r E]. discriminate E.
Qed.
