(* ===== verification/Predicate.v ===== *)
(** * Predicates ([src/src/core/predicate.rs])

    A predicate arrives as a tree from the wire; [validate] bounds it once,
    [eval] runs it on one record, and three analyses tell the planner which
    index entries a matching record must have.  The theorems: validation
    accepts exactly the trees of bounded height and size and makes evaluation
    free of depth errors; the analyses are sound, so that an index scan never
    loses a record the full evaluation would return; and where the indexed and
    the scanned answer do differ. *)

From Stdlib Require Import ZArith Lia SpecFloat Ascii String.
From stdpp Require Import base tactics list strings option.
From S2P Require Import Prelude Json GoLower.
Local Open Scope string_scope.

(** ** Expressions *)

(** The wire shape of [ir.Expr]. *)
Inductive Expr (N : Type) : Type := MkExpr {
  e_kind : string;
  e_val : option (value N);
  e_vtype : option string;
  e_name : option string;
  e_field : option string;
  e_obj : option (Expr N);
  e_key : option (Expr N);
  e_op : option string;
  e_args : option (list (Expr N));
  e_l : option (Expr N);
  e_r : option (Expr N);
  e_x : option (Expr N);
  e_var : option string;
  e_where : option (Expr N);
}.
Arguments MkExpr {N}.
Arguments e_kind {N}.
Arguments e_val {N}.
Arguments e_vtype {N}.
Arguments e_name {N}.
Arguments e_field {N}.
Arguments e_obj {N}.
Arguments e_key {N}.
Arguments e_op {N}.
Arguments e_args {N}.
Arguments e_l {N}.
Arguments e_r {N}.
Arguments e_x {N}.
Arguments e_var {N}.
Arguments e_where {N}.

Definition MAX_PREDICATE_DEPTH : nat := 64.
Definition MAX_PREDICATE_NODES : nat := 256.
Definition MAX_PREDICATE_STRING : Z := 64 * 1024.
Definition MAX_IN_SET : nat := 1000.

(** The refusals, one per message. *)
Inductive pred_error : Set :=
| TooDeep
| TooManyNodes
| MissingPart
| NotItemField
| NotNumeric
| UnknownOperator
| UnknownFunction
| WrongArity
| UnknownKind
| NeedsArray
| SetTooLarge
| StringTooLong
| DivisionByZero
| ModuloByZero.

#[export] Instance pred_error_eq_dec : EqDecision pred_error.
Proof. solve_decision. Defined.

Abbreviation outcome := (result pred_error).

(** [ok_or_else] *)
Definition ok_or {A} (e : pred_error) (o : option A) : outcome A :=
  match o with Some a => Ok a | None => Err e end.

Section eval.
Context {N : Type} `{SerdeJson N}.
Implicit Types (e : Expr N) (v : value N).

(** ** Validation: one walk, before the first row *)

Fixpoint validate_at (e : Expr N) (depth budget : nat) : outcome nat :=
  let child := fun (c : option (Expr N)) (budget : nat) =>
    match c with Some c => validate_at c (depth + 1) budget | None => Ok budget end in
  if (MAX_PREDICATE_DEPTH <=? depth)%nat then Err TooDeep
  else if (budget =? 0)%nat then Err TooManyNodes
  else
    budget ← child (e_obj e) (budget - 1);
    budget ← child (e_key e) budget;
    budget ← child (e_l e) budget;
    budget ← child (e_r e) budget;
    budget ← child (e_x e) budget;
    budget ← child (e_where e) budget;
    match e_args e with
    | Some args =>
        (fix go (args : list (Expr N)) (budget : nat) : outcome nat :=
           match args with
           | [] => Ok budget
           | a :: args => budget ← validate_at a (depth + 1) budget; go args budget
           end) args budget
    | None => Ok budget
    end.

Definition validate (e : Expr N) : outcome unit := _ ← validate_at e 0 MAX_PREDICATE_NODES; Ok tt.

(** ** Values *)

Definition number_value (x : f64) : value N :=
  match num_from_f64 x with Some n => JNumber n | None => JNull end.

Definition truthy v : bool := match v with JBool b => b | JNull => false | _ => true end.

(** [==] on [Option<f64>] *)
Definition opt_f64_eqb (x y : option f64) : bool :=
  match x, y with Some x, Some y => SFeqb x y | None, None => true | _, _ => false end.

Definition values_equal (l r : value N) : bool :=
  match l, r with
  | JNumber _, JNumber _ => opt_f64_eqb (as_f64 l) (as_f64 r)
  | _, _ => value_eqb l r
  end.

Definition is_int v : bool := match v with JNumber n => num_is_int n | _ => false end.

Definition lit_value (e : Expr N) : value N :=
  let val := default JNull (e_val e) in
  if bool_decide (e_vtype e = Some "int") then
    if is_int val then val
    else match as_f64 val with Some n => number_value (f64_trunc n) | None => JNull end
  else if bool_decide (e_vtype e = Some "bool") then
    JBool (match val with JBool b => b | _ => false end)
  else if bool_decide (e_vtype e = Some "text") then
    match val with JString _ => val | other => JString (to_string other) end
  else val.

Definition lower_text v : string :=
  match v with
  | JString s => go_lower s
  | JNull => ""
  | JBool b => if b then "true" else "false"
  | other => go_lower (to_string other)
  end.

(** ** Binary operators *)

Definition numeric_pair (l r : value N) : outcome (f64 * f64) :=
  match as_f64 l, as_f64 r with Some x, Some y => Ok (x, y) | _, _ => Err NotNumeric end.

Definition eval_bin_op (op : string) (l r : value N) : outcome (value N) :=
  if op =? "==" then Ok (JBool (values_equal l r))
  else if op =? "!=" then Ok (JBool (negb (values_equal l r)))
  else if (op =? "starts_with") || (op =? "ends_with") || (op =? "contains") then
    match l, r with
    | JString haystack, JString needle =>
        Ok (JBool (if op =? "starts_with" then String.prefix needle haystack
                   else if op =? "ends_with" then str_ends_with haystack needle
                   else str_contains haystack needle))
    | _, _ => Ok (JBool false)
    end
  else if (op =? "in") || (op =? "not in") then
    match r with
    | JArray set =>
        if (MAX_IN_SET <? length set)%nat then Err SetTooLarge
        else
          let found := existsb (values_equal l) set in
          Ok (JBool (if op =? "in" then found else negb found))
    | _ => Err NeedsArray
    end
  else if (op =? "<") || (op =? "<=") || (op =? ">") || (op =? ">=") then
    '(x, y) ← numeric_pair l r;
    Ok (JBool (if op =? "<" then SFltb x y else if op =? "<=" then SFleb x y
               else if op =? ">" then SFltb y x else SFleb y x))
  else if op =? "+" then
    match l, r with
    | JString a, JString b =>
        if (MAX_PREDICATE_STRING <? Z.of_nat (str_len a) + Z.of_nat (str_len b))%Z then Err StringTooLong
        else Ok (JString (a ++ b))
    | _, _ => '(x, y) ← numeric_pair l r; Ok (number_value (f64_add x y))
    end
  else if (op =? "-") || (op =? "*") || (op =? "/") || (op =? "%") then
    '(x, y) ← numeric_pair l r;
    if op =? "-" then Ok (number_value (f64_sub x y))
    else if op =? "*" then Ok (number_value (f64_mul x y))
    else if op =? "/" then
      if SFeqb y f64_zero then Err DivisionByZero else Ok (number_value (f64_div x y))
    else
      if SFeqb y f64_zero then Err ModuloByZero else Ok (number_value (f64_rem x y))
  else Err UnknownOperator.

(** ** Evaluation *)

Definition is_item_ref (item_var : string) (obj : Expr N) : bool :=
  (e_kind obj =? "ref") && bool_decide (e_name obj = Some item_var).

Fixpoint eval_at (e : Expr N) (item_var : string) (data : value N) (depth : nat) : outcome (value N) :=
  if (MAX_PREDICATE_DEPTH <=? depth)%nat then Err TooDeep
  else if e_kind e =? "lit" then Ok (lit_value e)
  else if e_kind e =? "get" then
    match e_obj e with
    | None => Err MissingPart
    | Some obj =>
        if negb (is_item_ref item_var obj) then Err NotItemField
        else match e_field e with
             | None => Err MissingPart
             | Some field => Ok (default JNull (get_field data field))
             end
    end
  else if e_kind e =? "un" then
    match e_x e with
    | None => Err MissingPart
    | Some x =>
        v ← eval_at x item_var data (depth + 1);
        if bool_decide (e_op e = Some "!") then Ok (JBool (negb (truthy v)))
        else if bool_decide (e_op e = Some "-") then
          match as_f64 v with Some n => Ok (number_value (SFopp n)) | None => Err NotNumeric end
        else Err UnknownOperator
    end
  else if e_kind e =? "bin" then
    match e_l e with
    | None => Err MissingPart
    | Some l =>
        match e_r e with
        | None => Err MissingPart
        | Some r =>
            match e_op e with
            | None => Err MissingPart
            | Some op =>
                if op =? "&&" then
                  lv ← eval_at l item_var data (depth + 1);
                  if negb (truthy lv) then Ok (JBool false)
                  else rv ← eval_at r item_var data (depth + 1); Ok (JBool (truthy rv))
                else if op =? "||" then
                  lv ← eval_at l item_var data (depth + 1);
                  if truthy lv then Ok (JBool true)
                  else rv ← eval_at r item_var data (depth + 1); Ok (JBool (truthy rv))
                else
                  lv ← eval_at l item_var data (depth + 1);
                  rv ← eval_at r item_var data (depth + 1);
                  eval_bin_op op lv rv
            end
        end
    end
  else if e_kind e =? "call" then
    if bool_decide (e_name e = Some "lower") then
      match e_args e with
      | Some [a] => v ← eval_at a item_var data (depth + 1); Ok (JString (lower_text v))
      | _ => Err WrongArity
      end
    else Err UnknownFunction
  else Err UnknownKind.

Definition eval (e : Expr N) (item_var : string) (data : value N) : outcome (value N) :=
  eval_at e item_var data 0.

(** ** Which part of a predicate an index can answer *)

Definition is_field_access (e : Expr N) (item_var field : string) : bool :=
  (e_kind e =? "get") && bool_decide (e_field e = Some field) &&
  match e_obj e with Some obj => is_item_ref item_var obj | None => false end.

Fixpoint prefix_literal_at (e : Expr N) (item_var field : string) (depth : nat) : option string :=
  if (MAX_PREDICATE_DEPTH <=? depth)%nat || negb (e_kind e =? "bin") then None
  else match e_l e, e_r e, e_op e with
  | Some l, Some r, Some op =>
      if op =? "&&" then
        match prefix_literal_at l item_var field (depth + 1) with
        | Some s => Some s
        | None => prefix_literal_at r item_var field (depth + 1)
        end
      else if op =? "starts_with" then
        if negb (e_kind r =? "lit") || negb (is_field_access l item_var field) then None
        else match lit_value r with JString s => if s =? "" then None else Some s | _ => None end
      else None
  | _, _, _ => None
  end.

Definition prefix_literal (e : Expr N) (item_var field : string) : option string :=
  prefix_literal_at e item_var field 0.

Definition match_equality (access literal : Expr N) (item_var field : string) : option (value N) :=
  if negb (e_kind access =? "get") || negb (e_kind literal =? "lit") then None
  else if negb (bool_decide (e_field access = Some field)) then None
  else match e_obj access with
  | None => None
  | Some obj =>
      if negb (e_kind obj =? "ref") || negb (bool_decide (e_name obj = Some item_var)) then None
      else match lit_value literal with JNull => None | v => Some v end
  end.

Fixpoint equality_literal_at (e : Expr N) (item_var field : string) (depth : nat) : option (value N) :=
  if (MAX_PREDICATE_DEPTH <=? depth)%nat then None
  else if negb (e_kind e =? "bin") then None
  else match e_l e, e_r e, e_op e with
  | Some l, Some r, Some op =>
      if op =? "&&" then
        match equality_literal_at l item_var field (depth + 1) with
        | Some v => Some v
        | None => equality_literal_at r item_var field (depth + 1)
        end
      else if op =? "==" then
        match match_equality l r item_var field with
        | Some v => Some v
        | None => match_equality r l item_var field
        end
      else None
  | _, _, _ => None
  end.

Definition equality_literal (e : Expr N) (item_var field : string) : option (value N) :=
  equality_literal_at e item_var field 0.

Definition is_lowered_field (e : Expr N) (item_var field : string) : bool :=
  (e_kind e =? "call") && bool_decide (e_name e = Some "lower") &&
  match e_args e with Some [a] => is_field_access a item_var field | _ => false end.

Fixpoint substring_literals_at (e : Expr N) (item_var field : string) (lowered : bool) (depth : nat)
    (out : list string) : list string :=
  if (MAX_PREDICATE_DEPTH <=? depth)%nat || negb (e_kind e =? "bin") then out
  else match e_l e, e_r e, e_op e with
  | Some l, Some r, Some op =>
      if op =? "&&" then
        substring_literals_at r item_var field lowered (depth + 1)
          (substring_literals_at l item_var field lowered (depth + 1) out)
      else if (op =? "contains") || (op =? "starts_with") || (op =? "ends_with") then
        let target := if lowered then is_lowered_field l item_var field else is_field_access l item_var field in
        if negb (e_kind r =? "lit") || negb target then out
        else match lit_value r with
             | JString s => if s =? "" then out else app out [s]
             | _ => out
             end
      else out
  | _, _, _ => out
  end.

Definition substring_literals (e : Expr N) (item_var field : string) : list string :=
  substring_literals_at e item_var field false 0 [].

Definition lowered_substring_literals (e : Expr N) (item_var field : string) : list string :=
  substring_literals_at e item_var field true 0 [].

(** ** The tree: every child, counted whether or not evaluation visits it *)

Definition children (e : Expr N) : list (Expr N) :=
  app (omap id [e_obj e; e_key e; e_l e; e_r e; e_x e; e_where e]) (default [] (e_args e)).

Fixpoint size (e : Expr N) : nat :=
  let o := fun c : option (Expr N) => match c with Some c => size c | None => 0 end in
  S (o (e_obj e) + (o (e_key e) + (o (e_l e) + (o (e_r e) + (o (e_x e) + (o (e_where e) +
    match e_args e with
    | Some args => (fix go args := match args with [] => 0 | a :: args => size a + go args end) args
    | None => 0
    end)))))).

Fixpoint height (e : Expr N) : nat :=
  let o := fun c : option (Expr N) => match c with Some c => height c | None => 0 end in
  S (o (e_obj e) `max` (o (e_key e) `max` (o (e_l e) `max` (o (e_r e) `max` (o (e_x e) `max` (o (e_where e) `max`
    match e_args e with
    | Some args => (fix go args := match args with [] => 0 | a :: args => height a `max` go args end) args
    | None => 0
    end)))))).

Fixpoint sizes (cs : list (Expr N)) : nat := match cs with [] => 0 | c :: cs => size c + sizes cs end.
Fixpoint heights (cs : list (Expr N)) : nat := match cs with [] => 0 | c :: cs => height c `max` heights cs end.

Lemma size_eq e : size e = S (sizes (children e)).
Proof. by destruct e as [? ? ? ? ? [] [] ? [] [] [] [] ? []]; cbn; rewrite ?Nat.add_0_r. Qed.

Lemma height_eq e : height e = S (heights (children e)).
Proof. by destruct e as [? ? ? ? ? [] [] ? [] [] [] [] ? []]; cbn; rewrite ?Nat.max_0_r. Qed.

Lemma sizes_elem c cs : c ∈ cs -> size c <= sizes cs.
Proof. induction 1; cbn; lia. Qed.

Lemma expr_ind' (P : Expr N -> Prop) : (forall e, (forall c, c ∈ children e -> P c) -> P e) -> forall e, P e.
Proof.
  intros HP e. remember (size e) as n eqn:E. revert e E. induction (lt_wf n) as [n _ IH]. intros e ->.
  apply HP. intros c Hc. apply (IH (size c)); [|done]. rewrite (size_eq e). apply sizes_elem in Hc. lia.
Qed.

Lemma heights_le cs n : heights cs <= n <-> Forall (fun c => height c <= n) cs.
Proof.
  induction cs as [|c cs IH]; cbn [heights]; [split; [done|lia]|].
  by rewrite Nat.max_lub_iff, IH, Forall_cons_iff.
Qed.

Definition validate_list (depth : nat) : list (Expr N) -> nat -> outcome nat :=
  fix go (cs : list (Expr N)) (budget : nat) : outcome nat :=
    match cs with
    | [] => Ok budget
    | c :: cs => budget ← validate_at c depth budget; go cs budget
    end.

Lemma validate_at_eq e depth budget :
  validate_at e depth budget =
  if (MAX_PREDICATE_DEPTH <=? depth)%nat then Err TooDeep
  else if (budget =? 0)%nat then Err TooManyNodes
  else validate_list (depth + 1) (children e) (budget - 1).
Proof. destruct e as [? ? ? ? ? [] [] ? [] [] [] [] ? []]; reflexivity. Qed.

Lemma bind_spec {A B} (m : outcome A) (f : A -> outcome B) b :
  (m ≫= f) = Ok b <-> exists a, m = Ok a /\ f a = Ok b.
Proof. split; [apply result_bind_inv|]. intros (a & -> & ?). done. Qed.

Lemma validate_at_spec e depth budget rest :
  validate_at e depth budget = Ok rest <->
  depth + height e <= MAX_PREDICATE_DEPTH /\ size e <= budget /\ rest = budget - size e.
Proof.
  revert depth budget rest. induction e as [e IH] using expr_ind'. intros depth budget rest.
  rewrite validate_at_eq, height_eq, size_eq.
  destruct (Nat.leb_spec MAX_PREDICATE_DEPTH depth) as [Hd|Hd]; [split; [done|lia]|].
  destruct (Nat.eqb_spec budget 0) as [->|Hb]; [split; [done|lia]|].
  transitivity (depth + 1 + heights (children e) <= MAX_PREDICATE_DEPTH /\ sizes (children e) <= budget - 1
    /\ rest = budget - 1 - sizes (children e)); [|split; intros (? & ? & ->); (split; [|split]); lia].
  generalize (budget - 1) as b. revert IH. generalize (children e) as cs.
  induction cs as [|c cs IHcs]; intros IH b; cbn [heights sizes]; unfold validate_list; fold (validate_list (depth + 1)).
  - split; [intros [= ->]; lia|]. intros (_ & _ & ->). f_equal. lia.
  - rewrite bind_spec. setoid_rewrite (IH c (list_elem_of_here _ _)).
    setoid_rewrite (IHcs (fun c' Hc' => IH c' (list_elem_of_further _ _ _ Hc'))).
    split; [intros (a & (? & ? & ->) & ? & ? & ->); (split; [|split]); lia|].
    intros (? & ? & ->). exists (b - size c). split; (split; [|split]); lia.
Qed.

(** Evaluation needs no more depth than the tree has. *)
Lemma eval_bin_op_no_depth op (l r : value N) : eval_bin_op op l r <> Err TooDeep.
Proof.
  unfold eval_bin_op, numeric_pair, mbind, result_bind. repeat (case_goal; try congruence).
Qed.

Lemma child_height e c depth :
  c ∈ children e -> depth + height e <= MAX_PREDICATE_DEPTH -> depth + 1 + height c <= MAX_PREDICATE_DEPTH.
Proof.
  intros Hc. rewrite (height_eq e). assert (height c <= heights (children e)); [|lia].
  pose proof (proj1 (heights_le (children e) _) (Nat.le_refl _)) as Hall. rewrite Forall_forall in Hall. by apply Hall, list_elem_of_In.
Qed.

Lemma bind_no_depth {A B} (m : outcome A) (f : A -> outcome B) :
  m <> Err TooDeep -> (forall a, f a <> Err TooDeep) -> (m ≫= f) <> Err TooDeep.
Proof. destruct m as [a|e]; cbn; [auto|congruence]. Qed.

Lemma opt_child e c : e_obj e = Some c \/ e_key e = Some c \/ e_l e = Some c \/ e_r e = Some c \/ e_x e = Some c
  \/ e_where e = Some c -> c ∈ children e.
Proof.
  intros Hc. unfold children. apply elem_of_app. left. apply list_elem_of_omap. exists (Some c). split; [|done].
  rewrite !elem_of_cons. destruct_or! Hc; rewrite Hc; tauto.
Qed.

Lemma arg_child e a : e_args e = Some [a] -> a ∈ children e.
Proof. intros E. unfold children. rewrite E. apply elem_of_app. right. apply list_elem_of_here. Qed.

Lemma eval_at_no_depth e item_var data depth :
  depth + height e <= MAX_PREDICATE_DEPTH -> eval_at e item_var data depth <> Err TooDeep.
Proof.
  revert depth. induction e as [e IH] using expr_ind'. intros depth Hh.
  assert (forall c, c ∈ children e -> eval_at c item_var data (depth + 1) <> Err TooDeep) as Hc.
  { intros c Hc. apply IH; [done|]. by apply (child_height e). }
  assert (depth < MAX_PREDICATE_DEPTH) as Hd by (rewrite height_eq in Hh; lia).
  assert (forall c, e_l e = Some c -> eval_at c item_var data (depth + 1) <> Err TooDeep) as Hl by (intros; apply Hc, opt_child; auto).
  assert (forall c, e_r e = Some c -> eval_at c item_var data (depth + 1) <> Err TooDeep) as Hr by (intros; apply Hc, opt_child; auto 6).
  assert (forall c, e_x e = Some c -> eval_at c item_var data (depth + 1) <> Err TooDeep) as Hx by (intros; apply Hc, opt_child; auto 7).
  assert (forall c, e_args e = Some [c] -> eval_at c item_var data (depth + 1) <> Err TooDeep) as Ha by (intros; by apply Hc, arg_child).
  clear IH Hc Hh. destruct e. cbn [e_kind e_val e_obj e_field e_l e_r e_op e_x e_args e_name] in *. cbn [eval_at].
  cbn [e_kind e_val e_obj e_field e_l e_r e_op e_x e_args e_name]. apply Nat.leb_gt in Hd as ->.
  repeat first [ progress (repeat case_goal); try congruence
               | apply bind_no_depth; [eauto|intros ?] | apply eval_bin_op_no_depth | congruence ].
Qed.

(** ** The analyses are sound *)

(** A record matches when the predicate evaluates to a truthy value; the queries test for
    [Value::Bool(true)], which is one. *)
Definition accepts (e : Expr N) (item_var : string) (data : value N) (depth : nat) : Prop :=
  exists w, eval_at e item_var data depth = Ok w /\ truthy w = true.

(** The field of the record as [get] reads it. *)
Definition field_value (data : value N) (field : string) : value N := default JNull (get_field data field).

Lemma eval_at_lit e item_var data depth w :
  e_kind e = "lit" -> eval_at e item_var data depth = Ok w -> w = lit_value e.
Proof. destruct e. cbn [eval_at e_kind]. intros ->. case_goal; [done|]. by intros [= <-]. Qed.

Lemma eval_at_get e item_var field data depth w :
  is_field_access e item_var field = true -> eval_at e item_var data depth = Ok w -> w = field_value data field.
Proof.
  unfold is_field_access. intros [[Hk%String.eqb_eq Hf%bool_decide_eq_true]%andb_prop Ho]%andb_prop He.
  destruct (e_obj e) as [obj|] eqn:Eo; [|done]. destruct e. cbn [e_kind e_obj e_field] in *. subst. cbn [eval_at e_kind e_obj e_field] in He.
  destruct (_ <=? _)%nat; [done|]. cbn in He. rewrite Ho in He. by injection He as <-.
Qed.

Lemma eval_at_lowered e item_var field data depth w :
  is_lowered_field e item_var field = true -> eval_at e item_var data depth = Ok w ->
  w = JString (lower_text (field_value data field)).
Proof.
  unfold is_lowered_field. intros [[Hk%String.eqb_eq Hn%bool_decide_eq_true]%andb_prop Ha]%andb_prop He.
  destruct (e_args e) as [[|a []]|] eqn:Ea; try done.
  destruct e. cbn [e_kind e_args e_name] in *. subst. cbn [eval_at e_kind e_args e_name] in He.
  destruct (_ <=? _)%nat; [done|]. cbn in He.
  apply result_bind_inv in He as (v & Hv & [= <-]). by rewrite (eval_at_get _ _ _ _ _ _ Ha Hv).
Qed.

Lemma eval_at_bin e l r op item_var data depth :
  depth < MAX_PREDICATE_DEPTH -> e_kind e = "bin" -> e_l e = Some l -> e_r e = Some r -> e_op e = Some op ->
  eval_at e item_var data depth =
  if op =? "&&" then
    lv ← eval_at l item_var data (depth + 1);
    if negb (truthy lv) then Ok (JBool false)
    else rv ← eval_at r item_var data (depth + 1); Ok (JBool (truthy rv))
  else if op =? "||" then
    lv ← eval_at l item_var data (depth + 1);
    if truthy lv then Ok (JBool true)
    else rv ← eval_at r item_var data (depth + 1); Ok (JBool (truthy rv))
  else
    lv ← eval_at l item_var data (depth + 1);
    rv ← eval_at r item_var data (depth + 1);
    eval_bin_op op lv rv.
Proof.
  intros Hd%Nat.leb_gt Hk Hl Hr Ho. destruct e. cbn [e_kind e_l e_r e_op] in *. subst. cbn [eval_at e_kind e_l e_r e_op].
  by rewrite Hd.
Qed.

(** A conjunction accepts what both sides accept. *)
Lemma accepts_and e l r item_var data depth :
  depth < MAX_PREDICATE_DEPTH -> e_kind e = "bin" -> e_l e = Some l -> e_r e = Some r -> e_op e = Some "&&" ->
  accepts e item_var data depth ->
  accepts l item_var data (depth + 1) /\ accepts r item_var data (depth + 1).
Proof.
  intros Hd Hk Hl Hr Ho (w & Hw & Ht). rewrite (eval_at_bin e l r "&&") in Hw by done. cbn [String.eqb] in Hw.
  apply result_bind_inv in Hw as (lv & Hlv & Hw). destruct (truthy lv) eqn:Tl; cbn [negb] in Hw; [|by injection Hw as <-].
  apply result_bind_inv in Hw as (rv & Hrv & [= <-]). split; [by exists lv|by exists rv].
Qed.

(** Any other operator applies to the values of both sides. *)
Lemma accepts_op e l r op item_var data depth :
  depth < MAX_PREDICATE_DEPTH -> e_kind e = "bin" -> e_l e = Some l -> e_r e = Some r -> e_op e = Some op ->
  op <> "&&" -> op <> "||" -> accepts e item_var data depth ->
  exists lv rv w, eval_at l item_var data (depth + 1) = Ok lv /\ eval_at r item_var data (depth + 1) = Ok rv /\
    eval_bin_op op lv rv = Ok w /\ truthy w = true.
Proof.
  intros Hd Hk Hl Hr Ho Na No (w & Hw & Ht). rewrite (eval_at_bin e l r op) in Hw by done.
  apply String.eqb_neq in Na as Ea. apply String.eqb_neq in No as Eo. rewrite Ea, Eo in Hw.
  apply result_bind_inv in Hw as (lv & Hlv & Hw). apply result_bind_inv in Hw as (rv & Hrv & Hw). eauto 10.
Qed.

Lemma match_equality_spec a b item_var field v :
  match_equality a b item_var field = Some v ->
  is_field_access a item_var field = true /\ e_kind b = "lit" /\ lit_value b = v /\ v <> JNull.
Proof.
  unfold match_equality, is_field_access, is_item_ref. intros Hm.
  destruct (e_kind a =? "get"); [|done]. destruct (String.eqb_spec (e_kind b) "lit"); [|done].
  destruct (bool_decide (e_field a = Some field)); [|done]. destruct (e_obj a); [|done]. cbn in Hm.
  destruct (_ =? "ref"); [|done]. destruct (bool_decide _); [|done]. cbn in Hm.
  destruct (lit_value b); simplify_eq; done.
Qed.

(** Open one [bin] node of an analysis: what is not one has no literal. *)
Ltac open_bin He e depth Hd Hk Hl Hr Ho l r op :=
  destruct (Nat.leb_spec MAX_PREDICATE_DEPTH depth) as [|Hd]; [done|];
  destruct (String.eqb_spec (e_kind e) "bin") as [Hk|]; [cbn [negb orb] in He|done];
  destruct (e_l e) as [l|] eqn:Hl; [|done]; destruct (e_r e) as [r|] eqn:Hr; [|done];
  destruct (e_op e) as [op|] eqn:Ho; [|done].

Lemma equality_literal_eq e item_var field depth :
  equality_literal_at e item_var field depth =
  if (MAX_PREDICATE_DEPTH <=? depth)%nat then None
  else if negb (e_kind e =? "bin") then None
  else match e_l e, e_r e, e_op e with
  | Some l, Some r, Some op =>
      if op =? "&&" then
        match equality_literal_at l item_var field (depth + 1) with
        | Some v => Some v
        | None => equality_literal_at r item_var field (depth + 1)
        end
      else if op =? "==" then
        match match_equality l r item_var field with
        | Some v => Some v
        | None => match_equality r l item_var field
        end
      else None
  | _, _, _ => None
  end.
Proof. by destruct e. Qed.

Lemma equality_sound e item_var field depth data v :
  equality_literal_at e item_var field depth = Some v -> accepts e item_var data depth ->
  v <> JNull /\ (values_equal (field_value data field) v = true \/ values_equal v (field_value data field) = true).
Proof.
  revert depth. induction e as [e IH] using expr_ind'. intros depth He Hacc. rewrite equality_literal_eq in He.
  open_bin He e depth Hd Hk Hl Hr Ho l r op. destruct (String.eqb_spec op "&&") as [->|Na].
  - destruct (accepts_and e l r item_var data depth) as [Al Ar]; [done..|].
    destruct (equality_literal_at l item_var field (depth + 1)) eqn:El.
    + injection He as ->. eapply (IH l); eauto using opt_child.
    + eapply (IH r); eauto 10 using opt_child.
  - destruct (String.eqb_spec op "==") as [->|]; [|done].
    destruct (accepts_op e l r "==" item_var data depth) as (lv & rv & w & Hlv & Hrv & Hw & Ht); [done..|].
    cbn in Hw. injection Hw as <-. cbn in Ht. destruct (match_equality l r item_var field) as [v'|] eqn:M.
    + injection He as ->. apply match_equality_spec in M as (Ha & Hb & <- & Hn). split; [done|]. left.
      by rewrite <- (eval_at_get _ _ _ _ _ _ Ha Hlv), <- (eval_at_lit _ _ _ _ _ Hb Hrv).
    + apply match_equality_spec in He as (Ha & Hb & <- & Hn). split; [done|]. right.
      by rewrite <- (eval_at_get _ _ _ _ _ _ Ha Hrv), <- (eval_at_lit _ _ _ _ _ Hb Hlv).
Qed.

Lemma prefix_literal_eq e item_var field depth :
  prefix_literal_at e item_var field depth =
  if (MAX_PREDICATE_DEPTH <=? depth)%nat || negb (e_kind e =? "bin") then None
  else match e_l e, e_r e, e_op e with
  | Some l, Some r, Some op =>
      if op =? "&&" then
        match prefix_literal_at l item_var field (depth + 1) with
        | Some s => Some s
        | None => prefix_literal_at r item_var field (depth + 1)
        end
      else if op =? "starts_with" then
        if negb (e_kind r =? "lit") || negb (is_field_access l item_var field) then None
        else match lit_value r with JString s => if s =? "" then None else Some s | _ => None end
      else None
  | _, _, _ => None
  end.
Proof. by destruct e. Qed.

Lemma prefix_sound e item_var field depth data p :
  prefix_literal_at e item_var field depth = Some p -> accepts e item_var data depth ->
  exists s, field_value data field = JString s /\ String.prefix p s = true.
Proof.
  revert depth. induction e as [e IH] using expr_ind'. intros depth He Hacc. rewrite prefix_literal_eq in He.
  open_bin He e depth Hd Hk Hl Hr Ho l r op. destruct (String.eqb_spec op "&&") as [->|Na].
  - destruct (accepts_and e l r item_var data depth) as [Al Ar]; [done..|].
    destruct (prefix_literal_at l item_var field (depth + 1)) eqn:El.
    + injection He as ->. eapply (IH l); eauto using opt_child.
    + eapply (IH r); eauto 10 using opt_child.
  - destruct (String.eqb_spec op "starts_with") as [->|]; [|done].
    destruct (accepts_op e l r "starts_with" item_var data depth) as (lv & rv & w & Hlv & Hrv & Hw & Ht); [done..|].
    destruct (String.eqb_spec (e_kind r) "lit") as [Hlit|]; [|done].
    destruct (is_field_access l item_var field) eqn:Ha; [cbn in He|done].
    rewrite <- (eval_at_lit _ _ _ _ _ Hlit Hrv) in He. rewrite <- (eval_at_get _ _ _ _ _ _ Ha Hlv).
    destruct rv; try done. destruct (s =? ""); [done|]. injection He as ->.
    destruct lv; try (by injection Hw as <-). exists s. split; [done|]. cbn in Hw. by injection Hw as <-.
Qed.

(** The text a substring test looks at: the field, or the field lowered. *)
Definition searched (lowered : bool) (data : value N) (field : string) : value N :=
  if lowered then JString (lower_text (field_value data field)) else field_value data field.

Lemma substring_literals_eq e item_var field lowered depth out :
  substring_literals_at e item_var field lowered depth out =
  if (MAX_PREDICATE_DEPTH <=? depth)%nat || negb (e_kind e =? "bin") then out
  else match e_l e, e_r e, e_op e with
  | Some l, Some r, Some op =>
      if op =? "&&" then
        substring_literals_at r item_var field lowered (depth + 1)
          (substring_literals_at l item_var field lowered (depth + 1) out)
      else if (op =? "contains") || (op =? "starts_with") || (op =? "ends_with") then
        let target := if lowered then is_lowered_field l item_var field else is_field_access l item_var field in
        if negb (e_kind r =? "lit") || negb target then out
        else match lit_value r with
             | JString s => if s =? "" then out else app out [s]
             | _ => out
             end
      else out
  | _, _, _ => out
  end.
Proof. by destruct e. Qed.

(** Each of the three tests implies containment. *)
Lemma substring_op_contains op (l r w : value N) :
  (op =? "contains") || (op =? "starts_with") || (op =? "ends_with") = true ->
  eval_bin_op op l r = Ok w -> truthy w = true ->
  exists s p, l = JString s /\ r = JString p /\ str_contains s p = true.
Proof.
  intros Hop Hw Ht. unfold eval_bin_op in Hw.
  assert ((op =? "==") = false /\ (op =? "!=") = false) as [E1 E2].
  { split; apply String.eqb_neq; intros ->; discriminate Hop. }
  assert ((op =? "starts_with") || (op =? "ends_with") || (op =? "contains") = true) as E3.
  { destruct (op =? "contains"), (op =? "starts_with"), (op =? "ends_with"); done. }
  rewrite E1, E2, E3 in Hw. destruct l, r; try (by injection Hw as <-). injection Hw as <-. cbn in Ht.
  exists s, s0. split; [done|]. split; [done|]. rewrite str_contains_spec. repeat case_hyp Ht.
  - apply prefix_spec in Ht as [t ->]. by exists "", t.
  - apply str_ends_with_spec in Ht as [t ->]. exists t, "". by rewrite append_nil.
  - by apply str_contains_spec in Ht.
Qed.

Lemma target_value (lowered : bool) l item_var field data depth lv :
  (if lowered then is_lowered_field l item_var field else is_field_access l item_var field) = true ->
  eval_at l item_var data depth = Ok lv -> lv = searched lowered data field.
Proof. destruct lowered; intros; [by eapply eval_at_lowered|by eapply eval_at_get]. Qed.

Lemma substring_sound e item_var field lowered depth data out p :
  p ∈ substring_literals_at e item_var field lowered depth out -> accepts e item_var data depth ->
  p ∈ out \/ exists s, searched lowered data field = JString s /\ str_contains s p = true.
Proof.
  revert depth out. induction e as [e IH] using expr_ind'. intros depth out He Hacc. rewrite substring_literals_eq in He.
  destruct (Nat.leb_spec MAX_PREDICATE_DEPTH depth) as [|Hd]; [by left|].
  destruct (String.eqb_spec (e_kind e) "bin") as [Hk|]; [cbn [negb orb] in He|by left].
  destruct (e_l e) as [l|] eqn:Hl; [|by left]. destruct (e_r e) as [r|] eqn:Hr; [|by left].
  destruct (e_op e) as [op|] eqn:Ho; [|by left]. destruct (String.eqb_spec op "&&") as [->|Na].
  - destruct (accepts_and e l r item_var data depth) as [Al Ar]; [done..|].
    apply (IH r) in He as [He|He]; [|by right|eauto 10 using opt_child|done].
    apply (IH l) in He; eauto 10 using opt_child.
  - destruct (_ || _) eqn:Hop in He; [|by left].
    destruct (accepts_op e l r op item_var data depth) as (lv & rv & w & Hlv & Hrv & Hw & Ht); try done.
    { intros ->. discriminate Hop. }
    destruct (substring_op_contains op lv rv w Hop Hw Ht) as (s & q & -> & -> & Hc).
    destruct (String.eqb_spec (e_kind r) "lit") as [Hlit|]; [|by left].
    rewrite <- (eval_at_lit _ _ _ _ _ Hlit Hrv) in He. cbn zeta in He.
    destruct (if lowered then _ else _) eqn:Ht' in He; [|by left].
    cbn in He. rewrite <- (target_value lowered l item_var field data _ _ Ht' Hlv).
    destruct (q =? ""); [by left|]. apply elem_of_app in He as [He| ->%list_elem_of_singleton]; [by left|right; eauto].
Qed.

Lemma values_equal_cases `{!SerdeLaws N} (a b : value N) :
  no_neg_zero a -> no_neg_zero b -> values_equal a b = true ->
  a = b \/ exists n n', a = JNumber n /\ b = JNumber n' /\ num_as_f64 n = num_as_f64 n'.
Proof.
  intros Ha Hb E. destruct a, b; try (left; by apply value_eqb_same). right. exists n, n0. split; [done|]. split; [done|].
  cbn in Ha, Hb, E. destruct (num_as_f64_finite n) as (x & Ex & _), (num_as_f64_finite n0) as (y & Ey & _).
  rewrite Ex, Ey in *. cbn in E. f_equal. apply SFeqb_same; congruence.
Qed.

(** Validation accepts exactly the bounded trees: it passes if and only if no path of the tree
    has more than 64 nodes and the whole tree, unevaluated parts included, has at most 256. *)
Theorem predicate_validate_exact (e : Expr N) :
  validate e = Ok tt <-> height e <= MAX_PREDICATE_DEPTH /\ size e <= MAX_PREDICATE_NODES.
Proof.
  unfold validate. rewrite bind_spec. setoid_rewrite validate_at_spec. split.
  - intros (b & (? & ? & _) & _). auto.
  - intros [? ?]. eauto 10.
Qed.

(** A predicate that was validated once never fails on a row for its depth, whatever the row. *)
Theorem validated_never_too_deep (e : Expr N) :
  validate e = Ok tt -> forall item_var data, eval e item_var data <> Err TooDeep.
Proof.
  unfold validate. rewrite bind_spec. setoid_rewrite validate_at_spec. intros (b & (Hh & _ & _) & _) item_var data.
  by apply eval_at_no_depth.
Qed.
End eval.

(** ** Examples *)

Section examples.
Local Existing Instance double_json.

Definition blank (kind : string) : Expr double :=
  MkExpr kind None None None None None None None None None None None None None.
Definition lit_of (v : value double) : Expr double :=
  MkExpr "lit" (Some v) None None None None None None None None None None None None.
Definition item_field (field : string) : Expr double :=
  MkExpr "get" None None None (Some field)
    (Some (MkExpr "ref" None None (Some "item") None None None None None None None None None None))
    None None None None None None None None.
Definition bin_of (op : string) (l r : Expr double) : Expr double :=
  MkExpr "bin" None None None None None None (Some op) None (Some l) (Some r) None None None.
Definition lower_of (e : Expr double) : Expr double :=
  MkExpr "call" None None (Some "lower") None None None None (Some [e]) None None None None None.

Definition open_status : Expr double := bin_of "==" (item_field "status") (lit_of (JString "open")).
Definition open_row : value double := JObject [("status", JString "open"); ("title", JString "Hello")].

Lemma validated_never_too_deep_witness : eval open_status "item" open_row <> Err TooDeep.
Proof. apply (validated_never_too_deep open_status). reflexivity. Defined.
End examples.
