(* ===== verification/Search.v ===== *)
(** * The inverted index and the query plans ([src/src/storage/text.rs] and the
      plan selection of [src/src/storage/engine.rs])

    An index narrows a query to candidates, on which the whole predicate is
    then evaluated.  The theorems say that narrowing loses nothing: a record
    the predicate accepts has its entry under the prefix the equality and
    [starts_with] plans scan, and under every trigram the substring plan
    probes.  Two places where the narrowed answer differs from the scanned one
    are stated as theorems too. *)

From Stdlib Require Import ZArith Lia SpecFloat Ascii String.
From stdpp Require Import base tactics list strings option sorting.
From S2P Require Import Prelude Binary Page PageSpec BTree BTreeCells Keys Json GoLower OrderKey Predicate.

(** ** Declarations *)

Record TextIndexDef := { t_name : string; t_kind : string; t_field : string; t_folded : bool }.

Inductive TextIndexOpRecord :=
| TPut (d : TextIndexDef)
| TDrop (name : string)
| TPutFolded (d : TextIndexDef).

Definition put_record (d : TextIndexDef) : TextIndexOpRecord := if t_folded d then TPutFolded d else TPut d.

Definition text_def_validate (d : TextIndexDef) : check :=
  if (str_len (t_name d) =? 0) || (MAX_INDEX_NAME_LEN <? str_len (t_name d)) then Err tt
  else if negb (forallb name_byte (as_bytes (t_name d))) then Err tt
  else if str_len (t_kind d) =? 0 then Err tt
  else if str_len (t_field d) =? 0 then Err tt
  else _ ← check_component (as_bytes (t_kind d)); check_component (as_bytes (t_field d)).

(** ** Trigrams *)

Definition GRAM_LEN : nat := 3.
Definition MAX_TEXT_VALUE_LEN : Z := 16 * 1024.

(** [u8::to_ascii_lowercase] *)
Definition ascii_lower (b : Z) : Z := if ((65 <=? b) && (b <=? 90))%Z then (b + 32)%Z else b.

Definition fold_into (text : string) : list Z := map ascii_lower (as_bytes text).

(** [slice::windows(GRAM_LEN)] *)
Fixpoint windows (l : list Z) : list (list Z) :=
  match l with
  | a :: ((b :: c :: _) as l') => [a; b; c] :: windows l'
  | _ => []
  end.

(** [BTreeSet::insert] *)
Fixpoint gram_insert (g : list Z) (set : list (list Z)) : list (list Z) :=
  match set with
  | [] => [g]
  | x :: rest =>
      match lex_cmp g x with
      | Lt => g :: set
      | Eq => set
      | Gt => x :: gram_insert g rest
      end
  end.

Definition grams (text : string) : list (list Z) :=
  fold_left (fun set w => gram_insert w set) (windows (fold_into text)) [].

Definition indexed_form (d : TextIndexDef) (text : string) : string := if t_folded d then go_lower text else text.

Definition postings (d : TextIndexDef) (text : string) : list (list Z) := grams (indexed_form d text).

Definition text_key (gram address : list Z) : list Z := gram ++ address.

Definition address_from_key (key : list Z) : option (list Z) :=
  if length key <=? GRAM_LEN then None else Some (drop GRAM_LEN key).

(** ** The set of trigrams *)

Lemma windows_spec l g : g ∈ windows l <-> exists a b, l = a ++ g ++ b /\ length g = GRAM_LEN.
Proof.
  split.
  - induction l as [|x l IH]; [by intros ?%not_elem_of_nil|]. destruct l as [|y [|z l]]; cbn [windows];
      try (by intros ?%not_elem_of_nil).
    intros [->|Hg]%elem_of_cons; [by exists [], l|]. destruct (IH Hg) as (a & b & E & Hl). exists (x :: a), b.
    by rewrite E.
  - intros (a & b & -> & Hg). destruct g as [|x [|y [|z []]]]; try discriminate Hg. clear Hg.
    induction a as [|p a IH]; [left|]. cbn [app] in *. destruct (a ++ x :: y :: z :: b) as [|q [|q' l]] eqn:E.
    + by apply not_elem_of_nil in IH.
    + by apply not_elem_of_nil in IH.
    + by right.
Qed.

Lemma elem_gram_insert g h set : h ∈ gram_insert g set <-> h = g \/ h ∈ set.
Proof.
  induction set as [|x set IH]; cbn [gram_insert]; [by rewrite list_elem_of_singleton, elem_of_nil; tauto|].
  destruct (lex_cmp g x) eqn:E; rewrite ?elem_of_cons, ?IH; try tauto.
  apply lex_cmp_eq in E as ->. tauto.
Qed.

Lemma gram_insert_sorted g set : StronglySorted lex_lt set -> StronglySorted lex_lt (gram_insert g set).
Proof.
  induction 1 as [|x set Hs IH Hx]; cbn [gram_insert]; [repeat constructor|].
  destruct (lex_cmp g x) eqn:E; [by constructor| |].
  - constructor; [by constructor|]. constructor; [done|]. eapply Forall_impl; [exact Hx|]. intros y Hy. by etransitivity.
  - constructor; [done|]. apply Forall_forall. intros y Hy%elem_gram_insert. destruct Hy as [->|Hy].
    + by apply lex_gt_lt.
    + rewrite Forall_forall in Hx. by apply Hx.
Qed.

Lemma elem_fold_grams ws set h : h ∈ fold_left (fun set w => gram_insert w set) ws set <-> h ∈ ws \/ h ∈ set.
Proof.
  revert set. induction ws as [|w ws IH]; intros set; cbn [fold_left]; [by rewrite elem_of_nil; tauto|].
  rewrite IH, elem_gram_insert, elem_of_cons. tauto.
Qed.

Lemma fold_grams_sorted ws set :
  StronglySorted lex_lt set -> StronglySorted lex_lt (fold_left (fun set w => gram_insert w set) ws set).
Proof. revert set. induction ws as [|w ws IH]; intros set Hs; cbn [fold_left]; auto using gram_insert_sorted. Qed.

Lemma elem_grams t g : g ∈ grams t <-> g ∈ windows (fold_into t).
Proof. unfold grams. rewrite elem_fold_grams, elem_of_nil. tauto. Qed.

Lemma as_bytes_append a b : as_bytes (a +:+ b) = as_bytes a ++ as_bytes b.
Proof. induction a as [|c a IH]; [done|]. exact (f_equal (cons _) IH). Qed.

(** What makes the inverted index a candidate generator: a substring's trigrams are trigrams of the text. *)
Lemma contains_grams s p g : str_contains s p = true -> g ∈ grams p -> g ∈ grams s.
Proof.
  intros (a & b & ->)%str_contains_spec. rewrite !elem_grams, !windows_spec. unfold fold_into.
  intros (x & y & E & Hg). rewrite !as_bytes_append, !map_app, E.
  exists (map ascii_lower (as_bytes a) ++ x), (y ++ map ascii_lower (as_bytes b)). split; [|done]. by rewrite <- !app_assoc.
Qed.

Lemma address_from_text_key g a : length g = GRAM_LEN -> a <> [] -> address_from_key (text_key g a) = Some a.
Proof.
  intros Hg Ha. unfold address_from_key, text_key. rewrite length_app, Hg. destruct a as [|x a]; [done|].
  case_goal; breflect; [cbn [length] in *; lia|]. f_equal. rewrite <- Hg. apply drop_app_length.
Qed.

Section text.
Context {N : Type} `{SerdeJson N}.

Definition indexed_text (data : option (value N)) (field : string) : option string :=
  match data ≫= (fun d => get_field d field) with Some (JString s) => Some s | _ => None end.

Fixpoint check_text_keys_of (decoded : option (value N)) (defs : list TextIndexDef) (address : list Z) : check :=
  match defs with
  | [] => Ok tt
  | d :: defs =>
      match indexed_text decoded (t_field d) with
      | None => check_text_keys_of decoded defs address
      | Some raw =>
          let text := indexed_form d raw in
          if (MAX_TEXT_VALUE_LEN <? Z.of_nat (str_len text))%Z then Err tt
          else if MAX_KEY_LEN <? GRAM_LEN + length address then Err tt
          else check_text_keys_of decoded defs address
      end
  end.

Definition check_text_keys (defs : list TextIndexDef) (address : list Z) (data : string) : check :=
  check_text_keys_of (from_str data) defs address.

(** The trigrams the substring plan requires of an index, [text_candidate_plan]: those of every
    literal the predicate requires, sorted and deduplicated. *)
Definition required_grams (d : TextIndexDef) (predicate : Expr N) (item_var : string) : list (list Z) :=
  let literals := if t_folded d then lowered_substring_literals predicate item_var (t_field d)
                  else substring_literals predicate item_var (t_field d) in
  fold_left (fun set w => gram_insert w set) (flat_map grams literals) [].

(** ** No plan loses a record *)

Lemma matched_accepts (e : Expr N) item_var data : eval e item_var data = Ok (JBool true) -> accepts e item_var data 0.
Proof. intros E. by exists (JBool true). Qed.

Lemma field_value_string (data : value N) field s : field_value data field = JString s -> get_field data field = Some (JString s).
Proof. unfold field_value. destruct (get_field data field) as [v|]; cbn; [by intros ->|done]. Qed.

(** The equality plan is complete: a record the predicate accepts has its index entry under the
    prefix of the literal the plan scans (no number involved being the negative zero), so narrowing
    to that prefix removes only records the predicate does not accept. *)
Theorem equality_plan_complete `{!SerdeLaws N} (e : Expr N) item_var field (lit data : value N) address :
  equality_literal e item_var field = Some lit -> no_neg_zero lit -> no_neg_zero (field_value data field) ->
  eval e item_var data = Ok (JBool true) ->
  starts_with (data_key (get_field data field) address) (encode_order_value (Some lit)) = true.
Proof.
  intros He Hl Hf Hm%matched_accepts. destruct (equality_sound _ _ _ _ _ _ He Hm) as [Hn Heq].
  assert (encode_value_body (get_field data field) = encode_value_body (Some lit)) as Hbody.
  { assert (field_value data field = lit \/ exists n n', field_value data field = JNumber n /\ lit = JNumber n' /\
      num_as_f64 n = num_as_f64 n') as Hc.
    { destruct Heq as [Heq|Heq]; apply values_equal_cases in Heq; auto;
        destruct Heq as [Heq|(n & n' & ? & ? & ?)]; eauto 10. }
    unfold field_value in Hc. destruct (get_field data field) as [v|]; cbn in Hc.
    - destruct Hc as [->|(n & n' & -> & -> & E)]; [done|]. unfold encode_value_body, f64_or_zero. by rewrite E.
    - destruct Hc as [Hc|(n & n' & Hc & _)]; congruence. }
  apply starts_with_spec. exists address. unfold data_key, encode_order_value. by rewrite Hbody.
Qed.

(** The [starts_with] plan is complete: a record the predicate accepts has its index entry under
    the encoded prefix the plan scans. *)
Theorem prefix_plan_complete (e : Expr N) item_var field (p : string) (data : value N) address :
  prefix_literal e item_var field = Some p -> eval e item_var data = Ok (JBool true) ->
  starts_with (data_key (get_field data field) address) (encode_string_prefix (N := N) p) = true.
Proof.
  intros He Hm%matched_accepts. destruct (prefix_sound _ _ _ _ _ _ He Hm) as (s & Hs%field_value_string & Hp).
  rewrite Hs, starts_with_spec. apply as_bytes_prefix in Hp as [t Ht].
  exists (escape t ++ [0; 0]%Z ++ address). unfold data_key, encode_order_value, append_escaped, encode_value_body.
  rewrite Ht. cbn [app escape type_rank Z.eqb]. rewrite escape_app, <- !app_assoc. done.
Qed.

(** The substring plan is complete: every trigram the plan requires is a posting of every record
    the predicate accepts (for a folded index, of every such record whose field is text). *)
Theorem text_plan_complete (d : TextIndexDef) (e : Expr N) item_var (data : value N) g :
  eval e item_var data = Ok (JBool true) ->
  (t_folded d = true -> exists s, get_field data (t_field d) = Some (JString s)) ->
  g ∈ required_grams d e item_var ->
  exists text, indexed_text (Some data) (t_field d) = Some text /\ g ∈ postings d text.
Proof.
  intros Hm%matched_accepts Hfold. unfold required_grams. rewrite elem_fold_grams, elem_of_nil.
  intros [(p & Hp & Hg)%list_elem_of_In%in_flat_map|[]]. apply list_elem_of_In in Hp, Hg.
  assert (exists s, searched (t_folded d) data (t_field d) = JString s /\ str_contains s p = true) as (s & Hs & Hc).
  { destruct (t_folded d); destruct (substring_sound _ _ _ _ _ _ _ _ Hp Hm) as [?%not_elem_of_nil|Hs]; done. }
  unfold postings, indexed_form, indexed_text, searched in *. destruct (t_folded d).
  - destruct (Hfold eq_refl) as [t Ht]. unfold field_value in Hs. rewrite Ht in Hs. injection Hs as <-.
    exists t. cbn. rewrite Ht. split; [done|]. by eapply contains_grams.
  - apply field_value_string in Hs. exists s. cbn. rewrite Hs. split; [done|]. by eapply contains_grams.
Qed.

(** The pre-log check against the inverted indexes: when it passes, every posting of the record
    in every declared index has a key [BTree::put] accepts, and no indexed text exceeds 16 KiB. *)
Theorem text_keys_admissible (defs : list TextIndexDef) (address : list Z) (data : string) d text g :
  check_text_keys defs address data = Ok tt -> d ∈ defs ->
  indexed_text (from_str data) (t_field d) = Some text -> g ∈ postings d text ->
  0 < length (text_key g address) <= MAX_KEY_LEN /\
  (Z.of_nat (str_len (indexed_form d text)) <= MAX_TEXT_VALUE_LEN)%Z.
Proof.
  unfold check_text_keys. intros Hc Hd Ht Hg. revert Hc. induction Hd as [d defs|d d' defs Hd IH]; cbn [check_text_keys_of].
  - rewrite Ht. cbn zeta. do 2 (case_goal; [done|]). intros _. breflect.
    unfold postings in Hg. apply elem_grams, windows_spec in Hg as (a & b & _ & Hl).
    unfold text_key. rewrite length_app, Hl. unfold GRAM_LEN in *. lia.
  - destruct (indexed_text (from_str data) (t_field d')); [|by apply IH].
    cbn zeta. do 2 (case_goal; [done|]). by apply IH.
Qed.
End text.

(** [grams] is the sorted set of the three-byte windows of the folded text, each once. *)
Theorem grams_are_windows (t : string) :
  StronglySorted lex_lt (grams t) /\
  forall g, g ∈ grams t <-> exists a b, fold_into t = a ++ g ++ b /\ length g = GRAM_LEN.
Proof.
  split; [apply fold_grams_sorted; constructor|]. intros g. by rewrite elem_grams, windows_spec.
Qed.

(** Posting keys are unambiguous: the address comes back from the key, and a scan of one trigram
    sees exactly that trigram's postings. *)
Theorem posting_key_roundtrip (g g' a : list Z) :
  length g = GRAM_LEN -> length g' = GRAM_LEN -> a <> [] ->
  address_from_key (text_key g a) = Some a /\ (starts_with (text_key g a) g' = true <-> g = g').
Proof.
  intros Hg Hg' Ha. split; [by apply address_from_text_key|]. rewrite starts_with_spec. unfold text_key. split.
  - intros [r E]. by apply app_inj_1 in E as [? _]; [|congruence].
  - intros ->. by exists a.
Qed.

Lemma posting_key_roundtrip_witness : address_from_key (text_key [97; 98; 99]%Z [80; 49]%Z) = Some [80; 49]%Z.
Proof. exact (proj1 (posting_key_roundtrip [97; 98; 99]%Z [97; 98; 99]%Z [80; 49]%Z eq_refl eq_refl ltac:(discriminate))). Defined.

(** ** Witnesses and the two divergences *)

Section examples.
Local Existing Instance double_json.
Local Existing Instance double_laws.
Local Open Scope string_scope.

Lemma equality_plan_complete_witness :
  starts_with (data_key (get_field open_row "status") [97%Z]) (encode_order_value (Some (JString "open"))) = true.
Proof. apply (equality_plan_complete open_status "item"); [reflexivity|exact I|exact I|reflexivity]. Defined.

Definition title_prefix : Expr double := bin_of "starts_with" (item_field "title") (lit_of (JString "He")).

Lemma prefix_plan_complete_witness :
  starts_with (data_key (get_field open_row "title") [97%Z]) (encode_string_prefix (N := double) "He") = true.
Proof. apply (prefix_plan_complete title_prefix "item"); reflexivity. Defined.

Definition title_contains : Expr double := bin_of "contains" (item_field "title") (lit_of (JString "ello")).
Definition title_index : TextIndexDef := {| t_name := "t"; t_kind := "Post"; t_field := "title"; t_folded := false |}.

Lemma text_plan_complete_witness :
  exists text, indexed_text (Some open_row) "title" = Some text /\ [101; 108; 108]%Z ∈ postings title_index text.
Proof. apply (text_plan_complete title_index title_contains "item"); [reflexivity|discriminate|left]. Defined.

(** The pre-log check at a decoder that reads every text as the row of the examples. *)
Definition row_json : SerdeJson double := {|
  num_as_f64 := num_as_f64; num_from_f64 := num_from_f64; num_is_int := num_is_int; num_eqb := num_eqb;
  to_string := to_string; from_str := fun _ => Some open_row;
|}.

Lemma text_keys_admissible_witness : 0 < length (text_key [104; 101; 108]%Z [80; 49]%Z) <= MAX_KEY_LEN.
Proof.
  refine (proj1 (@text_keys_admissible double row_json [title_index] [80; 49]%Z "{}" title_index "Hello" [104; 101; 108]%Z _ _ _ _));
    [reflexivity|left|reflexivity|apply (bool_decide_unpack _); vm_compute; exact I].
Defined.

Definition flag_row : value double := JObject [("flag", JBool true)].
Definition flag_search : Expr double := bin_of "contains" (lower_of (item_field "flag")) (lit_of (JString "tru")).
Definition flag_index : TextIndexDef := {| t_name := "f"; t_kind := "Post"; t_field := "flag"; t_folded := true |}.

(** A folded index can lose records: [lower] of a boolean or a number is text, so the predicate
    accepts a record whose field is [true], but the index keeps postings of string fields only, so
    the substring plan requires a trigram that record has no posting for. *)
Theorem folded_index_misses_non_text :
  eval flag_search "item" flag_row = Ok (JBool true) /\
  required_grams flag_index flag_search "item" = [[116; 114; 117]%Z] /\
  indexed_text (Some flag_row) (t_field flag_index) = None.
Proof. repeat split. Qed.

Definition guarded_status : Expr double :=
  bin_of "&&" (bin_of ">" (item_field "score") (lit_of one)) open_status.
Definition closed_row : value double := JObject [("status", JString "closed")].

(** The equality plan can hide an error: on a record without the number the left conjunct
    compares, the full evaluation fails the query, while the equality plan on the right conjunct
    skips that record and answers. *)
Theorem equality_plan_hides_error :
  equality_literal guarded_status "item" "status" = Some (JString "open") /\
  eval guarded_status "item" closed_row = Err NotNumeric /\
  forall address, starts_with (data_key (get_field closed_row "status") address)
                              (encode_order_value (Some (JString "open" : value double))) = false.
Proof.
  split; [reflexivity|]. split; [reflexivity|]. intros address. apply not_true_iff_false. rewrite starts_with_spec.
  intros [r E]. discriminate E.
Qed.
End examples.
