(* ===== verification/Entities.v ===== *)
(** * What the database stores ([src/src/core/node.rs], [edge.rs], [history.rs],
      [user.rs], [coordinate.rs], [src/src/storage/reference.rs])

    Nodes, edges, archived states, users, and the declarations of references
    with their registry.  The theorem: a declaration that validates can be kept
    as a key component and never makes a field reference itself. *)

From Stdlib Require Import ZArith Lia Ascii String.
From stdpp Require Import base tactics list strings option gmap sorting.
From S2P Require Import Prelude Keys Json OrderKey Search.

(** ** Nodes and edges *)

Record Coordinate := { coord_x : Z; coord_y : Z; coord_z : Z; coord_q : Z }.

Inductive Visibility := Private | Public.

#[export] Instance visibility_eq_dec : EqDecision Visibility.
Proof. solve_decision. Defined.

Record Node := MkNode {
  n_address : string;
  n_coordinate : Coordinate;
  n_value : Z;
  n_kind : string;
  n_data : string;
  n_owner : string;
  n_claimed_by : option string;
  n_visibility : Visibility;
}.

Definition node_new (coordinate : Coordinate) (address kind owner : string) : Node :=
  MkNode address coordinate 0 kind "" owner None Private.

Definition can_read (n : Node) (requester : string) : bool :=
  bool_decide (n_visibility n = Public) || String.eqb (n_owner n) requester.

Definition can_write (n : Node) (requester : string) : bool := String.eqb (n_owner n) requester.

Record EdgeId := MkEdgeId { id_from : string; id_to : string; id_kind : string }.

Record Edge := MkEdge { e_from : string; e_to : string; e_ekind : string; e_owner : string }.

Definition edge_id (e : Edge) : EdgeId := MkEdgeId (e_from e) (e_to e) (e_ekind e).

Record HistoryEntry := MkHistory {
  h_address : string;
  h_archived_at_unix : Z;
  h_node : Node;
  h_version : Z;
}.

(** [HistoryEntry::now], with the clock and the version it draws as arguments. *)
Definition history_now (n : Node) (clock version : Z) : HistoryEntry := MkHistory (n_address n) clock n version.

Inductive Role := RoleUser | RoleAdmin.

Record UserRecord := MkUser { u_token_hash : string; u_owner : string; u_role : Role }.

#[export] Instance coordinate_eq_dec : EqDecision Coordinate.
Proof. solve_decision. Defined.
#[export] Instance node_eq_dec : EqDecision Node.
Proof. solve_decision. Defined.
#[export] Instance edge_id_eq_dec : EqDecision EdgeId.
Proof. solve_decision. Defined.
#[export] Instance edge_eq_dec : EqDecision Edge.
Proof. solve_decision. Defined.
#[export] Instance history_eq_dec : EqDecision HistoryEntry.
Proof. solve_decision. Defined.
#[export] Instance role_eq_dec : EqDecision Role.
Proof. solve_decision. Defined.
#[export] Instance user_eq_dec : EqDecision UserRecord.
Proof. solve_decision. Defined.

#[export] Instance edge_id_countable : Countable EdgeId.
Proof.
  refine (inj_countable' (fun i => (id_from i, id_to i, id_kind i)) (fun '(a, b, c) => MkEdgeId a b c) _). by intros [].
Defined.

(** ** References *)

Inductive ReferentialAction := Cascade | Restrict | SetNull.

Record ReferenceDef := MkReference {
  r_name : string;
  r_kind : string;
  r_field : string;
  r_parent_kind : string;
  r_parent_field : option string;
  r_on_delete : ReferentialAction;
}.

#[export] Instance action_eq_dec : EqDecision ReferentialAction.
Proof. solve_decision. Defined.
#[export] Instance reference_eq_dec : EqDecision ReferenceDef.
Proof. solve_decision. Defined.
#[export] Instance index_def_eq_dec : EqDecision IndexDef.
Proof. solve_decision. Defined.
#[export] Instance text_def_eq_dec : EqDecision TextIndexDef.
Proof. solve_decision. Defined.

Definition MAX_REFERENCE_NAME_LEN : nat := 64.

(** One of the three labelled components of a declaration. *)
Definition check_named (v : string) : check :=
  if str_len v =? 0 then Err tt else check_component (as_bytes v).

Definition reference_validate (d : ReferenceDef) : check :=
  if (str_len (r_name d) =? 0) || (MAX_REFERENCE_NAME_LEN <? str_len (r_name d)) then Err tt
  else if negb (forallb name_byte (as_bytes (r_name d))) then Err tt
  else
    _ ← check_named (r_kind d);
    _ ← check_named (r_field d);
    _ ← check_named (r_parent_kind d);
    _ ← match r_parent_field d with Some f => check_named f | None => Ok tt end;
    if String.eqb (r_kind d) (r_parent_kind d) && bool_decide (r_parent_field d = Some (r_field d)) then Err tt
    else Ok tt.

(** The resident set of declarations, by name. *)
Definition References := gmap string ReferenceDef.

Definition references_put (refs : References) (d : ReferenceDef) : References := <[r_name d := d]> refs.
Definition references_remove (refs : References) (name : string) : References := delete name refs.

(** The kept declarations in name order: [sort_by] on the names. *)
Definition name_le (a b : ReferenceDef) : Prop := lex_le (as_bytes (r_name a)) (as_bytes (r_name b)).

#[export] Instance name_le_dec a b : Decision (name_le a b).
Proof. unfold name_le, lex_le. apply _. Defined.

Definition references_filtered (refs : References) (keep : ReferenceDef -> bool) : list ReferenceDef :=
  merge_sort name_le (filter (fun d => keep d = true) (map snd (map_to_list refs))).

Definition for_child (refs : References) (kind : string) : list ReferenceDef :=
  references_filtered refs (fun d => String.eqb (r_kind d) kind).

Definition for_parent (refs : References) (kind : string) : list ReferenceDef :=
  references_filtered refs (fun d => String.eqb (r_parent_kind d) kind).

Definition depending_on_index (refs : References) (kind field : string) : list ReferenceDef :=
  references_filtered refs (fun d =>
    (String.eqb (r_kind d) kind && String.eqb (r_field d) field)
    || (String.eqb (r_parent_kind d) kind && bool_decide (r_parent_field d = Some field))).

(** ** The registry answers exactly *)

#[export] Instance name_le_total : Total name_le.
Proof.
  intros a b. unfold name_le. destruct (lex_total (as_bytes (r_name a)) (as_bytes (r_name b))) as [H|[->|H]];
    [left|left|right]; auto with fq.
Qed.

#[export] Instance name_le_trans : Transitive name_le.
Proof. intros a b c. unfold name_le. eauto with fq. Qed.

(** Every entry is stored under its own name. *)
Definition registry_ok (refs : References) : Prop := map_Forall (fun name d => name = r_name d) refs.

Lemma registry_put refs d : registry_ok refs -> registry_ok (references_put refs d).
Proof. intros H. by apply map_Forall_insert_2. Qed.

Lemma registry_remove refs name : registry_ok refs -> registry_ok (references_remove refs name).
Proof. intros H. by apply map_Forall_delete. Qed.

Lemma references_filtered_spec refs keep d :
  d ∈ references_filtered refs keep <-> keep d = true /\ exists name, refs !! name = Some d.
Proof.
  unfold references_filtered. rewrite merge_sort_Permutation, list_elem_of_filter, list_elem_of_fmap. split.
  - intros [Hk ([name d'] & -> & Hin%elem_of_map_to_list)]. eauto.
  - intros [Hk [name Hn]]. split; [done|]. exists (name, d). split; [done|]. by apply elem_of_map_to_list.
Qed.

Lemma references_filtered_sorted refs keep : Sorted name_le (references_filtered refs keep).
Proof. apply Sorted_merge_sort. apply _. Qed.
