(* ===== verification/Cells.v ===== *)
(** * Traffic by coordinate ([src/src/metrics.rs], [CellTable])

    A fixed table of 256 slots that is shared by every thread without a lock.
    A call charges a read or a write to its coordinate: it probes up to eight
    slots, claims a free one by compare-and-exchange, and adds to the
    counters of the slot; when all eight belong to other coordinates, it adds
    to a counter of what was left out.  Each access to an atomic is a step of
    its own, and a relaxed load may return the value a slot had before it was
    claimed. *)

From Stdlib Require Import ZArith Lia.
From stdpp Require Import base tactics list option sorting relations.
From S2P Require Import Prelude Entities Histogram.

Local Open Scope Z_scope.

(** ** The table *)

Definition CELL_SLOTS : nat := 256.
Definition CELL_PROBES : nat := 8.
Definition CELL_OCCUPIED : Z := Z.shiftl 1 32.

Record CellTable := MkCells {
  ct_keys : list Z; ct_reads : list Z; ct_writes : list Z; ct_bytes_read : list Z; ct_bytes_written : list Z;
  ct_overflow_reads : Z; ct_overflow_writes : Z; ct_unattributed_writes : Z
}.

Definition zeros : list Z := replicate CELL_SLOTS 0.
Definition cells_new : CellTable := MkCells zeros zeros zeros zeros zeros 0 0 0.

Definition pack (c : Coordinate) : Z :=
  Z.lor (Z.lor (Z.lor (Z.shiftl (coord_x c) 24) (Z.shiftl (coord_y c) 16)) (Z.shiftl (coord_z c) 8)) (coord_q c).

(** [as u8] keeps the low byte. *)
Definition unpack (packed : Z) : Coordinate :=
  {| coord_x := Z.shiftr packed 24 mod 256; coord_y := Z.shiftr packed 16 mod 256; coord_z := Z.shiftr packed 8 mod 256; coord_q := packed mod 256 |}.

Definition cell_key (c : Coordinate) : Z := Z.lor CELL_OCCUPIED (pack c).

(** Where the probe of a key starts. *)
Definition home_slot (key : Z) : nat := Z.to_nat (Z.shiftr ((key * 0x9E3779B97F4A7C15) mod 2 ^ 64) 32 mod Z.of_nat CELL_SLOTS).

(** ** A call *)

(** Where a call stands: about to load the key of a slot with so many probes left, about to claim a slot it saw free,
    about to add to the count or the bytes of its slot, about to add to the overflow, or finished. *)
Inductive charge_pc :=
| Load (index more : nat)
| Claim (index more : nat)
| Count (index : nat)
| Bytes (index : nat)
| Overflow
| Done (slot : option nat).

(** [record_read] or [record_write] with its arguments. *)
Record charge := MkCharge { ch_write : bool; ch_coordinate : Coordinate; ch_bytes : Z; ch_pc : charge_pc }.

Definition ch_key (c : charge) : Z := cell_key (ch_coordinate c).

Definition charge_new (write : bool) (coordinate : Coordinate) (bytes : Z) : charge :=
  MkCharge write coordinate bytes (Load (home_slot (cell_key coordinate)) CELL_PROBES).

Definition next_slot (index : nat) : nat := ((index + 1) mod CELL_SLOTS)%nat.

Definition set_keys (t : CellTable) (keys : list Z) : CellTable :=
  MkCells keys (ct_reads t) (ct_writes t) (ct_bytes_read t) (ct_bytes_written t) (ct_overflow_reads t) (ct_overflow_writes t) (ct_unattributed_writes t).

(** The counters of a read and those of a write. *)
Definition add_count (write : bool) (index : nat) (t : CellTable) : CellTable :=
  if write then MkCells (ct_keys t) (ct_reads t) (alter (fetch_add 1) index (ct_writes t)) (ct_bytes_read t) (ct_bytes_written t) (ct_overflow_reads t) (ct_overflow_writes t) (ct_unattributed_writes t)
  else MkCells (ct_keys t) (alter (fetch_add 1) index (ct_reads t)) (ct_writes t) (ct_bytes_read t) (ct_bytes_written t) (ct_overflow_reads t) (ct_overflow_writes t) (ct_unattributed_writes t).

Definition add_bytes (write : bool) (index : nat) (bytes : Z) (t : CellTable) : CellTable :=
  if write then MkCells (ct_keys t) (ct_reads t) (ct_writes t) (ct_bytes_read t) (alter (fetch_add bytes) index (ct_bytes_written t)) (ct_overflow_reads t) (ct_overflow_writes t) (ct_unattributed_writes t)
  else MkCells (ct_keys t) (ct_reads t) (ct_writes t) (alter (fetch_add bytes) index (ct_bytes_read t)) (ct_bytes_written t) (ct_overflow_reads t) (ct_overflow_writes t) (ct_unattributed_writes t).

Definition add_overflow (write : bool) (t : CellTable) : CellTable :=
  if write then MkCells (ct_keys t) (ct_reads t) (ct_writes t) (ct_bytes_read t) (ct_bytes_written t) (ct_overflow_reads t) (fetch_add 1 (ct_overflow_writes t)) (ct_unattributed_writes t)
  else MkCells (ct_keys t) (ct_reads t) (ct_writes t) (ct_bytes_read t) (ct_bytes_written t) (fetch_add 1 (ct_overflow_reads t)) (ct_overflow_writes t) (ct_unattributed_writes t).

Definition record_unattributed_write (t : CellTable) : CellTable :=
  MkCells (ct_keys t) (ct_reads t) (ct_writes t) (ct_bytes_read t) (ct_bytes_written t) (ct_overflow_reads t) (ct_overflow_writes t) (fetch_add 1 (ct_unattributed_writes t)).

(** The next access of a call to shared memory; [None] when it is finished. *)
Definition charge_step (c : charge) (t : CellTable) : option (CellTable * charge_pc) :=
  let key := ch_key c in
  match ch_pc c with
  | Load index 0 => Some (t, Overflow)
  | Load index (S more) =>
      let current := ct_keys t !!! index in
      Some (t, if current =? key then Count index else if current =? 0 then Claim index (S more) else Load (next_slot index) more)
  | Claim index more =>
      let actual := ct_keys t !!! index in
      Some (if actual =? 0 then (set_keys t (<[index := key]> (ct_keys t)), Count index)
            else (t, if actual =? key then Count index else Load (next_slot index) (more - 1)))
  | Count index => Some (add_count (ch_write c) index t, Bytes index)
  | Bytes index => Some (add_bytes (ch_write c) index (ch_bytes c) t, Done (Some index))
  | Overflow => Some (add_overflow (ch_write c) t, Done None)
  | Done _ => None
  end.

Definition at_pc (c : charge) (pc : charge_pc) : charge := MkCharge (ch_write c) (ch_coordinate c) (ch_bytes c) pc.

(** ** A call alone *)

(** [slot] *)
Fixpoint slot_from (key : Z) (keys : list Z) (index more : nat) : list Z * option nat :=
  match more with
  | O => (keys, None)
  | S more =>
      let current := keys !!! index in
      if current =? key then (keys, Some index)
      else if current =? 0 then (<[index := key]> keys, Some index)
      else slot_from key keys (next_slot index) more
  end.

Definition slot (key : Z) (keys : list Z) : list Z * option nat := slot_from key keys (home_slot key) CELL_PROBES.

Definition record_cell (write : bool) (coordinate : Coordinate) (bytes : Z) (t : CellTable) : CellTable :=
  match slot (cell_key coordinate) (ct_keys t) with
  | (keys, Some index) => add_bytes write index bytes (add_count write index (set_keys t keys))
  | (keys, None) => add_overflow write (set_keys t keys)
  end.

Definition record_read := record_cell false.
Definition record_write := record_cell true.

(** ** The report *)

Record CellStats := MkCell { cs_coordinate : Coordinate; cs_reads : Z; cs_writes : Z; cs_bytes_read : Z; cs_bytes_written : Z }.

Record CellAttribution := MkAttribution {
  ca_capacity : Z; ca_tracked : Z; ca_overflow_reads : Z; ca_overflow_writes : Z; ca_unattributed_writes : Z; ca_cells : list CellStats
}.

Definition cell_at (t : CellTable) (index : nat) : option CellStats :=
  let key := ct_keys t !!! index in
  if key =? 0 then None
  else Some (MkCell (unpack (Z.land key 0xFFFFFFFF)) (ct_reads t !!! index) (ct_writes t !!! index) (ct_bytes_read t !!! index) (ct_bytes_written t !!! index)).

(** What a cell is sorted by: its traffic, then its coordinate. *)
Definition traffic (c : CellStats) : Z := (cs_reads c + cs_writes c) mod 2 ^ 64.
Definition place (c : Coordinate) : list Z := [coord_x c; coord_y c; coord_z c; coord_q c].

Definition busier (a b : CellStats) : Prop :=
  traffic b < traffic a \/ traffic a = traffic b /\ lex_le (place (cs_coordinate a)) (place (cs_coordinate b)).

#[export] Instance busier_dec a b : Decision (busier a b).
Proof. unfold busier, lex_le. apply _. Defined.

(** The slots that were claimed. *)
Definition claimed_slots (t : CellTable) : list CellStats := omap (cell_at t) (seq 0 CELL_SLOTS).

Definition cell_stats (t : CellTable) : CellAttribution :=
  let cells := merge_sort busier (claimed_slots t) in
  MkAttribution (Z.of_nat CELL_SLOTS) (Z.of_nat (length cells)) (ct_overflow_reads t) (ct_overflow_writes t) (ct_unattributed_writes t) cells.

(** ** Calls together *)

Record cells_state := MkCellsState { cl_table : CellTable; cl_calls : list charge; cl_unattributed : nat }.

Definition cells_start : cells_state := MkCellsState cells_new [] 0.

Definition is_coordinate (c : Coordinate) : Prop := is_byte (coord_x c) /\ is_byte (coord_y c) /\ is_byte (coord_z c) /\ is_byte (coord_q c).

Inductive cells_step : cells_state -> cells_state -> Prop :=
| cells_call t calls n write coordinate bytes : is_coordinate coordinate -> 0 <= bytes ->
    cells_step (MkCellsState t calls n) (MkCellsState t (calls ++ [charge_new write coordinate bytes]) n)
| cells_move t calls n i c t' pc : calls !! i = Some c -> charge_step c t = Some (t', pc) ->
    cells_step (MkCellsState t calls n) (MkCellsState t' (<[i := at_pc c pc]> calls) n)
| cells_stale t calls n i c index more : calls !! i = Some c -> ch_pc c = Load index (S more) ->
    (** A relaxed load that returns the value from before the slot was claimed. *)
    cells_step (MkCellsState t calls n) (MkCellsState t (<[i := at_pc c (Claim index (S more))]> calls) n)
| cells_unattributed t calls n :
    cells_step (MkCellsState t calls n) (MkCellsState (record_unattributed_write t) calls (S n)).

(** ** Keys *)

Lemma lor_add a b n : 0 <= n -> 0 <= b < 2 ^ n -> Z.lor (a * 2 ^ n) b = a * 2 ^ n + b.
Proof.
  intros Hn Hb. symmetry. rewrite <- Z.shiftl_mul_pow2 by done. rewrite <- Z.add_lor_land.
  assert (Z.land (Z.shiftl a n) b = 0) as ->; [|lia]. apply Z.bits_inj'. intros i Hi. rewrite Z.land_spec, Z.bits_0. destruct (Z.lt_ge_cases i n).
  - by rewrite Z.shiftl_spec_low.
  - by rewrite (bits_above b n), andb_false_r.
Qed.

Lemma cell_key_value c : is_coordinate c -> cell_key c = 2 ^ 32 + coord_x c * 2 ^ 24 + coord_y c * 2 ^ 16 + coord_z c * 2 ^ 8 + coord_q c.
Proof.
  intros (Hx & Hy & Hz & Hq). unfold is_byte in *. unfold cell_key, pack, CELL_OCCUPIED. rewrite !Z.shiftl_mul_pow2 by done.
  rewrite (lor_add (coord_x c)) by lia.
  replace (coord_x c * 2 ^ 24 + coord_y c * 2 ^ 16) with ((coord_x c * 2 ^ 8 + coord_y c) * 2 ^ 16) by lia. rewrite (lor_add (coord_x c * 2 ^ 8 + coord_y c)) by lia.
  replace ((coord_x c * 2 ^ 8 + coord_y c) * 2 ^ 16 + coord_z c * 2 ^ 8) with ((coord_x c * 2 ^ 16 + coord_y c * 2 ^ 8 + coord_z c) * 2 ^ 8) by lia.
  rewrite (lor_add (coord_x c * 2 ^ 16 + coord_y c * 2 ^ 8 + coord_z c)) by lia.
  rewrite lor_add by lia. lia.
Qed.

Lemma unpack_key c : is_coordinate c -> unpack (Z.land (cell_key c) 0xFFFFFFFF) = c.
Proof.
  intros Hc. rewrite (cell_key_value c Hc). destruct Hc as (Hx & Hy & Hz & Hq). unfold is_byte in *. change 0xFFFFFFFF with (Z.ones 32). rewrite Z.land_ones by lia.
  destruct c as [x y z q]. cbn [coord_x coord_y coord_z coord_q] in *. replace (2 ^ 32 + x * 2 ^ 24 + y * 2 ^ 16 + z * 2 ^ 8 + q) with (x * 2 ^ 24 + y * 2 ^ 16 + z * 2 ^ 8 + q + 1 * 2 ^ 32) by lia.
  rewrite Z.mod_add, Z.mod_small by lia. unfold unpack. rewrite !Z.shiftr_div_pow2 by lia. f_equal; Z.div_mod_to_equations; lia.
Qed.

Lemma cell_key_inj c c' : is_coordinate c -> is_coordinate c' -> cell_key c = cell_key c' -> c = c'.
Proof. intros Hc Hc' E. by rewrite <- (unpack_key c Hc), <- (unpack_key c' Hc'), E. Qed.

Lemma cell_key_nonzero c : is_coordinate c -> cell_key c <> 0.
Proof. intros Hc. rewrite (cell_key_value c Hc). destruct Hc as (? & ? & ? & ?). unfold is_byte in *. lia. Qed.

(** ** One slot for a coordinate *)

Definition probe_slot (key : Z) (p : nat) : nat := ((home_slot key + p) mod CELL_SLOTS)%nat.

(** The first [p] slots of the probe of a key belong to others. *)
Definition others (keys : list Z) (key : Z) (p : nat) : Prop :=
  forall p', (p' < p)%nat -> exists k, keys !! probe_slot key p' = Some k /\ k <> 0 /\ k <> key.

(** A slot is free, or holds a key that found all slots before it taken by others. *)
Definition placed (keys : list Z) (j : nat) (k : Z) : Prop :=
  k = 0 \/ (exists c, is_coordinate c /\ k = cell_key c) /\ exists p, (p < CELL_PROBES)%nat /\ j = probe_slot k p /\ others keys k p.

Definition keys_ok (keys : list Z) : Prop := length keys = CELL_SLOTS /\ forall j k, keys !! j = Some k -> placed keys j k.

Lemma probe_lt key p : (probe_slot key p < CELL_SLOTS)%nat.
Proof. apply Nat.mod_upper_bound. done. Qed.

Lemma probe_home key : home_slot key = probe_slot key 0.
Proof.
  unfold probe_slot, home_slot. rewrite Nat.add_0_r, Nat.mod_small; [done|]. pose proof (Z.mod_pos_bound (Z.shiftr ((key * 0x9E3779B97F4A7C15) mod 2 ^ 64) 32) (Z.of_nat CELL_SLOTS) ltac:(done)).
  unfold CELL_SLOTS in *. lia.
Qed.

Lemma probe_next key p : next_slot (probe_slot key p) = probe_slot key (S p).
Proof. unfold next_slot, probe_slot. rewrite Nat.Div0.add_mod_idemp_l. f_equal. lia. Qed.

Lemma others_snoc keys key p k : others keys key p -> keys !! probe_slot key p = Some k -> k <> 0 -> k <> key -> others keys key (S p).
Proof. intros Ho Hk H0 Hne p' Hp'. destruct (decide (p' = p)) as [->|]; [eauto|]. apply Ho. lia. Qed.

Section keys.
Context (keys : list Z) (Hok : keys_ok keys).

Lemma keys_unique j j' k : k <> 0 -> keys !! j = Some k -> keys !! j' = Some k -> j = j'.
Proof.
  intros Hk Hj Hj'. destruct (proj2 Hok j k Hj) as [?|(_ & p & _ & -> & Ho)]; [done|]. destruct (proj2 Hok j' k Hj') as [?|(_ & p' & _ & -> & Ho')]; [done|].
  destruct (Nat.lt_trichotomy p p') as [Hlt|[->|Hlt]]; [|done|]; [destruct (Ho' p Hlt) as (k' & ? & ? & ?)|destruct (Ho p' Hlt) as (k' & ? & ? & ?)]; congruence.
Qed.

(** A key whose probe reaches a free slot, or the end, is nowhere in the table. *)
Lemma key_absent key p : key <> 0 -> others keys key p -> (CELL_PROBES <= p)%nat \/ keys !! probe_slot key p = Some 0 -> forall j, keys !! j <> Some key.
Proof.
  intros Hk Ho Hend j Hj. destruct (proj2 Hok j key Hj) as [?|(_ & p' & Hp' & -> & Ho')]; [done|]. destruct (Nat.lt_trichotomy p p') as [Hlt|[->|Hlt]].
  - destruct Hend as [?|Hf]; [lia|]. destruct (Ho' p Hlt) as (k & ? & ? & ?). congruence.
  - destruct Hend as [?|Hf]; [lia|]. congruence.
  - destruct (Ho p' Hlt) as (k & ? & ? & ?). congruence.
Qed.

Lemma others_claim j key k p : keys !! j = Some 0 -> others keys k p -> others (<[j := key]> keys) k p.
Proof.
  intros Hj Ho p' Hp'. destruct (Ho p' Hp') as (k' & Hk & H0 & Hne). exists k'. split; [|done]. rewrite list_lookup_insert_ne; [done|]. intros ->. congruence.
Qed.

Lemma keys_claim c p : is_coordinate c -> (p < CELL_PROBES)%nat -> keys !! probe_slot (cell_key c) p = Some 0 -> others keys (cell_key c) p ->
  keys_ok (<[probe_slot (cell_key c) p := cell_key c]> keys).
Proof.
  intros Hc Hp Hf Ho. destruct Hok as [Hlen Hpl]. split; [by rewrite length_insert|]. intros j k. rewrite list_lookup_insert_Some. intros [(<- & <- & _)|[Hne Hj]].
  - right. split; [by exists c|]. exists p. split_and!; [done|done|by apply others_claim].
  - destruct (Hpl j k Hj) as [->|(Hk & p' & Hp' & -> & Ho')]; [by left|right]. split; [done|]. exists p'. split_and!; [done|done|by apply others_claim].
Qed.
End keys.

(** ** Counting the calls *)

Definition total {A} (f : A -> Z) (calls : list A) : Z := foldr (fun c s => f c + s) 0 calls.

Lemma total_app {A} (f : A -> Z) calls calls' : total f (calls ++ calls') = total f calls + total f calls'.
Proof. unfold total. induction calls as [|c calls IH]; cbn; [done|]. rewrite IH. lia. Qed.

Lemma total_one {A} (f : A -> Z) c : total f [c] = f c.
Proof. unfold total. cbn. lia. Qed.

Lemma total_insert {A} (f : A -> Z) calls i c c' : calls !! i = Some c -> total f (<[i := c']> calls) = total f calls - f c + f c'.
Proof. unfold total. revert i. induction calls as [|x calls IH]; intros [|i] Hi; cbn in Hi; simplify_eq; [cbn; lia|]. change (<[S i := c']> (x :: calls)) with (x :: <[i := c']> calls). cbn [foldr]. rewrite (IH i Hi). lia. Qed.

Lemma total_ext {A} (f g : A -> Z) calls : (forall c, c ∈ calls -> f c = g c) -> total f calls = total g calls.
Proof. unfold total. induction calls as [|c calls IH]; intros E; [done|]. cbn. rewrite (E c), IH; [done| |left]. intros x Hx. apply E. by right. Qed.

Lemma total_zero {A} (f : A -> Z) calls : (forall c, c ∈ calls -> f c = 0) -> total f calls = 0.
Proof. intros E. rewrite (total_ext f (fun _ => 0)) by done. unfold total. clear. induction calls; cbn; lia. Qed.

(** Whether a call has added to its count ([bytes] false) or to its bytes. *)
Definition passed (bytes : bool) (pc : charge_pc) : bool := match pc with Bytes _ => negb bytes | Done (Some _) => true | _ => false end.

(** What a call has added to the counters of a key. *)
Definition weight (write bytes : bool) (k : Z) (c : charge) : Z :=
  if Bool.eqb (ch_write c) write && (ch_key c =? k) && passed bytes (ch_pc c) then if bytes then ch_bytes c else 1 else 0.

Definition overflowed (write : bool) (c : charge) : Z :=
  if Bool.eqb (ch_write c) write && match ch_pc c with Done None => true | _ => false end then 1 else 0.

Definition counter (t : CellTable) (write bytes : bool) : list Z :=
  match write, bytes with false, false => ct_reads t | true, false => ct_writes t | false, true => ct_bytes_read t | true, true => ct_bytes_written t end.

Definition overflow (t : CellTable) (write : bool) : Z := if write then ct_overflow_writes t else ct_overflow_reads t.

(** Where a call may stand. *)
Definition call_ok (keys : list Z) (c : charge) : Prop :=
  is_coordinate (ch_coordinate c) /\ 0 <= ch_bytes c /\
  match ch_pc c with
  | Load index more => exists p, (p + more = CELL_PROBES)%nat /\ index = probe_slot (ch_key c) p /\ others keys (ch_key c) p
  | Claim index more => exists p, (p + more = CELL_PROBES)%nat /\ (0 < more)%nat /\ index = probe_slot (ch_key c) p /\ others keys (ch_key c) p
  | Count index | Bytes index | Done (Some index) => keys !! index = Some (ch_key c)
  | Overflow | Done None => others keys (ch_key c) CELL_PROBES
  end.

Record cells_ok (st : cells_state) : Prop := {
  co_keys : keys_ok (ct_keys (cl_table st));
  co_calls : forall i c, cl_calls st !! i = Some c -> call_ok (ct_keys (cl_table st)) c;
  co_counters : forall w b j k, ct_keys (cl_table st) !! j = Some k -> counter (cl_table st) w b !! j = Some (total (weight w b k) (cl_calls st) mod 2 ^ 64);
  co_overflow : forall w, overflow (cl_table st) w = total (overflowed w) (cl_calls st) mod 2 ^ 64;
  co_unattributed : ct_unattributed_writes (cl_table st) = Z.of_nat (cl_unattributed st) mod 2 ^ 64
}.

Lemma weight_at w b k c pc : passed b pc = passed b (ch_pc c) -> weight w b k (at_pc c pc) = weight w b k c.
Proof. intros E. unfold weight, ch_key, at_pc. cbn. by rewrite E. Qed.

Lemma lookup_keys keys index : keys_ok keys -> (index < CELL_SLOTS)%nat -> keys !! index = Some (keys !!! index).
Proof. intros [Hlen _] Hi. apply list_lookup_lookup_total_lt. by rewrite Hlen. Qed.

Lemma add_total δ x : fetch_add δ (x mod 2 ^ 64) = (x + δ) mod 2 ^ 64.
Proof. unfold fetch_add. by rewrite Zplus_mod_idemp_l. Qed.

(** A move that touches no counter. *)
Lemma uncounted_move t calls n i c pc : cells_ok (MkCellsState t calls n) -> calls !! i = Some c ->
  (forall b, passed b (ch_pc c) = false) -> (forall b, passed b pc = false) -> ch_pc c <> Done None -> pc <> Done None -> call_ok (ct_keys t) (at_pc c pc) ->
  cells_ok (MkCellsState t (<[i := at_pc c pc]> calls) n).
Proof.
  intros [Hk Hc Hcnt Hov Hun] Hi Hp Hp' Hd Hd' Hnew. split; cbn [cl_table cl_calls cl_unattributed] in *; [done| | | |done].
  - intros i' c'. rewrite list_lookup_insert_Some. intros [(<- & <- & _)|[_ H]]; [done|by eapply Hc].
  - intros w b j k Hj. rewrite (total_insert _ _ _ _ _ Hi), weight_at by (by rewrite Hp, Hp'). rewrite (Hcnt w b j k Hj). do 2 f_equal. lia.
  - intros w. rewrite (total_insert _ _ _ _ _ Hi), Hov. f_equal. unfold overflowed. cbn. destruct (ch_pc c) as [| | | | |[|]], pc as [| | | | |[|]]; try done; rewrite !andb_false_r; lia.
Qed.

Lemma call_ok_mono keys j key c : keys !! j = Some 0 -> call_ok keys c -> call_ok (<[j := key]> keys) c.
Proof.
  intros Hj (Hco & Hb & Hpc). split_and!; [done|done|]. assert (Hin : forall index, keys !! index = Some (ch_key c) -> <[j := key]> keys !! index = Some (ch_key c)).
  { intros index H. rewrite list_lookup_insert_ne; [done|]. intros ->. rewrite Hj in H. injection H as H. by apply (cell_key_nonzero _ Hco). }
  destruct (ch_pc c) as [index more|index more|index|index| |[index|]]; try (by apply Hin); try by apply others_claim.
  - destruct Hpc as (p & ? & ? & ?). exists p. split_and!; [done|done|by apply others_claim].
  - destruct Hpc as (p & ? & ? & ? & ?). exists p. split_and!; [done|done|done|by apply others_claim].
Qed.

(** Nothing was counted for a key that is not in the table. *)
Lemma absent_weight t calls n w b k : cells_ok (MkCellsState t calls n) -> (forall j, ct_keys t !! j <> Some k) -> total (weight w b k) calls = 0.
Proof.
  intros [_ Hc _ _ _] Ha. cbn [cl_table cl_calls] in Hc. apply total_zero. intros c [i Hi]%list_elem_of_lookup_1. unfold weight. destruct (Z.eqb_spec (ch_key c) k) as [<-|]; [|by rewrite andb_false_r].
  destruct (Hc i c Hi) as (_ & _ & Hpc). destruct (ch_pc c) as [| | |index| |[index|]]; cbn; rewrite ?andb_false_r; try done; by destruct (Ha _ Hpc).
Qed.

Lemma zero_weight t calls n w b : cells_ok (MkCellsState t calls n) -> total (weight w b 0) calls = 0.
Proof.
  intros [_ Hc _ _ _]. cbn [cl_table cl_calls] in Hc. apply total_zero. intros c [i Hi]%list_elem_of_lookup_1. unfold weight. destruct (Hc i c Hi) as (Hco & _ & _).
  destruct (Z.eqb_spec (ch_key c) 0) as [E|]; [by destruct (cell_key_nonzero _ Hco)|by rewrite andb_false_r].
Qed.

Lemma claim_keeps t calls n c p : cells_ok (MkCellsState t calls n) -> is_coordinate c -> (p < CELL_PROBES)%nat -> ct_keys t !! probe_slot (cell_key c) p = Some 0 ->
  others (ct_keys t) (cell_key c) p -> cells_ok (MkCellsState (set_keys t (<[probe_slot (cell_key c) p := cell_key c]> (ct_keys t))) calls n).
Proof.
  intros Hok Hco Hp Hf Ho. pose proof Hok as [Hk Hc Hcnt Hov Hun]. split; cbn [cl_table cl_calls cl_unattributed ct_keys set_keys ct_unattributed_writes] in *; [by apply keys_claim| | |intros []; [apply (Hov true)|apply (Hov false)]|done].
  - intros i c' Hi. apply call_ok_mono; [done|by eapply Hc].
  - intros w b j k. assert (E : counter (set_keys t (<[probe_slot (cell_key c) p := cell_key c]> (ct_keys t))) w b = counter t w b) by (by destruct w, b). rewrite E.
    rewrite list_lookup_insert_Some. intros [(<- & <- & _)|[_ Hj]]; [|by apply Hcnt]. rewrite (Hcnt w b _ _ Hf), (zero_weight t calls n) by done.
    rewrite (absent_weight t calls n w b (cell_key c)); [done|done|]. apply (key_absent _ Hk _ p); [by apply cell_key_nonzero|done|by right].
Qed.

(** An addition to one of the counters of the slot of a call. *)
Lemma add_keeps t t' calls n i c pc index b0 δ : cells_ok (MkCellsState t calls n) -> calls !! i = Some c -> ct_keys t !! index = Some (ch_key c) ->
  ct_keys t' = ct_keys t -> overflow t' = overflow t -> ct_unattributed_writes t' = ct_unattributed_writes t ->
  (forall w b, counter t' w b = if Bool.eqb (ch_write c) w && Bool.eqb b b0 then alter (fetch_add δ) index (counter t w b) else counter t w b) ->
  ch_pc c <> Done None -> pc <> Done None -> call_ok (ct_keys t) (at_pc c pc) ->
  (forall b, b <> b0 -> passed b pc = passed b (ch_pc c)) -> passed b0 (ch_pc c) = false -> passed b0 pc = true -> δ = (if b0 then ch_bytes c else 1) ->
  cells_ok (MkCellsState t' (<[i := at_pc c pc]> calls) n).
Proof.
  intros [Hk Hc Hcnt Hov Hun] Hi Hin Ek Eo Eu Ecnt Hd Hd' Hnew Hsame Hp Hp' Hδ. split; cbn [cl_table cl_calls cl_unattributed] in *; rewrite ?Ek, ?Eo, ?Eu; [done| | | |done].
  - intros i' c'. rewrite list_lookup_insert_Some. intros [(<- & <- & _)|[_ H]]; [done|by eapply Hc].
  - intros w b j k Hj. rewrite (total_insert _ _ _ _ _ Hi), Ecnt. destruct (Bool.eqb_spec (ch_write c) w) as [Ew|Ew]; cbn [andb].
    2:{ rewrite (Hcnt w b j k Hj). do 2 f_equal. unfold weight. cbn. destruct (Bool.eqb_spec (ch_write c) w); [done|]. cbn. lia. }
    destruct (Bool.eqb_spec b b0) as [->|Hb]; [|rewrite weight_at, (Hcnt w b j k Hj) by (by apply Hsame); do 2 f_equal; lia].
    destruct (Hc i c Hi) as (Hco & _). destruct (decide (j = index)) as [->|Hne].
    + rewrite list_lookup_alter_eq, (Hcnt w b0 _ _ Hj). cbn. rewrite add_total. do 2 f_equal. rewrite Hin in Hj. injection Hj as <-. unfold weight, ch_key. cbn.
      rewrite Z.eqb_refl, Hp, Hp', Ew, Bool.eqb_reflx. cbn. lia.
    + rewrite list_lookup_alter_ne, (Hcnt w b0 _ _ Hj) by done. do 2 f_equal. assert (ch_key c <> k).
      { intros <-. apply Hne. eapply keys_unique; [done| |done|done]. by apply cell_key_nonzero. }
      unfold weight. cbn. change (ch_key (at_pc c pc)) with (ch_key c). destruct (Z.eqb_spec (ch_key c) k); [done|]. rewrite andb_false_r. cbn. lia.
  - intros w. rewrite (total_insert _ _ _ _ _ Hi), Hov. f_equal. unfold overflowed. cbn. destruct (ch_pc c) as [| | | | |[|]], pc as [| | | | |[|]]; try done; rewrite !andb_false_r; lia.
Qed.

Lemma overflow_keeps t calls n i c : cells_ok (MkCellsState t calls n) -> calls !! i = Some c -> ch_pc c = Overflow ->
  cells_ok (MkCellsState (add_overflow (ch_write c) t) (<[i := at_pc c (Done None)]> calls) n).
Proof.
  intros [Hk Hc Hcnt Hov Hun] Hi Hpc. split; cbn [cl_table cl_calls cl_unattributed] in *.
  - by destruct (ch_write c).
  - assert (E : ct_keys (add_overflow (ch_write c) t) = ct_keys t) by by destruct (ch_write c). rewrite E. intros i' c'. rewrite list_lookup_insert_Some. intros [(<- & <- & _)|[_ H]]; [|by eapply Hc].
    destruct (Hc i c Hi) as (? & ? & Hx). rewrite Hpc in Hx. by split_and!.
  - assert (E : ct_keys (add_overflow (ch_write c) t) = ct_keys t) by by destruct (ch_write c). rewrite E. intros w b j k Hj. assert (E' : counter (add_overflow (ch_write c) t) w b = counter t w b) by by destruct (ch_write c), w, b.
    rewrite E', (total_insert _ _ _ _ _ Hi), weight_at, (Hcnt w b j k Hj) by by rewrite Hpc. do 2 f_equal. lia.
  - intros w. rewrite (total_insert _ _ _ _ _ Hi). specialize (Hov w). unfold overflowed at 2 3. cbn [ch_write ch_pc at_pc]. rewrite Hpc, andb_false_r, andb_true_r.
    destruct (ch_write c), w; cbn [Bool.eqb overflow add_overflow ct_overflow_reads ct_overflow_writes] in *; rewrite Hov, ?add_total; f_equal; lia.
  - by destruct (ch_write c).
Qed.

(** Past a slot that belongs to another key. *)
Lemma next_probe keys c index p more : others keys (ch_key c) p -> index = probe_slot (ch_key c) p -> (p + S more = CELL_PROBES)%nat ->
  keys !! index = Some (keys !!! index) -> keys !!! index <> 0 -> keys !!! index <> ch_key c ->
  exists p', (p' + more = CELL_PROBES)%nat /\ next_slot index = probe_slot (ch_key c) p' /\ others keys (ch_key c) p'.
Proof. intros Ho -> Hp Hl H0 Hne. exists (S p). split_and!; [lia|apply probe_next|by eapply others_snoc]. Qed.

Lemma some_pair {A B} (a a' : A) (b b' : B) : Some (a, b) = Some (a', b') -> a = a' /\ b = b'.
Proof. by intros [= -> ->]. Qed.

(** The side conditions of a quiet move of a call at a known place. *)
Ltac quiet Epc Hi :=
  match type of Hi with _ !! _ = Some ?c => eapply (fun t calls n i => uncounted_move t calls n i c) end; [assumption|assumption|rewrite Epc; intros; reflexivity|intros; repeat case_match; reflexivity|rewrite Epc; discriminate|repeat case_match; discriminate|].

Lemma move_keeps t calls n i c t' pc : cells_ok (MkCellsState t calls n) -> calls !! i = Some c -> charge_step c t = Some (t', pc) ->
  cells_ok (MkCellsState t' (<[i := at_pc c pc]> calls) n).
Proof.
  intros Hok Hi Hstep. pose proof Hok as [Hk Hc _ _ _]. cbn [cl_table cl_calls] in Hk, Hc. destruct (Hc i c Hi) as (Hco & Hb & Hpc). unfold charge_step in Hstep.
  destruct (ch_pc c) as [index more|index more|index|index| |] eqn:Epc; [|destruct Hpc as (p & Hp & Hm & -> & Ho)|..].
  - destruct Hpc as (p & Hp & -> & Ho). pose proof (lookup_keys _ (probe_slot (ch_key c) p) Hk (probe_lt _ _)) as Hl.
    destruct more as [|more]; apply some_pair in Hstep as [<- <-]; quiet Epc Hi; split; [exact Hco| |exact Hco|]; (split; [exact Hb|]); cbn [ch_pc at_pc].
    + rewrite Nat.add_0_r in Hp. rewrite <- Hp. exact Ho.
    + destruct (Z.eqb_spec (ct_keys t !!! probe_slot (ch_key c) p) (ch_key c)) as [E|E]; [by rewrite Hl, E|].
      destruct (Z.eqb_spec (ct_keys t !!! probe_slot (ch_key c) p) 0) as [E0|E0]; [exists p; split; [exact Hp|]; split; [lia|]; by split|by eapply next_probe].
  - pose proof (lookup_keys _ (probe_slot (ch_key c) p) Hk (probe_lt _ _)) as Hl. destruct (Z.eqb_spec (ct_keys t !!! probe_slot (ch_key c) p) 0) as [E0|E0].
    + apply some_pair in Hstep as [<- <-]. rewrite E0 in Hl. assert (Hlt : (p < CELL_PROBES)%nat) by lia. pose proof (claim_keeps t calls n _ p Hok Hco Hlt Hl Ho) as Hcl. quiet Epc Hi. split; [exact Hco|]. split; [exact Hb|]. cbn [ch_pc at_pc ct_keys set_keys].
      apply list_lookup_insert_eq. destruct Hk as [-> _]. apply probe_lt.
    + apply some_pair in Hstep as [<- <-]. quiet Epc Hi. split; [exact Hco|]. split; [exact Hb|]. cbn [ch_pc at_pc].
      destruct (Z.eqb_spec (ct_keys t !!! probe_slot (ch_key c) p) (ch_key c)) as [E|E]; [by rewrite Hl, E|]. destruct more as [|more]; [lia|]. rewrite Nat.sub_succ, Nat.sub_0_r. by eapply next_probe.
  - apply some_pair in Hstep as [<- <-]. eapply (add_keeps t _ calls n i c (Bytes index) index false 1); rewrite ?Epc; try done; try (by destruct (ch_write c)); [by intros [] []; destruct (ch_write c)|by intros []].
  - apply some_pair in Hstep as [<- <-]. eapply (add_keeps t _ calls n i c (Done (Some index)) index true (ch_bytes c)); rewrite ?Epc; try done; try (by destruct (ch_write c)); [by intros [] []; destruct (ch_write c)|by intros []].
  - apply some_pair in Hstep as [<- <-]. by apply overflow_keeps.
  - done.
Qed.

Lemma cells_step_ok st st' : cells_step st st' -> cells_ok st -> cells_ok st'.
Proof.
  intros Hs Hok. destruct Hs as [t calls n write coordinate bytes Hco Hb|t calls n i c t' pc Hi Hstep|t calls n i c index more Hi Epc|t calls n].
  - destruct Hok as [Hk Hc Hcnt Hov Hun]. split; cbn [cl_table cl_calls cl_unattributed] in *; [done| | | |done].
    + intros i c [Hi|[Hge Hi]]%lookup_app_Some; [by eapply Hc|]. apply list_lookup_singleton_Some in Hi as [_ <-]. split_and!; [done|done|]. exists 0%nat. split_and!; [done|apply probe_home|]. intros p' Hp'. lia.
    + intros w b j k Hj. rewrite total_app, (Hcnt w b j k Hj). do 2 f_equal. rewrite total_one. unfold weight. cbn [passed ch_pc charge_new]. rewrite andb_false_r. lia.
    + intros w. rewrite total_app, Hov. f_equal. rewrite total_one. unfold overflowed. cbn [ch_pc charge_new]. rewrite andb_false_r. lia.
  - by eapply move_keeps.
  - pose proof Hok as [Hk Hc _ _ _]. cbn [cl_table cl_calls] in Hk, Hc. destruct (Hc i c Hi) as (Hco & Hb & Hpc). rewrite Epc in Hpc. destruct Hpc as (p & Hp & -> & Ho).
    quiet Epc Hi. split; [exact Hco|]. split; [exact Hb|]. exists p. split; [exact Hp|]. split; [lia|]. by split.
  - destruct Hok as [Hk Hc Hcnt Hov Hun]. split; cbn [cl_table cl_calls cl_unattributed] in *; [done|done|intros [] [] j k Hj; [exact (Hcnt true true j k Hj)|exact (Hcnt true false j k Hj)|exact (Hcnt false true j k Hj)|exact (Hcnt false false j k Hj)]|intros w; by rewrite <- Hov|].
    cbn [ct_unattributed_writes record_unattributed_write]. rewrite Hun, add_total. f_equal. lia.
Qed.

Lemma cells_start_ok : cells_ok cells_start.
Proof.
  split; cbn [cl_table cl_calls cl_unattributed cells_start]; [|done| |by intros []|done].
  - split; [done|]. intros j k [-> _]%lookup_replicate. by left.
  - intros w b j k [-> Hj]%lookup_replicate. cbn. destruct w, b; cbn [counter cells_new ct_reads ct_writes ct_bytes_read ct_bytes_written]; by apply lookup_replicate_2.
Qed.

Lemma cells_steps_ok st st' : rtc cells_step st st' -> cells_ok st -> cells_ok st'.
Proof. induction 1 as [|x y z Hs _ IH]; intros Hok; [done|]. by apply IH, (cells_step_ok x). Qed.

(** ** The report of a finished run *)

Definition finished (c : charge) : Prop := exists slot, ch_pc c = Done slot.

(** The calls of a kind at a coordinate, in number and in bytes. *)
Definition charged (write bytes : bool) (coordinate : Coordinate) (calls : list charge) : Z :=
  total (fun c => if Bool.eqb (ch_write c) write && bool_decide (ch_coordinate c = coordinate) then if bytes then ch_bytes c else 1 else 0) calls.

(** The calls of a kind whose coordinate is none of these. *)
Definition left_out (write : bool) (cells : list Coordinate) (calls : list charge) : Z :=
  total (fun c => if Bool.eqb (ch_write c) write && bool_decide (ch_coordinate c ∉ cells) then 1 else 0) calls.

Section finished.
Context (t : CellTable) (calls : list charge) (n : nat) (Hok : cells_ok (MkCellsState t calls n)) (Hfin : Forall finished calls).

Definition occupied (c : Coordinate) : Prop := exists j, ct_keys t !! j = Some (cell_key c).

Lemma call_finished c : c ∈ calls -> is_coordinate (ch_coordinate c) /\ ((exists j, ch_pc c = Done (Some j) /\ ct_keys t !! j = Some (ch_key c)) \/ ch_pc c = Done None /\ ~ occupied (ch_coordinate c)).
Proof.
  intros Hin. rewrite Forall_forall in Hfin. destruct (Hfin c Hin) as [slot E]. apply list_elem_of_lookup_1 in Hin as [i Hi]. destruct Hok as [Hk Hc _ _ _]. destruct (Hc i c Hi) as (Hco & _ & Hpc). split; [done|].
  rewrite E in Hpc. destruct slot as [j|]; [left; by exists j|right]. split; [done|]. intros [j Hj]. by apply (key_absent _ Hk _ CELL_PROBES (cell_key_nonzero _ Hco) Hpc (or_introl (Nat.le_refl _)) j).
Qed.

Lemma slot_counts w b j c : is_coordinate c -> ct_keys t !! j = Some (cell_key c) -> counter t w b !! j = Some (charged w b c calls mod 2 ^ 64).
Proof.
  intros Hco Hj. pose proof (co_counters _ Hok w b j _ Hj) as E0. cbn [cl_table cl_calls] in E0. rewrite E0. do 2 f_equal. apply total_ext. intros x Hx. unfold weight. destruct (call_finished x Hx) as (Hcx & Hpc).
  assert (Ek : (ch_key x =? cell_key c) = bool_decide (ch_coordinate x = c)).
  { case_bool_decide as E; [unfold ch_key; rewrite E; apply Z.eqb_refl|]. apply Z.eqb_neq. intros E'. apply E. by apply cell_key_inj. }
  rewrite Ek. case_bool_decide as E; [|by rewrite !andb_false_r]. destruct Hpc as [(j' & -> & _)|[_ Hno]]; [cbn; by rewrite andb_true_r|]. destruct Hno. exists j. by rewrite E.
Qed.

Lemma overflow_counts w cells : (forall c, is_coordinate c -> c ∈ cells <-> occupied c) -> overflow t w = left_out w cells calls mod 2 ^ 64.
Proof.
  intros Hcells. pose proof (co_overflow _ Hok w) as E0. cbn [cl_table cl_calls] in E0. rewrite E0. f_equal. apply total_ext. intros x Hx. unfold overflowed. destruct (call_finished x Hx) as (Hcx & [(j & -> & Hj)|[-> Hno]]).
  - rewrite bool_decide_false; [done|]. intros Hn. apply Hn, Hcells; [done|]. by exists j.
  - rewrite bool_decide_true; [done|]. by rewrite Hcells.
Qed.

(** The cells of the report are the slots that were claimed. *)
Lemma cell_at_some j s : (j < CELL_SLOTS)%nat -> cell_at t j = Some s -> exists c, is_coordinate c /\ ct_keys t !! j = Some (cell_key c) /\
  s = MkCell c (charged false false c calls mod 2 ^ 64) (charged true false c calls mod 2 ^ 64) (charged false true c calls mod 2 ^ 64) (charged true true c calls mod 2 ^ 64).
Proof.
  intros Hj. unfold cell_at. destruct Hok as [Hk _ _ _ _]. pose proof (lookup_keys _ j Hk Hj) as Hl. cbn [cl_table] in Hl. destruct (Z.eqb_spec (ct_keys t !!! j) 0) as [|Hne]; [done|]. intros [= <-].
  destruct (proj2 Hk j _ Hl) as [|((c & Hco & E) & _)]; [done|]. rewrite E in Hl |- *. exists c. split_and!; [done|done|]. rewrite (unpack_key c Hco).
  pose proof (fun w b => slot_counts w b j c Hco Hl) as Hs. f_equal; apply list_lookup_total_correct; [apply (Hs false false)|apply (Hs true false)|apply (Hs false true)|apply (Hs true true)].
Qed.

Lemma cell_at_key j c : is_coordinate c -> ct_keys t !! j = Some (cell_key c) -> exists s, cell_at t j = Some s /\ cs_coordinate s = c /\ (j < CELL_SLOTS)%nat.
Proof.
  intros Hco Hj. unfold cell_at. rewrite (list_lookup_total_correct _ _ _ Hj). destruct (Z.eqb_spec (cell_key c) 0) as [E|_]; [by destruct (cell_key_nonzero c Hco)|].
  eexists. split_and!; [done|cbn; by apply unpack_key|]. destruct Hok as [[<- _] _ _ _ _]. by eapply lookup_lt_Some.
Qed.

Lemma elem_slots s : s ∈ claimed_slots t <-> exists j, (j < CELL_SLOTS)%nat /\ cell_at t j = Some s.
Proof.
  unfold claimed_slots. rewrite list_elem_of_omap. split; intros (j & H1 & H2); exists j; (split; [|done]); [apply elem_of_seq in H1; lia|apply elem_of_seq; lia].
Qed.

Lemma length_omap_le l : (length (omap (cell_at t) l) <= length l)%nat.
Proof. induction l as [|j l IH]; cbn; [done|]. destruct (cell_at t j); cbn; lia. Qed.

Lemma length_claimed : (length (claimed_slots t) <= CELL_SLOTS)%nat.
Proof. unfold claimed_slots. etrans; [apply length_omap_le|]. by rewrite length_seq. Qed.

Lemma slots_nodup : NoDup (map cs_coordinate (claimed_slots t)).
Proof.
  unfold claimed_slots. assert (H : forall l, NoDup l -> (forall j, j ∈ l -> (j < CELL_SLOTS)%nat) -> NoDup (map cs_coordinate (omap (cell_at t) l))).
  { induction l as [|j l IH]; intros Hnd Hl; [constructor|]. apply NoDup_cons in Hnd as [Hj Hnd]. cbn. destruct (cell_at t j) as [s|] eqn:E; [|apply IH; [done|intros; apply Hl; by right]].
    cbn. apply NoDup_cons. split; [|apply IH; [done|intros; apply Hl; by right]]. intros (s' & Es & (j' & Hj' & Es')%list_elem_of_omap)%list_elem_of_fmap.
    destruct (cell_at_some j s (Hl j ltac:(left)) E) as (c & Hc & Hk & ->). destruct (cell_at_some j' s' (Hl j' ltac:(by right)) Es') as (c' & Hc' & Hk' & ->). cbn in Es. subst c'.
    destruct Hok as [Hkeys _ _ _ _]. by rewrite (keys_unique _ Hkeys j j' _ (cell_key_nonzero c Hc) Hk Hk') in Hj. }
  apply H; [apply NoDup_seq|]. intros j Hj%elem_of_seq. lia.
Qed.
End finished.

#[export] Instance busier_trans : Transitive busier.
Proof. intros a b c [?|[? H1]] [?|[? H2]]; unfold busier; [left; lia|left; lia|left; lia|right]. split; [lia|]. by eapply lex_le_trans. Qed.

#[export] Instance busier_total : Total busier.
Proof.
  intros a b. unfold busier. destruct (Z.lt_trichotomy (traffic a) (traffic b)) as [?|[E|?]]; [right; by left| |left; by left].
  destruct (lex_total (place (cs_coordinate a)) (place (cs_coordinate b))) as [?|[Ep|?]]; [left|left|right]; right; (split; [done|]); [by apply lex_lt_le|rewrite Ep; apply lex_le_refl|by apply lex_lt_le].
Qed.

#[local] Opaque claimed_slots.

(** C32: However calls that charge reads and writes to coordinates interleave, with relaxed loads that miss a claim
    included, once they have finished the report has one cell for a coordinate, each with exactly the number and the
    bytes of the reads and writes charged to it; the overflow counters count exactly the calls at the coordinates that
    have no cell, so nothing is counted twice or lost; and the busiest cell comes first. *)
Theorem cells_attribution_exact st : rtc cells_step cells_start st -> Forall finished (cl_calls st) ->
  let r := cell_stats (cl_table st) in
  let cells := map cs_coordinate (ca_cells r) in
  let calls := cl_calls st in
  NoDup cells /\ ca_tracked r = Z.of_nat (length cells) /\ ca_tracked r <= ca_capacity r /\ StronglySorted busier (ca_cells r) /\
  (forall s, s ∈ ca_cells r -> s = MkCell (cs_coordinate s) (charged false false (cs_coordinate s) calls mod 2 ^ 64) (charged true false (cs_coordinate s) calls mod 2 ^ 64)
     (charged false true (cs_coordinate s) calls mod 2 ^ 64) (charged true true (cs_coordinate s) calls mod 2 ^ 64)) /\
  ca_overflow_reads r = left_out false cells calls mod 2 ^ 64 /\ ca_overflow_writes r = left_out true cells calls mod 2 ^ 64 /\
  ca_unattributed_writes r = Z.of_nat (cl_unattributed st) mod 2 ^ 64.
Proof.
  intros Hrun Hfin r cells calls. pose proof (cells_steps_ok _ _ Hrun cells_start_ok) as Hok. destruct st as [t cs n]. cbn [cl_table cl_calls cl_unattributed] in *.
  assert (Hr : ca_cells r = merge_sort busier (claimed_slots t) /\ ca_tracked r = Z.of_nat (length (ca_cells r)) /\ ca_capacity r = Z.of_nat CELL_SLOTS /\
    ca_overflow_reads r = overflow t false /\ ca_overflow_writes r = overflow t true /\ ca_unattributed_writes r = ct_unattributed_writes t).
  { unfold r, cell_stats. cbn [ca_cells ca_tracked ca_capacity ca_overflow_reads ca_overflow_writes ca_unattributed_writes]. by split_and!. }
  clearbody r. destruct Hr as (Hs & Et & Ecap & -> & -> & ->). assert (Hp : ca_cells r ≡ₚ claimed_slots t) by (rewrite Hs; apply merge_sort_Permutation).
  assert (Hin : forall s, s ∈ ca_cells r -> exists j, (j < CELL_SLOTS)%nat /\ cell_at t j = Some s) by (intros s Hx; rewrite Hp in Hx; by apply elem_slots).
  assert (Hocc : forall c, is_coordinate c -> c ∈ cells <-> occupied t c).
  { intros c Hc. unfold cells. rewrite list_elem_of_fmap. split.
    - intros (s & -> & (j & Hj & E)%Hin). destruct (cell_at_some t cs n Hok Hfin j s Hj E) as (c' & _ & Hk & ->). by exists j.
    - intros [j Hj]. destruct (cell_at_key t cs n Hok j c Hc Hj) as (s & E & Es & Hlt). exists s. split; [done|]. rewrite Hp, elem_slots. by exists j. }
  split_and!.
  - unfold cells. rewrite Hp. by apply (slots_nodup t cs n).
  - unfold cells. by rewrite length_map.
  - rewrite Ecap, Et, (Permutation_length Hp). pose proof (length_claimed t). lia.
  - rewrite Hs. apply StronglySorted_merge_sort; apply _.
  - intros s (j & Hj & E)%Hin. by destruct (cell_at_some t cs n Hok Hfin j s Hj E) as (c & _ & _ & ->).
  - by apply (overflow_counts t cs n Hok Hfin false).
  - by apply (overflow_counts t cs n Hok Hfin true).
  - apply (co_unattributed _ Hok).
Qed.

#[local] Transparent claimed_slots.

(** A call makes a bounded number of accesses of its own, whatever the others do. *)
Definition accesses_left (pc : charge_pc) : nat :=
  match pc with Load _ more => 2 * more + 3 | Claim _ more => 2 * more + 2 | Count _ => 2 | Bytes _ => 1 | Overflow => 1 | Done _ => 0 end.

Lemma charge_step_decreases c t t' pc : charge_step c t = Some (t', pc) -> (0 < match ch_pc c with Claim _ more => more | _ => 1 end)%nat ->
  (accesses_left pc < accesses_left (ch_pc c))%nat.
Proof.
  unfold charge_step. destruct (ch_pc c) as [index [|more]|index more| | | |]; intros Hs Hm; [| |destruct (ct_keys t !!! index =? 0)|..|done]; apply some_pair in Hs as [_ <-];
    repeat case_match; cbn in *; lia.
Qed.

(** ** A schedule *)

(** The calls move in the order of the schedule; a call that is finished, or none, is passed over. *)
Fixpoint run_schedule (schedule : list nat) (st : cells_state) : cells_state :=
  match schedule with
  | [] => st
  | i :: schedule =>
      match cl_calls st !! i with
      | Some c => match charge_step c (cl_table st) with
                  | Some (t, pc) => run_schedule schedule (MkCellsState t (<[i := at_pc c pc]> (cl_calls st)) (cl_unattributed st))
                  | None => run_schedule schedule st
                  end
      | None => run_schedule schedule st
      end
  end.

Lemma schedule_steps schedule st : rtc cells_step st (run_schedule schedule st).
Proof.
  revert st. induction schedule as [|i schedule IH]; intros [t calls n]; cbn [run_schedule cl_calls cl_table cl_unattributed]; [done|]. destruct (calls !! i) as [c|] eqn:Hi; [|done].
  destruct (charge_step c t) as [[t' pc]|] eqn:E; [|done]. eapply rtc_l; [by eapply cells_move|done].
Qed.

Lemma calls_steps cs t calls n : Forall (fun x : bool * Coordinate * Z => is_coordinate x.1.2 /\ 0 <= x.2) cs ->
  rtc cells_step (MkCellsState t calls n) (MkCellsState t (calls ++ map (fun x => charge_new x.1.1 x.1.2 x.2) cs) n).
Proof.
  revert calls. induction cs as [|[[w co] b] cs IH]; intros calls Hcs; cbn [map]; [by rewrite app_nil_r|]. apply Forall_cons_1 in Hcs as [[Hco Hb] Hcs].
  eapply rtc_l; [by apply (cells_call _ _ _ w co b)|]. pose proof (IH (calls ++ [charge_new w co b]) Hcs) as H. rewrite <- app_assoc in H. exact H.
Qed.

(** ** A call alone is the sequential function *)

(** Steps of one call with nothing between them. *)
Inductive alone : CellTable -> charge -> CellTable -> charge -> Prop :=
| alone_end t c : alone t c t c
| alone_step t c t1 pc t2 c2 : charge_step c t = Some (t1, pc) -> alone t1 (at_pc c pc) t2 c2 -> alone t c t2 c2.

Lemma alone_slot t c index more : ch_pc c = Load index more -> keys_ok (ct_keys t) -> (index < CELL_SLOTS)%nat -> cell_key (ch_coordinate c) <> 0 ->
  alone t c (set_keys t (slot_from (ch_key c) (ct_keys t) index more).1) (at_pc c match (slot_from (ch_key c) (ct_keys t) index more).2 with Some j => Count j | None => Overflow end).
Proof.
  revert c index. induction more as [|more IH]; intros c index Hpc Hk Hi Hne.
  - eapply alone_step; [unfold charge_step; rewrite Hpc; reflexivity|]. cbn. replace (set_keys t (ct_keys t)) with t by by destruct t. constructor.
  - eapply alone_step; [unfold charge_step; rewrite Hpc; reflexivity|]. cbn [slot_from]. destruct (Z.eqb_spec (ct_keys t !!! index) (ch_key c)) as [E|E].
    { cbn. replace (set_keys t (ct_keys t)) with t by by destruct t. constructor. }
    destruct (Z.eqb_spec (ct_keys t !!! index) 0) as [E0|E0].
    + eapply alone_step; [unfold charge_step; cbn [ch_pc at_pc]; destruct (Z.eqb_spec (ct_keys t !!! index) 0); [reflexivity|done]|]. constructor.
    + refine (IH (at_pc c (Load (next_slot index) more)) (next_slot index) eq_refl Hk _ Hne). unfold next_slot. by apply Nat.mod_upper_bound.
Qed.

Lemma alone_trans t c t1 c1 t2 c2 : alone t c t1 c1 -> alone t1 c1 t2 c2 -> alone t c t2 c2.
Proof. induction 1 as [|? ? ? ? ? ? Hs _ IH]; intros H; [done|]. eapply alone_step; [exact Hs|by apply IH]. Qed.

(** [record_read] and [record_write] of one thread. *)
Lemma record_cell_alone t w co b : keys_ok (ct_keys t) -> is_coordinate co -> exists c, alone t (charge_new w co b) (record_cell w co b t) c /\ finished c.
Proof.
  intros Hk Hco. pose proof (alone_slot t (charge_new w co b) (home_slot (cell_key co)) CELL_PROBES eq_refl Hk ltac:(rewrite probe_home; apply probe_lt) (cell_key_nonzero co Hco)) as Hs.
  unfold record_cell, slot. change (ch_key (charge_new w co b)) with (cell_key co) in Hs. destruct (slot_from (cell_key co) (ct_keys t) (home_slot (cell_key co)) CELL_PROBES) as [keys [j|]]; cbn [fst snd] in Hs.
  - eexists. split; [eapply alone_trans; [exact Hs|]; eapply alone_step; [reflexivity|]; eapply alone_step; [reflexivity|]; apply alone_end|by eexists].
  - eexists. split; [eapply alone_trans; [exact Hs|]; eapply alone_step; [reflexivity|]; apply alone_end|by eexists].
Qed.

Lemma finished_list calls claimed_slots : map ch_pc calls = map Done claimed_slots -> Forall finished calls.
Proof. revert claimed_slots. induction calls as [|c calls IH]; intros [|o claimed_slots] E; [constructor|discriminate|discriminate|]. cbn in E. injection E as E1 E2. constructor; [by exists o|by eapply IH]. Qed.

(** Three calls at two coordinates, the first two racing for a slot. *)
Definition here_cell : Coordinate := {| coord_x := 1; coord_y := 2; coord_z := 3; coord_q := 4 |}.
Definition there_cell : Coordinate := {| coord_x := 9; coord_y := 9; coord_z := 9; coord_q := 9 |}.

Definition race : cells_state :=
  run_schedule [0; 1; 0; 1; 2; 0; 1; 2; 2; 1; 0; 2]%nat
    (MkCellsState cells_new [charge_new false here_cell 100; charge_new false here_cell 50; charge_new true there_cell 7] 0).

Lemma cells_attribution_exact_witness :
  Forall finished (cl_calls race) /\ NoDup (map cs_coordinate (ca_cells (cell_stats (cl_table race)))) /\
  ca_cells (cell_stats (cl_table race)) = [MkCell here_cell 2 0 150 0; MkCell there_cell 0 1 0 7] /\ ca_overflow_reads (cell_stats (cl_table race)) = 0.
Proof.
  assert (Hfin : Forall finished (cl_calls race)).
  { apply (finished_list _ [Some 137; Some 137; Some 15]%nat). vm_compute. reflexivity. }
  assert (Hrun : rtc cells_step cells_start race).
  { etrans; [|apply schedule_steps]. apply (calls_steps [(false, here_cell, 100); (false, here_cell, 50); (true, there_cell, 7)] cells_new [] 0).
    repeat constructor; unfold is_byte; cbn; lia. }
  destruct (cells_attribution_exact race Hrun Hfin) as (H1 & _). split_and!; [exact Hfin|exact H1|vm_compute; reflexivity|vm_compute; reflexivity].
Defined.
