(* ===== verification/Wal.v ===== *)
(** * The write-ahead log ([src/src/storage/wal.rs])

    A log file is text: one hexadecimal frame per line, a frame being magic,
    version, length, checksum and an encrypted record.  The reader classifies
    every line as durable, torn or corrupt.  The theorems: the file implements
    a list of records under appends, crashes in the middle of an append,
    repairs and rotations; a torn frame is recognised as such at every cut; and
    a repaired log accepts appends again. *)

From Stdlib Require Import ZArith Lia Ascii String.
From stdpp Require Import base tactics list strings option.
From S2P Require Import Prelude Utf8 Keys Json OrderKey Search Entities Crypto Binary.

(** ** Records *)

Inductive WalOperation :=
| WBegin
| WCommit
| WAbort
| WArchive (e : HistoryEntry)
| WInsert (n : Node)
| WDelete (address : string)
| WInsertEdge (e : Edge)
| WDeleteEdge (id : EdgeId)
| WInsertUser (u : UserRecord)
| WRevokeUser (token_hash : string)
| WCreateIndex (d : IndexDef)
| WDropIndex (name : string)
| WCreateReference (d : ReferenceDef)
| WDropReference (name : string)
| WCreateTextIndex (d : TextIndexDef)
| WDropTextIndex (name : string)
| WCreateFoldedTextIndex (d : TextIndexDef).

#[export] Instance wal_operation_eq_dec : EqDecision WalOperation.
Proof. solve_decision. Defined.

Definition WAL_FORMAT_VERSION : Z := 3.
Definition STANDALONE_TRANSACTION_ID : Z := 0.
Definition WAL_FRAME_MAGIC : list Z := [70; 81; 87; 49]%Z.
Definition WAL_FRAME_VERSION : Z := 1.
Definition WAL_FRAME_HEADER_LEN : nat := 14.
Definition MAX_WAL_PAYLOAD_LEN : Z := 64 * 1024 * 1024.

Record WalRecord := MkWal {
  w_format_version : Z;
  w_sequence : Z;
  w_transaction_id : Z;
  w_operation_id : Z;
  w_operation : WalOperation;
}.

#[export] Instance wal_record_eq_dec : EqDecision WalRecord.
Proof. solve_decision. Defined.

Definition record_new (sequence transaction_id operation_id : Z) (operation : WalOperation) : WalRecord :=
  MkWal WAL_FORMAT_VERSION sequence transaction_id operation_id operation.

(** ** Identifiers: the three process-wide counters *)

Record counters := MkCounters { next_sequence : Z; next_transaction_id : Z; next_operation_id : Z }.

(** [fetch_add] wraps. *)
Definition bump (z : Z) : Z := ((z + 1) mod 2 ^ 64)%Z.

Definition take_sequence (c : counters) : Z * counters :=
  (next_sequence c, MkCounters (bump (next_sequence c)) (next_transaction_id c) (next_operation_id c)).
Definition take_operation_id (c : counters) : Z * counters :=
  (next_operation_id c, MkCounters (next_sequence c) (next_transaction_id c) (bump (next_operation_id c))).
Definition take_transaction_id (c : counters) : Z * counters :=
  (next_transaction_id c, MkCounters (next_sequence c) (bump (next_transaction_id c)) (next_operation_id c)).

(** [advance_counter]: the compare-exchange loop leaves the larger of the two. *)
Definition advance_counter (counter observed_max : Z) : Z :=
  let desired := Z.min (observed_max + 1) (2 ^ 64 - 1) in
  if (counter <? desired)%Z then desired else counter.

Definition initialize_counters (c : counters) (max_sequence max_transaction_id max_operation_id : Z) : counters :=
  MkCounters (advance_counter (next_sequence c) max_sequence)
             (advance_counter (next_transaction_id c) max_transaction_id)
             (advance_counter (next_operation_id c) max_operation_id).

(** A control record of a transaction, and what [begin], [commit] and [abort] refuse. *)
Definition control_record (c : counters) (transaction_id : Z) (op : WalOperation) : result error_kind (WalRecord * counters) :=
  if (transaction_id =? STANDALONE_TRANSACTION_ID)%Z then Err InvalidInput
  else
    let (sequence, c) := take_sequence c in
    let (operation_id, c) := take_operation_id c in
    Ok (record_new sequence transaction_id operation_id op, c).

(** ** Frames *)

Inductive wal_outcome :=
| Durable (r : WalRecord)
| Torn
| Corrupt
| HexPanics.

Section wal.
Context `{Aead} `{!Bincode WalRecord}.

(** The nonce is the one [encrypt] draws. *)
Definition wal_encode_frame (nonce : list Z) (r : WalRecord) : result error_kind (list Z) :=
  match bincode_serialize r with
  | None => Err InvalidData
  | Some b =>
      let payload := encrypt nonce b in
      if (MAX_WAL_PAYLOAD_LEN <? Z.of_nat (length payload))%Z then Err InvalidData
      else if (2 ^ 32 <=? Z.of_nat (length payload))%Z then Err InvalidData
      else Ok (encode_hex (WAL_FRAME_MAGIC ++ le_bytes 2 WAL_FRAME_VERSION
                           ++ le_bytes 4 (Z.of_nat (length payload)) ++ le_bytes 4 (crc32 payload) ++ payload))
  end.

Definition wal_decode_frame (line : list Z) : wal_outcome :=
  match decode_hex line with
  | HexErr => Torn
  | HexPanic => HexPanics
  | HexOk raw =>
      if length raw <? WAL_FRAME_HEADER_LEN then Torn
      else if negb (bool_decide (slice raw 0 4 = WAL_FRAME_MAGIC)) then Corrupt
      else if negb (le_val (slice raw 4 6) =? WAL_FRAME_VERSION)%Z then Corrupt
      else
        let payload_len := le_val (slice raw 6 10) in
        if (MAX_WAL_PAYLOAD_LEN <? payload_len)%Z then Corrupt
        else
          let declared_crc := le_val (slice raw 10 14) in
          let available := Z.of_nat (length raw - WAL_FRAME_HEADER_LEN) in
          if (available <? payload_len)%Z then Torn
          else if (payload_len <? available)%Z then Corrupt
          else
            let payload := drop WAL_FRAME_HEADER_LEN raw in
            if negb (crc32 payload =? declared_crc)%Z then Corrupt
            else match decrypt payload with
            | None => Corrupt
            | Some plaintext =>
                match bincode_deserialize plaintext with
                | None => Corrupt
                | Some r =>
                    if negb (w_format_version r =? WAL_FORMAT_VERSION)%Z then Corrupt
                    else if (w_sequence r =? 0)%Z then Corrupt
                    else if (w_operation_id r =? 0)%Z then Corrupt
                    else Durable r
                end
            end
  end.

(** ** The file *)

(** [wal_handle] is the cached [WalHandle], by its [needs_separator]. *)
Record wal_file := MkWalFile { wal_bytes : list Z; wal_handle : option bool }.

Definition NEWLINE : Z := 10.

(** [WalHandle::open] *)
Definition handle_open (file : list Z) : bool :=
  match list.last file with Some b => negb (b =? NEWLINE)%Z | None => false end.

(** What [write_line] writes, in one call. *)
Definition line_bytes (needs_separator : bool) (encoded : list Z) : list Z :=
  (if needs_separator then [NEWLINE] else []) ++ encoded ++ [NEWLINE].

Definition separator_of (st : wal_file) : bool := default (handle_open (wal_bytes st)) (wal_handle st).

Definition wal_append (st : wal_file) (nonce : list Z) (r : WalRecord) : result error_kind wal_file :=
  encoded ← wal_encode_frame nonce r;
  Ok (MkWalFile (wal_bytes st ++ line_bytes (separator_of st) encoded) (Some false)).

(** The same call when [write_all] fails after [k] bytes: the handle stays cached, its flag unchanged. *)
Definition wal_append_failed (st : wal_file) (nonce : list Z) (r : WalRecord) (k : nat) : result error_kind wal_file :=
  encoded ← wal_encode_frame nonce r;
  Ok (MkWalFile (wal_bytes st ++ take k (line_bytes (separator_of st) encoded)) (Some (separator_of st))).

(** [bytes.split(|&b| b == b'\n')] *)
Fixpoint split_lines (l : list Z) : list (list Z) :=
  match l with
  | [] => [[]]
  | b :: l =>
      if (b =? NEWLINE)%Z then [] :: split_lines l
      else match split_lines l with
           | [] => [[b]]
           | s :: rest => (b :: s) :: rest
           end
  end.

Inductive wal_tail := TailClean | TailTorn (durable_len : nat).

Inductive read_error := Refused | Panicked.

(** The loop of [read_all] over the lines, with the offset of the current one and the torn frame held so far. *)
Fixpoint read_lines (segments : list (list Z)) (offset : nat) (records : list WalRecord) (torn : option nat)
    : result read_error (list WalRecord * wal_tail) :=
  match segments with
  | [] => Ok (records, match torn with Some n => TailTorn n | None => TailClean end)
  | segment :: rest =>
      let next := offset + length segment + match rest with [] => 0 | _ => 1 end in
      match from_utf8 segment with
      | None => Err Refused
      | Some text =>
          let text := trim text in
          if bool_decide (text = []) then read_lines rest next records torn
          else match torn with
          | Some _ => Err Refused
          | None =>
              match wal_decode_frame text with
              | Durable r => read_lines rest next (records ++ [r]) None
              | Torn => read_lines rest next records (Some offset)
              | Corrupt => Err Refused
              | HexPanics => Err Panicked
              end
          end
      end
  end.

(** A missing file reads as no records. *)
Definition wal_read_all (file : option (list Z)) : result read_error (list WalRecord * wal_tail) :=
  match file with
  | None => Ok ([], TailClean)
  | Some file => read_lines (split_lines file) 0 [] None
  end.

Definition truncate_torn_tail (st : wal_file) (durable_len : nat) : wal_file :=
  MkWalFile (take durable_len (wal_bytes st)) None.

(** The body a rotation writes; [nonces] are the ones [encrypt] draws, in order. *)
Fixpoint rotate_body (nonces : nat -> list Z) (i : nat) (kept : list WalRecord) : result error_kind (list Z) :=
  match kept with
  | [] => Ok []
  | r :: kept =>
      line ← wal_encode_frame (nonces i) r;
      rest ← rotate_body nonces (S i) kept;
      Ok (line ++ [NEWLINE] ++ rest)
  end.

Definition wal_rotate (st : wal_file) (nonces : nat -> list Z) (durable_checkpoint : Z) : result error_kind wal_file :=
  match wal_read_all (Some (wal_bytes st)) with
  | Err _ => Err InvalidData
  | Ok (_, TailTorn _) => Err InvalidData
  | Ok (records, TailClean) =>
      let kept := filter (fun r => durable_checkpoint < w_sequence r)%Z records in
      if length kept =? length records then Ok st
      else body ← rotate_body nonces 0 kept; Ok (MkWalFile body None)
  end.

(** ** One frame *)

Definition nonce_ok (nonce : list Z) : Prop := length nonce = NONCE_LEN /\ bytes nonce.

(** What the reader demands of a record. *)
Definition record_ok (r : WalRecord) : Prop :=
  w_format_version r = WAL_FORMAT_VERSION /\ w_sequence r <> 0%Z /\ w_operation_id r <> 0%Z.

Definition raw_frame (payload : list Z) : list Z :=
  WAL_FRAME_MAGIC ++ le_bytes 2 WAL_FRAME_VERSION ++ le_bytes 4 (Z.of_nat (length payload))
  ++ le_bytes 4 (crc32 payload) ++ payload.

Lemma length_raw_frame payload : length (raw_frame payload) = WAL_FRAME_HEADER_LEN + length payload.
Proof. unfold raw_frame. autorewrite with fqlen. cbn. lia. Qed.

Lemma raw_frame_bytes payload : bytes payload -> bytes (raw_frame payload).
Proof. intros. unfold raw_frame, WAL_FRAME_MAGIC. repeat apply Forall_app_2; auto with fq. solve_bytes. Qed.

(** The header of a frame, also when it is read off a cut that contains it. *)
Lemma raw_frame_header payload n :
  (Z.of_nat (length payload) <= MAX_WAL_PAYLOAD_LEN)%Z -> bytes payload -> WAL_FRAME_HEADER_LEN <= n ->
  slice (take n (raw_frame payload)) 0 4 = WAL_FRAME_MAGIC /\
  le_val (slice (take n (raw_frame payload)) 4 6) = WAL_FRAME_VERSION /\
  le_val (slice (take n (raw_frame payload)) 6 10) = Z.of_nat (length payload) /\
  le_val (slice (take n (raw_frame payload)) 10 14) = crc32 payload.
Proof.
  unfold MAX_WAL_PAYLOAD_LEN, WAL_FRAME_HEADER_LEN. intros Hlen Hb Hn.
  assert (forall i j, j <= 14 -> slice (take n (raw_frame payload)) i j = slice (raw_frame payload) i j) as Hs.
  { intros i j Hj. rewrite <- (take_drop n (raw_frame payload)) at 2. symmetry. apply slice_app_l.
    rewrite length_take, length_raw_frame. unfold WAL_FRAME_HEADER_LEN. lia. }
  rewrite !Hs by lia. clear Hs. pose proof (crc32_u32 payload Hb).
  split; [reflexivity|]. split; [reflexivity|].
  assert (slice (raw_frame payload) 6 10 = le_bytes 4 (Z.of_nat (length payload))) as -> by reflexivity.
  assert (slice (raw_frame payload) 10 14 = le_bytes 4 (crc32 payload)) as -> by reflexivity.
  rewrite !le_val_le_bytes_small by (change (256 ^ Z.of_nat 4)%Z with 4294967296%Z; lia). done.
Qed.

Lemma wal_encode_inv nonce r line :
  nonce_ok nonce -> wal_encode_frame nonce r = Ok line ->
  exists b, bincode_serialize r = Some b /\ bytes (encrypt nonce b) /\
    (Z.of_nat (length (encrypt nonce b)) <= MAX_WAL_PAYLOAD_LEN)%Z /\ line = encode_hex (raw_frame (encrypt nonce b)).
Proof.
  intros [Hn Hb] He. unfold wal_encode_frame in He. destruct (bincode_serialize r) as [b|] eqn:Es; [|done].
  exists b. cbn zeta in He. repeat case_hyp He; try done. breflect. injection He as <-.
  split; [done|]. split; [|split; [lia|done]]. apply encrypt_bytes; [done|]. by eapply bincode_bytes.
Qed.

Lemma wal_decode_encode nonce r line :
  nonce_ok nonce -> record_ok r -> wal_encode_frame nonce r = Ok line -> wal_decode_frame line = Durable r.
Proof.
  intros Hn (Hv & Hs & Ho) He. destruct (wal_encode_inv _ _ _ Hn He) as (b & Hser & Hb & Hl & ->).
  set (payload := encrypt nonce b) in *. unfold wal_decode_frame. rewrite decode_hex_encode_hex by (by apply raw_frame_bytes).
  pose proof (raw_frame_header payload (length (raw_frame payload)) Hl Hb) as Hh. rewrite take_ge in Hh by lia.
  rewrite length_raw_frame in *. destruct Hh as (-> & -> & -> & ->); [lia|]. rewrite bool_decide_eq_true_2 by done.
  cbn [negb]. rewrite Z.eqb_refl. cbn [negb].
  destruct (Nat.ltb_spec (WAL_FRAME_HEADER_LEN + length payload) WAL_FRAME_HEADER_LEN); [lia|].
  destruct (Z.ltb_spec MAX_WAL_PAYLOAD_LEN (Z.of_nat (length payload))); [lia|].
  replace (WAL_FRAME_HEADER_LEN + length payload - WAL_FRAME_HEADER_LEN) with (length payload) by lia.
  rewrite Z.ltb_irrefl. assert (drop WAL_FRAME_HEADER_LEN (raw_frame payload) = payload) as -> by reflexivity.
  rewrite Z.eqb_refl. cbn [negb]. subst payload. rewrite decrypt_encrypt by apply Hn.
  rewrite (bincode_roundtrip _ _ Hser), Hv, Z.eqb_refl. cbn [negb].
  apply Z.eqb_neq in Hs as ->. by apply Z.eqb_neq in Ho as ->.
Qed.

(** A frame cut anywhere short of its end is torn. *)
Lemma wal_decode_torn nonce r line k :
  nonce_ok nonce -> wal_encode_frame nonce r = Ok line -> k < length line -> wal_decode_frame (take k line) = Torn.
Proof.
  intros Hn He Hk. destruct (wal_encode_inv _ _ _ Hn He) as (b & _ & Hb & Hl & ->).
  set (payload := encrypt nonce b) in *. unfold wal_decode_frame. rewrite decode_hex_take by (by apply raw_frame_bytes).
  rewrite length_encode_hex in Hk. destruct (Nat.odd _); [done|].
  assert (Nat.div2 k < length (raw_frame payload)) as Hd.
  { rewrite Nat.div2_div. apply Nat.Div0.div_lt_upper_bound. lia. }
  rewrite length_take, Nat.min_l by lia. destruct (Nat.ltb_spec (Nat.div2 k) WAL_FRAME_HEADER_LEN); [done|].
  destruct (raw_frame_header payload (Nat.div2 k) Hl Hb) as (-> & -> & -> & _); [lia|].
  rewrite bool_decide_eq_true_2 by done. cbn [negb]. rewrite Z.eqb_refl. cbn [negb].
  destruct (Z.ltb_spec MAX_WAL_PAYLOAD_LEN (Z.of_nat (length payload))); [lia|].
  rewrite length_raw_frame in Hd. by destruct (Z.ltb_spec (Z.of_nat (Nat.div2 k - WAL_FRAME_HEADER_LEN)) (Z.of_nat (length payload))); [|lia].
Qed.

(** ** The file as a list of records *)

Definition join (lines : list (list Z)) : list Z := flat_map (fun l => l ++ [NEWLINE]) lines.
Abbreviation no_newline := (Forall (fun b : Z => b <> NEWLINE)).

Lemma join_cons l ls : join (l :: ls) = l ++ NEWLINE :: join ls.
Proof. unfold join. cbn [flat_map]. by rewrite <- app_assoc. Qed.

Lemma length_join_cons l ls : length (join (l :: ls)) = length l + 1 + length (join ls).
Proof. rewrite join_cons, length_app. cbn [length]. lia. Qed.

Lemma join_app ls ls' : join (ls ++ ls') = join ls ++ join ls'.
Proof. apply flat_map_app. Qed.

Lemma split_lines_line l rest : no_newline l -> split_lines (l ++ NEWLINE :: rest) = l :: split_lines rest.
Proof.
  induction 1 as [|b l Hb _ IH]; [done|]. cbn [app split_lines].
  destruct (Z.eqb_spec b NEWLINE); [done|]. by rewrite IH.
Qed.

Lemma split_lines_last l : no_newline l -> split_lines l = [l].
Proof.
  induction 1 as [|b l Hb _ IH]; [done|]. cbn [split_lines]. destruct (Z.eqb_spec b NEWLINE); [done|]. by rewrite IH.
Qed.

Lemma split_lines_join lines tail :
  Forall no_newline lines -> no_newline tail -> split_lines (join lines ++ tail) = lines ++ [tail].
Proof.
  intros Hl Ht. induction Hl as [|l lines Hl _ IH]; [by apply split_lines_last|].
  rewrite join_cons, <- app_assoc. cbn [app]. rewrite split_lines_line by done. f_equal. apply IH.
Qed.

(** A line holds a record. *)
Definition line_of (l : list Z) (r : WalRecord) : Prop :=
  exists nonce, nonce_ok nonce /\ record_ok r /\ wal_encode_frame nonce r = Ok l.

Lemma hex_line nonce r l : nonce_ok nonce -> wal_encode_frame nonce r = Ok l -> Forall is_hex_digit l /\ 0 < length l.
Proof.
  intros Hn (b & _ & Hb & _ & ->)%wal_encode_inv; [|done]. split; [by apply encode_hex_digits, raw_frame_bytes|].
  rewrite length_encode_hex, length_raw_frame. unfold WAL_FRAME_HEADER_LEN. lia.
Qed.

Lemma hex_no_newline l : Forall is_hex_digit l -> no_newline l.
Proof. induction 1 as [|c l Hc _ IH]; constructor; [|done]. unfold is_hex_digit, NEWLINE in *. lia. Qed.

Lemma hex_utf8 l : Forall is_hex_digit l -> from_utf8 l = Some l.
Proof. intros Hl. apply from_utf8_ascii. induction Hl; constructor; [unfold is_hex_digit in *; lia|done]. Qed.

Inductive holds : list (list Z) -> list WalRecord -> Prop :=
| holds_nil : holds [] []
| holds_blank ls rs : holds ls rs -> holds ([] :: ls) rs
| holds_line l r ls rs : line_of l r -> holds ls rs -> holds (l :: ls) (r :: rs).

Lemma holds_app ls rs ls' rs' : holds ls rs -> holds ls' rs' -> holds (ls ++ ls') (rs ++ rs').
Proof. induction 1; cbn; [done|by constructor; auto|constructor; auto]. Qed.

Lemma line_of_hex l r : line_of l r -> Forall is_hex_digit l /\ 0 < length l.
Proof. intros (nonce & Hn & _ & He). by eapply hex_line. Qed.

Lemma holds_no_newline ls rs : holds ls rs -> Forall no_newline ls.
Proof.
  induction 1 as [|ls rs _ IH|l r ls rs Hl _ IH]; repeat constructor; auto.
  apply line_of_hex in Hl as [Hl _]. by apply hex_no_newline.
Qed.

(** The reader steps over a non-blank hexadecimal line by decoding it. *)
Lemma read_lines_hex l rest offset acc :
  Forall is_hex_digit l -> 0 < length l ->
  read_lines (l :: rest) offset acc None =
  let next := offset + length l + match rest with [] => 0 | _ => 1 end in
  match wal_decode_frame l with
  | Durable r => read_lines rest next (acc ++ [r]) None
  | Torn => read_lines rest next acc (Some offset)
  | Corrupt => Err Refused
  | HexPanics => Err Panicked
  end.
Proof.
  intros Hh Hl. cbn [read_lines]. rewrite hex_utf8, trim_hex by done.
  rewrite bool_decide_eq_false_2; [done|]. by intros ->; cbn in Hl; lia.
Qed.

Lemma read_lines_blank rest offset acc torn :
  read_lines ([] :: rest) offset acc torn = read_lines rest (offset + match rest with [] => 0 | _ => 1 end) acc torn.
Proof. cbn [read_lines length]. by rewrite Nat.add_0_r. Qed.

Lemma line_of_decode l r : line_of l r -> wal_decode_frame l = Durable r.
Proof. intros (nonce & Hn & Hr & He). by eapply wal_decode_encode. Qed.

Lemma read_lines_holds ls rs tail offset acc :
  holds ls rs -> read_lines (ls ++ [tail]) offset acc None = read_lines [tail] (offset + length (join ls)) (acc ++ rs) None.
Proof.
  intros Hh. revert offset acc. induction Hh as [|ls rs Hh IH|l r ls rs Hl Hh IH]; intros offset acc.
  - cbn [app]. by rewrite Nat.add_0_r, app_nil_r.
  - rewrite length_join_cons. cbn [app]. rewrite read_lines_blank. destruct (ls ++ [tail]) as [|x y] eqn:E; [by destruct ls|].
    rewrite IH. f_equal. cbn [length]. lia.
  - rewrite length_join_cons. cbn [app]. destruct (line_of_hex _ _ Hl) as [Hx Hlen].
    rewrite read_lines_hex, (line_of_decode _ _ Hl) by done. cbn zeta.
    destruct (ls ++ [tail]) as [|x y] eqn:E; [by destruct ls|]. rewrite IH, <- app_assoc. f_equal. lia.
Qed.

(** The file holds the records: whole lines, the last of which may lack its newline. *)
Definition rep (file : list Z) (rs : list WalRecord) : Prop :=
  exists ls tail, file = join ls ++ tail /\
    (tail = [] /\ holds ls rs \/ exists r rs0, line_of tail r /\ holds ls rs0 /\ rs = rs0 ++ [r]).

Lemma rep_read file rs : rep file rs -> wal_read_all (Some file) = Ok (rs, TailClean).
Proof.
  intros (ls & tail & -> & [[-> Hh]|(r & rs0 & Hl & Hh & ->)]); unfold wal_read_all.
  - rewrite split_lines_join by (try done; by eapply holds_no_newline).
    rewrite (read_lines_holds _ _ _ _ _ Hh), read_lines_blank. done.
  - destruct (line_of_hex _ _ Hl) as [Hx Hlen].
    rewrite split_lines_join by (try (by apply hex_no_newline); by eapply holds_no_newline).
    rewrite (read_lines_holds _ _ _ _ _ Hh), read_lines_hex, (line_of_decode _ _ Hl) by done. done.
Qed.

Lemma last_join ls : handle_open (join ls) = false.
Proof.
  unfold handle_open. destruct ls as [|l ls] using rev_ind; [done|].
  rewrite join_app, join_cons. cbn [join flat_map]. rewrite app_assoc, last_snoc. done.
Qed.

(** After the separator the file ends on a line boundary. *)
Lemma rep_base file rs :
  rep file rs -> exists ls, file ++ (if handle_open file then [NEWLINE] else []) = join ls /\ holds ls rs.
Proof.
  intros (ls & tail & -> & [[-> Hh]|(r & rs0 & Hl & Hh & ->)]).
  - rewrite !app_nil_r, last_join, app_nil_r. eauto.
  - exists (ls ++ [tail]). destruct (line_of_hex _ _ Hl) as [Hx Hlen].
    assert (handle_open (join ls ++ tail) = true) as ->.
    { unfold handle_open. destruct tail as [|c tail] using rev_ind; [cbn in Hlen; lia|]. rewrite app_assoc, last_snoc.
      apply Forall_app in Hx as [_ Hc%Forall_inv]. unfold is_hex_digit, NEWLINE in *. destruct (Z.eqb_spec c 10); [lia|done]. }
    rewrite join_app, join_cons. cbn [join flat_map]. rewrite <- app_assoc. split; [done|].
    apply holds_app; [done|]. repeat constructor. done.
Qed.

Lemma rep_join ls rs : holds ls rs -> rep (join ls) rs.
Proof. intros Hh. exists ls, []. rewrite app_nil_r. auto. Qed.

(** The state of a running process. *)
Definition wal_inv (st : wal_file) (rs : list WalRecord) : Prop :=
  rep (wal_bytes st) rs /\ separator_of st = handle_open (wal_bytes st).

Lemma inv_closed file rs : rep file rs -> wal_inv (MkWalFile file None) rs.
Proof. by split. Qed.

(** Every cut of an append. *)
Lemma rep_cut file rs nonce r line k :
  rep file rs -> nonce_ok nonce -> record_ok r -> wal_encode_frame nonce r = Ok line ->
  let cut := file ++ take k (line_bytes (handle_open file) line) in
  rep cut rs \/ rep cut (rs ++ [r]) \/
  exists n, wal_read_all (Some cut) = Ok (rs, TailTorn n) /\ rep (take n cut) rs.
Proof.
  intros Hrep Hn Hr He cut. destruct (rep_base file rs Hrep) as (ls & Hj & Hh).
  destruct (hex_line _ _ _ Hn He) as [Hx Hlen].
  assert (cut = file \/ exists k', cut = join ls ++ take k' (line ++ [NEWLINE])) as [->|[k' ->]]; [| by left |].
  { subst cut. unfold line_bytes. destruct (handle_open file).
    - destruct k as [|k]; [left; by rewrite app_nil_r|]. right. exists k. rewrite <- Hj, <- app_assoc. done.
    - right. exists k. by rewrite <- Hj, app_nil_r. }
  destruct (decide (length line < k')) as [Hlt|Hle].
  { right; left. rewrite take_ge by (rewrite length_app; cbn; lia). exists (ls ++ [line]), [].
    rewrite join_app, join_cons, app_nil_r. split; [done|]. left. split; [done|]. apply holds_app; [done|].
    repeat constructor. by exists nonce. }
  rewrite take_app_le by lia. destruct (decide (k' = length line)) as [->|Hne].
  { right; left. rewrite take_ge by lia. exists ls, line. split; [done|]. right. exists r, rs. split; [by exists nonce|done]. }
  destruct k' as [|k']; [left; rewrite take_0, app_nil_r; by apply rep_join|].
  right; right. exists (length (join ls)). rewrite take_app_length. split; [|by apply rep_join].
  assert (Forall is_hex_digit (take (S k') line)) as Hx' by (by apply Forall_take).
  unfold wal_read_all. rewrite split_lines_join by (try (by apply hex_no_newline); by eapply holds_no_newline).
  rewrite (read_lines_holds _ _ _ _ _ Hh), read_lines_hex; [|done|rewrite length_take; lia].
  rewrite (wal_decode_torn nonce r) by (done || lia). done.
Qed.

(** Encodability does not depend on the nonce. *)
Lemma encode_other_nonce nonce nonce' r line :
  nonce_ok nonce -> nonce_ok nonce' -> wal_encode_frame nonce r = Ok line -> exists line', wal_encode_frame nonce' r = Ok line'.
Proof.
  intros [Hn _] [Hn' _] He. unfold wal_encode_frame in *. destruct (bincode_serialize r) as [b|]; [|done].
  assert (length (encrypt nonce' b) = length (encrypt nonce b)) as -> by (by rewrite !length_encrypt).
  cbn zeta in *. repeat case_hyp He; try done. eauto.
Qed.

Lemma rotate_body_holds nonces i kept :
  (forall i, nonce_ok (nonces i)) -> Forall (fun r => exists l, line_of l r) kept ->
  exists ls, rotate_body nonces i kept = Ok (join ls) /\ holds ls kept.
Proof.
  intros Hn Hk. revert i. induction Hk as [|r kept [l (nonce & Hno & Hr & He)] _ IH]; intros i.
  - exists []. split; [done|constructor].
  - destruct (encode_other_nonce nonce (nonces i) r l) as [l' He']; [done|done|done|].
    destruct (IH (S i)) as (ls & Hb & Hh). exists (l' :: ls). cbn [rotate_body]. rewrite He'. cbn [mbind result_bind].
    rewrite Hb. cbn [mbind result_bind]. rewrite join_cons. split; [done|]. constructor; [by exists (nonces i)|done].
Qed.

Lemma holds_lines ls rs : holds ls rs -> Forall (fun r => exists l, line_of l r) rs.
Proof. induction 1; eauto using Forall_nil_2, Forall_cons_2. Qed.

Lemma rep_lines file rs : rep file rs -> Forall (fun r => exists l, line_of l r) rs.
Proof.
  intros (ls & tail & _ & [[_ Hh]|(r & rs0 & Hl & Hh & ->)]); [by eapply holds_lines|].
  apply Forall_app_2; [by eapply holds_lines|]. constructor; [by exists tail|constructor].
Qed.

Definition above (checkpoint : Z) (rs : list WalRecord) : list WalRecord :=
  filter (fun r => checkpoint < w_sequence r)%Z rs.

Lemma filter_same_length {A} (P : A -> Prop) `{forall x, Decision (P x)} l : length (filter P l) = length l -> filter P l = l.
Proof.
  induction l as [|x l IH]; [done|]. rewrite filter_cons. pose proof (length_filter P l). case_decide; cbn [length]; [|lia].
  intros [= E]. f_equal. auto.
Qed.

Lemma rotate_inv st rs nonces cp :
  wal_inv st rs -> (forall i, nonce_ok (nonces i)) ->
  exists st', wal_rotate st nonces cp = Ok st' /\ wal_inv st' (above cp rs).
Proof.
  intros [Hrep Hsep] Hn. unfold wal_rotate. rewrite (rep_read _ _ Hrep). fold (above cp rs).
  destruct (Nat.eqb_spec (length (above cp rs)) (length rs)) as [E|_].
  - exists st. split; [done|]. unfold above in *. by rewrite (filter_same_length _ _ E).
  - destruct (rotate_body_holds nonces 0 (above cp rs)) as (ls & -> & Hh); [done| |].
    { unfold above. by eapply Forall_filter, rep_lines. }
    eexists. split; [reflexivity|]. by apply inv_closed, rep_join.
Qed.

Lemma append_inv st rs nonce r st' :
  wal_inv st rs -> nonce_ok nonce -> record_ok r -> wal_append st nonce r = Ok st' -> wal_inv st' (rs ++ [r]).
Proof.
  intros [Hrep Hsep] Hn Hr Ha. unfold wal_append in Ha. apply result_bind_inv in Ha as (line & He & [= <-]).
  destruct (rep_base _ _ Hrep) as (ls & Hj & Hh).
  assert (wal_bytes st ++ line_bytes (separator_of st) line = join (ls ++ [line])) as E.
  { unfold line_bytes. rewrite Hsep, app_assoc, Hj, join_app, join_cons. done. }
  rewrite E. split; cbn [wal_bytes]; [|by rewrite last_join].
  apply rep_join, holds_app; [done|]. repeat constructor. by exists nonce.
Qed.

(** ** Runs: appends, crashes in the middle of an append followed by a restart, rotations *)

Inductive wal_event :=
| EvAppend (nonce : list Z) (r : WalRecord)
| EvCrash (nonce : list Z) (r : WalRecord) (cut : nat)
| EvRotate (nonces : nat -> list Z) (checkpoint : Z).

Definition event_ok (e : wal_event) : Prop :=
  match e with
  | EvAppend nonce r | EvCrash nonce r _ => nonce_ok nonce /\ record_ok r
  | EvRotate nonces _ => forall i, nonce_ok (nonces i)
  end.

(** What a restart does to the file: read it, drop a torn tail, refuse anything worse. *)
Definition reopen (file : list Z) : option wal_file :=
  match wal_read_all (Some file) with
  | Ok (_, TailClean) => Some (MkWalFile file None)
  | Ok (_, TailTorn n) => Some (truncate_torn_tail (MkWalFile file None) n)
  | Err _ => None
  end.

(** A failed call leaves the file as it was; [None] is a startup that is refused. *)
Definition wal_exec (st : wal_file) (e : wal_event) : option wal_file :=
  match e with
  | EvAppend nonce r => Some (match wal_append st nonce r with Ok st' => st' | Err _ => st end)
  | EvCrash nonce r cut =>
      match wal_encode_frame nonce r with
      | Ok line => reopen (wal_bytes st ++ take cut (line_bytes (separator_of st) line))
      | Err _ => reopen (wal_bytes st)
      end
  | EvRotate nonces cp => Some (match wal_rotate st nonces cp with Ok st' => st' | Err _ => st end)
  end.

Fixpoint wal_run (st : wal_file) (es : list wal_event) : option wal_file :=
  match es with
  | [] => Some st
  | e :: es => match wal_exec st e with Some st => wal_run st es | None => None end
  end.

(** The specification: a list of records.  A record that cannot be framed is not logged; a crash
    keeps the interrupted record or loses it whole. *)
Definition loggable (nonce : list Z) (r : WalRecord) : bool :=
  match wal_encode_frame nonce r with Ok _ => true | Err _ => false end.

Inductive log_step : list WalRecord -> wal_event -> list WalRecord -> Prop :=
| log_append rs nonce r : loggable nonce r = true -> log_step rs (EvAppend nonce r) (rs ++ [r])
| log_append_refused rs nonce r : loggable nonce r = false -> log_step rs (EvAppend nonce r) rs
| log_crash_lost rs nonce r cut : log_step rs (EvCrash nonce r cut) rs
| log_crash_kept rs nonce r cut : loggable nonce r = true -> log_step rs (EvCrash nonce r cut) (rs ++ [r])
| log_rotate rs nonces cp : log_step rs (EvRotate nonces cp) (above cp rs).

Inductive log_run : list WalRecord -> list wal_event -> list WalRecord -> Prop :=
| log_done rs : log_run rs [] rs
| log_next rs e rs' es rs'' : log_step rs e rs' -> log_run rs' es rs'' -> log_run rs (e :: es) rs''.

Lemma reopen_rep file rs : rep file rs -> reopen file = Some (MkWalFile file None).
Proof. intros Hr. unfold reopen. by rewrite (rep_read _ _ Hr). Qed.

Lemma wal_exec_simulates st rs e :
  wal_inv st rs -> event_ok e -> exists st' rs', wal_exec st e = Some st' /\ log_step rs e rs' /\ wal_inv st' rs'.
Proof.
  intros Hinv Hok. destruct e as [nonce r|nonce r cut|nonces cp]; cbn [wal_exec].
  - destruct Hok as [Hn Hr]. destruct (wal_append st nonce r) as [st'|] eqn:Ea.
    + exists st', (rs ++ [r]). split; [done|]. split; [|by eapply append_inv]. constructor. unfold loggable, wal_append in *.
      by destruct (wal_encode_frame nonce r).
    + exists st, rs. split; [done|]. split; [|done]. constructor. unfold loggable, wal_append in *.
      by destruct (wal_encode_frame nonce r).
  - destruct Hok as [Hn Hr]. destruct Hinv as [Hrep Hsep]. destruct (wal_encode_frame nonce r) as [line|] eqn:He.
    + assert (loggable nonce r = true) as Hlog by (unfold loggable; by rewrite He). rewrite Hsep.
      destruct (rep_cut _ _ _ _ _ cut Hrep Hn Hr He) as [Hc|[Hc|(n & Hread & Hc)]].
      * rewrite (reopen_rep _ _ Hc). eexists _, rs. split; [done|]. split; [constructor|by apply inv_closed].
      * rewrite (reopen_rep _ _ Hc). eexists _, (rs ++ [r]). split; [done|]. split; [by constructor|by apply inv_closed].
      * unfold reopen. rewrite Hread. eexists _, rs. split; [done|]. split; [constructor|by apply inv_closed].
    + rewrite (reopen_rep _ _ Hrep). eexists _, rs. split; [done|]. split; [constructor|by apply inv_closed].
  - destruct (rotate_inv st rs nonces cp Hinv Hok) as (st' & -> & Hinv'). eexists _, _. split; [done|]. split; [constructor|done].
Qed.

(** C26: The log file implements a list of records: any run of appends, crashes at any byte of an
    append with the restart that follows, and rotations is accepted at every restart, and reading
    the file back gives the records of a run of the list, with a clean tail. *)
Theorem wal_refines_list (es : list wal_event) :
  Forall event_ok es ->
  exists st rs, wal_run (MkWalFile [] None) es = Some st /\ log_run [] es rs /\
    wal_read_all (Some (wal_bytes st)) = Ok (rs, TailClean).
Proof.
  intros Hes. assert (wal_inv (MkWalFile [] None) []) as Hinv by (apply inv_closed, (rep_join []); constructor).
  revert Hinv. generalize (MkWalFile [] None) as st, (@nil WalRecord) as rs.
  induction Hes as [|e es He _ IH]; intros st rs Hinv; cbn [wal_run].
  - exists st, rs. split; [done|]. split; [constructor|]. by apply rep_read, Hinv.
  - destruct (wal_exec_simulates st rs e Hinv He) as (st' & rs' & -> & Hstep & Hinv').
    destruct (IH st' rs' Hinv') as (st'' & rs'' & Hrun & Hlog & Hread). exists st'', rs''. split; [done|]. split; [|done].
    by econstructor.
Qed.

(** A crash in the middle of an append is told apart at every byte: with nothing of the frame on
    disk the log reads clean without the record, with the whole frame it reads clean with it, and
    with any part of it the log reads torn, with the length that removes exactly that part. *)
Theorem wal_torn_append_detected (file : list Z) (ls : list (list Z)) (rs : list WalRecord) nonce r line k :
  file = join ls -> holds ls rs -> nonce_ok nonce -> record_ok r -> wal_encode_frame nonce r = Ok line ->
  wal_read_all (Some (file ++ take k (line_bytes false line))) =
  Ok (if k =? 0 then (rs, TailClean) else if k <? length line then (rs, TailTorn (length file)) else (rs ++ [r], TailClean)).
Proof.
  intros -> Hh Hn Hr He. destruct (hex_line _ _ _ Hn He) as [Hx Hlen]. unfold line_bytes. cbn [app].
  destruct (Nat.eqb_spec k 0) as [->|Hk]; [rewrite take_0, app_nil_r; by apply rep_read, rep_join|].
  destruct (Nat.ltb_spec k (length line)) as [Hlt|Hge].
  - rewrite take_app_le by lia. assert (Forall is_hex_digit (take k line)) as Hx' by (by apply Forall_take).
    unfold wal_read_all. rewrite split_lines_join by (try (by apply hex_no_newline); by eapply holds_no_newline).
    rewrite (read_lines_holds _ _ _ _ _ Hh), read_lines_hex; [|done|rewrite length_take; lia].
    by rewrite (wal_decode_torn nonce r) by (done || lia).
  - apply rep_read. assert (line_of line r) as Hl by (by exists nonce).
    destruct (decide (k = length line)) as [->|]; [rewrite take_app_length; exists ls, line; eauto 10|].
    rewrite take_ge by (rewrite length_app; cbn; lia). exists (ls ++ [line]), []. rewrite join_app, join_cons, app_nil_r.
    split; [done|]. left. split; [done|]. apply holds_app; [done|]. by repeat constructor.
Qed.
End wal.

(** ** Two records, for the examples *)

Definition sample_a : WalRecord := record_new 1 0 1 (WDelete "a").
Definition sample_b : WalRecord := record_new 2 0 2 (WDelete "b").

Definition sample_bincode : Bincode WalRecord.
Proof.
  refine {|
    bincode_serialize := fun r => if bool_decide (r = sample_a) then Some [1%Z] else if bool_decide (r = sample_b) then Some [2%Z] else None;
    bincode_deserialize := fun b => if bool_decide (b = [1%Z]) then Some sample_a else if bool_decide (b = [2%Z]) then Some sample_b else None;
  |}.
  - intros r b. repeat case_bool_decide; intros; simplify_eq; done.
  - intros r b. repeat case_bool_decide; intros; simplify_eq; repeat constructor; done.
Defined.

Section examples.
Local Existing Instance null_aead.
Local Existing Instance sample_bincode.

Lemma sample_nonce_ok : nonce_ok sample_nonce.
Proof. split; [done|solve_bytes]. Qed.

Definition sample_events : list wal_event :=
  [EvAppend sample_nonce sample_a; EvCrash sample_nonce sample_b 9; EvAppend sample_nonce sample_b;
   EvRotate (fun _ => sample_nonce) 1].

(** The run the theorem speaks of, computed: the crash loses the second record, the repeated append
    logs it, the rotation drops the first. *)
Lemma wal_refines_list_witness :
  exists st rs, wal_run (MkWalFile [] None) sample_events = Some st /\ log_run [] sample_events rs /\
    wal_read_all (Some (wal_bytes st)) = Ok (rs, TailClean).
Proof.
  apply (wal_refines_list sample_events).
  repeat apply Forall_cons_2; try apply Forall_nil_2; cbn; try (intros; exact sample_nonce_ok);
    (split; [exact sample_nonce_ok|done]).
Defined.

Lemma sample_run :
  (st ← wal_run (MkWalFile [] None) sample_events; Some (wal_read_all (Some (wal_bytes st)))) = Some (Ok ([sample_b], TailClean)).
Proof. vm_compute. reflexivity. Qed.

Definition sample_line : list Z := match wal_encode_frame sample_nonce sample_a with Ok l => l | Err _ => [] end.

Lemma wal_torn_append_detected_witness :
  wal_read_all (Some ([] ++ take 30 (line_bytes false sample_line))) = Ok ([], TailTorn 0).
Proof.
  rewrite (wal_torn_append_detected [] [] [] sample_nonce sample_a sample_line 30);
    [vm_compute; reflexivity|done|constructor|exact sample_nonce_ok|done|vm_compute; reflexivity].
Defined.

(** The splice guard covers restarts only.  When an append fails part way, on a full disk say, the
    cached handle still believes the file ends on a newline, so the next append continues the partial
    line: the call succeeds, and the log is refused at the next start as corrupt. *)
Theorem failed_append_splices :
  (st ← wal_append (MkWalFile [] None) sample_nonce sample_a;
   st ← wal_append_failed st sample_nonce sample_b 30;
   st ← wal_append st sample_nonce sample_b;
   Ok (wal_read_all (Some (wal_bytes st)))) = Ok (Err Refused).
Proof. vm_compute. reflexivity. Qed.
End examples.
