(* ===== verification/Recovery.v ===== *)
(** * Recovery ([src/src/storage/recovery.rs])

    Startup reads the log, classifies every transaction frame without touching
    the engine, and then replays in log order: a standalone mutation at its own
    position, a transaction's mutations together at its COMMIT.  The engine is
    an interface (its replay operations); the theorems hold for any engine: a
    classification that passes means every frame has the shape a writer gives
    it, the buffered replay is exactly the list of committed units in order,
    and frames without a COMMIT leave no trace. *)

From Stdlib Require Import ZArith Lia Ascii String.
From stdpp Require Import base tactics list strings option gmap sorting.
From S2P Require Import Prelude Utf8 Keys Json OrderKey Search Entities Crypto Binary Wal.

(** ** The engine, as recovery uses it *)

Class ReplayEngine (S : Type) := {
  replay_archive : S -> HistoryEntry -> result error_kind S;
  replay_insert : S -> Node -> result error_kind S;
  replay_delete : S -> string -> result error_kind S;
  replay_insert_edge : S -> Edge -> result error_kind S;
  replay_delete_edge : S -> EdgeId -> result error_kind S;
  replay_insert_user : S -> UserRecord -> result error_kind S;
  replay_revoke_user : S -> string -> result error_kind S;
  replay_create_index : S -> IndexDef -> result error_kind S;
  replay_drop_index : S -> string -> result error_kind S;
  replay_create_reference : S -> ReferenceDef -> result error_kind S;
  replay_drop_reference : S -> string -> result error_kind S;
  replay_create_text_index : S -> TextIndexDef -> result error_kind S;
  replay_drop_text_index : S -> string -> result error_kind S;
  note_recovered : S -> Z -> S;
}.

Definition is_control (op : WalOperation) : bool :=
  match op with WBegin | WCommit | WAbort => true | _ => false end.

Definition set_folded (d : TextIndexDef) : TextIndexDef :=
  {| t_name := t_name d; t_kind := t_kind d; t_field := t_field d; t_folded := true |}.

(** ** Classification *)

Definition seq_le (a b : WalRecord) : Prop := (w_sequence a <= w_sequence b)%Z.

#[export] Instance seq_le_dec a b : Decision (seq_le a b).
Proof. unfold seq_le. apply _. Defined.

(** The lifecycle walk: position, whether it is the last record, what was seen. *)
Fixpoint lifecycle (first : bool) (records : list WalRecord) (commit_sequence : option Z) (aborted : bool)
    : result error_kind (option Z) :=
  match records with
  | [] => Ok commit_sequence
  | r :: rest =>
      let final := match rest with [] => true | _ => false end in
      match w_operation r with
      | WBegin => if first then lifecycle false rest commit_sequence aborted else Err InvalidData
      | WCommit =>
          if aborted then Err InvalidData
          else match commit_sequence with
          | Some _ => Err InvalidData
          | None => if final then lifecycle false rest (Some (w_sequence r)) aborted else Err InvalidData
          end
      | WAbort =>
          match commit_sequence with
          | Some _ => Err InvalidData
          | None =>
              if aborted then Err InvalidData
              else if final then lifecycle false rest commit_sequence true else Err InvalidData
          end
      | _ =>
          if first then Err InvalidData
          else match commit_sequence with
          | Some _ => Err InvalidData
          | None => if aborted then Err InvalidData else lifecycle false rest commit_sequence aborted
          end
      end
  end.

Definition classify_transaction (transaction_id : Z) (records : list WalRecord) : result error_kind (option Z) :=
  match records with
  | [] => Ok None
  | _ =>
      let ordered := merge_sort seq_le records in
      let begins := match ordered with r :: _ => bool_decide (w_operation r = WBegin) | [] => false end in
      if negb begins then
        if existsb (fun r => bool_decide (w_operation r = WCommit)) ordered then Err InvalidData else Ok None
      else if negb (forallb (fun r => w_transaction_id r =? transaction_id)%Z ordered) then Err InvalidData
      else lifecycle true ordered None false
  end.

Abbreviation frames := (gmap Z (list WalRecord)).

(** The first loop: refuse control records outside a transaction, group the rest. *)
Fixpoint group_frames (records : list WalRecord) (fs : frames) : result error_kind frames :=
  match records with
  | [] => Ok fs
  | r :: rest =>
      if (w_transaction_id r =? 0)%Z then
        if is_control (w_operation r) then Err InvalidData else group_frames rest fs
      else group_frames rest (<[w_transaction_id r := app (default [] (fs !! w_transaction_id r)) [r]]> fs)
  end.

Definition sorted_transaction_ids (fs : frames) : list Z := merge_sort Z.le (map fst (map_to_list fs)).

Fixpoint classify_ids (ids : list Z) (fs : frames) (committed : gmap Z Z) : result error_kind (gmap Z Z) :=
  match ids with
  | [] => Ok committed
  | id :: ids =>
      c ← classify_transaction id (default [] (fs !! id));
      classify_ids ids fs (match c with Some s => <[id := s]> committed | None => committed end)
  end.

Definition classify_transactions (records : list WalRecord) : result error_kind (gmap Z Z) :=
  fs ← group_frames records ∅;
  classify_ids (sorted_transaction_ids fs) fs ∅.

(** ** Validation of what was read *)

Definition validate_records (records : list WalRecord) : result error_kind unit :=
  if forallb (fun r => (w_format_version r =? WAL_FORMAT_VERSION) && negb (w_sequence r =? 0)
                       && negb (w_operation_id r =? 0))%Z records
  then Ok tt else Err InvalidData.

Fixpoint validate_sequence_from (previous : option Z) (records : list WalRecord) : result error_kind unit :=
  match records with
  | [] => Ok tt
  | r :: rest =>
      match previous with
      | Some p => if (w_sequence r <=? p)%Z then Err InvalidData else validate_sequence_from (Some (w_sequence r)) rest
      | None => validate_sequence_from (Some (w_sequence r)) rest
      end
  end.

Definition validate_sequence (records : list WalRecord) : result error_kind unit := validate_sequence_from None records.

(** ** Replay *)

Section replay.
Context {S : Type} `{ReplayEngine S}.

Definition apply_recovery_operation (engine : S) (op : WalOperation) : result error_kind S :=
  match op with
  | WArchive e => replay_archive engine e
  | WInsert n => replay_insert engine n
  | WDelete a => replay_delete engine a
  | WInsertEdge e => replay_insert_edge engine e
  | WDeleteEdge id => replay_delete_edge engine id
  | WInsertUser u => replay_insert_user engine u
  | WRevokeUser h => replay_revoke_user engine h
  | WCreateIndex d => replay_create_index engine d
  | WDropIndex n => replay_drop_index engine n
  | WCreateReference d => replay_create_reference engine d
  | WDropReference n => replay_drop_reference engine n
  | WCreateTextIndex d => replay_create_text_index engine d
  | WCreateFoldedTextIndex d => replay_create_text_index engine (set_folded d)
  | WDropTextIndex n => replay_drop_text_index engine n
  | WBegin | WCommit | WAbort => Err InvalidData
  end.

Fixpoint apply_all (engine : S) (ops : list WalOperation) : result error_kind S :=
  match ops with
  | [] => Ok engine
  | op :: ops => engine ← apply_recovery_operation engine op; apply_all engine ops
  end.

Fixpoint replay_in_sequence_order (engine : S) (records : list WalRecord) (committed : gmap Z Z)
    (buffers : gmap Z (list WalOperation)) : result error_kind S :=
  match records with
  | [] => Ok engine
  | r :: rest =>
      let id := w_transaction_id r in
      if (id =? 0)%Z then
        if is_control (w_operation r) then Err InvalidData
        else
          engine ← apply_recovery_operation engine (w_operation r);
          replay_in_sequence_order (note_recovered engine (w_sequence r)) rest committed buffers
      else match committed !! id with
      | None => replay_in_sequence_order engine rest committed buffers
      | Some commit_sequence =>
          match w_operation r with
          | WBegin | WAbort => replay_in_sequence_order engine rest committed buffers
          | WCommit =>
              if negb (w_sequence r =? commit_sequence)%Z then Err InvalidData
              else
                engine ← apply_all engine (default [] (buffers !! id));
                replay_in_sequence_order (note_recovered engine (w_sequence r)) rest committed (delete id buffers)
          | op => replay_in_sequence_order engine rest committed (<[id := app (default [] (buffers !! id)) [op]]> buffers)
          end
      end
  end.
End replay.

(** ** What classification means *)

Definition increasing (records : list WalRecord) : Prop :=
  StronglySorted (fun a b => w_sequence a < w_sequence b)%Z records.

(** The records of one transaction, in log order. *)
Definition frame_records (id : Z) (records : list WalRecord) : list WalRecord :=
  filter (fun r => w_transaction_id r = id) records.

Abbreviation mutations := (Forall (fun r => is_control (w_operation r) = false)).

(** The shapes a frame may have, and the COMMIT of it. *)
Inductive frame_shape : list WalRecord -> option Z -> Prop :=
| shape_empty : frame_shape [] None
| shape_headless r rs : w_operation r <> WBegin -> Forall (fun r => w_operation r <> WCommit) (r :: rs) ->
    frame_shape (r :: rs) None
| shape_open b ms : w_operation b = WBegin -> mutations ms -> frame_shape (b :: ms) None
| shape_aborted b ms a : w_operation b = WBegin -> mutations ms -> w_operation a = WAbort ->
    frame_shape (b :: ms ++ [a]) None
| shape_committed b ms c : w_operation b = WBegin -> mutations ms -> w_operation c = WCommit ->
    frame_shape (b :: ms ++ [c]) (Some (w_sequence c)).

Lemma lifecycle_sound rest o :
  lifecycle false rest None false = Ok o ->
  mutations rest /\ o = None \/
  (exists ms c, rest = ms ++ [c] /\ mutations ms /\ w_operation c = WCommit /\ o = Some (w_sequence c)) \/
  (exists ms a, rest = ms ++ [a] /\ mutations ms /\ w_operation a = WAbort /\ o = None).
Proof.
  induction rest as [|r rest IH]; cbn [lifecycle]; [intros [= <-]; left; auto|].
  destruct (is_control (w_operation r)) eqn:Ec.
  - destruct (w_operation r) eqn:Er; try discriminate Ec; [done| |]; (destruct rest; [|done]); cbn; intros [= <-].
    + right; left. exists [], r. auto.
    + right; right. exists [], r. auto.
  - intros Hl. assert (lifecycle false rest None false = Ok o) as Hl' by (by destruct (w_operation r)).
    destruct (IH Hl') as [[Hm ->]|[(ms & c & -> & Hm & Hc & ->)|(ms & a & -> & Hm & Ha & ->)]].
    + left. split; [by constructor|done].
    + right; left. exists (r :: ms), c. split; [done|]. split; [by constructor|done].
    + right; right. exists (r :: ms), a. split; [done|]. split; [by constructor|done].
Qed.

Lemma lifecycle_mutations ms rest :
  mutations ms -> lifecycle false (ms ++ rest) None false = lifecycle false rest None false.
Proof.
  induction 1 as [|r ms Hr _ IH]; [done|]. cbn [app lifecycle]. rewrite IH. by destruct (w_operation r).
Qed.

Lemma increasing_inj l a b : increasing l -> a ∈ l -> b ∈ l -> w_sequence a = w_sequence b -> a = b.
Proof.
  induction 1 as [|r l _ IH Hr]; [by intros ?%not_elem_of_nil|]. rewrite Forall_forall in Hr.
  rewrite !elem_of_cons. intros [->|Ha] [->|Hb] E; auto.
  - specialize (Hr b Hb). lia.
  - specialize (Hr a Ha). lia.
Qed.

#[export] Instance seq_le_trans : Transitive seq_le.
Proof. intros a b c. unfold seq_le. lia. Qed.

#[export] Instance seq_le_total : Total seq_le.
Proof. intros a b. unfold seq_le. lia. Qed.

Lemma frame_sorted fr : increasing fr -> merge_sort seq_le fr = fr.
Proof.
  intros Hi. apply (StronglySorted_unique_strong seq_le).
  - intros a b Ha Hb Hab Hba. rewrite merge_sort_Permutation in Ha. apply (increasing_inj fr); auto.
    unfold seq_le in *. lia.
  - apply StronglySorted_merge_sort; apply _.
  - induction Hi as [|r fr _ IH Hr]; constructor; [done|]. eapply Forall_impl; [exact Hr|]. unfold seq_le. cbn. lia.
  - apply merge_sort_Permutation.
Qed.

Lemma increasing_filter P `{forall r, Decision (P r)} records : increasing records -> increasing (filter P records).
Proof.
  induction 1 as [|r l _ IH Hr]; [constructor|]. rewrite filter_cons. case_decide; [|done]. constructor; [done|].
  by apply Forall_filter.
Qed.

Lemma frame_transaction id records : Forall (fun r => w_transaction_id r = id) (frame_records id records).
Proof. apply Forall_forall. intros r Hr. by apply list_elem_of_filter in Hr as [? _]. Qed.

Lemma classify_frame_shape id fr o :
  increasing fr -> Forall (fun r => w_transaction_id r = id) fr ->
  classify_transaction id fr = Ok o <-> frame_shape fr o.
Proof.
  intros Hi Hid. unfold classify_transaction. rewrite frame_sorted by done. destruct fr as [|b rest].
  { split; [intros [= <-]; constructor|by inversion 1]. }
  assert (forallb (fun r => w_transaction_id r =? id)%Z (b :: rest) = true) as ->.
  { apply forallb_forall. intros r Hr%list_elem_of_In. rewrite Forall_forall in Hid. apply Z.eqb_eq, Hid, Hr. }
  case_bool_decide as Hb; cbn [negb].
  - cbn [lifecycle]. rewrite Hb. split.
    + intros [[Hm ->]|[(ms & c & -> & Hm & Hc & ->)|(ms & a & -> & Hm & Ha & ->)]]%lifecycle_sound; by constructor.
    + inversion 1 as [|? ? Hn| |? ms a ? ? Ha|? ms c ? ? Hc]; subst.
      * done.
      * rewrite <- (app_nil_r rest). by rewrite lifecycle_mutations.
      * rewrite lifecycle_mutations by done. cbn [lifecycle]. by rewrite Ha.
      * rewrite lifecycle_mutations by done. cbn [lifecycle]. by rewrite Hc.
  - destruct (existsb _ _) eqn:Ex.
    + split; [done|]. apply existsb_exists in Ex as (r & Hr%list_elem_of_In & Hc%bool_decide_eq_true).
      inversion 1 as [|? ? Hn Hall| | |]; subst; try done. rewrite Forall_forall in Hall. by destruct (Hall r Hr).
    + split; [|by inversion 1]. intros [= <-]. constructor; [done|]. apply Forall_forall. intros r Hr Hc.
      assert (existsb (fun r => bool_decide (w_operation r = WCommit)) (b :: rest) = true) as Ht; [|congruence].
      apply existsb_exists. exists r. split; [by apply list_elem_of_In|by apply bool_decide_eq_true].
Qed.

Lemma group_frames_spec records fs fs' :
  group_frames records fs = Ok fs' ->
  Forall (fun r => w_transaction_id r = 0%Z -> is_control (w_operation r) = false) records /\
  (forall id, id <> 0%Z -> default [] (fs' !! id) = default [] (fs !! id) ++ frame_records id records) /\
  (forall id, is_Some (fs' !! id) <-> is_Some (fs !! id) \/ (id <> 0%Z /\ frame_records id records <> [])).
Proof.
  revert fs. induction records as [|r rest IH]; intros fs; cbn [group_frames].
  { intros [= ->]. split; [constructor|]. split; [intros; by rewrite app_nil_r|]. intros id. cbn. tauto. }
  destruct (Z.eqb_spec (w_transaction_id r) 0) as [E0|E0].
  - destruct (is_control (w_operation r)) eqn:Ec; [done|]. intros (Hs & Hd & Hm)%IH.
    split; [by constructor|]. unfold frame_records in *. split; intros id.
    + intros Hid. rewrite filter_cons_False by congruence. by apply Hd.
    + rewrite filter_cons. case_decide; [|apply Hm]. subst. rewrite Hm. split; [intros [?|[? ?]]|intros [?|[? ?]]]; auto; congruence.
  - intros (Hs & Hd & Hm)%IH. split; [by constructor|]. unfold frame_records in *. split; intros id.
    + intros Hid. rewrite Hd by done. rewrite filter_cons. case_decide as E.
      * subst id. rewrite lookup_insert_eq. cbn. by rewrite <- app_assoc.
      * by rewrite lookup_insert_ne.
    + rewrite Hm, filter_cons. case_decide as E.
      * subst id. rewrite lookup_insert_eq. split; [intros _; right; split; [done|discriminate]|intros _; left; eauto].
      * by rewrite lookup_insert_ne.
Qed.

Lemma group_frames_total records fs :
  Forall (fun r => w_transaction_id r = 0%Z -> is_control (w_operation r) = false) records ->
  exists fs', group_frames records fs = Ok fs'.
Proof.
  intros Hall. revert fs. induction Hall as [|r rest Hr _ IH]; intros fs; cbn [group_frames]; [eauto|].
  destruct (Z.eqb_spec (w_transaction_id r) 0) as [E|]; [rewrite (Hr E)|]; apply IH.
Qed.

Lemma classify_ids_spec ids fs c0 c :
  NoDup ids -> classify_ids ids fs c0 = Ok c ->
  (forall id, id ∈ ids -> exists o, classify_transaction id (default [] (fs !! id)) = Ok o /\
     c !! id = match o with Some s => Some s | None => c0 !! id end) /\
  (forall id, id ∉ ids -> c !! id = c0 !! id).
Proof.
  intros Hnd. revert c0. induction Hnd as [|id ids Hid Hnd IH]; intros c0; cbn [classify_ids].
  { intros [= ->]. split; [by intros id ?%not_elem_of_nil|done]. }
  intros (o & Ho & Hrest)%result_bind_inv. apply IH in Hrest as [Hin Hout]. split.
  - intros id' [->|Hid']%elem_of_cons.
    + exists o. split; [done|]. rewrite Hout by done. destruct o; [apply lookup_insert_eq|done].
    + destruct (Hin id' Hid') as (o' & Ho' & Hc). exists o'. split; [done|]. rewrite Hc. destruct o'; [done|].
      destruct o; [|done]. apply lookup_insert_ne. intros ->. done.
  - intros id' [Hne Hnin]%not_elem_of_cons. rewrite Hout by done. destruct o; [|done]. by apply lookup_insert_ne.
Qed.

Lemma classify_ids_total ids fs c0 :
  (forall id, id ∈ ids -> exists o, classify_transaction id (default [] (fs !! id)) = Ok o) ->
  exists c, classify_ids ids fs c0 = Ok c.
Proof.
  revert c0. induction ids as [|id ids IH]; intros c0 Hall; cbn [classify_ids]; [eauto|].
  destruct (Hall id) as [o ->]; [left|]. cbn [mbind result_bind]. apply IH. intros. apply Hall. by right.
Qed.

Lemma sorted_ids_elem fs id : id ∈ sorted_transaction_ids fs <-> is_Some (fs !! id).
Proof.
  unfold sorted_transaction_ids. rewrite merge_sort_Permutation, list_elem_of_fmap. split.
  - intros ([id' l] & -> & Hin%elem_of_map_to_list). eauto.
  - intros [l Hl]. exists (id, l). split; [done|]. by apply elem_of_map_to_list.
Qed.

Lemma sorted_ids_nodup fs : NoDup (sorted_transaction_ids fs).
Proof. unfold sorted_transaction_ids. rewrite merge_sort_Permutation. apply NoDup_fst_map_to_list. Qed.

(** Classification succeeds exactly on logs whose every frame has a legal shape, and then reports
    the COMMIT of each. *)
Lemma classify_spec records c :
  increasing records ->
  classify_transactions records = Ok c <->
  Forall (fun r => w_transaction_id r = 0%Z -> is_control (w_operation r) = false) records /\
  (c !! 0%Z = None) /\ forall id, id <> 0%Z -> frame_shape (frame_records id records) (c !! id).
Proof.
  intros Hi. unfold classify_transactions. split.
  - intros (fs & Hg & Hc)%result_bind_inv. apply group_frames_spec in Hg as (Hs & Hd & Hm).
    apply classify_ids_spec in Hc as [Hin Hout]; [|apply sorted_ids_nodup]. split; [done|]. split.
    + rewrite Hout; [done|]. rewrite sorted_ids_elem, Hm. intros [[? ?]|[? _]]; [by rewrite lookup_empty in *|done].
    + intros id Hid. destruct (decide (id ∈ sorted_transaction_ids fs)) as [He|Hne].
      * destruct (Hin id He) as (o & Ho & ->). rewrite Hd in Ho by done. rewrite lookup_empty in Ho. cbn [default app] in Ho.
        rewrite lookup_empty. assert (match o with Some s => Some s | None => None end = o) as -> by (by destruct o).
        apply (classify_frame_shape id); [by apply increasing_filter|apply frame_transaction|done].
      * rewrite Hout, lookup_empty by done. rewrite sorted_ids_elem, Hm in Hne.
        destruct (frame_records id records) eqn:E; [constructor|]. exfalso. apply Hne. right. split; [done|congruence].
  - intros (Hs & H0 & Hshape). destruct (group_frames_total records ∅ Hs) as [fs Hg]. rewrite Hg. cbn [mbind result_bind].
    apply group_frames_spec in Hg as (_ & Hd & Hm).
    assert (forall id, id <> 0%Z -> classify_transaction id (default [] (fs !! id)) = Ok (c !! id)) as Hcl.
    { intros id Hid. rewrite Hd by done. rewrite lookup_empty. cbn [default app].
      apply classify_frame_shape; [by apply increasing_filter|apply frame_transaction|by apply Hshape]. }
    assert (forall id, id ∈ sorted_transaction_ids fs -> id <> 0%Z) as Hnz.
    { intros id. rewrite sorted_ids_elem, Hm. intros [[? ?]|[? _]]; [by rewrite lookup_empty in *|done]. }
    destruct (classify_ids_total (sorted_transaction_ids fs) fs ∅) as [c' Hc'].
    { intros id Hid. rewrite Hcl by auto. eauto. }
    rewrite Hc'. f_equal. apply classify_ids_spec in Hc' as [Hin Hout]; [|apply sorted_ids_nodup].
    apply map_eq. intros id. destruct (decide (id ∈ sorted_transaction_ids fs)) as [He|Hne].
    + destruct (Hin id He) as (o & Ho & ->). rewrite Hcl in Ho by auto. injection Ho as <-. rewrite lookup_empty. by destruct (c !! id).
    + rewrite Hout, lookup_empty by done. destruct (decide (id = 0%Z)) as [->|Hid]; [done|].
      rewrite sorted_ids_elem, Hm in Hne. specialize (Hshape id Hid).
      destruct (frame_records id records) eqn:E; [by inversion Hshape|]. exfalso. apply Hne. right. split; [done|congruence].
Qed.

(** ** The committed units of a log

    The declarative reading: a standalone mutation is a unit of its own, and a COMMIT is a unit made
    of every mutation its transaction logged before it. *)

Definition commit_unit : Type := list WalOperation * Z.

(** The mutations of transaction [id] among [seen]. *)
Definition staged (id : Z) (seen : list WalRecord) : list WalOperation :=
  map w_operation (filter (fun r => is_control (w_operation r) = false) (frame_records id seen)).

Fixpoint units_from (seen records : list WalRecord) : list commit_unit :=
  match records with
  | [] => []
  | r :: rest =>
      (if (w_transaction_id r =? 0)%Z then [([w_operation r], w_sequence r)]
       else if bool_decide (w_operation r = WCommit) then [(staged (w_transaction_id r) seen, w_sequence r)]
       else [])
      ++ units_from (seen ++ [r]) rest
  end.

Definition committed_units (records : list WalRecord) : list commit_unit := units_from [] records.

Section units.
Context {S : Type} `{ReplayEngine S}.

Fixpoint run_units (engine : S) (us : list commit_unit) : result error_kind S :=
  match us with
  | [] => Ok engine
  | (ops, sequence) :: us =>
      engine ← apply_all engine ops;
      run_units (note_recovered engine sequence) us
  end.
End units.

Lemma frame_records_app id a b : frame_records id (a ++ b) = frame_records id a ++ frame_records id b.
Proof. apply filter_app. Qed.

Lemma frame_records_here r rest : frame_records (w_transaction_id r) (r :: rest) = r :: frame_records (w_transaction_id r) rest.
Proof. unfold frame_records. by rewrite filter_cons_True. Qed.

Lemma frame_records_other id r rest : w_transaction_id r <> id -> frame_records id (r :: rest) = frame_records id rest.
Proof. intros. unfold frame_records. by rewrite filter_cons_False. Qed.

Lemma staged_snoc id seen r :
  staged id (seen ++ [r]) =
  staged id seen ++ (if decide (w_transaction_id r = id /\ is_control (w_operation r) = false) then [w_operation r] else []).
Proof.
  unfold staged. rewrite frame_records_app, filter_app, map_app. f_equal. destruct (decide (w_transaction_id r = id)) as [<-|Hne].
  - rewrite frame_records_here. rewrite filter_cons. destruct (decide (is_control _ = false)); case_decide; cbn; tauto.
  - rewrite frame_records_other by done. case_decide; cbn; tauto.
Qed.

(** In a frame with a COMMIT, the COMMIT is its last record and the only one. *)
Lemma committed_frame fr o pre r post :
  frame_shape fr o -> fr = pre ++ r :: post -> w_operation r = WCommit -> post = [] /\ o = Some (w_sequence r).
Proof.
  intros Hsh E Hr. assert (r ∈ fr) as Hin by (rewrite E; apply elem_of_app; right; left).
  destruct Hsh as [|x rs Hx Hall|b ms Hb Hm|b ms a Hb Hm Ha|b ms c Hb Hm Hc].
  - by apply not_elem_of_nil in Hin.
  - rewrite Forall_forall in Hall. by destruct (Hall r Hin).
  - exfalso. apply elem_of_cons in Hin as [->|Hin]; [congruence|]. rewrite Forall_forall in Hm. specialize (Hm r Hin).
    by rewrite Hr in Hm.
  - exfalso. apply elem_of_cons in Hin as [->|Hin]; [congruence|]. rewrite Forall_forall in Hm.
    apply elem_of_app in Hin as [Hin| ->%list_elem_of_singleton]; [|congruence]. specialize (Hm r Hin). by rewrite Hr in Hm.
  - destruct post as [|y post] using rev_ind.
    + split; [done|]. rewrite app_comm_cons in E. by apply app_inj_tail in E as [_ ->].
    + exfalso. clear IHpost. rewrite !app_comm_cons, app_assoc in E. apply app_inj_tail in E as [E _].
      assert (r ∈ b :: ms) as Hin' by (rewrite E; apply elem_of_app; right; left).
      apply elem_of_cons in Hin' as [->|Hin']; [congruence|]. rewrite Forall_forall in Hm. specialize (Hm r Hin').
      by rewrite Hr in Hm.
Qed.

Lemma commit_closes (c : gmap Z Z) seen r rest :
  frame_shape (frame_records (w_transaction_id r) (seen ++ r :: rest)) (c !! w_transaction_id r) ->
  w_operation r = WCommit ->
  frame_records (w_transaction_id r) rest = [] /\ c !! w_transaction_id r = Some (w_sequence r).
Proof.
  intros Hsh Hr. eapply (committed_frame _ _ (frame_records (w_transaction_id r) seen)); [exact Hsh| |done].
  by rewrite frame_records_app, frame_records_here.
Qed.

Section replay_spec.
Context {S : Type} `{ReplayEngine S}.

(** The buffers hold what the remaining records of each committed transaction will need. *)
Lemma replay_units seen rest c buffers (engine : S) :
  increasing (seen ++ rest) -> classify_transactions (seen ++ rest) = Ok c ->
  (forall id s, c !! id = Some s -> frame_records id rest <> [] -> default [] (buffers !! id) = staged id seen) ->
  replay_in_sequence_order engine rest c buffers = run_units engine (units_from seen rest).
Proof.
  intros Hi Hc. pose proof (proj1 (classify_spec _ _ Hi) Hc) as (Hs & H0 & Hsh). clear Hc.
  revert seen buffers engine Hi Hs Hsh. induction rest as [|r rest IH]; intros seen buffers engine Hi Hs Hsh Hbuf; [done|].
  assert (seen ++ r :: rest = (seen ++ [r]) ++ rest) as Eapp by (by rewrite <- app_assoc).
  assert (Hnext : forall buffers' engine',
    (forall id s, c !! id = Some s -> frame_records id rest <> [] -> default [] (buffers' !! id) = staged id (seen ++ [r])) ->
    replay_in_sequence_order engine' rest c buffers' = run_units engine' (units_from (seen ++ [r]) rest)).
  { intros. apply IH; [by rewrite <- Eapp|by rewrite <- Eapp| |done]. intros. rewrite <- Eapp. by apply Hsh. }
  (* a transaction other than the record's, or a control record, keeps its buffer *)
  assert (Hkeep : forall id s, c !! id = Some s -> frame_records id rest <> [] ->
    w_transaction_id r <> id \/ is_control (w_operation r) = true -> default [] (buffers !! id) = staged id (seen ++ [r])).
  { intros id s Hid Hne Hr. rewrite staged_snoc. rewrite decide_False by (intros [? ?]; destruct Hr; congruence).
    rewrite app_nil_r. apply (Hbuf id s Hid). unfold frame_records in *. rewrite filter_cons. by case_decide. }
  cbn [replay_in_sequence_order units_from]. destruct (Z.eqb_spec (w_transaction_id r) 0) as [Ez|Hz].
  - (* standalone *)
    assert (is_control (w_operation r) = false) as ->.
    { rewrite Forall_forall in Hs. apply Hs; [apply elem_of_app; right; left|done]. }
    cbn [app run_units apply_all]. destruct (apply_recovery_operation engine (w_operation r)) as [engine'|]; [|done].
    cbn [mbind result_bind]. apply Hnext. intros id s Hid Hne. apply (Hkeep id s Hid Hne).
    left. intros E. rewrite <- E, Ez, H0 in Hid. done.
  - destruct (c !! w_transaction_id r) as [commit_sequence|] eqn:Ec.
    + destruct (is_control (w_operation r)) eqn:Ectl.
      * destruct (w_operation r) eqn:Eop; try discriminate Ectl.
        -- rewrite bool_decide_eq_false_2 by done. apply Hnext. intros id s Hid Hne. apply (Hkeep id s Hid Hne). by right.
        -- rewrite bool_decide_eq_true_2 by done.
           destruct (commit_closes c seen r rest) as [Hlast Hseq]; [by apply Hsh|done|].
           rewrite Ec in Hseq. injection Hseq as ->. rewrite Z.eqb_refl. cbn [negb app run_units].
           rewrite (Hbuf (w_transaction_id r) _ Ec) by (rewrite frame_records_here; discriminate).
           destruct (apply_all engine (staged (w_transaction_id r) seen)) as [engine'|]; [|done]. cbn [mbind result_bind].
           apply Hnext. intros id s Hid Hne. assert (w_transaction_id r <> id) as Hd by (intros <-; congruence).
           rewrite lookup_delete_ne by done. apply (Hkeep id s Hid Hne). by left.
        -- rewrite bool_decide_eq_false_2 by done. apply Hnext. intros id s Hid Hne. apply (Hkeep id s Hid Hne). by right.
      * rewrite bool_decide_eq_false_2 by (intros E; by rewrite E in Ectl).
        transitivity (replay_in_sequence_order engine rest c
          (<[w_transaction_id r := default [] (buffers !! w_transaction_id r) ++ [w_operation r]]> buffers)).
        { by destruct (w_operation r). }
        apply Hnext. intros id s Hid Hne. destruct (decide (id = w_transaction_id r)) as [->|Hd].
        -- rewrite lookup_insert_eq. cbn [default]. rewrite staged_snoc, decide_True by done.
           rewrite (Hbuf _ _ Hid) by (rewrite frame_records_here; discriminate). done.
        -- rewrite lookup_insert_ne by done. apply (Hkeep id s Hid Hne). by left.
    + rewrite bool_decide_eq_false_2; [apply Hnext; intros id s Hid Hne; apply (Hkeep id s Hid Hne); left; congruence|].
      intros Eop. destruct (commit_closes c seen r rest) as [_ Hseq]; [by apply Hsh|done|congruence].
Qed.
End replay_spec.

(** ** The whole startup *)

Section recover.
Context {S : Type} `{ReplayEngine S} `{Aead} `{!Bincode WalRecord}.

(** [engine_checkpoint] is [StorageEngine::checkpoint], which settles what was replayed: it may move
    the checkpoint and rotate the log. *)
Context (engine_checkpoint : S -> Z -> wal_file -> result error_kind (S * Z * wal_file)).

Record database := MkDatabase {
  db_wal : option wal_file;
  db_checkpoint : Z;
  db_counters : counters;
  db_horizon : Z;
  db_engine : S;
}.

(** [wal::note_scan_horizon] keeps the larger of the two. *)
Definition note_scan_horizon (checkpoint_floor horizon : Z) : Z :=
  if (checkpoint_floor =? 0)%Z then horizon else Z.max horizon (2 ^ 64 - 1).

Definition max_of (f : WalRecord -> Z) (records : list WalRecord) : Z := fold_right (fun r m => Z.max (f r) m) 0%Z records.

(** A torn tail is cut off before anything is replayed. *)
Definition repaired (st : wal_file) (tail : wal_tail) : wal_file :=
  match tail with TailTorn n => truncate_torn_tail st n | TailClean => st end.

Definition recover (db : database) : result error_kind database :=
  let floor := db_checkpoint db in
  let c := initialize_counters (db_counters db) floor 0 floor in
  match db_wal db with
  | None => Ok (MkDatabase None floor c (note_scan_horizon floor (db_horizon db)) (db_engine db))
  | Some st =>
      match wal_read_all (Some (wal_bytes st)) with
      | Err _ => Err InvalidData
      | Ok (records, tail) =>
          let horizon := match records with [] => note_scan_horizon floor (db_horizon db) | _ => db_horizon db end in
          let st := repaired st tail in
          _ ← validate_records records;
          _ ← validate_sequence records;
          let c := initialize_counters c (max_of w_sequence records) (max_of w_transaction_id records)
                     (max_of w_operation_id records) in
          let records := above floor records in
          committed ← classify_transactions records;
          engine ← replay_in_sequence_order (db_engine db) records committed ∅;
          settled ← engine_checkpoint engine floor st;
          Ok (MkDatabase (Some settled.2) settled.1.2 c horizon settled.1.1)
      end
  end.

Lemma validate_sequence_increasing records : validate_sequence records = Ok tt <-> increasing records.
Proof.
  unfold validate_sequence. assert (forall p records, validate_sequence_from (Some p) records = Ok tt <->
    Forall (fun r => p < w_sequence r)%Z records /\ increasing records) as Hp.
  { intros p l. revert p. induction l as [|r l IH]; intros p; cbn [validate_sequence_from]; [split; [repeat constructor|done]|].
    destruct (Z.leb_spec (w_sequence r) p) as [Hle|Hlt].
    - split; [done|]. intros [Hall _]. apply Forall_inv in Hall. lia.
    - rewrite IH. split.
      + intros [Hall Hi]. split; [constructor; [done|]|by constructor]. eapply Forall_impl; [exact Hall|]. cbn. lia.
      + intros [Hall Hi]. inversion Hi; subst. auto. }
  destruct records as [|r records]; cbn [validate_sequence_from]; [split; [constructor|done]|]. rewrite Hp. split.
  - intros [Hall Hi]. by constructor.
  - inversion 1; subst. auto.
Qed.

Lemma validate_records_ok records :
  Forall record_ok records -> validate_records records = Ok tt.
Proof.
  intros Hall. unfold validate_records. assert (forallb _ records = true) as ->; [|done].
  induction Hall as [|r l (Hv & Hs & Ho) _ IH]; [done|]. cbn [forallb]. rewrite IH, andb_true_r.
  rewrite Hv, Z.eqb_refl. apply Z.eqb_neq in Hs as ->. by apply Z.eqb_neq in Ho as ->.
Qed.

(** Recovery is the committed units: when the log passes the checks, startup leaves the engine
    exactly where running the committed units above the checkpoint, in log order, and then taking a
    checkpoint over the repaired log would leave it (errors included), whatever frames are open,
    aborted or interleaved. *)
Theorem recovery_replays_units (db : database) st records tail committed :
  db_wal db = Some st -> wal_read_all (Some (wal_bytes st)) = Ok (records, tail) ->
  validate_records records = Ok tt -> increasing records ->
  classify_transactions (above (db_checkpoint db) records) = Ok committed ->
  (db' ← recover db; Ok (db_engine db', db_checkpoint db', db_wal db')) =
  (engine ← run_units (db_engine db) (committed_units (above (db_checkpoint db) records));
   settled ← engine_checkpoint engine (db_checkpoint db) (repaired st tail);
   Ok (settled.1.1, settled.1.2, Some settled.2)).
Proof.
  intros Hw Hr Hv Hi Hc. unfold recover. rewrite Hw, Hr, Hv, (proj2 (validate_sequence_increasing records) Hi).
  cbn [mbind result_bind]. rewrite Hc. cbn [mbind result_bind].
  rewrite (replay_units [] (above (db_checkpoint db) records)); [|by apply increasing_filter|done|].
  - unfold committed_units. destruct (run_units _ _) as [engine|]; [|done]. cbn [mbind result_bind].
    by destruct (engine_checkpoint engine _ _).
  - intros id s _ _. done.
Qed.

Lemma max_of_spec (f : WalRecord -> Z) records r :
  r ∈ records -> (forall r, r ∈ records -> f r < 2 ^ 64 - 1)%Z -> (f r <= max_of f records < 2 ^ 64 - 1)%Z.
Proof.
  intros Hin Hf. induction records as [|x l IH]; [by apply not_elem_of_nil in Hin|]. cbn [max_of fold_right].
  fold (max_of f l). pose proof (Hf x (list_elem_of_here _ _)).
  assert (max_of f l < 2 ^ 64 - 1)%Z.
  { clear -Hf. induction l as [|y l IH]; cbn [max_of fold_right]; [lia|]. fold (max_of f l).
    pose proof (Hf y (list_elem_of_further _ _ _ (list_elem_of_here _ _))).
    assert (max_of f l < 2 ^ 64 - 1)%Z; [|lia]. apply IH. intros r' [->|Hr']%elem_of_cons; apply Hf; [left|by right; right]. }
  apply elem_of_cons in Hin as [->|Hin]; [lia|]. destruct (IH Hin) as [? _]; [intros; apply Hf; by right|lia].
Qed.

Lemma advance_above (f : WalRecord -> Z) counter records r :
  r ∈ records -> (forall r, r ∈ records -> f r < 2 ^ 64 - 1)%Z -> (f r < advance_counter counter (max_of f records))%Z.
Proof.
  intros Hin Hf. pose proof (max_of_spec f records r Hin Hf). unfold advance_counter. case_goal; breflect; lia.
Qed.

(** Whatever startup accepts, no identifier it hands out afterwards is one the log or the
    checkpoint already uses. *)
Theorem recovery_counters_fresh (db db' : database) st records tail :
  db_wal db = Some st -> wal_read_all (Some (wal_bytes st)) = Ok (records, tail) -> recover db = Ok db' ->
  (0 <= db_checkpoint db < 2 ^ 64 - 1)%Z ->
  Forall (fun r => w_sequence r < 2 ^ 64 - 1 /\ w_transaction_id r < 2 ^ 64 - 1 /\ w_operation_id r < 2 ^ 64 - 1)%Z records ->
  (db_checkpoint db < next_sequence (db_counters db'))%Z /\
  Forall (fun r => w_sequence r < next_sequence (db_counters db') /\
                   w_transaction_id r < next_transaction_id (db_counters db') /\
                   w_operation_id r < next_operation_id (db_counters db'))%Z records.
Proof.
  intros Hw Hr Hrec Hcp Hall. unfold recover in Hrec. rewrite Hw, Hr in Hrec.
  apply result_bind_inv in Hrec as (? & _ & Hrec). apply result_bind_inv in Hrec as (? & _ & Hrec).
  apply result_bind_inv in Hrec as (? & _ & Hrec). apply result_bind_inv in Hrec as (? & _ & Hrec).
  apply result_bind_inv in Hrec as (? & _ & [= <-]). cbn [db_counters].
  split.
  - cbn [initialize_counters next_sequence]. unfold advance_counter. repeat case_goal; breflect; lia.
  - cbn [initialize_counters next_sequence next_transaction_id next_operation_id].
    rewrite Forall_forall in *. intros r Hin.
    split; [|split]; apply advance_above; try done; intros r' Hin'; by apply Hall.
Qed.
End recover.

(** ** An engine that records what is replayed, for the examples *)

Definition trace_engine : ReplayEngine (list WalOperation) := {|
  replay_archive t e := Ok (t ++ [WArchive e]);
  replay_insert t n := Ok (t ++ [WInsert n]);
  replay_delete t a := Ok (t ++ [WDelete a]);
  replay_insert_edge t e := Ok (t ++ [WInsertEdge e]);
  replay_delete_edge t i := Ok (t ++ [WDeleteEdge i]);
  replay_insert_user t u := Ok (t ++ [WInsertUser u]);
  replay_revoke_user t h := Ok (t ++ [WRevokeUser h]);
  replay_create_index t d := Ok (t ++ [WCreateIndex d]);
  replay_drop_index t n := Ok (t ++ [WDropIndex n]);
  replay_create_reference t d := Ok (t ++ [WCreateReference d]);
  replay_drop_reference t n := Ok (t ++ [WDropReference n]);
  replay_create_text_index t d := Ok (t ++ [WCreateTextIndex d]);
  replay_drop_text_index t n := Ok (t ++ [WDropTextIndex n]);
  note_recovered t _ := t;
|}.

Section examples.
Local Existing Instance trace_engine.
Local Existing Instance null_aead.
Local Existing Instance sample_bincode.

Definition sample_db : database :=
  MkDatabase (S := list WalOperation) (Some (MkWalFile (sample_line ++ [NEWLINE]) None)) 0 (MkCounters 1 1 1) 0 [].

Definition keep_checkpoint (engine : list WalOperation) (floor : Z) (st : wal_file)
    : result error_kind (list WalOperation * Z * wal_file) := Ok (engine, floor, st).

Lemma sample_db_read : wal_read_all (Some (sample_line ++ [NEWLINE])) = Ok ([sample_a], TailClean).
Proof. vm_compute. reflexivity. Qed.

Lemma recovery_replays_units_witness :
  (db' ← recover keep_checkpoint sample_db; Ok (db_engine db', db_checkpoint db', db_wal db')) =
  Ok ([WDelete "a"], 0%Z, Some (MkWalFile (sample_line ++ [NEWLINE]) None)).
Proof.
  rewrite (recovery_replays_units keep_checkpoint sample_db (MkWalFile (sample_line ++ [NEWLINE]) None) [sample_a] TailClean ∅);
    [vm_compute; reflexivity|done|exact sample_db_read|done|repeat constructor|vm_compute; reflexivity].
Defined.

Lemma recovery_counters_fresh_witness :
  exists db', recover keep_checkpoint sample_db = Ok db' /\ (0 < next_sequence (db_counters db'))%Z.
Proof.
  eexists. split; [vm_compute; reflexivity|].
  refine (proj1 (recovery_counters_fresh keep_checkpoint sample_db _ (MkWalFile (sample_line ++ [NEWLINE]) None) [sample_a] TailClean _ _ _ _ _));
    [done|exact sample_db_read|vm_compute; reflexivity|cbn; lia|].
  apply Forall_cons_2; [cbn; lia|apply Forall_nil_2].
Defined.
End examples.
