(* ===== verification/GroupCommit.v ===== *)
(** * Group commit ([src/src/storage/wal.rs], [sync_pending])

    A mutation appends its records to the log under the lock of the writer
    and, after releasing it, makes them durable with [sync_pending]: one
    caller flushes the file for all, the others sleep on a condition
    variable, and a checkpoint may replace the file by a rotated one in the
    middle of it all.  Every access to shared memory and every call of the
    system is one step, the steps of all threads interleave, and a crash may
    come between any two of them.  A record is its sequence number here; its
    bytes are those of [Wal]. *)

From Stdlib Require Import ZArith Lia.
From stdpp Require Import base tactics list option gmap relations.
From S2P Require Import Prelude.

(** ** The state *)

(** A file: what was written to it, and how many records of that have reached the disk. *)
Record inode := MkInode { in_written : list Z; in_synced : nat }.

Record SyncState := MkSync { ss_durable : Z; ss_syncing : bool }.

(** Where a call of [sync_pending] stands: before loading the target; at the head of its loop; in the wait
    of the condition variable; chosen to flush, with the value it will publish; in [sync_data] on a file of
    which so many records were written when it began; returned. *)
Inductive pc :=
| Started
| Entering (target : Z)
| Asleep (target : Z)
| Syncing (target covered : Z)
| Flushing (target covered : Z) (file count : nat)
| Returned (ok : bool).

(** A call, with the records its mutation appended. *)
Record call := MkCall { c_mine : list Z; c_pc : pc }.

(** The holder of the writer lock, with what it appended: between records; with a line written and
    [APPENDED] not yet raised; and in [rotate] after the rename, after the sync of the directory, and after
    the handle was dropped. *)
Inductive writer :=
| Free
| Appending (mine : list Z)
| Noting (s : Z) (mine : list Z)
| Renamed (mine : list Z)
| Linked (mine : list Z)
| Cleared (mine : list Z).

(** [gs_name] is the file the path names, [gs_entry] the one it names on disk. *)
Record gstate := MkState {
  gs_inodes : gmap nat inode;
  gs_name : nat;
  gs_entry : nat;
  gs_slot : option nat;
  gs_checkpoint : Z;
  gs_last : Z;
  gs_appended : Z;
  gs_sync : SyncState;
  gs_writer : writer;
  gs_calls : gmap nat call;
}.

(** The log after a start: its records are on disk, no handle is open, nothing was appended. *)
Definition boot (file : list Z) (checkpoint last : Z) : gstate :=
  MkState {[0%nat := MkInode file (length file)]} 0 0 None checkpoint last 0 (MkSync 0 false) Free ∅.

Definition with_inodes st m := MkState m (gs_name st) (gs_entry st) (gs_slot st) (gs_checkpoint st) (gs_last st) (gs_appended st) (gs_sync st) (gs_writer st) (gs_calls st).
Definition with_slot st o := MkState (gs_inodes st) (gs_name st) (gs_entry st) o (gs_checkpoint st) (gs_last st) (gs_appended st) (gs_sync st) (gs_writer st) (gs_calls st).
Definition with_sync st s := MkState (gs_inodes st) (gs_name st) (gs_entry st) (gs_slot st) (gs_checkpoint st) (gs_last st) (gs_appended st) s (gs_writer st) (gs_calls st).
Definition with_writer st w := MkState (gs_inodes st) (gs_name st) (gs_entry st) (gs_slot st) (gs_checkpoint st) (gs_last st) (gs_appended st) (gs_sync st) w (gs_calls st).
Definition with_calls st m := MkState (gs_inodes st) (gs_name st) (gs_entry st) (gs_slot st) (gs_checkpoint st) (gs_last st) (gs_appended st) (gs_sync st) (gs_writer st) m.

(** ** The calls *)

(** [with_handle]: the cached file, opened by its name when there is none. *)
Definition with_handle st : gstate * nat :=
  match gs_slot st with
  | Some i => (st, i)
  | None => (with_slot st (Some (gs_name st)), gs_name st)
  end.

Definition written st (i : nat) : list Z := match gs_inodes st !! i with Some x => in_written x | None => [] end.

(** [write_line] *)
Definition write_line (s : Z) (i : nat) st : gstate :=
  with_inodes st (alter (fun x => MkInode (in_written x ++ [s]) (in_synced x)) i (gs_inodes st)).

(** [append]: the line through the handle, and then [APPENDED.fetch_max]. *)
Definition append_line (s : Z) st : gstate := let '(st, i) := with_handle st in write_line s i st.

Definition note_appended (s : Z) st : gstate :=
  MkState (gs_inodes st) (gs_name st) (gs_entry st) (gs_slot st) (gs_checkpoint st) (gs_last st) (gs_appended st `max` s) (gs_sync st) (gs_writer st) (gs_calls st).

Definition move (k : nat) (p : pc) st : gstate := with_calls st (alter (fun c => MkCall (c_mine c) p) k (gs_calls st)).

Definition woken (c : call) : call := match c_pc c with Asleep t => MkCall (c_mine c) (Entering t) | _ => c end.

(** [condvar.notify_all] *)
Definition notify_all st : gstate := with_calls st (woken <$> gs_calls st).

(** One round of the loop, under the mutex: return, wait, or become the syncer. *)
Definition check (k : nat) (target : Z) st : gstate :=
  if (target <=? ss_durable (gs_sync st))%Z then move k (Returned true) st
  else if ss_syncing (gs_sync st) then move k (Asleep target) st
  else move k (Syncing target (gs_appended st)) (with_sync st (MkSync (ss_durable (gs_sync st)) true)).

(** [sync_data]: at least what had been written when it began. *)
Definition sync_data (i count : nat) st : gstate :=
  with_inodes st (alter (fun x => MkInode (in_written x) (in_synced x `max` count)) i (gs_inodes st)).

(** After the flush: the outcome is published and every waiter is woken. *)
Definition finish (k : nat) (covered : Z) (i count : nat) (ok : bool) st : gstate :=
  let st := if ok then sync_data i count st else st in
  let durable := ss_durable (gs_sync st) in
  let st := with_sync st (MkSync (if ok then durable `max` covered else durable)%Z false) in
  move k (Returned ok) (notify_all st).

(** The next step of one call of [sync_pending]; [ok] is the outcome of its flush. *)
Definition sync_pending_step (k : nat) (ok : bool) st : option gstate :=
  c ← gs_calls st !! k;
  match c_pc c with
  | Started => Some (move k (Entering (gs_appended st)) st)
  | Entering target => Some (check k target st)
  | Asleep _ => None
  | Syncing target covered =>
      let '(st, i) := with_handle st in Some (move k (Flushing target covered i (length (written st i))) st)
  | Flushing target covered i count => Some (finish k covered i count ok st)
  | Returned _ => None
  end.

(** ** The writer *)

(** [rotate]: the records above the checkpoint in a new file that is on disk before its rename; nothing when
    there is none to drop. *)
Definition kept st : list Z := filter (fun s => gs_checkpoint st < s)%Z (written st (gs_name st)).

Definition rename_rotated (j : nat) st : gstate :=
  MkState (<[j := MkInode (kept st) (length (kept st))]> (gs_inodes st)) j (gs_entry st) (gs_slot st) (gs_checkpoint st) (gs_last st) (gs_appended st) (gs_sync st) (gs_writer st) (gs_calls st).

(** [sync_parent_dir] *)
Definition sync_parent_dir st : gstate :=
  MkState (gs_inodes st) (gs_name st) (gs_name st) (gs_slot st) (gs_checkpoint st) (gs_last st) (gs_appended st) (gs_sync st) (gs_writer st) (gs_calls st).

(** [reset_sync_state] *)
Definition reset_sync_state st : gstate := notify_all (with_sync st (MkSync 0 false)).

Definition draw_sequence (s : Z) st : gstate :=
  MkState (gs_inodes st) (gs_name st) (gs_entry st) (gs_slot st) (gs_checkpoint st) s (gs_appended st) (gs_sync st) (gs_writer st) (gs_calls st).

Definition advance_checkpoint (c : Z) st : gstate :=
  MkState (gs_inodes st) (gs_name st) (gs_entry st) (gs_slot st) c (gs_last st) (gs_appended st) (gs_sync st) (gs_writer st) (gs_calls st).

(** The moves of the writer.  [faulty]: the sync of the directory may fail, after which [rotate] returns its
    error and the checkpoint reports it as a warning. *)
Inductive writer_step (faulty : bool) : gstate -> gstate -> Prop :=
| step_lock st : gs_writer st = Free -> writer_step faulty st (with_writer st (Appending []))
| step_write st mine s : gs_writer st = Appending mine -> (gs_last st < s)%Z ->
    writer_step faulty st (with_writer (append_line s (draw_sequence s st)) (Noting s mine))
| step_note st mine s : gs_writer st = Noting s mine -> writer_step faulty st (with_writer (note_appended s st) (Appending (mine ++ [s])))
| step_checkpoint st mine c : gs_writer st = Appending mine -> (gs_checkpoint st <= c <= gs_last st)%Z -> writer_step faulty st (advance_checkpoint c st)
| step_rotate st mine j : gs_writer st = Appending mine -> gs_inodes st !! j = None -> length (kept st) <> length (written st (gs_name st)) ->
    writer_step faulty st (with_writer (rename_rotated j st) (Renamed mine))
| step_directory st mine : gs_writer st = Renamed mine -> writer_step faulty st (with_writer (sync_parent_dir st) (Linked mine))
| step_directory_fails st mine : gs_writer st = Renamed mine -> faulty = true -> writer_step faulty st (with_writer st (Appending mine))
| step_clear st mine : gs_writer st = Linked mine -> writer_step faulty st (with_writer (with_slot st None) (Cleared mine))
| step_reset st mine : gs_writer st = Cleared mine -> writer_step faulty st (with_writer (reset_sync_state st) (Appending mine))
| step_unlock st mine k : gs_writer st = Appending mine -> gs_calls st !! k = None ->
    writer_step faulty st (with_calls (with_writer st Free) (<[k := MkCall mine Started]> (gs_calls st))).

Definition sync_step st st' : Prop := exists k ok, sync_pending_step k ok st = Some st'.

(** What the system does by itself: written records and the renamed entry may reach the disk, and a wait may
    end without a notification. *)
Inductive system_step : gstate -> gstate -> Prop :=
| step_writeback st i count : (count <= length (written st i))%nat -> system_step st (sync_data i count st)
| step_entry st : system_step st (sync_parent_dir st)
| step_spurious st k c : gs_calls st !! k = Some c -> system_step st (with_calls st (<[k := woken c]> (gs_calls st))).

Definition gstep (faulty : bool) st st' : Prop := writer_step faulty st st' \/ sync_step st st' \/ system_step st st'.

(** A crash keeps a file the path may name on disk, with at least the records that were flushed. *)
Definition survives st (log : list Z) : Prop :=
  exists i x n, (i = gs_name st \/ i = gs_entry st) /\ gs_inodes st !! i = Some x /\ (in_synced x <= n)%nat /\ log = take n (in_written x).

(** ** What is safe *)

Implicit Types (st : gstate) (s : Z).

Definition mine_of (w : writer) : list Z :=
  match w with
  | Free => []
  | Noting s mine => mine ++ [s]
  | Appending mine | Renamed mine | Linked mine | Cleared mine => mine
  end.

(** The records appended since the start. *)
Definition appended_in st s : Prop := s ∈ mine_of (gs_writer st) \/ exists k c, gs_calls st !! k = Some c /\ s ∈ c_mine c.

Definition in_file st (i : nat) s : Prop := (s <= gs_checkpoint st)%Z \/ exists x, gs_inodes st !! i = Some x /\ s ∈ in_written x.
Definition flushed_by st (i count : nat) s : Prop := exists x, gs_inodes st !! i = Some x /\ s ∈ take count (in_written x).
Definition on_disk st (i : nat) s : Prop := (s <= gs_checkpoint st)%Z \/ exists x, gs_inodes st !! i = Some x /\ s ∈ take (in_synced x) (in_written x).

(** The files a crash may keep. *)
Definition named st (j : nat) : Prop := j = gs_name st \/ j = gs_entry st.
Definition safe st s : Prop := forall j, named st j -> on_disk st j s.

(** What holds of a call wherever it stands: the flush it runs covers what it will publish. *)
Definition call_ok st (c : call) : Prop :=
  match c_pc c with
  | Started => forall s, s ∈ c_mine c -> (s <= gs_appended st)%Z
  | Entering t | Asleep t => (t <= gs_appended st)%Z /\ forall s, s ∈ c_mine c -> (s <= t)%Z
  | Syncing _ covered => (covered <= gs_appended st)%Z /\ forall s, s ∈ c_mine c -> (s <= covered)%Z
  | Flushing _ covered i count =>
      (covered <= gs_appended st)%Z /\ (forall s, s ∈ c_mine c -> (s <= covered)%Z) /\
      forall s, appended_in st s -> (s <= covered)%Z -> forall j, named st j -> on_disk st j s \/ (i = j /\ flushed_by st i count s)
  | Returned ok => ok = true -> forall s, s ∈ c_mine c -> safe st s
  end.

(** The handle and the names, by the phase of the writer. *)
Definition phase_ok st : Prop :=
  match gs_writer st with
  | Free | Appending _ | Noting _ _ => gs_entry st = gs_name st /\ (gs_slot st = None \/ gs_slot st = Some (gs_name st))
  | Renamed _ => (forall s, appended_in st s -> on_disk st (gs_name st) s) /\ (gs_slot st = Some (gs_entry st) \/ forall s, appended_in st s -> safe st s)
  | Linked _ => gs_entry st = gs_name st /\ forall s, appended_in st s -> safe st s
  | Cleared _ => gs_entry st = gs_name st /\ (gs_slot st = None \/ gs_slot st = Some (gs_name st)) /\ forall s, appended_in st s -> safe st s
  end.

(** The records of the holder of the lock are within [APPENDED], but for the one being noted. *)
Definition noted_ok st : Prop :=
  match gs_writer st with
  | Noting s mine => forall x, x ∈ mine -> (x <= gs_appended st)%Z
  | w => forall x, x ∈ mine_of w -> (x <= gs_appended st)%Z
  end.

Record gstate_ok st : Prop := {
  go_bounds : (0 <= ss_durable (gs_sync st) <= gs_appended st)%Z /\ (gs_appended st <= gs_last st)%Z;
  go_last : forall s, appended_in st s -> (s <= gs_last st)%Z;
  go_noted : noted_ok st;
  go_names : is_Some (gs_inodes st !! gs_name st) /\ forall i, gs_slot st = Some i -> is_Some (gs_inodes st !! i);
  go_files : forall s, appended_in st s -> forall j, named st j -> in_file st j s;
  go_phase : phase_ok st;
  go_unopened : gs_slot st = None -> forall s, appended_in st s -> safe st s;
  go_durable : forall s, appended_in st s -> (s <= ss_durable (gs_sync st))%Z -> safe st s;
  go_calls : forall k c, gs_calls st !! k = Some c -> call_ok st c;
}.

(** ** Time passes *)

(** Files only grow, and a file that gets a name holds on disk everything appended. *)
Record later st st' : Prop := {
  lt_checkpoint : (gs_checkpoint st <= gs_checkpoint st')%Z;
  lt_appended : (gs_appended st <= gs_appended st')%Z;
  lt_inodes : forall i x, gs_inodes st !! i = Some x ->
    exists x', gs_inodes st' !! i = Some x' /\ in_written x `prefix_of` in_written x' /\ (in_synced x <= in_synced x')%nat;
  lt_named : forall j, named st' j -> named st j \/ forall s, appended_in st s -> on_disk st' j s;
  lt_fresh : forall s, appended_in st' s -> appended_in st s \/ (gs_appended st < s)%Z;
}.

Lemma take_prefix (a b : list Z) n m : a `prefix_of` b -> (n <= m)%nat -> forall x, x ∈ take n a -> x ∈ take m b.
Proof.
  intros [c ->] Hm x Hx. apply list_elem_of_lookup in Hx as [i Hi]. apply lookup_take_Some in Hi as [Hi Hn]. apply list_elem_of_lookup. exists i.
  apply lookup_take_Some. split; [|lia]. by apply lookup_app_l_Some.
Qed.

Lemma on_disk_later st st' j s : later st st' -> on_disk st j s -> on_disk st' j s.
Proof.
  intros Hl [Hc|(x & Hx & Hs)]; [left; pose proof (lt_checkpoint _ _ Hl); lia|]. right. destruct (lt_inodes _ _ Hl _ _ Hx) as (x' & Hx' & Hp & Hn).
  exists x'. split; [done|]. by apply (take_prefix (in_written x) _ (in_synced x)).
Qed.

Lemma flushed_later st st' j n s : later st st' -> flushed_by st j n s -> flushed_by st' j n s.
Proof.
  intros Hl (x & Hx & Hs). destruct (lt_inodes _ _ Hl _ _ Hx) as (x' & Hx' & Hp & Hn). exists x'. split; [done|]. by apply (take_prefix (in_written x) _ n).
Qed.

Lemma in_file_later st st' j s : later st st' -> in_file st j s -> in_file st' j s.
Proof.
  intros Hl [Hc|(x & Hx & Hs)]; [left; pose proof (lt_checkpoint _ _ Hl); lia|]. right. destruct (lt_inodes _ _ Hl _ _ Hx) as (x' & Hx' & [y Hp] & Hn).
  exists x'. split; [done|]. rewrite Hp. apply elem_of_app. by left.
Qed.

Lemma on_disk_in_file st j s : on_disk st j s -> in_file st j s.
Proof. intros [H|(x & Hx & H)]; [by left|]. right. exists x. split; [done|]. apply list_elem_of_lookup in H as [i Hi]. apply lookup_take_Some in Hi as [Hi _]. by eapply list_elem_of_lookup_2. Qed.

Lemma safe_later st st' s : later st st' -> appended_in st s -> safe st s -> safe st' s.
Proof. intros Hl Ha Hs j Hj. destruct (lt_named _ _ Hl j Hj) as [H|H]; [|by apply H]. eapply on_disk_later; [done|]. by apply Hs. Qed.

Lemma call_later st st' c : later st st' -> (forall s, s ∈ c_mine c -> appended_in st s) -> call_ok st c -> call_ok st' c.
Proof.
  intros Hl Hm. pose proof (lt_appended _ _ Hl) as Ha. unfold call_ok. destruct (c_pc c) as [|t|t|t v|t v i n|ok].
  - intros H s Hs. specialize (H s Hs). lia.
  - intros [H1 H2]. split; [lia|done].
  - intros [H1 H2]. split; [lia|done].
  - intros [H1 H2]. split; [lia|done].
  - intros (H1 & H2 & H3). split_and!; [lia|done|]. intros s Hs Hc j Hj. destruct (lt_fresh _ _ Hl s Hs) as [Hs'|]; [|lia].
    destruct (lt_named _ _ Hl j Hj) as [H|H]; [|left; by apply H]. destruct (H3 s Hs' Hc j H) as [H'|[-> H']]; [left; by eapply on_disk_later|].
    right. split; [done|]. by eapply flushed_later.
  - intros H Ho s Hs. eapply safe_later; [done|by apply Hm|]. by apply H.
Qed.

Lemma mine_appended st k c s : gs_calls st !! k = Some c -> s ∈ c_mine c -> appended_in st s.
Proof. intros Hk Hs. right. eauto. Qed.

(** ** Every step keeps the state in order *)

Lemma call_woken st c : call_ok st c -> call_ok st (woken c).
Proof. unfold woken. destruct c as [mine p]. by destruct p. Qed.

Lemma files_later st st' s j : gstate_ok st -> later st st' -> appended_in st s -> named st' j -> in_file st' j s.
Proof.
  intros Hok Hl Ha Hj. destruct (lt_named _ _ Hl j Hj) as [H|H]; [|apply on_disk_in_file; by apply H]. eapply in_file_later; [done|]. by apply (go_files _ Hok).
Qed.

Lemma unopened_safe st s : gstate_ok st -> gs_slot st = None -> appended_in st s -> safe st s.
Proof. intros Hok Hs. by apply (go_unopened _ Hok). Qed.

(** A step that moves calls: the same appended records, files that only grow, and at most the handle opened. *)
Record quiet st st' : Prop := {
  qu_name : gs_name st' = gs_name st;
  qu_entry : gs_entry st' = gs_entry st \/ gs_entry st' = gs_name st;
  qu_checkpoint : gs_checkpoint st' = gs_checkpoint st;
  qu_last : gs_last st' = gs_last st;
  qu_appended : gs_appended st' = gs_appended st;
  qu_writer : gs_writer st' = gs_writer st;
  qu_inodes : forall i x, gs_inodes st !! i = Some x ->
    exists x', gs_inodes st' !! i = Some x' /\ in_written x `prefix_of` in_written x' /\ (in_synced x <= in_synced x')%nat;
  qu_slot : gs_slot st' = gs_slot st \/ (gs_slot st = None /\ gs_slot st' = Some (gs_name st));
  qu_calls : forall k, c_mine <$> gs_calls st' !! k = c_mine <$> gs_calls st !! k;
}.

Lemma quiet_appended st st' s : quiet st st' -> appended_in st' s <-> appended_in st s.
Proof.
  intros Hq. unfold appended_in. rewrite (qu_writer _ _ Hq). apply or_iff_compat_l. pose proof (qu_calls _ _ Hq) as Hc.
  split; intros (k & c & Hk & Hs); specialize (Hc k); rewrite Hk in Hc; cbn in Hc.
  - symmetry in Hc. apply fmap_Some in Hc as (c' & Hk' & E). exists k, c'. by rewrite <- E.
  - apply fmap_Some in Hc as (c' & Hk' & E). exists k, c'. by rewrite <- E.
Qed.

Lemma quiet_later st st' : quiet st st' -> later st st'.
Proof.
  intros Hq. split.
  - by rewrite (qu_checkpoint _ _ Hq).
  - by rewrite (qu_appended _ _ Hq).
  - apply (qu_inodes _ _ Hq).
  - intros j [->| ->]; left; unfold named; [by rewrite (qu_name _ _ Hq); left|]. destruct (qu_entry _ _ Hq) as [->| ->]; auto.
  - intros s Hs. left. by apply (quiet_appended st st').
Qed.

Lemma quiet_phase st st' : gstate_ok st -> quiet st st' -> phase_ok st'.
Proof.
  intros Hok Hq. pose proof (quiet_later _ _ Hq) as Hl. pose proof (go_phase _ Hok) as Hp. unfold phase_ok in *. rewrite (qu_writer _ _ Hq).
  assert (Hsafe : forall s, appended_in st' s -> safe st s -> safe st' s) by (intros s Ha; apply (safe_later _ _ _ Hl); by apply (quiet_appended st st')).
  assert (Hnames : gs_entry st = gs_name st /\ (gs_slot st = None \/ gs_slot st = Some (gs_name st)) -> gs_entry st' = gs_name st' /\ (gs_slot st' = None \/ gs_slot st' = Some (gs_name st'))).
  { intros [He Hs]. rewrite (qu_name _ _ Hq). split; [destruct (qu_entry _ _ Hq); congruence|]. destruct (qu_slot _ _ Hq) as [->|[_ ->]]; auto. }
  assert (Hall : (forall s, appended_in st s -> safe st s) -> forall s, appended_in st' s -> safe st' s) by (intros H s Ha; apply Hsafe, H; [done|]; by apply (quiet_appended st st')).
  destruct (gs_writer st) as [|mine|n mine|mine|mine|mine]; [auto|auto|auto| |destruct Hp as [H1 H2]; split; [rewrite (qu_name _ _ Hq); destruct (qu_entry _ _ Hq); congruence|auto]|destruct Hp as (H1 & H2 & H3); destruct (Hnames (conj H1 H2)); auto].
  destruct Hp as [H1 H2]. assert (H1' : forall s, appended_in st' s -> on_disk st' (gs_name st') s) by (intros s Ha; rewrite (qu_name _ _ Hq); eapply on_disk_later, H1; [done|]; by apply (quiet_appended st st')).
  split; [done|]. destruct H2 as [H2|H2]; [|right; auto]. destruct (qu_entry _ _ Hq) as [He|He]; [|right; intros s Ha j [->| ->]; [by apply H1'|rewrite He, <- (qu_name _ _ Hq); by apply H1']].
  destruct (qu_slot _ _ Hq) as [->|[Hn _]]; [left; congruence|congruence].
Qed.

Lemma quiet_ok st st' : gstate_ok st -> quiet st st' -> (0 <= ss_durable (gs_sync st') <= gs_appended st)%Z ->
  (forall s, appended_in st s -> (s <= ss_durable (gs_sync st'))%Z -> safe st' s) ->
  (forall k c, gs_calls st' !! k = Some c -> (exists c0, gs_calls st !! k = Some c0 /\ (c = c0 \/ c = woken c0)) \/ call_ok st' c) -> gstate_ok st'.
Proof.
  intros Hok Hq Hd Hdurable Hcalls. pose proof (quiet_later _ _ Hq) as Hl. split.
  - rewrite (qu_appended _ _ Hq), (qu_last _ _ Hq). split; [lia|apply Hok].
  - intros s Ha. rewrite (qu_last _ _ Hq). apply Hok. by apply (quiet_appended st st').
  - pose proof (go_noted _ Hok) as Hn. unfold noted_ok in *. by rewrite (qu_writer _ _ Hq), (qu_appended _ _ Hq).
  - destruct (go_names _ Hok) as [[x Hx] Hs]. assert (Hsome : forall i, is_Some (gs_inodes st !! i) -> is_Some (gs_inodes st' !! i)) by (intros i [y Hy]; destruct (qu_inodes _ _ Hq _ _ Hy) as (y' & -> & _); eauto).
    rewrite (qu_name _ _ Hq). split; [eauto|]. intros i Hi. destruct (qu_slot _ _ Hq) as [E|[_ E]]; [|replace i with (gs_name st) by congruence; eauto]. rewrite E in Hi. eauto.
  - intros s Ha j. apply (files_later st); [done..|]. by apply (quiet_appended st st').
  - by eapply quiet_phase.
  - intros Hs s Ha. apply (quiet_appended _ _ _ Hq) in Ha. eapply safe_later; [done..|]. apply Hok; [|done]. destruct (qu_slot _ _ Hq) as [<-|[? _]]; done.
  - intros s Ha. apply Hdurable. by apply (quiet_appended st st').
  - intros k c Hk. destruct (Hcalls k c Hk) as [(c0 & Hk0 & Hc)|]; [|done]. assert (call_ok st c0) as H by (by eapply Hok).
    assert (Hm : forall s, s ∈ c_mine c -> appended_in st s). { intros s Hs. eapply mine_appended; [exact Hk0|]. destruct Hc as [->| ->]; [done|]. unfold woken in Hs. destruct c0 as [m [ | | | | | ]]; done. }
    eapply call_later; [done|done|]. destruct Hc as [->| ->]; [done|by apply call_woken].
Qed.

Lemma quiet_refl st : quiet st st.
Proof. split; eauto. Qed.

Lemma quiet_trans st1 st2 st3 : quiet st1 st2 -> quiet st2 st3 -> quiet st1 st3.
Proof.
  intros H1 H2. split.
  - by rewrite (qu_name _ _ H2), (qu_name _ _ H1).
  - destruct (qu_entry _ _ H2) as [->| ->]; [apply H1|right; apply H1].
  - by rewrite (qu_checkpoint _ _ H2), (qu_checkpoint _ _ H1).
  - by rewrite (qu_last _ _ H2), (qu_last _ _ H1).
  - by rewrite (qu_appended _ _ H2), (qu_appended _ _ H1).
  - by rewrite (qu_writer _ _ H2), (qu_writer _ _ H1).
  - intros i x Hx. destruct (qu_inodes _ _ H1 i x Hx) as (y & Hy & Hp & Hn). destruct (qu_inodes _ _ H2 i y Hy) as (z & Hz & Hp' & Hn').
    exists z. split_and!; [done|by etrans|lia].
  - destruct (qu_slot _ _ H2) as [->|[E ->]]; [apply H1|]. rewrite (qu_name _ _ H1). destruct (qu_slot _ _ H1) as [E'|[_ E']]; [right; split; congruence|congruence].
  - intros k. by rewrite (qu_calls _ _ H2), (qu_calls _ _ H1).
Qed.

Lemma quiet_move k p st : quiet st (move k p st).
Proof. split; eauto. intros j. cbn. destruct (decide (j = k)) as [->|Hne]; [rewrite lookup_alter_eq; by destruct (gs_calls st !! k)|by rewrite lookup_alter_ne]. Qed.

Lemma woken_mine c : c_mine (woken c) = c_mine c.
Proof. destruct c as [mine p]. by destruct p. Qed.

Lemma quiet_notify st : quiet st (notify_all st).
Proof. split; eauto. intros j. cbn. rewrite lookup_fmap. destruct (gs_calls st !! j); [cbn; by rewrite woken_mine|done]. Qed.

Lemma quiet_with_sync y st : quiet st (with_sync st y).
Proof. split; eauto. Qed.

Lemma quiet_handle st : quiet st (with_handle st).1.
Proof. unfold with_handle. destruct (gs_slot st) eqn:E; [apply quiet_refl|]. split; cbn; eauto. Qed.

Lemma alter_grows (f : inode -> inode) i st j x : (forall x, in_written x `prefix_of` in_written (f x) /\ (in_synced x <= in_synced (f x))%nat) -> gs_inodes st !! j = Some x ->
  exists x', alter f i (gs_inodes st) !! j = Some x' /\ in_written x `prefix_of` in_written x' /\ (in_synced x <= in_synced x')%nat.
Proof. intros Hf Hx. destruct (decide (j = i)) as [->|Hne]; [rewrite lookup_alter_eq, Hx; eexists; split; [done|apply Hf]|rewrite lookup_alter_ne by done; eauto]. Qed.

Lemma quiet_sync_data i n st : quiet st (sync_data i n st).
Proof. split; eauto. intros j x Hx. apply alter_grows; [|done]. intros y. cbn. split; [done|lia]. Qed.

Lemma quiet_directory st : quiet st (sync_parent_dir st).
Proof. split; eauto. Qed.

Lemma move_lookup k p st j c : gs_calls (move k p st) !! j = Some c -> (j <> k /\ gs_calls st !! j = Some c) \/ (j = k /\ exists c0, gs_calls st !! k = Some c0 /\ c = MkCall (c_mine c0) p).
Proof.
  cbn. destruct (decide (j = k)) as [->|Hne]; [|rewrite lookup_alter_ne by done; auto]. rewrite lookup_alter_eq. intros H. apply fmap_Some in H as (c0 & H0 & ->). right. eauto.
Qed.

(** A step of a call whose sync state claims no more, in which the call itself ends in order. *)
Lemma call_move_ok k p st st1 : gstate_ok st -> quiet st st1 -> (0 <= ss_durable (gs_sync st1) <= gs_appended st)%Z ->
  (forall s, appended_in st s -> (s <= ss_durable (gs_sync st1))%Z -> safe st1 s) ->
  (forall j c, gs_calls st1 !! j = Some c -> exists c0, gs_calls st !! j = Some c0 /\ (c = c0 \/ c = woken c0)) ->
  (forall c, gs_calls st !! k = Some c -> call_ok (move k p st1) (MkCall (c_mine c) p)) -> gstate_ok (move k p st1).
Proof.
  intros Hok Hq Hd Hs Hcalls Hc. pose proof (quiet_move k p st1) as Hm. apply (quiet_ok st); [done|by eapply quiet_trans|done| |].
  - intros s Ha Hle. eapply safe_later; [by apply quiet_later| |by apply Hs]. by apply (quiet_appended st st1).
  - intros j c [[Hne Hj]|[-> (c0 & Hj & ->)]]%move_lookup; [left; by apply Hcalls|]. right. destruct (Hcalls _ _ Hj) as (c1 & Hk & Hw).
    replace (c_mine c0) with (c_mine c1) by (destruct Hw as [->| ->]; [done|by rewrite woken_mine]). by apply Hc.
Qed.

Lemma same_calls st st1 : gs_calls st1 = gs_calls st -> forall j c, gs_calls st1 !! j = Some c -> exists c0, gs_calls st !! j = Some c0 /\ (c = c0 \/ c = woken c0).
Proof. intros -> j c H. eauto. Qed.

Lemma durable_stays st st1 : gstate_ok st -> quiet st st1 -> ss_durable (gs_sync st1) = ss_durable (gs_sync st) ->
  forall s, appended_in st s -> (s <= ss_durable (gs_sync st1))%Z -> safe st1 s.
Proof. intros Hok Hq E s Ha Hs. rewrite E in Hs. eapply safe_later; [by apply quiet_later|done|]. by apply (go_durable _ Hok). Qed.

Lemma check_ok k t st c : gstate_ok st -> gs_calls st !! k = Some c -> c_pc c = Entering t -> gstate_ok (check k t st).
Proof.
  intros Hok Hk Hp. pose proof (go_calls _ Hok k c Hk) as Hc. unfold call_ok in Hc. rewrite Hp in Hc. destruct Hc as [Ht Hm]. pose proof (go_bounds _ Hok) as [Hb _]. unfold check.
  destruct (Z.leb_spec t (ss_durable (gs_sync st))); [|destruct (ss_syncing (gs_sync st))].
  - apply (call_move_ok k _ st); [done|apply quiet_refl|done|apply (go_durable _ Hok)|by apply same_calls|]. intros c' Hk'. simplify_eq. intros _ s Hs.
    eapply safe_later; [apply quiet_later, quiet_move|by eapply mine_appended|]. apply (go_durable _ Hok); [by eapply mine_appended|]. specialize (Hm s Hs). lia.
  - apply (call_move_ok k _ st); [done|apply quiet_refl|done|apply (go_durable _ Hok)|by apply same_calls|]. intros c' Hk'. simplify_eq. by split.
  - apply (call_move_ok k _ st); [done|apply quiet_with_sync|done|apply durable_stays; [done|apply quiet_with_sync|done]|by apply same_calls|]. intros c' Hk'. simplify_eq.
    split; [done|]. intros s Hs. specialize (Hm s Hs). cbn. lia.
Qed.

Lemma finish_ok k t v i n ok st c : gstate_ok st -> gs_calls st !! k = Some c -> c_pc c = Flushing t v i n -> gstate_ok (finish k v i n ok st).
Proof.
  intros Hok Hk Hp. pose proof (go_calls _ Hok k c Hk) as Hc. unfold call_ok in Hc. rewrite Hp in Hc. destruct Hc as (Hv & Hm & Hf). pose proof (go_bounds _ Hok) as [Hb _].
  unfold finish. set (st1 := if ok then sync_data i n st else st).
  assert (Hq1 : quiet st st1) by (destruct ok; [apply quiet_sync_data|apply quiet_refl]). assert (Es : gs_sync st1 = gs_sync st) by (by destruct ok).
  set (st2 := with_sync st1 _). assert (Hq2 : quiet st (notify_all st2)) by (eapply quiet_trans; [exact Hq1|]; eapply quiet_trans; [apply quiet_with_sync|apply quiet_notify]).
  assert (Hsafe : ok = true -> forall s, appended_in st s -> (s <= v)%Z -> safe (notify_all st2) s).
  { intros -> s Ha Hs j Hj. assert (Hj' : named st j) by exact Hj. destruct (Hf s Ha Hs j Hj') as [H|[<- (x & Hx & Hin)]]; [eapply on_disk_later; [by apply quiet_later|done]|].
    right. exists (MkInode (in_written x) (in_synced x `max` n)). cbn. rewrite lookup_alter_eq, Hx. split; [done|]. apply (take_prefix (in_written x) _ n); [done|cbn; lia|done]. }
  apply (call_move_ok k _ st); [done|done| | | |].
  - cbn. rewrite Es. destruct ok; lia.
  - intros s Ha Hs. cbn in Hs. rewrite Es in Hs.
    assert ((s <= ss_durable (gs_sync st))%Z \/ (ok = true /\ (s <= v)%Z)) as [H|[? H]] by (destruct ok; lia); [|by apply Hsafe]. eapply safe_later; [by apply quiet_later|done|]. by apply (go_durable _ Hok).
  - intros j c0 Hj. cbn in Hj. rewrite lookup_fmap in Hj. apply fmap_Some in Hj as (c1 & Hj & ->). exists c1. split; [by destruct ok|by right].
  - intros c' Hk'. simplify_eq. intros Ho s Hs. cbn in Hs. eapply safe_later; [apply quiet_later, quiet_move| |].
    + apply (quiet_appended _ _ _ Hq2). by eapply mine_appended.
    + apply Hsafe; [done|by eapply mine_appended|by apply Hm].
Qed.

Lemma take_file_ok k t v st c : gstate_ok st -> gs_calls st !! k = Some c -> c_pc c = Syncing t v ->
  gstate_ok (let '(st, i) := with_handle st in move k (Flushing t v i (length (written st i))) st).
Proof.
  intros Hok Hk Hp. pose proof (go_calls _ Hok k c Hk) as Hc. unfold call_ok in Hc. rewrite Hp in Hc. destruct Hc as [Hv Hm]. pose proof (go_bounds _ Hok) as [Hb _].
  pose proof (quiet_handle st) as Hq. destruct (with_handle st) as [st1 i] eqn:E. cbn in Hq.
  assert (E1 : gs_calls st1 = gs_calls st /\ gs_sync st1 = gs_sync st /\ gs_appended st1 = gs_appended st) by (unfold with_handle in E; destruct (gs_slot st); simplify_eq; done).
  destruct E1 as (Ec & Es & Ea). apply (call_move_ok k _ st); [done|done|by rewrite Es|apply durable_stays; [done|done|by rewrite Es]|by apply same_calls|].
  intros c' Hk'. simplify_eq. unfold call_ok. cbn [c_pc c_mine]. split_and!; [cbn; lia|done|]. intros s Ha Hs j Hj. apply (quiet_appended st1) in Ha; [|apply quiet_move].
  apply (quiet_appended st) in Ha; [|done]. assert (Hj' : named st j) by (unfold with_handle in E; destruct (gs_slot st); simplify_eq; exact Hj).
  assert (Hgo : forall m m', named st m -> i = m -> flushed_by (move k (Flushing t v i m') st1) i (length (written st1 i)) s \/ (s <= gs_checkpoint st)%Z).
  { intros m m' Hm' <-. destruct (go_files _ Hok s Ha i Hm') as [H|(x & Hx & Hin)]; [by right|]. left. destruct (qu_inodes _ _ Hq i x Hx) as (x' & Hx' & [y Ey] & _).
    exists x'. split; [done|]. unfold written. rewrite Hx', take_ge by done. rewrite Ey. apply elem_of_app. by left. }
  assert (Hd : safe st s -> on_disk (move k (Flushing t v i (length (written st1 i))) st1) j s) by (intros H; eapply on_disk_later; [apply quiet_later, (quiet_trans st st1); [done|apply quiet_move]|by apply H]).
  assert (Hi : i = j -> on_disk (move k (Flushing t v i (length (written st1 i))) st1) j s \/ i = j /\ flushed_by (move k (Flushing t v i (length (written st1 i))) st1) i (length (written st1 i)) s).
  { intros <-. destruct (Hgo i (length (written st1 i)) Hj' eq_refl) as [H|H]; [by right|]. left. left. cbn. by rewrite (qu_checkpoint _ _ Hq). }
  unfold with_handle in E. destruct (gs_slot st) as [i0|] eqn:Eslot; [|left; apply Hd; by apply (go_unopened _ Hok)]. injection E as <- <-.
  pose proof (go_phase _ Hok) as Hph. unfold phase_ok in Hph. rewrite Eslot in Hph.
  destruct (gs_writer st) as [|mine|n mine|mine|mine|mine]; [| | | |left; apply Hd; by apply Hph|left; apply Hd; by apply Hph].
  1-3: apply Hi; destruct Hph as [He [?|[= ->]]]; [done|]; destruct Hj' as [->| ->]; congruence.
  destruct Hph as [Hn [[= ->]|Hs']]; [|left; by apply Hd, Hs']. destruct Hj' as [->| ->]; [|by apply Hi].
  left. eapply on_disk_later; [apply quiet_later, quiet_move|by apply Hn].
Qed.

Lemma sync_step_ok st st' : gstate_ok st -> sync_step st st' -> gstate_ok st'.
Proof.
  intros Hok (k & ok & H). unfold sync_pending_step in H. destruct (gs_calls st !! k) as [c|] eqn:Hk; [|done]. cbn in H. destruct (c_pc c) as [|t|t|t v|t v i n|o] eqn:Hp; [| |done| | |done].
  - injection H as <-. pose proof (go_calls _ Hok k c Hk) as Hc. unfold call_ok in Hc. rewrite Hp in Hc.
    apply (call_move_ok k _ st); [done|apply quiet_refl|apply (go_bounds _ Hok)|apply (go_durable _ Hok)|by apply same_calls|]. intros c' Hk'. simplify_eq. by split.
  - injection H as <-. by eapply check_ok.
  - pose proof (take_file_ok k t v st c Hok Hk Hp) as Ht. destruct (with_handle st) as [st1 i]. by injection H as <-.
  - injection H as <-. by eapply finish_ok.
Qed.

Lemma system_step_ok st st' : gstate_ok st -> system_step st st' -> gstate_ok st'.
Proof.
  intros Hok Hs. revert Hok. destruct Hs as [st0 i n _|st0|st0 k c Hk]; intros Hok.
  - apply (quiet_ok st0); [done|apply quiet_sync_data|apply (go_bounds _ Hok)|apply durable_stays; [done|apply quiet_sync_data|done]|]. intros k c Hk. left. eauto.
  - apply (quiet_ok st0); [done|apply quiet_directory|apply (go_bounds _ Hok)|apply durable_stays; [done|apply quiet_directory|done]|]. intros k c Hk. left. eauto.
  - assert (Hq : quiet st0 (with_calls st0 (<[k := woken c]> (gs_calls st0)))).
    { split; eauto. intros j. cbn. destruct (decide (j = k)) as [->|Hne]; [rewrite lookup_insert_eq, Hk; cbn; by rewrite woken_mine|by rewrite lookup_insert_ne]. }
    apply (quiet_ok st0); [done|done|apply (go_bounds _ Hok)|by apply durable_stays|]. intros j c' Hj. cbn in Hj. left.
    destruct (decide (j = k)) as [->|Hne]; [rewrite lookup_insert_eq in Hj; simplify_eq; eauto|rewrite lookup_insert_ne in Hj by done; eauto].
Qed.

(** ** The writer *)

(** A step of the writer: time passes, the sync state claims no more, and the records it adds are in the files
    that have a name. *)
Lemma writer_ok st st' : gstate_ok st -> later st st' ->
  (0 <= ss_durable (gs_sync st') <= ss_durable (gs_sync st))%Z -> (gs_appended st' <= gs_last st')%Z -> (gs_last st <= gs_last st')%Z ->
  (forall s, appended_in st' s -> appended_in st s \/ ((s <= gs_last st')%Z /\ (gs_appended st < s)%Z /\ forall j, named st' j -> in_file st' j s)) ->
  noted_ok st' -> (is_Some (gs_inodes st' !! gs_name st') /\ forall i, gs_slot st' = Some i -> is_Some (gs_inodes st' !! i)) -> phase_ok st' ->
  (gs_slot st' = None -> forall s, appended_in st' s -> safe st' s) ->
  (forall k c, gs_calls st' !! k = Some c -> (exists c0, gs_calls st !! k = Some c0 /\ (c = c0 \/ c = woken c0)) \/ call_ok st' c) -> gstate_ok st'.
Proof.
  intros Hok Hl Hd Ha Hlast Hnew Hnoted Hnames Hphase Hun Hcalls. pose proof (go_bounds _ Hok) as [Hb Hb']. pose proof (lt_appended _ _ Hl) as Hap. split; try done.
  - lia.
  - intros s H. destruct (Hnew s H) as [H'|H']; [pose proof (go_last _ Hok s H'); lia|lia].
  - intros s H j Hj. destruct (Hnew s H) as [H'|(_ & _ & H')]; [by apply (files_later st)|by apply H'].
  - intros s H Hs. destruct (Hnew s H) as [H'|(_ & H' & _)]; [|lia]. apply (safe_later st); [done|done|]. apply (go_durable _ Hok); [done|lia].
  - intros k c Hk. destruct (Hcalls k c Hk) as [(c0 & Hk0 & Hc)|]; [|done]. pose proof (go_calls _ Hok k c0 Hk0) as Hc0.
    apply (call_later st); [done| |destruct Hc as [->| ->]; [done|by apply call_woken]]. intros s Hs. eapply mine_appended; [exact Hk0|]. destruct Hc as [->| ->]; [done|by rewrite woken_mine in Hs].
Qed.

(** Files, names and checkpoint as they were. *)
Lemma same_later st st' : gs_inodes st' = gs_inodes st -> (forall j, named st' j -> named st j) -> (gs_checkpoint st <= gs_checkpoint st')%Z -> (gs_appended st <= gs_appended st')%Z ->
  (forall s, appended_in st' s -> appended_in st s) -> later st st'.
Proof. intros Hi Hn Hc Ha Hs. split; [done|done| |intros j Hj; left; by apply Hn|intros s H; left; by apply Hs]. intros i x Hx. exists x. rewrite Hi. split_and!; [done|done|lia]. Qed.

Lemma relabel_appended st w s : mine_of w = mine_of (gs_writer st) -> appended_in (with_writer st w) s <-> appended_in st s.
Proof. intros E. unfold appended_in. cbn. by rewrite E. Qed.

(** A step that only changes the phase of the writer and, where the names agree, the checkpoint, the handle or the sync state. *)
Lemma relabel_ok st st' : gstate_ok st -> gs_inodes st' = gs_inodes st -> gs_name st' = gs_name st -> (gs_entry st' = gs_entry st \/ gs_entry st' = gs_name st) ->
  (gs_checkpoint st <= gs_checkpoint st')%Z -> gs_last st' = gs_last st -> gs_appended st' = gs_appended st -> (0 <= ss_durable (gs_sync st') <= ss_durable (gs_sync st))%Z ->
  (gs_slot st' = gs_slot st \/ (gs_slot st' = None /\ forall s, appended_in st s -> safe st s)) ->
  mine_of (gs_writer st') = mine_of (gs_writer st) -> (forall k, c_mine <$> gs_calls st' !! k = c_mine <$> gs_calls st !! k) ->
  (forall k c, gs_calls st' !! k = Some c -> exists c0, gs_calls st !! k = Some c0 /\ (c = c0 \/ c = woken c0)) -> noted_ok st' -> (later st st' -> phase_ok st') -> gstate_ok st'.
Proof.
  intros Hok Hi Hn He Hc Hlast Ha Hd Hs Hm Hmine Hcalls Hnoted Hp.
  assert (Happ : forall s, appended_in st' s -> appended_in st s).
  { intros s [H|(k & c & Hk & H)]; [left; by rewrite <- Hm|]. right. specialize (Hmine k). rewrite Hk in Hmine. cbn in Hmine. symmetry in Hmine. apply fmap_Some in Hmine as (c0 & Hk0 & E). exists k, c0. by rewrite <- E. }
  assert (Hl : later st st') by (apply same_later; [done| |done|by rewrite Ha|done]; unfold named; rewrite Hn; destruct He as [->| ->]; intros j; tauto).
  apply (writer_ok st); [done|done|done|rewrite Ha, Hlast; apply (go_bounds _ Hok)|by rewrite Hlast|intros s H; left; by apply Happ|done| |by apply Hp| |intros k c H; left; by apply Hcalls].
  - rewrite Hi, Hn. destruct (go_names _ Hok) as [H1 H2]. split; [done|]. intros i E. destruct Hs as [E'|[E' _]]; [|congruence]. rewrite E' in E. by apply H2.
  - intros E s H. apply (safe_later st); [done|by apply Happ|]. destruct Hs as [E'|[_ H']]; [|by apply H', Happ]. apply (go_unopened _ Hok); [congruence|by apply Happ].
Qed.

Lemma woken_calls st : forall k, c_mine <$> (woken <$> gs_calls st) !! k = c_mine <$> gs_calls st !! k.
Proof. intros k. rewrite lookup_fmap. destruct (gs_calls st !! k); [cbn; by rewrite woken_mine|done]. Qed.

Lemma woken_lookup st k c : (woken <$> gs_calls st) !! k = Some c -> exists c0, gs_calls st !! k = Some c0 /\ (c = c0 \/ c = woken c0).
Proof. rewrite lookup_fmap. intros H. apply fmap_Some in H as (c0 & H0 & ->). eauto. Qed.

(** The steps that change no file. *)
Lemma lock_ok st : gstate_ok st -> gs_writer st = Free -> gstate_ok (with_writer st (Appending [])).
Proof.
  intros Hok Hw. apply (relabel_ok st); try done; [by left|split; [apply (go_bounds _ Hok)|done]|by left|by rewrite Hw|eauto| |].
  - intros x Hx. by apply elem_of_nil in Hx.
  - intros Hl. pose proof (go_phase _ Hok) as Hp. unfold phase_ok in Hp. rewrite Hw in Hp. exact Hp.
Qed.

Lemma checkpoint_ok st mine c : gstate_ok st -> gs_writer st = Appending mine -> (gs_checkpoint st <= c)%Z -> gstate_ok (advance_checkpoint c st).
Proof.
  intros Hok Hw Hc. pose proof (go_phase _ Hok) as Hp. pose proof (go_noted _ Hok) as Hn. apply (relabel_ok st); try done; [by left|split; [apply (go_bounds _ Hok)|done]|by left|eauto|].
  intros Hl. unfold phase_ok in *. cbn. rewrite Hw in *. exact Hp.
Qed.

Lemma directory_ok st mine : gstate_ok st -> gs_writer st = Renamed mine -> gstate_ok (with_writer (sync_parent_dir st) (Linked mine)).
Proof.
  intros Hok Hw. pose proof (go_phase _ Hok) as Hp. pose proof (go_noted _ Hok) as Hn. unfold noted_ok, phase_ok in *. rewrite Hw in *.
  apply (relabel_ok st); try done; [by right|split; [apply (go_bounds _ Hok)|done]|by left|by rewrite Hw|eauto|]. intros Hl. split; [done|]. intros s Ha j Hj.
  apply (on_disk_later st); [done|]. replace j with (gs_name st) by (destruct Hj as [->| ->]; done). apply Hp. destruct Ha as [Ha|Ha]; [left; by rewrite Hw|by right].
Qed.

Lemma clear_ok st mine : gstate_ok st -> gs_writer st = Linked mine -> gstate_ok (with_writer (with_slot st None) (Cleared mine)).
Proof.
  intros Hok Hw. pose proof (go_phase _ Hok) as Hp. pose proof (go_noted _ Hok) as Hn. unfold noted_ok, phase_ok in *. rewrite Hw in *. destruct Hp as [He Hp].
  assert (Ha : forall s, appended_in (with_writer (with_slot st None) (Cleared mine)) s -> appended_in st s) by (intros s [H|H]; [left; by rewrite Hw|by right]).
  apply (relabel_ok st); try done; [by left|split; [apply (go_bounds _ Hok)|done]|right; split; [done|exact Hp]|by rewrite Hw|eauto|].
  intros Hl. split_and!; [done|by left|]. intros s H. apply (safe_later st); [done|by apply Ha|by apply Hp, Ha].
Qed.

Lemma reset_ok st mine : gstate_ok st -> gs_writer st = Cleared mine -> gstate_ok (with_writer (reset_sync_state st) (Appending mine)).
Proof.
  intros Hok Hw. pose proof (go_phase _ Hok) as Hp. pose proof (go_noted _ Hok) as Hn. unfold noted_ok, phase_ok in *. rewrite Hw in *.
  apply (relabel_ok st); try done; [by left|split; [done|apply (go_bounds _ Hok)]|by left|by rewrite Hw|exact (woken_calls st)|exact (woken_lookup st)|].
  intros Hl. split; apply Hp.
Qed.

Lemma note_ok st mine s : gstate_ok st -> gs_writer st = Noting s mine -> gstate_ok (with_writer (note_appended s st) (Appending (mine ++ [s]))).
Proof.
  intros Hok Hw. pose proof (go_phase _ Hok) as Hp. pose proof (go_noted _ Hok) as Hn. pose proof (go_bounds _ Hok) as Hb. unfold noted_ok, phase_ok in *. rewrite Hw in *.
  assert (Ha : forall x, appended_in (with_writer (note_appended s st) (Appending (mine ++ [s]))) x <-> appended_in st x) by (intros x; unfold appended_in; cbn; by rewrite Hw).
  assert (Hs : (s <= gs_last st)%Z) by (apply (go_last _ Hok); left; rewrite Hw; apply elem_of_app; right; by apply list_elem_of_singleton).
  assert (Hl : later st (with_writer (note_appended s st) (Appending (mine ++ [s])))) by (apply same_later; try done; [cbn; lia|by intros x Hx; apply Ha]).
  apply (writer_ok st); [done|done|cbn; lia|cbn; lia|done|intros x Hx; left; by apply Ha| |apply (go_names _ Hok)|exact Hp| |intros k c Hk; left; eauto].
  - intros x Hx. cbn in *. apply elem_of_app in Hx as [Hx|Hx]; [specialize (Hn x Hx); lia|]. apply list_elem_of_singleton in Hx as ->. lia.
  - intros E x Hx. apply (safe_later st); [done|by apply Ha|]. apply (go_unopened _ Hok); [done|by apply Ha].
Qed.

Lemma unlock_ok st mine k : gstate_ok st -> gs_writer st = Appending mine -> gs_calls st !! k = None ->
  gstate_ok (with_calls (with_writer st Free) (<[k := MkCall mine Started]> (gs_calls st))).
Proof.
  intros Hok Hw Hk. pose proof (go_phase _ Hok) as Hp. pose proof (go_noted _ Hok) as Hn. pose proof (go_bounds _ Hok) as Hb. unfold noted_ok, phase_ok in *. rewrite Hw in *.
  set (st' := with_calls _ _).
  assert (Ha : forall x, appended_in st' x -> appended_in st x).
  { intros x [Hx|(j & c & Hj & Hx)]; [cbn in Hx; by apply elem_of_nil in Hx|]. cbn in Hj. destruct (decide (j = k)) as [->|Hne]; [rewrite lookup_insert_eq in Hj; simplify_eq; left; by rewrite Hw|].
    rewrite lookup_insert_ne in Hj by done. right. eauto. }
  assert (Hl : later st st') by (apply same_later; done).
  apply (writer_ok st); [done|done|cbn; lia|cbn; lia|done|intros x Hx; left; by apply Ha| |apply (go_names _ Hok)|exact Hp| |].
  - intros x Hx. cbn in Hx. by apply elem_of_nil in Hx.
  - intros E x Hx. apply (safe_later st); [done|by apply Ha|]. apply (go_unopened _ Hok); [done|by apply Ha].
  - intros j c Hj. cbn in Hj. destruct (decide (j = k)) as [->|Hne]; [rewrite lookup_insert_eq in Hj; simplify_eq; right; exact Hn|]. rewrite lookup_insert_ne in Hj by done. left. eauto.
Qed.

Lemma with_handle_name st mine : gstate_ok st -> gs_writer st = Appending mine -> with_handle st = (with_slot st (Some (gs_name st)), gs_name st).
Proof.
  intros Hok Hw. pose proof (go_phase _ Hok) as Hp. unfold phase_ok in Hp. rewrite Hw in Hp. unfold with_handle. destruct st as [inodes name entry slot cp last ap sync w calls]. cbn in *.
  by destruct Hp as [_ [->| ->]].
Qed.

Lemma write_ok st mine s : gstate_ok st -> gs_writer st = Appending mine -> (gs_last st < s)%Z ->
  gstate_ok (with_writer (append_line s (draw_sequence s st)) (Noting s mine)).
Proof.
  intros Hok Hw Hs. pose proof (go_phase _ Hok) as Hp. pose proof (go_noted _ Hok) as Hn. pose proof (go_bounds _ Hok) as Hb. unfold noted_ok, phase_ok in *. rewrite Hw in *.
  assert (E : append_line s (draw_sequence s st) = write_line s (gs_name st) (with_slot (draw_sequence s st) (Some (gs_name st)))).
  { unfold append_line. pose proof (with_handle_name st mine Hok Hw) as Eh. unfold with_handle in *. cbn. destruct (gs_slot st) as [i|]; [|done]. injection Eh as Es ->.
    unfold write_line, with_inodes, with_slot. cbn. by apply (f_equal gs_slot) in Es as ->. }
  rewrite E. set (st' := with_writer _ _). destruct (go_names _ Hok) as [[x Hx] _]. destruct Hp as [He Hslot].
  assert (Ha : forall y, appended_in st' y -> appended_in st y \/ y = s).
  { intros y [Hy|Hy]; [|by left; right]. cbn in Hy. apply elem_of_app in Hy as [Hy|Hy]; [left; left; by rewrite Hw|]. right. by apply list_elem_of_singleton in Hy. }
  assert (Hl : later st st').
  { split; [done|done| |intros j Hj; by left|]. 
    - intros i y Hy. apply alter_grows; [|done]. intros z. cbn. split; [by apply prefix_app_r|lia].
    - intros y Hy. destruct (Ha y Hy) as [H| ->]; [by left|right; lia]. }
  assert (Hname : gs_inodes st' !! gs_name st = Some (MkInode (in_written x ++ [s]) (in_synced x))) by (cbn; by rewrite lookup_alter_eq, Hx).
  apply (writer_ok st); [done|done|cbn; lia|cbn; lia|cbn; lia| |exact Hn| |split; [exact He|by right]|done|intros k c Hk; left; eauto].
  - intros y Hy. destruct (Ha y Hy) as [H| ->]; [by left|]. right. split_and!; [cbn; lia|lia|]. intros j Hj. right. exists (MkInode (in_written x ++ [s]) (in_synced x)).
    replace j with (gs_name st) by (destruct Hj as [->| ->]; done). split; [done|]. cbn. apply elem_of_app. right. by apply list_elem_of_singleton.
  - split; [by eexists; exact Hname|]. intros i [= <-]. by eexists; exact Hname.
Qed.

Lemma rotate_ok st mine j : gstate_ok st -> gs_writer st = Appending mine -> gs_inodes st !! j = None ->
  gstate_ok (with_writer (rename_rotated j st) (Renamed mine)).
Proof.
  intros Hok Hw Hj. pose proof (go_phase _ Hok) as Hp. pose proof (go_noted _ Hok) as Hn. pose proof (go_bounds _ Hok) as Hb. unfold noted_ok, phase_ok in *. rewrite Hw in *.
  set (st' := with_writer _ _). destruct (go_names _ Hok) as [[x Hx] Hopen]. destruct Hp as [He Hslot].
  assert (Ha : forall y, appended_in st' y -> appended_in st y) by (intros y [H|H]; [left; by rewrite Hw|by right]).
  assert (Hnew : gs_inodes st' !! j = Some (MkInode (kept st) (length (kept st)))) by (cbn; by rewrite lookup_insert_eq).
  assert (Hdisk : forall s, appended_in st s -> on_disk st' j s).
  { intros s H. destruct (go_files _ Hok s H (gs_name st) (or_introl eq_refl)) as [Hc|(y & Hy & Hin)]; [by left|]. destruct (decide (s <= gs_checkpoint st)%Z) as [Hc|Hc]; [by left|]. right.
    eexists. split; [exact Hnew|]. cbn. rewrite take_ge by done. unfold kept, written. rewrite Hy. apply list_elem_of_filter. split; [lia|done]. }
  assert (Hl : later st st').
  { split; [done|done| | |intros y Hy; left; by apply Ha].
    - intros i y Hy. exists y. cbn. rewrite lookup_insert_ne by congruence. split_and!; [done|done|lia].
    - intros i [->| ->]; [right; by apply Hdisk|left; by right]. }
  apply (writer_ok st); [done|done|cbn; lia|cbn; lia|done|intros y Hy; left; by apply Ha|exact Hn| | | |intros k c Hk; left; eauto].
  - split; [by eexists; exact Hnew|]. intros i E. cbn in E. destruct (Hopen i E) as [y Hy]. cbn. rewrite lookup_insert_ne by congruence. eauto.
  - split; [intros s H; by apply Hdisk, Ha|]. destruct Hslot as [E|E]; [|left; cbn; congruence]. right. intros s H. apply (safe_later st); [done|by apply Ha|]. apply (go_unopened _ Hok); [done|by apply Ha].
  - intros E s H. apply (safe_later st); [done|by apply Ha|]. apply (go_unopened _ Hok); [done|by apply Ha].
Qed.

Lemma writer_step_ok st st' : gstate_ok st -> writer_step false st st' -> gstate_ok st'.
Proof.
  intros Hok Hs. destruct Hs as [st Hw|st mine s Hw Hs|st mine s Hw|st mine c Hw Hc|st mine j Hw Hj Hk|st mine Hw|st mine Hw Hf|st mine Hw|st mine Hw|st mine k Hw Hk]; [| | | | | |done| | |].
  all: eauto using lock_ok, write_ok, note_ok, rotate_ok, directory_ok, clear_ok, reset_ok, unlock_ok.
  apply (checkpoint_ok st mine); [done..|lia].
Qed.

Lemma gstep_ok st st' : gstate_ok st -> gstep false st st' -> gstate_ok st'.
Proof. intros Hok [H|[H|H]]; [by eapply writer_step_ok|by eapply sync_step_ok|by eapply system_step_ok]. Qed.

Lemma boot_ok file checkpoint last : (0 <= last)%Z -> gstate_ok (boot file checkpoint last).
Proof.
  intros Hl. assert (Ha : forall s, ~ appended_in (boot file checkpoint last) s) by (intros s [H|(k & c & H & _)]; [by apply elem_of_nil in H|cbn in H; by rewrite lookup_empty in H]).
  split; try (intros s H; by apply Ha in H); cbn; [lia| |split; [eauto|done]|split; [done|by left]|intros _ s H; by apply Ha in H|].
  - intros x Hx. by apply elem_of_nil in Hx.
  - intros k c Hk. by rewrite lookup_empty in Hk.
Qed.

Lemma run_ok st st' : gstate_ok st -> rtc (gstep false) st st' -> gstate_ok st'.
Proof. intros Hok Hr. induction Hr; [done|]. eauto using gstep_ok. Qed.

Lemma safe_survives st s log : safe st s -> survives st log -> (s <= gs_checkpoint st)%Z \/ s ∈ log.
Proof.
  intros Hs (i & x & n & Hi & Hx & Hn & ->). destruct (Hs i Hi) as [H|(x' & Hx' & H)]; [by left|]. right. simplify_eq. by apply (take_prefix (in_written x) _ (in_synced x)).
Qed.

(** C6: An acknowledged write survives, as long as no sync of the directory fails.  However the threads of
    [sync_pending] (with flushes that succeed or fail), the writer with its appends, checkpoints and rotations
    of the log, and the system interleave from a start, with every rotation's sync of the directory succeeding,
    and whenever a crash comes: when the call made for a mutation has returned without an error, every record
    the mutation appended is in the log that survives or at or below the checkpoint.  When that sync fails the
    claim is false, as the theorem on the failed sync of the directory shows. *)
Theorem group_commit_durable file checkpoint last st k c s log : (0 <= last)%Z -> rtc (gstep false) (boot file checkpoint last) st ->
  gs_calls st !! k = Some c -> c_pc c = Returned true -> s ∈ c_mine c -> survives st log -> (s <= gs_checkpoint st)%Z \/ s ∈ log.
Proof.
  intros Hl Hr Hk Hp Hs Hlog. pose proof (run_ok _ _ (boot_ok file checkpoint last Hl) Hr) as Hok. pose proof (go_calls _ Hok k c Hk) as Hc.
  unfold call_ok in Hc. rewrite Hp in Hc. eapply safe_survives; [|exact Hlog]. by apply Hc.
Qed.

(** ** Every call returns *)

(** Chosen to flush, and not returned yet. *)
Definition flushing (c : call) : Prop := match c_pc c with Syncing _ _ | Flushing _ _ _ _ => True | _ => False end.
Definition asleep (c : call) : Prop := match c_pc c with Asleep _ => True | _ => False end.
Definition someone st (P : call -> Prop) : Prop := exists k c, gs_calls st !! k = Some c /\ P c.

(** Whoever sleeps, or finds the flag set, has someone flushing to wait for. *)
Definition awaited st : Prop := (ss_syncing (gs_sync st) = true \/ someone st asleep) -> someone st flushing.

Lemma move_someone k p st P : someone (move k p st) P -> someone st P \/ exists c, gs_calls st !! k = Some c /\ P (MkCall (c_mine c) p).
Proof. intros (j & c & Hj & Hc). apply move_lookup in Hj as [[_ Hj]|[-> (c0 & Hk & ->)]]; [left; by exists j, c|right; eauto]. Qed.

Lemma move_other k p st c P : gs_calls st !! k = Some c -> ~ P c -> someone st P -> someone (move k p st) P.
Proof. intros Hk Hn (j & c' & Hj & Hc). exists j, c'. split; [|done]. cbn. rewrite lookup_alter_ne; [done|]. intros ->. congruence. Qed.

Lemma move_self k p st c P : gs_calls st !! k = Some c -> P (MkCall (c_mine c) p) -> someone (move k p st) P.
Proof. intros Hk Hp. exists k, (MkCall (c_mine c) p). split; [|done]. cbn. by rewrite lookup_alter_eq, Hk. Qed.

Lemma notified_awake st : ~ someone (notify_all st) asleep.
Proof. intros (j & c & Hj & Hc). cbn in Hj. rewrite lookup_fmap in Hj. apply fmap_Some in Hj as ([m p] & _ & ->). by destruct p. Qed.

Lemma finish_awaited k v i n ok st : awaited (finish k v i n ok st).
Proof. intros [H|H]; [done|]. unfold finish in H. apply move_someone in H as [H|(c & _ & H)]; [by apply notified_awake in H|done]. Qed.

Lemma check_awaited k t st c : gs_calls st !! k = Some c -> c_pc c = Entering t -> awaited st -> awaited (check k t st).
Proof.
  intros Hk Hp Haw. assert (Hn : ~ flushing c) by (unfold flushing; rewrite Hp; tauto). unfold check, awaited. destruct (t <=? ss_durable (gs_sync st))%Z; [|destruct (ss_syncing (gs_sync st)) eqn:E].
  - intros H. eapply move_other; [done..|]. apply Haw. destruct H as [H|H]; [by left|]. apply move_someone in H as [H|(c' & _ & H)]; [by right|done].
  - intros _. eapply move_other; [done..|]. apply Haw. by left.
  - intros _. by eapply (move_self k _ (with_sync st _)).
Qed.

Lemma sync_step_awaited st st' : awaited st -> sync_step st st' -> awaited st'.
Proof.
  intros Haw (k & ok & H). unfold sync_pending_step in H. destruct (gs_calls st !! k) as [c|] eqn:Hk; [|done]. cbn in H. destruct (c_pc c) as [|t|t|t v|t v i n|o] eqn:Hp; [| |done| | |done].
  - injection H as <-. intros H. eapply move_other; [done|unfold flushing; rewrite Hp; tauto|]. apply Haw. destruct H as [H|H]; [by left|]. apply move_someone in H as [H|(c' & _ & H)]; [by right|done].
  - injection H as <-. by eapply check_awaited.
  - assert (Hc : gs_calls (with_handle st).1 !! k = Some c) by (unfold with_handle; by destruct (gs_slot st)). destruct (with_handle st) as [st1 i]. injection H as <-. intros _. by eapply move_self.
  - injection H as <-. apply finish_awaited.
Qed.

Lemma same_awaited st st' : gs_calls st' = gs_calls st -> gs_sync st' = gs_sync st -> awaited st -> awaited st'.
Proof. unfold awaited, someone. by intros -> ->. Qed.

Lemma writer_step_awaited f st st' : awaited st -> writer_step f st st' -> awaited st'.
Proof.
  intros Haw Hs. destruct Hs as [st Hw|st mine s Hw Hs|st mine s Hw|st mine c Hw Hc|st mine j Hw Hj Hk|st mine Hw|st mine Hw Hf|st mine Hw|st mine Hw|st mine k Hw Hk].
  1,3-8: exact Haw.
  - apply (same_awaited st); [..|done]; unfold append_line, with_handle; cbn; by destruct (gs_slot st).
  - intros [H|H]; [done|]. exfalso. by apply (notified_awake (with_sync st (MkSync 0 false))).
  - intros H. destruct Haw as (j & c & Hj & Hc).
    + destruct H as [H|(j & c & Hj & Hc)]; [by left|]. right. cbn in Hj. destruct (decide (j = k)) as [->|Hne]; [rewrite lookup_insert_eq in Hj; by simplify_eq|]. rewrite lookup_insert_ne in Hj by done. by exists j, c.
    + exists j, c. split; [|done]. cbn. rewrite lookup_insert_ne; [done|]. congruence.
Qed.

Lemma system_step_awaited st st' : awaited st -> system_step st st' -> awaited st'.
Proof.
  intros Haw Hs. destruct Hs as [st i n _|st|st k c Hk]; [exact Haw|exact Haw|]. intros H. destruct Haw as (j & c' & Hj & Hc).
  - destruct H as [H|(j & c' & Hj & Hc)]; [by left|]. right. cbn in Hj. destruct (decide (j = k)) as [->|Hne]; [|rewrite lookup_insert_ne in Hj by done; by exists j, c'].
    rewrite lookup_insert_eq in Hj. simplify_eq. destruct c as [m p]. by destruct p.
  - destruct (decide (j = k)) as [->|Hne]; [|exists j, c'; split; [cbn; by rewrite lookup_insert_ne|done]]. exists k, (woken c). cbn. rewrite lookup_insert_eq. split; [done|]. replace c with c' by congruence. destruct c' as [m p]. by destruct p.
Qed.

Lemma gstep_awaited f st st' : awaited st -> gstep f st st' -> awaited st'.
Proof. intros Haw [H|[H|H]]; [by eapply writer_step_awaited|by eapply sync_step_awaited|by eapply system_step_awaited]. Qed.

(** ** A measure of the work left *)

Definition total (f : call -> nat) (m : gmap nat call) : nat := map_fold (fun _ c n => f c + n)%nat 0%nat m.

Lemma total_delete f m k c : m !! k = Some c -> total f m = (f c + total f (delete k m))%nat.
Proof. intros Hk. unfold total. apply (map_fold_delete_L (fun _ c n => f c + n)%nat); [intros; lia|done]. Qed.

Lemma total_alter f g m k c : m !! k = Some c -> (total f (alter g k m) + f c = f (g c) + total f m)%nat.
Proof.
  intros Hk. rewrite (total_delete f m k c Hk), (total_delete f (alter g k m) k (g c)) by (by rewrite lookup_alter_eq, Hk). rewrite delete_alter_eq. lia.
Qed.

Lemma total_fmap f g m : total f (g <$> m) = total (fun c => f (g c)) m.
Proof. apply map_fold_fmap. Qed.

Lemma total_le f g m n : (forall c, f c <= g c + n)%nat -> (total f m <= total g m + n * size m)%nat.
Proof.
  intros Hf. unfold total. induction m as [|k c m Hk IH] using map_ind; [rewrite !map_fold_empty; lia|].
  rewrite !map_fold_insert_L by (done || intros; lia). rewrite map_size_insert_None by done. specialize (Hf c). lia.
Qed.

Definition weight (c : call) : nat :=
  match c_pc c with Started => 4 | Entering _ => 3 | Syncing _ _ => 2 | Flushing _ _ _ _ => 1 | Asleep _ | Returned _ => 0 end.
Definition pending (c : call) : nat := match c_pc c with Returned _ => 0 | _ => 1 end.

(** Each return pays for waking all the others. *)
Definition cost (n : nat) (c : call) : nat := (5 * n * pending c + weight c)%nat.
Definition work st : nat := total (cost (size (gs_calls st))) (gs_calls st).

Lemma size_alter (g : call -> call) (k : nat) (m : gmap nat call) : size (alter g k m) = size m.
Proof. by rewrite <- !size_dom, dom_alter_L. Qed.

Lemma move_work k p st c : gs_calls st !! k = Some c -> (cost (size (gs_calls st)) (MkCall (c_mine c) p) < cost (size (gs_calls st)) c)%nat -> (work (move k p st) < work st)%nat.
Proof.
  intros Hk Hc. unfold work. cbn [move with_calls gs_calls]. rewrite size_alter. pose proof (total_alter (cost (size (gs_calls st))) (fun c => MkCall (c_mine c) p) _ _ _ Hk). cbn in *. lia.
Qed.

Lemma finish_work k t v i n ok st c : gs_calls st !! k = Some c -> c_pc c = Flushing t v i n -> (work (finish k v i n ok st) < work st)%nat.
Proof.
  intros Hk Hp. set (st1 := if ok then sync_data i n st else st). set (N := size (gs_calls st)).
  assert (E : gs_calls (finish k v i n ok st) = alter (fun c => MkCall (c_mine c) (Returned ok)) k (woken <$> gs_calls st)) by (unfold finish; by destruct ok).
  assert (Hk' : (woken <$> gs_calls st) !! k = Some c) by (rewrite lookup_fmap, Hk; cbn; f_equal; unfold woken; by rewrite Hp).
  unfold work. rewrite E, size_alter, map_size_fmap. fold N. pose proof (total_alter (cost N) (fun c => MkCall (c_mine c) (Returned ok)) _ _ _ Hk') as Ha.
  rewrite total_fmap in Ha. pose proof (total_le (fun c => cost N (woken c)) (cost N) (gs_calls st) 3) as Hle. fold N in Hle.
  assert (Hw : forall c, (cost N (woken c) <= cost N c + 3)%nat) by (intros [m p]; destruct p; cbn; lia). specialize (Hle Hw). unfold cost at 2 3 in Ha. unfold pending, weight in Ha. rewrite Hp in Ha. cbn in Ha, Hle. lia.
Qed.

Lemma sync_step_work st st' : sync_step st st' -> (work st' < work st)%nat.
Proof.
  intros (k & ok & H). unfold sync_pending_step in H. destruct (gs_calls st !! k) as [c|] eqn:Hk; [|done]. cbn in H. destruct (c_pc c) as [|t|t|t v|t v i n|o] eqn:Hp; [| |done| | |done].
  - injection H as <-. apply (move_work k _ st c Hk). unfold cost, pending, weight. rewrite Hp. cbn. lia.
  - injection H as <-. unfold check. destruct (t <=? ss_durable (gs_sync st))%Z; [|destruct (ss_syncing (gs_sync st))].
    1,2: apply (move_work k _ st c Hk); unfold cost, pending, weight; rewrite Hp; cbn; lia.
    apply (move_work k _ (with_sync st _) c Hk). unfold cost, pending, weight. rewrite Hp. cbn. lia.
  - assert (Hc : gs_calls (with_handle st).1 = gs_calls st) by (unfold with_handle; by destruct (gs_slot st)). destruct (with_handle st) as [st1 i]. cbn in Hc. injection H as <-.
    replace (work st) with (work st1) by (unfold work; by rewrite Hc). rewrite <- Hc in Hk. apply (move_work k _ st1 c Hk). unfold cost, pending, weight. rewrite Hp. cbn. lia.
  - injection H as <-. by eapply finish_work.
Qed.

Lemma sync_steps_work n st st' : nsteps sync_step n st st' -> (work st' + n <= work st)%nat.
Proof. induction 1 as [|n st1 st2 st3 H1 _ IH]; [lia|]. apply sync_step_work in H1. lia. Qed.

(** Who has not returned and does not sleep can move; who sleeps waits for one who can. *)
Lemma stuck_returned st k c : awaited st -> ~ (exists st', sync_step st st') -> gs_calls st !! k = Some c -> exists ok, c_pc c = Returned ok.
Proof.
  intros Haw Hn. assert (Hmove : forall k c, gs_calls st !! k = Some c -> asleep c \/ exists ok, c_pc c = Returned ok).
  { intros j c' Hj. unfold asleep. destruct (c_pc c') as [|t|t|t v|t v i n|o] eqn:Hp; [|  |by left| | |right; by exists o].
    all: exfalso; apply Hn; destruct (with_handle st) as [st1 i1] eqn:Eh; eexists _, j, true; unfold sync_pending_step; rewrite Hj; cbn; rewrite Hp, ?Eh; done. }
  intros Hk. destruct (Hmove k c Hk) as [Ha|]; [|done]. exfalso. destruct Haw as (j & c' & Hj & Hf); [right; by exists k, c|].
  destruct (Hmove j c' Hj) as [H|[o H]]; unfold asleep, flushing in *; [by destruct (c_pc c')|by rewrite H in Hf].
Qed.

(** C21: Every call of [sync_pending] returns.  From any state the threads reach in any interleaving, with flushes
    that fail and syncs of the directory that fail, the calls in progress move only a bounded number of times by
    themselves, and when none of them can move, each has returned: no call sleeps on without a flush that will wake it. *)
Theorem group_commit_returns f file checkpoint last st : rtc (gstep f) (boot file checkpoint last) st ->
  (exists bound, forall n st', nsteps sync_step n st st' -> (n <= bound)%nat) /\
  forall st', rtc sync_step st st' -> ~ (exists st'', sync_step st' st'') -> forall k c, gs_calls st' !! k = Some c -> exists ok, c_pc c = Returned ok.
Proof.
  intros Hr. split.
  - exists (work st). intros n st' H. apply sync_steps_work in H. lia.
  - intros st' Hs Hn k c. apply stuck_returned; [|done].
    assert (H0 : awaited (boot file checkpoint last)) by (intros [H|(j & c' & Hj & _)]; [done|cbn in Hj; by rewrite lookup_empty in Hj]).
    assert (H1 : awaited st) by (clear -Hr H0; induction Hr; eauto using gstep_awaited). clear -Hs H1. induction Hs; eauto using sync_step_awaited.
Qed.

(** ** Runs *)

(** A mutation of one record, with the start of its [sync_pending] as call [k]. *)
Definition mutation (k : nat) (s : Z) st : gstate :=
  let st := with_writer (append_line s (draw_sequence s (with_writer st (Appending [])))) (Noting s []) in
  let st := with_writer (note_appended s st) (Appending [s]) in
  with_calls (with_writer st Free) (<[k := MkCall [s] Started]> (gs_calls st)).

Definition sync_run (moves : list (nat * bool)) st : gstate := foldl (fun st m => default st (sync_pending_step m.1 m.2 st)) st moves.

(** The mutation [s], whose checkpoint at [c] rotates the log into the file [j]; [ok]: the directory is synced. *)
Definition rotating_mutation (k : nat) (s c : Z) (j : nat) (ok : bool) st : gstate :=
  let st := with_writer (append_line s (draw_sequence s (with_writer st (Appending [])))) (Noting s []) in
  let st := advance_checkpoint c (with_writer (note_appended s st) (Appending [s])) in
  let st := with_writer (rename_rotated j st) (Renamed [s]) in
  let st := if ok then with_writer (reset_sync_state (with_writer (with_slot (with_writer (sync_parent_dir st) (Linked [s])) None) (Cleared [s]))) (Appending [s])
            else with_writer st (Appending [s]) in
  with_calls (with_writer st Free) (<[k := MkCall [s] Started]> (gs_calls st)).

Lemma writer_once f st st' : writer_step f st st' -> rtc (gstep f) st st'.
Proof. intros H. apply rtc_once. by left. Qed.

Lemma mutation_steps f k s st : gs_writer st = Free -> (gs_last st < s)%Z -> gs_calls st !! k = None -> rtc (gstep f) st (mutation k s st).
Proof.
  intros Hw Hs Hk. etrans; [apply writer_once, step_lock, Hw|]. etrans; [by apply writer_once, (step_write _ _ [] s)|]. etrans; [by apply writer_once, (step_note _ _ [] s)|].
  apply writer_once, (step_unlock _ _ [s] k); [done|]. unfold append_line, with_handle. cbn. by destruct (gs_slot st).
Qed.

Lemma rotating_steps k s c j ok st : gs_writer st = Free -> (gs_last st < s)%Z -> gs_calls st !! k = None -> (gs_checkpoint st <= c <= s)%Z -> gs_inodes st !! j = None ->
  let st1 := advance_checkpoint c (with_writer (note_appended s (with_writer (append_line s (draw_sequence s (with_writer st (Appending [])))) (Noting s []))) (Appending [s])) in
  length (kept st1) <> length (written st1 (gs_name st1)) -> rtc (gstep (negb ok)) st (rotating_mutation k s c j ok st).
Proof.
  intros Hw Hs Hk Hc Hj st1 Hlen. etrans; [apply writer_once, step_lock, Hw|]. etrans; [by apply writer_once, (step_write _ _ [] s)|]. etrans; [by apply writer_once, (step_note _ _ [] s)|].
  assert (Hcalls : forall st, gs_calls (append_line s st) = gs_calls st) by (intros st0; unfold append_line, with_handle; by destruct (gs_slot st0)).
  etrans; [apply writer_once, (step_checkpoint _ _ [s] c); [done|unfold append_line, with_handle; cbn; by destruct (gs_slot st)]|].
  etrans; [apply writer_once, (step_rotate _ _ [s] j); [done| |exact Hlen]|].
  { unfold append_line, with_handle. cbn. destruct (gs_slot st); cbn; (destruct (decide (j = n)) as [->|]) || (destruct (decide (j = gs_name st)) as [->|]); by rewrite ?lookup_alter_eq, ?lookup_alter_ne, Hj. }
  unfold rotating_mutation. destruct ok; cbn [negb].
  - etrans; [by apply writer_once, (step_directory _ _ [s])|]. etrans; [by apply writer_once, (step_clear _ _ [s])|]. etrans; [by apply writer_once, (step_reset _ _ [s])|].
    apply writer_once, (step_unlock _ _ [s] k); [done|]. cbn. rewrite lookup_fmap, Hcalls. cbn. by rewrite Hk.
  - etrans; [by apply writer_once, (step_directory_fails _ _ [s])|]. apply writer_once, (step_unlock _ _ [s] k); [done|]. cbn. rewrite Hcalls. cbn. by rewrite Hk.
Qed.

Lemma sync_run_steps f moves st : rtc (gstep f) st (sync_run moves st).
Proof.
  revert st. induction moves as [|[k ok] moves IH]; intros st; [done|]. cbn. etrans; [|apply IH]. destruct (sync_pending_step k ok st) eqn:E; cbn; [|done].
  apply rtc_once. right. left. by exists k, ok.
Qed.

Definition start : gstate := boot [1; 2]%Z 0 2.

(** Two writers share a flush; a third mutation rotates the log and flushes the new file. *)
Definition shared : gstate := sync_run [(0, true); (0, true); (1, true); (1, true); (0, true); (0, true); (1, true)]%nat (mutation 1 4 (mutation 0 3 start)).
Definition rotated : gstate := sync_run [(2, true); (2, true); (2, true); (2, true)]%nat (rotating_mutation 2 5 3 1 true shared).

Lemma rotated_reached : rtc (gstep false) start rotated.
Proof.
  assert (H1 : rtc (gstep false) start shared) by (etrans; [by apply (mutation_steps _ 0 3)|]; etrans; [by apply (mutation_steps _ 1 4)|]; apply sync_run_steps).
  etrans; [exact H1|]. etrans; [|apply sync_run_steps]. apply (rotating_steps 2 5 3 1 true shared); [done|done|done|done|done|by vm_compute].
Qed.

Lemma group_commit_durable_witness :
  gs_calls rotated !! 1%nat = Some (MkCall [4%Z] (Returned true)) /\ (forall log, survives rotated log -> (4 <= gs_checkpoint rotated)%Z \/ 4%Z ∈ log).
Proof.
  split; [reflexivity|]. intros log Hlog.
  apply (group_commit_durable [1; 2]%Z 0 2 rotated 1 (MkCall [4%Z] (Returned true)) 4 log); [done|exact rotated_reached|reflexivity|reflexivity|by apply list_elem_of_singleton|exact Hlog].
Defined.

(** The second mutation has been appended, the first flushes, the second waits. *)
Definition waiting : gstate := sync_run [(0, true); (0, true); (1, true); (1, true)]%nat (mutation 1 4 (mutation 0 3 start)).

Lemma group_commit_returns_witness :
  gs_calls waiting !! 1%nat = Some (MkCall [4%Z] (Asleep 4)) /\ (exists bound, forall n st', nsteps sync_step n waiting st' -> (n <= bound)%nat).
Proof.
  split; [reflexivity|]. apply (group_commit_returns false [1; 2]%Z 0 2 waiting). etrans; [by apply (mutation_steps _ 0 3)|]. etrans; [by apply (mutation_steps _ 1 4)|]. apply sync_run_steps.
Defined.

(** ** A sync of the directory that fails *)

(** No record on a file is beyond the last sequence number drawn. *)
Definition within st : Prop := forall j x, gs_inodes st !! j = Some x -> Forall (fun y => y <= gs_last st)%Z (in_written x).

(** While [n] has the name of the log, the handle is that of another file and [n] holds [l]. *)
Definition unreached (n i : nat) (l : list Z) st : Prop :=
  is_Some (gs_inodes st !! n) /\
  (gs_name st = n -> gs_slot st = Some i /\ written st n = l /\ match gs_writer st with Free | Appending _ | Noting _ _ => True | _ => False end).

Lemma handle_same st : gs_inodes (with_handle st).1 = gs_inodes st /\ gs_name (with_handle st).1 = gs_name st /\ gs_last (with_handle st).1 = gs_last st.
Proof. unfold with_handle. by destruct (gs_slot st). Qed.

Lemma handle_unreached n i l st : unreached n i l st -> unreached n i l (with_handle st).1.
Proof. unfold with_handle. destruct (gs_slot st) eqn:E; [done|]. intros [Hn Hu]. split; [done|]. intros Hname. destruct (Hu Hname) as [E' _]. congruence. Qed.

Lemma sync_data_lookup j x i count st : gs_inodes (sync_data i count st) !! j = Some x -> exists x0, gs_inodes st !! j = Some x0 /\ in_written x = in_written x0.
Proof.
  cbn. destruct (decide (i = j)) as [->|Hne]; [|rewrite lookup_alter_ne by done; eauto]. rewrite lookup_alter_eq. intros (x0 & Hx & ->)%fmap_Some. by exists x0.
Qed.

Lemma sync_data_written j i count st : written (sync_data i count st) j = written st j.
Proof.
  unfold written. cbn. destruct (decide (i = j)) as [->|Hne]; [|by rewrite lookup_alter_ne]. rewrite lookup_alter_eq. by destruct (gs_inodes st !! j).
Qed.

Lemma sync_data_within i count st : within st -> within (sync_data i count st).
Proof. intros Hw j x (x0 & Hx & ->)%sync_data_lookup. by apply (Hw j). Qed.

Lemma sync_data_unreached n i l j count st : unreached n i l st -> unreached n i l (sync_data j count st).
Proof.
  intros [Hn Hu]. split; [cbn; by apply lookup_alter_is_Some|]. intros Hname. rewrite sync_data_written. by apply Hu.
Qed.

Lemma sync_step_keeps n i l st st' : sync_step st st' -> (within st -> within st') /\ (unreached n i l st -> unreached n i l st').
Proof.
  intros (k & ok & E). unfold sync_pending_step in E. destruct (gs_calls st !! k) as [c|]; [|done]. cbn [mbind option_bind] in E.
  destruct (c_pc c) as [|t|t|t v|t v j m|o]; simplify_eq.
  - done.
  - unfold check. destruct (_ <=? _)%Z; [done|]. by destruct (ss_syncing _).
  - destruct (handle_same st) as (Hi & _ & Hl). pose proof (handle_unreached n i l st) as Hu. destruct (with_handle st) as [st1 j]. simplify_eq. cbn [fst] in *.
    split; [intros Hw; unfold within; cbn; rewrite Hi, Hl; exact Hw|exact Hu].
  - unfold finish. destruct ok; split; intros Hs; try done; [by apply sync_data_within|by apply (sync_data_unreached n i l j m)].
Qed.

Lemma system_step_keeps n i l st st' : system_step st st' -> (within st -> within st') /\ (unreached n i l st -> unreached n i l st').
Proof. intros [st0 j count _|st0|st0 k c _]; [|done|done]. split; [apply sync_data_within|apply sync_data_unreached]. Qed.

Lemma append_inodes s st j x : gs_inodes (append_line s st) !! j = Some x ->
  exists x0, gs_inodes st !! j = Some x0 /\ (in_written x = in_written x0 \/ in_written x = in_written x0 ++ [s]).
Proof.
  unfold append_line. destruct (handle_same st) as (Hi & _). destruct (with_handle st) as [st1 i]. cbn [fst] in Hi. cbn. rewrite Hi.
  destruct (decide (i = j)) as [->|Hne]; [|rewrite lookup_alter_ne by done; eauto]. rewrite lookup_alter_eq. intros (x0 & Hx & ->)%fmap_Some. eauto.
Qed.

Lemma append_unreached n i l s st w : i <> n -> unreached n i l st -> unreached n i l (with_writer (append_line s (draw_sequence s st)) (Noting s w)).
Proof.
  intros Hi [[x Hn] Hu]. unfold append_line, with_handle. cbn [draw_sequence gs_slot gs_name]. destruct (gs_slot st) as [j|] eqn:E.
  - split; [cbn; apply lookup_alter_is_Some; eauto|]. intros Hname. destruct (Hu Hname) as ([= ->] & Hl & _). split; [done|]. split; [|done].
    unfold written in *. cbn. by rewrite lookup_alter_ne.
  - split; [cbn; apply lookup_alter_is_Some; eauto|]. intros Hname. by destruct (Hu Hname).
Qed.

Lemma writer_step_within f st st' : within st -> writer_step f st st' -> within st'.
Proof.
  intros Hw Hs. destruct Hs as [st Hf|st mine s Hf Hs|st mine s Hf|st mine c Hf Hc|st mine j Hf Hj Hk|st mine Hf|st mine Hf Hft|st mine Hf|st mine Hf|st mine k Hf Hk]; try exact Hw.
  - assert (El : gs_last (append_line s (draw_sequence s st)) = s) by (unfold append_line, with_handle; cbn; by destruct (gs_slot st)).
    intros j x Hj. cbn in Hj |- *. rewrite El. apply append_inodes in Hj as (x0 & Hx0 & Hx). specialize (Hw j x0 Hx0).
    assert (Forall (fun y => y <= s)%Z (in_written x0)) as Hall by (eapply Forall_impl; [exact Hw|]; cbn; lia).
    destruct Hx as [->| ->]; [done|]. apply Forall_app. split; [done|]. by apply Forall_singleton.
  - intros j' x. cbn. intros [[<- <-]|[_ Hx]]%lookup_insert_Some; [|by apply (Hw j')]. cbn. unfold kept, written. destruct (gs_inodes st !! gs_name st) as [x0|] eqn:E; [|constructor].
    apply Forall_forall. intros y [_ Hy]%list_elem_of_filter. specialize (Hw _ _ E). by eapply Forall_forall in Hw.
Qed.

Lemma writer_step_unreached n i l f st st' : i <> n -> unreached n i l st -> writer_step f st st' -> unreached n i l st'.
Proof.
  intros Hi Hu Hs. destruct Hs as [st Hf|st mine s Hf Hs|st mine s Hf|st mine c Hf Hc|st mine j Hf Hj Hk|st mine Hf|st mine Hf Hft|st mine Hf|st mine Hf|st mine k Hf Hk].
  2: by apply append_unreached.
  4: { destruct Hu as [[x Hn] _]. split; [cbn; rewrite lookup_insert_ne by congruence; eauto|]. cbn. intros ->. congruence. }
  all: destruct Hu as [Hn Hu]; split; [exact Hn|]; intros Hname; destruct (Hu Hname) as (Hs1 & Hl & Hw); rewrite Hf in Hw; try done.
  cbn. by rewrite Hf.
Qed.

Lemma run_within f st st' : within st -> rtc (gstep f) st st' -> within st'.
Proof.
  intros Hw Hr. induction Hr as [|st st1 st' [H|[H|H]] _ IH]; [done|..]; apply IH; [by eapply writer_step_within|by eapply (sync_step_keeps 0 0 [])|by eapply (system_step_keeps 0 0 [])].
Qed.

Lemma run_unreached n i l f st st' : i <> n -> unreached n i l st -> rtc (gstep f) st st' -> unreached n i l st'.
Proof.
  intros Hi Hu Hr. induction Hr as [|st st1 st' [H|[H|H]] _ IH]; [done|..]; apply IH; [by eapply writer_step_unreached|by eapply sync_step_keeps|by eapply system_step_keeps].
Qed.

Lemma sync_run_cons k ok l st st' : sync_pending_step k ok st = Some st' -> sync_run ((k, ok) :: l) st = sync_run l st'.
Proof. unfold sync_run. cbn [foldl fst snd]. by intros ->. Qed.

Lemma move_at k p st mine q : gs_calls st !! k = Some (MkCall mine q) -> gs_calls (move k p st) !! k = Some (MkCall mine p).
Proof. intros Hk. cbn. by rewrite lookup_alter_eq, Hk. Qed.

(** A call that runs alone, with the file open, flushes it and returns. *)
Lemma call_alone st k mine i : gs_calls st !! k = Some (MkCall mine Started) -> gs_slot st = Some i -> ss_syncing (gs_sync st) = false ->
  (ss_durable (gs_sync st) < gs_appended st)%Z ->
  let st' := sync_run [(k, true); (k, true); (k, true); (k, true)] st in
  gs_calls st' !! k = Some (MkCall mine (Returned true)) /\ gs_name st' = gs_name st.
Proof.
  intros Hk Hs Hf Hd. set (a := gs_appended st) in *. set (st1 := move k (Entering a) st). pose proof (move_at k (Entering a) st _ _ Hk) as H1. fold st1 in H1.
  rewrite (sync_run_cons k true _ st st1) by (unfold sync_pending_step; by rewrite Hk).
  set (st2 := move k (Syncing a a) (with_sync st1 (MkSync (ss_durable (gs_sync st)) true))). pose proof (move_at k (Syncing a a) (with_sync st1 (MkSync (ss_durable (gs_sync st)) true)) _ _ H1) as H2. fold st2 in H2.
  rewrite (sync_run_cons k true _ st1 st2).
  2: { unfold sync_pending_step. rewrite H1. cbn [mbind option_bind c_pc]. unfold check. cbn [st1 move with_calls gs_sync]. rewrite Hf. destruct (Z.leb_spec a (ss_durable (gs_sync st))); [lia|done]. }
  set (n := length (written st2 i)). set (st3 := move k (Flushing a a i n) st2). pose proof (move_at k (Flushing a a i n) st2 _ _ H2) as H3. fold st3 in H3.
  rewrite (sync_run_cons k true _ st2 st3).
  2: { unfold sync_pending_step. rewrite H2. cbn [mbind option_bind c_pc]. unfold with_handle. assert (gs_slot st2 = Some i) as -> by exact Hs. done. }
  rewrite (sync_run_cons k true _ st3 (finish k a i n true st3)) by (unfold sync_pending_step; by rewrite H3).
  split; [|done]. cbn. rewrite lookup_alter_eq, lookup_fmap. cbn in H3. by rewrite H3.
Qed.

(** A mutation that finds the file open and no flush under way is acknowledged by its own call. *)
Lemma next_acknowledged f st mine s i : gs_writer st = Appending mine -> gs_slot st = Some i -> ss_syncing (gs_sync st) = false ->
  (ss_durable (gs_sync st) <= gs_last st)%Z -> (gs_last st < s)%Z ->
  exists st' k, rtc (gstep f) st st' /\ gs_name st' = gs_name st /\ gs_calls st' !! k = Some (MkCall [s] (Returned true)).
Proof.
  intros Hw Hs Hf Hd Hl. set (k0 := fresh (dom (gs_calls st))). set (st1 := with_calls (with_writer st Free) (<[k0 := MkCall mine Started]> (gs_calls st))).
  set (k := fresh (dom (gs_calls st1))). assert (gs_calls st !! k0 = None /\ gs_calls st1 !! k = None) as [Hk0 Hk] by (split; apply not_elem_of_dom, is_fresh).
  set (st2 := mutation k s st1).
  assert (gs_calls st2 !! k = Some (MkCall [s] Started) /\ gs_slot st2 = Some i /\ gs_sync st2 = gs_sync st /\ (s <= gs_appended st2)%Z /\ gs_name st2 = gs_name st) as (E1 & E2 & E3 & E4 & E5).
  { unfold st2, mutation, append_line, with_handle. cbn. rewrite Hs. cbn. rewrite lookup_insert_eq. split_and!; try done. lia. }
  destruct (call_alone st2 k [s] i E1 E2) as [H1 H2]; [by rewrite E3|rewrite E3; lia|].
  exists (sync_run [(k, true); (k, true); (k, true); (k, true)] st2), k. split; [|split; [congruence|exact H1]].
  etrans; [by apply writer_once, (step_unlock _ _ mine k0)|]. fold st1. etrans; [by apply (mutation_steps f k s st1)|]. apply sync_run_steps.
Qed.

(** What holds at every moment, whatever the directory does: the path names a file, and the numbers that were published,
    appended and drawn are in this order. *)
Definition covers (a : Z) (c : call) : Prop := match c_pc c with Syncing _ v | Flushing _ v _ _ => (v <= a)%Z | _ => True end.

Record sound st : Prop := {
  sn_name : is_Some (gs_inodes st !! gs_name st);
  sn_order : (0 <= ss_durable (gs_sync st) <= gs_appended st)%Z /\ (gs_appended st <= gs_last st)%Z;
  sn_calls : forall k c, gs_calls st !! k = Some c -> covers (gs_appended st) c;
  sn_noting : match gs_writer st with Noting s _ => (s <= gs_last st)%Z | _ => True end;
}.

Lemma boot_sound file checkpoint last : (0 <= last)%Z -> sound (boot file checkpoint last).
Proof. intros Hl. split; cbn; [by eexists|lia|intros k c Hk; by rewrite lookup_empty in Hk|done]. Qed.

Lemma move_covers a k p st : covers a (MkCall [] p) -> (forall j c, gs_calls st !! j = Some c -> covers a c) -> forall j c, gs_calls (move k p st) !! j = Some c -> covers a c.
Proof. intros Hp Hc j c [[_ Hj]|[_ (c0 & _ & ->)]]%move_lookup; [by apply (Hc j)|exact Hp]. Qed.

Lemma woken_covers a st : (forall j c, gs_calls st !! j = Some c -> covers a c) -> forall j c, gs_calls (notify_all st) !! j = Some c -> covers a c.
Proof.
  intros Hc j c. cbn. rewrite lookup_fmap. intros ([m q] & Hj & ->)%fmap_Some. specialize (Hc j _ Hj). by destruct q.
Qed.

Lemma sync_step_sound st st' : sound st -> sync_step st st' -> sound st'.
Proof.
  intros [Hn Ho Hc Hw] (k & ok & E). unfold sync_pending_step in E. destruct (gs_calls st !! k) as [c|] eqn:Hk; [|done]. cbn [mbind option_bind] in E.
  pose proof (Hc k c Hk) as Hck. unfold covers in Hck. destruct (c_pc c) as [|t|t|t v|t v j m|o]; simplify_eq.
  - split; [done|done|by apply move_covers|done].
  - unfold check. destruct (_ <=? _)%Z; [split; [done|done|by apply move_covers|done]|]. destruct (ss_syncing _); split; try done; [by apply move_covers|].
    apply (move_covers _ k _ (with_sync st _)); [cbn; lia|done].
  - assert (sound (with_handle st).1) as Hs by (unfold with_handle; by destruct (gs_slot st)). assert (gs_appended (with_handle st).1 = gs_appended st) as Ea by (unfold with_handle; by destruct (gs_slot st)).
    destruct (with_handle st) as [st1 j]. simplify_eq. cbn [fst] in *. destruct Hs as [Hn1 Ho1 Hc1 Hw1]. split; [done|done| |done]. apply move_covers; [cbn; by rewrite Ea|done].
  - assert (sound (if ok then sync_data j m st else st)) as [Hn1 Ho1 Hc1 Hw1].
    { destruct ok; [|done]. split; [cbn; by apply lookup_alter_is_Some|done|done|done]. }
    assert (gs_appended (if ok then sync_data j m st else st) = gs_appended st) as Ea by (by destruct ok). unfold finish. set (st1 := if ok then sync_data j m st else st) in *.
    split; [done| | |done].
    + cbn [move with_calls notify_all with_sync gs_sync ss_durable gs_appended gs_last]. rewrite Ea in *. destruct ok; lia.
    + apply move_covers; [done|]. by apply woken_covers.
Qed.

Lemma writer_step_sound f st st' : sound st -> writer_step f st st' -> sound st'.
Proof.
  intros [Hn Ho Hc Hw] Hs. destruct Hs as [st Hf|st mine s Hf Hs|st mine s Hf|st mine c Hf Hb|st mine j Hf Hj Hk|st mine Hf|st mine Hf Hft|st mine Hf|st mine Hf|st mine k Hf Hk]; try by split.
  - unfold append_line, with_handle. cbn [draw_sequence gs_slot gs_name]. destruct (gs_slot st); (split; cbn; [by apply lookup_alter_is_Some|lia|done|lia]).
  - rewrite Hf in Hw. split; cbn; [done|lia| |done]. intros k c Hk. specialize (Hc k c Hk). unfold covers in *. destruct (c_pc c); lia || done.
  - split; cbn; try done. by rewrite lookup_insert_eq.
  - split; cbn; [done|lia|by apply woken_covers|done].
  - split; cbn; [done|done| |done]. intros j c [[_ <-]|[_ Hj]]%lookup_insert_Some; [done|by apply (Hc j)].
Qed.

Lemma system_step_sound st st' : sound st -> system_step st st' -> sound st'.
Proof.
  intros Hs Hstep. destruct Hstep as [st j count _|st|st k c Hk]; destruct Hs as [Hn Ho Hc Hw]; split; cbn; try done; [by apply lookup_alter_is_Some|].
  intros i x [[_ <-]|[_ Hi]]%lookup_insert_Some; [|by apply (Hc i)]. specialize (Hc k c Hk). destruct c as [m p]. by destruct p.
Qed.

Lemma run_sound f st st' : sound st -> rtc (gstep f) st st' -> sound st'.
Proof.
  intros Hs Hr. induction Hr as [|st st1 st' [H|[H|H]] _ IH]; [done|..]; apply IH; eauto using writer_step_sound, sync_step_sound, system_step_sound.
Qed.

(** C38: A failed sync of the directory loses acknowledged writes.  Take any moment at which [rotate] has renamed the new
    log while the cached handle is of the file it replaced, and let the sync of the directory fail: [rotate] returns the error
    before it drops the handle, and the checkpoint only warns of it.  From then on, until the log is rotated again and
    whatever else happens, the handle stays the old file's and no record drawn since is in the file the log's name stands for;
    so once the rename has reached the disk, no log a crash can leave has any of them.  Yet they are acknowledged: unless
    another call is flushing at that moment, a next mutation exists that is appended and whose call returns without an
    error. *)
Theorem rotation_directory_failure_loses_write file checkpoint last st mine i : Forall (fun y => y <= last)%Z file -> (0 <= last)%Z ->
  rtc (gstep true) (boot file checkpoint last) st -> gs_writer st = Renamed mine -> gs_slot st = Some i -> i <> gs_name st ->
  let failed := with_writer st (Appending mine) in
  writer_step true st failed /\
  (forall st', rtc (gstep true) failed st' -> gs_name st' = gs_name st ->
    gs_slot st' = Some i /\ forall s, (gs_last st < s)%Z -> (s ∉ written st' (gs_name st')) /\ (gs_entry st' = gs_name st' -> forall log, survives st' log -> s ∉ log)) /\
  (ss_syncing (gs_sync st) = false -> forall s, (gs_last st < s)%Z ->
    exists st' k, rtc (gstep true) failed st' /\ gs_name st' = gs_name st /\ gs_calls st' !! k = Some (MkCall [s] (Returned true))).
Proof.
  intros Hfile Hlast Hr Hw Hs Hi failed. pose proof (run_sound _ _ _ (boot_sound file checkpoint last Hlast) Hr) as Hsound. split; [by apply step_directory_fails|]. split.
  - intros st' Hr' Hname. assert (Hb : within st).
    { apply (run_within true (boot file checkpoint last)); [|done]. intros j x. cbn. by intros [<- <-]%lookup_singleton_Some. }
    assert (Hu : unreached (gs_name st) i (written st (gs_name st)) failed).
    { split; [apply Hsound|done]. }
    destruct (run_unreached _ _ _ _ _ _ Hi Hu Hr') as [_ Hu']. destruct (Hu' Hname) as (Hs' & Hl' & _). split; [done|].
    intros s Hlt. assert (s ∉ written st' (gs_name st')) as Hn.
    { rewrite Hname, Hl'. unfold written. destruct (gs_inodes st !! gs_name st) as [x|] eqn:E; [|apply not_elem_of_nil].
      intros Hin. specialize (Hb _ _ E). eapply Forall_forall in Hb; [|exact Hin]. cbn in Hb. lia. }
    split; [done|]. intros Hentry log (j & x & n & Hj & Hx & _ & ->) Hin. apply Hn. unfold written. replace (gs_name st') with j by (destruct Hj; congruence). rewrite Hx.
    apply list_elem_of_lookup in Hin as [m Hm]. apply lookup_take_Some in Hm as [Hm _]. by eapply list_elem_of_lookup_2.
  - intros Hf s Hlt. pose proof (sn_order _ Hsound). apply (next_acknowledged true failed mine s i); [done|done|done|cbn; lia|done].
Qed.

(** The second mutation has renamed the rotated log; the directory is not synced; a third mutation is acknowledged. *)
Definition renaming : gstate :=
  let st := append_line 4 (draw_sequence 4 (with_writer (mutation 0 3 start) (Appending []))) in
  with_writer (rename_rotated 1 (advance_checkpoint 3 (with_writer (note_appended 4 (with_writer st (Noting 4 []))) (Appending [4%Z])))) (Renamed [4%Z]).
Definition unsynced : gstate := with_writer renaming (Appending [4%Z]).
Definition orphaned : gstate :=
  sync_parent_dir (sync_run [(2, true); (2, true); (2, true); (2, true)]%nat (mutation 2 5 (with_calls (with_writer unsynced Free) (<[1%nat := MkCall [4%Z] Started]> (gs_calls unsynced))))).

Lemma renaming_reached : rtc (gstep true) start renaming.
Proof.
  etrans; [by apply (mutation_steps _ 0 3)|]. etrans; [by apply writer_once, step_lock|]. etrans; [by apply writer_once, (step_write _ _ [] 4)|].
  etrans; [by apply writer_once, (step_note _ _ [] 4)|]. etrans; [apply writer_once, (step_checkpoint _ _ [4%Z] 3); [reflexivity|split; vm_compute; discriminate]|].
  apply writer_once, (step_rotate _ _ [4%Z] 1); [reflexivity|reflexivity|vm_compute; discriminate].
Qed.

Lemma orphaned_reached : rtc (gstep true) unsynced orphaned.
Proof.
  etrans; [by apply writer_once, (step_unlock _ _ [4%Z] 1)|]. etrans; [by apply (mutation_steps _ 2 5)|]. etrans; [apply sync_run_steps|]. apply rtc_once. right. right. apply step_entry.
Qed.

Lemma rotation_directory_failure_loses_write_witness :
  gs_calls orphaned !! 2%nat = Some (MkCall [5%Z] (Returned true)) /\ gs_checkpoint orphaned = 3%Z /\ forall log, survives orphaned log -> 5%Z ∉ log.
Proof.
  split; [reflexivity|]. split; [reflexivity|].
  destruct (rotation_directory_failure_loses_write [1; 2]%Z 0 2 renaming [4%Z] 0) as (_ & Hlost & _).
  - repeat constructor; lia.
  - lia.
  - exact renaming_reached.
  - reflexivity.
  - reflexivity.
  - discriminate.
  - destruct (Hlost orphaned orphaned_reached) as [_ Hs]; [vm_compute; reflexivity|]. destruct (Hs 5%Z) as [_ Hgone]; [vm_compute; reflexivity|].
    apply Hgone. vm_compute. reflexivity.
Defined.
