(* ===== verification/Feed.v ===== *)
(** * The live event feed ([src/src/database.rs])

    Every committed mutation is announced on a feed that keeps the last
    events in memory, so that a subscriber can resume from the position of the
    last event it saw.  The file models the audience of an event, the ring and
    its horizon, the subscription and the stream a subscriber is served
    ([subscribe_events] in [src/src/api/routes.rs]), and the classification of
    the failures of opening the database. *)

From Stdlib Require Import ZArith Lia Ascii String.
From stdpp Require Import base tactics list strings option sorting.
From S2P Require Import Prelude Json Entities Wal.

Local Open Scope Z_scope.

(** ** Who may see an event *)

Inductive Audience := Everyone | Owner (only : string).

#[export] Instance audience_eq_dec : EqDecision Audience.
Proof. solve_decision. Defined.

Definition admits (a : Audience) (owner : string) (is_admin : bool) : bool :=
  match a with
  | Everyone => true
  | Owner only => is_admin || String.eqb only owner
  end.

Definition for_node (n : Node) : Audience :=
  match n_visibility n with
  | Public => Everyone
  | Private => Owner (n_owner n)
  end.

(** The audience of a node is who may read it. *)
Lemma for_node_admits n owner is_admin : admits (for_node n) owner is_admin = is_admin || can_read n owner.
Proof. unfold admits, for_node, can_read. destruct (n_visibility n); cbn; [by destruct is_admin|by rewrite orb_true_r]. Qed.

(** ** The ring *)

Definition BROADCAST_CAPACITY : nat := 1024.
Definition EVENT_REPLAY_CAPACITY : nat := BROADCAST_CAPACITY.

Record LiveEvent := MkEvent { ev_seq : Z; ev_payload : string; ev_audience : Audience }.

(** [EventFeed]; [fd_sent] is what has gone to the broadcast channel, and a receiver is the number of
    events sent before it subscribed.  [fd_counters] are the process-wide counters the positions are drawn
    from. *)
Record feed := MkFeed {
  fd_retained : list LiveEvent;
  fd_earliest_resumable : Z;
  fd_sent : list LiveEvent;
  fd_counters : counters;
}.

Definition feed_new (c : counters) : feed :=
  let '(earliest, c) := take_operation_id c in MkFeed [] earliest [] c.

(** The [while] of [emit_with]: drop from the front until there is room, moving the horizon. *)
Fixpoint make_room (fuel : nat) (retained : list LiveEvent) (earliest : Z) : list LiveEvent * Z :=
  match fuel with
  | O => (retained, earliest)
  | S fuel =>
      if (EVENT_REPLAY_CAPACITY <=? length retained)%nat then
        match retained with
        | evicted :: rest => make_room fuel rest (ev_seq evicted)
        | [] => (retained, earliest)
        end
      else (retained, earliest)
  end.

Definition emit_with (audience : Audience) (render : Z -> string) (f : feed) : feed * Z :=
  let '(seq, c) := take_operation_id (fd_counters f) in
  let event := MkEvent seq (render seq) audience in
  let '(retained, earliest) := make_room (length (fd_retained f)) (fd_retained f) (fd_earliest_resumable f) in
  (MkFeed (retained ++ [event]) earliest (fd_sent f ++ [event]) c, seq).

Definition emit (audience : Audience) (payload : string) (f : feed) : feed * Z := emit_with audience (fun _ => payload) f.

Record ResumeTooOld := MkTooOld { rt_requested : Z; rt_earliest : Z; rt_retained : nat }.

Definition subscribe (after : option Z) (f : feed) : result ResumeTooOld (list LiveEvent * nat) :=
  match after with
  | None => Ok ([], length (fd_sent f))
  | Some after =>
      if after <? fd_earliest_resumable f then Err (MkTooOld after (fd_earliest_resumable f) (length (fd_retained f)))
      else Ok (filter (fun e => after < ev_seq e) (fd_retained f), length (fd_sent f))
  end.

(** ** The stream *)

Inductive frame := EventFrame (id : Z) (data : string) | LaggedFrame (dropped : Z).

Definition event_frame (e : LiveEvent) : frame := EventFrame (ev_seq e) (ev_payload e).

(** What the channel hands a receiver: the next event, or the number of events it lost. *)
Inductive received := Received (e : LiveEvent) | Lagged (n : Z).

Definition replay_frames (owner : string) (is_admin : bool) (backlog : list LiveEvent) : list frame :=
  map event_frame (filter (fun e => admits (ev_audience e) owner is_admin = true) backlog).

Definition live_frame (owner : string) (is_admin : bool) (r : received) : option frame :=
  match r with
  | Received e => if admits (ev_audience e) owner is_admin then Some (event_frame e) else None
  | Lagged dropped => Some (LaggedFrame dropped)
  end.

(** [subscribe_events]; [rs] is what the channel delivers while the connection lasts. *)
Definition subscribe_events (owner : string) (is_admin : bool) (after : option Z) (f : feed) (rs : nat -> list received) : result ResumeTooOld (list frame) :=
  match subscribe after f with
  | Err x => Err x
  | Ok (backlog, rx) => Ok (replay_frames owner is_admin backlog ++ omap (live_frame owner is_admin) (rs rx))
  end.

(** ** Failures of opening the database *)

Definition is_access_failure (k : error_kind) : bool :=
  match k with InvalidData | UnexpectedEof | InvalidInput | OtherError => false | _ => true end.

Definition to_ascii_lower (c : ascii) : ascii :=
  let n := nat_of_ascii c in if ((65 <=? n) && (n <=? 90))%nat then ascii_of_nat (n + 32) else c.

Fixpoint to_ascii_lowercase (s : string) : string :=
  match s with EmptyString => EmptyString | String c s => String (to_ascii_lower c) (to_ascii_lowercase s) end.

Definition AUTHENTICATION : list string := ["decrypt"; "authentication"; "master key"; "master_key"]%string.
Definition VERIFICATION : list string :=
  ["checksum"; "crc"; "corrupt"; "deserialize"; "invalid record"; "valid hex"; "magic"; "truncated"; "format version"]%string.

Definition integrity_failure (detail : string) : option bool :=
  let detail := to_ascii_lowercase detail in
  if existsb (str_contains detail) AUTHENTICATION then Some true
  else if existsb (str_contains detail) VERIFICATION then Some false
  else None.

Inductive DatabaseError := StorageFailure (phase : string) (k : error_kind) | IntegrityFailure (authentication : bool) (k : error_kind) | WalRecoveryFailure (k : error_kind).

Definition loading (k : error_kind) (detail : string) : DatabaseError :=
  if is_access_failure k then StorageFailure "loading the storage files" k
  else IntegrityFailure (default false (integrity_failure detail)) k.

Definition recovering (k : error_kind) (detail : string) : DatabaseError :=
  if is_access_failure k then StorageFailure "recovering the write-ahead log" k
  else match integrity_failure detail with
       | Some authentication => IntegrityFailure authentication k
       | None => WalRecoveryFailure k
       end.

Definition exit_code (e : DatabaseError) : Z :=
  match e with StorageFailure _ _ => 1 | IntegrityFailure _ _ => 4 | WalRecoveryFailure _ => 5 end.

(** ** Runs of the feed *)

(** Someone draws a position for something else, or an event is published. *)
Inductive feed_step := Draw | Publish (audience : Audience) (render : Z -> string).

Definition feed_act (s : feed_step) (f : feed) : feed :=
  match s with
  | Draw => MkFeed (fd_retained f) (fd_earliest_resumable f) (fd_sent f) (take_operation_id (fd_counters f)).2
  | Publish audience render => (emit_with audience render f).1
  end.

Fixpoint feed_run (ss : list feed_step) (f : feed) : feed :=
  match ss with [] => f | s :: ss => feed_run ss (feed_act s f) end.

Definition later (a b : LiveEvent) : Prop := ev_seq a < ev_seq b.

(** [dropped] are the events no longer retained. *)
Record feed_ok (start : Z) (dropped : list LiveEvent) (f : feed) : Prop := {
  fo_sent : fd_sent f = dropped ++ fd_retained f;
  fo_earliest : fd_earliest_resumable f = match list.last dropped with Some e => ev_seq e | None => start end;
  fo_order : StronglySorted later (fd_sent f);
  fo_range : Forall (fun e => start < ev_seq e < next_operation_id (fd_counters f)) (fd_sent f);
  fo_start : start < next_operation_id (fd_counters f);
  fo_bound : (length (fd_retained f) <= EVENT_REPLAY_CAPACITY)%nat;
}.

Lemma make_room_spec fuel retained earliest : (length retained <= fuel)%nat ->
  exists d r, retained = d ++ r /\ make_room fuel retained earliest = (r, match list.last d with Some e => ev_seq e | None => earliest end) /\
    (length r < EVENT_REPLAY_CAPACITY)%nat.
Proof.
  revert retained earliest. induction fuel as [|fuel IH]; intros retained earliest Hf; cbn [make_room].
  - exists [], retained. split_and!; [done|done|]. unfold EVENT_REPLAY_CAPACITY, BROADCAST_CAPACITY. lia.
  - destruct (Nat.leb_spec EVENT_REPLAY_CAPACITY (length retained)) as [Hc|Hc]; [|by exists [], retained].
    destruct retained as [|e rest]; [exists [], []; split_and!; [done|done|unfold EVENT_REPLAY_CAPACITY, BROADCAST_CAPACITY; cbn; lia]|].
    cbn [length] in Hf. destruct (IH rest (ev_seq e)) as (d & r & -> & -> & Hr); [lia|]. exists (e :: d), r. split_and!; [done| |done].
    rewrite last_cons. by destruct (list.last d).
Qed.

Lemma feed_act_ok start dropped f s : feed_ok start dropped f -> 0 <= start -> next_operation_id (fd_counters f) + 1 < 2 ^ 64 ->
  (exists dropped', feed_ok start dropped' (feed_act s f)) /\ next_operation_id (fd_counters (feed_act s f)) = next_operation_id (fd_counters f) + 1 /\
  exists new, fd_sent (feed_act s f) = fd_sent f ++ new /\ Forall (fun e => next_operation_id (fd_counters f) <= ev_seq e) new.
Proof.
  intros [Hs He Ho Hr Hst Hb] Hpos Hn. assert (bump (next_operation_id (fd_counters f)) = next_operation_id (fd_counters f) + 1) as Eb by (unfold bump; apply Z.mod_small; lia).
  assert (forall l, Forall (fun e => start < ev_seq e < next_operation_id (fd_counters f)) l -> Forall (fun e => start < ev_seq e < next_operation_id (fd_counters f) + 1) l) as Hw
    by (intros l Hl; eapply Forall_impl; [exact Hl|]; cbn beta; lia).
  destruct s as [|audience render]; cbn [feed_act].
  - cbn [take_operation_id snd fd_counters next_operation_id fd_sent]. rewrite Eb. split; [|split; [done|exists []; by rewrite app_nil_r]].
    exists dropped. split; cbn [fd_sent fd_retained fd_earliest_resumable fd_counters take_operation_id snd next_operation_id]; rewrite ?Eb; try done; [by apply Hw|lia].
  - unfold emit_with, take_operation_id. destruct (make_room_spec (length (fd_retained f)) (fd_retained f) (fd_earliest_resumable f)) as (d & r & Er & -> & Hl); [lia|].
    cbn [fst fd_counters next_operation_id fd_sent]. rewrite Eb. split; [|split; [done|eexists; split; [done|by repeat constructor]]]. exists (dropped ++ d).
    split; cbn [fd_sent fd_retained fd_earliest_resumable fd_counters next_operation_id]; rewrite ?Eb.
    + by rewrite Hs, Er, <- !app_assoc.
    + rewrite last_app. destruct (list.last d); [done|]. by rewrite He.
    + apply sorted_snoc; [done|]. eapply Forall_impl; [exact Hr|]. unfold later. cbn. lia.
    + apply Forall_app. split; [by apply Hw|]. repeat constructor; cbn; lia.
    + lia.
    + rewrite length_app. cbn [length]. lia.
Qed.

Lemma feed_run_ok ss start dropped f : feed_ok start dropped f -> 0 <= start -> next_operation_id (fd_counters f) + Z.of_nat (length ss) < 2 ^ 64 ->
  (exists dropped', feed_ok start dropped' (feed_run ss f)) /\ next_operation_id (fd_counters (feed_run ss f)) = next_operation_id (fd_counters f) + Z.of_nat (length ss) /\
  exists new, fd_sent (feed_run ss f) = fd_sent f ++ new /\ Forall (fun e => next_operation_id (fd_counters f) <= ev_seq e) new.
Proof.
  revert dropped f. induction ss as [|s ss IH]; intros dropped f Hok Hpos Hn; cbn [feed_run length] in *; [split; [by exists dropped|split; [lia|exists []; by rewrite app_nil_r]]|].
  destruct (feed_act_ok start dropped f s Hok Hpos) as ((d' & Hok') & Ec & new & Es & Hnew); [lia|]. destruct (IH d' _ Hok' Hpos) as (Hr & Ec' & new' & Es' & Hnew'); [lia|].
  split; [done|]. split; [lia|]. exists (new ++ new'). rewrite Es', Es, app_assoc. split; [done|]. apply Forall_app. split; [done|]. eapply Forall_impl; [exact Hnew'|]. cbn beta. lia.
Qed.

Lemma feed_new_ok c : 0 <= next_operation_id c -> next_operation_id c + 1 < 2 ^ 64 -> feed_ok (next_operation_id c) [] (feed_new c) /\ next_operation_id (fd_counters (feed_new c)) = next_operation_id c + 1.
Proof.
  intros H1 H2. assert (bump (next_operation_id c) = next_operation_id c + 1) as Eb by (unfold bump; apply Z.mod_small; lia).
  split; [split|]; cbn [feed_new take_operation_id fd_sent fd_retained fd_earliest_resumable fd_counters next_operation_id]; rewrite ?Eb; try done; try lia; try constructor. cbn. lia.
Qed.

Lemma sorted_before l1 e l2 : StronglySorted later (l1 ++ e :: l2) -> Forall (fun x => later x e) l1.
Proof.
  induction l1 as [|x l1 IH]; intros Hs; [constructor|]. apply StronglySorted_inv in Hs as [Hs Hx]. constructor; [|by apply IH].
  rewrite Forall_forall in Hx. apply Hx, elem_of_app. right. left.
Qed.

(** Every dropped event is at or before the horizon. *)
Lemma dropped_before start dropped f : feed_ok start dropped f -> Forall (fun e => ev_seq e <= fd_earliest_resumable f) dropped.
Proof.
  intros [Hs He Ho Hr Hst Hb]. destruct dropped as [|x d _] using rev_ind; [constructor|]. rewrite last_snoc in He. rewrite He.
  rewrite Hs in Ho. rewrite <- app_assoc in Ho. apply Forall_app. split; [|by repeat constructor].
  eapply Forall_impl; [by eapply sorted_before in Ho|]. unfold later. cbn. lia.
Qed.

(** What a receiver that keeps up is handed: everything sent after it subscribed. *)
Definition keeps_up (f : feed) (rx : nat) : list received := map Received (drop rx (fd_sent f)).

Lemma live_frames owner is_admin es : omap (live_frame owner is_admin) (map Received es) = replay_frames owner is_admin es.
Proof.
  unfold replay_frames. induction es as [|e es IH]; [done|]. cbn [map omap list_omap live_frame]. rewrite filter_cons.
  destruct (admits (ev_audience e) owner is_admin); cbn [map]; [|done]. by rewrite IH.
Qed.

Lemma replay_app owner is_admin l1 l2 : replay_frames owner is_admin (l1 ++ l2) = replay_frames owner is_admin l1 ++ replay_frames owner is_admin l2.
Proof. unfold replay_frames. by rewrite filter_app, map_app. Qed.

(** A resumed subscription misses nothing, and a refused one would have.  After any run of publications,
    resuming from a position either serves, as the run goes on, exactly the events past that position that
    the subscriber may see, in order and once each; or it is refused, and then the position is from before
    the feed was created or an event past it is no longer retained. *)
Theorem feed_resume_exact c pre post owner is_admin after : 0 <= next_operation_id c -> next_operation_id c + 1 + Z.of_nat (length pre + length post) < 2 ^ 64 ->
  let now := feed_run pre (feed_new c) in
  let final := feed_run post now in
  after < next_operation_id (fd_counters now) ->
  match subscribe_events owner is_admin (Some after) now (keeps_up final) with
  | Ok frames => frames = replay_frames owner is_admin (filter (fun e => after < ev_seq e) (fd_sent final))
  | Err x => after < next_operation_id c \/ (exists e, e ∈ fd_sent now /\ (e ∉ fd_retained now) /\ after < ev_seq e)
  end.
Proof.
  intros Hpos Hn now final Hafter. destruct (feed_new_ok c) as [Hok0 Ec0]; [done|lia|].
  destruct (feed_run_ok pre _ _ _ Hok0 Hpos) as ((d1 & Hok1) & Ec1 & _); [lia|]. fold now in Hok1, Ec1.
  destruct (feed_run_ok post _ _ _ Hok1 Hpos) as ((d2 & Hok2) & _ & new & Es & Hnew); [lia|]. fold final in Hok2, Es.
  pose proof (dropped_before _ _ _ Hok1) as Hd. unfold subscribe_events, subscribe. destruct (Z.ltb_spec after (fd_earliest_resumable now)) as [Hlt|Hge].
  - rewrite (fo_earliest _ _ _ Hok1) in Hlt. destruct (list.last d1) as [e|] eqn:El; [|by left]. right. exists e.
    apply last_Some in El as [d0 ->]. pose proof (fo_sent _ _ _ Hok1) as Hs. split; [rewrite Hs; apply elem_of_app; left; apply elem_of_app; right; left|]. split; [|done].
    intros Hin. pose proof (fo_order _ _ _ Hok1) as Ho. rewrite Hs in Ho. apply list_elem_of_split in Hin as (l1 & l2 & E). rewrite E, app_assoc in Ho.
    apply sorted_before in Ho. rewrite Forall_forall in Ho. specialize (Ho e). unfold later in Ho. assert (ev_seq e < ev_seq e); [|lia]. apply Ho. apply elem_of_app. left. apply elem_of_app. right. left.
  - unfold keeps_up. rewrite live_frames, <- replay_app, Es, drop_app_length, filter_app. f_equal. f_equal.
    + rewrite (fo_sent _ _ _ Hok1), filter_app, (filter_none _ d1); [done|]. eapply Forall_impl; [exact Hd|]. cbn. lia.
    + symmetry. clear -Hnew Hafter. induction Hnew as [|e new He _ IH]; [done|]. rewrite filter_cons_True by lia. by rewrite IH.
Qed.

(** Two nodes announced, then a third while a subscriber of the first is resumed. *)
Definition first_counters : counters := MkCounters 1 1 1.
Definition announced : list feed_step :=
  [Publish (Owner "a"%string) (fun _ => "one"%string); Draw; Publish (Owner "b"%string) (fun _ => "two"%string); Publish Everyone (fun _ => "three"%string)].

Lemma feed_resume_exact_witness :
  subscribe_events "a" false (Some 2) (feed_run announced (feed_new first_counters)) (keeps_up (feed_run announced (feed_run announced (feed_new first_counters)))) =
  Ok [EventFrame 5 "three"; EventFrame 6 "one"; EventFrame 9 "three"].
Proof.
  pose proof (feed_resume_exact first_counters announced announced "a" false 2 ltac:(vm_compute; discriminate) ltac:(vm_compute; reflexivity) ltac:(vm_compute; reflexivity)) as H.
  vm_compute in H |- *. exact (f_equal Ok H).
Defined.
