(* ===== verification/Changes.v ===== *)
(** * The durable change scan ([src/src/storage/changes.rs])

    A consumer that fell behind the live feed reconstructs the committed
    mutations of nodes from the write-ahead log, a page at a time.  The file
    models the scan on the records of the log: the horizon, the durable units,
    what is committed, abandoned or still in flight, and the attribution of a
    deletion to the state it removed.  It proves that following the pages
    misses nothing and repeats nothing while the log grows and is rotated, and
    that a page shows no one what they may not read. *)

From Stdlib Require Import ZArith Lia Ascii String.
From stdpp Require Import base tactics list strings option gmap sorting.
From S2P Require Import Prelude Keys Json Entities Crypto Binary Wal Recovery Feed.

Local Open Scope Z_scope.

Definition DEFAULT_CHANGE_LIMIT : nat := 500.
Definition MAX_CHANGE_LIMIT : nat := 2000.

Inductive ChangeKind := Created | Updated | Deleted.

Record ChangeRecord := MkChange { cr_seq : Z; cr_change : ChangeKind; cr_address : string; cr_kind : string }.

Record ChangePage := MkPage { cp_changes : list ChangeRecord; cp_next : Z; cp_complete : bool }.

Record ScanTooOld := MkScanTooOld { st_requested : Z; st_earliest : Z; st_retained : nat }.

Inductive ScanError := TooOld (t : ScanTooOld) | Log.

(** [scan_horizon] is the position stamped for an empty log. *)
Definition horizon (scan_horizon : Z) (records : list WalRecord) : Z :=
  match records with
  | first :: _ => if w_sequence first =? 1 then 0 else w_operation_id first
  | [] => scan_horizon
  end.

Fixpoint validate_positions (records : list WalRecord) : bool :=
  match records with
  | previous :: ((record :: _) as rest) => (w_operation_id previous <? w_operation_id record) && validate_positions rest
  | _ => true
  end.

(** The unit at the front: a standalone record, or the run of records of one transaction. *)
Fixpoint run_of (transaction_id : Z) (records : list WalRecord) : list WalRecord :=
  match records with
  | r :: rest => if w_transaction_id r =? transaction_id then r :: run_of transaction_id rest else []
  | [] => []
  end.

Definition durable_unit (records : list WalRecord) : list WalRecord :=
  match records with
  | [] => []
  | r :: rest => if w_transaction_id r =? STANDALONE_TRANSACTION_ID then [r] else r :: run_of (w_transaction_id r) rest
  end.

Inductive FrameState := Committed | Terminal | InFlight.

Definition has_abort (unit : list WalRecord) : bool := existsb (fun r => bool_decide (w_operation r = WAbort)) unit.

Definition frame_state (unit : list WalRecord) (committed : gmap Z Z) (is_tail : bool) : FrameState :=
  match unit with
  | [] => Terminal
  | first :: _ =>
      if w_transaction_id first =? STANDALONE_TRANSACTION_ID then Committed
      else if bool_decide (is_Some (committed !! w_transaction_id first)) then Committed
      else if has_abort unit || negb is_tail then Terminal
      else InFlight
  end.

Record Lens := MkLens { ln_after : Z; ln_owner : string; ln_is_admin : bool }.

Definition lens_admit (l : Lens) (seq : Z) (change : ChangeKind) (subject : Node) (address : string) : option ChangeRecord :=
  if seq <=? ln_after l then None
  else if negb (admits (for_node subject) (ln_owner l) (ln_is_admin l)) then None
  else Some (MkChange seq change address (n_kind subject)).

Fixpoint emit_from (l : Lens) (archived : gmap string Node) (unit : list WalRecord) : list ChangeRecord :=
  match unit with
  | [] => []
  | r :: unit =>
      let '(archived, admitted) :=
        match w_operation r with
        | WArchive entry => (<[h_address entry := h_node entry]> archived, None)
        | WInsert node =>
            (archived, lens_admit l (w_operation_id r) (if bool_decide (is_Some (archived !! n_address node)) then Updated else Created) node (n_address node))
        | WDelete address =>
            (delete address archived, previous ← archived !! address; lens_admit l (w_operation_id r) Deleted previous address)
        | _ => (archived, None)
        end in
      option_list admitted ++ emit_from l archived unit
  end.

Definition emit_unit (unit : list WalRecord) (l : Lens) : list ChangeRecord := emit_from l ∅ unit.

(** The loop of [scan]; each round consumes a unit. *)
Fixpoint scan_loop (fuel : nat) (l : Lens) (limit : nat) (committed : gmap Z Z) (records : list WalRecord) (page : ChangePage) : ChangePage :=
  match fuel, records with
  | O, _ | _, [] => page
  | S fuel, _ =>
      let unit := durable_unit records in
      let rest := drop (length unit) records in
      let at_end := match rest with [] => true | _ => false end in
      match frame_state unit committed at_end with
      | InFlight => page
      | Terminal => scan_loop fuel l limit committed rest page
      | Committed =>
          if match list.last unit with Some r => w_operation_id r | None => 0 end <=? ln_after l then scan_loop fuel l limit committed rest page
          else
            let changes := cp_changes page ++ emit_unit unit l in
            let next := match list.last changes with Some c => cr_seq c | None => cp_next page end in
            if (limit <=? length changes)%nat && negb at_end then MkPage changes next false
            else scan_loop fuel l limit committed rest (MkPage changes next (cp_complete page))
      end
  end.

Definition scan_records (scan_horizon : Z) (records : list WalRecord) (after : Z) (limit : nat) (owner : string) (is_admin : bool)
    : result ScanError ChangePage :=
  let earliest := horizon scan_horizon records in
  if after <? earliest then Err (TooOld (MkScanTooOld after earliest (length records)))
  else if negb (validate_positions records) then Err Log
  else match classify_transactions records with
       | Err _ => Err Log
       | Ok committed =>
           Ok (scan_loop (length records) (MkLens after owner is_admin) limit committed records (MkPage [] after true))
       end.

(** [changes::scan] on the file of the log; a torn tail is dropped. *)
Definition scan `{Aead} `{Bincode WalRecord} (scan_horizon : Z) (file : option (list Z)) (after : Z) (limit : nat) (owner : string) (is_admin : bool)
    : result ScanError ChangePage :=
  match wal_read_all file with
  | Err _ => Err Log
  | Ok (records, _) => scan_records scan_horizon records after limit owner is_admin
  end.

(** [scan_changes], the handler: the limit is at least one. *)
Definition scan_changes `{Aead} `{Bincode WalRecord} (scan_horizon : Z) (file : option (list Z)) (after : option Z) (limit : option nat) (owner : string) (is_admin : bool)
    : result ScanError ChangePage :=
  scan scan_horizon file (default 0 after) (Nat.min (Nat.max (default DEFAULT_CHANGE_LIMIT limit) 1) MAX_CHANGE_LIMIT) owner is_admin.

(** ** The changes of a history

    The reference, on the records alone: each unit of the history, the state each record of it found, and
    the units that are settled.  A change comes with the node that says who may see it. *)

(** The state the address had before, as the unit archived it: the nearest record decides. *)
Fixpoint previous_state (seen : list WalRecord) (address : string) : option Node :=
  match seen with
  | [] => None
  | r :: seen =>
      match w_operation r with
      | WArchive entry => if decide (h_address entry = address) then Some (h_node entry) else previous_state seen address
      | WDelete gone => if decide (gone = address) then None else previous_state seen address
      | _ => previous_state seen address
      end
  end.

Definition change_of (seen : list WalRecord) (r : WalRecord) : option (ChangeRecord * Node) :=
  match w_operation r with
  | WInsert n => Some (MkChange (w_operation_id r) (if bool_decide (is_Some (previous_state seen (n_address n))) then Updated else Created) (n_address n) (n_kind n), n)
  | WDelete address => (fun p => (MkChange (w_operation_id r) Deleted address (n_kind p), p)) <$> previous_state seen address
  | _ => None
  end.

Fixpoint changes_from (seen unit : list WalRecord) : list (ChangeRecord * Node) :=
  match unit with
  | [] => []
  | r :: unit => option_list (change_of seen r) ++ changes_from (r :: seen) unit
  end.

Definition unit_changes (unit : list WalRecord) : list (ChangeRecord * Node) := changes_from [] unit.

(** The units of a log. *)
Definition push_unit (r : WalRecord) (us : list (list WalRecord)) : list (list WalRecord) :=
  match us with
  | ((r' :: _) as u) :: us => if negb (w_transaction_id r =? 0) && (w_transaction_id r' =? w_transaction_id r) then (r :: u) :: us else [r] :: u :: us
  | us => [r] :: us
  end.

Definition units (records : list WalRecord) : list (list WalRecord) := foldr push_unit [] records.

Definition has_commit (unit : list WalRecord) : bool := existsb (fun r => bool_decide (w_operation r = WCommit)) unit.

Definition unit_state (unit : list WalRecord) (is_tail : bool) : FrameState :=
  match unit with
  | [] => Terminal
  | first :: _ =>
      if (w_transaction_id first =? 0) || has_commit unit then Committed
      else if has_abort unit || negb is_tail then Terminal
      else InFlight
  end.

Fixpoint settled (us : list (list WalRecord)) : list (ChangeRecord * Node) :=
  match us with
  | [] => []
  | u :: us =>
      match unit_state u (match us with [] => true | _ => false end) with
      | Committed => unit_changes u ++ settled us
      | Terminal => settled us
      | InFlight => []
      end
  end.

(** What a caller sees of a change. *)
Definition shown (l : Lens) (x : ChangeRecord * Node) : option ChangeRecord :=
  if cr_seq x.1 <=? ln_after l then None
  else if admits (for_node x.2) (ln_owner l) (ln_is_admin l) then Some x.1 else None.

Definition visible (l : Lens) (history : list WalRecord) : list ChangeRecord := omap (shown l) (settled (units history)).

(** What every history the writer produces satisfies: identifiers increase, control records belong to
    transactions, a transaction is one run of records and has the shape its writer gives it. *)
Record history_ok (history : list WalRecord) : Prop := {
  ho_sequences : increasing history;
  ho_first : Forall (fun r => 1 <= w_sequence r) history;
  ho_positions : StronglySorted (fun a b => w_operation_id a < w_operation_id b) history;
  ho_runs u r : r :: u ∈ units history -> w_transaction_id r <> 0 -> frame_records (w_transaction_id r) history = r :: u;
  ho_shapes id : id <> 0 -> exists o, frame_shape (frame_records id history) o;
}.

(** ** The units the scan walks *)

Lemma run_of_spec id l : exists rest, l = run_of id l ++ rest /\ Forall (fun r => w_transaction_id r = id) (run_of id l) /\
  match rest with r :: _ => w_transaction_id r <> id | [] => True end.
Proof.
  induction l as [|r l (rest & E & Hf & Hr)]; cbn [run_of]; [by exists []|]. destruct (Z.eqb_spec (w_transaction_id r) id) as [Eq|Ne]; [|by exists (r :: l)].
  exists rest. cbn [app]. rewrite <- E. split_and!; [done|by constructor|done].
Qed.

Lemma units_nonempty l : Forall (fun u => u <> []) (units l).
Proof.
  induction l as [|r l IH]; [constructor|]. change (units (r :: l)) with (push_unit r (units l)). destruct (units l) as [|[|r' u] us]; cbn [push_unit]; [by constructor|by constructor|].
  destruct (_ && _); repeat constructor; try done; by inversion IH.
Qed.

Lemma units_concat l : concat (units l) = l.
Proof.
  induction l as [|r l IH]; [done|]. change (units (r :: l)) with (push_unit r (units l)). destruct (units l) as [|[|r' u] us]; cbn [push_unit concat app] in *; [by rewrite <- IH|by rewrite <- IH|].
  destruct (_ && _); cbn [concat app]; by rewrite IH.
Qed.

Lemma durable_unit_cons r l : exists u, durable_unit (r :: l) = r :: u.
Proof. cbn [durable_unit]. destruct (_ =? _); by eexists. Qed.

Lemma units_cons r l : units (r :: l) = durable_unit (r :: l) :: units (drop (length (durable_unit (r :: l))) (r :: l)).
Proof.
  revert r. induction l as [|r' l IH]; intros r.
  - cbn [durable_unit run_of]. by destruct (_ =? _).
  - change (units (r :: r' :: l)) with (push_unit r (units (r' :: l))). pose proof (IH r') as E'. destruct (durable_unit_cons r' l) as [u Eu]. rewrite E'. rewrite Eu at 1. cbn [push_unit]. rewrite <- Eu.
    change (durable_unit (r :: r' :: l)) with (if w_transaction_id r =? 0 then [r] else r :: run_of (w_transaction_id r) (r' :: l)).
    destruct (Z.eqb_spec (w_transaction_id r) 0) as [E0|E0]; cbn [negb andb]; [by rewrite <- E'|]. cbn [run_of].
    destruct (Z.eqb_spec (w_transaction_id r') (w_transaction_id r)) as [E|E]; [|by rewrite <- E'].
    cbn [durable_unit]. change STANDALONE_TRANSACTION_ID with 0. rewrite E, (proj2 (Z.eqb_neq _ _) E0). done.
Qed.

(** Each record of a unit carries the identifier of the first. *)
Lemma units_uniform r u l : r :: u ∈ units l -> Forall (fun x => w_transaction_id x = w_transaction_id r) (r :: u).
Proof.
  remember (length l) as n eqn:En. assert (length l <= n)%nat as Hn by lia. clear En. revert l Hn. induction n as [|n IH]; intros [|x l] Hn; [by intros ?%not_elem_of_nil|cbn in Hn; lia|by intros ?%not_elem_of_nil|].
  rewrite units_cons. intros [E|Hin]%elem_of_cons.
  - cbn [durable_unit] in E. destruct (_ =? _); injection E as -> ->; [by repeat constructor|]. constructor; [done|]. by destruct (run_of_spec (w_transaction_id x) l) as (_ & _ & ? & _).
  - eapply IH; [|exact Hin]. rewrite length_drop. cbn [length] in *. destruct (durable_unit_cons x l) as [v ->]. cbn [length]. lia.
Qed.

(** Appending to a log extends its last unit, or adds units. *)
Lemma units_app l m : units (l ++ m) = units l ++ units m \/
  exists us u v vs, units l = us ++ [u] /\ units m = v :: vs /\ units (l ++ m) = us ++ (u ++ v) :: vs /\
    exists r u' r' v', u = r :: u' /\ v = r' :: v' /\ w_transaction_id r <> 0 /\ w_transaction_id r' = w_transaction_id r.
Proof.
  induction l as [|x l IH]; [by left|]. change (units ((x :: l) ++ m)) with (push_unit x (units (l ++ m))). change (units (x :: l)) with (push_unit x (units l)).
  destruct IH as [->|(us & u & v & vs & El & Em & -> & r & u' & r' & v' & -> & -> & Hne & Heq)].
  - destruct (units l) as [|[|y w] us] eqn:El.
    + cbn [app push_unit]. destruct (units m) as [|[|y v] vs] eqn:Em; cbn [push_unit]; [by left|by left|]. destruct (Z.eqb_spec (w_transaction_id x) 0) as [E0|E0]; cbn [negb andb]; [by left|].
      destruct (Z.eqb_spec (w_transaction_id y) (w_transaction_id x)) as [E|E]; [|by left]. right. exists [], [x], (y :: v), vs. split_and!; try done. by exists x, [], y, v.
    + pose proof (units_nonempty l) as Hn. rewrite El in Hn. by inversion Hn.
    + left. cbn [app push_unit]. by destruct (_ && _).
  - right. rewrite El. destruct us as [|[|y w] us].
    + cbn [app push_unit]. destruct (negb (w_transaction_id x =? 0) && (w_transaction_id r =? w_transaction_id x)) eqn:E.
      * apply andb_true_iff in E as [_ E%Z.eqb_eq]. exists [], (x :: r :: u'), (r' :: v'), vs. split_and!; try done. exists x, (r :: u'), r', v'. split_and!; try done; congruence.
      * exists [[x]], (r :: u'), (r' :: v'), vs. split_and!; try done. by exists r, u', r', v'.
    + pose proof (units_nonempty l) as Hn. rewrite El in Hn. by inversion Hn.
    + cbn [app push_unit]. destruct (_ && _).
      * exists ((x :: y :: w) :: us), (r :: u'), (r' :: v'), vs. split_and!; try done. by exists r, u', r', v'.
      * exists ([x] :: (y :: w) :: us), (r :: u'), (r' :: v'), vs. split_and!; try done. by exists r, u', r', v'.
Qed.

(** ** Attribution *)

Lemma shown_admit l seq change n address : omap (shown l) (option_list (Some (MkChange seq change address (n_kind n), n))) = option_list (lens_admit l seq change n address).
Proof. cbn. unfold lens_admit, shown. cbn [fst snd cr_seq]. destruct (_ <=? _); [done|]. by destruct (admits _ _ _). Qed.

Lemma emit_from_shown l archived seen unit : (forall a, archived !! a = previous_state seen a) ->
  emit_from l archived unit = omap (shown l) (changes_from seen unit).
Proof.
  revert archived seen. induction unit as [|r unit IH]; intros archived seen Ha; [done|]. cbn [emit_from changes_from]. rewrite omap_app. unfold change_of.
  destruct (w_operation r) as [| | |e|n|a| | | | | | | | | | |] eqn:Eop; cbn [option_list omap list_omap app]; try (apply IH; intros a'; cbn [previous_state]; by rewrite Eop, Ha).
  - apply IH. intros a'. cbn [previous_state]. rewrite Eop. case_decide as E; [subst; apply lookup_insert_eq|]. by rewrite lookup_insert_ne, Ha.
  - rewrite (IH archived (r :: seen)) by (intros a'; cbn [previous_state]; by rewrite Eop, Ha). by rewrite Ha, shown_admit.
  - rewrite (IH (delete a archived) (r :: seen)).
    + rewrite Ha. destruct (previous_state seen a) as [p|]; [|done]. cbn [mbind option_bind fmap option_fmap option_map]. by rewrite shown_admit.
    + intros a'. cbn [previous_state]. rewrite Eop. case_decide as E; [subst; apply lookup_delete_eq|]. by rewrite lookup_delete_ne, Ha.
Qed.

Lemma emit_unit_shown l unit : emit_unit unit l = omap (shown l) (unit_changes unit).
Proof. apply emit_from_shown. intros a. apply lookup_empty. Qed.

(** ** Order *)

Definition positions (records : list WalRecord) : list Z := map w_operation_id records.
Definition change_positions (cs : list (ChangeRecord * Node)) : list Z := map (fun x => cr_seq x.1) cs.

Lemma changes_sublist seen unit : change_positions (changes_from seen unit) `sublist_of` positions unit.
Proof.
  revert seen. induction unit as [|r unit IH]; intros seen; cbn [changes_from positions map]; [constructor|]. unfold change_positions. rewrite map_app. fold (change_positions (changes_from (r :: seen) unit)).
  assert (map (fun x : ChangeRecord * Node => cr_seq x.1) (option_list (change_of seen r)) `sublist_of` [w_operation_id r]) as Hr.
  { unfold change_of. destruct (w_operation r); cbn [option_list map]; try apply sublist_nil_l; [done|]. destruct (previous_state seen address); cbn; [done|apply sublist_nil_l]. }
  by apply (sublist_app _ [w_operation_id r] _ (positions unit)).
Qed.

Lemma settled_sublist us : change_positions (settled us) `sublist_of` positions (concat us).
Proof.
  induction us as [|u us IH]; [constructor|]. cbn [settled concat]. unfold positions. rewrite map_app. destruct (unit_state u _).
  - unfold change_positions. rewrite map_app. apply sublist_app; [apply changes_sublist|exact IH].
  - by apply sublist_inserts_l.
  - apply sublist_nil_l.
Qed.

Lemma sublist_Forall {A} (P : A -> Prop) l k : l `sublist_of` k -> Forall P k -> Forall P l.
Proof. induction 1; intros Hk; [constructor| |]; apply Forall_cons_1 in Hk as [? ?]; [constructor|]; auto. Qed.

Lemma sorted_sublist (l k : list Z) : l `sublist_of` k -> StronglySorted Z.lt k -> StronglySorted Z.lt l.
Proof.
  induction 1 as [|x l k Hs IH|x l k Hs IH]; intros Hk; [constructor| |]; apply StronglySorted_inv in Hk as [Hk Hx]; [|by apply IH].
  constructor; [by apply IH|]. by eapply sublist_Forall.
Qed.

Lemma settled_sorted history : StronglySorted Z.lt (positions history) -> StronglySorted Z.lt (change_positions (settled (units history))).
Proof. intros Hs. eapply sorted_sublist; [apply settled_sublist|]. by rewrite units_concat. Qed.

(** Where a reader that was given [shown] continues. *)
Definition resume (after : Z) (cs : list ChangeRecord) : Z := match list.last cs with Some c => cr_seq c | None => after end.

Lemma shown_cons l x (xs : list (ChangeRecord * Node)) : omap (shown l) (x :: xs) =
  (if decide (ln_after l < cr_seq x.1 /\ admits (for_node x.2) (ln_owner l) (ln_is_admin l) = true) then [x.1] else []) ++ omap (shown l) xs.
Proof.
  cbn [omap list_omap]. fold (omap (shown l) xs). unfold shown at 1. destruct (Z.leb_spec (cr_seq x.1) (ln_after l)); [by rewrite decide_False by lia|].
  destruct (admits _ _ _) eqn:E; [by rewrite decide_True|]. by rewrite decide_False by (intros [_ ?]; congruence).
Qed.

Lemma shown_later owner is_admin a b (xs : list (ChangeRecord * Node)) : a <= b ->
  omap (shown (MkLens b owner is_admin)) xs = filter (fun c => b < cr_seq c) (omap (shown (MkLens a owner is_admin)) xs).
Proof.
  intros Hab. induction xs as [|x xs IH]; [done|]. rewrite !shown_cons, filter_app, IH. f_equal. cbn [ln_after ln_owner ln_is_admin].
  repeat case_decide; try done; try (rewrite filter_cons; case_decide; try done); naive_solver lia.
Qed.

Lemma shown_sorted l (xs : list (ChangeRecord * Node)) : StronglySorted Z.lt (change_positions xs) -> StronglySorted Z.lt (map cr_seq (omap (shown l) xs)) /\ Forall (fun c => ln_after l < cr_seq c) (omap (shown l) xs).
Proof.
  intros Hs. split.
  - eapply sorted_sublist; [|exact Hs]. clear Hs. induction xs as [|x xs IH]; [constructor|]. rewrite shown_cons. case_decide; by constructor.
  - clear Hs. induction xs as [|x xs IH]; [constructor|]. rewrite shown_cons. case_decide as E; [|done]. constructor; [apply E|done].
Qed.

Lemma filter_past (l r : list ChangeRecord) c : StronglySorted Z.lt (map cr_seq ((l ++ [c]) ++ r)) -> filter (fun x => cr_seq c < cr_seq x) ((l ++ [c]) ++ r) = r.
Proof.
  rewrite <- app_assoc. induction l as [|x l IH]; cbn [app map]; intros [Hs Hx]%StronglySorted_inv.
  - rewrite filter_cons_False by lia. clear Hs. induction r as [|y r IH]; [done|]. cbn [map] in Hx. apply Forall_cons_1 in Hx as [Hy Hx]. rewrite filter_cons_True by done. by rewrite IH.
  - rewrite filter_cons_False; [by apply IH|]. rewrite map_app in Hx. apply Forall_app in Hx as [_ Hx]. cbn [map] in Hx. apply Forall_cons_1 in Hx as [Hx _]. lia.
Qed.

(** Continuing from the last change of a prefix gives the rest. *)
Lemma resume_rest owner is_admin xs after p : StronglySorted Z.lt (change_positions xs) -> p `prefix_of` omap (shown (MkLens after owner is_admin)) xs ->
  omap (shown (MkLens after owner is_admin)) xs = p ++ omap (shown (MkLens (resume after p) owner is_admin)) xs.
Proof.
  intros Hs [r Hr]. destruct (shown_sorted (MkLens after owner is_admin) xs Hs) as [Hss Hlt]. rewrite Hr in Hss, Hlt. unfold resume.
  destruct p as [|c p _] using rev_ind; [done|]. rewrite last_snoc. rewrite (shown_later owner is_admin after (cr_seq c)).
  - rewrite Hr, filter_past by done. done.
  - apply Forall_app in Hlt as [Hlt _]. apply Forall_app in Hlt as [_ Hc]. apply Forall_cons_1 in Hc as [Hc _]. cbn in Hc. lia.
Qed.

(** ** Committed, as recovery decides it *)

Lemma has_commit_spec u : has_commit u = true <-> exists r, r ∈ u /\ w_operation r = WCommit.
Proof.
  unfold has_commit. rewrite existsb_exists. split; intros (r & Hr & E); exists r; (split; [by apply list_elem_of_In|]); [by apply bool_decide_eq_true in E|by apply bool_decide_eq_true].
Qed.

Lemma mutations_neither ms r : mutations ms -> r ∈ ms -> w_operation r <> WCommit.
Proof. rewrite Forall_forall. intros Hm Hr. specialize (Hm r Hr). by destruct (w_operation r). Qed.

Lemma shape_commit fr o : frame_shape fr o -> is_Some o <-> has_commit fr = true.
Proof.
  rewrite has_commit_spec. intros Hs. split.
  - intros [s ->]. inversion Hs as [| | | |b ms c Hb Hm Hc]; subst. exists c. split; [|done]. right. apply elem_of_app. right. left.
  - intros (r & Hr & Hc). inversion Hs as [|r0 rs Hn Hall|b ms Hb Hm|b ms a Hb Hm Ha|b ms c Hb Hm Hc']; subst; [by apply not_elem_of_nil in Hr| | | |by eexists]; exfalso.
    + rewrite Forall_forall in Hall. by apply (Hall r).
    + apply elem_of_cons in Hr as [->|Hr]; [congruence|]. by apply (mutations_neither ms r Hm Hr).
    + apply elem_of_cons in Hr as [->|Hr]; [congruence|]. apply elem_of_app in Hr as [Hr|Hr%list_elem_of_singleton]; [by apply (mutations_neither ms r Hm Hr)|congruence].
Qed.

(** Nothing follows a commit in its frame. *)
Lemma shape_closed u v o : frame_shape (u ++ v) o -> has_commit u = true -> v = [].
Proof.
  intros Hs Hu. assert (has_commit (u ++ v) = true) as Huv by (unfold has_commit; rewrite existsb_app; apply orb_true_iff; by left).
  apply (shape_commit _ _ Hs) in Huv as [s ->]. inversion Hs as [| | | |b ms c Hb Hm Hc E]; subst. destruct v as [|x v _] using rev_ind; [done|]. exfalso.
  apply has_commit_spec in Hu as (r & Hr & Er). rewrite app_assoc in E. destruct u as [|b' u]; [by apply not_elem_of_nil in Hr|]. cbn [app] in E. injection E as -> E. apply app_inj_tail in E as [-> _].
  apply elem_of_cons in Hr as [->|Hr]; [congruence|]. by apply (mutations_neither _ r Hm); [apply elem_of_app; left|].
Qed.

Definition runs (log : list WalRecord) : Prop := forall u r, r :: u ∈ units log -> w_transaction_id r <> 0 -> frame_records (w_transaction_id r) log = r :: u.

Lemma state_agrees log c r u is_tail : increasing log -> runs log -> classify_transactions log = Ok c -> r :: u ∈ units log ->
  frame_state (r :: u) c is_tail = unit_state (r :: u) is_tail.
Proof.
  intros Hi Hr Hc Hu. unfold frame_state, unit_state. change STANDALONE_TRANSACTION_ID with 0. destruct (Z.eqb_spec (w_transaction_id r) 0) as [E|E]; [done|]. cbn [orb].
  apply classify_spec in Hc as (_ & _ & Hsh); [|done]. specialize (Hsh _ E). rewrite (Hr _ _ Hu E) in Hsh. pose proof (shape_commit _ _ Hsh) as Hcm.
  case_bool_decide as Hs; [by rewrite (proj1 Hcm Hs)|]. destruct (has_commit (r :: u)); [|done]. by destruct (Hs (proj2 Hcm eq_refl)).
Qed.

(** ** Growth and rotation *)

Lemma settled_more us vs : settled us `prefix_of` settled (us ++ vs).
Proof.
  induction us as [|u us IH]; [apply prefix_nil|]. cbn [app settled]. destruct us as [|u' us].
  - cbn [app]. destruct vs as [|v vs]; [done|]. unfold unit_state. destruct u as [|r u]; [apply prefix_nil|]. destruct (_ || _); [apply prefix_app, prefix_nil|].
    destruct (has_abort (r :: u)); cbn [orb negb]; apply prefix_nil.
  - cbn [app]. destruct (unit_state u false); [by apply prefix_app|done|done].
Qed.

Lemma settled_replace us u w vs : unit_state u true <> Committed -> settled (us ++ [u]) `prefix_of` settled (us ++ w :: vs).
Proof.
  intros Hu. induction us as [|x us IH]; cbn [app settled].
  - destruct (unit_state u true); [done|apply prefix_nil|apply prefix_nil].
  - assert (forall z zs, match us ++ z :: zs with [] => true | _ => false end = false) as Hne by (intros; by destruct us). rewrite !Hne.
    destruct (unit_state x false); [by apply prefix_app|done|done].
Qed.

Lemma settled_grows history more : history_ok (history ++ more) -> settled (units history) `prefix_of` settled (units (history ++ more)).
Proof.
  intros Hok. destruct (units_app history more) as [->|(us & u & v & vs & -> & Hv & E & r & u' & r' & v' & -> & -> & Hne & Heq)]; [apply settled_more|].
  rewrite E. apply settled_replace. unfold unit_state. rewrite (proj2 (Z.eqb_neq _ _) Hne). cbn [orb]. destruct (has_commit (r :: u')) eqn:Hc; [|by destruct (_ || _)].
  exfalso. destruct (ho_shapes _ Hok _ Hne) as [o Hs]. rewrite (ho_runs _ Hok (u' ++ r' :: v') r) in Hs; [|rewrite E; apply elem_of_app; right; left|done].
  by apply (shape_closed (r :: u') (r' :: v')) in Hs.
Qed.

(** The log after a rotation: whole units were dropped. *)
Definition whole_units (history : list WalRecord) (k : nat) : Prop := units history = units (take k history) ++ units (drop k history).

Lemma frame_app id a b : frame_records id (a ++ b) = frame_records id a ++ frame_records id b.
Proof. apply filter_app. Qed.

Lemma unit_in_frame u r log : r :: u ∈ units log -> (length (r :: u) <= length (frame_records (w_transaction_id r) log))%nat.
Proof.
  intros Hu. pose proof (units_uniform _ _ _ Hu) as Hf. apply list_elem_of_split in Hu as (us & vs & E). rewrite <- (units_concat log), E.
  rewrite concat_app. cbn [concat]. rewrite !frame_app, !length_app. assert (frame_records (w_transaction_id r) (r :: u) = r :: u) as -> by (by apply filter_all). lia.
Qed.

Lemma runs_drop history k : runs history -> whole_units history k -> runs (drop k history).
Proof.
  intros Hr Hw u r Hu Hne. assert (r :: u ∈ units history) as Hu' by (rewrite Hw; apply elem_of_app; by right).
  pose proof (Hr _ _ Hu' Hne) as E. pose proof (unit_in_frame _ _ _ Hu) as Hl. rewrite <- (take_drop k history), frame_app in E.
  pose proof (f_equal length E) as El. rewrite length_app in El. assert (frame_records (w_transaction_id r) (take k history) = []) as E0 by (apply nil_length_inv; lia).
  by rewrite E0 in E.
Qed.

Lemma increasing_drop k l : increasing l -> increasing (drop k l).
Proof. unfold increasing. rewrite <- (take_drop k l) at 1. intros H. by apply StronglySorted_app_1_r in H. Qed.

Lemma settled_split us vs : vs <> [] -> exists xs, settled (us ++ vs) = xs ++ settled vs /\ change_positions xs `sublist_of` positions (concat us).
Proof.
  intros Hvs. induction us as [|u us (xs & E & Hs)]; [by exists []|]. cbn [app settled concat]. assert (match us ++ vs with [] => true | _ => false end = false) as -> by (by destruct us, vs).
  unfold positions. rewrite map_app, E. destruct u as [|r u]; [by exists xs|]. unfold unit_state. destruct (_ || _).
  - exists (unit_changes (r :: u) ++ xs). rewrite app_assoc. split; [done|]. unfold change_positions. rewrite map_app. apply sublist_app; [apply changes_sublist|done].
  - cbn [negb]. rewrite orb_true_r. exists xs. split; [done|]. by apply sublist_inserts_l.
Qed.

Lemma shown_none l (xs : list (ChangeRecord * Node)) : Forall (fun p => p <= ln_after l) (change_positions xs) -> omap (shown l) xs = [].
Proof.
  induction xs as [|x xs IH]; [done|]. cbn [change_positions map]. intros [Hx Hxs]%Forall_cons_1. rewrite shown_cons, decide_False by lia. by apply IH.
Qed.

(** What was dropped lies at or before the position: nothing of it would have been shown. *)
Lemma visible_drop l history k : whole_units history k -> Forall (fun r => w_operation_id r <= ln_after l) (take k history) -> visible l history = visible l (drop k history).
Proof.
  intros Hw Hd. assert (forall xs, change_positions xs `sublist_of` positions (take k history) -> omap (shown l) xs = []) as Hnone.
  { intros xs Hs. apply shown_none. eapply sublist_Forall; [exact Hs|]. unfold positions. apply Forall_fmap. exact Hd. }
  unfold visible. rewrite Hw. destruct (units (drop k history)) as [|v vs] eqn:E.
  - rewrite app_nil_r. apply Hnone. pose proof (settled_sublist (units (take k history))) as Hs. by rewrite units_concat in Hs.
  - destruct (settled_split (units (take k history)) (v :: vs)) as (xs & -> & Hs); [done|]. rewrite units_concat in Hs. by rewrite omap_app, Hnone.
Qed.

(** ** The page *)

Lemma validate_positions_sorted records : validate_positions records = true -> StronglySorted Z.lt (positions records).
Proof.
  intros Hv. apply Sorted_StronglySorted; [apply _|]. induction records as [|r records IH]; [constructor|]. cbn [positions map]. destruct records as [|r' records]; [by repeat constructor|].
  cbn [validate_positions] in Hv. apply andb_true_iff in Hv as [Hlt%Z.ltb_lt Hv]. constructor; [by apply IH|]. by constructor.
Qed.

Lemma sorted_last (l : list WalRecord) r : StronglySorted Z.lt (positions l) -> list.last l = Some r -> Forall (fun p => p <= w_operation_id r) (positions l).
Proof.
  intros Hs [l' ->]%last_Some. unfold positions in *. rewrite map_app in *. apply Forall_app. split; [|repeat constructor; cbn; lia]. apply Forall_forall. intros p Hp.
  assert (p < w_operation_id r); [|lia]. eapply StronglySorted_app_1_elem_of; [exact Hs|done|left].
Qed.

Lemma resume_app after cs ds : match list.last (cs ++ ds) with Some c => cr_seq c | None => resume after cs end = resume after (cs ++ ds).
Proof. unfold resume. rewrite last_app. destruct (list.last ds); [done|]. by destruct (list.last cs). Qed.

Lemma scan_loop_spec fuel l limit c records cs complete : (length records <= fuel)%nat -> StronglySorted Z.lt (positions records) ->
  (forall r u t, r :: u ∈ units records -> frame_state (r :: u) c t = unit_state (r :: u) t) ->
  exists p rest, omap (shown l) (settled (units records)) = p ++ rest /\
    let page := scan_loop fuel l limit c records (MkPage cs (resume (ln_after l) cs) complete) in
    cp_changes page = cs ++ p /\ cp_next page = resume (ln_after l) (cs ++ p) /\
    ((cp_complete page = complete /\ rest = []) \/ (cp_complete page = false /\ (limit <= length (cs ++ p))%nat)).
Proof.
  revert records cs. induction fuel as [|fuel IH]; intros records cs Hlen Hs Hst.
  { destruct records; [|cbn in Hlen; lia]. exists [], []. cbn. rewrite app_nil_r. split_and!; try done. by left. }
  destruct records as [|r records]; [exists [], []; cbn; rewrite app_nil_r; split_and!; try done; by left|]. destruct (durable_unit_cons r records) as [u Eu].
  assert (durable_unit (r :: records) ++ drop (length (durable_unit (r :: records))) (r :: records) = r :: records) as Hsplit.
  { pose proof (units_concat (r :: records)) as E. rewrite units_cons in E. cbn [concat] in E. by rewrite units_concat in E. }
  pose proof (units_cons r records) as Hun. rewrite Hun. cbn [scan_loop]. rewrite Eu in *. set (rest := drop (length (r :: u)) (r :: records)) in *.
  assert ((match units rest with [] => true | _ => false end) = match rest with [] => true | _ => false end) as Htail.
  { clearbody rest. destruct rest as [|x rest']; [done|]. by rewrite units_cons. }
  rewrite (Hst r u) by (rewrite Hun; left). cbn [settled]. rewrite Htail.
  assert (length rest <= fuel)%nat as Hlen' by (unfold rest; rewrite length_drop; cbn [length] in *; lia).
  rewrite <- Hsplit in Hs. unfold positions in Hs. rewrite map_app in Hs. fold (positions (r :: u)) (positions rest) in Hs.
  assert (StronglySorted Z.lt (positions rest)) as Hs' by (by apply StronglySorted_app_1_r in Hs).
  assert (forall r0 u0 t, r0 :: u0 ∈ units rest -> frame_state (r0 :: u0) c t = unit_state (r0 :: u0) t) as Hst' by (intros; apply Hst; rewrite Hun; by right).
  destruct (unit_state (r :: u) _) eqn:Est; [| |].
  - rewrite omap_app. destruct (_ <=? ln_after l) eqn:Hskip.
    + assert (omap (shown l) (unit_changes (r :: u)) = []) as ->; [|by apply IH].
      apply shown_none. eapply sublist_Forall; [apply changes_sublist|]. destruct (list.last (r :: u)) as [z|] eqn:Ez; [|apply last_None in Ez; done].
      apply Z.leb_le in Hskip. eapply Forall_impl; [eapply sorted_last; [by apply StronglySorted_app_1_l in Hs|exact Ez]|]. cbn. lia.
    + cbn [cp_changes cp_next cp_complete]. rewrite emit_unit_shown. set (es := omap (shown l) (unit_changes (r :: u))). rewrite resume_app.
      destruct ((limit <=? length (cs ++ es))%nat && _) eqn:Hfull.
      * apply andb_true_iff in Hfull as [Hl%Nat.leb_le _]. exists es, (omap (shown l) (settled (units rest))). split_and!; try done. right. done.
      * destruct (IH rest (cs ++ es) Hlen' Hs' Hst') as (p & q & -> & Hc & Hn & Hd). exists (es ++ p), q. rewrite <- !app_assoc in *. split_and!; done.
  - by apply IH.
  - exists [], []. cbn. rewrite app_nil_r. split_and!; try done. by left.
Qed.

(** ** Reading a log that grows and is rotated *)

(** A moment at which the log is read: all that was ever appended, how many records rotation has dropped,
    the position it noted for an empty log, and the page size asked for. *)
Record moment := MkMoment { mo_history : list WalRecord; mo_dropped : nat; mo_horizon : Z; mo_limit : nat }.

Record moment_ok (m : moment) : Prop := {
  mk_history : history_ok (mo_history m);
  mk_units : whole_units (mo_history m) (mo_dropped m);
  mk_noted : Forall (fun r => w_operation_id r <= mo_horizon m) (take (mo_dropped m) (mo_history m));
}.

Definition read_at (m : moment) (after : Z) (owner : string) (is_admin : bool) : result ScanError ChangePage :=
  scan_records (mo_horizon m) (drop (mo_dropped m) (mo_history m)) after (mo_limit m) owner is_admin.

Lemma sorted_ops history : history_ok history -> StronglySorted Z.lt (positions history).
Proof. intros Hok. unfold positions. eapply (StronglySorted_fmap w_operation_id (fun a b => w_operation_id a < w_operation_id b)); [done|]. exact (ho_positions _ Hok). Qed.

(** A scan that is not refused has lost nothing past its position. *)
Lemma read_dropped m after : moment_ok m -> horizon (mo_horizon m) (drop (mo_dropped m) (mo_history m)) <= after ->
  Forall (fun r => w_operation_id r <= after) (take (mo_dropped m) (mo_history m)).
Proof.
  intros [Hok _ Hn]. unfold horizon. destruct (drop (mo_dropped m) (mo_history m)) as [|first rest] eqn:E; intros Ha; [eapply Forall_impl; [exact Hn|]; cbn; lia|].
  assert (forall r, r ∈ take (mo_dropped m) (mo_history m) -> 1 <= w_sequence r /\ w_sequence r < w_sequence first /\ w_operation_id r < w_operation_id first) as Hr.
  { intros r Hr. assert (first ∈ drop (mo_dropped m) (mo_history m)) as Hf by (rewrite E; left). split_and!.
    - pose proof (ho_first _ Hok) as H1. rewrite Forall_forall in H1. apply H1. rewrite <- (take_drop (mo_dropped m)). apply elem_of_app. by left.
    - eapply (StronglySorted_app_1_elem_of (fun a b => w_sequence a < w_sequence b)); [rewrite take_drop; apply Hok|done|done].
    - eapply (StronglySorted_app_1_elem_of (fun a b => w_operation_id a < w_operation_id b)); [rewrite take_drop; apply Hok|done|done]. }
  apply Forall_forall. intros r Hin. destruct (Hr r Hin) as (H1 & H2 & H3). destruct (Z.eqb_spec (w_sequence first) 1); lia.
Qed.

(** One page: the changes after the position begin with it, and end with it when it is complete. *)
Lemma read_page m after owner is_admin page : moment_ok m -> read_at m after owner is_admin = Ok page ->
  exists rest, visible (MkLens after owner is_admin) (mo_history m) = cp_changes page ++ rest /\ cp_next page = resume after (cp_changes page) /\
    (if cp_complete page then rest = [] else (mo_limit m <= length (cp_changes page))%nat).
Proof.
  intros Hok. unfold read_at, scan_records. set (log := drop (mo_dropped m) (mo_history m)). destruct (Z.ltb_spec after (horizon (mo_horizon m) log)) as [|Ha]; [done|].
  destruct (validate_positions log) eqn:Hv; cbn [negb]; [|done]. destruct (classify_transactions log) as [c|] eqn:Hc; [|done]. intros [= <-].
  pose proof (mk_history _ Hok) as Hh. pose proof (read_dropped m after Hok Ha) as Hd. rewrite (visible_drop _ _ (mo_dropped m) (mk_units _ Hok)) by done. fold log.
  destruct (scan_loop_spec (length log) (MkLens after owner is_admin) (mo_limit m) c log [] true) as (p & rest & Hp & Hcs & Hnext & Hend); [done|by apply validate_positions_sorted| |].
  - intros r u t Hu. eapply state_agrees; [|apply (runs_drop _ _ (ho_runs _ Hh) (mk_units _ Hok))|exact Hc|exact Hu]. apply increasing_drop, Hh.
  - change (resume (ln_after (MkLens after owner is_admin)) []) with after in *. cbn [app ln_after] in *. exists rest. rewrite Hcs. split; [done|]. split; [done|]. destruct Hend as [[-> ->]|[-> Hl]]; done.
Qed.

(** Reading at one moment after the other, each page from where the last one ended. *)
Fixpoint follow (ms : list moment) (after : Z) (owner : string) (is_admin : bool) : result ScanError (list ChangeRecord * Z * bool) :=
  match ms with
  | [] => Ok ([], after, false)
  | m :: ms =>
      match read_at m after owner is_admin with
      | Err x => Err x
      | Ok page =>
          match ms with
          | [] => Ok (cp_changes page, cp_next page, cp_complete page)
          | _ => match follow ms (cp_next page) owner is_admin with
                 | Err x => Err x
                 | Ok (cs, next, complete) => Ok (cp_changes page ++ cs, next, complete)
                 end
          end
      end
  end.

Lemma visible_grows l history more : history_ok (history ++ more) -> visible l history `prefix_of` visible l (history ++ more).
Proof. intros Hok. unfold visible. destruct (settled_grows history more Hok) as [k ->]. rewrite omap_app. by eexists. Qed.

(** C18: Following the change feed misses nothing and repeats nothing.  A reader takes pages at any moments, while
    the log grows and whole units of it are rotated away, each page from where the last one ended.  Unless a
    page is refused, the changes it has been shown so far, followed by those past its position, are exactly
    the committed changes past its starting position that it may see, in order; a complete page leaves none. *)
Theorem changes_feed_exact ms last after owner is_admin cs next complete :
  Forall moment_ok (ms ++ [last]) -> Forall (fun m => mo_history m `prefix_of` mo_history last) ms ->
  follow (ms ++ [last]) after owner is_admin = Ok (cs, next, complete) ->
  visible (MkLens after owner is_admin) (mo_history last) = cs ++ visible (MkLens next owner is_admin) (mo_history last) /\
  (complete = true -> visible (MkLens next owner is_admin) (mo_history last) = []).
Proof.
  revert after cs. induction ms as [|m ms IH]; intros after cs Hok Hpre; cbn [app follow].
  - apply Forall_cons_1 in Hok as [Hok _]. destruct (read_at last after owner is_admin) as [page|] eqn:E; [|done]. intros [= <- <- <-].
    destruct (read_page _ _ _ _ _ Hok E) as (rest & Hv & -> & Hend). assert (cp_changes page `prefix_of` visible (MkLens after owner is_admin) (mo_history last)) as Hp by (rewrite Hv; by eexists).
    pose proof (resume_rest _ _ _ _ _ (settled_sorted _ (sorted_ops _ (mk_history _ Hok))) Hp) as Hr. split; [exact Hr|]. intros Hc. rewrite Hc in Hend. subst rest.
    unfold visible in Hv. rewrite Hv, app_nil_r in Hr. apply (f_equal length) in Hr. rewrite length_app in Hr. apply nil_length_inv. unfold visible. lia.
  - apply Forall_cons_1 in Hok as [Hok Hoks]. apply Forall_cons_1 in Hpre as [[more Hm] Hpre]. destruct (read_at m after owner is_admin) as [page|] eqn:E; [|done].
    destruct (ms ++ [last]) as [|m' ms'] eqn:Ems; [by destruct ms|]. rewrite <- Ems in *. destruct (follow (ms ++ [last]) (cp_next page) owner is_admin) as [[[cs' next'] complete']|] eqn:Ef; [|done].
    intros [= <- <- <-]. destruct (IH _ _ Hoks Hpre Ef) as [Hv Hend]. split; [|done]. destruct (read_page _ _ _ _ _ Hok E) as (rest & Hpage & Hnext & _).
    assert (history_ok (mo_history last)) as Hl by (apply mk_history; eapply Forall_forall; [exact Hoks|]; apply elem_of_app; right; left).
    assert (cp_changes page `prefix_of` visible (MkLens after owner is_admin) (mo_history last)) as Hp.
    { rewrite Hm. trans (visible (MkLens after owner is_admin) (mo_history m)); [rewrite Hpage; by eexists|]. apply visible_grows. by rewrite <- Hm. }
    pose proof (resume_rest _ _ _ _ _ (settled_sorted _ (sorted_ops _ Hl)) Hp) as Hr. rewrite <- Hnext in Hr. fold (visible (MkLens (cp_next page) owner is_admin) (mo_history last)) in Hr.
    unfold visible at 1. rewrite Hr, Hv. by rewrite app_assoc.
Qed.

(** Pages taken at one moment until one is complete; [None] when the pages run out first. *)
Fixpoint page_through (fuel : nat) (m : moment) (after : Z) (owner : string) (is_admin : bool) : result ScanError (option (list ChangeRecord)) :=
  match fuel with
  | O => Ok None
  | S fuel =>
      match read_at m after owner is_admin with
      | Err x => Err x
      | Ok page =>
          if cp_complete page then Ok (Some (cp_changes page))
          else match page_through fuel m (cp_next page) owner is_admin with
               | Err x => Err x
               | Ok cs => Ok (app (cp_changes page) <$> cs)
               end
      end
  end.

Lemma read_later m after next owner is_admin page : after <= next -> read_at m after owner is_admin = Ok page -> exists page', read_at m next owner is_admin = Ok page'.
Proof.
  intros Hle. unfold read_at, scan_records. destruct (Z.ltb_spec after (horizon (mo_horizon m) (drop (mo_dropped m) (mo_history m)))) as [|Ha]; [done|].
  destruct (Z.ltb_spec next (horizon (mo_horizon m) (drop (mo_dropped m) (mo_history m)))) as [|]; [lia|]. destruct (negb _); [done|]. destruct (classify_transactions _); [by eexists|done].
Qed.

(** C20: Paging through the changes ends.  When a first page is served and pages hold at least one change, following
    them reaches a complete page after at most as many pages as there are changes, plus one, and together they are
    exactly the changes past the position that the caller may see. *)
Theorem changes_paging_ends m after owner is_admin page fuel : moment_ok m -> (1 <= mo_limit m)%nat -> read_at m after owner is_admin = Ok page ->
  (length (visible (MkLens after owner is_admin) (mo_history m)) < fuel)%nat ->
  page_through fuel m after owner is_admin = Ok (Some (visible (MkLens after owner is_admin) (mo_history m))).
Proof.
  intros Hok Hlim. revert after page. induction fuel as [|fuel IH]; intros after page Hread Hfuel; [lia|]. cbn [page_through]. rewrite Hread.
  destruct (read_page _ _ _ _ _ Hok Hread) as (rest & Hv & Hnext & Hend). destruct (cp_complete page); [by rewrite Hv, Hend, app_nil_r|].
  pose proof (settled_sorted _ (sorted_ops _ (mk_history _ Hok))) as Hs.
  assert (cp_changes page `prefix_of` visible (MkLens after owner is_admin) (mo_history m)) as Hp by (rewrite Hv; by eexists).
  pose proof (resume_rest _ _ _ _ _ Hs Hp) as Hr. rewrite <- Hnext in Hr. fold (visible (MkLens (cp_next page) owner is_admin) (mo_history m)) (visible (MkLens after owner is_admin) (mo_history m)) in Hr.
  assert (after <= cp_next page) as Hle.
  { rewrite Hnext. unfold resume. destruct (list.last (cp_changes page)) as [c|] eqn:El; [|lia]. apply last_Some in El as [cs El].
    destruct (shown_sorted (MkLens after owner is_admin) _ Hs) as [_ Hall]. fold (visible (MkLens after owner is_admin) (mo_history m)) in Hall. rewrite Hv, El in Hall.
    apply Forall_app in Hall as [Hall _]. apply Forall_app in Hall as [_ Hall]. apply Forall_cons_1 in Hall as [Hc _]. cbn in Hc. lia. }
  destruct (read_later _ _ _ _ _ _ Hle Hread) as [page' Hread']. rewrite (IH _ _ Hread').
  - cbn [fmap option_fmap option_map]. by rewrite <- Hr.
  - rewrite Hr, length_app in Hfuel. lia.
Qed.

(** ** Who is shown what *)

(** The record behind a change, and the state that says who may see it. *)
Definition justified (unit : list WalRecord) (c : ChangeRecord) (n : Node) : Prop :=
  exists r, r ∈ unit /\ w_operation_id r = cr_seq c /\ n_kind n = cr_kind c /\
    ((w_operation r = WInsert n /\ n_address n = cr_address c) \/
     (w_operation r = WDelete (cr_address c) /\ exists a e, a ∈ unit /\ w_operation a = WArchive e /\ h_address e = cr_address c /\ h_node e = n)).

Lemma previous_archived seen address p : previous_state seen address = Some p -> exists a e, a ∈ seen /\ w_operation a = WArchive e /\ h_address e = address /\ h_node e = p.
Proof.
  induction seen as [|r seen IH]; [done|]. cbn [previous_state].
  assert (previous_state seen address = Some p -> exists a e, a ∈ r :: seen /\ w_operation a = WArchive e /\ h_address e = address /\ h_node e = p) as Hrec.
  { intros (a & e & Ha & ?)%IH. exists a, e. split; [by right|done]. }
  destruct (w_operation r) eqn:E; try done; case_decide; try done. intros [= <-]. exists r. eexists. split; [left|done].
Qed.

Lemma changes_justified seen unit c n : (c, n) ∈ changes_from seen unit -> justified (reverse seen ++ unit) c n.
Proof.
  revert seen. induction unit as [|r unit IH]; intros seen; cbn [changes_from]; [by intros ?%not_elem_of_nil|]. intros [Hc|Hc]%elem_of_app.
  - unfold change_of in Hc. exists r. split; [apply elem_of_app; right; left|]. destruct (w_operation r) eqn:Eop; cbn [option_list] in Hc; try (by apply not_elem_of_nil in Hc).
    + apply list_elem_of_singleton in Hc. injection Hc as -> ->. cbn. split_and!; try done. by left.
    + destruct (previous_state seen address) as [p|] eqn:Ep; cbn in Hc; [|by apply not_elem_of_nil in Hc]. apply list_elem_of_singleton in Hc. injection Hc as -> ->. cbn. split_and!; try done. right. split; [done|].
      destruct (previous_archived _ _ _ Ep) as (a & e & Ha & ?). exists a, e. split; [|done]. apply elem_of_app. left. by apply elem_of_reverse.
  - apply IH in Hc. by rewrite reverse_cons, <- app_assoc in Hc.
Qed.

Lemma settled_committed us c n : (c, n) ∈ settled us -> exists u t, u ∈ us /\ unit_state u t = Committed /\ (c, n) ∈ unit_changes u.
Proof.
  induction us as [|u us IH]; cbn [settled]; [by intros ?%not_elem_of_nil|]. destruct (unit_state u _) eqn:E.
  - intros [Hc|Hc]%elem_of_app; [exists u; eexists; split; [left|done]|]. destruct (IH Hc) as (u' & t & Hu & ?). exists u', t. split; [by right|done].
  - intros Hc. destruct (IH Hc) as (u' & t & Hu & ?). exists u', t. split; [by right|done].
  - by intros ?%not_elem_of_nil.
Qed.

(** C19: A page shows only committed changes, and only to those who may read them.  Behind every change of a page is
    a record of a committed unit: the insertion of a node, or the deletion of an address whose removed state the
    same unit archived; and the caller is an administrator or may read that node or that removed state. *)
Theorem changes_authorized m after owner is_admin page : moment_ok m -> read_at m after owner is_admin = Ok page ->
  Forall (fun c => exists unit n t, unit ∈ units (mo_history m) /\ unit_state unit t = Committed /\ justified unit c n /\
    after < cr_seq c /\ is_admin || can_read n owner = true) (cp_changes page).
Proof.
  intros Hok Hread. destruct (read_page _ _ _ _ _ Hok Hread) as (rest & Hv & _). apply Forall_forall. intros c Hc.
  assert (c ∈ visible (MkLens after owner is_admin) (mo_history m)) as Hin by (rewrite Hv; apply elem_of_app; by left).
  apply list_elem_of_omap in Hin as ([c' n] & Hs & Hsh). unfold shown in Hsh. cbn [fst snd ln_after ln_owner ln_is_admin] in Hsh.
  destruct (Z.leb_spec (cr_seq c') after); [done|]. destruct (admits _ _ _) eqn:Ha; [|done]. injection Hsh as ->. rewrite for_node_admits in Ha.
  apply settled_committed in Hs as (u & t & Hu & Ht & Hcn). exists u, n, t. split_and!; try done. by apply (changes_justified [] u) in Hcn.
Qed.

(** ** A run *)

Definition place_at : Coordinate := {| coord_x := 0; coord_y := 0; coord_z := 0; coord_q := 0 |}.
Definition private_node (address owner : string) : Node := node_new place_at address "thing" owner.

(** A node of "a" is inserted, then deleted in a transaction; a node of "b" is inserted. *)
Definition first_records : list WalRecord :=
  [record_new 1 0 1 (WInsert (private_node "n" "a"));
   record_new 2 7 2 WBegin; record_new 3 7 4 (WArchive (MkHistory "n" 9 (private_node "n" "a") 3)); record_new 4 7 5 (WDelete "n"); record_new 5 7 6 WCommit].
Definition last_records : list WalRecord := first_records ++ [record_new 6 0 7 (WInsert (private_node "m" "b"))].

Ltac small_history :=
  split;
  [repeat (constructor; cbn; try lia) | repeat (constructor; cbn; try lia) | repeat (constructor; cbn; try lia)
  | intros u r Hu; vm_compute in Hu; repeat (apply elem_of_cons in Hu as [Hu|Hu]; [injection Hu as -> ->; by vm_compute|]); by apply not_elem_of_nil in Hu
  | intros id Hid; destruct (decide (id = 7)) as [->|Hne];
    [eexists; eapply (shape_committed _ [_; _]); [done|by repeat constructor|done]
    |exists None; unfold frame_records; rewrite filter_none; [constructor|]; repeat constructor; cbn; congruence]].

Lemma first_records_ok : history_ok first_records.
Proof. small_history. Qed.

Lemma last_records_ok : history_ok last_records.
Proof. small_history. Qed.

(** Read whole, one change a page; then again when another record is there and the first unit is gone. *)
Definition early : moment := MkMoment first_records 0 0 1.
Definition late : moment := MkMoment last_records 1 1 1.

Lemma early_ok : moment_ok early.
Proof. split; [apply first_records_ok|done|constructor]. Qed.

Lemma late_ok : moment_ok late.
Proof. split; [apply last_records_ok|done|by repeat constructor]. Qed.

Lemma changes_feed_exact_witness :
  follow [early; early; late] 0 "a" false = Ok ([MkChange 1 Created "n" "thing"; MkChange 5 Deleted "n" "thing"], 5, true) /\ visible (MkLens 5 "a" false) last_records = [].
Proof.
  destruct (changes_feed_exact [early; early] late 0 "a" false [MkChange 1 Created "n" "thing"; MkChange 5 Deleted "n" "thing"] 5 true) as [_ H].
  - exact (Forall_cons_2 _ _ _ early_ok (Forall_cons_2 _ _ _ early_ok (Forall_cons_2 _ _ _ late_ok (Forall_nil_2 _)))).
  - repeat constructor; by exists [record_new 6 0 7 (WInsert (private_node "m" "b"))].
  - vm_compute. reflexivity.
  - split; [vm_compute; reflexivity|exact (H eq_refl)].
Defined.

Lemma changes_paging_ends_witness : page_through 4 early 0 "a" false = Ok (Some (visible (MkLens 0 "a" false) first_records)).
Proof.
  apply (changes_paging_ends early 0 "a" false (MkPage [MkChange 1 Created "n" "thing"] 1 false) 4 early_ok).
  - reflexivity || (vm_compute; lia).
  - vm_compute. reflexivity.
  - vm_compute. lia.
Defined.

Lemma changes_authorized_witness : exists unit n t, unit ∈ units first_records /\ unit_state unit t = Committed /\ justified unit (MkChange 1 Created "n" "thing") n /\
  0 < 1 /\ false || can_read n "a" = true.
Proof.
  pose proof (changes_authorized early 0 "a" false (MkPage [MkChange 1 Created "n" "thing"] 1 false) early_ok eq_refl) as H. by apply Forall_cons_1 in H as [H _].
Defined.

(** A reader that has seen everything is refused after a rotation.  It reads a complete page; the log is then
    rotated, which drops nothing past the reader's position, and a record is appended.  The next read is refused as
    too old, although the log still holds every change past the position: the horizon of a log that is not empty is
    its first record, not the last record dropped. *)
Theorem rotation_refuses_current_reader :
  follow [early; early] 0 "a" false = Ok ([MkChange 1 Created "n" "thing"; MkChange 5 Deleted "n" "thing"], 5, true) /\
  let rotated := MkMoment last_records 5 6 1 in
  visible (MkLens 5 "b" false) last_records = visible (MkLens 5 "b" false) (drop 5 last_records) /\
  read_at rotated 5 "a" false = Err (TooOld (MkScanTooOld 5 7 1)) /\ read_at rotated 6 "a" false = Err (TooOld (MkScanTooOld 6 7 1)) /\
  read_at (MkMoment first_records 5 6 1) 6 "a" false = Ok (MkPage [] 6 true).
Proof. vm_compute. split_and!; reflexivity. Qed.

(** A refusal counts the records of others: two logs with nothing "b" may see answer it differently. *)
Theorem refusal_counts_foreign_records :
  visible (MkLens 0 "c" false) (drop 1 first_records) = [] /\ visible (MkLens 0 "c" false) (drop 1 last_records) = [] /\
  read_at (MkMoment first_records 1 1 1) 0 "c" false = Err (TooOld (MkScanTooOld 0 2 4)) /\
  read_at (MkMoment last_records 1 1 1) 0 "c" false = Err (TooOld (MkScanTooOld 0 2 5)).
Proof. vm_compute. split_and!; reflexivity. Qed.
