(* ===== verification/Checkpoint.v ===== *)
(** * The durability checkpoint ([src/src/storage/checkpoint.rs])

    One number in a file: everything at or below it is on disk and recovery
    skips it.  Open and committed-but-unapplied frames hold a fence at their
    BEGIN, which the number never reaches.  The theorems: the file reads back
    what was written, and [advance] is monotone and stays below every fence. *)

From Stdlib Require Import ZArith Lia.
From stdpp Require Import base tactics list option gmap.
From S2P Require Import Prelude Utf8 Crypto.
Local Open Scope Z_scope.

(** ** Fences *)

Abbreviation fence_set := (gset Z).

Definition begin_fence (fences : fence_set) (begin_sequence : Z) : fence_set := {[begin_sequence]} ∪ fences.
Definition release_fence (fences : fence_set) (begin_sequence : Z) : fence_set := fences ∖ {[begin_sequence]}.

Definition min_fence (fences : fence_set) : option Z :=
  match elements fences with
  | [] => None
  | x :: l => Some (fold_left Z.min l x)
  end.

(** [saturating_sub(1)], or no bound. *)
Definition ceiling (fences : fence_set) : Z :=
  match min_fence fences with
  | Some fence => Z.max (fence - 1) 0
  | None => 2 ^ 64 - 1
  end.

(** ** The file *)

Definition MAX_CHECKPOINT_FILE_LEN : nat := 64.

Definition is_digit (b : Z) : bool := (48 <=? b) && (b <=? 57).

(** [str::parse::<u64>] on digits. *)
Fixpoint parse_digits (acc : Z) (l : list Z) : option Z :=
  match l with
  | [] => Some acc
  | d :: l =>
      let acc := acc * 10 + (d - 48) in
      if 2 ^ 64 <=? acc then None else parse_digits acc l
  end.

Definition checkpoint_read (file : option (list Z)) : result error_kind Z :=
  match file with
  | None => Ok 0
  | Some raw =>
      if (length raw =? 0)%nat then Ok 0
      else if (MAX_CHECKPOINT_FILE_LEN <? length raw)%nat then Err InvalidData
      else match from_utf8 raw with
      | None => Err InvalidData
      | Some text =>
          let trimmed := trim text in
          if bool_decide (trimmed = []) then Err InvalidData
          else if negb (forallb is_digit trimmed) then Err InvalidData
          else match parse_digits 0 trimmed with
               | Some v => Ok v
               | None => Err InvalidData
               end
      end
  end.

(** [u64::to_string]: at most twenty digits. *)
Fixpoint decimal_rev (fuel : nat) (z : Z) : list Z :=
  match fuel with
  | O => []
  | S fuel => (48 + z mod 10) :: if z <? 10 then [] else decimal_rev fuel (z / 10)
  end.

Definition decimal (z : Z) : list Z := reverse (decimal_rev 20 z).

(** What [write_value] publishes under the name, by a rename. *)
Definition write_value (sequence : Z) : list Z := decimal sequence.

(** [advance] on the file's value; a request that would not move it writes nothing. *)
Definition advance (fences : fence_set) (current sequence : Z) : Z :=
  let target := Z.min sequence (ceiling fences) in
  if target <=? current then current else target.

(** ** Fences hold *)

Lemma min_fence_spec fences f : f ∈ fences -> exists m, min_fence fences = Some m /\ m <= f /\ m ∈ fences.
Proof.
  intros Hf. unfold min_fence. apply elem_of_elements in Hf.
  assert (forall l x, fold_left Z.min l x <= x /\ (forall y, y ∈ l -> fold_left Z.min l x <= y) /\
    (fold_left Z.min l x = x \/ fold_left Z.min l x ∈ l)) as Hmin.
  { induction l as [|y l IH]; intros x; cbn [fold_left].
    - split; [lia|]. split; [by intros y ?%not_elem_of_nil|by left].
    - destruct (IH (x `min` y)) as (H1 & H2 & H3). split; [lia|]. split.
      + intros z [->|Hz]%elem_of_cons; [lia|]. by apply H2.
      + destruct H3 as [->|H3]; [|right; by right]. destruct (Z.min_spec x y) as [[_ ->]|[_ ->]]; [by left|right; left]. }
  destruct (elements fences) as [|x l] eqn:E; [by apply not_elem_of_nil in Hf|].
  destruct (Hmin l x) as (H1 & H2 & H3). eexists. split; [done|]. split.
  - apply elem_of_cons in Hf as [->|Hf]; [done|by apply H2].
  - apply elem_of_elements. rewrite E. destruct H3 as [->|H3]; [left|by right].
Qed.

Lemma advance_ge fences current sequence : current <= advance fences current sequence.
Proof. unfold advance. destruct (Z.leb_spec (Z.min sequence (ceiling fences)) current); lia. Qed.

Lemma advance_below_fence fences current sequence f :
  f ∈ fences -> 0 < f -> current < f -> advance fences current sequence < f.
Proof.
  intros Hf Hpos Hc. destruct (min_fence_spec fences f Hf) as (m & Em & Hm & _). unfold advance, ceiling. rewrite Em.
  destruct (Z.leb_spec (Z.min sequence (Z.max (m - 1) 0)) current); lia.
Qed.

(** Where the new value can come from. *)
Lemma advance_cases fences current sequence :
  advance fences current sequence = current \/
  advance fences current sequence = sequence \/
  (exists f, f ∈ fences /\ advance fences current sequence = Z.max (f - 1) 0) \/
  advance fences current sequence = 2 ^ 64 - 1.
Proof.
  unfold advance, ceiling. destruct (min_fence fences) as [m|] eqn:Em.
  - assert (m ∈ fences) as Hm.
    { unfold min_fence in Em. destruct (elements fences) as [|x l] eqn:E; [done|].
      destruct (min_fence_spec fences x) as (m' & Em' & _ & Hm'); [apply elem_of_elements; rewrite E; left|].
      unfold min_fence in Em'. rewrite E in Em'. congruence. }
    destruct (Z.leb_spec (Z.min sequence (Z.max (m - 1) 0)) current); [by left|].
    destruct (Z.min_spec sequence (Z.max (m - 1) 0)) as [[_ ->]|[_ ->]]; eauto 10.
  - destruct (Z.leb_spec (Z.min sequence (2 ^ 64 - 1)) current); [by left|].
    destruct (Z.min_spec sequence (2 ^ 64 - 1)) as [[_ ->]|[_ ->]]; auto.
Qed.

(** ** The text of the number *)

Lemma decimal_rev_digits fuel z : 0 <= z -> Forall (fun b => is_digit b = true) (decimal_rev fuel z).
Proof.
  revert z. induction fuel as [|fuel IH]; intros z Hz; cbn [decimal_rev]; constructor.
  - unfold is_digit. pose proof (Z.mod_pos_bound z 10). lia.
  - destruct (z <? 10); [constructor|]. apply IH. apply Z.div_pos; lia.
Qed.

(** The value a reversed digit string denotes. *)
Definition digits_val (l : list Z) : Z := fold_right (fun d v => (d - 48) + 10 * v) 0 l.

Lemma decimal_rev_val fuel z : 0 <= z < 10 ^ Z.of_nat fuel -> digits_val (decimal_rev fuel z) = z.
Proof.
  revert z. induction fuel as [|fuel IH]; intros z Hz; [cbn in *; lia|].
  cbn [decimal_rev digits_val fold_right]. fold (digits_val (if z <? 10 then [] else decimal_rev fuel (z / 10))).
  rewrite Nat2Z.inj_succ, Z.pow_succ_r in Hz by lia.
  destruct (Z.ltb_spec z 10) as [Hlt|Hge].
  - cbn [digits_val fold_right]. rewrite Z.mod_small by lia. lia.
  - rewrite IH; [pose proof (Z.div_mod z 10); lia|]. split; [apply Z.div_pos; lia|]. apply Z.div_lt_upper_bound; lia.
Qed.

Lemma parse_digits_snoc l d acc v :
  parse_digits acc l = Some v -> v * 10 + (d - 48) < 2 ^ 64 -> parse_digits acc (l ++ [d]) = Some (v * 10 + (d - 48)).
Proof.
  revert acc. induction l as [|x l IH]; intros acc; cbn [app parse_digits].
  - intros [= ->] Hv. destruct (Z.leb_spec (2 ^ 64) (v * 10 + (d - 48))); [lia|done].
  - destruct (_ <=? _); [done|]. apply IH.
Qed.

Lemma parse_reverse l :
  Forall (fun b => is_digit b = true) l -> digits_val l < 2 ^ 64 -> parse_digits 0 (reverse l) = Some (digits_val l).
Proof.
  induction 1 as [|d l Hd Hl IH]; [done|]. cbn [digits_val fold_right]. fold (digits_val l). intros Hv.
  assert (0 <= digits_val l) as Hpos.
  { clear -Hl. induction Hl as [|d l Hd _ IH]; cbn [digits_val fold_right]; [lia|]. fold (digits_val l). unfold is_digit in Hd. lia. }
  unfold is_digit in Hd. rewrite reverse_cons, (parse_digits_snoc _ _ _ (digits_val l)); [f_equal; lia|apply IH; lia|lia].
Qed.

Lemma digit_hex b : is_digit b = true -> is_hex_digit b.
Proof. unfold is_digit, is_hex_digit. lia. Qed.

Lemma decimal_rev_length fuel z : (length (decimal_rev fuel z) <= fuel)%nat.
Proof. revert z. induction fuel; intros z; cbn [decimal_rev length]; [lia|]. destruct (z <? 10); cbn; [lia|]. specialize (IHfuel (z / 10)). lia. Qed.

(** The checkpoint file round-trips: reading what a checkpoint wrote gives the same number, for
    every 64-bit number. *)
Theorem checkpoint_roundtrip (v : Z) : u64 v -> checkpoint_read (Some (write_value v)) = Ok v.
Proof.
  intros Hv. unfold write_value, decimal, checkpoint_read. pose proof (decimal_rev_digits 20 v ltac:(lia)) as Hd.
  pose proof (decimal_rev_length 20 v) as Hl. set (l := decimal_rev 20 v) in *.
  assert (l <> []) as Hne by (subst l; by cbn).
  assert (Forall is_hex_digit (reverse l)) as Hh by (apply Forall_reverse; eapply Forall_impl; [exact Hd|apply digit_hex]).
  assert (length (reverse l) <> 0)%nat as Hlen by (rewrite length_reverse; destruct l; [done|cbn; lia]).
  destruct (Nat.eqb_spec (length (reverse l)) 0); [done|].
  destruct (Nat.ltb_spec MAX_CHECKPOINT_FILE_LEN (length (reverse l))) as [Hgt|_].
  { rewrite length_reverse in Hgt. unfold MAX_CHECKPOINT_FILE_LEN in Hgt. lia. }
  rewrite from_utf8_ascii by (eapply Forall_impl; [exact Hh|]; unfold is_hex_digit; cbn; lia).
  rewrite trim_hex by done. rewrite bool_decide_eq_false_2 by (intros E; by rewrite E in Hlen).
  assert (forallb is_digit (reverse l) = true) as ->.
  { apply forallb_forall. intros b Hb. apply Forall_reverse in Hd. rewrite Forall_forall in Hd. by apply Hd, list_elem_of_In. }
  cbn [negb]. assert (digits_val l = v) as E by (apply decimal_rev_val; cbn; lia).
  rewrite parse_reverse, E by (done || lia). done.
Qed.

Lemma checkpoint_roundtrip_witness : checkpoint_read (Some (write_value 4095)) = Ok 4095.
Proof. apply checkpoint_roundtrip. lia. Defined.
