(* ===== verification/Transaction.v ===== *)
(** * Transactions ([src/src/storage/transaction.rs], [src/src/storage/commit.rs]
      and [apply_atomic] of [src/src/storage/engine.rs])

    A mutation of one record is logged on its own; a longer one is logged as a
    frame, BEGIN, the mutations, COMMIT, behind a checkpoint fence.  The state
    is the log as a list of records (what Wal.v shows the file to be), the
    counters, the fences and the checkpoint.  Appends and engine calls may fail
    anywhere.  The theorems: whatever fails and wherever the log is cut by a
    crash, recovery accepts the log, replays exactly the mutations whose last
    record is on it and above the checkpoint, each whole, and nothing committed
    but unapplied in a frame is ever below the checkpoint. *)

From Stdlib Require Import ZArith Lia Ascii String.
From stdpp Require Import base tactics list strings option gmap sorting.
From S2P Require Import Prelude Crypto Keys Json OrderKey Search Entities Wal Recovery Checkpoint.

(** ** Operations *)

Inductive Operation :=
| OArchive (e : HistoryEntry)
| OInsert (n : Node)
| ODelete (address : string)
| OInsertEdge (e : Edge)
| ODeleteEdge (id : EdgeId)
| OInsertUser (u : UserRecord)
| ORevokeUser (token_hash : string)
| OCreateIndex (d : IndexDef)
| ODropIndex (name : string)
| OCreateReference (d : ReferenceDef)
| ODropReference (name : string)
| OCreateTextIndex (d : TextIndexDef)
| ODropTextIndex (name : string).

Definition to_wal (op : Operation) : WalOperation :=
  match op with
  | OArchive e => WArchive e
  | OInsert n => WInsert n
  | ODelete a => WDelete a
  | OInsertEdge e => WInsertEdge e
  | ODeleteEdge id => WDeleteEdge id
  | OInsertUser u => WInsertUser u
  | ORevokeUser h => WRevokeUser h
  | OCreateIndex d => WCreateIndex d
  | ODropIndex n => WDropIndex n
  | OCreateReference d => WCreateReference d
  | ODropReference n => WDropReference n
  | OCreateTextIndex d => if t_folded d then WCreateFoldedTextIndex d else WCreateTextIndex d
  | ODropTextIndex n => WDropTextIndex n
  end.

(** The indexes declared when the mutation runs ([Declared]). *)
Record Declared := MkDeclared { decl_data : list IndexDef; decl_text : list TextIndexDef }.

Definition data_for (d : Declared) (kind : string) : list IndexDef :=
  filter (fun def => String.eqb (def_kind def) kind = true) (decl_data d).
Definition text_for (d : Declared) (kind : string) : list TextIndexDef :=
  filter (fun def => String.eqb (t_kind def) kind = true) (decl_text d).

Section validate.
Context {N : Type} `{SerdeJson N}.

Definition operation_validate (declared : Declared) (op : Operation) : check :=
  match op with
  | OArchive e =>
      check_history_keys (as_bytes (h_address e)) (as_bytes (n_address (h_node e))) (as_bytes (n_kind (h_node e)))
        (as_bytes (n_owner (h_node e)))
  | OInsert n =>
      _ ← check_node_keys (as_bytes (n_address n)) (as_bytes (n_kind n)) (as_bytes (n_owner n));
      _ ← check_data_keys (N := N) (data_for declared (n_kind n)) (as_bytes (n_address n)) (n_data n);
      check_text_keys (N := N) (text_for declared (n_kind n)) (as_bytes (n_address n)) (n_data n)
  | ODelete a => check_key_admissible (as_bytes a)
  | OInsertEdge e => check_edge_keys (as_bytes (e_from e)) (as_bytes (e_to e)) (as_bytes (e_ekind e))
  | ODeleteEdge id => check_edge_keys (as_bytes (id_from id)) (as_bytes (id_to id)) (as_bytes (id_kind id))
  | OInsertUser _ | ORevokeUser _ => Ok tt
  | OCreateIndex d => index_def_validate d
  | ODropIndex _ => Ok tt
  | OCreateReference d => reference_validate d
  | ODropReference _ => Ok tt
  | OCreateTextIndex d => text_def_validate d
  | ODropTextIndex _ => Ok tt
  end.

Fixpoint validate_all (declared : Declared) (ops : list Operation) : check :=
  match ops with
  | [] => Ok tt
  | op :: ops => _ ← operation_validate declared op; validate_all declared ops
  end.
End validate.

(** ** The writer's state *)

Record writer := MkWriter {
  wr_log : list WalRecord;
  wr_counters : counters;
  wr_fences : fence_set;
  wr_checkpoint : Z;
  wr_applied : Z;     (* [applied_sequence] *)
  wr_done : gset Z;   (* the units whose effects the engine has, by their last sequence *)
}.

(** Draw identifiers and append; a failed append burns them. *)
Definition log_record (w : writer) (transaction_id : Z) (op : WalOperation) (ok : bool) : writer * option Z :=
  let (sequence, c) := take_sequence (wr_counters w) in
  let (operation_id, c) := take_operation_id c in
  let log := if ok then wr_log w ++ [record_new sequence transaction_id operation_id op] else wr_log w in
  (MkWriter log c (wr_fences w) (wr_checkpoint w) (wr_applied w) (wr_done w), if ok then Some sequence else None).

Definition with_fences (w : writer) (fs : fence_set) : writer :=
  MkWriter (wr_log w) (wr_counters w) fs (wr_checkpoint w) (wr_applied w) (wr_done w).

Record StagedCommit := MkStaged { sc_transaction_id : Z; sc_begin_sequence : Z; sc_commit_sequence : option Z }.

Definition staged_open (w : writer) (ok : bool) : writer * option StagedCommit :=
  let (id, c) := take_transaction_id (wr_counters w) in
  let w := MkWriter (wr_log w) c (wr_fences w) (wr_checkpoint w) (wr_applied w) (wr_done w) in
  if (id =? STANDALONE_TRANSACTION_ID)%Z then (w, None)
  else match log_record w id WBegin ok with
       | (w, Some sequence) =>
           (with_fences w (begin_fence (wr_fences w) sequence), Some (MkStaged id sequence None))
       | (w, None) => (w, None)
       end.

Definition staged_stage (w : writer) (sc : StagedCommit) (op : WalOperation) (ok : bool) : writer * option Z :=
  if is_control op then (w, None)
  else match sc_commit_sequence sc with
       | Some _ => (w, None)
       | None => log_record w (sc_transaction_id sc) op ok
       end.

Definition staged_commit (w : writer) (sc : StagedCommit) (ok : bool) : writer * option StagedCommit :=
  match sc_commit_sequence sc with
  | Some _ => (w, None)
  | None =>
      match log_record w (sc_transaction_id sc) WCommit ok with
      | (w, Some sequence) => (w, Some (MkStaged (sc_transaction_id sc) (sc_begin_sequence sc) (Some sequence)))
      | (w, None) => (w, None)
      end
  end.

Definition staged_settle (w : writer) (sc : StagedCommit) : writer * option Z :=
  match sc_commit_sequence sc with
  | None => (w, None)
  | Some sequence => (with_fences w (release_fence (wr_fences w) (sc_begin_sequence sc)), Some sequence)
  end.

(** The drop guard: an uncommitted frame is unpinned and aborted, best effort; a committed one keeps its fence. *)
Definition staged_drop (w : writer) (sc : StagedCommit) (ok : bool) : writer :=
  match sc_commit_sequence sc with
  | Some _ => w
  | None =>
      let w := with_fences w (release_fence (wr_fences w) (sc_begin_sequence sc)) in
      fst (log_record w (sc_transaction_id sc) WAbort ok)
  end.

(** The staging loop: stop at the first failure. *)
Fixpoint stage_all (w : writer) (sc : StagedCommit) (ops : list Operation) (io : nat -> bool) (i : nat) : writer * bool :=
  match ops with
  | [] => (w, true)
  | op :: ops =>
      match staged_stage w sc (to_wal op) (io i) with
      | (w, Some _) => stage_all w sc ops io (S i)
      | (w, None) => (w, false)
      end
  end.

Definition mark_done (w : writer) (sequence : Z) : writer :=
  MkWriter (wr_log w) (wr_counters w) (wr_fences w) (wr_checkpoint w) (wr_applied w) ({[sequence]} ∪ wr_done w).

Section driver.
Context {N : Type} `{SerdeJson N}.

(** [Transaction::commit]: [io i] is whether the [i]-th append succeeds, [applies] whether the whole
    batch reaches the engine.  Admissibility is decided before the frame. *)
Definition transaction_commit (w : writer) (declared : Declared) (ops : list Operation) (io : nat -> bool) (applies : bool)
    : writer * option Z :=
  match ops with
  | [] => (w, Some 0%Z)
  | _ =>
      match validate_all (N := N) declared ops with
      | Err _ => (w, None)
      | Ok _ =>
          match staged_open w (io 0) with
          | (w, None) => (w, None)
          | (w, Some sc) =>
              let n := length ops in
              match stage_all w sc ops io 1 with
              | (w, false) => (staged_drop w sc (io (n + 2)), None)
              | (w, true) =>
                  match staged_commit w sc (io (n + 1)) with
                  | (w, None) => (staged_drop w sc (io (n + 2)), None)
                  | (w, Some sc) =>
                      if applies then
                        let w := match sc_commit_sequence sc with Some s => mark_done w s | None => w end in
                        staged_settle w sc
                      else (staged_drop w sc (io (n + 2)), None)
                  end
              end
          end
      end
  end.

(** [note_applied] *)
Definition note_applied (w : writer) (sequence : Z) : writer :=
  MkWriter (wr_log w) (wr_counters w) (wr_fences w) (wr_checkpoint w) (Z.max (wr_applied w) sequence) (wr_done w).

(** [checks] is whether [check_unique] and [check_references] pass. *)
Definition apply_atomic (w : writer) (declared : Declared) (ops : list Operation) (checks : bool) (io : nat -> bool)
    (applies : bool) : writer * bool :=
  match ops with
  | [] => (w, true)
  | [op] =>
      match operation_validate (N := N) declared op with
      | Err _ => (w, false)
      | Ok _ =>
          if negb checks then (w, false)
          else match log_record w STANDALONE_TRANSACTION_ID (to_wal op) (io 0) with
          | (w, None) => (w, false)
          | (w, Some sequence) => if applies then (note_applied (mark_done w sequence) sequence, true) else (w, false)
          end
      end
  | _ =>
      if negb checks then (w, false)
      else match transaction_commit w declared ops io applies with
      | (w, Some sequence) => (note_applied w sequence, true)
      | (w, None) => (w, false)
      end
  end.
End driver.

(** [checkpoint_locked], as far as the log is concerned; everything applied is on disk when it runs. *)
Definition take_checkpoint (w : writer) : writer :=
  MkWriter (wr_log w) (wr_counters w) (wr_fences w) (advance (wr_fences w) (wr_checkpoint w) (wr_applied w))
           (wr_applied w) (wr_done w).

(** ** A log is a sequence of blocks *)

Inductive block :=
| Alone (r : WalRecord)
| Frame (b : WalRecord) (ms : list WalRecord) (fin : option WalRecord).

Definition block_records (bl : block) : list WalRecord :=
  match bl with
  | Alone r => [r]
  | Frame b ms fin => b :: ms ++ match fin with Some f => [f] | None => [] end
  end.

Definition log_of (bs : list block) : list WalRecord := flat_map block_records bs.

Definition block_id (bl : block) : option Z :=
  match bl with Alone _ => None | Frame b _ _ => Some (w_transaction_id b) end.

Definition is_commit (r : WalRecord) : bool := bool_decide (w_operation r = WCommit).

Definition block_ok (bl : block) : Prop :=
  match bl with
  | Alone r => w_transaction_id r = 0%Z /\ is_control (w_operation r) = false
  | Frame b ms fin =>
      w_transaction_id b <> 0%Z /\ w_operation b = WBegin /\ mutations ms /\
      Forall (fun r => w_transaction_id r = w_transaction_id b) (block_records bl) /\
      match fin with Some f => w_operation f = WCommit \/ w_operation f = WAbort | None => True end
  end.

(** What the block commits. *)
Definition block_units (bl : block) : list commit_unit :=
  match bl with
  | Alone r => [([w_operation r], w_sequence r)]
  | Frame _ ms (Some f) => if is_commit f then [(map w_operation ms, w_sequence f)] else []
  | Frame _ _ None => []
  end.

Definition log_ok (bs : list block) : Prop :=
  Forall block_ok bs /\ NoDup (omap block_id bs) /\ increasing (log_of bs).

Lemma log_of_app a b : log_of (a ++ b) = log_of a ++ log_of b.
Proof. apply flat_map_app. Qed.

Lemma frame_records_none id rs : Forall (fun r => w_transaction_id r <> id) rs -> frame_records id rs = [].
Proof. apply filter_none. Qed.

Lemma frame_records_all id rs : Forall (fun r => w_transaction_id r = id) rs -> frame_records id rs = rs.
Proof. apply filter_all. Qed.

(** The records of another block belong to another transaction. *)
Lemma block_foreign bl id : block_ok bl -> id <> 0%Z -> block_id bl <> Some id ->
  Forall (fun r => w_transaction_id r <> id) (block_records bl).
Proof.
  destruct bl as [r|b ms fin]; cbn [block_ok block_id].
  - intros [Hr _] Hid _. constructor; [congruence|constructor].
  - intros (_ & _ & _ & Hall & _) _ Hne. eapply Forall_impl; [exact Hall|]. cbn. congruence.
Qed.

Lemma log_foreign bs id : Forall block_ok bs -> id <> 0%Z -> id ∉ omap block_id bs ->
  frame_records id (log_of bs) = [].
Proof.
  intros Hok Hid Hnin. apply frame_records_none. induction Hok as [|bl bs Hbl _ IH]; [constructor|].
  cbn [log_of flat_map]. apply Forall_app_2.
  - apply block_foreign; [done|done|]. intros E. apply Hnin. cbn [omap list_omap]. rewrite E. left.
  - apply IH. intros Hin. apply Hnin. cbn [omap list_omap]. destruct (block_id bl); [by right|done].
Qed.

Lemma frame_of_block b ms fin :
  block_ok (Frame b ms fin) ->
  frame_records (w_transaction_id b) (block_records (Frame b ms fin)) = block_records (Frame b ms fin).
Proof. intros (_ & _ & _ & Hall & _). by apply frame_records_all. Qed.

Lemma block_shape bl id : block_ok bl -> block_id bl = Some id -> exists o, frame_shape (block_records bl) o.
Proof.
  destruct bl as [r|b ms [f|]]; cbn [block_ok block_id block_records]; [done| |].
  - intros (_ & Hb & Hm & _ & [Hf|Hf]) _; eexists; [by apply shape_committed|by apply shape_aborted].
  - intros (_ & Hb & Hm & _) _. rewrite app_nil_r. eexists. by apply shape_open.
Qed.

(** The frame of a transaction is one block. *)
Lemma log_frame bs id : Forall block_ok bs -> NoDup (omap block_id bs) -> id <> 0%Z ->
  frame_records id (log_of bs) = [] \/
  exists bl, bl ∈ bs /\ block_id bl = Some id /\ frame_records id (log_of bs) = block_records bl.
Proof.
  intros Hok Hnd Hid. induction Hok as [|bl bs Hbl Hok IH]; [by left|].
  cbn [log_of flat_map]. rewrite frame_records_app. fold (log_of bs). cbn [omap list_omap] in Hnd.
  destruct (decide (block_id bl = Some id)) as [E|Hne].
  - right. exists bl. split; [left|]. split; [done|]. rewrite E in Hnd. apply NoDup_cons in Hnd as [Hnin _].
    rewrite log_foreign by done. rewrite app_nil_r. destruct bl as [|b ms fin]; [done|]. injection E as <-. by apply frame_of_block.
  - rewrite frame_records_none by (by apply block_foreign). cbn [app].
    assert (NoDup (omap block_id bs)) as Hnd' by (destruct (block_id bl); [by apply NoDup_cons in Hnd as [_ ?]|done]).
    destruct (IH Hnd') as [E|(bl' & Hin & Hid' & E)]; [by left|]. right. exists bl'. split; [by right|done].
Qed.

Lemma log_standalone bs : Forall block_ok bs ->
  Forall (fun r => w_transaction_id r = 0%Z -> is_control (w_operation r) = false) (log_of bs).
Proof.
  induction 1 as [|bl bs Hbl _ IH]; [constructor|]. cbn [log_of flat_map]. apply Forall_app_2; [|done].
  destruct bl as [r|b ms fin]; cbn [block_ok] in Hbl.
  - destruct Hbl as [_ Hc]. constructor; [auto|constructor].
  - destruct Hbl as (Hz & _ & _ & Hall & _). eapply Forall_impl; [exact Hall|]. cbn. congruence.
Qed.

(** A log of blocks classifies. *)
Lemma log_classifies bs : log_ok bs -> exists c, classify_transactions (log_of bs) = Ok c.
Proof.
  intros (Hok & Hnd & Hi).
  assert (forall id, exists o, id <> 0%Z -> frame_shape (frame_records id (log_of bs)) o) as Hsh.
  { intros id. destruct (decide (id = 0%Z)) as [->|Hid]; [by exists None|].
    destruct (log_frame bs id Hok Hnd Hid) as [->|(bl & Hin & Hbid & ->)]; [exists None; intros; constructor|].
    destruct (block_shape bl id) as [o Ho]; [|done|eauto]. rewrite Forall_forall in Hok. by apply Hok. }
  unfold classify_transactions. destruct (group_frames_total (log_of bs) ∅ (log_standalone bs Hok)) as [fs Hg]. rewrite Hg.
  cbn [mbind result_bind]. apply group_frames_spec in Hg as (_ & Hd & Hm). apply classify_ids_total.
  intros id Hin. rewrite sorted_ids_elem, Hm in Hin. destruct Hin as [[? E]|[Hid _]]; [by rewrite lookup_empty in E|].
  destruct (Hsh id) as [o Ho]. exists o. rewrite Hd by done. rewrite lookup_empty. cbn [default app].
  apply classify_frame_shape; [by apply increasing_filter|apply frame_transaction|by apply Ho].
Qed.

(** ** The units of a log of blocks *)

Lemma staged_frame id rs : mutations rs -> Forall (fun r => w_transaction_id r = id) rs -> staged id rs = map w_operation rs.
Proof. intros Hm Ht. unfold staged. rewrite frame_records_all by done. by rewrite filter_all. Qed.

Lemma staged_app_none id a b : frame_records id a = [] -> staged id (a ++ b) = staged id b.
Proof. intros E. unfold staged. by rewrite frame_records_app, E. Qed.

Lemma units_mutations seen ms rest :
  mutations ms -> Forall (fun r => w_transaction_id r <> 0%Z) ms ->
  units_from seen (ms ++ rest) = units_from (seen ++ ms) rest.
Proof.
  intros Hm. revert seen. induction Hm as [|m ms Hm _ IH]; intros seen Hz; [by rewrite app_nil_r|].
  inversion Hz as [|? ? Hmz Hz']; subst. cbn [app units_from]. destruct (Z.eqb_spec (w_transaction_id m) 0); [done|].
  rewrite bool_decide_eq_false_2 by (intros E; by rewrite E in Hm). cbn [app]. rewrite IH by done. by rewrite <- app_assoc.
Qed.

(** A begin or an end that is not a COMMIT commits nothing. *)
Lemma units_skip seen r rest :
  w_transaction_id r <> 0%Z -> w_operation r <> WCommit -> units_from seen (r :: rest) = units_from (seen ++ [r]) rest.
Proof.
  intros Hz Hc. cbn [units_from]. destruct (Z.eqb_spec (w_transaction_id r) 0); [done|]. by rewrite bool_decide_eq_false_2.
Qed.

Lemma units_block seen bl rest :
  block_ok bl -> (forall id, block_id bl = Some id -> frame_records id seen = []) ->
  units_from seen (block_records bl ++ rest) = block_units bl ++ units_from (seen ++ block_records bl) rest.
Proof.
  intros Hok Hfresh. destruct bl as [r|b ms fin]; cbn [block_ok block_records block_units block_id] in *.
  - destruct Hok as [Hz Hc]. cbn [app units_from]. by rewrite Hz.
  - destruct Hok as (Hz & Hb & Hm & Hall & Hf). specialize (Hfresh _ eq_refl). apply Forall_cons_1 in Hall as [_ Hall].
    apply Forall_app in Hall as [Hms Hfin].
    assert (Forall (fun r => w_transaction_id r <> 0%Z) ms) as Hmz by (eapply Forall_impl; [exact Hms|]; cbn; congruence).
    cbn [app]. rewrite units_skip by congruence. rewrite <- !app_assoc, units_mutations by done. destruct fin as [f|].
    + apply Forall_cons_1 in Hfin as [Hft _]. unfold is_commit. destruct (decide (w_operation f = WCommit)) as [Ec|Ec].
      * rewrite bool_decide_eq_true_2 by done. cbn [app units_from]. destruct (Z.eqb_spec (w_transaction_id f) 0); [congruence|].
        rewrite bool_decide_eq_true_2 by done. rewrite Hft. cbn [app]. f_equal; [|by rewrite <- !app_assoc].
        f_equal. rewrite <- app_assoc, staged_app_none by done. unfold staged. cbn [app].
        rewrite frame_records_here, filter_cons_False by (by rewrite Hb). by apply staged_frame.
      * rewrite bool_decide_eq_false_2 by done. cbn [app]. rewrite units_skip by congruence. by rewrite <- !app_assoc.
    + cbn [app]. rewrite app_nil_r, <- app_assoc. done.
Qed.

Definition block_list_units (bs : list block) : list commit_unit := flat_map block_units bs.

Lemma log_units bs : Forall block_ok bs -> NoDup (omap block_id bs) -> committed_units (log_of bs) = block_list_units bs.
Proof.
  unfold committed_units. intros Hok Hnd.
  assert (forall pre, Forall block_ok pre -> NoDup (omap block_id (pre ++ bs)) ->
    units_from (log_of pre) (log_of bs) = block_list_units bs) as Hgen; [|by apply (Hgen [])].
  clear Hnd. induction Hok as [|bl bs Hbl Hok IH]; intros pre Hpre Hnd; [done|].
  cbn [log_of flat_map block_list_units]. rewrite units_block; [|done|].
  - f_equal. assert (log_of pre ++ block_records bl = log_of (pre ++ [bl])) as -> by
      (rewrite log_of_app; cbn [log_of flat_map]; by rewrite app_nil_r).
    apply IH; [apply Forall_app_2; [done|by repeat constructor]|]. by rewrite <- app_assoc.
  - intros id Hid. apply log_foreign; [done| |].
    + destruct bl as [|b ms fin]; [done|]. injection Hid as <-. apply Hbl.
    + rewrite omap_app in Hnd. cbn [omap list_omap] in Hnd. rewrite Hid in Hnd.
      apply NoDup_app in Hnd as (_ & Hdis & _). intros Hin. apply (Hdis id Hin). left.
Qed.

(** ** Cuts *)

(** A crash keeps whole blocks and perhaps the beginning of one more. *)
Definition block_prefix (bl : block) (n : nat) : list block :=
  match n, bl with
  | O, _ => []
  | _, Alone r => [Alone r]
  | S k, Frame b ms fin => [Frame b (take k ms) (if k <=? length ms then None else fin)]
  end.

Fixpoint take_blocks (n : nat) (bs : list block) : list block :=
  match bs with
  | [] => []
  | bl :: bs =>
      if length (block_records bl) <=? n then bl :: take_blocks (n - length (block_records bl)) bs
      else block_prefix bl n
  end.

Lemma block_prefix_records bl n : n < length (block_records bl) -> log_of (block_prefix bl n) = take n (block_records bl).
Proof.
  destruct n as [|k]; [done|]. destruct bl as [r|b ms fin]; cbn [block_records length block_prefix]; [lia|].
  intros Hlt. cbn [log_of flat_map block_records app take]. rewrite app_nil_r. f_equal.
  assert (k <= length ms) as Hk by (rewrite length_app in Hlt; destruct fin; cbn in Hlt; lia).
  rewrite (proj2 (Nat.leb_le _ _) Hk), app_nil_r, take_app_le by lia. done.
Qed.

Lemma take_blocks_log n bs : log_of (take_blocks n bs) = take n (log_of bs).
Proof.
  revert n. induction bs as [|bl bs IH]; intros n; cbn [take_blocks]; [by destruct n|].
  cbn [log_of flat_map]. destruct (Nat.leb_spec (length (block_records bl)) n) as [Hle|Hgt].
  - cbn [log_of flat_map]. fold (log_of (take_blocks (n - length (block_records bl)) bs)). rewrite IH.
    by rewrite take_app_ge.
  - rewrite block_prefix_records by done. rewrite take_app_le by lia. done.
Qed.

Lemma block_prefix_ok bl n : block_ok bl -> Forall block_ok (block_prefix bl n).
Proof.
  destruct n as [|k]; [constructor|]. destruct bl as [r|b ms fin]; cbn [block_prefix]; intros Hok;
    (apply Forall_cons_2; [|apply Forall_nil_2]); [done|].
  destruct Hok as (Hz & Hb & Hm & Hall & Hf). cbn [block_records] in Hall. apply Forall_cons_1 in Hall as [Hbt Hall].
  apply Forall_app in Hall as [Hms Hft]. refine (conj Hz (conj Hb (conj (Forall_take _ _ _ Hm) (conj _ _)))).
  - cbn [block_records]. apply Forall_cons_2; [done|]. apply Forall_app_2; [by apply Forall_take|].
    destruct (k <=? length ms); [constructor|done].
  - by destruct (k <=? length ms).
Qed.

Lemma take_blocks_ids n bs : exists t, omap block_id bs = omap block_id (take_blocks n bs) ++ t.
Proof.
  revert n. induction bs as [|bl bs IH]; intros n; cbn [take_blocks]; [by exists []|]. destruct (_ <=? _).
  - destruct (IH (n - length (block_records bl))) as [t E]. cbn [omap list_omap]. destruct (block_id bl); [|by exists t].
    exists t. cbn [app]. f_equal. exact E.
  - destruct n as [|k]; [by eexists|]. destruct bl as [r|b ms fin]; cbn [block_prefix omap list_omap block_id];
      eexists; [by rewrite app_nil_l|cbn [app]; reflexivity].
Qed.

Lemma increasing_app a b :
  increasing (a ++ b) <-> increasing a /\ increasing b /\ forall x y, x ∈ a -> y ∈ b -> (w_sequence x < w_sequence y)%Z.
Proof.
  induction a as [|r a IH]; cbn [app].
  - split; [intros Hb; split; [constructor|]; split; [done|]; by intros ? ? ?%not_elem_of_nil|by intros (_ & ? & _)].
  - split.
    + inversion 1 as [|? ? Hi Hr]; subst. apply IH in Hi as (Ha & Hb & Hab). apply Forall_app in Hr as [Hra Hrb].
      split; [by constructor|]. split; [done|]. intros x y [->|Hx]%elem_of_cons Hy; [|by apply Hab].
      rewrite Forall_forall in Hrb. by apply Hrb.
    + intros (Ha & Hb & Hab). inversion Ha as [|? ? Hi Hr]; subst. constructor.
      * apply IH. split; [done|]. split; [done|]. intros x y Hx Hy. apply Hab; [by right|done].
      * apply Forall_app_2; [done|]. apply Forall_forall. intros y Hy. apply Hab; [left|done].
Qed.

Lemma take_blocks_ok n bs : log_ok bs -> log_ok (take_blocks n bs).
Proof.
  intros (Hok & Hnd & Hi). split; [|split].
  - clear -Hok. revert n. induction Hok as [|bl bs Hbl _ IH]; intros n; cbn [take_blocks]; [constructor|].
    destruct (_ <=? _); [by constructor|by apply block_prefix_ok].
  - destruct (take_blocks_ids n bs) as [t E]. rewrite E in Hnd. by apply NoDup_app in Hnd as [? _].
  - rewrite take_blocks_log. rewrite <- (take_drop n (log_of bs)) in Hi. by apply increasing_app in Hi as [? _].
Qed.

(** A sequence number that falls between blocks. *)
Definition boundary (cp : Z) (bs : list block) : Prop :=
  exists pre post, bs = pre ++ post /\
    Forall (fun r => w_sequence r <= cp)%Z (log_of pre) /\ Forall (fun r => cp < w_sequence r)%Z (log_of post).

Lemma above_boundary cp bs :
  boundary cp bs -> exists pre post, bs = pre ++ post /\ above cp (log_of bs) = log_of post /\
    Forall (fun r => w_sequence r <= cp)%Z (log_of pre) /\ Forall (fun r => cp < w_sequence r)%Z (log_of post).
Proof.
  intros (pre & post & -> & Hpre & Hpost). exists pre, post. split; [done|]. split; [|done].
  unfold above. rewrite log_of_app, filter_app, filter_none, filter_all; [done|done|].
  eapply Forall_impl; [exact Hpre|]. cbn. lia.
Qed.

Lemma boundary_take cp n bs : boundary cp bs -> boundary cp (take_blocks n bs).
Proof.
  intros (pre & post & -> & Hpre & Hpost). revert n. induction pre as [|bl pre IH]; intros n.
  - exists [], (take_blocks n post). split; [done|]. split; [constructor|]. rewrite take_blocks_log. by apply Forall_take.
  - cbn [log_of flat_map] in Hpre. apply Forall_app in Hpre as [Hbl Hpre]. cbn [app take_blocks].
    destruct (Nat.leb_spec (length (block_records bl)) n) as [Hle|Hgt].
    + destruct (IH Hpre (n - length (block_records bl))) as (pre' & post' & E & Hp & Hq). exists (bl :: pre'), post'.
      rewrite E. split; [done|]. split; [|done]. cbn [log_of flat_map]. by apply Forall_app_2.
    + exists (block_prefix bl n), []. rewrite app_nil_r. split; [done|]. split; [|constructor].
      rewrite block_prefix_records by done. by apply Forall_take.
Qed.

Lemma log_ok_app a b : log_ok (a ++ b) -> log_ok a /\ log_ok b.
Proof.
  intros (Hok & Hnd & Hi). apply Forall_app in Hok as [Ha Hb]. rewrite omap_app in Hnd. apply NoDup_app in Hnd as (Na & _ & Nb).
  rewrite log_of_app in Hi. apply increasing_app in Hi as (Ia & Ib & _). done.
Qed.

(** The units of a block carry sequences of its records. *)
Lemma block_units_sequence (P : Z -> Prop) bs :
  Forall (fun r => P (w_sequence r)) (log_of bs) -> Forall (fun u => P (u.2)) (block_list_units bs).
Proof.
  induction bs as [|bl bs IH]; [constructor|]. cbn [log_of flat_map block_list_units]. intros [Hbl Hbs]%Forall_app.
  apply Forall_app_2; [|by apply IH]. destruct bl as [r|b ms [f|]]; cbn [block_units block_records] in *.
  - by repeat constructor; apply Forall_inv in Hbl.
  - destruct (is_commit f); [|constructor]. constructor; [|constructor]. cbn.
    apply Forall_cons_1 in Hbl as [_ Hbl]. apply Forall_app in Hbl as [_ Hbl]. by apply Forall_inv in Hbl.
  - constructor.
Qed.

(** Recovery above a boundary: accepted, and exactly the units above it. *)
Lemma recovery_above cp bs :
  log_ok bs -> boundary cp bs ->
  (exists c, classify_transactions (above cp (log_of bs)) = Ok c) /\
  committed_units (above cp (log_of bs)) = filter (fun u => cp < u.2)%Z (committed_units (log_of bs)).
Proof.
  intros Hok (pre & post & -> & Ha & Hpre & Hpost)%above_boundary. rewrite Ha.
  destruct (log_ok_app pre post Hok) as [Hokpre Hokpost]. split; [by apply log_classifies|].
  destruct Hok as (Hall & Hnd & _). rewrite log_units by apply Hokpost. rewrite log_units by done.
  unfold block_list_units. rewrite flat_map_app, filter_app.
  rewrite filter_none, filter_all; [done| |].
  - by apply (block_units_sequence (fun s => cp < s)%Z).
  - apply (block_units_sequence (fun s => ~ cp < s)%Z). eapply Forall_impl; [exact Hpre|]. cbn. lia.
Qed.

(** ** What an operation appends *)

(** [w'] is [w] after appending [rs], records of transaction [id], with at most [n] identifiers drawn. *)
Record extends (n id : Z) (w w' : writer) (rs : list WalRecord) : Prop := {
  ext_log : wr_log w' = wr_log w ++ rs;
  ext_increasing : increasing rs;
  ext_range : Forall (fun r => next_sequence (wr_counters w) <= w_sequence r < next_sequence (wr_counters w')
                               /\ w_transaction_id r = id)%Z rs;
  ext_next : (next_sequence (wr_counters w) <= next_sequence (wr_counters w') <= next_sequence (wr_counters w) + n)%Z;
  ext_tid : next_transaction_id (wr_counters w') = next_transaction_id (wr_counters w);
  ext_checkpoint : wr_checkpoint w' = wr_checkpoint w;
  ext_applied : wr_applied w' = wr_applied w;
}.

(** Identifiers left for [n] more records and a transaction. *)
Definition seq_room (n : Z) (w : writer) : Prop :=
  (1 <= next_sequence (wr_counters w) /\ next_sequence (wr_counters w) + n < 2 ^ 64)%Z.
Definition room (n : Z) (w : writer) : Prop :=
  seq_room n w /\
  (1 <= next_transaction_id (wr_counters w) /\ next_transaction_id (wr_counters w) + 1 < 2 ^ 64)%Z.

Lemma extends_refl id w : extends 0 id w w [].
Proof. split; rewrite ?app_nil_r; try done; [constructor|lia]. Qed.

Lemma extends_trans n m id w w1 w2 a b : extends n id w w1 a -> extends m id w1 w2 b -> extends (n + m) id w w2 (a ++ b).
Proof.
  intros [L1 I1 R1 N1 T1 C1 A1] [L2 I2 R2 N2 T2 C2 A2]. split; try congruence; try lia.
  - by rewrite L2, L1, app_assoc.
  - apply increasing_app. split; [done|]. split; [done|]. intros x y Hx Hy. rewrite Forall_forall in R1, R2.
    specialize (R1 x Hx). specialize (R2 y Hy). lia.
  - apply Forall_app. split; [eapply Forall_impl; [exact R1|]|eapply Forall_impl; [exact R2|]]; cbn; lia.
Qed.

Lemma extends_room n m id w w' rs : extends n id w w' rs -> seq_room (n + m) w -> seq_room m w'.
Proof. intros [_ _ _ N T _ _]. unfold seq_room. lia. Qed.

Lemma extends_weaken n m id w w' rs : (n <= m)%Z -> extends n id w w' rs -> extends m id w w' rs.
Proof. intros Hle [L I R Nq T C A]. split; try done. lia. Qed.

Lemma with_fences_extends n id w w' rs fs : extends n id w w' rs -> extends n id w (with_fences w' fs) rs.
Proof. intros [L I R Nq T C A]. by split. Qed.

Lemma mark_done_extends n id w w' rs s : extends n id w w' rs -> extends n id w (mark_done w' s) rs.
Proof. intros [L I R Nq T C A]. by split. Qed.

Lemma bump_small z : (0 <= z)%Z -> (z + 1 < 2 ^ 64)%Z -> bump z = (z + 1)%Z.
Proof. intros. unfold bump. by rewrite Z.mod_small by lia. Qed.

Lemma log_record_extends w id op ok w' o :
  seq_room 1 w -> log_record w id op ok = (w', o) ->
  wr_fences w' = wr_fences w /\ wr_done w' = wr_done w /\
  (o = None /\ extends 1 id w w' [] \/
   exists r, o = Some (w_sequence r) /\ w_operation r = op /\ extends 1 id w w' [r]).
Proof.
  intros [H1 H2]. unfold log_record. cbn. intros E. injection E as <- <-. cbn.
  assert (bump (next_sequence (wr_counters w)) = next_sequence (wr_counters w) + 1)%Z as Hb by (apply bump_small; lia).
  split; [done|]. split; [done|]. destruct ok.
  - right. exists (record_new (next_sequence (wr_counters w)) id (next_operation_id (wr_counters w)) op).
    split; [reflexivity|]. split; [reflexivity|].
    split; cbn; rewrite ?Hb; try reflexivity; try lia; repeat constructor; cbn; lia.
  - left. split; [done|]. split; cbn; rewrite ?Hb, ?app_nil_r; try reflexivity; try lia; constructor.
Qed.

Lemma to_wal_mutation op : is_control (to_wal op) = false.
Proof. destruct op; try done. cbn. by destruct (t_folded d). Qed.

Lemma stage_all_extends w sc ops io i w' b :
  sc_commit_sequence sc = None -> seq_room (Z.of_nat (length ops)) w -> stage_all w sc ops io i = (w', b) ->
  wr_fences w' = wr_fences w /\ wr_done w' = wr_done w /\
  exists rs, extends (Z.of_nat (length ops)) (sc_transaction_id sc) w w' rs /\ mutations rs /\
    (b = true -> map w_operation rs = map to_wal ops).
Proof.
  intros Hsc. revert w i. induction ops as [|op ops IH]; intros w i Hroom E; cbn [stage_all] in E.
  - injection E as <- <-. split; [done|]. split; [done|]. exists []. split; [apply extends_refl|]. split; [constructor|done].
  - unfold staged_stage in E. rewrite to_wal_mutation, Hsc in E. cbn [length] in *.
    destruct (log_record w (sc_transaction_id sc) (to_wal op) (io i)) as [w1 o] eqn:El.
    assert (seq_room (1 + Z.of_nat (length ops)) w) as Hroom' by (unfold seq_room in *; lia).
    apply log_record_extends in El; [|unfold seq_room in *; lia].
    destruct El as (Hf & Hd & [(-> & Hx)|(r & -> & Hop & Hx)]).
    + injection E as <- <-. split; [done|]. split; [done|]. exists []. split; [eapply extends_weaken; [|done]; lia|]. split; [constructor|done].
    + destruct (IH w1 (S i)) as (Hf' & Hd' & rs & Hxs & Hms & Hmap); [by eapply extends_room|done|].
      split; [congruence|]. split; [congruence|]. exists (r :: rs). split; [|split].
      * replace (Z.of_nat (S (length ops))) with (1 + Z.of_nat (length ops))%Z by lia. by apply (extends_trans _ _ _ _ w1 _ [r]).
      * constructor; [rewrite Hop; apply to_wal_mutation|done].
      * intros Hb. cbn [map]. by rewrite Hop, Hmap.
Qed.

(** The state of a frame's owner after its transaction id is drawn. *)
Definition draw_transaction (w : writer) : writer :=
  MkWriter (wr_log w) (snd (take_transaction_id (wr_counters w))) (wr_fences w) (wr_checkpoint w) (wr_applied w) (wr_done w).

Lemma draw_room n w : room n w ->
  seq_room n (draw_transaction w) /\
  next_transaction_id (wr_counters (draw_transaction w)) = (next_transaction_id (wr_counters w) + 1)%Z.
Proof. intros [HS HT]. cbn. split; [done|]. apply bump_small; lia. Qed.

(** How a frame ended: the block it left, what the fences and the applied units became, and the answer. *)
Inductive frame_end (ops : list Operation) (w w' : writer) (bl : block) (answer : option Z) : Prop :=
| end_discarded b ms fin : bl = Frame b ms fin -> block_units bl = [] ->
    wr_fences w' = release_fence (begin_fence (wr_fences w) (w_sequence b)) (w_sequence b) ->
    wr_done w' = wr_done w -> answer = None -> frame_end ops w w' bl answer
| end_applied b ms fin s : bl = Frame b ms fin -> block_units bl = [(map to_wal ops, s)] ->
    wr_fences w' = release_fence (begin_fence (wr_fences w) (w_sequence b)) (w_sequence b) ->
    wr_done w' = {[s]} ∪ wr_done w -> answer = Some s -> frame_end ops w w' bl answer
| end_unapplied b ms fin s : bl = Frame b ms fin -> block_units bl = [(map to_wal ops, s)] ->
    wr_fences w' = begin_fence (wr_fences w) (w_sequence b) -> wr_done w' = wr_done w -> answer = None ->
    frame_end ops w w' bl answer.

Lemma block_ok_frame id b ms fin :
  id <> 0%Z -> w_operation b = WBegin -> mutations ms ->
  Forall (fun r => w_transaction_id r = id) (block_records (Frame b ms fin)) ->
  match fin with Some f => w_operation f = WCommit \/ w_operation f = WAbort | None => True end ->
  block_ok (Frame b ms fin) /\ block_id (Frame b ms fin) = Some id.
Proof.
  intros Hid Hb Hm Hall Hf. pose proof Hall as Hb'. apply Forall_inv in Hb'. cbn [block_ok block_id]. rewrite Hb'. done.
Qed.

Lemma extends_ids n id w w' rs : extends n id w w' rs -> Forall (fun r => w_transaction_id r = id) rs.
Proof. intros [_ _ R _ _ _ _]. eapply Forall_impl; [exact R|]. by intros ? [_ ?]. Qed.

(** The drop guard on an uncommitted frame. *)
Lemma drop_effect w sc ok n w0 b ms :
  sc_commit_sequence sc = None -> seq_room 1 w -> sc_transaction_id sc <> 0%Z -> w_operation b = WBegin -> mutations ms ->
  extends n (sc_transaction_id sc) w0 w (b :: ms) ->
  exists fin, let w' := staged_drop w sc ok in let bl := Frame b ms fin in
    extends (n + 1) (sc_transaction_id sc) w0 w' (block_records bl) /\ block_ok bl /\
    block_id bl = Some (sc_transaction_id sc) /\ block_units bl = [] /\
    wr_fences w' = release_fence (wr_fences w) (sc_begin_sequence sc) /\ wr_done w' = wr_done w.
Proof.
  intros Hsc Hroom Hid Hb Hm Hx. unfold staged_drop. rewrite Hsc. set (w1 := with_fences w _).
  assert (extends n (sc_transaction_id sc) w0 w1 (b :: ms)) as Hx1 by (by apply with_fences_extends).
  destruct (log_record w1 (sc_transaction_id sc) WAbort ok) as [w2 o] eqn:E. apply log_record_extends in E; [|done].
  destruct E as (Hf & Hd & [[-> Hx2]|(r & -> & Hr & Hx2)]); cbn [fst].
  - exists None. pose proof (extends_trans _ _ _ _ _ _ _ _ Hx1 Hx2) as Hx'.
    change (b :: ms ++ []) with (block_records (Frame b ms None)) in Hx'.
    destruct (block_ok_frame _ b ms None Hid Hb Hm (extends_ids _ _ _ _ _ Hx') I) as [Hok Hbid]. done.
  - exists (Some r). pose proof (extends_trans _ _ _ _ _ _ _ _ Hx1 Hx2) as Hx'.
    change (b :: ms ++ [r]) with (block_records (Frame b ms (Some r))) in Hx'.
    destruct (block_ok_frame _ b ms (Some r) Hid Hb Hm (extends_ids _ _ _ _ _ Hx') (or_intror Hr)) as [Hok Hbid].
    split; [done|]. split; [done|]. split; [done|]. split; [|done]. cbn [block_units]. unfold is_commit.
    by rewrite Hr.
Qed.

Lemma open_effect w ok w' o :
  room 1 w -> staged_open w ok = (w', o) ->
  wr_done w' = wr_done w /\
  (o = None /\ wr_fences w' = wr_fences w /\ extends 1 (next_transaction_id (wr_counters w)) (draw_transaction w) w' [] \/
   exists b, o = Some (MkStaged (next_transaction_id (wr_counters w)) (w_sequence b) None) /\ w_operation b = WBegin /\
     wr_fences w' = begin_fence (wr_fences w) (w_sequence b) /\
     extends 1 (next_transaction_id (wr_counters w)) (draw_transaction w) w' [b]).
Proof.
  intros Hroom. pose proof (draw_room 1 w Hroom) as [Hroom' _]. unfold staged_open. cbn [take_transaction_id].
  destruct (Z.eqb_spec (next_transaction_id (wr_counters w)) STANDALONE_TRANSACTION_ID) as [E|_].
  { destruct Hroom as [_ ?]. unfold STANDALONE_TRANSACTION_ID in E. lia. }
  change (MkWriter _ _ _ _ _ _) with (draw_transaction w).
  destruct (log_record _ _ _ _) as [w1 o1] eqn:E. apply log_record_extends in E; [|done].
  destruct E as (Hf & Hd & [[-> Hx]|(r & -> & Hr & Hx)]); intros [= <- <-]; (split; [done|]).
  - left. done.
  - right. exists r. cbn [with_fences wr_fences]. rewrite Hf. split; [done|]. split; [done|]. split; [done|].
    by apply with_fences_extends.
Qed.

Section outcomes.
Context {N : Type} `{SerdeJson N}.

(** What a transaction leaves behind, however it ends. *)
Lemma transaction_effect w declared ops io applies w' answer :
  let id := next_transaction_id (wr_counters w) in let n := (Z.of_nat (length ops) + 3)%Z in
  ops <> [] -> room n w -> transaction_commit (N := N) w declared ops io applies = (w', answer) ->
  (w' = w /\ answer = None) \/ validate_all (N := N) declared ops = Ok tt /\ (
  (extends n id (draw_transaction w) w' [] /\ wr_fences w' = wr_fences w /\ wr_done w' = wr_done w /\ answer = None) \/
  exists bl, extends n id (draw_transaction w) w' (block_records bl) /\ block_ok bl /\ block_id bl = Some id /\
    frame_end ops w w' bl answer).
Proof.
  intros id n Hne Hroom. unfold transaction_commit. destruct ops as [|op0 ops0]; [done|]. set (ops := op0 :: ops0) in *.
  destruct (validate_all declared ops) as [[]|] eqn:Ev; [|intros [= <- <-]; by left].
  intros E0. right. split; [done|]. revert E0. destruct (staged_open w (io 0)) as [w1 o1] eqn:Eo.
  apply open_effect in Eo; [|destruct Hroom as [HS ?]; split; [unfold seq_room in *; lia|done]].
  destruct Eo as [Hd1 [(-> & Hf1 & Hx1)|(b & -> & Hb & Hf1 & Hx1)]].
  { intros [= <- <-]. left. split; [eapply extends_weaken; [|done]; lia|done]. }
  intros E0. right. revert E0. pose proof (draw_room n w Hroom) as [Hr0 _].
  assert (seq_room (n - 1) w1) as Hr1 by (eapply extends_room; [exact Hx1|]; by replace (1 + (n - 1))%Z with n by lia).
  assert (id <> 0%Z) as Hid by (destruct Hroom as [_ ?]; lia).
  set (sc := MkStaged (next_transaction_id (wr_counters w)) (w_sequence b) None) in *.
  destruct (stage_all w1 sc ops io 1) as [w2 ok2] eqn:Es.
  apply stage_all_extends in Es; [|done|unfold seq_room in *; lia].
  destruct Es as (Hf2 & Hd2 & ms & Hx2 & Hms & Hmap).
  pose proof (extends_trans _ _ _ _ _ _ _ _ Hx1 Hx2) as Hx12. change ([b] ++ ms) with (b :: ms) in Hx12.
  assert (seq_room 2 w2) as Hr2 by (eapply extends_room; [exact Hx12|]; by replace (1 + _ + 2)%Z with n by lia).
  assert (forall w3 ok, wr_fences w3 = wr_fences w2 -> wr_done w3 = wr_done w2 -> seq_room 1 w3 ->
    extends (1 + Z.of_nat (length ops) + 1) id (draw_transaction w) w3 (b :: ms) ->
    exists bl, extends n id (draw_transaction w) (staged_drop w3 sc ok) (block_records bl) /\ block_ok bl /\
      block_id bl = Some id /\ frame_end ops w (staged_drop w3 sc ok) bl None) as Hdrop.
  { intros w3 ok Hf3 Hd3 Hr3 Hx3.
    destruct (drop_effect w3 sc ok _ _ b ms eq_refl Hr3 Hid Hb Hms Hx3) as (fin & Hx & Hok & Hbid & Hu & Hf & Hd).
    exists (Frame b ms fin). split; [eapply extends_weaken; [|done]; lia|]. split; [done|]. split; [done|].
    eapply end_discarded; [done|done| |congruence|done]. rewrite Hf, Hf3, Hf2, Hf1. done. }
  destruct ok2.
  2: { intros [<- <-]%pair_equal_spec. apply Hdrop; [done|done|unfold seq_room in *; lia|eapply extends_weaken; [|done]; lia]. }
  unfold staged_commit. cbn [sc_commit_sequence sc].
  destruct (log_record w2 (sc_transaction_id sc) WCommit _) as [w3 o3] eqn:Ec.
  apply log_record_extends in Ec; [|unfold seq_room in *; lia].
  destruct Ec as (Hf3 & Hd3 & [[-> Hx3]|(c & -> & Hc & Hx3)]).
  { intros [<- <-]%pair_equal_spec. pose proof (extends_trans _ _ _ _ _ _ _ _ Hx12 Hx3) as Hx. rewrite app_nil_r in Hx.
    apply Hdrop; [done|done| |done]. eapply extends_room; [exact Hx3|done]. }
  pose proof (extends_trans _ _ _ _ _ _ _ _ Hx12 Hx3) as Hx.
  change ((b :: ms) ++ [c]) with (block_records (Frame b ms (Some c))) in Hx.
  destruct (block_ok_frame id b ms (Some c) Hid Hb Hms (extends_ids _ _ _ _ _ Hx) (or_introl Hc)) as [Hok Hbid].
  assert (block_units (Frame b ms (Some c)) = [(map to_wal ops, w_sequence c)]) as Hu.
  { cbn [block_units]. unfold is_commit. rewrite bool_decide_eq_true_2 by done. by rewrite Hmap. }
  intros E. exists (Frame b ms (Some c)). destruct applies; apply pair_equal_spec in E as [<- <-].
  - split; [apply with_fences_extends, mark_done_extends; eapply extends_weaken; [|done]; lia|]. split; [done|]. split; [done|].
    eapply end_applied; [done|done| |by cbn; rewrite Hd3, Hd2, Hd1|done]. cbn. by rewrite Hf3, Hf2, Hf1.
  - split; [eapply extends_weaken; [|done]; lia|]. split; [done|]. split; [done|].
    eapply end_unapplied; [done|done| |cbn; congruence|done]. cbn. congruence.
Qed.

(** ** The machine: mutations, checkpoints, rotations, crashes *)

(** Rotation keeps what recovery would still read. *)
Definition rotate_log (w : writer) : writer :=
  MkWriter (above (wr_checkpoint w) (wr_log w)) (wr_counters w) (wr_fences w) (wr_checkpoint w) (wr_applied w) (wr_done w).

(** A crash keeps the first [n] records and loses every effect that was not below the checkpoint; the
    next start has no fences, reseeds the counters and replays what is above the checkpoint. *)
Definition restart (n : nat) (w : writer) : writer :=
  let log := take n (wr_log w) in
  let us := committed_units (above (wr_checkpoint w) log) in
  let c := initialize_counters (MkCounters 1 1 1) (wr_checkpoint w) 0 (wr_checkpoint w) in
  let c := initialize_counters c (max_of w_sequence log) (max_of w_transaction_id log) (max_of w_operation_id log) in
  MkWriter log c ∅ (wr_checkpoint w) (foldr Z.max 0%Z (map snd us))
    (filter (fun s => s <= wr_checkpoint w)%Z (wr_done w) ∪ list_to_set (map snd us)).

Definition fresh_writer : writer := MkWriter [] (MkCounters 1 1 1) ∅ 0 0 ∅.

Inductive reaches : writer -> Prop :=
| reach_init : reaches fresh_writer
| reach_mutation w declared ops checks io applies :
    reaches w -> room (Z.of_nat (length ops) + 3) w -> reaches (fst (apply_atomic (N := N) w declared ops checks io applies))
| reach_checkpoint w : reaches w -> reaches (take_checkpoint w)
| reach_rotation w : reaches w -> reaches (rotate_log w)
| reach_restart n w : reaches w -> reaches (restart n w).

(** ** The invariant *)

(** A unit the engine may still lack is one recovery will replay. *)
Definition pinned (fs : fence_set) (bl : block) : Prop :=
  match bl with Alone _ => True | Frame b _ _ => w_sequence b ∈ fs end.

Record log_inv (w : writer) (bs : list block) : Prop := {
  li_log : wr_log w = log_of bs;
  li_ok : log_ok bs;
  li_seq : Forall (fun r => 0 < w_sequence r < next_sequence (wr_counters w))%Z (log_of bs);
  li_ids : Forall (fun r => w_transaction_id r < next_transaction_id (wr_counters w))%Z (log_of bs);
  li_next : (1 <= next_sequence (wr_counters w) < 2 ^ 64 /\ 1 <= next_transaction_id (wr_counters w) < 2 ^ 64)%Z;
  li_checkpoint : (0 <= wr_checkpoint w < next_sequence (wr_counters w))%Z /\ boundary (wr_checkpoint w) bs;
  li_applied : (0 <= wr_applied w < next_sequence (wr_counters w))%Z /\ boundary (wr_applied w) bs;
  li_fences : forall f, f ∈ wr_fences w ->
    (wr_checkpoint w < f < next_sequence (wr_counters w))%Z /\ boundary (f - 1) bs;
  li_done : forall bl u, bl ∈ bs -> u ∈ block_units bl -> u.2 ∈ wr_done w \/ pinned (wr_fences w) bl;
}.

Lemma boundary_all cp bs : Forall (fun r => w_sequence r <= cp)%Z (log_of bs) -> boundary cp bs.
Proof. intros Hb. exists bs, []. rewrite app_nil_r. split; [done|]. split; [done|constructor]. Qed.

Lemma boundary_none cp bs : Forall (fun r => cp < w_sequence r)%Z (log_of bs) -> boundary cp bs.
Proof. intros Hb. exists [], bs. split; [done|]. split; [constructor|done]. Qed.

Lemma boundary_snoc cp bs bl :
  boundary cp bs -> Forall (fun r => cp < w_sequence r)%Z (block_records bl) -> boundary cp (bs ++ [bl]).
Proof.
  intros (pre & post & -> & Hpre & Hpost) Hbl. exists pre, (post ++ [bl]). split; [by rewrite app_assoc|].
  split; [done|]. rewrite log_of_app. apply Forall_app_2; [done|]. cbn. by rewrite app_nil_r.
Qed.

(** The boundary just below the block's first record. *)
Lemma boundary_before cp bs bl :
  Forall (fun r => w_sequence r <= cp)%Z (log_of bs) -> Forall (fun r => cp < w_sequence r)%Z (block_records bl) ->
  boundary cp (bs ++ [bl]).
Proof. intros Hb. apply boundary_snoc. by apply boundary_all. Qed.

Lemma omap_block_id_in id bs : id ∈ omap block_id bs -> exists r, r ∈ log_of bs /\ w_transaction_id r = id.
Proof.
  intros ([r|b ms fin] & Hin & Hid)%list_elem_of_omap; [done|]. injection Hid as <-. exists b. split; [|done].
  unfold log_of. apply list_elem_of_In, in_flat_map. exists (Frame b ms fin). split; [by apply list_elem_of_In|by left].
Qed.

Lemma log_ok_snoc bs bl :
  log_ok bs -> block_ok bl -> increasing (block_records bl) ->
  (forall x y, x ∈ log_of bs -> y ∈ block_records bl -> w_sequence x < w_sequence y)%Z ->
  (forall id, block_id bl = Some id -> forall r, r ∈ log_of bs -> w_transaction_id r <> id) ->
  log_ok (bs ++ [bl]).
Proof.
  intros (Hok & Hnd & Hi) Hbl Hib Hlt Hid. split; [|split].
  - apply Forall_app_2; [done|by apply Forall_cons_2].
  - rewrite omap_app. apply NoDup_app. split; [done|]. cbn [omap list_omap].
    destruct (block_id bl) as [id|]; [|split; [by intros ? _ ?%not_elem_of_nil|constructor]]. split.
    + intros x (r & Hr & Hrid)%omap_block_id_in ->%list_elem_of_singleton. by apply (Hid id eq_refl r Hr).
    + apply NoDup_singleton.
  - rewrite log_of_app. cbn. rewrite app_nil_r. apply increasing_app. done.
Qed.

(** Nothing was logged, identifiers may have been burnt. *)
Lemma inv_idle w w' bs :
  log_inv w bs -> wr_log w' = wr_log w ->
  (next_sequence (wr_counters w) <= next_sequence (wr_counters w') < 2 ^ 64)%Z ->
  (next_transaction_id (wr_counters w) <= next_transaction_id (wr_counters w') < 2 ^ 64)%Z ->
  wr_checkpoint w' = wr_checkpoint w -> wr_applied w' = wr_applied w -> wr_fences w' = wr_fences w -> wr_done w' = wr_done w ->
  log_inv w' bs.
Proof.
  intros [L O Sq Id Nx Cp Ap Fe Do] El Hs Ht Ec Ea Ef Ed. split; rewrite ?El, ?Ec, ?Ea, ?Ef, ?Ed; try done; try (split; [lia|]).
  - eapply Forall_impl; [exact Sq|]. cbn. lia.
  - eapply Forall_impl; [exact Id|]. cbn. lia.
  - lia.
  - apply Cp.
  - apply Ap.
  - intros f Hf. destruct (Fe f Hf) as [? ?]. split; [lia|done].
Qed.

(** A block was logged. *)
Lemma inv_append w w' bs bl :
  log_inv w bs -> wr_log w' = wr_log w ++ block_records bl -> block_ok bl -> increasing (block_records bl) ->
  Forall (fun r => next_sequence (wr_counters w) <= w_sequence r < next_sequence (wr_counters w'))%Z (block_records bl) ->
  Forall (fun r => w_transaction_id r < next_transaction_id (wr_counters w'))%Z (block_records bl) ->
  (forall id, block_id bl = Some id -> (next_transaction_id (wr_counters w) <= id)%Z) ->
  (next_sequence (wr_counters w) <= next_sequence (wr_counters w') < 2 ^ 64)%Z ->
  (next_transaction_id (wr_counters w) <= next_transaction_id (wr_counters w') < 2 ^ 64)%Z ->
  wr_checkpoint w' = wr_checkpoint w ->
  (wr_applied w' = wr_applied w \/
   (0 <= wr_applied w' < next_sequence (wr_counters w'))%Z /\
   Forall (fun r => w_sequence r <= wr_applied w')%Z (log_of bs ++ block_records bl)) ->
  (forall f, f ∈ wr_fences w' -> f ∈ wr_fences w \/
    (next_sequence (wr_counters w) <= f < next_sequence (wr_counters w'))%Z /\ Forall (fun r => f <= w_sequence r)%Z (block_records bl)) ->
  wr_fences w ⊆ wr_fences w' -> wr_done w ⊆ wr_done w' ->
  (forall u, u ∈ block_units bl -> u.2 ∈ wr_done w' \/ pinned (wr_fences w') bl) ->
  log_inv w' (bs ++ [bl]).
Proof.
  intros [L O Sq Id Nx [Cp Cpb] [Ap Apb] Fe Do] El Hok Hi Hseq Htid Hfresh Hs Ht Ec Ea Ef Hfs Hds Hu.
  assert (log_of (bs ++ [bl]) = log_of bs ++ block_records bl) as Elog by (rewrite log_of_app; cbn; by rewrite app_nil_r).
  assert (forall p, p < next_sequence (wr_counters w) -> Forall (fun r => p < w_sequence r)%Z (block_records bl))%Z as Habove.
  { intros p Hp. eapply Forall_impl; [exact Hseq|]. cbn. lia. }
  split.
  - by rewrite El, L, Elog.
  - apply log_ok_snoc; try done.
    + intros x y Hx Hy. rewrite Forall_forall in Sq, Hseq. specialize (Sq x Hx). specialize (Hseq y Hy). cbn in *. lia.
    + intros id Hid r Hr. rewrite Forall_forall in Id. specialize (Id r Hr). specialize (Hfresh id Hid). cbn in Id. lia.
  - rewrite Elog. apply Forall_app_2; eapply Forall_impl; [exact Sq| |exact Hseq|]; cbn; lia.
  - rewrite Elog. apply Forall_app_2; [|done]. eapply Forall_impl; [exact Id|]. cbn. lia.
  - lia.
  - rewrite Ec. split; [lia|]. apply boundary_snoc; [done|]. apply Habove. lia.
  - destruct Ea as [->|[Ha Hall]].
    + split; [lia|]. apply boundary_snoc; [done|]. apply Habove. lia.
    + split; [done|]. apply boundary_all. by rewrite Elog.
  - intros f Hf. rewrite Ec. destruct (Ef f Hf) as [Hold|[Hf1 Hf2]].
    + destruct (Fe f Hold) as [? ?]. split; [lia|]. apply boundary_snoc; [done|]. apply Habove. lia.
    + split; [lia|]. apply boundary_before; [eapply Forall_impl; [exact Sq|]|eapply Forall_impl; [exact Hf2|]]; cbn; lia.
  - intros bl' u [Hin| ->%list_elem_of_singleton]%elem_of_app Hbu; [|by apply Hu].
    destruct (Do bl' u Hin Hbu) as [Hd|Hp]; [left; by apply Hds|]. right. destruct bl'; [done|]. by apply Hfs.
Qed.

(** What one mutation added to the log: nothing committed, or itself whole. *)
Definition mutation_outcome (ops : list Operation) (w w' : writer) (new : list block) (answer : bool) : Prop :=
  (block_list_units new = [] /\ (answer = true -> ops = [])) \/
  exists s, block_list_units new = [(map to_wal ops, s)] /\ (next_sequence (wr_counters w) <= s)%Z /\
    (answer = true -> s ∈ wr_done w').

Lemma note_applied_inv w bs s :
  log_inv w bs -> (0 <= s < next_sequence (wr_counters w))%Z -> Forall (fun r => w_sequence r <= s)%Z (log_of bs) ->
  log_inv (note_applied w s) bs.
Proof.
  intros [L O Sq Id Nx Cp [Ap Apb] Fe Do] Hs Hall. split; cbn; try done. split; [lia|].
  destruct (Z.max_spec (wr_applied w) s) as [[_ ->]|[_ ->]]; [by apply boundary_all|done].
Qed.

(** The unit's sequence is its block's last. *)
Lemma unit_last bl u : increasing (block_records bl) -> u ∈ block_units bl ->
  Forall (fun r => w_sequence r <= u.2)%Z (block_records bl) /\ exists r, r ∈ block_records bl /\ w_sequence r = u.2.
Proof.
  intros Hi. destruct bl as [r|b ms [f|]]; cbn [block_units block_records] in *; [| |by intros ?%not_elem_of_nil].
  - intros ->%list_elem_of_singleton. cbn. split; [constructor; [lia|constructor]|]. exists r. split; [left|done].
  - destruct (is_commit f); [|by intros ?%not_elem_of_nil]. intros ->%list_elem_of_singleton. cbn [snd].
    rewrite app_comm_cons in *. apply increasing_app in Hi as (_ & _ & Hlt). split.
    + apply Forall_app_2; [|constructor; [lia|constructor]]. apply Forall_forall. intros x Hx.
      specialize (Hlt x f Hx (list_elem_of_here _ _)). lia.
    + exists f. split; [apply elem_of_app; right; left|done].
Qed.

Lemma release_begin (fs : fence_set) f : f ∉ fs -> release_fence (begin_fence fs f) f = fs.
Proof.
  intros Hf. unfold release_fence, begin_fence. apply set_eq. intros x. rewrite elem_of_difference, elem_of_union, elem_of_singleton.
  split; [tauto|]. intros Hx. split; [by right|by intros ->].
Qed.

Lemma block_list_singleton bl : block_list_units [bl] = block_units bl.
Proof. unfold block_list_units. cbn. apply app_nil_r. Qed.

Lemma log_snoc bs bl : log_of (bs ++ [bl]) = log_of bs ++ block_records bl.
Proof. rewrite log_of_app. cbn. by rewrite app_nil_r. Qed.

Lemma inv_below w bs f : log_inv w bs -> (next_sequence (wr_counters w) <= f)%Z -> f ∉ wr_fences w.
Proof. intros Hinv Hf Hin. destruct (li_fences _ _ Hinv f Hin). lia. Qed.

(** A frame, however it ended. *)
Lemma frame_inv w bs ops w' bl answer :
  let id := next_transaction_id (wr_counters w) in let n := (Z.of_nat (length ops) + 3)%Z in
  log_inv w bs -> room n w -> extends n id (draw_transaction w) w' (block_records bl) -> block_ok bl ->
  block_id bl = Some id -> frame_end ops w w' bl answer -> log_inv w' (bs ++ [bl]).
Proof.
  intros id n Hinv Hroom [L I R Nq T C A] Hok Hbid Hend. destruct (draw_room n w Hroom) as [_ Hdt].
  rewrite Hdt in T. pose proof (li_next _ _ Hinv) as Hnx. destruct Hroom as [[HS1 HS2] HT]. cbn [draw_transaction wr_counters wr_log wr_checkpoint wr_applied] in *.
  cbn [next_sequence take_transaction_id snd] in *.
  assert (exists b, bl = Frame b (match bl with Frame _ ms _ => ms | _ => [] end) (match bl with Frame _ _ fin => fin | _ => None end)
            /\ b ∈ block_records bl /\ Forall (fun r => w_sequence b <= w_sequence r)%Z (block_records bl)) as (b & Ebl & Hb & Hfirst).
  { destruct bl as [|b ms fin]; [done|]. exists b. split; [done|]. split; [left|]. cbn [block_records] in *.
    inversion I as [|? ? _ Hall]; subst. constructor; [lia|]. eapply Forall_impl; [exact Hall|]. cbn. lia. }
  assert (next_sequence (wr_counters w) <= w_sequence b < next_sequence (wr_counters w'))%Z as Hbr.
  { rewrite Forall_forall in R. by destruct (R b Hb). }
  assert (w_sequence b ∉ wr_fences w) as Hbf by (eapply inv_below; [done|lia]).
  assert (wr_fences w ⊆ wr_fences w' /\ wr_done w ⊆ wr_done w' /\
    (forall f, f ∈ wr_fences w' -> f ∈ wr_fences w \/ f = w_sequence b) /\
    (forall u, u ∈ block_units bl -> u.2 ∈ wr_done w' \/ pinned (wr_fences w') bl)) as (Hfs & Hds & Hff & Hun).
  { destruct Hend as [b' ms fin Eb Eu Ef Ed _|b' ms fin s Eb Eu Ef Ed _|b' ms fin s Eb Eu Ef Ed _];
      rewrite Eb in Ebl; injection Ebl as ->; rewrite Eu, Ef, Ed.
    - rewrite release_begin by done. repeat split; auto. by intros u ?%not_elem_of_nil.
    - rewrite release_begin by done. split; [done|]. split; [apply union_subseteq_r|]. split; [by left|].
      intros u ->%list_elem_of_singleton. left. apply elem_of_union_l. by apply elem_of_singleton.
    - unfold begin_fence. split; [apply union_subseteq_r|]. split; [done|]. split.
      + intros f [->%elem_of_singleton|Hf]%elem_of_union; auto.
      + intros u _. right. rewrite Eb. cbn. apply elem_of_union_l. by apply elem_of_singleton. }
  apply (inv_append w); try done; try lia.
  - eapply Forall_impl; [exact R|]. by intros ? [? _].
  - eapply Forall_impl; [exact R|]. cbn. intros r [_ ->]. fold id in T. lia.
  - intros id' E. rewrite Hbid in E. injection E as <-. lia.
  - intros f Hf. destruct (Hff f Hf) as [?| ->]; [by left|right]. done.
Qed.

Lemma applied_last w bs bl s u :
  log_inv w (bs ++ [bl]) -> u ∈ block_units bl -> u.2 = s -> log_inv (note_applied w s) (bs ++ [bl]).
Proof.
  intros Hinv Hu <-. destruct (li_ok _ _ Hinv) as (_ & _ & Hi). rewrite log_snoc in Hi.
  apply increasing_app in Hi as (_ & Hib & Hlt). destruct (unit_last bl u Hib Hu) as [Hle (r & Hr & Er)].
  pose proof (li_seq _ _ Hinv) as Hsq. rewrite log_snoc in Hsq. rewrite Forall_forall in Hsq.
  specialize (Hsq r). rewrite Er in Hsq. apply note_applied_inv; [done| |].
  - destruct Hsq; [apply elem_of_app; by right|]. lia.
  - rewrite log_snoc. apply Forall_app_2; [|done]. apply Forall_forall. intros x Hx. specialize (Hlt x r Hx Hr). lia.
Qed.

Lemma transaction_inv w bs declared ops io applies w' answer :
  log_inv w bs -> room (Z.of_nat (length ops) + 3) w -> ops <> [] ->
  transaction_commit (N := N) w declared ops io applies = (w', answer) ->
  exists new, (block_list_units new = [] \/ validate_all (N := N) declared ops = Ok tt) /\ match answer with
              | Some s => log_inv (note_applied w' s) (bs ++ new) /\ mutation_outcome ops w (note_applied w' s) new true
              | None => log_inv w' (bs ++ new) /\ mutation_outcome ops w w' new false
              end.
Proof.
  intros Hinv Hroom Hne E. apply transaction_effect in E; [|done|done]. destruct (draw_room _ w Hroom) as [_ Hdt].
  destruct E as [[-> ->]|[Hv [(Hx & Hf & Hd & ->)|(bl & Hx & Hok & Hbid & Hend)]]].
  - exists []. rewrite app_nil_r. split; [by left|]. split; [done|]. by left.
  - exists []. rewrite app_nil_r. split; [by left|]. split; [|by left]. destruct Hx as [L I R Nq T C A]. rewrite Hdt in T. cbn in *.
    pose proof (li_next _ _ Hinv) as Hnx. destruct Hroom as [[HS1 HS2] HT].
    apply (inv_idle w); try done; [by rewrite app_nil_r in L|lia|lia].
  - pose proof (frame_inv w bs ops w' bl answer Hinv Hroom Hx Hok Hbid Hend) as Hinv'. exists [bl]. split; [by right|].
    assert (forall s, block_units bl = [(map to_wal ops, s)] -> next_sequence (wr_counters w) <= s)%Z as Hge.
    { intros s Eu. destruct Hx as [_ I R _ _ _ _]. destruct (unit_last bl (map to_wal ops, s) I) as [_ (r & Hr & Er)]; [rewrite Eu; left|].
      rewrite Forall_forall in R. destruct (R r Hr). cbn in *. lia. }
    unfold mutation_outcome. rewrite block_list_singleton.
    destruct Hend as [b ms fin Eb Eu Ef Ed ->|b ms fin s Eb Eu Ef Ed ->|b ms fin s Eb Eu Ef Ed ->].
    + split; [done|]. by left.
    + split; [eapply applied_last; [done|rewrite Eu; left|done]|]. right. exists s. split; [done|]. split; [by apply Hge|].
      intros _. cbn. rewrite Ed. apply elem_of_union_l. by apply elem_of_singleton.
    + split; [done|]. right. exists s. split; [done|]. split; [by apply Hge|done].
Qed.

Lemma standalone_inv w bs op w' o ok :
  log_inv w bs -> room 4 w -> log_record w STANDALONE_TRANSACTION_ID (to_wal op) ok = (w', o) ->
  match o with
  | None => log_inv w' bs
  | Some s => exists r, block_units (Alone r) = [([to_wal op], s)] /\ (next_sequence (wr_counters w) <= s)%Z /\ log_inv w' (bs ++ [Alone r])
  end.
Proof.
  intros Hinv [HS HT] E. apply log_record_extends in E; [|unfold seq_room in *; lia]. pose proof (li_next _ _ Hinv) as Hnx.
  destruct E as (Hf & Hd & [[-> Hx]|(r & -> & Hr & Hx)]); destruct Hx as [L I R Nq T C A]; unfold seq_room in HS.
  - rewrite app_nil_r in L. apply (inv_idle w); try done; lia.
  - apply Forall_inv in R as [R1 R2]. exists r. cbn [block_units]. rewrite Hr. split; [done|]. split; [lia|].
    apply (inv_append w); rewrite ?Hf, ?Hd; try done; try lia.
    + split; [done|]. rewrite Hr. apply to_wal_mutation.
    + repeat constructor; lia.
    + constructor; [|constructor]. rewrite R2. unfold STANDALONE_TRANSACTION_ID. lia.
    + intros f Hin. by left.
    + intros u _. by right.
Qed.

Lemma mutation_inv w bs declared ops checks io applies w' answer :
  log_inv w bs -> room (Z.of_nat (length ops) + 3) w -> apply_atomic (N := N) w declared ops checks io applies = (w', answer) ->
  exists new, (block_list_units new = [] \/ checks = true /\ validate_all (N := N) declared ops = Ok tt) /\ log_inv w' (bs ++ new) /\ mutation_outcome ops w w' new answer.
Proof.
  intros Hinv Hroom E. unfold apply_atomic in E.
  assert (forall w1 b, log_inv w1 bs -> (b = true -> ops = []) ->
    exists new, (block_list_units new = [] \/ checks = true /\ validate_all (N := N) declared ops = Ok tt) /\
      log_inv w1 (bs ++ new) /\ mutation_outcome ops w w1 new b) as Hnone.
  { intros w1 b Hi Hb. exists []. rewrite app_nil_r. split; [by left|]. split; [done|]. by left. }
  destruct ops as [|op [|op2 ops]].
  - injection E as <- <-. by apply Hnone.
  - destruct (operation_validate declared op) as [[]|] eqn:Ev; [|injection E as <- <-; by apply Hnone].
    destruct checks; cbn [negb] in E; [|injection E as <- <-; by apply Hnone].
    destruct (log_record w _ (to_wal op) (io 0)) as [w1 o] eqn:El. apply (standalone_inv w bs) in El; [|done|done].
    destruct o as [s|]; [|injection E as <- <-; by apply Hnone].
    destruct El as (r & Hu & Hs & Hinv1). exists [Alone r].
    split; [right; cbn [validate_all]; by rewrite Ev|]. unfold mutation_outcome. rewrite block_list_singleton.
    destruct applies; injection E as <- <-.
    + split; [|right; exists s; split; [done|]; split; [done|]; intros _; apply elem_of_union_l; by apply elem_of_singleton].
      eapply applied_last; [|rewrite Hu; left|done]. clear -Hinv1. destruct Hinv1 as [L O Sq Id Nx Cp Ap Fe Do]. split; try done.
      intros bl u Hbl Hu. destruct (Do bl u Hbl Hu) as [Hd|Hp]; [left; by apply elem_of_union_r|by right].
    + split; [done|]. right. exists s. split; [done|]. split; [done|]. discriminate.
  - destruct checks; cbn [negb] in E; [|injection E as <- <-; by apply Hnone].
    destruct (transaction_commit w declared (op :: op2 :: ops) io applies) as [w1 o] eqn:Et.
    apply (transaction_inv w bs) in Et; [|done|done|done]. destruct Et as (new & Hv & Hn). exists new.
    split; [destruct Hv; [by left|by right]|]. destruct o as [s|]; injection E as <- <-; done.
Qed.

Lemma advance_le fences current sequence : (advance fences current sequence <= Z.max current sequence)%Z.
Proof. unfold advance. destruct (Z.leb_spec (Z.min sequence (ceiling fences)) current); lia. Qed.

Lemma checkpoint_inv w bs : log_inv w bs -> log_inv (take_checkpoint w) bs.
Proof.
  intros [L O Sq Id Nx [Cp Cpb] [Ap Apb] Fe Do]. split; cbn; try done.
  - pose proof (advance_ge (wr_fences w) (wr_checkpoint w) (wr_applied w)).
    pose proof (advance_le (wr_fences w) (wr_checkpoint w) (wr_applied w)). split; [lia|].
    destruct (advance_cases (wr_fences w) (wr_checkpoint w) (wr_applied w)) as [->|[->|[(f & Hf & ->)|E]]]; [done|done| |lia].
    destruct (Fe f Hf) as [? Hb]. by rewrite Z.max_l by lia.
  - intros f Hf. destruct (Fe f Hf) as [? Hb]. split; [|done].
    pose proof (advance_below_fence (wr_fences w) (wr_checkpoint w) (wr_applied w) f Hf). lia.
Qed.

Lemma boundary_suffix cp a b : boundary cp (a ++ b) -> boundary cp b.
Proof.
  intros (pre & post & E & Hpre & Hpost). apply app_eq_app in E as [l [[-> ->]|[-> ->]]].
  - apply boundary_none. rewrite log_of_app in Hpost. by apply Forall_app in Hpost as [_ ?].
  - exists l, post. split; [done|]. split; [|done]. rewrite log_of_app in Hpre. by apply Forall_app in Hpre as [_ ?].
Qed.

Lemma rotation_inv w bs : log_inv w bs -> exists bs', log_inv (rotate_log w) bs'.
Proof.
  intros [L O Sq Id Nx [Cp Cpb] [Ap Apb] Fe Do]. destruct (above_boundary _ _ Cpb) as (pre & post & -> & Ea & _ & _).
  exists post. rewrite log_of_app in Sq, Id. apply Forall_app in Sq as [_ Sq]. apply Forall_app in Id as [_ Id].
  split; cbn; try done.
  - by rewrite L.
  - by apply log_ok_app in O as [_ ?].
  - split; [done|]. by eapply boundary_suffix.
  - split; [done|]. by eapply boundary_suffix.
  - intros f Hf. destruct (Fe f Hf) as [? Hb]. split; [done|]. by eapply boundary_suffix.
  - intros bl u Hbl. apply Do. apply elem_of_app. by right.
Qed.

(** Every unit ends at a boundary. *)
Lemma unit_boundary bs u : log_ok bs -> u ∈ block_list_units bs -> boundary u.2 bs.
Proof.
  intros (_ & _ & Hi) Hu. unfold block_list_units in Hu. apply list_elem_of_In, in_flat_map in Hu as (bl & Hbl & Hu).
  apply list_elem_of_In in Hbl. apply list_elem_of_split in Hbl as (pre & post & ->). apply list_elem_of_In in Hu.
  rewrite log_of_app in Hi. apply increasing_app in Hi as (_ & Hi & Hlt1). cbn [log_of flat_map] in *. fold (log_of post) in *.
  apply increasing_app in Hi as (Hib & _ & Hlt2). destruct (unit_last bl u Hib Hu) as [Hle (r & Hr & Er)]. rewrite <- Er in *.
  exists (pre ++ [bl]), post. split; [by rewrite <- app_assoc|]. split.
  - rewrite log_snoc. apply Forall_app_2; [|done]. apply Forall_forall. intros x Hx.
    specialize (Hlt1 x r Hx ltac:(apply elem_of_app; by left)). lia.
  - apply Forall_forall. intros y Hy. by apply Hlt2.
Qed.

Lemma foldr_max_cases l : foldr Z.max 0%Z l = 0%Z \/ foldr Z.max 0%Z l ∈ l.
Proof.
  induction l as [|x l IH]; cbn [foldr]; [by left|]. destruct (Z.max_spec x (foldr Z.max 0%Z l)) as [[_ ->]|[_ ->]].
  - destruct IH; [by left|right; by right].
  - right. left.
Qed.

Lemma take_blocks_in n bs bl u : bl ∈ take_blocks n bs -> u ∈ block_units bl -> exists bl', bl' ∈ bs /\ u ∈ block_units bl' /\
  (forall fs, pinned fs bl' -> pinned fs bl) /\ (forall r, r ∈ block_records bl -> r ∈ block_records bl').
Proof.
  revert n. induction bs as [|x bs IH]; intros n; cbn [take_blocks]; [by intros ?%not_elem_of_nil|].
  destruct (_ <=? _).
  - intros [->|Hin]%elem_of_cons Hu; [exists x; split; [left|done]|]. destruct (IH _ Hin Hu) as (bl' & ? & ?). exists bl'. split; [by right|done].
  - destruct n as [|k]; [by intros ?%not_elem_of_nil|]. destruct x as [r|b ms fin]; cbn [block_prefix];
      intros ->%list_elem_of_singleton Hu; [exists (Alone r); split; [left|done]|]. cbn [block_units] in Hu.
    destruct (Nat.leb_spec k (length ms)); [by apply not_elem_of_nil in Hu|]. rewrite take_ge in * by lia.
    exists (Frame b ms fin). split; [left|done].
Qed.

Lemma advance_counter_bounds counter m :
  (1 <= counter < 2 ^ 64)%Z -> (1 <= advance_counter counter m < 2 ^ 64)%Z /\ (counter <= advance_counter counter m)%Z /\
  ((m < 2 ^ 64 - 1)%Z -> (m < advance_counter counter m)%Z).
Proof. intros Hc. unfold advance_counter. case_goal; breflect; lia. Qed.

Lemma restart_inv n w bs : log_inv w bs -> log_inv (restart n w) (take_blocks n bs).
Proof.
  intros [L O Sq Id Nx [Cp Cpb] [Ap Apb] Fe Do]. pose proof (take_blocks_ok n bs O) as O'.
  assert (log_of (take_blocks n bs) = take n (wr_log w)) as Elog by (by rewrite take_blocks_log, L).
  rewrite <- L in Sq, Id. apply (Forall_take _ n) in Sq, Id.
  destruct (advance_counter_bounds 1 (wr_checkpoint w)) as (B1 & _ & B1'); [lia|].
  destruct (advance_counter_bounds 1 0) as (B2 & _ & _); [lia|].
  destruct (recovery_above (wr_checkpoint w) (take_blocks n bs) O' (boundary_take _ _ _ Cpb)) as [_ Hus]. rewrite Elog in Hus.
  destruct O' as (Hbo & Hnd & Hi'). rewrite <- Elog, log_units, Elog in Hus by done.
  set (us := committed_units (above (wr_checkpoint w) (take n (wr_log w)))) in *.
  assert (forall u, u ∈ us -> u ∈ block_list_units (take_blocks n bs) /\ (wr_checkpoint w < u.2)%Z) as Hin.
  { intros u. rewrite Hus. intros [? ?]%list_elem_of_filter. done. }
  unfold restart. fold us.
  set (c1 := initialize_counters (MkCounters 1 1 1) (wr_checkpoint w) 0 (wr_checkpoint w)).
  destruct (advance_counter_bounds (next_sequence c1) (max_of w_sequence (take n (wr_log w)))) as (N1 & N2 & _); [done|].
  destruct (advance_counter_bounds (next_transaction_id c1) (max_of w_transaction_id (take n (wr_log w)))) as (T1 & _ & _); [done|].
  assert (Forall (fun r => w_sequence r < advance_counter (next_sequence c1) (max_of w_sequence (take n (wr_log w))))%Z (take n (wr_log w))) as Hnew.
  { apply Forall_forall. intros r Hr. apply advance_above; [done|]. intros r' Hr'. rewrite Forall_forall in Sq.
    specialize (Sq r' Hr'). cbn in Sq. lia. }
  assert (0 <= foldr Z.max 0 (map snd us))%Z as Hpos by (clear; induction us; cbn [map foldr]; lia).
  split; cbn [wr_log wr_counters wr_checkpoint wr_applied wr_fences wr_done]; rewrite ?Elog; try done.
  - cbn [initialize_counters next_sequence]. apply Forall_forall. intros r Hr. rewrite Forall_forall in Sq, Hnew.
    specialize (Sq r Hr). specialize (Hnew r Hr). cbn in *. lia.
  - cbn [initialize_counters next_transaction_id]. apply Forall_forall. intros r Hr. apply advance_above; [done|].
    intros r' Hr'. rewrite Forall_forall in Id. specialize (Id r' Hr'). cbn in Id. lia.
  - cbn [initialize_counters next_sequence]. split; [|by apply boundary_take]. change (next_sequence c1) with (advance_counter 1 (wr_checkpoint w)) in N2.
    change (next_sequence c1) with (advance_counter 1 (wr_checkpoint w)). lia.
  - cbn [initialize_counters next_sequence]. destruct (foldr_max_cases (map snd us)) as [E|E].
    + rewrite E. split; [lia|]. apply boundary_none. rewrite Elog. eapply Forall_impl; [exact Sq|]. cbn. lia.
    + apply list_elem_of_In, in_map_iff in E as (u & Eu & Hu). apply list_elem_of_In in Hu. destruct (Hin u Hu) as [Hub _].
      rewrite <- Eu. split; [|by apply unit_boundary]. split; [lia|].
      assert (Forall (fun u : commit_unit => u.2 < advance_counter (next_sequence c1) (max_of w_sequence (take n (wr_log w))))%Z
                (block_list_units (take_blocks n bs))) as Hall
        by (apply (block_units_sequence (fun s => s < _)%Z); by rewrite Elog).
      rewrite Forall_forall in Hall. by apply Hall.
  - intros bl u Hbl Hu. assert (u ∈ block_list_units (take_blocks n bs)) as Hub.
    { apply list_elem_of_In, in_flat_map. exists bl. split; by apply list_elem_of_In. }
    destruct (decide (u.2 <= wr_checkpoint w)%Z) as [Hle|Hgt].
    + destruct (take_blocks_in _ _ _ _ Hbl Hu) as (bl' & Hbl' & Hu' & Hpin & _).
      destruct (Do bl' u Hbl' Hu') as [Hd|Hp]; [left; apply elem_of_union_l, elem_of_filter; done|].
      destruct bl' as [r|b ms fin]; [right; by apply Hpin|]. exfalso. destruct (Fe _ Hp) as [Hlt _].
      destruct O as (_ & _ & Hi). apply list_elem_of_split in Hbl' as (pre & post & ->).
      rewrite log_of_app in Hi. cbn [log_of flat_map] in Hi. apply increasing_app in Hi as (_ & Hi & _). apply increasing_app in Hi as (Hi & _ & _).
      destruct (unit_last _ u Hi Hu') as [Hall _]. apply Forall_inv in Hall. lia.
    + left. apply elem_of_union_r, elem_of_list_to_set. apply list_elem_of_In, in_map, list_elem_of_In.
      rewrite Hus. apply list_elem_of_filter. split; [lia|done].
Qed.

Lemma fresh_inv : log_inv fresh_writer [].
Proof.
  assert (forall p, boundary p []) as Hb by (intros p; apply boundary_none; constructor).
  split; [done|split; [constructor|split; constructor]|constructor|constructor|cbn; lia|split; [cbn; lia|done]|split; [cbn; lia|done]|done|].
  by intros bl u ?%not_elem_of_nil.
Qed.

Lemma reaches_inv w : reaches w -> exists bs, log_inv w bs.
Proof.
  induction 1 as [|w declared ops checks io applies _ [bs IH] Hroom|w _ [bs IH]|w _ [bs IH]|n w _ [bs IH]].
  - exists []. apply fresh_inv.
  - destruct (apply_atomic w declared ops checks io applies) as [w' answer] eqn:E.
    destruct (mutation_inv _ _ _ _ _ _ _ _ _ IH Hroom E) as (new & _ & Hinv & _). eauto.
  - exists bs. by apply checkpoint_inv.
  - by eapply rotation_inv.
  - eexists. by apply restart_inv.
Qed.

Lemma take_blocks_units n bs : block_list_units (take_blocks n bs) `prefix_of` block_list_units bs.
Proof.
  revert n. induction bs as [|bl bs IH]; intros n; cbn [take_blocks block_list_units flat_map]; [done|]. destruct (_ <=? _).
  - cbn [block_list_units flat_map]. by apply prefix_app.
  - destruct n as [|k]; [apply prefix_nil|]. destruct bl as [r|b ms fin]; cbn [block_prefix block_list_units flat_map block_units app].
    + apply prefix_cons, prefix_nil.
    + rewrite app_nil_r. destruct (Nat.leb_spec k (length ms)); [apply prefix_nil|]. rewrite take_ge by lia. by apply prefix_app_r.
Qed.

Lemma log_inv_units w bs : log_inv w bs -> committed_units (wr_log w) = block_list_units bs.
Proof. intros [L (Hok & Hnd & _) _ _ _ _ _ _ _]. rewrite L. by apply log_units. Qed.

Lemma refused_unchanged w declared ops checks io applies w' answer :
  apply_atomic (N := N) w declared ops checks io applies = (w', answer) ->
  checks = false \/ validate_all (N := N) declared ops <> Ok tt -> w' = w.
Proof.
  unfold apply_atomic, transaction_commit. destruct ops as [|op [|op2 ops]]; [congruence| |].
  - cbn [validate_all]. destruct (operation_validate declared op) as [[]|]; [|congruence].
    intros E [->|Hn]; [cbn [negb] in E; congruence|by destruct Hn].
  - destruct checks; cbn [negb]; [|congruence]. destruct (validate_all declared (op :: op2 :: ops)) as [[]|]; [|congruence].
    by intros _ [|Hn].
Qed.

(** ** The theorems *)

(** C23: A mutation is all or nothing, whatever fails on the way: afterwards the log commits what it
    committed before, and either nothing more or exactly this mutation with all its operations, in
    order, behind everything else, and then only when every operation is admissible; a mutation that
    reports success is committed and applied; one that is refused admission changes nothing. *)
Theorem mutation_all_or_nothing (w w' : writer) declared (ops : list Operation) checks io applies answer :
  reaches w -> room (Z.of_nat (length ops) + 3) w -> apply_atomic (N := N) w declared ops checks io applies = (w', answer) ->
  (checks = false \/ validate_all (N := N) declared ops <> Ok tt -> w' = w) /\
  exists new, committed_units (wr_log w') = committed_units (wr_log w) ++ new /\
    (new = [] /\ (answer = true -> ops = []) \/
     exists s, new = [(map to_wal ops, s)] /\ Forall (fun u => u.2 < s)%Z (committed_units (wr_log w)) /\
       checks = true /\ validate_all (N := N) declared ops = Ok tt /\ (answer = true -> s ∈ wr_done w')).
Proof.
  intros [bs Hinv]%reaches_inv Hroom E. split; [by eapply refused_unchanged|].
  destruct (mutation_inv _ _ _ _ _ _ _ _ _ Hinv Hroom E) as (new & Hv & Hinv' & Hout).
  rewrite (log_inv_units _ _ Hinv), (log_inv_units _ _ Hinv'). exists (block_list_units new).
  split; [apply flat_map_app|]. destruct Hout as [?|(s & Hs & Hge & Hd)]; [by left|right]. exists s. split; [done|].
  destruct Hv as [Hv|[? ?]]; [by rewrite Hv in Hs|]. split; [|done].
  apply (block_units_sequence (fun x => x < s)%Z). eapply Forall_impl; [apply (li_seq _ _ Hinv)|]. cbn. lia.
Qed.

(** Startup on a surviving prefix of the log runs its committed units above the checkpoint. *)
Lemma recovery_runs_units {S : Type} `{ReplayEngine S} `{Aead} `{!Bincode WalRecord} engine_checkpoint
    (w : writer) (n : nat) (db : database (S := S)) st tail :
  reaches w -> db_wal db = Some st -> wal_read_all (Some (wal_bytes st)) = Ok (take n (wr_log w), tail) ->
  validate_records (take n (wr_log w)) = Ok tt -> db_checkpoint db = wr_checkpoint w ->
  (db' ← recover engine_checkpoint db; Ok (db_engine db', db_checkpoint db', db_wal db')) =
  (engine ← run_units (db_engine db) (filter (fun u => wr_checkpoint w < u.2)%Z (committed_units (take n (wr_log w))));
   settled ← engine_checkpoint engine (wr_checkpoint w) (repaired st tail);
   Ok (settled.1.1, settled.1.2, Some settled.2)) /\
  committed_units (take n (wr_log w)) `prefix_of` committed_units (wr_log w).
Proof.
  intros [bs Hinv]%reaches_inv Hw Hread Hv Hcp. pose proof (li_log _ _ Hinv) as L. pose proof (li_ok _ _ Hinv) as O.
  pose proof (take_blocks_ok n bs O) as O'.
  assert (log_of (take_blocks n bs) = take n (wr_log w)) as Elog by (by rewrite take_blocks_log, L).
  destruct (recovery_above (wr_checkpoint w) (take_blocks n bs) O') as [[c Hc] Hu]; [apply boundary_take, (li_checkpoint _ _ Hinv)|].
  rewrite Elog in Hc, Hu. split.
  - rewrite <- Hu. unfold recover. rewrite Hw, Hread, Hv, Hcp. cbn [mbind result_bind].
    assert (increasing (take n (wr_log w))) as Hi by (rewrite <- Elog; apply O').
    rewrite (proj2 (validate_sequence_increasing _) Hi). cbn [mbind result_bind]. rewrite Hc. cbn [mbind result_bind].
    rewrite (replay_units [] (above (wr_checkpoint w) (take n (wr_log w)))); [|by apply increasing_filter|done|done].
    unfold committed_units. destruct (run_units _ _) as [engine|]; [|done]. cbn [mbind result_bind].
    by destruct (engine_checkpoint engine _ _).
  - rewrite (log_inv_units _ _ Hinv), <- Elog, log_units by apply O'. apply take_blocks_units.
Qed.

(** C5: Crash safety end to end.  Take any history of mutations, failures, checkpoints, rotations and
    earlier crashes, and any prefix of the resulting log that the file still reads as.  Startup
    accepts it and leaves the engine where running the committed units above the checkpoint leaves
    it; those units are whole mutations, a prefix of what the history committed. *)
Theorem crash_recovery_whole_mutations {S : Type} `{ReplayEngine S} `{Aead} `{!Bincode WalRecord} engine_checkpoint
    (w : writer) (n : nat) (db : database (S := S)) st tail :
  reaches w -> db_wal db = Some st -> wal_read_all (Some (wal_bytes st)) = Ok (take n (wr_log w), tail) ->
  validate_records (take n (wr_log w)) = Ok tt -> db_checkpoint db = wr_checkpoint w ->
  (db' ← recover engine_checkpoint db; Ok (db_engine db', db_checkpoint db', db_wal db')) =
  (engine ← run_units (db_engine db) (filter (fun u => wr_checkpoint w < u.2)%Z (committed_units (take n (wr_log w))));
   settled ← engine_checkpoint engine (wr_checkpoint w) (repaired st tail);
   Ok (settled.1.1, settled.1.2, Some settled.2)) /\
  committed_units (take n (wr_log w)) `prefix_of` committed_units (wr_log w).
Proof. apply recovery_runs_units. Qed.

(** C24: The checkpoint never passes a committed transaction the engine does not have: at every moment
    of every history, a committed unit at or below the checkpoint is applied, unless it is a mutation
    that was logged on its own. *)
Theorem checkpoint_skips_only_applied (w : writer) (u : commit_unit) :
  reaches w -> u ∈ committed_units (wr_log w) -> (u.2 <= wr_checkpoint w)%Z ->
  u.2 ∈ wr_done w \/ exists r, r ∈ wr_log w /\ w_transaction_id r = 0%Z /\ u = ([w_operation r], w_sequence r).
Proof.
  intros [bs Hinv]%reaches_inv Hu Hle. rewrite (log_inv_units _ _ Hinv) in Hu.
  apply list_elem_of_In, in_flat_map in Hu as (bl & Hbl & Hu). apply list_elem_of_In in Hbl, Hu.
  destruct (li_done _ _ Hinv bl u Hbl Hu) as [Hd|Hp]; [by left|].
  assert (forall r, r ∈ block_records bl -> r ∈ log_of bs) as Hin.
  { intros r Hr. apply list_elem_of_In, in_flat_map. exists bl. split; by apply list_elem_of_In. }
  destruct (li_ok _ _ Hinv) as (Hok & _ & Hi). rewrite Forall_forall in Hok. specialize (Hok bl Hbl).
  destruct bl as [r|b ms fin].
  - right. exists r. cbn [block_units] in Hu. apply list_elem_of_singleton in Hu. rewrite (li_log _ _ Hinv).
    split; [apply Hin; left|]. split; [apply Hok|done].
  - exfalso. destruct (li_fences _ _ Hinv _ Hp) as [Hlt _]. apply list_elem_of_split in Hbl as (pre & post & ->).
    rewrite log_of_app in Hi. cbn [log_of flat_map] in Hi. apply increasing_app in Hi as (_ & Hi & _). apply increasing_app in Hi as (Hi & _ & _).
    destruct (unit_last _ u Hi Hu) as [Hall _]. apply Forall_inv in Hall. lia.
Qed.

End outcomes.

(** ** A history *)

Section history.
Local Existing Instance double_json.
Local Existing Instance trace_engine.
Local Existing Instance null_aead.
Local Existing Instance sample_bincode.

Definition nothing_declared : Declared := MkDeclared [] [].
Definition run_atomic (w : writer) (ops : list Operation) (applies : bool) : writer :=
  fst (apply_atomic (N := double) w nothing_declared ops true (fun _ => true) applies).

Definition two_deletes : list Operation := [ODelete "a"; ODelete "b"].

(** A transaction, then one whose application fails, then a checkpoint. *)
Definition history_w : writer :=
  take_checkpoint (run_atomic (run_atomic fresh_writer two_deletes true) two_deletes false).

(** The identifiers of a concrete state. *)
Ltac solve_room := repeat split; vm_compute; first [reflexivity | discriminate].

Lemma history_reaches : reaches (N := double) history_w.
Proof.
  unfold history_w. apply reach_checkpoint, reach_mutation; [apply reach_mutation; [apply reach_init|]|];
    solve_room.
Qed.

(** The second transaction is on the log, and the checkpoint stops below its BEGIN. *)
Lemma history_checkpoint : wr_checkpoint history_w = 4%Z /\ map snd (committed_units (wr_log history_w)) = [4; 8]%Z.
Proof. split; vm_compute; reflexivity. Qed.

Definition first_w : writer := Eval vm_compute in run_atomic fresh_writer two_deletes true.

Lemma first_w_eq : apply_atomic (N := double) fresh_writer nothing_declared two_deletes true (fun _ => true) true = (first_w, true).
Proof. vm_compute. reflexivity. Qed.

Lemma mutation_all_or_nothing_witness :
  (true = false \/ validate_all (N := double) nothing_declared two_deletes <> Ok tt -> first_w = fresh_writer) /\
  exists new, committed_units (wr_log first_w) = committed_units (wr_log fresh_writer) ++ new /\
    (new = [] /\ (true = true -> two_deletes = []) \/
     exists s, new = [(map to_wal two_deletes, s)] /\ Forall (fun u => u.2 < s)%Z (committed_units (wr_log fresh_writer)) /\
       true = true /\ validate_all (N := double) nothing_declared two_deletes = Ok tt /\ (true = true -> s ∈ wr_done first_w)).
Proof.
  apply (mutation_all_or_nothing fresh_writer first_w nothing_declared two_deletes true (fun _ => true) true true); [apply reach_init|solve_room|].
  exact first_w_eq.
Defined.

Lemma checkpoint_skips_only_applied_witness :
  4%Z ∈ wr_done history_w \/
  exists r, r ∈ wr_log history_w /\ w_transaction_id r = 0%Z /\ (map to_wal two_deletes, 4%Z) = ([w_operation r], w_sequence r).
Proof.
  apply (checkpoint_skips_only_applied history_w (map to_wal two_deletes, 4%Z)); [exact history_reaches| |vm_compute; discriminate].
  vm_compute. left.
Defined.

Definition one_delete_w : writer := run_atomic fresh_writer [ODelete "a"] true.

Lemma crash_recovery_whole_mutations_witness :
  (db' ← recover keep_checkpoint sample_db; Ok (db_engine db', db_checkpoint db', db_wal db')) =
    Ok ([WDelete "a"], 0%Z, Some (MkWalFile (sample_line ++ [NEWLINE]) None)) /\
  committed_units (take 1 (wr_log one_delete_w)) `prefix_of` committed_units (wr_log one_delete_w).
Proof.
  destruct (crash_recovery_whole_mutations keep_checkpoint one_delete_w 1 sample_db
              (MkWalFile (sample_line ++ [NEWLINE]) None) TailClean) as [Hrec Hpre].
  - apply reach_mutation; [apply reach_init|]. solve_room.
  - reflexivity.
  - exact sample_db_read.
  - reflexivity.
  - reflexivity.
  - split; [|exact Hpre]. rewrite Hrec. vm_compute. reflexivity.
Defined.

(** ** A standalone mutation that fails to apply is not fenced *)

Definition failed_then_ok : writer :=
  take_checkpoint (run_atomic (run_atomic fresh_writer [ODelete "a"] false) [ODelete "b"] true).

(** A mutation logged on its own takes no fence: when applying the first fails and a second
    succeeds, the checkpoint passes both, so the first is on the log, not applied, and skipped by
    every later recovery. *)
Theorem standalone_failure_not_fenced :
  reaches (N := double) failed_then_ok /\
  committed_units (wr_log failed_then_ok) = [([WDelete "a"], 1%Z); ([WDelete "b"], 2%Z)] /\
  (1%Z ∉ wr_done failed_then_ok) /\ wr_checkpoint failed_then_ok = 2%Z /\
  committed_units (above (wr_checkpoint failed_then_ok) (wr_log failed_then_ok)) = [].
Proof.
  split; [|split; [vm_compute; reflexivity|split; [|split; vm_compute; reflexivity]]].
  2: { apply (bool_decide_eq_false_1 (1%Z ∈ wr_done failed_then_ok)). vm_compute. reflexivity. }
  unfold failed_then_ok. apply reach_checkpoint, reach_mutation; [apply reach_mutation; [apply reach_init|]|];
    solve_room.
Qed.
End history.
