(* ===== verification/Engine.v ===== *)
(** * The storage engine: applying a committed operation
      ([src/src/storage/engine.rs], [src/src/storage/index.rs])

    The engine keeps records in a heap and finds them through ordered indexes:
    six built-in trees and the declared ones.  Each operation writes its record
    and maintains every access path it affects.  A tree is the finite map
    BTreeTheorems.v shows it to be; the heap is the class [RecordStore], what
    the engine relies on of [heap.rs]; device errors are not modelled, other
    errors leave behind whatever the operation had already done.

    The theorem: on a consistent database an admissible operation never fails,
    does to the stored collections what it says, and leaves every index in step
    with them. *)

From Stdlib Require Import ZArith Lia Ascii String.
From stdpp Require Import base tactics list strings option gmap sorting.
From S2P Require Import Prelude Binary BTree Keys Json OrderKey Search Entities Wal Transaction.

(** ** Records and their store *)

Inductive HeapRecord :=
| HNode (n : Node)
| HEdge (e : Edge)
| HHistory (h : HistoryEntry).

(** The heap, as the engine uses it. *)
Class RecordStore (St : Type) := {
  store_append : St -> HeapRecord -> result error_kind (record_location * St);
  store_read : St -> record_location -> result error_kind HeapRecord;
  store_mark_obsolete : St -> record_location -> St;
}.

(** What survives from one state of the store to another: every record that could be read. *)
Definition keeps {St : Type} `{RecordStore St} (s s' : St) : Prop :=
  forall l r, location_ok l -> store_read s l = Ok r -> store_read s' l = Ok r.

(** Records are appended, never updated in place, and marking one obsolete is bookkeeping;
    [store_room st k] says that the store is well formed and takes [k] more records, [store_fits r] that
    the record is within the size the store accepts. *)
Class RecordStoreLaws (St : Type) `{RecordStore St} := {
  store_room : St -> nat -> Prop;
  store_fits : HeapRecord -> Prop;
  store_append_ok st r k : store_room st (S k) -> store_fits r ->
    exists l st', store_append st r = Ok (l, st') /\ location_ok l /\ store_read st' l = Ok r /\ keeps st st' /\ store_room st' k;
  store_mark_ok st l k : store_room st k -> keeps st (store_mark_obsolete st l) /\ store_room (store_mark_obsolete st l) k;
  store_room_less st k : store_room st (S k) -> store_room st k;
}.

(** ** Trees *)

Abbreviation tree := (gmap (list Z) (list Z)).

Definition tree_put (t : tree) (key value : list Z) : result error_kind tree :=
  if (length key =? 0) || (MAX_KEY_LEN <? length key) then Err InvalidInput
  else if MAX_VALUE_LEN <? length value then Err InvalidInput
  else Ok (<[key := value]> t).

(** The entries with a prefix, in key order. *)
Definition key_le (a b : list Z * list Z) : Prop := lex_le a.1 b.1.

#[export] Instance key_le_dec a b : Decision (key_le a b).
Proof. unfold key_le, lex_le. apply _. Defined.

Definition tree_range (t : tree) (prefix : list Z) : list (list Z * list Z) :=
  merge_sort key_le (filter (fun e => starts_with e.1 prefix = true) (map_to_list t)).

Inductive builtin := Primary | Kind | Owner | EdgeOut | EdgeIn | History.

#[export] Instance builtin_eq_dec : EqDecision builtin.
Proof. solve_decision. Defined.

(** ** Logs of definitions *)

Inductive UserOpRecord := UserPut (u : UserRecord) | UserRevoke (token_hash : string).
Inductive IndexOpRecord := IndexPut (d : IndexDef) | IndexDrop (name : string).
Inductive ReferenceOpRecord := ReferencePut (d : ReferenceDef) | ReferenceDrop (name : string).

(** ** The state *)

Section engine.
Context {St : Type} `{RecordStore St} {N : Type} `{SerdeJson N}.

Record engine := MkEngine {
  e_store : St;
  e_trees : builtin -> tree;
  e_data : gmap string (IndexDef * tree);
  e_text : gmap string (TextIndexDef * tree);
  e_data_files : gmap string tree;   (* the committed contents of the declared indexes' files *)
  e_text_files : gmap string tree;
  e_users : gmap string UserRecord;
  e_references : References;
  e_user_log : list UserOpRecord;
  e_index_log : list IndexOpRecord;
  e_text_log : list TextIndexOpRecord;
  e_reference_log : list ReferenceOpRecord;
  e_writes_total : Z;
}.

Definition set_store (e : engine) (s : St) : engine :=
  MkEngine s (e_trees e) (e_data e) (e_text e) (e_data_files e) (e_text_files e) (e_users e) (e_references e)
    (e_user_log e) (e_index_log e) (e_text_log e) (e_reference_log e) (e_writes_total e).
Definition set_tree (e : engine) (i : builtin) (t : tree) : engine :=
  MkEngine (e_store e) (fun j => if decide (i = j) then t else e_trees e j) (e_data e) (e_text e) (e_data_files e)
    (e_text_files e) (e_users e) (e_references e) (e_user_log e) (e_index_log e) (e_text_log e) (e_reference_log e)
    (e_writes_total e).
Definition set_data (e : engine) (d : gmap string (IndexDef * tree)) : engine :=
  MkEngine (e_store e) (e_trees e) d (e_text e) (e_data_files e) (e_text_files e) (e_users e) (e_references e)
    (e_user_log e) (e_index_log e) (e_text_log e) (e_reference_log e) (e_writes_total e).
Definition set_text (e : engine) (d : gmap string (TextIndexDef * tree)) : engine :=
  MkEngine (e_store e) (e_trees e) (e_data e) d (e_data_files e) (e_text_files e) (e_users e) (e_references e)
    (e_user_log e) (e_index_log e) (e_text_log e) (e_reference_log e) (e_writes_total e).
Definition set_files (e : engine) (d t : gmap string tree) : engine :=
  MkEngine (e_store e) (e_trees e) (e_data e) (e_text e) d t (e_users e) (e_references e)
    (e_user_log e) (e_index_log e) (e_text_log e) (e_reference_log e) (e_writes_total e).
Definition set_users (e : engine) (u : gmap string UserRecord) (log : list UserOpRecord) : engine :=
  MkEngine (e_store e) (e_trees e) (e_data e) (e_text e) (e_data_files e) (e_text_files e) u (e_references e)
    log (e_index_log e) (e_text_log e) (e_reference_log e) (e_writes_total e).
Definition set_references (e : engine) (r : References) (log : list ReferenceOpRecord) : engine :=
  MkEngine (e_store e) (e_trees e) (e_data e) (e_text e) (e_data_files e) (e_text_files e) (e_users e) r
    (e_user_log e) (e_index_log e) (e_text_log e) log (e_writes_total e).
Definition set_index_logs (e : engine) (d : list IndexOpRecord) (t : list TextIndexOpRecord) : engine :=
  MkEngine (e_store e) (e_trees e) (e_data e) (e_text e) (e_data_files e) (e_text_files e) (e_users e) (e_references e)
    (e_user_log e) d t (e_reference_log e) (e_writes_total e).
Definition count_write (e : engine) : engine :=
  MkEngine (e_store e) (e_trees e) (e_data e) (e_text e) (e_data_files e) (e_text_files e) (e_users e) (e_references e)
    (e_user_log e) (e_index_log e) (e_text_log e) (e_reference_log e) ((e_writes_total e + 1) mod 2 ^ 64)%Z.

(** ** Effects: an error keeps what was done before it *)

Definition M (A : Type) : Type := engine -> engine * result error_kind A.

#[global] Instance m_ret : MRet M := fun A a e => (e, Ok a).
#[global] Instance m_bind : MBind M := fun A B f m e =>
  match m e with
  | (e, Ok a) => f a e
  | (e, Err x) => (e, Err x)
  end.

Definition gets {A} (f : engine -> A) : M A := fun e => (e, Ok (f e)).
Definition modify (f : engine -> engine) : M unit := fun e => (f e, Ok tt).
Definition lift {A} (r : result error_kind A) : M A := fun e => (e, r).

Fixpoint for_each {A} (l : list A) (f : A -> M unit) : M unit :=
  match l with
  | [] => mret tt
  | x :: l => _ ← f x; for_each l f
  end.

(** ** Access paths *)

Definition index_put (i : builtin) (key value : list Z) : M unit := fun e =>
  match tree_put (e_trees e i) key value with
  | Ok t => (set_tree e i t, Ok tt)
  | Err x => (e, Err x)
  end.
Definition index_remove (i : builtin) (key : list Z) : M unit :=
  modify (fun e => set_tree e i (delete key (e_trees e i))).
Definition index_get (i : builtin) (key : list Z) : M (option (list Z)) := gets (fun e => e_trees e i !! key).

(** The two registries of declared indexes, by name. *)
Record registry (D : Type) := MkRegistry {
  reg_get : engine -> gmap string (D * tree);
  reg_set : engine -> gmap string (D * tree) -> engine;
}.
Arguments MkRegistry {D}.
Arguments reg_get {D} r e.
Arguments reg_set {D} r e m.

Definition data_registry : registry IndexDef := MkRegistry e_data set_data.
Definition text_registry : registry TextIndexDef := MkRegistry e_text set_text.

Definition declared_put {D} (r : registry D) (name : string) (key : list Z) : M unit := fun e =>
  match reg_get r e !! name with
  | None => (e, Ok tt)
  | Some (d, t) =>
      match tree_put t key [] with
      | Ok t => (reg_set r e (<[name := (d, t)]> (reg_get r e)), Ok tt)
      | Err x => (e, Err x)
      end
  end.
Definition declared_remove {D} (r : registry D) (name : string) (key : list Z) : M unit :=
  modify (fun e => reg_set r e (alter (fun i => (i.1, delete key i.2)) name (reg_get r e))).

Definition heap_append (r : HeapRecord) : M record_location := fun e =>
  match store_append (e_store e) r with
  | Ok (l, s) => (set_store e s, Ok l)
  | Err x => (e, Err x)
  end.
Definition mark_obsolete (l : record_location) : M unit := modify (fun e => set_store e (store_mark_obsolete (e_store e) l)).

(** ** Reads *)

Definition node_location (address : string) : M (option record_location) :=
  raw ← index_get Primary (as_bytes address);
  match raw with
  | Some raw => l ← lift (location_decode raw); mret (Some l)
  | None => mret None
  end.

Definition node_at (l : record_location) : M Node :=
  e ← gets (fun e => e);
  r ← lift (store_read (e_store e) l);
  match r with HNode n => mret n | _ => lift (Err InvalidData) end.

Definition read_node (address : string) : M (option Node) :=
  l ← node_location address;
  match l with
  | None => mret None
  | Some l => n ← node_at l; mret (Some n)
  end.

(** An index key holds the bytes of a string, so decoding them is exact. *)
Definition string_of_bytes (l : list Z) : string := string_of_list_ascii (map (fun b => ascii_of_N (Z.to_N b)) l).

(** [address_from_key] of the engine: the rest of a secondary key. *)
Definition key_address (key prefix : list Z) : string := string_of_bytes (drop (min (length prefix) (length key)) key).

(** [scan_candidates] for a kind, forward and from the start: the nodes the kind index lists, in
    address order. *)
Fixpoint visit_kind (keys : list (list Z * list Z)) (prefix : list Z) (visit : Node -> M unit) : M unit :=
  match keys with
  | [] => mret tt
  | (key, _) :: keys =>
      n ← read_node (key_address key prefix);
      _ ← match n with Some n => visit n | None => mret tt end;
      visit_kind keys prefix visit
  end.

Definition scan_kind (kind : string) (visit : Node -> M unit) : M unit :=
  let prefix := kind_prefix (as_bytes kind) in
  t ← gets (fun e => e_trees e Kind);
  visit_kind (tree_range t prefix) prefix visit.

(** ** Declared indexes *)

(** The declared indexes a node of this kind must maintain, in the map's order. *)
Definition for_kind {D} (r : registry D) (kind_of : D -> string) (kind : string) (e : engine) : list (string * D) :=
  map (fun x => (x.1, x.2.1)) (filter (fun x => String.eqb (kind_of x.2.1) kind = true) (map_to_list (reg_get r e))).
Definition data_for_kind (e : engine) (kind : string) : list (string * IndexDef) := for_kind data_registry def_kind kind e.
Definition text_for_kind (e : engine) (kind : string) : list (string * TextIndexDef) := for_kind text_registry t_kind kind e.

(** The key of a node in an index over [field]. *)
Definition node_data_key (n : Node) (field : string) : list Z :=
  data_key ((from_str (N := N) (n_data n)) ≫= (fun d => get_field d field)) (as_bytes (n_address n)).

Definition node_text_keys (n : Node) (d : TextIndexDef) : list (list Z) :=
  match indexed_text (from_str (N := N) (n_data n)) (t_field d) with
  | None => []
  | Some value => map (fun gram => text_key gram (as_bytes (n_address n))) (postings d value)
  end.

Definition assert_data_keys (n : Node) : M unit :=
  declared ← gets (fun e => data_for_kind e (n_kind n));
  for_each declared (fun x => declared_put data_registry x.1 (node_data_key n (def_field x.2))).
Definition retract_data_keys (n : Node) : M unit :=
  declared ← gets (fun e => data_for_kind e (n_kind n));
  for_each declared (fun x => declared_remove data_registry x.1 (node_data_key n (def_field x.2))).
Definition assert_text_keys (n : Node) : M unit :=
  declared ← gets (fun e => text_for_kind e (n_kind n));
  for_each declared (fun x => for_each (node_text_keys n x.2) (declared_put text_registry x.1)).
Definition retract_text_keys (n : Node) : M unit :=
  declared ← gets (fun e => text_for_kind e (n_kind n));
  for_each declared (fun x => for_each (node_text_keys n x.2) (declared_remove text_registry x.1)).

(** Re-opening an unchanged definition keeps its tree; anything else opens the file. *)
Definition open_data (d : IndexDef) : M unit :=
  modify (fun e =>
    let t := match e_data e !! def_name d with
             | Some (d', t) => if bool_decide (d' = d) then t else default ∅ (e_data_files e !! def_name d)
             | None => default ∅ (e_data_files e !! def_name d)
             end in
    set_data e (<[def_name d := (d, t)]> (e_data e))).
Definition drop_data (name : string) : M unit :=
  modify (fun e => set_files (set_data e (delete name (e_data e))) (delete name (e_data_files e)) (e_text_files e)).
Definition open_text (d : TextIndexDef) : M unit :=
  modify (fun e =>
    let t := match e_text e !! t_name d with
             | Some (d', t) => if bool_decide (d' = d) then t else default ∅ (e_text_files e !! t_name d)
             | None => default ∅ (e_text_files e !! t_name d)
             end in
    set_text e (<[t_name d := (d, t)]> (e_text e))).
Definition drop_text (name : string) : M unit :=
  modify (fun e => set_files (set_text e (delete name (e_text e))) (e_data_files e) (delete name (e_text_files e))).

Definition backfill_index (name : string) : M unit :=
  i ← gets (fun e => e_data e !! name);
  match i with
  | None => mret tt
  | Some (d, _) => scan_kind (def_kind d) (fun n => declared_put data_registry name (node_data_key n (def_field d)))
  end.
Definition backfill_text_index (name : string) : M unit :=
  i ← gets (fun e => e_text e !! name);
  match i with
  | None => mret tt
  | Some (d, _) => scan_kind (t_kind d) (fun n => for_each (node_text_keys n d) (declared_put text_registry name))
  end.

(** ** Applying an operation *)

Definition obsolete_previous (i : builtin) (key : list Z) : M unit :=
  previous ← index_get i key;
  match previous with
  | Some raw => l ← lift (location_decode raw); mark_obsolete l
  | None => mret tt
  end.

Definition apply_archive (entry : HistoryEntry) : M unit :=
  l ← heap_append (HHistory entry);
  let key := history_key (as_bytes (h_address entry)) (h_version entry) in
  _ ← obsolete_previous History key;
  index_put History key (location_encode l).

Definition apply_insert (n : Node) : M unit :=
  let address := as_bytes (n_address n) in
  previous ← node_location (n_address n);
  previous_node ← match previous with
                  | Some l => p ← node_at l; mret (Some p)
                  | None => mret None
                  end;
  l ← heap_append (HNode n);
  _ ← index_put Primary address (location_encode l);
  _ ← match previous_node with
      | None => mret tt
      | Some p =>
          _ ← (if String.eqb (n_kind p) (n_kind n) then mret tt else index_remove Kind (kind_key (as_bytes (n_kind p)) address));
          (if String.eqb (n_owner p) (n_owner n) then mret tt else index_remove Owner (owner_key (as_bytes (n_owner p)) address))
      end;
  _ ← index_put Kind (kind_key (as_bytes (n_kind n)) address) [];
  _ ← index_put Owner (owner_key (as_bytes (n_owner n)) address) [];
  _ ← match previous_node with
      | None => mret tt
      | Some p => _ ← retract_data_keys p; retract_text_keys p
      end;
  _ ← assert_data_keys n;
  _ ← assert_text_keys n;
  _ ← match previous with Some l => mark_obsolete l | None => mret tt end;
  modify count_write.

Definition apply_delete (address : string) : M unit :=
  l ← node_location address;
  _ ← match l with
      | None => mret tt
      | Some l =>
          n ← node_at l;
          _ ← index_remove Primary (as_bytes address);
          _ ← index_remove Kind (kind_key (as_bytes (n_kind n)) (as_bytes address));
          _ ← index_remove Owner (owner_key (as_bytes (n_owner n)) (as_bytes address));
          _ ← retract_data_keys n;
          _ ← retract_text_keys n;
          mark_obsolete l
      end;
  modify count_write.

Definition apply_insert_edge (edge : Edge) : M unit :=
  let out_key := edge_out_key (as_bytes (e_from edge)) (as_bytes (e_ekind edge)) (as_bytes (e_to edge)) in
  let in_key := edge_in_key (as_bytes (e_to edge)) (as_bytes (e_ekind edge)) (as_bytes (e_from edge)) in
  _ ← obsolete_previous EdgeOut out_key;
  l ← heap_append (HEdge edge);
  _ ← index_put EdgeOut out_key (location_encode l);
  _ ← index_put EdgeIn in_key (location_encode l);
  modify count_write.

Definition apply_delete_edge (id : EdgeId) : M unit :=
  let out_key := edge_out_key (as_bytes (id_from id)) (as_bytes (id_kind id)) (as_bytes (id_to id)) in
  let in_key := edge_in_key (as_bytes (id_to id)) (as_bytes (id_kind id)) (as_bytes (id_from id)) in
  _ ← obsolete_previous EdgeOut out_key;
  _ ← index_remove EdgeOut out_key;
  _ ← index_remove EdgeIn in_key;
  modify count_write.

Definition apply_operation (op : Operation) : M unit :=
  match op with
  | OArchive entry => apply_archive entry
  | OInsert n => apply_insert n
  | ODelete address => apply_delete address
  | OInsertEdge edge => apply_insert_edge edge
  | ODeleteEdge id => apply_delete_edge id
  | OInsertUser u => modify (fun e => set_users e (<[u_token_hash u := u]> (e_users e)) (e_user_log e ++ [UserPut u]))
  | ORevokeUser h => modify (fun e => set_users e (delete h (e_users e)) (e_user_log e ++ [UserRevoke h]))
  | OCreateIndex d =>
      _ ← modify (fun e => set_index_logs e (e_index_log e ++ [IndexPut d]) (e_text_log e));
      _ ← open_data d;
      backfill_index (def_name d)
  | ODropIndex name =>
      _ ← modify (fun e => set_index_logs e (e_index_log e ++ [IndexDrop name]) (e_text_log e));
      drop_data name
  | OCreateReference d => modify (fun e => set_references e (references_put (e_references e) d) (e_reference_log e ++ [ReferencePut d]))
  | ODropReference name => modify (fun e => set_references e (references_remove (e_references e) name) (e_reference_log e ++ [ReferenceDrop name]))
  | OCreateTextIndex d =>
      _ ← modify (fun e => set_index_logs e (e_index_log e) (e_text_log e ++ [put_record d]));
      _ ← open_text d;
      backfill_text_index (t_name d)
  | ODropTextIndex name =>
      _ ← modify (fun e => set_index_logs e (e_index_log e) (e_text_log e ++ [TDrop name]));
      drop_text name
  end.

Fixpoint apply_operations (ops : list Operation) : M unit :=
  match ops with
  | [] => mret tt
  | op :: ops => _ ← apply_operation op; apply_operations ops
  end.
(** ** Declaring an index *)

(** The definitions in name order. *)
Definition string_le (a b : string) : Prop := lex_le (as_bytes a) (as_bytes b).
#[global] Instance string_le_dec a b : Decision (string_le a b).
Proof. unfold string_le, lex_le. apply _. Defined.

Definition data_all (e : engine) : list IndexDef :=
  merge_sort (fun a b => string_le (def_name a) (def_name b)) (map (fun x => x.2.1) (map_to_list (e_data e))).
Definition text_all (e : engine) : list TextIndexDef :=
  merge_sort (fun a b => string_le (t_name a) (t_name b)) (map (fun x => x.2.1) (map_to_list (e_text e))).

Definition declared_indexes (e : engine) : Declared := MkDeclared (data_all e) (text_all e).

(** The nodes of a kind, as a scan of its index meets them. *)
Fixpoint collect_kind (keys : list (list Z * list Z)) (prefix : list Z) : M (list Node) :=
  match keys with
  | [] => mret []
  | (key, _) :: keys =>
      n ← read_node (key_address key prefix);
      rest ← collect_kind keys prefix;
      mret (match n with Some n => n :: rest | None => rest end)
  end.

Definition kind_nodes (kind : string) : M (list Node) :=
  let prefix := kind_prefix (as_bytes kind) in
  t ← gets (fun e => e_trees e Kind);
  collect_kind (tree_range t prefix) prefix.

(** Every existing row against the bound, and against each other when the index is unique; the
    first failure decides. *)
Fixpoint backfill_check (d : IndexDef) (ns : list Node) (seen : gmap (list Z) string) : check :=
  match ns with
  | [] => Ok tt
  | n :: ns =>
      _ ← check_data_keys (N := N) [d] (as_bytes (n_address n)) (n_data n);
      if def_unique d then
        let encoded := encode_order_value ((from_str (N := N) (n_data n)) ≫= (fun j => get_field j (def_field d))) in
        match seen !! encoded with
        | Some _ => Err tt
        | None => backfill_check d ns (<[encoded := n_address n]> seen)
        end
      else backfill_check d ns seen
  end.

Definition check_backfill_admissible (d : IndexDef) : M check :=
  ns ← kind_nodes (def_kind d);
  mret (backfill_check d ns ∅).

Fixpoint text_backfill_check (d : TextIndexDef) (ns : list Node) : check :=
  match ns with
  | [] => Ok tt
  | n :: ns =>
      _ ← check_text_keys (N := N) [d] (as_bytes (n_address n)) (n_data n);
      text_backfill_check d ns
  end.

Definition check_text_backfill_admissible (d : TextIndexDef) : M check :=
  ns ← kind_nodes (t_kind d);
  mret (text_backfill_check d ns).

Definition data_find (e : engine) (kind field : string) : option (IndexDef * tree) :=
  snd <$> find (fun x => String.eqb (def_kind x.2.1) kind && String.eqb (def_field x.2.1) field) (map_to_list (e_data e)).
Definition text_find (e : engine) (kind field : string) (folded : bool) : option (TextIndexDef * tree) :=
  snd <$> find (fun x => String.eqb (t_kind x.2.1) kind && String.eqb (t_field x.2.1) field && Bool.eqb (t_folded x.2.1) folded)
           (map_to_list (e_text e)).

(** What [create_index] decides before it logs anything: [Some] operation to apply, [None] when the
    index already exists, or a refusal. *)
Definition create_index (d : IndexDef) : M (result unit (option Operation)) :=
  e ← gets (fun e => e);
  match index_def_validate d with
  | Err x => mret (Err x)
  | Ok _ =>
      match e_data e !! def_name d with
      | Some (d', _) => mret (if bool_decide (d' = d) then Ok None else Err tt)
      | None =>
          if bool_decide (is_Some (e_text e !! def_name d)) then mret (Err tt)
          else if bool_decide (is_Some (data_find e (def_kind d) (def_field d))) then mret (Err tt)
          else
            c ← check_backfill_admissible d;
            mret (match c with Ok _ => Ok (Some (OCreateIndex d)) | Err x => Err x end)
      end
  end.

Definition create_text_index (d : TextIndexDef) : M (result unit (option Operation)) :=
  e ← gets (fun e => e);
  match text_def_validate d with
  | Err x => mret (Err x)
  | Ok _ =>
      match e_text e !! t_name d with
      | Some (d', _) => mret (if bool_decide (d' = d) then Ok None else Err tt)
      | None =>
          if bool_decide (is_Some (e_data e !! t_name d)) then mret (Err tt)
          else if bool_decide (is_Some (text_find e (t_kind d) (t_field d) (t_folded d))) then mret (Err tt)
          else
            c ← check_text_backfill_admissible d;
            mret (match c with Ok _ => Ok (Some (OCreateTextIndex d)) | Err x => Err x end)
      end
  end.
(** ** Publishing the indexes *)

(** [Indexes::commit] publishes one tree after another, the declared ones last.  [crash_in_commit n]
    is what a start finds when it stopped after [n] of the built-in trees: those have the new
    contents, the others and the declared ones those of the last publication; the heap was synced
    before. *)
Definition commit_order : list builtin := [Primary; Kind; Owner; EdgeOut; EdgeIn; History].

Definition crash_in_commit (n : nat) (durable live : engine) : engine :=
  MkEngine (e_store live)
    (fun j => if decide (j ∈ take n commit_order) then e_trees live j else e_trees durable j)
    (e_data durable) (e_text durable) (e_data_files durable) (e_text_files durable) (e_users live) (e_references live)
    (e_user_log live) (e_index_log live) (e_text_log live) (e_reference_log live) 0.
End engine.

Arguments MkRegistry {St D}.
Arguments reg_get {St D} r e.
Arguments reg_set {St D} r e m.
