(* ===== verification/EngineRep.v ===== *)
(** * What a consistent engine is

    The stored collections (nodes, edges, archived states) and the relation that
    says every tree of the engine lists exactly them: a located index maps each
    record's key to a place in the heap where that record is, a membership index
    holds exactly the keys of the live nodes.  Generic lemmas move both through
    the updates an operation makes. *)

From Stdlib Require Import ZArith Lia Ascii String.
From stdpp Require Import base tactics list strings option gmap sorting.
From S2P Require Import Prelude Binary BTree Keys Json OrderKey Search Entities Wal Transaction Engine.

(** ** Strings and their bytes *)

Lemma string_of_as_bytes s : string_of_bytes (as_bytes s) = s.
Proof.
  unfold string_of_bytes, as_bytes. rewrite map_map. rewrite (map_ext _ id), map_id, string_of_list_ascii_of_string; [done|].
  intros c. rewrite N2Z.id. apply ascii_N_embedding.
Qed.

Lemma as_bytes_inj s s' : as_bytes s = as_bytes s' -> s = s'.
Proof. intros E. by rewrite <- (string_of_as_bytes s), E, string_of_as_bytes. Qed.

(** ** Trees as maps *)

Definition legal_key (k : list Z) : Prop := 0 < length k <= MAX_KEY_LEN.

Lemma tree_put_ok t k v : legal_key k -> length v <= MAX_VALUE_LEN -> tree_put t k v = Ok (<[k := v]> t).
Proof.
  intros [H1 H2] Hv. unfold tree_put. destruct (Nat.eqb_spec (length k) 0); [lia|].
  destruct (Nat.ltb_spec MAX_KEY_LEN (length k)); [lia|]. cbn [orb]. by destruct (Nat.ltb_spec MAX_VALUE_LEN (length v)); [lia|].
Qed.

(** Removing and adding several keys. *)
Definition remove_keys (ks : list (list Z)) (t : tree) : tree := foldl (fun t k => delete k t) t ks.
Definition add_keys (ks : list (list Z)) (t : tree) : tree := foldl (fun t k => <[k := []]> t) t ks.

Lemma lookup_remove_keys ks t k v : remove_keys ks t !! k = Some v <-> t !! k = Some v /\ (k ∉ ks).
Proof.
  revert t. induction ks as [|x ks IH]; intros t; cbn [remove_keys foldl].
  - split; [by split; [|apply not_elem_of_nil]|by intros [? _]].
  - fold (remove_keys ks (delete x t)). rewrite IH, lookup_delete_Some, not_elem_of_cons. split; [intros [[? ?] ?]; auto|intros (? & ? & ?); auto].
Qed.

Lemma lookup_add_keys ks t k v : add_keys ks t !! k = Some v <-> (k ∈ ks /\ v = []) \/ ((k ∉ ks) /\ t !! k = Some v).
Proof.
  revert t. induction ks as [|x ks IH]; intros t; cbn [add_keys foldl].
  - split; [right; split; [apply not_elem_of_nil|done]|]. by intros [[?%not_elem_of_nil _]|[_ ?]].
  - fold (add_keys ks (<[x := []]> t)). rewrite IH, lookup_insert_Some, elem_of_cons. split.
    + intros [[Hin ->]|[Hnin [[<- <-]|[Hne Ht]]]]; [auto|auto|right; split; [|done]]. by intros [->|].
    + intros [[Hor ->]|[Hn Ht]].
      * destruct (decide (k ∈ ks)) as [|Hnin]; [by left|right]. split; [done|]. left. by destruct Hor.
      * right. split; [intros ?; apply Hn; by right|]. right. split; [|done]. intros ->. apply Hn. by left.
Qed.

(** ** Membership indexes *)

Abbreviation node_map := (gmap string Node).

(** The tree holds, with empty values, exactly the keys the nodes produce. *)
Definition members (entries : Node -> list (list Z)) (nodes : node_map) (t : tree) : Prop :=
  forall k v, t !! k = Some v <-> v = [] /\ exists a n, nodes !! a = Some n /\ k ∈ entries n.

(** Keys of nodes at different addresses are different. *)
Definition separate (entries : Node -> list (list Z)) (ok : Node -> Prop) : Prop :=
  forall n m k, ok n -> ok m -> k ∈ entries n -> k ∈ entries m -> n_address n = n_address m.

Definition keyed (ok : Node -> Prop) (nodes : node_map) : Prop :=
  forall a n, nodes !! a = Some n -> n_address n = a /\ ok n.

Section members.
Context (entries : Node -> list (list Z)) (ok : Node -> Prop) (Hsep : separate entries ok).

Lemma members_delete nodes t a n :
  keyed ok nodes -> members entries nodes t -> nodes !! a = Some n ->
  members entries (delete a nodes) (remove_keys (entries n) t).
Proof.
  intros Hk Hm Ha k v. unfold members in Hm. rewrite lookup_remove_keys, Hm. split.
  - intros [[-> (b & m & Hb & Hin)] Hnin]. split; [done|]. exists b, m. split; [|done].
    rewrite lookup_delete_ne; [done|]. intros ->. congruence.
  - intros [-> (b & m & Hb & Hin)]. apply lookup_delete_Some in Hb as [Hne Hb]. split; [eauto 10|]. intros Hin'.
    apply Hne. destruct (Hk a n Ha) as [<- Hn], (Hk b m Hb) as [<- Hm']. by apply (Hsep n m k).
Qed.

Lemma members_add nodes t n :
  keyed ok nodes -> ok n -> nodes !! n_address n = None -> members entries nodes t ->
  members entries (<[n_address n := n]> nodes) (add_keys (entries n) t).
Proof.
  intros Hk Hn Hfresh Hm k v. rewrite lookup_add_keys. split.
  - intros [[Hin ->]|[Hnin Ht]].
    + split; [done|]. exists (n_address n), n. by rewrite lookup_insert_eq.
    + apply Hm in Ht as [-> (b & m & Hb & Hin)]. split; [done|]. exists b, m. split; [|done].
      rewrite lookup_insert_ne; [done|]. intros <-. congruence.
  - intros [-> (b & m & Hb & Hin)]. destruct (decide (k ∈ entries n)) as [|Hnin]; [by left|right]. split; [done|].
    apply Hm. split; [done|]. apply lookup_insert_Some in Hb as [[<- <-]|[_ Hb]]; [done|eauto].
Qed.

(** Replacing a node: retract the old keys, assert the new ones. *)
Lemma members_replace nodes t n :
  keyed ok nodes -> ok n -> members entries nodes t ->
  members entries (<[n_address n := n]> nodes)
    (add_keys (entries n) (match nodes !! n_address n with Some p => remove_keys (entries p) t | None => t end)).
Proof.
  intros Hk Hn Hm. destruct (nodes !! n_address n) as [p|] eqn:E.
  - rewrite <- (insert_delete_eq nodes). apply members_add; [|done|apply lookup_delete_eq|by apply members_delete].
    intros b m [_ Hb]%lookup_delete_Some. by apply Hk.
  - by apply members_add.
Qed.

(** Asserting again what is already there changes nothing. *)
Lemma members_again nodes t n a : nodes !! a = Some n -> members entries nodes t -> members entries nodes (add_keys (entries n) t).
Proof.
  intros Ha Hm k v. unfold members in Hm. rewrite lookup_add_keys, Hm. split.
  - intros [[Hin ->]|[_ ?]]; [|done]. split; [done|]. eauto.
  - intros [-> Hx]. destruct (decide (k ∈ entries n)); [by left|by right].
Qed.
End members.

(** ** Located indexes *)

Section located.
Context {St : Type} `{RecordStoreLaws St}.
Context {K V : Type} `{Countable K} (key : K -> list Z) (record : V -> HeapRecord).

Definition located (m : gmap K V) (t : tree) (s : St) : Prop :=
  (forall x v, m !! x = Some v ->
     exists l, location_ok l /\ t !! key x = Some (location_encode l) /\ store_read s l = Ok (record v)) /\
  (forall k raw, t !! k = Some raw -> exists x, k = key x /\ is_Some (m !! x)).

(** The heap only grows. *)
Lemma located_keeps m t s s' : keeps s s' -> located m t s -> located m t s'.
Proof.
  intros Hk [Hfwd Hbwd]. split; [|done]. intros x v Hx. destruct (Hfwd x v Hx) as (l & Hl & Ht & Hr). exists l. auto.
Qed.

Lemma located_insert m t s x v l :
  (forall y, is_Some (m !! y) -> key y = key x -> y = x) ->
  located m t s -> location_ok l -> store_read s l = Ok (record v) ->
  located (<[x := v]> m) (<[key x := location_encode l]> t) s.
Proof.
  intros Hinj [Hfwd Hbwd] Hl Hr. split.
  - intros y w [[<- <-]|[Hne Hy]]%lookup_insert_Some; [exists l; by rewrite lookup_insert_eq|].
    destruct (Hfwd y w Hy) as (l' & Hl' & Ht & Hr'). exists l'. split; [done|]. split; [|done].
    rewrite lookup_insert_ne; [done|]. intros E. apply Hne. symmetry. apply Hinj; [eauto|done].
  - intros k raw [[<- _]|[_ Ht]]%lookup_insert_Some; [exists x; by rewrite lookup_insert_eq|].
    destruct (Hbwd k raw Ht) as (y & -> & Hy). exists y. split; [done|]. destruct (decide (x = y)) as [->|]; [by rewrite lookup_insert_eq|].
    by rewrite lookup_insert_ne.
Qed.

Lemma located_delete m t s x :
  (forall y, is_Some (m !! y) -> key y = key x -> y = x) ->
  located m t s -> located (delete x m) (delete (key x) t) s.
Proof.
  intros Hinj [Hfwd Hbwd]. split.
  - intros y w [Hne Hy]%lookup_delete_Some. destruct (Hfwd y w Hy) as (l' & Hl' & Ht & Hr'). exists l'. split; [done|]. split; [|done].
    rewrite lookup_delete_ne; [done|]. intros E. apply Hne. symmetry. apply Hinj; [eauto|done].
  - intros k raw [Hne Ht]%lookup_delete_Some. destruct (Hbwd k raw Ht) as (y & -> & Hy). exists y. split; [done|].
    rewrite lookup_delete_ne; [done|]. intros ->. done.
Qed.

Lemma located_lookup m t s x :
  (forall y, is_Some (m !! y) -> key y = key x -> y = x) -> located m t s ->
  match m !! x with
  | Some v => exists l, location_ok l /\ t !! key x = Some (location_encode l) /\ store_read s l = Ok (record v)
  | None => t !! key x = None
  end.
Proof.
  intros Hinj [Hfwd Hbwd]. destruct (m !! x) as [v|] eqn:E; [by apply Hfwd|].
  destruct (t !! key x) as [raw|] eqn:Et; [|done]. destruct (Hbwd _ _ Et) as (y & Ey & Hy).
  assert (y = x) as -> by (apply Hinj; [done|done]). rewrite E in Hy. by destruct Hy.
Qed.
End located.
