(* ===== verification/EngineApply.v ===== *)
(** * Applying an operation keeps the engine consistent

    The theorem of the component: on a consistent engine an admissible operation
    runs to the end (the heap taking its record), changes the stored collections
    as its name says, and leaves every built-in and declared index listing
    exactly the new collections. *)

From Stdlib Require Import ZArith Lia Ascii String.
From stdpp Require Import base tactics list strings option gmap sorting.
From S2P Require Import Prelude Binary BTree Keys Json OrderKey Search Entities Wal Transaction Engine EngineRep.

(** ** The stored collections *)

Record logical := MkLogical {
  l_nodes : gmap string Node;
  l_edges : gmap EdgeId Edge;
  l_history : gmap (string * Z) HistoryEntry;
}.

(** What an operation does to them. *)
Definition logical_apply (d : logical) (op : Operation) : logical :=
  match op with
  | OArchive h => MkLogical (l_nodes d) (l_edges d) (<[(h_address h, h_version h) := h]> (l_history d))
  | OInsert n => MkLogical (<[n_address n := n]> (l_nodes d)) (l_edges d) (l_history d)
  | ODelete a => MkLogical (delete a (l_nodes d)) (l_edges d) (l_history d)
  | OInsertEdge e => MkLogical (l_nodes d) (<[edge_id e := e]> (l_edges d)) (l_history d)
  | ODeleteEdge i => MkLogical (l_nodes d) (delete i (l_edges d)) (l_history d)
  | _ => d
  end.

(** ** Registries under loops *)

Lemma foldl_alter_other {D A} (f : A -> D -> D) (name : A -> string) (l : list A) (m : gmap string D) x :
  x ∉ map name l -> foldl (fun m a => alter (f a) (name a) m) m l !! x = m !! x.
Proof.
  revert m. induction l as [|a l IH]; intros m; cbn [foldl map]; [done|].
  rewrite not_elem_of_cons. intros [Hne Hnin]. rewrite IH by done. by apply lookup_alter_ne.
Qed.

Lemma foldl_alter_here {D A} (f : A -> D -> D) (name : A -> string) (l : list A) (m : gmap string D) a :
  NoDup (map name l) -> a ∈ l -> foldl (fun m a => alter (f a) (name a) m) m l !! name a = f a <$> m !! name a.
Proof.
  revert m. induction l as [|b l IH]; intros m Hnd; [by intros ?%not_elem_of_nil|]. cbn [foldl map] in *.
  apply NoDup_cons in Hnd as [Hnin Hnd]. intros [->|Hin]%elem_of_cons.
  - rewrite foldl_alter_other by done. by rewrite lookup_alter_eq.
  - rewrite IH by done. rewrite lookup_alter_ne; [done|]. intros E. apply Hnin. rewrite E.
    apply list_elem_of_In, in_map, list_elem_of_In, Hin.
Qed.

(** ** Entries *)

Definition kind_entries (n : Node) : list (list Z) := [kind_key (as_bytes (n_kind n)) (as_bytes (n_address n))].
Definition owner_entries (n : Node) : list (list Z) := [owner_key (as_bytes (n_owner n)) (as_bytes (n_address n))].

Definition node_ok (n : Node) : Prop := check_node_keys (as_bytes (n_address n)) (as_bytes (n_kind n)) (as_bytes (n_owner n)) = Ok tt.

Lemma node_ok_spec n : node_ok n ->
  (short (as_bytes (n_address n)) /\ short (as_bytes (n_kind n)) /\ short (as_bytes (n_owner n))) /\
  legal_key (as_bytes (n_address n)) /\ Forall legal_key (kind_entries n) /\ Forall legal_key (owner_entries n).
Proof.
  intros Hn. apply node_keys_admissible in Hn as [Hs Hl]. specialize (Hl 0%Z).
  do 3 apply Forall_cons_1 in Hl as [? Hl]. split; [done|]. split; [done|]. split; by apply Forall_cons_2; [|apply Forall_nil_2].
Qed.

Lemma kind_separate : separate kind_entries node_ok.
Proof.
  intros n m k Hn Hm ->%list_elem_of_singleton E%list_elem_of_singleton. apply node_ok_spec in Hn as [(_ & Hkn & _) _], Hm as [(_ & Hkm & _) _].
  unfold kind_key in E. apply component_inj in E as [_ E]; [|done|done]. by apply as_bytes_inj.
Qed.

Lemma owner_separate : separate owner_entries node_ok.
Proof.
  intros n m k Hn Hm ->%list_elem_of_singleton E%list_elem_of_singleton. apply node_ok_spec in Hn as [(_ & _ & Hkn) _], Hm as [(_ & _ & Hkm) _].
  unfold owner_key in E. apply component_inj in E as [_ E]; [|done|done]. by apply as_bytes_inj.
Qed.

(** ** Running effects *)

Lemma M_bind_ok {St A B} (m : M (St := St) A) (f : A -> M B) e e' a : m e = (e', Ok a) -> (m ≫= f) e = f a e'.
Proof. intros E. unfold mbind, m_bind. by rewrite E. Qed.

(** One effect of a sequence. *)
Ltac step tac := erewrite M_bind_ok by tac; cbv beta iota.

Section apply.
Context {St : Type} `{RecordStoreLaws St} {N : Type} `{SerdeJson N}.
Implicit Types e : engine (St := St).

Definition data_entries (d : IndexDef) (n : Node) : list (list Z) :=
  if String.eqb (def_kind d) (n_kind n) then [node_data_key (N := N) n (def_field d)] else [].
Definition text_entries (d : TextIndexDef) (n : Node) : list (list Z) :=
  if String.eqb (t_kind d) (n_kind n) then node_text_keys (N := N) n d else [].

Lemma data_separate d : separate (data_entries d) node_ok.
Proof.
  intros n m k _ _. unfold data_entries. do 2 destruct (String.eqb _ _); try by intros ?%not_elem_of_nil.
  - intros ->%list_elem_of_singleton E%list_elem_of_singleton. unfold node_data_key in E.
    apply (f_equal address_from_data_key) in E. rewrite !data_key_roundtrip in E. injection E as E. by apply as_bytes_inj.
  - by intros _ ?%not_elem_of_nil.
Qed.

Lemma text_keys_gram n d k : k ∈ node_text_keys (N := N) n d -> drop GRAM_LEN k = as_bytes (n_address n).
Proof.
  unfold node_text_keys. destruct (indexed_text _ _) as [s|]; [|by intros ?%not_elem_of_nil].
  intros (g & -> & Hg)%list_elem_of_fmap. unfold postings in Hg. apply elem_grams, windows_spec in Hg as (a & b & _ & Hl).
  unfold text_key. by rewrite <- Hl, drop_app_length.
Qed.

Lemma text_separate d : separate (text_entries d) node_ok.
Proof.
  intros n m k _ _. unfold text_entries. do 2 destruct (String.eqb _ _); try by intros ?%not_elem_of_nil.
  - intros Hn%text_keys_gram Hm%text_keys_gram. apply as_bytes_inj. congruence.
  - by intros _ ?%not_elem_of_nil.
Qed.

(** ** Consistency *)

Definition edge_out_of (i : EdgeId) : list Z := edge_out_key (as_bytes (id_from i)) (as_bytes (id_kind i)) (as_bytes (id_to i)).
Definition edge_in_of (i : EdgeId) : list Z := edge_in_key (as_bytes (id_to i)) (as_bytes (id_kind i)) (as_bytes (id_from i)).
Definition history_of (x : string * Z) : list Z := history_key (as_bytes x.1) x.2.

Definition edge_ok (i : EdgeId) : Prop := check_edge_keys (as_bytes (id_from i)) (as_bytes (id_to i)) (as_bytes (id_kind i)) = Ok tt.

(** A registry whose every tree lists the nodes under its definition, with keys the tree takes. *)
Definition registered {D} (reg : gmap string (D * tree)) (entries : D -> Node -> list (list Z)) (nodes : node_map) : Prop :=
  forall name d t, reg !! name = Some (d, t) ->
    members (entries d) nodes t /\ forall a n, nodes !! a = Some n -> Forall legal_key (entries d n).

Record consistent (e : engine) (d : logical) : Prop := {
  c_nodes : keyed node_ok (l_nodes d);
  c_edges : forall i x, l_edges d !! i = Some x -> edge_id x = i /\ edge_ok i;
  c_history : forall x h, l_history d !! x = Some h -> (h_address h, h_version h) = x /\ short (as_bytes x.1) /\ u64 x.2;
  c_primary : located as_bytes HNode (l_nodes d) (e_trees e Primary) (e_store e);
  c_kind : members kind_entries (l_nodes d) (e_trees e Kind);
  c_owner : members owner_entries (l_nodes d) (e_trees e Owner);
  c_edge_out : located edge_out_of HEdge (l_edges d) (e_trees e EdgeOut) (e_store e);
  c_edge_in : located edge_in_of HEdge (l_edges d) (e_trees e EdgeIn) (e_store e);
  c_archive : located history_of HHistory (l_history d) (e_trees e History) (e_store e);
  c_data : registered (e_data e) data_entries (l_nodes d);
  c_text : registered (e_text e) text_entries (l_nodes d);
  c_files : forall name, (e_data e !! name = None -> e_data_files e !! name = None) /\
                         (e_text e !! name = None -> e_text_files e !! name = None);
}.

(** ** The effects of a loop *)

Lemma index_put_ok i k v e : legal_key k -> length v <= MAX_VALUE_LEN ->
  index_put i k v e = (set_tree e i (<[k := v]> (e_trees e i)), Ok tt).
Proof. intros Hk Hv. unfold index_put. by rewrite tree_put_ok. Qed.

Definition update_registry {D} (f : D -> tree -> tree) (reg : gmap string (D * tree)) : gmap string (D * tree) :=
  (fun i => (i.1, f i.1 i.2)) <$> reg.

(** A registry behaves like a field of the state. *)
Class RegistryLaws {D} (r : registry (St := St) D) : Prop := {
  reg_get_set e m : reg_get r (reg_set r e m) = m;
  reg_set_set e m m' : reg_set r (reg_set r e m) m' = reg_set r e m';
  reg_set_get e : reg_set r e (reg_get r e) = e;
  reg_set_trees e m : e_trees (reg_set r e m) = e_trees e;
  reg_set_store e m : e_store (reg_set r e m) = e_store e;
}.

#[global] Instance data_registry_laws : RegistryLaws data_registry.
Proof. split; try done. by intros []. Qed.
#[global] Instance text_registry_laws : RegistryLaws text_registry.
Proof. split; try done. by intros []. Qed.

Section registry.
Context {D : Type} (r : registry (St := St) D) `{!RegistryLaws r}.

(** Several keys of one index. *)
Lemma remove_loop name ks e :
  for_each ks (declared_remove r name) e =
  (reg_set r e (alter (fun i => (i.1, remove_keys ks i.2)) name (reg_get r e)), Ok tt).
Proof.
  revert e. induction ks as [|k ks IH]; intros e; cbn [for_each].
  - unfold mret, m_ret. f_equal. rewrite alter_id; [by rewrite reg_set_get|]. intros [d t] _. done.
  - erewrite M_bind_ok by reflexivity. rewrite IH. rewrite reg_get_set, reg_set_set. f_equal. f_equal.
    by rewrite alter_alter_eq.
Qed.

Lemma put_one name k e :
  is_Some (reg_get r e !! name) -> legal_key k ->
  declared_put r name k e = (reg_set r e (alter (fun i => (i.1, <[k := []]> i.2)) name (reg_get r e)), Ok tt).
Proof.
  intros [[d t] Hd] Hk. unfold declared_put. rewrite Hd, tree_put_ok by (done || cbn; lia). f_equal. f_equal.
  apply map_eq. intros x. destruct (decide (name = x)) as [->|].
  - by rewrite lookup_insert_eq, lookup_alter_eq, Hd.
  - by rewrite lookup_insert_ne, lookup_alter_ne.
Qed.

Lemma put_loop name ks e :
  is_Some (reg_get r e !! name) -> Forall legal_key ks ->
  for_each ks (declared_put r name) e =
  (reg_set r e (alter (fun i => (i.1, add_keys ks i.2)) name (reg_get r e)), Ok tt).
Proof.
  intros Hs Hl. revert e Hs. induction Hl as [|k ks Hk _ IH]; intros e Hs; cbn [for_each].
  - unfold mret, m_ret. f_equal. rewrite alter_id; [by rewrite reg_set_get|]. intros [d t] _. done.
  - erewrite M_bind_ok by (by apply put_one). rewrite IH; rewrite ?reg_get_set, ?reg_set_set.
    + f_equal. f_equal. by rewrite alter_alter_eq.
    + destruct Hs as [[d t] Hd]. rewrite lookup_alter_eq, Hd. eauto.
Qed.

Context (kind_of : D -> string).

Lemma for_kind_names kind e : NoDup (map fst (for_kind r kind_of kind e)).
Proof.
  unfold for_kind. rewrite map_map. cbn [fst]. pose proof (NoDup_fst_map_to_list (reg_get r e)) as Hnd.
  induction (map_to_list (reg_get r e)) as [|x l IH]; [constructor|]. cbn [fmap list_fmap] in Hnd. apply NoDup_cons in Hnd as [Hnin Hnd].
  rewrite filter_cons. case_decide; [|by apply IH]. cbn [map]. apply NoDup_cons. split; [|by apply IH].
  intros Hin. apply Hnin. apply list_elem_of_In, in_map_iff in Hin as (y & Ey & Hy). rewrite <- Ey.
  apply list_elem_of_In, list_elem_of_filter in Hy as [_ Hy]. apply list_elem_of_fmap. eauto.
Qed.

Lemma for_kind_spec kind e name d :
  (name, d) ∈ for_kind r kind_of kind e <-> kind_of d = kind /\ exists t, reg_get r e !! name = Some (d, t).
Proof.
  unfold for_kind. rewrite list_elem_of_fmap. split.
  - intros ([x [d' t]] & [= -> ->] & [Hk Hin]%list_elem_of_filter). cbn in Hk. apply String.eqb_eq in Hk.
    apply elem_of_map_to_list in Hin. eauto.
  - intros [Hk [t Ht]]. exists (name, (d, t)). split; [done|]. apply list_elem_of_filter. cbn. split; [by apply String.eqb_eq|].
    by apply elem_of_map_to_list.
Qed.

(** A loop over the indexes of a kind, each index updated by [f]. *)
Lemma kind_loop (act : string -> D -> M unit) (f : D -> tree -> tree) kind e :
  (forall e' name d t, reg_get r e' !! name = Some (d, t) -> kind_of d = kind -> is_Some (reg_get r e !! name) ->
     (exists t0, reg_get r e !! name = Some (d, t0)) ->
     act name d e' = (reg_set r e' (alter (fun i => (i.1, f d i.2)) name (reg_get r e')), Ok tt)) ->
  for_each (for_kind r kind_of kind e) (fun x => act x.1 x.2) e =
  (reg_set r e (update_registry (fun d t => if String.eqb (kind_of d) kind then f d t else t) (reg_get r e)), Ok tt).
Proof.
  intros Hact.
  assert (forall l m, (forall x, x ∈ l -> kind_of x.2 = kind /\ exists t, reg_get r e !! x.1 = Some (x.2, t)) ->
    (forall x, x ∈ l -> exists t, m !! x.1 = Some (x.2, t)) ->
    for_each l (fun x => act x.1 x.2) (reg_set r e m) =
    (reg_set r e (foldl (fun m x => alter (fun i => (i.1, f x.2 i.2)) x.1 m) m l), Ok tt)) as Hloop.
  { induction l as [|[name d] l IH]; intros m Hl Hm; [done|]. cbn [for_each foldl fst snd].
    destruct (Hl (name, d)) as [Hk [t0 Ht0]]; [left|]. destruct (Hm (name, d)) as [t Ht]; [left|]. cbn [fst snd] in *.
    assert (act name d (reg_set r e m) = (reg_set r e (alter (fun i => (i.1, f d i.2)) name m), Ok tt)) as E.
    { rewrite (Hact _ name d t) by (rewrite ?reg_get_set; eauto). by rewrite reg_get_set, reg_set_set. }
    erewrite M_bind_ok by exact E. apply IH; [intros x Hx; apply Hl; by right|].
    intros x Hx. destruct (Hm x) as [tx Htx]; [by right|]. destruct (decide (x.1 = name)) as [Ex|Hne].
    - rewrite Ex in *. rewrite Ht in Htx. injection Htx as <- <-. rewrite lookup_alter_eq, Ht. eauto.
    - rewrite lookup_alter_ne by done. eauto. }
  rewrite <- (reg_set_get e) at 2. rewrite Hloop; rewrite ?reg_set_get.
  - f_equal. f_equal. apply map_eq. intros x. unfold update_registry. rewrite lookup_fmap.
    destruct (decide (x ∈ map fst (for_kind r kind_of kind e))) as [Hin|Hnin].
    + apply list_elem_of_In, in_map_iff in Hin as ([name d] & <- & Hin). apply list_elem_of_In in Hin. cbn [fst].
      rewrite (foldl_alter_here (fun x i => (i.1, f x.2 i.2)) fst _ _ (name, d) (for_kind_names kind e) Hin). cbn [fst snd].
      apply for_kind_spec in Hin as [Hk [t Ht]]. rewrite Ht. cbn. rewrite Hk. by rewrite String.eqb_refl.
    + rewrite (foldl_alter_other (fun x i => (i.1, f x.2 i.2)) fst) by done. destruct (reg_get r e !! x) as [[d t]|] eqn:E; [|done]. cbn.
      destruct (String.eqb_spec (kind_of d) kind) as [Hk|]; [|done]. exfalso. apply Hnin.
      apply list_elem_of_In, in_map_iff. exists (x, d). split; [done|]. apply list_elem_of_In, for_kind_spec. eauto.
  - intros [name d] Hx. by apply for_kind_spec in Hx.
  - intros [name d] Hx. apply for_kind_spec in Hx as [_ [t Ht]]. eauto.
Qed.
End registry.

Lemma update_registry_ext {D} (f g : D -> tree -> tree) (reg : gmap string (D * tree)) :
  (forall name d t, reg !! name = Some (d, t) -> f d t = g d t) -> update_registry f reg = update_registry g reg.
Proof. intros Hfg. apply map_fmap_ext. intros name [d t] Hn. cbn. by rewrite (Hfg name). Qed.

Lemma retract_data_run n e :
  retract_data_keys (N := N) n e = (set_data e (update_registry (fun d => remove_keys (data_entries d n)) (e_data e)), Ok tt).
Proof.
  unfold retract_data_keys. erewrite M_bind_ok by reflexivity. unfold data_for_kind.
  rewrite (kind_loop data_registry def_kind (fun name d => declared_remove data_registry name (node_data_key (N := N) n (def_field d)))
             (fun d => delete (node_data_key (N := N) n (def_field d)))); [|done].
  cbn [data_registry reg_set reg_get]. f_equal. f_equal. apply update_registry_ext. intros name d t _. unfold data_entries.
  by destruct (String.eqb _ _).
Qed.

Lemma retract_text_run n e :
  retract_text_keys (N := N) n e = (set_text e (update_registry (fun d => remove_keys (text_entries d n)) (e_text e)), Ok tt).
Proof.
  unfold retract_text_keys. erewrite M_bind_ok by reflexivity. unfold text_for_kind.
  rewrite (kind_loop text_registry t_kind (fun name d => for_each (node_text_keys (N := N) n d) (declared_remove text_registry name))
             (fun d => remove_keys (node_text_keys (N := N) n d))); [|intros; cbv beta; rewrite remove_loop by apply _; reflexivity].
  cbn [text_registry reg_set reg_get]. f_equal. f_equal. apply update_registry_ext. intros name d t _. unfold text_entries.
  by destruct (String.eqb _ _).
Qed.

(** The keys a node needs are ones the trees take. *)
Definition accepted {D} (reg : gmap string (D * tree)) (entries : D -> Node -> list (list Z)) (n : Node) : Prop :=
  forall name d t, reg !! name = Some (d, t) -> Forall legal_key (entries d n).

Lemma assert_data_run n e :
  accepted (e_data e) data_entries n ->
  assert_data_keys (N := N) n e = (set_data e (update_registry (fun d => add_keys (data_entries d n)) (e_data e)), Ok tt).
Proof.
  intros Hacc. unfold assert_data_keys. erewrite M_bind_ok by reflexivity. unfold data_for_kind.
  rewrite (kind_loop data_registry def_kind (fun name d => declared_put data_registry name (node_data_key (N := N) n (def_field d)))
             (fun d => <[node_data_key (N := N) n (def_field d) := []]>)).
  - cbn [data_registry reg_set reg_get]. f_equal. f_equal. apply update_registry_ext. intros name d t _. unfold data_entries.
    by destruct (String.eqb _ _).
  - intros e' name d t Ht Hk _ [t0 Ht0]. specialize (Hacc name d t0 Ht0). unfold data_entries in Hacc. rewrite Hk, String.eqb_refl in Hacc.
    apply Forall_inv in Hacc. cbv beta. rewrite put_one; [reflexivity|by exists (d, t)|done].
Qed.

Lemma assert_text_run n e :
  accepted (e_text e) text_entries n ->
  assert_text_keys (N := N) n e = (set_text e (update_registry (fun d => add_keys (text_entries d n)) (e_text e)), Ok tt).
Proof.
  intros Hacc. unfold assert_text_keys. erewrite M_bind_ok by reflexivity. unfold text_for_kind.
  rewrite (kind_loop text_registry t_kind (fun name d => for_each (node_text_keys (N := N) n d) (declared_put text_registry name))
             (fun d => add_keys (node_text_keys (N := N) n d))).
  - cbn [text_registry reg_set reg_get]. f_equal. f_equal. apply update_registry_ext. intros name d t _. unfold text_entries.
    by destruct (String.eqb _ _).
  - intros e' name d t Ht Hk _ [t0 Ht0]. cbv beta. rewrite put_loop; [reflexivity|apply _|by exists (d, t)|].
    specialize (Hacc name d t0 Ht0). unfold text_entries in Hacc. by rewrite Hk, String.eqb_refl in Hacc.
Qed.

(** Registries follow the nodes. *)
Lemma registered_replace {D} (reg : gmap string (D * tree)) entries nodes n :
  (forall d, separate (entries d) node_ok) -> keyed node_ok nodes -> node_ok n -> accepted reg entries n ->
  registered reg entries nodes ->
  registered (update_registry (fun d => add_keys (entries d n))
    (match nodes !! n_address n with Some p => update_registry (fun d => remove_keys (entries d p)) reg | None => reg end))
    entries (<[n_address n := n]> nodes).
Proof.
  intros Hsep Hk Hn Hacc Hreg name d t Ht. unfold update_registry in Ht. rewrite lookup_fmap in Ht.
  assert (exists t0, reg !! name = Some (d, t0) /\
    t = add_keys (entries d n) (match nodes !! n_address n with Some p => remove_keys (entries d p) t0 | None => t0 end)) as (t0 & Ht0 & ->).
  { destruct (nodes !! n_address n) as [p|]; rewrite ?lookup_fmap in Ht; destruct (reg !! name) as [[d' t0]|]; try discriminate Ht;
      injection Ht as <- <-; eauto. }
  destruct (Hreg name d t0 Ht0) as [Hm Hl]. split.
  - by apply (members_replace _ node_ok (Hsep d)).
  - intros a m [[<- <-]|[_ Ha]]%lookup_insert_Some; [by apply (Hacc name d t0)|by apply (Hl a)].
Qed.

Lemma registered_delete {D} (reg : gmap string (D * tree)) entries nodes a n :
  (forall d, separate (entries d) node_ok) -> keyed node_ok nodes -> nodes !! a = Some n -> registered reg entries nodes ->
  registered (update_registry (fun d => remove_keys (entries d n)) reg) entries (delete a nodes).
Proof.
  intros Hsep Hk Ha Hreg name d t Ht. unfold update_registry in Ht. rewrite lookup_fmap in Ht.
  destruct (reg !! name) as [[d' t0]|] eqn:Ht0; [|discriminate Ht]. injection Ht as <- <-.
  destruct (Hreg name d' t0 Ht0) as [Hm Hl]. split.
  - by apply (members_delete _ node_ok (Hsep d')).
  - intros b m [_ Hb]%lookup_delete_Some. by apply (Hl b).
Qed.

(** ** Nodes *)

Lemma nodes_inj (nodes : node_map) a : forall b, is_Some (nodes !! b) -> as_bytes b = as_bytes a -> b = a.
Proof. intros b _. apply as_bytes_inj. Qed.

Lemma read_located e nodes a :
  located as_bytes HNode nodes (e_trees e Primary) (e_store e) ->
  match nodes !! a with
  | Some n => exists l, node_location a e = (e, Ok (Some l)) /\ node_at l e = (e, Ok n)
  | None => node_location a e = (e, Ok None)
  end.
Proof.
  intros Hc. pose proof (located_lookup _ _ _ _ _ a (nodes_inj _ a) Hc) as Hl.
  destruct (nodes !! a) as [n|].
  - destruct Hl as (l & Hl & Ht & Hr). exists l. split.
    + unfold node_location, index_get. step ltac:(unfold gets; by rewrite Ht).
      step ltac:(unfold lift; by rewrite location_decode_encode). done.
    + unfold node_at. step ltac:(reflexivity). step ltac:(unfold lift; by rewrite Hr). done.
  - unfold node_location, index_get. step ltac:(unfold gets; by rewrite Hl). done.
Qed.

Lemma read_run e d a :
  consistent e d ->
  match l_nodes d !! a with
  | Some n => exists l, node_location a e = (e, Ok (Some l)) /\ node_at l e = (e, Ok n)
  | None => node_location a e = (e, Ok None)
  end.
Proof. intros Hc. apply read_located, Hc. Qed.

(** A read through the primary index is a lookup. *)
Lemma read_node_run e nodes a :
  located as_bytes HNode nodes (e_trees e Primary) (e_store e) -> read_node a e = (e, Ok (nodes !! a)).
Proof.
  intros Hc. pose proof (read_located e nodes a Hc) as Hr. unfold read_node. destruct (nodes !! a) as [n|].
  - destruct Hr as (l & Hloc & Hat). step ltac:(exact Hloc). step ltac:(exact Hat). done.
  - step ltac:(exact Hr). done.
Qed.

(** The heap after an append, with an older copy marked. *)
Definition marked (s : St) (l : option record_location) : St :=
  match l with Some l => store_mark_obsolete s l | None => s end.

Lemma marked_ok s o k : store_room s k -> keeps s (marked s o) /\ store_room (marked s o) k.
Proof. destruct o; [apply store_mark_ok|]. intros Hr. split; [by intros l r|done]. Qed.

Lemma marked_keeps s o k : store_room s k -> keeps s (marked s o).
Proof. apply marked_ok. Qed.

Lemma marked_room s o k : store_room s k -> store_room (marked s o) k.
Proof. apply marked_ok. Qed.

Lemma keeps_trans s1 s2 s3 : keeps s1 s2 -> keeps s2 s3 -> keeps s1 s3.
Proof. intros H12 H23 l r Hl Hr. apply H23; [done|]. by apply H12. Qed.

Lemma append_run e r l s : store_append (e_store e) r = Ok (l, s) -> heap_append r e = (set_store e s, Ok l).
Proof. intros E. unfold heap_append. by rewrite E. Qed.

(** Insertion as one step of the state: new record, primary, kind and owner entries, declared
    indexes, the old copy marked, the write counted. *)
Definition inserted (e : engine (St := St)) (n : Node) (l : record_location) (s : St) (previous : option (record_location * Node)) : engine :=
  let address := as_bytes (n_address n) in
  let kt := match previous with
            | Some (_, p) => if String.eqb (n_kind p) (n_kind n) then e_trees e Kind else delete (kind_key (as_bytes (n_kind p)) address) (e_trees e Kind)
            | None => e_trees e Kind end in
  let ot := match previous with
            | Some (_, p) => if String.eqb (n_owner p) (n_owner n) then e_trees e Owner else delete (owner_key (as_bytes (n_owner p)) address) (e_trees e Owner)
            | None => e_trees e Owner end in
  let data := match previous with Some (_, p) => update_registry (fun d => remove_keys (data_entries d p)) (e_data e) | None => e_data e end in
  let text := match previous with Some (_, p) => update_registry (fun d => remove_keys (text_entries d p)) (e_text e) | None => e_text e end in
  MkEngine (marked s (fst <$> previous))
    (fun j => match j with
              | Primary => <[address := location_encode l]> (e_trees e Primary)
              | Kind => <[kind_key (as_bytes (n_kind n)) address := []]> kt
              | Owner => <[owner_key (as_bytes (n_owner n)) address := []]> ot
              | j => e_trees e j
              end)
    (update_registry (fun d => add_keys (data_entries d n)) data)
    (update_registry (fun d => add_keys (text_entries d n)) text)
    (e_data_files e) (e_text_files e) (e_users e) (e_references e) (e_user_log e) (e_index_log e) (e_text_log e) (e_reference_log e)
    ((e_writes_total e + 1) mod 2 ^ 64)%Z.

(** Two states that agree in everything but the representation of the tree table. *)
Definition same_state (e e' : engine (St := St)) : Prop :=
  e_store e = e_store e' /\ (forall i, e_trees e i = e_trees e' i) /\ e_data e = e_data e' /\ e_text e = e_text e' /\
  e_data_files e = e_data_files e' /\ e_text_files e = e_text_files e'.

Lemma consistent_same e e' d : same_state e e' -> consistent e d -> consistent e' d.
Proof.
  intros (Es & Et & Ed & Ex & Edf & Etf) [C1 C2 C3 C4 C5 C6 C7 C8 C9 C10 C11 C12].
  split; rewrite <- ?Es, <- ?Et, <- ?Ed, <- ?Ex, <- ?Edf, <- ?Etf; done.
Qed.

Lemma location_value l : length (location_encode l) <= MAX_VALUE_LEN.
Proof. rewrite length_location_encode. unfold LOCATION_LEN, MAX_VALUE_LEN. lia. Qed.

Lemma accepted_update {D} (f : D -> tree -> tree) (reg : gmap string (D * tree)) entries n :
  accepted reg entries n -> accepted (update_registry f reg) entries n.
Proof.
  intros Hacc name d t Ht. unfold update_registry in Ht. rewrite lookup_fmap in Ht.
  destruct (reg !! name) as [[d' t0]|] eqn:E; [|discriminate Ht]. injection Ht as <- _. by apply (Hacc name d' t0).
Qed.

Lemma insert_run e n l s :
  node_ok n -> accepted (e_data e) data_entries n -> accepted (e_text e) text_entries n ->
  store_append (e_store e) (HNode n) = Ok (l, s) ->
  forall previous,
  match previous with
  | Some (l0, p) => node_location (n_address n) e = (e, Ok (Some l0)) /\ node_at l0 e = (e, Ok p)
  | None => node_location (n_address n) e = (e, Ok None)
  end ->
  exists e', apply_insert (N := N) n e = (e', Ok tt) /\ same_state (inserted e n l s previous) e'.
Proof.
  intros Hn Hd Ht Happ previous Hprev. destruct (node_ok_spec n Hn) as (_ & Ha & Hk & Ho).
  apply Forall_inv in Hk, Ho. unfold apply_insert. destruct previous as [[l0 p]|].
  - destruct Hprev as [Hloc Hat]. step ltac:(exact Hloc). step ltac:(erewrite M_bind_ok by exact Hat; reflexivity).
    step ltac:(by apply append_run). step ltac:(apply index_put_ok; [done|apply location_value]).
    unfold inserted, same_state. destruct (String.eqb (n_kind p) (n_kind n)), (String.eqb (n_owner p) (n_owner n)).
    all: step ltac:(erewrite M_bind_ok by reflexivity; reflexivity).
    all: step ltac:(apply index_put_ok; [done|cbn; lia]); step ltac:(apply index_put_ok; [done|cbn; lia]).
    all: step ltac:(erewrite M_bind_ok by apply retract_data_run; apply retract_text_run).
    all: step ltac:(apply assert_data_run; by apply accepted_update).
    all: step ltac:(apply assert_text_run; by apply accepted_update).
    all: step ltac:(reflexivity); eexists; (split; [reflexivity|]).
    all: repeat split; intros []; reflexivity.
  - step ltac:(exact Hprev). step ltac:(reflexivity).
    step ltac:(by apply append_run). step ltac:(apply index_put_ok; [done|apply location_value]).
    step ltac:(reflexivity). step ltac:(apply index_put_ok; [done|cbn; lia]). step ltac:(apply index_put_ok; [done|cbn; lia]).
    step ltac:(reflexivity). step ltac:(by apply assert_data_run). step ltac:(by apply assert_text_run).
    step ltac:(reflexivity). eexists. split; [reflexivity|].
    unfold same_state, inserted. repeat split; intros []; reflexivity.
Qed.

(** Removing the old entry only when it differs is removing it always. *)
Lemma single_replace (kp kn : list Z) (same : bool) (t : tree) :
  (same = true -> kp = kn) ->
  <[kn := []]> (if same then t else delete kp t) = add_keys [kn] (remove_keys [kp] t).
Proof.
  intros Hs. cbn. destruct same; [|done]. rewrite Hs by done. by rewrite insert_delete_eq.
Qed.

Lemma insert_consistent e d n l s previous k :
  consistent e d -> node_ok n -> accepted (e_data e) data_entries n -> accepted (e_text e) text_entries n ->
  location_ok l -> store_read s l = Ok (HNode n) -> keeps (e_store e) s -> store_room s k -> snd <$> previous = l_nodes d !! n_address n ->
  consistent (inserted e n l s previous) (logical_apply d (OInsert n)).
Proof.
  intros Hc Hn Hd Ht Hlok Hread Hk0 Hroom Hprev. pose proof (marked_keeps s (fst <$> previous) k Hroom) as Hmark.
  assert (keeps (e_store e) (marked s (fst <$> previous))) as Hkeep by (by eapply keeps_trans).
  pose proof (c_nodes _ _ Hc) as Hkeyed.
  assert (match previous with Some (_, p) => n_address p = n_address n | None => True end) as Haddr.
  { destruct previous as [[l0 p]|]; [|done]. cbn in Hprev. by destruct (Hkeyed (n_address n) p). }
  destruct Hc as [C1 C2 C3 C4 C5 C6 C7 C8 C9 C10 C11 C12]. split; cbn [logical_apply l_nodes l_edges l_history]; try done.
  - intros a m [[<- <-]|[_ Ha]]%lookup_insert_Some; [done|by apply C1].
  - cbn [inserted e_trees e_store]. apply located_insert; [apply nodes_inj|by eapply located_keeps|done|by apply Hmark].
  - cbn [inserted e_trees]. pose proof (members_replace _ _ kind_separate _ _ n C1 Hn C5) as Hm. destruct previous as [[l0 p]|]; cbn in Hprev.
    + rewrite <- Hprev in Hm. rewrite single_replace; [|intros E; apply String.eqb_eq in E; by rewrite E].
      unfold kind_entries in Hm. by rewrite Haddr in Hm.
    + by rewrite <- Hprev in Hm.
  - cbn [inserted e_trees]. pose proof (members_replace _ _ owner_separate _ _ n C1 Hn C6) as Hm. destruct previous as [[l0 p]|]; cbn in Hprev.
    + rewrite <- Hprev in Hm. rewrite single_replace; [|intros E; apply String.eqb_eq in E; by rewrite E].
      unfold owner_entries in Hm. by rewrite Haddr in Hm.
    + by rewrite <- Hprev in Hm.
  - by eapply located_keeps.
  - by eapply located_keeps.
  - by eapply located_keeps.
  - pose proof (registered_replace (e_data e) data_entries (l_nodes d) n data_separate C1 Hn Hd C10) as Hr.
    rewrite <- Hprev in Hr. cbn [inserted e_data]. by destruct previous as [[l0 p]|].
  - pose proof (registered_replace (e_text e) text_entries (l_nodes d) n text_separate C1 Hn Ht C11) as Hr.
    rewrite <- Hprev in Hr. cbn [inserted e_text]. by destruct previous as [[l0 p]|].
  - intros name. destruct (C12 name) as [Cd Ct]. cbn [inserted e_data e_text e_data_files e_text_files]. unfold update_registry.
    split; rewrite lookup_fmap; intros E%fmap_None; [apply Cd|apply Ct]; destruct previous as [[l0 p]|]; try done;
      unfold update_registry in E; rewrite lookup_fmap in E; by apply fmap_None in E.
Qed.

Lemma insert_ok e d n :
  consistent e d -> node_ok n -> accepted (e_data e) data_entries n -> accepted (e_text e) text_entries n ->
  forall k, store_room (e_store e) (S k) -> store_fits (HNode n) ->
  exists e', apply_insert (N := N) n e = (e', Ok tt) /\ consistent e' (logical_apply d (OInsert n)) /\ store_room (e_store e') k.
Proof.
  intros Hc Hn Hd Ht k Hroom Hfit. destruct (store_append_ok _ (HNode n) _ Hroom Hfit) as (l & s & Happ & Hlok & Hread & Hkeep & Hroom'). pose proof (read_run e d (n_address n) Hc) as Hr.
  destruct (l_nodes d !! n_address n) as [p|] eqn:Ep.
  - destruct Hr as (l0 & Hloc & Hat).
    destruct (insert_run e n l s Hn Hd Ht Happ (Some (l0, p)) (conj Hloc Hat)) as (e' & Hrun & Hsame).
    exists e'. split; [done|]. split; [eapply consistent_same; [exact Hsame|]; by eapply insert_consistent|].
    destruct Hsame as [<- _]. by apply marked_room.
  - destruct (insert_run e n l s Hn Hd Ht Happ None Hr) as (e' & Hrun & Hsame).
    exists e'. split; [done|]. split; [eapply consistent_same; [exact Hsame|]; by eapply insert_consistent|].
    destruct Hsame as [<- _]. by apply marked_room.
Qed.

(** Deletion as one step. *)
Definition deleted (e : engine (St := St)) (n : Node) (l : record_location) : engine :=
  let address := as_bytes (n_address n) in
  MkEngine (store_mark_obsolete (e_store e) l)
    (fun j => match j with
              | Primary => delete address (e_trees e Primary)
              | Kind => remove_keys (kind_entries n) (e_trees e Kind)
              | Owner => remove_keys (owner_entries n) (e_trees e Owner)
              | j => e_trees e j
              end)
    (update_registry (fun d => remove_keys (data_entries d n)) (e_data e))
    (update_registry (fun d => remove_keys (text_entries d n)) (e_text e))
    (e_data_files e) (e_text_files e) (e_users e) (e_references e) (e_user_log e) (e_index_log e) (e_text_log e) (e_reference_log e)
    ((e_writes_total e + 1) mod 2 ^ 64)%Z.

Lemma files_update {D} (f : D -> tree -> tree) (reg : gmap string (D * tree)) name :
  update_registry f reg !! name = None -> reg !! name = None.
Proof. unfold update_registry. rewrite lookup_fmap. apply fmap_None. Qed.

Lemma delete_consistent e d n l k :
  consistent e d -> store_room (e_store e) k -> l_nodes d !! n_address n = Some n -> consistent (deleted e n l) (logical_apply d (ODelete (n_address n))).
Proof.
  intros Hc Hroom Hn. assert (keeps (e_store e) (store_mark_obsolete (e_store e) l)) as Hkeep by apply (marked_keeps _ (Some l) k Hroom).
  destruct Hc as [C1 C2 C3 C4 C5 C6 C7 C8 C9 C10 C11 C12]. split; cbn [logical_apply l_nodes l_edges l_history]; try done.
  - intros a m [_ Ha]%lookup_delete_Some. by apply C1.
  - cbn [deleted e_trees e_store]. apply located_delete; [apply nodes_inj|by eapply located_keeps].
  - by apply (members_delete _ _ kind_separate).
  - by apply (members_delete _ _ owner_separate).
  - by eapply located_keeps.
  - by eapply located_keeps.
  - by eapply located_keeps.
  - by apply (registered_delete _ _ _ _ _ data_separate).
  - by apply (registered_delete _ _ _ _ _ text_separate).
  - intros name. destruct (C12 name) as [Cd Ct]. split; intros E%files_update; auto.
Qed.

Lemma delete_ok e d a k :
  consistent e d -> store_room (e_store e) k ->
  exists e', apply_delete (N := N) a e = (e', Ok tt) /\ consistent e' (logical_apply d (ODelete a)) /\ store_room (e_store e') k.
Proof.
  intros Hc Hroom. pose proof (read_run e d a Hc) as Hr. unfold apply_delete. destruct (l_nodes d !! a) as [n|] eqn:En.
  - destruct Hr as (l & Hloc & Hat). destruct (c_nodes _ _ Hc a n En) as [<- _].
    step ltac:(exact Hloc).
    step ltac:(erewrite M_bind_ok by exact Hat; cbv beta; erewrite M_bind_ok by reflexivity; erewrite M_bind_ok by reflexivity;
      erewrite M_bind_ok by reflexivity; erewrite M_bind_ok by apply retract_data_run; erewrite M_bind_ok by apply retract_text_run; reflexivity).
    eexists. split; [reflexivity|]. split; [|by apply (marked_room _ (Some l))].
    eapply consistent_same; [|by eapply (delete_consistent e d n l)]. unfold same_state. repeat split; intros []; reflexivity.
  - step ltac:(exact Hr). step ltac:(reflexivity). eexists. split; [reflexivity|].
    assert (logical_apply d (ODelete a) = d) as ->.
    { destruct d. cbn in *. f_equal. by apply delete_id. }
    split; [|done]. eapply consistent_same; [|exact Hc]. unfold same_state. repeat split; intros []; reflexivity.
Qed.

(** ** Edges and archived states *)

Lemma edge_ok_spec i : edge_ok i ->
  (short (as_bytes (id_from i)) /\ short (as_bytes (id_to i)) /\ short (as_bytes (id_kind i))) /\
  legal_key (edge_out_of i) /\ legal_key (edge_in_of i).
Proof. apply edge_keys_admissible. Qed.

Lemma edge_out_inj i j : edge_ok i -> edge_ok j -> edge_out_of i = edge_out_of j -> i = j.
Proof.
  intros [(Hf & _ & Hk) _]%edge_ok_spec [(Hf' & _ & Hk') _]%edge_ok_spec E. unfold edge_out_of, edge_out_key in E.
  apply component_inj in E as [E1 E]; [|done|done]. apply component_inj in E as [E2 E3]; [|done|done].
  destruct i, j. cbn in *. f_equal; by apply as_bytes_inj.
Qed.

Lemma edge_in_inj i j : edge_ok i -> edge_ok j -> edge_in_of i = edge_in_of j -> i = j.
Proof.
  intros [(_ & Hf & Hk) _]%edge_ok_spec [(_ & Hf' & Hk') _]%edge_ok_spec E. unfold edge_in_of, edge_in_key in E.
  apply component_inj in E as [E1 E]; [|done|done]. apply component_inj in E as [E2 E3]; [|done|done].
  destruct i, j. cbn in *. f_equal; by apply as_bytes_inj.
Qed.

Lemma edges_out_inj e d i : consistent e d -> edge_ok i -> forall j, is_Some (l_edges d !! j) -> edge_out_of j = edge_out_of i -> j = i.
Proof. intros Hc Hi j [x Hx]. apply edge_out_inj; [|done]. by apply (c_edges _ _ Hc j x). Qed.
Lemma edges_in_inj e d i : consistent e d -> edge_ok i -> forall j, is_Some (l_edges d !! j) -> edge_in_of j = edge_in_of i -> j = i.
Proof. intros Hc Hi j [x Hx]. apply edge_in_inj; [|done]. by apply (c_edges _ _ Hc j x). Qed.

(** Marking the record an index entry names, if there is one. *)
Lemma obsolete_run {K V} `{Countable K} (key : K -> list Z) (record : V -> HeapRecord) (m : gmap K V) i x e :
  (forall y, is_Some (m !! y) -> key y = key x -> y = x) -> located key record m (e_trees e i) (e_store e) ->
  exists o, obsolete_previous i (key x) e = (set_store e (marked (e_store e) o), Ok tt).
Proof.
  intros Hinj Hl. pose proof (located_lookup _ _ _ _ _ x Hinj Hl) as Hx. unfold obsolete_previous, index_get. destruct (m !! x).
  - destruct Hx as (l & Hl' & Ht & _). step ltac:(unfold gets; by rewrite Ht).
    step ltac:(unfold lift; by rewrite location_decode_encode). exists (Some l). reflexivity.
  - step ltac:(unfold gets; by rewrite Hx). exists None. cbn [marked]. destruct e. reflexivity.
Qed.
End apply.
