(* ===== verification/EngineOps.v ===== *)
(** * Every operation, and the theorem of the engine

    Edges, archived states, the declarations of indexes with their backfill, and
    the statement for every operation and every admissible batch. *)

From Stdlib Require Import ZArith Lia Ascii String.
From stdpp Require Import base tactics list strings option gmap sorting.
From S2P Require Import Prelude Binary BTree Keys Json OrderKey Search Entities Wal Transaction Engine EngineRep EngineApply.

Section ops.
Context {St : Type} `{RecordStoreLaws St} {N : Type} `{SerdeJson N}.
Implicit Types e : engine (St := St).

(** ** Edges *)

Lemma edge_state_consistent e d s out inn edges n :
  consistent (N := N) e d -> keeps (e_store e) s ->
  (forall i x, edges !! i = Some x -> edge_id x = i /\ edge_ok i) ->
  located edge_out_of HEdge edges out s -> located edge_in_of HEdge edges inn s ->
  consistent (N := N)
    (MkEngine s (fun j => match j with EdgeOut => out | EdgeIn => inn | j => e_trees e j end) (e_data e) (e_text e)
       (e_data_files e) (e_text_files e) (e_users e) (e_references e) (e_user_log e) (e_index_log e) (e_text_log e)
       (e_reference_log e) n)
    (MkLogical (l_nodes d) edges (l_history d)).
Proof.
  intros [C1 C2 C3 C4 C5 C6 C7 C8 C9 C10 C11 C12] Hk He Ho Hi. split; try done; by eapply located_keeps.
Qed.

Lemma insert_edge_ok e d x k :
  consistent (N := N) e d -> store_room (e_store e) (S k) -> store_fits (HEdge x) -> edge_ok (edge_id x) ->
  exists e', apply_insert_edge x e = (e', Ok tt) /\ consistent (N := N) e' (logical_apply d (OInsertEdge x)) /\
    store_room (e_store e') k.
Proof.
  intros Hc Hroom Hfit Hok. destruct (edge_ok_spec _ Hok) as (_ & Hout & Hin). unfold apply_insert_edge.
  change (edge_out_key (as_bytes (e_from x)) (as_bytes (e_ekind x)) (as_bytes (e_to x))) with (edge_out_of (edge_id x)).
  change (edge_in_key (as_bytes (e_to x)) (as_bytes (e_ekind x)) (as_bytes (e_from x))) with (edge_in_of (edge_id x)).
  destruct (obsolete_run edge_out_of HEdge (l_edges d) EdgeOut (edge_id x) e (edges_out_inj e d _ Hc Hok) (c_edge_out _ _ Hc)) as [o Ho].
  step ltac:(exact Ho). set (e1 := set_store e _). destruct (store_append_ok (e_store e1) (HEdge x) k (marked_room _ _ _ Hroom) Hfit) as (l & s & Happ & Hl & Hr & Hk0 & Hroom').
  step ltac:(by apply append_run). step ltac:(apply index_put_ok; [done|apply location_value]).
  step ltac:(apply index_put_ok; [done|apply location_value]). eexists. split; [reflexivity|]. split; [|done].
  assert (keeps (e_store e) s) as Hk by (eapply keeps_trans; [by eapply marked_keeps|exact Hk0]).
  eapply consistent_same; [|eapply (edge_state_consistent e d s _ _ _ 0%Z); [exact Hc|exact Hk| | |]].
  - unfold same_state. repeat split; intros []; reflexivity.
  - intros i y [[<- <-]|[_ Hi]]%lookup_insert_Some; [done|by apply (c_edges _ _ Hc)].
  - apply located_insert; [by eapply edges_out_inj|eapply located_keeps; [exact Hk|apply (c_edge_out _ _ Hc)]|done|done].
  - apply located_insert; [by eapply edges_in_inj|eapply located_keeps; [exact Hk|apply (c_edge_in _ _ Hc)]|done|done].
Qed.

Lemma delete_edge_ok e d i k :
  consistent (N := N) e d -> store_room (e_store e) k -> edge_ok i ->
  exists e', apply_delete_edge i e = (e', Ok tt) /\ consistent (N := N) e' (logical_apply d (ODeleteEdge i)) /\
    store_room (e_store e') k.
Proof.
  intros Hc Hroom Hok. unfold apply_delete_edge. fold (edge_out_of i) (edge_in_of i).
  destruct (obsolete_run edge_out_of HEdge (l_edges d) EdgeOut i e (edges_out_inj e d _ Hc Hok) (c_edge_out _ _ Hc)) as [o Ho].
  step ltac:(exact Ho). step ltac:(reflexivity). step ltac:(reflexivity). eexists. split; [reflexivity|].
  split; [|by apply marked_room].
  pose proof (marked_keeps (e_store e) o k Hroom) as Hk.
  eapply consistent_same; [|eapply (edge_state_consistent e d (marked (e_store e) o) _ _ _ 0%Z); [exact Hc|exact Hk| | |]].
  - unfold same_state. repeat split; intros []; reflexivity.
  - intros j y [_ Hj]%lookup_delete_Some. by apply (c_edges _ _ Hc).
  - apply located_delete; [by eapply edges_out_inj|eapply located_keeps; [exact Hk|apply (c_edge_out _ _ Hc)]].
  - apply located_delete; [by eapply edges_in_inj|eapply located_keeps; [exact Hk|apply (c_edge_in _ _ Hc)]].
Qed.

(** ** Archived states *)

Lemma archives_inj e d x : consistent (N := N) e d -> short (as_bytes x.1) -> u64 x.2 ->
  forall y, is_Some (l_history d !! y) -> history_of y = history_of x -> y = x.
Proof.
  intros Hc Hs Hu y [h Hh] E. destruct (c_history _ _ Hc y h Hh) as (_ & Hs' & Hu'). unfold history_of, history_key in E.
  apply component_inj in E as [E1 E2]; [|done|done]. apply be_bytes_inj in E2; [|done|done]. apply as_bytes_inj in E1.
  destruct x, y. cbn in *. congruence.
Qed.

Lemma archive_ok e d h k :
  consistent (N := N) e d -> store_room (e_store e) (S k) -> store_fits (HHistory h) -> u64 (h_version h) -> short (as_bytes (h_address h)) ->
  legal_key (history_of (h_address h, h_version h)) ->
  exists e', apply_archive h e = (e', Ok tt) /\ consistent (N := N) e' (logical_apply d (OArchive h)) /\
    store_room (e_store e') k.
Proof.
  intros Hc Hroom Hfit Hu Hs Hl. unfold apply_archive. destruct (store_append_ok _ (HHistory h) _ Hroom Hfit) as (l & s & Happ & Hlok & Hread & Hk & Hroom').
  step ltac:(by apply append_run). set (x := (h_address h, h_version h)) in *.
  change (history_key (as_bytes (h_address h)) (h_version h)) with (history_of x).
  assert (located history_of HHistory (l_history d) (e_trees e History) s) as Hloc
    by (eapply located_keeps; [exact Hk|apply (c_archive _ _ Hc)]).
  destruct (obsolete_run history_of HHistory (l_history d) History x (set_store e s) (archives_inj e d x Hc Hs Hu) Hloc) as [o Ho].
  step ltac:(exact Ho). rewrite index_put_ok; [|done|apply location_value]. eexists. split; [reflexivity|]. split; [|by apply marked_room].
  pose proof (marked_keeps s o k Hroom') as Hm. assert (keeps (e_store e) (marked s o)) as Hk' by (by eapply keeps_trans).
  assert (located history_of HHistory (<[x := h]> (l_history d)) (<[history_of x := location_encode l]> (e_trees e History)) (marked s o)) as Hloc'.
  { apply located_insert; [by eapply archives_inj|by eapply located_keeps; [apply Hm|]|done|by apply Hm]. }
  destruct Hc as [C1 C2 C3 C4 C5 C6 C7 C8 C9 C10 C11 C12].
  split; cbn [logical_apply l_nodes l_edges l_history]; try done; try by eapply located_keeps.
  intros y h' [[<- <-]|[_ Hy]]%lookup_insert_Some; [done|by apply C3].
Qed.

(** ** Backfill *)

(** The keys of several nodes. *)
Definition add_all (ent : Node -> list (list Z)) (ns : list Node) (t : tree) : tree := foldl (fun t n => add_keys (ent n) t) t ns.

Lemma lookup_add_all ent ns t k v :
  add_all ent ns t !! k = Some v <->
  (v = [] /\ exists n, n ∈ ns /\ k ∈ ent n) \/ ((forall n, n ∈ ns -> k ∉ ent n) /\ t !! k = Some v).
Proof.
  revert t. induction ns as [|n ns IH]; intros t; cbn [add_all foldl].
  - split; [right; split; [by intros n ?%not_elem_of_nil|done]|]. by intros [[_ (n & ?%not_elem_of_nil & _)]|[_ ?]].
  - fold (add_all ent ns (add_keys (ent n) t)). rewrite IH, lookup_add_keys. split.
    + intros [[-> (m & Hm & Hk)]|[Hn [[Hk ->]|[Hk Ht]]]].
      * left. split; [done|]. exists m. split; [by right|done].
      * left. split; [done|]. exists n. split; [left|done].
      * right. split; [|done]. intros m [->|Hm]%elem_of_cons; [done|by apply Hn].
    + intros [[-> (m & [->|Hm]%elem_of_cons & Hk)]|[Hn Ht]].
      * destruct (decide (Exists (fun m => k ∈ ent m) ns)) as [Hex|Hno]; [left; by apply Exists_exists in Hex|]. right.
        split; [|by left]. intros m Hm Hk'. apply Hno, Exists_exists. eauto.
      * left. eauto.
      * right. split; [intros m Hm; apply Hn; by right|]. right. split; [apply Hn; left|done].
Qed.

Section backfill.
Context {D : Type} (r : registry (St := St) D) `{!RegistryLaws r} (name : string) (ent : Node -> list (list Z)) (visit : Node -> M (St := St) unit).

(** The nodes a scan of keys meets. *)
Definition scanned (nodes : node_map) (prefix : list Z) (keys : list (list Z * list Z)) : list Node :=
  omap (fun kv => nodes !! key_address kv.1 prefix) keys.

Lemma visit_kind_run nodes prefix keys e :
  located as_bytes HNode nodes (e_trees e Primary) (e_store e) -> is_Some (reg_get r e !! name) ->
  (forall n e', n ∈ scanned nodes prefix keys -> is_Some (reg_get r e' !! name) ->
     visit n e' = (reg_set r e' (alter (fun i => (i.1, add_keys (ent n) i.2)) name (reg_get r e')), Ok tt)) ->
  visit_kind keys prefix visit e =
  (reg_set r e (alter (fun i => (i.1, add_all ent (scanned nodes prefix keys) i.2)) name (reg_get r e)), Ok tt).
Proof.
  revert e. induction keys as [|[k v] keys IH]; intros e Hloc Hs Hvisit; cbn [visit_kind scanned omap list_omap].
  - unfold mret, m_ret. f_equal. rewrite alter_id; [by rewrite reg_set_get|]. intros [d t] _. done.
  - step ltac:(by apply read_node_run). cbn [fst]. unfold scanned in Hvisit. cbn [omap list_omap fst] in Hvisit.
    destruct (nodes !! key_address k prefix) as [n|].
    + erewrite M_bind_ok by (apply Hvisit; [left|done]). rewrite IH; rewrite ?reg_set_trees, ?reg_set_store, ?reg_get_set, ?reg_set_set.
      * f_equal. f_equal. by rewrite alter_alter_eq.
      * done.
      * destruct Hs as [[d t] Hd]. rewrite lookup_alter_eq, Hd. eauto.
      * intros m e' Hm. apply Hvisit. by right.
    + erewrite M_bind_ok by reflexivity. by apply IH.
Qed.
End backfill.

Lemma elem_tree_range t prefix k v : (k, v) ∈ tree_range t prefix <-> t !! k = Some v /\ starts_with k prefix = true.
Proof.
  unfold tree_range. rewrite merge_sort_Permutation, list_elem_of_filter, elem_of_map_to_list. cbn [fst]. tauto.
Qed.

(** The scan of a kind meets exactly its nodes. *)
Lemma scanned_kind e d kind n :
  consistent (N := N) e d -> short (as_bytes kind) ->
  n ∈ scanned (l_nodes d) (kind_prefix (as_bytes kind)) (tree_range (e_trees e Kind) (kind_prefix (as_bytes kind))) <->
  l_nodes d !! n_address n = Some n /\ n_kind n = kind.
Proof.
  intros Hc Hs.
  assert (forall m, node_ok m -> key_address (kind_key (as_bytes kind) (as_bytes (n_address m))) (kind_prefix (as_bytes kind)) = n_address m) as Haddr.
  { intros m Hm. unfold key_address, kind_key, kind_prefix. rewrite length_app, Nat.min_l by lia. by rewrite drop_app_length, string_of_as_bytes. }
  unfold scanned. rewrite list_elem_of_omap. split.
  - intros ([k v] & Hk & Hn). apply elem_tree_range in Hk as [Hk Hp]. apply (c_kind _ _ Hc) in Hk as [_ (a & m & Ha & Hin)].
    destruct (c_nodes _ _ Hc a m Ha) as [<- Hm]. apply list_elem_of_singleton in Hin as ->.
    destruct (node_ok_spec m Hm) as ((_ & Hkm & _) & _). unfold kind_key, kind_prefix in Hp. apply component_prefix in Hp; [|done|done].
    apply as_bytes_inj in Hp. cbn [fst] in Hn. rewrite Hp, Haddr in Hn by done. rewrite Ha in Hn. injection Hn as <-. done.
  - intros [Ha Hk]. destruct (c_nodes _ _ Hc _ n Ha) as [_ Hn]. exists (kind_key (as_bytes kind) (as_bytes (n_address n)), []).
    cbn [fst]. rewrite Haddr by done. split; [|done]. apply elem_tree_range. split.
    + apply (c_kind _ _ Hc). split; [done|]. exists (n_address n), n. split; [done|]. rewrite <- Hk. left.
    + unfold kind_key, kind_prefix. by apply component_prefix.
Qed.

(** A tree that lists only live keys lists all of them after a backfill. *)
Lemma backfill_members (entries ent : Node -> list (list Z)) nodes ns t :
  (forall k v, t !! k = Some v -> v = [] /\ exists a n, nodes !! a = Some n /\ k ∈ entries n) ->
  (forall n k, k ∈ entries n -> k ∈ ent n) ->
  (forall n, n ∈ ns -> (exists a, nodes !! a = Some n) /\ entries n = ent n) ->
  (forall a n k, nodes !! a = Some n -> k ∈ entries n -> n ∈ ns) ->
  members entries nodes (add_all ent ns t).
Proof.
  intros Hold Hent Hns Hall k v. rewrite lookup_add_all. split.
  - intros [[-> (n & Hn & Hk)]|[_ Ht]]; [|by apply Hold]. destruct (Hns n Hn) as [[a Ha] E]. split; [done|]. exists a, n. by rewrite E.
  - intros [-> (a & n & Ha & Hk)]. left. split; [done|]. exists n. split; [by apply (Hall a n k)|by apply Hent].
Qed.

(** The tree a declaration starts from: its own, or an empty file. *)
Lemma opened_sound {D} `{EqDecision D} (reg : gmap string (D * tree)) (files : gmap string tree) entries nodes name d :
  registered reg entries nodes -> (reg !! name = None -> files !! name = None) ->
  (forall d' t, reg !! name = Some (d', t) -> d' = d) ->
  let t := match reg !! name with
           | Some (d', t) => if bool_decide (d' = d) then t else default ∅ (files !! name)
           | None => default ∅ (files !! name)
           end in
  forall k v, t !! k = Some v -> v = [] /\ exists a n, nodes !! a = Some n /\ k ∈ entries d n.
Proof.
  intros Hreg Hfiles Hsame t k v. subst t. destruct (reg !! name) as [[d' t]|] eqn:E.
  - rewrite (Hsame d' t eq_refl). rewrite bool_decide_eq_true_2 by done. intros Ht. rewrite (Hsame d' t eq_refl) in E.
    by apply (proj1 (Hreg name d t E)) in Ht.
  - rewrite Hfiles by done. cbn. by rewrite lookup_empty.
Qed.

(** One index of a registry replaced. *)
Lemma registered_insert {D} (reg : gmap string (D * tree)) entries nodes name d t :
  registered reg entries nodes -> members (entries d) nodes t -> (forall a n, nodes !! a = Some n -> Forall legal_key (entries d n)) ->
  registered (<[name := (d, t)]> reg) entries nodes.
Proof.
  intros Hreg Hm Hl name' d' t' [[<- [= <- <-]]|[_ Hn]]%lookup_insert_Some; [done|by apply (Hreg name')].
Qed.

Lemma create_index_ok e d def :
  consistent (N := N) e d -> short (as_bytes (def_kind def)) ->
  (forall def' t, e_data e !! def_name def = Some (def', t) -> def' = def) ->
  (forall a n, l_nodes d !! a = Some n -> Forall legal_key (data_entries (N := N) def n)) ->
  exists e', apply_operation (N := N) (OCreateIndex def) e = (e', Ok tt) /\ consistent (N := N) e' d /\ e_store e' = e_store e.
Proof.
  intros Hc Hs Hsame Hlegal. cbn [apply_operation]. step ltac:(reflexivity). step ltac:(reflexivity).
  pose proof (opened_sound (e_data e) (e_data_files e) data_entries (l_nodes d) (def_name def) def (c_data _ _ Hc)
                (proj1 (c_files _ _ Hc (def_name def))) Hsame) as Hold.
  set (t := match e_data e !! def_name def with Some _ => _ | None => _ end) in Hold.
  set (e2 := set_data _ _). assert (e_data e2 = <[def_name def := (def, t)]> (e_data e)) as Ed by reflexivity.
  unfold backfill_index. step ltac:(unfold gets; by rewrite Ed, lookup_insert_eq). unfold scan_kind. step ltac:(reflexivity).
  assert (forall n, n ∈ scanned (l_nodes d) (kind_prefix (as_bytes (def_kind def)))
                        (tree_range (e_trees e2 Kind) (kind_prefix (as_bytes (def_kind def)))) <->
                    l_nodes d !! n_address n = Some n /\ n_kind n = def_kind def) as Hscan by (intros n; exact (scanned_kind e d _ n Hc Hs)).
  rewrite (visit_kind_run data_registry (def_name def) (fun n => [node_data_key (N := N) n (def_field def)]) _ (l_nodes d)).
  - eexists. split; [reflexivity|]. cbn [data_registry reg_set reg_get]. rewrite Ed.
    set (ns := scanned _ _ _) in *.
    assert (alter (fun i => (i.1, add_all (fun n => [node_data_key (N := N) n (def_field def)]) ns i.2)) (def_name def) (<[def_name def := (def, t)]> (e_data e))
            = <[def_name def := (def, add_all (fun n => [node_data_key (N := N) n (def_field def)]) ns t)]> (e_data e)) as ->.
    { apply map_eq. intros x. destruct (decide (def_name def = x)) as [<-|]; [by rewrite lookup_alter_eq, !lookup_insert_eq|].
      by rewrite lookup_alter_ne, !lookup_insert_ne. }
    split; [|done]. destruct Hc as [C1 C2 C3 C4 C5 C6 C7 C8 C9 C10 C11 C12]. split; try done.
    + apply registered_insert; [done| |done]. apply backfill_members; [exact Hold| | |].
      * intros n k. unfold data_entries. destruct (String.eqb _ _); [done|]. by intros ?%not_elem_of_nil.
      * intros n [Hn Hk]%Hscan. split; [eauto|]. unfold data_entries. by rewrite Hk, String.eqb_refl.
      * intros a n k Ha Hk. destruct (C1 a n Ha) as [<- _]. apply Hscan. split; [done|]. unfold data_entries in Hk.
        destruct (String.eqb_spec (def_kind def) (n_kind n)); [done|by apply not_elem_of_nil in Hk].
    + intros name. destruct (C12 name) as [Cd Ct]. split; [|done]. intros E. apply Cd. cbn in E.
      by apply lookup_insert_None in E as [? _].
  - apply (c_primary _ _ Hc).
  - cbn [data_registry reg_get]. rewrite Ed, lookup_insert_eq. eauto.
  - intros n e' Hn Hs'. rewrite put_one; [done|done|]. apply Hscan in Hn as [Hn Hk]. specialize (Hlegal _ n Hn).
    unfold data_entries in Hlegal. rewrite Hk, String.eqb_refl in Hlegal. by apply Forall_inv in Hlegal.
Qed.

Lemma create_text_index_ok e d def :
  consistent (N := N) e d -> short (as_bytes (t_kind def)) ->
  (forall def' t, e_text e !! t_name def = Some (def', t) -> def' = def) ->
  (forall a n, l_nodes d !! a = Some n -> Forall legal_key (text_entries (N := N) def n)) ->
  exists e', apply_operation (N := N) (OCreateTextIndex def) e = (e', Ok tt) /\ consistent (N := N) e' d /\ e_store e' = e_store e.
Proof.
  intros Hc Hs Hsame Hlegal. cbn [apply_operation]. step ltac:(reflexivity). step ltac:(reflexivity).
  pose proof (opened_sound (e_text e) (e_text_files e) text_entries (l_nodes d) (t_name def) def (c_text _ _ Hc)
                (proj2 (c_files _ _ Hc (t_name def))) Hsame) as Hold.
  set (t := match e_text e !! t_name def with Some _ => _ | None => _ end) in Hold.
  set (e2 := set_text _ _). assert (e_text e2 = <[t_name def := (def, t)]> (e_text e)) as Ed by reflexivity.
  unfold backfill_text_index. step ltac:(unfold gets; by rewrite Ed, lookup_insert_eq). unfold scan_kind. step ltac:(reflexivity).
  assert (forall n, n ∈ scanned (l_nodes d) (kind_prefix (as_bytes (t_kind def)))
                        (tree_range (e_trees e2 Kind) (kind_prefix (as_bytes (t_kind def)))) <->
                    l_nodes d !! n_address n = Some n /\ n_kind n = t_kind def) as Hscan by (intros n; exact (scanned_kind e d _ n Hc Hs)).
  rewrite (visit_kind_run text_registry (t_name def) (fun n => node_text_keys (N := N) n def) _ (l_nodes d)).
  - eexists. split; [reflexivity|]. cbn [text_registry reg_set reg_get]. rewrite Ed.
    set (ns := scanned _ _ _) in *.
    assert (alter (fun i => (i.1, add_all (fun n => node_text_keys (N := N) n def) ns i.2)) (t_name def) (<[t_name def := (def, t)]> (e_text e))
            = <[t_name def := (def, add_all (fun n => node_text_keys (N := N) n def) ns t)]> (e_text e)) as ->.
    { apply map_eq. intros x. destruct (decide (t_name def = x)) as [<-|]; [by rewrite lookup_alter_eq, !lookup_insert_eq|].
      by rewrite lookup_alter_ne, !lookup_insert_ne. }
    split; [|done]. destruct Hc as [C1 C2 C3 C4 C5 C6 C7 C8 C9 C10 C11 C12]. split; try done.
    + apply registered_insert; [done| |done]. apply backfill_members; [exact Hold| | |].
      * intros n k. unfold text_entries. destruct (String.eqb _ _); [done|]. by intros ?%not_elem_of_nil.
      * intros n [Hn Hk]%Hscan. split; [eauto|]. unfold text_entries. by rewrite Hk, String.eqb_refl.
      * intros a n k Ha Hk. destruct (C1 a n Ha) as [<- _]. apply Hscan. split; [done|]. unfold text_entries in Hk.
        destruct (String.eqb_spec (t_kind def) (n_kind n)); [done|by apply not_elem_of_nil in Hk].
    + intros name. destruct (C12 name) as [Cd Ct]. split; [done|]. intros E. apply Ct. cbn in E.
      by apply lookup_insert_None in E as [? _].
  - apply (c_primary _ _ Hc).
  - cbn [text_registry reg_get]. rewrite Ed, lookup_insert_eq. eauto.
  - intros n e' Hn Hs'. cbv beta. rewrite put_loop; [done|apply _|done|]. apply Hscan in Hn as [Hn Hk]. specialize (Hlegal _ n Hn).
    unfold text_entries in Hlegal. by rewrite Hk, String.eqb_refl in Hlegal.
Qed.
End ops.
