(* ===== verification/EngineTheorems.v ===== *)
(** * What the engine promises

    Admissibility, the step theorem for every operation, batches, replay, and
    what a crash in the middle of publishing the indexes leaves behind. *)

From Stdlib Require Import ZArith Lia Ascii String.
From stdpp Require Import base tactics list strings option gmap sorting.
From S2P Require Import Prelude Binary BTree Keys Json OrderKey Search Entities Wal Recovery Transaction Engine EngineRep EngineApply EngineOps.

Section theorems.
Context {St : Type} `{RecordStoreLaws St} {N : Type} `{SerdeJson N}.
Implicit Types e : engine (St := St).

(** ** Admission *)

Lemma elem_data_all e d : d ∈ data_all e <-> exists name t, e_data e !! name = Some (d, t).
Proof.
  unfold data_all. rewrite merge_sort_Permutation. split.
  - intros ([name [d' t]] & -> & Hin%elem_of_map_to_list)%list_elem_of_fmap. eauto.
  - intros (name & t & Hn). apply list_elem_of_fmap. exists (name, (d, t)). split; [done|]. by apply elem_of_map_to_list.
Qed.

Lemma elem_text_all e d : d ∈ text_all e <-> exists name t, e_text e !! name = Some (d, t).
Proof.
  unfold text_all. rewrite merge_sort_Permutation. split.
  - intros ([name [d' t]] & -> & Hin%elem_of_map_to_list)%list_elem_of_fmap. eauto.
  - intros (name & t & Hn). apply list_elem_of_fmap. exists (name, (d, t)). split; [done|]. by apply elem_of_map_to_list.
Qed.

Lemma data_legal (d : IndexDef) n :
  check_data_keys (N := N) [d] (as_bytes (n_address n)) (n_data n) = Ok tt -> legal_key (node_data_key (N := N) n (def_field d)).
Proof. intros Hc%data_keys_admissible. by apply Forall_inv in Hc as [_ ?]. Qed.

Lemma text_legal (ds : list TextIndexDef) d n :
  check_text_keys (N := N) ds (as_bytes (n_address n)) (n_data n) = Ok tt -> d ∈ ds -> Forall legal_key (node_text_keys (N := N) n d).
Proof.
  intros Hc Hd. apply Forall_forall. intros k Hk. unfold node_text_keys in Hk.
  destruct (indexed_text (from_str (n_data n)) (t_field d)) as [s|] eqn:E; [|by apply not_elem_of_nil in Hk].
  apply list_elem_of_fmap in Hk as (g & -> & Hg). by destruct (text_keys_admissible ds _ _ d s g Hc Hd E Hg).
Qed.

Lemma validated_insert e n :
  operation_validate (N := N) (declared_indexes e) (OInsert n) = Ok tt ->
  node_ok n /\ accepted (e_data e) (data_entries (N := N)) n /\ accepted (e_text e) (text_entries (N := N)) n.
Proof.
  cbn [operation_validate]. rewrite !check_bind. intros (Hn & Hd & Ht). split; [done|]. split.
  - intros name d t Hname. unfold data_entries. destruct (String.eqb_spec (def_kind d) (n_kind n)) as [Hk|]; [|constructor].
    apply Forall_cons_2; [|apply Forall_nil_2]. apply data_keys_admissible in Hd. rewrite Forall_forall in Hd.
    refine (proj2 (Hd d _)). unfold data_for. apply list_elem_of_filter. split; [by apply String.eqb_eq|].
    apply elem_data_all. eauto.
  - intros name d t Hname. unfold text_entries. destruct (String.eqb_spec (t_kind d) (n_kind n)) as [Hk|]; [|constructor].
    eapply text_legal; [exact Ht|]. unfold text_for. apply list_elem_of_filter. split; [by apply String.eqb_eq|].
    apply elem_text_all. eauto.
Qed.

Lemma kind_nodes_run e d kind :
  consistent (N := N) e d ->
  kind_nodes kind e = (e, Ok (scanned (l_nodes d) (kind_prefix (as_bytes kind)) (tree_range (e_trees e Kind) (kind_prefix (as_bytes kind))))).
Proof.
  intros Hc. unfold kind_nodes. step ltac:(reflexivity). generalize (tree_range (e_trees e Kind) (kind_prefix (as_bytes kind))) as keys.
  induction keys as [|[k v] keys IH]; cbn [collect_kind scanned omap list_omap]; [done|].
  step ltac:(apply read_node_run, Hc). step ltac:(exact IH). cbn [fst]. by destruct (l_nodes d !! key_address k _).
Qed.

Lemma backfill_legal d ns seen n : backfill_check (N := N) d ns seen = Ok tt -> n ∈ ns -> legal_key (node_data_key (N := N) n (def_field d)).
Proof.
  revert seen. induction ns as [|m ns IH]; intros seen; [by intros _ ?%not_elem_of_nil|]. cbn [backfill_check].
  rewrite check_bind. intros [Hm Hc] [->|Hin]%elem_of_cons; [by apply data_legal|]. destruct (def_unique d); [|by eapply IH].
  destruct (seen !! _); [done|by eapply IH].
Qed.

Lemma text_backfill_legal d ns n : text_backfill_check (N := N) d ns = Ok tt -> n ∈ ns -> Forall legal_key (node_text_keys (N := N) n d).
Proof.
  induction ns as [|m ns IH]; [by intros _ ?%not_elem_of_nil|]. cbn [text_backfill_check].
  rewrite check_bind. intros [Hm Hc] [->|Hin]%elem_of_cons; [|by apply IH]. eapply text_legal; [exact Hm|left].
Qed.

(** What a caller has established before an operation is applied: it validated against the declared
    indexes, and a declaration passed its own checks or repeats one that exists. *)
Definition admissible (e : engine (St := St)) (op : Operation) : Prop :=
  operation_validate (N := N) (declared_indexes e) op = Ok tt /\
  match op with
  | OArchive h => u64 (h_version h) /\ store_fits (HHistory h)
  | OInsert n => store_fits (HNode n)
  | OInsertEdge x => store_fits (HEdge x)
  | OCreateIndex d => create_index (N := N) d e = (e, Ok (Ok (Some op))) \/ exists t, e_data e !! def_name d = Some (d, t)
  | OCreateTextIndex d => create_text_index (N := N) d e = (e, Ok (Ok (Some op))) \/ exists t, e_text e !! t_name d = Some (d, t)
  | _ => True
  end.

Lemma index_kind_short def : index_def_validate def = Ok tt -> short (as_bytes (def_kind def)).
Proof.
  unfold index_def_validate. destruct (_ || _); [done|]. destruct (negb _); [done|]. do 2 (destruct (_ =? 0); [done|]).
  intros [Hv _]%check_bind. by apply check_component_short.
Qed.

Lemma text_kind_short def : text_def_validate def = Ok tt -> short (as_bytes (t_kind def)).
Proof.
  unfold text_def_validate. destruct (_ || _); [done|]. destruct (negb _); [done|]. do 2 (destruct (_ =? 0); [done|]).
  intros [Hv _]%check_bind. by apply check_component_short.
Qed.

Lemma create_index_accepts e d def :
  consistent (N := N) e d -> index_def_validate def = Ok tt ->
  create_index (N := N) def e = (e, Ok (Ok (Some (OCreateIndex def)))) \/ (exists t, e_data e !! def_name def = Some (def, t)) ->
  (forall def' t, e_data e !! def_name def = Some (def', t) -> def' = def) /\
  (forall a n, l_nodes d !! a = Some n -> Forall legal_key (data_entries (N := N) def n)).
Proof.
  intros Hc Hv [E|[t Ht]].
  - unfold create_index in E. erewrite M_bind_ok in E by reflexivity. cbv beta in E. rewrite Hv in E.
    destruct (e_data e !! def_name def) as [[def' t]|]; [by destruct (bool_decide _)|]. split; [done|].
    destruct (bool_decide _); [done|]. destruct (bool_decide _); [done|]. unfold check_backfill_admissible in E.
    erewrite M_bind_ok in E by (erewrite M_bind_ok by (by apply kind_nodes_run); reflexivity).
    destruct (backfill_check def _ ∅) as [[]|] eqn:Eb; [|done]. intros a n Ha. unfold data_entries.
    destruct (String.eqb_spec (def_kind def) (n_kind n)) as [Hk|]; [|constructor]. apply Forall_cons_2; [|apply Forall_nil_2].
    eapply backfill_legal; [exact Eb|]. destruct (c_nodes _ _ Hc a n Ha) as [<- _]. apply (scanned_kind e d); [done| |done].
    by apply index_kind_short.
  - split; [intros def' t' E; congruence|]. by apply (c_data _ _ Hc (def_name def) def t).
Qed.

Lemma create_text_accepts e d def :
  consistent (N := N) e d -> text_def_validate def = Ok tt ->
  create_text_index (N := N) def e = (e, Ok (Ok (Some (OCreateTextIndex def)))) \/ (exists t, e_text e !! t_name def = Some (def, t)) ->
  (forall def' t, e_text e !! t_name def = Some (def', t) -> def' = def) /\
  (forall a n, l_nodes d !! a = Some n -> Forall legal_key (text_entries (N := N) def n)).
Proof.
  intros Hc Hv [E|[t Ht]].
  - unfold create_text_index in E. erewrite M_bind_ok in E by reflexivity. cbv beta in E. rewrite Hv in E.
    destruct (e_text e !! t_name def) as [[def' t]|]; [by destruct (bool_decide _)|]. split; [done|].
    destruct (bool_decide _); [done|]. destruct (bool_decide _); [done|]. unfold check_text_backfill_admissible in E.
    erewrite M_bind_ok in E by (erewrite M_bind_ok by (by apply kind_nodes_run); reflexivity).
    destruct (text_backfill_check def _) as [[]|] eqn:Eb; [|done]. intros a n Ha. unfold text_entries.
    destruct (String.eqb_spec (t_kind def) (n_kind n)) as [Hk|]; [|constructor].
    eapply text_backfill_legal; [exact Eb|]. destruct (c_nodes _ _ Hc a n Ha) as [<- _]. apply (scanned_kind e d); [done| |done].
    by apply text_kind_short.
  - split; [intros def' t' E; congruence|]. by apply (c_text _ _ Hc (t_name def) def t).
Qed.

Lemma validated_archive e h :
  operation_validate (N := N) (declared_indexes e) (OArchive h) = Ok tt ->
  short (as_bytes (h_address h)) /\ legal_key (history_of (h_address h, h_version h)).
Proof.
  cbn [operation_validate]. unfold check_history_keys. rewrite !check_bind, check_component_short, check_key_legal.
  intros (Hs & Hl & _). split; [done|]. unfold legal_key, history_of. cbn [fst snd]. by rewrite length_history_key in *.
Qed.

(** Dropping an index. *)
Lemma registered_drop {D} (reg : gmap string (D * tree)) entries nodes name :
  registered reg entries nodes -> registered (delete name reg) entries nodes.
Proof. intros Hreg x d t [_ Hx]%lookup_delete_Some. by apply (Hreg x). Qed.

Lemma drop_index_ok e d name :
  consistent (N := N) e d ->
  exists e', apply_operation (N := N) (ODropIndex name) e = (e', Ok tt) /\ consistent (N := N) e' d /\ e_store e' = e_store e.
Proof.
  intros [C1 C2 C3 C4 C5 C6 C7 C8 C9 C10 C11 C12]. eexists. split; [reflexivity|]. split; [|done]. split; try done.
  - by apply registered_drop.
  - intros x. destruct (C12 x) as [Cd Ct]. split; [|done]. cbn. rewrite !lookup_delete_None.
    destruct (decide (name = x)); [by left|]. intros [?|?]; [by left|right; auto].
Qed.

Lemma drop_text_index_ok e d name :
  consistent (N := N) e d ->
  exists e', apply_operation (N := N) (ODropTextIndex name) e = (e', Ok tt) /\ consistent (N := N) e' d /\ e_store e' = e_store e.
Proof.
  intros [C1 C2 C3 C4 C5 C6 C7 C8 C9 C10 C11 C12]. eexists. split; [reflexivity|]. split; [|done]. split; try done.
  - by apply registered_drop.
  - intros x. destruct (C12 x) as [Cd Ct]. split; [done|]. cbn. rewrite !lookup_delete_None.
    destruct (decide (name = x)); [by left|]. intros [?|?]; [by left|right; auto].
Qed.

(** Every operation, one step. *)
Lemma operation_step e d op k :
  consistent (N := N) e d -> store_room (e_store e) (S k) -> admissible e op ->
  exists e', apply_operation (N := N) op e = (e', Ok tt) /\ consistent (N := N) e' (logical_apply d op) /\ store_room (e_store e') k.
Proof.
  intros Hc Hroom [Hv Hop]. pose proof (store_room_less _ _ Hroom) as Hroom'.
  assert (forall op', (exists e', apply_operation (N := N) op' e = (e', Ok tt) /\ consistent (N := N) e' (logical_apply d op') /\ e_store e' = e_store e) ->
    exists e', apply_operation (N := N) op' e = (e', Ok tt) /\ consistent (N := N) e' (logical_apply d op') /\ store_room (e_store e') k) as Hsame.
  { intros op' (e' & Hr & Hc' & Es). exists e'. by rewrite Es. }
  assert (forall op' e', apply_operation (N := N) op' e = (e', Ok tt) -> same_state e e' -> logical_apply d op' = d ->
    exists e', apply_operation (N := N) op' e = (e', Ok tt) /\ consistent (N := N) e' (logical_apply d op') /\ store_room (e_store e') k) as Hinert.
  { intros op' e' Hr Hs ->. exists e'. split; [done|]. split; [by eapply consistent_same|]. by destruct Hs as [<- _]. }
  destruct op as [h|n|a|x|i|u|th|def|name|rd|name|td|name].
  - destruct (validated_archive e h Hv) as [Hs Hl]. destruct Hop. by apply archive_ok.
  - destruct (validated_insert e n Hv) as (Hn & Hd & Ht). by apply insert_ok.
  - by apply delete_ok.
  - by apply insert_edge_ok.
  - by apply delete_edge_ok.
  - by eapply Hinert.
  - by eapply Hinert.
  - apply Hsame. destruct (create_index_accepts e d def Hc Hv Hop) as [Hd Hl]. apply create_index_ok; [done| |done|done].
    by apply index_kind_short.
  - apply Hsame. by apply drop_index_ok.
  - by eapply Hinert.
  - by eapply Hinert.
  - apply Hsame. destruct (create_text_accepts e d td Hc Hv Hop) as [Hd Hl]. apply create_text_index_ok; [done| |done|done].
    by apply text_kind_short.
  - apply Hsame. by apply drop_text_index_ok.
Qed.

(** ** Batches *)

(** The declared definitions, which only a declaration changes. *)
Definition defs (e : engine (St := St)) : gmap string IndexDef * gmap string TextIndexDef := (fst <$> e_data e, fst <$> e_text e).

Definition is_data_operation (op : Operation) : bool :=
  match op with
  | OArchive _ | OInsert _ | ODelete _ | OInsertEdge _ | ODeleteEdge _ | OInsertUser _ | ORevokeUser _ => true
  | _ => false
  end.

Definition keeps_defs {A} (m : M (St := St) A) : Prop := forall e, defs (fst (m e)) = defs e.

Lemma keeps_defs_bind {A B} (m : M (St := St) A) (f : A -> M B) : keeps_defs m -> (forall a, keeps_defs (f a)) -> keeps_defs (m ≫= f).
Proof.
  intros Hm Hf e. unfold mbind, m_bind. specialize (Hm e). destruct (m e) as [e' [a|x]]; cbn [fst] in *; [|done]. by rewrite Hf.
Qed.

Lemma keeps_defs_each {A} (l : list A) (f : A -> M (St := St) unit) : (forall x, keeps_defs (f x)) -> keeps_defs (for_each l f).
Proof. intros Hf. induction l as [|x l IH]; cbn [for_each]; [by intros e|]. by apply keeps_defs_bind. Qed.

Lemma keeps_defs_same {A} (m : M (St := St) A) :
  (forall e, e_data (fst (m e)) = e_data e /\ e_text (fst (m e)) = e_text e) -> keeps_defs m.
Proof. intros Hm e. unfold defs. by destruct (Hm e) as [-> ->]. Qed.

Lemma keeps_defs_data_put name k : keeps_defs (declared_put data_registry name k).
Proof.
  intros e. unfold declared_put, data_registry, reg_get, reg_set. destruct (e_data e !! name) as [[d t]|] eqn:E; [|done].
  destruct (tree_put t k []) as [t'|]; [|done]. unfold defs. cbn. f_equal. rewrite fmap_insert. apply insert_id.
  by rewrite lookup_fmap, E.
Qed.

Lemma keeps_defs_text_put name k : keeps_defs (declared_put text_registry name k).
Proof.
  intros e. unfold declared_put, text_registry, reg_get, reg_set. destruct (e_text e !! name) as [[d t]|] eqn:E; [|done].
  destruct (tree_put t k []) as [t'|]; [|done]. unfold defs. cbn. f_equal. rewrite fmap_insert. apply insert_id.
  by rewrite lookup_fmap, E.
Qed.

Lemma alter_defs {D : Type} (f : tree -> tree) (name : string) (reg : gmap string (D * tree)) :
  fst <$> (alter (fun i => (i.1, f i.2)) name reg) = fst <$> reg.
Proof.
  apply map_eq. intros x. rewrite !lookup_fmap. destruct (decide (name = x)) as [->|].
  - rewrite lookup_alter_eq. by destruct (reg !! x).
  - by rewrite lookup_alter_ne.
Qed.

Lemma keeps_defs_data_remove name k : keeps_defs (declared_remove data_registry name k).
Proof. intros e. unfold defs. cbn. by rewrite alter_defs. Qed.
Lemma keeps_defs_text_remove name k : keeps_defs (declared_remove text_registry name k).
Proof. intros e. unfold defs. cbn. by rewrite alter_defs. Qed.

(** One goal per effect of an operation. *)
Ltac keeps_defs_tac :=
  repeat match goal with
  | |- keeps_defs (mbind _ _) => apply keeps_defs_bind; [|intros ?]
  | |- keeps_defs (for_each _ _) => apply keeps_defs_each; intros ?
  | |- keeps_defs (declared_put data_registry _ _) => apply keeps_defs_data_put
  | |- keeps_defs (declared_put text_registry _ _) => apply keeps_defs_text_put
  | |- keeps_defs (declared_remove data_registry _ _) => apply keeps_defs_data_remove
  | |- keeps_defs (declared_remove text_registry _ _) => apply keeps_defs_text_remove
  | |- keeps_defs (if ?b then _ else _) => destruct b
  | |- keeps_defs (match ?x with _ => _ end) => destruct x
  | |- keeps_defs (modify _) => apply keeps_defs_same; done
  | |- keeps_defs (gets _) => apply keeps_defs_same; done
  | |- keeps_defs (lift _) => apply keeps_defs_same; done
  | |- keeps_defs (mret _) => apply keeps_defs_same; done
  | |- keeps_defs (index_remove _ _) => apply keeps_defs_same; done
  | |- keeps_defs (index_get _ _) => apply keeps_defs_same; done
  | |- keeps_defs (mark_obsolete _) => apply keeps_defs_same; done
  | |- keeps_defs (index_put _ _ _) => apply keeps_defs_same; intros ?; unfold index_put; destruct (tree_put _ _ _); done
  | |- keeps_defs (heap_append _) => apply keeps_defs_same; intros ?; unfold heap_append; destruct (store_append _ _) as [[]|]; done
  end.

Lemma data_operation_defs op : is_data_operation op = true -> keeps_defs (apply_operation (N := N) op).
Proof.
  destruct op; cbn [is_data_operation apply_operation]; try discriminate; intros _.
  - unfold apply_archive, obsolete_previous. keeps_defs_tac.
  - unfold apply_insert, node_location, node_at, retract_data_keys, retract_text_keys, assert_data_keys, assert_text_keys. keeps_defs_tac.
  - unfold apply_delete, node_location, node_at, retract_data_keys, retract_text_keys. keeps_defs_tac.
  - unfold apply_insert_edge, obsolete_previous. keeps_defs_tac.
  - unfold apply_delete_edge, obsolete_previous. keeps_defs_tac.
  - keeps_defs_tac.
  - keeps_defs_tac.
Qed.

Lemma keeps_defs_visit keys prefix (visit : Node -> M (St := St) unit) : (forall n, keeps_defs (visit n)) -> keeps_defs (visit_kind keys prefix visit).
Proof.
  intros Hv. induction keys as [|[k v] keys IH]; cbn [visit_kind]; [by intros e|]. apply keeps_defs_bind; [|intros [n|]].
  - apply keeps_defs_same. intros e. unfold read_node, node_location, node_at, index_get, gets, lift, mbind, m_bind. cbn.
    destruct (e_trees e Primary !! as_bytes (key_address k prefix)); cbn; [|done]. destruct (location_decode _); cbn; [|done].
    destruct (store_read _ _) as [[]|]; done.
  - apply keeps_defs_bind; [apply Hv|done].
  - apply keeps_defs_bind; [by intros e|done].
Qed.

Lemma keeps_defs_backfill name : keeps_defs (backfill_index (N := N) (St := St) name).
Proof.
  intros e. unfold backfill_index, gets, mbind, m_bind. destruct (e_data e !! name) as [[d t]|]; [|done]. unfold scan_kind, gets, mbind, m_bind.
  apply keeps_defs_visit. intros n. apply keeps_defs_data_put.
Qed.
Lemma keeps_defs_backfill_text name : keeps_defs (backfill_text_index (N := N) (St := St) name).
Proof.
  intros e. unfold backfill_text_index, gets, mbind, m_bind. destruct (e_text e !! name) as [[d t]|]; [|done]. unfold scan_kind, gets, mbind, m_bind.
  apply keeps_defs_visit. intros n. apply keeps_defs_each. intros k. apply keeps_defs_text_put.
Qed.

Lemma data_all_defs e d : d ∈ data_all e <-> exists name, (defs e).1 !! name = Some d.
Proof.
  rewrite elem_data_all. unfold defs. cbn [fst]. split.
  - intros (name & t & E). exists name. by rewrite lookup_fmap, E.
  - intros [name E]. rewrite lookup_fmap in E. destruct (e_data e !! name) as [[d' t]|] eqn:E'; [|done]. injection E as <-. eauto.
Qed.

Lemma text_all_defs e d : d ∈ text_all e <-> exists name, (defs e).2 !! name = Some d.
Proof.
  rewrite elem_text_all. unfold defs. cbn [snd]. split.
  - intros (name & t & E). exists name. by rewrite lookup_fmap, E.
  - intros [name E]. rewrite lookup_fmap in E. destruct (e_text e !! name) as [[d' t]|] eqn:E'; [|done]. injection E as <-. eauto.
Qed.

Lemma check_text_keys_each ds a data :
  check_text_keys (N := N) ds a data = Ok tt <-> Forall (fun d => check_text_keys (N := N) [d] a data = Ok tt) ds.
Proof.
  induction ds as [|d ds IH]; [split; [constructor|done]|]. rewrite Forall_cons, <- IH.
  unfold check_text_keys. cbn [check_text_keys_of]. destruct (indexed_text _ _); [|tauto].
  destruct (_ <? _)%Z; [split; [done|by intros []]|]. destruct (_ <? _); [split; [done|by intros []]|]. tauto.
Qed.

(** Admission depends only on the definitions. *)
Lemma admission_defs e e' op :
  is_data_operation op = true -> defs e = defs e' ->
  operation_validate (N := N) (declared_indexes e) op = Ok tt -> operation_validate (N := N) (declared_indexes e') op = Ok tt.
Proof.
  intros Hop Ed. destruct op; try done. cbn [operation_validate]. rewrite !check_bind. intros (Hn & Hd & Ht). split; [done|]. split.
  - apply data_keys_admissible in Hd. apply data_keys_admissible. rewrite Forall_forall in *. intros d Hin. apply Hd.
    unfold data_for in *. apply list_elem_of_filter in Hin as [? Hin]. apply list_elem_of_filter. split; [done|]. cbn in *.
    apply data_all_defs. apply data_all_defs in Hin. by rewrite Ed.
  - apply check_text_keys_each in Ht. apply check_text_keys_each. rewrite Forall_forall in *. intros d Hin. apply Ht.
    unfold text_for in *. apply list_elem_of_filter in Hin as [? Hin]. apply list_elem_of_filter. split; [done|]. cbn in *.
    apply text_all_defs. apply text_all_defs in Hin. by rewrite Ed.
Qed.

(** A data operation draws a version below 2^64 and writes a record the heap takes. *)
Definition data_ready (op : Operation) : Prop :=
  match op with
  | OArchive h => u64 (h_version h) /\ store_fits (HHistory h)
  | OInsert n => store_fits (HNode n)
  | OInsertEdge x => store_fits (HEdge x)
  | _ => True
  end.

(** What a batch has passed before its first record is logged. *)
Definition batch_admitted (e : engine (St := St)) (ops : list Operation) : Prop :=
  validate_all (N := N) (declared_indexes e) ops = Ok tt /\
  Forall (fun op => is_data_operation op = true /\ data_ready op) ops.

Lemma batch_admitted_defs e e' ops : defs e = defs e' -> batch_admitted e ops -> batch_admitted e' ops.
Proof.
  intros Ed [Hv Hall]. split; [|done]. induction ops as [|x ops IH]; [done|]. cbn [validate_all] in *.
  apply check_bind in Hv as [Hx Hv]. apply Forall_cons_1 in Hall as [[Hd _] Hall]. apply check_bind.
  split; [by eapply admission_defs|by apply IH].
Qed.

Lemma batch_admitted_cons e op ops : batch_admitted e (op :: ops) ->
  admissible e op /\ is_data_operation op = true /\ batch_admitted e ops.
Proof.
  intros [Hv Hall]. cbn [validate_all] in Hv. apply check_bind in Hv as [Hop Hv]. apply Forall_cons_1 in Hall as [[Hd Hu] Hall].
  split; [split; [done|by destruct op]|]. done.
Qed.

Lemma batch_step ops : forall e d k,
  consistent (N := N) e d -> store_room (e_store e) (length ops + k) -> batch_admitted e ops ->
  exists e', apply_operations (N := N) ops e = (e', Ok tt) /\ consistent (N := N) e' (foldl logical_apply d ops) /\
    store_room (e_store e') k /\ defs e' = defs e.
Proof.
  induction ops as [|op ops IH]; intros e d k Hc Hroom Hadm; [by exists e|]. cbn [apply_operations foldl length Nat.add] in *.
  destruct (batch_admitted_cons e op ops Hadm) as (Hop & Hd & Hrest).
  destruct (operation_step e d op _ Hc Hroom Hop) as (e1 & Hrun & Hc1 & Hroom1).
  assert (defs e1 = defs e) as Ed by (pose proof (data_operation_defs op Hd e) as Ed; by rewrite Hrun in Ed).
  destruct (IH e1 (logical_apply d op) k Hc1 Hroom1 (batch_admitted_defs e e1 ops (eq_sym Ed) Hrest)) as (e2 & Hrun2 & Hc2 & Hroom2 & Ed2).
  exists e2. step ltac:(exact Hrun). split; [done|]. split; [done|]. split; [done|congruence].
Qed.

(** ** Replaying what was already applied *)

(** A batch as writes of one collection: keys and the values they end with. *)
Definition run_writes {K V} `{Countable K} (ws : list (K * option V)) (m : gmap K V) : gmap K V :=
  foldl (fun m w => partial_alter (fun _ => w.2) w.1 m) m ws.

Lemma run_writes_other {K V} `{Countable K} (ws : list (K * option V)) m k : k ∉ map fst ws -> run_writes ws m !! k = m !! k.
Proof.
  revert m. induction ws as [|w ws IH]; intros m; cbn [run_writes foldl map]; [done|]. rewrite not_elem_of_cons. intros [Hne Hnin].
  fold (run_writes ws (partial_alter (fun _ => w.2) w.1 m)). rewrite IH by done. by apply lookup_partial_alter_ne.
Qed.

Lemma run_writes_agree {K V} `{Countable K} (ws : list (K * option V)) m m' :
  (forall k, k ∉ map fst ws -> m !! k = m' !! k) -> run_writes ws m = run_writes ws m'.
Proof.
  revert m m'. induction ws as [|w ws IH]; intros m m' Hag; cbn [run_writes foldl].
  - apply map_eq. intros k. apply Hag, not_elem_of_nil.
  - apply IH. intros k Hk. destruct (decide (w.1 = k)) as [<-|Hne]; [by rewrite !lookup_partial_alter_eq|].
    rewrite !lookup_partial_alter_ne by done. apply Hag. cbn [map]. rewrite not_elem_of_cons. auto.
Qed.

Lemma run_writes_twice {K V} `{Countable K} (ws : list (K * option V)) m : run_writes ws (run_writes ws m) = run_writes ws m.
Proof. apply run_writes_agree. intros k. apply run_writes_other. Qed.

Definition node_writes (op : Operation) : list (string * option Node) :=
  match op with OInsert n => [(n_address n, Some n)] | ODelete a => [(a, None)] | _ => [] end.
Definition edge_writes (op : Operation) : list (EdgeId * option Edge) :=
  match op with OInsertEdge x => [(edge_id x, Some x)] | ODeleteEdge i => [(i, None)] | _ => [] end.
Definition history_writes (op : Operation) : list (string * Z * option HistoryEntry) :=
  match op with OArchive h => [((h_address h, h_version h), Some h)] | _ => [] end.

Lemma batch_writes ops d :
  foldl logical_apply d ops =
  MkLogical (run_writes (flat_map node_writes ops) (l_nodes d)) (run_writes (flat_map edge_writes ops) (l_edges d))
            (run_writes (flat_map history_writes ops) (l_history d)).
Proof.
  revert d. induction ops as [|op ops IH]; intros d; [by destruct d|]. cbn [foldl flat_map]. rewrite IH. unfold run_writes.
  rewrite !foldl_app. destruct op; reflexivity.
Qed.

Lemma batch_twice ops d : foldl logical_apply (foldl logical_apply d ops) ops = foldl logical_apply d ops.
Proof. rewrite (batch_writes ops (foldl logical_apply d ops)), !batch_writes. cbn [l_nodes l_edges l_history]. by rewrite !run_writes_twice. Qed.

(** C9: Every operation keeps the engine consistent: on an engine whose indexes list exactly its
    collections, an admissible operation (a node, edge, archive or user write, the declaration of an
    index with its backfill, a drop, a reference) runs to the end, changes the collections as it
    says, and leaves every built-in and declared index listing exactly the new collections. *)
Theorem engine_operation_consistent e d op k :
  consistent (N := N) e d -> store_room (e_store e) (S k) -> admissible e op ->
  exists e', apply_operation (N := N) op e = (e', Ok tt) /\ consistent (N := N) e' (logical_apply d op) /\ store_room (e_store e') k.
Proof. apply operation_step. Qed.

(** C25: Replay converges: a batch admitted before it was logged applies in full and every read by
    address then returns the last value written; applying the same batch again on the result, as
    recovery does when the crash came after the indexes were published, succeeds too and ends in the
    same collections, again with every index in step. *)
Theorem engine_replay_converges ops e d k :
  consistent (N := N) e d -> store_room (e_store e) (length ops + (length ops + k)) -> batch_admitted e ops ->
  let d' := foldl logical_apply d ops in
  exists e1 e2, apply_operations (N := N) ops e = (e1, Ok tt) /\ apply_operations (N := N) ops e1 = (e2, Ok tt) /\
    consistent (N := N) e1 d' /\ consistent (N := N) e2 d' /\
    (forall a, read_node a e1 = (e1, Ok (l_nodes d' !! a))) /\ (forall a, read_node a e2 = (e2, Ok (l_nodes d' !! a))).
Proof.
  intros Hc Hroom Hadm d'. destruct (batch_step ops e d _ Hc Hroom Hadm) as (e1 & Hrun1 & Hc1 & Hroom1 & Ed1).
  pose proof (batch_admitted_defs e e1 ops (eq_sym Ed1) Hadm) as Hadm1.
  destruct (batch_step ops e1 d' k Hc1 Hroom1 Hadm1) as (e2 & Hrun2 & Hc2 & _ & _). unfold d' in Hc2. rewrite batch_twice in Hc2.
  exists e1, e2. split; [done|]. split; [done|]. split; [done|]. split; [done|].
  split; intros a; apply read_node_run, c_primary; done.
Qed.
End theorems.

(** ** A heap, for the examples *)

Definition list_heap : RecordStore (list HeapRecord) := {|
  store_append s r := if (Z.of_nat (length s) <? 2 ^ 32)%Z then Ok (RecordLocation 0 (Z.of_nat (length s)) 0 0, s ++ [r]) else Err OtherError;
  store_read s l := match s !! Z.to_nat (loc_page l) with Some r => Ok r | None => Err InvalidData end;
  store_mark_obsolete s _ := s;
|}.

Definition list_heap_laws : @RecordStoreLaws (list HeapRecord) list_heap.
Proof.
  refine {| store_room s k := (Z.of_nat (length s + k) <= 2 ^ 32)%Z; store_fits _ := True |}; unfold keeps, store_append, store_read, store_mark_obsolete, list_heap.
  - intros st r k Hk _. destruct (Z.ltb_spec (Z.of_nat (length st)) (2 ^ 32)); [|lia]. eexists _, _. split; [done|]. cbn [loc_page]. split_and!.
    + unfold location_ok. cbn. lia.
    + rewrite Nat2Z.id, lookup_app_r, Nat.sub_diag by lia. done.
    + intros l' r' _. destruct (st !! Z.to_nat (loc_page l')) as [x|] eqn:E; [|done]. by rewrite (lookup_app_l_Some _ _ _ _ E).
    + rewrite length_app. cbn [length]. lia.
  - done.
  - intros st k Hk. lia.
Defined.

Section examples.
Local Existing Instance list_heap.
Local Existing Instance list_heap_laws.
Local Existing Instance double_json.

Definition empty_engine : engine (St := list HeapRecord) :=
  MkEngine [] (fun _ => ∅) ∅ ∅ ∅ ∅ ∅ ∅ [] [] [] [] 0.

Lemma empty_consistent {N} `{SerdeJson N} : consistent (N := N) empty_engine (MkLogical ∅ ∅ ∅).
Proof.
  assert (forall entries, members entries ∅ ∅) as Hm.
  { intros entries k v. rewrite lookup_empty. split; [done|]. intros [_ (a & n & Ha & _)]. by rewrite lookup_empty in Ha. }
  assert (forall K V `{Countable K} (key : K -> list Z) (record : V -> HeapRecord), located key record ∅ ∅ []) as Hl.
  { intros. split; [intros x v Hx|intros k raw Hk]; by rewrite lookup_empty in *. }
  split; try apply Hm; try apply Hl; try (intros x y Hx; by rewrite lookup_empty in Hx); done.
Qed.

Definition note : Node := MkNode "a" {| coord_x := 0; coord_y := 0; coord_z := 0; coord_q := 0 |} 0 "draft" "{}" "me" None Private.
Definition note2 : Node := MkNode "a" {| coord_x := 0; coord_y := 0; coord_z := 0; coord_q := 0 |} 0 "post" "{}" "me" None Private.

Lemma engine_operation_consistent_witness :
  exists e', apply_operation (N := double) (OInsert note) empty_engine = (e', Ok tt) /\
    consistent (N := double) e' (logical_apply (MkLogical ∅ ∅ ∅) (OInsert note)) /\ store_room (e_store e') 0.
Proof.
  apply (engine_operation_consistent empty_engine (MkLogical ∅ ∅ ∅) (OInsert note) 0); [exact empty_consistent|cbn; lia|].
  split; [vm_compute; reflexivity|exact I].
Defined.

Definition republish : list Operation := [OArchive (history_now note 0 1); OInsert note2].

Lemma engine_replay_converges_witness :
  let d' := foldl logical_apply (MkLogical ∅ ∅ ∅) (OInsert note :: republish) in
  exists e1 e2, apply_operations (N := double) (OInsert note :: republish) empty_engine = (e1, Ok tt) /\
    apply_operations (N := double) (OInsert note :: republish) e1 = (e2, Ok tt) /\
    consistent (N := double) e1 d' /\ consistent (N := double) e2 d' /\
    (forall a, read_node a e1 = (e1, Ok (l_nodes d' !! a))) /\ (forall a, read_node a e2 = (e2, Ok (l_nodes d' !! a))).
Proof.
  apply (engine_replay_converges (OInsert note :: republish) empty_engine (MkLogical ∅ ∅ ∅) 0); [exact empty_consistent|cbn; lia|].
  split; [vm_compute; reflexivity|]. repeat apply Forall_cons_2; try apply Forall_nil_2; done.
Defined.

(** ** A crash between two indexes *)

Definition run_ops (ops : list Operation) (e : engine) : engine := fst (apply_operations (N := double) ops e).

(** The first version was published; the second was logged and applied, and the crash came after the
    primary index was published and before the kind index was. *)
Definition before_crash : engine := run_ops [OInsert note] empty_engine.
Definition after_crash : engine := crash_in_commit 1 before_crash (run_ops republish before_crash).
Definition after_replay : engine := run_ops republish after_crash.

Lemma after_replay_kind : e_trees after_replay Kind !! kind_key (as_bytes "draft") (as_bytes "a") = Some [].
Proof. vm_compute. reflexivity. Qed.

Lemma after_replay_read : (read_node "a" after_replay).2 = Ok (Some note2).
Proof. vm_compute. reflexivity. Qed.

(** Publishing the indexes is not atomic and replay does not repair it.  A node moved from kind
    draft to kind post; the crash published the primary index and not the kind index.  Replay reads
    the previous version through the primary index, finds the new one, and so retracts nothing: the
    kind index keeps listing the node under its old kind, and the engine is consistent with no
    collection of nodes whatever. *)
Theorem partial_commit_not_repaired :
  apply_operations (N := double) republish after_crash = (after_replay, Ok tt) /\
  e_trees after_replay Kind !! kind_key (as_bytes "draft") (as_bytes "a") = Some [] /\
  (read_node "a" after_replay).2 = Ok (Some note2) /\
  forall d, ~ consistent (N := double) after_replay d.
Proof.
  split; [|split; [exact after_replay_kind|split; [exact after_replay_read|]]].
  - unfold after_replay, run_ops. destruct (apply_operations republish after_crash) as [e r] eqn:E. f_equal.
    change r with (snd (e, r)). rewrite <- E. vm_compute. reflexivity.
  - intros d Hc. destruct (proj1 (c_kind _ _ Hc _ _) after_replay_kind) as [_ (a & n & Ha & Hk)].
    apply list_elem_of_singleton in Hk. destruct (c_nodes _ _ Hc a n Ha) as [Ea Hn]. destruct (node_ok_spec n Hn) as ((_ & Hs & _) & _).
    unfold kind_key in Hk. apply component_inj in Hk as [Hkind Haddr]; [|unfold short, MAX_COMPONENT_LEN; cbn; lia|done].
    apply as_bytes_inj in Hkind, Haddr. subst a. pose proof after_replay_read as Hr.
    rewrite (read_node_run _ (l_nodes d) "a") in Hr by apply Hc. rewrite Haddr, Ha in Hr. injection Hr as ->. discriminate Hkind.
Qed.
End examples.
