(* ===== verification/Startup.v ===== *)
(** * Opening a database ([src/src/storage/engine.rs], [load] and
      [compact_user_log]; [src/src/database.rs], [Database::new])

    Identities, declared indexes and references are kept in four logs of
    records beside the heap and the indexes; opening a database replays each
    of them, the last write of a key winning, opens the declared indexes on
    their files, and then recovery applies the log above the checkpoint. *)

From Stdlib Require Import ZArith Lia Ascii String.
From stdpp Require Import base tactics list strings option gmap sorting.
From S2P Require Import Prelude Binary Keys Json OrderKey Search Entities Transaction Engine EngineRep EngineApply EngineOps EngineTheorems.

(** ** Replaying the logs *)

Definition replay_user (m : gmap string UserRecord) (r : UserOpRecord) : gmap string UserRecord :=
  match r with UserPut u => <[u_token_hash u := u]> m | UserRevoke h => delete h m end.

Definition replay_index (m : gmap string IndexDef) (r : IndexOpRecord) : gmap string IndexDef :=
  match r with IndexPut d => <[def_name d := d]> m | IndexDrop name => delete name m end.

Definition fold_def (d : TextIndexDef) : TextIndexDef := {| t_name := t_name d; t_kind := t_kind d; t_field := t_field d; t_folded := true |}.

Definition replay_text (m : gmap string TextIndexDef) (r : TextIndexOpRecord) : gmap string TextIndexDef :=
  match r with
  | TPut d => <[t_name d := d]> m
  | TPutFolded d => <[t_name d := fold_def d]> m
  | TDrop name => delete name m
  end.

Definition replay_reference (m : References) (r : ReferenceOpRecord) : References :=
  match r with ReferencePut d => references_put m d | ReferenceDrop name => references_remove m name end.

(** [into_values], sorted by name. *)
Definition definitions (log : list IndexOpRecord) : list IndexDef :=
  merge_sort (fun a b => string_le (def_name a) (def_name b)) (map snd (map_to_list (foldl replay_index ∅ log))).
Definition text_definitions (log : list TextIndexOpRecord) : list TextIndexDef :=
  merge_sort (fun a b => string_le (t_name a) (t_name b)) (map snd (map_to_list (foldl replay_text ∅ log))).

Section startup.
Context {St : Type} `{RecordStore St} {N : Type} `{SerdeJson N}.
Implicit Types e : engine (St := St).

(** [StorageEngine::open]: what is in files is there, what is in memory is empty. *)
Definition open_engine (disk : engine (St := St)) : engine (St := St) :=
  MkEngine (e_store disk) (e_trees disk) ∅ ∅ (e_data_files disk) (e_text_files disk) ∅ ∅
    (e_user_log disk) (e_index_log disk) (e_text_log disk) (e_reference_log disk) 0.

Definition load : M (St := St) unit :=
  _ ← modify (fun e => set_users e (foldl replay_user ∅ (e_user_log e)) (e_user_log e));
  declared ← gets (fun e => definitions (e_index_log e));
  _ ← for_each declared open_data;
  declared ← gets (fun e => text_definitions (e_text_log e));
  _ ← for_each declared open_text;
  modify (fun e => set_references e (foldl replay_reference ∅ (e_reference_log e)) (e_reference_log e)).

(** [user_log_records] is the length of the log: [load] sets it and every append raises it.  [live] is the values
    of the map in some order. *)
Definition compact_user_log (live : list UserRecord) (e : engine (St := St)) : engine (St := St) :=
  if (length (e_user_log e) <=? max (size (e_users e) * 4) 64)%nat then e
  else set_users e (e_users e) (map UserPut live).

(** [Indexes::commit]: the files hold the trees. *)
Definition published (e : engine (St := St)) : engine (St := St) := set_files e (snd <$> e_data e) (snd <$> e_text e).

(** ** The logs say what the memory holds *)

Record logs_ok e : Prop := {
  lo_users : foldl replay_user ∅ (e_user_log e) = e_users e;
  lo_references : foldl replay_reference ∅ (e_reference_log e) = e_references e;
  lo_data : foldl replay_index ∅ (e_index_log e) = fst <$> e_data e;
  lo_text : foldl replay_text ∅ (e_text_log e) = fst <$> e_text e;
}.

(** What an operation on nodes and edges leaves alone. *)
Definition rest e := (e_users e, e_references e, (e_user_log e, e_index_log e), (e_text_log e, e_reference_log e)).

Definition keeps_rest {A} (m : M (St := St) A) : Prop := forall e, rest (fst (m e)) = rest e.

Lemma keeps_rest_bind {A B} (m : M (St := St) A) (f : A -> M B) : keeps_rest m -> (forall a, keeps_rest (f a)) -> keeps_rest (m ≫= f).
Proof. intros Hm Hf e. unfold mbind, m_bind. specialize (Hm e). destruct (m e) as [e' [a|x]]; cbn [fst] in *; [|done]. by rewrite Hf. Qed.

Lemma keeps_rest_each {A} (l : list A) (f : A -> M (St := St) unit) : (forall x, keeps_rest (f x)) -> keeps_rest (for_each l f).
Proof. intros Hf. induction l as [|x l IH]; cbn [for_each]; [by intros e|]. by apply keeps_rest_bind. Qed.

Lemma keeps_rest_put {D} (r : registry (St := St) D) name k : (forall e m, rest (reg_set r e m) = rest e) -> keeps_rest (declared_put r name k).
Proof. intros Hr e. unfold declared_put. destruct (reg_get r e !! name) as [[d t]|]; [|done]. destruct (tree_put t k []); [apply Hr|done]. Qed.

Ltac keeps_rest_tac :=
  repeat match goal with
  | |- keeps_rest (mbind _ _) => apply keeps_rest_bind; [|intros ?]
  | |- keeps_rest (for_each _ _) => apply keeps_rest_each; intros ?
  | |- keeps_rest (declared_put _ _ _) => apply keeps_rest_put; done
  | |- keeps_rest (if ?b then _ else _) => destruct b
  | |- keeps_rest (match ?x with _ => _ end) => destruct x
  | |- keeps_rest (index_put _ _ _) => intros ?; unfold index_put; destruct (tree_put _ _ _); done
  | |- keeps_rest (heap_append _) => intros ?; unfold heap_append; destruct (store_append _ _) as [[]|]; done
  | |- keeps_rest _ => intros ?; done
  end.

Lemma keeps_rest_visit keys prefix (visit : Node -> M (St := St) unit) : (forall n, keeps_rest (visit n)) -> keeps_rest (visit_kind keys prefix visit).
Proof.
  intros Hv. induction keys as [|[k v] keys IH]; cbn [visit_kind]; [by intros e|]. unfold read_node, node_location, node_at. apply keeps_rest_bind; [keeps_rest_tac|]. intros n.
  apply keeps_rest_bind; [destruct n; [apply Hv|keeps_rest_tac]|done].
Qed.

Lemma keeps_rest_backfill name : keeps_rest (backfill_index (N := N) (St := St) name).
Proof. unfold backfill_index. apply keeps_rest_bind; [keeps_rest_tac|]. intros [[d t]|]; [|keeps_rest_tac]. unfold scan_kind. apply keeps_rest_bind; [keeps_rest_tac|]. intros t'. apply keeps_rest_visit. intros n. keeps_rest_tac. Qed.

Lemma keeps_rest_backfill_text name : keeps_rest (backfill_text_index (N := N) (St := St) name).
Proof. unfold backfill_text_index. apply keeps_rest_bind; [keeps_rest_tac|]. intros [[d t]|]; [|keeps_rest_tac]. unfold scan_kind. apply keeps_rest_bind; [keeps_rest_tac|]. intros t'. apply keeps_rest_visit. intros n. keeps_rest_tac. Qed.

Definition is_record_operation (op : Operation) : bool :=
  match op with OArchive _ | OInsert _ | ODelete _ | OInsertEdge _ | ODeleteEdge _ => true | _ => false end.

Lemma record_operation_rest op : is_record_operation op = true -> keeps_rest (apply_operation (N := N) op).
Proof.
  destruct op; cbn [is_record_operation apply_operation]; try discriminate; intros _;
    unfold apply_archive, apply_insert, apply_delete, apply_insert_edge, apply_delete_edge, obsolete_previous, node_location, node_at, retract_data_keys, retract_text_keys, assert_data_keys, assert_text_keys; keeps_rest_tac.
Qed.

Lemma rest_logs e e' : rest e' = rest e -> defs e' = defs e -> logs_ok e -> logs_ok e'.
Proof.
  unfold rest, defs. intros [= Hu Hr Hul Hil Htl Hrl] [= Hd Ht] [H1 H2 H3 H4]. split; [by rewrite Hul, Hu|by rewrite Hrl, Hr|by rewrite Hil, Hd|by rewrite Htl, Ht].
Qed.

Lemma put_record_replay m d : replay_text m (put_record d) = <[t_name d := d]> m.
Proof. unfold put_record. destruct d as [name kind field []]; done. Qed.

Lemma operation_logs op e e' : logs_ok e -> apply_operation (N := N) op e = (e', Ok tt) -> logs_ok e'.
Proof.
  intros Hok E. destruct (is_record_operation op) eqn:Hrec.
  { pose proof (record_operation_rest op Hrec e) as Hr. pose proof (data_operation_defs (N := N) op ltac:(by destruct op) e) as Hd. rewrite E in Hr, Hd. by eapply rest_logs. }
  destruct Hok as [H1 H2 H3 H4]. destruct op as [| | | | |u|h|d|name|d|name|d|name]; try done; cbn [apply_operation] in E.
  - injection E as <-. split; try done. cbn. by rewrite foldl_app, H1.
  - injection E as <-. split; try done. cbn. by rewrite foldl_app, H1.
  - erewrite M_bind_ok in E by reflexivity. cbv beta in E. erewrite M_bind_ok in E by reflexivity. cbv beta in E.
    match type of E with backfill_index _ ?e0 = _ => set (e1 := e0) in E end. pose proof (keeps_rest_backfill (def_name d) e1) as Hr. pose proof (keeps_defs_backfill (def_name d) e1) as Hd. rewrite E in Hr, Hd.
    eapply rest_logs; [exact Hr|exact Hd|]. split; try done. cbn. by rewrite foldl_app, H3, fmap_insert.
  - injection E as <-. split; try done. cbn. by rewrite foldl_app, H3, fmap_delete.
  - injection E as <-. split; try done. cbn. by rewrite foldl_app, H2.
  - injection E as <-. split; try done. cbn. by rewrite foldl_app, H2.
  - erewrite M_bind_ok in E by reflexivity. cbv beta in E. erewrite M_bind_ok in E by reflexivity. cbv beta in E.
    match type of E with backfill_text_index _ ?e0 = _ => set (e1 := e0) in E end. pose proof (keeps_rest_backfill_text (t_name d) e1) as Hr. pose proof (keeps_defs_backfill_text (t_name d) e1) as Hd. rewrite E in Hr, Hd.
    eapply rest_logs; [exact Hr|exact Hd|]. split; try done. cbn. rewrite foldl_app, H4. cbn. by rewrite put_record_replay, fmap_insert.
  - injection E as <-. split; try done. cbn. by rewrite foldl_app, H4, fmap_delete.
Qed.

Lemma operations_logs ops e e' : logs_ok e -> apply_operations (N := N) ops e = (e', Ok tt) -> logs_ok e'.
Proof.
  revert e. induction ops as [|op ops IH]; intros e Hok E; cbn [apply_operations] in E; [by injection E as <-|]. unfold mbind, m_bind in E.
  destruct (apply_operation op e) as [e1 [[]|]] eqn:E1; [|done]. eapply IH; [|exact E]. by eapply operation_logs.
Qed.

(** ** Rewriting the user log *)

Lemma replay_user_key log m : (forall h u, m !! h = Some u -> u_token_hash u = h) -> forall h u, foldl replay_user m log !! h = Some u -> u_token_hash u = h.
Proof.
  revert m. induction log as [|r log IH]; intros m Hm; [done|]. cbn [foldl]. apply IH. intros h u. destruct r as [v|g]; cbn.
  - rewrite lookup_insert_Some. intros [[<- <-]|[_ ?]]; eauto.
  - rewrite lookup_delete_Some. intros [_ ?]. eauto.
Qed.

Lemma replay_puts live m : foldl replay_user m (map UserPut live) = list_to_map (rev (map (fun u => (u_token_hash u, u)) live)) ∪ m.
Proof.
  revert m. induction live as [|u live IH]; intros m; cbn [map foldl rev]; [cbn; by rewrite (left_id_L ∅ (∪))|]. rewrite IH. cbn [replay_user].
  rewrite list_to_map_app, <- (assoc_L (∪)). f_equal. cbn. by rewrite insert_empty, insert_union_singleton_l.
Qed.

Lemma compact_user_log_ok live e : logs_ok e -> live ≡ₚ map snd (map_to_list (e_users e)) -> logs_ok (compact_user_log live e) /\ e_users (compact_user_log live e) = e_users e.
Proof.
  intros Hok Hp. unfold compact_user_log. case_match; [done|]. split; [|done]. destruct Hok as [L1 L2 L3 L4]. split; try done. cbn.
  rewrite replay_puts, (right_id_L ∅ (∪)).
  assert (E : map (fun u => (u_token_hash u, u)) live ≡ₚ map_to_list (e_users e)).
  { rewrite Hp, map_map. erewrite map_ext_in; [by rewrite map_id|]. intros [h u] Hin. cbn. apply list_elem_of_In, elem_of_map_to_list in Hin. f_equal. rewrite <- L1 in Hin.
    apply replay_user_key in Hin; [done|]. intros ? ?. by rewrite lookup_empty. }
  rewrite <- (list_to_map_to_list (e_users e)). apply list_to_map_proper; [|by rewrite <- Permutation_rev, E].
  assert (Hn : map fst (rev (map (fun u => (u_token_hash u, u)) live)) ≡ₚ map fst (map_to_list (e_users e))) by (by rewrite <- Permutation_rev, E). rewrite Hn. apply NoDup_fst_map_to_list.
Qed.

(** ** Opening the declared indexes *)

Section opening.
Context {D : Type} (r : registry (St := St) D) `{!RegistryLaws r} (name_of : D -> string) (files : engine (St := St) -> gmap string tree) (open : D -> M (St := St) unit).
Context (open_fresh : forall d e, reg_get r e !! name_of d = None ->
  open d e = (reg_set r e (<[name_of d := (d, default ∅ (files e !! name_of d))]> (reg_get r e)), Ok tt)).
Context (files_set : forall e m, files (reg_set r e m) = files e).

Definition opened e (d : D) : string * (D * tree) := (name_of d, (d, default ∅ (files e !! name_of d))).

Lemma open_all ds e : NoDup (map name_of ds) -> (forall d, d ∈ ds -> reg_get r e !! name_of d = None) ->
  for_each ds open e = (reg_set r e (list_to_map (map (opened e) ds) ∪ reg_get r e), Ok tt).
Proof.
  revert e. induction ds as [|d ds IH]; intros e Hnd Hfresh; cbn [for_each].
  { cbn. rewrite (left_id_L ∅ (∪)), reg_set_get. done. }
  rewrite List.map_cons in Hnd. apply NoDup_cons in Hnd as [Hd Hnd]. rewrite (M_bind_ok _ _ _ _ _ (open_fresh d e (Hfresh d (list_elem_of_here _ _)))). cbv beta.
  assert (Hname : forall d', d' ∈ ds -> name_of d <> name_of d') by (intros d' Hin E; apply Hd; rewrite E; by apply list_elem_of_fmap_2).
  assert (Ho : forall m, map (opened (reg_set r e m)) ds = map (opened e) ds) by (intros m; apply map_ext; intros d'; unfold opened; by rewrite files_set).
  rewrite IH, Ho, reg_set_set, reg_get_set; [|done|].
  - rewrite List.map_cons. unfold opened at 2. rewrite list_to_map_cons, <- insert_union_l, insert_union_r; [done|].
    apply not_elem_of_list_to_map_1. rewrite <- list_fmap_compose. exact Hd.
  - intros d' Hin. rewrite reg_get_set, lookup_insert_ne by (by apply Hname). apply Hfresh. by apply list_elem_of_further.
Qed.

Lemma open_registry reg ds e : reg_get r e = ∅ -> files e = snd <$> reg -> ds ≡ₚ map snd (map_to_list (fst <$> reg)) ->
  (forall name d t, reg !! name = Some (d, t) -> name_of d = name) -> for_each ds open e = (reg_set r e reg, Ok tt).
Proof.
  intros Hempty Hfiles Hds Hkey.
  assert (Hnames : map name_of ds ≡ₚ map fst (map_to_list reg)).
  { rewrite Hds, map_to_list_fmap. rewrite !map_map. match goal with |- ?a ≡ₚ ?b => enough (a = b) as -> by done end. apply map_ext_in. intros [n [d t]] Hin. apply list_elem_of_In, elem_of_map_to_list in Hin. cbn. by eapply Hkey. }
  rewrite open_all; [|rewrite Hnames; apply NoDup_fst_map_to_list|intros d _; by rewrite Hempty, lookup_empty]. rewrite Hempty, (right_id_L ∅ (∪)). do 2 f_equal.
  rewrite <- (list_to_map_to_list reg). apply list_to_map_proper.
  - rewrite <- list_fmap_compose. change (NoDup (map name_of ds)). rewrite Hnames. apply NoDup_fst_map_to_list.
  - rewrite Hds, map_to_list_fmap, !map_map. match goal with |- ?a ≡ₚ ?b => enough (a = b) as -> by done end. rewrite <- (map_id (map_to_list reg)) at 2. apply map_ext_in. intros [n [d t]] Hin.
    apply list_elem_of_In, elem_of_map_to_list in Hin. unfold opened. cbn. rewrite (Hkey n d t Hin), Hfiles, lookup_fmap, Hin. done.
Qed.
End opening.

Lemma replay_index_key log m : (forall n d, m !! n = Some d -> def_name d = n) -> forall n d, foldl replay_index m log !! n = Some d -> def_name d = n.
Proof.
  revert m. induction log as [|r log IH]; intros m Hm; [done|]. cbn [foldl]. apply IH. intros n d. destruct r as [x|g]; cbn.
  - rewrite lookup_insert_Some. intros [[<- <-]|[_ ?]]; eauto.
  - rewrite lookup_delete_Some. intros [_ ?]. eauto.
Qed.

Lemma replay_text_key log m : (forall n d, m !! n = Some d -> t_name d = n) -> forall n d, foldl replay_text m log !! n = Some d -> t_name d = n.
Proof.
  revert m. induction log as [|r log IH]; intros m Hm; [done|]. cbn [foldl]. apply IH. intros n d. destruct r as [x|g|x]; cbn; rewrite ?lookup_insert_Some, ?lookup_delete_Some.
  - intros [[<- <-]|[_ ?]]; eauto.
  - intros [_ ?]. eauto.
  - intros [[<- <-]|[_ ?]]; [done|eauto].
Qed.

(** Loading what is in the logs and the files of [e]. *)
Lemma load_ok disk e : e_data_files disk = snd <$> e_data e -> e_text_files disk = snd <$> e_text e ->
  foldl replay_index ∅ (e_index_log disk) = fst <$> e_data e -> foldl replay_text ∅ (e_text_log disk) = fst <$> e_text e ->
  load (open_engine disk) =
  (MkEngine (e_store disk) (e_trees disk) (e_data e) (e_text e) (e_data_files disk) (e_text_files disk) (foldl replay_user ∅ (e_user_log disk))
    (foldl replay_reference ∅ (e_reference_log disk)) (e_user_log disk) (e_index_log disk) (e_text_log disk) (e_reference_log disk) 0, Ok tt).
Proof.
  intros Hdf Htf Hd Ht.
  assert (Hkd : forall n d t, e_data e !! n = Some (d, t) -> def_name d = n).
  { intros n d t En. apply (replay_index_key (e_index_log disk) ∅); [intros ? ?; by rewrite lookup_empty|]. by rewrite Hd, lookup_fmap, En. }
  assert (Hkt : forall n d t, e_text e !! n = Some (d, t) -> t_name d = n).
  { intros n d t En. apply (replay_text_key (e_text_log disk) ∅); [intros ? ?; by rewrite lookup_empty|]. by rewrite Ht, lookup_fmap, En. }
  unfold load. erewrite M_bind_ok by reflexivity. cbv beta. erewrite M_bind_ok by reflexivity. cbv beta.
  erewrite M_bind_ok; cycle 1.
  { apply (open_registry data_registry def_name e_data_files open_data) with (reg := e_data e); [|done|done|done| |done].
    - intros d e0 E0. unfold open_data, modify. cbn in E0 |- *. by rewrite E0.
    - cbn. unfold definitions. by rewrite merge_sort_Permutation, Hd. }
  cbv beta. erewrite M_bind_ok by reflexivity. cbv beta. erewrite M_bind_ok; cycle 1.
  { apply (open_registry text_registry t_name e_text_files open_text) with (reg := e_text e); [|done|done|done| |done].
    - intros d e0 E0. unfold open_text, modify. cbn in E0 |- *. by rewrite E0.
    - cbn. unfold text_definitions. by rewrite merge_sort_Permutation, Ht. }
  reflexivity.
Qed.

(** ** A clean restart *)

Definition fresh_engine (st : St) : engine (St := St) := MkEngine st (fun _ => ∅) ∅ ∅ ∅ ∅ ∅ ∅ [] [] [] [] 0.

(** The counter of writes starts again. *)
Definition uncounted e : engine (St := St) :=
  MkEngine (e_store e) (e_trees e) (e_data e) (e_text e) (e_data_files e) (e_text_files e) (e_users e) (e_references e)
    (e_user_log e) (e_index_log e) (e_text_log e) (e_reference_log e) 0.

(** The engines of a database's life: created empty, changed by operations that succeed, its user log rewritten, closed
    and opened again. *)
Inductive lifetime : engine (St := St) -> Prop :=
| life_created st : lifetime (fresh_engine st)
| life_operation e op e' : lifetime e -> apply_operation (N := N) op e = (e', Ok tt) -> lifetime e'
| life_rewrite e live : lifetime e -> live ≡ₚ map snd (map_to_list (e_users e)) -> lifetime (compact_user_log live e)
| life_restart e e' : lifetime e -> load (open_engine (published e)) = (e', Ok tt) -> lifetime e'.

Lemma load_published e : logs_ok e -> load (open_engine (published e)) = (uncounted (published e), Ok tt).
Proof. intros [H1 H2 H3 H4]. rewrite (load_ok (published e) e) by done. cbn. by rewrite H1, H2. Qed.

Lemma lifetime_logs e : lifetime e -> logs_ok e.
Proof.
  induction 1 as [st|e op e' _ IH E|e live _ IH Hp|e e' _ IH E].
  - split; [done|done|cbn; by rewrite fmap_empty|cbn; by rewrite fmap_empty].
  - by eapply operation_logs.
  - by apply compact_user_log_ok.
  - rewrite load_published in E by done. injection E as <-. destruct IH as [H1 H2 H3 H4]. by split.
Qed.

(** C8: A database closed and opened again is the same database.  Whatever operations were applied, however often the
    user log was rewritten and the database reopened, loading the published files and replaying the four logs gives back
    every identity, every reference, every declared index with its definition and its entries, and the built-in indexes,
    exactly as they were. *)
Theorem restart_restores e : lifetime e -> load (open_engine (published e)) = (uncounted (published e), Ok tt).
Proof. intros Hl. apply load_published. by apply lifetime_logs. Qed.

(** ** Opening after a crash *)

Definition user_writes (op : Operation) : list (string * option UserRecord) :=
  match op with OInsertUser u => [(u_token_hash u, Some u)] | ORevokeUser h => [(h, None)] | _ => [] end.

Definition declarations e := (e_references e, e_index_log e, e_text_log e, e_reference_log e).

Lemma data_operation_users op e e' : is_data_operation op = true -> apply_operation (N := N) op e = (e', Ok tt) ->
  e_users e' = run_writes (user_writes op) (e_users e) /\ declarations e' = declarations e.
Proof.
  intros Hd E. destruct (is_record_operation op) eqn:Hrec.
  - pose proof (record_operation_rest op Hrec e) as Hr. rewrite E in Hr. unfold rest in Hr. cbn in Hr. injection Hr as H1 H2 H3 H4 H5 H6.
    unfold declarations. rewrite H1, H2, H4, H5, H6. by destruct op.
  - destruct op; try done; cbn in E; injection E as <-; done.
Qed.

Lemma data_operations_users ops e e' : Forall (fun op => is_data_operation op = true) ops -> apply_operations (N := N) ops e = (e', Ok tt) ->
  e_users e' = run_writes (flat_map user_writes ops) (e_users e) /\ declarations e' = declarations e.
Proof.
  revert e. induction ops as [|op ops IH]; intros e Hd E; cbn [apply_operations] in E; [by injection E as <-|]. apply Forall_cons_1 in Hd as [Hop Hd]. unfold mbind, m_bind in E.
  destruct (apply_operation op e) as [e1 [[]|]] eqn:E1; [|done]. destruct (data_operation_users op e e1 Hop E1) as [Hu Hr]. destruct (IH e1 Hd E) as [Hu' Hr'].
  split; [|congruence]. rewrite Hu', Hu. cbn [flat_map]. unfold run_writes. by rewrite foldl_app.
Qed.

(** What the disk holds when [live] crashes: the heap, the indexes as last published, the logs of records as far as they were
    written. *)
Definition crashed (st : St) (e live : engine (St := St)) : engine (St := St) :=
  MkEngine st (e_trees e) ∅ ∅ (snd <$> e_data e) (snd <$> e_text e) ∅ ∅ (e_user_log live) (e_index_log live) (e_text_log live) (e_reference_log live) 0.

Context {L : RecordStoreLaws St}.

Lemma consistent_meta e e' d : e_trees e' = e_trees e -> keeps (e_store e) (e_store e') -> e_data e' = e_data e -> e_text e' = e_text e ->
  e_data_files e' = (snd <$> e_data e) -> e_text_files e' = (snd <$> e_text e) -> consistent (N := N) e d -> consistent (N := N) e' d.
Proof.
  intros Et Hk Ed Ex Edf Etf [C1 C2 C3 C4 C5 C6 C7 C8 C9 C10 C11 C12]. split; rewrite ?Et, ?Ed, ?Ex; try done; [by eapply located_keeps..|].
  intros name. rewrite Edf, Etf, !lookup_fmap. split; intros ->; done.
Qed.

(** Opening after a crash restores the acknowledged state.  The indexes are those of the last checkpoint, the heap kept at
    least the records those indexes name, the log of identities is newer than the indexes: loading and then replaying the
    operations logged since the checkpoint succeeds and ends in exactly the collections, identities, references and declared
    indexes the database had, with every index in step and every log again saying what the memory holds. *)
Lemma startup_after_crash ops e d live st k :
  consistent (N := N) e d -> lifetime e -> batch_admitted (N := N) e ops -> apply_operations (N := N) ops e = (live, Ok tt) ->
  keeps (e_store e) st -> store_room st (length ops + k) ->
  exists e1 e2, load (open_engine (crashed st e live)) = (e1, Ok tt) /\ apply_operations (N := N) ops e1 = (e2, Ok tt) /\
    consistent (N := N) e2 (foldl logical_apply d ops) /\ e_users e2 = e_users live /\ e_references e2 = e_references live /\ defs e2 = defs live /\ logs_ok e2 /\
    e_store e1 = st /\ e_trees e1 = e_trees e /\ defs e1 = defs e /\ consistent (N := N) e1 d.
Proof.
  intros Hc Hl Hadm Hlive Hk Hroom. pose proof (lifetime_logs e Hl) as Hok. pose proof (operations_logs ops e live Hok Hlive) as Hok'.
  assert (Hdata : Forall (fun op => is_data_operation op = true) ops) by (eapply Forall_impl; [apply Hadm|]; by intros op [? _]).
  destruct (data_operations_users ops e live Hdata Hlive) as [Hu Hr]. unfold declarations in Hr. injection Hr as Hrefs Hil Htl Hrl.
  destruct Hok as [L1 L2 L3 L4]. destruct Hok' as [M1 M2 M3 M4].
  pose proof (load_ok (crashed st e live) e eq_refl eq_refl) as Hload. cbn in Hload. rewrite Hil, Htl in Hload. specialize (Hload L3 L4). rewrite M1, M2 in Hload.
  match type of Hload with _ = (?x, _) => set (e1 := x) in Hload end.
  assert (Hc1 : consistent (N := N) e1 d) by (eapply consistent_meta; [..|exact Hc]; done).
  assert (Hadm1 : batch_admitted (N := N) e1 ops) by (eapply batch_admitted_defs; [|exact Hadm]; done).
  destruct (batch_step ops e1 d k Hc1 Hroom Hadm1) as (e2 & E2 & Hc2 & _ & Ed2). exists e1, e2. split; [exact Hload|]. split; [exact E2|].
  destruct (data_operations_users ops e1 e2 Hdata E2) as [Hu2 Hr2]. unfold declarations in Hr2. injection Hr2 as Hrefs2 Hil2 Htl2 Hrl2.
  split; [done|]. split_and!.
  - rewrite Hu2. cbn [e1 e_users]. rewrite Hu. apply run_writes_twice.
  - by rewrite Hrefs2.
  - rewrite Ed2. unfold defs. cbn [e1 e_data e_text]. rewrite <- L3, <- L4, <- M3, <- M4. by rewrite Hil, Htl.
  - eapply operations_logs; [|exact E2]. split; cbn [e1 e_users e_user_log e_references e_reference_log e_index_log e_text_log e_data e_text]; done.
  - done.
  - done.
  - done.
  - exact Hc1.
Qed.
End startup.

(** ** A database with identities and an index *)

Section examples.
Local Existing Instance list_heap.
Local Existing Instance list_heap_laws.
Local Existing Instance double_json.

Definition alice : UserRecord := MkUser "h1" "alice" RoleUser.
Definition bob : UserRecord := MkUser "h2" "bob" RoleAdmin.
Definition by_title : IndexDef := {| def_name := "by_title"; def_kind := "draft"; def_field := "title"; def_unique := false |}.

Definition first_day : list Operation := [OInsertUser alice; OCreateIndex by_title; OInsert note; OInsertUser bob; ORevokeUser "h1"].
Definition stocked : engine := run_ops first_day empty_engine.

Lemma lifetime_operations ops e e' : lifetime (N := double) e -> apply_operations (N := double) ops e = (e', Ok tt) -> lifetime (N := double) e'.
Proof.
  revert e. induction ops as [|op ops IH]; intros e Hl E; cbn [apply_operations] in E; [by injection E as <-|]. unfold mbind, m_bind in E.
  destruct (apply_operation op e) as [e1 [[]|]] eqn:E1; [|done]. eapply IH; [|exact E]. by eapply life_operation.
Qed.

Lemma run_ops_ok ops e : (apply_operations (N := double) ops e).2 = Ok tt -> apply_operations (N := double) ops e = (run_ops ops e, Ok tt).
Proof. unfold run_ops. intros E. rewrite <- E. by destruct (apply_operations ops e). Qed.

Lemma stocked_life : lifetime (N := double) stocked.
Proof. apply (lifetime_operations first_day empty_engine); [apply (life_created [])|]. apply run_ops_ok. vm_compute. reflexivity. Qed.

Lemma restart_restores_witness :
  load (open_engine (published stocked)) = (uncounted (published stocked), Ok tt) /\ e_users stocked = {["h2" := bob]} /\ fst <$> e_data stocked = {["by_title" := by_title]}.
Proof. split; [apply (restart_restores (N := double)), stocked_life|]. split; vm_compute; reflexivity. Defined.

(** The operations since the last checkpoint. *)
Definition second_day : list Operation := [ORevokeUser "h2"; OInsertUser alice; OArchive (history_now note 0 1); OInsert note2].
Definition opening_day : list Operation := [OInsertUser bob; OInsert note].
Definition opened_day : engine := run_ops opening_day empty_engine.
Definition last_seen : engine := run_ops second_day opened_day.

Lemma startup_after_crash_here :
  exists e1 e2, load (open_engine (crashed (e_store last_seen) opened_day last_seen)) = (e1, Ok tt) /\ apply_operations (N := double) second_day e1 = (e2, Ok tt) /\
    consistent (N := double) e2 (foldl logical_apply (MkLogical ∅ ∅ ∅) (opening_day ++ second_day)) /\ e_users e2 = {["h1" := alice]}.
Proof.
  assert (Hadm : forall e ops, validate_all (N := double) (declared_indexes e) ops = Ok tt -> Forall (fun op => is_data_operation op = true /\ data_ready op) ops -> batch_admitted (N := double) e ops) by (intros; by split).
  destruct (batch_step opening_day empty_engine (MkLogical ∅ ∅ ∅) 10 empty_consistent) as (e & E & Hc & _ & _); [cbn; lia| |].
  { apply Hadm; [vm_compute; reflexivity|]. by repeat constructor. }
  assert (Ee : e = opened_day) by (unfold opened_day, run_ops; by rewrite E). subst e.
  assert (Hl : lifetime (N := double) opened_day) by (apply (lifetime_operations opening_day empty_engine); [apply (life_created [])|done]).
  destruct (startup_after_crash second_day opened_day _ last_seen (e_store last_seen) 0 Hc Hl) as (e1 & e2 & H1 & H2 & H3 & H4 & _).
  - apply Hadm; [vm_compute; reflexivity|]. by repeat constructor.
  - apply run_ops_ok. vm_compute. reflexivity.
  - intros l r _. assert (e_store last_seen = e_store opened_day ++ drop (length (e_store opened_day)) (e_store last_seen)) as -> by (vm_compute; reflexivity).
    unfold store_read, list_heap. destruct (e_store opened_day !! Z.to_nat (loc_page l)) as [x|] eqn:Ex; [|done]. by rewrite (lookup_app_l_Some _ _ _ _ Ex).
  - vm_compute. discriminate.
  - exists e1, e2. rewrite foldl_app. split_and!; [done|done|done|]. rewrite H4. vm_compute. reflexivity.
Defined.
End examples.
