(* ===== verification/Cache.v ===== *)
(** * The record cache ([src/src/storage/cache.rs])

    A bounded map from the location of a record to the decoded node, which
    [node_at] consults before the heap.  The file models every operation of
    the cache and of the reads and writes that go through it, and proves that
    it never changes an answer and never outgrows its capacity. *)

From Stdlib Require Import ZArith Lia Ascii String.
From stdpp Require Import base tactics list strings option gmap.
From S2P Require Import Prelude Binary Entities Engine EngineTheorems Lru.

Local Open Scope Z_scope.

#[export] Instance location_countable : Countable record_location.
Proof.
  refine (inj_countable' (fun l => (loc_segment l, loc_page l, loc_slot l, loc_length l)) (fun '(a, b, c, d) => RecordLocation a b c d) _).
  by intros [].
Defined.

Definition DEFAULT_CAPACITY : nat := 4096.

Record RecordCache := MkCache {
  rc_entries : gmap record_location (Node * Z);
  rc_order : gmap Z record_location;   (* use order, oldest first *)
  rc_tick : Z;
  rc_capacity : nat;
}.

(** [configured] is the parsed value of [FACETQL_RECORD_CACHE], if there is one. *)
Definition cache_new (configured : option nat) : RecordCache :=
  MkCache ∅ ∅ 0 (match configured with Some n => if (0 <? n)%nat then n else DEFAULT_CAPACITY | None => DEFAULT_CAPACITY end).

Definition cache_get (l : record_location) (c : RecordCache) : RecordCache * option Node :=
  match rc_entries c !! l with
  | None => (c, None)
  | Some (n, previous) =>
      let tick := rc_tick c + 1 in
      (MkCache (<[l := (n, tick)]> (rc_entries c)) (<[tick := l]> (delete previous (rc_order c))) tick (rc_capacity c), Some n)
  end.

(** The loop that drops the oldest entries; it runs at most once per entry. *)
Fixpoint cache_evict (fuel : nat) (c : RecordCache) : RecordCache :=
  match fuel with
  | O => c
  | S fuel =>
      if (size (rc_entries c) <=? rc_capacity c)%nat then c
      else match oldest (rc_order c) with
           | None => c
           | Some (t, victim) =>
               cache_evict fuel (MkCache (delete victim (rc_entries c)) (delete t (rc_order c)) (rc_tick c) (rc_capacity c))
           end
  end.

Definition cache_put (l : record_location) (n : Node) (c : RecordCache) : RecordCache :=
  let order := match rc_entries c !! l with Some (_, previous) => delete previous (rc_order c) | None => rc_order c end in
  let tick := rc_tick c + 1 in
  let entries := <[l := (n, tick)]> (rc_entries c) in
  cache_evict (size entries) (MkCache entries (<[tick := l]> order) tick (rc_capacity c)).

Definition cache_invalidate (l : record_location) (c : RecordCache) : RecordCache :=
  match rc_entries c !! l with
  | None => c
  | Some (_, tick) => MkCache (delete l (rc_entries c)) (delete tick (rc_order c)) (rc_tick c) (rc_capacity c)
  end.

(** ** Reads and writes through the cache *)

Section cached.
Context {St : Type} `{RecordStoreLaws St}.
Implicit Types (c : RecordCache) (st : St).

(** [node_at]: the cache, then the heap. *)
Definition cached_node_at (l : record_location) c st : RecordCache * result error_kind Node :=
  match cache_get l c with
  | (c, Some n) => (c, Ok n)
  | (c, None) =>
      match store_read st l with
      | Ok (HNode n) => (cache_put l n c, Ok n)
      | Ok _ => (c, Err InvalidData)
      | Err x => (c, Err x)
      end
  end.

(** What the engine does to the heap and to the cache: read a node, append a node and cache it,
    append an edge or a history entry, drop the entry of a deleted node, count a record as obsolete. *)
Inductive access :=
| ARead (l : record_location)
| AInsert (n : Node)
| AAppend (r : HeapRecord)
| ADrop (l : record_location)
| AObsolete (l : record_location).

Inductive answer :=
| ANode (r : result error_kind Node)
| APlace (r : result error_kind record_location)
| ADone.

Definition access_step (a : access) (s : RecordCache * St) : (RecordCache * St) * answer :=
  let '(c, st) := s in
  match a with
  | ARead l => let '(c, r) := cached_node_at l c st in ((c, st), ANode r)
  | AInsert n => match store_append st (HNode n) with Ok (l, st) => ((cache_put l n c, st), APlace (Ok l)) | Err x => ((c, st), APlace (Err x)) end
  | AAppend r => match store_append st r with Ok (l, st) => ((c, st), APlace (Ok l)) | Err x => ((c, st), APlace (Err x)) end
  | ADrop l => ((cache_invalidate l c, st), ADone)
  | AObsolete l => ((c, store_mark_obsolete st l), ADone)
  end.

Fixpoint access_run (l : list access) (s : RecordCache * St) : (RecordCache * St) * list answer :=
  match l with
  | [] => (s, [])
  | a :: l => let '(s, r) := access_step a s in let '(s, rs) := access_run l s in (s, r :: rs)
  end.

(** The same without a cache. *)
Definition plain_step (a : access) st : St * answer :=
  match a with
  | ARead l => (st, ANode (match store_read st l with Ok (HNode n) => Ok n | Ok _ => Err InvalidData | Err x => Err x end))
  | AInsert n => match store_append st (HNode n) with Ok (l, st) => (st, APlace (Ok l)) | Err x => (st, APlace (Err x)) end
  | AAppend r => match store_append st r with Ok (l, st) => (st, APlace (Ok l)) | Err x => (st, APlace (Err x)) end
  | ADrop _ => (st, ADone)
  | AObsolete l => (store_mark_obsolete st l, ADone)
  end.

Fixpoint plain_run (l : list access) st : St * list answer :=
  match l with
  | [] => (st, [])
  | a :: l => let '(st, r) := plain_step a st in let '(st, rs) := plain_run l st in (st, r :: rs)
  end.

(** ** The invariant *)

Definition ticks_of c : gmap record_location Z := snd <$> rc_entries c.

Record cache_ok c : Prop := {
  cache_lru : lru_ok (ticks_of c) (rc_order c) (rc_tick c);
  cache_size : (size (rc_entries c) <= rc_capacity c)%nat;
  cache_positive : (0 < rc_capacity c)%nat;
}.

(** Every entry is the record at its location. *)
Definition coherent c st : Prop := forall l n t, rc_entries c !! l = Some (n, t) -> location_ok l /\ store_read st l = Ok (HNode n).

Lemma ticks_size c : size (ticks_of c) = size (rc_entries c).
Proof. apply map_size_fmap. Qed.

Lemma cache_ticks_lookup c l : ticks_of c !! l = snd <$> rc_entries c !! l.
Proof. apply lookup_fmap. Qed.

Lemma cache_new_ok configured : cache_ok (cache_new configured).
Proof.
  split; cbn [cache_new rc_order rc_tick rc_entries rc_capacity].
  - unfold ticks_of. cbn [cache_new rc_entries]. rewrite fmap_empty. apply lru_empty.
  - rewrite map_size_empty. lia.
  - unfold DEFAULT_CAPACITY. destruct configured as [n|]; [|lia]. destruct (Nat.ltb_spec 0 n); lia.
Qed.

Lemma new_coherent configured st : coherent (cache_new configured) st.
Proof. intros l n t Hl. cbn in Hl. by rewrite lookup_empty in Hl. Qed.

(** ** Each operation *)

Lemma cache_get_spec l c c' r st : cache_ok c -> coherent c st -> cache_get l c = (c', r) ->
  cache_ok c' /\ coherent c' st /\ rc_capacity c' = rc_capacity c /\ r = fst <$> rc_entries c !! l.
Proof.
  intros Hok Hco. unfold cache_get. destruct (rc_entries c !! l) as [[n previous]|] eqn:E; intros [= <- <-]; [|done].
  split_and!; try done.
  - split; cbn [rc_order rc_tick rc_entries rc_capacity]; [| |apply Hok].
    + unfold ticks_of. cbn [rc_entries]. rewrite fmap_insert. apply lru_touch; [apply Hok|]. by rewrite lookup_fmap, E.
    + rewrite map_size_insert_Some by done. apply Hok.
  - intros l' n' t'. cbn [rc_entries]. intros [[<- [= <- _]]|[_ Hl]]%lookup_insert_Some; [by apply Hco in E|by apply Hco in Hl].
Qed.

Lemma cache_evict_spec fuel c st : lru_ok (ticks_of c) (rc_order c) (rc_tick c) -> coherent c st ->
  let c' := cache_evict fuel c in
  lru_ok (ticks_of c') (rc_order c') (rc_tick c') /\ coherent c' st /\ rc_capacity c' = rc_capacity c /\
  (size (rc_entries c') <= Nat.max (rc_capacity c) (size (rc_entries c) - fuel))%nat.
Proof.
  revert c. induction fuel as [|fuel IH]; intros c Hl Hco; cbn [cache_evict]; [split_and!; [done|done|done|lia]|].
  destruct (Nat.leb_spec (size (rc_entries c)) (rc_capacity c)) as [Hle|Hgt]; [split_and!; [done|done|done|lia]|].
  destruct (lru_oldest _ _ _ Hl) as (t & v & -> & Hv); [rewrite ticks_size; lia|].
  pose proof Hv as Hv'. rewrite cache_ticks_lookup in Hv'. apply fmap_Some in Hv' as ([n t'] & Hv' & _).
  destruct (IH (MkCache (delete v (rc_entries c)) (delete t (rc_order c)) (rc_tick c) (rc_capacity c))) as (H1 & H2 & H3 & H4).
  - cbn [rc_order rc_tick]. unfold ticks_of. cbn [rc_entries]. rewrite fmap_delete. by apply lru_forget.
  - intros l n0 t0. cbn [rc_entries]. intros [_ Hd]%lookup_delete_Some. by apply Hco in Hd.
  - split_and!; [done|done|done|]. cbn [rc_entries rc_capacity] in H4. rewrite map_size_delete_Some in H4 by eauto. lia.
Qed.

Lemma cache_put_spec l n c st : cache_ok c -> coherent c st -> location_ok l -> store_read st l = Ok (HNode n) ->
  cache_ok (cache_put l n c) /\ coherent (cache_put l n c) st /\ rc_capacity (cache_put l n c) = rc_capacity c.
Proof.
  intros Hok Hco Hloc Hr. unfold cache_put. set (c1 := MkCache _ _ _ _).
  destruct (cache_evict_spec (size (rc_entries c1)) c1 st) as (H1 & H2 & H3 & H4).
  - unfold c1, ticks_of. cbn [rc_entries rc_order rc_tick]. rewrite fmap_insert. cbn [snd]. destruct (rc_entries c !! l) as [[m previous]|] eqn:E.
    + apply lru_touch; [apply Hok|]. by rewrite lookup_fmap, E.
    + apply lru_admit; [apply Hok|]. by rewrite lookup_fmap, E.
  - intros l' n' t'. cbn [rc_entries c1]. intros [[<- [= <- _]]|[_ Hl]]%lookup_insert_Some; [done|by apply Hco in Hl].
  - cbn [rc_entries c1] in *. change (rc_capacity c1) with (rc_capacity c) in *. split_and!; [|done|done].
    split; [done| |rewrite H3; apply Hok]. pose proof (cache_positive _ Hok). rewrite H3. lia.
Qed.

Lemma invalidate_spec l c st : cache_ok c -> coherent c st ->
  cache_ok (cache_invalidate l c) /\ coherent (cache_invalidate l c) st /\ rc_capacity (cache_invalidate l c) = rc_capacity c.
Proof.
  intros Hok Hco. unfold cache_invalidate. destruct (rc_entries c !! l) as [[n tick]|] eqn:E; [|done]. split_and!; [|intros l' n' t'|done].
  - split; cbn [rc_order rc_tick rc_entries rc_capacity]; [| |apply Hok].
    + unfold ticks_of. cbn [rc_entries]. rewrite fmap_delete. apply lru_forget; [apply Hok|]. by rewrite lookup_fmap, E.
    + rewrite map_size_delete_Some by eauto. pose proof (cache_size _ Hok). lia.
  - cbn [rc_entries]. intros [_ Hd]%lookup_delete_Some. by apply Hco in Hd.
Qed.

(** An access of the engine's: what it reads is a location, what it appends is within the size the heap takes. *)
Definition access_ok (a : access) : Prop := match a with ARead l => location_ok l | AInsert n => store_fits (HNode n) | AAppend r => store_fits r | _ => True end.

Lemma coherent_keeps c st st' : coherent c st -> keeps st st' -> coherent c st'.
Proof. intros Hco Hk l n t Hl. destruct (Hco l n t Hl). split; [done|]. by apply Hk. Qed.

Lemma access_step_spec a c st k : cache_ok c -> coherent c st -> store_room st (S k) -> access_ok a ->
  let s := access_step a (c, st) in let s' := plain_step a st in
  s.2 = s'.2 /\ s.1.2 = s'.1 /\ cache_ok s.1.1 /\ coherent s.1.1 s.1.2 /\ rc_capacity s.1.1 = rc_capacity c /\ store_room s.1.2 k.
Proof.
  intros Hok Hco Hroom Ha. pose proof (store_room_less _ _ Hroom) as Hroom'. destruct a as [l|n|r|l|l]; cbn [access_step plain_step access_ok] in *.
  - unfold cached_node_at. destruct (cache_get l c) as [c' o] eqn:Eg. destruct (cache_get_spec _ _ _ _ st Hok Hco Eg) as (Hok' & Hco' & Ecap & ->).
    destruct (rc_entries c !! l) as [[n t]|] eqn:E; cbn [fmap option_fmap option_map fst snd].
    + apply Hco in E as [_ E]. rewrite E. done.
    + destruct (store_read st l) as [[n| |]|] eqn:Er; cbn [fst snd]; try done.
      destruct (cache_put_spec l n c' st Hok' Hco' Ha Er) as (? & ? & ?). split_and!; try done. congruence.
  - destruct (store_append_ok st (HNode n) k Hroom Ha) as (l & st' & -> & Hloc & Hread & Hkeep & Hr'). cbn [fst snd].
    destruct (cache_put_spec l n c st' Hok) as (? & ? & ?); [by eapply coherent_keeps|done|done|done].
  - destruct (store_append_ok st r k Hroom Ha) as (l & st' & -> & _ & _ & Hkeep & Hr'). cbn [fst snd]. split_and!; try done. by eapply coherent_keeps.
  - destruct (invalidate_spec l c st Hok Hco) as (? & ? & ?). done.
  - destruct (store_mark_ok st l k Hroom') as [Hkeep Hr']. cbn [fst snd]. split_and!; try done. by eapply coherent_keeps.
Qed.

(** The record cache only saves work.  Whatever its capacity and whatever it holds, as long as its
    entries are the records of the heap, any sequence of reads, writes, deletes and obsolescence marks
    answers exactly as without a cache and leaves the same heap; the entries stay the records of the heap
    and never number more than the capacity. *)
Theorem cache_transparent l c st : cache_ok c -> coherent c st -> store_room st (length l) -> Forall access_ok l ->
  let s := access_run l (c, st) in
  s.2 = (plain_run l st).2 /\ s.1.2 = (plain_run l st).1 /\ coherent s.1.1 s.1.2 /\
  (size (rc_entries s.1.1) <= rc_capacity c)%nat.
Proof.
  cbv zeta. revert c st. induction l as [|a l IH]; intros c st Hok Hco Hroom Hl; cbn [access_run plain_run]; [split_and!; try done; apply Hok|].
  apply Forall_cons_1 in Hl as [Ha Hl]. destruct (access_step_spec a c st (length l) Hok Hco Hroom Ha) as (Er & Es & Hok' & Hco' & Ecap & Hroom').
  destruct (access_step a (c, st)) as [[c' st'] r], (plain_step a st) as [st'' r']. cbn [fst snd] in *. subst.
  destruct (IH c' st'' Hok' Hco' Hroom' Hl) as (Ers & Est & Hco2 & Hsz).
  destruct (access_run l (c', st'')) as [s rs], (plain_run l st'') as [st3 rs']. cbn [fst snd] in *. rewrite Ers, <- Ecap. done.
Qed.
End cached.

(** A cache of one entry under two nodes: the second write evicts the first, and both still read. *)
Section examples.
Local Existing Instance list_heap.
Local Existing Instance list_heap_laws.
Local Open Scope string_scope.

Definition cached_node (address : string) : Node := node_new {| coord_x := 0; coord_y := 0; coord_z := 0; coord_q := 0 |} address "k" "me".
Definition cached_pair : list access :=
  [AInsert (cached_node "a"); AInsert (cached_node "b"); ARead (RecordLocation 0 0 0 0); ARead (RecordLocation 0 1 0 0)].

Lemma cache_transparent_witness :
  (access_run cached_pair (cache_new (Some 1%nat), [])).2 = (plain_run cached_pair []).2 /\
  (size (rc_entries (access_run cached_pair (cache_new (Some 1%nat), [])).1.1) <= 1)%nat.
Proof.
  destruct (cache_transparent cached_pair (cache_new (Some 1%nat)) [] (cache_new_ok (Some 1%nat)) (new_coherent _ _)) as (H1 & _ & _ & H2); [cbn; lia|repeat constructor; unfold location_ok; cbn; lia|].
  split; [exact H1|exact H2].
Defined.
End examples.
