(* ===== verification/Heap.v ===== *)
(** * The catalog and the record heap
    ([src/src/storage/catalog.rs], [src/src/storage/heap.rs])

    Records live in slotted pages of segment files, each behind a pager.  A
    record that does not fit in a page is a chain of overflow pages reached
    from a stub cell.  The catalog says which segments exist and how long each
    is.  The file models the catalog's file format, the bounded table of open
    segments, appending with its segment rolls and overflow chains, reading,
    the scan and the retirement of a segment; [HeapTheorems.v] proves that
    this heap keeps the contract the engine is verified against. *)

From Stdlib Require Import ZArith Lia SpecFloat.
From stdpp Require Import base tactics list option gmap sorting.
From S2P Require Import Prelude Crypto Binary Page PageSpec Json Engine Lru Pager.

Local Open Scope Z_scope.

(** ** The catalog *)

Definition DATABASE_FORMAT_VERSION : Z := 1.

Record SegmentMeta := MkSegment { sg_id : Z; sg_pages : Z; sg_obsolete_bytes : Z }.

Record CatalogData := MkCatalog {
  cd_format_version : Z;
  cd_page_size : Z;
  cd_next_segment : Z;
  cd_active_segment : Z;
  cd_segments : list SegmentMeta;
}.

Definition fresh_catalog : CatalogData :=
  MkCatalog DATABASE_FORMAT_VERSION (Z.of_nat PAGE_SIZE) 1 0 [MkSegment 0 0 0].

Definition set_segments (c : CatalogData) (l : list SegmentMeta) : CatalogData :=
  MkCatalog (cd_format_version c) (cd_page_size c) (cd_next_segment c) (cd_active_segment c) l.

(** [segments.iter().find(..)]: the first segment with the identifier. *)
Fixpoint find_first (id : Z) (l : list SegmentMeta) : option SegmentMeta :=
  match l with
  | [] => None
  | m :: l => if sg_id m =? id then Some m else find_first id l
  end.

Definition find_segment (c : CatalogData) (id : Z) : option SegmentMeta := find_first id (cd_segments c).

(** [segments.iter_mut().find(..)] *)
Fixpoint update_first (id : Z) (f : SegmentMeta -> SegmentMeta) (l : list SegmentMeta) : list SegmentMeta :=
  match l with
  | [] => []
  | m :: l => if sg_id m =? id then f m :: l else m :: update_first id f l
  end.

Definition update_segment (c : CatalogData) (id : Z) (f : SegmentMeta -> SegmentMeta) : CatalogData :=
  set_segments c (update_first id f (cd_segments c)).

Section catalog.
Context `{Aead} `{Bincode CatalogData}.

Definition catalog_encode (nonce : list Z) (data : CatalogData) : result error_kind (list Z) :=
  match bincode_serialize data with
  | None => Err InvalidData
  | Some plain => encode_frame (encrypt nonce plain)
  end.

Definition catalog_decode (b : list Z) : result error_kind CatalogData :=
  payload ← decode_frame b;
  match decrypt payload with
  | None => Err InvalidData
  | Some plain => match bincode_deserialize plain with None => Err InvalidData | Some data => Ok data end
  end.

(** [None] is a file that does not exist. *)
Definition catalog_open (file : option (list Z)) : result error_kind CatalogData :=
  match file with
  | None => Ok fresh_catalog
  | Some b =>
      data ← catalog_decode b;
      if negb (cd_format_version data =? DATABASE_FORMAT_VERSION) then Err InvalidData
      else if negb (cd_page_size data =? Z.of_nat PAGE_SIZE) then Err InvalidData
      else Ok data
  end.
End catalog.

(** ** The heap *)

Definition MAX_PAGES_PER_SEGMENT : Z := 4096.
(** ["FQOV"]. *)
Definition OVERFLOW_MAGIC : list Z := [70; 81; 79; 86].
Definition OVERFLOW_STUB_LEN : nat := 12.
Definition DEFAULT_OPEN_SEGMENTS : nat := 64.

Record OpenSegments := MkOpen {
  os_pagers : gmap Z (PagerInner * Z);
  os_order : gmap Z Z;   (* use order, oldest first *)
  os_tick : Z;
}.

(** The catalog in memory and as last saved, the open segments, and the files of the others. *)
Record heap := MkHeap {
  hp_catalog : CatalogData;
  hp_saved : CatalogData;
  hp_open : OpenSegments;
  hp_files : gmap Z (list Z);
}.

Definition set_catalog (h : heap) (c : CatalogData) : heap := MkHeap c (hp_saved h) (hp_open h) (hp_files h).
Definition set_open (h : heap) (o : OpenSegments) : heap := MkHeap (hp_catalog h) (hp_saved h) o (hp_files h).
Definition set_files (h : heap) (f : gmap Z (list Z)) : heap := MkHeap (hp_catalog h) (hp_saved h) (hp_open h) f.

(** An error keeps what was done before it. *)
Definition HM (A : Type) : Type := heap -> heap * result error_kind A.

#[global] Instance h_ret : MRet HM := fun A a h => (h, Ok a).
#[global] Instance h_bind : MBind HM := fun A B f m h =>
  match m h with
  | (h, Ok a) => f a h
  | (h, Err x) => (h, Err x)
  end.

Definition h_get {A} (f : heap -> A) : HM A := fun h => (h, Ok (f h)).
Definition h_modify (f : heap -> heap) : HM unit := fun h => (f h, Ok tt).
Definition h_fail {A} (x : error_kind) : HM A := fun h => (h, Err x).
Definition h_lift {A} (r : result error_kind A) : HM A := fun h => (h, r).

(** *** The table of open segments *)

Definition os_touch (id previous : Z) (o : OpenSegments) : OpenSegments :=
  let tick := os_tick o + 1 in
  MkOpen (match os_pagers o !! id with Some (p, _) => <[id := (p, tick)]> (os_pagers o) | None => os_pagers o end)
    (<[tick := id]> (delete previous (os_order o))) tick.

Definition os_admit (id : Z) (p : PagerInner) (o : OpenSegments) : OpenSegments :=
  let tick := os_tick o + 1 in
  MkOpen (<[id := (p, tick)]> (os_pagers o)) (<[tick := id]> (os_order o)) tick.

Definition os_forget (id : Z) (o : OpenSegments) : OpenSegments :=
  match os_pagers o !! id with
  | Some (_, tick) => MkOpen (delete id (os_pagers o)) (delete tick (os_order o)) (os_tick o)
  | None => o
  end.

(** A segment may close when it is open, not the active one, and no caller holds it. *)
Definition may_close (o : OpenSegments) (active held : Z) (x : Z * Z) : Prop :=
  x.2 <> active /\ x.2 <> held /\ is_Some (os_pagers o !! x.2).

#[export] Instance may_close_dec o active held x : Decision (may_close o active held x).
Proof. unfold may_close. apply _. Defined.

Section heap.
Context `{Aead} (nonces : nat -> list Z) (cache_pages : option nat) (open_capacity : nat) `{Bincode HeapRecord}.

(** [held] is the segment whose pager the caller has just been given. *)
Fixpoint evict_down_to (fuel : nat) (active held : Z) : HM unit := fun h =>
  match fuel with
  | O => (h, Ok tt)
  | S fuel =>
      if (size (os_pagers (hp_open h)) <=? open_capacity)%nat then (h, Ok tt)
      else match list_find (may_close (hp_open h) active held) (in_order (os_order (hp_open h))) with
           | None => (h, Ok tt)
           | Some (_, (tick, id)) =>
               let o := MkOpen (os_pagers (hp_open h)) (delete tick (os_order (hp_open h))) (os_tick (hp_open h)) in
               match os_pagers o !! id with
               | None => evict_down_to fuel active held (set_open h o)
               | Some (p, _) =>
                   let o := MkOpen (delete id (os_pagers o)) (os_order o) (os_tick o) in
                   match flush nonces p with
                   | (p, Ok _) => evict_down_to fuel active held (set_files (set_open h o) (<[id := pi_file p]> (hp_files h)))
                   | (p, Err x) => (set_files (set_open h o) (<[id := pi_file p]> (hp_files h)), Err x)
                   end
               end
           end
  end.

(** [RecordStore::pager]: the segment is open afterwards. *)
Definition heap_pager (id : Z) : HM unit := fun h =>
  match os_pagers (hp_open h) !! id with
  | Some (_, previous) => (set_open h (os_touch id previous (hp_open h)), Ok tt)
  | None =>
      match find_segment (hp_catalog h) id with
      | None => (h, Err NotFound)
      | Some meta =>
          let p := set_page_count (sg_pages meta) (pager_open (default [] (hp_files h !! id)) cache_pages) in
          let h := set_open h (os_admit id p (hp_open h)) in
          evict_down_to (size (os_pagers (hp_open h))) (cd_active_segment (hp_catalog h)) id h
      end
  end.

(** A call on the pager of an open segment. *)
Definition on_pager {A} (id : Z) (f : PagerInner -> PagerInner * result error_kind A) : HM A := fun h =>
  match os_pagers (hp_open h) !! id with
  | None => (h, Err OtherError)
  | Some (p, tick) =>
      let '(p, r) := f p in
      (set_open h (MkOpen (<[id := (p, tick)]> (os_pagers (hp_open h))) (os_order (hp_open h)) (os_tick (hp_open h))), r)
  end.

(** *** Appending *)

Definition active_segment (h : heap) : Z * Z :=
  let id := cd_active_segment (hp_catalog h) in
  (id, match find_segment (hp_catalog h) id with Some m => sg_pages m | None => 0 end).

Definition set_pages (segment pages : Z) : HM unit :=
  h_modify (fun h => set_catalog h (update_segment (hp_catalog h) segment (fun m => MkSegment (sg_id m) pages (sg_obsolete_bytes m)))).

Definition roll : HM Z := fun h =>
  let c := hp_catalog h in
  let id := cd_next_segment c in
  (set_catalog h (MkCatalog (cd_format_version c) (cd_page_size c) ((id + 1) mod 2 ^ 32) id (cd_segments c ++ [MkSegment id 0 0])), Ok id).

Definition extend (segment pages : Z) : HM (Z * Z) :=
  _ ← heap_pager segment;
  _ ← set_pages segment ((pages + 1) mod 2 ^ 32);
  mret (segment, pages).

Definition grow (segment pages : Z) : HM (Z * Z) :=
  if MAX_PAGES_PER_SEGMENT <=? pages then
    fresh ← roll;
    _ ← heap_pager fresh;
    _ ← set_pages fresh 1;
    mret (fresh, 0)
  else extend segment pages.

(** The cell in the last page of the segment, when that is a heap page with room. *)
Definition append_to_last (segment pages : Z) (cell : list Z) : HM (option (Z * Z * Z)) :=
  if 0 <? pages then
    _ ← heap_pager segment;
    pg ← on_pager segment (page_read nonces (pages - 1));
    if decide (kind pg = Heap) then
      match push_cell pg cell with
      | (pg, Some slot) =>
          _ ← on_pager segment (page_write nonces (pages - 1) pg);
          mret (Some (segment, pages - 1, Z.of_nat slot mod 2 ^ 16))
      | (_, None) => mret None
      end
    else mret None
  else mret None.

Definition append_cell_to (segment pages : Z) (cell : list Z) (allow_roll : bool) : HM (Z * Z * Z) :=
  placed ← append_to_last segment pages cell;
  match placed with
  | Some at_ => mret at_
  | None =>
      target ← (if allow_roll then grow segment pages else extend segment pages);
      match push_cell (page_new Heap) cell with
      | (_, None) => h_fail InvalidData
      | (pg, Some slot) =>
          _ ← on_pager target.1 (page_write nonces target.2 pg);
          mret (target.1, target.2, Z.of_nat slot mod 2 ^ 16)
      end
  end.

Definition append_cell (cell : list Z) : HM (Z * Z * Z) :=
  at_ ← h_get active_segment;
  append_cell_to at_.1 at_.2 cell true.

(** [slice::chunks]; one chunk per step. *)
Fixpoint chunks_of (fuel n : nat) (l : list Z) : list (list Z) :=
  match fuel, l with
  | _, [] | O, _ => []
  | S fuel, _ => take n l :: chunks_of fuel n (drop n l)
  end.

Definition chunks (n : nat) (l : list Z) : list (list Z) := chunks_of (length l) n l.

(** The chain, last chunk first; the answer is the page of the first chunk and the new length. *)
Fixpoint write_chain (segment : Z) (cs : list (list Z)) (next pages : Z) : HM (Z * Z) :=
  match cs with
  | [] => mret (next, pages)
  | c :: cs =>
      match push_cell (set_extra (page_new Overflow) next) c with
      | (_, None) => h_fail OtherError
      | (pg, Some _) =>
          _ ← on_pager segment (page_write nonces pages pg);
          _ ← set_pages segment ((pages + 1) mod 2 ^ 32);
          write_chain segment cs pages ((pages + 1) mod 2 ^ 32)
      end
  end.

Definition stub_of (total next : Z) : list Z := OVERFLOW_MAGIC ++ le_bytes 4 total ++ le_bytes 4 next.

Definition append_overflow (frame : list Z) : HM record_location :=
  active ← h_get active_segment;
  start ← (if MAX_PAGES_PER_SEGMENT <=? active.2 then fresh ← roll; mret (fresh, 0) else mret active);
  _ ← heap_pager start.1;
  chain ← write_chain start.1 (reverse (chunks MAX_CELL_LEN frame)) 0 start.2;
  at_ ← append_cell_to start.1 chain.2 (stub_of (Z.of_nat (length frame)) chain.1) false;
  mret (RecordLocation start.1 at_.1.2 at_.2 (Z.of_nat (length frame))).

Definition append (record : HeapRecord) : HM record_location :=
  match bincode_serialize record with
  | None => h_fail InvalidData
  | Some plain =>
      frame ← h_lift (encode_frame plain);
      if (MAX_CELL_LEN <? length frame)%nat then append_overflow frame
      else at_ ← append_cell frame; mret (RecordLocation at_.1.1 at_.1.2 at_.2 (Z.of_nat (length frame)))
  end.

(** *** Reading *)

Definition is_overflow_stub (cell : list Z) : bool :=
  (length cell =? OVERFLOW_STUB_LEN)%nat && bool_decide (slice cell 0 4 = OVERFLOW_MAGIC).

Definition stub_total (cell : list Z) : Z := le_val (slice cell 4 8).
Definition stub_next (cell : list Z) : Z := le_val (slice cell 8 12).

(** At most [links] more pages. *)
Fixpoint read_chain (segment total : Z) (links : nat) (next : Z) (frame : list Z) : HM (list Z) :=
  if total <=? Z.of_nat (length frame) then
    if Z.of_nat (length frame) =? total then mret frame else h_fail InvalidData
  else match links with
       | O => h_fail InvalidData
       | S links =>
           chain ← on_pager segment (page_read nonces next);
           if decide (kind chain = Overflow) then
             match cell chain 0 with
             | None => h_fail InvalidData
             | Some chunk => read_chain segment total links (extra chain) (frame ++ chunk)
             end
           else h_fail InvalidData
       end.

Definition max_links (total : Z) : nat :=
  Z.to_nat (Z.max 1 ((total + Z.of_nat MAX_CELL_LEN - 1) / Z.of_nat MAX_CELL_LEN)).

Definition read_frame (l : record_location) : HM (list Z) :=
  _ ← heap_pager (loc_segment l);
  pg ← on_pager (loc_segment l) (page_read nonces (loc_page l));
  match cell pg (Z.to_nat (loc_slot l)) with
  | None => h_fail InvalidData
  | Some c =>
      if negb (is_overflow_stub c) then mret c
      else if MAX_RECORD_FRAME_LEN <? stub_total c then h_fail InvalidData
      else read_chain (loc_segment l) (stub_total c) (max_links (stub_total c)) (stub_next c) []
  end.

Definition read (l : record_location) : HM HeapRecord :=
  b ← read_frame l;
  payload ← h_lift (decode_frame b);
  match bincode_deserialize payload with None => h_fail InvalidData | Some r => mret r end.

(** *** Space accounting, scans and retirement *)

Definition mark_obsolete (l : record_location) : HM unit :=
  h_modify (fun h => set_catalog h (update_segment (hp_catalog h) (loc_segment l)
    (fun m => MkSegment (sg_id m) (sg_pages m) (Z.min (2 ^ 64 - 1) (sg_obsolete_bytes m + loc_length l))))).

Definition worth_draining (ratio : f64) (c : CatalogData) (m : SegmentMeta) : bool :=
  let capacity := sg_pages m * Z.of_nat PAGE_BODY_LEN in
  negb (sg_id m =? cd_active_segment c) && (0 <? sg_pages m) && (0 <? capacity) &&
  SFleb (f64_mul (f64_of_Z capacity) ratio) (f64_of_Z (sg_obsolete_bytes m)).

Definition compaction_candidates (ratio : f64) (h : heap) : list Z :=
  map sg_id (filter (fun m => worth_draining ratio (hp_catalog h) m = true) (cd_segments (hp_catalog h))).

(** The slots of a page from [slot] on. *)
Fixpoint scan_slots {S} (visit : S -> record_location -> HeapRecord -> result error_kind S) (segment page_id : Z) (pg : page)
    (slots : list nat) (s : S) : HM S :=
  match slots with
  | [] => mret s
  | slot :: slots =>
      match cell pg slot with
      | None => scan_slots visit segment page_id pg slots s
      | Some c =>
          let length := if is_overflow_stub c then stub_total c else Z.of_nat (length c) in
          let l := RecordLocation segment page_id (Z.of_nat slot mod 2 ^ 16) length in
          record ← read l;
          s ← h_lift (visit s l record);
          scan_slots visit segment page_id pg slots s
      end
  end.

Fixpoint scan_pages {S} (visit : S -> record_location -> HeapRecord -> result error_kind S) (segment : Z) (ids : list nat) (s : S) : HM S :=
  match ids with
  | [] => mret s
  | i :: ids => fun h =>
      let page_id := Z.of_nat i in
      match on_pager segment (page_read nonces page_id) h with
      | (h, Err x) =>
          match x with
          | UnexpectedEof | NotFound | InvalidInput => scan_pages visit segment ids s h
          | x => (h, Err x)
          end
      | (h, Ok pg) =>
          if decide (kind pg = Heap) then
            (s ← scan_slots visit segment page_id pg (seq 0 (slot_count pg)) s; scan_pages visit segment ids s) h
          else scan_pages visit segment ids s h
      end
  end.

Definition scan_segment {S} (segment : Z) (visit : S -> record_location -> HeapRecord -> result error_kind S) (s : S) : HM S :=
  _ ← heap_pager segment;
  pages ← on_pager segment (fun p => (p, Ok (pi_page_count p)));
  scan_pages visit segment (seq 0 (Z.to_nat pages)) s.

(** Saving the catalog is atomic: the file is the old one or the new one. *)
Definition save_catalog : HM unit := h_modify (fun h => MkHeap (hp_catalog h) (hp_catalog h) (hp_open h) (hp_files h)).

Definition drop_segment (segment : Z) : HM unit :=
  _ ← h_modify (fun h => set_catalog h (set_segments (hp_catalog h) (filter (fun m => sg_id m <> segment) (cd_segments (hp_catalog h)))));
  _ ← save_catalog;
  h_modify (fun h => set_files (set_open h (os_forget segment (hp_open h))) (delete segment (hp_files h))).

Fixpoint flush_each (ids : list Z) : HM unit :=
  match ids with
  | [] => mret tt
  | id :: ids => _ ← on_pager id (flush nonces); flush_each ids
  end.

Definition sync : HM unit :=
  ids ← h_get (fun h => map fst (map_to_list (os_pagers (hp_open h))));
  _ ← flush_each ids;
  save_catalog.

(** [Catalog::open] and [RecordStore::open], on the files a shutdown or a crash leaves. *)
Definition open_heap (catalog : CatalogData) (files : gmap Z (list Z)) : heap :=
  MkHeap catalog catalog (MkOpen ∅ ∅ 0) files.
End heap.
