(* ===== verification/HeapRep.v ===== *)
(** * The pages of the heap, whatever is in memory

    What the record heap of [Heap.v] holds, as a map from segments to lists of
    pages: [files_rep] ties it to the open pagers and the closed files,
    [catalog_rep] to the catalog.  Opening and closing segments changes
    neither; reading a page is a lookup; writing one is an update or an
    extension of its list. *)

From Stdlib Require Import ZArith Lia.
From stdpp Require Import base tactics list option gmap sorting.
From S2P Require Import Prelude Crypto Binary Page PageSpec BTree Engine Lru Pager Heap.

Local Open Scope Z_scope.

Abbreviation segments := (gmap Z (list apage)).

(** ** The catalog *)

Record catalog_rep (c : CatalogData) (lens : gmap Z nat) : Prop := {
  cat_segment id : match find_segment c id with Some m => lens !! id = Some (Z.to_nat (sg_pages m)) /\ 0 <= sg_pages m | None => lens !! id = None end;
  cat_ids id n : lens !! id = Some n -> 0 <= id < cd_next_segment c;
  cat_active : is_Some (lens !! cd_active_segment c);
}.

Lemma find_first_id id l m : find_first id l = Some m -> sg_id m = id.
Proof. induction l as [|x l IH]; cbn [find_first]; [done|]. destruct (Z.eqb_spec (sg_id x) id); [by intros [= <-]|done]. Qed.

Lemma find_update l id f id' : (forall m, sg_id (f m) = sg_id m) ->
  find_first id' (update_first id f l) = if decide (id' = id) then f <$> find_first id' l else find_first id' l.
Proof.
  intros Hf. induction l as [|m l IH]; cbn [update_first find_first]; [by case_decide|].
  destruct (Z.eqb_spec (sg_id m) id) as [E|E]; cbn [find_first].
  - rewrite Hf, E. destruct (Z.eqb_spec id id') as [<-|E']; [by rewrite decide_True|]. by case_decide.
  - destruct (Z.eqb_spec (sg_id m) id') as [E'|E']; [|done]. rewrite decide_False by lia. done.
Qed.

Lemma find_app l m id : find_first id (l ++ [m]) = match find_first id l with Some x => Some x | None => if sg_id m =? id then Some m else None end.
Proof. induction l as [|x l IH]; cbn [app find_first]; [done|]. by destruct (sg_id x =? id). Qed.

Lemma find_filter l id id' : find_first id' (filter (fun m => sg_id m <> id) l) = if decide (id' = id) then None else find_first id' l.
Proof.
  induction l as [|m l IH]; [cbn; by case_decide|]. rewrite filter_cons. cbn [find_first]. destruct (decide (sg_id m <> id)) as [Hm|Hm]; cbn [find_first]; rewrite IH.
  - destruct (Z.eqb_spec (sg_id m) id') as [<-|]; [|done]. by rewrite decide_False.
  - assert (sg_id m = id) as <- by (by apply dec_stable). destruct (Z.eqb_spec (sg_id m) id') as [<-|]; [|done]. by case_decide.
Qed.

(** A catalog that counts other pages, or other obsolete bytes, of one segment. *)
Lemma catalog_updated c lens id f n : catalog_rep c lens -> is_Some (lens !! id) -> (forall m, sg_id (f m) = sg_id m) ->
  (forall m, find_segment c id = Some m -> 0 <= sg_pages (f m) /\ Z.to_nat (sg_pages (f m)) = n) ->
  catalog_rep (update_segment c id f) (<[id := n]> lens).
Proof.
  intros [Hs Hi Ha] [n0 Hid] Hf Hn. split; cbn [update_segment set_segments cd_next_segment cd_active_segment].
  - intros id'. unfold find_segment in *. cbn [update_segment set_segments cd_segments]. rewrite find_update by done. case_decide as E.
    + subst id'. rewrite lookup_insert_eq. specialize (Hs id). destruct (find_first id (cd_segments c)) as [m|]; [|congruence].
      cbn [fmap option_fmap option_map]. destruct (Hn m eq_refl) as [? ->]. done.
    + rewrite lookup_insert_ne by done. apply Hs.
  - intros id' n' [[<- _]|[_ Hl]]%lookup_insert_Some; [by apply Hi in Hid|by apply Hi in Hl].
  - rewrite lookup_insert_is_Some'. by right.
Qed.

Lemma catalog_marked c lens id f : catalog_rep c lens -> (forall m, sg_id (f m) = sg_id m) -> (forall m, sg_pages (f m) = sg_pages m) ->
  catalog_rep (update_segment c id f) lens.
Proof.
  intros [Hs Hi Ha] Hf Hp. split; cbn [update_segment set_segments cd_next_segment cd_active_segment]; [|done|done].
  intros id'. specialize (Hs id'). unfold find_segment in *. cbn [update_segment set_segments cd_segments]. rewrite find_update by done.
  case_decide; [|done]. destruct (find_first id' (cd_segments c)); cbn [fmap option_fmap option_map]; [by rewrite Hp|done].
Qed.

Lemma catalog_rolled c lens : catalog_rep c lens -> cd_next_segment c + 1 < 2 ^ 32 -> 
  let id := cd_next_segment c in
  catalog_rep (MkCatalog (cd_format_version c) (cd_page_size c) ((id + 1) mod 2 ^ 32) id (cd_segments c ++ [MkSegment id 0 0])) (<[id := 0%nat]> lens).
Proof.
  intros [Hs Hi Ha] Hb id. assert (0 <= id) as Hpos by (destruct Ha as [n Hn]; apply Hi in Hn; unfold id; lia).
  assert (lens !! id = None) as Hfresh by (destruct (lens !! id) as [n|] eqn:E; [apply Hi in E; unfold id in E; lia|done]).
  rewrite Z.mod_small by (unfold id in *; lia). split; cbn [cd_next_segment cd_active_segment].
  - intros id'. specialize (Hs id'). unfold find_segment in *. cbn [cd_segments]. rewrite find_app. cbn [sg_id].
    destruct (find_first id' (cd_segments c)) as [m|] eqn:E.
    + rewrite lookup_insert_ne; [done|]. intros <-. destruct Hs. congruence.
    + destruct (Z.eqb_spec id id') as [<-|Hne]; [by rewrite lookup_insert_eq|by rewrite lookup_insert_ne].
  - intros id' n [[<- _]|[_ Hl]]%lookup_insert_Some; [lia|apply Hi in Hl; unfold id; lia].
  - by rewrite lookup_insert_eq.
Qed.

(** ** The files *)

Section files.
Context `{Aead} (nonces : nat -> list Z) (cache_pages : option nat) (open_capacity : nat) `{Bincode HeapRecord}.
Hypothesis nonce_length : forall i, length (nonces i) = NONCE_LEN.
Implicit Types (h : heap) (segs : segments).

Definition pager_holds (p : PagerInner) (l : list apage) : Prop := exists w d, pager_rep p (map_seqZ 0 l) (Z.of_nat (length l)) w d.

Record files_rep h segs : Prop := {
  fr_open id p t : os_pagers (hp_open h) !! id = Some (p, t) -> exists l, segs !! id = Some l /\ pager_holds p l;
  fr_closed id l i a : segs !! id = Some l -> os_pagers (hp_open h) !! id = None -> l !! i = Some a -> on_file (default [] (hp_files h !! id)) (Z.of_nat i) a;
}.

Lemma map_seqZ_0 (l : list apage) id a : (map_seqZ 0 l : gmap Z apage) !! id = Some a <-> 0 <= id /\ l !! Z.to_nat id = Some a.
Proof. rewrite lookup_map_seqZ_Some. by rewrite Z.sub_0_r. Qed.

(** A segment that is opened: the catalog's count, whatever the length of the file. *)
Lemma opened_holds file l : (forall i a, l !! i = Some a -> on_file file (Z.of_nat i) a) ->
  pager_holds (set_page_count (Z.of_nat (length l)) (pager_open file cache_pages)) l.
Proof.
  intros Hl. exists ∅, (map_seqZ 0 l). split; [split|..]; cbn [set_page_count pager_open pi_page_count pi_cache pi_file pi_order pi_tick pi_capacity].
  - done.
  - intros id a [Hid Ha]%map_seqZ_0. apply lookup_lt_Some in Ha. lia.
  - intros id e He. by rewrite lookup_empty in He.
  - intros id a [Hid Ha]%map_seqZ_0 _. apply Hl in Ha. by rewrite Z2Nat.id in Ha.
  - done.
  - unfold ticks_of. cbn [set_page_count pager_open pi_cache]. rewrite fmap_empty. apply lru_empty.
  - rewrite map_size_empty. lia.
  - unfold DEFAULT_CACHE_PAGES. destruct cache_pages as [n|]; [|lia]. destruct (Nat.ltb_spec 0 n); lia.
Qed.

(** A segment that is closed: flushed first, all of it is on the file. *)
Lemma flushed_file p l : pager_holds p l -> exists p', flush nonces p = (p', Ok tt) /\ pager_holds p' l /\ forall i a, l !! i = Some a -> on_file (pi_file p') (Z.of_nat i) a.
Proof.
  intros (w & d & Hp). destruct (flush_spec nonces nonce_length p _ _ _ _ Hp) as (p' & -> & Hp' & _). exists p'. split; [done|]. split; [by exists ∅, (map_seqZ 0 l)|].
  intros i a Hi. apply (rep_file _ _ _ _ _ (rep_pages _ _ _ _ _ Hp')).
  - apply map_seqZ_0. rewrite Nat2Z.id. split; [lia|done].
  - intros e He. destruct (en_dirty e) eqn:Hd; [|done]. destruct (rep_cached _ _ _ _ _ (rep_pages _ _ _ _ _ Hp') _ _ He) as (_ & _ & Hw). by apply Hw in Hd.
Qed.

(** What opening and closing segments leaves alone. *)
Definition same_heap h h' : Prop := hp_catalog h' = hp_catalog h /\ hp_saved h' = hp_saved h.

Lemma evict_down_to_spec fuel active held h segs : files_rep h segs -> is_Some (os_pagers (hp_open h) !! held) ->
  exists h', evict_down_to nonces open_capacity fuel active held h = (h', Ok tt) /\ files_rep h' segs /\ same_heap h h' /\ is_Some (os_pagers (hp_open h') !! held).
Proof.
  revert h. induction fuel as [|fuel IH]; intros h Hf Hheld; cbn [evict_down_to]; [by exists h|].
  destruct (_ <=? _)%nat; [by exists h|]. destruct (list_find _ _) as [[i [tick id]]|] eqn:E; [|by exists h].
  apply list_find_Some in E as (_ & (Hna & Hnh & [[p t] Hp]) & _). cbn [snd] in *. cbn [os_pagers]. rewrite Hp.
  destruct (fr_open _ _ Hf id p t Hp) as (l & Hl & Hh). destruct (flushed_file p l Hh) as (p' & -> & _ & Hon).
  set (h1 := set_files _ _). destruct (IH h1) as (h' & -> & Hf' & [Hcat Hsav] & Hheld').
  - split; cbn [h1 set_files set_open hp_open hp_files os_pagers].
    + intros id' p0 t0 [_ Hp0]%lookup_delete_Some. by apply (fr_open _ _ Hf) in Hp0.
    + intros id' l' i' a Hl' Hc Ha. destruct (decide (id' = id)) as [->|Hne].
      * rewrite lookup_insert_eq. cbn [default]. rewrite Hl in Hl'. injection Hl' as <-. by apply Hon.
      * rewrite lookup_delete_ne in Hc by done. rewrite lookup_insert_ne by done. by eapply (fr_closed _ _ Hf).
  - cbn [h1 set_files set_open hp_open os_pagers]. by rewrite lookup_delete_ne.
  - exists h'. done.
Qed.

Lemma heap_pager_ok id h segs l : files_rep h segs -> catalog_rep (hp_catalog h) (length <$> segs) -> segs !! id = Some l ->
  exists h', heap_pager nonces cache_pages open_capacity id h = (h', Ok tt) /\ files_rep h' segs /\ same_heap h h' /\ is_Some (os_pagers (hp_open h') !! id).
Proof.
  intros Hf Hc Hl. unfold heap_pager. destruct (os_pagers (hp_open h) !! id) as [[p t]|] eqn:Hp.
  - eexists. split; [done|]. split; [|split; [done|]]; cbn [set_open hp_open os_touch os_pagers hp_files]; rewrite ?Hp.
    + split; cbn [set_open hp_open os_touch os_pagers hp_files].
      * intros id' p' t'. rewrite Hp. intros [[<- [= <- _]]|[_ Hp']]%lookup_insert_Some; [by apply (fr_open _ _ Hf) in Hp|by apply (fr_open _ _ Hf) in Hp'].
      * intros id' l' i a Hl' Hc' Ha. rewrite Hp in Hc'. apply lookup_insert_None in Hc' as [Hc' _]. by eapply (fr_closed _ _ Hf).
    + by rewrite lookup_insert_eq.
  - pose proof (cat_segment _ _ Hc id) as Hs. rewrite lookup_fmap, Hl in Hs. cbn [fmap option_fmap option_map] in Hs.
    destruct (find_segment (hp_catalog h) id) as [m|]; [|done]. destruct Hs as [[= Hlen] Hpos]. set (h1 := set_open _ _).
    assert (sg_pages m = Z.of_nat (length l)) as Em by lia.
    destruct (evict_down_to_spec (size (os_pagers (hp_open h1))) (cd_active_segment (hp_catalog h1)) id h1 segs) as (h' & E & Hf' & Hsame & Ho).
    + split; cbn [h1 set_open hp_open os_admit os_pagers hp_files].
      * intros id' p' t' [[<- [= <- _]]|[_ Hp']]%lookup_insert_Some; [|by apply (fr_open _ _ Hf) in Hp']. exists l. split; [done|]. rewrite Em. apply opened_holds.
        intros i a Ha. by eapply (fr_closed _ _ Hf).
      * intros id' l' i a Hl' [Hc' Hne]%lookup_insert_None Ha. by eapply (fr_closed _ _ Hf).
    + cbn [h1 set_open hp_open os_admit os_pagers]. by rewrite lookup_insert_eq.
    + exists h'. done.
Qed.

Lemma heap_pager_missing id h segs : files_rep h segs -> catalog_rep (hp_catalog h) (length <$> segs) -> segs !! id = None ->
  heap_pager nonces cache_pages open_capacity id h = (h, Err NotFound).
Proof.
  intros Hf Hc Hl. unfold heap_pager. destruct (os_pagers (hp_open h) !! id) as [[p t]|] eqn:Hp.
  - destruct (fr_open _ _ Hf id p t Hp) as (l & Hl' & _). congruence.
  - pose proof (cat_segment _ _ Hc id) as Hs. rewrite lookup_fmap, Hl in Hs. destruct (find_segment (hp_catalog h) id) as [m|]; [by destruct Hs|done].
Qed.

(** ** Reading and writing pages *)

Lemma files_on_pager h segs id p t l segs' : files_rep h segs -> pager_holds p l -> segs' = <[id := l]> segs ->
  is_Some (os_pagers (hp_open h) !! id) ->
  files_rep (set_open h (MkOpen (<[id := (p, t)]> (os_pagers (hp_open h))) (os_order (hp_open h)) (os_tick (hp_open h)))) segs'.
Proof.
  intros Hf Hp -> Ho. split; cbn [set_open hp_open os_pagers hp_files].
  - intros id' p' t' [[<- [= <- _]]|[Hne Hp']]%lookup_insert_Some; [exists l; by rewrite lookup_insert_eq|].
    rewrite lookup_insert_ne by done. by apply (fr_open _ _ Hf) in Hp'.
  - intros id' l' i a Hl' [Hc Hne]%lookup_insert_None Ha. rewrite lookup_insert_ne in Hl' by done. by eapply (fr_closed _ _ Hf).
Qed.

Lemma page_read_ok i id h segs l : files_rep h segs -> is_Some (os_pagers (hp_open h) !! id) -> segs !! id = Some l -> 0 <= i ->
  exists h' r, on_pager id (page_read nonces i) h = (h', r) /\ files_rep h' segs /\ same_heap h h' /\ is_Some (os_pagers (hp_open h') !! id) /\
    match l !! Z.to_nat i with
    | Some a => exists pg, r = Ok pg /\ page_ok pg /\ page_abs pg = a
    | None => r = Err InvalidInput
    end.
Proof.
  intros Hf [[p t] Hp] Hl Hi. unfold on_pager. rewrite Hp. destruct (fr_open _ _ Hf id p t Hp) as (l' & Hl' & (w & d & Hrep)). rewrite Hl in Hl'. injection Hl' as <-.
  assert (exists p' r, page_read nonces i p = (p', r) /\ pager_holds p' l /\
    match l !! Z.to_nat i with Some a => exists pg, r = Ok pg /\ page_ok pg /\ page_abs pg = a | None => r = Err InvalidInput end) as (p' & r & -> & Hh & Hr).
  { destruct (l !! Z.to_nat i) as [a|] eqn:Ha.
    - destruct (read_spec nonces nonce_length i p _ _ _ _ a Hrep) as (p' & pg & -> & Habs & Hok & Hrep' & _); [by apply map_seqZ_0|].
      exists p', (Ok pg). split; [done|]. split; [by exists w, d|]. eauto.
    - rewrite (read_past_end nonces i p _ _ _ _ Hrep) by (apply lookup_ge_None in Ha; lia). exists p, (Err InvalidInput). split; [done|]. split; [by exists w, d|done]. }
  eexists _, r. split; [done|]. split; [|split; [done|split; [|done]]].
  - eapply files_on_pager; [done|exact Hh|by rewrite insert_id|by eexists].
  - cbn [set_open hp_open os_pagers]. by rewrite lookup_insert_eq.
Qed.

(** Writing over the page of an identifier, or the page after the last. *)
Definition put_page (l : list apage) (i : nat) (a : apage) : list apage := if decide (i = length l) then l ++ [a] else <[i := a]> l.

Lemma page_write_ok (i : nat) pg id h segs l : files_rep h segs -> is_Some (os_pagers (hp_open h) !! id) -> segs !! id = Some l ->
  (i <= length l)%nat -> Z.of_nat i + 1 < 2 ^ 32 -> page_ok pg ->
  exists h', on_pager id (page_write nonces (Z.of_nat i) pg) h = (h', Ok tt) /\ files_rep h' (<[id := put_page l i (page_abs pg)]> segs) /\
    same_heap h h' /\ is_Some (os_pagers (hp_open h') !! id).
Proof.
  intros Hf [[p t] Hp] Hl Hi Hb Hok. unfold on_pager. rewrite Hp. destruct (fr_open _ _ Hf id p t Hp) as (l' & Hl' & (w & d & Hrep)). rewrite Hl in Hl'. injection Hl' as <-.
  destruct (page_write_spec nonces nonce_length (Z.of_nat i) pg p _ _ _ _ Hrep Hok) as (p' & -> & _ & Hrep'); [lia|done|].
  eexists. split; [done|]. split; [|split; [done|cbn [set_open hp_open os_pagers]; by rewrite lookup_insert_eq]].
  eapply files_on_pager; [done| |done|by eexists]. exists ({[Z.of_nat i]} ∪ w), d. unfold put_page. case_decide as E.
  - rewrite length_app, map_seqZ_snoc. cbn [length]. subst i. destruct (Z.leb_spec (Z.of_nat (length l)) (Z.of_nat (length l))); [|lia].
    replace (Z.of_nat (length l + 1)) with (Z.of_nat (length l) + 1) by lia. exact Hrep'.
  - rewrite length_insert, map_seqZ_insert_0 by lia. destruct (Z.leb_spec (Z.of_nat (length l)) (Z.of_nat i)); [lia|]. exact Hrep'.
Qed.
End files.
