(* ===== verification/HeapTheorems.v ===== *)
(** * The record heap keeps the engine's contract

    [abs_read] reads a record from the lists of pages of [HeapRep.v], following
    an overflow chain.  The theorems: the heap of [Heap.v] reads what [abs_read]
    reads, whatever is cached, open or on disk; an append adds one record and
    disturbs none; so the heap is an instance of the interface [RecordStore]
    with its laws, and every theorem of the engine holds over it. *)

From Stdlib Require Import ZArith Lia.
From stdpp Require Import base tactics list option gmap sorting.
From S2P Require Import Prelude Crypto Binary Page PageSpec BTree Engine Lru Pager Heap HeapRep.

Local Open Scope Z_scope.

Lemma hbind_ok {A B} (m : HM A) (f : A -> HM B) h h' a : m h = (h', Ok a) -> (m ≫= f) h = f a h'.
Proof. intros E. unfold mbind, h_bind. by rewrite E. Qed.

Lemma hbind_err {A B} (m : HM A) (f : A -> HM B) h h' x : m h = (h', Err x) -> (m ≫= f) h = (h', Err x).
Proof. intros E. unfold mbind, h_bind. by rewrite E. Qed.

Ltac hstep E := erewrite hbind_ok by (exact E).

(** ** Chunks *)

Lemma chunks_of_concat fuel n l : (0 < n)%nat -> (length l <= fuel)%nat -> concat (chunks_of fuel n l) = l.
Proof.
  intros Hn. revert l. induction fuel as [|fuel IH]; intros [|x l] Hl; try done; [cbn in Hl; lia|]. cbn [chunks_of concat].
  rewrite IH; [apply take_drop|]. rewrite length_drop. cbn [length] in *. lia.
Qed.

Lemma chunks_of_bounds fuel n l : (0 < n)%nat -> Forall (fun c => (0 < length c <= n)%nat /\ c ⊆ l) (chunks_of fuel n l).
Proof.
  intros Hn. revert l. induction fuel as [|fuel IH]; intros [|x l]; try constructor.
  - rewrite length_take. cbn [length]. split; [lia|]. intros y Hy. eapply subseteq_take. exact Hy.
  - eapply Forall_impl; [apply IH|]. cbn beta. intros c [Hc Hsub]. split; [done|]. intros y Hy%Hsub. by eapply subseteq_drop.
Qed.

Lemma chunks_of_count fuel n l : (0 < n)%nat -> (length (chunks_of fuel n l) * n < length l + n)%nat.
Proof.
  intros Hn. revert l. induction fuel as [|fuel IH]; intros [|x l]; cbn [chunks_of length]; try lia.
  specialize (IH (drop n (x :: l))). rewrite length_drop in IH. cbn [length] in IH. destruct (decide (n <= S (length l))%nat); [lia|].
  rewrite drop_ge in * by (cbn [length]; lia). destruct fuel; cbn [chunks_of length] in *; lia.
Qed.

(** ** Reading from the lists of pages *)

Section reads.
Context `{Bincode HeapRecord}.
Implicit Types segs : segments.

Definition abs_page segs (g i : Z) : result error_kind apage :=
  match segs !! g with
  | None => Err NotFound
  | Some l => match l !! Z.to_nat i with Some a => Ok a | None => Err InvalidInput end
  end.

Fixpoint abs_chain segs (g total : Z) (links : nat) (next : Z) (frame : list Z) : result error_kind (list Z) :=
  if total <=? Z.of_nat (length frame) then
    if Z.of_nat (length frame) =? total then Ok frame else Err InvalidData
  else match links with
       | O => Err InvalidData
       | S links =>
           a ← abs_page segs g next;
           if decide (a_kind a = Overflow) then
             match a_cells a !! 0%nat with
             | None => Err InvalidData
             | Some chunk => abs_chain segs g total links (a_extra a) (frame ++ chunk)
             end
           else Err InvalidData
       end.

Definition abs_frame segs (l : record_location) : result error_kind (list Z) :=
  a ← abs_page segs (loc_segment l) (loc_page l);
  match a_cells a !! Z.to_nat (loc_slot l) with
  | None => Err InvalidData
  | Some c =>
      if negb (is_overflow_stub c) then Ok c
      else if MAX_RECORD_FRAME_LEN <? stub_total c then Err InvalidData
      else abs_chain segs (loc_segment l) (stub_total c) (max_links (stub_total c)) (stub_next c) []
  end.

Definition abs_read segs (l : record_location) : result error_kind HeapRecord :=
  b ← abs_frame segs l;
  payload ← decode_frame b;
  match bincode_deserialize payload with None => Err InvalidData | Some r => Ok r end.

(** *** Pages only gain cells, segments only gain pages *)

Definition page_grows (a a' : apage) : Prop := a_kind a' = a_kind a /\ a_extra a' = a_extra a /\ a_cells a `prefix_of` a_cells a'.

Definition segs_grow segs segs' : Prop := forall g l, segs !! g = Some l ->
  exists l', segs' !! g = Some l' /\ forall i a, l !! i = Some a -> exists a', l' !! i = Some a' /\ page_grows a a'.

#[global] Instance page_grows_refl : Reflexive page_grows.
Proof. done. Qed.

#[global] Instance page_grows_trans : Transitive page_grows.
Proof. intros a b c (H1 & H2 & H3) (H4 & H5 & H6). split_and!; [congruence|congruence|by etrans]. Qed.

#[global] Instance segs_grow_refl : Reflexive segs_grow.
Proof. intros segs g l Hl. exists l. split; [done|]. intros i a Ha. by exists a. Qed.

#[global] Instance segs_grow_trans : Transitive segs_grow.
Proof.
  intros s1 s2 s3 H12 H23 g l Hl. destruct (H12 g l Hl) as (l2 & Hl2 & Hp2). destruct (H23 g l2 Hl2) as (l3 & Hl3 & Hp3). exists l3. split; [done|].
  intros i a Ha. destruct (Hp2 i a Ha) as (a2 & Ha2 & Hg2). destruct (Hp3 i a2 Ha2) as (a3 & Ha3 & Hg3). exists a3. split; [done|by etrans].
Qed.

Lemma abs_page_grows segs segs' g i a : segs_grow segs segs' -> abs_page segs g i = Ok a -> exists a', abs_page segs' g i = Ok a' /\ page_grows a a'.
Proof.
  unfold abs_page. intros Hg. destruct (segs !! g) as [l|] eqn:El; [|done]. destruct (Hg g l El) as (l' & -> & Hp).
  destruct (l !! Z.to_nat i) as [b|] eqn:Eb; [|done]. intros [= <-]. destruct (Hp _ _ Eb) as (a' & -> & Hg'). by exists a'.
Qed.

Lemma grows_cell a a' i c : page_grows a a' -> a_cells a !! i = Some c -> a_cells a' !! i = Some c.
Proof. intros (_ & _ & Hp) Hc. by eapply prefix_lookup_Some. Qed.

Lemma abs_chain_grows segs segs' g total links next frame f : segs_grow segs segs' ->
  abs_chain segs g total links next frame = Ok f -> abs_chain segs' g total links next frame = Ok f.
Proof.
  intros Hg. revert next frame. induction links as [|links IH]; intros next frame; cbn [abs_chain]; destruct (_ <=? _); try done.
  destruct (abs_page segs g next) as [a|] eqn:Ea; [|done]. destruct (abs_page_grows _ _ _ _ _ Hg Ea) as (a' & -> & Hga). cbn [mbind result_bind].
  pose proof Hga as (Ek & Ex & _). rewrite Ek, Ex. destruct (decide _); [|done]. destruct (a_cells a !! 0%nat) as [c|] eqn:Ec; [|done].
  rewrite (grows_cell _ _ _ _ Hga Ec). apply IH.
Qed.

Lemma abs_read_grows segs segs' l r : segs_grow segs segs' -> abs_read segs l = Ok r -> abs_read segs' l = Ok r.
Proof.
  intros Hg. unfold abs_read. destruct (abs_frame segs l) as [b|] eqn:E; [|done]. enough (abs_frame segs' l = Ok b) as -> by done. revert E. unfold abs_frame.
  destruct (abs_page segs (loc_segment l) (loc_page l)) as [a|] eqn:Ea; [|done]. destruct (abs_page_grows _ _ _ _ _ Hg Ea) as (a' & -> & Hga). cbn [mbind result_bind].
  destruct (a_cells a !! Z.to_nat (loc_slot l)) as [c|] eqn:Ec; [|done]. rewrite (grows_cell _ _ _ _ Hga Ec).
  destruct (negb _); [done|]. destruct (_ <? _); [done|]. by apply abs_chain_grows.
Qed.

(** *** What the pages list *)

(** A cell of a heap page: page and slot by their numbers. *)
Definition heap_cell segs (g : Z) (i j : nat) (c : list Z) : Prop :=
  exists l a, segs !! g = Some l /\ l !! i = Some a /\ a_kind a = Heap /\ a_cells a !! j = Some c.

(** At most one cell more. *)
Definition adds segs segs' (o : option (Z * Z * Z * list Z)) : Prop :=
  forall g i j c, heap_cell segs' g i j c -> heap_cell segs g i j c \/ o = Some (g, Z.of_nat i, Z.of_nat j, c).

Lemma adds_refl segs o : adds segs segs o.
Proof. intros g i j c. by left. Qed.

Lemma adds_trans s1 s2 s3 o : adds s1 s2 None -> adds s2 s3 o -> adds s1 s3 o.
Proof. intros H12 H23 g i j c Hc. destruct (H23 g i j c Hc) as [Hc'|]; [|by right]. destruct (H12 g i j c Hc') as [|]; [by left|done]. Qed.

Lemma adds_elsewhere segs segs' g o : (forall g', g' <> g -> segs' !! g' = segs !! g') ->
  (forall i j c, heap_cell segs' g i j c -> heap_cell segs g i j c \/ o = Some (g, Z.of_nat i, Z.of_nat j, c)) -> adds segs segs' o.
Proof.
  intros He Hg g' i j c Hc. destruct (decide (g' = g)) as [->|Hne]; [by apply Hg|]. left. destruct Hc as (l & a & Hl & Hr). exists l, a. by rewrite <- He.
Qed.

Lemma adds_update segs g l i a a' c : segs !! g = Some l -> l !! i = Some a -> a_kind a' = a_kind a -> a_cells a' = (a_cells a ++ [c])%list ->
  adds segs (<[g := <[i := a']> l]> segs) (Some (g, Z.of_nat i, Z.of_nat (length (a_cells a)), c)).
Proof.
  intros Hl Ha Hk Hc. apply (adds_elsewhere _ _ g); [intros g' Hne; by rewrite lookup_insert_ne|]. intros i' j c' (l' & b & Hl' & Hb & Hkb & Hcb). rewrite lookup_insert_eq in Hl'. injection Hl' as <-.
  destruct (decide (i' = i)) as [->|Hne]; [|rewrite list_lookup_insert_ne in Hb by done; left; by exists l, b].
  rewrite list_lookup_insert_eq in Hb by (by eapply lookup_lt_Some). injection Hb as <-. rewrite Hc in Hcb. apply lookup_app_Some in Hcb as [Hcb|[Hj Hcb]]; [left; exists l, a; split_and!; [done|done|congruence|done]|right].
  apply list_lookup_singleton_Some in Hcb as [Hz ->]. by replace j with (length (a_cells a)) by lia.
Qed.

Lemma adds_page segs g l a o : segs !! g = Some l -> (forall j c, a_kind a = Heap -> a_cells a !! j = Some c -> o = Some (g, Z.of_nat (length l), Z.of_nat j, c)) ->
  adds segs (<[g := l ++ [a]]> segs) o.
Proof.
  intros Hl Ha. apply (adds_elsewhere _ _ g); [intros g' Hne; by rewrite lookup_insert_ne|]. intros i j c (l' & b & Hl' & Hb & Hkb & Hcb). rewrite lookup_insert_eq in Hl'. injection Hl' as <-.
  apply lookup_app_Some in Hb as [Hb|[Hi Hb]]; [left; by exists l, b|right]. apply list_lookup_singleton_Some in Hb as [Hz ->]. replace i with (length l) by lia. by apply Ha.
Qed.

Lemma adds_segment segs g o : segs !! g = None -> adds segs (<[g := []]> segs) o.
Proof. intros Hg. apply (adds_elsewhere _ _ g); [intros g' Hne; by rewrite lookup_insert_ne|]. intros i j c (l & a & Hl & Ha & _). rewrite lookup_insert_eq in Hl. by injection Hl as <-. Qed.

(** *** A chain of chunks *)

Fixpoint chain_at segs (g next : Z) (cs : list (list Z)) : Prop :=
  match cs with
  | [] => True
  | c :: cs => exists a, abs_page segs g next = Ok a /\ a_kind a = Overflow /\ a_cells a !! 0%nat = Some c /\ chain_at segs g (a_extra a) cs
  end.

Lemma chain_grows segs segs' g next cs : segs_grow segs segs' -> chain_at segs g next cs -> chain_at segs' g next cs.
Proof.
  intros Hg. revert next. induction cs as [|c cs IH]; intros next; cbn [chain_at]; [done|]. intros (a & Ha & Hk & Hc & Hrest).
  destruct (abs_page_grows _ _ _ _ _ Hg Ha) as (a' & Ha' & Hga). exists a'. destruct Hga as (Ek & Ex & Hp) eqn:Eg. clear Eg.
  split; [done|]. split; [congruence|]. split; [by eapply prefix_lookup_Some|]. rewrite Ex. by apply IH.
Qed.

Lemma chain_reads segs g cs links next acc total : Forall (fun c => (0 < length c)%nat) cs -> (length cs <= links)%nat -> chain_at segs g next cs ->
  total = Z.of_nat (length (acc ++ concat cs)) -> abs_chain segs g total links next acc = Ok (acc ++ concat cs).
Proof.
  revert links next acc total. induction cs as [|c cs IH]; intros links next acc total Hpos Hlen Hc ->; cbn [concat] in *.
  - rewrite app_nil_r. destruct links; cbn [abs_chain]; rewrite Z.leb_refl, Z.eqb_refl; done.
  - destruct links as [|links]; [cbn in Hlen; lia|]. apply Forall_cons_1 in Hpos as [Hc0 Hpos]. cbn [abs_chain].
    destruct (Z.leb_spec (Z.of_nat (length (acc ++ c ++ concat cs))) (Z.of_nat (length acc))) as [Hle|_]; [rewrite !length_app in Hle; lia|].
    destruct Hc as (a & -> & Hk & Hcell & Hrest). cbn [mbind result_bind]. rewrite Hk, decide_True, Hcell by done.
    rewrite !app_assoc. apply IH; [done|cbn in Hlen; lia|done|done].
Qed.
End reads.

(** ** The heap reads what the lists hold *)

Section heap.
Context `{Aead} (nonces : nat -> list Z) (cache_pages : option nat) (open_capacity : nat) `{Bincode HeapRecord}.
Hypothesis nonce_length : forall i, length (nonces i) = NONCE_LEN.
Implicit Types (h : heap) (segs : segments).

Abbreviation heap_pager := (heap_pager nonces cache_pages open_capacity).

(** A segment starts a record below its cap and holds at most that record past it. *)
Definition MAX_SEGMENT_LEN : Z := 8208.

Record heap_ok h segs : Prop := {
  ok_files : files_rep h segs;
  ok_catalog : catalog_rep (hp_catalog h) (length <$> segs);
  ok_sizes g l : segs !! g = Some l -> Z.of_nat (length l) <= MAX_SEGMENT_LEN;
}.

(** The identifiers of a segment's pages are far from the end of a [u32]. *)
Lemma page_bound h segs g l : heap_ok h segs -> segs !! g = Some l -> Z.of_nat (length l - 1) + 1 < 2 ^ 32.
Proof. intros Hok Hl. pose proof (ok_sizes _ _ Hok g l Hl) as Hsz. unfold MAX_SEGMENT_LEN in Hsz. lia. Qed.

Definition is_open h (g : Z) : Prop := is_Some (os_pagers (hp_open h) !! g).

Lemma same_refl h : same_heap h h.
Proof. done. Qed.

Lemma same_trans h1 h2 h3 : same_heap h1 h2 -> same_heap h2 h3 -> same_heap h1 h3.
Proof. intros [E1 E2] [E3 E4]. split; congruence. Qed.

Lemma heap_ok_same h h' segs : heap_ok h segs -> files_rep h' segs -> same_heap h h' -> heap_ok h' segs.
Proof. intros [_ Hc Hs] Hf [E _]. split; [done|by rewrite E|done]. Qed.

Lemma pager_opens g h segs : heap_ok h segs ->
  match segs !! g with
  | Some _ => exists h', heap_pager g h = (h', Ok tt) /\ heap_ok h' segs /\ same_heap h h' /\ is_open h' g
  | None => heap_pager g h = (h, Err NotFound)
  end.
Proof.
  intros Hok. destruct (segs !! g) as [l|] eqn:E.
  - destruct (heap_pager_ok nonces cache_pages open_capacity nonce_length g h segs l) as (h' & Eh & Hf & Hs & Ho); [apply Hok|apply Hok|done|].
    exists h'. split; [done|]. split; [by eapply heap_ok_same|done].
  - apply heap_pager_missing with segs; [apply Hok|apply Hok|done].
Qed.

Lemma page_reads g i h segs : heap_ok h segs -> is_open h g -> 0 <= i ->
  exists h' r, on_pager g (page_read nonces i) h = (h', r) /\ heap_ok h' segs /\ same_heap h h' /\ is_open h' g /\
    match abs_page segs g i with Ok a => exists pg, r = Ok pg /\ page_ok pg /\ page_abs pg = a | Err x => r = Err x end.
Proof.
  intros Hok Ho Hi. pose proof Ho as [[p t] Hp]. destruct (fr_open _ _ (ok_files _ _ Hok) g p t Hp) as (l & Hl & _). unfold abs_page. rewrite Hl.
  destruct (page_read_ok nonces nonce_length i g h segs l) as (h' & r & E & Hf & Hs & Ho' & Hr); [apply Hok|done|done|done|].
  exists h', r. split; [done|]. split; [by eapply heap_ok_same|]. split; [done|]. split; [done|]. by destruct (l !! Z.to_nat i).
Qed.

Lemma page_view pg a : page_ok pg -> page_abs pg = a -> kind pg = a_kind a /\ extra pg = a_extra a /\ (forall i, cell pg i = a_cells a !! i) /\ u32 (a_extra a) /\ cells_ok (a_cells a).
Proof.
  intros Hok <-. split_and!; try done.
  - intros i. apply cell_lookup.
  - apply page_extra_u32; apply Hok.
  - apply page_extra_u32; apply Hok.
  - split; [by apply page_cells_fit|apply page_cells_bytes, Hok].
Qed.

Lemma read_chain_ok g total links next frame h segs : heap_ok h segs -> is_open h g -> 0 <= next ->
  exists h', read_chain nonces g total links next frame h = (h', abs_chain segs g total links next frame) /\ heap_ok h' segs /\ same_heap h h'.
Proof.
  revert next frame h. induction links as [|links IH]; intros next frame h Hok Ho Hn; cbn [read_chain abs_chain].
  - destruct (_ <=? _); [destruct (_ =? _)|]; by exists h.
  - destruct (_ <=? _); [destruct (_ =? _); by exists h|].
    destruct (page_reads g next h segs Hok Ho Hn) as (h' & r & E & Hok' & Hs & Ho' & Hr). destruct (abs_page segs g next) as [a|x].
    + destruct Hr as (pg & -> & Hpg & Habs). hstep E. cbn [mbind result_bind]. destruct (page_view pg a Hpg Habs) as (-> & -> & Hcell & Hx & _).
      rewrite Hcell. destruct (decide _); [|by exists h']. destruct (a_cells a !! 0%nat) as [c|]; [|by exists h'].
      destruct (IH (a_extra a) (frame ++ c) h' Hok' Ho') as (h2 & E2 & Hok2 & Hs2); [lia|]. exists h2. split; [exact E2|]. split; [done|by eapply same_trans].
    + subst r. erewrite hbind_err by exact E. by exists h'.
Qed.

Lemma stub_next_pos c : Forall is_byte c -> 0 <= stub_next c.
Proof. intros Hc. unfold stub_next. pose proof (le_val_bound _ (Forall_slice _ _ 8 12 Hc)). lia. Qed.

Lemma read_frame_ok l h segs : heap_ok h segs -> location_ok l ->
  exists h', read_frame nonces cache_pages open_capacity l h = (h', abs_frame segs l) /\ heap_ok h' segs /\ same_heap h h'.
Proof.
  intros Hok (_ & Hpage & _). unfold read_frame, abs_frame. pose proof (pager_opens (loc_segment l) h segs Hok) as Hp.
  destruct (segs !! loc_segment l) as [pl|] eqn:El.
  - destruct Hp as (h1 & E1 & Hok1 & Hs1 & Ho1). hstep E1.
    destruct (page_reads (loc_segment l) (loc_page l) h1 segs Hok1 Ho1) as (h2 & r & E2 & Hok2 & Hs2 & Ho2 & Hr); [lia|].
    pose proof (same_trans _ _ _ Hs1 Hs2) as Hs. destruct (abs_page segs (loc_segment l) (loc_page l)) as [a|x].
    + destruct Hr as (pg & -> & Hpg & Habs). hstep E2. cbn [mbind result_bind]. destruct (page_view pg a Hpg Habs) as (_ & _ & Hcell & _ & [_ Hbytes]).
      rewrite Hcell. destruct (a_cells a !! Z.to_nat (loc_slot l)) as [c|] eqn:Ec; [|by exists h2]. destruct (negb _); [by exists h2|]. destruct (_ <? _); [by exists h2|].
      destruct (read_chain_ok (loc_segment l) (stub_total c) (max_links (stub_total c)) (stub_next c) [] h2 segs Hok2 Ho2) as (h3 & E3 & Hok3 & Hs3).
      { apply stub_next_pos. by eapply Forall_lookup_1 in Ec. }
      exists h3. split; [exact E3|]. split; [done|by eapply same_trans].
    + subst r. erewrite hbind_err by exact E2. by exists h2.
  - erewrite hbind_err by exact Hp. exists h. unfold abs_page. by rewrite El.
Qed.

(** A read answers what the lists hold and changes nothing but what is in memory. *)
Lemma heap_read_ok l h segs : heap_ok h segs -> location_ok l ->
  exists h', read nonces cache_pages open_capacity l h = (h', abs_read segs l) /\ heap_ok h' segs /\ same_heap h h'.
Proof.
  intros Hok Hl. unfold read, abs_read. destruct (read_frame_ok l h segs Hok Hl) as (h' & E & Hok' & Hs). exists h'. split; [|done].
  destruct (abs_frame segs l) as [b|x]; [hstep E|rewrite (hbind_err _ _ _ _ _ E); reflexivity]. cbn [mbind result_bind].
  unfold h_lift. unfold mbind, h_bind. destruct (decode_frame b) as [payload|]; [|reflexivity]. unfold result_bind. destruct (bincode_deserialize payload); reflexivity.
Qed.

(** ** Appending *)

(** The cell is where the answer says. *)
Definition placed segs (at_ : Z * Z * Z) (c : list Z) : Prop :=
  u32 at_.1.1 /\ u32 at_.1.2 /\ u16 at_.2 /\ exists a, abs_page segs at_.1.1 at_.1.2 = Ok a /\ a_kind a = Heap /\ a_cells a !! Z.to_nat at_.2 = Some c.

Lemma push_view pg c : page_ok pg -> bytes c ->
  (exists q s, push_cell pg c = (q, Some s) /\ page_ok q /\ page_abs q = APage (kind pg) (extra pg) (page_cells pg ++ [c]) /\ s = length (page_cells pg) /\ Z.of_nat s < 2 ^ 16)
  \/ (push_cell pg c = (pg, None) /\ ~ has_room (page_cells pg) (length c)).
Proof.
  intros Hok Hc. pose proof (push_cell_spec pg c Hok Hc) as Hs. case_decide as Hroom; [left|by right].
  destruct Hs as (q & E & Hq & Hk & Hx & Hcells). exists q, (slot_count pg). split; [done|]. split; [done|]. split; [by apply apage_eq|].
  rewrite length_page_cells. split; [done|]. pose proof (page_cells_fit pg Hok) as Hfit. unfold cells_space, PAGE_CAPACITY, SLOT_LEN in Hfit.
  rewrite length_page_cells in Hfit. pose proof PAGE_BODY_LEN_val. lia.
Qed.

Lemma grow_update segs g l i a a' : segs !! g = Some l -> l !! i = Some a -> page_grows a a' -> segs_grow segs (<[g := <[i := a']> l]> segs).
Proof.
  intros Hl Ha Hg g' l' Hl'. destruct (decide (g' = g)) as [->|Hne]; [|rewrite lookup_insert_ne by done; exists l'; split; [done|]; intros j b Hb; by exists b].
  rewrite lookup_insert_eq. rewrite Hl in Hl'. injection Hl' as <-. eexists. split; [done|]. intros j b Hb. destruct (decide (j = i)) as [->|Hne].
  - rewrite list_lookup_insert_eq by (by eapply lookup_lt_Some). exists a'. split; [done|]. congruence.
  - rewrite list_lookup_insert_ne by done. exists b. done.
Qed.

Lemma grow_append segs g l a : segs !! g = Some l -> segs_grow segs (<[g := l ++ [a]]> segs).
Proof.
  intros Hl g' l' Hl'. destruct (decide (g' = g)) as [->|Hne]; [|rewrite lookup_insert_ne by done; exists l'; split; [done|]; intros j b Hb; by exists b].
  rewrite lookup_insert_eq. rewrite Hl in Hl'. injection Hl' as <-. eexists. split; [done|]. intros j b Hb. exists b. split; [by apply lookup_app_l_Some|done].
Qed.

Lemma grow_segment segs g : segs !! g = None -> segs_grow segs (<[g := []]> segs).
Proof. intros Hg g' l' Hl'. rewrite lookup_insert_ne by congruence. exists l'. split; [done|]. intros j b Hb. by exists b. Qed.

Lemma append_to_last_ok g l c h segs : heap_ok h segs -> segs !! g = Some l -> bytes c -> u32 g ->
  exists h' o, append_to_last nonces cache_pages open_capacity g (Z.of_nat (length l)) c h = (h', Ok o) /\ same_heap h h' /\
  match o with
  | None => heap_ok h' segs
  | Some at_ => exists segs', heap_ok h' segs' /\ segs_grow segs segs' /\ placed segs' at_ c /\ at_.1.1 = g /\ adds segs segs' (Some (at_, c))
  end.
Proof.
  intros Hok Hl Hc Hg. unfold append_to_last. destruct (Z.ltb_spec 0 (Z.of_nat (length l))) as [Hpos|_]; [|by exists h, None].
  pose proof (pager_opens g h segs Hok) as Hp. rewrite Hl in Hp. destruct Hp as (h1 & E1 & Hok1 & Hs1 & Ho1). hstep E1.
  destruct (page_reads g (Z.of_nat (length l) - 1) h1 segs Hok1 Ho1) as (h2 & r & E2 & Hok2 & Hs2 & Ho2 & Hr); [lia|]. pose proof (same_trans _ _ _ Hs1 Hs2) as Hs.
  unfold abs_page in Hr. rewrite Hl in Hr. replace (Z.to_nat (Z.of_nat (length l) - 1)) with (length l - 1)%nat in Hr by lia.
  destruct (lookup_lt_is_Some_2 l (length l - 1)) as [a Ha]; [lia|]. rewrite Ha in Hr. destruct Hr as (pg & -> & Hpg & Habs). hstep E2.
  destruct (decide (kind pg = Heap)) as [Hk|]; [|by exists h2, None]. destruct (push_view pg c Hpg Hc) as [(q & s & -> & Hq & Hqabs & Es & Hb)|[-> _]]; [|by exists h2, None].
  destruct (page_write_ok nonces nonce_length (length l - 1) q g h2 segs l) as (h3 & E3 & Hf3 & Hs3 & _); [apply Hok2|done|done|lia|by eapply page_bound|done|].
  replace (Z.of_nat (length l - 1)) with (Z.of_nat (length l) - 1) in E3 by lia. hstep E3. eexists h3, _. split; [reflexivity|]. split; [by eapply same_trans|].
  unfold put_page in Hf3. rewrite decide_False in Hf3 by lia. pose proof (ok_sizes _ _ Hok g l Hl) as Hsz. unfold MAX_SEGMENT_LEN in Hsz.
  eexists. split; [split|]; [exact Hf3| | |split; [|split; [|split; [done|]]]].
  - rewrite fmap_insert, length_insert, insert_id; [|by rewrite lookup_fmap, Hl]. destruct (same_trans _ _ _ Hs Hs3) as [-> _]. apply Hok.
  - intros g' l'. intros [[<- <-]|[_ Hl']]%lookup_insert_Some; [rewrite length_insert; by apply (ok_sizes _ _ Hok g)|by apply (ok_sizes _ _ Hok) in Hl'].
  - eapply grow_update; [done|done|]. rewrite Hqabs, <- Habs. unfold page_grows. cbn. split_and!; [done|done|by eexists].
  - rewrite Z.mod_small by lia. unfold placed. cbn [fst snd]. split_and!; try lia. exists (page_abs q). unfold abs_page. rewrite lookup_insert_eq.
    replace (Z.to_nat (Z.of_nat (length l) - 1)) with (length l - 1)%nat by lia. rewrite list_lookup_insert_eq by lia. split; [done|]. split; [by rewrite Hqabs|].
    rewrite Hqabs, Nat2Z.id. cbn [a_cells]. subst s. by apply list_lookup_middle.
  - rewrite Z.mod_small by lia. subst s. change (page_cells pg) with (a_cells (page_abs pg)) in Hqabs |- *. rewrite Habs in Hqabs |- *.
    replace (Z.of_nat (length l) - 1) with (Z.of_nat (length l - 1)) by lia. eapply adds_update; [done|done|by rewrite Hqabs, <- Habs|by rewrite Hqabs].
Qed.

(** The catalog already counts a page that is about to be written after the last one. *)
Record growing h segs (g : Z) (l : list apage) : Prop := {
  gr_files : files_rep h segs;
  gr_open : is_open h g;
  gr_pages : segs !! g = Some l;
  gr_catalog : catalog_rep (hp_catalog h) (<[g := S (length l)]> (length <$> segs));
  gr_sizes g' l' : segs !! g' = Some l' -> Z.of_nat (length l') <= MAX_SEGMENT_LEN;
  gr_room : Z.of_nat (length l) < MAX_SEGMENT_LEN;
}.

Lemma set_pages_ok g n h lens : catalog_rep (hp_catalog h) lens -> is_Some (lens !! g) -> 0 <= n ->
  exists h', set_pages g n h = (h', Ok tt) /\ hp_open h' = hp_open h /\ hp_files h' = hp_files h /\
    catalog_rep (hp_catalog h') (<[g := Z.to_nat n]> lens) /\ cd_next_segment (hp_catalog h') = cd_next_segment (hp_catalog h) /\
    cd_active_segment (hp_catalog h') = cd_active_segment (hp_catalog h).
Proof. intros Hc Hg Hn. eexists. split; [reflexivity|]. cbn [set_catalog hp_open hp_files hp_catalog]. split_and!; try done. by apply catalog_updated. Qed.

Lemma files_same h h' segs : files_rep h segs -> hp_open h' = hp_open h -> hp_files h' = hp_files h -> files_rep h' segs.
Proof. intros [H1 H2] Eo Ef. split; rewrite Eo, ?Ef; done. Qed.

Lemma extend_ok g l h segs : heap_ok h segs -> segs !! g = Some l -> Z.of_nat (length l) < MAX_SEGMENT_LEN ->
  exists h', extend nonces cache_pages open_capacity g (Z.of_nat (length l)) h = (h', Ok (g, Z.of_nat (length l))) /\ growing h' segs g l /\
    cd_next_segment (hp_catalog h') = cd_next_segment (hp_catalog h).
Proof.
  intros Hok Hl Hlen. unfold extend. pose proof (pager_opens g h segs Hok) as Hp. rewrite Hl in Hp. destruct Hp as (h1 & E1 & Hok1 & [Hs1 _] & Ho1). hstep E1.
  unfold MAX_SEGMENT_LEN in *. rewrite Z.mod_small by lia.
  destruct (set_pages_ok g (Z.of_nat (length l) + 1) h1 (length <$> segs)) as (h2 & E2 & Eo & Ef & Hc2 & En & _); [apply Hok1|by rewrite lookup_fmap, Hl|lia|].
  hstep E2. exists h2. split; [reflexivity|]. split; [|by rewrite En, Hs1]. split; [eapply files_same; [apply Hok1|done|done]|unfold is_open; by rewrite Eo|done| |apply Hok1|done].
  by replace (Z.to_nat (Z.of_nat (length l) + 1)) with (S (length l)) in Hc2 by lia.
Qed.

Lemma roll_ok h segs : heap_ok h segs -> cd_next_segment (hp_catalog h) + 1 < 2 ^ 32 ->
  let g := cd_next_segment (hp_catalog h) in
  exists h', roll h = (h', Ok g) /\ segs !! g = None /\ heap_ok h' (<[g := []]> segs) /\ cd_next_segment (hp_catalog h') = g + 1 /\ 0 <= g.
Proof.
  intros Hok Hb g. pose proof (ok_catalog _ _ Hok) as Hc. destruct (cat_active _ _ Hc) as [n Hn]. pose proof (cat_ids _ _ Hc _ _ Hn) as Hpos.
  assert (segs !! g = None) as Hg. { destruct (segs !! g) as [l|] eqn:E; [|done]. destruct (cat_ids _ _ Hc g (length l)); [by rewrite lookup_fmap, E|unfold g in *; lia]. }
  eexists. split; [reflexivity|]. cbn [set_catalog hp_catalog cd_next_segment]. rewrite Z.mod_small by lia. split_and!; try done; [|unfold g; lia].
  destruct Hok as [[Ho Hcl] _ Hsz]. split.
  - split; cbn [set_catalog hp_open hp_files].
    + intros id p t Hp. destruct (Ho id p t Hp) as (l & Hl & Hh). exists l. rewrite lookup_insert_ne by congruence. done.
    + intros id l i a [[<- <-]|[_ Hl]]%lookup_insert_Some Hcl' Ha; [done|by eapply Hcl].
  - rewrite fmap_insert. cbn [length]. pose proof (catalog_rolled _ _ Hc Hb) as Hr. cbn beta zeta in Hr. rewrite Z.mod_small in Hr by lia. exact Hr.
  - intros g' l' [[<- <-]|[_ Hl']]%lookup_insert_Some; [done|by apply Hsz in Hl'].
Qed.

Lemma grow_ok g l h segs : heap_ok h segs -> segs !! g = Some l -> cd_next_segment (hp_catalog h) + 1 < 2 ^ 32 ->
  exists h' g' l' segs', grow nonces cache_pages open_capacity g (Z.of_nat (length l)) h = (h', Ok (g', Z.of_nat (length l'))) /\ growing h' segs' g' l' /\
    segs_grow segs segs' /\ adds segs segs' None /\ cd_next_segment (hp_catalog h') <= cd_next_segment (hp_catalog h) + 1.
Proof.
  intros Hok Hl Hb. unfold grow. destruct (Z.leb_spec MAX_PAGES_PER_SEGMENT (Z.of_nat (length l))) as [Hfull|Hfree].
  - destruct (roll_ok h segs Hok Hb) as (h1 & E1 & Hg & Hok1 & En1 & Hpos). set (f := cd_next_segment (hp_catalog h)) in *. hstep E1.
    pose proof (pager_opens f h1 _ Hok1) as Hp. rewrite lookup_insert_eq in Hp. destruct Hp as (h2 & E2 & Hok2 & [Hs2 _] & Ho2). hstep E2.
    destruct (set_pages_ok f 1 h2 _ (ok_catalog _ _ Hok2)) as (h3 & E3 & Eo & Ef & Hc3 & En & _); [by rewrite lookup_fmap, lookup_insert_eq|lia|].
    hstep E3. exists h3, f, [], (<[f := []]> segs). split; [reflexivity|]. split; [|split; [by apply grow_segment|split; [by apply adds_segment|rewrite En, Hs2, En1; lia]]].
    split; [eapply files_same; [apply Hok2|done|done]|unfold is_open; by rewrite Eo|by rewrite lookup_insert_eq|exact Hc3|apply Hok2|done].
  - destruct (extend_ok g l h segs Hok Hl) as (h' & E & Hgr & En); [unfold MAX_PAGES_PER_SEGMENT, MAX_SEGMENT_LEN in *; lia|].
    exists h', g, l, segs. split; [done|]. split; [done|]. split; [done|]. split; [apply adds_refl|lia].
Qed.

(** Writing the page completes the growth. *)
Lemma grown_ok pg g l h segs : growing h segs g l -> page_ok pg ->
  exists h', on_pager g (page_write nonces (Z.of_nat (length l)) pg) h = (h', Ok tt) /\ heap_ok h' (<[g := l ++ [page_abs pg]]> segs) /\ same_heap h h' /\ is_open h' g.
Proof.
  intros [Hf Ho Hl Hc Hs Hr] Hok. destruct (page_write_ok nonces nonce_length (length l) pg g h segs l Hf Ho Hl) as (h' & E & Hf' & [Hcat Hsav] & Ho'); [lia|unfold MAX_SEGMENT_LEN in *; lia|done|].
  unfold put_page in Hf'. rewrite decide_True in Hf' by done. exists h'. split; [done|]. split; [|done]. split; [done| |].
  - rewrite fmap_insert, length_app, Nat.add_1_r, Hcat. exact Hc.
  - intros g' l' [[<- <-]|[_ Hl']]%lookup_insert_Some; [rewrite length_app; cbn [length]; lia|by eapply Hs].
Qed.

Lemma new_page k : page_ok (page_new k) /\ page_abs (page_new k) = APage k 0 [].
Proof. destruct (page_new_spec k) as (? & ? & ? & ?). split; [done|by apply apage_eq]. Qed.

(** A cell of at most the maximal length fits in an empty page. *)
Lemma push_new pg c : page_ok pg -> a_cells (page_abs pg) = [] -> bytes c -> (length c <= MAX_CELL_LEN)%nat ->
  exists q, push_cell pg c = (q, Some 0%nat) /\ page_ok q /\ page_abs q = APage (kind pg) (extra pg) [c].
Proof.
  intros Hok Hn Hc Hlen. cbn in Hn. destruct (push_view pg c Hok Hc) as [(q & s & E & Hq & Habs & -> & _)|[_ Hroom]].
  - rewrite Hn in *. by exists q.
  - destruct Hroom. rewrite Hn. unfold has_room, PAGE_CAPACITY. rewrite cells_space_nil. unfold MAX_CELL_LEN, PAGE_HEADER_LEN, SLOT_LEN in *. pose proof PAGE_BODY_LEN_val. lia.
Qed.

Lemma segment_u32 h segs g l : heap_ok h segs -> segs !! g = Some l -> cd_next_segment (hp_catalog h) < 2 ^ 32 -> u32 g.
Proof. intros Hok Hl Hb. destruct (cat_ids _ _ (ok_catalog _ _ Hok) g (length l)); [by rewrite lookup_fmap, Hl|lia]. Qed.

Lemma append_cell_to_ok g l c (allow_roll : bool) h segs : heap_ok h segs -> segs !! g = Some l -> bytes c -> (length c <= MAX_CELL_LEN)%nat ->
  cd_next_segment (hp_catalog h) + (if allow_roll then 1 else 0) < 2 ^ 32 -> (allow_roll = false -> Z.of_nat (length l) < MAX_SEGMENT_LEN) ->
  exists h' at_ segs', append_cell_to nonces cache_pages open_capacity g (Z.of_nat (length l)) c allow_roll h = (h', Ok at_) /\ heap_ok h' segs' /\
    segs_grow segs segs' /\ placed segs' at_ c /\ adds segs segs' (Some (at_, c)) /\ (allow_roll = false -> at_.1.1 = g) /\
    cd_next_segment (hp_catalog h') <= cd_next_segment (hp_catalog h) + (if allow_roll then 1 else 0).
Proof.
  intros Hok Hl Hc Hlen Hb Hroom. unfold append_cell_to.
  destruct (append_to_last_ok g l c h segs Hok Hl Hc) as (h1 & o & E1 & [Hs1 _] & Ho); [eapply segment_u32; [done|done|destruct allow_roll; lia]|].
  hstep E1. destruct o as [at_|].
  { destruct Ho as (segs' & Hok' & Hgrow & Hpl & Eg & Hadds). exists h1, at_, segs'. split; [reflexivity|]. split_and!; try done. rewrite Hs1. destruct allow_roll; lia. }
  assert (exists h2 g' l' segs', (if allow_roll then grow nonces cache_pages open_capacity g (Z.of_nat (length l)) else extend nonces cache_pages open_capacity g (Z.of_nat (length l))) h1
      = (h2, Ok (g', Z.of_nat (length l'))) /\ growing h2 segs' g' l' /\ segs_grow segs segs' /\ adds segs segs' None /\ (allow_roll = false -> g' = g) /\
      cd_next_segment (hp_catalog h2) <= cd_next_segment (hp_catalog h1) + (if allow_roll then 1 else 0)) as (h2 & g' & l' & segs' & E2 & Hgr & Hgrow & Hadds & Eg & Hn).
  { destruct allow_roll.
    - destruct (grow_ok g l h1 segs Ho Hl) as (h2 & g' & l' & segs' & E2 & Hgr & Hgrow & Hadds & Hn); [by rewrite Hs1|]. exists h2, g', l', segs'. done.
    - destruct (extend_ok g l h1 segs Ho Hl) as (h2 & E2 & Hgr & Hn); [by apply Hroom|]. exists h2, g, l, segs. split_and!; try done; [apply adds_refl|lia]. }
  hstep E2. cbn [fst snd]. destruct (new_page Heap) as [Hnew Hnabs]. destruct (push_new (page_new Heap) c Hnew) as (q & -> & Hq & Hqabs); [by rewrite Hnabs|done|done|].
  destruct (grown_ok q g' l' h2 segs' Hgr Hq) as (h3 & E3 & Hok3 & [Hs3 _] & _). hstep E3. eexists h3, _, _. split; [reflexivity|]. split; [exact Hok3|].
  split; [etrans; [exact Hgrow|by apply grow_append, Hgr]|]. cbn [fst snd]. split; [|split; [|split; [done|rewrite Hs3; rewrite Hs1 in Hn; lia]]].
  2:{ eapply adds_trans; [exact Hadds|]. apply adds_page; [apply Hgr|]. intros j c' _ Hj. rewrite Hqabs in Hj. apply list_lookup_singleton_Some in Hj as [-> ->]. done. }
  pose proof (gr_room _ _ _ _ Hgr) as Hlen'. unfold MAX_SEGMENT_LEN in Hlen'. unfold placed. cbn [fst snd]. split_and!; try (rewrite ?Z.mod_small; lia).
  - eapply segment_u32; [exact Hok3|by rewrite lookup_insert_eq|rewrite Hs3; rewrite Hs1 in Hn; lia].
  - eapply segment_u32; [exact Hok3|by rewrite lookup_insert_eq|rewrite Hs3; rewrite Hs1 in Hn; lia].
  - exists (page_abs q). unfold abs_page. rewrite lookup_insert_eq, Nat2Z.id. rewrite (list_lookup_middle l' [] (page_abs q)) by done. split; [done|]. rewrite Hqabs. split; [exact (f_equal a_kind Hnabs)|done].
Qed.

(** ** Overflow chains *)

Lemma write_chain_ok cs g l next ds h segs : heap_ok h segs -> is_open h g -> segs !! g = Some l -> u32 next -> chain_at segs g next ds ->
  Forall (fun c => bytes c /\ (length c <= MAX_CELL_LEN)%nat) cs -> Z.of_nat (length l + length cs) <= MAX_SEGMENT_LEN ->
  exists h' next' l' segs', write_chain nonces g cs next (Z.of_nat (length l)) h = (h', Ok (next', Z.of_nat (length l'))) /\ heap_ok h' segs' /\
    segs' !! g = Some l' /\ segs_grow segs segs' /\ adds segs segs' None /\ chain_at segs' g next' (reverse cs ++ ds) /\ length l' = (length l + length cs)%nat /\ u32 next' /\
    cd_next_segment (hp_catalog h') = cd_next_segment (hp_catalog h).
Proof.
  revert l next ds h segs. induction cs as [|c cs IH]; intros l next ds h segs Hok Ho Hl Hn Hch Hcs Hlen; cbn [write_chain].
  { exists h, next, l, segs. split; [reflexivity|]. cbn [length]. rewrite Nat.add_0_r. split_and!; try done; [apply adds_refl|lia|lia]. }
  apply Forall_cons_1 in Hcs as [[Hc Hlc] Hcs]. cbn [length] in Hlen. destruct (new_page Overflow) as [Hnew Hnabs].
  destruct (set_extra_spec (page_new Overflow) next Hnew Hn) as (Hse & Hsk & Hsx & Hsc).
  destruct (push_new (set_extra (page_new Overflow) next) c Hse) as (q & -> & Hq & Hqabs); [cbn; rewrite Hsc; exact (f_equal a_cells Hnabs)|done|done|].
  rewrite Hsk, Hsx in Hqabs. assert (kind (page_new Overflow) = Overflow) as Hk by exact (f_equal a_kind Hnabs). rewrite Hk in Hqabs.
  destruct (page_write_ok nonces nonce_length (length l) q g h segs l (ok_files _ _ Hok) Ho Hl) as (h1 & E1 & Hf1 & [Hs1 _] & Ho1); [lia|unfold MAX_SEGMENT_LEN in *; lia|done|]. hstep E1.
  unfold put_page in Hf1. rewrite decide_True in Hf1 by done. unfold MAX_SEGMENT_LEN in Hlen. rewrite Z.mod_small by lia.
  destruct (set_pages_ok g (Z.of_nat (length l) + 1) h1 (length <$> segs)) as (h2 & E2 & Eo & Ef & Hc2 & En & _); [rewrite Hs1; apply Hok|by rewrite lookup_fmap, Hl|lia|]. hstep E2.
  set (segs1 := <[g := l ++ [page_abs q]]> segs). assert (heap_ok h2 segs1) as Hok2.
  { split; [eapply files_same; [exact Hf1|done|done]| |].
    - unfold segs1. rewrite fmap_insert, length_app. cbn [length]. by replace (length l + 1)%nat with (Z.to_nat (Z.of_nat (length l) + 1)) by lia.
    - intros g' l' [[<- <-]|[_ Hl']]%lookup_insert_Some; [rewrite length_app; unfold MAX_SEGMENT_LEN; cbn [length]; lia|by apply (ok_sizes _ _ Hok) in Hl']. }
  assert (segs_grow segs segs1) as Hgrow by (by apply grow_append).
  destruct (IH (l ++ [page_abs q]) (Z.of_nat (length l)) (c :: ds) h2 segs1) as (h3 & next' & l' & segs' & E3 & Hok3 & Hl3 & Hg3 & Ha3 & Hch3 & Hlen3 & Hn3 & En3).
  - done.
  - unfold is_open. by rewrite Eo.
  - apply lookup_insert_eq.
  - lia.
  - cbn [chain_at]. exists (page_abs q). split; [unfold abs_page, segs1; by rewrite lookup_insert_eq, Nat2Z.id, (list_lookup_middle l [] (page_abs q)) by done|].
    split; [by rewrite Hqabs|]. split; [by rewrite Hqabs|]. rewrite (f_equal a_extra Hqabs). by eapply chain_grows.
  - done.
  - rewrite length_app. unfold MAX_SEGMENT_LEN. cbn [length]. lia.
  - rewrite length_app in E3, Hlen3. cbn [length] in E3, Hlen3. replace (Z.of_nat (length l + 1)) with (Z.of_nat (length l) + 1) in E3 by lia.
    exists h3, next', l', segs'. split; [exact E3|]. split; [done|]. split; [done|]. split; [by etrans|].
    split; [eapply (adds_trans _ segs1); [unfold segs1; apply adds_page; [exact Hl|]; intros j c' Hk'; by rewrite Hqabs in Hk'|exact Ha3]|]. rewrite reverse_cons, <- app_assoc. split; [exact Hch3|].
    split; [cbn [length]; lia|]. split; [done|]. by rewrite En3, En, Hs1.
Qed.

Lemma stub_fields total next : u32 total -> u32 next ->
  let c := stub_of total next in bytes c /\ length c = 12%nat /\ is_overflow_stub c = true /\ stub_total c = total /\ stub_next c = next.
Proof.
  intros Ht Hn. unfold stub_of. assert (length (le_bytes 4 total) = 4%nat /\ length (le_bytes 4 next) = 4%nat) as [L1 L2] by (by rewrite !length_le_bytes).
  cbv zeta. split_and!.
  - repeat apply Forall_app_2; [repeat constructor; unfold is_byte; lia|apply le_bytes_bytes|apply le_bytes_bytes].
  - by rewrite !length_app, L1, L2.
  - unfold is_overflow_stub. rewrite !length_app, L1, L2. apply bool_decide_eq_true_2. rewrite slice_app_l by (cbn; lia). done.
  - unfold stub_total. rewrite (slice_app_r OVERFLOW_MAGIC _ 4 8 4) by (cbn; lia). rewrite slice_app_l by lia. rewrite slice_all by lia. apply le_val_le_bytes_small. cbn. lia.
  - unfold stub_next. rewrite app_assoc, (slice_app_r (OVERFLOW_MAGIC ++ le_bytes 4 total) _ 8 12 8) by (rewrite ?length_app, ?L1; cbn; lia). rewrite slice_all by lia. apply le_val_le_bytes_small. cbn. lia.
Qed.

(** What the heap takes: a record that serializes within the limit of a frame. *)
Definition record_fits (r : HeapRecord) : Prop := exists b, bincode_serialize r = Some b /\ Z.of_nat (length b) <= MAX_RECORD_PAYLOAD_LEN.

(** The length a scan finds in a cell, and the location it gives it. *)
Definition cell_length (c : list Z) : Z := if is_overflow_stub c then stub_total c else Z.of_nat (length c).
Definition entry_at (g : Z) (i j : nat) (c : list Z) : record_location := RecordLocation g (Z.of_nat i) (Z.of_nat j) (cell_length c).

(** The location of a cell, and no other cell is new. *)
Definition listed_at segs segs' (l : record_location) : Prop :=
  exists i j c, heap_cell segs' (loc_segment l) i j c /\ l = entry_at (loc_segment l) i j c /\ adds segs segs' (Some (loc_segment l, Z.of_nat i, Z.of_nat j, c)).

Lemma placed_listed segs segs' at_ c total : placed segs' at_ c -> adds segs segs' (Some (at_, c)) -> total = cell_length c ->
  listed_at segs segs' (RecordLocation at_.1.1 at_.1.2 at_.2 total).
Proof.
  intros (H1 & H2 & H3 & a & Ha & Hk & Hc) Hadds ->. destruct at_ as [[g i] j]. cbn [fst snd] in *. exists (Z.to_nat i), (Z.to_nat j), c. unfold abs_page in Ha.
  destruct (segs' !! g) as [l|] eqn:El; [|done]. destruct (l !! Z.to_nat i) as [a'|] eqn:Ea; [|done]. injection Ha as ->. unfold entry_at. cbn [loc_segment]. rewrite !Z2Nat.id by lia. split_and!; [by exists l, a|done|done].
Qed.

(** One more record: it is at the answer, and everything that was there still is. *)
Definition appends h segs (r : HeapRecord) (res : heap * result error_kind record_location) : Prop :=
  exists l h' segs', res = (h', Ok l) /\ heap_ok h' segs' /\ location_ok l /\ abs_read segs' l = Ok r /\ segs_grow segs segs' /\
    cd_next_segment (hp_catalog h') <= cd_next_segment (hp_catalog h) + 1 /\ listed_at segs segs' l.

Lemma framed_read segs l r b : bincode_serialize r = Some b -> Z.of_nat (length b) <= MAX_RECORD_PAYLOAD_LEN ->
  abs_frame segs l = Ok (frame_of b) -> abs_read segs l = Ok r.
Proof.
  intros Hser Hlen Hf. unfold abs_read. rewrite Hf. cbn [mbind result_bind]. rewrite decode_frame_of by (done || by eapply bincode_bytes).
  cbn [mbind result_bind]. by rewrite (bincode_roundtrip _ _ Hser).
Qed.

Lemma frame_bytes b : bytes b -> bytes (frame_of b).
Proof.
  intros Hb. unfold frame_of. repeat apply Forall_app_2; try apply le_bytes_bytes; [| |done]; repeat constructor; unfold RECORD_FORMAT_VERSION, is_byte; lia.
Qed.

Lemma active_ok h segs : heap_ok h segs ->
  exists l, segs !! cd_active_segment (hp_catalog h) = Some l /\ active_segment h = (cd_active_segment (hp_catalog h), Z.of_nat (length l)).
Proof.
  intros Hok. pose proof (ok_catalog _ _ Hok) as Hc. destruct (cat_active _ _ Hc) as [n Hn]. pose proof (cat_segment _ _ Hc (cd_active_segment (hp_catalog h))) as Hs.
  rewrite lookup_fmap in Hn. apply fmap_Some in Hn as (l & Hl & ->). exists l. split; [done|]. unfold active_segment. rewrite lookup_fmap, Hl in Hs. cbn [fmap option_fmap option_map] in Hs.
  destruct (find_segment _ _) as [m|]; [|done]. destruct Hs as [[= Hlen] Hpos]. f_equal. lia.
Qed.

Lemma append_cell_record r b h segs : heap_ok h segs -> cd_next_segment (hp_catalog h) + 1 < 2 ^ 32 -> bincode_serialize r = Some b ->
  Z.of_nat (length b) <= MAX_RECORD_PAYLOAD_LEN -> (length (frame_of b) <= MAX_CELL_LEN)%nat ->
  appends h segs r ((at_ ← append_cell nonces cache_pages open_capacity (frame_of b); mret (RecordLocation at_.1.1 at_.1.2 at_.2 (Z.of_nat (length (frame_of b))))) h).
Proof.
  intros Hok Hb Hser Hlen Hcell. destruct (active_ok h segs Hok) as (l & Hl & Ea). pose proof (frame_bytes b (bincode_bytes _ _ Hser)) as Hfb.
  destruct (append_cell_to_ok _ l (frame_of b) true h segs Hok Hl Hfb Hcell Hb) as (h' & at_ & segs' & E & Hok' & Hg & Hpl & Hadds & _ & Hn); [done|].
  erewrite hbind_ok; [|unfold append_cell; erewrite hbind_ok by reflexivity; rewrite Ea; exact E].
  assert (is_overflow_stub (frame_of b) = false) as Hstub by (unfold is_overflow_stub; by rewrite length_frame_of).
  assert (listed_at segs segs' (RecordLocation at_.1.1 at_.1.2 at_.2 (Z.of_nat (length (frame_of b))))) as Hlist by (apply (placed_listed _ _ _ (frame_of b)); [done|done|unfold cell_length; by rewrite Hstub]).
  destruct Hpl as (H1 & H2 & H3 & a & Ha & _ & Hc). exists (RecordLocation at_.1.1 at_.1.2 at_.2 (Z.of_nat (length (frame_of b)))), h', segs'. split; [reflexivity|]. split; [done|].
  rewrite length_frame_of in *. unfold MAX_RECORD_PAYLOAD_LEN, FRAME_HEADER_LEN in *. split; [unfold location_ok; cbn [loc_segment loc_page loc_slot loc_length]; split_and!; lia|].
  split; [|done]. apply (framed_read _ _ _ b); [done|unfold MAX_RECORD_PAYLOAD_LEN; lia|]. unfold abs_frame. cbn [loc_segment loc_page loc_slot]. rewrite Ha. cbn [mbind result_bind]. by rewrite Hc, Hstub.
Qed.

Lemma max_links_enough (frame : list Z) : (length (chunks MAX_CELL_LEN frame) <= max_links (Z.of_nat (length frame)))%nat.
Proof.
  assert (0 < MAX_CELL_LEN)%nat as Hpos by (pose proof PAGE_BODY_LEN_val; unfold MAX_CELL_LEN, PAGE_HEADER_LEN, SLOT_LEN; lia).
  pose proof (chunks_of_count (length frame) MAX_CELL_LEN frame Hpos) as Hc. unfold max_links, chunks.
  assert (Z.of_nat (length (chunks_of (length frame) MAX_CELL_LEN frame)) <= (Z.of_nat (length frame) + Z.of_nat MAX_CELL_LEN - 1) / Z.of_nat MAX_CELL_LEN); [|lia].
  apply Z.div_le_lower_bound; lia.
Qed.

Lemma overflow_length b : Z.of_nat (length b) <= MAX_RECORD_PAYLOAD_LEN -> Z.of_nat (length (chunks MAX_CELL_LEN (frame_of b))) <= 4111.
Proof.
  intros Hb. pose proof PAGE_BODY_LEN_val as Hv. assert (Z.of_nat MAX_CELL_LEN = 16328) as Hm by (unfold MAX_CELL_LEN, PAGE_HEADER_LEN, SLOT_LEN; lia).
  pose proof (chunks_of_count (length (frame_of b)) MAX_CELL_LEN (frame_of b)) as Hc. rewrite length_frame_of in Hc at 2. unfold chunks, FRAME_HEADER_LEN, MAX_RECORD_PAYLOAD_LEN in *. lia.
Qed.

Lemma append_overflow_record r b h segs : heap_ok h segs -> cd_next_segment (hp_catalog h) + 1 < 2 ^ 32 -> bincode_serialize r = Some b ->
  Z.of_nat (length b) <= MAX_RECORD_PAYLOAD_LEN -> appends h segs r (append_overflow nonces cache_pages open_capacity (frame_of b) h).
Proof.
  intros Hok Hb Hser Hlen. destruct (active_ok h segs Hok) as (l & Hl & Ea). pose proof (frame_bytes b (bincode_bytes _ _ Hser)) as Hfb.
  unfold append_overflow. erewrite hbind_ok by reflexivity. rewrite Ea. cbn [fst snd]. set (g0 := cd_active_segment (hp_catalog h)) in *.
  assert (exists h1 g l1 segs1, (if MAX_PAGES_PER_SEGMENT <=? Z.of_nat (length l) then fresh ← roll; mret (fresh, 0) else mret (g0, Z.of_nat (length l))) h
      = (h1, Ok (g, Z.of_nat (length l1))) /\ heap_ok h1 segs1 /\ segs1 !! g = Some l1 /\ segs_grow segs segs1 /\ adds segs segs1 None /\ Z.of_nat (length l1) < MAX_PAGES_PER_SEGMENT /\
      cd_next_segment (hp_catalog h1) <= cd_next_segment (hp_catalog h) + 1) as (h1 & g & l1 & segs1 & E1 & Hok1 & Hl1 & Hg1 & Ha1 & Hcap & Hn1).
  { destruct (Z.leb_spec MAX_PAGES_PER_SEGMENT (Z.of_nat (length l))) as [Hfull|Hfree].
    - destruct (roll_ok h segs Hok Hb) as (h1 & E1 & Hnone & Hok1 & En & _). eexists h1, _, [], _. split; [hstep E1; reflexivity|]. split; [exact Hok1|].
      split; [apply lookup_insert_eq|]. split; [by apply grow_segment|]. split; [by apply adds_segment|]. unfold MAX_PAGES_PER_SEGMENT. cbn [length]. lia.
    - exists h, g0, l, segs. split_and!; try done; [apply adds_refl|lia]. }
  hstep E1. cbn [fst snd]. pose proof (pager_opens g h1 segs1 Hok1) as Hp. rewrite Hl1 in Hp. destruct Hp as (h2 & E2 & Hok2 & [Hs2 _] & Ho2). hstep E2.
  assert (0 < MAX_CELL_LEN)%nat as Hpos by (pose proof PAGE_BODY_LEN_val; unfold MAX_CELL_LEN, PAGE_HEADER_LEN, SLOT_LEN; lia).
  pose proof (chunks_of_bounds (length (frame_of b)) MAX_CELL_LEN (frame_of b) Hpos) as Hbounds. fold (chunks MAX_CELL_LEN (frame_of b)) in Hbounds.
  pose proof (overflow_length b Hlen) as Hcount. set (cs := chunks MAX_CELL_LEN (frame_of b)) in *.
  destruct (write_chain_ok (reverse cs) g l1 0 [] h2 segs1 Hok2 Ho2 Hl1) as (h3 & next & l3 & segs3 & E3 & Hok3 & Hl3 & Hg3 & Ha3 & Hch3 & Hlen3 & Hn3 & En3).
  { lia. } { exact I. }
  { apply Forall_reverse. eapply Forall_impl; [exact Hbounds|]. cbn beta. intros c [Hc Hsub]. split; [|lia]. rewrite Forall_forall in *. intros x Hx. apply Hfb. by apply Hsub. }
  { rewrite length_reverse. unfold MAX_SEGMENT_LEN, MAX_PAGES_PER_SEGMENT in *. lia. }
  hstep E3. cbn [fst snd]. rewrite reverse_involutive, app_nil_r in Hch3. rewrite length_reverse in Hlen3.
  pose proof (length_frame_of b) as Hlf. unfold FRAME_HEADER_LEN, MAX_RECORD_PAYLOAD_LEN in *.
  destruct (stub_fields (Z.of_nat (length (frame_of b))) next) as (Hsb & Hsl & Hstub & Hst & Hsn); [lia|done|].
  destruct (append_cell_to_ok g l3 (stub_of (Z.of_nat (length (frame_of b))) next) false h3 segs3 Hok3 Hl3 Hsb) as (h4 & at_ & segs4 & E4 & Hok4 & Hg4 & Hpl & Ha4 & Eg & Hn4).
  { rewrite Hsl. pose proof PAGE_BODY_LEN_val. unfold MAX_CELL_LEN, PAGE_HEADER_LEN, SLOT_LEN. lia. }
  { rewrite En3, Hs2. lia. }
  { intros _. unfold MAX_SEGMENT_LEN, MAX_PAGES_PER_SEGMENT in *. lia. }
  assert (listed_at segs segs4 (RecordLocation g at_.1.2 at_.2 (Z.of_nat (length (frame_of b))))) as Hlist.
  { rewrite <- (Eg eq_refl). apply (placed_listed _ _ _ (stub_of (Z.of_nat (length (frame_of b))) next)); [done| |unfold cell_length; by rewrite Hstub, Hst].
    eapply adds_trans; [exact Ha1|]. by eapply adds_trans. }
  hstep E4. destruct Hpl as (U1 & U2 & U3 & a & Ha & _ & Hc). rewrite Eg in Ha, U1 by done.
  eexists _, h4, segs4. split; [reflexivity|]. split; [done|]. split; [unfold location_ok; cbn [loc_segment loc_page loc_slot loc_length]; split_and!; lia|].
  split; [|split; [by etrans; [|etrans]|split; [rewrite En3, Hs2 in Hn4; lia|exact Hlist]]].
  apply (framed_read _ _ _ b); [done|unfold MAX_RECORD_PAYLOAD_LEN; lia|]. unfold abs_frame. cbn [loc_segment loc_page loc_slot]. rewrite Ha. cbn [mbind result_bind]. rewrite Hc, Hstub, Hst, Hsn. cbn [negb].
  destruct (Z.ltb_spec MAX_RECORD_FRAME_LEN (Z.of_nat (length (frame_of b)))) as [Hbig|_]; [unfold MAX_RECORD_FRAME_LEN, MAX_RECORD_PAYLOAD_LEN, FRAME_HEADER_LEN in Hbig; lia|].
  assert (concat cs = frame_of b) as Hcat by (by apply chunks_of_concat).
  pose proof (chain_reads segs4 g cs (max_links (Z.of_nat (length (frame_of b)))) next [] (Z.of_nat (length (frame_of b)))) as Hread.
  rewrite app_nil_l, Hcat in Hread. apply Hread; [|apply max_links_enough|by eapply chain_grows|reflexivity].
  eapply Forall_impl; [exact Hbounds|]. cbn beta. intros c [? _]. lia.
Qed.

Lemma append_ok r h segs : heap_ok h segs -> cd_next_segment (hp_catalog h) + 1 < 2 ^ 32 -> record_fits r -> appends h segs r (append nonces cache_pages open_capacity r h).
Proof.
  intros Hok Hb (b & Hser & Hlen). unfold append. rewrite Hser, encode_frame_fits by done. erewrite hbind_ok by reflexivity.
  destruct (Nat.ltb_spec MAX_CELL_LEN (length (frame_of b))); [by apply append_overflow_record|by apply append_cell_record].
Qed.
End heap.
