(* ===== verification/HeapStore.v ===== *)
(** * The heap as a record store, synced, crashed and reopened

    The heap of [Heap.v] as an instance of the interface the engine is verified
    against; any sequence of its operations as operations on a list of
    records; and what a crash leaves of it. *)

From Stdlib Require Import ZArith Lia Ascii String.
From stdpp Require Import base tactics list strings option gmap sorting.
From S2P Require Import Prelude Crypto Binary Page PageSpec BTree Entities Engine Lru Pager Heap HeapRep HeapTheorems.

Local Open Scope Z_scope.

Section store.
Context `{Aead} (nonces : nat -> list Z) (cache_pages : option nat) (open_capacity : nat) `{Bincode HeapRecord}.
Hypothesis nonce_length : forall i, length (nonces i) = NONCE_LEN.
Implicit Types (h : heap) (segs : segments).

Abbreviation append := (append nonces cache_pages open_capacity).
Abbreviation read := (read nonces cache_pages open_capacity).

(** ** The interface of the engine *)

Definition heap_store : RecordStore heap := {|
  store_append h r := match append r h with (h, Ok l) => Ok (l, h) | (_, Err x) => Err x end;
  store_read h l := (read l h).2;
  store_mark_obsolete h l := (mark_obsolete l h).1;
|}.

Local Existing Instance heap_store.

Lemma read_answer l h segs : heap_ok h segs -> location_ok l -> (read l h).2 = abs_read segs l.
Proof. intros Hok Hl. by destruct (heap_read_ok nonces cache_pages open_capacity nonce_length l h segs Hok Hl) as (h' & -> & _). Qed.

Lemma mark_ok l h segs : heap_ok h segs -> heap_ok (mark_obsolete l h).1 segs.
Proof. intros [[Ho Hcl] Hc Hs]. split; [done| |done]. cbn. by apply catalog_marked. Qed.

(** Every cell of a heap page is a record the heap takes. *)
Definition legible segs : Prop := forall g i j c, heap_cell segs g i j c ->
  location_ok (entry_at g i j c) /\ exists r, abs_read segs (entry_at g i j c) = Ok r /\ record_fits r.

Lemma legible_append segs segs' l r : legible segs -> segs_grow segs segs' -> listed_at segs segs' l -> location_ok l -> abs_read segs' l = Ok r -> record_fits r -> legible segs'.
Proof.
  intros Hleg Hg (i & j & c & _ & El & Hadds) Hl Hr Hfit g' i' j' c' Hc. destruct (Hadds g' i' j' c' Hc) as [Hold|[= <- <-%Nat2Z.inj <-%Nat2Z.inj <-]].
  - destruct (Hleg g' i' j' c' Hold) as (Hl' & r' & Hr' & Hf'). split; [done|]. exists r'. split; [by eapply abs_read_grows|done].
  - rewrite <- El. split; [done|]. by exists r.
Qed.

Definition heap_room h (k : nat) : Prop := exists segs, heap_ok h segs /\ legible segs /\ cd_next_segment (hp_catalog h) + Z.of_nat k < 2 ^ 32.

Definition heap_store_laws : @RecordStoreLaws heap heap_store.
Proof.
  refine {| store_room := heap_room; store_fits := record_fits |}.
  - intros h r k (segs & Hok & Hleg & Hb) Hfit. destruct (append_ok nonces cache_pages open_capacity nonce_length r h segs Hok) as (l & h' & segs' & E & Hok' & Hl & Hr & Hg & Hn & Hat); [lia|done|].
    exists l, h'. unfold store_append, store_read, keeps, heap_store, store_read. rewrite E. split; [done|]. split; [done|]. rewrite (read_answer l h' segs') by done. split; [done|]. split.
    + intros l' r' Hl'. rewrite (read_answer l' h segs), (read_answer l' h' segs') by done. by apply abs_read_grows.
    + exists segs'. split; [done|]. split; [by eapply legible_append|lia].
  - intros h l k (segs & Hok & Hleg & Hb). split; [|exists segs; split; [by apply mark_ok|done]]. intros l' r Hl'. unfold store_read, heap_store, store_mark_obsolete.
    rewrite (read_answer l' h segs), (read_answer l' _ segs) by (done || by apply mark_ok). done.
  - intros h k (segs & Hok & Hleg & Hb). exists segs. split; [done|]. split; [done|lia].
Defined.

(** ** Syncing *)

(** What is on the disk: an open segment is the file of its pager. *)
Definition disk h (g : Z) : list Z := match os_pagers (hp_open h) !! g with Some (p, _) => pi_file p | None => default [] (hp_files h !! g) end.

Definition stored segs (file : list Z) (g : Z) : Prop := forall l i a, segs !! g = Some l -> l !! i = Some a -> on_file file (Z.of_nat i) a.

Lemma flush_one g h segs : heap_ok h segs -> is_open h g ->
  exists h', on_pager g (flush nonces) h = (h', Ok tt) /\ heap_ok h' segs /\ same_heap h h' /\ (forall g', is_open h' g' <-> is_open h g') /\
    stored segs (disk h' g) g /\ (forall g', g' <> g -> disk h' g' = disk h g').
Proof.
  intros Hok [[p t] Hp]. destruct (fr_open _ _ (ok_files _ _ Hok) g p t Hp) as (l & Hl & Hh). unfold on_pager. rewrite Hp.
  destruct (flushed_file nonces nonce_length p l Hh) as (p' & -> & Hh' & Hon). eexists. split; [done|]. split; [|split; [done|split; [|split]]].
  - eapply heap_ok_same; [exact Hok| |done]. eapply files_on_pager; [apply Hok|exact Hh'|by rewrite insert_id|by eexists].
  - intros g'. unfold is_open in *. cbn [set_open hp_open os_pagers]. rewrite lookup_insert_is_Some'. split; [intros [<-|?]; [by eexists|done]|by right].
  - unfold disk, stored. cbn [set_open hp_open os_pagers hp_files]. rewrite lookup_insert_eq. intros l' i a Hl'. rewrite Hl in Hl'. injection Hl' as <-. apply Hon.
  - intros g' Hne. unfold disk. cbn [set_open hp_open os_pagers hp_files]. by rewrite lookup_insert_ne.
Qed.

Lemma flush_each_ok ids h segs : heap_ok h segs -> Forall (is_open h) ids -> NoDup ids ->
  exists h', flush_each nonces ids h = (h', Ok tt) /\ heap_ok h' segs /\ same_heap h h' /\ (forall g, is_open h' g <-> is_open h g) /\
    (forall g, g ∈ ids -> stored segs (disk h' g) g) /\ (forall g, g ∉ ids -> disk h' g = disk h g).
Proof.
  revert h. induction ids as [|g ids IH]; intros h Hok Hids Hnd; cbn [flush_each]; [exists h; split_and!; try done; by intros g ?%not_elem_of_nil|].
  apply Forall_cons_1 in Hids as [Hg Hids]. apply NoDup_cons in Hnd as [Hng Hnd].
  destruct (flush_one g h segs Hok Hg) as (h1 & E1 & Hok1 & Hs1 & Ho1 & Hst & Hd1). hstep E1.
  destruct (IH h1 Hok1) as (h2 & E2 & Hok2 & Hs2 & Ho2 & Hst2 & Hd2); [|done|].
  { eapply Forall_impl; [exact Hids|]. intros g'. apply Ho1. }
  exists h2. split; [done|]. split; [done|]. split; [by eapply same_trans|]. split; [intros g'; by rewrite Ho2|]. split.
  - intros g' [->|Hg']%elem_of_cons; [by rewrite Hd2|by apply Hst2].
  - intros g' [Hne Hni]%not_elem_of_cons. rewrite Hd2 by done. by apply Hd1.
Qed.

Lemma sync_ok h segs : heap_ok h segs -> exists h', sync nonces h = (h', Ok tt) /\ heap_ok h' segs /\ hp_catalog h' = hp_catalog h /\ hp_saved h' = hp_catalog h /\
  forall g, stored segs (disk h' g) g.
Proof.
  intros Hok. unfold sync. erewrite hbind_ok by reflexivity. destruct (flush_each_ok (map fst (map_to_list (os_pagers (hp_open h)))) h segs Hok) as (h1 & E1 & Hok1 & [Hs1 _] & Ho1 & Hst & _).
  { apply Forall_forall. intros g ([g' x] & -> & Hx%elem_of_map_to_list)%list_elem_of_fmap. by exists x. }
  { apply NoDup_fst_map_to_list. }
  hstep E1. eexists. split; [reflexivity|]. cbn [hp_catalog hp_saved]. destruct Hok1 as [[Ho Hcl] Hc Hs]. split; [by split|]. split; [done|]. split; [done|].
  intros g. destruct (os_pagers (hp_open h1) !! g) as [[p t]|] eqn:Hp.
  - change (stored segs (disk h1 g) g). apply Hst. assert (is_open h g) as [x Hx] by (apply Ho1; by exists (p, t)). apply list_elem_of_fmap. exists (g, x). split; [done|]. by apply elem_of_map_to_list.
  - intros l i a Hl Ha. unfold disk. cbn [hp_open hp_files]. rewrite Hp. by eapply Hcl.
Qed.

(** ** The heap as a list of records *)

(** Locations are kept by the position of their record. *)
Inductive heap_call := CAppend (r : HeapRecord) | CGet (i : nat) | CMark (i : nat) | CSync.
Inductive heap_answer := APlaced (l : record_location) | ARecord (r : HeapRecord) | ADone | AFailed (x : error_kind) | ANone.

Definition heap_step (c : heap_call) (s : heap * list record_location) : (heap * list record_location) * heap_answer :=
  let '(h, ls) := s in
  match c with
  | CAppend r => match append r h with (h, Ok l) => ((h, ls ++ [l]), APlaced l) | (h, Err x) => ((h, ls), AFailed x) end
  | CGet i => match ls !! i with
              | None => ((h, ls), ANone)
              | Some l => let '(h, r) := read l h in ((h, ls), match r with Ok r => ARecord r | Err x => AFailed x end)
              end
  | CMark i => match ls !! i with None => ((h, ls), ANone) | Some l => (((mark_obsolete l h).1, ls), ADone) end
  | CSync => let '(h, r) := sync nonces h in ((h, ls), match r with Ok _ => ADone | Err x => AFailed x end)
  end.

Fixpoint heap_run (cs : list heap_call) (s : heap * list record_location) : (heap * list record_location) * list heap_answer :=
  match cs with
  | [] => (s, [])
  | c :: cs => let '(s, a) := heap_step c s in let '(s, l) := heap_run cs s in (s, a :: l)
  end.

(** What the list answers: an append is placed, a read gives the record of the position. *)
Fixpoint answers_ok (cs : list heap_call) (rs : list HeapRecord) (l : list heap_answer) : Prop :=
  match cs, l with
  | [], [] => True
  | CAppend r :: cs, APlaced _ :: l => answers_ok cs (rs ++ [r]) l
  | CGet i :: cs, a :: l => a = match rs !! i with Some r => ARecord r | None => ANone end /\ answers_ok cs rs l
  | CMark i :: cs, a :: l => a = match rs !! i with Some _ => ADone | None => ANone end /\ answers_ok cs rs l
  | CSync :: cs, ADone :: l => answers_ok cs rs l
  | _, _ => False
  end.

Definition call_fits (c : heap_call) : Prop := match c with CAppend r => record_fits r | _ => True end.

(** The records are at their locations. *)
Definition holds_records segs (ls : list record_location) (rs : list HeapRecord) : Prop :=
  Forall2 (fun l r => location_ok l /\ abs_read segs l = Ok r) ls rs.

Lemma holds_grow segs segs' ls rs : segs_grow segs segs' -> holds_records segs ls rs -> holds_records segs' ls rs.
Proof. intros Hg Hh. eapply Forall2_impl; [exact Hh|]. cbn beta. intros l r [Hl Hr]. split; [done|]. by eapply abs_read_grows. Qed.

(** C14: The heap is a list of records.  From any well-formed heap, with any bound on the pages in memory and
    on the segments open, any sequence of appends, reads, obsolescence marks and syncs runs without an
    error; every read returns exactly the record that was appended at that position, whether it lies in one
    page or in an overflow chain, in the active segment or in one rolled long ago, in memory or on disk. *)
Theorem heap_refines_list cs h segs ls rs : heap_ok h segs -> holds_records segs ls rs -> Forall call_fits cs ->
  cd_next_segment (hp_catalog h) + Z.of_nat (length cs) < 2 ^ 32 -> answers_ok cs rs (heap_run cs (h, ls)).2.
Proof.
  revert h segs ls rs. induction cs as [|c cs IH]; intros h segs ls rs Hok Hh Hfit Hb; cbn [heap_run]; [done|]. apply Forall_cons_1 in Hfit as [Hc Hfit]. cbn [length] in Hb.
  destruct c as [r|i|i|]; cbn [heap_step call_fits] in *.
  - destruct (append_ok nonces cache_pages open_capacity nonce_length r h segs Hok) as (l & h' & segs' & -> & Hok' & Hl & Hr & Hg & Hn & _); [lia|done|].
    specialize (IH h' segs' (ls ++ [l]) (rs ++ [r]) Hok'). destruct (heap_run cs (h', ls ++ [l])) as [s a]. cbn [snd answers_ok] in *.
    apply IH; [|done|lia]. apply Forall2_app; [by eapply holds_grow|]. by constructor.
  - destruct (ls !! i) as [l|] eqn:Ei.
    + destruct (Forall2_lookup_l _ _ _ _ _ Hh Ei) as (r & Er & Hl & Hr). destruct (heap_read_ok nonces cache_pages open_capacity nonce_length l h segs Hok Hl) as (h' & -> & Hok' & [Hs _]).
      rewrite Hr. specialize (IH h' segs ls rs Hok' Hh Hfit). destruct (heap_run cs (h', ls)) as [s a]. cbn [snd answers_ok] in *. rewrite Er. split; [done|]. apply IH. rewrite Hs. lia.
    + specialize (IH h segs ls rs Hok Hh Hfit). destruct (heap_run cs (h, ls)) as [s a]. cbn [snd answers_ok] in *.
      rewrite (proj2 (lookup_ge_None rs i)); [|apply Forall2_length in Hh; apply lookup_ge_None in Ei; lia]. split; [done|]. apply IH. lia.
  - destruct (ls !! i) as [l|] eqn:Ei.
    + destruct (Forall2_lookup_l _ _ _ _ _ Hh Ei) as (r & Er & _). specialize (IH (mark_obsolete l h).1 segs ls rs (mark_ok l h segs Hok) Hh Hfit).
      destruct (heap_run cs ((mark_obsolete l h).1, ls)) as [s a]. cbn [snd answers_ok] in *. rewrite Er. split; [done|]. apply IH. cbn. lia.
    + specialize (IH h segs ls rs Hok Hh Hfit). destruct (heap_run cs (h, ls)) as [s a]. cbn [snd answers_ok] in *.
      rewrite (proj2 (lookup_ge_None rs i)); [|apply Forall2_length in Hh; apply lookup_ge_None in Ei; lia]. split; [done|]. apply IH. lia.
  - destruct (sync_ok h segs Hok) as (h' & -> & Hok' & Hs & _). specialize (IH h' segs ls rs Hok' Hh Hfit). destruct (heap_run cs (h', ls)) as [s a].
    cbn [snd answers_ok] in *. apply IH. rewrite Hs. lia.
Qed.

(** ** Reopening *)

(** The empty heap of a new database. *)
Lemma fresh_ok files : heap_ok (open_heap fresh_catalog files) {[0 := []]}.
Proof.
  split.
  - split; cbn [open_heap hp_open os_pagers]; intros id; [intros p t Hp; by rewrite lookup_empty in Hp|]. intros l i a [_ <-]%lookup_singleton_Some _ Ha. done.
  - split; cbn [open_heap hp_catalog fresh_catalog cd_next_segment cd_active_segment].
    + intros id. unfold find_segment. cbn [fresh_catalog cd_segments find_first sg_id]. rewrite lookup_fmap. destruct (Z.eqb_spec 0 id) as [<-|Hne]; [by rewrite lookup_singleton_eq|by rewrite lookup_singleton_ne].
    + intros id n. rewrite lookup_fmap. intros (l & Hl & _)%fmap_Some. apply lookup_singleton_Some in Hl as [<- _]. lia.
    + by rewrite lookup_fmap, lookup_singleton_eq.
  - intros g l [_ <-]%lookup_singleton_Some. done.
Qed.

(** The page a file holds, decoded. *)
Definition file_page (file : list Z) (i : Z) : option apage :=
  match decrypt (region file i) with Some body => match decode body with Ok pg => Some (page_abs pg) | Err _ => None end | None => None end.

Lemma file_page_on file i a : on_file file i a -> file_page file i = Some a.
Proof. intros (_ & body & pg & Hd & Hp & _ & <-). unfold file_page. by rewrite Hd, Hp. Qed.

Definition reloaded segs (files : gmap Z (list Z)) : segments :=
  map_imap (fun g pl => Some (imap (fun i a => default a (file_page (default [] (files !! g)) (Z.of_nat i))) pl)) segs.

Lemma reloaded_lookup segs files g : reloaded segs files !! g = (fun pl => imap (fun i a => default a (file_page (default [] (files !! g)) (Z.of_nat i))) pl) <$> segs !! g.
Proof. unfold reloaded. rewrite map_lookup_imap. by destruct (segs !! g). Qed.

Lemma reloaded_lengths segs files : length <$> reloaded segs files = length <$> segs.
Proof. apply map_eq. intros g. rewrite !lookup_fmap, reloaded_lookup. destruct (segs !! g); cbn [fmap option_fmap option_map]; [by rewrite length_imap|done]. Qed.

Lemma reloaded_ok h segs files : heap_ok h segs -> hp_saved h = hp_catalog h ->
  (forall g pl i a, segs !! g = Some pl -> pl !! i = Some a -> exists a', page_grows a a' /\ on_file (default [] (files !! g)) (Z.of_nat i) a') ->
  segs_grow segs (reloaded segs files) /\ heap_ok (open_heap (hp_saved h) files) (reloaded segs files).
Proof.
  intros Hok Hs Hf. split; [|split; [split| |]]; cbn [open_heap hp_open os_pagers hp_files hp_catalog].
  - intros g pl Hpl. rewrite reloaded_lookup, Hpl. eexists. split; [done|]. intros i a Ha. destruct (Hf g pl i a Hpl Ha) as (a' & Hg & Hon%file_page_on).
    exists a'. split; [|done]. rewrite list_lookup_imap, Ha. cbn [fmap option_fmap option_map]. by rewrite Hon.
  - intros id p t Hp. by rewrite lookup_empty in Hp.
  - intros g l' i a' Hl' _ Ha'. rewrite reloaded_lookup in Hl'. apply fmap_Some in Hl' as (pl & Hpl & ->). rewrite list_lookup_imap in Ha'. apply fmap_Some in Ha' as (a & Ha & ->).
    destruct (Hf g pl i a Hpl Ha) as (a' & Hg & Hon). by rewrite (file_page_on _ _ _ Hon).
  - rewrite reloaded_lengths, Hs. apply Hok.
  - intros g l'. rewrite reloaded_lookup. intros (pl & Hpl & ->)%fmap_Some. rewrite length_imap. by apply Hok in Hpl.
Qed.

(** The files a crash may leave when it tears no page: each page that was whole is whole, as it was or with
    more cells. *)
Definition pages_survive h (files : gmap Z (list Z)) : Prop :=
  forall g i a, on_file (disk h g) i a -> exists a', page_grows a a' /\ on_file (default [] (files !! g)) i a'.

(** C15: What was synced survives a crash that tears no page.  Sync a heap, and take files in which every page
    that was on disk is whole, as it was then or with more cells, whatever else they hold: the heap opens
    on them with the catalog that was saved, and every record that could be read still reads the same. *)
Theorem heap_crash_recovers h segs h' files l r : heap_ok h segs -> sync nonces h = (h', Ok tt) -> pages_survive h' files ->
  location_ok l -> (read l h).2 = Ok r -> (read l (open_heap (hp_saved h') files)).2 = Ok r.
Proof.
  intros Hok Hsync Hfiles Hl Hr. rewrite (read_answer l h segs Hok Hl) in Hr. destruct (sync_ok h segs Hok) as (h1 & E & Hok1 & Hc & Hs & Hst).
  rewrite Hsync in E. injection E as <-. destruct (reloaded_ok h' segs files Hok1) as [Hg Hok']; [congruence| |].
  - intros g pl i a Hpl Ha. apply Hfiles. by eapply Hst.
  - rewrite (read_answer l _ _ Hok' Hl). by eapply abs_read_grows.
Qed.
End store.

(** ** A run *)

Section examples.
Local Existing Instance null_aead.

#[local] Instance heap_record_eq_dec : EqDecision HeapRecord.
Proof. solve_decision. Defined.

Definition origin : Coordinate := {| coord_x := 0; coord_y := 0; coord_z := 0; coord_q := 0 |}.
Definition small_record : HeapRecord := HNode (node_new origin "a" "k" "o").
Definition large_record : HeapRecord := HNode (node_new origin "b" "k" "o").

(** A format that knows two records, one longer than a page. *)
Definition long_body : list Z := 7 :: replicate (Z.to_nat 17000) 7.

Lemma long_body_length : Z.of_nat (length long_body) = 17001.
Proof. unfold long_body. cbn [length]. rewrite length_replicate. lia. Qed.

Definition two_serialize (r : HeapRecord) : option (list Z) :=
  if decide (r = small_record) then Some [1; 2; 3] else if decide (r = large_record) then Some long_body else None.
Definition two_deserialize (b : list Z) : option HeapRecord :=
  if decide (b = [1; 2; 3]) then Some small_record else if decide (b = long_body) then Some large_record else None.

#[local] Instance two_bincode : Bincode HeapRecord.
Proof.
  refine {| bincode_serialize := two_serialize; bincode_deserialize := two_deserialize |}; unfold two_serialize, two_deserialize; intros r b.
  - case_decide as E1; [intros [= <-]; rewrite decide_True by done; by subst|]. case_decide as E2; [|done].
    intros [= <-]. rewrite decide_False by discriminate. rewrite decide_True by done. by subst.
  - case_decide; [intros [= <-]; repeat constructor; done|]. case_decide; [|done]. intros [= <-]. constructor; [done|]. by apply Forall_replicate.
Defined.

Definition small_run : list heap_call := [CAppend small_record; CAppend large_record; CSync; CAppend small_record; CMark 0; CGet 1; CGet 0; CGet 7].

Lemma small_run_fits : Forall call_fits small_run.
Proof.
  assert (record_fits small_record /\ record_fits large_record) as [Hs Hl].
  { split; eexists; (split; [reflexivity|]); [done|]. rewrite long_body_length. by vm_compute. }
  by repeat (constructor; [done|]).
Qed.

Lemma heap_refines_list_witness :
  answers_ok small_run [] (heap_run zero_nonces (Some 1%nat) 2 small_run (open_heap fresh_catalog ∅, [])).2.
Proof.
  apply (heap_refines_list zero_nonces (Some 1%nat) 2 (fun _ => eq_refl) small_run _ {[0 := []]} [] []).
  - apply fresh_ok.
  - constructor.
  - apply small_run_fits.
  - vm_compute. reflexivity.
Defined.

(** One record, then synced. *)
Definition place : record_location := RecordLocation 0 0 0 15.
Definition one_appended : heap := (append zero_nonces None 2 small_record (open_heap fresh_catalog ∅)).1.
Definition one_synced : heap := (sync zero_nonces one_appended).1.

Lemma one_appended_ok : exists segs, heap_ok one_appended segs.
Proof.
  destruct (append_ok zero_nonces None 2 (fun _ => eq_refl) small_record _ _ (fresh_ok ∅)) as (l & h' & segs' & E & Hok & _); [done|eexists; split; [reflexivity|done]|].
  exists segs'. unfold one_appended. by rewrite E.
Qed.

Lemma disk_kept h g0 : (forall g, g <> g0 -> disk h g = []) -> pages_survive h {[g0 := disk h g0]}.
Proof.
  intros Hd g i a Hon. exists a. split; [done|]. destruct (decide (g = g0)) as [->|Hne]; [by rewrite lookup_singleton_eq|].
  rewrite Hd in Hon by done. destruct Hon as [Hl _]. rewrite length_region in Hl. cbn [length] in Hl. pose proof PAGE_SIZE_pos. lia.
Qed.

Lemma one_synced_open : map fst (map_to_list (os_pagers (hp_open one_synced))) = [0] /\ hp_files one_synced = ∅.
Proof. vm_compute. done. Qed.

Lemma only_key {A} (m : gmap Z A) k g : map fst (map_to_list m) = [k] -> g <> k -> m !! g = None.
Proof.
  intros Hm Hne. destruct (m !! g) as [x|] eqn:Hx; [|done]. apply elem_of_map_to_list in Hx. exfalso. apply Hne.
  apply list_elem_of_singleton. rewrite <- Hm. apply list_elem_of_fmap. by exists (g, x).
Qed.

Lemma one_synced_disk g : g <> 0 -> disk one_synced g = [].
Proof. intros Hne. destruct one_synced_open as [Hopen Hfiles]. unfold disk. by rewrite (only_key _ _ _ Hopen Hne), Hfiles, lookup_empty. Qed.

Lemma one_synced_eq : sync zero_nonces one_appended = (one_synced, Ok tt).
Proof. assert ((sync zero_nonces one_appended).2 = Ok tt) as E by (vm_compute; reflexivity). rewrite <- E. apply surjective_pairing. Qed.

Lemma one_appended_reads : (read zero_nonces None 2 place one_appended).2 = Ok small_record.
Proof. vm_compute. reflexivity. Qed.

Lemma heap_crash_recovers_witness :
  (read zero_nonces None 2 place (open_heap (hp_saved one_synced) {[0 := disk one_synced 0]})).2 = Ok small_record.
Proof.
  destruct one_appended_ok as [segs Hok].
  refine (heap_crash_recovers zero_nonces None 2 (fun _ => eq_refl) one_appended segs one_synced {[0 := disk one_synced 0]} place small_record
    Hok one_synced_eq (disk_kept _ _ one_synced_disk) _ one_appended_reads). vm_compute. split_and!; done.
Defined.

(** The next record goes into the same page; the crash comes when half of that page is written. *)
Definition two_flushed : heap := (sync zero_nonces (append zero_nonces None 2 small_record one_synced).1).1.
Definition torn_page : list Z := take (Z.to_nat 8192) (disk two_flushed 0) ++ drop (Z.to_nat 8192) (disk one_synced 0).

(** A torn page of the heap takes synced records with it.  The heap writes the last page of its active
    segment in place: a record that was synced is lost when the write of the next record into its page
    stops half way, because the page no longer passes its checksum.  No log entry before the checkpoint is
    left to restore it. *)
Theorem heap_torn_page_loses_synced :
  (read zero_nonces None 2 place one_synced).2 = Ok small_record /\
  length torn_page = length (disk one_synced 0) /\
  (read zero_nonces None 2 place (open_heap (hp_saved one_synced) {[0 := disk one_synced 0]})).2 = Ok small_record /\
  (read zero_nonces None 2 place (open_heap (hp_saved one_synced) {[0 := disk two_flushed 0]})).2 = Ok small_record /\
  (read zero_nonces None 2 place (open_heap (hp_saved one_synced) {[0 := torn_page]})).2 = Err InvalidData.
Proof. vm_compute. split_and!; reflexivity. Qed.
End examples.

(** ** The file of the catalog *)

Lemma frame_split (b : list Z) : (FRAME_HEADER_LEN <= length b)%nat ->
  b = slice b 0 4 ++ [b !!! 4%nat] ++ slice b 5 9 ++ slice b 9 13 ++ drop FRAME_HEADER_LEN b.
Proof. unfold FRAME_HEADER_LEN. intros Hl. do 13 (destruct b as [|? b]; [cbn [length] in Hl; lia|]). reflexivity. Qed.

(** The only file a payload is decoded from is its frame. *)
Lemma decode_frame_inv b payload : bytes b -> decode_frame b = Ok payload -> b = frame_of payload.
Proof.
  intros Hb. unfold decode_frame. destruct (Nat.ltb_spec (length b) FRAME_HEADER_LEN) as [|Hl]; [done|].
  case_bool_decide as Hm; cbn [negb]; [|done]. destruct (Z.eqb_spec (b !!! 4%nat) RECORD_FORMAT_VERSION) as [Hv|]; cbn [negb]; [|done].
  destruct (Nat.eqb_spec (length b) (FRAME_HEADER_LEN + Z.to_nat (le_val (slice b 5 9)))) as [Hd|]; cbn [negb]; [|done].
  destruct (Z.eqb_spec (crc32 (drop FRAME_HEADER_LEN b)) (le_val (slice b 9 13))) as [Hc|]; cbn [negb]; [|done]. intros [= <-].
  assert (forall i j, (i <= j)%nat -> (j - i = 4)%nat -> (j <= FRAME_HEADER_LEN)%nat -> le_bytes 4 (le_val (slice b i j)) = slice b i j) as Hle.
  { intros i j Hij H4 Hj. rewrite <- H4, <- (length_slice b i j) by lia. apply le_bytes_le_val. by apply Forall_slice. }
  pose proof (le_val_bound _ (Forall_slice _ _ 5 9 Hb)) as Hn. unfold frame_of. rewrite Hc, (Hle 9%nat 13%nat) by (unfold FRAME_HEADER_LEN; lia). rewrite length_drop, Hd.
  replace (Z.of_nat (FRAME_HEADER_LEN + Z.to_nat (le_val (slice b 5 9)) - FRAME_HEADER_LEN)) with (le_val (slice b 5 9)) by lia.
  rewrite Hle by (unfold FRAME_HEADER_LEN; lia). rewrite <- Hm, <- Hv. by apply frame_split.
Qed.

Lemma frame_length_field p p' : Z.of_nat (length p) <= MAX_RECORD_PAYLOAD_LEN -> (FRAME_HEADER_LEN + length p' <= FRAME_HEADER_LEN + length p)%nat ->
  slice (frame_of p) 5 9 = slice (frame_of p') 5 9 -> length p' = length p.
Proof.
  intros Hl Hle E. destruct (frame_of_fields p) as (_ & _ & E1 & _), (frame_of_fields p') as (_ & _ & E2 & _). rewrite E1, E2 in E.
  apply (f_equal le_val) in E. rewrite !le_val_le_bytes_small in E by (apply frame_length_u32; lia). lia.
Qed.

(** A frame cut short, or with one byte changed, is refused. *)
Lemma frame_cut p n : bytes p -> Z.of_nat (length p) <= MAX_RECORD_PAYLOAD_LEN -> (n < length (frame_of p))%nat ->
  exists x, decode_frame (take n (frame_of p)) = Err x.
Proof.
  intros Hb Hl Hn. destruct (decode_frame (take n (frame_of p))) as [p'|x] eqn:E; [|by exists x]. exfalso.
  assert (FRAME_HEADER_LEN <= n)%nat as Hh.
  { unfold decode_frame in E. rewrite length_take, length_frame_of in E. destruct (Nat.ltb_spec (n `min` (FRAME_HEADER_LEN + length p)) FRAME_HEADER_LEN); [done|]. lia. }
  apply decode_frame_inv in E; [|by apply Forall_take, frame_bytes]. pose proof (f_equal length E) as El. rewrite length_take, !length_frame_of in El. rewrite length_frame_of in Hn.
  assert (length p' = length p); [|lia]. apply frame_length_field; [done|lia|]. rewrite <- E. unfold slice. cbn [Nat.sub]. 
  apply list_eq. intros i. destruct (decide (i < 4)%nat); [|rewrite !lookup_take_ge by lia; done]. rewrite !lookup_take_lt, !lookup_drop, lookup_take_lt by (unfold FRAME_HEADER_LEN in *; lia). done.
Qed.

Lemma frame_changed p i x y : bytes p -> Z.of_nat (length p) <= MAX_RECORD_PAYLOAD_LEN -> frame_of p !! i = Some x -> is_byte y -> x <> y ->
  exists e, decode_frame (<[i := y]> (frame_of p)) = Err e.
Proof.
  intros Hb Hl Hx Hy Hne. destruct (decode_frame (<[i := y]> (frame_of p))) as [p'|e] eqn:E; [|by exists e]. exfalso.
  apply decode_frame_inv in E; [|by apply Forall_insert; [apply frame_bytes|]].
  destruct (frame_of_fields p) as (_ & _ & _ & Ec & Ep), (frame_of_fields p') as (_ & _ & _ & Ec' & Ep').
  destruct (decide (i < FRAME_HEADER_LEN)%nat) as [Hi|Hi].
  - assert (p' = p) as -> by (rewrite <- Ep', <- E, drop_insert_lt by lia; done). apply (f_equal (fun l => l !! i)) in E.
    rewrite list_lookup_insert_eq in E by (by eapply lookup_lt_Some). congruence.
  - assert (p' = <[(i - FRAME_HEADER_LEN)%nat := y]> p) as -> by (rewrite <- Ep', <- E, drop_insert_ge, Ep by lia; done).
    assert (crc32 (<[(i - FRAME_HEADER_LEN)%nat := y]> p) = crc32 p) as Hc.
    { assert (slice (frame_of (<[(i - FRAME_HEADER_LEN)%nat := y]> p)) 9 13 = slice (frame_of p) 9 13) as Es by (rewrite <- E; apply slice_ext; intros k Hk; apply list_lookup_insert_ne; unfold FRAME_HEADER_LEN in *; lia).
      rewrite Ec, Ec' in Es. apply (f_equal le_val) in Es. rewrite !le_val_le_bytes_small in Es; [done|..]; change (256 ^ Z.of_nat 4) with 4294967296; apply crc32_u32; [done|by apply Forall_insert]. }
    unfold crc32 in Hc. revert Hc. apply (crc32_parts_changed _ _ (i - FRAME_HEADER_LEN)%nat x y); cbn [concat]; rewrite ?app_nil_r; try done.
    rewrite <- Hx. rewrite <- Ep at 1. rewrite lookup_drop. f_equal. lia.
Qed.

Section catalog.
Context `{Aead} `{Bincode CatalogData}.

(** The catalog reads back, and damage to it is reported.  Whatever catalog of this format is written is the
    one the next start reads; one of another format version or page size is refused, and so is the file
    cut short at any byte or with any single byte changed. *)
Theorem catalog_roundtrip nonce c file : bytes nonce -> length nonce = NONCE_LEN -> catalog_encode nonce c = Ok file ->
  catalog_open (Some file) = (if (cd_format_version c =? DATABASE_FORMAT_VERSION) && (cd_page_size c =? Z.of_nat PAGE_SIZE) then Ok c else Err InvalidData) /\
  (forall n, (n < length file)%nat -> exists x, catalog_open (Some (take n file)) = Err x) /\
  (forall i x y, file !! i = Some x -> is_byte y -> x <> y -> exists e, catalog_open (Some (<[i := y]> file)) = Err e).
Proof.
  unfold catalog_encode. intros Hn Hnl. destruct (bincode_serialize c) as [plain|] eqn:Hs; [|done]. intros [-> Hl]%encode_frame_ok.
  assert (bytes (encrypt nonce plain)) as Hb by (apply encrypt_bytes; [done|by eapply bincode_bytes]).
  unfold catalog_open, catalog_decode. split_and!.
  - rewrite decode_frame_of by done. cbn [mbind result_bind]. rewrite decrypt_encrypt, (bincode_roundtrip _ _ Hs) by done. cbn [mbind result_bind].
    destruct (_ =? DATABASE_FORMAT_VERSION); cbn [negb andb]; [|done]. by destruct (_ =? Z.of_nat PAGE_SIZE).
  - intros n Hlt. destruct (frame_cut _ n Hb Hl Hlt) as [x ->]. by exists x.
  - intros i x y Hx Hy Hne. destruct (frame_changed _ i x y Hb Hl Hx Hy Hne) as [e ->]. by exists e.
Qed.
End catalog.

Section catalog_example.
Local Existing Instance null_aead.

#[local] Instance segment_eq_dec : EqDecision SegmentMeta.
Proof. solve_decision. Defined.
#[local] Instance catalog_eq_dec : EqDecision CatalogData.
Proof. solve_decision. Defined.

(** A format of one catalog. *)
#[local] Instance fresh_bincode : Bincode CatalogData.
Proof.
  refine {| bincode_serialize c := if decide (c = fresh_catalog) then Some [1; 2] else None; bincode_deserialize b := if decide (b = [1; 2]) then Some fresh_catalog else None |}.
  - intros c b. case_decide; [|done]. intros [= <-]. rewrite decide_True by done. by subst.
  - intros c b. case_decide; [|done]. intros [= <-]. repeat constructor; done.
Defined.

Definition fresh_file : list Z := match catalog_encode (zero_nonces 0) fresh_catalog with Ok f => f | Err _ => [] end.

Lemma catalog_roundtrip_witness : catalog_open (Some fresh_file) = Ok fresh_catalog /\ exists x, catalog_open (Some (take 20 fresh_file)) = Err x.
Proof.
  destruct (catalog_roundtrip (zero_nonces 0) fresh_catalog fresh_file) as (H1 & H2 & _).
  - repeat constructor; unfold is_byte; lia.
  - reflexivity.
  - vm_compute. reflexivity.
  - split; [exact H1|]. apply (H2 20%nat). apply Nat.ltb_lt. vm_compute. reflexivity.
Defined.
End catalog_example.
