(* ===== verification/Compaction.v ===== *)
(** * Compaction and pinned reads ([src/src/storage/engine.rs])

    A checkpoint drains a heap segment that is mostly dead: the records the
    indexes still name are appended elsewhere and the indexes are pointed at
    the copies.  Reads run beside it without a lock, so the file of a drained
    segment is deleted only when no read can still hold a location in it: a
    read pins the epoch it started in, a drained segment is retired with the
    epoch that unreferenced it.  The segments of the heap are the interface
    [SegmentStore]. *)

From Stdlib Require Import ZArith Lia SpecFloat Ascii String.
From stdpp Require Import base tactics list strings option gmap sorting.
From S2P Require Import Prelude Binary BTree Keys Json Entities Transaction Engine Lru.

(** The heap by segments, as compaction uses it.  The visitor of a scan may stop it with an error. *)
Class SegmentStore (St : Type) `{RecordStore St} := {
  store_candidates : St -> f64 -> list Z;
  store_scan {S : Type} : St -> Z -> (S -> record_location -> HeapRecord -> result error_kind S) -> S -> result error_kind S;
  store_sync : St -> result error_kind St;
  store_drop : St -> Z -> result error_kind St;
}.

(** One half. *)
Definition COMPACTION_RATIO : f64 := S754_finite false 4503599627370496 (-53).
Definition SEGMENTS_PER_COMPACTION : nat := 1.

(** ** The identity of a record *)

Inductive LiveKey := LiveNode (address : string) | LiveEdge (id : EdgeId) | LiveHistory (address : string) (version : Z).

Definition live_key_of (r : HeapRecord) : LiveKey :=
  match r with
  | HNode n => LiveNode (n_address n)
  | HEdge x => LiveEdge (edge_id x)
  | HHistory h => LiveHistory (h_address h) (h_version h)
  end.

Section compaction.
Context {St : Type} `{SegmentStore St}.
Implicit Types e : engine (St := St).

Definition current_location (key : LiveKey) e : result error_kind (option record_location) :=
  let raw :=
    match key with
    | LiveNode address => e_trees e Primary !! as_bytes address
    | LiveEdge id => e_trees e EdgeOut !! edge_out_key (as_bytes (id_from id)) (as_bytes (id_kind id)) (as_bytes (id_to id))
    | LiveHistory address version => e_trees e History !! history_key (as_bytes address) version
    end in
  match raw with
  | Some raw => l ← location_decode raw; Ok (Some l)
  | None => Ok None
  end.

Definition repoint (key : LiveKey) (l : record_location) : M (St := St) unit :=
  match key with
  | LiveNode address => index_put Primary (as_bytes address) (location_encode l)
  | LiveEdge id =>
      _ ← index_put EdgeOut (edge_out_key (as_bytes (id_from id)) (as_bytes (id_kind id)) (as_bytes (id_to id))) (location_encode l);
      index_put EdgeIn (edge_in_key (as_bytes (id_to id)) (as_bytes (id_kind id)) (as_bytes (id_from id))) (location_encode l)
  | LiveHistory address version => index_put History (history_key (as_bytes address) version) (location_encode l)
  end.

(** ** Draining *)

(** The visitor: a record the indexes still name here is live. *)
Definition collect_live e (live : list (record_location * LiveKey)) (l : record_location) (r : HeapRecord) : result error_kind (list (record_location * LiveKey)) :=
  current ← current_location (live_key_of r) e;
  Ok (if decide (current = Some l) then (live ++ [(l, live_key_of r)])%list else live).

Definition move_record (x : record_location * LiveKey) : M (St := St) unit :=
  e ← gets (fun e => e);
  r ← lift (store_read (e_store e) x.1);
  fresh ← heap_append r;
  repoint x.2 fresh.

Definition drain_segment (segment : Z) : M (St := St) unit :=
  e ← gets (fun e => e);
  live ← lift (store_scan (e_store e) segment (collect_live e) []);
  for_each live move_record.

Definition compact : M (St := St) (list Z) :=
  candidates ← gets (fun e => store_candidates (e_store e) COMPACTION_RATIO);
  let segments := take SEGMENTS_PER_COMPACTION candidates in
  _ ← for_each segments drain_segment;
  mret segments.

(** ** Epochs, readers and retired segments *)

(** [rt_durable] is the engine as its index files hold it. *)
Record runtime := MkRuntime {
  rt_engine : engine (St := St);
  rt_durable : engine (St := St);
  rt_epoch : Z;
  rt_readers : gmap Z nat;
  rt_retired : list (Z * Z);
}.

Definition with_engine (rt : runtime) e : runtime := MkRuntime e (rt_durable rt) (rt_epoch rt) (rt_readers rt) (rt_retired rt).
Definition with_readers (rt : runtime) (m : gmap Z nat) : runtime := MkRuntime (rt_engine rt) (rt_durable rt) (rt_epoch rt) m (rt_retired rt).

(** [pin_read] loads the epoch and then registers it, under the lock of the readers. *)
Definition register_read (epoch : Z) (rt : runtime) : runtime :=
  with_readers rt (<[epoch := S (default 0%nat (rt_readers rt !! epoch))]> (rt_readers rt)).

Definition pin_read (rt : runtime) : runtime * Z := (register_read (rt_epoch rt) rt, rt_epoch rt).

Definition release_read (epoch : Z) (rt : runtime) : runtime :=
  match rt_readers rt !! epoch with
  | None => rt
  | Some n => with_readers rt (if (n - 1 =? 0)%nat then delete epoch (rt_readers rt) else <[epoch := (n - 1)%nat]> (rt_readers rt))
  end.

Definition oldest_reader (rt : runtime) : option Z := fst <$> oldest (rt_readers rt).

(** No reader is pinned below the epoch that retired the segment. *)
Definition unreachable (pinned : option Z) (x : Z * Z) : Prop := match pinned with Some p => (x.2 <= p)%Z | None => True end.

#[export] Instance unreachable_dec pinned x : Decision (unreachable pinned x).
Proof. unfold unreachable. destruct pinned; apply _. Defined.

(** The segments to delete, taken off the list of the retired ones. *)
Definition take_ready (rt : runtime) : runtime * list Z :=
  let pinned := oldest_reader rt in
  (MkRuntime (rt_engine rt) (rt_durable rt) (rt_epoch rt) (rt_readers rt) (filter (fun x => ~ unreachable pinned x) (rt_retired rt)),
   map fst (filter (unreachable pinned) (rt_retired rt))).

Definition drop_one (segment : Z) (rt : runtime) : runtime * result error_kind unit :=
  match store_drop (e_store (rt_engine rt)) segment with
  | Ok s => (with_engine rt (set_store (rt_engine rt) s), Ok tt)
  | Err x => (rt, Err x)
  end.

Fixpoint drop_each (segments : list Z) (rt : runtime) : runtime * result error_kind unit :=
  match segments with
  | [] => (rt, Ok tt)
  | g :: segments => match drop_one g rt with (rt, Ok _) => drop_each segments rt | (rt, Err x) => (rt, Err x) end
  end.

Definition drop_unreferenced_segments (rt : runtime) : runtime * result error_kind unit :=
  let '(rt, ready) := take_ready rt in drop_each ready rt.

(** ** The checkpoint *)

Definition begin_checkpoint (rt : runtime) : runtime * result error_kind (list Z) :=
  let '(e, r) := compact (rt_engine rt) in (with_engine rt e, r).

(** The heap to disk and then the indexes; the number in the checkpoint file and the rotation of the log
    follow and change neither. *)
Definition publish_engine (rt : runtime) : runtime * result error_kind unit :=
  match store_sync (e_store (rt_engine rt)) with
  | Err x => (rt, Err x)
  | Ok s => let e := set_store (rt_engine rt) s in (MkRuntime e e (rt_epoch rt) (rt_readers rt) (rt_retired rt), Ok tt)
  end.

Definition retire (drained : list Z) (rt : runtime) : runtime :=
  let epoch := ((rt_epoch rt + 1) mod 2 ^ 64)%Z in
  MkRuntime (rt_engine rt) (rt_durable rt) epoch (rt_readers rt) (rt_retired rt ++ map (fun g => (g, epoch)) drained).

Definition checkpoint_locked (rt : runtime) : runtime * result error_kind unit :=
  match begin_checkpoint rt with
  | (rt, Err x) => (rt, Err x)
  | (rt, Ok drained) =>
      match publish_engine rt with
      | (rt, Err x) => (rt, Err x)
      | (rt, Ok _) => drop_unreferenced_segments (retire drained rt)
      end
  end.
End compaction.

Arguments runtime St : clear implicits.
