(* ===== verification/CompactionTheorems.v ===== *)
(** * Compaction keeps every record, and a pinned read keeps its segment

    The invariant behind compaction (every location an index holds is one the
    scan of its segment visits, and the two directions of an edge share one
    record), its preservation by every operation, draining, and the protocol
    of epochs as a step relation over readers and the writer. *)

From Stdlib Require Import ZArith Lia Ascii String.
From stdpp Require Import base tactics list strings option gmap sorting.
From S2P Require Import Prelude Binary BTree Keys Json OrderKey Search Entities Wal Transaction Engine EngineRep EngineApply EngineOps EngineTheorems Lru Compaction.

(** ** What the heap promises about its segments *)

Fixpoint visit_all {S} (visit : S -> record_location -> HeapRecord -> result error_kind S) (entries : list (record_location * HeapRecord)) (s : S) : result error_kind S :=
  match entries with
  | [] => Ok s
  | (l, r) :: entries => s ← visit s l r; visit_all visit entries s
  end.

(** [store_known st g]: the catalog lists the segment; [store_idle st g]: it is not appended to any more. *)
Class SegmentLaws (St : Type) `{RecordStoreLaws St} `{!SegmentStore St} := {
  store_entries : St -> Z -> list (record_location * HeapRecord);
  store_known : St -> Z -> Prop;
  store_idle : St -> Z -> Prop;
  store_scan_ok {S} st g (visit : S -> record_location -> HeapRecord -> result error_kind S) s k :
    store_room st k -> store_known st g -> store_scan st g visit s = visit_all visit (store_entries st g) s;
  store_entry_ok st g l r k : store_room st k -> (l, r) ∈ store_entries st g ->
    location_ok l /\ loc_segment l = g /\ store_read st l = Ok r /\ store_fits r;
  store_append_entries st r k l st' : store_room st (S k) -> store_fits r -> store_append st r = Ok (l, st') ->
    (l, r) ∈ store_entries st' (loc_segment l) /\ (forall g, store_entries st g ⊆ store_entries st' g) /\
    forall g, (store_known st g -> store_known st' g) /\ (store_idle st g -> store_idle st' g /\ loc_segment l <> g);
  store_mark_entries st l k : store_room st k -> forall g, store_entries (store_mark_obsolete st l) g = store_entries st g /\
    (store_known st g -> store_known (store_mark_obsolete st l) g) /\ (store_idle st g -> store_idle (store_mark_obsolete st l) g);
  store_candidates_ok st ratio g k : store_room st k -> g ∈ store_candidates st ratio -> store_known st g /\ store_idle st g;
  store_sync_ok st k : store_room st k -> exists st', store_sync st = Ok st' /\ store_room st' k /\ keeps st st' /\
    forall g, store_entries st' g = store_entries st g /\ (store_idle st g -> store_idle st' g);
  store_drop_ok st g k : store_room st k -> store_idle st g -> exists st', store_drop st g = Ok st' /\ store_room st' k /\
    (forall l r, location_ok l -> loc_segment l <> g -> store_read st l = Ok r -> store_read st' l = Ok r) /\
    (forall g', g' <> g -> store_entries st' g' = store_entries st g') /\ (forall g', store_idle st g' -> store_idle st' g');
}.

Definition located_trees : list builtin := [Primary; EdgeOut; EdgeIn; History].

Lemma kind_not_located : Kind ∉ located_trees.
Proof. by apply (bool_decide_unpack _). Qed.
Lemma owner_not_located : Owner ∉ located_trees.
Proof. by apply (bool_decide_unpack _). Qed.

Section tracked.
Context {St : Type} `{SegmentLaws St} {N : Type} `{SerdeJson N}.
Implicit Types (e : engine (St := St)) (d : logical) (s : St).

(** ** Every location is one a scan visits *)

Definition listed s (k v : list Z) : Prop :=
  legal_key k /\ exists l r, v = location_encode l /\ location_ok l /\ (l, r) ∈ store_entries s (loc_segment l).

(** The heap moves on: nothing is lost, and an idle segment stays idle. *)
Record advances s s' : Prop := {
  adv_keeps : keeps s s';
  adv_entries g : store_entries s g ⊆ store_entries s' g;
  adv_idle g : store_idle s g -> store_idle s' g;
}.

#[local] Instance advances_refl : Reflexive advances.
Proof. intros s. split; [by intros l r|intros g; reflexivity|done]. Qed.

#[local] Instance advances_trans : Transitive advances.
Proof. intros s1 s2 s3 [K1 E1 I1] [K2 E2 I2]. split; [by eapply keeps_trans|intros g x Hx; by apply E2, E1|auto]. Qed.

Lemma listed_grow s s' k v : advances s s' -> listed s k v -> listed s' k v.
Proof. intros Hg (Hk & l & r & -> & Hl & Hin). split; [done|]. exists l, r. split; [done|]. split; [done|]. by apply Hg. Qed.

Lemma marked_advances s o k : store_room s k -> advances s (marked s o).
Proof.
  intros Hr. split; [by eapply marked_keeps| |]; intros g; (destruct o as [l|]; [|done]); cbn [marked]; destruct (store_mark_entries s l k Hr g) as (E & _ & Hi); rewrite ?E; done.
Qed.

(** A location in a segment that was not idle. *)
Definition elsewhere s (v : list Z) : Prop := exists l, v = location_encode l /\ location_ok l /\ forall g, store_idle s g -> loc_segment l <> g.

Lemma append_advances s r k : store_room s (S k) -> store_fits r -> exists l s', store_append s r = Ok (l, s') /\ location_ok l /\
  store_read s' l = Ok r /\ store_room s' k /\ advances s s' /\ elsewhere s (location_encode l) /\ (l, r) ∈ store_entries s' (loc_segment l).
Proof.
  intros Hr Hf. destruct (store_append_ok s r k Hr Hf) as (l & s' & E & Hl & Hread & Hk & Hr'). destruct (store_append_entries s r k l s' Hr Hf E) as (Hin & Hent & Hseg).
  exists l, s'. split; [done|]. split; [done|]. split; [done|]. split; [done|]. split; [split; [done|done|intros g Hg; by apply Hseg]|]. split; [|done].
  exists l. split; [done|]. split; [done|]. intros g Hg. by apply Hseg.
Qed.

Record tracked e d : Prop := {
  tr_listed : forall i, i ∈ located_trees -> map_Forall (listed (e_store e)) (e_trees e i);
  tr_paired : forall i, is_Some (l_edges d !! i) -> e_trees e EdgeIn !! edge_in_of i = e_trees e EdgeOut !! edge_out_of i;
}.

(** ** Operations *)

(** What an action leaves alone. *)
Definition leaves {A} (trees : list builtin) (m : M (St := St) A) : Prop :=
  forall e, e_store (m e).1 = e_store e /\ forall i, i ∈ trees -> e_trees (m e).1 i = e_trees e i.

Lemma leaves_bind {A B} ts (m : M (St := St) A) (f : A -> M B) : leaves ts m -> (forall a, leaves ts (f a)) -> leaves ts (m ≫= f).
Proof.
  intros Hm Hf e. unfold mbind, m_bind. destruct (Hm e) as [Es Et]. destruct (m e) as [e' [a|x]]; cbn [fst] in *; [|done].
  destruct (Hf a e') as [Es' Et']. split; [congruence|]. intros i Hi. rewrite Et', Et by done. done.
Qed.

Lemma leaves_each {A} ts (l : list A) (f : A -> M (St := St) unit) : (forall x, leaves ts (f x)) -> leaves ts (for_each l f).
Proof. intros Hf. induction l as [|x l IH]; cbn [for_each]; [by intros e|]. by apply leaves_bind. Qed.

Lemma leaves_put {D} ts (r : registry (St := St) D) name k :
  (forall e m, e_store (reg_set r e m) = e_store e /\ e_trees (reg_set r e m) = e_trees e) -> leaves ts (declared_put r name k).
Proof.
  intros Hr e. unfold declared_put. destruct (reg_get r e !! name) as [[d t]|]; [|done]. destruct (tree_put t k []) as [t'|]; [|done]. cbn [fst].
  destruct (Hr e (<[name := (d, t')]> (reg_get r e))) as [-> ->]. done.
Qed.

Lemma leaves_kind ts kind (visit : Node -> M (St := St) unit) : (forall n, leaves ts (visit n)) -> leaves ts (scan_kind kind visit).
Proof.
  intros Hv. unfold scan_kind. apply leaves_bind; [by intros e|]. intros t. generalize (tree_range t (kind_prefix (as_bytes kind))) as keys. generalize (kind_prefix (as_bytes kind)) as prefix. intros prefix keys.
  induction keys as [|[key v] keys IH]; cbn [visit_kind]; [by intros e|]. apply leaves_bind.
  - unfold read_node, node_location, node_at, index_get. apply leaves_bind; [|intros [l|]; [|by intros e]].
    + apply leaves_bind; [by intros e|]. intros [raw|]; [|by intros e]. apply leaves_bind; [by intros e|]. by intros l e.
    + apply leaves_bind; [|by intros n e]. apply leaves_bind; [by intros e|]. intros e. apply leaves_bind; [by intros ?|]. by intros [] ?.
  - intros [n|]; [|done]. by apply leaves_bind.
Qed.

(** The effect of an operation on the located trees: an entry is one that was there or one in a segment
    that is appended to. *)
Record effect e e' : Prop := {
  ef_store : advances (e_store e) (e_store e');
  ef_trees i k v : i ∈ located_trees -> e_trees e' i !! k = Some v -> e_trees e i !! k = Some v \/ (elsewhere (e_store e) v /\ listed (e_store e') k v);
}.

Lemma effect_same e e' : advances (e_store e) (e_store e') -> (forall i, i ∈ located_trees -> e_trees e' i = e_trees e i) -> effect e e'.
Proof. intros Hs Ht. split; [done|]. intros i k v Hi Hk. left. by rewrite <- (Ht i Hi). Qed.

Lemma tracked_effect e e' d d' : effect e e' -> tracked e d ->
  (forall i, is_Some (l_edges d' !! i) -> e_trees e' EdgeIn !! edge_in_of i = e_trees e' EdgeOut !! edge_out_of i) -> tracked e' d'.
Proof.
  intros [Hs Ht] [Hl _] Hp. split; [|done]. intros i Hi k v Hk. destruct (Ht i k v Hi Hk) as [Hold|[_ Hnew]]; [|done]. eapply listed_grow; [done|]. by apply (Hl i Hi).
Qed.

Lemma paired_same e e' d d' : tracked e d -> l_edges d' = l_edges d -> e_trees e' EdgeIn = e_trees e EdgeIn -> e_trees e' EdgeOut = e_trees e EdgeOut ->
  forall i, is_Some (l_edges d' !! i) -> e_trees e' EdgeIn !! edge_in_of i = e_trees e' EdgeOut !! edge_out_of i.
Proof. intros Ht Hd Hi Ho i. rewrite Hd, Hi, Ho. apply Ht. Qed.

(** The entry of a record just appended. *)
Lemma fresh_listed s k l r : legal_key k -> location_ok l -> (l, r) ∈ store_entries s (loc_segment l) -> listed s k (location_encode l).
Proof. intros Hk Hl Hin. split; [done|]. by exists l, r. Qed.

Definition goes_on e d op : Prop :=
  effect e (apply_operation (N := N) op e).1 /\ tracked (apply_operation (N := N) op e).1 (logical_apply d op).

Lemma archive_goes e d h k : consistent (N := N) e d -> tracked e d -> store_room (e_store e) (S k) -> store_fits (HHistory h) -> u64 (h_version h) ->
  short (as_bytes (h_address h)) -> legal_key (history_of (h_address h, h_version h)) -> goes_on e d (OArchive h).
Proof.
  intros Hc Ht Hroom Hfit Hu Hs Hl. unfold goes_on. cbn [apply_operation]. unfold apply_archive.
  destruct (append_advances _ (HHistory h) _ Hroom Hfit) as (l & s & Happ & Hlok & Hread & Hroom' & Hadv & Hels & Hin).
  step ltac:(by apply append_run). set (x := (h_address h, h_version h)) in *. change (history_key (as_bytes (h_address h)) (h_version h)) with (history_of x).
  assert (located history_of HHistory (l_history d) (e_trees e History) s) as Hloc by (eapply located_keeps; [apply Hadv|apply (c_archive _ _ Hc)]).
  destruct (obsolete_run history_of HHistory (l_history d) History x (set_store e s) (archives_inj e d x Hc Hs Hu) Hloc) as [o Ho].
  step ltac:(exact Ho). rewrite index_put_ok; [|done|apply location_value]. cbn [fst]. pose proof (marked_advances s o k Hroom') as Hm.
  assert (effect e (set_tree (set_store (set_store e s) (marked s o)) History (<[history_of x := location_encode l]> (e_trees e History)))) as Heff.
  { split; [cbn; by etrans|]. intros i k' v Hi. destruct i; cbn; try (intros Hk; by left). intros [[<- <-]|[_ Hk]]%lookup_insert_Some; [right|by left].
    split; [done|]. eapply listed_grow; [exact Hm|]. by eapply fresh_listed. }
  split; [exact Heff|]. eapply tracked_effect; [exact Heff|done|]. by eapply paired_same.
Qed.

Lemma inserted_effect e d n l s previous k : tracked e d -> store_room s k -> advances (e_store e) s -> elsewhere (e_store e) (location_encode l) ->
  listed s (as_bytes (n_address n)) (location_encode l) -> forall e', same_state (inserted (N := N) e n l s previous) e' ->
  effect e e' /\ tracked e' (logical_apply d (OInsert n)).
Proof.
  intros Ht Hroom Hadv Hels Hlist e' (Es & Et & _). pose proof (marked_advances s (fst <$> previous) k Hroom) as Hm.
  assert (effect e e') as Heff.
  { split; [rewrite <- Es; by etrans|]. intros i k' v Hi. rewrite <- Et. destruct i; cbn [inserted e_trees]; try (intros Hk; by left).
    - intros [[<- <-]|[_ Hk]]%lookup_insert_Some; [right|by left]. split; [done|]. rewrite <- Es. by eapply listed_grow.
    - by apply kind_not_located in Hi.
    - by apply owner_not_located in Hi. }
  split; [done|]. eapply tracked_effect; [done|done|]. eapply paired_same; [done|done| |]; by rewrite <- Et.
Qed.

Lemma insert_goes e d n k : consistent (N := N) e d -> tracked e d -> node_ok n -> accepted (e_data e) data_entries n -> accepted (e_text e) text_entries n ->
  store_room (e_store e) (S k) -> store_fits (HNode n) -> goes_on e d (OInsert n).
Proof.
  intros Hc Ht Hn Hd Hx Hroom Hfit. destruct (append_advances _ (HNode n) _ Hroom Hfit) as (l & s & Happ & Hlok & Hread & Hroom' & Hadv & Hels & Hin).
  pose proof (read_run e d (n_address n) Hc) as Hr. destruct (node_ok_spec n Hn) as (_ & Ha & _).
  assert (exists previous, match previous with
    | Some (l0, p) => node_location (n_address n) e = (e, Ok (Some l0)) /\ node_at l0 e = (e, Ok p)
    | None => node_location (n_address n) e = (e, Ok None)
    end) as [previous Hprev].
  { destruct (l_nodes d !! n_address n) as [p|]; [|by exists None]. destruct Hr as (l0 & Hloc & Hat). by exists (Some (l0, p)). }
  destruct (insert_run e n l s Hn Hd Hx Happ previous Hprev) as (e' & Hrun & Hsame). unfold goes_on. cbn [apply_operation]. rewrite Hrun.
  eapply inserted_effect; [done|exact Hroom'|exact Hadv|exact Hels| |exact Hsame]. by eapply fresh_listed.
Qed.

Lemma delete_goes e d a k : consistent (N := N) e d -> tracked e d -> store_room (e_store e) k -> goes_on e d (ODelete a).
Proof.
  intros Hc Ht Hroom. unfold goes_on. cbn [apply_operation]. unfold apply_delete. pose proof (read_run e d a Hc) as Hr. destruct (l_nodes d !! a) as [n|] eqn:En.
  - destruct Hr as (l & Hloc & Hat). step ltac:(exact Hloc).
    step ltac:(erewrite M_bind_ok by exact Hat; cbv beta; erewrite M_bind_ok by reflexivity; erewrite M_bind_ok by reflexivity;
      erewrite M_bind_ok by reflexivity; erewrite M_bind_ok by apply retract_data_run; erewrite M_bind_ok by apply retract_text_run; reflexivity).
    match goal with |- effect e ?x.1 /\ _ => set (e' := x.1) end. assert (effect e e') as Heff.
    { split; [apply (marked_advances _ (Some l) k Hroom)|]. intros i k' v Hi. destruct i; cbn; try (intros Hk; by left); [|by apply kind_not_located in Hi|by apply owner_not_located in Hi].
      intros [_ Hk]%lookup_delete_Some. by left. }
    split; [exact Heff|]. eapply tracked_effect; [exact Heff|done|]. by eapply paired_same.
  - step ltac:(exact Hr). step ltac:(reflexivity). cbn [fst modify].
    assert (effect e (count_write e)) as Heff by (apply effect_same; done). split; [exact Heff|]. eapply tracked_effect; [exact Heff|done|]. by eapply paired_same.
Qed.

Lemma insert_edge_goes e d x k : consistent (N := N) e d -> tracked e d -> store_room (e_store e) (S k) -> store_fits (HEdge x) -> edge_ok (edge_id x) ->
  goes_on e d (OInsertEdge x).
Proof.
  intros Hc Ht Hroom Hfit Hok. destruct (edge_ok_spec _ Hok) as (_ & Hout & Hin). unfold goes_on. cbn [apply_operation]. unfold apply_insert_edge.
  change (edge_out_key (as_bytes (e_from x)) (as_bytes (e_ekind x)) (as_bytes (e_to x))) with (edge_out_of (edge_id x)).
  change (edge_in_key (as_bytes (e_to x)) (as_bytes (e_ekind x)) (as_bytes (e_from x))) with (edge_in_of (edge_id x)).
  destruct (obsolete_run edge_out_of HEdge (l_edges d) EdgeOut (edge_id x) e (edges_out_inj e d _ Hc Hok) (c_edge_out _ _ Hc)) as [o Ho].
  step ltac:(exact Ho). set (e1 := set_store e _). pose proof (marked_advances (e_store e) o _ Hroom) as Hm.
  destruct (append_advances (e_store e1) (HEdge x) k (marked_room _ _ _ Hroom) Hfit) as (l & s & Happ & Hl & Hr & Hroom' & Hadv & Hels & Hent).
  step ltac:(by apply append_run). step ltac:(apply index_put_ok; [done|apply location_value]). step ltac:(apply index_put_ok; [done|apply location_value]).
  match goal with |- effect e ?x.1 /\ _ => set (e' := x.1) end.
  assert (elsewhere (e_store e) (location_encode l)) as Hels'.
  { destruct Hels as (l' & E & Hl' & Hg). exists l'. split; [done|]. split; [done|]. intros g Hi. apply Hg. by apply Hm. }
  assert (effect e e') as Heff.
  { split; [cbn; by etrans|]. intros i k' v Hi. destruct i; cbn; try (intros Hk; by left).
    - intros [[<- <-]|[_ Hk]]%lookup_insert_Some; [right|by left]. split; [done|]. by eapply fresh_listed.
    - intros [[<- <-]|[_ Hk]]%lookup_insert_Some; [right|by left]. split; [done|]. by eapply fresh_listed. }
  split; [exact Heff|]. eapply tracked_effect; [exact Heff|done|]. cbn [logical_apply l_edges]. intros i Hi.
  change (e_trees e' EdgeIn) with (<[edge_in_of (edge_id x) := location_encode l]> (e_trees e EdgeIn)). change (e_trees e' EdgeOut) with (<[edge_out_of (edge_id x) := location_encode l]> (e_trees e EdgeOut)).
  destruct (decide (i = edge_id x)) as [->|Hne]; [by rewrite !lookup_insert_eq|]. rewrite lookup_insert_is_Some' in Hi. destruct Hi as [E|Hi]; [congruence|].
  rewrite !lookup_insert_ne; [by apply (tr_paired _ _ Ht)| |]; intros E; apply Hne; [by eapply edges_out_inj|by eapply edges_in_inj].
Qed.

Lemma delete_edge_goes e d i k : consistent (N := N) e d -> tracked e d -> store_room (e_store e) k -> edge_ok i -> goes_on e d (ODeleteEdge i).
Proof.
  intros Hc Ht Hroom Hok. unfold goes_on. cbn [apply_operation]. unfold apply_delete_edge. fold (edge_out_of i) (edge_in_of i).
  destruct (obsolete_run edge_out_of HEdge (l_edges d) EdgeOut i e (edges_out_inj e d _ Hc Hok) (c_edge_out _ _ Hc)) as [o Ho].
  step ltac:(exact Ho). step ltac:(reflexivity). step ltac:(reflexivity). match goal with |- effect e ?x.1 /\ _ => set (e' := x.1) end.
  assert (effect e e') as Heff.
  { split; [cbn; by eapply marked_advances|]. intros j k' v Hj. destruct j; cbn; try (intros Hk; by left); intros [_ Hk]%lookup_delete_Some; by left. }
  split; [exact Heff|]. eapply tracked_effect; [exact Heff|done|]. cbn [logical_apply l_edges]. intros j [y Hj]. apply lookup_delete_Some in Hj as [Hne Hj].
  assert (is_Some (l_edges d !! j)) as Hs by eauto.
  change (e_trees e' EdgeIn) with (delete (edge_in_of i) (e_trees e EdgeIn)). change (e_trees e' EdgeOut) with (delete (edge_out_of i) (e_trees e EdgeOut)). rewrite !lookup_delete_ne; [by apply (tr_paired _ _ Ht)| |]; intros E; apply Hne; symmetry; [by eapply edges_out_inj|by eapply edges_in_inj].
Qed.

(** An operation that touches neither the records nor the located trees. *)
Lemma leaves_goes e d op : tracked e d -> l_edges (logical_apply d op) = l_edges d -> leaves located_trees (apply_operation (N := N) op) -> goes_on e d op.
Proof.
  intros Ht Hd Hl. destruct (Hl e) as [Es Et]. assert (effect e (apply_operation (N := N) op e).1) as Heff by (apply effect_same; [by rewrite Es|done]).
  split; [done|]. eapply tracked_effect; [done|done|]. eapply paired_same; [done|done| |]; apply Et; by apply (bool_decide_unpack _).
Qed.

Lemma operation_goes e d op k : consistent (N := N) e d -> tracked e d -> store_room (e_store e) (S k) -> admissible (N := N) e op -> goes_on e d op.
Proof.
  intros Hc Ht Hroom [Hv Hop]. destruct op as [h|n|a|x|i|u|th|def|name|rd|name|td|name].
  - destruct (validated_archive e h Hv) as [Hs Hl]. destruct Hop. by eapply archive_goes.
  - destruct (validated_insert e n Hv) as (Hn & Hd & Hx). by eapply insert_goes.
  - by eapply delete_goes.
  - by eapply insert_edge_goes.
  - by eapply delete_edge_goes.
  - apply leaves_goes; [done|done|]. by intros ?.
  - apply leaves_goes; [done|done|]. by intros ?.
  - apply leaves_goes; [done|done|]. cbn [apply_operation]. apply leaves_bind; [by intros ?|]. intros _. apply leaves_bind; [by intros ?|]. intros _.
    unfold backfill_index. apply leaves_bind; [by intros ?|]. intros [[d' t]|]; [|by intros ?]. apply leaves_kind. intros n. by apply leaves_put.
  - apply leaves_goes; [done|done|]. by intros ?.
  - apply leaves_goes; [done|done|]. by intros ?.
  - apply leaves_goes; [done|done|]. by intros ?.
  - apply leaves_goes; [done|done|]. cbn [apply_operation]. apply leaves_bind; [by intros ?|]. intros _. apply leaves_bind; [by intros ?|]. intros _.
    unfold backfill_text_index. apply leaves_bind; [by intros ?|]. intros [[d' t]|]; [|by intros ?]. apply leaves_kind. intros n. apply leaves_each. intros k'. by apply leaves_put.
  - apply leaves_goes; [done|done|]. by intros ?.
Qed.

(** ** The places of a record *)

Definition holds d (r : HeapRecord) : Prop :=
  match r with
  | HNode n => l_nodes d !! n_address n = Some n
  | HEdge x => l_edges d !! edge_id x = Some x
  | HHistory h => l_history d !! (h_address h, h_version h) = Some h
  end.

Definition places (r : HeapRecord) : list (builtin * list Z) :=
  match r with
  | HNode n => [(Primary, as_bytes (n_address n))]
  | HEdge x => [(EdgeOut, edge_out_of (edge_id x)); (EdgeIn, edge_in_of (edge_id x))]
  | HHistory h => [(History, history_of (h_address h, h_version h))]
  end.

Lemma encode_inj l l' : location_ok l -> location_ok l' -> location_encode l = location_encode l' -> l = l'.
Proof. intros Hl Hl' E. apply (f_equal location_decode) in E. rewrite !location_decode_encode in E by done. by injection E. Qed.

(** An entry of a located tree is the entry of a record of the collections. *)
Lemma entry_record e d i k l n : consistent (N := N) e d -> tracked e d -> store_room (e_store e) n -> i ∈ located_trees -> location_ok l ->
  e_trees e i !! k = Some (location_encode l) ->
  exists r, (l, r) ∈ store_entries (e_store e) (loc_segment l) /\ holds d r /\ (i, k) ∈ places r /\ store_read (e_store e) l = Ok r.
Proof.
  intros Hc Ht Hroom Hi Hl Hk. destruct (tr_listed _ _ Ht i Hi k _ Hk) as (_ & l' & r & E & Hl' & Hin). apply encode_inj in E as <-; [|done|done].
  destruct (store_entry_ok _ _ _ _ _ Hroom Hin) as (_ & _ & Hr & _). exists r. split; [done|].
  assert (forall {K V} `{Countable K} (key : K -> list Z) (record : V -> HeapRecord) m, located key record m (e_trees e i) (e_store e) ->
    exists x v, k = key x /\ m !! x = Some v /\ r = record v) as Hloc.
  { intros K V ? ? key record m [Hf Hb]. destruct (Hb _ _ Hk) as (x & -> & [v Hv]). destruct (Hf x v Hv) as (l' & Hl1 & Ht1 & Hr1). rewrite Hk in Ht1. apply (inj Some) in Ht1 as E.
    apply encode_inj in E as <-; [|done|done]. exists x, v. split; [done|]. split; [done|]. congruence. }
  destruct i; try (by apply kind_not_located in Hi); try (by apply owner_not_located in Hi).
  - destruct (Hloc _ _ _ _ _ _ _ (c_primary _ _ Hc)) as (a & n' & -> & Ha & ->). destruct (c_nodes _ _ Hc a n' Ha) as [<- _]. cbn [holds places]. split; [done|]. split; [by left|done].
  - destruct (Hloc _ _ _ _ _ _ _ (c_edge_out _ _ Hc)) as (x & y & -> & Hx & ->). destruct (c_edges _ _ Hc x y Hx) as [<- _]. cbn [holds places]. split; [done|]. split; [by left|done].
  - destruct (Hloc _ _ _ _ _ _ _ (c_edge_in _ _ Hc)) as (x & y & -> & Hx & ->). destruct (c_edges _ _ Hc x y Hx) as [<- _]. cbn [holds places]. split; [done|]. split; [by right; left|done].
  - destruct (Hloc _ _ _ _ _ _ _ (c_archive _ _ Hc)) as (x & y & -> & Hx & ->). destruct (c_history _ _ Hc x y Hx) as [<- _]. cbn [holds places]. split; [done|]. split; [by left|done].
Qed.

(** Every place of a record of the collections holds the same location. *)
Lemma record_entry e d r : consistent (N := N) e d -> tracked e d -> holds d r ->
  exists l, location_ok l /\ store_read (e_store e) l = Ok r /\ (forall i k, (i, k) ∈ places r -> legal_key k /\ e_trees e i !! k = Some (location_encode l)) /\
    current_location (live_key_of r) e = Ok (Some l).
Proof.
  intros Hc Ht Hr.
  assert (forall i k v, i ∈ located_trees -> e_trees e i !! k = Some v -> legal_key k) as Hlegal by (intros i k v Hi Hk; by destruct (tr_listed _ _ Ht i Hi k v Hk)).
  destruct r as [n|x|h]; cbn [holds places live_key_of] in *.
  - destruct (proj1 (c_primary _ _ Hc) _ _ Hr) as (l & Hl & Hk & Hread). exists l. split; [done|]. split; [done|]. unfold current_location. rewrite Hk, location_decode_encode by done. split; [|done].
    intros i k [= -> ->]%list_elem_of_singleton. split; [|done]. by eapply (Hlegal Primary), Hk; apply (bool_decide_unpack _).
  - destruct (proj1 (c_edge_out _ _ Hc) _ _ Hr) as (l & Hl & Hk & Hread). exists l. split; [done|]. split; [done|].
    unfold current_location. change (edge_out_key _ _ _) with (edge_out_of (edge_id x)). rewrite Hk, location_decode_encode by done. split; [|done].
    pose proof (tr_paired _ _ Ht (edge_id x) ltac:(by rewrite Hr)) as Hin. rewrite Hk in Hin.
    intros i k [[= -> ->]|[[= -> ->]|[]%not_elem_of_nil]%elem_of_cons]%elem_of_cons; (split; [|done]);
      [by eapply (Hlegal EdgeOut), Hk; apply (bool_decide_unpack _)|by eapply (Hlegal EdgeIn), Hin; apply (bool_decide_unpack _)].
  - destruct (proj1 (c_archive _ _ Hc) _ _ Hr) as (l & Hl & Hk & Hread). exists l. split; [done|]. split; [done|].
    unfold current_location. change (history_key _ _) with (history_of (h_address h, h_version h)). rewrite Hk, location_decode_encode by done. split; [|done].
    intros i k [= -> ->]%list_elem_of_singleton. split; [|done]. by eapply (Hlegal History), Hk; apply (bool_decide_unpack _).
Qed.

(** ** Moving a record *)

Definition put_at (ps : list (builtin * list Z)) (v : list Z) e : engine :=
  foldl (fun e p => set_tree e p.1 (<[p.2 := v]> (e_trees e p.1))) e ps.

Lemma put_at_lookup ps v e i k : e_trees (put_at ps v e) i !! k = if decide ((i, k) ∈ ps) then Some v else e_trees e i !! k.
Proof.
  revert e. induction ps as [|[j x] ps IH]; intros e; [done|]. change (put_at ((j, x) :: ps) v e) with (put_at ps v (set_tree e j (<[x := v]> (e_trees e j)))). rewrite IH.
  destruct (decide ((i, k) ∈ ps)) as [Hin|Hin]; [by rewrite decide_True by (by right)|]. cbn [set_tree e_trees].
  destruct (decide (j = i)) as [<-|Hne].
  - destruct (decide (x = k)) as [->|Hk]; [rewrite lookup_insert_eq, decide_True by left; done|].
    rewrite lookup_insert_ne by done. rewrite decide_False; [done|]. intros [[= E]|?]%elem_of_cons; [by subst|done].
  - rewrite decide_False; [done|]. intros [[= E _]|?]%elem_of_cons; done.
Qed.

Lemma put_at_rest ps v e : e_store (put_at ps v e) = e_store e /\ e_data (put_at ps v e) = e_data e /\ e_text (put_at ps v e) = e_text e /\
  e_data_files (put_at ps v e) = e_data_files e /\ e_text_files (put_at ps v e) = e_text_files e.
Proof. revert e. induction ps as [|p ps IH]; intros e; [done|]. exact (IH (set_tree e p.1 (<[p.2 := v]> (e_trees e p.1)))). Qed.

Lemma repoint_run r l e : Forall (fun p => legal_key p.2) (places r) -> repoint (live_key_of r) l e = (put_at (places r) (location_encode l) e, Ok tt).
Proof.
  destruct r as [n|x|h]; cbn [places live_key_of repoint]; intros Hl.
  - apply Forall_inv in Hl. by apply index_put_ok; [|apply location_value].
  - apply Forall_cons_1 in Hl as [Ho Hl]. apply Forall_inv in Hl. cbn [snd] in *. step ltac:(apply index_put_ok; [exact Ho|apply location_value]).
    by apply index_put_ok; [|apply location_value].
  - apply Forall_inv in Hl. by apply index_put_ok; [|apply location_value].
Qed.

Lemma located_repoint {K V} `{Countable K} (key : K -> list Z) (record : V -> HeapRecord) m t t' s l r :
  (forall x y, is_Some (m !! x) -> is_Some (m !! y) -> key x = key y -> x = y) -> located key record m t s -> location_ok l -> store_read s l = Ok r ->
  (forall k, t' !! k = t !! k \/ (t' !! k = Some (location_encode l) /\ exists x v, k = key x /\ m !! x = Some v /\ r = record v)) -> located key record m t' s.
Proof.
  intros Hinj [Hf Hb] Hl Hr Ht. split.
  - intros x v Hx. destruct (Ht (key x)) as [E|(E & y & w & Ey & Hy & ->)]; [rewrite E; by apply Hf|].
    assert (x = y) as <- by (apply Hinj; [by eexists|by eexists|done]). exists l. split; [done|]. split; [done|]. congruence.
  - intros k raw Hk. destruct (Ht k) as [E|(_ & x & v & -> & Hx & _)]; [rewrite E in Hk; by eapply Hb|]. exists x. by rewrite Hx.
Qed.

(** Pointing every place of a record at another copy of it. *)
Lemma repointed_consistent e d r l : consistent (N := N) e d -> holds d r -> location_ok l -> store_read (e_store e) l = Ok r ->
  consistent (N := N) (put_at (places r) (location_encode l) e) d.
Proof.
  intros Hc Hr Hl Hread. pose proof (put_at_rest (places r) (location_encode l) e) as (Es & Ed & Ex & Edf & Etf). pose proof (put_at_lookup (places r) (location_encode l) e) as Ht.
  assert (forall i, i = Kind \/ i = Owner -> e_trees (put_at (places r) (location_encode l) e) i = e_trees e i) as Hko.
  { intros i Hi. apply map_eq. intros k. rewrite Ht, decide_False; [done|]. destruct r; cbn [places]; rewrite ?elem_of_cons, ?elem_of_nil; intuition congruence. }
  assert (forall {K V} `{Countable K} (key : K -> list Z) (record : V -> HeapRecord) m i,
    (forall x y, is_Some (m !! x) -> is_Some (m !! y) -> key x = key y -> x = y) ->
    (forall k, (i, k) ∈ places r -> exists x v, k = key x /\ m !! x = Some v /\ r = record v) ->
    located key record m (e_trees e i) (e_store e) -> located key record m (e_trees (put_at (places r) (location_encode l) e) i) (e_store e)) as Hloc.
  { intros K V ? ? key record m i Hinj Hp Hm. eapply located_repoint; [done|done|exact Hl|exact Hread|]. intros k. rewrite Ht. case_decide as Hin; [right|by left]. split; [done|]. by apply Hp. }
  pose proof Hc as [C1 C2 C3 C4 C5 C6 C7 C8 C9 C10 C11 C12]. split; rewrite ?Es, ?Ed, ?Ex, ?Edf, ?Etf; try done.
  - apply Hloc; [intros x y _ _; apply as_bytes_inj| |done]. intros k. destruct r as [n|x|h]; cbn [places holds] in *; rewrite ?elem_of_cons, ?elem_of_nil; try (intuition congruence).
    intros [[= ->]|[]]. eauto.
  - rewrite Hko by (by left). done.
  - rewrite Hko by (by right). done.
  - apply Hloc; [intros x y Hx Hy; eapply edges_out_inj; [done| |done]; destruct Hy as [z Hz]; by apply (C2 y z)| |done].
    intros k. destruct r as [n|x|h]; cbn [places holds] in *; rewrite ?elem_of_cons, ?elem_of_nil; try (intuition congruence). intros [[= ->]|[[=]|[]]]. eauto.
  - apply Hloc; [intros x y Hx Hy; eapply edges_in_inj; [done| |done]; destruct Hy as [z Hz]; by apply (C2 y z)| |done].
    intros k. destruct r as [n|x|h]; cbn [places holds] in *; rewrite ?elem_of_cons, ?elem_of_nil; try (intuition congruence). intros [[=]|[[= ->]|[]]]. eauto.
  - apply Hloc; [intros x y Hx Hy; eapply archives_inj; [done| | |done]; destruct Hy as [z Hz]; by apply (C3 y z)| |done].
    intros k. destruct r as [n|x|h]; cbn [places holds] in *; rewrite ?elem_of_cons, ?elem_of_nil; try (intuition congruence). intros [[= ->]|[]]. eauto.
Qed.

Lemma repointed_paired e d r v : consistent (N := N) e d -> tracked e d -> holds d r -> forall i, is_Some (l_edges d !! i) ->
  e_trees (put_at (places r) v e) EdgeIn !! edge_in_of i = e_trees (put_at (places r) v e) EdgeOut !! edge_out_of i.
Proof.
  intros Hc Ht Hr i Hi. rewrite !put_at_lookup. enough ((EdgeIn, edge_in_of i) ∈ places r <-> (EdgeOut, edge_out_of i) ∈ places r) as E.
  { destruct (decide ((EdgeOut, edge_out_of i) ∈ places r)); destruct (decide ((EdgeIn, edge_in_of i) ∈ places r)); try done; try tauto. by apply (tr_paired _ _ Ht). }
  destruct r as [n|x|h]; cbn [places holds] in *; rewrite !elem_of_cons, !elem_of_nil; try (intuition congruence).
  destruct (c_edges _ _ Hc _ _ Hr) as [_ Hok]. split.
  - intros [E|[E|[]]]; [by apply (f_equal fst) in E|]. apply (f_equal snd) in E. left. assert (i = edge_id x) as -> by (by eapply edges_in_inj). done.
  - intros [E|[E|[]]]; [|by apply (f_equal fst) in E]. apply (f_equal snd) in E. right. left. assert (i = edge_id x) as -> by (by eapply edges_out_inj). done.
Qed.

(** No index entry is in the segment. *)
Definition unreferenced e (g : Z) : Prop :=
  forall i k l, i ∈ located_trees -> location_ok l -> e_trees e i !! k = Some (location_encode l) -> loc_segment l <> g.

(** What is left to move. *)
Definition pending e (g : Z) (todo : list (record_location * LiveKey)) : Prop :=
  forall i k l, i ∈ located_trees -> location_ok l -> e_trees e i !! k = Some (location_encode l) -> loc_segment l = g -> l ∈ map fst todo.

Lemma consistent_store e d s : keeps (e_store e) s -> consistent (N := N) e d -> consistent (N := N) (set_store e s) d.
Proof. intros Hk [C1 C2 C3 C4 C5 C6 C7 C8 C9 C10 C11 C12]. split; try done; by eapply located_keeps. Qed.

Lemma tracked_store e d s : advances (e_store e) s -> tracked e d -> tracked (set_store e s) d.
Proof. intros Hs [Hl Hp]. split; [|done]. intros i Hi. eapply map_Forall_impl; [exact (Hl i Hi)|]. intros k v. by apply listed_grow. Qed.

(** A record that a drain moves. *)
Definition movable s d (g : Z) (x : record_location * LiveKey) : Prop :=
  location_ok x.1 /\ loc_segment x.1 = g /\ exists r, store_read s x.1 = Ok r /\ x.2 = live_key_of r /\ holds d r /\ store_fits r.

Lemma movable_keeps s s' d g x : keeps s s' -> movable s d g x -> movable s' d g x.
Proof. intros Hk (Hl & Hg & r & Hr & Hx). split; [done|]. split; [done|]. exists r. split; [by apply Hk|done]. Qed.

Lemma move_ok e d g x todo k : consistent (N := N) e d -> tracked e d -> store_room (e_store e) (S k) -> store_idle (e_store e) g -> movable (e_store e) d g x ->
  pending e g (x :: todo) ->
  exists e', move_record x e = (e', Ok tt) /\ consistent (N := N) e' d /\ tracked e' d /\ store_room (e_store e') k /\ effect e e' /\ pending e' g todo.
Proof.
  intros Hc Ht Hroom Hidle (Hl & Hg & r & Hr & Hx & Hh & Hfit) Hpend. destruct x as [old key]. cbn [fst snd] in *. subst key. unfold move_record. step ltac:(reflexivity).
  step ltac:(unfold lift; cbn [fst]; by rewrite Hr). destruct (append_advances _ r _ Hroom Hfit) as (fresh & s & Happ & Hf & Hread & Hroom' & Hadv & Hels & Hin).
  step ltac:(by apply append_run). set (e1 := set_store e s). assert (consistent (N := N) e1 d) as Hc1 by (apply consistent_store; [apply Hadv|done]).
  assert (tracked e1 d) as Ht1 by (by apply tracked_store). destruct (record_entry e1 d r Hc1 Ht1 Hh) as (cur & _ & _ & Hpl & _).
  cbn [fst snd]. rewrite repoint_run; [|apply Forall_forall; intros [i k'] Hp; by apply (Hpl i k')].
  destruct (put_at_rest (places r) (location_encode fresh) e1) as (Es & _). eexists. split; [reflexivity|]. rewrite Es.
  assert (effect e (put_at (places r) (location_encode fresh) e1)) as Heff.
  { split; [by rewrite Es|]. intros i k' v Hi. rewrite put_at_lookup, Es. case_decide as Hp; [|by left]. intros [= <-]. right. split; [done|]. eapply fresh_listed; [by apply (Hpl i k')|done|exact Hin]. }
  split; [by apply repointed_consistent|]. split; [|split; [done|split; [done|]]].
  - eapply tracked_effect; [exact Heff|exact Ht|]. by apply (repointed_paired e1 d).
  - intros i k' l Hi Hlok. rewrite put_at_lookup. case_decide as Hp.
    + intros Hk Hs. apply (inj Some) in Hk. destruct Hels as (l0 & E0 & Hl0 & Hne). exfalso. apply (Hne g Hidle). apply encode_inj in Hk as <-; [|done|done]. apply encode_inj in E0 as <-; done.
    + intros Hk Hs. specialize (Hpend i k' l Hi Hlok Hk Hs). apply elem_of_cons in Hpend as [->|?]; [|done]. exfalso. apply Hp.
      destruct (entry_record e d i k' old _ Hc Ht Hroom Hi Hl Hk) as (r' & _ & _ & Hp' & Hr'). congruence.
Qed.

#[local] Instance effect_trans : Transitive effect.
Proof.
  intros e1 e2 e3 [S12 T12] [S23 T23]. split; [by etrans|]. intros i k v Hi Hk. destruct (T23 i k v Hi Hk) as [Hk2|[(l & -> & Hl & Hg) Hli]].
  - destruct (T12 i k v Hi Hk2) as [Hk1|[Hels Hli]]; [by left|right]. split; [done|]. by eapply listed_grow.
  - right. split; [|done]. exists l. split; [done|]. split; [done|]. intros g Hi'. apply Hg. by apply S12.
Qed.

Lemma moves_ok todo e d g k : consistent (N := N) e d -> tracked e d -> store_room (e_store e) (length todo + k) -> store_idle (e_store e) g ->
  Forall (movable (e_store e) d g) todo -> pending e g todo ->
  exists e', for_each todo move_record e = (e', Ok tt) /\ consistent (N := N) e' d /\ tracked e' d /\ store_room (e_store e') k /\ effect e e' /\ unreferenced e' g.
Proof.
  revert e. induction todo as [|x todo IH]; intros e Hc Ht Hroom Hidle Hmov Hpend; cbn [for_each].
  { exists e. split; [done|]. split; [done|]. split; [done|]. split; [done|]. split; [by apply effect_same|]. intros i j l Hi Hl Hj E. by destruct (not_elem_of_nil l (Hpend i j l Hi Hl Hj E)). }
  apply Forall_cons_1 in Hmov as [Hx Hmov]. destruct (move_ok e d g x todo (length todo + k) Hc Ht Hroom Hidle Hx Hpend) as (e1 & E1 & Hc1 & Ht1 & Hr1 & Heff & Hp1).
  step ltac:(exact E1). destruct (IH e1 Hc1 Ht1 Hr1) as (e2 & E2 & Hc2 & Ht2 & Hr2 & Heff2 & Hu).
  - by apply Heff.
  - eapply Forall_impl; [exact Hmov|]. intros y. apply movable_keeps, Heff.
  - done.
  - exists e2. split; [done|]. split; [done|]. split; [done|]. split; [done|]. split; [by etrans|done].
Qed.

(** ** Draining a segment *)

(** A lookup by identity succeeds, and what it finds is an entry of a located tree. *)
Lemma current_total e d key : tracked e d -> exists o, current_location key e = Ok o /\
  forall l, o = Some l -> location_ok l /\ exists i k, i ∈ located_trees /\ e_trees e i !! k = Some (location_encode l).
Proof.
  intros Ht. assert (forall i k, i ∈ located_trees -> exists o, match e_trees e i !! k with Some raw => l ← location_decode raw; Ok (Some l) | None => Ok None end = Ok o /\
    forall l, o = Some l -> location_ok l /\ exists i k, i ∈ located_trees /\ e_trees e i !! k = Some (location_encode l)) as Hget.
  { intros i k Hi. destruct (e_trees e i !! k) as [raw|] eqn:Hk; [|by exists None]. destruct (tr_listed _ _ Ht i Hi k raw Hk) as (_ & l & r & -> & Hl & _).
    rewrite location_decode_encode by done. exists (Some l). split; [done|]. intros l' [= <-]. split; [done|]. by exists i, k. }
  destruct key as [a|x|a v]; [apply (Hget Primary)|apply (Hget EdgeOut)|apply (Hget History)]; by apply (bool_decide_unpack _).
Qed.

Lemma collect_ok e d es acc : tracked e d -> exists live, visit_all (collect_live e) es acc = Ok (acc ++ live)%list /\ length live <= length es /\
  forall x, x ∈ live <-> exists r, (x.1, r) ∈ es /\ x.2 = live_key_of r /\ current_location (live_key_of r) e = Ok (Some x.1).
Proof.
  intros Ht. revert acc. induction es as [|[l r] es IH]; intros acc; cbn [visit_all].
  { exists []. rewrite app_nil_r. split; [done|]. split; [done|]. intros x. split; [by intros ?%not_elem_of_nil|]. intros (r & ?%not_elem_of_nil & _). done. }
  destruct (current_total e d (live_key_of r) Ht) as (o & Ho & _).
  assert (collect_live e acc l r = Ok (if decide (o = Some l) then (acc ++ [(l, live_key_of r)])%list else acc)) as -> by (unfold collect_live; by rewrite Ho). cbn [mbind result_bind].
  destruct (decide (o = Some l)) as [->|Hne].
  - destruct (IH (acc ++ [(l, live_key_of r)])%list) as (live & E & Hlen & Hin). exists ((l, live_key_of r) :: live). rewrite E, <- app_assoc. split; [done|]. split; [cbn; lia|].
    intros x. rewrite elem_of_cons, Hin. split.
    + intros [->|(r' & Hr' & Hx)]; [exists r; split; [by left|done]|exists r'; split; [by right|done]].
    + intros (r' & [[= Hx1 ->]|Hr']%elem_of_cons & Hx2 & Hc); [left; destruct x; cbn in *; congruence|right; by exists r'].
  - destruct (IH acc) as (live & E & Hlen & Hin). exists live. split; [done|]. split; [cbn; lia|]. intros x. rewrite Hin. split.
    + intros (r' & Hr' & Hx). exists r'. split; [by right|done].
    + intros (r' & [[= Hx1 ->]|Hr']%elem_of_cons & Hx2 & Hc); [congruence|by exists r'].
Qed.

Lemma room_less s n k : store_room s (n + k) -> store_room s k.
Proof. induction n as [|n IH]; [done|]. intros Hr. by apply IH, store_room_less. Qed.

Lemma room_le s n k : k <= n -> store_room s n -> store_room s k.
Proof. intros Hle Hr. replace n with (n - k + k) in Hr by lia. by eapply room_less. Qed.

Lemma drain_ok e d g k : consistent (N := N) e d -> tracked e d -> store_known (e_store e) g -> store_idle (e_store e) g ->
  store_room (e_store e) (length (store_entries (e_store e) g) + k) ->
  exists e', drain_segment g e = (e', Ok tt) /\ consistent (N := N) e' d /\ tracked e' d /\ store_room (e_store e') k /\ effect e e' /\ unreferenced e' g.
Proof.
  intros Hc Ht Hknown Hidle Hroom. unfold drain_segment. step ltac:(reflexivity). destruct (collect_ok e d (store_entries (e_store e) g) [] Ht) as (live & E & Hlen & Hin).
  step ltac:(unfold lift; rewrite (store_scan_ok _ _ _ _ _ Hroom Hknown); by rewrite E). rewrite app_nil_l. apply moves_ok; try done.
  - eapply room_le; [|exact Hroom]. lia.
  - apply Forall_forall. intros x (r & Hr & Ex & Hcur)%Hin. destruct (store_entry_ok _ _ _ _ _ Hroom Hr) as (Hl & Hg & Hread & Hfit). split; [done|]. split; [done|]. exists r. split; [done|].
    split; [done|]. split; [|done]. destruct (current_total e d (live_key_of r) Ht) as (o & Ho & Hl'). rewrite Hcur in Ho. injection Ho as <-.
    destruct (Hl' _ eq_refl) as (_ & i & k' & Hi & Hk). destruct (entry_record e d i k' x.1 _ Hc Ht Hroom Hi Hl Hk) as (r' & _ & Hh & _ & Hread'). congruence.
  - intros i k' l Hi Hl Hk Hg. destruct (entry_record e d i k' l _ Hc Ht Hroom Hi Hl Hk) as (r & Hr & Hh & Hp & _). destruct (record_entry e d r Hc Ht Hh) as (l' & Hl' & _ & Hpl & Hcur).
    destruct (Hpl i k' Hp) as [_ Hk']. rewrite Hk in Hk'. apply (inj Some) in Hk'. apply encode_inj in Hk' as <-; [|done|done].
    apply list_elem_of_fmap. exists (l, live_key_of r). split; [done|]. apply Hin. exists r. rewrite Hg in Hr. done.
Qed.

(** The records the next compaction scans. *)
Definition compact_cost e : nat := match store_candidates (e_store e) COMPACTION_RATIO with [] => 0 | g :: _ => length (store_entries (e_store e) g) end.

Lemma compact_ok e d k : consistent (N := N) e d -> tracked e d -> store_room (e_store e) (compact_cost e + k) ->
  exists e' drained, compact e = (e', Ok drained) /\ consistent (N := N) e' d /\ tracked e' d /\ store_room (e_store e') k /\ effect e e' /\
    forall g, g ∈ drained -> store_idle (e_store e) g /\ unreferenced e' g.
Proof.
  intros Hc Ht Hroom. unfold compact_cost in Hroom. unfold compact. step ltac:(reflexivity). pose proof (store_candidates_ok (e_store e) COMPACTION_RATIO) as Hcand.
  destruct (store_candidates (e_store e) COMPACTION_RATIO) as [|g gs]; cbn [take SEGMENTS_PER_COMPACTION for_each].
  - exists e, []. split; [done|]. split; [done|]. split; [done|]. split; [done|]. split; [by apply effect_same|]. by intros g ?%not_elem_of_nil.
  - destruct (Hcand g _ Hroom) as [Hknown Hidle]; [by left|]. destruct (drain_ok e d g k Hc Ht Hknown Hidle Hroom) as (e' & E & Hc' & Ht' & Hr' & Heff & Hu).
    step ltac:(erewrite M_bind_ok by exact E; reflexivity). exists e', [g]. split; [done|]. split; [done|]. split; [done|]. split; [done|]. split; [done|]. by intros g' ->%list_elem_of_singleton.
Qed.

(** C13: Compaction loses nothing.  On an engine whose indexes list its collections, with every location in
    an index being one the scan of its segment visits and the two directions of an edge sharing one record,
    a compaction runs to the end: the collections and every index agree as before, so every read answers
    what it answered, and no index entry points into a segment it drained, which is the condition under
    which the segment may be deleted. *)
Theorem compaction_loses_nothing e d k : consistent (N := N) e d -> tracked e d -> store_room (e_store e) (compact_cost e + k) ->
  exists e' drained, compact e = (e', Ok drained) /\ consistent (N := N) e' d /\ tracked e' d /\ forall g, g ∈ drained -> unreferenced e' g.
Proof.
  intros Hc Ht Hroom. destruct (compact_ok e d k Hc Ht Hroom) as (e' & drained & E & Hc' & Ht' & _ & _ & Hu). exists e', drained. split; [done|]. split; [done|]. split; [done|].
  intros g Hg. by apply Hu.
Qed.
End tracked.
