(* ===== verification/HeapSegments.v ===== *)
(** * The segments of the heap

    The heap as an instance of the interface compaction is verified against:
    a scan of a segment visits exactly its records, appends go to the active
    segment only, and dropping a segment leaves every other one as it was. *)

From Stdlib Require Import ZArith Lia Ascii String.
From stdpp Require Import base tactics list strings option gmap sorting.
From S2P Require Import Prelude Crypto Binary Page PageSpec BTree Json Entities Engine Lru Pager Heap HeapRep HeapTheorems HeapStore Compaction CompactionTheorems.

Local Open Scope Z_scope.

Section segments.
Context `{Aead} (nonces : nat -> list Z) (cache_pages : option nat) (open_capacity : nat) `{Bincode HeapRecord}.
Hypothesis nonce_length : forall i, length (nonces i) = NONCE_LEN.
Implicit Types (h : heap) (segs : segments).

Abbreviation append := (append nonces cache_pages open_capacity).
Abbreviation read := (read nonces cache_pages open_capacity).
Abbreviation scan_segment := (scan_segment nonces cache_pages open_capacity).

Local Instance heap_store_here : RecordStore heap := heap_store nonces cache_pages open_capacity.
Local Instance heap_laws_here : @RecordStoreLaws heap heap_store_here := heap_store_laws nonces cache_pages open_capacity nonce_length.

Definition heap_segments : SegmentStore heap := {|
  store_candidates h ratio := compaction_candidates ratio h;
  store_scan _ h g visit s := (scan_segment g visit s h).2;
  store_sync h := match sync nonces h with (h, Ok _) => Ok h | (_, Err x) => Err x end;
  store_drop h g := match drop_segment g h with (h, Ok _) => Ok h | (_, Err x) => Err x end;
|}.

(** ** Scans *)

(** The records of a page and of a segment, in order. *)
Definition page_entries segs (g : Z) (i : nat) (a : apage) (slots : list nat) : list (record_location * HeapRecord) :=
  omap (fun j => c ← a_cells a !! j; match abs_read segs (entry_at g i j c) with Ok r => Some (entry_at g i j c, r) | Err _ => None end) slots.

Fixpoint entries_from segs (g : Z) (i : nat) (l : list apage) : list (record_location * HeapRecord) :=
  match l with
  | [] => []
  | a :: l => (if decide (a_kind a = Heap) then page_entries segs g i a (seq 0 (length (a_cells a))) else []) ++ entries_from segs g (S i) l
  end.

Definition abs_entries segs (g : Z) : list (record_location * HeapRecord) := match segs !! g with Some l => entries_from segs g 0 l | None => [] end.

Lemma entries_from_elem segs g i l x : x ∈ entries_from segs g i l <->
  exists k a j c, l !! k = Some a /\ a_kind a = Heap /\ a_cells a !! j = Some c /\ x.1 = entry_at g (i + k) j c /\ abs_read segs x.1 = Ok x.2.
Proof.
  revert i. induction l as [|a l IH]; intros i; cbn [entries_from].
  { split; [by intros ?%not_elem_of_nil|]. intros (k & a & j & c & Hk & _). by rewrite lookup_nil in Hk. }
  rewrite elem_of_app, IH. split.
  - intros [Hx|(k & b & j & c & Hk & Hr)]; [|exists (S k), b, j, c; split; [done|]; by replace (i + S k)%nat with (S i + k)%nat by lia].
    destruct (decide (a_kind a = Heap)) as [Hkind|]; [|by apply not_elem_of_nil in Hx]. apply list_elem_of_omap in Hx as (j & _ & Hj). destruct (a_cells a !! j) as [c|] eqn:Ec; [|done]. cbn in Hj.
    destruct (abs_read segs (entry_at g i j c)) as [r|] eqn:Er; [|done]. injection Hj as <-. exists 0%nat, a, j, c. rewrite Nat.add_0_r. done.
  - intros ([|k] & b & j & c & Hk & Hkind & Hc & Ex & Hr); [left|right; exists k, b, j, c; split; [done|]; by replace (S i + k)%nat with (i + S k)%nat by lia].
    injection Hk as <-. rewrite decide_True by done. apply list_elem_of_omap. exists j. split; [apply elem_of_seq; apply lookup_lt_Some in Hc; lia|].
    rewrite Nat.add_0_r in Ex. rewrite Hc. cbn. rewrite Ex in Hr. rewrite Hr. destruct x. cbn in *. by rewrite Ex.
Qed.

Lemma abs_entries_elem segs g l r : (l, r) ∈ abs_entries segs g <-> abs_read segs l = Ok r /\ exists i j c, heap_cell segs g i j c /\ l = entry_at g i j c.
Proof.
  unfold abs_entries. destruct (segs !! g) as [pl|] eqn:Eg.
  - rewrite entries_from_elem. cbn. split.
    + intros (k & a & j & c & Hk & Hkind & Hc & -> & Hr). split; [done|]. exists k, j, c. split; [by exists pl, a|done].
    + intros (Hr & i & j & c & (pl' & a & Hpl & Ha & Hkind & Hc) & ->). rewrite Eg in Hpl. injection Hpl as <-. by exists i, a, j, c.
  - split; [by intros ?%not_elem_of_nil|]. intros (_ & i & j & c & (pl & a & Hpl & _) & _). congruence.
Qed.

(** What stays open. *)
Lemma on_pager_open {A} g g' (f : PagerInner -> PagerInner * result error_kind A) h : is_open h g' -> is_open (on_pager g f h).1 g'.
Proof.
  intros Ho. unfold on_pager. destruct (os_pagers (hp_open h) !! g) as [[p t]|]; [|done]. destruct (f p) as [p' r]. unfold is_open. cbn. rewrite lookup_insert_is_Some'. by right.
Qed.

Lemma read_chain_open g total links next frame h : is_open h g -> is_open (read_chain nonces g total links next frame h).1 g.
Proof.
  revert next frame h. induction links as [|links IH]; intros next frame h Ho; cbn [read_chain].
  - destruct (_ <=? _); [destruct (_ =? _)|]; done.
  - destruct (_ <=? _); [destruct (_ =? _); done|]. unfold mbind, h_bind. pose proof (on_pager_open g g (page_read nonces next) h Ho) as Ho'.
    destruct (on_pager g (page_read nonces next) h) as [h' [pg|x]]; [|done]. destruct (decide _); [|done]. destruct (cell pg 0); [by apply IH|done].
Qed.

Lemma read_open l h segs : heap_ok h segs -> is_Some (segs !! loc_segment l) -> is_open (read l h).1 (loc_segment l).
Proof.
  intros Hok [pl Hpl]. pose proof (pager_opens nonces cache_pages open_capacity nonce_length (loc_segment l) h segs Hok) as Hp. rewrite Hpl in Hp. destruct Hp as (h1 & E1 & _ & _ & Ho1).
  assert (is_open (read_frame nonces cache_pages open_capacity l h).1 (loc_segment l)) as Hf.
  { unfold read_frame, mbind, h_bind. rewrite E1. pose proof (on_pager_open (loc_segment l) (loc_segment l) (page_read nonces (loc_page l)) h1 Ho1) as Ho2.
    destruct (on_pager _ _ h1) as [h2 [pg|x]]; [|done]. destruct (cell pg _) as [c|]; [|done]. destruct (negb _); [done|]. destruct (_ <? _); [done|]. by apply read_chain_open. }
  unfold Heap.read, mbind, h_bind. destruct (read_frame _ _ _ l h) as [h2 [b|x]]; [|done]. unfold h_lift. destruct (decode_frame b) as [payload|]; [|done]. by destruct (bincode_deserialize payload).
Qed.

Lemma visit_all_app {S} (visit : S -> record_location -> HeapRecord -> result error_kind S) es es' s :
  visit_all visit (es ++ es') s = (s' ← visit_all visit es s; visit_all visit es' s').
Proof. revert s. induction es as [|[l r] es IH]; intros s; cbn [visit_all app]; [done|]. destruct (visit s l r) as [s'|x]; [|done]. cbn [mbind result_bind]. apply IH. Qed.

Lemma scan_slots_ok {S} (visit : S -> record_location -> HeapRecord -> result error_kind S) g i pg a slots s h segs : heap_ok h segs -> legible segs -> is_open h g ->
  page_ok pg -> page_abs pg = a -> a_kind a = Heap -> abs_page segs g (Z.of_nat i) = Ok a ->
  exists h', scan_slots nonces cache_pages open_capacity visit g (Z.of_nat i) pg slots s h = (h', visit_all visit (page_entries segs g i a slots) s) /\ heap_ok h' segs /\ is_open h' g.
Proof.
  intros Hok Hleg Ho Hpg Habs Hkind Hpage. destruct (page_view pg a Hpg Habs) as (_ & _ & Hcell & _). revert s h Hok Ho.
  induction slots as [|j slots IH]; intros s h Hok Ho; cbn [scan_slots page_entries omap list_omap]; [by exists h|]. rewrite Hcell. destruct (a_cells a !! j) as [c|] eqn:Ec; cbn [mbind option_bind]; [|by apply IH].
  assert (heap_cell segs g i j c) as Hc.
  { unfold abs_page in Hpage. rewrite Nat2Z.id in Hpage. destruct (segs !! g) as [pl|] eqn:Eg; [|done]. destruct (pl !! i) as [a'|] eqn:Ei; [|done]. injection Hpage as ->. by exists pl, a. }
  destruct (Hleg g i j c Hc) as (Hl & r & Hr & _). assert (0 <= Z.of_nat j < 2 ^ 16) as Hj by (destruct Hl as (_ & _ & Hs & _); exact Hs). rewrite Z.mod_small by lia.
  change (RecordLocation g (Z.of_nat i) (Z.of_nat j) (if is_overflow_stub c then stub_total c else Z.of_nat (length c))) with (entry_at g i j c).
  destruct (heap_read_ok nonces cache_pages open_capacity nonce_length (entry_at g i j c) h segs Hok Hl) as (h1 & E1 & Hok1 & _). pose proof (read_open (entry_at g i j c) h segs Hok) as Ho1.
  rewrite E1 in Ho1. rewrite Hr in E1. hstep E1. rewrite Hr. cbn [visit_all]. unfold h_lift. destruct (visit s (entry_at g i j c) r) as [s'|x] eqn:Ev.
  - erewrite hbind_ok by reflexivity. cbn [mbind result_bind]. apply IH; [done|]. apply Ho1. destruct Hc as (pl & _ & Hpl & _). by exists pl.
  - erewrite hbind_err by reflexivity. exists h1. split; [done|]. split; [done|]. apply Ho1. destruct Hc as (pl & _ & Hpl & _). by exists pl.
Qed.

Lemma scan_pages_ok {S} (visit : S -> record_location -> HeapRecord -> result error_kind S) g l i s h segs pl : heap_ok h segs -> legible segs -> is_open h g ->
  segs !! g = Some pl -> drop i pl = l ->
  exists h', scan_pages nonces cache_pages open_capacity visit g (seq i (length l)) s h = (h', visit_all visit (entries_from segs g i l) s) /\ heap_ok h' segs.
Proof.
  revert i s h. induction l as [|a l IH]; intros i s h Hok Hleg Ho Hpl Hdrop; cbn [length seq scan_pages entries_from]; [by exists h|].
  assert (pl !! i = Some a) as Hi by (rewrite <- (Nat.add_0_r i), <- lookup_drop, Hdrop; done). assert (drop (Datatypes.S i) pl = l) as Hdrop' by (by rewrite <- Nat.add_1_r, <- drop_drop, Hdrop).
  assert (abs_page segs g (Z.of_nat i) = Ok a) as Hpage by (unfold abs_page; by rewrite Hpl, Nat2Z.id, Hi).
  destruct (page_reads nonces nonce_length g (Z.of_nat i) h segs Hok Ho) as (h1 & r & E1 & Hok1 & _ & Ho1 & Hr); [lia|]. rewrite Hpage in Hr. destruct Hr as (pg & -> & Hpg & Habs). rewrite E1.
  destruct (page_view pg a Hpg Habs) as (-> & _). destruct (decide (a_kind a = Heap)) as [Hkind|Hkind]; [|by apply (IH (Datatypes.S i))].
  destruct (scan_slots_ok visit g i pg a (seq 0 (slot_count pg)) s h1 segs Hok1 Hleg Ho1 Hpg Habs Hkind Hpage) as (h2 & E2 & Hok2 & Ho2).
  assert (slot_count pg = length (a_cells a)) as Hn by (rewrite <- Habs, <- length_page_cells; done). rewrite Hn in E2 |- *. rewrite visit_all_app.
  destruct (visit_all visit (page_entries segs g i a (seq 0 (length (a_cells a)))) s) as [s'|x]; [|erewrite hbind_err by exact E2; by exists h2].
  hstep E2. cbn [mbind result_bind]. by apply (IH (Datatypes.S i)).
Qed.

Lemma page_count_ok g pl h segs : heap_ok h segs -> is_open h g -> segs !! g = Some pl ->
  exists h', on_pager g (fun p => (p, Ok (pi_page_count p))) h = (h', Ok (Z.of_nat (length pl))) /\ heap_ok h' segs /\ is_open h' g.
Proof.
  intros Hok Ho Hpl. pose proof Ho as [[p t] Hp]. destruct (fr_open _ _ (ok_files _ _ Hok) g p t Hp) as (l & Hl & Hh). rewrite Hpl in Hl. injection Hl as <-. unfold on_pager. rewrite Hp.
  assert (pi_page_count p = Z.of_nat (length pl)) as -> by (destruct Hh as (w & d & Hr); by apply (rep_count _ _ _ _ _ (rep_pages _ _ _ _ _ Hr))). eexists. split; [done|]. split.
  - eapply heap_ok_same; [exact Hok| |done]. eapply files_on_pager; [apply Hok|exact Hh|by rewrite insert_id|done].
  - unfold is_open. cbn. by rewrite lookup_insert_eq.
Qed.

Lemma scan_ok {S} (visit : S -> record_location -> HeapRecord -> result error_kind S) g s h segs : heap_ok h segs -> legible segs -> is_Some (segs !! g) ->
  (scan_segment g visit s h).2 = visit_all visit (abs_entries segs g) s.
Proof.
  intros Hok Hleg [pl Hpl]. unfold Heap.scan_segment, abs_entries. rewrite Hpl. pose proof (pager_opens nonces cache_pages open_capacity nonce_length g h segs Hok) as Hp. rewrite Hpl in Hp.
  destruct Hp as (h1 & E1 & Hok1 & _ & Ho1). hstep E1. destruct (page_count_ok g pl h1 segs Hok1 Ho1 Hpl) as (h2 & E2 & Hok2 & Ho2). hstep E2. rewrite Nat2Z.id.
  destruct (scan_pages_ok visit g pl 0 s h2 segs pl Hok2 Hleg Ho2 Hpl (drop_0 _)) as (h3 & -> & _). done.
Qed.

(** The records a scan visits. *)
Definition heap_entries h (g : Z) : list (record_location * HeapRecord) :=
  match (scan_segment g (fun es l r => Ok (es ++ [(l, r)])) [] h).2 with Ok es => es | Err _ => [] end.

Lemma collect_all (es : list (record_location * HeapRecord)) acc : visit_all (fun es l r => Ok (es ++ [(l, r)])) es acc = Ok (acc ++ es).
Proof. revert acc. induction es as [|[l r] es IH]; intros acc; cbn [visit_all]; [by rewrite app_nil_r|]. cbn [mbind result_bind]. by rewrite IH, <- app_assoc. Qed.

Lemma heap_entries_ok h segs g : heap_ok h segs -> legible segs -> heap_entries h g = abs_entries segs g.
Proof.
  intros Hok Hleg. unfold heap_entries. destruct (segs !! g) as [pl|] eqn:E.
  - rewrite (scan_ok _ g [] h segs Hok Hleg) by (by rewrite E). by rewrite collect_all.
  - unfold Heap.scan_segment, abs_entries. rewrite E. pose proof (pager_opens nonces cache_pages open_capacity nonce_length g h segs Hok) as Hp. rewrite E in Hp. by erewrite hbind_err by exact Hp.
Qed.

(** ** Which segment an append goes to *)

Abbreviation active h := (cd_active_segment (hp_catalog h)).
Abbreviation next h := (cd_next_segment (hp_catalog h)).

Definition stays {A} (m : HM A) : Prop := forall h, active (m h).1 = active h /\ next (m h).1 = next h.

Lemma stays_bind {A B} (m : HM A) (f : A -> HM B) : stays m -> (forall a, stays (f a)) -> stays (m ≫= f).
Proof. intros Hm Hf h. unfold mbind, h_bind. destruct (Hm h) as [E1 E2]. destruct (m h) as [h' [a|x]]; cbn [fst] in *; [|done]. destruct (Hf a h') as [E3 E4]. split; congruence. Qed.

Lemma evict_stays fuel a held : stays (evict_down_to nonces open_capacity fuel a held).
Proof.
  induction fuel as [|fuel IH]; intros h; cbn [evict_down_to]; [done|]. destruct (_ <=? _)%nat; [done|]. destruct (list_find _ _) as [[i [t id]]|]; [|done].
  destruct (os_pagers _ !! id) as [[p tk]|]; [|exact (IH (set_open h _))]. destruct (flush nonces p) as [p' [u|x]]; [exact (IH (Heap.set_files (set_open h _) _))|done].
Qed.

Lemma pager_stays id : stays (heap_pager nonces cache_pages open_capacity id).
Proof.
  intros h. unfold heap_pager. destruct (os_pagers (hp_open h) !! id) as [[p t]|]; [done|]. destruct (find_segment (hp_catalog h) id) as [m|]; [|done]. exact (evict_stays _ _ _ (set_open h _)).
Qed.

Lemma on_pager_stays {A} id (f : PagerInner -> PagerInner * result error_kind A) : stays (on_pager id f).
Proof. intros h. unfold on_pager. destruct (os_pagers (hp_open h) !! id) as [[p t]|]; [|done]. by destruct (f p). Qed.

Lemma append_to_last_stays g n c : stays (append_to_last nonces cache_pages open_capacity g n c).
Proof.
  unfold append_to_last. destruct (0 <? n); [|by intros h]. apply stays_bind; [apply pager_stays|]. intros _. apply stays_bind; [apply on_pager_stays|]. intros pg. destruct (decide _); [|by intros h].
  destruct (push_cell pg c) as [q [slot|]]; [|by intros h]. apply stays_bind; [apply on_pager_stays|]. by intros u h.
Qed.

Lemma extend_stays g n : stays (extend nonces cache_pages open_capacity g n).
Proof. unfold extend. apply stays_bind; [apply pager_stays|]. intros _. apply stays_bind; [by intros h|]. by intros u h. Qed.

Lemma write_chain_stays g cs nx n : stays (write_chain nonces g cs nx n).
Proof.
  revert nx n. induction cs as [|c cs IH]; intros nx n; cbn [write_chain]; [by intros h|]. destruct (push_cell _ c) as [q [slot|]]; [|by intros h].
  apply stays_bind; [apply on_pager_stays|]. intros _. apply stays_bind; [by intros h|]. intros _. apply IH.
Qed.

Lemma hbind_inv {A B} (m : HM A) (f : A -> HM B) h h' b : (m ≫= f) h = (h', Ok b) -> exists h1 a, m h = (h1, Ok a) /\ f a h1 = (h', Ok b).
Proof. unfold mbind, h_bind. destruct (m h) as [h1 [a|x]]; [|done]. intros E. by exists h1, a. Qed.

Lemma stays_at {A} (m : HM A) h h' (a : A) : stays m -> m h = (h', Ok a) -> active h' = active h /\ next h' = next h.
Proof. intros Hs E. specialize (Hs h). by rewrite E in Hs. Qed.

Definition same_active h h' : Prop := active h' = active h /\ next h' = next h.
Definition rolled h h' : Prop := active h' = next h /\ next h' = (next h + 1) mod 2 ^ 32.

Lemma append_to_last_at g n c h h' at_ : append_to_last nonces cache_pages open_capacity g n c h = (h', Ok (Some at_)) -> at_.1.1 = g.
Proof.
  unfold append_to_last. destruct (0 <? n); [|done]. intros (h1 & u & _ & (h2 & pg & _ & E)%hbind_inv)%hbind_inv. destruct (decide _); [|done]. destruct (push_cell pg c) as [q [slot|]]; [|done].
  apply hbind_inv in E as (h3 & u' & _ & E). injection E as _ <-. done.
Qed.

Lemma append_cell_to_goes g n c (allow_roll : bool) h h' at_ : append_cell_to nonces cache_pages open_capacity g n c allow_roll h = (h', Ok at_) ->
  (same_active h h' /\ at_.1.1 = g) \/ (allow_roll = true /\ rolled h h' /\ at_.1.1 = next h).
Proof.
  unfold append_cell_to. intros (h1 & o & E1 & E)%hbind_inv. destruct (stays_at _ _ _ _ (append_to_last_stays g n c) E1) as [Ea1 En1]. destruct o as [at1|].
  { injection E as -> ->. left. split; [done|]. by eapply append_to_last_at. }
  apply hbind_inv in E as (h2 & [g' i'] & E2 & E). destruct (push_cell (page_new Heap) c) as [q [slot|]]; [|done]. apply hbind_inv in E as (h3 & u & E3 & E). injection E as <- <-.
  destruct (stays_at _ _ _ _ (on_pager_stays _ _) E3) as [Ea3 En3]. cbn [fst snd] in *. unfold same_active, rolled. rewrite Ea3, En3.
  assert (forall g n, extend nonces cache_pages open_capacity g n h1 = (h2, Ok (g', i')) -> active h2 = active h /\ next h2 = next h /\ g' = g) as Hext.
  { intros g0 n0 Ex. destruct (stays_at _ _ _ _ (extend_stays g0 n0) Ex) as [Ea2 En2]. split; [congruence|]. split; [congruence|]. unfold extend in Ex. apply hbind_inv in Ex as (h4 & u1 & _ & Ex).
    apply hbind_inv in Ex as (h5 & u2 & _ & Ex). by injection Ex as _ -> _. }
  destruct allow_roll; [|left; destruct (Hext _ _ E2) as (-> & -> & ->); done]. unfold grow in E2. destruct (_ <=? n); [right|left; destruct (Hext _ _ E2) as (-> & -> & ->); done].
  apply hbind_inv in E2 as (h4 & fresh & Er & E2). injection Er as <- <-. apply hbind_inv in E2 as (h5 & u1 & Ep & E2). destruct (stays_at _ _ _ _ (pager_stays _) Ep) as [Ea5 En5].
  apply hbind_inv in E2 as (h6 & u2 & Es & E2). injection Es as <- _. injection E2 as <- <- _. cbn in *. rewrite Ea5, En5, En1. done.
Qed.

Lemma append_goes r l h h' : append r h = (h', Ok l) -> (same_active h h' /\ loc_segment l = active h) \/ (rolled h h' /\ loc_segment l = next h).
Proof.
  unfold Heap.append. destruct (bincode_serialize r) as [plain|]; [|done]. intros (h0 & frame & E0 & E)%hbind_inv. injection E0 as <- _. destruct (_ <? _)%nat.
  - unfold append_overflow in E. apply hbind_inv in E as (h1 & act & E1 & E). injection E1 as <- <-. apply hbind_inv in E as (h2 & [g n] & E2 & E). cbn [fst snd] in *.
    apply hbind_inv in E as (h3 & u & E3 & E). destruct (stays_at _ _ _ _ (pager_stays _) E3) as [Ea3 En3]. apply hbind_inv in E as (h4 & chain & E4 & E). destruct (stays_at _ _ _ _ (write_chain_stays _ _ _ _) E4) as [Ea4 En4].
    apply hbind_inv in E as (h5 & at_ & E5 & E). injection E as <- <-. cbn [loc_segment]. destruct (append_cell_to_goes _ _ _ _ _ _ _ E5) as [[[Ea5 En5] _]|[? _]]; [|done].
    unfold same_active, rolled. rewrite Ea5, En5, Ea4, En4, Ea3, En3. destruct (_ <=? _).
    + apply hbind_inv in E2 as (h6 & fresh & Er & E2). injection Er as <- <-. injection E2 as <- <- _. by right.
    + injection E2 as <- <- _. by left.
  - apply hbind_inv in E as (h1 & at_ & E1 & E). injection E as <- <-. unfold append_cell in E1. apply hbind_inv in E1 as (h2 & act & E2 & E1). injection E2 as <- <-.
    destruct (append_cell_to_goes _ _ _ _ _ _ _ E1) as [[Hs Hat]|(_ & Hr & Hat)]; [by left|by right].
Qed.

(** ** Dropping a segment *)

Lemma abs_page_delete segs g g' i : g' <> g -> abs_page (delete g segs) g' i = abs_page segs g' i.
Proof. intros Hne. unfold abs_page. by rewrite lookup_delete_ne. Qed.

Lemma abs_chain_delete segs g g' total links nx frame : g' <> g -> abs_chain (delete g segs) g' total links nx frame = abs_chain segs g' total links nx frame.
Proof.
  intros Hne. revert nx frame. induction links as [|links IH]; intros nx frame; cbn [abs_chain]; [done|]. destruct (_ <=? _); [done|]. rewrite abs_page_delete by done.
  destruct (abs_page segs g' nx) as [a|]; [|done]. cbn [mbind result_bind]. destruct (decide _); [|done]. destruct (a_cells a !! 0%nat); [apply IH|done].
Qed.

Lemma abs_read_delete segs g l : loc_segment l <> g -> abs_read (delete g segs) l = abs_read segs l.
Proof.
  intros Hne. unfold abs_read, abs_frame. rewrite abs_page_delete by done. destruct (abs_page segs (loc_segment l) (loc_page l)) as [a|]; [|done]. cbn [mbind result_bind].
  destruct (a_cells a !! _) as [c|]; [|done]. destruct (negb _); [done|]. destruct (_ <? _); [done|]. by rewrite abs_chain_delete.
Qed.

Lemma legible_delete segs g : legible segs -> legible (delete g segs).
Proof.
  intros Hleg g' i j c (l & a & [Hne Hl]%lookup_delete_Some & Hr). destruct (Hleg g' i j c) as (Hlok & r & Hread & Hfit); [by exists l, a|]. split; [done|]. exists r. split; [|done].
  rewrite abs_read_delete; [done|]. cbn. congruence.
Qed.

Lemma drop_segment_ok g h segs : heap_ok h segs -> active h <> g ->
  exists h', drop_segment g h = (h', Ok tt) /\ heap_ok h' (delete g segs) /\ active h' = active h /\ next h' = next h.
Proof.
  intros [[Ho Hcl] [Hseg Hids Hact] Hs] Hne. eexists. split; [reflexivity|]. split; [|done]. split.
  - unfold drop_segment. split; cbn.
    + intros id p t Hp. assert (id <> g /\ os_pagers (hp_open h) !! id = Some (p, t)) as [Hid Hp'].
      { unfold os_forget in Hp. destruct (os_pagers (hp_open h) !! g) as [[p0 t0]|] eqn:E; [cbn in Hp; by apply lookup_delete_Some in Hp as [? ?]|]. split; [congruence|done]. }
      destruct (Ho id p t Hp') as (l & Hl & Hh). exists l. by rewrite lookup_delete_ne.
    + intros id l i a [Hid Hl]%lookup_delete_Some Hc Ha. rewrite lookup_delete_ne by done. eapply Hcl; [exact Hl| |exact Ha].
      unfold os_forget in Hc. destruct (os_pagers (hp_open h) !! g) as [[p0 t0]|] eqn:E; [|done]. cbn in Hc. by rewrite lookup_delete_ne in Hc.
  - rewrite fmap_delete. split; cbn.
    + intros id. unfold find_segment. cbn. rewrite find_filter. destruct (decide (id = g)) as [->|Hid]; [by rewrite lookup_delete_eq|]. rewrite lookup_delete_ne by done. apply Hseg.
    + intros id n [_ Hn]%lookup_delete_Some. by eapply Hids.
    + rewrite lookup_delete_ne by done. exact Hact.
  - intros g' l [_ Hl]%lookup_delete_Some. by eapply Hs.
Qed.

(** ** The instance *)

Lemma known_segs h segs g : heap_ok h segs -> is_Some (find_segment (hp_catalog h) g) <-> is_Some (segs !! g).
Proof.
  intros Hok. pose proof (cat_segment _ _ (ok_catalog _ _ Hok) g) as Hc. rewrite lookup_fmap in Hc. destruct (find_segment (hp_catalog h) g) as [m|], (segs !! g) as [l|]; cbn in Hc; [by split; intros _; eexists|by destruct Hc|done|by split; intros []].
Qed.

Definition heap_idle h (g : Z) : Prop := 0 <= g < next h /\ active h <> g.

Lemma find_first_elem m l : m ∈ l -> is_Some (find_first (sg_id m) l).
Proof. induction l as [|x l IH]; [by intros ?%not_elem_of_nil|]. cbn. destruct (Z.eqb_spec (sg_id x) (sg_id m)); [by eexists|]. intros [->|Hm]%elem_of_cons; [done|by apply IH]. Qed.

Lemma entries_grow segs segs' g : segs_grow segs segs' -> abs_entries segs g ⊆ abs_entries segs' g.
Proof.
  intros Hg [l r]. rewrite !abs_entries_elem. intros (Hr & i & j & c & (pl & a & Hpl & Ha & Hk & Hc) & ->). split; [by eapply abs_read_grows|]. exists i, j, c. split; [|done].
  destruct (Hg g pl Hpl) as (pl' & Hpl' & Hp). destruct (Hp i a Ha) as (a' & Ha' & Hga). exists pl', a'. split; [done|]. split; [done|]. split; [by rewrite (proj1 Hga)|]. by eapply grows_cell.
Qed.

Definition heap_segment_laws : @SegmentLaws heap heap_store_here heap_laws_here heap_segments.
Proof.
  refine {| store_entries := heap_entries; store_known h g := is_Some (find_segment (hp_catalog h) g); store_idle := heap_idle |}.
  - intros S h g visit s k (segs & Hok & Hleg & _) Hk. apply (known_segs h segs) in Hk; [|done]. rewrite (heap_entries_ok h segs) by done. by apply scan_ok.
  - intros h g l r k (segs & Hok & Hleg & _). rewrite (heap_entries_ok h segs) by done. intros (Hr & i & j & c & Hc & ->)%abs_entries_elem. destruct (Hleg g i j c Hc) as (Hl & r' & Hr' & Hfit).
    split; [done|]. split; [done|]. rewrite Hr in Hr'. injection Hr' as <-. split; [|done]. unfold store_read, heap_store_here, heap_store. by rewrite (read_answer nonces cache_pages open_capacity nonce_length _ _ segs).
  - intros h r k l h' (segs & Hok & Hleg & Hb) Hfit E. destruct (append_ok nonces cache_pages open_capacity nonce_length r h segs Hok) as (l' & h1 & segs' & E1 & Hok' & Hl & Hr & Hg & Hn & Hat); [lia|done|].
    unfold store_append, heap_store_here, heap_store in E. rewrite E1 in E. injection E as <- <-. pose proof (legible_append segs segs' l' r Hleg Hg Hat Hl Hr Hfit) as Hleg'.
    split; [rewrite (heap_entries_ok h1 segs') by done; apply abs_entries_elem; split; [done|]; destruct Hat as (i & j & c & Hc & El & _); by exists i, j, c|].
    split; [intros g; rewrite (heap_entries_ok h segs), (heap_entries_ok h1 segs') by done; by apply entries_grow|]. intros g. split.
    + rewrite (known_segs h segs), (known_segs h1 segs') by done. intros [pl Hpl]. destruct (Hg g pl Hpl) as (pl' & -> & _). by eexists.
    + intros [Hid Hact]. unfold heap_idle. destruct (append_goes r l' h h1 E1) as [[[-> ->] ->]|[[-> ->] ->]]; [done|]. rewrite Z.mod_small by lia. split; [split; lia|lia].
  - intros h l k (segs & Hok & Hleg & _) g. pose proof (mark_ok l h segs Hok) as Hm. unfold store_mark_obsolete, heap_store_here, heap_store. rewrite (heap_entries_ok h segs), (heap_entries_ok _ segs) by done.
    split; [done|]. split; [by rewrite (known_segs h segs), (known_segs _ segs) by done|done].
  - intros h ratio g k (segs & Hok & _) Hin. unfold store_candidates, heap_segments, compaction_candidates in Hin. apply list_elem_of_fmap in Hin as (m & -> & [Hw Hm]%list_elem_of_filter).
    assert (is_Some (find_segment (hp_catalog h) (sg_id m))) as Hk by (by apply find_first_elem). split; [done|]. split.
    + apply (known_segs h segs) in Hk as [pl Hpl]; [|done]. apply (cat_ids _ _ (ok_catalog _ _ Hok) _ (length pl)). by rewrite lookup_fmap, Hpl.
    + unfold worth_draining in Hw. destruct (Z.eqb_spec (sg_id m) (active h)); [done|congruence].
  - intros h k (segs & Hok & Hleg & Hb). destruct (sync_ok nonces nonce_length h segs Hok) as (h' & E & Hok' & Hc & _). unfold store_sync, heap_segments. rewrite E. exists h'. split; [done|].
    split; [exists segs; by rewrite Hc|]. split.
    + intros l r Hl. unfold store_read, heap_store_here, heap_store. by rewrite !(read_answer nonces cache_pages open_capacity nonce_length _ _ segs).
    + intros g. rewrite (heap_entries_ok h segs), (heap_entries_ok h' segs) by done. split; [done|]. unfold heap_idle. by rewrite Hc.
  - intros h g k (segs & Hok & Hleg & Hb) [Hid Hact]. destruct (drop_segment_ok g h segs Hok Hact) as (h' & E & Hok' & Ea & En). unfold store_drop, heap_segments. rewrite E. exists h'.
    pose proof (legible_delete segs g Hleg) as Hleg'. split; [done|]. split; [exists (delete g segs); by rewrite En|]. split; [|split].
    + intros l r Hl Hne. unfold store_read, heap_store_here, heap_store. rewrite (read_answer nonces cache_pages open_capacity nonce_length l h segs), (read_answer nonces cache_pages open_capacity nonce_length l h' (delete g segs)) by done.
      by rewrite abs_read_delete.
    + intros g' Hne. rewrite (heap_entries_ok h segs), (heap_entries_ok h' (delete g segs)) by done. unfold abs_entries. rewrite lookup_delete_ne by done. destruct (segs !! g') as [pl|]; [|done].
      generalize 0%nat. induction pl as [|a pl IH]; intros i; cbn [entries_from]; [done|]. rewrite IH. f_equal. destruct (decide _); [|done]. apply list_omap_ext, Forall2_same_length_lookup_2; [done|].
      intros n j j' Hj Hj'. rewrite Hj in Hj'. injection Hj' as <-. destruct (a_cells a !! j) as [c|]; [|done]. cbn. by rewrite abs_read_delete.
    + intros g' [Hid' Hact']. unfold heap_idle. by rewrite Ea, En.
Defined.
End segments.
