(* ===== verification/Epochs.v ===== *)
(** * A pinned read keeps its segment

    Readers and the writer as interleaved steps over the runtime of
    [Compaction.v]: a reader loads the epoch, registers it, finds locations in
    the indexes and releases; the writer applies operations and takes
    checkpoints phase by phase.  Whatever the interleaving, a location a
    registered reader has found reads as it did when it was found. *)

From Stdlib Require Import ZArith Lia Ascii String.
From stdpp Require Import base tactics list strings option gmap sorting relations.
From S2P Require Import Prelude Binary BTree Keys Json OrderKey Search Entities Wal Transaction Engine EngineRep EngineApply EngineOps EngineTheorems Lru Compaction CompactionTheorems.

(** ** Readers *)

(** A reader: the epoch it loaded, whether it is registered, and the locations it found with the records
    that were there. *)
Record reader := MkReader { rd_epoch : Z; rd_registered : bool; rd_found : list (record_location * HeapRecord) }.

Definition pins (p : Z) (x : nat * reader) : Prop := rd_registered x.2 = true /\ rd_epoch x.2 = p.

#[export] Instance pins_dec p x : Decision (pins p x).
Proof. unfold pins. apply _. Defined.

(** How many registered readers hold an epoch. *)
Definition pin_count (p : Z) (m : gmap nat reader) : nat := size (filter (pins p) m).

Definition pin_weight (p : Z) (o : option reader) : nat := match o with Some r => if decide (pins p (0, r)) then 1 else 0 | None => 0 end.

Lemma pin_count_split p i m : pin_count p m = pin_weight p (m !! i) + pin_count p (delete i m).
Proof.
  unfold pin_count. rewrite map_filter_delete, map_size_delete. destruct (filter (pins p) m !! i) as [r|] eqn:E.
  - pose proof E as [Hm Hp]%map_lookup_filter_Some. rewrite Hm. cbn [pin_weight]. rewrite decide_True by exact Hp.
    assert (size (filter (pins p) m) <> 0) as Hs; [|lia]. intros Hz%map_size_empty_inv. by rewrite Hz, lookup_empty in E.
  - destruct (m !! i) as [r|] eqn:Em; [|done]. cbn [pin_weight]. apply map_lookup_filter_None in E as [E|E]; [congruence|]. rewrite decide_False; [done|]. by apply (E r).
Qed.

Lemma pin_count_insert p i r m : pin_count p (<[i := r]> m) + pin_weight p (m !! i) = pin_count p m + pin_weight p (Some r).
Proof. rewrite (pin_count_split p i m), (pin_count_split p i (<[i := r]> m)), lookup_insert_eq, delete_insert_eq. lia. Qed.

Definition pinned_at (p : Z) (m : gmap nat reader) : option nat := match pin_count p m with O => None | n => Some n end.

(** ** Steps *)

(** Where the writer is: between mutations, or inside a checkpoint. *)
Inductive phase :=
| Between
| Compacted (drained : list Z)
| Published (drained : list Z)
| Retired
| Dropping (ready : list Z).

(** The segments the phase is about. *)
Definition phase_segments (p : phase) : list Z :=
  match p with Compacted gs | Published gs | Dropping gs => gs | _ => [] end.
Definition phase_ready (p : phase) : list Z := match p with Dropping gs => gs | _ => [] end.

Lemma ready_sub p g : g ∈ phase_ready p -> g ∈ phase_segments p.
Proof. destruct p; cbn; try done; by intros ?%not_elem_of_nil. Qed.

Section epochs.
Context {St : Type} `{SegmentLaws St} {N : Type} `{SerdeJson N}.

Record system := MkSystem { sy_runtime : runtime St; sy_phase : phase; sy_readers : gmap nat reader }.

Implicit Types (rt : runtime St) (rs : gmap nat reader).

Inductive sys_step : system -> system -> Prop :=
| step_load rt p rs i : rs !! i = None ->
    sys_step (MkSystem rt p rs) (MkSystem rt p (<[i := MkReader (rt_epoch rt) false []]> rs))
| step_register rt p rs i r : rs !! i = Some r -> rd_registered r = false ->
    sys_step (MkSystem rt p rs) (MkSystem (register_read (rd_epoch r) rt) p (<[i := MkReader (rd_epoch r) true []]> rs))
| step_find rt p rs i r j k l x : rs !! i = Some r -> rd_registered r = true -> j ∈ located_trees -> location_ok l ->
    e_trees (rt_engine rt) j !! k = Some (location_encode l) -> store_read (e_store (rt_engine rt)) l = Ok x ->
    sys_step (MkSystem rt p rs) (MkSystem rt p (<[i := MkReader (rd_epoch r) true ((l, x) :: rd_found r)]> rs))
| step_release rt p rs i r : rs !! i = Some r -> rd_registered r = true ->
    sys_step (MkSystem rt p rs) (MkSystem (release_read (rd_epoch r) rt) p (delete i rs))
| step_apply rt rs op k : store_room (e_store (rt_engine rt)) (S k) -> admissible (N := N) (rt_engine rt) op ->
    sys_step (MkSystem rt Between rs) (MkSystem (with_engine rt (apply_operation (N := N) op (rt_engine rt)).1) Between rs)
| step_compact rt rs rt' drained : store_room (e_store (rt_engine rt)) (compact_cost (rt_engine rt)) -> begin_checkpoint rt = (rt', Ok drained) ->
    sys_step (MkSystem rt Between rs) (MkSystem rt' (Compacted drained) rs)
| step_publish rt rs rt' drained : publish_engine rt = (rt', Ok tt) ->
    sys_step (MkSystem rt (Compacted drained) rs) (MkSystem rt' (Published drained) rs)
| step_retire rt rs drained : (rt_epoch rt + 1 < 2 ^ 64)%Z ->
    sys_step (MkSystem rt (Published drained) rs) (MkSystem (retire drained rt) Retired rs)
| step_take rt rs rt' ready : take_ready rt = (rt', ready) -> sys_step (MkSystem rt Retired rs) (MkSystem rt' (Dropping ready) rs)
| step_drop rt rs rt' g ready : drop_one g rt = (rt', Ok tt) ->
    sys_step (MkSystem rt (Dropping (g :: ready)) rs) (MkSystem rt' (Dropping ready) rs)
| step_end rt rs : sys_step (MkSystem rt (Dropping []) rs) (MkSystem rt Between rs)
| step_abandon rt rs drained : sys_step (MkSystem rt (Compacted drained) rs) (MkSystem rt Between rs).

(** ** The invariant *)

Record sys_ok (s : system) (d : logical) : Prop := {
  so_consistent : consistent (N := N) (rt_engine (sy_runtime s)) d;
  so_tracked : tracked (rt_engine (sy_runtime s)) d;
  so_room : store_room (e_store (rt_engine (sy_runtime s))) 0;
  so_epoch : (0 <= rt_epoch (sy_runtime s))%Z;
  so_gone g : g ∈ phase_segments (sy_phase s) \/ g ∈ map fst (rt_retired (sy_runtime s)) ->
    store_idle (e_store (rt_engine (sy_runtime s))) g /\ unreferenced (rt_engine (sy_runtime s)) g;
  so_count p : rt_readers (sy_runtime s) !! p = pinned_at p (sy_readers s);
  so_epochs i r : sy_readers s !! i = Some r -> (rd_epoch r <= rt_epoch (sy_runtime s))%Z;
  so_found i r l x : sy_readers s !! i = Some r -> rd_registered r = true -> (l, x) ∈ rd_found r ->
    location_ok l /\ store_read (e_store (rt_engine (sy_runtime s))) l = Ok x /\ (loc_segment l ∉ phase_ready (sy_phase s)) /\
    forall ep, (loc_segment l, ep) ∈ rt_retired (sy_runtime s) -> (rd_epoch r < ep)%Z;
}.

Lemma effect_unreferenced e e' g : effect e e' -> store_idle (e_store e) g -> unreferenced e g -> unreferenced e' g.
Proof.
  intros Heff Hidle Hu i k l Hi Hl Hk. destruct (ef_trees _ _ Heff i k _ Hi Hk) as [Hold|[(l' & E & Hl' & Hg) _]]; [by eapply Hu|]. apply encode_inj in E as <-; [|done|done]. by apply Hg.
Qed.

(** The writer moves the engine on. *)
Lemma engine_moves rt p rs d e' d' : sys_ok (MkSystem rt p rs) d -> effect (rt_engine rt) e' -> consistent (N := N) e' d' -> tracked e' d' -> store_room (e_store e') 0 ->
  sys_ok (MkSystem (with_engine rt e') p rs) d'.
Proof.
  intros Hok Heff Hc Ht Hr. destruct Hok as [_ _ _ Hep Hg Hn Hes Hf]. cbn in *. split; cbn; try done.
  - intros g Hg'. destruct (Hg g Hg') as [Hi Hu]. split; [by apply Heff|by eapply effect_unreferenced].
  - intros i r l x Hi Hreg Hx. destruct (Hf i r l x Hi Hreg Hx) as (Hl & Hrd & Hrest). split; [done|]. split; [by apply Heff|done].
Qed.

(** A change of the readers alone. *)
Lemma readers_move rt p rs d m rs' : sys_ok (MkSystem rt p rs) d -> (forall q, m !! q = pinned_at q rs') ->
  (forall i r, rs' !! i = Some r -> (rd_epoch r <= rt_epoch rt)%Z /\ forall l x, rd_registered r = true -> (l, x) ∈ rd_found r ->
     location_ok l /\ store_read (e_store (rt_engine rt)) l = Ok x /\ (loc_segment l ∉ phase_ready p) /\ forall ep, (loc_segment l, ep) ∈ rt_retired rt -> (rd_epoch r < ep)%Z) ->
  sys_ok (MkSystem (with_readers rt m) p rs') d.
Proof. intros [Hc Ht Hr Hep Hg Hn Hes Hf] Hm Hrs. split; cbn in *; try done; [intros i r Hi; by apply (Hrs i r)|]. intros i r l x Hi Hreg Hx. by apply (Hrs i r Hi). Qed.

Lemma with_readers_id rt : with_readers rt (rt_readers rt) = rt.
Proof. by destruct rt. Qed.

Lemma pinned_same rs rs' : (forall q, pin_count q rs = pin_count q rs') -> forall q, pinned_at q rs = pinned_at q rs'.
Proof. intros E q. unfold pinned_at. by rewrite E. Qed.

Lemma reader_load_ok rt p rs d i : sys_ok (MkSystem rt p rs) d -> rs !! i = None -> sys_ok (MkSystem rt p (<[i := MkReader (rt_epoch rt) false []]> rs)) d.
Proof.
  intros Hok Hi. rewrite <- (with_readers_id rt) at 1. eapply readers_move; [exact Hok| |].
  - intros q. transitivity (pinned_at q rs); [exact (so_count _ _ Hok q)|]. apply pinned_same. clear q. intros q. pose proof (pin_count_insert q i (MkReader (rt_epoch rt) false []) rs) as Hp. rewrite Hi in Hp.
    cbn [pin_weight] in Hp. rewrite decide_False in Hp by (by intros [? _]). lia.
  - intros j r [[<- <-]|[_ Hj]]%lookup_insert_Some; [by split|]. split; [by apply (so_epochs _ _ Hok j)|]. intros l x. by apply (so_found _ _ Hok j).
Qed.

Lemma register_ok rt p rs d i r : sys_ok (MkSystem rt p rs) d -> rs !! i = Some r -> rd_registered r = false ->
  sys_ok (MkSystem (register_read (rd_epoch r) rt) p (<[i := MkReader (rd_epoch r) true []]> rs)) d.
Proof.
  intros Hok Hi Hreg. eapply readers_move; [exact Hok| |].
  - intros q. pose proof (so_count _ _ Hok) as Hc. cbn [sy_readers sy_runtime] in Hc. pose proof (pin_count_insert q i (MkReader (rd_epoch r) true []) rs) as Hp. rewrite Hi in Hp. cbn [pin_weight] in Hp.
    rewrite decide_False in Hp by (intros [E _]; cbn in E; congruence). rewrite Nat.add_0_r in Hp. unfold pinned_at. rewrite Hp. destruct (decide (q = rd_epoch r)) as [->|Hne].
    + rewrite decide_True by done. rewrite lookup_insert_eq, Hc, Nat.add_1_r. unfold pinned_at. by destruct (pin_count (rd_epoch r) rs).
    + rewrite decide_False by (intros [_ E]; cbn in E; congruence). rewrite lookup_insert_ne, Nat.add_0_r by done. apply Hc.
  - intros j r' [[<- <-]|[_ Hj]]%lookup_insert_Some; [split; [by apply (so_epochs _ _ Hok i r)|by intros l x _ ?%not_elem_of_nil]|].
    split; [by apply (so_epochs _ _ Hok j)|]. intros l x. by apply (so_found _ _ Hok j).
Qed.

Lemma find_ok rt p rs d i r j k l x : sys_ok (MkSystem rt p rs) d -> rs !! i = Some r -> rd_registered r = true -> j ∈ located_trees -> location_ok l ->
  e_trees (rt_engine rt) j !! k = Some (location_encode l) -> store_read (e_store (rt_engine rt)) l = Ok x ->
  sys_ok (MkSystem rt p (<[i := MkReader (rd_epoch r) true ((l, x) :: rd_found r)]> rs)) d.
Proof.
  intros Hok Hi Hreg Hj Hl Hk Hr. rewrite <- (with_readers_id rt) at 1. eapply readers_move; [exact Hok| |].
  - intros q. transitivity (pinned_at q rs); [exact (so_count _ _ Hok q)|]. apply pinned_same. clear q. intros q. pose proof (pin_count_insert q i (MkReader (rd_epoch r) true ((l, x) :: rd_found r)) rs) as Hp. rewrite Hi in Hp.
    cbn [pin_weight] in Hp. destruct (decide (pins q (0, r))) as [[_ E]|Hn], (decide (pins q (0, MkReader (rd_epoch r) true ((l, x) :: rd_found r)))) as [[_ E']|Hn']; try lia.
    + by destruct Hn'.
    + by destruct Hn.
  - intros j' r' [[<- <-]|[_ Hj']]%lookup_insert_Some; cbn [rd_epoch rd_found].
    + split; [by apply (so_epochs _ _ Hok i r)|]. intros l' x' _ [[= -> ->]|Hx]%elem_of_cons; [|by apply (so_found _ _ Hok i r)]. split; [done|]. split; [done|].
      assert (forall g, g ∈ phase_segments p \/ g ∈ map fst (rt_retired rt) -> loc_segment l <> g) as Hu by (intros g Hg; by apply (proj2 (so_gone _ _ Hok g Hg) j k l)).
      split; [intros Hin; apply (Hu (loc_segment l)); [left; by apply ready_sub|done]|]. intros ep Hin. exfalso. apply (Hu (loc_segment l)); [right|done]. apply list_elem_of_fmap. by exists (loc_segment l, ep).
    + split; [by apply (so_epochs _ _ Hok j')|]. intros l' x'. by apply (so_found _ _ Hok j').
Qed.

Lemma release_ok rt p rs d i r : sys_ok (MkSystem rt p rs) d -> rs !! i = Some r -> rd_registered r = true ->
  sys_ok (MkSystem (release_read (rd_epoch r) rt) p (delete i rs)) d.
Proof.
  intros Hok Hi Hreg. pose proof (so_count _ _ Hok) as Hc. cbn [sy_readers sy_runtime] in Hc.
  assert (forall q, pin_count q rs = (if decide (q = rd_epoch r) then 1 else 0) + pin_count q (delete i rs)) as Hp.
  { intros q. rewrite (pin_count_split q i rs), Hi. cbn [pin_weight]. f_equal. destruct (decide (q = rd_epoch r)) as [->|Hne]; [by rewrite decide_True|]. rewrite decide_False; [done|]. intros [_ E]. cbn in E. congruence. }
  assert (exists m, release_read (rd_epoch r) rt = with_readers rt m /\ forall q, m !! q = pinned_at q (delete i rs)) as (m & -> & Hm).
  { unfold release_read. pose proof (Hp (rd_epoch r)) as Hr. rewrite decide_True in Hr by done. rewrite Hc. unfold pinned_at. rewrite Hr. cbn [Nat.add]. eexists. split; [reflexivity|].
    intros q. cbn [Nat.sub]. rewrite Nat.sub_0_r. specialize (Hp q). destruct (decide (q = rd_epoch r)) as [->|Hne].
    - destruct (pin_count (rd_epoch r) (delete i rs)) as [|n]; cbn [Nat.eqb]; [by rewrite lookup_delete_eq|by rewrite lookup_insert_eq].
    - assert (rt_readers rt !! q = match pin_count q (delete i rs) with 0 => None | S n => Some (S n) end) as Hq by (rewrite Hc; unfold pinned_at; by rewrite Hp).
      destruct (pin_count (rd_epoch r) (delete i rs)) as [|n]; cbn [Nat.eqb]; [by rewrite lookup_delete_ne|by rewrite lookup_insert_ne]. }
  eapply readers_move; [exact Hok|exact Hm|]. intros j r' [_ Hj]%lookup_delete_Some. split; [by apply (so_epochs _ _ Hok j)|]. intros l x. by apply (so_found _ _ Hok j).
Qed.

(** ** The writer *)

Lemma apply_step rt rs d op k : sys_ok (MkSystem rt Between rs) d -> store_room (e_store (rt_engine rt)) (S k) -> admissible (N := N) (rt_engine rt) op ->
  sys_ok (MkSystem (with_engine rt (apply_operation (N := N) op (rt_engine rt)).1) Between rs) (logical_apply d op).
Proof.
  intros Hok Hroom Hadm. pose proof (so_consistent _ _ Hok) as Hc. pose proof (so_tracked _ _ Hok) as Ht. cbn [sy_runtime] in Hc, Ht. destruct (operation_step _ d op k Hc Hroom Hadm) as (e' & E & Hc' & Hr').
  destruct (operation_goes _ d op k Hc Ht Hroom Hadm) as [Heff Ht']. eapply engine_moves; [exact Hok|exact Heff| |exact Ht'|]; rewrite E; [done|]. eapply room_le; [|exact Hr']. lia.
Qed.

(** The phase may grow by segments that are idle and unreferenced, none of them being dropped yet. *)
Lemma phase_moves rt rs d p p' : sys_ok (MkSystem rt p rs) d -> phase_ready p' = [] ->
  (forall g, g ∈ phase_segments p' -> store_idle (e_store (rt_engine rt)) g /\ unreferenced (rt_engine rt) g) -> sys_ok (MkSystem rt p' rs) d.
Proof.
  intros [Hc Ht Hr Hep Hg Hn Hes Hf] Hp Hs. split; cbn in *; try done; [intros g [Hg'|Hg']; [by apply Hs|by apply Hg; right]|].
  intros i r l x Hi Hreg Hx. rewrite Hp. destruct (Hf i r l x Hi Hreg Hx) as (Hl & Hrd & _ & Hret). split; [done|]. split; [done|]. split; [by intros ?%not_elem_of_nil|done].
Qed.

Lemma compact_runs rt rs d : sys_ok (MkSystem rt Between rs) d -> store_room (e_store (rt_engine rt)) (compact_cost (rt_engine rt)) ->
  exists rt' drained, begin_checkpoint rt = (rt', Ok drained) /\ sys_ok (MkSystem rt' (Compacted drained) rs) d /\ rt_epoch rt' = rt_epoch rt /\ rt_readers rt' = rt_readers rt.
Proof.
  intros Hok Hroom. destruct (compact_ok (rt_engine rt) d 0 (so_consistent _ _ Hok) (so_tracked _ _ Hok)) as (e' & drained & E & Hc' & Ht' & Hr' & Heff & Hu); [by rewrite Nat.add_0_r|].
  unfold begin_checkpoint. rewrite E. eexists _, drained. split; [done|]. split; [|done]. eapply (phase_moves _ _ _ Between); [by eapply engine_moves|done|]. cbn. intros g Hg.
  destruct (Hu g Hg) as [Hi Hu']. split; [by apply Heff|done].
Qed.

Lemma publish_runs rt rs d drained : sys_ok (MkSystem rt (Compacted drained) rs) d ->
  exists rt', publish_engine rt = (rt', Ok tt) /\ sys_ok (MkSystem rt' (Published drained) rs) d /\ rt_epoch rt' = rt_epoch rt /\ rt_readers rt' = rt_readers rt.
Proof.
  intros Hok. destruct (store_sync_ok _ _ (so_room _ _ Hok)) as (s & E & Hr & Hk & Hg). unfold publish_engine. cbn [sy_runtime] in E. rewrite E. eexists. split; [done|]. split; [|done].
  assert (advances (e_store (rt_engine rt)) s) as Hadv by (split; [done|intros g; by rewrite (proj1 (Hg g))|intros g; apply Hg]).
  pose proof (engine_moves rt (Compacted drained) rs d (set_store (rt_engine rt) s) d Hok) as Hm. destruct Hm as [Hc Ht Hr' Hep Hg' Hn Hes Hf].
  - by apply effect_same.
  - apply consistent_store; [done|apply Hok].
  - apply tracked_store; [done|apply Hok].
  - done.
  - split; cbn in *; done.
Qed.

Lemma retire_ok rt rs d drained : sys_ok (MkSystem rt (Published drained) rs) d -> (rt_epoch rt + 1 < 2 ^ 64)%Z -> sys_ok (MkSystem (retire drained rt) Retired rs) d.
Proof.
  intros [Hc Ht Hr Hep Hg Hn Hes Hf] Hb. cbn in *. unfold retire. rewrite Z.mod_small by lia. split; cbn; try done; try lia.
  - intros g [[]%not_elem_of_nil|Hin]. rewrite map_app, map_map, elem_of_app in Hin. cbn in Hin. rewrite map_id in Hin. apply Hg. tauto.
  - intros i r Hi. specialize (Hes i r Hi). lia.
  - intros i r l x Hi Hreg Hx. destruct (Hf i r l x Hi Hreg Hx) as (Hl & Hrd & _ & Hret). split; [done|]. split; [done|]. split; [by intros ?%not_elem_of_nil|].
    intros ep [Hin|(g & [= _ ->] & _)%list_elem_of_fmap]%elem_of_app; [by apply Hret|]. specialize (Hes i r Hi). lia.
Qed.

(** A registered reader is in the registry. *)
Lemma registered_pinned s d i r : sys_ok s d -> sy_readers s !! i = Some r -> rd_registered r = true -> is_Some (rt_readers (sy_runtime s) !! rd_epoch r).
Proof.
  intros Hok Hi Hreg. rewrite (so_count _ _ Hok). unfold pinned_at. rewrite (pin_count_split _ i), Hi. cbn [pin_weight]. rewrite decide_True by done. by eexists.
Qed.

Lemma take_ok rt rs d rt' ready : sys_ok (MkSystem rt Retired rs) d -> take_ready rt = (rt', ready) -> sys_ok (MkSystem rt' (Dropping ready) rs) d.
Proof.
  intros Hok [= <- <-]. pose proof (fun i r => registered_pinned (MkSystem rt Retired rs) d i r Hok) as Hpin. pose proof Hok as [Hc Ht Hr Hep Hg Hn Hes Hf]. cbn in *.
  split; cbn; try done.
  - intros g Hin. apply Hg. right. destruct Hin as [Hin|Hin]; apply list_elem_of_fmap in Hin as (x & -> & [_ Hx]%list_elem_of_filter); apply list_elem_of_fmap; by exists x.
  - intros i r l x Hi Hreg Hx. destruct (Hf i r l x Hi Hreg Hx) as (Hl & Hrd & _ & Hret). split; [done|]. split; [done|]. split.
    + intros ([g ep] & Eg & [Hun Hin]%list_elem_of_filter)%list_elem_of_fmap. cbn in Eg. subst g. specialize (Hret ep Hin). destruct (Hpin i r Hi Hreg) as [n Hrn].
      unfold oldest_reader in Hun. pose proof (oldest_spec (rt_readers rt)) as Hold. destruct (oldest (rt_readers rt)) as [[q m]|]; cbn in Hun.
      * destruct Hold as [_ Hold]. specialize (Hold _ _ Hrn). lia.
      * by rewrite Hold, lookup_empty in Hrn.
    + intros ep [_ Hin]%list_elem_of_filter. by apply Hret.
Qed.

Lemma located_outside {K V} `{Countable K} (key : K -> list Z) (record : V -> HeapRecord) m t s s' g :
  (forall k l, location_ok l -> t !! k = Some (location_encode l) -> loc_segment l <> g) ->
  (forall l r, location_ok l -> loc_segment l <> g -> store_read s l = Ok r -> store_read s' l = Ok r) -> located key record m t s -> located key record m t s'.
Proof. intros Hu Hk [Hf Hb]. split; [|done]. intros x v Hx. destruct (Hf x v Hx) as (l & Hl & Ht & Hr). exists l. split; [done|]. split; [done|]. apply Hk; [done| |done]. by eapply Hu. Qed.

Lemma drop_runs rt rs d g ready : sys_ok (MkSystem rt (Dropping (g :: ready)) rs) d ->
  exists rt', drop_one g rt = (rt', Ok tt) /\ sys_ok (MkSystem rt' (Dropping ready) rs) d /\ rt_epoch rt' = rt_epoch rt /\ rt_readers rt' = rt_readers rt /\ rt_retired rt' = rt_retired rt.
Proof.
  intros [Hc Ht Hr Hep Hg Hn Hes Hf]. cbn in *. destruct (Hg g) as [Hidle Hu]; [by left; left|]. destruct (store_drop_ok _ g 0 Hr Hidle) as (s & E & Hr' & Hk & He & Hi).
  unfold drop_one. rewrite E. eexists. split; [done|]. split; [|done]. split; cbn; try done.
  - destruct Hc as [C1 C2 C3 C4 C5 C6 C7 C8 C9 C10 C11 C12]. split; try done.
    all: eapply located_outside; [|exact Hk|done]; intros k l; apply Hu; by apply (bool_decide_unpack _).
  - destruct Ht as [Hl Hp]. split; [|done]. intros i Hi' k v Hk'. cbn in *. destruct (Hl i Hi' k v Hk') as (Hlk & l & r & -> & Hlok & Hin). split; [done|]. exists l, r. split; [done|]. split; [done|].
    rewrite He; [done|]. by eapply Hu.
  - intros g' Hg'. destruct (Hg g') as [Hi' Hu']; [destruct Hg'; [left; by right|by right]|]. split; [by apply Hi|done].
  - intros i r l x Hi' Hreg Hx. destruct (Hf i r l x Hi' Hreg Hx) as (Hl & Hrd & [Hne Hni]%not_elem_of_cons & Hret). split; [done|]. split; [by apply Hk|]. split; [done|done].
Qed.

(** ** Every interleaving *)

Lemma step_ok s s' d : sys_ok s d -> sys_step s s' -> exists d', sys_ok s' d'.
Proof.
  intros Hok Hs. destruct Hs as [rt p rs i Hi|rt p rs i r Hi Hr|rt p rs i r j k l x Hi Hr Hj Hl Hk Hx|rt p rs i r Hi Hr|rt rs op k Hroom Hadm|rt rs rt' drained Hroom E|rt rs rt' drained E|rt rs drained Hb|rt rs rt' ready E|rt rs rt' g ready E|rt rs|rt rs drained].
  - exists d. by apply reader_load_ok.
  - exists d. by apply register_ok.
  - exists d. by eapply find_ok.
  - exists d. by eapply release_ok.
  - eexists. by eapply apply_step.
  - exists d. destruct (compact_runs rt rs d Hok Hroom) as (rt1 & dr & E1 & Hok' & _). rewrite E1 in E. by injection E as -> ->.
  - exists d. destruct (publish_runs rt rs d drained Hok) as (rt1 & E1 & Hok' & _). rewrite E1 in E. by injection E as ->.
  - exists d. by apply retire_ok.
  - exists d. by eapply take_ok.
  - exists d. destruct (drop_runs rt rs d g ready Hok) as (rt1 & E1 & Hok' & _). rewrite E1 in E. by injection E as ->.
  - exists d. eapply phase_moves; [exact Hok|done|]. by intros g ?%not_elem_of_nil.
  - exists d. eapply phase_moves; [exact Hok|done|]. by intros g ?%not_elem_of_nil.
Qed.

Lemma reach_ok s s' d : sys_ok s d -> rtc sys_step s s' -> exists d', sys_ok s' d'.
Proof. intros Hok Hr. revert d Hok. induction Hr as [s|s s1 s' Hs _ IH]; intros d Hok; [by exists d|]. destruct (step_ok s s1 d Hok Hs) as [d1 Hok1]. by eapply IH. Qed.

(** C12: A pinned read keeps its segment.  Readers load an epoch, register it, find locations in any index
    and release, while the writer applies operations and takes checkpoints whose compaction moves records
    and deletes segments; in every interleaving, every location a registered reader has found still reads
    as the record it named when it was found. *)
Theorem pinned_reads_stable s s' d i r l x : sys_ok s d -> rtc sys_step s s' -> sy_readers s' !! i = Some r -> rd_registered r = true -> (l, x) ∈ rd_found r ->
  store_read (e_store (rt_engine (sy_runtime s'))) l = Ok x.
Proof. intros Hok Hr Hi Hreg Hx. destruct (reach_ok s s' d Hok Hr) as [d' Hok']. by apply (so_found _ _ Hok' i r l x). Qed.

(** ** A checkpoint runs to the end *)

Lemma drops_run ready rt rs d : sys_ok (MkSystem rt (Dropping ready) rs) d ->
  exists rt', drop_each ready rt = (rt', Ok tt) /\ sys_ok (MkSystem rt' (Dropping []) rs) d /\ rtc sys_step (MkSystem rt (Dropping ready) rs) (MkSystem rt' (Dropping []) rs) /\
    rt_retired rt' = rt_retired rt.
Proof.
  revert rt. induction ready as [|g ready IH]; intros rt Hok; cbn [drop_each]; [by exists rt|]. destruct (drop_runs rt rs d g ready Hok) as (rt1 & E & Hok1 & _ & _ & Er).
  rewrite E. destruct (IH rt1 Hok1) as (rt2 & E2 & Hok2 & Hs & Er2). exists rt2. split; [done|]. split; [done|]. split; [|congruence]. eapply rtc_l; [by apply step_drop|done].
Qed.

(** A checkpoint completes.  With room for the records it moves, a checkpoint compacts, publishes,
    retires and deletes without an error, whatever readers are registered; the collections are what they
    were; it is a sequence of the steps that readers interleave with; and when no reader is registered it
    leaves no retired segment behind. *)
Theorem checkpoint_completes rt rs d : sys_ok (MkSystem rt Between rs) d -> store_room (e_store (rt_engine rt)) (compact_cost (rt_engine rt)) -> (rt_epoch rt + 1 < 2 ^ 64)%Z ->
  exists rt', checkpoint_locked rt = (rt', Ok tt) /\ sys_ok (MkSystem rt' Between rs) d /\ rtc sys_step (MkSystem rt Between rs) (MkSystem rt' Between rs) /\
    (rt_readers rt = ∅ -> rt_retired rt' = []).
Proof.
  intros Hok Hroom Hb. unfold checkpoint_locked. destruct (compact_runs rt rs d Hok Hroom) as (rt1 & drained & E1 & Hok1 & Ee1 & Er1). rewrite E1.
  destruct (publish_runs rt1 rs d drained Hok1) as (rt2 & E2 & Hok2 & Ee2 & Er2). rewrite E2. assert (rt_epoch rt2 + 1 < 2 ^ 64)%Z as Hb2 by (by rewrite Ee2, Ee1).
  pose proof (retire_ok rt2 rs d drained Hok2 Hb2) as Hok3. set (rt3 := retire drained rt2) in *. unfold drop_unreferenced_segments. destruct (take_ready rt3) as [rt4 ready] eqn:E4.
  pose proof (take_ok _ _ _ _ _ Hok3 E4) as Hok4. destruct (drops_run ready rt4 rs d Hok4) as (rt5 & E5 & Hok5 & Hs5 & Er5). rewrite E5. exists rt5. split; [done|]. split; [|split].
  - eapply phase_moves; [exact Hok5|done|]. by intros g ?%not_elem_of_nil.
  - eapply rtc_l; [by apply step_compact|]. eapply rtc_l; [by apply step_publish|]. eapply rtc_l; [by apply step_retire|]. eapply rtc_l; [by apply step_take|]. eapply rtc_r; [exact Hs5|]. apply step_end.
  - intros Hno. rewrite Er5. injection E4 as <- _. cbn [rt_retired]. assert (oldest_reader rt3 = None) as ->.
    { unfold oldest_reader. change (rt_readers rt3) with (rt_readers rt2). rewrite Er2, Er1, Hno. pose proof (oldest_spec (∅ : gmap Z nat)) as Ho.
      destruct (oldest ∅) as [[t a]|]; [by destruct Ho as [Ho _]; rewrite lookup_empty in Ho|done]. }
    match goal with |- filter _ ?l = [] => generalize l as xs end. intros xs. induction xs as [|x xs IH]; [reflexivity|]. rewrite filter_cons_False; [exact IH|]. intros Hn. apply Hn. exact I.
Qed.
End epochs.
Arguments system St : clear implicits.
