(* ===== verification/Query.v ===== *)
(** * Queries ([src/src/storage/engine.rs], the read half)

    A query names a filter (kind, owner, requester, predicate), an order and a
    page.  The engine answers it through whichever access path fits: a declared
    index under an equality or a string prefix, an inverted index, a declared
    index in its own order, the built-in indexes in address order, or a sort of
    the matching rows.  This file is the translation of every path; the files
    after it prove that the path does not change the answer.

    A scan is a loop of a visitor over the entries of a tree; the variables a
    closure captures are its state.  [cap] is [max_scan_rows()], [max_offset] is
    [max_query_offset()], both read from the environment. *)

From Stdlib Require Import ZArith Lia Ascii String.
From stdpp Require Import base tactics list strings option gmap sorting.
From S2P Require Import Prelude Binary BTree BTreeRead Keys Json GoLower OrderKey Predicate Search Entities Wal Transaction Engine.

(** ** Scans *)

(** A visitor over a list: an error ends the scan, [false] stops it. *)
Fixpoint visit_entries {E S A : Type} (visit : S -> A -> result E (S * bool)) (s : S) (l : list A) : result E S :=
  match l with
  | [] => Ok s
  | x :: l =>
      match visit s x with
      | Err e => Err e
      | Ok (s, true) => visit_entries visit s l
      | Ok (s, false) => Ok s
      end
  end.

Definition tree_sorted (t : tree) : list (list Z * list Z) := merge_sort key_le (map_to_list t).

(** Where a scan starts: past the resume key, or at the end of the prefix it starts from. *)
Definition in_scan (prefix : list Z) (start_after : option (list Z)) (reverse_ : bool) (k : list Z) : Prop :=
  match start_after with
  | Some c => if reverse_ then lex_lt k c else lex_lt c k
  | None => if reverse_ then match prefix_upper_bound prefix with Some b => lex_lt k b | None => True end
            else lex_le prefix k
  end.

#[export] Instance in_scan_dec p c r k : Decision (in_scan p c r k).
Proof. unfold in_scan, lex_le, lex_lt. destruct c, r; [| | destruct (prefix_upper_bound p)|]; apply _. Defined.

(** [for_each_range] over a tree: from the start, in its direction, while the prefix lasts. *)
Definition tree_scan (t : tree) (prefix : list Z) (start_after : option (list Z)) (reverse_ : bool) : list (list Z * list Z) :=
  let l := filter (fun e => in_scan prefix start_after reverse_ e.1) (tree_sorted t) in
  take_while prefix (if reverse_ then reverse l else l).

(** [Iterator::position], or the length. *)
Fixpoint position {A} (test : A -> bool) (l : list A) : nat :=
  match l with
  | [] => 0
  | x :: l => if test x then 0 else S (position test l)
  end.

(** [slice::partition_point]: where the test stops holding. *)
Definition partition_point {A} (test : A -> bool) (l : list A) : nat := position (fun x => negb (test x)) l.

(** ** base64url, without padding *)

Definition B64URL : string := "ABCDEFGHIJKLMNOPQRSTUVWXYZabcdefghijklmnopqrstuvwxyz0123456789-_".

Definition b64_char (n : Z) : Z := nth (Z.to_nat n) (as_bytes B64URL) 0%Z.

Fixpoint base64url_encode (input : list Z) : list Z :=
  match input with
  | [] => []
  | [b0] =>
      let n := Z.shiftl b0 16 in
      [b64_char (Z.land (Z.shiftr n 18) 63); b64_char (Z.land (Z.shiftr n 12) 63)]
  | [b0; b1] =>
      let n := Z.lor (Z.shiftl b0 16) (Z.shiftl b1 8) in
      [b64_char (Z.land (Z.shiftr n 18) 63); b64_char (Z.land (Z.shiftr n 12) 63); b64_char (Z.land (Z.shiftr n 6) 63)]
  | b0 :: b1 :: b2 :: rest =>
      let n := Z.lor (Z.lor (Z.shiftl b0 16) (Z.shiftl b1 8)) b2 in
      b64_char (Z.land (Z.shiftr n 18) 63) :: b64_char (Z.land (Z.shiftr n 12) 63) ::
      b64_char (Z.land (Z.shiftr n 6) 63) :: b64_char (Z.land n 63) :: base64url_encode rest
  end.

Definition b64_val (c : Z) : option Z :=
  if ((65 <=? c) && (c <=? 90))%Z then Some (c - 65)%Z
  else if ((97 <=? c) && (c <=? 122))%Z then Some (c - 97 + 26)%Z
  else if ((48 <=? c) && (c <=? 57))%Z then Some (c - 48 + 52)%Z
  else if (c =? 45)%Z then Some 62%Z
  else if (c =? 95)%Z then Some 63%Z
  else None.

(** [as u8] *)
Definition low_byte (n : Z) : Z := (n mod 256)%Z.

Fixpoint base64url_decode (input : list Z) : option (list Z) :=
  match input with
  | [] => Some []
  | [_] => None
  | [c0; c1] =>
      v0 ← b64_val c0; v1 ← b64_val c1;
      let n := Z.lor (Z.shiftl v0 18) (Z.shiftl v1 12) in
      Some [low_byte (Z.shiftr n 16)]
  | [c0; c1; c2] =>
      v0 ← b64_val c0; v1 ← b64_val c1; v2 ← b64_val c2;
      let n := Z.lor (Z.lor (Z.shiftl v0 18) (Z.shiftl v1 12)) (Z.shiftl v2 6) in
      Some [low_byte (Z.shiftr n 16); low_byte (Z.shiftr n 8)]
  | c0 :: c1 :: c2 :: c3 :: rest =>
      v0 ← b64_val c0; v1 ← b64_val c1; v2 ← b64_val c2; v3 ← b64_val c3;
      let n := Z.lor (Z.lor (Z.lor (Z.shiftl v0 18) (Z.shiftl v1 12)) (Z.shiftl v2 6)) v3 in
      out ← base64url_decode rest;
      Some (low_byte (Z.shiftr n 16) :: low_byte (Z.shiftr n 8) :: low_byte n :: out)
  end.

(** ** Cursors *)

Record Cursor (N : Type) := MkCursor { c_o : option (value N); c_a : string }.
Arguments MkCursor {N} c_o c_a.
Arguments c_o {N} c.
Arguments c_a {N} c.

(** [serde_json]'s bytes of a cursor, derived by [serde]. *)
Class CursorJson (N : Type) := {
  cursor_to_vec : Cursor N -> list Z;
  cursor_from_slice : list Z -> option (Cursor N);
  exact : value N -> Prop;
}.

(** What is documented of it: the bytes are bytes, and a cursor whose value reads back as written
    ([exact]; without the [float_roundtrip] feature some fractions do not) reads back, except that
    [serde] reads [null] at an [Option] as absent. *)
Class CursorLaws (N : Type) `{CursorJson N} : Prop := {
  cursor_bytes c : bytes (cursor_to_vec c);
  cursor_roundtrip c : match c_o c with Some v => exact v | None => True end ->
    cursor_from_slice (cursor_to_vec c) = Some (MkCursor (match c_o c with Some JNull => None | o => o end) (c_a c));
}.

Definition MAX_CURSOR_LEN : nat := 4096.

Inductive query_error : Type :=
| QStorage (k : error_kind)
| QPredicate (x : pred_error)
| QOffset
| QCursor
| QNoIndex
| QAggregate
| QTooManyValues
| QScanLimit.

Definition io_message {A : Type} (r : result error_kind A) : result query_error A :=
  match r with Ok a => Ok a | Err k => Err (QStorage k) end.

Section query.
Context {St : Type} `{RecordStore St} {N : Type} `{SerdeJson N} `{CursorJson N}.
Context (cap max_offset : nat).
Implicit Types e : engine (St := St).

(** [serde_json::from_str(&node.data).ok()?.get(field).cloned()] *)
Definition order_key (n : Node) (field : string) : option (value N) :=
  from_str (n_data n) ≫= (fun d => get_field d field).

Definition compare_order_keys (a b : option (value N)) : comparison := compare_order_values a b.

Definition from_node (n : Node) (order_field : option string) : Cursor N :=
  MkCursor (order_field ≫= order_key n) (n_address n).

Definition cursor_encode (c : Cursor N) : list Z := base64url_encode (cursor_to_vec c).

Definition cursor_decode (s : list Z) : result query_error (Cursor N) :=
  if MAX_CURSOR_LEN <? length s then Err QCursor
  else match base64url_decode s with
       | None => Err QCursor
       | Some raw => match cursor_from_slice raw with Some c => Ok c | None => Err QCursor end
       end.

Definition cmp_node_to_cursor (n : Node) (order_field : option string) (c : Cursor N) : comparison :=
  match order_field with
  | Some field =>
      match compare_order_keys (order_key n field) (c_o c) with
      | Eq => lex_cmp (as_bytes (n_address n)) (as_bytes (c_a c))
      | o => o
      end
  | None => lex_cmp (as_bytes (n_address n)) (as_bytes (c_a c))
  end.

(** ** The filter *)

Record filters := MkFilters {
  f_kind : option string;
  f_owner : option string;
  f_requester : option string;
  f_predicate : option (Expr N);
  f_item_var : string;
}.

(** What every path tests before the predicate. *)
Definition selected (f : filters) (n : Node) : bool :=
  match f_kind f with Some k => String.eqb (n_kind n) k | None => true end &&
  match f_owner f with Some o => String.eqb (n_owner n) o | None => true end &&
  match f_requester f with Some r => can_read n r | None => true end.

Definition node_data (n : Node) : value N := default JNull (from_str (n_data n)).

Definition is_true (v : value N) : bool := match v with JBool true => true | _ => false end.

(** The closure [matches] of [query_where]. *)
Definition matches (f : filters) (n : Node) : result query_error bool :=
  if negb (selected f n) then Ok false
  else match f_predicate f with
       | None => Ok true
       | Some expr =>
           match eval expr (f_item_var f) (node_data n) with
           | Ok v => Ok (is_true v)
           | Err x => Err (QPredicate x)
           end
       end.

(** ** Candidates *)

(** The read of the engine, which leaves it as it is. *)
Definition fetch e (address : string) : result error_kind (option Node) := (read_node address e).2.
Definition fetch_at e (l : record_location) : result error_kind Node := (node_at l e).2.

Definition scan_candidates {S} e (kind owner start_after : option string) (reverse_ : bool)
    (visit : S -> Node -> result error_kind (S * bool)) (s : S) : result error_kind S :=
  let through i prefix :=
    visit_entries (fun s kv =>
      n ← fetch e (key_address kv.1 prefix);
      match n with Some n => visit s n | None => Ok (s, true) end) s
      (tree_scan (e_trees e i) prefix ((fun a => prefix ++ as_bytes a) <$> start_after) reverse_) in
  match kind, owner with
  | Some k, _ => through Kind (kind_prefix (as_bytes k))
  | None, Some o => through Owner (owner_prefix (as_bytes o))
  | None, None =>
      visit_entries (fun s kv => l ← location_decode kv.2; n ← fetch_at e l; visit s n) s
        (tree_scan (e_trees e Primary) [] (as_bytes <$> start_after) reverse_)
  end.

(** The plain listing. *)
Definition query e (kind owner requester : option string) (limit offset : nat) : result error_kind (list Node) :=
  if limit =? 0 then Ok []
  else if max_offset <? offset then Err InvalidInput
  else
    s ← scan_candidates e kind owner None false (fun (s : list Node * nat) n =>
      let '(nodes, skipped) := s in
      if negb (selected (MkFilters kind owner requester None "") n) then Ok (s, true)
      else if skipped <? offset then Ok (nodes, S skipped, true)
      else Ok (nodes ++ [n], skipped, length (nodes ++ [n]) <? limit)) ([], 0);
    Ok s.1.

Definition nodes_by_owner e (owner : string) (requester : option string) : result error_kind (list Node) :=
  let prefix := owner_prefix (as_bytes owner) in
  visit_entries (fun nodes kv =>
    if cap <=? length nodes then Err InvalidInput
    else
      n ← fetch e (key_address kv.1 prefix);
      Ok (match n with
          | Some n => if match requester with Some r => can_read n r | None => true end then nodes ++ [n] else nodes
          | None => nodes
          end, true)) [] (tree_scan (e_trees e Owner) prefix None false).

(** ** Pages *)

Record QueryPage := MkPage { qp_nodes : list Node; qp_next : list Z; qp_examined : nat }.

(** What the closures of a page capture. *)
Record page_state := MkPageState {
  ps_nodes : list Node;
  ps_skipped : nat;
  ps_more : bool;
  ps_failure : option query_error;
  ps_examined : nat;
}.

Definition page_start : page_state := MkPageState [] 0 false None 0.

(** The visitor of every paged plan. *)
Definition page_visit (f : filters) (to_skip limit : nat) (s : page_state) (n : Node) : result error_kind (page_state * bool) :=
  let '(MkPageState nodes skipped more failure examined) := s in
  let examined := S examined in
  match matches f n with
  | Err x => Ok (MkPageState nodes skipped more (Some x) examined, false)
  | Ok false => Ok (MkPageState nodes skipped more failure examined, true)
  | Ok true =>
      if skipped <? to_skip then Ok (MkPageState nodes (S skipped) more failure examined, true)
      else if length nodes =? limit then Ok (MkPageState nodes skipped true failure examined, false)
      else Ok (MkPageState (nodes ++ [n]) skipped more failure examined, true)
  end.

Definition next_cursor (nodes : list Node) (more : bool) (order_field : option string) : list Z :=
  match last nodes with
  | Some n => if more then cursor_encode (from_node n order_field) else []
  | None => []
  end.

Definition page_finish (order_field : option string) (s : page_state) : result query_error QueryPage :=
  match ps_failure s with
  | Some x => Err x
  | None => Ok (MkPage (ps_nodes s) (next_cursor (ps_nodes s) (ps_more s) order_field) (ps_examined s))
  end.

Definition query_by_address e (f : filters) (cursor : option (Cursor N)) (desc : bool) (limit offset : nat) : result query_error QueryPage :=
  let start_after : option string := c_a <$> cursor in
  let to_skip := match start_after with Some _ => 0 | None => offset end in
  s ← io_message (scan_candidates e (f_kind f) (f_owner f) start_after desc (page_visit f to_skip limit) page_start);
  page_finish None s.

(** ** Declared indexes *)

(** The definitions with their trees, in name order. *)
Definition data_indexes e : list (IndexDef * tree) :=
  merge_sort (fun a b => string_le (def_name a.1) (def_name b.1)) (map snd (map_to_list (e_data e))).
Definition text_indexes e : list (TextIndexDef * tree) :=
  merge_sort (fun a b => string_le (t_name a.1) (t_name b.1)) (map snd (map_to_list (e_text e))).

Fixpoint first_equality (kind : string) (predicate : Expr N) (item_var : string) (l : list (IndexDef * tree)) :
    option (IndexDef * tree * value N) :=
  match l with
  | [] => None
  | (d, t) :: l =>
      if negb (String.eqb (def_kind d) kind) then first_equality kind predicate item_var l
      else match equality_literal predicate item_var (def_field d) with
           | Some literal => Some (d, t, literal)
           | None => first_equality kind predicate item_var l
           end
  end.

Definition equality_selection e (f : filters) : option (IndexDef * tree * value N) :=
  match f_kind f, f_predicate f with
  | Some kind, Some predicate => first_equality kind predicate (f_item_var f) (data_indexes e)
  | _, _ => None
  end.

Definition equality_prefix_plan e (f : filters) (order_field : option string) : option (IndexDef * tree * value N) :=
  match equality_selection e f with
  | None => None
  | Some (d, t, literal) =>
      match order_field with
      | None => Some (d, t, literal)
      | Some order => if String.eqb order (def_field d) then Some (d, t, literal) else None
      end
  end.

Definition string_prefix_plan e (f : filters) (order_field : option string) : option (IndexDef * tree * string) :=
  match f_kind f, f_predicate f, order_field with
  | Some kind, Some predicate, Some order =>
      match data_find e kind order with
      | None => None
      | Some (d, t) =>
          match prefix_literal predicate (f_item_var f) (def_field d) with
          | None => None
          | Some literal => Some (d, t, literal)
          end
      end
  | _, _, _ => None
  end.

(** One entry of a declared index: the node it points at, if it is live. *)
Definition visit_data_entry {S} e (visit : S -> Node -> result error_kind (S * bool)) (s : S) (kv : list Z * list Z) :
    result error_kind (S * bool) :=
  match address_from_data_key kv.1 with
  | None => Ok (s, true)
  | Some raw =>
      n ← fetch e (string_of_bytes raw);
      match n with Some n => visit s n | None => Ok (s, true) end
  end.

Definition query_by_key_prefix e (d : IndexDef) (t : tree) (f : filters) (prefix : list Z) (cursor : option (Cursor N))
    (desc : bool) (limit offset : nat) : result query_error QueryPage :=
  let after := (fun c => data_key (c_o c) (as_bytes (c_a c))) <$> cursor in
  let to_skip := match cursor with Some _ => 0 | None => offset end in
  s ← io_message (visit_entries (visit_data_entry e (page_visit f to_skip limit)) page_start (tree_scan t prefix after desc));
  page_finish (Some (def_field d)) s.

Definition query_by_data_prefix e (d : IndexDef) (t : tree) (f : filters) (literal : value N) (cursor : option (Cursor N))
    (desc : bool) (limit offset : nat) : result query_error QueryPage :=
  query_by_key_prefix e d t f (encode_order_value (Some literal)) cursor desc limit offset.

Definition query_by_data_index e (f : filters) (kind field : string) (cursor : option (Cursor N))
    (desc : bool) (limit offset : nat) : result query_error QueryPage :=
  match data_find e kind field with
  | None => Err QNoIndex
  | Some (_, t) =>
      let after := (fun c => data_key (c_o c) (as_bytes (c_a c))) <$> cursor in
      let to_skip := match cursor with Some _ => 0 | None => offset end in
      s ← io_message (visit_entries (visit_data_entry e (page_visit f to_skip limit)) page_start (tree_scan t [] after desc));
      page_finish (Some field) s
  end.

(** ** Inverted indexes *)

Definition MAX_TEXT_SEED_GRAMS : nat := 4.
Definition MAX_TEXT_SEED_ENOUGH : nat := 1024.
Definition MAX_TEXT_PROBE_GRAMS : nat := 16.
Definition MAX_TEXT_PROBE_FLOOR : nat := 64.

(** [BTreeSet<String>]: a set of addresses, read out in the order of their bytes. *)
Definition address_list (s : gset string) : list string := merge_sort string_le (elements s).

(** Reading one posting list, up to [limit]: the addresses, how many entries were read, whether it was longer. *)
Definition read_postings (t : tree) (gram : list Z) (limit : nat) : gset string * nat * bool :=
  match visit_entries (E := unit) (fun (s : gset string * nat * bool) kv =>
    let '(addresses, read, over) := s in
    if limit <=? read then Ok (addresses, read, true, false)
    else
      Ok (match address_from_key kv.1 with
          | Some raw => {[string_of_bytes raw]} ∪ addresses
          | None => addresses
          end, S read, over, true)) (∅, 0, false) (tree_scan t gram None false) with
  | Ok s => s
  | Err _ => (∅, 0, false)
  end.

(** The hunt for a short posting list. *)
Fixpoint seed (t : tree) (grams : list (list Z)) (best : option (gset string)) (best_len budget : nat) : option (gset string) :=
  match grams with
  | [] => best
  | gram :: grams =>
      let limit := min best_len budget in
      if limit =? 0 then best
      else
        let '(addresses, read, over) := read_postings t gram limit in
        let budget := budget - read in
        if over then seed t grams best best_len budget
        else if base.size addresses <=? MAX_TEXT_SEED_ENOUGH then Some addresses
        else seed t grams (Some addresses) (base.size addresses) budget
  end.

(** The probes of the other trigrams. *)
Fixpoint probe (t : tree) (grams : list (list Z)) (candidates : gset string) (budget : nat) : gset string :=
  match grams with
  | [] => candidates
  | gram :: grams =>
      if (base.size candidates <=? MAX_TEXT_PROBE_FLOOR) || (budget <? base.size candidates) then candidates
      else probe t grams (filter (fun a => is_Some (t !! text_key gram (as_bytes a))) candidates) (budget - base.size candidates)
  end.

Definition text_candidates (t : tree) (grams : list (list Z)) : option (list string) :=
  match seed t (take MAX_TEXT_SEED_GRAMS grams) None cap cap with
  | None => None
  | Some candidates => Some (address_list (probe t (take MAX_TEXT_PROBE_GRAMS grams) candidates cap))
  end.

Fixpoint first_candidates (kind : string) (predicate : Expr N) (item_var : string) (l : list (TextIndexDef * tree)) : option (list string) :=
  match l with
  | [] => None
  | (d, t) :: l =>
      if negb (String.eqb (t_kind d) kind) then first_candidates kind predicate item_var l
      else
        let grams := required_grams d predicate item_var in
        match grams with
        | [] => first_candidates kind predicate item_var l
        | _ =>
            match text_candidates t grams with
            | Some candidates => Some candidates
            | None => first_candidates kind predicate item_var l
            end
        end
  end.

Definition text_candidate_plan e (f : filters) : option (list string) :=
  match f_kind f, f_predicate f with
  | Some kind, Some predicate => first_candidates kind predicate (f_item_var f) (text_indexes e)
  | _, _ => None
  end.

(** The visitor of a list of addresses. *)
Definition visit_address {S} e (visit : S -> Node -> result error_kind (S * bool)) (s : S) (address : string) : result error_kind (S * bool) :=
  n ← fetch e address;
  match n with Some n => visit s n | None => Ok (s, true) end.

(** The candidates past the cursor, found in the ascending list. *)
Definition past_address (candidates : list string) (start_after : option string) (desc : bool) : list string :=
  match start_after with
  | Some after =>
      if desc then take (partition_point (fun a => bool_decide (lex_lt (as_bytes a) (as_bytes after))) candidates) candidates
      else drop (partition_point (fun a => bool_decide (lex_le (as_bytes a) (as_bytes after))) candidates) candidates
  | None => candidates
  end.

Definition query_by_text e (f : filters) (candidates : list string) (cursor : option (Cursor N)) (desc : bool) (limit offset : nat) :
    result query_error QueryPage :=
  let start_after : option string := c_a <$> cursor in
  let to_skip := match start_after with Some _ => 0 | None => offset end in
  let slice := past_address candidates start_after desc in
  s ← io_message (visit_entries (visit_address e (page_visit f to_skip limit)) page_start (if desc then reverse slice else slice));
  page_finish None s.

(** ** The sorted page *)

Definition row_cmp (order_field : option string) (a b : Node) : comparison :=
  match match order_field with Some field => compare_order_keys (order_key a field) (order_key b field) | None => Eq end with
  | Eq => lex_cmp (as_bytes (n_address a)) (as_bytes (n_address b))
  | c => c
  end.

Definition row_le (order_field : option string) (a b : Node) : Prop := row_cmp order_field a b <> Gt.

#[global] Instance row_le_dec o a b : Decision (row_le o a b).
Proof. unfold row_le. apply _. Defined.

(** The closure [take]: candidates, failure and the count of rows tested. *)
Definition take_row (f : filters) (s : list Node * option query_error * nat) (n : Node) :
    result error_kind (list Node * option query_error * nat * bool) :=
  let '(candidates, failure, examined) := s in
  match matches f n with
  | Ok true => if cap <=? length candidates then Err InvalidInput else Ok (candidates ++ [n], failure, S examined, true)
  | Ok false => Ok (candidates, failure, S examined, true)
  | Err x => Ok (candidates, Some x, S examined, false)
  end.

Definition query_sorted e (f : filters) (order_field : option string) (cursor : option (Cursor N)) (desc : bool) (limit offset : nat)
    (text : option (list string)) : result query_error QueryPage :=
  s ← io_message
        (match equality_selection e f with
         | Some (_, t, literal) =>
             visit_entries (visit_data_entry e (take_row f)) ([], None, 0) (tree_scan t (encode_order_value (Some literal)) None false)
         | None =>
             match text with
             | Some addresses => visit_entries (visit_address e (take_row f)) ([], None, 0) addresses
             | None => scan_candidates e (f_kind f) (f_owner f) None false (take_row f) ([], None, 0)
             end
         end);
  let '(candidates, failure, examined) := s in
  match failure with
  | Some x => Err x
  | None =>
      let candidates := merge_sort (row_le order_field) candidates in
      let candidates := if desc then reverse candidates else candidates in
      let start := match cursor with
                   | Some c =>
                       position (fun n => match cmp_node_to_cursor n order_field c with
                                          | Lt => desc
                                          | Gt => negb desc
                                          | Eq => false
                                          end) candidates
                   | None => min offset (length candidates)
                   end in
      let page := take limit (drop start candidates) in
      Ok (MkPage page (next_cursor page (start + length page <? length candidates) order_field) examined)
  end.

(** ** The planner *)

(** [order.filter(|o| *o != "id")]: absent and [id] both mean the order of addresses. *)
Definition normal_order (order : option string) : option string :=
  match order with Some o => if String.eqb o "id" then None else Some o | None => None end.

(** [after.filter(|c| !c.is_empty())] *)
Definition nonempty (after : option (list Z)) : option (list Z) :=
  match after with Some [] => None | a => a end.

Definition query_where e (f : filters) (order : option string) (desc : bool) (after : option (list Z)) (limit offset : nat) :
    result query_error QueryPage :=
  let after := nonempty after in
  if bool_decide (after = None) && (max_offset <? offset) then Err QOffset
  else
    let order_field := normal_order order in
    cursor ← match after with Some encoded => c ← cursor_decode encoded; Ok (Some c) | None => Ok None end;
    match equality_prefix_plan e f order_field with
    | Some (d, t, literal) => query_by_data_prefix e d t f literal cursor desc limit offset
    | None =>
        match string_prefix_plan e f order_field with
        | Some (d, t, literal) => query_by_key_prefix e d t f (encode_string_prefix (N := N) literal) cursor desc limit offset
        | None =>
            match order_field with
            | None =>
                match text_candidate_plan e f with
                | Some candidates => query_by_text e f candidates cursor desc limit offset
                | None => query_by_address e f cursor desc limit offset
                end
            | Some field =>
                match match f_kind f with Some k => data_find e k field ≫= (fun _ => Some k) | None => None end with
                | Some k => query_by_data_index e f k field cursor desc limit offset
                | None =>
                    let text := match equality_selection e f with Some _ => None | None => text_candidate_plan e f end in
                    query_sorted e f order_field cursor desc limit offset text
                end
            end
        end
    end.
End query.
