(* ===== verification/QueryScan.v ===== *)
(** * Scans, cursors and sorted lists

    What the access paths of a query share: base64url reads back what it wrote,
    a scan of a tree visits exactly the entries of its prefix past the resume
    key in order, a strictly sorted list is determined by its elements, and the
    loop that cuts a page out of a list of rows returns the page. *)

From Stdlib Require Import ZArith Lia Ascii String.
From stdpp Require Import base tactics list strings option gmap sorting.
From S2P Require Import Prelude Binary BTree BTreeCells BTreeRead Keys Json GoLower OrderKey Predicate Search Entities Wal Transaction Engine EngineRep EngineApply EngineOps Query.

Local Open Scope key_scope.

(** ** base64url *)

Lemma b64_val_char n : (0 <= n < 64)%Z -> b64_val (b64_char n) = Some n.
Proof.
  intros Hn. assert (Z.to_nat n < 64) as Hk by lia. rewrite <- (Z2Nat.id n) at 2 by lia. unfold b64_char.
  generalize dependent (Z.to_nat n). intros k Hk. clear n Hn.
  do 64 (destruct k as [|k]; [reflexivity|]). lia.
Qed.

Lemma land63 n : (0 <= Z.land n 63 < 64)%Z.
Proof. change 63%Z with (Z.ones 6). rewrite Z.land_ones by lia. apply Z.mod_pos_bound. lia. Qed.

Lemma disjoint_lor a b k : (0 <= k)%Z -> (2 ^ k | a)%Z -> (0 <= b < 2 ^ k)%Z -> Z.lor a b = (a + b)%Z.
Proof.
  intros Hk [q ->] Hb. symmetry. rewrite Z.add_nocarry_lxor, Z.lxor_lor; [done| |]; apply Z.bits_inj'; intros i Hi; rewrite Z.land_spec, Z.bits_0.
  all: destruct (Z.lt_ge_cases i k); [rewrite Z.mul_pow2_bits_low by done; done|].
  all: rewrite (bits_above b k i) by lia; apply andb_false_r.
Qed.

(** Four groups of six bits are the 24 bits they were cut from. *)
Lemma sextets n : (0 <= n < 2 ^ 24)%Z ->
  Z.lor (Z.lor (Z.lor (Z.shiftl (Z.land (Z.shiftr n 18) 63) 18) (Z.shiftl (Z.land (Z.shiftr n 12) 63) 12))
    (Z.shiftl (Z.land (Z.shiftr n 6) 63) 6)) (Z.land n 63) = n.
Proof.
  intros Hn. change 63%Z with (Z.ones 6). apply Z.bits_inj'. intros i Hi.
  assert (24 <= i -> Z.testbit n i = false)%Z as Hhigh.
  { intros Hi'. by apply (bits_above n 24). }
  rewrite !Z.lor_spec, !Z.shiftl_spec, !Z.land_spec by lia.
  rewrite !(Z.testbit_ones 6) by lia.
  destruct (Z.ltb_spec i 6); [|destruct (Z.ltb_spec i 12); [|destruct (Z.ltb_spec i 18); [|destruct (Z.ltb_spec i 24)]]].
  all: repeat match goal with |- context [Z.leb 0 ?x] => destruct (Z.leb_spec 0 x); try lia end.
  all: repeat match goal with |- context [Z.ltb ?x 6] => destruct (Z.ltb_spec x 6); try lia end.
  all: cbn [andb orb]; rewrite ?andb_false_r, ?andb_true_r, ?orb_false_r, ?orb_false_l.
  all: rewrite ?Z.shiftr_spec by lia; try (f_equal; lia).
  all: rewrite ?(Z.testbit_neg_r _ (i - 18)), ?(Z.testbit_neg_r _ (i - 12)), ?(Z.testbit_neg_r _ (i - 6)) by lia; try done; try (f_equal; lia).
  all: try (rewrite Hhigh by lia; done).
Qed.

(** The 24 bits of three bytes, and the bytes of them. *)
Lemma triple b0 b1 b2 : is_byte b0 -> is_byte b1 -> is_byte b2 ->
  let n := Z.lor (Z.lor (Z.shiftl b0 16) (Z.shiftl b1 8)) b2 in
  (0 <= n < 2 ^ 24)%Z /\ low_byte (Z.shiftr n 16) = b0 /\ low_byte (Z.shiftr n 8) = b1 /\ low_byte n = b2.
Proof.
  intros H0 H1 H2 n. unfold is_byte in *. assert (n = b0 * 65536 + b1 * 256 + b2)%Z as E.
  { unfold n. rewrite !Z.shiftl_mul_pow2 by lia. rewrite (disjoint_lor (b0 * 2 ^ 16) (b1 * 2 ^ 8) 16), (disjoint_lor _ b2 8) by (try lia; try (exists b0; lia); exists (b0 * 256 + b1)%Z; lia). lia. }
  clearbody n. subst n. unfold low_byte. rewrite !Z.shiftr_div_pow2 by lia. split; [lia|].
  change (2 ^ 16)%Z with 65536%Z. change (2 ^ 8)%Z with 256%Z.
  repeat split.
  - replace (b0 * 65536 + b1 * 256 + b2)%Z with (b0 * 65536 + (b1 * 256 + b2))%Z by lia. rewrite Z.div_add_l, (Z.div_small (_ + _)) by lia.
    rewrite Z.add_0_r. apply Z.mod_small. lia.
  - replace (b0 * 65536 + b1 * 256 + b2)%Z with ((b0 * 256 + b1) * 256 + b2)%Z by lia. rewrite Z.div_add_l, (Z.div_small b2) by lia.
    rewrite Z.add_0_r, Z.add_comm, Z.mod_add by lia. apply Z.mod_small. lia.
  - replace (b0 * 65536 + b1 * 256 + b2)%Z with (b2 + (b0 * 256 + b1) * 256)%Z by lia. rewrite Z.mod_add by lia. apply Z.mod_small. lia.
Qed.

(** A whole group decodes to its three bytes, and what follows decodes after it. *)
Lemma decode_group b0 b1 b2 rest : is_byte b0 -> is_byte b1 -> is_byte b2 ->
  base64url_decode (base64url_encode (b0 :: b1 :: b2 :: rest)) =
  (out ← base64url_decode (base64url_encode rest); Some (b0 :: b1 :: b2 :: out)).
Proof.
  intros H0 H1 H2. destruct (triple b0 b1 b2 H0 H1 H2) as (Hn & E0 & E1 & E2). cbn [base64url_encode base64url_decode].
  rewrite !b64_val_char by apply land63. cbn [mbind option_bind]. rewrite sextets by exact Hn. by rewrite E0, E1, E2.
Qed.

Lemma base64_tail b0 b1 : is_byte b0 -> is_byte b1 ->
  base64url_decode (base64url_encode [b0]) = Some [b0] /\ base64url_decode (base64url_encode [b0; b1]) = Some [b0; b1].
Proof.
  intros H0 H1. assert (is_byte 0) as Hz by (unfold is_byte; lia).
  assert (forall x k, (6 <= k)%Z -> Z.land (Z.shiftl x k) 63 = 0%Z) as Hlow.
  { intros x k Hk. change 63%Z with (Z.ones 6). rewrite Z.land_ones, Z.shiftl_mul_pow2 by lia. apply Z.mod_divide; [lia|].
    exists (x * 2 ^ (k - 6))%Z. rewrite <- Z.mul_assoc, <- Z.pow_add_r by lia. do 2 f_equal. lia. }
  split.
  - destruct (triple b0 0 0 H0 Hz Hz) as (Hn & E0 & _). rewrite Z.shiftl_0_l, !Z.lor_0_r in *.
    cbn [base64url_encode base64url_decode]. rewrite !b64_val_char by apply land63. cbn [mbind option_bind].
    pose proof (sextets _ Hn) as Hs. rewrite (Hlow b0 16%Z), Z.lor_0_r in Hs by lia.
    rewrite (Z.shiftr_shiftl_l b0 16 6), (Hlow b0 (16 - 6)%Z), Z.shiftl_0_l, Z.lor_0_r in Hs by lia. by rewrite Hs, E0.
  - destruct (triple b0 b1 0 H0 H1 Hz) as (Hn & E0 & E1 & _). rewrite !Z.lor_0_r in *.
    cbn [base64url_encode base64url_decode]. rewrite !b64_val_char by apply land63. cbn [mbind option_bind].
    pose proof (sextets _ Hn) as Hs. rewrite (Z.land_lor_distr_l _ _ 63), (Hlow b0 16%Z), (Hlow b1 8%Z) in Hs by lia. rewrite ?Z.lor_0_r in Hs.
    by rewrite Hs, E0, E1.
Qed.

Lemma base64_roundtrip l : bytes l -> base64url_decode (base64url_encode l) = Some l.
Proof.
  intros Hl. assert (exists n, length l <= n) as [n Hn] by eauto. revert l Hl Hn.
  induction n as [|n IH]; intros [|b0 [|b1 [|b2 rest]]] Hl Hn; try done; try (cbn [length] in Hn; lia).
  - apply Forall_cons_1 in Hl as [H0 _]. by apply (base64_tail b0 b0).
  - apply Forall_cons_1 in Hl as [H0 [H1 _]%Forall_cons_1]. by apply base64_tail.
  - apply Forall_cons_1 in Hl as [H0 [H1 [H2 Hl]%Forall_cons_1]%Forall_cons_1].
    rewrite decode_group, IH by (done || (cbn [length] in Hn; lia)). done.
Qed.

Lemma base64_length l : 4 * length l <= 3 * length (base64url_encode l).
Proof.
  assert (exists n, length l <= n) as [n Hn] by eauto. revert l Hn.
  induction n as [|n IH]; intros [|b0 [|b1 [|b2 rest]]] Hn; cbn [length base64url_encode] in *; try lia.
  specialize (IH rest ltac:(lia)). lia.
Qed.

(** ** Sorted lists *)

(** A strictly sorted list is determined by its elements. *)
Lemma sorted_ext {A} (R : relation A) (l l' : list A) :
  (forall x, ~ R x x) -> (forall x y, R x y -> R y x -> False) ->
  StronglySorted R l -> StronglySorted R l' -> (forall x, x ∈ l <-> x ∈ l') -> l = l'.
Proof.
  intros Hirr Hasym Hl. revert l'. induction Hl as [|x l Hl IH Hx]; intros l' Hl' Hin.
  - destruct l' as [|y l']; [done|]. exfalso. apply (not_elem_of_nil (A := A) y), Hin. left.
  - destruct Hl' as [|y l' Hl' Hy]; [exfalso; apply (not_elem_of_nil (A := A) x), Hin; left|].
    rewrite Forall_forall in Hx, Hy. assert (x = y) as <-.
    { pose proof (proj1 (Hin x) ltac:(left)) as [|Hxy]%elem_of_cons; [done|].
      pose proof (proj2 (Hin y) ltac:(left)) as [|Hyx]%elem_of_cons; [done|].
      destruct (Hasym x y); auto. }
    f_equal. apply IH; [done|]. intros z. specialize (Hin z). rewrite !elem_of_cons in Hin. split; intros Hz.
    + destruct (proj1 Hin (or_intror Hz)) as [->|]; [|done]. destruct (Hirr x); by apply Hx.
    + destruct (proj2 Hin (or_intror Hz)) as [->|]; [|done]. destruct (Hirr x); by apply Hy.
Qed.

Lemma sorted_omap {A B} (R : relation A) (Q : relation B) (g : A -> option B) (l : list A) :
  (forall x y a b, x ∈ l -> y ∈ l -> R x y -> g x = Some a -> g y = Some b -> Q a b) ->
  StronglySorted R l -> StronglySorted Q (omap g l).
Proof.
  intros HQ Hl. induction Hl as [|x l Hl IH Hx]; [constructor|]. cbn [omap list_omap].
  assert (StronglySorted Q (omap g l)) as Hs by (apply IH; intros y z a b Hy Hz; apply HQ; by right).
  destruct (g x) as [a|] eqn:E; [|done]. constructor; [done|]. apply Forall_forall. intros b (y & Hy & Eb)%list_elem_of_omap.
  rewrite Forall_forall in Hx. eapply (HQ x y); eauto using list_elem_of_here, list_elem_of_further.
Qed.

Lemma sorted_reverse {A} (R : relation A) l : StronglySorted R l -> StronglySorted (flip R) (reverse l).
Proof.
  induction 1 as [|x l Hl IH Hx]; [constructor|]. rewrite reverse_cons. apply sorted_snoc; [done|].
  apply Forall_reverse. done.
Qed.

Lemma sorted_sub {A} (R : relation A) (P : A -> Prop) `{!forall x, Decision (P x)} l : StronglySorted R l -> StronglySorted R (filter P l).
Proof.
  induction 1 as [|x l Hl IH Hx]; [constructor|]. rewrite filter_cons. case_decide; [|done]. constructor; [done|].
  by apply Forall_filter.
Qed.

Lemma sorted_mono {A} (R Q : relation A) l : (forall x y, x ∈ l -> y ∈ l -> R x y -> Q x y) -> StronglySorted R l -> StronglySorted Q l.
Proof.
  intros HRQ Hl. induction Hl as [|x l Hl IH Hx]; [constructor|]. constructor; [apply IH; intros y z Hy Hz; apply HRQ; by right|].
  apply Forall_forall. intros y Hy. rewrite Forall_forall in Hx. apply HRQ; [left|by right|by apply Hx].
Qed.

Lemma filter_iff_in {A} (P Q : A -> Prop) `{!forall x, Decision (P x)} `{!forall x, Decision (Q x)} (l : list A) :
  (forall x, x ∈ l -> P x <-> Q x) -> filter P l = filter Q l.
Proof.
  induction l as [|x l IH]; intros HPQ; [done|]. rewrite !filter_cons, IH by (intros y Hy; apply HPQ; by right).
  specialize (HPQ x ltac:(left)). repeat case_decide; tauto.
Qed.

(** A weakly sorted list without repeated keys is strictly sorted. *)
Lemma sorted_strict {A} (R Q : relation A) l :
  (forall x y, x ∈ l -> y ∈ l -> R x y -> x <> y -> Q x y) -> NoDup l -> StronglySorted R l -> StronglySorted Q l.
Proof.
  intros HQ Hnd Hl. induction Hl as [|x l Hl IH Hx]; [constructor|]. apply NoDup_cons in Hnd as [Hx' Hnd].
  constructor; [apply IH; [intros y z Hy Hz; apply HQ; by right|done]|]. apply Forall_forall. intros y Hy.
  rewrite Forall_forall in Hx. apply HQ; [left|by right|by apply Hx|]. by intros ->.
Qed.

(** ** Scans of a tree *)

#[export] Instance key_le_trans : Transitive key_le.
Proof. intros a b c. apply lex_le_trans. Qed.
#[export] Instance key_le_total : Total key_le.
Proof. intros a b. unfold key_le. destruct (lex_total a.1 b.1) as [?|[->|?]]; auto using lex_lt_le, lex_le_refl. Qed.

Lemma elem_tree_sorted t k v : (k, v) ∈ tree_sorted t <-> t !! k = Some v.
Proof. unfold tree_sorted. by rewrite merge_sort_Permutation, elem_of_map_to_list. Qed.

Lemma tree_sorted_sorted t : kv_sorted (tree_sorted t).
Proof.
  apply (sorted_strict key_le kv_lt).
  - intros [k v] [k' v'] Hx Hy Hle Hne. apply elem_tree_sorted in Hx, Hy. unfold key_le, kv_lt in *. cbn [fst] in *.
    apply lex_le_lt_or_eq in Hle as [?| ->]; [done|]. congruence.
  - unfold tree_sorted. rewrite merge_sort_Permutation. apply NoDup_map_to_list.
  - apply StronglySorted_merge_sort; apply _.
Qed.

Lemma between_prefix p a b : p ≼ a -> a ≼ b -> starts_with b p = true -> starts_with a p = true.
Proof.
  rewrite !starts_with_spec. intros Hpa Hab [r ->]. revert a Hpa Hab. induction p as [|x p IH]; intros a Hpa Hab; [by exists a|].
  destruct a as [|y a]; [by destruct Hpa|]. cbn [app] in *. apply lex_le_cons in Hpa, Hab.
  destruct Hpa as [|[-> Hpa]]; [lia|]. destruct Hab as [|[_ Hab]]; [lia|]. destruct (IH a Hpa Hab) as [q ->]. by exists q.
Qed.

(** A scan visits the entries of its prefix past the resume key. *)
Lemma tree_scan_range t prefix after rev :
  (forall c, after = Some c -> starts_with c prefix = true) -> (forall k v, t !! k = Some v -> bytes k) ->
  tree_scan t prefix after rev = range_entries prefix after rev (tree_sorted t).
Proof.
  intros Hc Hb. unfold tree_scan, range_entries.
  set (l := filter (fun e => in_scan prefix after rev e.1) (tree_sorted t)).
  assert (filter (fun e : kv => starts_with e.1 prefix = true /\ past_cursor rev after e.1) (tree_sorted t) =
          filter (fun e : kv => starts_with e.1 prefix = true) l) as ->.
  { unfold l. rewrite list_filter_filter. apply filter_iff_in. intros [k v] Hk%elem_tree_sorted. cbn [fst].
    split; intros [Hs Hin]; (split; [done|]); revert Hin; unfold past_cursor, in_scan.
    all: destruct after as [c|]; [by destruct rev|].
    all: apply (prefix_upper_bound_spec prefix k (Hb k v Hk)) in Hs as [Hs1 Hs2]; by destruct rev. }
  assert (Forall (fun e : kv => in_scan prefix after rev e.1 /\ bytes e.1) l) as Hl.
  { apply Forall_forall. intros [k v] [Hk Hin]%list_elem_of_filter. apply elem_tree_sorted in Hin. by split; [|eapply Hb]. }
  assert (kv_sorted l) as Hs by (apply sorted_sub, tree_sorted_sorted). clearbody l.
  destruct rev.
  - rewrite take_while_filter; [apply filter_reverse|]. intros l1 e l2 E He. apply (f_equal reverse) in E.
    rewrite reverse_involutive, reverse_app, reverse_cons, <- app_assoc in E. cbn [app] in E. subst l.
    apply Forall_forall. intros x Hx. apply elem_of_reverse in Hx. apply sorted_app_inv in Hs as (_ & Hs & _).
    inversion Hs as [|? ? _ Hex]; subst. rewrite Forall_forall in Hex, Hl. specialize (Hex x Hx). unfold kv_lt in Hex.
    destruct (Hl x) as [Hin Hxb]; [apply elem_of_app; right; by right|]. destruct (Hl e) as [_ Heb]; [apply elem_of_app; right; left|].
    assert (prefix ≼ x.1) as Hpx.
    { apply lex_lt_le. eapply lex_le_lt_trans; [|exact Hex]. by apply (prefix_upper_bound_spec prefix e.1 Heb). }
    unfold in_scan in Hin. destruct after as [c|].
    + eapply between_prefix; [exact Hpx|apply lex_lt_le; exact Hin|by apply Hc].
    + by apply (prefix_upper_bound_spec prefix x.1 Hxb).
  - apply take_while_filter. intros l1 e l2 -> He. apply Forall_forall. intros x Hx. apply sorted_app_inv in Hs as (_ & _ & Hlt).
    specialize (Hlt x e Hx ltac:(left)). unfold kv_lt in Hlt. rewrite Forall_forall in Hl.
    destruct (Hl x) as [Hin _]; [apply elem_of_app; by left|]. apply (between_prefix prefix x.1 e.1); [|by apply lex_lt_le|done].
    unfold in_scan in Hin. destruct after as [c|]; [|done]. apply lex_lt_le. eapply lex_le_lt_trans; [|exact Hin].
    specialize (Hc c eq_refl). apply starts_with_spec in Hc as [r ->]. apply lex_prefix_le.
Qed.

(** ** Visitors *)

(** A visitor that looks each element up visits what the lookups find. *)
Lemma visit_omap {E S A B : Type} (wrap : S -> A -> result E (S * bool)) (visit : S -> B -> result E (S * bool)) (g : A -> option B) l s :
  (forall s x, x ∈ l -> wrap s x = match g x with Some b => visit s b | None => Ok (s, true) end) ->
  visit_entries wrap s l = visit_entries visit s (omap g l).
Proof.
  revert s. induction l as [|x l IH]; intros s Hw; [done|]. cbn [visit_entries omap list_omap].
  rewrite (Hw s x) by left. destruct (g x) as [b|]; [|apply IH; intros s' y Hy; apply Hw; by right].
  cbn [visit_entries]. destruct (visit s b) as [[s' []]|]; [|done|done]. apply IH. intros s'' y Hy. apply Hw. by right.
Qed.

(** ** Rows of an index *)

Definition live (nodes : node_map) (n : Node) : Prop := nodes !! n_address n = Some n.

(** The list of rows a scan is to produce: exactly the selected ones, in the order of their keys. *)
Definition scan_order (key : Node -> list Z) (rev : bool) (a b : Node) : Prop := if rev then key b ≺ key a else key a ≺ key b.

Section scan.
Context (nodes : node_map) (t : tree) (prefix : list Z) (key : Node -> list Z) (address_of : list Z -> option string) (sel : Node -> Prop).
Context (Hbytes : forall k v, t !! k = Some v -> bytes k).
Context (Hentry : forall k v, t !! k = Some v -> starts_with k prefix = true -> exists n, live nodes n /\ sel n /\ k = key n).
Context (Hlisted : forall n, live nodes n -> sel n -> is_Some (t !! key n) /\ starts_with (key n) prefix = true).
Context (Haddress : forall n, live nodes n -> sel n -> address_of (key n) = Some (n_address n)).

Definition row_at (kv : list Z * list Z) : option Node := address_of kv.1 ≫= (fun a => nodes !! a).

Lemma scan_rows after rev :
  (forall c, after = Some c -> starts_with c prefix = true) ->
  let rows := omap row_at (tree_scan t prefix after rev) in
  (forall n, n ∈ rows <-> live nodes n /\ sel n /\ past_cursor rev after (key n)) /\ StronglySorted (scan_order key rev) rows.
Proof.
  intros Hc rows. unfold rows. rewrite tree_scan_range by done. clear rows.
  set (l := range_entries prefix after rev (tree_sorted t)).
  assert (forall k v, (k, v) ∈ l <-> t !! k = Some v /\ starts_with k prefix = true /\ past_cursor rev after k) as Hl.
  { intros k v. unfold l, range_entries. destruct rev; rewrite ?elem_of_reverse, list_elem_of_filter, elem_tree_sorted; tauto. }
  assert (forall kv n, kv ∈ l -> row_at kv = Some n -> live nodes n /\ sel n /\ kv.1 = key n) as Hrow.
  { intros [k v] n (Hk & Hs & _)%Hl Hn. destruct (Hentry k v Hk Hs) as (m & Hm & Hsm & ->). unfold row_at in Hn. cbn [fst] in *.
    rewrite Haddress in Hn by done. cbn in Hn. unfold live in Hm. assert (n = m) as -> by congruence. done. }
  split.
  - intros n. rewrite list_elem_of_omap. split.
    + intros (kv & Hkv & Hn). destruct (Hrow kv n Hkv Hn) as (? & ? & E). split; [done|]. split; [done|]. rewrite <- E.
      destruct kv as [k v]. apply Hl in Hkv as (_ & _ & Hp). exact Hp.
    + intros (Hn & Hs & Hp). destruct (Hlisted n Hn Hs) as [[v Hv] Hpre]. exists (key n, v). split; [by apply Hl|].
      unfold row_at. cbn [fst]. by rewrite Haddress.
  - assert (StronglySorted (fun x y : kv => if rev then kv_lt y x else kv_lt x y) l) as Hs.
    { pose proof (sorted_sub kv_lt (fun e => starts_with e.1 prefix = true /\ past_cursor rev after e.1) _ (tree_sorted_sorted t)) as Hs.
      unfold l, range_entries. destruct rev; [by apply sorted_reverse|done]. }
    revert Hs. apply sorted_omap. intros x y a b Hx Hy Hxy Ha Hb. destruct (Hrow x a Hx Ha) as (_ & _ & Ea).
    destruct (Hrow y b Hy Hb) as (_ & _ & Eb). unfold scan_order, kv_lt in *. by rewrite <- Ea, <- Eb.
Qed.
End scan.

(** ** Cutting a page *)

Section page.
Context {N : Type} `{SerdeJson N}.

Definition matched (f : filters (N := N)) (n : Node) : Prop := matches f n = Ok true.
#[global] Instance matched_dec f n : Decision (matched f n).
Proof. unfold matched. destruct (matches f n) as [[]|]; [by left|by right|by right]. Defined.

(** The filter decides every node of the list. *)
Definition decides (f : filters (N := N)) (ns : list Node) : Prop := Forall (fun n => exists b, matches f n = Ok b) ns.

Lemma page_loop f to_skip limit ns nodes skipped failure examined :
  decides f ns -> skipped <= to_skip -> length nodes <= limit -> (nodes = [] \/ skipped = to_skip) ->
  exists skipped' examined',
    visit_entries (page_visit f to_skip limit) (MkPageState nodes skipped false failure examined) ns =
    Ok (MkPageState (nodes ++ take (limit - length nodes) (drop (to_skip - skipped) (filter (matched f) ns))) skipped'
          (bool_decide (limit - length nodes < length (drop (to_skip - skipped) (filter (matched f) ns)))) failure examined').
Proof.
  intros Hd. revert nodes skipped examined. induction Hd as [|n ns [b Hb] Hd IH]; intros nodes skipped examined Hsk Hlen Hor.
  - exists skipped, examined. rewrite filter_nil, !drop_nil, take_nil, app_nil_r. cbn [length visit_entries]. by rewrite bool_decide_eq_false_2 by lia.
  - cbn [visit_entries page_visit]. rewrite Hb. destruct b.
    + rewrite filter_cons_True by exact Hb. destruct (Nat.ltb_spec skipped to_skip).
      * destruct Hor as [->|]; [|lia]. replace (to_skip - skipped) with (S (to_skip - S skipped)) by lia. cbn [drop].
        apply IH; [lia|done|by left].
      * replace (to_skip - skipped) with 0 by lia. rewrite drop_0. destruct (Nat.eqb_spec (length nodes) limit) as [<-|].
        -- exists skipped, (S examined). rewrite Nat.sub_diag. cbn [take length]. rewrite app_nil_r.
           rewrite bool_decide_eq_true_2 by lia. done.
        -- destruct (IH (nodes ++ [n]) skipped (S examined)) as (sk & ex & E); [done|rewrite length_app; cbn; lia|right; lia|].
           exists sk, ex. rewrite E. replace (to_skip - skipped) with 0 by lia. rewrite drop_0, length_app. cbn [length].
           replace (limit - length nodes) with (S (limit - (length nodes + 1))) by lia. cbn [take length]. rewrite <- app_assoc. cbn [app].
           do 2 f_equal. apply bool_decide_ext. lia.
    + rewrite filter_cons_False by (unfold matched; congruence). by apply IH.
Qed.

Lemma page_loop_start f to_skip limit ns :
  decides f ns ->
  exists skipped examined,
    visit_entries (page_visit f to_skip limit) page_start ns =
    Ok (MkPageState (take limit (drop to_skip (filter (matched f) ns))) skipped
          (bool_decide (limit < length (drop to_skip (filter (matched f) ns)))) None examined).
Proof.
  intros Hd. destruct (page_loop f to_skip limit ns [] 0 None 0 Hd) as (sk & ex & E); [lia|cbn; lia|by left|].
  exists sk, ex. unfold page_start. rewrite E. cbn [app length]. by rewrite !Nat.sub_0_r.
Qed.

(** Collecting the matching rows, below the cap. *)
Lemma take_loop cap f ns candidates failure examined :
  decides f ns -> length (candidates ++ filter (matched f) ns) <= cap ->
  exists examined', visit_entries (take_row cap f) (candidates, failure, examined) ns = Ok (candidates ++ filter (matched f) ns, failure, examined').
Proof.
  intros Hd. revert candidates examined. induction Hd as [|n ns [b Hb] Hd IH]; intros candidates examined Hlen.
  - exists examined. cbn. by rewrite app_nil_r.
  - cbn [visit_entries take_row]. rewrite Hb. destruct b.
    + rewrite filter_cons_True in Hlen |- * by exact Hb. rewrite length_app in Hlen. cbn [length] in Hlen.
      destruct (Nat.leb_spec cap (length candidates)); [lia|].
      destruct (IH (candidates ++ [n]) (S examined)) as [ex E]; [rewrite !length_app; cbn [length]; lia|]. exists ex. rewrite E. by rewrite <- app_assoc.
    + rewrite filter_cons_False in Hlen |- * by (unfold matched; congruence). by apply IH.
Qed.
End page.
