(* ===== verification/QueryRows.v ===== *)
(** * The rows of a query, and what each access path visits

    The reference answer: the live nodes the filter accepts, in the order of the
    query.  Each access path visits a list of live nodes in an order of its own
    and cuts a page out of those the filter accepts; the lemmas below show, path
    by path, that what it accepts is the reference list past the cursor. *)

From Stdlib Require Import ZArith Lia SpecFloat Ascii String.
From stdpp Require Import base tactics list strings option gmap sorting.
From S2P Require Import Prelude Binary BTree BTreeCells BTreeRead Keys Json GoLower OrderKey Predicate Search Entities Wal Transaction Engine EngineRep EngineApply EngineOps Query QueryScan.

Local Open Scope key_scope.

(** ** The order of rows *)

Section order.
Context {N : Type} `{SerdeLaws N}.

(** The comparator, as a key: the two zeros are one number. *)
Definition number_key (x : f64) : Z := ordered_bits (match x with S754_zero _ => f64_zero | _ => x end).

Definition value_key (v : option (value N)) : list Z :=
  type_rank v ::
  match v with
  | Some (JNumber n) => [number_key (f64_or_zero n)]
  | _ => tail (encode_value_body v)
  end.

Lemma number_key_cmp x y : usable x -> usable y -> SFcompare x y = Some (number_key x ?= number_key y)%Z.
Proof.
  intros Hx Hy. unfold number_key, f64_zero. rewrite <- ordered_bits_cmp.
  - by destruct x, y.
  - by destruct x.
  - by destruct y.
  - unfold negative_zero. by destruct x.
  - unfold negative_zero. by destruct y.
Qed.

Lemma value_key_cmp a b : lex_cmp (value_key a) (value_key b) = compare_order_values a b.
Proof.
  unfold value_key, compare_order_values. cbn [lex_cmp]. destruct (type_rank a ?= type_rank b)%Z eqn:E; try done.
  destruct a as [[|x|n|s|l|l]|], b as [[|y|n'|s'|l'|l']|]; try discriminate E; try done.
  - by destruct x, y.
  - rewrite number_key_cmp by apply f64_or_zero_usable. cbn [lex_cmp]. by destruct (number_key (f64_or_zero n) ?= number_key (f64_or_zero n'))%Z.
Qed.

#[global] Instance row_le_trans o : Transitive (row_le (N := N) o).
Proof.
  assert (forall a b, row_cmp (N := N) o a b = match match o with Some f => lex_cmp (value_key (order_key a f)) (value_key (order_key b f)) | None => Eq end with
    Eq => lex_cmp (as_bytes (n_address a)) (as_bytes (n_address b)) | c => c end) as E.
  { intros a b. unfold row_cmp, compare_order_keys. destruct o; [|done]. by rewrite value_key_cmp. }
  intros a b c. unfold row_le. rewrite !E. destruct o as [f|]; [|apply lex_le_trans].
  generalize (value_key (order_key a f)), (value_key (order_key b f)), (value_key (order_key c f)). intros x y z.
  generalize (as_bytes (n_address a)), (as_bytes (n_address b)), (as_bytes (n_address c)). intros p q r.
  destruct (lex_total x y) as [Hxy|[<-|Hxy]].
  - rewrite Hxy. intros _. destruct (lex_total y z) as [Hyz|[<-|Hyz]].
    + intros _. by rewrite (lex_lt_trans _ _ _ Hxy Hyz).
    + intros _. by rewrite Hxy.
    + apply lex_gt_lt in Hyz. by rewrite Hyz.
  - rewrite lex_cmp_refl. intros Hpq. destruct (lex_cmp x z); [|done|done]. by apply lex_le_trans.
  - apply lex_gt_lt in Hxy. by rewrite Hxy.
Qed.

#[global] Instance row_le_total o : Total (row_le (N := N) o).
Proof.
  intros a b. unfold row_le, row_cmp, compare_order_keys.
  rewrite (lex_cmp_antisym (as_bytes (n_address a)) (as_bytes (n_address b))).
  destruct o as [f|]; [|destruct (lex_cmp _ _); auto].
  rewrite <- !value_key_cmp, (lex_cmp_antisym (value_key (order_key a f)) (value_key (order_key b f))).
  destruct (lex_cmp (value_key _) _); cbn [CompOpp]; [destruct (lex_cmp _ _); auto|by left|by right].
Qed.

(** A key for the order of rows; for an order by a field it is the key of a declared index. *)
Definition row_key (o : option string) (n : Node) : list Z :=
  match o with Some f => data_key (order_key n f) (as_bytes (n_address n)) | None => as_bytes (n_address n) end.

Definition plain_row (o : option string) (n : Node) : Prop := match o with Some f => plain (order_key n f) | None => True end.

Lemma row_key_cmp o a b : plain_row o a -> plain_row o b -> row_cmp (N := N) o a b = lex_cmp (row_key o a) (row_key o b).
Proof.
  unfold row_cmp, row_key, compare_order_keys. destruct o as [f|]; cbn [plain_row]; [|done]. intros Ha Hb. by rewrite data_key_cmp.
Qed.

Lemma row_key_inj o a b : row_key o a = row_key o b -> n_address a = n_address b.
Proof.
  unfold row_key. intros E. apply as_bytes_inj. destruct o as [f|]; [|done]. by apply encode_body_inj in E as [_ E].
Qed.
End order.

(** ** The reference answer *)

Section rows.
Context {St : Type} `{RecordStoreLaws St} {N : Type} `{SerdeLaws N} `{CursorJson N}.
Implicit Types (e : engine (St := St)) (d : logical) (f : filters (N := N)).

Definition rows d f (o : option string) (desc : bool) : list Node :=
  let l := merge_sort (row_le o) (filter (matched f) (map snd (map_to_list (l_nodes d)))) in
  if desc then reverse l else l.

(** Strictly past a row, in the direction of the query. *)
Definition past_row (o : option string) (desc : bool) (r : option Node) (n : Node) : Prop :=
  match r with None => True | Some r => row_cmp (N := N) o n r = if desc then Lt else Gt end.

#[global] Instance past_row_dec o desc r n : Decision (past_row o desc r n).
Proof. unfold past_row. destruct r; apply _. Defined.

(** No number of the document is the negative zero. *)
Definition zero_free (n : Node) : Prop := forall v : value N, from_str (n_data n) = Some v -> no_neg_zero v.

(** What a query must satisfy for its plans to agree: the predicate decides every live node, no number
    is the negative zero, a folded text index covers text, and the names fit a key component. *)
Record answerable e d f : Prop := {
  ans_decides : forall n, live (l_nodes d) n -> exists b, matches f n = Ok b;
  ans_zero : forall n, live (l_nodes d) n -> zero_free n;
  ans_literal : forall p field lit, f_predicate f = Some p -> equality_literal p (f_item_var f) field = Some lit -> no_neg_zero lit;
  ans_text : forall name td t n, e_text e !! name = Some (td, t) -> t_folded td = true -> live (l_nodes d) n -> matched f n ->
    n_kind n = t_kind td -> exists s, get_field (node_data (N := N) n) (t_field td) = Some (JString s);
  ans_kind : forall k, f_kind f = Some k -> short (as_bytes k);
  ans_owner : forall k, f_owner f = Some k -> short (as_bytes k);
}.

Lemma field_of_data n field : get_field (node_data (N := N) n) field = order_key n field.
Proof. unfold node_data, order_key. by destruct (from_str (n_data n)). Qed.

Lemma no_neg_zero_field (v w : value N) field : no_neg_zero v -> get_field v field = Some w -> no_neg_zero w.
Proof.
  destruct v as [| | | | |l]; cbn [get_field]; try done. induction l as [|[k x] l IH]; cbn [assoc]; [done|].
  intros [Hx Hl]. destruct (String.eqb field k); [by intros [= ->]|by apply IH].
Qed.

Lemma zero_free_plain n o : zero_free n -> plain_row (N := N) o n.
Proof.
  intros Hz. destruct o as [field|]; [|done]. cbn [plain_row]. unfold order_key. destruct (from_str (n_data n)) as [v|] eqn:E; [|done].
  cbn [mbind option_bind]. destruct (get_field v field) as [w|] eqn:Ew; [|done].
  pose proof (no_neg_zero_field v w field (Hz v E) Ew) as Hw. by destruct w.
Qed.

Lemma zero_free_value n field : zero_free n -> no_neg_zero (field_value (node_data (N := N) n) field).
Proof.
  intros Hz. unfold field_value. rewrite field_of_data. unfold order_key. destruct (from_str (n_data n)) as [v|] eqn:E; [|done].
  cbn [mbind option_bind]. destruct (get_field v field) as [w|] eqn:Ew; [|done]. exact (no_neg_zero_field v w field (Hz v E) Ew).
Qed.

Lemma scan_order_asym key rev x y : scan_order key rev x y -> scan_order key rev y x -> False.
Proof. unfold scan_order. destruct rev; intros Hx Hy; apply (lex_lt_irrefl (key x)); eapply lex_lt_trans; eassumption. Qed.

Lemma scan_order_irrefl key rev x : ~ scan_order key rev x x.
Proof. intros Hx. by eapply scan_order_asym. Qed.

Lemma live_elem e d n : consistent (N := N) e d -> n ∈ map snd (map_to_list (l_nodes d)) <-> live (l_nodes d) n.
Proof.
  intros Hc. split.
  - intros ([a m] & -> & Hm)%list_elem_of_fmap. cbn [snd]. apply elem_of_map_to_list in Hm. destruct (c_nodes _ _ Hc a m Hm) as [<- _]. exact Hm.
  - intros Hn. apply list_elem_of_fmap. exists (n_address n, n). split; [done|]. by apply elem_of_map_to_list.
Qed.

(** Sorting any enumeration of the matching nodes gives the reference list. *)
Lemma sorted_candidates o desc l :
  NoDup l -> (forall x y, x ∈ l -> y ∈ l -> n_address x = n_address y -> x = y) -> (forall n, n ∈ l -> plain_row (N := N) o n) ->
  let s := merge_sort (row_le (N := N) o) l in
  StronglySorted (scan_order (row_key (N := N) o) desc) (if desc then reverse s else s).
Proof.
  intros Hnd Hinj Hp s. assert (StronglySorted (scan_order (row_key (N := N) o) false) s) as Hs.
  { apply (sorted_strict (row_le (N := N) o)).
    - intros x y Hx Hy Hle Hne. unfold s in Hx, Hy. rewrite merge_sort_Permutation in Hx, Hy. unfold row_le in Hle.
      rewrite row_key_cmp in Hle by auto. unfold scan_order. apply lex_le_lt_or_eq in Hle as [|E]; [done|].
      destruct Hne. apply Hinj; [done|done|]. by eapply row_key_inj.
    - unfold s. by rewrite merge_sort_Permutation.
    - apply StronglySorted_merge_sort; apply _. }
  destruct desc; [|done]. by apply sorted_reverse in Hs.
Qed.

Section reference.
Context e d f (Hc : consistent (N := N) e d) (Ha : answerable e d f).

Lemma matching_enumeration l :
  NoDup l -> (forall n, n ∈ l <-> live (l_nodes d) n /\ matched f n) -> forall o desc,
  let s := merge_sort (row_le (N := N) o) l in
  StronglySorted (scan_order (row_key (N := N) o) desc) (if desc then reverse s else s).
Proof.
  intros Hnd Hl o desc. apply sorted_candidates; [done| |].
  - intros x y [Hx _]%Hl [Hy _]%Hl E. unfold live in *. congruence.
  - intros n [Hn _]%Hl. by apply zero_free_plain, (ans_zero _ _ _ Ha).
Qed.

Lemma nodes_enumeration : NoDup (filter (matched f) (map snd (map_to_list (l_nodes d)))) /\
  forall n, n ∈ filter (matched f) (map snd (map_to_list (l_nodes d))) <-> live (l_nodes d) n /\ matched f n.
Proof.
  split.
  - apply NoDup_filter. apply NoDup_fmap_2_strong; [|apply NoDup_map_to_list].
    intros [a n] [b m] Hn Hm E. cbn [snd] in E. subst m. apply elem_of_map_to_list in Hn, Hm.
    destruct (c_nodes _ _ Hc a n Hn) as [<- _], (c_nodes _ _ Hc b n Hm) as [<- _]. done.
  - intros n. rewrite list_elem_of_filter, (live_elem e d n Hc). tauto.
Qed.

Lemma elem_rows o desc n : n ∈ rows d f o desc <-> live (l_nodes d) n /\ matched f n.
Proof. unfold rows. destruct desc; rewrite ?elem_of_reverse, merge_sort_Permutation; apply nodes_enumeration. Qed.

Lemma rows_sorted o desc : StronglySorted (scan_order (row_key (N := N) o) desc) (rows d f o desc).
Proof. unfold rows. apply matching_enumeration; apply nodes_enumeration. Qed.

(** A path that visits live nodes in the order of the query, every matching one past the cursor among
    them, accepts the reference list past the cursor. *)
Lemma path_rows ns o desc r :
  (forall n, n ∈ ns -> live (l_nodes d) n) -> StronglySorted (scan_order (row_key (N := N) o) desc) ns ->
  (forall n, live (l_nodes d) n -> matched f n -> n ∈ ns <-> past_row o desc r n) ->
  filter (matched f) ns = filter (past_row o desc r) (rows d f o desc).
Proof.
  intros Hlive Hs Hin. apply (sorted_ext (scan_order (row_key (N := N) o) desc)).
  - apply scan_order_irrefl.
  - apply scan_order_asym.
  - by apply sorted_sub.
  - apply sorted_sub, rows_sorted.
  - intros n. rewrite !list_elem_of_filter, elem_rows. split; [intros [Hm Hn]|intros [Hp [Hn Hm]]].
    + split; [|by split; [apply Hlive|]]. by apply Hin; [apply Hlive| |].
    + split; [done|]. by apply Hin.
Qed.

Lemma live_decides ns : (forall n, n ∈ ns -> live (l_nodes d) n) -> decides f ns.
Proof. intros Hl. apply Forall_forall. intros n Hn. by apply (ans_decides _ _ _ Ha), Hl. Qed.
End reference.
End rows.
