(* ===== verification/QueryPaths.v ===== *)
(** * What each access path visits

    The candidates of the built-in indexes, the entries of a declared index
    under a prefix and the candidates of an inverted index, as lists of live
    nodes: which ones, and in which order. *)

From Stdlib Require Import ZArith Lia SpecFloat Ascii String.
From stdpp Require Import base tactics list strings option gmap sorting.
From S2P Require Import Prelude Binary BTree BTreeCells BTreeRead Keys Json GoLower OrderKey Predicate Search Entities Wal Transaction Engine EngineRep EngineApply EngineOps Query QueryScan QueryRows.

Local Open Scope key_scope.

Section paths.
Context {St : Type} `{RecordStoreLaws St} {N : Type} `{SerdeLaws N} `{CursorJson N}.
Implicit Types (e : engine (St := St)) (d : logical) (f : filters (N := N)).

Lemma fetch_run e d a : consistent (N := N) e d -> fetch e a = Ok (l_nodes d !! a).
Proof. intros Hc. unfold fetch. by rewrite (read_node_run e (l_nodes d) a) by apply Hc. Qed.

Lemma keyed_nodes e d : consistent (N := N) e d -> forall a n, l_nodes d !! a = Some n -> n_address n = a.
Proof. intros Hc a n Hn. by destruct (c_nodes _ _ Hc a n Hn). Qed.

(** ** Candidates of a built-in index *)

Lemma prefixed_past prefix rev (after : option string) a :
  past_cursor rev ((fun a => prefix ++ as_bytes a) <$> after) (prefix ++ as_bytes a) <-> past_cursor rev (as_bytes <$> after) (as_bytes a).
Proof. destruct after as [c|]; [|done]. cbn [fmap option_fmap option_map past_cursor]. unfold lex_lt. by destruct rev; rewrite lex_cmp_app. Qed.

(** Which nodes the narrowest built-in index lists. *)
Definition source (kind owner : option string) (n : Node) : Prop :=
  match kind, owner with
  | Some k, _ => n_kind n = k
  | None, Some o => n_owner n = o
  | None, None => True
  end.

(** The members of a membership index under one component, as rows in address order. *)
Lemma component_rows e d (i : builtin) (entries : Node -> list (list Z)) (part : Node -> string) (c : string) (after : option string) rev :
  consistent (N := N) e d -> members entries (l_nodes d) (e_trees e i) -> short (as_bytes c) ->
  (forall n, entries n = [component (as_bytes (part n)) ++ as_bytes (n_address n)]) ->
  (forall n, live (l_nodes d) n -> short (as_bytes (part n))) ->
  let prefix := component (as_bytes c) in
  let ns := omap (fun kv => l_nodes d !! key_address kv.1 prefix) (tree_scan (e_trees e i) prefix ((fun a => prefix ++ as_bytes a) <$> after) rev) in
  (forall n, n ∈ ns <-> live (l_nodes d) n /\ part n = c /\ past_cursor rev (as_bytes <$> after) (as_bytes (n_address n))) /\
  StronglySorted (scan_order (row_key (N := N) None) rev) ns.
Proof.
  intros Hc Hm Hs Hent Hshort prefix ns.
  destruct (scan_rows (l_nodes d) (e_trees e i) prefix (fun n => prefix ++ as_bytes (n_address n))
    (fun k => Some (key_address k prefix)) (fun n => part n = c)) with (after := (fun a => prefix ++ as_bytes a) <$> after) (rev := rev) as [Hin Hsort].
  - intros k v [_ (a & n & _ & Hk)]%Hm. rewrite Hent in Hk. apply list_elem_of_singleton in Hk as ->.
    apply Forall_app. split; [apply component_bytes|]; apply as_bytes_bytes.
  - intros k v [_ (a & n & Hn & Hk)]%Hm Hp. rewrite Hent in Hk. apply list_elem_of_singleton in Hk as ->.
    assert (live (l_nodes d) n) as Hl by (unfold live; by rewrite (keyed_nodes e d Hc a n Hn)).
    exists n. apply component_prefix in Hp; [|by apply Hshort|done]. apply as_bytes_inj in Hp. by rewrite Hp.
  - intros n Hn Hp. split.
    + exists []. apply Hm. split; [done|]. exists (n_address n), n. rewrite Hent, Hp. split; [done|left].
    + apply starts_with_spec. by exists (as_bytes (n_address n)).
  - intros n _ _. unfold key_address. rewrite length_app, Nat.min_l by lia. by rewrite drop_app_length, string_of_as_bytes.
  - intros x E. destruct after as [a|]; [|done]. injection E as <-. apply starts_with_spec. by exists (as_bytes a).
  - change (omap _ (tree_scan _ _ _ _)) with ns in Hin, Hsort. split.
    + intros n. rewrite Hin. by rewrite prefixed_past.
    + eapply sorted_mono; [|exact Hsort]. intros x y _ _. unfold scan_order, row_key, lex_lt. by rewrite !lex_cmp_app.
Qed.

(** The candidates of a query, as a list. *)
Lemma candidates_rows e d (kind owner after : option string) rev :
  consistent (N := N) e d -> (forall k, kind = Some k -> short (as_bytes k)) -> (forall k, owner = Some k -> short (as_bytes k)) ->
  exists ns,
    (forall S (visit : S -> Node -> result error_kind (S * bool)) s, scan_candidates e kind owner after rev visit s = visit_entries visit s ns) /\
    (forall n, n ∈ ns <-> live (l_nodes d) n /\ source kind owner n /\ past_cursor rev (as_bytes <$> after) (as_bytes (n_address n))) /\
    StronglySorted (scan_order (row_key (N := N) None) rev) ns.
Proof.
  intros Hc Hk Ho.
  assert (forall i prefix, exists ns,
    ns = omap (fun kv : kv => l_nodes d !! key_address kv.1 prefix) (tree_scan (e_trees e i) prefix ((fun a => prefix ++ as_bytes a) <$> after) rev) /\
    forall S (visit : S -> Node -> result error_kind (S * bool)) s,
      visit_entries (fun s kv => n ← fetch e (key_address kv.1 prefix); match n with Some n => visit s n | None => Ok (s, true) end) s
        (tree_scan (e_trees e i) prefix ((fun a => prefix ++ as_bytes a) <$> after) rev) = visit_entries visit s ns) as Hthrough.
  { intros i prefix. eexists. split; [reflexivity|]. intros S visit s. apply visit_omap. intros s' x _. rewrite (fetch_run e d) by done. done. }
  unfold scan_candidates. destruct kind as [k|]; [|destruct owner as [o|]].
  - destruct (Hthrough Kind (kind_prefix (as_bytes k))) as (ns & E & Hv). exists ns. split; [exact Hv|]. subst ns.
    apply (component_rows e d Kind kind_entries n_kind); [done|apply Hc|by apply Hk|done|].
    intros n Hn. destruct (c_nodes _ _ Hc _ n Hn) as [_ Hok]. by apply node_ok_spec in Hok as ((_ & ? & _) & _).
  - destruct (Hthrough Owner (owner_prefix (as_bytes o))) as (ns & E & Hv). exists ns. split; [exact Hv|]. subst ns.
    apply (component_rows e d Owner owner_entries n_owner); [done|apply Hc|by apply Ho|done|].
    intros n Hn. destruct (c_nodes _ _ Hc _ n Hn) as [_ Hok]. by apply node_ok_spec in Hok as ((_ & _ & ?) & _).
  - destruct (c_primary _ _ Hc) as [Hl1 Hl2].
    exists (omap (fun kv : kv => l_nodes d !! string_of_bytes kv.1) (tree_scan (e_trees e Primary) [] (as_bytes <$> after) rev)). split.
    + intros S visit s. apply visit_omap. intros s' [k v] Hk'. cbn [fst snd].
      assert (e_trees e Primary !! k = Some v) as Hkv.
      { unfold tree_scan in Hk'. assert (forall l : list kv, (k, v) ∈ take_while [] l -> (k, v) ∈ l) as Htw.
        { induction l as [|x l IH]; cbn [take_while]; [done|]. destruct (starts_with _ _); [|by intros ?%not_elem_of_nil].
          intros [->|Hin]%elem_of_cons; [left|right; by apply IH]. }
        apply Htw in Hk'. destruct rev; rewrite ?elem_of_reverse in Hk'; by apply list_elem_of_filter in Hk' as [_ Hk'%elem_tree_sorted]. }
      destruct (Hl2 k v Hkv) as (a & -> & n & Hn). rewrite string_of_as_bytes.
      pose proof (read_located e (l_nodes d) a (c_primary _ _ Hc)) as Hr. rewrite Hn in Hr |- *.
      destruct (Hl1 a n Hn) as (l & Hlok & Ht & Hread). rewrite Ht in Hkv. injection Hkv as <-.
      rewrite location_decode_encode by done. cbn [mbind result_bind]. unfold fetch_at, node_at, gets, lift, mbind, m_bind. by rewrite Hread.
    + destruct (scan_rows (l_nodes d) (e_trees e Primary) [] (fun n => as_bytes (n_address n)) (fun k => Some (string_of_bytes k)) (fun _ => True))
        with (after := as_bytes <$> after) (rev := rev) as [Hin Hsort]; [| | | | |exact (conj Hin Hsort)].
      * intros k v (a & -> & _)%Hl2. apply as_bytes_bytes.
      * intros k v (a & -> & n & Hn)%Hl2 _. exists n. unfold live. by rewrite (keyed_nodes e d Hc a n Hn).
      * intros n Hn _. destruct (Hl1 _ n Hn) as (l & _ & Ht & _). split; [eauto|done].
      * intros n _ _. by rewrite string_of_as_bytes.
      * done.
Qed.

(** ** Entries of a declared index *)

Lemma escape_bytes l : bytes l -> bytes (escape l).
Proof.
  induction 1 as [|b l Hb Hl IH]; [done|]. cbn [escape]. destruct (b =? 0)%Z; repeat (apply Forall_cons_2; [unfold is_byte in *; lia|]); done.
Qed.

Lemma data_key_bytes (v : option (value N)) a : bytes a -> bytes (data_key v a).
Proof.
  intros Ha. unfold data_key, encode_order_value, append_escaped. repeat apply Forall_app_2; try done.
  - apply escape_bytes, encode_body_bytes.
  - repeat constructor; unfold is_byte; lia.
Qed.

Lemma data_entry_key def n k : k ∈ data_entries (N := N) def n <-> n_kind n = def_kind def /\ k = row_key (N := N) (Some (def_field def)) n.
Proof.
  unfold data_entries. destruct (String.eqb_spec (def_kind def) (n_kind n)) as [->|Hne].
  - rewrite list_elem_of_singleton. split; [by intros ->|by intros [_ ->]].
  - rewrite elem_of_nil. split; [done|]. intros [? _]. by destruct Hne.
Qed.

Lemma data_rows e d name def t prefix after rev :
  consistent (N := N) e d -> e_data e !! name = Some (def, t) -> (forall c, after = Some c -> starts_with c prefix = true) ->
  exists ns,
    (forall S (visit : S -> Node -> result error_kind (S * bool)) s,
       visit_entries (visit_data_entry e visit) s (tree_scan t prefix after rev) = visit_entries visit s ns) /\
    (forall n, n ∈ ns <-> live (l_nodes d) n /\ (n_kind n = def_kind def /\ starts_with (row_key (N := N) (Some (def_field def)) n) prefix = true) /\
       past_cursor rev after (row_key (N := N) (Some (def_field def)) n)) /\
    StronglySorted (scan_order (row_key (N := N) (Some (def_field def))) rev) ns.
Proof.
  intros Hc Hi Hafter. destruct (c_data _ _ Hc name def t Hi) as [Hm _]. unfold members in Hm.
  exists (omap (row_at (l_nodes d) (fun k => string_of_bytes <$> address_from_data_key k)) (tree_scan t prefix after rev)).
  split; [|apply (scan_rows _ _ _ _ _ (fun n => n_kind n = def_kind def /\ starts_with (row_key (N := N) (Some (def_field def)) n) prefix = true))].
  - intros S visit s. apply visit_omap. intros s' kv _. unfold visit_data_entry, row_at.
    destruct (address_from_data_key kv.1) as [raw|]; [|done]. rewrite (fetch_run e d) by done. done.
  - intros k v [_ (a & n & _ & [_ ->]%data_entry_key)]%Hm. apply data_key_bytes, as_bytes_bytes.
  - intros k v [_ (a & n & Hn & [Hk ->]%data_entry_key)]%Hm Hp. exists n. split; [|done]. unfold live. by rewrite (keyed_nodes e d Hc a n Hn).
  - intros n Hn [Hk Hp]. split; [|done]. exists []. apply Hm. split; [done|]. exists (n_address n), n. split; [done|]. by apply data_entry_key.
  - intros n _ _. unfold row_key. rewrite data_key_roundtrip. cbn. by rewrite string_of_as_bytes.
  - done.
Qed.

Lemma elem_data_indexes e def t : (def, t) ∈ data_indexes e <-> exists name, e_data e !! name = Some (def, t).
Proof.
  unfold data_indexes. rewrite merge_sort_Permutation. split.
  - intros ([name x] & -> & Hin)%list_elem_of_fmap. exists name. by apply elem_of_map_to_list in Hin.
  - intros [name Hn]. apply list_elem_of_fmap. exists (name, (def, t)). split; [done|]. by apply elem_of_map_to_list.
Qed.

Lemma elem_text_indexes e def t : (def, t) ∈ text_indexes e <-> exists name, e_text e !! name = Some (def, t).
Proof.
  unfold text_indexes. rewrite merge_sort_Permutation. split.
  - intros ([name x] & -> & Hin)%list_elem_of_fmap. exists name. by apply elem_of_map_to_list in Hin.
  - intros [name Hn]. apply list_elem_of_fmap. exists (name, (def, t)). split; [done|]. by apply elem_of_map_to_list.
Qed.

Lemma data_find_spec e kind field def t : data_find e kind field = Some (def, t) ->
  (exists name, e_data e !! name = Some (def, t)) /\ def_kind def = kind /\ def_field def = field.
Proof.
  unfold data_find. destruct (find _ _) as [[name [d' t']]|] eqn:E; [|done]. intros [= -> ->].
  apply find_some in E as [Hin [Hk Hf]%andb_prop]. cbn [snd fst] in *. apply String.eqb_eq in Hk, Hf. split; [|done].
  exists name. by apply elem_of_map_to_list, list_elem_of_In.
Qed.

(** The equality selection: an index of the kind, and the literal the predicate pins its field to. *)
Lemma equality_selection_spec e f def t lit : equality_selection e f = Some (def, t, lit) ->
  exists name k p, e_data e !! name = Some (def, t) /\ f_kind f = Some k /\ f_predicate f = Some p /\ def_kind def = k /\
    equality_literal p (f_item_var f) (def_field def) = Some lit.
Proof.
  unfold equality_selection. destruct (f_kind f) as [k|]; [|done]. destruct (f_predicate f) as [p|]; [|done]. intros E.
  assert (forall l, (forall x, x ∈ l -> x ∈ data_indexes e) -> first_equality k p (f_item_var f) l = Some (def, t, lit) ->
    (def, t) ∈ data_indexes e /\ def_kind def = k /\ equality_literal p (f_item_var f) (def_field def) = Some lit) as Hl.
  { induction l as [|[d' t'] l IH]; intros Hsub; cbn [first_equality]; [done|]. specialize (IH ltac:(intros x Hx; apply Hsub; by right)).
    destruct (String.eqb_spec (def_kind d') k) as [Hk|]; [|done]. cbn [negb].
    destruct (equality_literal p (f_item_var f) (def_field d')) eqn:El; [|done]. intros [= -> -> ->].
    split; [apply Hsub; left|done]. }
  destruct (Hl (data_indexes e) ltac:(done) E) as ([name Hn]%elem_data_indexes & ? & ?). exists name, k, p. done.
Qed.

(** A node the filter accepts is of the kind and the owner asked for, and the predicate is true of it. *)
Lemma matched_facts f n : matched f n ->
  (forall k, f_kind f = Some k -> n_kind n = k) /\ (forall o, f_owner f = Some o -> n_owner n = o) /\
  (forall p, f_predicate f = Some p -> eval p (f_item_var f) (node_data (N := N) n) = Ok (JBool true)).
Proof.
  unfold matched, matches. destruct (selected f n) eqn:Hs; cbn [negb]; [|done]. intros Hm. unfold selected in Hs.
  apply andb_prop in Hs as [[Hk Ho]%andb_prop _]. split; [|split].
  - intros k Ek. rewrite Ek in Hk. by apply String.eqb_eq in Hk.
  - intros o Eo. rewrite Eo in Ho. by apply String.eqb_eq in Ho.
  - intros p Ep. rewrite Ep in Hm. destruct (eval p _ _) as [v|]; [|done]. by destruct v as [|[]| | | |].
Qed.

Lemma matched_source f n : matched f n -> source (f_kind f) (f_owner f) n.
Proof.
  intros (Hk & Ho & _)%matched_facts. unfold source. destruct (f_kind f) as [k|]; [by apply Hk|]. destruct (f_owner f) as [o|]; [by apply Ho|done].
Qed.
End paths.
