(* ===== verification/QueryText.v ===== *)
(** * The candidates of an inverted index

    However the hunt for a seed, the probes and their budgets go, the candidates
    of a substring plan are an ascending list of addresses that holds every live
    node the filter accepts. *)

From Stdlib Require Import ZArith Lia SpecFloat Ascii String.
From stdpp Require Import base tactics list strings option gmap sorting.
From S2P Require Import Prelude Binary BTree BTreeCells BTreeRead Keys Json GoLower OrderKey Predicate Search Entities Wal Transaction Engine EngineRep EngineApply EngineOps Query QueryScan QueryRows QueryPaths.

Local Open Scope key_scope.

(** ** Posting lists *)

Section postings.
Context (t : tree) (Hbytes : forall k v, t !! k = Some v -> bytes k).

(** The tree lists the address under the trigram. *)
Definition posted (gram : list Z) (a : string) : Prop := is_Some (t !! text_key gram (as_bytes a)).

Definition posting_step (limit : nat) (s : gset string * nat * bool) (kv : list Z * list Z) : result unit (gset string * nat * bool * bool) :=
  let '(addresses, read, over) := s in
  if limit <=? read then Ok (addresses, read, true, false)
  else
    Ok (match address_from_key kv.1 with
        | Some raw => {[string_of_bytes raw]} ∪ addresses
        | None => addresses
        end, S read, over, true).

Lemma read_loop_complete limit l s read s' read' :
  visit_entries (posting_step limit) (s, read, false) l = Ok (s', read', false) ->
  s ⊆ s' /\ forall kv raw, kv ∈ l -> address_from_key kv.1 = Some raw -> string_of_bytes raw ∈ s'.
Proof.
  revert s read. induction l as [|kv l IH]; intros s read; cbn [visit_entries posting_step].
  - intros [= <- <-]. split; [done|]. by intros kv raw ?%not_elem_of_nil.
  - destruct (limit <=? read); [done|]. intros [Hsub Hin]%IH. split.
    + destruct (address_from_key kv.1); [|done]. intros a Ha. apply Hsub, elem_of_union. by right.
    + intros kv' raw [->|Hkv]%elem_of_cons Hraw; [|by eapply Hin]. rewrite Hraw in Hsub. apply Hsub, elem_of_union. left. by apply elem_of_singleton.
Qed.

Lemma read_postings_complete gram limit s read a :
  read_postings t gram limit = (s, read, false) -> length gram = GRAM_LEN -> a <> EmptyString -> posted gram a -> a ∈ s.
Proof.
  intros E Hg Ha [v Hv]. unfold read_postings in E. change (fun (s : gset string * nat * bool) kv => _) with (posting_step limit) in E.
  destruct (visit_entries _ _ _) as [[[s' read'] over]|] eqn:El.
  - injection E as -> -> ->. apply read_loop_complete in El as [_ Hin].
    rewrite <- (string_of_as_bytes a). apply (Hin (text_key gram (as_bytes a), v)).
    + rewrite tree_scan_range by done. unfold range_entries. apply list_elem_of_filter. cbn [fst]. split; [|by apply elem_tree_sorted].
      split; [|done]. apply starts_with_spec. by exists (as_bytes a).
    + cbn [fst]. apply address_from_text_key; [done|]. by destruct a.
  - assert (forall l s0, exists r, visit_entries (posting_step limit) s0 l = Ok r) as Hok.
    { clear. induction l as [|kv l IH]; intros [[s r] o]; cbn [visit_entries posting_step]; [eauto|]. destruct (limit <=? r); eauto. }
    destruct (Hok (tree_scan t gram None false) (∅, 0, false)) as [r Hr]. congruence.
Qed.

(** A set that misses no address posted under every trigram. *)
Definition complete (grams : list (list Z)) (s : gset string) : Prop :=
  forall a, a <> EmptyString -> (forall g, g ∈ grams -> posted g a) -> a ∈ s.

Lemma seed_complete all grams best best_len budget s :
  (forall g, g ∈ grams -> g ∈ all /\ length g = GRAM_LEN) -> (forall b, best = Some b -> complete all b) ->
  seed t grams best best_len budget = Some s -> complete all s.
Proof.
  revert best best_len budget. induction grams as [|g grams IH]; intros best best_len budget Hg Hb; cbn [seed]; [by intros ->; apply Hb|].
  assert (forall g, g ∈ grams -> g ∈ all /\ length g = GRAM_LEN) as Hg' by (intros x Hx; apply Hg; by right).
  destruct (_ =? 0); [by intros ->; apply Hb|]. destruct (read_postings t g (best_len `min` budget)) as [[addresses read] over] eqn:E.
  destruct over; [by apply IH|]. destruct (Hg g ltac:(left)) as [Hall Hlen].
  assert (complete all addresses) as Hnew by (intros a Ha Hp; eapply read_postings_complete; [exact E|done|done|by apply Hp]).
  destruct (_ <=? MAX_TEXT_SEED_ENOUGH); [by intros [= <-]|]. apply IH; [done|]. by intros b [= <-].
Qed.

Lemma probe_complete all grams s budget :
  (forall g, g ∈ grams -> g ∈ all) -> complete all s -> complete all (probe t grams s budget).
Proof.
  revert s budget. induction grams as [|g grams IH]; intros s budget Hg Hs; cbn [probe]; [done|].
  destruct (_ || _); [done|]. apply IH; [intros x Hx; apply Hg; by right|]. intros a Ha Hp. apply elem_of_filter.
  split; [|by apply Hs]. apply Hp, Hg. left.
Qed.
End postings.

(** The address list of a set ascends. *)
Definition address_lt (a b : string) : Prop := as_bytes a ≺ as_bytes b.

Lemma address_list_spec s : StronglySorted address_lt (address_list s) /\ forall a, a ∈ address_list s <-> a ∈ s.
Proof.
  unfold address_list. split.
  - apply (sorted_strict string_le).
    + intros x y _ _ Hle Hne. unfold string_le, address_lt in *. apply lex_le_lt_or_eq in Hle as [?|E]; [done|]. by apply as_bytes_inj in E.
    + rewrite merge_sort_Permutation. apply NoDup_elements.
    + apply StronglySorted_merge_sort.
      * intros x y z. apply lex_le_trans.
      * intros x y. unfold string_le. destruct (lex_total (as_bytes x) (as_bytes y)) as [?|[->|?]]; auto using lex_lt_le, lex_le_refl.
  - intros a. by rewrite merge_sort_Permutation, elem_of_elements.
Qed.

(** The binary search of an ascending list is a filter. *)
Lemma partition_filter {A} (R : relation A) (test : A -> bool) (l : list A) :
  StronglySorted R l -> (forall x y, R x y -> test y = true -> test x = true) ->
  take (partition_point test l) l = filter (fun x => test x = true) l /\ drop (partition_point test l) l = filter (fun x => test x = false) l.
Proof.
  intros Hl Hmono. unfold partition_point. induction Hl as [|x l Hl IH Hx]; [done|]. cbn [position]. destruct (test x) eqn:Et; cbn [negb].
  - rewrite filter_cons_True, filter_cons_False by congruence. destruct IH as [IH1 IH2]. cbn [take drop]. by rewrite IH1, IH2.
  - cbn [take drop]. assert (Forall (fun y => test y = false) (x :: l)) as Hall.
    { constructor; [done|]. eapply Forall_impl; [exact Hx|]. intros y Hy. destruct (test y) eqn:Ey; [|done]. by rewrite (Hmono x y Hy Ey) in Et. }
    split.
    + symmetry. apply filter_none. eapply Forall_impl; [exact Hall|]. cbn. congruence.
    + symmetry. by apply filter_all.
Qed.

Lemma past_address_filter l (after : option string) desc : StronglySorted address_lt l ->
  past_address l after desc = filter (fun a => past_cursor desc (as_bytes <$> after) (as_bytes a)) l.
Proof.
  intros Hl. unfold past_address. destruct after as [c|]; cbn [fmap option_fmap option_map past_cursor]; [|symmetry; by apply filter_all, Forall_true].
  destruct desc.
  - rewrite (proj1 (partition_filter address_lt (fun a => bool_decide (as_bytes a ≺ as_bytes c)) l Hl
      ltac:(intros x y Hxy Hy%bool_decide_eq_true_1; apply bool_decide_eq_true_2; by eapply lex_lt_trans))).
    apply list_filter_iff. intros x. by rewrite bool_decide_eq_true.
  - rewrite (proj2 (partition_filter address_lt (fun a => bool_decide (as_bytes a ≼ as_bytes c)) l Hl
      ltac:(intros x y Hxy Hy%bool_decide_eq_true_1; apply bool_decide_eq_true_2; apply lex_lt_le; by eapply lex_lt_le_trans))).
    apply list_filter_iff. intros x. rewrite bool_decide_eq_false, <- lex_not_lt. split; [|tauto]. apply dec_stable.
Qed.

(** ** The plan *)

Section plan.
Context {St : Type} `{RecordStoreLaws St} {N : Type} `{SerdeLaws N} `{CursorJson N}.
Context (cap : nat).
Implicit Types (e : engine (St := St)) (d : logical) (f : filters (N := N)).

Lemma fold_into_bytes s : bytes (fold_into s).
Proof.
  unfold fold_into. pose proof (as_bytes_bytes s) as Hs. induction Hs as [|b l Hb Hl IH]; [done|]. cbn [map]. constructor; [|done].
  unfold ascii_lower, is_byte in *. destruct (_ && _) eqn:E; [|done]. apply andb_prop in E as [?%Z.leb_le ?%Z.leb_le]. lia.
Qed.

Lemma gram_bytes g s : g ∈ grams s -> bytes g /\ length g = GRAM_LEN.
Proof.
  intros (a & b & E & Hl)%elem_grams%windows_spec. split; [|done]. pose proof (fold_into_bytes s) as Hb. rewrite E in Hb.
  by apply Forall_app in Hb as [_ [? _]%Forall_app].
Qed.

Lemma required_length td p item_var g : g ∈ required_grams (N := N) td p item_var -> length g = GRAM_LEN.
Proof.
  unfold required_grams. rewrite elem_fold_grams, elem_of_nil. intros [(s & _ & Hg%list_elem_of_In)%list_elem_of_In%in_flat_map|[]].
  by eapply gram_bytes.
Qed.

Lemma text_plan_spec e f l : text_candidate_plan cap e f = Some l ->
  exists name td t k p, e_text e !! name = Some (td, t) /\ f_kind f = Some k /\ f_predicate f = Some p /\ t_kind td = k /\
    text_candidates cap t (required_grams td p (f_item_var f)) = Some l.
Proof.
  unfold text_candidate_plan. destruct (f_kind f) as [k|]; [|done]. destruct (f_predicate f) as [p|]; [|done]. intros E.
  assert (forall ix, (forall x, x ∈ ix -> x ∈ text_indexes e) -> first_candidates cap k p (f_item_var f) ix = Some l ->
    exists td t, (td, t) ∈ text_indexes e /\ t_kind td = k /\ text_candidates cap t (required_grams td p (f_item_var f)) = Some l) as Hl.
  { induction ix as [|[td t] ix IH]; intros Hsub; cbn [first_candidates]; [done|]. specialize (IH ltac:(intros x Hx; apply Hsub; by right)).
    destruct (String.eqb_spec (t_kind td) k) as [Hk|]; [|done]. cbn [negb]. destruct (required_grams td p (f_item_var f)) eqn:Er; [done|].
    destruct (text_candidates _ _ _) eqn:Et; [|done]. intros [= ->]. exists td, t. rewrite Er. split; [apply Hsub; left|done]. }
  destruct (Hl _ ltac:(done) E) as (td & t & [name Hn]%elem_text_indexes & ? & ?). exists name, td, t, k, p. done.
Qed.

Lemma text_rows e d f l :
  consistent (N := N) e d -> answerable e d f -> text_candidate_plan cap e f = Some l ->
  StronglySorted address_lt l /\ forall n, live (l_nodes d) n -> matched f n -> n_address n ∈ l.
Proof.
  intros Hc Ha (name & td & t & k & p & Ht & Hk & Hp & Hkind & E)%text_plan_spec. unfold text_candidates in E.
  destruct (seed t _ None cap cap) as [s|] eqn:Es; [|done]. injection E as <-. split; [apply address_list_spec|].
  destruct (c_text _ _ Hc name td t Ht) as [Hm _]. unfold members in Hm. set (gs := required_grams td p (f_item_var f)) in *.
  assert (forall k v, t !! k = Some v -> bytes k) as Hb.
  { intros key v [_ (a & n & _ & Hin)]%Hm. unfold text_entries in Hin. destruct (String.eqb _ _); [|by apply not_elem_of_nil in Hin].
    unfold node_text_keys in Hin. destruct (indexed_text _ _) as [x|]; [|by apply not_elem_of_nil in Hin].
    apply list_elem_of_fmap in Hin as (g & -> & Hg). apply Forall_app. split; [by eapply gram_bytes|apply as_bytes_bytes]. }
  intros n Hn Hmn. destruct (matched_facts f n Hmn) as (Hnk & _ & Hev).
  assert (forall g n, g ∈ take n gs -> g ∈ gs) as Htake by (intros g i (j & Hg & _)%elem_of_take; by eapply list_elem_of_lookup_2).
  apply address_list_spec. apply (probe_complete t gs); [intros g; apply Htake| | |].
  - refine (seed_complete t Hb gs _ None cap cap s _ _ Es); [|done]. intros g Hg%Htake. split; [done|]. by eapply required_length.
  - intros E0. destruct (c_nodes _ _ Hc _ n Hn) as [_ Hok]. apply node_ok_spec in Hok as (_ & [Hlen _] & _). rewrite E0 in Hlen. cbn in Hlen. lia.
  - intros g Hg. unfold posted. exists []. apply Hm. split; [done|]. exists (n_address n), n. split; [done|].
    unfold text_entries. rewrite Hkind, (Hnk k Hk), String.eqb_refl. unfold node_text_keys.
    destruct (text_plan_complete td p (f_item_var f) (node_data (N := N) n) g (Hev p Hp)) as (text & Hx & Hpost); [|done|].
    + intros Hf. apply (ans_text _ _ _ Ha name td t n); [done|done|done|done|]. by rewrite Hkind; apply Hnk.
    + assert (indexed_text (from_str (N := N) (n_data n)) (t_field td) = Some text) as ->.
      { rewrite <- Hx. unfold indexed_text, node_data. by destruct (from_str (n_data n)). }
      apply list_elem_of_fmap. by exists g.
Qed.

(** The live nodes among ascending addresses, in address order. *)
Lemma address_rows e d (l : list string) :
  consistent (N := N) e d -> StronglySorted address_lt l ->
  (forall S (visit : S -> Node -> result error_kind (S * bool)) s (rev : bool),
     visit_entries (visit_address e visit) s (if rev then reverse l else l) = visit_entries visit s (omap (fun a => l_nodes d !! a) (if rev then reverse l else l))) /\
  (forall n rev, n ∈ omap (fun a => l_nodes d !! a) (if rev : bool then reverse l else l) <-> live (l_nodes d) n /\ n_address n ∈ l) /\
  forall rev, StronglySorted (scan_order (row_key (N := N) None) rev) (omap (fun a => l_nodes d !! a) (if rev : bool then reverse l else l)).
Proof.
  intros Hc Hl. split; [|split].
  - intros S visit s rev. apply visit_omap. intros s' a _. unfold visit_address. by rewrite (fetch_run e d).
  - intros n rev. rewrite list_elem_of_omap. assert (forall a, a ∈ (if rev then reverse l else l) <-> a ∈ l) as Hr by (intros a; destruct rev; by rewrite ?elem_of_reverse).
    split.
    + intros (a & Ha%Hr & Hn). unfold live. pose proof (keyed_nodes e d Hc a n Hn) as E. subst a. done.
    + intros [Hn Hin]. exists (n_address n). by split; [apply Hr|].
  - intros rev. apply (sorted_omap (fun a b => if rev then address_lt b a else address_lt a b)).
    + intros a b x y _ _ Hab Hx Hy. unfold scan_order, row_key. rewrite (keyed_nodes e d Hc a x Hx), (keyed_nodes e d Hc b y Hy). exact Hab.
    + destruct rev; [|done]. by apply sorted_reverse.
Qed.
End plan.
