(* ===== verification/QueryTheorems.v ===== *)
(** * The plan does not change the answer

    Whatever access path [query_where] takes, the page it returns is cut out of
    the reference list of rows, at the offset or past the row of the cursor, and
    following its cursors returns every row once.  The cursor is where this can
    fail: a null order value and a long one are not read back. *)

From Stdlib Require Import ZArith Lia SpecFloat Ascii String.
From stdpp Require Import base tactics list strings option gmap sorting.
From S2P Require Import Prelude Binary BTree BTreeCells BTreeRead Keys Json GoLower OrderKey Predicate Search Entities Wal Transaction Engine EngineRep EngineApply EngineOps Query QueryScan QueryRows QueryPaths QueryText.

Local Open Scope key_scope.

Section plans.
Context {St : Type} `{RecordStoreLaws St} {N : Type} `{SerdeLaws N} `{CursorLaws N}.
Context (cap max_offset : nat).
Implicit Types (e : engine (St := St)) (d : logical) (f : filters (N := N)).

(** The field whose value the plan puts in its cursors. *)
Definition cursor_field e f (o : option string) : option string :=
  match equality_prefix_plan e f o with Some (def, _, _) => Some (def_field def) | None => o end.

Definition issued e f (o : option string) (r : Node) : Cursor N := from_node r (cursor_field e f o).

(** A row whose cursor is read back as it was issued. *)
Definition resumable e f (o : option string) (r : Node) : Prop :=
  matched f r /\ zero_free (N := N) r /\
  match c_o (issued e f o r) with Some v => v <> JNull /\ exact v | None => True end /\
  cursor_to_vec (issued e f o r) <> [] /\ length (cursor_encode (issued e f o r)) <= MAX_CURSOR_LEN.

Definition after_of e f (o : option string) (r : option Node) : option (list Z) := (fun r => cursor_encode (issued e f o r)) <$> r.

(** The page of the reference list. *)
Definition reference_page e d f (o : option string) (desc : bool) (r : option Node) (limit offset : nat) : list Node * list Z :=
  let l := drop (match r with Some _ => 0 | None => offset end) (filter (past_row o desc r) (rows d f o desc)) in
  (take limit l, next_cursor (take limit l) (bool_decide (limit < length l)) (cursor_field e f o)).

Definition is_page (p : list Node * list Z) (x : result query_error QueryPage) : Prop := exists examined, x = Ok (MkPage p.1 p.2 examined).

Lemma cursor_resumes e f o r : resumable e f o r ->
  cursor_decode (cursor_encode (issued e f o r)) = Ok (issued e f o r) /\ cursor_encode (issued e f o r) <> [].
Proof.
  intros (_ & _ & Ho & Hne & Hlen). unfold cursor_decode. destruct (Nat.ltb_spec MAX_CURSOR_LEN (length (cursor_encode (issued e f o r)))); [lia|].
  unfold cursor_encode. rewrite base64_roundtrip by apply cursor_bytes. set (c := issued e f o r) in *.
  rewrite cursor_roundtrip; [|destruct (c_o c); [apply Ho|done]]. split.
  - f_equal. destruct c as [[v|] a]; cbn [c_o c_a] in *; [|done]. destruct v; try done. by destruct (proj1 Ho).
  - intros E. apply Hne. destruct (cursor_to_vec c) as [|b0 [|b1 [|b2 l]]]; done.
Qed.

Lemma past_row_key o desc r n : (forall x, r = Some x -> plain_row (N := N) o x) -> plain_row (N := N) o n ->
  past_row (N := N) o desc r n <-> past_cursor desc (row_key (N := N) o <$> r) (row_key (N := N) o n).
Proof.
  intros Hr Hn. unfold past_row. destruct r as [r|]; [|done]. cbn [fmap option_fmap option_map past_cursor].
  rewrite row_key_cmp by auto. destruct desc; [done|]. apply lex_gt_lt.
Qed.

(** Under one value of an index, the key of a row is that value and the address. *)
Lemma same_value n field (v : option (value N)) :
  starts_with (row_key (N := N) (Some field) n) (encode_order_value v) = true -> row_key (N := N) (Some field) n = encode_order_value v ++ as_bytes (n_address n).
Proof.
  intros [r E]%starts_with_spec. unfold row_key in *. change (encode_order_value v ++ r) with (data_key v r) in E.
  pose proof E as [_ <-]%encode_body_inj. exact E.
Qed.

Lemma string_prefix_spec e f o def t lit : string_prefix_plan e f o = Some (def, t, lit) ->
  exists name k p, e_data e !! name = Some (def, t) /\ f_kind f = Some k /\ f_predicate f = Some p /\ def_kind def = k /\
    o = Some (def_field def) /\ prefix_literal p (f_item_var f) (def_field def) = Some lit.
Proof.
  unfold string_prefix_plan. destruct (f_kind f) as [k|]; [|done]. destruct (f_predicate f) as [p|]; [|done].
  destruct o as [field|]; [|done]. destruct (data_find e k field) as [[def' t']|] eqn:Hfind; [|done].
  destruct (prefix_literal p (f_item_var f) (def_field def')) as [lit'|] eqn:Hlit; [|done]. intros [= -> -> ->].
  apply data_find_spec in Hfind as ([name Hi] & Hdk & <-). exists name, k, p. done.
Qed.

(** A page cut out of what a path visits. *)
Lemma page_result f cf to_skip limit ns (x : result error_kind page_state) :
  decides f ns -> x = visit_entries (page_visit f to_skip limit) page_start ns ->
  let l := drop to_skip (filter (matched f) ns) in
  is_page (take limit l, next_cursor (take limit l) (bool_decide (limit < length l)) cf) (s ← io_message x; page_finish cf s).
Proof.
  intros Hd ->. destruct (page_loop_start f to_skip limit ns Hd) as (sk & ex & E). rewrite E. cbn. eexists. reflexivity.
Qed.

Section query.
Context e d f (Hc : consistent (N := N) e d) (Ha : answerable e d f).
Context (r : option Node) (o : option string) (desc : bool) (limit offset : nat).
Context (Hr : forall x, r = Some x -> resumable e f o x).

Let cursor : option (Cursor N) := issued e f o <$> r.

Lemma resumed_plain x o' : r = Some x -> plain_row (N := N) o' x.
Proof. intros Hx. apply zero_free_plain. by destruct (Hr x Hx) as (_ & ? & _). Qed.

Lemma live_plain n o' : live (l_nodes d) n -> plain_row (N := N) o' n.
Proof. intros Hn. by apply zero_free_plain, (ans_zero _ _ _ Ha). Qed.

Lemma past_live o' n : live (l_nodes d) n -> past_row (N := N) o' desc r n <-> past_cursor desc (row_key (N := N) o' <$> r) (row_key (N := N) o' n).
Proof. intros Hn. apply past_row_key; [intros x Hx; by apply resumed_plain|by apply live_plain]. Qed.

(** ** The equality plan *)

Lemma equality_prefix n name def t k p lit :
  e_data e !! name = Some (def, t) -> f_kind f = Some k -> f_predicate f = Some p -> def_kind def = k ->
  equality_literal p (f_item_var f) (def_field def) = Some lit -> matched f n -> zero_free (N := N) n ->
  n_kind n = def_kind def /\ starts_with (row_key (N := N) (Some (def_field def)) n) (encode_order_value (Some lit)) = true.
Proof.
  intros _ Hk Hp Hdk Hlit Hm Hz. destruct (matched_facts f n Hm) as (Hnk & _ & Hev). split; [rewrite Hdk; by apply Hnk|].
  unfold row_key. rewrite <- field_of_data.
  apply (equality_plan_complete p (f_item_var f)); [done|by eapply (ans_literal _ _ _ Ha)|by apply zero_free_value|by apply Hev].
Qed.

Lemma equality_page def t lit : equality_prefix_plan e f o = Some (def, t, lit) ->
  is_page (reference_page e d f o desc r limit offset) (query_by_data_prefix e def t f lit cursor desc limit offset).
Proof.
  intros Hplan. assert (cursor_field e f o = Some (def_field def)) as Hcf by (unfold cursor_field; by rewrite Hplan).
  unfold equality_prefix_plan in Hplan. destruct (equality_selection e f) as [[[def' t'] lit']|] eqn:Hsel; [|done].
  assert ((def', t', lit') = (def, t, lit) /\ (o = None \/ o = Some (def_field def))) as [[= -> -> ->] Ho].
  { destruct o as [x|]; [|by injection Hplan as -> -> ->; auto]. destruct (String.eqb_spec x (def_field def')) as [->|]; [|done].
    injection Hplan as -> -> ->. auto. }
  apply equality_selection_spec in Hsel as (name & k & p & Hi & Hk & Hp & Hdk & Hlit).
  set (field := def_field def) in *. set (prefix := encode_order_value (Some lit)).
  set (after := (fun c => data_key (c_o c) (as_bytes (c_a c))) <$> cursor).
  assert (after = row_key (N := N) (Some field) <$> r) as Eafter.
  { unfold after, cursor. destruct r as [x|]; [|done]. cbn. unfold issued, from_node. rewrite Hcf. done. }
  assert (forall n, matched f n -> zero_free (N := N) n -> n_kind n = def_kind def /\ starts_with (row_key (N := N) (Some field) n) prefix = true) as Hunder
    by (intros n; by apply (equality_prefix n name def t k p lit)).
  destruct (data_rows e d name def t prefix after desc Hc Hi) as (ns & Hvisit & Hin & Hsort).
  { rewrite Eafter. intros c Ec. destruct r as [x|] eqn:Er; [|done]. injection Ec as <-. destruct (Hr x eq_refl) as (? & ? & _). by apply Hunder. }
  fold field in Hin, Hsort.
  assert (forall n, n ∈ ns -> live (l_nodes d) n) as Hlive by (intros n [Hn _]%Hin; exact Hn).
  assert (forall x, r = Some x -> starts_with (row_key (N := N) (Some field) x) prefix = true) as Hrp.
  { intros x Hx. destruct (Hr x Hx) as (? & ? & _). by apply Hunder. }
  assert (forall n, live (l_nodes d) n -> starts_with (row_key (N := N) (Some field) n) prefix = true ->
    past_cursor desc after (row_key (N := N) (Some field) n) <-> past_row o desc r n) as Hpast.
  { intros n Hn Hpre. rewrite Eafter, past_live by done. destruct Ho as [->| ->]; [|done]. destruct r as [x|] eqn:Er; [|done].
    cbn [fmap option_fmap option_map past_cursor]. rewrite (same_value n field (Some lit) Hpre), (same_value x field (Some lit) (Hrp x eq_refl)).
    unfold row_key, lex_lt. destruct desc; by rewrite lex_cmp_app. }
  unfold query_by_data_prefix, query_by_key_prefix. fold field prefix.
  unfold reference_page. rewrite Hcf. rewrite <- (path_rows e d f Hc Ha ns o desc r Hlive).
  - replace (match r with Some _ => 0 | None => offset end) with (match cursor with Some _ => 0 | None => offset end) by (unfold cursor; by destruct r).
    apply page_result; [by apply (live_decides e d f Ha)|]. apply Hvisit.
  - destruct Ho as [->| ->]; [|exact Hsort]. eapply sorted_mono; [|exact Hsort]. intros x y (_ & [_ Hx] & _)%Hin (_ & [_ Hy] & _)%Hin.
    unfold scan_order. rewrite (same_value x field (Some lit) Hx), (same_value y field (Some lit) Hy). unfold row_key, lex_lt. by rewrite !lex_cmp_app.
  - intros n Hn Hm. destruct (Hunder n Hm (ans_zero _ _ _ Ha n Hn)) as [Hkn Hpn]. rewrite Hin. rewrite Hpast by done. tauto.
Qed.

(** ** A declared index in its own order *)

Lemma ordered_page name def t prefix k cf :
  e_data e !! name = Some (def, t) -> f_kind f = Some k -> def_kind def = k -> o = Some (def_field def) ->
  cursor_field e f o = o -> cf = o ->
  (forall n, matched f n -> starts_with (row_key (N := N) o n) prefix = true) ->
  let after := (fun c => data_key (c_o c) (as_bytes (c_a c))) <$> cursor in
  let to_skip := match cursor with Some _ => 0 | None => offset end in
  is_page (reference_page e d f o desc r limit offset)
    (s ← io_message (visit_entries (visit_data_entry e (page_visit f to_skip limit)) page_start (tree_scan t prefix after desc)); page_finish cf s).
Proof.
  intros Hi Hk Hdk Ho Hcf -> Hunder after to_skip.
  assert (after = row_key (N := N) o <$> r) as Eafter.
  { unfold after, cursor. destruct r as [x|]; [|done]. cbn. unfold issued, from_node. by rewrite Hcf, Ho. }
  destruct (data_rows e d name def t prefix after desc Hc Hi) as (ns & Hvisit & Hin & Hsort).
  { rewrite Eafter. intros c Ec. destruct r as [x|] eqn:Er; [|done]. injection Ec as <-. apply Hunder. by destruct (Hr x eq_refl). }
  rewrite <- Ho in Hin, Hsort. assert (forall n, n ∈ ns -> live (l_nodes d) n) as Hlive by (intros n [Hn _]%Hin; exact Hn).
  unfold reference_page. rewrite Hcf. rewrite <- (path_rows e d f Hc Ha ns o desc r Hlive Hsort).
  - replace (match r with Some _ => 0 | None => offset end) with to_skip by (unfold to_skip, cursor; by destruct r).
    apply page_result; [by apply (live_decides e d f Ha)|]. apply Hvisit.
  - intros n Hn Hm. rewrite Hin, Eafter, <- past_live by done. destruct (matched_facts f n Hm) as (Hnk & _).
    specialize (Hunder n Hm). rewrite Hdk, (Hnk k Hk). tauto.
Qed.

Lemma prefix_page def t lit : equality_prefix_plan e f o = None -> string_prefix_plan e f o = Some (def, t, lit) ->
  is_page (reference_page e d f o desc r limit offset)
    (query_by_key_prefix e def t f (encode_string_prefix (N := N) lit) cursor desc limit offset).
Proof.
  intros Heq (name & k & p & Hi & Hk & Hp & Hdk & Ho & Hlit)%string_prefix_spec.
  apply (ordered_page name def t _ k); [done|done|done|done| |done|].
  - unfold cursor_field. by rewrite Heq.
  - intros n Hm. destruct (matched_facts f n Hm) as (_ & _ & Hev). rewrite Ho. unfold row_key. rewrite <- field_of_data.
    apply (prefix_plan_complete p (f_item_var f)); [done|by apply Hev].
Qed.

Lemma index_page k field : equality_prefix_plan e f o = None -> f_kind f = Some k -> o = Some field -> is_Some (data_find e k field) ->
  is_page (reference_page e d f o desc r limit offset) (query_by_data_index e f k field cursor desc limit offset).
Proof.
  intros Heq Hk Ho [[def t] Hfind]. unfold query_by_data_index. rewrite Hfind. apply data_find_spec in Hfind as ([name Hi] & Hdk & Hdf).
  apply (ordered_page name def t [] k); [done|done|done|by rewrite Ho, Hdf| |done|done].
  unfold cursor_field. by rewrite Heq.
Qed.

(** ** Address order *)

Lemma past_address_key n : live (l_nodes d) n ->
  past_row (N := N) None desc r n <-> past_cursor desc (as_bytes <$> (c_a <$> cursor)) (as_bytes (n_address n)).
Proof. intros Hn. rewrite past_live by done. unfold cursor. by destruct r. Qed.

Lemma address_page : equality_prefix_plan e f o = None -> o = None ->
  is_page (reference_page e d f o desc r limit offset) (query_by_address e f cursor desc limit offset).
Proof.
  intros Heq Ho. destruct (candidates_rows e d (f_kind f) (f_owner f) (c_a <$> cursor) desc Hc (ans_kind _ _ _ Ha) (ans_owner _ _ _ Ha)) as (ns & Hvisit & Hin & Hsort).
  assert (forall n, n ∈ ns -> live (l_nodes d) n) as Hlive by (intros n [Hn _]%Hin; exact Hn). rewrite <- Ho in Hsort.
  unfold query_by_address, reference_page. rewrite <- (path_rows e d f Hc Ha ns o desc r Hlive Hsort).
  - replace (match r with Some _ => 0 | None => offset end) with (match c_a <$> cursor with Some _ => 0 | None => offset end) by (unfold cursor; by destruct r).
    replace (cursor_field e f o) with (@None string) by (unfold cursor_field; by rewrite Heq, Ho).
    apply page_result; [by apply (live_decides e d f Ha)|]. apply Hvisit.
  - intros n Hn Hm. rewrite Hin, Ho, past_address_key by done. pose proof (matched_source f n Hm). tauto.
Qed.

Lemma text_page candidates : equality_prefix_plan e f o = None -> o = None -> text_candidate_plan cap e f = Some candidates ->
  is_page (reference_page e d f o desc r limit offset) (query_by_text e f candidates cursor desc limit offset).
Proof.
  intros Heq Ho Hplan. destruct (text_rows cap e d f candidates Hc Ha Hplan) as [Hsorted Hall].
  assert (StronglySorted address_lt (past_address candidates (c_a <$> cursor) desc)) as Hs by (rewrite past_address_filter by done; by apply sorted_sub).
  destruct (address_rows e d _ Hc Hs) as (Hvisit & Hin & Hsort). specialize (Hsort desc).
  assert (forall n, n ∈ omap (fun a => l_nodes d !! a) (if desc then reverse (past_address candidates (c_a <$> cursor) desc) else past_address candidates (c_a <$> cursor) desc) ->
    live (l_nodes d) n) as Hlive by (intros n [Hn _]%Hin; exact Hn). rewrite <- Ho in Hsort.
  unfold query_by_text, reference_page. rewrite <- (path_rows e d f Hc Ha _ o desc r Hlive Hsort).
  - replace (match r with Some _ => 0 | None => offset end) with (match c_a <$> cursor with Some _ => 0 | None => offset end) by (unfold cursor; by destruct r).
    replace (cursor_field e f o) with (@None string) by (unfold cursor_field; by rewrite Heq, Ho).
    apply page_result; [by apply (live_decides e d f Ha)|]. apply Hvisit.
  - intros n Hn Hm. rewrite Hin, Ho, past_address_key, past_address_filter, list_elem_of_filter by done. specialize (Hall n Hn Hm). tauto.
Qed.

(** ** Sorting *)

Lemma sorted_nodup {A} (R : relation A) l : (forall x, ~ R x x) -> StronglySorted R l -> NoDup l.
Proof.
  intros Hirr. induction 1 as [|x l Hl IH Hx]; constructor; [|done]. intros Hin. rewrite Forall_forall in Hx. by apply (Hirr x), Hx.
Qed.

(** Whichever source enumerates the matching nodes, sorting them gives the reference list. *)
Lemma sorted_rows ns : NoDup ns -> (forall n, n ∈ ns -> live (l_nodes d) n) -> (forall n, live (l_nodes d) n -> matched f n -> n ∈ ns) ->
  let s := merge_sort (row_le (N := N) o) (filter (matched f) ns) in (if desc then reverse s else s) = rows d f o desc.
Proof.
  intros Hnd Hlive Hall s.
  assert (forall n, n ∈ filter (matched f) ns <-> live (l_nodes d) n /\ matched f n) as Hin.
  { intros n. rewrite list_elem_of_filter. split; [intros [? ?]; auto|intros [? ?]; auto]. }
  apply (sorted_ext (scan_order (row_key (N := N) o) desc)).
  - apply scan_order_irrefl.
  - apply scan_order_asym.
  - apply (matching_enumeration e d f Ha); [by apply NoDup_filter|done].
  - apply (rows_sorted e d f Hc Ha).
  - intros n. rewrite (elem_rows e d f Hc), <- Hin. unfold s. destruct desc; by rewrite ?elem_of_reverse, merge_sort_Permutation.
Qed.

(** The matching nodes collected from the equality prefix, the text candidates or the scan. *)
Lemma collected text : length (rows d f o desc) <= cap ->
  (text = match equality_selection e f with Some _ => None | None => text_candidate_plan cap e f end) ->
  exists l examined,
    match equality_selection e f with
    | Some (_, t, literal) =>
        visit_entries (visit_data_entry e (take_row cap f)) ([], None, 0) (tree_scan t (encode_order_value (Some literal)) None false)
    | None =>
        match text with
        | Some addresses => visit_entries (visit_address e (take_row cap f)) ([], None, 0) addresses
        | None => scan_candidates e (f_kind f) (f_owner f) None false (take_row cap f) ([], None, 0)
        end
    end = Ok (l, None, examined) /\
    (let s := merge_sort (row_le (N := N) o) l in (if desc then reverse s else s) = rows d f o desc).
Proof.
  intros Hcap Htext.
  assert (forall ns (x : result error_kind (list Node * option query_error * nat)), (exists key, StronglySorted (scan_order key false) ns) ->
    (forall n, n ∈ ns -> live (l_nodes d) n) -> (forall n, live (l_nodes d) n -> matched f n -> n ∈ ns) ->
    x = visit_entries (take_row cap f) ([], None, 0) ns -> exists l examined, x = Ok (l, None, examined) /\
      (let s := merge_sort (row_le (N := N) o) l in (if desc then reverse s else s) = rows d f o desc)) as Hns.
  { intros ns x [key Hs] Hlive Hall ->. assert (NoDup ns) as Hnd by (eapply sorted_nodup; [|exact Hs]; apply scan_order_irrefl).
    pose proof (sorted_rows ns Hnd Hlive Hall) as E. cbn zeta in E.
    destruct (take_loop cap f ns [] None 0) as [ex Hx]; [by apply (live_decides e d f Ha)| |by exists (filter (matched f) ns), ex].
    cbn [app]. rewrite <- E in Hcap. destruct desc; rewrite ?length_reverse, (Permutation_length (merge_sort_Permutation (row_le (N := N) o) _)) in Hcap; done. }
  destruct (equality_selection e f) as [[[def t] lit]|] eqn:Hsel.
  - apply equality_selection_spec in Hsel as (name & k & p & Hi & Hk & Hp & Hdk & Hlit).
    destruct (data_rows e d name def t (encode_order_value (Some lit)) None false Hc Hi) as (ns & Hvisit & Hin & Hsort); [done|].
    apply (Hns ns); [by eexists|by intros n [? _]%Hin| |apply Hvisit]. intros n Hn Hm. apply Hin. split; [done|]. split; [|done].
    by apply (equality_prefix n name def t k p lit); [..|apply (ans_zero _ _ _ Ha)].
  - subst text. destruct (text_candidate_plan cap e f) as [addresses|] eqn:Hplan.
    + destruct (text_rows cap e d f addresses Hc Ha Hplan) as [Hsorted Hall]. destruct (address_rows e d _ Hc Hsorted) as (Hvisit & Hin & Hsort).
      apply (Hns (omap (fun a => l_nodes d !! a) addresses)); [eexists; apply (Hsort false)|by intros n [? _]%(Hin n false)| |apply (Hvisit _ _ _ false)].
      intros n Hn Hm. apply (Hin n false). auto.
    + destruct (candidates_rows e d (f_kind f) (f_owner f) None false Hc (ans_kind _ _ _ Ha) (ans_owner _ _ _ Ha)) as (ns & Hvisit & Hin & Hsort).
      apply (Hns ns); [by eexists|by intros n [? _]%Hin| |apply Hvisit]. intros n Hn Hm. apply Hin. split; [done|]. split; [by apply matched_source|done].
Qed.

Lemma position_le {A} (test : A -> bool) l : position test l <= length l.
Proof. induction l as [|x l IH]; cbn [position length]; [lia|]. destruct (test x); lia. Qed.

(** The first row past the cursor starts the rows past it. *)
Lemma position_past x : r = Some x ->
  drop (position (fun n => match row_cmp (N := N) o n x with Lt => desc | Gt => negb desc | Eq => false end) (rows d f o desc)) (rows d f o desc) =
  filter (past_row o desc r) (rows d f o desc).
Proof.
  intros Hx. set (test := fun n => match row_cmp (N := N) o n x with Lt => desc | Gt => negb desc | Eq => false end).
  assert (forall n, test n = true <-> past_row (N := N) o desc r n) as Htest.
  { intros n. rewrite Hx. unfold test, past_row. by destruct (row_cmp o n x), desc. }
  destruct (partition_filter (fun a b => scan_order (row_key (N := N) o) desc a b /\ a ∈ rows d f o desc /\ b ∈ rows d f o desc) (fun n => negb (test n)) (rows d f o desc)) as [_ E].
  - eapply sorted_mono; [|apply (rows_sorted e d f Hc Ha)]. auto.
  - intros a b (Hab & [Hla _]%(elem_rows e d f Hc) & [Hlb _]%(elem_rows e d f Hc)) Hb. apply negb_true_iff in Hb. apply negb_true_iff.
    apply not_true_iff_false in Hb. apply not_true_iff_false. rewrite Htest in Hb |- *. intros Hpa. apply Hb.
    rewrite past_live in Hpa |- * by done. rewrite Hx in Hpa |- *. cbn [fmap option_fmap option_map past_cursor] in *. unfold scan_order in Hab.
    destruct desc; by eapply lex_lt_trans.
  - unfold partition_point in E. assert (forall l, position (fun n => negb (negb (test n))) l = position test l) as Epos.
    { induction l as [|y l IH]; cbn [position]; [done|]. by rewrite negb_involutive, IH. }
    rewrite Epos in E. rewrite E. apply list_filter_iff. intros n. rewrite negb_false_iff. apply Htest.
Qed.

Lemma sort_page : equality_prefix_plan e f o = None -> length (rows d f o desc) <= cap ->
  is_page (reference_page e d f o desc r limit offset)
    (query_sorted cap e f o cursor desc limit offset (match equality_selection e f with Some _ => None | None => text_candidate_plan cap e f end)).
Proof.
  intros Heq Hcap. destruct (collected _ Hcap eq_refl) as (l & ex & E & Erows). unfold query_sorted. rewrite E. cbn [io_message mbind result_bind].
  cbn zeta in Erows. rewrite Erows. assert (cursor_field e f o = o) as Hcf by (unfold cursor_field; by rewrite Heq).
  set (start := match cursor with Some c => _ | None => _ end).
  assert (start <= length (rows d f o desc) /\ drop start (rows d f o desc) =
    drop (match r with Some _ => 0 | None => offset end) (filter (past_row o desc r) (rows d f o desc))) as [Hle Hdrop].
  { pose proof position_past as Hpos. unfold start, cursor. destruct r as [x|]; cbn [fmap option_fmap option_map].
    - rewrite drop_0, <- (Hpos x eq_refl). split.
      + apply position_le.
      + do 2 f_equal. unfold issued. rewrite Hcf. unfold cmp_node_to_cursor, row_cmp, from_node. by destruct o.
    - split; [lia|]. rewrite filter_all by (by apply Forall_true). destruct (Nat.le_ge_cases offset (length (rows d f o desc))); [by rewrite Nat.min_l|].
      rewrite Nat.min_r, !drop_ge by lia. done. }
  eexists. unfold reference_page. cbn [fst snd]. rewrite <- Hdrop, Hcf. do 3 f_equal. rewrite length_take, length_drop.
  destruct (Nat.ltb_spec (start + limit `min` (length (rows d f o desc) - start)) (length (rows d f o desc))); symmetry;
    [apply bool_decide_eq_true_2; lia|apply bool_decide_eq_false_2; lia].
Qed.
End query.

Lemma query_where_page e d f order desc r limit offset :
  consistent (N := N) e d -> answerable e d f ->
  (r = None -> offset <= max_offset) -> (forall x, r = Some x -> resumable e f (normal_order order) x) ->
  (normal_order order <> None -> length (rows d f (normal_order order) desc) <= cap) ->
  is_page (reference_page e d f (normal_order order) desc r limit offset)
    (query_where cap max_offset e f order desc (after_of e f (normal_order order) r) limit offset).
Proof.
  intros Hc Ha Hoff Hr Hcap. unfold query_where. set (o := normal_order order) in *.
  assert (nonempty (after_of e f o r) = after_of e f o r /\
    bool_decide (after_of e f o r = None) && (max_offset <? offset) = false /\
    match after_of e f o r with Some encoded => c ← cursor_decode encoded; Ok (Some c) | None => Ok None end = Ok (issued e f o <$> r)) as (-> & -> & ->).
  { destruct r as [x|]; cbn [after_of fmap option_fmap option_map].
    - destruct (cursor_resumes e f o x (Hr x eq_refl)) as [Hd Hne]. rewrite Hd. rewrite bool_decide_eq_false_2 by done.
      destruct (cursor_encode (issued e f o x)); done.
    - split; [done|]. split; [|done]. rewrite bool_decide_eq_true_2 by done. apply Nat.ltb_ge. by apply Hoff. }
  cbn [mbind result_bind].
  destruct (equality_prefix_plan e f o) as [[[def t] lit]|] eqn:Heq; [by apply equality_page|].
  destruct (string_prefix_plan e f o) as [[[def t] lit]|] eqn:Hpre; [by apply prefix_page|].
  destruct o as [field|] eqn:Ho.
  - destruct (match f_kind f with Some k => data_find e k field ≫= (fun _ => Some k) | None => None end) as [k|] eqn:Hfind.
    + destruct (f_kind f) as [k'|] eqn:Hk; [|done]. destruct (data_find e k' field) eqn:Hdf; [|done]. injection Hfind as ->.
      apply index_page; [done|done|done|done|done|done|by rewrite Hdf].
    + apply sort_page; [done|done|done|done|]. by apply Hcap.
  - destruct (text_candidate_plan cap e f) as [candidates|] eqn:Htext; [by apply text_page|by apply address_page].
Qed.
End plans.
