(* ===== verification/QueryPaging.v ===== *)
(** * Queries: the theorems, their witnesses and where cursors fail

    [query_where] against the reference list, for one page and for a walk over
    all pages, and the three ways a cursor does not resume where it was issued:
    an order value that is null, one that is long, and an index declared between
    two pages. *)

From Stdlib Require Import ZArith Lia SpecFloat Ascii String.
From stdpp Require Import base tactics list strings option gmap sorting.
From S2P Require Import Prelude Binary BTree BTreeCells BTreeRead Keys Json GoLower OrderKey Predicate Search Entities Wal Transaction Engine EngineRep EngineApply EngineOps EngineTheorems Query QueryScan QueryRows QueryPaths QueryText QueryTheorems.

Local Open Scope key_scope.

Section paging.
Context {St : Type} `{RecordStoreLaws St} {N : Type} `{SerdeLaws N} `{CursorLaws N}.
Context (cap max_offset : nat).
Implicit Types (e : engine (St := St)) (d : logical) (f : filters (N := N)).

(** A caller that follows the cursor until there is none. *)
Fixpoint page_all (fuel : nat) e f (order : option string) (desc : bool) (limit : nat) (after : option (list Z)) : result query_error (list Node) :=
  match fuel with
  | O => Ok []
  | S fuel =>
      p ← query_where cap max_offset e f order desc after limit 0;
      match qp_next p with
      | [] => Ok (qp_nodes p)
      | next => rest ← page_all fuel e f order desc limit (Some next); Ok (qp_nodes p ++ rest)
      end
  end.

(** In a strictly sorted list the elements past one are those after it. *)
Lemma sorted_after {A} (R : relation A) (P : A -> Prop) `{!forall x, Decision (P x)} l1 x l2 :
  (forall y, ~ R y y) -> (forall y z, R y z -> R z y -> False) -> StronglySorted R (l1 ++ x :: l2) ->
  (forall n, n ∈ l1 ++ x :: l2 -> P n <-> R x n) -> filter P (l1 ++ x :: l2) = l2.
Proof.
  intros Hirr Hasym Hs HP. induction l1 as [|y l1 IH]; cbn [app] in *; inversion Hs as [|? ? Hs' Hf]; subst; rewrite Forall_forall in Hf.
  - rewrite filter_cons_False by (rewrite HP by left; apply Hirr). apply filter_all. apply Forall_forall. intros n Hn. apply HP; [by right|by apply Hf].
  - rewrite filter_cons_False.
    + apply IH; [done|]. intros n Hn. apply HP. by right.
    + rewrite HP by left. intros Hxy. eapply Hasym; [exact Hxy|]. apply Hf. apply elem_of_app. right. left.
Qed.

Section rows.
Context e d f (Hc : consistent (N := N) e d) (Ha : answerable e d f) (o : option string) (desc : bool).

Lemma past_between x n : x ∈ rows d f o desc -> n ∈ rows d f o desc ->
  past_row (N := N) o desc (Some x) n <-> scan_order (row_key (N := N) o) desc x n.
Proof.
  intros [Hx _]%(elem_rows e d f Hc) [Hn _]%(elem_rows e d f Hc).
  rewrite past_row_key; [done|intros y [= <-]|]; by apply zero_free_plain, (ans_zero _ _ _ Ha).
Qed.

(** Past a row that is past the cursor. *)
Lemma past_after r l1 x l2 : (forall y, r = Some y -> y ∈ rows d f o desc) ->
  filter (past_row (N := N) o desc r) (rows d f o desc) = l1 ++ x :: l2 ->
  x ∈ rows d f o desc /\ filter (past_row (N := N) o desc (Some x)) (rows d f o desc) = l2.
Proof.
  intros Hr E. assert (x ∈ rows d f o desc /\ past_row (N := N) o desc r x) as [Hx Hrx].
  { assert (x ∈ l1 ++ x :: l2) as Hx by (apply elem_of_app; right; left). rewrite <- E in Hx. by apply list_elem_of_filter in Hx as [? ?]. }
  split; [done|]. transitivity (filter (past_row (N := N) o desc (Some x)) (filter (past_row (N := N) o desc r) (rows d f o desc))).
  - rewrite list_filter_filter. apply filter_iff_in. intros n Hn. split; [|tauto]. intros Hxn. split; [done|].
    destruct r as [y|]; [|done]. specialize (Hr y eq_refl). rewrite past_between in Hrx, Hxn |- * by done.
    unfold scan_order in *. destruct desc; by eapply lex_lt_trans.
  - pose proof (sorted_sub _ (past_row (N := N) o desc r) _ (rows_sorted e d f Hc Ha o desc)) as Hs. rewrite E in Hs |- *.
    apply (sorted_after (scan_order (row_key (N := N) o) desc)); [apply scan_order_irrefl|apply scan_order_asym|done|].
    intros n Hn. rewrite <- E in Hn. apply list_elem_of_filter in Hn as [_ Hn]. by apply past_between.
Qed.
End rows.

Lemma last_take_split {A} (l : list A) k : 0 < k -> k < length l ->
  exists l1 x, take k l = l1 ++ [x] /\ last (take k l) = Some x /\ l = l1 ++ x :: drop k l.
Proof.
  intros Hk Hl. destruct (take k l) as [|y l'] eqn:E using rev_ind.
  - apply (f_equal length) in E. rewrite length_take in E. cbn in E. lia.
  - clear IHl'. exists l', y. split; [done|]. split; [by rewrite last_snoc|].
    rewrite <- (take_drop k l) at 1. by rewrite E, <- app_assoc.
Qed.

Lemma page_all_from e d f order desc limit :
  consistent (N := N) e d -> answerable e d f -> 0 < limit ->
  let o := normal_order order in
  (o <> None -> length (rows d f o desc) <= cap) -> (forall x, x ∈ rows d f o desc -> resumable e f o x) ->
  forall fuel r, (forall x, r = Some x -> x ∈ rows d f o desc) ->
  length (filter (past_row (N := N) o desc r) (rows d f o desc)) < fuel ->
  page_all fuel e f order desc limit (after_of e f o r) = Ok (filter (past_row (N := N) o desc r) (rows d f o desc)).
Proof.
  intros Hc Ha Hlim o Hcap Hres. induction fuel as [|fuel IH]; intros r Hr Hfuel; [lia|]. cbn [page_all].
  destruct (query_where_page cap max_offset e d f order desc r limit 0 Hc Ha) as [ex E]; [lia|intros x Hx; by apply Hres, Hr|done|].
  fold o in E. rewrite E. cbn [mbind result_bind]. unfold reference_page. cbn [fst snd qp_next qp_nodes].
  replace (drop match r with Some _ => 0 | None => 0 end (filter (past_row o desc r) (rows d f o desc)))
    with (filter (past_row o desc r) (rows d f o desc)) by (by destruct r).
  set (l := filter (past_row (N := N) o desc r) (rows d f o desc)) in *. destruct (decide (limit < length l)) as [Hmore|Hdone].
  - destruct (last_take_split l limit Hlim Hmore) as (l1 & x & Etake & Elast & Esplit). unfold next_cursor at 1. rewrite Elast.
    rewrite bool_decide_eq_true_2 by done. destruct (past_after e d f Hc Ha o desc r l1 x _ Hr Esplit) as [Hx Erest].
    fold (issued e f o x). destruct (cursor_encode (issued e f o x)) as [|b next] eqn:Enext.
    { by destruct (cursor_resumes e f o x (Hres x Hx)). }
    rewrite <- Enext. change (Some (cursor_encode (issued e f o x))) with (after_of e f o (Some x)). rewrite IH, Erest.
    + cbn [mbind result_bind]. by rewrite take_drop.
    + by intros y [= <-].
    + rewrite Erest, length_drop. lia.
  - unfold next_cursor at 1. rewrite bool_decide_eq_false_2 by done. rewrite take_ge by lia. by destruct (last l).
Qed.

(** C27: On queries the plans can answer, the access path does not change the answer.  On a
    consistent engine, for an [answerable] query (its predicate decides every live node, no number
    in the data or in its literals is the negative zero, a folded text index covers only text among
    the matching nodes, and kind and owner fit a key), with an offset within the limit or the cursor
    of a [resumable] row (neither null nor inexact in the ordering field, and within the length the
    decoder takes), and at most [cap] rows when an order is asked for, [query_where] succeeds and
    returns the page of the reference list (the live nodes the filter accepts, ordered by the
    requested field and then by address, in the requested direction) at the offset, or strictly past
    the row whose cursor was passed (live or not), with a cursor exactly when rows remain: whether
    it was answered under an equality prefix, a string prefix, through an inverted index, in the
    order of a declared index, by a built-in index or by sorting. *)
Theorem query_plans_agree e d f order desc r limit offset :
  consistent (N := N) e d -> answerable e d f ->
  (r = None -> offset <= max_offset) -> (forall x, r = Some x -> resumable e f (normal_order order) x) ->
  (normal_order order <> None -> length (rows d f (normal_order order) desc) <= cap) ->
  exists examined,
    query_where cap max_offset e f order desc (after_of e f (normal_order order) r) limit offset =
    Ok (MkPage (reference_page e d f (normal_order order) desc r limit offset).1
               (reference_page e d f (normal_order order) desc r limit offset).2 examined).
Proof. apply query_where_page. Qed.

(** C28: Following the cursors returns every row once, when every row's cursor can be read back.  On a
    consistent engine, for an [answerable] query with at most [cap] rows when an order is asked for,
    all of whose rows are [resumable] (neither null nor inexact in the ordering field, and a cursor
    within the length the decoder takes), a caller that starts without a cursor and passes each
    page's cursor to the next request, with any positive page size, ends after finitely many
    requests with exactly the reference list, in its order. *)
Theorem keyset_paging_exact e d f order desc limit :
  consistent (N := N) e d -> answerable e d f -> 0 < limit ->
  (normal_order order <> None -> length (rows d f (normal_order order) desc) <= cap) ->
  (forall x, x ∈ rows d f (normal_order order) desc -> resumable e f (normal_order order) x) ->
  page_all (S (length (rows d f (normal_order order) desc))) e f order desc limit None = Ok (rows d f (normal_order order) desc).
Proof.
  intros Hc Ha Hlim Hcap Hres. assert (filter (past_row (N := N) (normal_order order) desc None) (rows d f (normal_order order) desc) = rows d f (normal_order order) desc) as E
    by (apply filter_all, Forall_true; done).
  pose proof (page_all_from e d f order desc limit Hc Ha Hlim Hcap Hres (S (length (rows d f (normal_order order) desc))) None) as P.
  rewrite E in P. apply P; [done|lia].
Qed.

(** A cursor can be too long to be used.  When the JSON of the last row's cursor is longer than
    3072 bytes, which a long string in the ordering field makes it, the cursor the page carries is
    refused as one the server did not issue, and the next page cannot be requested. *)
Theorem long_cursor_refused (c : Cursor N) : 3072 < length (cursor_to_vec c) -> cursor_decode (cursor_encode c) = Err QCursor.
Proof.
  intros Hlen. unfold cursor_decode, cursor_encode. pose proof (base64_length (cursor_to_vec c)). unfold MAX_CURSOR_LEN.
  destruct (Nat.ltb_spec 4096 (length (base64url_encode (cursor_to_vec c)))); [done|lia].
Qed.
End paging.

(** ** Examples *)

(** Cursors over strings and nulls, in a format of their own. *)
Definition example_to_vec (c : Cursor double) : list Z :=
  match c_o c with
  | None => 0%Z :: as_bytes (c_a c)
  | Some JNull => 1%Z :: as_bytes (c_a c)
  | Some (JString s) => 2%Z :: component (as_bytes s) ++ as_bytes (c_a c)
  | Some _ => [3%Z]
  end.

Definition example_from_slice (l : list Z) : option (Cursor double) :=
  match l with
  | 0%Z :: a | 1%Z :: a => Some (MkCursor None (string_of_bytes a))
  | 2%Z :: rest => match split_component rest with Some (s, a) => Some (MkCursor (Some (JString (string_of_bytes s))) (string_of_bytes a)) | None => None end
  | _ => None
  end.

Definition example_cursors : CursorJson double := {|
  cursor_to_vec := example_to_vec;
  cursor_from_slice := example_from_slice;
  exact v := match v with JNull => True | JString s => short (as_bytes s) | _ => False end;
|}.

Lemma example_cursor_laws : @CursorLaws double example_cursors.
Proof.
  split.
  - intros [[v|] a]; cbn [cursor_to_vec example_cursors]; unfold example_to_vec; cbn [c_o c_a].
    + destruct v; repeat (apply Forall_cons_2; [unfold is_byte; lia|]); try apply Forall_nil_2; try apply as_bytes_bytes.
      apply Forall_app. split; [apply component_bytes|]; apply as_bytes_bytes.
    + apply Forall_cons_2; [unfold is_byte; lia|apply as_bytes_bytes].
  - intros [[v|] a] He; cbn [cursor_to_vec cursor_from_slice exact example_cursors c_o c_a] in *; unfold example_to_vec; cbn [c_o c_a].
    + destruct v as [| | |s| |]; try done; cbn [example_from_slice].
      * by rewrite string_of_as_bytes.
      * rewrite split_component_app by done. by rewrite !string_of_as_bytes.
    + cbn [example_from_slice]. by rewrite string_of_as_bytes.
Qed.

(** Documents: the text [n] is a null status, any other text is its own status. *)
Definition status_json : SerdeJson double := {|
  num_as_f64 := @num_as_f64 double double_json; num_from_f64 := @num_from_f64 double double_json; num_is_int := @num_is_int double double_json;
  num_eqb := @num_eqb double double_json; to_string := @to_string double double_json;
  from_str := fun s => Some (JObject [("status"%string, if String.eqb s "n" then JNull else JString s)]);
|}.

Lemma status_laws : @SerdeLaws double status_json.
Proof. exact (let '(@Build_SerdeLaws _ _ a b c d) := double_laws in @Build_SerdeLaws double status_json a b c d). Qed.

Section examples.
Local Existing Instance list_heap.
Local Existing Instance list_heap_laws.
Local Existing Instance status_json.
Local Existing Instance status_laws.
Local Existing Instance example_cursors.
Local Existing Instance example_cursor_laws.
Local Open Scope string_scope.

Definition post (a status : string) : Node :=
  MkNode a {| coord_x := 0; coord_y := 0; coord_z := 0; coord_q := 0 |} 0 "Post" status "me" None Public.

Definition posts : list Operation := [OInsert (post "a" "open"); OInsert (post "b" "done"); OInsert (post "c" "open")].
Definition post_engine : engine (St := list HeapRecord) := fst (apply_operations (N := double) posts empty_engine).
Definition post_nodes : logical := foldl logical_apply (MkLogical ∅ ∅ ∅) posts.

Lemma posts_consistent : consistent (N := double) post_engine post_nodes.
Proof.
  destruct (batch_step (N := double) posts empty_engine (MkLogical ∅ ∅ ∅) 0) as (e' & E & Hc & _);
    [apply empty_consistent|cbn; lia|split; [vm_compute; reflexivity|repeat constructor]|].
  unfold post_engine. by rewrite E.
Qed.

Lemma post_cases n : live (l_nodes post_nodes) n -> n = post "a" "open" \/ n = post "b" "done" \/ n = post "c" "open".
Proof.
  unfold live, post_nodes, posts. cbn [foldl logical_apply l_nodes].
  intros [[_ <-]|[_ [[_ <-]|[_ [[_ <-]|[_ Hn]]%lookup_insert_Some]]%lookup_insert_Some]]%lookup_insert_Some; [auto|auto|auto|].
  by rewrite lookup_empty in Hn.
Qed.

(** The open posts, and all of them. *)
Definition open_posts : filters (N := double) := MkFilters (Some "Post") None None (Some open_status) "item".
Definition all_posts : filters (N := double) := MkFilters (Some "Post") None None None "item".

Lemma post_zero_free n : zero_free (N := double) n.
Proof. intros v [= <-]. cbn. by destruct (String.eqb _ _). Qed.

Lemma posts_answerable f : f = open_posts \/ f = all_posts -> answerable post_engine post_nodes f.
Proof.
  intros Hf. split.
  - intros n Hn. destruct Hf as [-> | ->], (post_cases n Hn) as [->|[->| ->]]; eexists; vm_compute; reflexivity.
  - intros n _. apply post_zero_free.
  - intros p field lit Hp Hl. destruct Hf as [-> | ->]; [|done]. injection Hp as <-. unfold equality_literal, open_status in Hl. cbn in Hl.
    destruct (negb (bool_decide (Some "status" = Some field))); [done|]. change (lit_value (lit_of (JString "open"))) with (JString (N := double) "open") in Hl.
    by destruct (negb (bool_decide (Some "item" = Some "item"))); simplify_eq.
  - intros name td t n Ht. assert (e_text post_engine = ∅) as E by (vm_compute; reflexivity). by rewrite E, lookup_empty in Ht.
  - intros k Hk. destruct Hf as [-> | ->]; injection Hk as <-; vm_compute; done.
  - intros k Hk. by destruct Hf as [-> | ->].
Qed.

Lemma query_plans_agree_witness :
  exists examined, query_where 10 10 post_engine open_posts None false
    (after_of post_engine open_posts None (Some (post "a" "open"))) 1 0 = Ok (MkPage [post "c" "open"] [] examined).
Proof.
  destruct (query_plans_agree (N := double) 10 10 post_engine post_nodes open_posts None false (Some (post "a" "open")) 1 0) as [ex E].
  - exact posts_consistent.
  - apply posts_answerable. by left.
  - done.
  - intros x [= <-]. split; [vm_compute; reflexivity|]. split; [apply post_zero_free|]. split; [exact I|].
    split; [vm_compute; discriminate|apply Nat.leb_le; vm_compute; reflexivity].
  - done.
  - exists ex. change (normal_order None) with (@None string) in E. rewrite E. vm_compute. reflexivity.
Defined.

Definition rows_by_status : list Node := [post "b" "done"; post "a" "open"; post "c" "open"].

Lemma keyset_paging_exact_witness : page_all 10 10 4 post_engine all_posts (Some "status") false 1 None = Ok rows_by_status.
Proof.
  assert (rows post_nodes all_posts (Some "status") false = rows_by_status) as E by (vm_compute; reflexivity).
  pose proof (keyset_paging_exact (N := double) 10 10 post_engine post_nodes all_posts (Some "status") false 1 posts_consistent
    (posts_answerable all_posts (or_intror eq_refl))) as P.
  change (normal_order (Some "status")) with (Some "status") in P. rewrite E in P. apply P; [lia|intros _; cbn; lia|].
  intros x Hx. assert (x ∈ rows_by_status -> resumable post_engine all_posts (Some "status") x) as Hres; [|by apply Hres].
  clear. intros [->|[->|[->|?%not_elem_of_nil]%elem_of_cons]%elem_of_cons]%elem_of_cons; [| | |done].
  all: split; [vm_compute; reflexivity|]; split; [apply post_zero_free|]; split; [split; [discriminate|vm_compute; discriminate]|].
  all: split; [vm_compute; discriminate|apply Nat.leb_le; vm_compute; reflexivity].
Defined.

(** A cursor that holds a string of 3073 bytes. *)
Definition long_cursor : Cursor double := MkCursor (Some (JString (string_of_bytes (repeat 97%Z 3073)))) "a".

Lemma long_cursor_refused_witness : cursor_decode (cursor_encode long_cursor) = Err QCursor.
Proof. apply (long_cursor_refused long_cursor). apply Nat.ltb_lt. vm_compute. reflexivity. Defined.

(** ** Where cursors do not resume *)

Definition null_engine : engine (St := list HeapRecord) :=
  fst (apply_operations (N := double) [OInsert (post "a" "n"); OInsert (post "b" "open")] empty_engine).

Definition first_page (q : result query_error QueryPage) : list Node * list Z :=
  match q with Ok p => (qp_nodes p, qp_next p) | Err _ => ([], []) end.

(** A null order value loses rows.  Two posts ordered by a field that is null in the first: the
    first page of one row carries a cursor; the request with that cursor returns an empty last page,
    because the null in the cursor reads back as an absent value, which sorts after every other, so
    the second post is never returned. *)
Theorem null_cursor_loses_rows :
  let page1 := first_page (query_where 10 10 null_engine all_posts (Some "status") false None 1 0) in
  page1.1 = [post "a" "n"] /\ page1.2 <> [] /\
  first_page (query_where 10 10 null_engine all_posts (Some "status") false (Some page1.2) 1 0) = ([], []) /\
  first_page (query_where 10 10 null_engine all_posts (Some "status") false None 2 0) = ([post "a" "n"; post "b" "open"], []).
Proof. vm_compute. repeat split; discriminate. Qed.

Definition status_index : IndexDef := {| def_name := "by_status"; def_kind := "Post"; def_field := "status"; def_unique := false |}.
Definition indexed_engine : engine (St := list HeapRecord) := fst (apply_operation (N := double) (OCreateIndex status_index) post_engine).

(** Declaring an index invalidates outstanding cursors.  The first of the two open posts is
    returned with a cursor; when an index on the predicate's field is declared before the next
    request, that cursor, which holds no order value, resumes past every entry of the index and the
    second post is not returned. *)
Theorem index_declaration_loses_rows :
  let page1 := first_page (query_where 10 10 post_engine open_posts None false None 1 0) in
  page1.1 = [post "a" "open"] /\ page1.2 <> [] /\
  first_page (query_where 10 10 post_engine open_posts None false (Some page1.2) 1 0) = ([post "c" "open"], []) /\
  first_page (query_where 10 10 indexed_engine open_posts None false (Some page1.2) 1 0) = ([], []).
Proof. vm_compute. repeat split; discriminate. Qed.
End examples.
