(* ===== verification/Aggregate.v ===== *)
(** * Aggregates ([src/src/core/aggregate.rs])

    The fold behind [count], [sum], [avg], [min] and [max]: what one row
    contributes, and the value at the end.  The theorems: a sum of integers is
    the exact sum and never overflows its accumulator, an extreme is a least (or
    greatest) value of the column, rows without a value contribute nothing, and
    a value that is not a number fails a sum. *)

From Stdlib Require Import ZArith Lia SpecFloat Ascii String.
From stdpp Require Import base tactics list strings option.
From S2P Require Import Prelude Keys Json OrderKey QueryRows.

Inductive AggFunc := Count | Sum | Avg | Min | Max.

#[export] Instance AggFunc_eq_dec : EqDecision AggFunc.
Proof. solve_decision. Defined.

Definition agg_parse (name : string) : option AggFunc :=
  if String.eqb name "count" then Some Count
  else if String.eqb name "sum" then Some Sum
  else if String.eqb name "avg" then Some Avg
  else if String.eqb name "min" then Some Min
  else if String.eqb name "max" then Some Max
  else None.

Definition agg_name (func : AggFunc) : string :=
  match func with Count => "count" | Sum => "sum" | Avg => "avg" | Min => "min" | Max => "max" end.

Definition func_needs_field (func : AggFunc) : bool := negb (bool_decide (func = Count)).

Record AggSpec := MkSpec { s_func : AggFunc; s_field : option string }.

Definition spec_count : AggSpec := MkSpec Count None.

Definition spec_new (func : AggFunc) (field : option string) : result unit AggSpec :=
  match func_needs_field func, field with
  | true, None | true, Some "" => Err tt
  | false, Some f => if String.eqb f "" then Ok (MkSpec func None) else Err tt
  | _, _ => Ok (MkSpec func field)
  end.

Definition needs_field (s : AggSpec) : bool := func_needs_field (s_func s).

(** Integers among [serde_json]'s numbers. *)
Class IntJson (N : Type) := {
  num_as_i64 : N -> option Z;
  num_of_i64 : Z -> N;
  num_of_u64 : Z -> N;
}.

Class IntLaws (N : Type) `{IntJson N} : Prop := {
  num_as_i64_range n i : num_as_i64 n = Some i -> (- 2 ^ 63 <= i < 2 ^ 63)%Z;
}.

Section fold.
Context {N : Type} `{SerdeJson N} `{IntJson N}.

Record Accumulator := MkAcc {
  a_func : AggFunc;
  a_rows : Z;
  a_contributed : Z;
  a_int_sum : Z;
  a_float_sum : f64;
  a_all_int : bool;
  a_extreme : option (value N);
}.

Definition acc_new (func : AggFunc) : Accumulator := MkAcc func 0 0 0 f64_zero true None.

(** A row in: its count, then its value when it has one. *)
Definition acc_fold (acc : Accumulator) (v : option (value N)) : result unit Accumulator :=
  let '(MkAcc func rows contributed int_sum float_sum all_int extreme) := acc in
  let rows := (rows + 1)%Z in
  let skip := Ok (MkAcc func rows contributed int_sum float_sum all_int extreme) in
  match func with
  | Count => skip
  | _ =>
      match v with
      | None | Some JNull => skip
      | Some v =>
          match func with
          | Min | Max =>
              let better := match extreme with
                            | None => true
                            | Some current =>
                                bool_decide (compare_order_values (Some v) (Some current) = match func with Min => Lt | _ => Gt end)
                            end in
              Ok (MkAcc func rows (contributed + 1) int_sum float_sum all_int (if better then Some v else extreme))
          | _ =>
              match as_f64 v with
              | None => Err tt
              | Some x =>
                  match (if all_int then match v with JNumber n => num_as_i64 n | _ => None end else None) with
                  | Some i => Ok (MkAcc func rows (contributed + 1) (int_sum + i) float_sum all_int extreme)
                  | None =>
                      let start := if all_int then f64_of_Z int_sum else float_sum in
                      Ok (MkAcc func rows (contributed + 1) int_sum (f64_add start x) false extreme)
                  end
              end
          end
      end
  end.

Definition acc_fold_rows (acc : Accumulator) (by_ : Z) : Accumulator :=
  MkAcc (a_func acc) (a_rows acc + by_) (a_contributed acc) (a_int_sum acc) (a_float_sum acc) (a_all_int acc) (a_extreme acc).

Definition number_from_f64 (total : f64) : value N :=
  match num_from_f64 total with Some n => JNumber n | None => JNull end.

Definition number_from_i128 (total : Z) : value N :=
  if ((- 2 ^ 63 <=? total) && (total <? 2 ^ 63))%Z then JNumber (num_of_i64 total) else number_from_f64 (f64_of_Z total).

Definition acc_finish (acc : Accumulator) : value N :=
  match a_func acc with
  | Count => JNumber (num_of_u64 (a_rows acc))
  | Sum => if a_all_int acc then number_from_i128 (a_int_sum acc) else number_from_f64 (a_float_sum acc)
  | Avg =>
      if (a_contributed acc =? 0)%Z then JNull
      else
        let total := if a_all_int acc then f64_of_Z (a_int_sum acc) else a_float_sum acc in
        number_from_f64 (f64_div total (f64_of_Z (a_contributed acc)))
  | Min | Max => default JNull (a_extreme acc)
  end.

(** A column folded in order. *)
Fixpoint fold_all (acc : Accumulator) (vs : list (option (value N))) : result unit Accumulator :=
  match vs with
  | [] => Ok acc
  | v :: vs => acc ← acc_fold acc v; fold_all acc vs
  end.

(** ** Counting *)

Lemma fold_keeps_func acc v acc' : acc_fold acc v = Ok acc' -> a_func acc' = a_func acc /\ a_rows acc' = (a_rows acc + 1)%Z.
Proof.
  destruct acc as [func rows c i fl ai ex]. unfold acc_fold. destruct func, v as [v|]; try (by intros [= <-]).
  1,2: destruct v; cbn [as_f64]; try done; try (by intros [= <-]); destruct (num_as_f64 n); [|done]; destruct (if ai then num_as_i64 n else None); by intros [= <-].
  all: destruct v; by intros [= <-].
Qed.

Lemma fold_count acc n : a_func acc = Count -> fold_all acc (replicate n None) = Ok (acc_fold_rows acc (Z.of_nat n)).
Proof.
  revert acc. induction n as [|n IH]; intros [func rows c i fl ai ex] E; cbn in E; subst func.
  - cbn. unfold acc_fold_rows. cbn. by rewrite Z.add_0_r.
  - cbn [replicate fold_all acc_fold mbind result_bind]. rewrite IH by done. unfold acc_fold_rows. cbn [a_func a_rows a_contributed a_int_sum a_float_sum a_all_int a_extreme].
    do 2 f_equal. lia.
Qed.

(** ** Sums *)

(** The value as an integer, and the integers of a column. *)
Definition int_of (v : option (value N)) : option Z := match v with Some (JNumber n) => num_as_i64 n | _ => None end.
Definition is_blank (v : option (value N)) : bool := match v with None | Some JNull => true | _ => false end.

Definition column_sum (vs : list (option (value N))) : Z := foldr (fun v s => default 0 (int_of v) + s)%Z 0%Z vs.
Definition column_count (vs : list (option (value N))) : Z := foldr (fun v s => (if is_blank v then 0 else 1) + s)%Z 0%Z vs.

Context `{!SerdeLaws N} `{!IntLaws N}.

Definition integral (vs : list (option (value N))) : Prop := Forall (fun v => is_blank v = true \/ is_Some (int_of v)) vs.

Lemma fold_integers vs acc : (a_func acc = Sum \/ a_func acc = Avg) -> a_all_int acc = true -> integral vs ->
  fold_all acc vs = Ok (MkAcc (a_func acc) (a_rows acc + Z.of_nat (length vs)) (a_contributed acc + column_count vs)
    (a_int_sum acc + column_sum vs) (a_float_sum acc) true (a_extreme acc)).
Proof.
  intros Hf Hai Hv. revert acc Hf Hai. induction Hv as [|v vs Hv Hvs IH]; intros [func rows c i fl ai ex] Hf Hai; cbn [a_func a_all_int] in *; subst ai.
  - cbn. by rewrite !Z.add_0_r.
  - cbn [fold_all]. assert (acc_fold (MkAcc func rows c i fl true ex) v =
      Ok (MkAcc func (rows + 1) (c + (if is_blank v then 0 else 1)) (i + default 0%Z (int_of v)) fl true ex)) as ->.
    { destruct Hv as [Hb|[z Hz]].
      - destruct v as [[]|]; try discriminate Hb; destruct Hf as [-> | ->]; cbn; by rewrite !Z.add_0_r.
      - destruct v as [[| |n| | |]|]; try discriminate Hz. cbn [int_of] in Hz. destruct (num_as_f64_finite n) as (x & Hx & _).
        destruct Hf as [-> | ->]; cbn [acc_fold as_f64 is_blank int_of]; rewrite Hx, Hz; done. }
    cbn [mbind result_bind]. rewrite IH by done. cbn [a_func a_rows a_contributed a_int_sum a_float_sum a_extreme length].
    change (column_sum (v :: vs)) with (default 0%Z (int_of v) + column_sum vs)%Z.
    change (column_count (v :: vs)) with ((if is_blank v then 0 else 1) + column_count vs)%Z.
    do 2 f_equal; lia.
Qed.

Lemma column_sum_bound vs : (- (Z.of_nat (length vs) * 2 ^ 63) <= column_sum vs <= Z.of_nat (length vs) * 2 ^ 63)%Z.
Proof.
  induction vs as [|v vs IH]; cbn [column_sum foldr length]; [lia|]. rewrite Nat2Z.inj_succ.
  fold (column_sum vs). assert (- 2 ^ 63 <= default 0%Z (int_of v) <= 2 ^ 63)%Z; [|lia].
  destruct v as [[| |n| | |]|]; cbn [int_of from_option id]; try lia. destruct (num_as_i64 n) as [i|] eqn:E; cbn [from_option id]; [|lia].
  apply num_as_i64_range in E. lia.
Qed.

(** ** Extremes *)

(** No value of the column is before the extreme in the order of the aggregate. *)
Definition not_before (func : AggFunc) (a b : value N) : Prop :=
  compare_order_values (Some b) (Some a) <> match func with Min => Lt | _ => Gt end.

Definition better_of (func : AggFunc) (a b : value N) : Prop :=
  compare_order_values (Some a) (Some b) = match func with Min => Lt | _ => Gt end.

Lemma better_not_before func a b c : better_of func a b -> not_before func b c -> not_before func a c.
Proof.
  unfold better_of, not_before. rewrite <- !value_key_cmp.
  generalize (value_key (Some a)), (value_key (Some b)), (value_key (Some c)). intros x y z.
  destruct func; intros Hxy Hyz Hzx; apply Hyz; clear Hyz; rewrite ?lex_gt_lt in *;
    try (by eapply lex_lt_trans); apply lex_gt_lt; by eapply lex_lt_trans.
Qed.

Lemma better_trans func a b c : better_of func a b -> better_of func b c -> better_of func a c.
Proof.
  unfold better_of. rewrite <- !value_key_cmp. destruct func; rewrite ?lex_gt_lt; intros Hxy Hyz; try (by eapply lex_lt_trans).
Qed.

Lemma fold_extreme vs acc : (a_func acc = Min \/ a_func acc = Max) ->
  exists acc', fold_all acc vs = Ok acc' /\ a_func acc' = a_func acc /\
    (forall c, a_extreme acc' = Some c -> a_extreme acc = Some c \/ (Some c ∈ vs /\ c <> JNull)) /\
    (forall c, a_extreme acc = Some c -> exists c', a_extreme acc' = Some c' /\ (c' = c \/ better_of (a_func acc) c' c)) /\
    (forall v, Some v ∈ vs -> v <> JNull -> exists c, a_extreme acc' = Some c /\ not_before (a_func acc) c v).
Proof.
  revert acc. induction vs as [|v vs IH]; intros acc Hf.
  - exists acc. split; [done|]. split; [done|]. split; [auto|]. split; [eauto|]. by intros v ?%not_elem_of_nil.
  - destruct acc as [func rows c i fl ai ex]. cbn [a_func a_extreme] in *. cbn [fold_all].
    assert (exists ex', acc_fold (MkAcc func rows c i fl ai ex) v = Ok (MkAcc func (rows + 1) (c + (if is_blank v then 0 else 1)) i fl ai ex') /\
      (ex' = ex \/ (exists w, v = Some w /\ w <> JNull /\ ex' = Some w /\ forall x, ex = Some x -> better_of func w x)) /\
      (forall w, v = Some w -> w <> JNull -> exists x, ex' = Some x /\ not_before func x w)) as (ex' & -> & Hor & Hv).
    { destruct (is_blank v) eqn:Hb.
      - exists ex. rewrite Z.add_0_r. split; [|split; [by left|]].
        + destruct v as [[]|]; try discriminate Hb; by destruct Hf as [-> | ->].
        + intros w -> Hw. by destruct w.
      - destruct v as [w|]; [|done]. assert (w <> JNull) as Hw by (by intros ->).
        assert (forall ex, acc_fold (MkAcc func rows c i fl ai ex) (Some w) = Ok (MkAcc func (rows + 1) (c + 1) i fl ai
          (if match ex with None => true | Some current => bool_decide (compare_order_values (Some w) (Some current) = match func with Min => Lt | _ => Gt end) end
           then Some w else ex))) as Ef by (intros ex0; destruct Hf as [-> | ->]; by destruct w).
        rewrite Ef. assert (not_before func w w) as Hself.
        { unfold not_before. rewrite <- value_key_cmp, lex_cmp_refl. by destruct func. }
        destruct ex as [x|].
        + destruct (bool_decide_reflect (compare_order_values (Some w) (Some x) = match func with Min => Lt | _ => Gt end)) as [Hbt|Hnb].
          * exists (Some w). split; [done|]. split; [right; exists w; split; [done|]; split; [done|]; split; [done|]; by intros ? [= <-]|].
            intros u [= <-] _. eauto.
          * exists (Some x). split; [done|]. split; [by left|]. intros u [= <-] _. exists x. split; [done|]. exact Hnb.
        + exists (Some w). split; [done|]. split; [right; exists w; by repeat split|]. intros u [= <-] _. eauto. }
    cbn [mbind result_bind]. destruct (IH (MkAcc func (rows + 1) (c + (if is_blank v then 0 else 1)) i fl ai ex') Hf) as (acc' & E & Hfunc & H1' & H2' & H3').
    cbn [a_func a_extreme] in *. exists acc'. split; [done|]. split; [done|]. split; [|split].
    + intros u Hu. destruct (H1' u Hu) as [->|[Hin Hn]]; [|right; split; [by right|done]].
      destruct Hor as [<-|(w & -> & Hw & [= ->] & _)]; [by left|right; split; [left|done]].
    + intros u Hu. destruct Hor as [->|(w & -> & Hw & -> & Hbt)]; [by apply H2'|].
      destruct (H2' w eq_refl) as (c' & Hc' & Hor'). exists c'. split; [done|]. right. specialize (Hbt u Hu). destruct Hor' as [->|Hb']; [done|]. by eapply better_trans.
    + intros u [<-|Hin]%elem_of_cons Hu; [|by apply H3'].
      destruct (Hv u eq_refl Hu) as (x & -> & Hx). destruct (H2' x eq_refl) as (c' & Hc' & [->|Hb']); [eauto|].
      exists c'. split; [done|]. by eapply better_not_before.
Qed.
End fold.

Section claims.
Context {N : Type} `{SerdeJson N} `{IntJson N} `{!SerdeLaws N} `{!IntLaws N}.

(** A sum of integers is exact.  Over a column of integers, absent values and nulls, fewer than
    2^64 of them, no partial sum leaves the 128-bit accumulator, and the result is the integer sum,
    as an integer when it fits in 64 bits and as the nearest double otherwise. *)
Theorem sum_exact (vs : list (option (value N))) :
  integral vs -> (Z.of_nat (length vs) < 2 ^ 64)%Z ->
  (forall k, - 2 ^ 127 <= column_sum (take k vs) < 2 ^ 127)%Z /\
  exists acc, fold_all (acc_new Sum) vs = Ok acc /\ a_int_sum acc = column_sum vs /\
    acc_finish acc = (if ((- 2 ^ 63 <=? column_sum vs) && (column_sum vs <? 2 ^ 63))%Z then JNumber (num_of_i64 (column_sum vs))
                      else number_from_f64 (f64_of_Z (column_sum vs))).
Proof.
  intros Hv Hn. split.
  - intros k. pose proof (column_sum_bound (take k vs)). rewrite length_take in *. nia.
  - eexists. split; [apply fold_integers; [by left|done|done]|]. cbn [acc_new a_func a_int_sum acc_finish a_all_int]. rewrite Z.add_0_l. done.
Qed.

(** An extreme is a value of the column that no value is before, and null when there is none. *)
Theorem extreme_exact (func : AggFunc) (vs : list (option (value N))) :
  func = Min \/ func = Max ->
  exists acc, fold_all (acc_new func) vs = Ok acc /\
    ((Forall (fun v => is_blank v = true) vs /\ acc_finish acc = JNull) \/
     (Some (acc_finish acc) ∈ vs /\ forall v, Some v ∈ vs -> v <> JNull -> not_before func (acc_finish acc) v)).
Proof.
  intros Hf. destruct (fold_extreme vs (acc_new func) Hf) as (acc & E & Hfunc & H1' & _ & H3'). exists acc. split; [done|].
  cbn [acc_new a_func a_extreme] in *. assert (acc_finish acc = default JNull (a_extreme acc)) as Efin.
  { unfold acc_finish. rewrite Hfunc. by destruct Hf as [-> | ->]. }
  rewrite Efin. destruct (a_extreme acc) as [c|] eqn:Ec; cbn [from_option id].
  - right. destruct (H1' c eq_refl) as [|[Hin _]]; [done|]. split; [done|]. intros v Hv Hn. by destruct (H3' v Hv Hn) as (? & [= <-] & ?).
  - left. split; [|done]. apply Forall_forall. intros [v|] Hv; [|done]. apply list_elem_of_In in Hv. destruct v; try done; by destruct (H3' _ Hv) as (? & ? & _).
Qed.
End claims.

(** Integers are the integral doubles of 64 bits, in an instance for the examples. *)
Definition double_to_int (x : f64) : option Z :=
  match x with
  | S754_zero _ => Some 0%Z
  | S754_finite s m e => if (e =? 0)%Z then Some (cond_Zopp s (Zpos m)) else None
  | _ => None
  end.

Definition clamp_i64 (z : Z) : option Z := if ((- 2 ^ 63 <=? z) && (z <? 2 ^ 63))%Z then Some z else None.

Definition double_ints : IntJson double := {|
  num_as_i64 n := double_to_int (proj1_sig n) ≫= clamp_i64;
  num_of_i64 z := match double_of (f64_of_Z z) with Some n => n | None => exist _ f64_zero eq_refl end;
  num_of_u64 z := match double_of (f64_of_Z z) with Some n => n | None => exist _ f64_zero eq_refl end;
|}.

Lemma double_int_laws : @IntLaws double double_ints.
Proof.
  split. intros n i. cbn. destruct (double_to_int (proj1_sig n)) as [z|]; [|done]. cbn. unfold clamp_i64.
  destruct (_ && _) eqn:E; [|done]. intros [= <-]. apply andb_prop in E as [?%Z.leb_le ?%Z.ltb_lt]. lia.
Qed.

(** The least positive normal number with exponent 0, and its negation. *)
Definition big : value double := dbl (S754_finite false 4503599627370497 0) eq_refl.
Definition minus_big : value double := dbl (S754_finite true 4503599627370496 0) eq_refl.

Lemma sum_exact_witness :
  exists acc, @fold_all double double_json double_ints (acc_new Sum) [Some big; None; Some JNull; Some minus_big] = Ok acc /\ a_int_sum acc = 1%Z.
Proof.
  destruct (@sum_exact double double_json double_ints double_laws double_int_laws [Some big; None; Some JNull; Some minus_big]) as [_ (acc & E & Es & _)].
  - repeat (apply Forall_cons_2; [first [by left|right; vm_compute; by eexists]|]). apply Forall_nil_2.
  - cbn. lia.
  - exists acc. split; [exact E|]. rewrite Es. vm_compute. reflexivity.
Defined.
