(* ===== verification/QueryFold.v ===== *)
(** * Counts, aggregates and groups ([src/src/storage/engine.rs])

    [count_where], [aggregate_where], [count_by] and [aggregate_by] with every
    access path of theirs, and the theorem that the path changes neither which
    rows are folded nor in which order. *)

From Stdlib Require Import ZArith Lia SpecFloat Ascii String.
From stdpp Require Import base tactics list strings option gmap sorting.
From S2P Require Import Prelude Binary BTree BTreeCells BTreeRead Keys Json GoLower OrderKey Predicate Search Entities Wal Transaction Engine EngineRep EngineApply EngineOps EngineTheorems Query QueryScan QueryRows QueryPaths QueryText QueryTheorems QueryPaging Aggregate.

Local Open Scope key_scope.

Section fold.
Context {St : Type} `{RecordStore St} {N : Type} `{SerdeJson N} `{IntJson N} `{CursorJson N}.
Context (cap : nat).
Implicit Types (e : engine (St := St)) (f : filters (N := N)).

Definition acc_error {A} (r : result unit A) : result query_error A := match r with Ok a => Ok a | Err _ => Err QAggregate end.

(** What a matching row contributes. *)
Definition row_value (spec : AggSpec) (n : Node) : option (value N) :=
  if needs_field spec then get_field (node_data n) (default ""%string (s_field spec)) else None.

(** The closure [visit] of [fold_where]. *)
Definition fold_row f (spec : AggSpec) (acc : Accumulator (N := N)) (n : Node) : result query_error Accumulator :=
  if negb (selected f n) then Ok acc
  else
    match f_predicate f with
    | None => acc_error (acc_fold acc (row_value spec n))
    | Some expr =>
        match eval expr (f_item_var f) (node_data n) with
        | Err x => Err (QPredicate x)
        | Ok v => if is_true v then acc_error (acc_fold acc (row_value spec n)) else Ok acc
        end
    end.

(** The same inside a scan: a failure is kept and stops it. *)
Definition fold_visit f (spec : AggSpec) (s : Accumulator (N := N) * option query_error) (n : Node) :
    result error_kind (Accumulator (N := N) * option query_error * bool) :=
  match fold_row f spec s.1 n with
  | Ok acc => Ok (acc, s.2, true)
  | Err x => Ok (s.1, Some x, false)
  end.

Definition fold_end (r : result error_kind (Accumulator (N := N) * option query_error)) : result query_error (Accumulator (N := N)) :=
  s ← io_message r;
  match s.2 with Some x => Err x | None => Ok s.1 end.

(** The membership index whose keys alone answer a count. *)
Definition key_count e f : option (builtin * list Z) :=
  match f_kind f, f_owner f with
  | Some k, None => Some (Kind, kind_prefix (as_bytes k))
  | None, Some o => Some (Owner, owner_prefix (as_bytes o))
  | _, _ => None
  end.

Fixpoint fold_addresses e f (spec : AggSpec) (acc : Accumulator (N := N)) (l : list string) : result query_error (Accumulator (N := N)) :=
  match l with
  | [] => Ok acc
  | a :: l =>
      n ← io_message (fetch e a);
      match n with
      | None => fold_addresses e f spec acc l
      | Some n => acc ← fold_row f spec acc n; fold_addresses e f spec acc l
      end
  end.

Definition fold_where e f (spec : AggSpec) (acc : Accumulator (N := N)) : result query_error (Accumulator (N := N)) :=
  match (if bool_decide (f_predicate f = None) && bool_decide (f_requester f = None) && negb (needs_field spec) then key_count e f else None) with
  | Some (i, prefix) => Ok (acc_fold_rows acc (Z.of_nat (length (tree_scan (e_trees e i) prefix None false))))
  | None =>
      match equality_prefix_plan e f None with
      | Some (_, t, literal) =>
          fold_end (visit_entries (visit_data_entry e (fold_visit f spec)) (acc, None) (tree_scan t (encode_order_value (Some literal)) None false))
      | None =>
          match text_candidate_plan cap e f with
          | Some candidates => fold_addresses e f spec acc candidates
          | None => fold_end (scan_candidates e (f_kind f) (f_owner f) None false (fold_visit f spec) (acc, None))
          end
      end
  end.

Definition count_where e f : result query_error Z :=
  acc ← fold_where e f spec_count (acc_new Count);
  Ok (a_rows acc).

Definition aggregate_where e f (spec : AggSpec) : result query_error (value N) :=
  acc ← fold_where e f spec (acc_new (s_func spec));
  Ok (acc_finish acc).
End fold.

(** ** The path does not change the fold *)

Section proofs.
Context {St : Type} `{RecordStoreLaws St} {N : Type} `{SerdeLaws N} `{IntJson N} `{CursorJson N}.
Context (cap : nat).
Implicit Types (e : engine (St := St)) (d : logical) (f : filters (N := N)).

(** The rows folded in order. *)
Fixpoint fold_rows (spec : AggSpec) (acc : Accumulator (N := N)) (l : list Node) : result query_error (Accumulator (N := N)) :=
  match l with
  | [] => Ok acc
  | n :: l => acc ← acc_error (acc_fold acc (row_value spec n)); fold_rows spec acc l
  end.

Lemma fold_row_matched f spec acc n : (exists b, matches f n = Ok b) ->
  fold_row f spec acc n = if decide (matched f n) then acc_error (acc_fold acc (row_value spec n)) else Ok acc.
Proof.
  intros [b Hb]. case_decide as Hm; unfold matched in Hm; unfold fold_row, matches in *; destruct (selected f n); cbn [negb] in *; try done.
  all: destruct (f_predicate f) as [p|]; [|done]; destruct (eval p _ _) as [v|]; [|done]; by destruct (is_true v).
Qed.

Lemma fold_visit_rows f spec ns acc : decides f ns ->
  fold_end (visit_entries (fold_visit f spec) (acc, None) ns) = fold_rows spec acc (filter (matched f) ns).
Proof.
  intros Hd. revert acc. induction Hd as [|n ns Hn Hd IH]; intros acc; [done|]. cbn [visit_entries]. unfold fold_visit at 1. cbn [fst snd].
  rewrite fold_row_matched, filter_cons by done. case_decide; [|apply IH]. cbn [fold_rows].
  destruct (acc_error _) as [acc'|]; [apply IH|done].
Qed.

Lemma fold_addresses_rows e d f spec l acc : consistent (N := N) e d -> answerable e d f ->
  fold_addresses e f spec acc l = fold_rows spec acc (filter (matched f) (omap (fun a => l_nodes d !! a) l)).
Proof.
  intros Hc Ha. revert acc. induction l as [|a l IH]; intros acc; [done|]. cbn [fold_addresses omap list_omap]. rewrite (fetch_run e d) by done.
  cbn [io_message mbind result_bind]. destruct (l_nodes d !! a) as [n|] eqn:En; [|apply IH].
  rewrite fold_row_matched, filter_cons; [|apply (ans_decides _ _ _ Ha); unfold live; by rewrite (keyed_nodes e d Hc a n En)].
  case_decide; [|cbn [mbind result_bind]; apply IH]. cbn [fold_rows]. destruct (acc_error _) as [acc'|]; cbn [mbind result_bind]; [apply IH|done].
Qed.

Lemma omap_length {A B} (g : A -> option B) l : (forall x, x ∈ l -> is_Some (g x)) -> length (omap g l) = length l.
Proof.
  induction l as [|x l IH]; intros Hg; [done|]. cbn [omap list_omap]. destruct (Hg x ltac:(left)) as [b ->]. cbn [length].
  rewrite IH; [done|]. intros y Hy. apply Hg. by right.
Qed.

(** The keys of one component of a membership index are as many as the nodes they list. *)
Lemma key_count_rows e d (i : builtin) entries (part : Node -> string) c :
  consistent (N := N) e d -> members entries (l_nodes d) (e_trees e i) -> short (as_bytes c) ->
  (forall n, entries n = [component (as_bytes (part n)) ++ as_bytes (n_address n)]) ->
  (forall n, live (l_nodes d) n -> short (as_bytes (part n))) ->
  exists ns, length (tree_scan (e_trees e i) (component (as_bytes c)) None false) = length ns /\
    (forall n, n ∈ ns <-> live (l_nodes d) n /\ part n = c) /\ StronglySorted (scan_order (row_key (N := N) None) false) ns.
Proof.
  intros Hc Hm Hs Hent Hshort. destruct (component_rows e d i entries part c None false Hc Hm Hs Hent Hshort) as [Hin Hsort].
  cbn [fmap option_fmap option_map] in Hin, Hsort. eexists. split; [|split; [|exact Hsort]].
  - symmetry. apply omap_length. intros [k v] Hk. rewrite tree_scan_range in Hk; [|done|].
    + unfold range_entries in Hk. apply list_elem_of_filter in Hk as [[Hp _] Hk%elem_tree_sorted]. cbn [fst] in *.
      apply Hm in Hk as [_ (a & n & Hn & Hk)]. rewrite Hent in Hk. apply list_elem_of_singleton in Hk as ->.
      assert (live (l_nodes d) n) as Hl by (unfold live; by rewrite (keyed_nodes e d Hc a n Hn)).
      apply component_prefix in Hp; [|by apply Hshort|done]. rewrite Hp. unfold key_address. rewrite length_app, Nat.min_l by lia.
      rewrite drop_app_length, string_of_as_bytes. by exists n.
    + intros k' v' [_ (a & n & _ & Hk')]%Hm. rewrite Hent in Hk'. apply list_elem_of_singleton in Hk' as ->.
      apply Forall_app. split; [apply component_bytes|]; apply as_bytes_bytes.
  - intros n. rewrite Hin. unfold past_cursor. tauto.
Qed.

Lemma fold_rows_count spec acc l : needs_field spec = false -> a_func acc = s_func spec ->
  fold_rows spec acc l = Ok (acc_fold_rows acc (Z.of_nat (length l))).
Proof.
  intros Hn Hf. assert (a_func acc = Count) as Hcount.
  { rewrite Hf. unfold needs_field, func_needs_field in Hn. apply negb_false_iff, bool_decide_eq_true in Hn. done. }
  clear Hf. revert acc Hcount. induction l as [|n l IH]; intros acc Hcount.
  - destruct acc. unfold acc_fold_rows. cbn. by rewrite Z.add_0_r.
  - cbn [fold_rows length]. unfold row_value. rewrite Hn. destruct acc as [func rows c i fl ai ex]. cbn in Hcount. subst func.
    cbn [acc_fold acc_error mbind result_bind]. rewrite IH by done. unfold acc_fold_rows.
    cbn [a_func a_rows a_contributed a_int_sum a_float_sum a_all_int a_extreme]. do 2 f_equal. lia.
Qed.

(** A list of live nodes in address order that holds every matching one yields the reference rows. *)
Lemma all_rows e d f ns : consistent (N := N) e d -> answerable e d f -> (forall n, n ∈ ns -> live (l_nodes d) n) ->
  StronglySorted (scan_order (row_key (N := N) None) false) ns -> (forall n, live (l_nodes d) n -> matched f n -> n ∈ ns) ->
  filter (matched f) ns = rows d f None false.
Proof.
  intros Hc Ha Hl Hs Hall. rewrite (path_rows e d f Hc Ha ns None false None Hl Hs); [by apply filter_all, Forall_true|].
  intros n Hn Hm. split; [done|]. intros _. by apply Hall.
Qed.

(** The index-only count. *)
Lemma key_count_path e d f i prefix : consistent (N := N) e d -> answerable e d f ->
  f_predicate f = None -> f_requester f = None -> key_count e f = Some (i, prefix) ->
  length (tree_scan (e_trees e i) prefix None false) = length (rows d f None false).
Proof.
  intros Hc Ha Hp Hq Hkey.
  assert (exists ns, length (tree_scan (e_trees e i) prefix None false) = length ns /\
    (forall n, n ∈ ns <-> live (l_nodes d) n /\ matched f n) /\ StronglySorted (scan_order (row_key (N := N) None) false) ns) as (ns & -> & Hin & Hsort).
  { unfold key_count in Hkey. destruct (f_kind f) as [k|] eqn:Hk, (f_owner f) as [o|] eqn:Ho; try done; injection Hkey as <- <-.
    - destruct (key_count_rows e d Kind kind_entries n_kind k Hc) as (ns & E & Hin & Hs); [apply Hc|by apply (ans_kind _ _ _ Ha)|done| |].
      + intros n Hl. destruct (c_nodes _ _ Hc _ n Hl) as [_ Hok]. by apply node_ok_spec in Hok as ((_ & ? & _) & _).
      + exists ns. split; [done|]. split; [|done]. intros n. rewrite Hin. apply and_iff_compat_l. unfold matched, matches, selected. rewrite Hk, Ho, Hq, Hp.
        destruct (String.eqb_spec (n_kind n) k); cbn; split; congruence.
    - destruct (key_count_rows e d Owner owner_entries n_owner o Hc) as (ns & E & Hin & Hs); [apply Hc|by apply (ans_owner _ _ _ Ha)|done| |].
      + intros n Hl. destruct (c_nodes _ _ Hc _ n Hl) as [_ Hok]. by apply node_ok_spec in Hok as ((_ & _ & ?) & _).
      + exists ns. split; [done|]. split; [|done]. intros n. rewrite Hin. apply and_iff_compat_l. unfold matched, matches, selected. rewrite Hk, Ho, Hq, Hp.
        destruct (String.eqb_spec (n_owner n) o); cbn; split; congruence. }
  rewrite <- (all_rows e d f ns Hc Ha); [|by intros n [? _]%Hin|done|by intros n ? ?; apply Hin]. rewrite filter_all; [done|].
  apply Forall_forall. by intros n [_ ?]%Hin.
Qed.

Lemma fold_where_rows e d f spec acc : consistent (N := N) e d -> answerable e d f -> a_func acc = s_func spec ->
  fold_where cap e f spec acc = fold_rows spec acc (rows d f None false).
Proof.
  intros Hc Ha Hf. unfold fold_where. set (fast := bool_decide (f_predicate f = None) && bool_decide (f_requester f = None) && negb (needs_field spec)).
  destruct (if fast then key_count e f else None) as [[i prefix]|] eqn:Hfast.
  { unfold fast in Hfast. destruct (bool_decide (f_predicate f = None) && bool_decide (f_requester f = None) && negb (needs_field spec)) eqn:Hb; [|done].
    apply andb_prop in Hb as [[Hp%bool_decide_eq_true_1 Hq%bool_decide_eq_true_1]%andb_prop Hn%negb_true_iff].
    by rewrite fold_rows_count, (key_count_path e d f i prefix). }
  clear Hfast. destruct (equality_prefix_plan e f None) as [[[def t] lit]|] eqn:Heq.
  { unfold equality_prefix_plan in Heq. destruct (equality_selection e f) as [[[def' t'] lit']|] eqn:Hsel; [|done]. injection Heq as -> -> ->.
    apply equality_selection_spec in Hsel as (name & k & p & Hi & Hk & Hp & Hdk & Hlit).
    destruct (data_rows e d name def t (encode_order_value (Some lit)) None false Hc Hi) as (ns & Hvisit & Hin & Hsort); [done|].
    rewrite Hvisit, fold_visit_rows by (apply (live_decides e d f Ha); by intros n [? _]%Hin). f_equal. apply (all_rows e); [done|done|by intros n [? _]%Hin| |].
    - eapply sorted_mono; [|exact Hsort]. intros x y (_ & [_ Hx] & _)%Hin (_ & [_ Hy] & _)%Hin.
      unfold scan_order. rewrite (same_value x _ (Some lit) Hx), (same_value y _ (Some lit) Hy). unfold row_key, lex_lt. by rewrite !lex_cmp_app.
    - intros n Hn Hm. apply Hin. split; [done|]. split; [|done].
      by apply (equality_prefix e d f Ha n name def t k p lit); [..|apply (ans_zero _ _ _ Ha)]. }
  destruct (text_candidate_plan cap e f) as [candidates|] eqn:Htext.
  - destruct (text_rows cap e d f candidates Hc Ha Htext) as [Hsorted Hall]. destruct (address_rows e d _ Hc Hsorted) as (_ & Hin & Hsort).
    rewrite (fold_addresses_rows e d) by done. f_equal.
    apply (all_rows e); [done|done|by intros n [? _]%(Hin n false)|apply (Hsort false)|intros n Hn Hm; apply (Hin n false); auto].
  - destruct (candidates_rows e d (f_kind f) (f_owner f) None false Hc (ans_kind _ _ _ Ha) (ans_owner _ _ _ Ha)) as (ns & Hvisit & Hin & Hsort).
    rewrite Hvisit, fold_visit_rows by (apply (live_decides e d f Ha); by intros n [? _]%Hin). f_equal.
    apply (all_rows e); [done|done|by intros n [? _]%Hin|done|]. intros n Hn Hm. apply Hin. split; [done|]. split; [by apply matched_source|done].
Qed.

(** C29: Counts and aggregates see the rows of the query.  On a consistent engine, for an
    [answerable] query (its predicate decides every live node, no number in the data or in its
    literals is the negative zero, a folded text index covers only text among the matching nodes,
    and kind and owner fit a key), the aggregate over the rows equals the fold of the reference
    rows in address order, the errors of the fold included, and the count equals their number,
    whether the answer came from index keys alone, an equality prefix, an inverted index or a
    scan. *)
Theorem aggregate_plans_agree e d f spec : consistent (N := N) e d -> answerable e d f ->
  aggregate_where cap e f spec = (acc ← fold_rows spec (acc_new (s_func spec)) (rows d f None false); Ok (acc_finish acc)) /\
  count_where cap e f = Ok (Z.of_nat (length (rows d f None false))).
Proof.
  intros Hc Ha. unfold aggregate_where, count_where. split; [by rewrite (fold_where_rows e d)|].
  rewrite (fold_where_rows e d) by done. by rewrite fold_rows_count.
Qed.
End proofs.
