(* ===== verification/QueryGroup.v ===== *)
(** * Grouped counts and aggregates ([src/src/storage/engine.rs], [fold_by])

    One aggregate per distinct value of a field, over three access paths: the
    lengths of the prefix ranges of the values asked for, the runs of equal keys
    of a declared index, and a scan.  The theorem: whichever is taken, there is
    one entry per value, and its count is the number of rows that carry it. *)

From Stdlib Require Import ZArith Lia SpecFloat Ascii String.
From stdpp Require Import base tactics list strings option gmap sorting.
From S2P Require Import Prelude Binary BTree BTreeCells BTreeRead Keys Json GoLower OrderKey Predicate Search Entities Wal Transaction Engine EngineRep EngineApply EngineOps EngineTheorems Query QueryScan QueryRows QueryPaths QueryText QueryTheorems QueryPaging Aggregate QueryFold.

Local Open Scope key_scope.

Definition MAX_GROUP_VALUES : nat := 1000.

Section groups.
Context {St : Type} `{RecordStore St} {N : Type} `{SerdeJson N} `{IntJson N} `{CursorJson N}.
Context (cap : nat).
Implicit Types (e : engine (St := St)) (f : filters (N := N)).

Abbreviation group_map := (gmap (list Z) (option (value N) * Accumulator (N := N))).

(** [group_entry], and what its caller does to the accumulator it finds or starts. *)
Definition group_update (groups : group_map) (func : AggFunc) (v : option (value N))
    (update : Accumulator (N := N) -> result query_error (Accumulator (N := N))) : result query_error group_map :=
  let key := encode_order_value v in
  match groups !! key with
  | Some (v0, acc) => acc ← update acc; Ok (<[key := (v0, acc)]> groups)
  | None =>
      if cap <=? base.size groups then Err QScanLimit
      else acc ← update (acc_new func); Ok (<[key := (v, acc)]> groups)
  end.

Definition add_rows (by_ : Z) (acc : Accumulator (N := N)) : result query_error (Accumulator (N := N)) := Ok (acc_fold_rows acc by_).

Definition group_le (a b : option (value N) * Accumulator (N := N)) : Prop := compare_order_values a.1 b.1 <> Gt.
#[global] Instance group_le_dec a b : Decision (group_le a b).
Proof. unfold group_le. apply _. Defined.

(** The closure [finish]: an entry for every value asked for, in value order. *)
Definition group_finish (func : AggFunc) (values : option (list (value N))) (groups : group_map) : list (option (value N) * Accumulator (N := N)) :=
  let groups := match values with
                | None => groups
                | Some wanted =>
                    foldl (fun g v => match g !! encode_order_value (Some v) with
                                      | Some _ => g
                                      | None => <[encode_order_value (Some v) := (Some v, acc_new func)]> g
                                      end) groups wanted
                end in
  merge_sort group_le (map snd (map_to_list groups)).

(** The values asked for, each once, counted by its range of the index. *)
Fixpoint count_values (func : AggFunc) (t : tree) (wanted : list (value N)) (answered : gset (list Z)) (groups : group_map) : result query_error group_map :=
  match wanted with
  | [] => Ok groups
  | v :: wanted =>
      let prefix := encode_order_value (Some v) in
      if decide (prefix ∈ answered) then count_values func t wanted answered groups
      else
        groups ← group_update groups func (Some v) (add_rows (Z.of_nat (length (tree_scan t prefix None false))));
        count_values func t wanted ({[prefix]} ∪ answered) groups
  end.

(** The runs of equal values of an index, the last one first: the encoded value, a record of it, its length. *)
Definition run_visit (runs : list (list Z * string * Z)) (kv : list Z * list Z) : result error_kind (list (list Z * string * Z) * bool) :=
  match address_from_data_key kv.1 with
  | None => Ok (runs, true)
  | Some raw =>
      let encoded := take (length kv.1 - length raw) kv.1 in
      let fresh := if cap <=? length runs then Err InvalidInput else Ok ((encoded, string_of_bytes raw, 1%Z) :: runs, true) in
      match runs with
      | (last_, rep, count) :: rest => if bool_decide (last_ = encoded) then Ok ((last_, rep, count + 1)%Z :: rest, true) else fresh
      | [] => fresh
      end
  end.

Fixpoint count_runs e (func : AggFunc) (group_by : string) (runs : list (list Z * string * Z)) (groups : group_map) : result query_error group_map :=
  match runs with
  | [] => Ok groups
  | (_, representative, count) :: runs =>
      n ← io_message (fetch e representative);
      let v := match n with Some n => order_key n group_by | None => None end in
      groups ← group_update groups func v (add_rows count);
      count_runs e func group_by runs groups
  end.

(** The scan: groups and failure. *)
Definition group_visit f (spec : AggSpec) (group_by : string) (values : option (list (value N))) (s : group_map * option query_error) (n : Node) :
    result error_kind (group_map * option query_error * bool) :=
  match matches f n with
  | Err x => Ok (s.1, Some x, false)
  | Ok false => Ok (s, true)
  | Ok true =>
      let v := get_field (node_data n) group_by in
      if match values with
         | Some wanted => negb (existsb (fun w => bool_decide (compare_order_values (Some w) v = Eq)) wanted)
         | None => false
         end then Ok (s, true)
      else
        match group_update s.1 (s_func spec) v (fun acc => acc_error (acc_fold acc (row_value spec n))) with
        | Ok groups => Ok (groups, s.2, true)
        | Err x => Ok (s.1, Some x, false)
        end
  end.

(** The index that can answer from its keys. *)
Definition group_index e f (spec : AggSpec) (group_by : string) : option tree :=
  if bool_decide (f_predicate f = None) && bool_decide (f_requester f = None) && bool_decide (f_owner f = None) && negb (needs_field spec)
  then match f_kind f with Some k => snd <$> data_find e k group_by | None => None end
  else None.

Definition fold_by e f (group_by : string) (values : option (list (value N))) (spec : AggSpec) :
    result query_error (list (option (value N) * Accumulator (N := N))) :=
  if match values with Some wanted => MAX_GROUP_VALUES <? length wanted | None => false end then Err QTooManyValues
  else
    groups ←
      match group_index e f spec group_by with
      | Some t =>
          match values with
          | Some wanted => count_values (s_func spec) t wanted ∅ ∅
          | None =>
              runs ← io_message (visit_entries run_visit [] (tree_scan t [] None false));
              count_runs e (s_func spec) group_by (reverse runs) ∅
          end
      | None =>
          s ← io_message (scan_candidates e (f_kind f) (f_owner f) None false (group_visit f spec group_by values) (∅, None));
          match s.2 with Some x => Err x | None => Ok s.1 end
      end;
    Ok (group_finish (s_func spec) values groups).

Definition count_by e f (group_by : string) (values : option (list (value N))) : result query_error (list (option (value N) * Z)) :=
  groups ← fold_by e f group_by values spec_count;
  Ok (map (fun x => (x.1, a_rows x.2)) groups).

Definition aggregate_by e f (group_by : string) (values : option (list (value N))) (spec : AggSpec) : result query_error (list (option (value N) * value N)) :=
  groups ← fold_by e f group_by values spec;
  Ok (map (fun x => (x.1, acc_finish x.2)) groups).
End groups.

(** ** Tallies *)

Section tally.
Context {N : Type} `{SerdeLaws N} `{IntJson N}.
Abbreviation group_map := (gmap (list Z) (option (value N) * Accumulator (N := N))).

Definition weight (k : list Z) (ws : list (list Z * Z)) : Z := foldr (fun x s => (if decide (x.1 = k) then x.2 else 0) + s)%Z 0%Z ws.

Lemma weight_cons k k' c ws : weight k ((k', c) :: ws) = ((if decide (k' = k) then c else 0) + weight k ws)%Z.
Proof. done. Qed.

Lemma weight_app k ws ws' : weight k (ws ++ ws') = (weight k ws + weight k ws')%Z.
Proof. induction ws as [|x ws IH]; [done|]. destruct x. rewrite <- app_comm_cons, !weight_cons, IH. lia. Qed.

Lemma weight_absent k ws : k ∉ map fst ws -> weight k ws = 0%Z.
Proof.
  induction ws as [|[k' c] ws IH]; [done|]. cbn [map fst]. rewrite not_elem_of_cons. intros [Hne Hn]. rewrite weight_cons, IH by done.
  by case_decide; [congruence|].
Qed.

Lemma weight_perm k ws ws' : ws ≡ₚ ws' -> weight k ws = weight k ws'.
Proof. induction 1 as [|[? ?] ? ? _ IH|[? ?] [? ?] ?|]; rewrite ?weight_cons; [done|by rewrite IH|lia|congruence]. Qed.

(** The groups hold the accumulated weights, under keys that encode their values. *)
Definition tallied (g : group_map) (ws : list (list Z * Z)) : Prop :=
  forall k, match g !! k with
            | Some (v, acc) => k ∈ map fst ws /\ encode_order_value v = k /\ a_func acc = Count /\ a_rows acc = weight k ws
            | None => k ∉ map fst ws
            end.

Lemma tallied_empty : tallied ∅ [].
Proof. intros k. rewrite lookup_empty. apply not_elem_of_nil. Qed.

Lemma tallied_dom g ws k : tallied g ws -> is_Some (g !! k) <-> k ∈ map fst ws.
Proof.
  intros Ht. specialize (Ht k). destruct (g !! k) as [[v acc]|]; [destruct Ht as [? _]; split; eauto|].
  split; [by intros [? ?]|done].
Qed.

Section update.
Context (cap : nat) (K : gset (list Z)) (HK : base.size K <= cap).

Lemma tally_update g ws v c : tallied g ws -> (forall k, k ∈ map fst ws -> k ∈ K) -> encode_order_value v ∈ K ->
  forall update, (forall acc, a_func acc = Count -> update acc = Ok (acc_fold_rows acc c)) ->
  exists g', group_update cap g Count v update = Ok g' /\ tallied g' (ws ++ [(encode_order_value v, c)]).
Proof.
  intros Ht Hws Hv update Hup. unfold group_update. set (key := encode_order_value v) in *. pose proof (Ht key) as Hk.
  assert (forall v0 acc, encode_order_value v0 = key -> a_func acc = Count -> a_rows acc = (weight key ws + c)%Z ->
    tallied (<[key := (v0, acc)]> g) (ws ++ [(key, c)])) as Hins.
  { intros v0 acc Hv0 Hf Hr k. rewrite map_app. cbn [map fst]. destruct (decide (key = k)) as [<-|Hne].
    - rewrite lookup_insert_eq, elem_of_app, list_elem_of_singleton, weight_app, weight_cons, decide_True by done. cbn [weight foldr].
      split; [by right|]. split; [done|]. split; [done|]. lia.
    - rewrite lookup_insert_ne by done. specialize (Ht k). destruct (g !! k) as [[v1 acc1]|].
      + destruct Ht as (? & ? & ? & Hw). rewrite elem_of_app, weight_app, weight_cons, decide_False by done. cbn [weight foldr].
        split; [by left|]. split; [done|]. split; [done|]. lia.
      + rewrite elem_of_app, list_elem_of_singleton. intros [?| ->]; done. }
  destruct (g !! key) as [[v0 acc]|] eqn:Eg.
  - destruct Hk as (_ & Hv0 & Hf & Hr). rewrite Hup by done. cbn [mbind result_bind]. eexists. split; [done|]. apply Hins; [done|done|]. unfold acc_fold_rows. cbn [a_rows]. lia.
  - destruct (Nat.leb_spec cap (base.size g)) as [Hcap|_].
    + exfalso. assert (base.size g < base.size K); [|lia]. rewrite <- (size_dom (D := gset (list Z))).
      apply subset_size. split.
      * intros k [x Hx]%elem_of_dom. apply Hws. by apply (tallied_dom g ws k Ht).
      * intros Hsub. apply Hsub, elem_of_dom in Hv as [x Hx]. congruence.
    + rewrite Hup by done. cbn [mbind result_bind]. eexists. split; [done|]. apply Hins; [done|done|].
      unfold acc_fold_rows, acc_new. cbn [a_rows]. rewrite weight_absent by done. lia.
Qed.
End update.

(** ** The finished reply *)

Definition fill (wanted : list (value N)) (g : group_map) : group_map :=
  foldl (fun g v => match g !! encode_order_value (Some v) with
                    | Some _ => g
                    | None => <[encode_order_value (Some v) := (Some v, acc_new Count)]> g
                    end) g wanted.

Definition zeros (wanted : list (value N)) : list (list Z * Z) := map (fun w => (encode_order_value (Some w), 0%Z)) wanted.

Lemma weight_zeros k wanted : weight k (zeros wanted) = 0%Z.
Proof. induction wanted as [|w wanted IH]; [done|]. unfold zeros in *. cbn [map]. rewrite weight_cons, IH. by case_decide. Qed.

Lemma fill_tallied wanted g ws : tallied g ws -> tallied (fill wanted g) (ws ++ zeros wanted).
Proof.
  revert g ws. induction wanted as [|w wanted IH]; intros g ws Ht; [by rewrite app_nil_r|].
  cbn [fill foldl zeros map]. rewrite cons_middle, app_assoc. apply IH. clear IH. set (key := encode_order_value (Some w)).
  intros k. pose proof (Ht k) as Hk. rewrite map_app, weight_app, weight_cons. cbn [map fst weight foldr].
  assert ((if decide (key = k) then 0 else 0) + 0 = 0)%Z as -> by (by case_decide). rewrite Z.add_0_r.
  destruct (g !! key) as [x|] eqn:Eg.
  - destruct (g !! k) as [[v acc]|] eqn:Ek; [|rewrite elem_of_app, list_elem_of_singleton; intros [?| ->]; [done|congruence]].
    destruct Hk as (? & ? & ? & ?). rewrite elem_of_app. by repeat split; [left|..].
  - destruct (decide (key = k)) as [<-|Hne].
    + rewrite lookup_insert_eq. rewrite Eg in Hk. rewrite elem_of_app, list_elem_of_singleton. rewrite weight_absent by done. by repeat split; [right|..].
    + rewrite lookup_insert_ne by done. destruct (g !! k) as [[v acc]|].
      * destruct Hk as (? & ? & ? & ?). rewrite elem_of_app. by repeat split; [left|..].
      * rewrite elem_of_app, list_elem_of_singleton. by intros [?| ->].
Qed.

(** Entries for exactly the keys asked for, each with its weight, no key twice. *)
Lemma finish_spec values g ws : tallied g ws ->
  let view := map (fun x => (encode_order_value x.1, a_rows x.2)) (group_finish Count values g) in
  NoDup (map fst view) /\
  forall k c, (k, c) ∈ view <-> (k ∈ map fst ws \/ k ∈ map fst (zeros (default [] values))) /\ c = weight k ws.
Proof.
  intros Ht view.
  assert (exists filled, tallied filled (ws ++ zeros (default [] values)) /\ group_finish Count values g = merge_sort group_le (map snd (map_to_list filled))) as (filled & Hf & E).
  { destruct values as [wanted|]; [|exists g; split; [by rewrite app_nil_r|done]]. exists (fill wanted g). split; [by apply fill_tallied|done]. }
  assert (forall k v acc, filled !! k = Some (v, acc) -> encode_order_value v = k /\ a_rows acc = weight k ws) as Hent.
  { intros k v acc Hk. specialize (Hf k). rewrite Hk in Hf. destruct Hf as (_ & ? & _ & Hr). rewrite weight_app, weight_zeros in Hr. split; [done|lia]. }
  assert (view ≡ₚ map (fun x => (x.1, a_rows x.2.2)) (map_to_list filled)) as Hperm.
  { unfold view. rewrite E, merge_sort_Permutation, map_map. erewrite map_ext_in; [reflexivity|]. intros [k [v acc]] Hk%list_elem_of_In%elem_of_map_to_list.
    cbn [fst snd]. by destruct (Hent k v acc Hk) as [-> _]. }
  split.
  - rewrite Hperm, map_map. apply NoDup_fst_map_to_list.
  - intros k c. rewrite Hperm, list_elem_of_fmap, <- elem_of_app, <- map_app, <- (tallied_dom filled _ k Hf). split.
    + intros ([k' [v acc]] & [= -> ->] & Hk%elem_of_map_to_list). cbn [fst snd]. split; [eauto|]. by apply Hent in Hk as [_ ?].
    + intros [[[v acc] Hk] ->]. exists (k, (v, acc)). cbn [fst snd]. destruct (Hent k v acc Hk) as [_ ->]. split; [done|]. by apply elem_of_map_to_list.
Qed.
End tally.

(** ** The three paths *)

Section paths.
Context {St : Type} `{RecordStoreLaws St} {N : Type} `{SerdeLaws N} `{IntJson N} `{CursorJson N}.
Context (cap : nat).
Implicit Types (e : engine (St := St)) (d : logical) (f : filters (N := N)).

(** The key a row is grouped under. *)
Definition group_key (group_by : string) (n : Node) : list Z := encode_order_value (order_key (N := N) n group_by).

Definition row_weights (group_by : string) (l : list Node) : list (list Z * Z) := map (fun n => (group_key group_by n, 1%Z)) l.

Lemma row_weights_keys group_by l : map fst (row_weights group_by l) = map (group_key group_by) l.
Proof. unfold row_weights. by rewrite map_map. Qed.

Lemma weight_rows k group_by l : weight k (row_weights group_by l) = Z.of_nat (length (filter (fun n => group_key group_by n = k) l)).
Proof.
  induction l as [|n l IH]; [done|]. unfold row_weights in *. cbn [map]. rewrite weight_cons, IH, filter_cons. case_decide; cbn [length]; lia.
Qed.

(** How many of the rows carry the value. *)
Definition group_count d f (group_by : string) (k : list Z) : Z := Z.of_nat (length (filter (fun n => group_key group_by n = k) (rows d f None false))).

(** The keys a reply must have: those asked for, or those of the rows. *)
Definition group_keys d f (group_by : string) (values : option (list (value N))) : gset (list Z) :=
  match values with
  | Some wanted => list_to_set (map (fun w => encode_order_value (Some w)) wanted)
  | None => list_to_set (map (group_key group_by) (rows d f None false))
  end.

(** A tally of the right keys and weights. *)
Definition right_tally d f (group_by : string) (values : option (list (value N))) (ws : list (list Z * Z)) : Prop :=
  (forall k, k ∈ map fst ws -> k ∈ group_keys d f group_by values) /\
  (values = None -> forall k, k ∈ group_keys d f group_by values -> k ∈ map fst ws) /\
  (forall k, k ∈ group_keys d f group_by values -> weight k ws = group_count d f group_by k).

Lemma same_group n field (v : option (value N)) :
  starts_with (row_key (N := N) (Some field) n) (encode_order_value v) = true <-> group_key field n = encode_order_value v.
Proof.
  split.
  - intros E%same_value. unfold row_key, data_key in E. by apply app_inv_tail in E.
  - intros E. apply starts_with_spec. exists (as_bytes (n_address n)). unfold row_key, data_key. unfold group_key in E. by rewrite E.
Qed.

(** *** The scan *)

Lemma wanted_key (wanted : list (value N)) n group_by : Forall no_neg_zero wanted -> zero_free (N := N) n ->
  existsb (fun w => bool_decide (compare_order_values (Some w) (get_field (node_data (N := N) n) group_by) = Eq)) wanted = true <->
  group_key group_by n ∈ map (fun w => encode_order_value (Some w)) wanted.
Proof.
  intros Hw Hz. rewrite existsb_exists. rewrite field_of_data. pose proof (zero_free_plain n (Some group_by) Hz) as Hp. cbn [plain_row] in Hp.
  assert (forall w, w ∈ wanted -> compare_order_values (Some w) (order_key n group_by) = Eq <-> group_key group_by n = encode_order_value (Some w)) as Hcmp.
  { intros w Hin. rewrite Forall_forall in Hw. assert (plain (Some w)) as Hpw by (specialize (Hw w Hin); by destruct w).
    rewrite <- (encode_body_cmp (Some w) (order_key n group_by)) by done. rewrite lex_cmp_eq. unfold group_key, encode_order_value, append_escaped.
    split; [by intros ->|]. intros E. pose proof (encode_body_inj (order_key n group_by) (Some w) [] []) as Hinj.
    unfold data_key, encode_order_value, append_escaped in Hinj. by destruct (Hinj (f_equal (fun l => l ++ []) E)) as [-> _]. }
  split.
  - intros (w & Hin%list_elem_of_In & Hw'%bool_decide_eq_true_1). apply list_elem_of_fmap. exists w. split; [by apply Hcmp|done].
  - intros (w & E & Hin)%list_elem_of_fmap. exists w. split; [by apply list_elem_of_In|]. apply bool_decide_eq_true_2. by apply Hcmp.
Qed.

Definition asked (group_by : string) (values : option (list (value N))) (n : Node) : Prop :=
  match values with Some wanted => group_key group_by n ∈ map (fun w => encode_order_value (Some w)) wanted | None => True end.
#[global] Instance asked_dec group_by values n : Decision (asked group_by values n).
Proof. unfold asked. destruct values; apply _. Defined.

Lemma group_loop f (group_by : string) (values : option (list (value N))) (K : gset (list Z)) ns g ws :
  base.size K <= cap -> (forall w, values = Some w -> Forall no_neg_zero w) -> decides f ns -> (forall n, n ∈ ns -> zero_free (N := N) n) ->
  (forall n, n ∈ ns -> matched f n -> asked group_by values n -> group_key group_by n ∈ K) ->
  tallied g ws -> (forall k, k ∈ map fst ws -> k ∈ K) ->
  exists g', visit_entries (group_visit cap f spec_count group_by values) (g, None) ns = Ok (g', None) /\
    tallied g' (ws ++ row_weights group_by (filter (asked group_by values) (filter (matched f) ns))).
Proof.
  intros HK Hwant Hd. revert g ws. induction Hd as [|n ns [b Hb] Hd IH]; intros g ws Hz Hin Ht Hws.
  - exists g. split; [done|]. cbn. by rewrite app_nil_r.
  - assert (forall m, m ∈ ns -> zero_free (N := N) m) as Hz' by (intros m Hm; apply Hz; by right).
    assert (forall m, m ∈ ns -> matched f m -> asked group_by values m -> group_key group_by m ∈ K) as Hin' by (intros m Hm; apply Hin; by right).
    cbn [visit_entries]. unfold group_visit at 1. rewrite Hb. destruct b; [|rewrite filter_cons_False by (unfold matched; congruence); by apply IH].
    rewrite (filter_cons_True (matched f)) by exact Hb. cbn [fst snd].
    destruct (decide (asked group_by values n)) as [Hask|Hask].
    + assert (match values with Some wanted => negb (existsb (fun w => bool_decide (compare_order_values (Some w) (get_field (node_data (N := N) n) group_by) = Eq)) wanted) | None => false end = false) as ->.
      { destruct values as [wanted|]; [|done]. apply negb_false_iff. apply wanted_key; [by apply Hwant|apply Hz; left|done]. }
      rewrite filter_cons_True by done. rewrite field_of_data.
      destruct (tally_update cap K HK g ws (order_key n group_by) 1 Ht Hws) with (update := fun acc : Accumulator (N := N) => acc_error (acc_fold acc (row_value spec_count n))) as (g' & E & Ht').
      { apply Hin; [left|exact Hb|done]. }
      { intros [func rows c i fl ai ex] Hf. cbn in Hf. by subst func. }
      cbn [s_func spec_count] in E |- *. rewrite E. destruct (IH g' _ Hz' Hin' Ht') as (g'' & E' & Ht'').
      { intros k. rewrite map_app, elem_of_app. intros [Hk| ->%list_elem_of_singleton]; [by apply Hws|]. apply Hin; [left|exact Hb|done]. }
      exists g''. split; [done|]. unfold row_weights in *. cbn [map]. by rewrite cons_middle, app_assoc.
    + assert (match values with Some wanted => negb (existsb (fun w => bool_decide (compare_order_values (Some w) (get_field (node_data (N := N) n) group_by) = Eq)) wanted) | None => false end = true) as ->.
      { destruct values as [wanted|]; [|by destruct Hask]. apply negb_true_iff, not_true_iff_false. intros E. apply Hask. apply wanted_key in E; [done|by apply Hwant|apply Hz; left]. }
      rewrite filter_cons_False by done. by apply IH.
Qed.

(** *** The declared index *)

Lemma omap_Forall2 {A B : Type} (g : A -> option B) (R : A -> B -> Prop) l :
  (forall x, x ∈ l -> exists y, g x = Some y /\ R x y) -> Forall2 R l (omap g l).
Proof.
  induction l as [|x l IH]; intros Hl; [constructor|]. cbn [omap list_omap]. destruct (Hl x) as (y & -> & Hy); [left|].
  constructor; [done|]. apply IH. intros z Hz. apply Hl. by right.
Qed.

(** Every entry of a scan of a declared index is the key of a live node of its kind. *)
Lemma data_scan_entry e d name def t prefix kv :
  consistent (N := N) e d -> e_data e !! name = Some (def, t) -> kv ∈ tree_scan t prefix None false ->
  exists n, row_at (l_nodes d) (fun k => string_of_bytes <$> address_from_data_key k) kv = Some n /\
    kv.1 = row_key (N := N) (Some (def_field def)) n.
Proof.
  intros Hc Hi Hkv. destruct (c_data _ _ Hc name def t Hi) as [Hm _]. unfold members in Hm.
  rewrite tree_scan_range in Hkv; [|done|].
  - unfold range_entries in Hkv. destruct kv as [k v]. apply list_elem_of_filter in Hkv as [_ Hk%elem_tree_sorted].
    apply Hm in Hk as [_ (a & n & Hn & [_ ->]%data_entry_key)]. exists n. split; [|done]. unfold row_at, row_key. cbn [fst].
    rewrite data_key_roundtrip. cbn. by rewrite string_of_as_bytes, (keyed_nodes e d Hc a n Hn).
  - intros k v [_ (a & n & _ & [_ ->]%data_entry_key)]%Hm. apply data_key_bytes, as_bytes_bytes.
Qed.

(** The rows of a prefix of a declared index, entry by entry. *)
Lemma data_scan_rows e d name def t prefix :
  consistent (N := N) e d -> e_data e !! name = Some (def, t) ->
  exists ns, Forall2 (fun kv n => kv.1 = row_key (N := N) (Some (def_field def)) n) (tree_scan t prefix None false) ns /\
    StronglySorted (scan_order (row_key (N := N) (Some (def_field def))) false) ns /\
    forall n, n ∈ ns <-> live (l_nodes d) n /\ n_kind n = def_kind def /\ starts_with (row_key (N := N) (Some (def_field def)) n) prefix = true.
Proof.
  intros Hc Hi. destruct (c_data _ _ Hc name def t Hi) as [Hm _]. unfold members in Hm.
  destruct (scan_rows (l_nodes d) t prefix (row_key (N := N) (Some (def_field def))) (fun k => string_of_bytes <$> address_from_data_key k)
    (fun n => n_kind n = def_kind def /\ starts_with (row_key (N := N) (Some (def_field def)) n) prefix = true)) with (after := @None (list Z)) (rev := false) as [Hin Hsort].
  - intros k v' [_ (a & n & _ & [_ ->]%data_entry_key)]%Hm. apply data_key_bytes, as_bytes_bytes.
  - intros k v' [_ (a & n & Hn & [Hk ->]%data_entry_key)]%Hm Hp. exists n. split; [|done]. unfold live. by rewrite (keyed_nodes e d Hc a n Hn).
  - intros n Hn [Hk Hp]. split; [|done]. exists []. apply Hm. split; [done|]. exists (n_address n), n. split; [done|]. by apply data_entry_key.
  - intros n _ _. unfold row_key. rewrite data_key_roundtrip. cbn. by rewrite string_of_as_bytes.
  - done.
  - eexists. split; [|split; [exact Hsort|]].
    + apply omap_Forall2. intros kv Hkv. by apply (data_scan_entry e d name def t prefix kv Hc Hi Hkv).
    + intros n. rewrite Hin. cbn [past_cursor]. tauto.
Qed.

(** The length of one value's range is the number of its rows. *)
Lemma data_scan_length e d name def t (v : value N) :
  consistent (N := N) e d -> e_data e !! name = Some (def, t) ->
  exists ns, length (tree_scan t (encode_order_value (Some v)) None false) = length ns /\ NoDup ns /\
    forall n, n ∈ ns <-> live (l_nodes d) n /\ n_kind n = def_kind def /\ group_key (def_field def) n = encode_order_value (Some v).
Proof.
  intros Hc Hi. destruct (data_scan_rows e d name def t (encode_order_value (Some v)) Hc Hi) as (ns & Hall & Hsort & Hin).
  exists ns. split; [by eapply Forall2_length|]. split; [eapply sorted_nodup; [|exact Hsort]; apply scan_order_irrefl|].
  intros n. rewrite Hin, same_group. tauto.
Qed.

Section index.
Context e d f (Hc : consistent (N := N) e d) (Ha : answerable e d f).
Context (k : string) (group_by : string) (def : IndexDef) (t : tree) (name : string).
Context (Hi : e_data e !! name = Some (def, t)) (Hk : f_kind f = Some k) (Hdk : def_kind def = k) (Hdf : def_field def = group_by).
Context (Hp : f_predicate f = None) (Hq : f_requester f = None) (Ho : f_owner f = None).

Lemma index_rows n : n ∈ rows d f None false <-> live (l_nodes d) n /\ n_kind n = k.
Proof.
  rewrite (elem_rows e d f Hc). apply and_iff_compat_l. unfold matched, matches, selected. rewrite Hk, Hp, Hq, Ho.
  destruct (String.eqb_spec (n_kind n) k); cbn; split; congruence.
Qed.

Lemma rows_nodup : NoDup (rows d f None false).
Proof. eapply sorted_nodup; [|apply (rows_sorted e d f Hc Ha None false)]. apply scan_order_irrefl. Qed.

Lemma value_length (v : value N) : Z.of_nat (length (tree_scan t (encode_order_value (Some v)) None false)) = group_count d f group_by (encode_order_value (Some v)).
Proof.
  destruct (data_scan_length e d name def t v Hc Hi) as (ns & -> & Hnd & Hin). unfold group_count. f_equal.
  apply Permutation_length, NoDup_Permutation; [done|apply NoDup_filter, rows_nodup|].
  intros n. rewrite Hin, list_elem_of_filter, index_rows, Hdk, Hdf. tauto.
Qed.

Lemma values_loop (K : gset (list Z)) wanted answered g ws :
  base.size K <= cap -> (forall w, w ∈ wanted -> encode_order_value (Some w) ∈ K) ->
  tallied g ws -> (forall x, x ∈ map fst ws <-> x ∈ answered) -> (forall x, x ∈ answered -> x ∈ K) ->
  (forall x, x ∈ answered -> weight x ws = group_count d f group_by x) ->
  exists g' ws', count_values cap Count t wanted answered g = Ok g' /\ tallied g' ws' /\
    (forall x, x ∈ map fst ws' -> x ∈ K /\ weight x ws' = group_count d f group_by x) /\
    (forall x, x ∈ answered \/ x ∈ map (fun w => encode_order_value (Some w)) wanted -> x ∈ map fst ws').
Proof.
  intros HK. revert answered g ws. induction wanted as [|w wanted IH]; intros answered g ws Hw Ht Hans HansK Hwt; cbn [count_values].
  - exists g, ws. split; [done|]. split; [done|]. split; [intros x Hx%Hans; auto|]. intros x [Hx|Hx%not_elem_of_nil]; [by apply Hans|done].
  - assert (forall w, w ∈ wanted -> encode_order_value (Some w) ∈ K) as Hw' by (intros x Hx; apply Hw; by right).
    set (prefix := encode_order_value (Some w)). cbn [map]. case_decide as Hdone.
    + destruct (IH answered g ws Hw' Ht Hans HansK Hwt) as (g' & ws' & E & Ht' & Hr & Hall). exists g', ws'. split; [done|]. split; [done|]. split; [done|].
      intros x [Hx|[->|Hx]%elem_of_cons]; apply Hall; auto.
    + destruct (tally_update cap K HK g ws (Some w) (Z.of_nat (length (tree_scan t prefix None false))) Ht) with (update := add_rows (N := N) (Z.of_nat (length (tree_scan t prefix None false)))) as (g1 & E1 & Ht1).
      { intros x Hx%Hans. by apply HansK. } { apply Hw. left. } { done. }
      rewrite E1. cbn [mbind result_bind]. fold prefix in Ht1.
      destruct (IH ({[prefix]} ∪ answered) g1 _ Hw' Ht1) as (g' & ws' & E & Ht' & Hr & Hall).
      * intros x. rewrite map_app, elem_of_app, Hans, elem_of_union, elem_of_singleton. cbn [map fst]. rewrite list_elem_of_singleton. tauto.
      * intros x [->%elem_of_singleton|Hx]%elem_of_union; [apply Hw; left|by apply HansK].
      * intros x Hx. rewrite weight_app, weight_cons. cbn [weight foldr]. rewrite Z.add_0_r.
        destruct (decide (prefix = x)) as [<-|Hne].
        -- rewrite (weight_absent prefix ws) by (rewrite Hans; done). rewrite Z.add_0_l. apply value_length.
        -- rewrite Z.add_0_r. apply Hwt. apply elem_of_union in Hx as [->%elem_of_singleton|Hx]; done.
      * exists g', ws'. split; [done|]. split; [done|]. split; [done|].
        intros x [Hx|[->|Hx]%elem_of_cons]; apply Hall; [left; apply elem_of_union; by right|left; apply elem_of_union; left; by apply elem_of_singleton|by right].
Qed.

(** *** The runs of the index *)

Definition run_weight (r : list Z * string * Z) : list Z * Z := (r.1.1, r.2).

Lemma run_weight_pair k0 rep c : run_weight (k0, rep, c) = (k0, c).
Proof. done. Qed.

(** What the walk has collected after the rows [seen]. *)
Record run_state (seen : list Node) (runs : list (list Z * string * Z)) : Prop := {
  rs_nodup : NoDup (map fst (map run_weight runs));
  rs_keys : forall x, x ∈ map fst (map run_weight runs) <-> x ∈ map (group_key group_by) seen;
  rs_weight : forall x, weight x (map run_weight runs) = weight x (row_weights group_by seen);
  rs_rep : forall r, r ∈ runs -> exists n, n ∈ seen /\ r.1.2 = n_address n /\ group_key group_by n = r.1.1;
  rs_last : forall r rest, runs = r :: rest -> exists seen' n, seen = seen' ++ [n] /\ group_key group_by n = r.1.1;
}.

Lemma run_entry runs n v : run_visit cap runs (row_key (N := N) (Some group_by) n, v) =
  let fresh := if cap <=? length runs then Err InvalidInput else Ok ((group_key group_by n, n_address n, 1%Z) :: runs, true) in
  match runs with
  | (last_, rep, count) :: rest => if bool_decide (last_ = group_key group_by n) then Ok ((last_, rep, count + 1)%Z :: rest, true) else fresh
  | [] => fresh
  end.
Proof.
  unfold run_visit, row_key. cbn [fst]. rewrite data_key_roundtrip, string_of_as_bytes. unfold data_key.
  rewrite length_app, Nat.add_sub, take_app_length. done.
Qed.

(** A value that is not the last one seen has not been seen: the rows come in the order of the keys. *)
Lemma run_fresh seen last_ n : StronglySorted (scan_order (row_key (N := N) (Some group_by)) false) ((seen ++ [last_]) ++ [n]) ->
  group_key group_by last_ <> group_key group_by n -> group_key group_by n ∉ map (group_key group_by) (seen ++ [last_]).
Proof.
  intros Hs Hne (m & E & Hm)%list_elem_of_fmap. apply elem_of_app in Hm as [Hm| ->%list_elem_of_singleton]; [|congruence].
  apply Hne. unfold group_key at 2. apply same_group.
  assert (row_key (N := N) (Some group_by) m ≺ row_key (Some group_by) last_) as Hml.
  { apply StronglySorted_app_1_l in Hs. by apply (StronglySorted_app_1_elem_of _ _ _ m last_ Hs); [|apply list_elem_of_singleton]. }
  assert (row_key (N := N) (Some group_by) last_ ≺ row_key (Some group_by) n) as Hln.
  { apply (StronglySorted_app_1_elem_of _ _ _ last_ n Hs); [apply elem_of_app; right|]; by apply list_elem_of_singleton. }
  apply (between_prefix _ _ (row_key (N := N) (Some group_by) n)); [|by apply lex_lt_le|by apply same_group].
  apply lex_lt_le. eapply lex_le_lt_trans; [|exact Hml]. unfold row_key at 1, data_key. unfold group_key in E. rewrite <- E. apply lex_prefix_le.
Qed.

Lemma run_extend seen n c rep rest : run_state seen ((group_key group_by n, rep, c) :: rest) ->
  run_state (seen ++ [n]) ((group_key group_by n, rep, (c + 1)%Z) :: rest).
Proof.
  intros [Hnd Hkeys Hwt Hrep _]. split.
  - exact Hnd.
  - intros x. specialize (Hkeys x). rewrite map_app, elem_of_app, <- Hkeys. cbn [map]; rewrite ?run_weight_pair; cbn [fst snd].
    rewrite !elem_of_cons, elem_of_nil. tauto.
  - intros x. specialize (Hwt x). unfold row_weights in *. rewrite map_app, weight_app, <- Hwt. cbn [map]; rewrite ?run_weight_pair; cbn [fst snd]. rewrite !weight_cons. cbn [weight foldr].
    case_decide; lia.
  - intros r [->|Hr]%elem_of_cons; [destruct (Hrep _ (list_elem_of_here _ _)) as (m & Hm & ?)|destruct (Hrep r) as (m & Hm & ?); [by right|]].
    all: exists m; split; [apply elem_of_app; by left|done].
  - intros r rest' [= <- <-]. by exists seen, n.
Qed.

Lemma run_push seen n runs : run_state seen runs -> group_key group_by n ∉ map (group_key group_by) seen ->
  run_state (seen ++ [n]) ((group_key group_by n, n_address n, 1%Z) :: runs).
Proof.
  intros [Hnd Hkeys Hwt Hrep _] Hn. split.
  - cbn [map]; rewrite ?run_weight_pair; cbn [fst snd]. apply NoDup_cons. split; [by rewrite Hkeys|done].
  - intros x. cbn [map]; rewrite ?run_weight_pair; cbn [fst snd]. rewrite elem_of_cons, Hkeys, map_app, elem_of_app. cbn [map]. rewrite list_elem_of_singleton. tauto.
  - intros x. unfold row_weights in *. rewrite map_app, weight_app, <- Hwt. cbn [map]; rewrite ?run_weight_pair; cbn [fst snd]. rewrite !weight_cons. cbn [weight foldr]. lia.
  - intros r [->|Hr]%elem_of_cons.
    + exists n. split; [apply elem_of_app; right; by apply list_elem_of_singleton|done].
    + destruct (Hrep r Hr) as (m & Hm & ?). exists m. split; [apply elem_of_app; by left|done].
  - intros r rest' [= <- <-]. by exists seen, n.
Qed.

Lemma run_loop (K : gset (list Z)) kvs ns seen runs :
  base.size K <= cap -> (forall n, n ∈ seen ++ ns -> group_key group_by n ∈ K) ->
  Forall2 (fun kv n => kv.1 = row_key (N := N) (Some group_by) n) kvs ns ->
  StronglySorted (scan_order (row_key (N := N) (Some group_by)) false) (seen ++ ns) -> run_state seen runs ->
  exists runs', visit_entries (run_visit cap) runs kvs = Ok runs' /\ run_state (seen ++ ns) runs'.
Proof.
  intros HK HinK Hall. revert seen runs HinK. induction Hall as [|[k0 v0] n kvs ns E Hall IH]; intros seen runs HinK Hs Hr.
  { exists runs. by rewrite app_nil_r. }
  cbn [fst] in E. subst k0. cbn [visit_entries]. rewrite run_entry. cbv zeta.
  rewrite cons_middle, app_assoc in Hs, HinK |- *.
  assert (group_key group_by n ∉ map (group_key group_by) seen ->
    exists runs', match (if cap <=? length runs then Err InvalidInput else Ok ((group_key group_by n, n_address n, 1%Z) :: runs, true)) with
      | Ok (s', true) => visit_entries (run_visit cap) s' kvs | Ok (s', false) => Ok s' | Err x => Err x end = Ok runs' /\
      run_state ((seen ++ [n]) ++ ns) runs') as Hfresh.
  { intros Hn. destruct (Nat.leb_spec cap (length runs)) as [Hcap|_]; [|by apply IH, run_push].
    exfalso. assert (length (group_key group_by n :: map fst (map run_weight runs)) <= base.size K) as Hlen.
    { rewrite <- (size_list_to_set (C := gset (list Z))) by (apply NoDup_cons; split; [by rewrite (rs_keys _ _ Hr)|apply (rs_nodup _ _ Hr)]).
      apply subseteq_size. intros x [->|Hx]%elem_of_list_to_set%elem_of_cons.
      - apply HinK. rewrite !elem_of_app, list_elem_of_singleton. auto.
      - apply (rs_keys _ _ Hr) in Hx. apply list_elem_of_fmap in Hx as (m & -> & Hm). apply HinK. rewrite !elem_of_app. auto. }
    cbn [length] in Hlen. rewrite !length_map in Hlen. lia. }
  destruct runs as [|[[last_ rep] c] rest].
  - apply Hfresh. intros Hx%(rs_keys _ _ Hr). by apply not_elem_of_nil in Hx.
  - case_bool_decide as Heq.
    + subst last_. by apply IH, run_extend.
    + apply Hfresh. destruct (rs_last _ _ Hr _ _ eq_refl) as (seen' & m & -> & Em). cbn [fst] in Em. apply run_fresh; [|congruence].
      by apply StronglySorted_app_1_l in Hs.
Qed.

Lemma runs_loop (K : gset (list Z)) runs g ws :
  base.size K <= cap -> (forall r, r ∈ runs -> r.1.1 ∈ K /\ exists n, live (l_nodes d) n /\ r.1.2 = n_address n /\ group_key group_by n = r.1.1) ->
  tallied g ws -> (forall x, x ∈ map fst ws -> x ∈ K) ->
  exists g', count_runs (N := N) cap e Count group_by runs g = Ok g' /\ tallied g' (ws ++ map run_weight runs).
Proof.
  intros HK. revert g ws. induction runs as [|[[x rep] c] runs IH]; intros g ws Hr Ht Hws; cbn [count_runs map].
  { exists g. by rewrite app_nil_r. }
  destruct (Hr (x, rep, c)) as [Hx (n & Hn & Erep & En)]; [left|]. cbn [fst snd] in *. subst rep.
  rewrite (fetch_run e d) by done. unfold live in Hn. rewrite Hn. cbn [io_message mbind result_bind].
  destruct (tally_update cap K HK g ws (order_key n group_by) c Ht Hws) with (update := add_rows (N := N) c) as (g1 & E1 & Ht1).
  { unfold group_key in En. by rewrite En. } { done. }
  rewrite E1. cbn [mbind result_bind]. fold (group_key group_by n) in Ht1. rewrite En in Ht1.
  destruct (IH g1 _ (fun r Hin => Hr r (list_elem_of_further _ _ _ Hin)) Ht1) as (g' & E' & Ht').
  { intros y. rewrite map_app, elem_of_app. intros [Hy| ->%list_elem_of_singleton]; [by apply Hws|done]. }
  exists g'. split; [done|]. unfold run_weight at 1. cbn [fst snd]. by rewrite cons_middle, app_assoc.
Qed.

(** Every row of the kind is an entry of the index, in the order of its keys. *)
Lemma index_scan_rows : exists ns, Forall2 (fun kv n => kv.1 = row_key (N := N) (Some group_by) n) (tree_scan t [] None false) ns /\
  StronglySorted (scan_order (row_key (N := N) (Some group_by)) false) ns /\ ns ≡ₚ rows d f None false.
Proof.
  destruct (data_scan_rows e d name def t [] Hc Hi) as (ns & Hall & Hsort & Hin). rewrite Hdf in Hall, Hsort. exists ns. split; [done|]. split; [done|].
  apply NoDup_Permutation; [eapply sorted_nodup; [|exact Hsort]; apply scan_order_irrefl|apply rows_nodup|].
  intros n. rewrite Hin, index_rows, Hdk. split; [tauto|]. intros [? ?]. split; [done|]. split; [done|]. apply starts_with_spec. by eexists.
Qed.

Lemma index_tally values : base.size (group_keys d f group_by values) <= cap ->
  exists g ws, match values with
    | Some wanted => count_values cap Count t wanted ∅ ∅
    | None => runs ← io_message (visit_entries (run_visit cap) [] (tree_scan t [] None false)); count_runs cap e Count group_by (reverse runs) ∅
    end = Ok g /\ tallied g ws /\ right_tally d f group_by values ws.
Proof.
  intros HK. destruct values as [wanted|].
  - destruct (values_loop (group_keys d f group_by (Some wanted)) wanted ∅ ∅ [] HK) as (g & ws & E & Ht & Hr & Hall).
    + intros w Hw. apply elem_of_list_to_set, list_elem_of_fmap. by exists w.
    + apply tallied_empty.
    + intros x. cbn [map]. rewrite elem_of_nil. set_solver.
    + set_solver.
    + set_solver.
    + exists g, ws. split; [done|]. split; [done|]. split; [intros x Hx; by apply Hr|]. split; [done|].
      intros x Hx%elem_of_list_to_set. apply Hr, Hall. by right.
  - destruct index_scan_rows as (ns & Hall & Hsort & Hperm).
    assert (forall n, n ∈ ns -> group_key group_by n ∈ group_keys d f group_by None) as HinK.
    { intros n Hn. apply elem_of_list_to_set, list_elem_of_fmap. exists n. by rewrite <- Hperm. }
    destruct (run_loop _ _ ns [] [] HK HinK Hall Hsort) as (runs & Eruns & [_ Hkeys Hwt Hrep _]).
    { split; [apply NoDup_nil_2|intros x; apply iff_refl|done|by intros r ?%not_elem_of_nil|done]. }
    rewrite Eruns. cbn [io_message mbind result_bind]. cbn [app] in *.
    destruct (runs_loop (group_keys d f group_by None) (reverse runs) ∅ [] HK) as (g & Eg & Ht).
    + intros r Hr. rewrite elem_of_reverse in Hr. destruct (Hrep r Hr) as (n & Hn & Erep & En). rewrite <- En. split; [by apply HinK|]. exists n. rewrite Hperm in Hn.
      apply index_rows in Hn as [Hn _]. done.
    + apply tallied_empty.
    + by intros x ?%not_elem_of_nil.
    + cbn [app] in Ht. assert (map run_weight (reverse runs) ≡ₚ map run_weight runs) as Hrev by (by rewrite reverse_Permutation).
      assert (forall x, x ∈ map fst (map run_weight (reverse runs)) <-> x ∈ map (group_key group_by) ns) as Hkeys'.
      { intros x. rewrite <- Hkeys. by rewrite Hrev. }
      exists g, (map run_weight (reverse runs)). split; [done|]. split; [done|]. unfold right_tally. split; [|split].
      * intros x Hx%Hkeys'. apply elem_of_list_to_set. by rewrite <- Hperm.
      * intros _ x Hx%elem_of_list_to_set. apply Hkeys'. by rewrite Hperm.
      * intros x _. rewrite (weight_perm x _ _ Hrev), Hwt, weight_rows. unfold group_count. by rewrite Hperm.
Qed.
End index.

(** The scan of the kind. *)
Lemma scan_tally e d f group_by values : consistent (N := N) e d -> answerable e d f -> (forall w, values = Some w -> Forall no_neg_zero w) ->
  base.size (group_keys d f group_by values) <= cap ->
  exists g ws, scan_candidates e (f_kind f) (f_owner f) None false (group_visit cap f spec_count group_by values) (∅, None) = Ok (g, None) /\
    tallied g ws /\ right_tally d f group_by values ws.
Proof.
  intros Hc Ha Hw HK.
  destruct (candidates_rows e d (f_kind f) (f_owner f) None false Hc (ans_kind _ _ _ Ha) (ans_owner _ _ _ Ha)) as (ns & Hvisit & Hin & Hsort).
  assert (filter (matched f) ns = rows d f None false) as Hrows.
  { apply (all_rows e); [done|done|by intros n [? _]%Hin|done|]. intros n Hn Hm. apply Hin. split; [done|]. split; [by apply matched_source|done]. }
  destruct (group_loop f group_by values (group_keys d f group_by values) ns ∅ [] HK Hw) as (g & E & Ht).
  - apply (live_decides e d f Ha). by intros n [? _]%Hin.
  - intros n [Hn _]%Hin. by apply (ans_zero _ _ _ Ha).
  - intros n Hn Hm Hask. assert (n ∈ rows d f None false) as Hr by (rewrite <- Hrows; by apply list_elem_of_filter).
    destruct values; apply elem_of_list_to_set; [done|]. apply list_elem_of_fmap. by exists n.
  - apply tallied_empty.
  - by intros x ?%not_elem_of_nil.
  - rewrite Hvisit. eexists _, _. split; [exact E|]. split; [exact Ht|]. rewrite Hrows. cbn [app]. clear E Ht. unfold right_tally. rewrite row_weights_keys.
    split; [|split].
    + intros x (n & -> & [Hask Hn]%list_elem_of_filter)%list_elem_of_fmap. destruct values; apply elem_of_list_to_set; [done|]. apply list_elem_of_fmap. by exists n.
    + intros -> x (n & -> & Hn)%elem_of_list_to_set%list_elem_of_fmap. apply list_elem_of_fmap. exists n. split; [done|]. by apply list_elem_of_filter.
    + intros x Hx. rewrite weight_rows. unfold group_count. f_equal. f_equal. rewrite list_filter_filter. apply filter_iff_in.
      intros n Hn. split; [tauto|]. intros <-. split; [done|]. destruct values as [wanted|]; [|done]. by apply elem_of_list_to_set in Hx.
Qed.

Lemma fold_by_tally e d f group_by values : consistent (N := N) e d -> answerable e d f ->
  (forall w, values = Some w -> Forall no_neg_zero w /\ length w <= MAX_GROUP_VALUES) -> base.size (group_keys d f group_by values) <= cap ->
  exists g ws, fold_by cap e f group_by values spec_count = Ok (group_finish Count values g) /\ tallied g ws /\ right_tally d f group_by values ws.
Proof.
  intros Hc Ha Hw HK. unfold fold_by.
  assert (match values with Some wanted => MAX_GROUP_VALUES <? length wanted | None => false end = false) as ->.
  { destruct values as [wanted|]; [|done]. destruct (Hw wanted eq_refl) as [_ Hlen]. by apply Nat.ltb_ge. }
  destruct (group_index e f spec_count group_by) as [t|] eqn:Hg.
  2: { destruct (scan_tally e d f group_by values Hc Ha (fun w E => proj1 (Hw w E)) HK) as (g & ws & E & Ht & Hr). exists g, ws. by rewrite E. }
  unfold group_index in Hg. cbn [needs_field s_func spec_count func_needs_field negb] in Hg. rewrite andb_true_r in Hg.
  destruct (bool_decide (f_predicate f = None) && bool_decide (f_requester f = None) && bool_decide (f_owner f = None)) eqn:Hb; [|done].
  apply andb_prop in Hb as [[Hp%bool_decide_eq_true_1 Hq%bool_decide_eq_true_1]%andb_prop Ho%bool_decide_eq_true_1].
  destruct (f_kind f) as [k|] eqn:Hk; [|done]. destruct (data_find e k group_by) as [[def t']|] eqn:Hf; [|done]. injection Hg as ->.
  apply data_find_spec in Hf as ([name Hi] & Hdk & Hdf).
  destruct (index_tally e d f Hc Ha k group_by def t name Hi Hk Hdk Hdf Hp Hq Ho values HK) as (g & ws & E & Ht & Hr).
  exists g, ws. cbn [s_func spec_count]. by rewrite E.
Qed.

#[global] Instance group_le_trans : Transitive (group_le (N := N)).
Proof. intros a b c. unfold group_le. rewrite <- !value_key_cmp. apply lex_le_trans. Qed.

#[global] Instance group_le_total : Total (group_le (N := N)).
Proof.
  intros a b. unfold group_le. rewrite <- !value_key_cmp, (lex_cmp_antisym (value_key a.1) (value_key b.1)).
  destruct (lex_cmp _ _); [by left|by left|by right].
Qed.

(** The rows a grouped count is asked about, as counts per value. *)
Definition count_view (l : list (option (value N) * Z)) : list (list Z * Z) := map (fun x => (encode_order_value x.1, x.2)) l.

(** Grouped counts are exact on every path.  On a consistent engine, for a query its filter
    decides, a grouped count with at most the permitted number of groups and of values succeeds; no
    value appears twice; the values are those asked for, or those of the rows when none were; each
    comes with the number of rows that carry it, zero included; and the reply is in value order.
    This holds whether the counts are lengths of index ranges, runs of an index or a scan. *)
Theorem count_by_exact e d f group_by values : consistent (N := N) e d -> answerable e d f ->
  (forall w, values = Some w -> Forall no_neg_zero w /\ length w <= MAX_GROUP_VALUES) -> base.size (group_keys d f group_by values) <= cap ->
  exists l, count_by cap e f group_by values = Ok l /\ NoDup (map fst (count_view l)) /\
    (forall k c, (k, c) ∈ count_view l <-> k ∈ group_keys d f group_by values /\ c = group_count d f group_by k) /\
    StronglySorted (fun a b => compare_order_values a.1 b.1 <> Gt) l.
Proof.
  intros Hc Ha Hw HK. destruct (fold_by_tally e d f group_by values Hc Ha Hw HK) as (g & ws & E & Ht & Hin & Hnone & Hwt).
  unfold count_by. rewrite E. cbn [mbind result_bind]. eexists. split; [done|]. destruct (finish_spec values g ws Ht) as [Hnd Hview].
  unfold count_view. rewrite (map_map _ (fun x : option (value N) * Z => (encode_order_value x.1, x.2))). split; [exact Hnd|]. split.
  - intros k c. rewrite Hview. split.
    + intros [Hk ->]. assert (k ∈ group_keys d f group_by values) as Hg; [|split; [done|by apply Hwt]].
      destruct Hk as [Hk|Hk]; [by apply Hin|]. destruct values as [wanted|]; [|by apply not_elem_of_nil in Hk].
      cbn [default] in Hk. unfold zeros in Hk. rewrite map_map in Hk. by apply elem_of_list_to_set.
    + intros [Hk ->]. split; [|symmetry; by apply Hwt]. destruct values as [wanted|]; [|left; by apply Hnone].
      right. cbn [default]. unfold zeros. rewrite map_map. by apply elem_of_list_to_set in Hk.
  - assert (StronglySorted group_le (group_finish Count values g)) as Hs by (apply StronglySorted_merge_sort; apply _).
    clear -Hs. induction Hs as [|x l Hs IH Hx]; cbn [map]; constructor; [done|]. apply Forall_map. exact Hx.
Qed.
End paths.

(** ** Instances *)

Section examples.
Local Existing Instance list_heap.
Local Existing Instance list_heap_laws.
Local Existing Instance status_json.
Local Existing Instance status_laws.
Local Existing Instance double_ints.
Local Existing Instance example_cursors.
Local Open Scope string_scope.

(** The count of the open posts, the greatest status of all posts, and a sum that fails because a status is no number. *)
Lemma aggregate_plans_agree_witness :
  count_where 10 post_engine open_posts = Ok 2%Z /\
  aggregate_where 10 post_engine all_posts (MkSpec Max (Some "status")) = Ok (JString "open") /\
  aggregate_where 10 post_engine all_posts (MkSpec Sum (Some "status")) = Err QAggregate.
Proof.
  pose proof (aggregate_plans_agree (N := double) 10 post_engine post_nodes) as H.
  destruct (H open_posts spec_count posts_consistent (posts_answerable open_posts (or_introl eq_refl))) as [_ E1].
  destruct (H all_posts (MkSpec Max (Some "status")) posts_consistent (posts_answerable all_posts (or_intror eq_refl))) as [E2 _].
  destruct (H all_posts (MkSpec Sum (Some "status")) posts_consistent (posts_answerable all_posts (or_intror eq_refl))) as [E3 _].
  rewrite E1, E2, E3. split; [|split]; vm_compute; reflexivity.
Defined.

Lemma count_by_exact_witness : exists l, count_by 10 post_engine all_posts "status" None = Ok l /\ length l = 2.
Proof.
  destruct (count_by_exact (N := double) 10 post_engine post_nodes all_posts "status" None) as (l & E & _).
  - exact posts_consistent.
  - apply posts_answerable. by right.
  - done.
  - apply Nat.leb_le. vm_compute. reflexivity.
  - exists l. split; [done|]. revert E. vm_compute. intros [= <-]. reflexivity.
Defined.
End examples.
