(* ===== verification/Lower.v ===== *)
(** * Mutations before they are logged ([src/src/storage/engine.rs], the write half)

    A request is lowered to the operations it stands for before anything is
    written: an overwrite archives what it replaces, a bulk delete becomes the
    deletes of what it selects, a delete becomes the closure the declared
    references make it entail.  Lowering a batch judges each of its operations
    against the stored state overlaid with what the batch has already done.  The
    checks of uniqueness and of references then see the whole list.

    Nothing here changes the engine: reads are [fetch], the identifiers a batch
    draws are threaded through it, the clock is an argument. *)

From Stdlib Require Import ZArith Lia SpecFloat Ascii String.
From stdpp Require Import base tactics list strings option gmap sorting.
From S2P Require Import Prelude Utf8 Crypto Binary BTree Keys Json GoLower OrderKey Predicate Search Entities Wal Transaction Engine Query.

(** ** Requests and refusals *)

Inductive Expectation (N : Type) :=
| AtMost (bound : f64)
| Equals (v : value N)
| Absent.
Arguments AtMost {N} bound.
Arguments Equals {N} v.
Arguments Absent {N}.

Inductive TxOperation (N : Type) :=
| TxInsertNode (n : Node)
| TxDeleteNode (address : string)
| TxInsertEdge (edge : Edge)
| TxDeleteEdge (id : EdgeId) (owner : string) (is_admin : bool)
| TxClearKind (kind owner : string) (is_admin : bool)
| TxDeleteWhere (kind : string) (where_ : option (Expr N)) (owner : string) (is_admin : bool)
| TxSetIf (address field : string) (expect : Expectation N) (set_ : list (string * value N)) (owner : string) (is_admin : bool).
Arguments TxInsertNode {N} n.
Arguments TxDeleteNode {N} address.
Arguments TxInsertEdge {N} edge.
Arguments TxDeleteEdge {N} id owner is_admin.
Arguments TxClearKind {N} kind owner is_admin.
Arguments TxDeleteWhere {N} kind where_ owner is_admin.
Arguments TxSetIf {N} address field expect set_ owner is_admin.

(** [TransactionError]; [TxFuel] is no outcome of the code: it marks a model run that was cut short. *)
Inductive tx_error := TxInvalid | TxPrecondition | TxStorage | TxFuel.

(** A refusal the code reports as text. *)
Inductive refusal :=
| RIo (k : error_kind)
| RPredicate (x : pred_error)
| RRule.

Definition map_err {E E' A : Type} (f : E -> E') (r : result E A) : result E' A :=
  match r with Ok a => Ok a | Err e => Err (f e) end.

Definition io_refusal {A : Type} (r : result error_kind A) : result refusal A := map_err RIo r.
Definition tx_storage {E A : Type} (r : result E A) : result tx_error A := map_err (fun _ => TxStorage) r.
Definition tx_invalid {E A : Type} (r : result E A) : result tx_error A := map_err (fun _ => TxInvalid) r.

Definition DELETE_WHERE_ITEM_VAR : string := "item".

(** [Edge::can_write] *)
Definition edge_can_write (x : Edge) (requester : string) : bool := String.eqb (e_owner x) requester.

(** ** The state of a batch being lowered *)

Record lowering := MkLowering {
  lw_ops : list Operation;                      (* [lowered] *)
  lw_staged : gmap string (option Node);        (* [staged] *)
  lw_edges : gmap EdgeId (option Edge);         (* [staged_edges] *)
  lw_counters : counters;                       (* the log's counters, which versions come from *)
}.

Definition start_lowering (c : counters) : lowering := MkLowering [] ∅ ∅ c.

Definition push_op (op : Operation) (lw : lowering) : lowering :=
  MkLowering (lw_ops lw ++ [op]) (lw_staged lw) (lw_edges lw) (lw_counters lw).
Definition stage_node (address : string) (slot : option Node) (lw : lowering) : lowering :=
  MkLowering (lw_ops lw) (<[address := slot]> (lw_staged lw)) (lw_edges lw) (lw_counters lw).
Definition stage_edge (id : EdgeId) (slot : option Edge) (lw : lowering) : lowering :=
  MkLowering (lw_ops lw) (lw_staged lw) (<[id := slot]> (lw_edges lw)) (lw_counters lw).

Section lower.
Context {St : Type} `{RecordStore St} {N : Type} `{SerdeJson N}.
Context (cap max_ops : nat) (clock : Z -> Z).
Implicit Types e : engine (St := St).

(** [lowered.push(Operation::Archive(HistoryEntry::now(node)))] *)
Definition push_archive (n : Node) (lw : lowering) : lowering :=
  let (version, c) := take_operation_id (lw_counters lw) in
  MkLowering (lw_ops lw ++ [OArchive (history_now n (clock version) version)]) (lw_staged lw) (lw_edges lw) c.

(** An overwrite: the archive of what was there, the overlay, the insert. *)
Definition push_overwrite (previous n : Node) (lw : lowering) : lowering :=
  push_op (OInsert n) (stage_node (n_address n) (Some n) (push_archive previous lw)).

Definition push_removal (n : Node) (lw : lowering) : lowering :=
  push_op (ODelete (n_address n)) (stage_node (n_address n) None (push_archive n lw)).

(** ** Reads of a batch *)

Definition staged_node e (staged : gmap string (option Node)) (address : string) : result error_kind (option Node) :=
  match staged !! address with
  | Some slot => Ok slot
  | None => fetch e address
  end.

Definition edge_at e (l : record_location) : result error_kind Edge :=
  r ← store_read (e_store e) l;
  match r with HEdge x => Ok x | _ => Err InvalidData end.

Definition history_at e (l : record_location) : result error_kind HistoryEntry :=
  r ← store_read (e_store e) l;
  match r with HHistory h => Ok h | _ => Err InvalidData end.

Definition find_edge e (id : EdgeId) : result error_kind (option Edge) :=
  match e_trees e EdgeOut !! edge_out_key (as_bytes (id_from id)) (as_bytes (id_kind id)) (as_bytes (id_to id)) with
  | Some raw => l ← location_decode raw; x ← edge_at e l; Ok (Some x)
  | None => Ok None
  end.

Definition staged_edge e (staged : gmap EdgeId (option Edge)) (id : EdgeId) : result error_kind (option Edge) :=
  match staged !! id with
  | Some slot => Ok slot
  | None => find_edge e id
  end.

Definition contains_node e (address : string) : bool := bool_decide (is_Some (e_trees e Primary !! as_bytes address)).

Definition edges_in_range e (i : builtin) (prefix : list Z) : result error_kind (list Edge) :=
  visit_entries (fun edges kv =>
    if cap <=? length edges then Err InvalidInput
    else l ← location_decode kv.2; x ← edge_at e l; Ok (edges ++ [x], true)) [] (tree_scan (e_trees e i) prefix None false).

Definition edges_from e (address : string) : result error_kind (list Edge) := edges_in_range e EdgeOut (edge_out_prefix (as_bytes address)).
Definition edges_to e (address : string) : result error_kind (list Edge) := edges_in_range e EdgeIn (edge_in_prefix (as_bytes address)).

Definition history_for e (address : string) : result error_kind (list HistoryEntry) :=
  visit_entries (fun entries kv =>
    if cap <=? length entries then Err InvalidInput
    else l ← location_decode kv.2; h ← history_at e l; Ok (entries ++ [h], true)) []
    (tree_scan (e_trees e History) (history_prefix (as_bytes address)) None false).

Definition MAX_MULTI_GET : nat := 1000.

Fixpoint get_each e (addresses : list string) (requester : option string) : result refusal (list Node) :=
  match addresses with
  | [] => Ok []
  | a :: addresses =>
      n ← io_refusal (fetch e a);
      rest ← get_each e addresses requester;
      Ok (match n with
          | Some n => if match requester with Some r => can_read n r | None => true end then n :: rest else rest
          | None => rest
          end)
  end.

Definition multi_get e (addresses : list string) (requester : option string) : result refusal (list Node) :=
  if MAX_MULTI_GET <? length addresses then Err RRule else get_each e addresses requester.

(** ** Selections *)

Definition selection_matches (n : Node) (kind : string) (where_ : option (Expr N)) (owner : string) (is_admin : bool) : result refusal bool :=
  if negb (String.eqb (n_kind n) kind) then Ok false
  else if negb (is_admin || can_write n owner) then Ok false
  else match where_ with
       | None => Ok true
       | Some expr =>
           match eval expr DELETE_WHERE_ITEM_VAR (node_data n) with
           | Ok v => Ok (is_true v)
           | Err x => Err (RPredicate x)
           end
       end.

(** The live addresses of a bulk delete, and the failure that stopped the scan. *)
Definition delete_where_targets e (kind : string) (where_ : option (Expr N)) (owner : string) (is_admin : bool) : result refusal (list string) :=
  let prefix := kind_prefix (as_bytes kind) in
  s ← io_refusal (visit_entries (fun (s : list string * option refusal) kv =>
        let address := key_address kv.1 prefix in
        n ← fetch e address;
        match n with
        | None => Ok (s, true)
        | Some n =>
            match selection_matches n kind where_ owner is_admin with
            | Ok true => if cap <=? length s.1 then Err InvalidInput else Ok (s.1 ++ [address], s.2, true)
            | Ok false => Ok (s, true)
            | Err x => Ok (s.1, Some x, false)
            end
        end) ([], None) (tree_scan (e_trees e Kind) prefix None false));
  match s.2 with Some x => Err x | None => Ok s.1 end.

Fixpoint select_each e (staged : gmap string (option Node)) (kind : string) (where_ : option (Expr N)) (owner : string) (is_admin : bool)
    (candidates : list string) : result refusal (list string) :=
  match candidates with
  | [] => Ok []
  | address :: candidates =>
      n ← io_refusal (staged_node e staged address);
      match n with
      | None => select_each e staged kind where_ owner is_admin candidates
      | Some n =>
          hit ← selection_matches n kind where_ owner is_admin;
          rest ← select_each e staged kind where_ owner is_admin candidates;
          Ok (if hit : bool then address :: rest else rest)
      end
  end.

(** Candidates are what the kind index lists and what the batch has touched. *)
Definition selection_candidates e (staged : gmap string (option Node)) (kind : string) : list string :=
  let prefix := kind_prefix (as_bytes kind) in
  address_list (list_to_set (map (fun kv => key_address kv.1 prefix) (tree_scan (e_trees e Kind) prefix None false)) ∪ dom staged).

Definition staged_selection e (staged : gmap string (option Node)) (kind : string) (where_ : option (Expr N)) (owner : string) (is_admin : bool) :
    result refusal (list string) :=
  select_each e staged kind where_ owner is_admin (selection_candidates e staged kind).

(** ** References *)

Definition not_null (v : option (value N)) : option (value N) := match v with Some JNull => None | v => v end.

Definition referencing_key (n : Node) (d : ReferenceDef) : option (value N) := not_null (order_key n (r_field d)).

Definition referenced_key (n : Node) (d : ReferenceDef) : option (value N) :=
  match r_parent_field d with
  | None => Some (JString (n_address n))
  | Some field => not_null (order_key n field)
  end.

Definition as_str (v : value N) : option string := match v with JString s => Some s | _ => None end.

Definition resolves_live e (d : ReferenceDef) (key : value N) : result refusal bool :=
  match r_parent_field d with
  | None =>
      match as_str key with
      | None => Ok false
      | Some address =>
          n ← io_refusal (fetch e address);
          Ok (match n with Some n => String.eqb (n_kind n) (r_parent_kind d) | None => false end)
      end
  | Some field =>
      match data_find e (r_parent_kind d) field with
      | None => Err RRule
      | Some (_, t) => Ok (negb (bool_decide (tree_scan t (encode_order_value (Some key)) None false = [])))
      end
  end.

(** The first referencing node that does not resolve, or the failure that kept it from being decided. *)
Definition check_reference_satisfied e (d : ReferenceDef) : result refusal unit :=
  failure ← io_refusal (scan_candidates e (Some (r_kind d)) None None false (fun (failure : option refusal) n =>
    match referencing_key n d with
    | None => Ok (failure, true)
    | Some key =>
        match resolves_live e d key with
        | Ok true => Ok (failure, true)
        | Ok false => Ok (Some RRule, false)
        | Err x => Ok (Some x, false)
        end
    end) None);
  match failure with Some x => Err x | None => Ok tt end.

(** The addresses the batch has written, of one kind. *)
Definition staged_of_kind (written : gmap string (option Node)) (kind : string) : gset string :=
  dom (filter (fun x : string * option Node => n_kind <$> x.2 = Some kind) written).

Fixpoint referencing_each e (d : ReferenceDef) (key : value N) (staged : gmap string (option Node)) (candidates : list string) : result refusal (list Node) :=
  match candidates with
  | [] => Ok []
  | address :: candidates =>
      n ← io_refusal (staged_node e staged address);
      rest ← referencing_each e d key staged candidates;
      Ok (match n with
          | Some n =>
              if String.eqb (n_kind n) (r_kind d) && match referencing_key n d with Some k => value_eqb k key | None => false end
              then n :: rest else rest
          | None => rest
          end)
  end.

(** [written] is the overlay as it was when the closure started. *)
Definition referencing_nodes e (d : ReferenceDef) (key : value N) (staged written : gmap string (option Node)) : result refusal (list Node) :=
  match data_find e (r_kind d) (r_field d) with
  | None => Err RRule
  | Some (_, t) =>
      let listed := omap (fun kv => string_of_bytes <$> address_from_data_key kv.1) (tree_scan t (encode_order_value (Some key)) None false) in
      referencing_each e d key staged (address_list (list_to_set listed ∪ staged_of_kind written (r_kind d)))
  end.

(** [serde_json::Map::insert]: the map is ordered by key. *)
Fixpoint object_insert (k : string) (v : value N) (l : list (string * value N)) : list (string * value N) :=
  match l with
  | [] => [(k, v)]
  | (k', v') :: rest =>
      match lex_cmp (as_bytes k) (as_bytes k') with
      | Lt => (k, v) :: l
      | Eq => (k, v) :: rest
      | Gt => (k', v') :: object_insert k v rest
      end
  end.

Definition set_node_data (n : Node) (text : string) : Node :=
  MkNode (n_address n) (n_coordinate n) (n_value n) (n_kind n) text (n_owner n) (n_claimed_by n) (n_visibility n).

Definition with_field_null (n : Node) (field : string) : result refusal Node :=
  match from_str (N := N) (n_data n) with
  | Some (JObject l) => Ok (set_node_data n (to_string (JObject (object_insert field JNull l))))
  | _ => Err RRule
  end.

(** ** The delete closure *)

(** Clearing the field of every child of a [set_null] reference. *)
Fixpoint clear_children (field : string) (children : list Node) (lw : lowering) : result tx_error lowering :=
  match children with
  | [] => Ok lw
  | child :: children =>
      cleared ← tx_invalid (with_field_null child field);
      clear_children field children (push_overwrite child cleared lw)
  end.

(** What one removed node makes each of the references to its kind do: the queue grows by the
    cascades. *)
Fixpoint follow_references e (defs : list ReferenceDef) (n : Node) (written : gmap string (option Node)) (removed : gset string)
    (queue : list Node) (lw : lowering) : result tx_error (list Node * lowering) :=
  match defs with
  | [] => Ok (queue, lw)
  | d :: defs =>
      match referenced_key n d with
      | None => follow_references e defs n written removed queue lw
      | Some key =>
          nodes ← tx_storage (referencing_nodes e d key (lw_staged lw) written);
          let children := filter (fun c => n_address c ∉ removed) nodes in
          match children with
          | [] => follow_references e defs n written removed queue lw
          | _ =>
              match r_on_delete d with
              | Cascade => follow_references e defs n written removed (queue ++ children) lw
              | Restrict => Err TxPrecondition
              | SetNull => lw ← clear_children (r_field d) children lw; follow_references e defs n written removed queue lw
              end
          end
      end
  end.

(** The next queued node that is not already removed. *)
Fixpoint next_queued (removed : gset string) (queue : list Node) : option (Node * list Node) :=
  match queue with
  | [] => None
  | n :: queue => if decide (n_address n ∈ removed) then next_queued removed queue else Some (n, queue)
  end.

Fixpoint closure_loop (fuel : nat) e (written : gmap string (option Node)) (removed : gset string) (queue : list Node) (lw : lowering) :
    result tx_error lowering :=
  match fuel with
  | 0 => Err TxFuel
  | S fuel =>
      match next_queued removed queue with
      | None => Ok lw
      | Some (n, queue) =>
          let removed := {[n_address n]} ∪ removed in
          s ← follow_references e (for_parent (e_references e) (n_kind n)) n written removed queue (push_removal n lw);
          if max_ops <? length (lw_ops s.2) then Err TxInvalid
          else closure_loop fuel e written removed s.1 s.2
      end
  end.

Definition lower_delete_closure e (seeds : list Node) (lw : lowering) : result tx_error lowering :=
  if decide (e_references e = ∅) then Ok (foldl (fun lw n => push_removal n lw) lw seeds)
  else closure_loop (S (S max_ops)) e (lw_staged lw) ∅ seeds lw.

(** ** Lowering a batch *)

(** The selected addresses as nodes; one that resolves to nothing is removed outright. *)
Fixpoint seeds_of e (targets : list string) (seeds : list Node) (lw : lowering) : result tx_error (list Node * lowering) :=
  match targets with
  | [] => Ok (seeds, lw)
  | address :: targets =>
      n ← tx_storage (staged_node e (lw_staged lw) address);
      match n with
      | Some n => seeds_of e targets (seeds ++ [n]) lw
      | None => seeds_of e targets seeds (push_op (ODelete address) (stage_node address None lw))
      end
  end.

Definition lower_selection e (kind : string) (where_ : option (Expr N)) (owner : string) (is_admin : bool) (lw : lowering) : result tx_error lowering :=
  targets ← tx_invalid (staged_selection e (lw_staged lw) kind where_ owner is_admin);
  s ← seeds_of e targets [] lw;
  lower_delete_closure e s.1 s.2.

(** [data.trim().is_empty()] *)
Definition blank (s : string) : bool := bool_decide (trim (chars_of (as_bytes s)) = []).

Definition holds (expect : Expectation N) (current : option (value N)) : bool :=
  match expect with
  | AtMost bound => match current ≫= as_f64 with Some x => SFleb x bound | None => false end
  | Equals expected => match current with Some v => value_eqb v expected | None => false end
  | Absent => match current with None | Some JNull => true | _ => false end
  end.

Definition set_if_next (n : Node) (field : string) (expect : Expectation N) (set_ : list (string * value N)) : result tx_error Node :=
  data ← (if blank (n_data n) then Ok []
          else match from_str (N := N) (n_data n) with
               | Some (JObject l) => Ok l
               | Some JNull => Ok []
               | _ => Err TxInvalid
               end);
  if negb (holds expect (assoc field data)) then Err TxPrecondition
  else Ok (set_node_data n (to_string (JObject (foldl (fun l x => object_insert x.1 x.2 l) data set_)))).

Definition lower_op e (op : TxOperation N) (lw : lowering) : result tx_error lowering :=
  match op with
  | TxInsertNode n =>
      existing ← tx_storage (staged_node e (lw_staged lw) (n_address n));
      match existing with
      | Some p =>
          if negb (String.eqb (n_owner p) (n_owner n)) then Err TxInvalid
          else Ok (push_overwrite p n lw)
      | None => Ok (push_op (OInsert n) (stage_node (n_address n) (Some n) lw))
      end
  | TxDeleteNode address =>
      if bool_decide (lw_staged lw !! address = Some None) then Ok lw
      else
        n ← tx_storage (staged_node e (lw_staged lw) address);
        match n with
        | Some n => lower_delete_closure e [n] lw
        | None => Err TxInvalid
        end
  | TxClearKind kind owner is_admin => lower_selection e kind None owner is_admin lw
  | TxDeleteWhere kind where_ owner is_admin => lower_selection e kind where_ owner is_admin lw
  | TxSetIf address field expect set_ owner is_admin =>
      n ← tx_storage (staged_node e (lw_staged lw) address);
      match n with
      | None => Err TxPrecondition
      | Some n =>
          if negb (is_admin || can_write n owner) then Err TxInvalid
          else
            next ← set_if_next n field expect set_;
            Ok (push_op (OInsert next) (stage_node address (Some next) (push_archive n lw)))
      end
  | TxInsertEdge edge =>
      from ← tx_storage (staged_node e (lw_staged lw) (e_from edge));
      match from with
      | None => Err TxInvalid
      | Some _ =>
          to ← tx_storage (staged_node e (lw_staged lw) (e_to edge));
          match to with
          | None => Err TxInvalid
          | Some _ => Ok (push_op (OInsertEdge edge) (stage_edge (edge_id edge) (Some edge) lw))
          end
      end
  | TxDeleteEdge id owner is_admin =>
      if bool_decide (lw_edges lw !! id = Some None) then Ok lw
      else
        x ← tx_storage (staged_edge e (lw_edges lw) id);
        match x with
        | None => Err TxInvalid
        | Some x =>
            if negb (is_admin || edge_can_write x owner) then Err TxInvalid
            else Ok (push_op (ODeleteEdge id) (stage_edge id None lw))
        end
  end.

Fixpoint lower_ops e (ops : list (TxOperation N)) (lw : lowering) : result tx_error lowering :=
  match ops with
  | [] => Ok lw
  | op :: ops => lw ← lower_op e op lw; lower_ops e ops lw
  end.

Definition lower_transaction e (ops : list (TxOperation N)) (c : counters) : result tx_error lowering := lower_ops e ops (start_lowering c).
End lower.
