(* ===== verification/Mutate.v ===== *)
(** * Mutations ([src/src/storage/engine.rs], [apply_atomic] and its callers)

    The checks a list of operations passes before it is logged, and every
    mutation of the engine: what each resolves to and when it is refused.  The
    log itself is Transaction.v; here a mutation that is admitted is applied. *)

From Stdlib Require Import ZArith Lia SpecFloat Ascii String.
From stdpp Require Import base tactics list strings option gmap sorting.
From S2P Require Import Prelude Utf8 Crypto Binary BTree Keys Json GoLower OrderKey Predicate Search Entities Wal Transaction Engine Query Lower.

Section mutate.
Context {St : Type} `{RecordStore St} {N : Type} `{SerdeJson N}.
Context (cap max_ops : nat) (clock : Z -> Z).
Implicit Types e : engine (St := St).

(** ** Uniqueness *)

(** The addresses the batch writes or removes: what they held is free. *)
Definition released (ops : list Operation) : list string :=
  omap (fun op => match op with ODelete a => Some a | OInsert n => Some (n_address n) | _ => None end) ops.

Definition unique_indexes e (kind : string) : list (IndexDef * tree) :=
  filter (fun x => def_kind x.1 = kind /\ def_unique x.1 = true) (map snd (map_to_list (e_data e))).

(** Another node outside the batch holds the value. *)
Definition held_elsewhere (freed : list string) (n : Node) (kv : list Z * list Z) : bool :=
  match address_from_data_key kv.1 with
  | Some raw => negb (String.eqb (string_of_bytes raw) (n_address n) || existsb (String.eqb (string_of_bytes raw)) freed)
  | None => false
  end.

Definition claim_key := (string * list Z)%type.

Fixpoint claim_each (freed : list string) (n : Node) (indexes : list (IndexDef * tree)) (claimed : list claim_key) : result refusal (list claim_key) :=
  match indexes with
  | [] => Ok claimed
  | (d, t) :: indexes =>
      let prefix := encode_order_value (order_key (N := N) n (def_field d)) in
      if bool_decide ((def_name d, prefix) ∈ claimed) then Err RRule
      else if existsb (held_elsewhere freed n) (tree_scan t prefix None false) then Err RRule
      else claim_each freed n indexes (claimed ++ [(def_name d, prefix)])
  end.

Fixpoint claim_all e (freed : list string) (ops : list Operation) (claimed : list claim_key) : result refusal unit :=
  match ops with
  | [] => Ok tt
  | OInsert n :: ops => claimed ← claim_each freed n (unique_indexes e (n_kind n)) claimed; claim_all e freed ops claimed
  | _ :: ops => claim_all e freed ops claimed
  end.

Definition check_unique e (ops : list Operation) : result refusal unit := claim_all e (released ops) ops [].

(** ** References *)

(** The batch's net effect: what it leaves present and what it leaves gone. *)
Definition net_step (s : gmap string Node * gset string) (op : Operation) : gmap string Node * gset string :=
  match op with
  | OInsert n => (<[n_address n := n]> s.1, s.2 ∖ {[n_address n]})
  | ODelete a => (delete a s.1, {[a]} ∪ s.2)
  | _ => s
  end.

Definition net_effect (ops : list Operation) : gmap string Node * gset string := foldl net_step (∅, ∅) ops.

Definition resolves_committed e (d : ReferenceDef) (key : value N) (deleted : gset string) : result refusal bool :=
  match r_parent_field d with
  | None =>
      match as_str key with
      | None => Ok false
      | Some address => if bool_decide (address ∈ deleted) then Ok false else resolves_live e d key
      end
  | Some field =>
      match data_find e (r_parent_kind d) field with
      | None => Err RRule
      | Some (_, t) =>
          Ok (existsb (fun kv => match address_from_data_key kv.1 with
                                 | Some raw => negb (bool_decide (string_of_bytes raw ∈ deleted))
                                 | None => false
                                 end) (tree_scan t (encode_order_value (Some key)) None false))
      end
  end.

(** The keys the batch's own writes make referenceable through [d], as text. *)
Definition satisfied_keys (inserted : gmap string Node) (d : ReferenceDef) : list string :=
  map (to_string (N := N)) (omap (fun n => if String.eqb (n_kind n) (r_parent_kind d) then referenced_key n d else None) (map snd (map_to_list inserted))).

Fixpoint check_node_references e (inserted : gmap string Node) (deleted : gset string) (n : Node) (defs : list ReferenceDef) : result refusal unit :=
  match defs with
  | [] => Ok tt
  | d :: defs =>
      match referencing_key n d with
      | None => check_node_references e inserted deleted n defs
      | Some key =>
          if bool_decide (to_string key ∈ satisfied_keys inserted d) then check_node_references e inserted deleted n defs
          else
            b ← resolves_committed e d key deleted;
            if b : bool then check_node_references e inserted deleted n defs else Err RRule
      end
  end.

Fixpoint check_each_reference e (inserted : gmap string Node) (deleted : gset string) (ns : list Node) : result refusal unit :=
  match ns with
  | [] => Ok tt
  | n :: ns =>
      _ ← check_node_references e inserted deleted n (for_child (e_references e) (n_kind n));
      check_each_reference e inserted deleted ns
  end.

Definition check_references e (ops : list Operation) : result refusal unit :=
  if decide (e_references e = ∅) then Ok tt
  else let '(inserted, deleted) := net_effect ops in check_each_reference e inserted deleted (map snd (map_to_list inserted)).

(** ** Admission and application *)

Definition admit_operations e (ops : list Operation) : result refusal unit :=
  _ ← map_err (fun _ => RRule) (validate_all (N := N) (declared_indexes e) ops);
  _ ← check_unique e ops;
  check_references e ops.

(** [apply_atomic], the log apart: admitted operations are applied in order. *)
Definition apply_admitted (ops : list Operation) e : engine * result refusal unit :=
  match admit_operations e ops with
  | Err x => (e, Err x)
  | Ok _ => let '(e, r) := apply_operations (N := N) ops e in (e, io_refusal r)
  end.

Definition execute_transaction (ops : list (TxOperation N)) (c : counters) e : engine * result tx_error unit :=
  match lower_transaction max_ops clock e ops c with
  | Err x => (e, Err x)
  | Ok lw =>
      if max_ops <? length (lw_ops lw) then (e, Err TxInvalid)
      else match check_unique e (lw_ops lw) with
           | Err _ => (e, Err TxInvalid)
           | Ok _ =>
               match check_references e (lw_ops lw) with
               | Err _ => (e, Err TxInvalid)
               | Ok _ =>
                   match validate_all (N := N) (declared_indexes e) (lw_ops lw) with
                   | Err _ => (e, Err TxStorage)
                   | Ok _ => let '(e, r) := apply_operations (N := N) (lw_ops lw) e in (e, tx_storage r)
                   end
               end
           end
  end.

(** ** The mutation primitives, as the operations they resolve to *)

Definition insert_locked e (n : Node) (c : counters) : result refusal (list Operation) :=
  previous ← io_refusal (fetch e (n_address n));
  let lw := match previous with Some p => push_archive clock p (start_lowering c) | None => start_lowering c end in
  Ok (lw_ops (push_op (OInsert n) lw)).

Inductive ClaimError := NotFound | AlreadyClaimed (worker : string) | ClaimStorage.

Definition claim e (address worker : string) (c : counters) : result ClaimError (list Operation) :=
  n ← map_err (fun _ => ClaimStorage) (fetch e address);
  match n with
  | None => Err NotFound
  | Some n =>
      match n_claimed_by n with
      | Some existing => Err (AlreadyClaimed existing)
      | None =>
          map_err (fun _ => ClaimStorage)
            (insert_locked e (MkNode (n_address n) (n_coordinate n) (n_value n) (n_kind n) (n_data n) (n_owner n) (Some worker) (n_visibility n)) c)
      end
  end.

Definition delete_node e (address : string) (c : counters) : result tx_error (list Operation) :=
  n ← tx_storage (fetch e address);
  match n with
  | None => Ok [ODelete address]
  | Some n => lw ← lower_delete_closure (N := N) max_ops clock e [n] (start_lowering c); Ok (lw_ops lw)
  end.

Definition insert_edge e (edge : Edge) : result refusal (list Operation) :=
  if negb (contains_node e (e_from edge)) then Err RRule
  else if negb (contains_node e (e_to edge)) then Err RRule
  else
    existing ← io_refusal (find_edge e (edge_id edge));
    match existing with
    | Some x => if String.eqb (e_owner x) (e_owner edge) then Ok [OInsertEdge edge] else Err RRule
    | None => Ok [OInsertEdge edge]
    end.

Definition delete_edge e (id : EdgeId) : result refusal (list Operation) :=
  x ← io_refusal (find_edge e id);
  match x with None => Err RRule | Some _ => Ok [ODeleteEdge id] end.

Fixpoint edge_operations e (address owner : string) (targets : list (string * string)) : result refusal (list Operation) :=
  match targets with
  | [] => Ok []
  | (to, kind) :: targets =>
      if negb (String.eqb to address) && negb (contains_node e to) then Err RRule
      else rest ← edge_operations e address owner targets; Ok (OInsertEdge (MkEdge address to kind owner) :: rest)
  end.

Definition insert_with_edges e (n : Node) (edge_targets : list (string * string)) (is_admin : bool) (c : counters) : result refusal (list Operation) :=
  previous ← io_refusal (fetch e (n_address n));
  match previous with
  | Some p =>
      if negb (is_admin || can_write p (n_owner n)) then Err RRule
      else
        edges ← edge_operations e (n_address n) (n_owner n) edge_targets;
        Ok (lw_ops (push_op (OInsert n) (push_archive clock p (start_lowering c))) ++ edges)
  | None =>
      edges ← edge_operations e (n_address n) (n_owner n) edge_targets;
      Ok (OInsert n :: edges)
  end.

Definition drop_index e (name : string) : result refusal (list Operation) :=
  match e_data e !! name with
  | None => if bool_decide (is_Some (e_text e !! name)) then Ok [ODropTextIndex name] else Err RRule
  | Some (d, _) =>
      match depending_on_index (e_references e) (def_kind d) (def_field d) with
      | [] => Ok [ODropIndex name]
      | _ => Err RRule
      end
  end.

(** [None]: the identical reference exists. *)
Definition create_reference e (d : ReferenceDef) : result refusal (option (list Operation)) :=
  _ ← map_err (fun _ => RRule) (reference_validate d);
  match e_references e !! r_name d with
  | Some existing => if decide (existing = d) then Ok None else Err RRule
  | None =>
      match data_find e (r_kind d) (r_field d) with
      | None => Err RRule
      | Some _ =>
          _ ← match r_parent_field d with
              | None => Ok tt
              | Some field =>
                  match data_find e (r_parent_kind d) field with
                  | Some (i, _) => if def_unique i then Ok tt else Err RRule
                  | None => Err RRule
                  end
              end;
          _ ← check_reference_satisfied (N := N) e d;
          Ok (Some [OCreateReference d])
      end
  end.

Definition drop_reference e (name : string) : result refusal (list Operation) :=
  match e_references e !! name with None => Err RRule | Some _ => Ok [ODropReference name] end.

Definition insert_user (u : UserRecord) : list Operation := [OInsertUser u].
Definition revoke_user (token_hash : string) : list Operation := [ORevokeUser token_hash].
End mutate.
