(* ===== verification/Constraints.v ===== *)
(** * Uniqueness ([src/src/storage/engine.rs], [check_unique])

    A unique index promises that no two live nodes of its kind hold the same
    value.  The check made before a batch is logged looks at the index as it
    stands and at what the batch itself claims; the theorem is that what it
    admits keeps the promise, whatever the batch deletes, overwrites or moves. *)

From Stdlib Require Import ZArith Lia SpecFloat Ascii String.
From stdpp Require Import base tactics list strings option gmap sorting.
From S2P Require Import Prelude Binary BTree BTreeCells Keys Json GoLower OrderKey Predicate Search Entities Wal Transaction Engine EngineRep EngineApply EngineOps EngineTheorems Query QueryScan QueryRows QueryPaths QueryTheorems QueryGroup Lower Mutate.

Section unique.
Context {St : Type} `{RecordStoreLaws St} {N : Type} `{SerdeLaws N}.
Implicit Types (e : engine (St := St)) (d : logical).

(** No two live nodes of the kind of a unique index hold the same value. *)
Definition unique_holds e d : Prop := forall name def t, e_data e !! name = Some (def, t) -> def_unique def = true ->
  forall n m, live (l_nodes d) n -> live (l_nodes d) m -> n_kind n = def_kind def -> n_kind m = def_kind def ->
  group_key (N := N) (def_field def) n = group_key (N := N) (def_field def) m -> n = m.

(** ** What a batch leaves *)

(** A node after a batch is one it inserted, or one it did not touch. *)
Lemma node_after ops d a n : l_nodes (foldl logical_apply d ops) !! a = Some n ->
  (OInsert n ∈ ops /\ n_address n = a) \/ (l_nodes d !! a = Some n /\ a ∉ released ops).
Proof.
  revert d. induction ops as [|op ops IH]; intros d Hn; [right; split; [done|apply not_elem_of_nil]|]. cbn [foldl] in Hn.
  destruct (IH _ Hn) as [[Hin Ha]|[Hd Hr]]; [left; split; [by right|done]|].
  assert (forall x, match op with ODelete y => Some y | OInsert m => Some (n_address m) | _ => None end = Some x -> x <> a ->
    a ∉ released (op :: ops)) as Hskip.
  { intros x Hx Hne. unfold released in *. cbn [omap list_omap]. rewrite Hx. by apply not_elem_of_cons. }
  destruct op; cbn [logical_apply l_nodes] in Hd; try (right; split; [done|exact Hr]).
  - apply lookup_insert_Some in Hd as [[<- <-]|[Hne Hd]]; [left; by split; [left|]|]. right. split; [done|]. by apply (Hskip (n_address n0)).
  - apply lookup_delete_Some in Hd as [Hne Hd]. right. split; [done|]. by apply (Hskip address).
Qed.

Lemma keyed_after ops d : (forall a n, l_nodes d !! a = Some n -> n_address n = a) ->
  forall a n, l_nodes (foldl logical_apply d ops) !! a = Some n -> n_address n = a.
Proof. intros Hd a n Hn. destruct (node_after ops d a n Hn) as [[_ ?]|[? _]]; [done|by apply Hd]. Qed.

(** ** What the check claims *)

Definition claim_of (n : Node) (x : IndexDef * tree) : claim_key := (def_name x.1, group_key (N := N) (def_field x.1) n).

Definition claims e (op : Operation) : list claim_key :=
  match op with OInsert n => map (claim_of n) (unique_indexes e (n_kind n)) | _ => [] end.

Lemma claim_each_spec freed n indexes claimed claimed' : claim_each (N := N) freed n indexes claimed = Ok claimed' ->
  claimed' = claimed ++ map (claim_of n) indexes /\ (NoDup claimed -> NoDup claimed') /\
  forall x, x ∈ indexes -> existsb (held_elsewhere freed n) (tree_scan x.2 (group_key (N := N) (def_field x.1) n) None false) = false.
Proof.
  revert claimed. induction indexes as [|[def t] indexes IH]; intros claimed; cbn [claim_each map].
  { intros [= <-]. rewrite app_nil_r. split; [done|]. split; [done|]. by intros x ?%not_elem_of_nil. }
  case_bool_decide as Hc; [done|]. fold (group_key (N := N) (def_field def) n) in *.
  destruct (existsb _ _) eqn:Hheld; [done|]. intros (-> & Hnd & Hall)%IH.
  split; [by rewrite <- app_assoc|]. split.
  - intros Hn. apply Hnd. apply NoDup_app. split; [done|]. split; [|apply NoDup_singleton].
    intros x Hx ->%list_elem_of_singleton. done.
  - intros x [->|Hx]%elem_of_cons; [done|by apply Hall].
Qed.

Lemma claim_all_spec e freed ops claimed : claim_all (N := N) e freed ops claimed = Ok tt -> NoDup claimed ->
  NoDup (claimed ++ flat_map (claims e) ops) /\
  forall n x, OInsert n ∈ ops -> x ∈ unique_indexes e (n_kind n) ->
    existsb (held_elsewhere freed n) (tree_scan x.2 (group_key (N := N) (def_field x.1) n) None false) = false.
Proof.
  revert claimed. induction ops as [|op ops IH]; intros claimed Hok Hnd.
  { rewrite app_nil_r. split; [done|]. by intros n x ?%not_elem_of_nil. }
  destruct op; cbn [claim_all flat_map claims app] in *;
    try (destruct (IH claimed Hok Hnd) as [Hnd' Hall]; split; [done|]; intros m x [?|Hm]%elem_of_cons; [done|by apply Hall]).
  destruct (claim_each freed n (unique_indexes e (n_kind n)) claimed) as [claimed'|] eqn:E; cbn [mbind result_bind] in Hok; [|done].
  apply claim_each_spec in E as (-> & Hnd' & Hheld). destruct (IH _ Hok (Hnd' Hnd)) as [Hnd'' Hall]. rewrite <- app_assoc in Hnd''.
  split; [done|]. intros m x [[= ->]|Hm]%elem_of_cons; [by apply Hheld|by apply Hall].
Qed.

Lemma NoDup_map_inj {A B} (f : A -> B) l x y : NoDup (map f l) -> x ∈ l -> y ∈ l -> f x = f y -> x = y.
Proof.
  induction l as [|a l IH]; [by intros _ ?%not_elem_of_nil|]. cbn [map]. intros [Hn Hnd]%NoDup_cons Hx Hy E.
  apply elem_of_cons in Hx as [->|Hx], Hy as [->|Hy]; [done| | |by apply IH]; destruct Hn; apply list_elem_of_fmap; eauto.
Qed.

Lemma flat_map_inj {A B} (f : A -> list B) l x y z : NoDup (flat_map f l) -> x ∈ l -> y ∈ l -> z ∈ f x -> z ∈ f y -> x = y.
Proof.
  induction l as [|a l IH]; [by intros _ ?%not_elem_of_nil|]. cbn [flat_map]. intros (Hna & Hdis & Hnl)%NoDup_app Hx Hy Hzx Hzy.
  assert (forall w, w ∈ l -> z ∈ f w -> z ∈ flat_map f l) as Hin.
  { intros w Hw Hz. apply list_elem_of_In, in_flat_map. exists w. by split; apply list_elem_of_In. }
  apply elem_of_cons in Hx as [->|Hx], Hy as [->|Hy]; [done| | |by apply IH].
  - exfalso. eapply Hdis; [exact Hzx|by eapply Hin].
  - exfalso. eapply Hdis; [exact Hzy|by eapply Hin].
Qed.

Lemma elem_unique_indexes e name def t : e_data e !! name = Some (def, t) -> def_unique def = true -> (def, t) ∈ unique_indexes e (def_kind def).
Proof.
  intros Hi Hu. unfold unique_indexes. apply list_elem_of_filter. split; [done|]. apply list_elem_of_fmap. exists (name, (def, t)).
  split; [done|]. by apply elem_of_map_to_list.
Qed.

(** A live node outside the batch that holds the value is seen. *)
Lemma holder_seen e d name def t n m freed : consistent (N := N) e d -> e_data e !! name = Some (def, t) ->
  live (l_nodes d) m -> n_kind m = def_kind def -> group_key (N := N) (def_field def) n = group_key (N := N) (def_field def) m ->
  n_address m <> n_address n -> n_address m ∉ freed ->
  existsb (held_elsewhere freed n) (tree_scan t (group_key (N := N) (def_field def) n) None false) = true.
Proof.
  intros Hc Hi Hm Hk E Hne Hfree. destruct (data_scan_rows e d name def t (group_key (N := N) (def_field def) n) Hc Hi) as (ns & Hall & _ & Hin).
  assert (m ∈ ns) as Hmns.
  { apply Hin. split; [done|]. split; [done|]. rewrite E. by apply same_group. }
  apply list_elem_of_lookup in Hmns as [i Hi']. destruct (Forall2_lookup_r _ _ _ _ _ Hall Hi') as ([k v] & Hkv & Ek). cbn [fst] in Ek. subst k.
  apply existsb_exists. exists (row_key (N := N) (Some (def_field def)) m, v).
  split; [apply list_elem_of_In; by eapply list_elem_of_lookup_2|]. unfold held_elsewhere, row_key. cbn [fst].
  rewrite data_key_roundtrip, string_of_as_bytes. apply negb_true_iff, orb_false_iff. split; [by apply String.eqb_neq|].
  apply not_true_iff_false. intros (x & Hx%list_elem_of_In & Ex%String.eqb_eq)%existsb_exists. by subst x.
Qed.

(** The check is enough. *)
Lemma check_unique_sound e d ops : consistent (N := N) e d -> unique_holds e d -> check_unique (N := N) e ops = Ok tt ->
  unique_holds e (foldl logical_apply d ops).
Proof.
  intros Hc Hu Hok name def t Hi Hun n m Hn Hm Hkn Hkm E. unfold check_unique in Hok.
  destruct (claim_all_spec e _ ops [] Hok) as [Hnd Hheld]; [apply NoDup_nil_2|]. cbn [app] in Hnd.
  pose proof (elem_unique_indexes e name def t Hi Hun) as Hix.
  assert (forall a b, OInsert a ∈ ops -> n_kind a = def_kind def -> live (l_nodes (foldl logical_apply d ops)) a ->
    l_nodes d !! n_address b = Some b -> n_kind b = def_kind def -> live (l_nodes (foldl logical_apply d ops)) b ->
    group_key (N := N) (def_field def) a = group_key (N := N) (def_field def) b -> n_address b ∉ released ops -> a = b) as Hmixed.
  { intros a b Ha Hka Hla Hb Hkb Hlb Eab Hrel. destruct (decide (n_address b = n_address a)) as [Ea|Hne]; [unfold live in *; congruence|].
    exfalso. rewrite <- Hka in Hix. specialize (Hheld a (def, t) Ha Hix). cbn [fst snd] in Hheld.
    by rewrite (holder_seen e d name def t a b (released ops)) in Hheld. }
  destruct (node_after ops d _ n Hn) as [[Hin _]|[Hdn Hrn]], (node_after ops d _ m Hm) as [[Him _]|[Hdm Hrm]].
  - assert (OInsert n = OInsert m) as [= ->]; [|done].
    eapply (flat_map_inj (claims e) ops _ _ (claim_of n (def, t)) Hnd Hin Him); cbn [claims]; apply list_elem_of_fmap; exists (def, t).
    + by rewrite Hkn.
    + rewrite Hkm. split; [|done]. unfold claim_of. cbn [fst]. by rewrite E.
  - by apply Hmixed.
  - symmetry. by apply Hmixed.
  - by apply (Hu name def t).
Qed.

Lemma unique_holds_defs e e' d : fst (defs e') = fst (defs e) -> unique_holds e d -> unique_holds e' d.
Proof.
  intros E Hu name def t Hi. unfold defs in E. cbn [fst] in E. assert ((fst <$> e_data e) !! name = Some def) as Hd.
  { rewrite <- E, lookup_fmap, Hi. done. }
  rewrite lookup_fmap in Hd. destruct (e_data e !! name) as [[def' t']|] eqn:Ed; [|done]. injection Hd as ->. by apply (Hu name def t').
Qed.

(** C11: Declared uniqueness is an invariant.  On a consistent engine in which every unique index holds
    at most one live node per value, a batch of data operations that passes the checks made before it
    is logged is applied in full, leaves the engine consistent, and leaves every unique index with at
    most one live node per value, whatever the batch overwrites, deletes or moves. *)
Theorem uniqueness_preserved ops e d k : consistent (N := N) e d -> unique_holds e d ->
  admit_operations (N := N) e ops = Ok tt -> Forall (fun op => is_data_operation op = true /\ data_ready op) ops ->
  store_room (e_store e) (length ops + k) ->
  exists e', apply_admitted (N := N) ops e = (e', Ok tt) /\ consistent (N := N) e' (foldl logical_apply d ops) /\
    unique_holds e' (foldl logical_apply d ops).
Proof.
  intros Hc Hu Had Hops Hroom. unfold apply_admitted. rewrite Had. unfold admit_operations in Had.
  destruct (validate_all (declared_indexes e) ops) as [[]|] eqn:Hv; [|done]. cbn [map_err mbind result_bind] in Had.
  destruct (check_unique e ops) as [[]|] eqn:Hun; [|done].
  destruct (batch_step ops e d k Hc Hroom (conj Hv Hops)) as (e' & Hrun & Hc' & _ & Ed).
  exists e'. rewrite Hrun. split; [done|]. split; [done|]. apply (unique_holds_defs e); [by rewrite Ed|]. by apply check_unique_sound.
Qed.

(** ** Declaring a unique index *)

Lemma backfill_distinct def ns seen : backfill_check (N := N) def ns seen = Ok tt -> def_unique def = true ->
  (forall n, n ∈ ns -> seen !! group_key (N := N) (def_field def) n = None) /\ NoDup (map (group_key (N := N) (def_field def)) ns).
Proof.
  intros Hb Hu. revert seen Hb. induction ns as [|n ns IH]; intros seen; cbn [backfill_check map].
  { intros _. split; [by intros n ?%not_elem_of_nil|constructor]. }
  rewrite check_bind, Hu. intros [_ Hb]. fold (order_key (N := N) n (def_field def)) in Hb. fold (group_key (N := N) (def_field def) n) in Hb.
  destruct (seen !! group_key (def_field def) n) as [x|] eqn:Hseen; [done|]. destruct (IH _ Hb) as [Hnew Hnd]. split.
  - intros m [->|Hm]%elem_of_cons; [done|]. by apply Hnew, lookup_insert_None in Hm as [? _].
  - apply NoDup_cons. split; [|done]. intros (m & E & Hm)%list_elem_of_fmap. apply Hnew in Hm. rewrite <- E, lookup_insert_eq in Hm. done.
Qed.

Lemma create_index_defs def e : fst (defs (fst (apply_operation (N := N) (OCreateIndex def) e))) = <[def_name def := def]> (fst (defs e)).
Proof.
  cbn [apply_operation]. erewrite M_bind_ok by reflexivity. cbv beta. erewrite M_bind_ok by reflexivity. cbv beta.
  rewrite keeps_defs_backfill. unfold defs. cbn. by rewrite fmap_insert.
Qed.

(** A unique index is accepted only over values that are distinct, so declaring it keeps the promise. *)
Lemma declared_unique e d def : consistent (N := N) e d -> unique_holds e d -> index_def_validate def = Ok tt ->
  create_index (N := N) def e = (e, Ok (Ok (Some (OCreateIndex def)))) ->
  unique_holds (fst (apply_operation (N := N) (OCreateIndex def) e)) d.
Proof.
  intros Hc Hu Hv E name def' t Hi Hun n m Hn Hm Hkn Hkm Enm.
  assert ((<[def_name def := def]> (fst (defs e))) !! name = Some def') as Hd.
  { rewrite <- create_index_defs. unfold defs. cbn [fst]. by rewrite lookup_fmap, Hi. }
  apply lookup_insert_Some in Hd as [[<- <-]|[Hne Hd]].
  2: { unfold defs in Hd. cbn [fst] in Hd. rewrite lookup_fmap in Hd. destruct (e_data e !! name) as [[def'' t'']|] eqn:Ed; [|done].
       injection Hd as ->. by apply (Hu name def' t''). }
  unfold create_index in E. erewrite M_bind_ok in E by reflexivity. cbv beta in E. rewrite Hv in E.
  destruct (e_data e !! def_name def) as [[? ?]|]; [by destruct (bool_decide _)|].
  destruct (bool_decide _); [done|]. destruct (bool_decide _); [done|]. unfold check_backfill_admissible in E.
  erewrite M_bind_ok in E by (erewrite M_bind_ok by (by apply kind_nodes_run); reflexivity).
  destruct (backfill_check def _ ∅) as [[]|] eqn:Eb; [|done]. destruct (backfill_distinct _ _ _ Eb Hun) as [_ Hnd].
  assert (forall x, live (l_nodes d) x -> n_kind x = def_kind def -> x ∈ scanned (l_nodes d) (kind_prefix (as_bytes (def_kind def)))
    (tree_range (e_trees e Kind) (kind_prefix (as_bytes (def_kind def))))) as Hin.
  { intros x Hx Hk. apply (scanned_kind e d); [done| |done]. by apply index_kind_short. }
  eapply NoDup_map_inj; [exact Hnd|by apply Hin|by apply Hin|exact Enm].
Qed.
End unique.
