(* ===== verification/LowerView.v ===== *)
(** * What lowering sees and writes

    A batch is judged against an overlay, and applied as a list of operations.
    The overlay is exact: a read through it is a read of what the operations
    lowered so far leave.  What a batch overwrites or removes is archived in the
    operation before.  A batch in one owner's name changes no node of another. *)

From Stdlib Require Import ZArith Lia SpecFloat Ascii String.
From stdpp Require Import base tactics list strings option gmap sorting.
From S2P Require Import Prelude Binary BTree BTreeCells Keys Json GoLower OrderKey Predicate Search Entities Wal Transaction Engine EngineRep EngineApply EngineOps EngineTheorems Query QueryScan QueryRows QueryPaths QueryText QueryTheorems QueryGroup Lower Mutate Constraints.

(** ** The state after operations *)

Abbreviation after d ops := (foldl logical_apply d ops).

Lemma after_snoc d ops op : after d (ops ++ [op]) = logical_apply (after d ops) op.
Proof. by rewrite foldl_app. Qed.

(** What an operation writes or removes. *)
Definition touches (op : Operation) : option string :=
  match op with OInsert n => Some (n_address n) | ODelete a => Some a | _ => None end.

(** Every state that is overwritten or removed is archived by the operation just before. *)
Definition archived d (ops : list Operation) : Prop :=
  forall l1 op l2 a p, ops = l1 ++ op :: l2 -> touches op = Some a -> l_nodes (after d l1) !! a = Some p ->
  exists l0 h, l1 = l0 ++ [OArchive h] /\ h_node h = p /\ h_address h = a.

Lemma archived_nil d : archived d [].
Proof. intros l1 op l2 a p E. by destruct l1. Qed.

Lemma archived_snoc d ops op : archived d ops ->
  (forall a p, touches op = Some a -> l_nodes (after d ops) !! a = Some p -> exists l0 h, ops = l0 ++ [OArchive h] /\ h_node h = p /\ h_address h = a) ->
  archived d (ops ++ [op]).
Proof.
  intros Ha Hop l1 op' l2 a p E Ht Hp. destruct l2 as [|x l2' _] using rev_ind.
  - apply app_inj_tail in E as [-> ->]. by apply Hop.
  - rewrite app_comm_cons, app_assoc in E. apply app_inj_tail in E as [-> ->]. by eapply Ha.
Qed.

Section view.
Context {St : Type} `{RecordStoreLaws St} {N : Type} `{SerdeLaws N}.
Context (max_ops : nat) (clock : Z -> Z).
Implicit Types (e : engine (St := St)) (d : logical).

(** The overlay over the stored nodes and edges. *)
Record overlay_ok d (lw : lowering) : Prop := {
  ov_nodes : forall a, match lw_staged lw !! a with Some slot => slot | None => l_nodes d !! a end = l_nodes (after d (lw_ops lw)) !! a;
  ov_edges : forall i, match lw_edges lw !! i with Some slot => slot | None => l_edges d !! i end = l_edges (after d (lw_ops lw)) !! i;
}.

Lemma start_overlay d c : overlay_ok d (start_lowering c).
Proof. split; intros x; unfold start_lowering; cbn; by rewrite lookup_empty. Qed.

Lemma archive_overlay d n lw : overlay_ok d lw -> overlay_ok d (push_archive clock n lw).
Proof.
  intros [Hn He]. unfold push_archive. cbn [take_operation_id]. split; cbn [lw_staged lw_edges lw_ops]; rewrite after_snoc; done.
Qed.

Lemma insert_overlay d n lw : overlay_ok d lw -> overlay_ok d (push_op (OInsert n) (stage_node (n_address n) (Some n) lw)).
Proof.
  intros [Hn He]. split; cbn [push_op stage_node lw_staged lw_edges lw_ops]; rewrite after_snoc; cbn [logical_apply l_nodes l_edges]; [|done].
  intros a. destruct (decide (n_address n = a)) as [<-|Hne]; [by rewrite !lookup_insert_eq|]. rewrite !lookup_insert_ne by done. apply Hn.
Qed.

Lemma delete_overlay d a lw : overlay_ok d lw -> overlay_ok d (push_op (ODelete a) (stage_node a None lw)).
Proof.
  intros [Hn He]. split; cbn [push_op stage_node lw_staged lw_edges lw_ops]; rewrite after_snoc; cbn [logical_apply l_nodes l_edges]; [|done].
  intros b. destruct (decide (a = b)) as [<-|Hne]; [by rewrite lookup_insert_eq, lookup_delete_eq|].
  rewrite lookup_insert_ne, lookup_delete_ne by done. apply Hn.
Qed.

Lemma insert_edge_overlay d x lw : overlay_ok d lw -> overlay_ok d (push_op (OInsertEdge x) (stage_edge (edge_id x) (Some x) lw)).
Proof.
  intros [Hn He]. split; cbn [push_op stage_edge lw_staged lw_edges lw_ops]; rewrite after_snoc; cbn [logical_apply l_nodes l_edges]; [done|].
  intros i. destruct (decide (edge_id x = i)) as [<-|Hne]; [by rewrite !lookup_insert_eq|]. rewrite !lookup_insert_ne by done. apply He.
Qed.

Lemma delete_edge_overlay d i lw : overlay_ok d lw -> overlay_ok d (push_op (ODeleteEdge i) (stage_edge i None lw)).
Proof.
  intros [Hn He]. split; cbn [push_op stage_edge lw_staged lw_edges lw_ops]; rewrite after_snoc; cbn [logical_apply l_nodes l_edges]; [done|].
  intros j. destruct (decide (i = j)) as [<-|Hne]; [by rewrite lookup_insert_eq, lookup_delete_eq|].
  rewrite lookup_insert_ne, lookup_delete_ne by done. apply He.
Qed.

Lemma overwrite_overlay d p n lw : overlay_ok d lw -> overlay_ok d (push_overwrite clock p n lw).
Proof. intros Ho. by apply insert_overlay, archive_overlay. Qed.

Lemma removal_overlay d n lw : overlay_ok d lw -> overlay_ok d (push_removal clock n lw).
Proof. intros Ho. by apply delete_overlay, archive_overlay. Qed.

(** Reads through the overlay. *)
Lemma staged_node_run e d lw a : consistent (N := N) e d -> overlay_ok d lw -> staged_node e (lw_staged lw) a = Ok (l_nodes (after d (lw_ops lw)) !! a).
Proof.
  intros Hc Ho. unfold staged_node. rewrite <- (ov_nodes _ _ Ho). destruct (lw_staged lw !! a); [done|]. by apply (fetch_run e d).
Qed.

Lemma find_edge_run e d i : consistent (N := N) e d -> edge_ok i -> find_edge e i = Ok (l_edges d !! i).
Proof.
  intros Hc Hi. unfold find_edge. fold (edge_out_of i).
  pose proof (located_lookup edge_out_of HEdge (l_edges d) _ _ i (edges_out_inj e d i Hc Hi) (c_edge_out _ _ Hc)) as Hl.
  destruct (l_edges d !! i) as [x|]; [|by rewrite Hl]. destruct Hl as (l & Hlo & -> & Hr).
  rewrite location_decode_encode by done. cbn [mbind result_bind]. unfold edge_at. rewrite Hr. done.
Qed.

Lemma staged_edge_run e d lw i : consistent (N := N) e d -> overlay_ok d lw -> edge_ok i ->
  staged_edge e (lw_edges lw) i = Ok (l_edges (after d (lw_ops lw)) !! i).
Proof.
  intros Hc Ho Hi. unfold staged_edge. rewrite <- (ov_edges _ _ Ho). destruct (lw_edges lw !! i); [done|]. by apply find_edge_run.
Qed.

(** ** The overlay is exact throughout *)

Lemma clear_children_overlay d field children lw lw' : overlay_ok d lw -> clear_children (N := N) clock field children lw = Ok lw' -> overlay_ok d lw'.
Proof.
  revert lw. induction children as [|c children IH]; intros lw Ho; cbn [clear_children]; [by intros [= <-]|].
  destruct (with_field_null c field) as [cleared|]; [|done]. cbn [tx_invalid map_err mbind result_bind]. by apply IH, overwrite_overlay.
Qed.

Lemma follow_references_overlay e d defs_ n written removed queue lw s : overlay_ok d lw ->
  follow_references (N := N) clock e defs_ n written removed queue lw = Ok s -> overlay_ok d s.2.
Proof.
  revert queue lw. induction defs_ as [|def defs_ IH]; intros queue lw Ho; cbn [follow_references]; [by intros [= <-]|].
  destruct (referenced_key n def) as [key|]; [|by apply IH]. destruct (referencing_nodes e def key (lw_staged lw) written) as [nodes|]; [|done].
  cbn [tx_storage map_err mbind result_bind]. destruct (filter _ nodes) as [|c children]; [by apply IH|]. destruct (r_on_delete def); [by apply IH|done|].
  destruct (clear_children clock (r_field def) (c :: children) lw) as [lw'|] eqn:Ec; [|done]. cbn [mbind result_bind].
  apply IH. by eapply clear_children_overlay.
Qed.

Lemma closure_loop_overlay fuel e d written removed queue lw lw' : overlay_ok d lw ->
  closure_loop (N := N) max_ops clock fuel e written removed queue lw = Ok lw' -> overlay_ok d lw'.
Proof.
  revert removed queue lw. induction fuel as [|fuel IH]; intros removed queue lw Ho; cbn [closure_loop]; [done|].
  destruct (next_queued removed queue) as [[n rest]|]; [|by intros [= <-]].
  destruct (follow_references clock e _ n written _ rest _) as [[q lw1]|] eqn:Ef; [|done]. cbn [mbind result_bind snd fst].
  destruct (max_ops <? length (lw_ops lw1)); [done|]. apply IH.
  apply (follow_references_overlay e d) in Ef; [done|]. by apply removal_overlay.
Qed.

Lemma removals_overlay d seeds lw : overlay_ok d lw -> overlay_ok d (foldl (fun lw n => push_removal clock n lw) lw seeds).
Proof. revert lw. induction seeds as [|n seeds IH]; intros lw Ho; [done|]. cbn [foldl]. by apply IH, removal_overlay. Qed.

Lemma delete_closure_overlay e d seeds lw lw' : overlay_ok d lw -> lower_delete_closure (N := N) max_ops clock e seeds lw = Ok lw' -> overlay_ok d lw'.
Proof.
  intros Ho. unfold lower_delete_closure. destruct (decide _); [intros [= <-]; by apply removals_overlay|]. by apply closure_loop_overlay.
Qed.

Lemma seeds_of_overlay e d targets seeds lw s : overlay_ok d lw -> seeds_of e targets seeds lw = Ok s -> overlay_ok d s.2.
Proof.
  revert seeds lw. induction targets as [|a targets IH]; intros seeds lw Ho; cbn [seeds_of]; [by intros [= <-]|].
  destruct (staged_node e (lw_staged lw) a) as [[n|]|]; cbn [tx_storage map_err mbind result_bind]; [by apply IH| |done].
  by apply IH, delete_overlay.
Qed.

Lemma lower_selection_overlay e d kind where_ owner is_admin lw lw' : overlay_ok d lw ->
  lower_selection (N := N) max_ops clock e kind where_ owner is_admin lw = Ok lw' -> overlay_ok d lw'.
Proof.
  intros Ho. unfold lower_selection. destruct (staged_selection e (lw_staged lw) kind where_ owner is_admin) as [targets|]; [|done].
  cbn [tx_invalid map_err mbind result_bind]. destruct (seeds_of e targets [] lw) as [s|] eqn:Es; [|done]. cbn [mbind result_bind].
  apply delete_closure_overlay. by eapply seeds_of_overlay.
Qed.

Lemma set_if_address (n next : Node) field expect set_ : set_if_next (N := N) n field expect set_ = Ok next ->
  n_address next = n_address n /\ n_owner next = n_owner n.
Proof.
  unfold set_if_next. destruct (if blank (n_data n) then _ else _) as [data|]; [|done]. cbn [mbind result_bind].
  destruct (negb _); [done|]. by intros [= <-].
Qed.

Lemma view_address e d ops a n : consistent (N := N) e d -> l_nodes (after d ops) !! a = Some n -> n_address n = a.
Proof. intros Hc. apply keyed_after. intros b m Hm. by apply (c_nodes _ _ Hc). Qed.

Lemma lower_op_overlay e d op lw lw' : consistent (N := N) e d -> overlay_ok d lw -> lower_op (N := N) max_ops clock e op lw = Ok lw' -> overlay_ok d lw'.
Proof.
  intros Hc Ho. destruct op as [n|a|edge|i owner adm|kind owner adm|kind w owner adm|a field ex set_ owner adm]; cbn [lower_op].
  - rewrite (staged_node_run e d) by done. cbn [tx_storage map_err mbind result_bind]. destruct (l_nodes _ !! n_address n) as [p|]; [|intros [= <-]; by apply insert_overlay].
    destruct (negb _); [done|]. intros [= <-]. by apply overwrite_overlay.
  - case_bool_decide; [by intros [= <-]|]. rewrite (staged_node_run e d) by done. cbn [tx_storage map_err mbind result_bind].
    destruct (l_nodes _ !! a) as [n|]; [|done]. by apply delete_closure_overlay.
  - rewrite !(staged_node_run e d) by done. cbn [tx_storage map_err mbind result_bind]. destruct (l_nodes _ !! e_from edge); [|done].
    cbn [mbind result_bind]. destruct (l_nodes _ !! e_to edge); [|done]. intros [= <-]. by apply insert_edge_overlay.
  - case_bool_decide; [by intros [= <-]|]. destruct (staged_edge e (lw_edges lw) i) as [[x|]|]; cbn [tx_storage map_err mbind result_bind]; [|done|done].
    destruct (negb _); [done|]. intros [= <-]. by apply delete_edge_overlay.
  - by apply lower_selection_overlay.
  - by apply lower_selection_overlay.
  - rewrite (staged_node_run e d) by done. cbn [tx_storage map_err mbind result_bind]. destruct (l_nodes _ !! a) as [n|] eqn:Hn; [|done].
    destruct (negb _); [done|]. destruct (set_if_next n field ex set_) as [next|] eqn:Es; [|done]. cbn [mbind result_bind]. intros [= <-].
    apply set_if_address in Es as [Ea _]. rewrite <- (view_address e d _ a n Hc Hn), <- Ea. by apply insert_overlay, archive_overlay.
Qed.

Lemma lower_ops_overlay e d ops lw lw' : consistent (N := N) e d -> overlay_ok d lw -> lower_ops (N := N) max_ops clock e ops lw = Ok lw' -> overlay_ok d lw'.
Proof.
  intros Hc. revert lw. induction ops as [|op ops IH]; intros lw Ho; cbn [lower_ops]; [by intros [= <-]|].
  destruct (lower_op max_ops clock e op lw) as [lw1|] eqn:E; [|done]. cbn [mbind result_bind]. apply IH. by eapply lower_op_overlay.
Qed.

(** C22: A batch reads its own writes.  While a batch is lowered over a consistent engine, a read of any
    address through the overlay answers what the operations lowered so far leave there, and a read of
    any admissible edge likewise: each operation is judged against exactly the state it will meet. *)
Theorem overlay_exact e d ops c lw : consistent (N := N) e d -> lower_transaction (N := N) max_ops clock e ops c = Ok lw ->
  (forall a, staged_node e (lw_staged lw) a = Ok (l_nodes (after d (lw_ops lw)) !! a)) /\
  (forall i, edge_ok i -> staged_edge e (lw_edges lw) i = Ok (l_edges (after d (lw_ops lw)) !! i)).
Proof.
  intros Hc Hl. assert (overlay_ok d lw) as Ho by (eapply lower_ops_overlay; [exact Hc|apply start_overlay|exact Hl]).
  split; [intros a; by apply staged_node_run|intros i Hi; by apply staged_edge_run].
Qed.

(** ** Nothing is overwritten unarchived *)

Definition no_set_null e : Prop := forall name def, e_references e !! name = Some def -> r_on_delete def <> SetNull.

(** What is known of a node while a batch is lowered is what stands there, if anything does. *)
Definition current d (ops : list Operation) (n : Node) : Prop := forall p, l_nodes (after d ops) !! n_address n = Some p -> p = n.

Lemma archived_write d lw p op : archived d (lw_ops lw) -> touches op = Some (n_address p) -> current d (lw_ops lw) p ->
  archived d (lw_ops (push_op op (push_archive clock p lw))).
Proof.
  intros Ha Ht Hp. cbn [push_op lw_ops]. unfold push_archive. cbn [take_operation_id lw_ops]. apply archived_snoc.
  - apply archived_snoc; [done|]. done.
  - intros a q E Hq. rewrite Ht in E. injection E as <-. rewrite after_snoc in Hq. cbn [logical_apply l_nodes] in Hq.
    eexists _, _. split; [done|]. split; [|done]. cbn [history_now h_node]. symmetry. by apply Hp.
Qed.

Lemma archived_fresh d lw op : archived d (lw_ops lw) -> (forall a, touches op = Some a -> l_nodes (after d (lw_ops lw)) !! a = None) ->
  archived d (lw_ops (push_op op lw)).
Proof. intros Ha Hn. cbn [push_op lw_ops]. apply archived_snoc; [done|]. intros a p Ht Hp. rewrite Hn in Hp by done. done. Qed.

Lemma push_removal_ops n lw : lw_ops (push_removal clock n lw) = lw_ops (push_op (ODelete (n_address n)) (push_archive clock n lw)).
Proof. done. Qed.

Lemma current_removal d lw n m : current d (lw_ops lw) m -> current d (lw_ops (push_removal clock n lw)) m.
Proof.
  intros Hm p. unfold push_removal, push_archive. cbn [take_operation_id push_op stage_node lw_ops]. rewrite !after_snoc.
  cbn [logical_apply l_nodes]. intros [_ Hp]%lookup_delete_Some. by apply Hm.
Qed.

Lemma current_delete d lw a m : current d (lw_ops lw) m -> current d (lw_ops (push_op (ODelete a) (stage_node a None lw))) m.
Proof. intros Hm p. cbn [push_op stage_node lw_ops]. rewrite after_snoc. cbn [logical_apply l_nodes]. intros [_ Hp]%lookup_delete_Some. by apply Hm. Qed.

Section archive.
Context e d (Hc : consistent (N := N) e d).

Lemma current_at ops a n : l_nodes (after d ops) !! a = Some n -> current d ops n.
Proof. intros Hn p Hp. rewrite (view_address e d ops a n Hc Hn) in Hp. congruence. Qed.

Lemma referencing_current def key lw candidates ns : overlay_ok d lw ->
  referencing_each (N := N) e def key (lw_staged lw) candidates = Ok ns -> forall n, n ∈ ns -> current d (lw_ops lw) n.
Proof.
  intros Ho. revert ns. induction candidates as [|a candidates IH]; intros ns; cbn [referencing_each]; [intros [= <-]; by intros n ?%not_elem_of_nil|].
  rewrite (staged_node_run e d) by done. cbn [io_refusal map_err mbind result_bind].
  destruct (referencing_each e def key (lw_staged lw) candidates) as [rest|]; [|done]. cbn [mbind result_bind]. intros [= <-] n.
  destruct (l_nodes (after d (lw_ops lw)) !! a) as [m|] eqn:Hm; [|by apply IH].
  destruct (_ && _); [|by apply IH]. intros [->|Hn]%elem_of_cons; [by eapply current_at|by apply (IH rest)].
Qed.

Lemma follow_cascades defs_ n written removed queue lw s : overlay_ok d lw -> Forall (fun def => r_on_delete def <> SetNull) defs_ ->
  (forall m, m ∈ queue -> current d (lw_ops lw) m) -> follow_references (N := N) clock e defs_ n written removed queue lw = Ok s ->
  s.2 = lw /\ forall m, m ∈ s.1 -> current d (lw_ops lw) m.
Proof.
  intros Ho Hdefs. revert queue. induction Hdefs as [|def defs_ Hdef Hdefs IH]; intros queue Hq; cbn [follow_references]; [by intros [= <-]|].
  destruct (referenced_key n def) as [key|]; [|by apply IH]. unfold referencing_nodes. destruct (data_find e (r_kind def) (r_field def)) as [[i t]|]; [|done].
  destruct (referencing_each e def key (lw_staged lw) _) as [nodes|] eqn:Er; [|done]. cbn [tx_storage map_err mbind result_bind].
  pose proof (referencing_current def key lw _ nodes Ho Er) as Hcur.
  destruct (filter (fun c => n_address c ∉ removed) nodes) as [|c children] eqn:Ef; [by apply IH|]. destruct (r_on_delete def); [|done|done].
  apply IH. intros m [Hm|Hm]%elem_of_app; [by apply Hq|]. apply Hcur. rewrite <- Ef in Hm. by apply list_elem_of_filter in Hm as [_ ?].
Qed.

Lemma next_queued_in removed queue n rest : next_queued removed queue = Some (n, rest) ->
  n ∈ queue /\ (n_address n ∉ removed) /\ forall m, m ∈ rest -> m ∈ queue.
Proof.
  induction queue as [|m queue IH]; [done|]. cbn [next_queued]. destruct (decide (n_address m ∈ removed)).
  - intros (Hn & Hr & Hs)%IH. split; [by right|]. split; [done|]. intros x Hx. right. by apply Hs.
  - intros [= -> ->]. split; [left|]. split; [done|]. intros x Hx. by right.
Qed.

Lemma closure_archived fuel written removed queue lw lw' : no_set_null e -> overlay_ok d lw -> archived d (lw_ops lw) ->
  (forall n, n ∈ queue -> current d (lw_ops lw) n) ->
  closure_loop (N := N) max_ops clock fuel e written removed queue lw = Ok lw' -> archived d (lw_ops lw').
Proof.
  intros Hns. revert removed queue lw. induction fuel as [|fuel IH]; intros removed queue lw Ho Ha Hq; cbn [closure_loop]; [done|].
  destruct (next_queued removed queue) as [[n rest]|] eqn:En; [|by intros [= <-]].
  destruct (next_queued_in removed queue n rest En) as (Hn & _ & Hrest).
  destruct (follow_references clock e _ n written _ rest _) as [[q lw1]|] eqn:Ef; [|done]. cbn [mbind result_bind snd fst].
  destruct (max_ops <? length (lw_ops lw1)); [done|].
  apply follow_cascades in Ef as [E Hq1]; cbn [fst snd] in *.
  - subst lw1. apply IH; [by apply removal_overlay| |done]. rewrite push_removal_ops. apply archived_write; [done|done|by apply Hq].
  - by apply removal_overlay.
  - apply Forall_forall. intros def [_ [name Hd]]%references_filtered_spec. by apply (Hns name).
  - intros m Hm. apply current_removal, Hq. by apply Hrest.
Qed.

Lemma removals_archived seeds lw : archived d (lw_ops lw) -> (forall n, n ∈ seeds -> current d (lw_ops lw) n) ->
  archived d (lw_ops (foldl (fun lw n => push_removal clock n lw) lw seeds)).
Proof.
  revert lw. induction seeds as [|n seeds IH]; intros lw Ha Hs; [done|]. cbn [foldl]. apply IH.
  - rewrite push_removal_ops. apply archived_write; [done|done|apply Hs; left].
  - intros m Hm. apply current_removal, Hs. by right.
Qed.

Lemma delete_closure_archived seeds lw lw' : no_set_null e -> overlay_ok d lw -> archived d (lw_ops lw) ->
  (forall n, n ∈ seeds -> current d (lw_ops lw) n) -> lower_delete_closure (N := N) max_ops clock e seeds lw = Ok lw' -> archived d (lw_ops lw').
Proof.
  intros Hns Ho Ha Hs. unfold lower_delete_closure. destruct (decide _); [intros [= <-]; by apply removals_archived|]. by apply closure_archived.
Qed.

Lemma seeds_of_archived targets seeds lw s : overlay_ok d lw -> archived d (lw_ops lw) -> (forall n, n ∈ seeds -> current d (lw_ops lw) n) ->
  seeds_of e targets seeds lw = Ok s -> archived d (lw_ops s.2) /\ forall n, n ∈ s.1 -> current d (lw_ops s.2) n.
Proof.
  revert seeds lw. induction targets as [|a targets IH]; intros seeds lw Ho Ha Hs; cbn [seeds_of]; [by intros [= <-]|].
  rewrite (staged_node_run e d) by done. cbn [tx_storage map_err mbind result_bind]. destruct (l_nodes _ !! a) as [n|] eqn:Hn.
  - apply IH; [done|done|]. intros m [Hm| ->%list_elem_of_singleton]%elem_of_app; [by apply Hs|by eapply current_at].
  - apply IH; [by apply delete_overlay| |].
    + apply archived_fresh; [done|]. intros b [= <-]. cbn [stage_node lw_ops]. done.
    + intros m Hm. by apply current_delete, Hs.
Qed.

Lemma selection_archived kind where_ owner is_admin lw lw' : no_set_null e -> overlay_ok d lw -> archived d (lw_ops lw) ->
  lower_selection (N := N) max_ops clock e kind where_ owner is_admin lw = Ok lw' -> archived d (lw_ops lw').
Proof.
  intros Hns Ho Ha. unfold lower_selection. destruct (staged_selection e (lw_staged lw) kind where_ owner is_admin) as [targets|]; [|done].
  cbn [tx_invalid map_err mbind result_bind]. destruct (seeds_of e targets [] lw) as [s|] eqn:Es; [|done]. cbn [mbind result_bind].
  destruct (seeds_of_archived targets [] lw s Ho Ha) as [Ha' Hcur]; [by intros n ?%not_elem_of_nil|done|].
  apply delete_closure_archived; [done|by eapply seeds_of_overlay|done|done].
Qed.

Lemma lower_op_archived op lw lw' : no_set_null e -> overlay_ok d lw -> archived d (lw_ops lw) ->
  lower_op (N := N) max_ops clock e op lw = Ok lw' -> archived d (lw_ops lw').
Proof.
  intros Hns Ho Ha. destruct op as [n|a|edge|i owner adm|kind owner adm|kind w owner adm|a field ex set_ owner adm]; cbn [lower_op].
  - rewrite (staged_node_run e d) by done. cbn [tx_storage map_err mbind result_bind]. destruct (l_nodes _ !! n_address n) as [p|] eqn:Hp.
    + destruct (negb _); [done|]. intros [= <-]. pose proof (view_address e d _ _ p Hc Hp) as Ea.
      apply (archived_write d lw p (OInsert n)); [done|by rewrite Ea|by eapply current_at].
    + intros [= <-]. apply archived_fresh; [done|]. by intros b [= <-].
  - case_bool_decide; [by intros [= <-]|]. rewrite (staged_node_run e d) by done. cbn [tx_storage map_err mbind result_bind].
    destruct (l_nodes _ !! a) as [n|] eqn:Hn; [|done]. apply delete_closure_archived; [done|done|done|].
    intros m ->%list_elem_of_singleton. by eapply current_at.
  - rewrite !(staged_node_run e d) by done. cbn [tx_storage map_err mbind result_bind]. destruct (l_nodes _ !! e_from edge); [|done].
    cbn [mbind result_bind]. destruct (l_nodes _ !! e_to edge); [|done]. intros [= <-]. by apply archived_fresh.
  - case_bool_decide; [by intros [= <-]|]. destruct (staged_edge e (lw_edges lw) i) as [[x|]|]; cbn [tx_storage map_err mbind result_bind]; [|done|done].
    destruct (negb _); [done|]. intros [= <-]. by apply archived_fresh.
  - by apply selection_archived.
  - by apply selection_archived.
  - rewrite (staged_node_run e d) by done. cbn [tx_storage map_err mbind result_bind]. destruct (l_nodes _ !! a) as [n|] eqn:Hn; [|done].
    destruct (negb _); [done|]. destruct (set_if_next n field ex set_) as [next|] eqn:Es; [|done]. cbn [mbind result_bind]. intros [= <-].
    apply set_if_address in Es as [Ea _]. apply (archived_write d lw n (OInsert next)); [done|cbn [touches]; by rewrite Ea|by eapply current_at].
Qed.

Lemma lower_ops_archived ops lw lw' : no_set_null e -> overlay_ok d lw -> archived d (lw_ops lw) ->
  lower_ops (N := N) max_ops clock e ops lw = Ok lw' -> archived d (lw_ops lw').
Proof.
  intros Hns. revert lw. induction ops as [|op ops IH]; intros lw Ho Ha; cbn [lower_ops]; [by intros [= <-]|].
  destruct (lower_op max_ops clock e op lw) as [lw1|] eqn:E; [|done]. cbn [mbind result_bind].
  apply IH; [by eapply lower_op_overlay|by eapply lower_op_archived].
Qed.
End archive.

(** No state is lost.  In the operations a batch is lowered to, when no reference clears fields,
    every insert over an existing node and every delete of one comes right after the operation that
    archives exactly the state it replaces, whether the state was stored before the batch or written
    by it, and whichever of insert, compare-and-set, delete, bulk delete or cascade replaces it. *)
Theorem superseded_states_archived e d ops c lw : consistent (N := N) e d -> no_set_null e ->
  lower_transaction (N := N) max_ops clock e ops c = Ok lw -> archived d (lw_ops lw).
Proof.
  intros Hc Hns Hl. eapply lower_ops_archived; [exact Hc|exact Hns|apply start_overlay|apply archived_nil|exact Hl].
Qed.

(** ** A batch in one owner's name *)

Section owner.
Context e d (Hc : consistent (N := N) e d) (o : string).

(** The requests a caller who is no administrator makes in its own name. *)
Definition in_name_of (op : TxOperation N) : Prop :=
  match op with
  | TxInsertNode n => n_owner n = o
  | TxDeleteNode a => forall n, l_nodes d !! a = Some n -> n_owner n = o
  | TxInsertEdge _ | TxDeleteEdge _ _ _ => True
  | TxClearKind _ owner is_admin | TxDeleteWhere _ _ owner is_admin | TxSetIf _ _ _ _ owner is_admin => owner = o /\ is_admin = false
  end.

(** Nodes of others stand as they stood, and what is new is the caller's. *)
Definition foreign_kept (ops : list Operation) : Prop :=
  (forall a n, l_nodes d !! a = Some n -> n_owner n <> o -> l_nodes (after d ops) !! a = Some n) /\
  (forall a n, l_nodes (after d ops) !! a = Some n -> n_owner n = o \/ l_nodes d !! a = Some n).

(** The caller's own, or nothing, stands there. *)
Definition own_at (ops : list Operation) (a : string) : Prop := forall p, l_nodes (after d ops) !! a = Some p -> n_owner p = o.

Lemma foreign_start c : foreign_kept (lw_ops (start_lowering c)).
Proof. split; intros a n Hn; [done|by right]. Qed.

Lemma foreign_other ops op : touches op = None -> foreign_kept ops -> foreign_kept (ops ++ [op]).
Proof. intros Ht Hf. unfold foreign_kept. rewrite after_snoc. destruct op; try discriminate Ht; exact Hf. Qed.

Lemma foreign_delete ops a : own_at ops a -> foreign_kept ops -> foreign_kept (ops ++ [ODelete a]).
Proof.
  intros Hown [Hkept Hnew]. unfold foreign_kept. rewrite after_snoc. cbn [logical_apply l_nodes]. split.
  - intros b n Hb Hne. destruct (decide (a = b)) as [<-|Hab]; [|rewrite lookup_delete_ne by done; by apply Hkept].
    exfalso. apply Hne, Hown. by apply Hkept.
  - intros b n [_ Hn]%lookup_delete_Some. by apply Hnew.
Qed.

Lemma foreign_insert ops n : n_owner n = o -> own_at ops (n_address n) -> foreign_kept ops -> foreign_kept (ops ++ [OInsert n]).
Proof.
  intros Hn Hown [Hkept Hnew]. unfold foreign_kept. rewrite after_snoc. cbn [logical_apply l_nodes]. split.
  - intros b m Hb Hne. destruct (decide (n_address n = b)) as [<-|Hab]; [|rewrite lookup_insert_ne by done; by apply Hkept].
    exfalso. apply Hne, Hown. by apply Hkept.
  - intros b m [[_ <-]|[_ Hm]]%lookup_insert_Some; [by left|by apply Hnew].
Qed.

Lemma own_at_archive lw n a : own_at (lw_ops lw) a -> own_at (lw_ops (push_archive clock n lw)) a.
Proof. intros Ha. unfold own_at, push_archive. cbn [take_operation_id lw_ops]. by rewrite after_snoc. Qed.

Lemma own_at_delete ops a b : own_at ops a -> own_at (ops ++ [ODelete b]) a.
Proof. intros Ha p. rewrite after_snoc. cbn [logical_apply l_nodes]. intros [_ Hp]%lookup_delete_Some. by apply Ha. Qed.

Lemma foreign_archive n lw : foreign_kept (lw_ops lw) -> foreign_kept (lw_ops (push_archive clock n lw)).
Proof. intros Hf. unfold push_archive. cbn [take_operation_id lw_ops]. by apply foreign_other. Qed.

Lemma foreign_removal n lw : own_at (lw_ops lw) (n_address n) -> foreign_kept (lw_ops lw) -> foreign_kept (lw_ops (push_removal clock n lw)).
Proof. intros Ha Hf. rewrite push_removal_ops. cbn [push_op lw_ops]. apply foreign_delete; [by apply own_at_archive|by apply foreign_archive]. Qed.

Lemma foreign_removals seeds lw : (forall n, n ∈ seeds -> own_at (lw_ops lw) (n_address n)) -> foreign_kept (lw_ops lw) ->
  foreign_kept (lw_ops (foldl (fun lw n => push_removal clock n lw) lw seeds)).
Proof.
  revert lw. induction seeds as [|n seeds IH]; intros lw Hs Hf; [done|]. cbn [foldl]. apply IH; [|apply foreign_removal; [apply Hs; left|done]].
  intros m Hm. rewrite push_removal_ops. cbn [push_op lw_ops]. apply own_at_delete, own_at_archive, Hs. by right.
Qed.

Lemma foreign_closure seeds lw lw' : e_references e = ∅ -> (forall n, n ∈ seeds -> own_at (lw_ops lw) (n_address n)) -> foreign_kept (lw_ops lw) ->
  lower_delete_closure (N := N) max_ops clock e seeds lw = Ok lw' -> foreign_kept (lw_ops lw').
Proof. intros Hr Hs Hf. unfold lower_delete_closure. rewrite decide_True by done. intros [= <-]. by apply foreign_removals. Qed.

(** What a caller selects is its own. *)
Lemma selected_own kind where_ lw candidates targets : overlay_ok d lw ->
  select_each (N := N) e (lw_staged lw) kind where_ o false candidates = Ok targets -> forall a, a ∈ targets -> own_at (lw_ops lw) a.
Proof.
  intros Ho. revert targets. induction candidates as [|a candidates IH]; intros targets; cbn [select_each]; [intros [= <-]; by intros a ?%not_elem_of_nil|].
  rewrite (staged_node_run e d) by done. cbn [io_refusal map_err mbind result_bind]. destruct (l_nodes _ !! a) as [n|] eqn:Hn; [|by apply IH].
  destruct (selection_matches n kind where_ o false) as [hit|] eqn:Em; [|done]. cbn [mbind result_bind].
  destruct (select_each e (lw_staged lw) kind where_ o false candidates) as [rest|]; [|done]. cbn [mbind result_bind]. intros [= <-] b.
  destruct hit; [|by apply IH]. intros [->|Hb]%elem_of_cons; [|by apply (IH rest)]. intros p Hp. rewrite Hn in Hp. injection Hp as <-.
  unfold selection_matches in Em. destruct (negb (String.eqb _ _)); [done|]. cbn [orb] in Em.
  destruct (can_write n o) eqn:Ew; [|done]. by apply String.eqb_eq in Ew.
Qed.

Lemma foreign_seeds targets seeds lw s : overlay_ok d lw -> (forall a, a ∈ targets -> own_at (lw_ops lw) a) ->
  (forall n, n ∈ seeds -> own_at (lw_ops lw) (n_address n)) -> foreign_kept (lw_ops lw) -> seeds_of e targets seeds lw = Ok s ->
  foreign_kept (lw_ops s.2) /\ forall n, n ∈ s.1 -> own_at (lw_ops s.2) (n_address n).
Proof.
  revert seeds lw. induction targets as [|a targets IH]; intros seeds lw Ho Ht Hs Hf; cbn [seeds_of]; [by intros [= <-]|].
  assert (forall b, b ∈ targets -> own_at (lw_ops lw) b) as Ht' by (intros b Hb; apply Ht; by right).
  rewrite (staged_node_run e d) by done. cbn [tx_storage map_err mbind result_bind]. destruct (l_nodes _ !! a) as [n|] eqn:Hn.
  - apply IH; [done|done| |done]. intros m [Hm| ->%list_elem_of_singleton]%elem_of_app; [by apply Hs|].
    rewrite (view_address e d _ a n Hc Hn). apply Ht. left.
  - apply IH; [by apply delete_overlay| | |].
    + intros b Hb. cbn [push_op stage_node lw_ops]. apply own_at_delete. by apply Ht'.
    + intros m Hm. cbn [push_op stage_node lw_ops]. by apply own_at_delete, Hs.
    + cbn [push_op stage_node lw_ops]. apply foreign_delete; [apply Ht; left|done].
Qed.

Lemma foreign_selection kind where_ lw lw' : e_references e = ∅ -> overlay_ok d lw -> foreign_kept (lw_ops lw) ->
  lower_selection (N := N) max_ops clock e kind where_ o false lw = Ok lw' -> foreign_kept (lw_ops lw').
Proof.
  intros Hr Ho Hf. unfold lower_selection. destruct (staged_selection e (lw_staged lw) kind where_ o false) as [targets|] eqn:Et; [|done].
  cbn [tx_invalid map_err mbind result_bind]. destruct (seeds_of e targets [] lw) as [s|] eqn:Es; [|done]. cbn [mbind result_bind].
  destruct (foreign_seeds targets [] lw s Ho (selected_own kind where_ lw _ targets Ho Et)) as [Hf' Hs]; [by intros n ?%not_elem_of_nil|done|done|].
  by apply foreign_closure.
Qed.

Lemma foreign_op op lw lw' : e_references e = ∅ -> in_name_of op -> overlay_ok d lw -> foreign_kept (lw_ops lw) ->
  lower_op (N := N) max_ops clock e op lw = Ok lw' -> foreign_kept (lw_ops lw').
Proof.
  intros Hr Hop Ho Hf. destruct op as [n|a|edge|i owner adm|kind owner adm|kind w owner adm|a field ex set_ owner adm]; cbn [lower_op in_name_of] in *.
  - rewrite (staged_node_run e d) by done. cbn [tx_storage map_err mbind result_bind]. destruct (l_nodes _ !! n_address n) as [p|] eqn:Hp.
    + destruct (String.eqb_spec (n_owner p) (n_owner n)) as [Eo|]; [|done]. cbn [negb]. intros [= <-]. unfold push_overwrite. cbn [push_op stage_node lw_ops].
      apply foreign_insert; [done| |by apply foreign_archive]. apply own_at_archive. intros q Hq. congruence.
    + intros [= <-]. cbn [push_op stage_node lw_ops]. apply foreign_insert; [done| |done]. intros q Hq. congruence.
  - case_bool_decide; [by intros [= <-]|]. rewrite (staged_node_run e d) by done. cbn [tx_storage map_err mbind result_bind].
    destruct (l_nodes (after d (lw_ops lw)) !! a) as [n|] eqn:Hn; [|done]. apply foreign_closure; [done| |done]. intros m ->%list_elem_of_singleton p Hp.
    rewrite (view_address e d _ a n Hc Hn), Hn in Hp. injection Hp as <-. destruct Hf as [_ Hnew]. destruct (Hnew a n Hn); [done|by apply Hop].
  - rewrite !(staged_node_run e d) by done. cbn [tx_storage map_err mbind result_bind]. destruct (l_nodes _ !! e_from edge); [|done].
    cbn [mbind result_bind]. destruct (l_nodes _ !! e_to edge); [|done]. intros [= <-]. by apply foreign_other.
  - case_bool_decide; [by intros [= <-]|]. destruct (staged_edge e (lw_edges lw) i) as [[x|]|]; cbn [tx_storage map_err mbind result_bind]; [|done|done].
    destruct (negb _); [done|]. intros [= <-]. by apply foreign_other.
  - destruct Hop as [-> ->]. by apply foreign_selection.
  - destruct Hop as [-> ->]. by apply foreign_selection.
  - destruct Hop as [-> ->]. rewrite (staged_node_run e d) by done. cbn [tx_storage map_err mbind result_bind]. destruct (l_nodes _ !! a) as [n|] eqn:Hn; [|done].
    cbn [orb]. destruct (can_write n o) eqn:Ew; [|done]. cbn [negb]. destruct (set_if_next n field ex set_) as [next|] eqn:Es; [|done].
    cbn [mbind result_bind]. intros [= <-]. apply set_if_address in Es as [Ea Eo]. apply String.eqb_eq in Ew. cbn [push_op stage_node lw_ops].
    apply foreign_insert; [congruence| |by apply foreign_archive]. apply own_at_archive. rewrite Ea, (view_address e d _ a n Hc Hn). intros q Hq. congruence.
Qed.

Lemma foreign_ops ops lw lw' : e_references e = ∅ -> Forall in_name_of ops -> overlay_ok d lw -> foreign_kept (lw_ops lw) ->
  lower_ops (N := N) max_ops clock e ops lw = Ok lw' -> foreign_kept (lw_ops lw').
Proof.
  intros Hr Hall. revert lw. induction Hall as [|op ops Hop Hall IH]; intros lw Ho Hf; cbn [lower_ops]; [by intros [= <-]|].
  destruct (lower_op max_ops clock e op lw) as [lw1|] eqn:E; [|done]. cbn [mbind result_bind].
  apply IH; [by eapply lower_op_overlay|by eapply foreign_op].
Qed.
End owner.

(** Ownership holds across a batch.  With no references declared, a batch whose requests are all made
    in one owner's name without administrator rights (nodes inserted in that name, explicit deletes only
    of that owner's nodes) leaves every node of another owner exactly as it was, however its bulk
    deletes, compare-and-sets, inserts and deletes are combined. *)
Theorem batch_keeps_foreign_nodes e d o ops c lw : consistent (N := N) e d -> e_references e = ∅ -> Forall (in_name_of d o) ops ->
  lower_transaction (N := N) max_ops clock e ops c = Ok lw ->
  forall a n, l_nodes d !! a = Some n -> n_owner n <> o -> l_nodes (after d (lw_ops lw)) !! a = Some n.
Proof.
  intros Hc Hr Hall Hl. eapply foreign_ops; [exact Hc|exact Hr|exact Hall|apply start_overlay|apply foreign_start|exact Hl].
Qed.

(** ** The closure ends *)

Lemma clear_children_grows field children lw lw' : clear_children (N := N) clock field children lw = Ok lw' -> length (lw_ops lw) <= length (lw_ops lw').
Proof.
  revert lw. induction children as [|c children IH]; intros lw; cbn [clear_children]; [by intros [= <-]|].
  destruct (with_field_null c field) as [cleared|]; [|done]. cbn [tx_invalid map_err mbind result_bind]. intros Hl%IH.
  unfold push_overwrite, push_archive in Hl. cbn [take_operation_id push_op stage_node lw_ops] in Hl. rewrite !length_app in Hl. lia.
Qed.

Lemma clear_children_fuel field children lw : clear_children (N := N) clock field children lw <> Err TxFuel.
Proof.
  revert lw. induction children as [|c children IH]; intros lw; cbn [clear_children]; [done|].
  destruct (with_field_null c field) as [cleared|]; [|done]. cbn [tx_invalid map_err mbind result_bind]. apply IH.
Qed.

Lemma follow_references_grows e defs_ n written removed queue lw :
  match follow_references (N := N) clock e defs_ n written removed queue lw with
  | Ok s => length (lw_ops lw) <= length (lw_ops s.2)
  | Err x => x <> TxFuel
  end.
Proof.
  revert queue lw. induction defs_ as [|def defs_ IH]; intros queue lw; cbn [follow_references]; [done|].
  destruct (referenced_key n def) as [key|]; [|apply IH]. destruct (referencing_nodes e def key (lw_staged lw) written) as [nodes|]; [|done].
  cbn [tx_storage map_err mbind result_bind]. destruct (filter _ nodes) as [|c children]; [apply IH|]. destruct (r_on_delete def); [apply IH|done|].
  pose proof (clear_children_fuel (r_field def) (c :: children) lw) as Hf.
  destruct (clear_children clock (r_field def) (c :: children) lw) as [lw1|x] eqn:Ec; cbn [mbind result_bind]; [|congruence].
  apply clear_children_grows in Ec. specialize (IH queue lw1). destruct (follow_references _ _ _ _ _ _ _ _); [lia|done].
Qed.

Lemma closure_loop_ends fuel e written removed queue lw : max_ops < 2 * fuel + length (lw_ops lw) -> length (lw_ops lw) <= max_ops ->
  closure_loop (N := N) max_ops clock (S fuel) e written removed queue lw <> Err TxFuel.
Proof.
  revert removed queue lw. induction fuel as [|fuel IH]; intros removed queue lw Hf Hl; [lia|]. cbn [closure_loop] in *.
  destruct (next_queued removed queue) as [[n rest]|]; [|done].
  pose proof (follow_references_grows e (for_parent (e_references e) (n_kind n)) n written ({[n_address n]} ∪ removed) rest (push_removal clock n lw)) as Hg.
  destruct (follow_references _ _ _ _ _ _ _ _) as [[q lw1]|x]; cbn [mbind result_bind snd fst] in *; [|congruence].
  destruct (Nat.ltb_spec max_ops (length (lw_ops lw1))) as [|Hb]; [done|].
  unfold push_removal, push_archive in Hg. cbn [take_operation_id push_op stage_node lw_ops] in Hg. rewrite !length_app in Hg. cbn [length] in Hg.
  apply (IH ({[n_address n]} ∪ removed) q lw1); lia.
Qed.

Lemma closure_loop_stops e written removed queue lw : closure_loop (N := N) max_ops clock (S (S max_ops)) e written removed queue lw <> Err TxFuel.
Proof.
  destruct (decide (length (lw_ops lw) <= max_ops)) as [Hl|Hl]; [apply closure_loop_ends; lia|]. cbn [closure_loop].
  destruct (next_queued removed queue) as [[n rest]|]; [|done].
  pose proof (follow_references_grows e (for_parent (e_references e) (n_kind n)) n written ({[n_address n]} ∪ removed) rest (push_removal clock n lw)) as Hg.
  destruct (follow_references _ _ _ _ _ _ _ _) as [[q lw1]|x]; cbn [mbind result_bind snd fst] in *; [|congruence].
  unfold push_removal, push_archive in Hg. cbn [take_operation_id push_op stage_node lw_ops] in Hg. rewrite !length_app in Hg. cbn [length] in Hg.
  destruct (Nat.ltb_spec max_ops (length (lw_ops lw1))) as [|Hb]; [done|lia].
Qed.

(** A delete always ends.  Whatever references are declared, cyclic ones included, and whatever the
    engine stores, lowering a delete finishes within its bound on staged operations: with the operations
    or with a refusal, never without an answer. *)
Theorem delete_closure_ends e seeds lw : lower_delete_closure (N := N) max_ops clock e seeds lw <> Err TxFuel.
Proof. unfold lower_delete_closure. destruct (decide _); [done|]. apply closure_loop_stops. Qed.
End view.
