(* ===== verification/Referential.v ===== *)
(** * Referential integrity ([src/src/storage/engine.rs], [lower_delete_closure] and [check_references])

    Every value a node holds in a referencing field names a live node of the
    referenced kind.  Deletes keep this by what their closure removes, clears or
    refuses; inserts keep it by the check made before the batch is logged.  The
    theorem joins the two over a whole batch.  It needs that the batch does not
    change what a node it keeps is referenced by: the code never looks at the
    children of an overwritten parent, and the last section shows what happens. *)

From Stdlib Require Import ZArith Lia SpecFloat Ascii String.
From stdpp Require Import base tactics list strings option gmap sorting.
From S2P Require Import Prelude Binary BTree BTreeCells Keys Json GoLower OrderKey Predicate Search Entities Wal Transaction Engine EngineRep EngineApply EngineOps EngineTheorems Query QueryScan QueryRows QueryPaths QueryText QueryTheorems QueryGroup Lower Mutate Constraints LowerView.

Section references.
Context {St : Type} `{RecordStoreLaws St} {N : Type} `{SerdeLaws N}.
Context (max_ops : nat) (clock : Z -> Z).
Implicit Types (e : engine (St := St)) (d : logical).

Definition declared_reference e (def : ReferenceDef) : Prop := exists name, e_references e !! name = Some def.

(** The node answers for the key. *)
Definition answers (n : Node) (def : ReferenceDef) (key : value N) : Prop := n_kind n = r_parent_kind def /\ referenced_key n def = Some key.

(** The node holds the key. *)
Definition refers (n : Node) (def : ReferenceDef) (key : value N) : Prop := n_kind n = r_kind def /\ referencing_key n def = Some key.

Definition referential e (nodes : node_map) : Prop := forall def n key, declared_reference e def -> live nodes n -> refers n def key ->
  exists p, live nodes p /\ answers p def key.

(** Throughout the batch an address that holds a node is referenced by the same keys. *)
Definition keys_kept e d (ops : list Operation) : Prop := forall l1 l2 a p q def key, prefix l1 ops -> prefix l2 ops ->
  l_nodes (after d l1) !! a = Some p -> l_nodes (after d l2) !! a = Some q -> declared_reference e def -> answers p def key <-> answers q def key.

(** Keys are strings, in the nodes stored and written. *)
Definition text_keys e (n : Node) : Prop := forall def v, declared_reference e def ->
  (referencing_key n def = Some v \/ referenced_key n def = Some v) -> exists s, v = JString s.

(** ** The keys *)

Lemma encode_text v s : encode_order_value (N := N) v = encode_order_value (Some (JString s)) -> v = Some (JString s).
Proof.
  intros E. pose proof (encode_body_inj v (Some (JString s)) [] []) as Hinj. unfold data_key in Hinj.
  destruct (Hinj (f_equal (fun l => l ++ []) E)) as [Hb _].
  destruct v as [[| | |s'| |]|]; cbn in Hb; try discriminate Hb. injection Hb as Hb%as_bytes_inj. by subst s'.
Qed.

Lemma text_eqb s : value_eqb (N := N) (JString s) (JString s) = true.
Proof. cbn. apply String.eqb_refl. Qed.

(** ** What a batch leaves untouched *)

Lemma released_app l1 l2 : released (l1 ++ l2) = released l1 ++ released l2.
Proof. unfold released. apply omap_app. Qed.

Lemma untouched_after d ops a : a ∉ released ops -> l_nodes (after d ops) !! a = l_nodes d !! a.
Proof.
  revert d. induction ops as [|op ops IH]; intros d Ha; [done|]. cbn [foldl].
  assert (a ∉ released ops) as Ha' by (intros Hin; apply Ha; change (op :: ops) with ([op] ++ ops); rewrite released_app; apply elem_of_app; by right).
  rewrite IH by done. destruct op; cbn [logical_apply l_nodes]; try done.
  - rewrite lookup_insert_ne; [done|]. intros E. apply Ha. unfold released. cbn [omap list_omap]. rewrite E. left.
  - rewrite lookup_delete_ne; [done|]. intros E. apply Ha. unfold released. cbn [omap list_omap]. rewrite E. left.
Qed.

(** ** What a delete owes *)

(** The batch has deleted a node that answered for the key. *)
Definition deleted_key d (ops : list Operation) (def : ReferenceDef) (key : value N) : Prop :=
  exists l1 a l2 q, ops = l1 ++ ODelete a :: l2 /\ l_nodes (after d l1) !! a = Some q /\ answers q def key.

Lemma deleted_key_snoc d ops op def key : deleted_key d (ops ++ [op]) def key ->
  deleted_key d ops def key \/ exists a q, op = ODelete a /\ l_nodes (after d ops) !! a = Some q /\ answers q def key.
Proof.
  intros (l1 & a & l2 & q & E & Hq & Ha). destruct l2 as [|x l2' _] using rev_ind.
  - apply app_inj_tail in E as [-> ->]. right. by exists a, q.
  - rewrite app_comm_cons, app_assoc in E. apply app_inj_tail in E as [-> ->]. left. by exists l1, a, l2', q.
Qed.

(** What is queued stood at its address at some point of the batch. *)
Definition stood d (ops : list Operation) (n : Node) : Prop := exists l, prefix l ops /\ l_nodes (after d l) !! n_address n = Some n.

Section closure.
Context e d (Hc : consistent (N := N) e d) (final : list Operation) (Hkept : keys_kept e d final).
Context (Htext : forall n, live (l_nodes d) n -> text_keys e n).

Lemma stood_mono ops ops' n : prefix ops ops' -> stood d ops n -> stood d ops' n.
Proof. intros Hp (l & Hl & Hn). exists l. split; [by etrans|done]. Qed.

(** An untouched child is among the nodes a removed parent's reference finds. *)
Lemma child_found def key lw written nodes n : overlay_ok d lw -> live (l_nodes d) n -> declared_reference e def -> refers n def key ->
  n_address n ∉ released (lw_ops lw) -> referencing_nodes (N := N) e def key (lw_staged lw) written = Ok nodes -> n ∈ nodes.
Proof.
  intros Ho Hn Hdef [Hk Hkey] Hun. unfold referencing_nodes. destruct (data_find e (r_kind def) (r_field def)) as [[i t]|] eqn:Hf; [|done].
  apply data_find_spec in Hf as ([name Hi] & Hik & Hif).
  destruct (Htext n Hn def key Hdef (or_introl Hkey)) as [s ->].
  assert (order_key n (r_field def) = Some (JString s)) as Hord by (unfold referencing_key, not_null in Hkey; destruct (order_key n (r_field def)) as [[]|]; done).
  assert (n_address n ∈ address_list (list_to_set (omap (fun kv => string_of_bytes <$> address_from_data_key kv.1)
    (tree_scan t (encode_order_value (Some (JString (N := N) s))) None false)) ∪ staged_of_kind written (r_kind def))) as Hcand.
  { apply address_list_spec, elem_of_union. left. apply elem_of_list_to_set, list_elem_of_omap.
    destruct (data_scan_rows e d name i t (encode_order_value (Some (JString s))) Hc Hi) as (ns & Hall & _ & Hin).
    assert (n ∈ ns) as Hns.
    { apply Hin. split; [done|]. split; [congruence|]. apply same_group. unfold group_key. by rewrite Hif, Hord. }
    apply list_elem_of_lookup in Hns as [j Hj]. destruct (Forall2_lookup_r _ _ _ _ _ Hall Hj) as ([k v] & Hkv & Ek). cbn [fst] in Ek. subst k.
    eexists. split; [by eapply list_elem_of_lookup_2|]. cbn [fst]. unfold row_key. rewrite data_key_roundtrip. cbn. by rewrite string_of_as_bytes. }
  revert Hcand nodes. generalize (address_list (list_to_set (omap (fun kv => string_of_bytes <$> address_from_data_key kv.1)
    (tree_scan t (encode_order_value (Some (JString (N := N) s))) None false)) ∪ staged_of_kind written (r_kind def))) as candidates.
  intros candidates. induction candidates as [|a candidates IH]; intros Hin nodes; [by apply not_elem_of_nil in Hin|]. cbn [referencing_each].
  rewrite (staged_node_run e d) by done. cbn [io_refusal map_err mbind result_bind].
  destruct (referencing_each e def (JString s) (lw_staged lw) candidates) as [rest|]; [|done]. cbn [mbind result_bind]. intros [= <-].
  apply elem_of_cons in Hin as [<-|Hin].
  - rewrite (untouched_after d) by done. unfold live in Hn. rewrite Hn. apply String.eqb_eq in Hk. rewrite Hk, Hkey, text_eqb. left.
  - destruct (l_nodes _ !! a) as [m|]; [|by apply IH]. destruct (_ && _); [right|]; by apply IH.
Qed.

Lemma clear_children_touches field children lw lw' : clear_children (N := N) clock field children lw = Ok lw' ->
  prefix (lw_ops lw) (lw_ops lw') /\ (forall c, c ∈ children -> n_address c ∈ released (lw_ops lw')) /\
  (forall def key, deleted_key d (lw_ops lw') def key -> deleted_key d (lw_ops lw) def key).
Proof.
  revert lw. induction children as [|c children IH]; intros lw; cbn [clear_children]; [intros [= <-]; split; [done|]; split; [by intros c ?%not_elem_of_nil|done]|].
  destruct (with_field_null c field) as [cleared|] eqn:Ec; [|done]. cbn [tx_invalid map_err mbind result_bind]. intros (Hp & Hin & Hdel)%IH.
  assert (n_address cleared = n_address c) as Ea by (unfold with_field_null in Ec; destruct (from_str (n_data c)) as [[]|]; simplify_eq; done).
  unfold push_overwrite, push_archive in Hp, Hdel. cbn [take_operation_id push_op stage_node lw_ops] in Hp, Hdel.
  split; [etrans; [|exact Hp]; rewrite <- app_assoc; by eexists|]. split.
  - intros x [->|Hx]%elem_of_cons; [|by apply Hin]. destruct Hp as [rest ->]. rewrite !released_app. apply elem_of_app. left. apply elem_of_app. right.
    unfold released. cbn [omap list_omap]. rewrite Ea. left.
  - intros def key Hk. apply Hdel, deleted_key_snoc in Hk as [Hk|(? & ? & ? & _)]; [|done]. apply deleted_key_snoc in Hk as [Hk|(? & ? & ? & _)]; done.
Qed.

Lemma released_prefix l1 l2 a : prefix l1 l2 -> a ∈ released l1 -> a ∈ released l2.
Proof. intros [r ->] Ha. rewrite released_app. apply elem_of_app. by left. Qed.

Lemma referencing_stands def key lw written ns : overlay_ok d lw ->
  referencing_nodes (N := N) e def key (lw_staged lw) written = Ok ns -> forall n, n ∈ ns -> stood d (lw_ops lw) n.
Proof.
  intros Ho. unfold referencing_nodes. destruct (data_find e (r_kind def) (r_field def)) as [[i t]|]; [|done]. generalize (address_list
    (list_to_set (omap (fun kv => string_of_bytes <$> address_from_data_key kv.1) (tree_scan t (encode_order_value (Some key)) None false)) ∪
     staged_of_kind written (r_kind def))) as candidates. intros candidates. revert ns.
  induction candidates as [|a candidates IH]; intros ns; cbn [referencing_each]; [intros [= <-]; by intros n ?%not_elem_of_nil|].
  rewrite (staged_node_run e d) by done. cbn [io_refusal map_err mbind result_bind].
  destruct (referencing_each e def key (lw_staged lw) candidates) as [rest|]; [|done]. cbn [mbind result_bind]. intros [= <-] n.
  destruct (l_nodes (after d (lw_ops lw)) !! a) as [m|] eqn:Hm; [|by apply IH].
  destruct (_ && _); [|by apply IH]. intros [->|Hn]%elem_of_cons; [|by apply (IH rest)].
  exists (lw_ops lw). split; [done|]. by rewrite (view_address e d _ a m Hc Hm).
Qed.

(** A child is covered: the batch has touched it, or it is queued for removal. *)
Definition covered (lw : lowering) (queue : list Node) (n : Node) : Prop := n_address n ∈ released (lw_ops lw) \/ n_address n ∈ map n_address queue.

(** Part of a closure that deletes nothing: the batch and the queue grow. *)
Record pushes (queue : list Node) (lw : lowering) (queue' : list Node) (lw' : lowering) : Prop := {
  pu_overlay : overlay_ok d lw';
  pu_prefix : prefix (lw_ops lw) (lw_ops lw');
  pu_queue : forall m, m ∈ queue -> m ∈ queue';
  pu_stood : forall m, m ∈ queue' -> stood d (lw_ops lw') m;
  pu_deleted : forall def key, deleted_key d (lw_ops lw') def key -> deleted_key d (lw_ops lw) def key;
}.

Lemma pushes_trans q1 w1 q2 w2 q3 w3 : pushes q1 w1 q2 w2 -> pushes q2 w2 q3 w3 -> pushes q1 w1 q3 w3.
Proof. intros [A1 A2 A3 A4 A5] [B1 B2 B3 B4 B5]. split; [done|by etrans|auto|done|auto]. Qed.

Lemma covered_pushes q w q' w' n : pushes q w q' w' -> covered w q n -> covered w' q' n.
Proof.
  intros [_ Hp Hq _ _] [Hr|Hin]; [left; by eapply released_prefix|right].
  apply list_elem_of_fmap in Hin as (m & -> & Hm). apply list_elem_of_fmap. exists m. auto.
Qed.

(** One reference of a removed node covers the children it finds. *)
Lemma one_reference def key written (removed : gset string) queue lw nodes queue' lw' : overlay_ok d lw -> declared_reference e def ->
  (forall a, a ∈ removed -> a ∈ released (lw_ops lw)) -> (forall m, m ∈ queue -> stood d (lw_ops lw) m) ->
  referencing_nodes (N := N) e def key (lw_staged lw) written = Ok nodes ->
  let children := filter (fun c => n_address c ∉ removed) nodes in
  (children = [] /\ queue' = queue /\ lw' = lw) \/ (queue' = queue ++ children /\ lw' = lw) \/
  (queue' = queue /\ clear_children (N := N) clock (r_field def) children lw = Ok lw') ->
  pushes queue lw queue' lw' /\ forall x, live (l_nodes d) x -> refers x def key -> covered lw' queue' x.
Proof.
  intros Ho Hdef Hrem Hq Hnodes children Hcase.
  assert (pushes queue lw queue' lw' /\ forall x, x ∈ children -> covered lw' queue' x) as [Hpush Hch].
  { destruct Hcase as [(Hnil & -> & ->)|[[-> ->]|[-> Hcl]]].
    - split; [by split|]. rewrite Hnil. by intros x ?%not_elem_of_nil.
    - split; [|intros x Hx; right; rewrite map_app; apply elem_of_app; right; apply list_elem_of_fmap; by exists x].
      split; [done|done|intros m Hm; apply elem_of_app; by left| |done].
      intros m [Hm|Hm]%elem_of_app; [by apply Hq|]. apply list_elem_of_filter in Hm as [_ Hm]. by eapply referencing_stands.
    - destruct (clear_children_touches _ _ _ _ Hcl) as (Hp & Hin & Hdel). split; [|intros x Hx; left; by apply Hin].
      split; [by eapply clear_children_overlay|done|done| |done]. intros m Hm. eapply stood_mono; [exact Hp|by apply Hq]. }
  split; [done|]. intros x Hx Hr. destruct (decide (n_address x ∈ released (lw_ops lw))) as [Hrel|Hun].
  - apply (covered_pushes queue lw queue' lw' x Hpush). by left.
  - apply Hch, list_elem_of_filter. split; [auto|]. by apply (child_found def key lw written nodes x).
Qed.

(** All references of a removed node. *)
Lemma follow_covers defs_ n written (removed : gset string) queue lw s : overlay_ok d lw -> (forall a, a ∈ removed -> a ∈ released (lw_ops lw)) ->
  Forall (declared_reference e) defs_ -> (forall m, m ∈ queue -> stood d (lw_ops lw) m) ->
  follow_references (N := N) clock e defs_ n written removed queue lw = Ok s ->
  pushes queue lw s.1 s.2 /\
  forall def key x, def ∈ defs_ -> referenced_key n def = Some key -> live (l_nodes d) x -> refers x def key -> covered s.2 s.1 x.
Proof.
  intros Ho Hrem Hdefs. revert queue lw Ho Hrem. induction Hdefs as [|def defs_ Hdef Hdefs IH]; intros queue lw Ho Hrem Hq; cbn [follow_references].
  { intros [= <-]. cbn [fst snd]. split; [by split|]. by intros def key x ?%not_elem_of_nil. }
  destruct (referenced_key n def) as [key|] eqn:Ek.
  2: { intros E. destruct (IH queue lw Ho Hrem Hq E) as [Hp Hcov]. split; [done|].
       intros def' key' x [->|Hin]%elem_of_cons; [congruence|by apply Hcov]. }
  destruct (referencing_nodes e def key (lw_staged lw) written) as [nodes|] eqn:En; [|done]. cbn [tx_storage map_err mbind result_bind].
  assert (forall q lw1, pushes queue lw q lw1 /\ (forall x, live (l_nodes d) x -> refers x def key -> covered lw1 q x) ->
    follow_references (N := N) clock e defs_ n written removed q lw1 = Ok s -> pushes queue lw s.1 s.2 /\
    forall def' key' x, def' ∈ def :: defs_ -> referenced_key n def' = Some key' -> live (l_nodes d) x -> refers x def' key' -> covered s.2 s.1 x) as Hstep.
  { intros q lw1 [Hp1 Hc1] E. destruct (IH q lw1 (pu_overlay _ _ _ _ Hp1)) as [Hp2 Hc2]; [|apply Hp1|done|].
    - intros a Ha. eapply released_prefix; [apply Hp1|auto].
    - split; [by eapply pushes_trans|]. intros def' key' x [->|Hin]%elem_of_cons Hk' Hx Hr; [|by apply (Hc2 def' key')].
      rewrite Ek in Hk'. injection Hk' as <-. eapply covered_pushes; [exact Hp2|by apply Hc1]. }
  pose proof (one_reference def key written removed queue lw nodes) as Hone. cbv zeta in Hone.
  destruct (filter (fun c => n_address c ∉ removed) nodes) as [|c children]; [apply Hstep, Hone; auto|].
  destruct (r_on_delete def); [apply Hstep, Hone; auto|done|].
  destruct (clear_children clock (r_field def) (c :: children) lw) as [lw1|] eqn:Ec; [|done]. cbn [mbind result_bind]. apply Hstep, Hone; auto.
Qed.

(** What the deletes so far owe is covered. *)
Definition owes (lw : lowering) (queue : list Node) : Prop := forall def key n, declared_reference e def ->
  deleted_key d (lw_ops lw) def key -> live (l_nodes d) n -> refers n def key -> covered lw queue n.

Lemma next_queued_cases (removed : gset string) queue : match next_queued removed queue with
  | Some (n, rest) => forall m, m ∈ queue -> m = n \/ n_address m ∈ removed \/ m ∈ rest
  | None => forall m, m ∈ queue -> n_address m ∈ removed
  end.
Proof.
  induction queue as [|x queue IH]; cbn [next_queued]; [by intros m ?%not_elem_of_nil|]. destruct (decide (n_address x ∈ removed)) as [Hx|Hx].
  - destruct (next_queued removed queue) as [[n rest]|]; intros m [->|Hm]%elem_of_cons; auto.
  - intros m [->|Hm]%elem_of_cons; auto.
Qed.

Lemma removal_list n lw : exists h, lw_ops (push_removal clock n lw) = (lw_ops lw ++ [OArchive h]) ++ [ODelete (n_address n)].
Proof. by eexists. Qed.

(** Taking the next node off the queue and removing it. *)
Lemma removal_owes n0 rest (removed : gset string) queue lw : (forall a, a ∈ removed -> a ∈ released (lw_ops lw)) ->
  next_queued removed queue = Some (n0, rest) -> owes lw queue -> stood d (lw_ops lw) n0 -> prefix (lw_ops (push_removal clock n0 lw)) final ->
  forall def key x, declared_reference e def -> deleted_key d (lw_ops (push_removal clock n0 lw)) def key -> live (l_nodes d) x -> refers x def key ->
  covered (push_removal clock n0 lw) rest x \/ answers n0 def key.
Proof.
  intros Hrem Hnext Howes (l & Hl & Hn0) Hfin def key x Hdef Hdel Hx Hr. pose proof (next_queued_cases removed queue) as Hcases. rewrite Hnext in Hcases.
  destruct (removal_list n0 lw) as [h Eops]. unfold covered. rewrite Eops in *. set (op := OArchive h) in *.
  assert (prefix (lw_ops lw) final) as Hpre by (etrans; [|exact Hfin]; rewrite <- app_assoc; by eexists).
  assert (prefix (lw_ops lw ++ [op]) final) as Hpre1 by (etrans; [|exact Hfin]; by eexists).
  apply deleted_key_snoc in Hdel as [Hdel|(a & q & [= <-] & Hq & Hans)].
  - apply deleted_key_snoc in Hdel as [Hdel|(? & ? & ? & _)]; [left|done].
    rewrite !released_app, !elem_of_app. destruct (Howes def key x Hdef Hdel Hx Hr) as [Hrel|(m & Em & Hm)%list_elem_of_fmap]; [auto|].
    rewrite Em. clear Em. destruct (Hcases m Hm) as [->|[Hr'|Hin]].
    + left. right. unfold released. cbn [omap list_omap]. left.
    + left. left. left. by apply Hrem.
    + right. apply list_elem_of_fmap. by exists m.
  - right. rewrite (Hkept l (lw_ops lw ++ [op]) (n_address n0) n0 q def key); [done| |done|done|done|done]. by etrans.
Qed.

(** The state of the loop between two removals. *)
Record closing (removed : gset string) (queue : list Node) (lw : lowering) : Prop := {
  cl_overlay : overlay_ok d lw;
  cl_removed : forall a, a ∈ removed -> a ∈ released (lw_ops lw);
  cl_stood : forall m, m ∈ queue -> stood d (lw_ops lw) m;
}.

Lemma removal_prefix n lw : prefix (lw_ops lw) (lw_ops (push_removal clock n lw)).
Proof. unfold push_removal, push_archive. cbn [take_operation_id push_op stage_node lw_ops]. rewrite <- app_assoc. by eexists. Qed.

Lemma closing_step n0 rest written removed queue lw s : closing removed queue lw -> next_queued removed queue = Some (n0, rest) ->
  follow_references (N := N) clock e (for_parent (e_references e) (n_kind n0)) n0 written ({[n_address n0]} ∪ removed) rest (push_removal clock n0 lw) = Ok s ->
  closing ({[n_address n0]} ∪ removed) s.1 s.2 /\ pushes rest (push_removal clock n0 lw) s.1 s.2 /\ stood d (lw_ops lw) n0 /\
  forall def key x, declared_reference e def -> answers n0 def key -> live (l_nodes d) x -> refers x def key -> covered s.2 s.1 x.
Proof.
  intros [Ho Hrem Hst] Hnext Ef. destruct (next_queued_in removed queue n0 rest Hnext) as (Hn0 & _ & Hrest).
  assert (forall a, a ∈ ({[n_address n0]} ∪ removed : gset string) -> a ∈ released (lw_ops (push_removal clock n0 lw))) as Hrem'.
  { intros a [->%elem_of_singleton|Ha]%elem_of_union; [|eapply released_prefix; [apply removal_prefix|auto]].
    unfold push_removal, push_archive. cbn [take_operation_id push_op stage_node lw_ops]. rewrite released_app. apply elem_of_app. right. left. }
  apply follow_covers in Ef as [Hpush Hcov].
  - split; [split; [apply Hpush| |apply Hpush]|]. { intros a Ha. eapply released_prefix; [apply Hpush|by apply Hrem']. }
    split; [done|]. split; [by apply Hst|]. intros def key x [name Hd] [Hk Hkey] Hx Hr. apply (Hcov def key); [|done|done|done].
    apply references_filtered_spec. split; [by apply String.eqb_eq|by exists name].
  - by apply removal_overlay.
  - done.
  - apply Forall_forall. intros def [_ Hdef]%references_filtered_spec. done.
  - intros m Hm. eapply stood_mono; [apply removal_prefix|]. apply Hst. by apply Hrest.
Qed.

Lemma closure_loop_prefix fuel written removed queue lw lw' : closing removed queue lw ->
  closure_loop (N := N) max_ops clock fuel e written removed queue lw = Ok lw' -> prefix (lw_ops lw) (lw_ops lw').
Proof.
  revert removed queue lw. induction fuel as [|fuel IH]; intros removed queue lw Hcl; cbn [closure_loop]; [done|].
  destruct (next_queued removed queue) as [[n0 rest]|] eqn:Hnext; [|by intros [= <-]].
  destruct (follow_references clock e _ n0 written _ rest _) as [s|] eqn:Ef; [|done]. cbn [mbind result_bind].
  destruct (max_ops <? length (lw_ops s.2)); [done|]. destruct (closing_step n0 rest written removed queue lw s Hcl Hnext Ef) as (Hcl' & Hpush & _).
  intros E%IH; [|done]. etrans; [apply (removal_prefix n0)|]. etrans; [apply Hpush|done].
Qed.

Lemma closure_loop_pays fuel written removed queue lw lw' : closing removed queue lw -> owes lw queue ->
  closure_loop (N := N) max_ops clock fuel e written removed queue lw = Ok lw' -> prefix (lw_ops lw') final -> owes lw' [].
Proof.
  revert removed queue lw. induction fuel as [|fuel IH]; intros removed queue lw Hcl Howes; cbn [closure_loop]; [done|].
  pose proof (next_queued_cases removed queue) as Hcases. destruct (next_queued removed queue) as [[n0 rest]|] eqn:Hnext.
  2: { intros [= <-] _ def key x Hdef Hdel Hx Hr. left.
       destruct (Howes def key x Hdef Hdel Hx Hr) as [?|(m & -> & Hm)%list_elem_of_fmap]; [done|]. apply (cl_removed _ _ _ Hcl). auto. }
  destruct (follow_references clock e _ n0 written _ rest _) as [s|] eqn:Ef; [|done]. cbn [mbind result_bind].
  destruct (max_ops <? length (lw_ops s.2)); [done|]. intros E Hfin.
  destruct (closing_step n0 rest written removed queue lw s Hcl Hnext Ef) as (Hcl' & Hpush & Hn0 & Hcov).
  apply (IH ({[n_address n0]} ∪ removed) s.1 s.2); [done| |done|done].
  intros def key x Hdef Hdel Hx Hr. apply (pu_deleted _ _ _ _ Hpush) in Hdel.
  assert (prefix (lw_ops (push_removal clock n0 lw)) final) as Hfin0.
  { etrans; [apply Hpush|]. etrans; [by eapply closure_loop_prefix|done]. }
  destruct (removal_owes n0 rest removed queue lw (cl_removed _ _ _ Hcl) Hnext Howes Hn0 Hfin0 def key x Hdef Hdel Hx Hr) as [Hcv|Hans].
  - by eapply covered_pushes.
  - by apply (Hcov def key).
Qed.

(** ** Over a batch *)

Lemma owes_weaken lw queue : owes lw [] -> owes lw queue.
Proof. intros Ho def key n Hdef Hdel Hn Hr. destruct (Ho def key n Hdef Hdel Hn Hr) as [?|?%not_elem_of_nil]; [by left|done]. Qed.

Lemma owes_push lw lw' op : owes lw [] -> lw_ops lw' = lw_ops lw ++ [op] ->
  (forall a q, op = ODelete a -> l_nodes (after d (lw_ops lw)) !! a = Some q -> False) -> owes lw' [].
Proof.
  intros Ho E Hop def key n Hdef Hdel Hn Hr. rewrite E in Hdel. apply deleted_key_snoc in Hdel as [Hdel|(a & q & -> & Hq & _)]; [|by destruct (Hop a q)].
  destruct (Ho def key n Hdef Hdel Hn Hr) as [?|?%not_elem_of_nil]; [left|done]. rewrite E. eapply released_prefix; [by eexists|done].
Qed.

(** A point of the batch at which nothing is owed, and a step to the next. *)
Definition settled (lw : lowering) : Prop := prefix (lw_ops lw) final -> owes lw [].
Definition settles (lw lw' : lowering) : Prop := prefix (lw_ops lw) (lw_ops lw') /\ (settled lw -> settled lw').

Lemma settles_refl lw : settles lw lw.
Proof. by split. Qed.

Lemma settles_trans lw1 lw2 lw3 : settles lw1 lw2 -> settles lw2 lw3 -> settles lw1 lw3.
Proof. intros [H12 S12] [H23 S23]. split; [by etrans|auto]. Qed.

Lemma settles_push lw lw' op : lw_ops lw' = lw_ops lw ++ [op] -> (forall a q, op = ODelete a -> l_nodes (after d (lw_ops lw)) !! a = Some q -> False) ->
  settles lw lw'.
Proof.
  intros E Hop. assert (prefix (lw_ops lw) (lw_ops lw')) as Hp by (rewrite E; by eexists).
  split; [done|]. intros Hs Hfin. eapply owes_push; [apply Hs; by etrans|done|done].
Qed.

Lemma settles_archive n lw : settles lw (push_archive clock n lw).
Proof. eapply settles_push; [by unfold push_archive; cbn [take_operation_id lw_ops]|done]. Qed.

Lemma delete_closure_settles seeds lw lw' : overlay_ok d lw -> (forall m, m ∈ seeds -> stood d (lw_ops lw) m) ->
  lower_delete_closure (N := N) max_ops clock e seeds lw = Ok lw' -> settles lw lw'.
Proof.
  intros Ho Hst. unfold lower_delete_closure. destruct (decide (e_references e = ∅)) as [Er|_].
  - intros [= <-]. split; [|intros _ _ def key n [name Hdef]; rewrite Er in Hdef; by apply lookup_empty_Some in Hdef]. clear Hst Ho. revert lw.
    induction seeds as [|n seeds IH]; intros lw; [done|]. cbn [foldl]. etrans; [apply (removal_prefix n)|apply IH].
  - intros E. assert (closing ∅ seeds lw) as Hcl by (split; [done|by intros a ?%not_elem_of_empty|done]).
    pose proof (closure_loop_prefix _ _ _ _ _ _ Hcl E) as Hp. split; [done|]. intros Hs Hfin.
    eapply closure_loop_pays; [done| |done|done]. apply owes_weaken, Hs. by etrans.
Qed.

Lemma seeds_of_settles targets seeds lw s : overlay_ok d lw -> (forall m, m ∈ seeds -> stood d (lw_ops lw) m) ->
  seeds_of e targets seeds lw = Ok s -> settles lw s.2 /\ forall m, m ∈ s.1 -> stood d (lw_ops s.2) m.
Proof.
  revert seeds lw. induction targets as [|a targets IH]; intros seeds lw Ho Hst; cbn [seeds_of]; [by intros [= <-]|].
  rewrite (staged_node_run e d) by done. cbn [tx_storage map_err mbind result_bind]. destruct (l_nodes _ !! a) as [n|] eqn:Hn.
  - apply IH; [done|]. intros m [Hm| ->%list_elem_of_singleton]%elem_of_app; [by apply Hst|].
    exists (lw_ops lw). split; [done|]. by rewrite (view_address e d _ a n Hc Hn).
  - intros E. apply IH in E as [Hs Hst'].
    + split; [|done]. eapply settles_trans; [|exact Hs]. eapply (settles_push lw _ (ODelete a)); [done|]. intros b q [= <-] Hq. congruence.
    + by apply delete_overlay.
    + intros m Hm. eapply stood_mono; [by eexists|by apply Hst].
Qed.

Lemma lower_selection_settles kind where_ owner is_admin lw lw' : overlay_ok d lw ->
  lower_selection (N := N) max_ops clock e kind where_ owner is_admin lw = Ok lw' -> settles lw lw'.
Proof.
  intros Ho. unfold lower_selection. destruct (staged_selection e (lw_staged lw) kind where_ owner is_admin) as [targets|]; [|done].
  cbn [tx_invalid map_err mbind result_bind]. destruct (seeds_of e targets [] lw) as [s|] eqn:Es; [|done]. cbn [mbind result_bind].
  destruct (seeds_of_settles targets [] lw s Ho) as [Hs Hst]; [by intros m ?%not_elem_of_nil|done|].
  intros E. eapply settles_trans; [exact Hs|]. eapply delete_closure_settles; [by eapply seeds_of_overlay|exact Hst|exact E].
Qed.

Lemma lower_op_settles op lw lw' : overlay_ok d lw -> lower_op (N := N) max_ops clock e op lw = Ok lw' -> settles lw lw'.
Proof.
  intros Ho. destruct op as [n|a|edge|i owner adm|kind owner adm|kind w owner adm|a field ex set_ owner adm]; cbn [lower_op].
  - rewrite (staged_node_run e d) by done. cbn [tx_storage map_err mbind result_bind]. destruct (l_nodes _ !! n_address n) as [p|].
    + destruct (negb _); [done|]. intros [= <-]. eapply settles_trans; [apply (settles_archive p)|]. by eapply (settles_push _ _ (OInsert n)).
    + intros [= <-]. by eapply (settles_push lw _ (OInsert n)).
  - case_bool_decide; [intros [= <-]; apply settles_refl|]. rewrite (staged_node_run e d) by done. cbn [tx_storage map_err mbind result_bind].
    destruct (l_nodes (after d (lw_ops lw)) !! a) as [n|] eqn:Hn; [|done]. apply delete_closure_settles; [done|]. intros m ->%list_elem_of_singleton.
    exists (lw_ops lw). split; [done|]. by rewrite (view_address e d _ a n Hc Hn).
  - rewrite !(staged_node_run e d) by done. cbn [tx_storage map_err mbind result_bind]. destruct (l_nodes _ !! e_from edge); [|done].
    cbn [mbind result_bind]. destruct (l_nodes _ !! e_to edge); [|done]. intros [= <-]. by eapply (settles_push lw _ (OInsertEdge edge)).
  - case_bool_decide; [intros [= <-]; apply settles_refl|].
    destruct (staged_edge e (lw_edges lw) i) as [[x|]|]; cbn [tx_storage map_err mbind result_bind]; [|done|done].
    destruct (negb _); [done|]. intros [= <-]. by eapply (settles_push lw _ (ODeleteEdge i)).
  - by apply lower_selection_settles.
  - by apply lower_selection_settles.
  - rewrite (staged_node_run e d) by done. cbn [tx_storage map_err mbind result_bind]. destruct (l_nodes _ !! a) as [n|]; [|done].
    destruct (negb _); [done|]. destruct (set_if_next n field ex set_) as [next|]; [|done]. cbn [mbind result_bind]. intros [= <-].
    eapply settles_trans; [apply (settles_archive n)|]. by eapply (settles_push _ _ (OInsert next)).
Qed.

Lemma lower_ops_settles ops lw lw' : overlay_ok d lw -> lower_ops (N := N) max_ops clock e ops lw = Ok lw' -> settles lw lw'.
Proof.
  revert lw. induction ops as [|op ops IH]; intros lw Ho; cbn [lower_ops]; [intros [= <-]; apply settles_refl|].
  destruct (lower_op max_ops clock e op lw) as [lw1|] eqn:E; [|done]. cbn [mbind result_bind]. intros E'%IH; [|by eapply lower_op_overlay].
  eapply settles_trans; [by eapply lower_op_settles|done].
Qed.
End closure.

(** ** What the insert check accepts *)

Lemma net_effect_spec d ops a : let s := net_effect ops in
  match s.1 !! a with
  | Some n => n_address n = a /\ l_nodes (after d ops) !! a = Some n
  | None => l_nodes (after d ops) !! a = if decide (a ∈ s.2) then None else l_nodes d !! a
  end.
Proof.
  cbv zeta. unfold net_effect. induction ops as [|op ops IH] using rev_ind; [done|]. rewrite !foldl_app. cbn [foldl].
  destruct (foldl net_step (∅, ∅) ops) as [ins del]. cbn [fst snd] in *.
  destruct op; cbn [net_step logical_apply l_nodes fst snd]; try exact IH.
  - destruct (decide (n_address n = a)) as [<-|Hne]; [by rewrite !lookup_insert_eq|]. rewrite !lookup_insert_ne by done.
    destruct (ins !! a); [done|]. rewrite IH. by repeat case_decide; set_solver.
  - destruct (decide (address = a)) as [<-|Hne].
    + rewrite !lookup_delete_eq. by rewrite decide_True by set_solver.
    + rewrite !lookup_delete_ne by done. destruct (ins !! a); [done|]. rewrite IH. by repeat case_decide; set_solver.
Qed.

Lemma net_touched ops a : a ∈ released ops -> is_Some ((net_effect ops).1 !! a) \/ a ∈ (net_effect ops).2.
Proof.
  unfold net_effect. induction ops as [|op ops IH] using rev_ind; [by intros ?%not_elem_of_nil|]. rewrite released_app, elem_of_app, foldl_app. cbn [foldl].
  destruct (foldl net_step (∅, ∅) ops) as [ins del]. cbn [fst snd] in *. unfold released at 2. destruct op; cbn [omap list_omap net_step fst snd].
  all: try (intros [Ha|?%not_elem_of_nil]; [by apply IH|done]).
  - rewrite list_elem_of_singleton, elem_of_difference, elem_of_singleton. destruct (decide (a = n_address n)) as [->|Hne]; [rewrite lookup_insert_eq; eauto|].
    rewrite lookup_insert_ne by done. intros [Ha|?]; [|done]. destruct (IH Ha); auto.
  - rewrite list_elem_of_singleton, elem_of_union, elem_of_singleton. destruct (decide (a = address)) as [->|Hne]; [auto|].
    rewrite lookup_delete_ne by done. intros [Ha|?]; [|done]. destruct (IH Ha); auto.
Qed.

Lemma check_each_spec e ins del ns : check_each_reference (N := N) e ins del ns = Ok tt ->
  forall n def key, n ∈ ns -> declared_reference e def -> refers n def key ->
  to_string key ∈ satisfied_keys (N := N) ins def \/ resolves_committed (N := N) e def key del = Ok true.
Proof.
  induction ns as [|m ns IH]; cbn [check_each_reference]; [by intros _ n def key ?%not_elem_of_nil|].
  destruct (check_node_references e ins del m (for_child (e_references e) (n_kind m))) as [[]|] eqn:Em; [|done]. cbn [mbind result_bind].
  intros Hns n def key [->|Hn]%elem_of_cons [name Hdef] [Hk Hkey]; [|apply (IH Hns n); [done|by exists name|done]].
  assert (def ∈ for_child (e_references e) (n_kind m)) as Hin.
  { apply references_filtered_spec. split; [by apply String.eqb_eq|by exists name]. }
  clear IH Hns. revert Em Hin. generalize (for_child (e_references e) (n_kind m)) as defs_. induction defs_ as [|def' defs_ IH]; [by intros _ ?%not_elem_of_nil|].
  cbn [check_node_references]. intros Em [<-|Hin]%elem_of_cons.
  - rewrite Hkey in Em. case_bool_decide; [by left|]. destruct (resolves_committed e def key del) as [[]|]; [by right|done|done].
  - destruct (referencing_key m def') as [key'|]; [|by apply IH]. case_bool_decide; [by apply IH|].
    destruct (resolves_committed e def' key' del) as [[]|]; [by apply IH|done|done].
Qed.

Lemma committed_parent e d def s (del : gset string) : consistent (N := N) e d -> resolves_committed (N := N) e def (JString s) del = Ok true ->
  exists p, live (l_nodes d) p /\ answers p def (JString s) /\ (n_address p ∉ del).
Proof.
  intros Hc. unfold resolves_committed, answers, referenced_key. destruct (r_parent_field def) as [field|] eqn:Er.
  - destruct (data_find e (r_parent_kind def) field) as [[i t]|] eqn:Hf; [|done]. apply data_find_spec in Hf as ([name Hi] & Hik & Hif).
    intros [= Hex]. apply existsb_exists in Hex as (kv & Hkv%list_elem_of_In & Hat).
    destruct (data_scan_rows e d name i t (encode_order_value (Some (JString s))) Hc Hi) as (ns & Hall & _ & Hin).
    apply list_elem_of_lookup in Hkv as [j Hj]. destruct (Forall2_lookup_l _ _ _ _ _ Hall Hj) as (p & Hp & Ek).
    apply list_elem_of_lookup_2, Hin in Hp as (Hl & Hk & Hs). rewrite Ek in Hat. unfold row_key in Hat. rewrite data_key_roundtrip, string_of_as_bytes in Hat.
    apply negb_true_iff, bool_decide_eq_false_1 in Hat. exists p. split; [done|]. split; [|done]. split; [congruence|].
    apply same_group in Hs. unfold group_key in Hs. apply encode_text in Hs. rewrite Hif in Hs. by rewrite Hs.
  - cbn [as_str]. case_bool_decide as Hdel; [done|]. unfold resolves_live. rewrite Er. cbn [as_str]. rewrite (fetch_run e d) by done.
    cbn [io_refusal map_err mbind result_bind]. destruct (l_nodes d !! s) as [p|] eqn:Hp; [|done]. intros [= Hk%String.eqb_eq].
    pose proof (keyed_nodes e d Hc s p Hp) as Ea. exists p. unfold live. rewrite Ea. done.
Qed.

(** ** A whole batch *)

Lemma vanished d ops a p : l_nodes d !! a = Some p -> l_nodes (after d ops) !! a = None ->
  exists l1 l2 q, ops = l1 ++ ODelete a :: l2 /\ l_nodes (after d l1) !! a = Some q.
Proof.
  intros Hp. induction ops as [|op ops IH] using rev_ind; [cbn; congruence|]. rewrite after_snoc. intros Hn.
  destruct (l_nodes (after d ops) !! a) as [q|] eqn:Hq.
  - exists ops, [], q. split; [|done]. f_equal. destruct op; cbn [logical_apply l_nodes] in Hn; try congruence.
    + by apply lookup_insert_None in Hn as [? _]; congruence.
    + apply lookup_delete_None in Hn as [->|Hn]; [done|congruence].
  - destruct (IH eq_refl) as (l1 & l2 & q & -> & Hq'). exists l1, (l2 ++ [op]), q. by rewrite <- app_assoc, app_comm_cons.
Qed.

Lemma satisfied_parent e (ins : gmap string Node) def s : (forall s' s'' : string, to_string (JString (N := N) s') = to_string (JString s'') -> s' = s'') ->
  (forall a n, ins !! a = Some n -> text_keys e n) -> declared_reference e def -> to_string (JString s) ∈ satisfied_keys (N := N) ins def ->
  exists a p, ins !! a = Some p /\ answers p def (JString s).
Proof.
  intros Hinj Htx Hdef (v & E & Hv)%list_elem_of_fmap. apply list_elem_of_omap in Hv as (p & Hp & Hk).
  apply list_elem_of_fmap in Hp as ([a p'] & -> & Hp%elem_of_map_to_list). cbn [snd] in *.
  destruct (String.eqb_spec (n_kind p') (r_parent_kind def)) as [Ek|]; [|done]. destruct (Htx a p' Hp def v Hdef (or_intror Hk)) as [s' ->].
  apply Hinj in E as <-. by exists a, p'.
Qed.

(** A parent that the batch leaves in place still answers. *)
Lemma parent_stays e d ops a p def key : consistent (N := N) e d -> keys_kept e d ops -> declared_reference e def ->
  l_nodes d !! a = Some p -> answers p def key -> is_Some (l_nodes (after d ops) !! a) ->
  exists q, live (l_nodes (after d ops)) q /\ answers q def key.
Proof.
  intros Hc Hkept Hdef Hp Hans [q Hq]. exists q. split; [unfold live; by rewrite (view_address e d _ a q Hc Hq)|].
  by apply (Hkept [] ops a p q def key); [apply prefix_nil|..].
Qed.

(** The insert half: a node the batch leaves written has its parents. *)
Lemma inserted_resolves e d ops def n key : consistent (N := N) e d ->
  (forall s s' : string, to_string (JString (N := N) s) = to_string (JString s') -> s = s') ->
  (forall n, live (l_nodes d) n \/ OInsert n ∈ ops -> text_keys e n) -> keys_kept e d ops -> check_references (N := N) e ops = Ok tt ->
  declared_reference e def -> live (l_nodes (after d ops)) n -> OInsert n ∈ ops -> refers n def key ->
  exists p, live (l_nodes (after d ops)) p /\ answers p def key.
Proof.
  intros Hc Hinj Htx Hkept Hcheck Hdef Hn Hin Hr. destruct (Htx n (or_intror Hin) def key Hdef (or_introl (proj2 Hr))) as [s ->].
  unfold check_references in Hcheck. destruct (decide (e_references e = ∅)) as [Er|_].
  { destruct Hdef as [name Hd]. rewrite Er in Hd. by apply lookup_empty_Some in Hd. }
  pose proof (net_effect_spec d ops) as Hnet. pose proof (net_touched ops (n_address n)) as Htouch.
  destruct (net_effect ops) as [ins del]. cbn [fst snd] in Hnet, Htouch.
  assert (forall a m, ins !! a = Some m -> n_address m = a /\ l_nodes (after d ops) !! a = Some m) as Hins.
  { intros a m Hm. specialize (Hnet a). by rewrite Hm in Hnet. }
  assert (n ∈ map snd (map_to_list ins)) as Hmem.
  { pose proof (Hnet (n_address n)) as Hna. unfold live in Hn. destruct (ins !! n_address n) as [m|] eqn:Em.
    - destruct Hna as [_ Hm]. rewrite Hn in Hm. injection Hm as <-. apply list_elem_of_fmap. exists (n_address n, n). split; [done|]. by apply elem_of_map_to_list.
    - exfalso. rewrite Hn in Hna. destruct Htouch as [[? ?]|Hdel]; [|done|by rewrite decide_True in Hna].
      apply list_elem_of_omap. by exists (OInsert n). }
  destruct (check_each_spec e ins del _ Hcheck n def (JString s) Hmem Hdef Hr) as [Hsat|Hres].
  - destruct (satisfied_parent e ins def s Hinj) as (a & p & Hp & Hans); [|done|done|].
    + intros a m Hm. apply Hins in Hm as [_ Hm]. apply Htx. destruct (node_after ops d a m Hm) as [[? _]|[Hd _]]; [by right|left].
      unfold live. by rewrite (keyed_nodes e d Hc a m Hd).
    + exists p. destruct (Hins a p Hp) as [Ea Hlive]. unfold live. by rewrite Ea.
  - destruct (committed_parent e d def s del Hc Hres) as (p & Hp & Hans & Hdel). apply (parent_stays e d ops (n_address p) p); try done.
    specialize (Hnet (n_address p)). destruct (ins !! n_address p); [by destruct Hnet as [_ ->]|]. rewrite Hnet, decide_False by done. by exists p.
Qed.

End references.
