(* ===== verification/LowerExamples.v ===== *)
(** * Batches, constraints and references on concrete engines

    The instances that show the theorems of Constraints.v, LowerView.v and
    Referential.v at work, and the requests on which the code does not do what
    its documentation says. *)

From Stdlib Require Import ZArith Lia SpecFloat Ascii String.
From stdpp Require Import base tactics list strings option gmap sorting.
From S2P Require Import Prelude Binary BTree BTreeCells Keys Json GoLower OrderKey Predicate Search Entities Wal Transaction Engine EngineRep EngineApply EngineOps EngineTheorems Query QueryScan QueryRows QueryPaths QueryText QueryTheorems QueryPaging QueryGroup Lower Mutate Constraints LowerView Referential.

Section examples.
Local Existing Instance list_heap.
Local Existing Instance list_heap_laws.
Local Existing Instance status_json.
Local Existing Instance status_laws.
Local Open Scope string_scope.

Definition noon (_ : Z) : Z := 0%Z.
Definition first_ids : counters := MkCounters 1 1 1.

Definition node_of (a kind data owner : string) : Node :=
  MkNode a {| coord_x := 0; coord_y := 0; coord_z := 0; coord_q := 0 |} 0 kind data owner None Public.

(** ** A batch over the posts *)

Definition new_post : Node := node_of "d" "Post" "open" "you".
Definition your_batch : list (TxOperation double) := [TxInsertNode new_post; TxClearKind "Post" "you" false; TxInsertNode new_post].

Definition ops_of (r : result tx_error lowering) : list Operation := match r with Ok lw => lw_ops lw | Err _ => [] end.

Lemma overlay_exact_witness : exists lw, lower_transaction 10 noon post_engine your_batch first_ids = Ok lw /\
  staged_node post_engine (lw_staged lw) "d" = Ok (Some new_post).
Proof.
  destruct (lower_transaction 10 noon post_engine your_batch first_ids) as [lw|] eqn:E; [|vm_compute in E; discriminate].
  exists lw. split; [done|]. destruct (overlay_exact (N := double) 10 noon post_engine post_nodes your_batch first_ids lw posts_consistent E) as [Hn _].
  apply (f_equal ops_of) in E. cbn [ops_of] in E. rewrite Hn, <- E. vm_compute. reflexivity.
Defined.

Lemma post_no_references : e_references post_engine = ∅.
Proof. vm_compute. reflexivity. Qed.

Lemma no_declared e : e_references e = ∅ -> no_set_null (St := list HeapRecord) e.
Proof. intros E name def Hd. rewrite E in Hd. exact (False_ind _ (eq_ind None (fun o => match o with None => True | Some _ => False end) I _ Hd)). Qed.

Lemma post_no_set_null : no_set_null post_engine.
Proof. apply no_declared, post_no_references. Qed.

Lemma superseded_states_archived_witness : exists lw, lower_transaction 10 noon post_engine your_batch first_ids = Ok lw /\
  length (lw_ops lw) = 4 /\ archived post_nodes (lw_ops lw).
Proof.
  destruct (lower_transaction 10 noon post_engine your_batch first_ids) as [lw|] eqn:E; [|vm_compute in E; discriminate].
  exists lw. split; [done|]. split; [by apply (f_equal ops_of) in E; cbn [ops_of] in E; rewrite <- E; vm_compute|].
  apply (superseded_states_archived (N := double) 10 noon post_engine post_nodes your_batch first_ids lw posts_consistent post_no_set_null E).
Defined.

Lemma batch_keeps_foreign_nodes_witness : exists lw, lower_transaction 10 noon post_engine your_batch first_ids = Ok lw /\
  l_nodes (foldl logical_apply post_nodes (lw_ops lw)) !! "a" = Some (post "a" "open").
Proof.
  destruct (lower_transaction 10 noon post_engine your_batch first_ids) as [lw|] eqn:E; [|vm_compute in E; discriminate].
  exists lw. split; [done|]. apply (batch_keeps_foreign_nodes (N := double) 10 noon post_engine post_nodes "you" your_batch first_ids lw).
  - exact posts_consistent.
  - exact post_no_references.
  - repeat constructor.
  - exact E.
  - vm_compute. reflexivity.
  - vm_compute. discriminate.
Defined.

(** ** A unique index *)

Definition unique_status : IndexDef := {| def_name := "one_per_status"; def_kind := "Post"; def_field := "status"; def_unique := true |}.
Definition two_posts : list Operation := [OInsert (post "a" "open"); OInsert (post "b" "done")].
Definition two_engine : engine (St := list HeapRecord) := fst (apply_operations (N := double) two_posts empty_engine).
Definition two_nodes : logical := foldl logical_apply (MkLogical ∅ ∅ ∅) two_posts.
Definition unique_engine : engine (St := list HeapRecord) := fst (apply_operation (N := double) (OCreateIndex unique_status) two_engine).

Lemma two_consistent : consistent (N := double) two_engine two_nodes /\ store_room (e_store two_engine) 9.
Proof.
  destruct (batch_step (N := double) two_posts empty_engine (MkLogical ∅ ∅ ∅) 9) as (e' & E & Hc & Hr & _);
    [apply empty_consistent|cbn; lia|split; [vm_compute; reflexivity|repeat constructor]|].
  unfold two_engine. rewrite E. cbn [fst]. split; [exact Hc|exact Hr].
Qed.

Lemma unique_accepted : create_index (N := double) unique_status two_engine = (two_engine, Ok (Ok (Some (OCreateIndex unique_status)))).
Proof. vm_compute. reflexivity. Qed.

Lemma unique_consistent : consistent (N := double) unique_engine two_nodes /\ store_room (e_store unique_engine) 8.
Proof.
  destruct (operation_step (N := double) two_engine two_nodes (OCreateIndex unique_status) 8) as (e' & E & Hc & Hr);
    [apply two_consistent|apply two_consistent|split; [vm_compute; reflexivity|left; exact unique_accepted]|].
  cbn [logical_apply] in Hc. unfold unique_engine. rewrite E. cbn [fst]. split; [exact Hc|exact Hr].
Qed.

Lemma unique_at_first : unique_holds (N := double) unique_engine two_nodes.
Proof.
  apply declared_unique; [apply two_consistent| |vm_compute; reflexivity|exact unique_accepted].
  intros name def t Hd. assert (e_data two_engine = ∅) as E by (vm_compute; reflexivity). by rewrite E, lookup_empty in Hd.
Qed.

(** The open status moves from [a] to [c] in one batch. *)
Definition move_status : list Operation := [OInsert (post "c" "open"); ODelete "a"].

Lemma uniqueness_preserved_witness : exists e', apply_admitted (N := double) move_status unique_engine = (e', Ok tt) /\
  unique_holds (N := double) e' (foldl logical_apply two_nodes move_status).
Proof.
  destruct (uniqueness_preserved (N := double) move_status unique_engine two_nodes 6) as (e' & E & _ & Hu).
  - apply unique_consistent.
  - exact unique_at_first.
  - vm_compute. reflexivity.
  - repeat constructor.
  - apply unique_consistent.
  - exists e'. by split.
Defined.

(** ** A comment that references its post *)

Definition comment_status : IndexDef := {| def_name := "by_status"; def_kind := "Comment"; def_field := "status"; def_unique := false |}.
Definition on_post : ReferenceDef := MkReference "post" "Comment" "status" "Post" None Cascade.
Definition comment : Node := node_of "k" "Comment" "a" "me".
Definition blog : list Operation := [OInsert (post "a" "open"); OInsert comment].
Definition written_blog : engine (St := list HeapRecord) := fst (apply_operations (N := double) blog empty_engine).
Definition indexed_blog : engine (St := list HeapRecord) := fst (apply_operation (N := double) (OCreateIndex comment_status) written_blog).
Definition blog_engine : engine (St := list HeapRecord) := fst (apply_operation (N := double) (OCreateReference on_post) indexed_blog).
Definition blog_nodes : logical := foldl logical_apply (MkLogical ∅ ∅ ∅) blog.

Lemma written_consistent : consistent (N := double) written_blog blog_nodes /\ store_room (e_store written_blog) 9.
Proof.
  destruct (batch_step (N := double) blog empty_engine (MkLogical ∅ ∅ ∅) 9) as (e' & E & Hc & Hr & _);
    [apply empty_consistent|cbn; lia|split; [vm_compute; reflexivity|repeat constructor]|].
  unfold written_blog. rewrite E. cbn [fst]. split; [exact Hc|exact Hr].
Qed.

Lemma comment_index_accepted : create_index (N := double) comment_status written_blog = (written_blog, Ok (Ok (Some (OCreateIndex comment_status)))).
Proof. vm_compute. reflexivity. Qed.

Lemma indexed_consistent : consistent (N := double) indexed_blog blog_nodes /\ store_room (e_store indexed_blog) 8.
Proof.
  destruct (operation_step (N := double) written_blog blog_nodes (OCreateIndex comment_status) 8) as (e' & E & Hc & Hr);
    [apply written_consistent|apply written_consistent|split; [vm_compute; reflexivity|left; exact comment_index_accepted]|].
  cbn [logical_apply] in Hc. unfold indexed_blog. rewrite E. cbn [fst]. split; [exact Hc|exact Hr].
Qed.

Lemma blog_consistent : consistent (N := double) blog_engine blog_nodes.
Proof.
  destruct (operation_step (N := double) indexed_blog blog_nodes (OCreateReference on_post) 7) as (e' & E & Hc & _);
    [apply indexed_consistent|apply indexed_consistent|split; [vm_compute; reflexivity|exact I]|].
  cbn [logical_apply] in Hc. unfold blog_engine. rewrite E. exact Hc.
Qed.

Lemma blog_declared def : declared_reference blog_engine def -> def = on_post.
Proof.
  intros [name Hd]. assert (e_references blog_engine = {["post" := on_post]}) as E by (vm_compute; reflexivity).
  rewrite E in Hd. by apply lookup_singleton_Some in Hd as [_ <-].
Qed.

Lemma blog_cases n : live (l_nodes blog_nodes) n -> n = post "a" "open" \/ n = comment.
Proof.
  unfold live, blog_nodes, blog. cbn [foldl logical_apply l_nodes].
  intros [[_ <-]|[_ [[_ <-]|[_ Hn]]%lookup_insert_Some]]%lookup_insert_Some; [by right|by left|]. by rewrite lookup_empty in Hn.
Qed.

Lemma blog_text n : live (l_nodes blog_nodes) n -> text_keys (N := double) blog_engine n.
Proof.
  intros [-> | ->]%blog_cases def v ->%blog_declared [Hv|Hv]; vm_compute in Hv; injection Hv as <-; by eexists.
Qed.

Lemma blog_referential : referential (N := double) blog_engine (l_nodes blog_nodes).
Proof.
  intros def n key ->%blog_declared Hn [Hk Hkey]. destruct (blog_cases n Hn) as [-> | ->]; [discriminate Hk|].
  exists (post "a" "open"). vm_compute in Hkey. injection Hkey as <-. split; [vm_compute; reflexivity|split; vm_compute; reflexivity].
Qed.

(** A batch that only removes nodes changes none. *)
Lemma removals_keep e d ops : (forall n, OInsert n ∉ ops) -> keys_kept (N := double) (St := list HeapRecord) e d ops.
Proof.
  intros Hno l1 l2 a p q def key H1 H2 Hp Hq _.
  assert (forall l x, prefix l ops -> l_nodes (after d l) !! a = Some x -> l_nodes d !! a = Some x) as Hsame.
  { intros l x [l' El] Hx. destruct (node_after l d a x Hx) as [[Hin _]|[Hd _]]; [|exact Hd]. destruct (Hno x). rewrite El. apply elem_of_app. by left. }
  pose proof (Hsame l1 p H1 Hp) as Ep. rewrite (Hsame l2 q H2 Hq) in Ep. by injection Ep as ->.
Qed.

Definition remove_post : list (TxOperation double) := [TxDeleteNode "a"].

Definition removal_only (op : Operation) : bool := match op with OInsert _ => false | _ => true end.

Lemma removal_only_spec ops : forallb removal_only ops = true -> forall n, OInsert n ∉ ops.
Proof. intros Hf n Hin%list_elem_of_In. rewrite forallb_forall in Hf. discriminate (Hf _ Hin). Qed.


(** ** Where the code does not do what its documentation says *)

Definition run_on (ops : list (TxOperation double)) (e : engine (St := list HeapRecord)) : engine (St := list HeapRecord) * result tx_error unit :=
  execute_transaction (N := double) 10 noon ops first_ids e.

(** The post is written over by a node of another kind, at its own address and by its own owner. *)
Definition replace_post : list (TxOperation double) := [TxInsertNode (node_of "a" "Draft" "open" "me")].

(** A write over a parent escapes the reference check: on an engine that passes the check a declaration
    of the reference runs, a batch whose one insert gives the referenced post's address another kind is
    accepted, and the engine it leaves fails that check, since the comment references a post that is gone. *)
Theorem parent_overwrite_orphans :
  check_reference_satisfied (N := double) blog_engine on_post = Ok tt /\ (run_on replace_post blog_engine).2 = Ok tt /\
  check_reference_satisfied (N := double) (run_on replace_post blog_engine).1 on_post = Err RRule.
Proof. vm_compute. auto. Qed.

(** Two posts of mine, and your edge between them. *)
Definition your_edge : Edge := MkEdge "a" "b" "likes" "you".
Definition my_edge : Edge := MkEdge "a" "b" "likes" "me".
Definition edged_engine : engine (St := list HeapRecord) :=
  fst (apply_operations (N := double) [OInsert (post "a" "open"); OInsert (post "b" "done"); OInsertEdge your_edge] empty_engine).

(** A batch takes over an edge the single request refuses to: [insert_edge] rejects an edge whose
    identity another owner holds, a batch with the same edge replaces it, and the former owner loses the
    right to retract it. *)
Theorem transaction_replaces_foreign_edge :
  insert_edge edged_engine my_edge = Err RRule /\ (run_on [TxInsertEdge my_edge] edged_engine).2 = Ok tt /\
  find_edge (run_on [TxInsertEdge my_edge] edged_engine).1 (edge_id my_edge) = Ok (Some my_edge) /\
  (run_on [TxInsertEdge my_edge; TxDeleteEdge (edge_id your_edge) "you" false] edged_engine).2 = Err TxInvalid.
Proof. vm_compute. auto. Qed.
End examples.
