(* ===== verification/Sequences.v ===== *)
(** * Sequences ([src/src/storage/engine.rs], [sequence_next])

    A sequence is a node whose data is the next value to hand out.  The
    theorem: the blocks handed out under one name are contiguous, whatever
    other writes come between, as long as nothing else writes that node. *)

From Stdlib Require Import ZArith Lia SpecFloat Ascii String.
From stdpp Require Import base tactics list strings option gmap sorting.
From S2P Require Import Prelude Utf8 Crypto Binary BTree Keys Json GoLower OrderKey Predicate Search Entities Wal Checkpoint Transaction Engine EngineRep EngineApply EngineOps EngineTheorems Query Lower Mutate.

Local Open Scope Z_scope.

Definition SEQUENCE_KIND : string := "__sequence".
Definition MAX_SEQUENCE_NAME : nat := 128.
Definition MAX_SEQUENCE_BLOCK : Z := 100000.

(** [Number::as_u64] of serde_json. *)
Class U64Json (N : Type) := num_as_u64 : N -> option Z.

(** The text of the node's data: an object with the one field ["next"]. *)
Definition NEXT_PREFIX : list Z := [123; 34; 110; 101; 120; 116; 34; 58].
Definition next_text (next : Z) : string := string_of_bytes (NEXT_PREFIX ++ decimal next ++ [125]).

(** What serde_json documents: such a text parses and its number reads back, and [as_u64] is in range. *)
Class U64Laws (N : Type) `{SerdeJson N} `{!U64Json N} : Prop := {
  next_parses n : u64 n -> exists m, from_str (next_text n) = Some (JObject [("next"%string, JNumber m)]) /\ num_as_u64 m = Some n;
  num_as_u64_range m n : num_as_u64 m = Some n -> u64 n;
}.

Definition sequence_address (name : string) : string := (SEQUENCE_KIND ++ String ":" name)%string.

Fixpoint contains_colon (s : string) : bool :=
  match s with EmptyString => false | String c s => Ascii.eqb c ":" || contains_colon s end.

Section sequences.
Context {St : Type} `{RecordStore St} {N : Type} `{SerdeJson N} `{!U64Json N} (clock : Z -> Z).
Implicit Types e : engine (St := St).

(** The value a sequence node stores; anything that does not read as one counts as 1. *)
Definition stored_next (n : Node) : Z :=
  default 1 (v ← from_str (n_data n); next ← get_field v "next"; match next with JNumber m => num_as_u64 m | _ => None end).

Definition sequence_node (name owner : string) (next : Z) : Node :=
  let n := node_new {| coord_x := 0; coord_y := 0; coord_z := 0; coord_q := 0 |} (sequence_address name) SEQUENCE_KIND owner in
  MkNode (n_address n) (n_coordinate n) (n_value n) (n_kind n) (next_text next) (n_owner n) (n_claimed_by n) (n_visibility n).

(** What a call resolves to: the start of its block and the operations that record it. *)
Definition sequence_ops (name : string) (count : Z) (owner : string) (is_admin : bool) (c : counters) e : result refusal (Z * list Operation) :=
  if (count =? 0) || (MAX_SEQUENCE_BLOCK <? count) then Err RRule
  else if (String.length name =? 0)%nat || (MAX_SEQUENCE_NAME <? String.length name)%nat || contains_colon name then Err RRule
  else
    previous ← io_refusal (fetch e (sequence_address name));
    start ← match previous with
            | Some n => if negb (is_admin || can_write n owner) then Err RRule else Ok (stored_next n)
            | None => Ok 1
            end;
    if 2 ^ 64 <=? start + count then Err RRule
    else
      ops ← insert_locked clock e (sequence_node name (match previous with Some n => n_owner n | None => owner end) (start + count)) c;
      Ok (start, ops).

Definition sequence_next (name : string) (count : Z) (owner : string) (is_admin : bool) (c : counters) e : engine * result refusal Z :=
  match sequence_ops name count owner is_admin c e with
  | Err x => (e, Err x)
  | Ok (start, ops) =>
      match apply_admitted (N := N) ops e with
      | (e, Ok _) => (e, Ok start)
      | (e, Err x) => (e, Err x)
      end
  end.
End sequences.

(** ** Contiguous blocks *)

Section blocks.
Context {St : Type} `{RecordStoreLaws St} {N : Type} `{SerdeJson N} `{!U64Json N} `{!U64Laws N} (clock : Z -> Z).
Implicit Types (e : engine (St := St)) (d : logical).

(** The value the next block starts at. *)
Definition next_of d (name : string) : Z := match l_nodes d !! sequence_address name with Some n => stored_next n | None => 1 end.

(** An operation that writes or removes the node of the sequence. *)
Definition writes_sequence (name : string) (op : Operation) : bool :=
  match op with
  | OInsert n => String.eqb (n_address n) (sequence_address name)
  | ODelete a => String.eqb a (sequence_address name)
  | _ => false
  end.

(** A history as one sequence sees it: the blocks it hands out, and any other operation in between. *)
Inductive sequence_history (name : string) : engine -> list (Z * Z) -> engine -> Prop :=
| history_end e : sequence_history name e [] e
| history_block count owner is_admin c e start ops e' blocks e'' k :
    sequence_ops clock name count owner is_admin c e = Ok (start, ops) -> Forall data_ready ops -> store_room (e_store e) (length ops + k) -> 0 <= count ->
    sequence_next clock name count owner is_admin c e = (e', Ok start) -> sequence_history name e' blocks e'' ->
    sequence_history name e ((start, count) :: blocks) e''
| history_other op e e' blocks e'' k :
    store_room (e_store e) (S k) -> admissible (N := N) e op -> writes_sequence name op = false -> apply_operation (N := N) op e = (e', Ok tt) ->
    sequence_history name e' blocks e'' -> sequence_history name e blocks e''.

(** Each block starts where the one before it ended, within 64 bits. *)
Fixpoint contiguous (from : Z) (blocks : list (Z * Z)) : Prop :=
  match blocks with
  | [] => True
  | (start, count) :: blocks => start = from /\ 0 < count <= MAX_SEQUENCE_BLOCK /\ start + count < 2 ^ 64 /\ contiguous (start + count) blocks
  end.

Lemma stored_next_u64 name owner v : u64 v -> stored_next (sequence_node name owner v) = v.
Proof. intros Hv. unfold stored_next. cbn [sequence_node n_data]. destruct (next_parses v Hv) as (m & -> & Hm). cbn. by rewrite Hm. Qed.

Lemma next_of_pos d name : 0 <= next_of d name.
Proof.
  unfold next_of. destruct (l_nodes d !! sequence_address name) as [n|]; [|lia]. unfold stored_next. destruct (from_str (n_data n)) as [v|]; cbn; [|lia].
  destruct (get_field v "next") as [x|]; cbn; [|lia]. destruct x as [| |m| | |]; cbn; try lia. destruct (num_as_u64 m) as [z|] eqn:E; cbn; [|lia]. pose proof (num_as_u64_range m z E). lia.
Qed.

Lemma sequence_ops_spec name count owner is_admin c e d start ops : consistent (N := N) e d -> 0 <= count ->
  sequence_ops clock name count owner is_admin c e = Ok (start, ops) ->
  start = next_of d name /\ 0 < count <= MAX_SEQUENCE_BLOCK /\ start + count < 2 ^ 64 /\
  exists o pre, ops = (pre ++ [OInsert (sequence_node name o (start + count))])%list /\ Forall (fun op => is_data_operation op = true /\ node_writes op = []) pre.
Proof.
  intros Hc Hpos. unfold sequence_ops. destruct (Z.eqb_spec count 0) as [|Hne]; [done|]. destruct (Z.ltb_spec MAX_SEQUENCE_BLOCK count) as [|Hle]; [done|]. cbn [orb].
  destruct (_ || _ || _); [done|]. unfold next_of. unfold fetch at 1. rewrite (read_node_run e (l_nodes d) (sequence_address name) (c_primary _ _ Hc)). cbn [snd io_refusal map_err mbind result_bind].
  intros E. assert (exists prev o, match l_nodes d !! sequence_address name with Some n => stored_next n | None => 1 end = prev /\
    (if 2 ^ 64 <=? prev + count then Err RRule else ops ← insert_locked clock e (sequence_node name o (prev + count)) c; Ok (prev, ops)) = Ok (start, ops)) as (prev & o & -> & E').
  { destruct (l_nodes d !! sequence_address name) as [n|]; [destruct (negb _); [done|]|]; cbn [mbind result_bind] in E; by eexists _, _. }
  destruct (Z.leb_spec (2 ^ 64) (prev + count)) as [|Hlt]; [done|]. unfold insert_locked in E'. unfold fetch in E'. cbn [sequence_node n_address node_new] in E'.
  rewrite (read_node_run e (l_nodes d) (sequence_address name) (c_primary _ _ Hc)) in E'. cbn [snd io_refusal map_err mbind result_bind] in E'. injection E' as <- <-. split; [done|]. split; [lia|]. split; [done|].
  exists o. destruct (l_nodes d !! sequence_address name) as [p|]; unfold push_op, push_archive, start_lowering; cbn [lw_ops].
  - destruct (take_operation_id _) as [v c']. cbn [lw_ops]. eexists. split; [reflexivity|]. by apply Forall_singleton.
  - exists []. split; [done|]. apply Forall_nil_2.
Qed.

Lemma next_of_after name o v pre d : u64 v -> Forall (fun op => is_data_operation op = true /\ node_writes op = []) pre ->
  next_of (foldl logical_apply d (pre ++ [OInsert (sequence_node name o v)])) name = v.
Proof.
  intros Hv _. rewrite foldl_app. cbn [foldl]. unfold next_of. cbn [logical_apply l_nodes sequence_node n_address node_new]. rewrite lookup_insert_eq. by apply stored_next_u64.
Qed.

Lemma next_of_other name op d : writes_sequence name op = false -> next_of (logical_apply d op) name = next_of d name.
Proof.
  unfold next_of. destruct op; cbn [writes_sequence logical_apply l_nodes]; try done.
  - intros Hne%String.eqb_neq. by rewrite lookup_insert_ne.
  - intros Hne%String.eqb_neq. by rewrite lookup_delete_ne.
Qed.

(** A sequence never repeats itself.  Whatever calls of any size are made under a name, by its owner or
    an administrator, and whatever other operations come between them, as long as none of those writes the
    node of the sequence, every block handed out starts exactly where the one before it ended and stays
    within 64 bits; the first starts at the stored value, or at 1. *)
Theorem sequence_blocks_contiguous name e blocks e' d : consistent (N := N) e d -> sequence_history name e blocks e' -> contiguous (next_of d name) blocks.
Proof.
  intros Hc Hh. revert d Hc. induction Hh as [e|count owner is_admin c e start ops e1 blocks e2 k Hops Hready Hroom Hpos Hcall _ IH|op e e1 blocks e2 k Hroom Hadm Hw Hrun _ IH]; intros d Hc; cbn [contiguous]; [done| |].
  - destruct (sequence_ops_spec name count owner is_admin c e d start ops Hc Hpos Hops) as (-> & Hcount & Hlt & o & pre & Eops & Hpre). split; [done|]. split; [done|]. split; [done|].
    unfold sequence_next in Hcall. rewrite Hops in Hcall. unfold apply_admitted in Hcall. destruct (admit_operations e ops) as [u|] eqn:Ead; [|done]. unfold admit_operations in Ead.
    destruct (validate_all (N := N) (declared_indexes e) ops) as [[]|] eqn:Ev; [|done].
    assert (batch_admitted (N := N) e ops) as Hadm.
    { split; [done|]. apply Forall_forall. intros op Hop. split; [|by eapply Forall_forall in Hready]. rewrite Eops in Hop. apply elem_of_app in Hop as [Hop| ->%list_elem_of_singleton]; [|done].
      by apply (proj1 (Forall_forall _ _) Hpre). }
    destruct (batch_step ops e d k Hc Hroom Hadm) as (e3 & Erun & Hc3 & _). rewrite Erun in Hcall. cbn in Hcall. injection Hcall as ->. specialize (IH _ Hc3). rewrite Eops, next_of_after in IH; [done| |done].
    pose proof (next_of_pos d name). lia.
  - destruct (operation_step e d op k Hc Hroom Hadm) as (e3 & Erun & Hc3 & _). rewrite Hrun in Erun. injection Erun as ->. specialize (IH _ Hc3). by rewrite next_of_other in IH.
Qed.
End blocks.

(** ** An example *)

(** Numbers that are 64-bit integers, and a parser of the one text. *)
Definition next_value (s : string) : option (value Z) :=
  let b := as_bytes s in
  if bool_decide (take 8 b = NEXT_PREFIX /\ drop (length b - 1) b = [125]) then
    match checkpoint_read (Some (take (length b - 9) (drop 8 b))) with
    | Ok v => if (0 <=? v) && (v <? 2 ^ 64) then Some (JObject [("next"%string, JNumber v)]) else None
    | Err _ => None
    end
  else None.

Definition int_json : SerdeJson Z := {|
  num_as_f64 z := Some (f64_of_Z z);
  num_from_f64 _ := None;
  num_is_int _ := true;
  num_eqb := Z.eqb;
  to_string _ := EmptyString;
  from_str := next_value;
|}.

Definition int_u64 : U64Json Z := fun z => if (0 <=? z) && (z <? 2 ^ 64) then Some z else None.

Lemma as_bytes_string_of_bytes l : Forall is_byte l -> as_bytes (string_of_bytes l) = l.
Proof.
  intros Hl. unfold as_bytes, string_of_bytes. rewrite list_ascii_of_string_of_list_ascii. rewrite map_map. induction Hl as [|b l Hb _ IH]; [done|]. cbn [map]. f_equal; [|exact IH].
  unfold is_byte in Hb. rewrite N_ascii_embedding by lia. lia.
Qed.

Section example.
Local Existing Instance list_heap.
Local Existing Instance list_heap_laws.
Local Existing Instance int_json.
Local Existing Instance int_u64.

Lemma int_laws : U64Laws Z.
Proof.
  split.
  - intros n Hn. exists n. split; [|unfold num_as_u64, int_u64; destruct (Z.leb_spec 0 n), (Z.ltb_spec n (2 ^ 64)); done || lia]. cbn [from_str int_json]. unfold next_value, next_text.
    assert (Forall (fun d => 48 <= d <= 57) (decimal n)) as Hd by (unfold decimal; apply Forall_reverse; eapply Forall_impl; [apply (decimal_rev_digits 20 n); lia|]; cbn beta; unfold is_digit; lia).
    rewrite as_bytes_string_of_bytes by (apply Forall_app_2; [repeat constructor; unfold is_byte; lia|apply Forall_app_2; [eapply Forall_impl; [exact Hd|unfold is_byte; lia]|repeat constructor; unfold is_byte; lia]]).
    assert (length (NEXT_PREFIX ++ decimal n ++ [125]) = (9 + length (decimal n))%nat) as Hlen by (rewrite !length_app; cbn; lia). rewrite Hlen.
    assert (take 8 (NEXT_PREFIX ++ decimal n ++ [125]) = NEXT_PREFIX) as -> by (by apply take_app_length'). assert (drop 8 (NEXT_PREFIX ++ decimal n ++ [125]) = decimal n ++ [125]) as -> by (by apply drop_app_length').
    assert (drop (9 + length (decimal n) - 1) (NEXT_PREFIX ++ decimal n ++ [125]) = [125]) as -> by (rewrite app_assoc; apply drop_app_length'; rewrite length_app; cbn; lia). rewrite bool_decide_eq_true_2 by done.
    replace (9 + length (decimal n) - 9)%nat with (length (decimal n)) by lia. rewrite take_app_length. change (decimal n) with (write_value n). rewrite checkpoint_roundtrip by done.
    destruct (Z.leb_spec 0 n), (Z.ltb_spec n (2 ^ 64)); done || lia.
  - intros m n. unfold num_as_u64, int_u64. destruct (Z.leb_spec 0 m), (Z.ltb_spec m (2 ^ 64)); try done. intros [= <-]. lia.
Qed.

Local Existing Instance int_laws.

Definition zero_clock (_ : Z) : Z := 0.
Definition draw (count : Z) (c : counters) (e : engine) : engine * result refusal Z := sequence_next (N := Z) zero_clock "ids" count "me" false c e.
Definition drawn (count : Z) (c : counters) (e : engine) : result refusal (Z * list Operation) := sequence_ops (N := Z) zero_clock "ids" count "me" false c e.
Definition seq_counters : counters := MkCounters 1 1 1.

Definition first_draw : engine := (draw 10 seq_counters empty_engine).1.
Definition between_draws : engine := (apply_operation (N := Z) (OInsert note) first_draw).1.
Definition second_draw : engine := (draw 5 seq_counters between_draws).1.

Lemma result_of {A B} (p : A * B) b : p.2 = b -> p = (p.1, b).
Proof. intros <-. by destruct p. Qed.

Lemma drawn_history : sequence_history (N := Z) zero_clock "ids" empty_engine [(1, 10); (11, 5)] second_draw.
Proof.
  eapply (history_block zero_clock "ids" 10 "me" false seq_counters empty_engine 1 _ first_draw _ _ 0).
  - vm_compute. reflexivity.
  - apply Forall_singleton. exact I.
  - vm_compute. discriminate.
  - lia.
  - apply result_of. vm_compute. reflexivity.
  - eapply (history_other zero_clock "ids" (OInsert note) first_draw between_draws _ _ 0).
    + vm_compute. discriminate.
    + split; [vm_compute; reflexivity|exact I].
    + reflexivity.
    + apply result_of. vm_compute. reflexivity.
    + eapply (history_block zero_clock "ids" 5 "me" false seq_counters between_draws 11 _ second_draw _ _ 0).
      * vm_compute. reflexivity.
      * apply Forall_cons_2; [split; [split; vm_compute; [discriminate|reflexivity]|exact I]|]. apply Forall_singleton. exact I.
      * vm_compute. discriminate.
      * lia.
      * unfold second_draw, draw. apply result_of. vm_compute. reflexivity.
      * apply history_end.
Qed.

Lemma sequence_blocks_contiguous_witness : contiguous (next_of (N := Z) (MkLogical ∅ ∅ ∅) "ids") [(1, 10); (11, 5)].
Proof.
  apply (sequence_blocks_contiguous (N := Z) zero_clock "ids" empty_engine [(1, 10); (11, 5)] second_draw (MkLogical ∅ ∅ ∅)); [exact empty_consistent|exact drawn_history].
Defined.

(** The node of the sequence, written over through the ordinary interface. *)
Definition written_over : engine := (apply_operation (N := Z) (OInsert (sequence_node "ids" "me" 0)) first_draw).1.
Definition blanked : engine :=
  let n := sequence_node "ids" "me" 0 in
  (apply_operation (N := Z) (OInsert (MkNode (n_address n) (n_coordinate n) (n_value n) (n_kind n) "{}" (n_owner n) (n_claimed_by n) (n_visibility n))) first_draw).1.

(** A sequence can repeat itself.  Its node is an ordinary node, and an owner who writes it, or a node
    whose data does not read as a number, makes the next call hand out values that were handed out before,
    although [sequence_next] promises that no other caller is ever given them. *)
Theorem written_sequence_repeats :
  (draw 10 seq_counters empty_engine).2 = Ok 1 /\ (draw 10 seq_counters first_draw).2 = Ok 11 /\
  (draw 10 seq_counters written_over).2 = Ok 0 /\ (draw 10 seq_counters blanked).2 = Ok 1.
Proof. vm_compute. done. Qed.
End example.
