(* ===== verification/CompactionExamples.v ===== *)
(** * Compaction on a small heap

    A heap of two records per segment, for the witnesses of [Epochs.v] and
    [CompactionTheorems.v], and the two ways a compaction loses a record: a
    read that is not pinned, and a crash between the commits of the two edge
    indexes. *)

From Stdlib Require Import ZArith Lia Ascii String.
From stdpp Require Import base tactics list strings option gmap sorting relations.
From S2P Require Import Prelude Binary BTree Keys Json OrderKey Predicate Search Entities Wal Transaction Engine EngineRep EngineApply EngineOps EngineTheorems Query Lower Lru Compaction CompactionTheorems Epochs.

Record small_heap := MkSmall { sm_segments : gmap Z (list HeapRecord); sm_active : Z }.

Definition small_append (h : small_heap) (r : HeapRecord) : record_location * small_heap :=
  let l := default [] (sm_segments h !! sm_active h) in
  if length l <? 2 then (RecordLocation (sm_active h) (Z.of_nat (length l)) 0 0, MkSmall (<[sm_active h := l ++ [r]]> (sm_segments h)) (sm_active h))
  else (RecordLocation (sm_active h + 1) 0 0 0, MkSmall (<[(sm_active h + 1)%Z := [r]]> (sm_segments h)) (sm_active h + 1)).

Definition small_read (h : small_heap) (l : record_location) : result error_kind HeapRecord :=
  match sm_segments h !! loc_segment l with
  | None => Err NotFound
  | Some rs => match rs !! Z.to_nat (loc_page l) with Some r => Ok r | None => Err InvalidData end
  end.

Definition small_entries (h : small_heap) (g : Z) : list (record_location * HeapRecord) :=
  imap (fun i r => (RecordLocation g (Z.of_nat i) 0 0, r)) (default [] (sm_segments h !! g)).

Definition small_store : RecordStore small_heap := {|
  store_append h r := Ok (small_append h r);
  store_read := small_read;
  store_mark_obsolete h _ := h;
|}.

Local Existing Instance small_store.

(** Every segment but the active one is worth draining, the oldest first. *)
Definition small_segments : SegmentStore small_heap := {|
  store_candidates h _ := filter (fun g => g <> sm_active h) (map fst (in_order (sm_segments h)));
  store_scan _ h g visit s := match sm_segments h !! g with None => Err NotFound | Some _ => visit_all visit (small_entries h g) s end;
  store_sync h := Ok h;
  store_drop h g := Ok (MkSmall (delete g (sm_segments h)) (sm_active h));
|}.

Local Existing Instance small_segments.

Record small_ok (h : small_heap) (k : nat) : Prop := {
  sk_ids g : is_Some (sm_segments h !! g) -> (0 <= g <= sm_active h)%Z;
  sk_sizes g rs : sm_segments h !! g = Some rs -> length rs <= 2;
  sk_active : (0 <= sm_active h)%Z;
  sk_room : (sm_active h + Z.of_nat k < 2 ^ 32)%Z;
}.

Lemma small_entry h g l r k : small_ok h k -> (l, r) ∈ small_entries h g -> location_ok l /\ loc_segment l = g /\ small_read h l = Ok r.
Proof.
  intros Hok (i & x & [= -> ->] & Hi)%elem_of_lookup_imap. unfold small_read. cbn. rewrite Nat2Z.id. destruct (sm_segments h !! g) as [rs|] eqn:E; [|done]. cbn in Hi. rewrite Hi.
  split; [|done]. pose proof (sk_ids _ _ Hok g ltac:(by rewrite E)). pose proof (sk_sizes _ _ Hok g rs E). pose proof (sk_room _ _ Hok). apply lookup_lt_Some in Hi. unfold location_ok. cbn. lia.
Qed.

Lemma small_read_entry h l r : small_read h l = Ok r -> (RecordLocation (loc_segment l) (Z.of_nat (Z.to_nat (loc_page l))) 0 0, r) ∈ small_entries h (loc_segment l).
Proof.
  unfold small_read, small_entries. destruct (sm_segments h !! loc_segment l) as [rs|]; [|done]. destruct (rs !! Z.to_nat (loc_page l)) as [r'|] eqn:E; [|done]. intros [= ->].
  apply elem_of_lookup_imap. by exists (Z.to_nat (loc_page l)), r.
Qed.

Lemma small_append_ok h r k : small_ok h (S k) -> let '(l, h') := small_append h r in
  small_ok h' k /\ location_ok l /\ (l, r) ∈ small_entries h' (loc_segment l) /\ (forall l r, small_read h l = Ok r -> small_read h' l = Ok r) /\
  (forall g, small_entries h g ⊆ small_entries h' g) /\ (forall g, is_Some (sm_segments h !! g) -> is_Some (sm_segments h' !! g)) /\
  (sm_active h <= sm_active h')%Z /\ loc_segment l = sm_active h'.
Proof.
  intros [Hids Hsz Hact Hroom]. unfold small_append, small_read, small_entries. destruct (Nat.ltb_spec (length (default [] (sm_segments h !! sm_active h))) 2) as [Hlt|Hge]; cbn.
  - split_and!; try lia.
    + split; cbn; try lia; [intros g [<-|Hg]%lookup_insert_is_Some'; [lia|by apply Hids]|]. intros g rs [[<- <-]|[_ Hg]]%lookup_insert_Some; [rewrite length_app; cbn; lia|by eapply Hsz].
    + unfold location_ok. cbn. lia.
    + rewrite lookup_insert_eq. cbn. apply elem_of_lookup_imap. eexists _, r. split; [reflexivity|]. by apply list_lookup_middle.
    + intros l' r'. destruct (decide (loc_segment l' = sm_active h)) as [->|Hne]; [|by rewrite lookup_insert_ne]. rewrite lookup_insert_eq. destruct (sm_segments h !! sm_active h) as [rs|]; [|done].
      cbn. destruct (rs !! Z.to_nat (loc_page l')) as [x|] eqn:E; [|done]. by rewrite (lookup_app_l_Some _ _ _ _ E).
    + intros g x Hx. destruct (decide (g = sm_active h)) as [->|Hne]; [|by rewrite lookup_insert_ne]. rewrite lookup_insert_eq. cbn. rewrite imap_app. apply elem_of_app. by left.
    + intros g Hg. apply lookup_insert_is_Some'. by right.
  - assert (sm_segments h !! (sm_active h + 1)%Z = None) as Hnew.
    { destruct (sm_segments h !! (sm_active h + 1)%Z) as [rs|] eqn:E; [|done]. pose proof (Hids _ ltac:(by rewrite E)). lia. }
    split_and!; try lia.
    + split; cbn; try lia; [intros g [<-|Hg]%lookup_insert_is_Some'; [lia|]; specialize (Hids g Hg); lia|]. intros g rs [[<- <-]|[_ Hg]]%lookup_insert_Some; [cbn; lia|by eapply Hsz].
    + unfold location_ok. cbn. lia.
    + rewrite lookup_insert_eq. by left.
    + intros l' r'. destruct (decide (loc_segment l' = sm_active h + 1)%Z) as [->|Hne]; [by rewrite Hnew|by rewrite lookup_insert_ne].
    + intros g x Hx. destruct (decide (g = sm_active h + 1)%Z) as [->|Hne]; [rewrite Hnew in Hx; by apply not_elem_of_nil in Hx|by rewrite lookup_insert_ne].
    + intros g Hg. apply lookup_insert_is_Some'. by right.
Qed.

Definition small_laws : @RecordStoreLaws small_heap small_store.
Proof.
  refine {| store_room := small_ok; store_fits _ := True |}; unfold keeps, store_append, store_read, store_mark_obsolete, small_store.
  - intros h r k Hok _. pose proof (small_append_ok h r k Hok) as Ha. destruct (small_append h r) as [l h']. destruct Ha as (Hok' & Hl & Hin & Hr & _). exists l, h'.
    split; [done|]. split; [done|]. split; [by eapply small_entry|]. split; [intros l' r' _; by apply Hr|done].
  - done.
  - intros h k [Hids Hsz Hact Hroom]. split; [done|done|done|lia].
Defined.

Local Existing Instance small_laws.

Definition small_segment_laws : SegmentLaws small_heap.
Proof.
  refine {| store_entries := small_entries; store_known h g := is_Some (sm_segments h !! g); store_idle h g := (g < sm_active h)%Z |};
    unfold store_append, store_read, store_mark_obsolete, store_candidates, store_scan, store_sync, store_drop, keeps, store_read, small_store, small_segments.
  - intros S h g visit s k _ [rs ->]. done.
  - intros h g l r k Hok Hin. destruct (small_entry h g l r k Hok Hin) as (Hl & Hg & Hr). done.
  - intros h r k l h' Hok _ [= E]. pose proof (small_append_ok h r k Hok) as Ha. rewrite E in Ha. destruct Ha as (_ & _ & Hin & _ & He & Hk & Hact & Hl). split; [done|]. split; [done|].
    intros g. split; [apply Hk|]. lia.
  - done.
  - intros h ratio g k Hok [Hne Hin]%list_elem_of_filter. apply list_elem_of_fmap in Hin as ([g' rs] & -> & Hg%in_order_elem). cbn in *. split; [by eexists|].
    pose proof (sk_ids _ _ Hok g' ltac:(by rewrite Hg)). lia.
  - intros h k Hok. exists h. split; [done|]. split; [done|]. split; [done|]. done.
  - intros h g k [Hids Hsz Hact Hroom] Hidle. eexists. split; [reflexivity|]. split_and!.
    + split; cbn; try done; [intros g' [_ Hg']%lookup_delete_is_Some; by apply Hids|]. intros g' rs [_ Hg']%lookup_delete_Some. by eapply Hsz.
    + intros l r _ Hne. unfold small_read. cbn. by rewrite lookup_delete_ne.
    + intros g' Hne. unfold small_entries. cbn. by rewrite lookup_delete_ne.
    + done.
Defined.

Local Existing Instance small_segment_laws.
Local Existing Instance double_json.

Lemma small_room h k k' : small_ok h k -> (sm_active h + Z.of_nat k' < 2 ^ 32)%Z -> small_ok h k'.
Proof. intros [Hids Hsz Hact _] Hk. by split. Qed.

(** ** A database of two nodes and an edge *)

Definition runtime_of (e : engine (St := small_heap)) : runtime small_heap := MkRuntime e e 0 ∅ [].

Definition no_data : engine := MkEngine (MkSmall ∅ 0) (fun _ => ∅) ∅ ∅ ∅ ∅ ∅ ∅ [] [] [] [] 0.

Definition origin : Coordinate := {| coord_x := 0; coord_y := 0; coord_z := 0; coord_q := 0 |}.
Definition node_a : Node := node_new origin "a" "thing" "me".
Definition node_b : Node := node_new origin "b" "thing" "me".
Definition edge_ab : Edge := MkEdge "a" "b" "likes" "me".

Definition applied_to (rt : runtime small_heap) (op : Operation) : runtime small_heap := with_engine rt (apply_operation (N := double) op (rt_engine rt)).1.

(** The node and the edge share the first segment; the second node is in the next one. *)
Definition stored_ops : list Operation := [OInsert node_a; OInsertEdge edge_ab; OInsert node_b].
Definition stored_runtime : runtime small_heap := foldl applied_to (runtime_of no_data) stored_ops.
Definition stored_logical : logical := foldl logical_apply (MkLogical ∅ ∅ ∅) stored_ops.

Lemma no_data_ok : sys_ok (N := double) (MkSystem (runtime_of no_data) Between ∅) (MkLogical ∅ ∅ ∅).
Proof.
  split; [| | |done| | |done|done].
  - assert (forall entries, members entries ∅ ∅) as Hm.
    { intros entries k v. rewrite lookup_empty. split; [done|]. intros [_ (a & n & Ha & _)]. by rewrite lookup_empty in Ha. }
    assert (forall K V `{Countable K} (key : K -> list Z) (record : V -> HeapRecord), located key record ∅ ∅ (MkSmall ∅ 0)) as Hl.
    { intros. split; [intros x v Hx|intros k raw Hk]; by rewrite lookup_empty in *. }
    split; try apply Hm; try apply Hl; try (intros x y Hx; by rewrite lookup_empty in Hx); done.
  - split; [intros i _; apply map_Forall_empty|]. intros i [x Hx]. cbn in Hx. by rewrite lookup_empty in Hx.
  - split; cbn [runtime_of rt_engine no_data e_store sy_runtime sm_segments sm_active]; try lia; [intros g [x Hx]|intros g rs Hx]; by rewrite lookup_empty in Hx.
  - intros g [[]%not_elem_of_nil|[]%not_elem_of_nil].
  - intros p. done.
Qed.

Lemma stored_ok : sys_ok (N := double) (MkSystem stored_runtime Between ∅) stored_logical.
Proof.
  assert (forall rt rs d op, sys_ok (N := double) (MkSystem rt Between rs) d -> (sm_active (e_store (rt_engine rt)) < 2 ^ 31)%Z -> admissible (N := double) (rt_engine rt) op ->
    sys_ok (N := double) (MkSystem (applied_to rt op) Between rs) (logical_apply d op)) as Hstep.
  { intros rt rs d op Hok Hact Hadm. apply (apply_step rt rs d op 0); [exact Hok| |exact Hadm]. eapply small_room; [exact (so_room _ _ Hok)|cbn; lia]. }
  unfold stored_runtime, stored_logical, stored_ops. cbn [foldl].
  do 3 (apply Hstep; [|vm_compute; reflexivity|split; [vm_compute; reflexivity|exact I]]). exact no_data_ok.
Qed.

(** ** The theorems at work *)

Lemma pair_of {A B} (p : A * B) b : p.2 = b -> p = (p.1, b).
Proof. intros <-. by destruct p. Qed.

Definition loc_a : record_location := RecordLocation 0 0 0 0.

Lemma compaction_loses_nothing_witness :
  exists e' drained, compact (rt_engine stored_runtime) = (e', Ok drained) /\ drained = [0%Z] /\ consistent (N := double) e' stored_logical /\ unreferenced e' 0.
Proof.
  destruct (compaction_loses_nothing (N := double) (rt_engine stored_runtime) stored_logical 0) as (e' & drained & E & Hc & _ & Hu).
  - exact (so_consistent _ _ stored_ok).
  - exact (so_tracked _ _ stored_ok).
  - eapply small_room; [exact (so_room _ _ stored_ok)|vm_compute; reflexivity].
  - assert (drained = [0%Z]) as -> by (apply (f_equal snd) in E; vm_compute in E; congruence). exists e', [0%Z]. split; [done|]. split; [done|]. split; [done|]. apply Hu. left.
Defined.

Definition pinned : runtime small_heap := (pin_read stored_runtime).1.
Definition compacted : runtime small_heap := (begin_checkpoint pinned).1.
Definition published : runtime small_heap := (publish_engine compacted).1.
Definition deferred : runtime small_heap := (take_ready (retire [0%Z] published)).1.

(** A reader registers, finds a record, and a checkpoint passes by. *)
Lemma reading_path (rt : runtime small_heap) k l x drained : store_room (e_store (rt_engine rt)) (compact_cost (rt_engine rt)) -> location_ok l ->
  e_trees (rt_engine rt) Primary !! k = Some (location_encode l) -> store_read (e_store (rt_engine rt)) l = Ok x ->
  let rt1 := (begin_checkpoint (pin_read rt).1).1 in let rt2 := (publish_engine rt1).1 in let rt3 := take_ready (retire drained rt2) in
  (begin_checkpoint (pin_read rt).1).2 = Ok drained -> (publish_engine rt1).2 = Ok tt -> (rt_epoch rt2 + 1 < 2 ^ 64)%Z ->
  rtc (sys_step (N := double)) (MkSystem rt Between ∅) (MkSystem rt3.1 (Dropping rt3.2) {[0 := MkReader (rt_epoch rt) true [(l, x)]]}).
Proof.
  intros Hroom Hl Hk Hx rt1 rt2 rt3 E1 E2 Hb. eapply rtc_l; [apply (step_load _ _ _ 0); done|]. eapply rtc_l; [eapply (step_register _ _ _ 0); [by rewrite lookup_insert_eq|done]|].
  eapply rtc_l; [eapply (step_find _ _ _ 0 _ Primary k l x); [by rewrite lookup_insert_eq|done|by apply (bool_decide_unpack _)|done|exact Hk|exact Hx]|].
  eapply rtc_l; [eapply (step_compact _ _ rt1 drained); [exact Hroom|by apply pair_of]|]. eapply rtc_l; [eapply (step_publish _ _ rt2); by apply pair_of|].
  eapply rtc_l; [by apply step_retire|]. eapply rtc_l; [eapply (step_take _ _ rt3.1 rt3.2); by apply pair_of|]. rewrite !insert_insert_eq. apply rtc_refl.
Qed.

(** The segment of the first node is drained, and not deleted. *)
Definition reading : system small_heap := MkSystem deferred (Dropping (take_ready (retire [0%Z] published)).2) {[0 := MkReader (rt_epoch stored_runtime) true [(loc_a, HNode node_a)]]}.

Lemma reading_reached : rtc (sys_step (N := double)) (MkSystem stored_runtime Between ∅) reading.
Proof.
  apply (reading_path stored_runtime (as_bytes "a") loc_a (HNode node_a) [0%Z]); [|by vm_compute..]. eapply small_room; [exact (so_room _ _ stored_ok)|vm_compute; reflexivity].
Qed.

Lemma pinned_reads_stable_witness : store_read (e_store (rt_engine deferred)) loc_a = Ok (HNode node_a).
Proof.
  apply (pinned_reads_stable (N := double) (MkSystem stored_runtime Between ∅) reading stored_logical 0 (MkReader (rt_epoch stored_runtime) true [(loc_a, HNode node_a)]) loc_a (HNode node_a)).
  - exact stored_ok.
  - exact reading_reached.
  - reflexivity.
  - reflexivity.
  - left.
Defined.

Lemma checkpoint_completes_witness :
  exists rt', checkpoint_locked stored_runtime = (rt', Ok tt) /\ sys_ok (N := double) (MkSystem rt' Between ∅) stored_logical /\ rt_retired rt' = [].
Proof.
  destruct (checkpoint_completes (N := double) stored_runtime ∅ stored_logical) as (rt' & E & Hok & _ & Hr).
  - exact stored_ok.
  - eapply small_room; [exact (so_room _ _ stored_ok)|vm_compute; reflexivity].
  - vm_compute. reflexivity.
  - exists rt'. split; [done|]. split; [done|]. apply Hr. reflexivity.
Defined.

(** ** Where records are lost *)

(** A read that is not pinned can lose its segment: it finds the location of a node, a checkpoint of
    another writer moves the node and deletes the segment at once, and reading the location fails although
    the node exists throughout.  A pinned read of the same location succeeds.  The handlers that write
    read without a pin. *)
Theorem unpinned_read_fails :
  let e := rt_engine stored_runtime in
  let rt := (checkpoint_locked stored_runtime).1 in
  (node_location "a" e).2 = Ok (Some loc_a) /\ (checkpoint_locked stored_runtime).2 = Ok tt /\
  (node_at loc_a (rt_engine rt)).2 = Err NotFound /\ (read_node "a" (rt_engine rt)).2 = Ok (Some node_a) /\
  (node_at loc_a (rt_engine (checkpoint_locked (pin_read stored_runtime).1).1)).2 = Ok node_a.
Proof. vm_compute. done. Qed.

(** The files after a crash that follows the commit of the outgoing edges and precedes that of the incoming ones. *)
Definition half_published : engine := crash_in_commit 4 (rt_engine stored_runtime) (compact (rt_engine stored_runtime)).1.
Definition next_checkpoint : runtime small_heap * result error_kind unit := checkpoint_locked (runtime_of half_published).

(** A crash during a compaction loses the reverse direction of an edge.  The move of a record is not in
    the log; when the crash falls between the commits of the two edge indexes, the outgoing entry names the
    copy and the incoming one the original.  Both directions still read; but the next compaction asks only
    the outgoing index, takes the original for garbage and deletes its segment, and from then on every
    traversal of the incoming edges fails. *)
Theorem compaction_crash_orphans_edge cap : cap <> 0 ->
  edges_from cap half_published "a" = Ok [edge_ab] /\ edges_to cap half_published "b" = Ok [edge_ab] /\
  next_checkpoint.2 = Ok tt /\
  edges_from cap (rt_engine next_checkpoint.1) "a" = Ok [edge_ab] /\ edges_to cap (rt_engine next_checkpoint.1) "b" = Err NotFound.
Proof. intros Hcap. destruct cap as [|cap]; [done|]. vm_compute. done. Qed.

Lemma compaction_crash_orphans_edge_witness : edges_to 1000 (rt_engine next_checkpoint.1) "b" = Err NotFound.
Proof. apply (compaction_crash_orphans_edge 1000). lia. Defined.
