(* ===== verification/Opening.v ===== *)
(** * Opening a database after a crash ([Database::new] of [src/src/database.rs])

    The composition of what the other files model: the engine is loaded from
    the files of the last checkpoint ([Startup]), the log that survived is
    replayed into it ([Recovery] on the bytes of [Wal]), what was replayed is
    checkpointed ([Compaction], [Checkpoint] and the rotation of the log), and
    the log of identities is rewritten.  The replay operations of recovery
    are those of the engine. *)

From Stdlib Require Import ZArith Lia Ascii String.
From stdpp Require Import base tactics list strings option gmap sorting.
From S2P Require Import Prelude Crypto Binary Keys Json OrderKey Search Entities Wal Recovery Checkpoint Transaction Engine EngineRep EngineApply EngineOps EngineTheorems Startup QueryPaging Compaction CompactionTheorems Epochs CompactionExamples.

(** ** The engine that recovery replays into *)

Section opening.
Context {St : Type} `{SegmentLaws St} {N : Type} `{SerdeLaws N}.
Implicit Types (e : engine (St := St)) (d : logical).

(** [sd_applied] is [applied_sequence]. *)
Record started := MkStarted { sd_runtime : runtime St; sd_applied : Z }.

Definition sd_engine (s : started) : engine (St := St) := rt_engine (sd_runtime s).
Definition with_started (s : started) e : started := MkStarted (with_engine (sd_runtime s) e) (sd_applied s).

(** [apply_committed], without a record of its own in the log. *)
Definition replay_operation (op : Operation) (s : started) : result error_kind started :=
  match apply_operation (N := N) op (sd_engine s) with
  | (e, Ok _) => Ok (with_started s e)
  | (_, Err x) => Err x
  end.

#[local] Instance engine_replay : ReplayEngine started := {
  replay_archive s x := replay_operation (OArchive x) s;
  replay_insert s n := replay_operation (OInsert n) s;
  replay_delete s a := replay_operation (ODelete a) s;
  replay_insert_edge s x := replay_operation (OInsertEdge x) s;
  replay_delete_edge s i := replay_operation (ODeleteEdge i) s;
  replay_insert_user s u := replay_operation (OInsertUser u) s;
  replay_revoke_user s h := replay_operation (ORevokeUser h) s;
  replay_create_index s x := replay_operation (OCreateIndex x) s;
  replay_drop_index s n := replay_operation (ODropIndex n) s;
  replay_create_reference s x := replay_operation (OCreateReference x) s;
  replay_drop_reference s n := replay_operation (ODropReference n) s;
  replay_create_text_index s x := replay_operation (OCreateTextIndex x) s;
  replay_drop_text_index s n := replay_operation (ODropTextIndex n) s;
  note_recovered s q := MkStarted (sd_runtime s) (Z.max (sd_applied s) q);
}.

(** What recovery does for the record of an operation is the operation. *)
Lemma replay_to_wal s op : apply_recovery_operation s (to_wal op) = replay_operation op s.
Proof. destruct op as [| | | | | | | | | | |t|]; try done. cbn [to_wal]. destruct t as [name kind field []]; done. Qed.

Lemma replay_batch ops s e : apply_operations (N := N) ops (sd_engine s) = (e, Ok tt) -> apply_all s (map to_wal ops) = Ok (with_started s e).
Proof.
  revert s. induction ops as [|op ops IH]; intros s E; cbn [apply_operations map apply_all] in *.
  - injection E as <-. by destruct s as [[] ?].
  - rewrite replay_to_wal. unfold replay_operation. unfold mbind, m_bind in E. destruct (apply_operation op (sd_engine s)) as [e1 [[]|x]]; [|done]. cbn [mbind result_bind].
    by rewrite (IH (with_started s e1) E).
Qed.

Lemma apply_operations_app ops ops' e : apply_operations (N := N) (ops ++ ops') e = (_ ← apply_operations (N := N) ops; apply_operations (N := N) ops') e.
Proof.
  revert e. induction ops as [|op ops IH]; intros e; [done|]. cbn [app apply_operations]. unfold mbind, m_bind in *. destruct (apply_operation op e) as [e1 [[]|x]]; [apply IH|done].
Qed.

(** The greatest of the sequence numbers. *)
Definition applied_after (q : Z) (us : list commit_unit) : Z := foldl (fun q u => Z.max q u.2) q us.

(** Running the units of the log is running their operations. *)
Lemma replay_units_operations us ops s e : concat (map fst us) = map to_wal ops -> apply_operations (N := N) ops (sd_engine s) = (e, Ok tt) ->
  run_units s us = Ok (MkStarted (with_engine (sd_runtime s) e) (applied_after (sd_applied s) us)).
Proof.
  revert ops s. induction us as [|[ws q] us IH]; intros ops s Hops E; cbn [map concat fst run_units] in *.
  - symmetry in Hops. apply map_eq_nil in Hops as ->. injection E as <-. by destruct s as [[] ?].
  - symmetry in Hops. apply map_eq_app in Hops as (ops1 & ops2 & -> & <- & Hops2). rewrite apply_operations_app in E. unfold mbind, m_bind in E.
    destruct (apply_operations ops1 (sd_engine s)) as [e1 [[]|x]] eqn:E1; [|done]. rewrite (replay_batch ops1 s e1 E1). cbn [mbind result_bind].
    exact (IH ops2 (MkStarted (with_engine (sd_runtime s) e1) (Z.max (sd_applied s) q)) (eq_sym Hops2) E).
Qed.

Lemma applied_after_le q us : (q <= applied_after q us)%Z /\ Forall (fun u => (u.2 <= applied_after q us)%Z) us.
Proof.
  revert q. induction us as [|u us IH]; intros q; [split; [done|constructor]|]. cbn [applied_after foldl]. destruct (IH (Z.max q u.2)) as [Hq Hus].
  unfold applied_after in *. split; [lia|]. constructor; [lia|exact Hus].
Qed.

Lemma applied_after_in q us : applied_after q us = q \/ applied_after q us ∈ map snd us.
Proof.
  revert q. induction us as [|u us IH]; intros q; [by left|]. cbn [applied_after foldl map]. destruct (IH (Z.max q u.2)) as [E|Hin]; unfold applied_after in *; [|right; by right].
  destruct (Z.max_spec q u.2) as [[_ Em]|[_ Em]]; rewrite Em in *; [right; rewrite E; by left|by left].
Qed.

(** ** What compaction leaves in memory *)

(** What an engine holds besides records and trees of locations. *)
Definition memory e := (e_users e, e_references e, (e_data e, e_text e), (e_user_log e, e_index_log e, e_text_log e, e_reference_log e)).

Definition keeps_memory {A} (m : M (St := St) A) : Prop := forall e, memory (m e).1 = memory e.

Lemma keeps_memory_bind {A B} (m : M (St := St) A) (f : A -> M B) : keeps_memory m -> (forall a, keeps_memory (f a)) -> keeps_memory (m ≫= f).
Proof. intros Hm Hf e. unfold mbind, m_bind. specialize (Hm e). destruct (m e) as [e' [a|x]]; cbn [fst] in *; [|done]. by rewrite Hf. Qed.

Lemma keeps_memory_each {A} (l : list A) (f : A -> M (St := St) unit) : (forall x, keeps_memory (f x)) -> keeps_memory (for_each l f).
Proof. intros Hf. induction l as [|x l IH]; cbn [for_each]; [by intros e|]. by apply keeps_memory_bind. Qed.

Lemma put_keeps_memory j k v : keeps_memory (index_put (St := St) j k v).
Proof. intros e. unfold index_put. by destruct (tree_put _ _ _). Qed.

Lemma append_keeps_memory r : keeps_memory (heap_append (St := St) r).
Proof. intros e. unfold heap_append. by destruct (store_append _ _) as [[]|]. Qed.

Lemma compact_keeps_memory : keeps_memory (compact (St := St)).
Proof.
  apply keeps_memory_bind; [done|]. intros segments. apply keeps_memory_bind; [|done]. apply keeps_memory_each. intros g.
  apply keeps_memory_bind; [done|]. intros e. apply keeps_memory_bind; [done|]. intros live. apply keeps_memory_each. intros x.
  apply keeps_memory_bind; [done|]. intros e'. apply keeps_memory_bind; [done|]. intros r. apply keeps_memory_bind; [apply append_keeps_memory|]. intros l.
  destruct (x.2); cbn [repoint]; repeat (apply keeps_memory_bind; [apply put_keeps_memory|intros []]); apply put_keeps_memory.
Qed.

Lemma drop_keeps_memory gs rt : memory (rt_engine (drop_each gs rt).1) = memory (rt_engine rt).
Proof.
  revert rt. induction gs as [|g gs IH]; intros rt; [done|]. cbn [drop_each]. unfold drop_one. destruct (store_drop _ _) as [s|x]; [|done]. by rewrite IH.
Qed.

(** ** The checkpoint that settles the replay *)

Context `{Aead} `{!Bincode WalRecord} (rotate_threshold : nat) (nonces : nat -> list Z).

(** [checkpoint_locked] whole: the heap compacted, it and the indexes published, the number moved, the log rotated when it is
    long, the drained segments retired.  No frame is open in a process that starts. *)
Definition checkpoint_recovered (s : started) (durable : Z) (log : wal_file) : result error_kind (started * Z * wal_file) :=
  match begin_checkpoint (sd_runtime s) with
  | (_, Err x) => Err x
  | (rt, Ok drained) =>
      match publish_engine rt with
      | (_, Err x) => Err x
      | (rt, Ok _) =>
          let durable := advance ∅ durable (sd_applied s) in
          log ← (if length (wal_bytes log) <? rotate_threshold then Ok log else wal_rotate log nonces durable);
          match drop_unreferenced_segments (retire drained rt) with
          | (_, Err x) => Err x
          | (rt, Ok _) => Ok (MkStarted rt (sd_applied s), durable, log)
          end
      end
  end.

(** ** [Database::new] *)

Definition fresh_runtime e : runtime St := MkRuntime e e 1 ∅ [].

(** [wal]'s counters before anything is read. *)
Definition first_counters : counters := MkCounters 1 1 1.

(** [live] is the values of the map of identities in some order. *)
Definition database_new (disk : engine (St := St)) (log : option wal_file) (checkpoint : Z) (live : list UserRecord) : result error_kind (database (S := started)) :=
  match load (open_engine disk) with
  | (_, Err x) => Err x
  | (e, Ok _) =>
      db ← recover checkpoint_recovered (MkDatabase log checkpoint first_counters 0 (MkStarted (fresh_runtime e) 0));
      Ok (MkDatabase (db_wal db) (db_checkpoint db) (db_counters db) (db_horizon db)
            (with_started (db_engine db) (compact_user_log live (sd_engine (db_engine db)))))
  end.

(** ** The theorem *)

(** What a crash leaves of a log of records: the records, or the records and a torn line behind them. *)
Definition log_survives (file : list Z) (rs : list WalRecord) : Prop :=
  rep file rs \/ exists m, wal_read_all (Some file) = Ok (rs, TailTorn m) /\ rep (take m file) rs.

Lemma survives_read file rs : log_survives file rs -> exists tail, wal_read_all (Some file) = Ok (rs, tail) /\
  wal_inv (repaired (MkWalFile file None) tail) rs /\ validate_records rs = Ok tt.
Proof.
  intros Hs. assert (exists f, rep f rs) as [f Hf] by (destruct Hs as [Hr|(m & _ & Hr)]; by eexists).
  assert (validate_records rs = Ok tt) as Hv.
  { apply validate_records_ok. eapply Forall_impl; [by eapply rep_lines|]. by intros r (l & nonce & _ & Hr & _). }
  destruct Hs as [Hr|(m & Hread & Hr)].
  - exists TailClean. split; [by apply rep_read|]. split; [by apply inv_closed|done].
  - exists (TailTorn m). split; [done|]. split; [by apply inv_closed|done].
Qed.

Lemma rotated log rs durable : wal_inv log rs -> (forall i, nonce_ok (nonces i)) ->
  exists log' rs', (if length (wal_bytes log) <? rotate_threshold then Ok log else wal_rotate log nonces durable) = Ok log' /\ wal_inv log' rs' /\
    (rs' = rs \/ rs' = Wal.above durable rs).
Proof.
  intros Hlog Hn. destruct (_ <? _); [exists log, rs; by split_and!; [| |left]|]. destruct (rotate_inv log rs nonces durable Hlog Hn) as (log' & E & Hlog').
  exists log', (Wal.above durable rs). by split_and!; [| |right].
Qed.

(** Without fences the checkpoint moves to any number it is asked for. *)
Lemma advance_covers current q x : (x <= current \/ x <= q /\ x < 2 ^ 64)%Z -> (x <= advance ∅ current q)%Z.
Proof. unfold advance. change (ceiling ∅) with (2 ^ 64 - 1)%Z. case_goal; breflect; lia. Qed.

Lemma advance_within current q : (0 <= current)%Z -> (q < 2 ^ 64)%Z -> advance ∅ current q = current \/ advance ∅ current q = q.
Proof. intros Hc Hq. unfold advance. change (ceiling ∅) with (2 ^ 64 - 1)%Z. case_goal; [by left|right; lia]. Qed.

(** The checkpoint that ends a start: it runs to the end, keeps the collections and everything in memory. *)
Lemma checkpoint_recovered_ok base e d q durable log rs : consistent (N := N) e d -> tracked e d -> store_room (e_store e) (compact_cost e) -> wal_inv log rs -> (forall i, nonce_ok (nonces i)) ->
  exists s log' rs', checkpoint_recovered (MkStarted (with_engine (fresh_runtime base) e) q) durable log = Ok (s, advance ∅ durable q, log') /\
    consistent (N := N) (sd_engine s) d /\ memory (sd_engine s) = memory e /\ wal_inv log' rs' /\ (rs' = rs \/ rs' = Wal.above (advance ∅ durable q) rs).
Proof.
  intros Hc Ht Hroom Hlog Hn. destruct (rotated log rs (advance ∅ durable q) Hlog Hn) as (log' & rs' & Elog & Hlog' & Hrs).
  assert (sys_ok (N := N) (MkSystem (with_engine (fresh_runtime base) e) Between ∅) d) as Hok.
  { split; cbn [sy_runtime sy_phase sy_readers with_engine fresh_runtime rt_engine rt_epoch rt_retired rt_readers phase_segments map]; try done.
    - by apply (room_less _ (compact_cost e) 0); rewrite Nat.add_0_r.
    - by intros g [?%not_elem_of_nil|?%not_elem_of_nil]. }
  destruct (checkpoint_completes (N := N) (with_engine (fresh_runtime base) e) ∅ d Hok Hroom) as (rt & E & Hok' & _ & _); [done|].
  unfold checkpoint_locked in E. unfold checkpoint_recovered. cbn [sd_runtime sd_applied]. destruct (begin_checkpoint (with_engine (fresh_runtime base) e)) as [rt1 [drained|]] eqn:E1; [|done].
  destruct (publish_engine rt1) as [rt2 [[]|]] eqn:E2; [|done]. rewrite Elog. cbn [mbind result_bind].
  destruct (drop_unreferenced_segments (retire drained rt2)) as [rt3 [[]|]] eqn:E3; [|done]. injection E as ->.
  exists (MkStarted rt q), log', rs'. split; [done|]. split; [apply Hok'|]. split; [|done]. unfold sd_engine. cbn [sd_runtime].
  transitivity (memory (rt_engine rt2)).
  { unfold drop_unreferenced_segments in E3. destruct (take_ready (retire drained rt2)) as [rt4 ready] eqn:E4. injection E4 as <- _.
    pose proof (f_equal fst E3) as E5. cbn [fst] in E5. rewrite <- E5. etransitivity; [apply drop_keeps_memory|done]. }
  transitivity (memory (rt_engine rt1)).
  { unfold publish_engine in E2. destruct (store_sync _) as [st|]; [|done]. by injection E2 as <-. }
  unfold begin_checkpoint in E1. pose proof (compact_keeps_memory e) as Hm. cbn [rt_engine with_engine fresh_runtime] in E1. destruct (compact e) as [e1 r]. by injection E1 as <- _.
Qed.

Lemma batch_goes ops : forall e d k, consistent (N := N) e d -> tracked e d -> store_room (e_store e) (length ops + k) -> batch_admitted (N := N) e ops ->
  exists e', apply_operations (N := N) ops e = (e', Ok tt) /\ tracked e' (foldl logical_apply d ops) /\ store_room (e_store e') k.
Proof.
  induction ops as [|op ops IH]; intros e d k Hc Ht Hroom Hadm; [by exists e|]. cbn [apply_operations foldl length Nat.add] in *.
  destruct (batch_admitted_cons e op ops Hadm) as (Hop & Hd & Hrest). destruct (operation_step e d op _ Hc Hroom Hop) as (e1 & Hrun & Hc1 & Hroom1).
  assert (defs e1 = defs e) as Ed by (pose proof (data_operation_defs op Hd e) as Ed; by rewrite Hrun in Ed).
  destruct (operation_goes e d op _ Hc Ht Hroom Hop) as [_ Ht1]. rewrite Hrun in Ht1. cbn [fst] in Ht1.
  destruct (IH e1 (logical_apply d op) k Hc1 Ht1 Hroom1 (batch_admitted_defs e e1 ops (eq_sym Ed) Hrest)) as (e2 & Hrun2 & Ht2 & Hroom2).
  exists e2. unfold mbind, m_bind. by rewrite Hrun.
Qed.

(** Rewriting the log of identities leaves everything else. *)
Lemma rewritten_users users e d : consistent (N := N) e d -> consistent (N := N) (compact_user_log users e) d /\
  e_references (compact_user_log users e) = e_references e /\ defs (compact_user_log users e) = defs e.
Proof.
  intros Hc. unfold compact_user_log. case_match; [done|]. split; [|done]. destruct Hc as [C1 C2 C3 C4 C5 C6 C7 C8 C9 C10 C11 C12]. by split.
Qed.

Lemma memory_logs e e' : memory e' = memory e -> logs_ok e -> logs_ok e'.
Proof.
  unfold memory. intros E [L1 L2 L3 L4]. injection E as Eu Er Ed Et Eul Eil Etl Erl. split; congruence.
Qed.

End opening.

(** ** A start after a crash *)

Section examples.
Local Existing Instances null_aead sample_bincode double_json double_laws small_store small_laws small_segments small_segment_laws.

(** The delete of the first node is on the log, and the record behind it was torn. *)
Definition torn_log : list Z := sample_line ++ [NEWLINE] ++ take 30 sample_line.
Definition stored : engine := rt_engine stored_runtime.
Definition without_a : engine := (apply_operations (N := double) [ODelete "a"] stored).1.
Definition reopened : result error_kind (database (S := started (St := small_heap))) :=
  database_new 1000 (N := double) (fun _ => sample_nonce) (crashed (e_store stored) stored without_a) (Some (MkWalFile torn_log None)) 0 [].

Lemma torn_log_survives : log_survives torn_log (take 1 (wr_log one_delete_w)).
Proof.
  right. exists (length sample_line + 1). split; [vm_compute; reflexivity|].
  change (rep (take (length sample_line + 1) torn_log) [sample_a]). replace (take (length sample_line + 1) torn_log) with (join [sample_line]) by (vm_compute; reflexivity).
  apply rep_join, holds_line; [|constructor]. exists sample_nonce. split; [exact sample_nonce_ok|]. split; [done|vm_compute; reflexivity].
Qed.

Lemma applied_life ops rt : lifetime (N := double) (rt_engine rt) -> (apply_operations (N := double) ops (rt_engine rt)).2 = Ok tt ->
  lifetime (N := double) (rt_engine (foldl applied_to rt ops)).
Proof.
  revert rt. induction ops as [|op ops IH]; intros rt Hl E; [done|]. cbn [apply_operations foldl] in *. unfold mbind, m_bind in E. apply IH; unfold applied_to; cbn [rt_engine with_engine].
  - destruct (apply_operation op (rt_engine rt)) as [e [[]|x]] eqn:E1; [by eapply life_operation|done].
  - by destruct (apply_operation op (rt_engine rt)) as [e [[]|x]].
Qed.

Lemma stored_life : lifetime (N := double) stored.
Proof. apply applied_life; [apply (life_created (MkSmall ∅ 0))|vm_compute; reflexivity]. Qed.

End examples.

(** ** A start that an index declared later refuses *)

Section late_index.
Local Existing Instances status_json small_store small_laws small_segments small_segment_laws engine_replay.

(** The data of a post is its status.  A post is written with a status that no index could hold, it is overwritten, and then
    an index over the status is declared. *)
Definition long_status : string := Nat.iter 1100 (String "x") EmptyString.
Definition by_status : IndexDef := {| def_name := "by_status"; def_kind := "Post"; def_field := "status"; def_unique := false |}.
Definition late_ops : list Operation := [OInsert (post "a" long_status); OInsert (post "a" "open"); OCreateIndex by_status].
Definition late_live : engine := (apply_operations (N := double) late_ops no_data).1.
Definition late_units : list commit_unit := [([WInsert (post "a" long_status)], 1%Z); ([WInsert (post "a" "open")], 2%Z); ([WCreateIndex by_status], 3%Z)].

(** An index declared later can refuse a start.  The three mutations are admitted and applied.  After a crash before the next
    checkpoint the definition is read from its own log before the log of mutations is replayed, so the first write is replayed
    under an index it was never checked against; its key is too long, and recovery fails, at this start and at every later one.
    The bound on indexed values, checked before a write is logged, is there to rule this out. *)
Theorem late_index_stops_start :
  validate_all (N := double) (declared_indexes no_data) late_ops = Ok tt /\ (apply_operations (N := double) late_ops no_data).2 = Ok tt /\
  map fst late_units = map (fun op => [to_wal op]) late_ops /\
  let opened := load (open_engine (crashed (e_store late_live) no_data late_live)) in
  opened.2 = Ok tt /\ run_units (MkStarted (fresh_runtime opened.1) 0) late_units = Err InvalidInput.
Proof. vm_compute. done. Qed.
End late_index.
