(* ===== verification/Routes.v ===== *)
(** * Requests ([src/src/api/routes.rs])

    The handlers of the HTTP interface over the engine: who may do what, what
    each request resolves to, the answer it gets and the event it announces.
    A handler that writes first reads the engine to decide and then calls a
    mutation; the two happen at two moments, because the engine is locked
    inside the mutation only.  A handler therefore takes the engine it saw and
    the engine it writes; run alone, they are the same. *)

From Stdlib Require Import ZArith Lia SpecFloat Ascii String.
From stdpp Require Import base tactics list strings option gmap sorting.
From S2P Require Import Prelude Utf8 Crypto Binary BTree Keys Json GoLower OrderKey Predicate Search Entities Wal Transaction Engine Query Aggregate QueryFold QueryGroup Lower Mutate Sequences Feed.

Local Open Scope string_scope.

(** ** Identities, answers and announcements *)

(** [AuthIdentity]. *)
Record AuthIdentity := MkIdentity { ai_owner : string; ai_role : Role }.

Definition is_admin (i : AuthIdentity) : bool := bool_decide (ai_role i = RoleAdmin).

(** The requester of a query: an administrator is not filtered. *)
Definition requester (i : AuthIdentity) : option string := if is_admin i then None else Some (ai_owner i).

(** An index as a listing shows it. *)
Record IndexInfo := MkIndexInfo { ii_name : string; ii_kind : string; ii_field : string; ii_unique : bool; ii_mode : string }.

Definition info_ordered (d : IndexDef) : IndexInfo := MkIndexInfo (def_name d) (def_kind d) (def_field d) (def_unique d) "ordered".
Definition info_text (d : TextIndexDef) : IndexInfo := MkIndexInfo (t_name d) (t_kind d) (t_field d) false (if t_folded d then "folded" else "text").

Inductive body (N : Type) :=
| Text (s : string)
| MissingEndpoint (label address : string)   (* the wording of a missing edge endpoint *)
| HeldBy (worker : string)                   (* "already claimed by ..." *)
| EngineText                                 (* an error of the engine, as it words it *)
| NodeBody (n : Node)
| NodesBody (ns : list Node)
| PageBody (p : QueryPage)
| HistoryBody (h : list HistoryEntry)
| EdgesBody (es : list Edge)
| CreatedBody (address : string) (edges : list Edge)
| CountBody (n : Z)
| CountsBody (l : list (option (value N) * Z))
| ResultBody (v : value N)
| GroupsBody (l : list (option (value N) * value N))
| UsersBody (us : list (string * Role))
| SequenceBody (first count : Z)
| IndexesBody (l : list IndexInfo)
| ReferencesBody (l : list ReferenceDef)
| EmptyBody.
Arguments Text {N} s.
Arguments MissingEndpoint {N} label address.
Arguments HeldBy {N} worker.
Arguments EngineText {N}.
Arguments NodeBody {N} n.
Arguments NodesBody {N} ns.
Arguments PageBody {N} p.
Arguments HistoryBody {N} h.
Arguments EdgesBody {N} es.
Arguments CreatedBody {N} address edges.
Arguments CountBody {N} n.
Arguments CountsBody {N} l.
Arguments ResultBody {N} v.
Arguments GroupsBody {N} l.
Arguments UsersBody {N} us.
Arguments SequenceBody {N} first count.
Arguments IndexesBody {N} l.
Arguments ReferencesBody {N} l.
Arguments EmptyBody {N}.

Inductive announcement :=
| NodeCreated (address kind : string)
| NodeUpdated (address kind : string)
| NodeDeleted (address kind : string)
| NodeClaimed (address : string) (kind : option string) (worker : string)
| EdgeCreated (from to kind : string)
| EdgeDeleted (from to kind : string)
| TransactionCommitted (addresses : list string)
| UserCreated (owner created_by : string)
| UserRevoked (owner : string).

(** The status and body of a response, and what is published. *)
Record response (N : Type) := MkResponse { rs_status : Z; rs_body : body N; rs_event : option (Audience * announcement) }.
Arguments MkResponse {N} rs_status rs_body rs_event.
Arguments rs_status {N} r.
Arguments rs_body {N} r.
Arguments rs_event {N} r.

Definition answer {N} (status : Z) (b : body N) : response N := MkResponse status b None.

Definition storage_failure {N} (k : error_kind) : response N :=
  match k with InvalidInput => answer 400 EngineText | _ => answer 500 EngineText end.

(** ** Requests *)

Record CreateNodeRequest := MkCreate {
  cn_address : string; cn_kind : string; cn_coordinate : Coordinate; cn_data : string; cn_public : option bool;
  cn_edges : list (string * string); cn_if_absent : bool;
}.

Record UpdateNodeRequest := MkUpdate { un_data : string; un_public : option bool }.

Inductive TxOpRequest (N : Type) :=
| ReqInsertNode (address kind : string) (coordinate : Coordinate) (data : string) (public : option bool) (owner claimed_by : option string)
| ReqInsertEdge (from to kind : string)
| ReqDeleteEdge (from to kind : string)
| ReqDeleteNode (address : string)
| ReqClearKind (kind : string)
| ReqDeleteWhere (kind : string) (where_ : option (Expr N))
| ReqSetIf (address field : string) (expect_le : option f64) (expect_eq : option (value N)) (expect_absent : option bool) (set_ : list (string * value N)).
Arguments ReqInsertNode {N} address kind coordinate data public owner claimed_by.
Arguments ReqInsertEdge {N} from to kind.
Arguments ReqDeleteEdge {N} from to kind.
Arguments ReqDeleteNode {N} address.
Arguments ReqClearKind {N} kind.
Arguments ReqDeleteWhere {N} kind where_.
Arguments ReqSetIf {N} address field expect_le expect_eq expect_absent set_.

Section routes.
Context {St : Type} `{RecordStore St} {N : Type} `{SerdeJson N} `{IntJson N} `{CursorJson N}.
Context (cap max_offset max_ops : nat) (clock : Z -> Z).
Implicit Types (e seen : engine (St := St)) (i : AuthIdentity).

Abbreviation response := (response N).

(** ** Reading *)

Definition readable i (n : Node) : bool := is_admin i || can_read n (ai_owner i).

Definition get_node i (address : string) e : response :=
  match fetch e address with
  | Ok (Some n) => if readable i n then answer 200 (NodeBody n) else answer 403 (Text "not authorized to read this node")
  | Ok None => answer 404 (Text "node not found")
  | Err k => storage_failure k
  end.

Definition get_node_history i (address : string) e : response :=
  match fetch e address with
  | Ok (Some n) =>
      if readable i n then match history_for cap e address with Ok h => answer 200 (HistoryBody h) | Err k => storage_failure k end
      else answer 403 (Text "not authorized to read this node's history")
  | Ok None => answer 404 (Text "node not found")
  | Err k => storage_failure k
  end.

Definition get_edges (edges : engine (St := St) -> string -> result error_kind (list Edge)) i (address : string) e : response :=
  match fetch e address with
  | Ok (Some n) =>
      if readable i n then match edges e address with Ok es => answer 200 (EdgesBody es) | Err k => storage_failure k end
      else answer 403 (Text "not authorized to read this node's edges")
  | Ok None => answer 404 (Text "node not found")
  | Err k => storage_failure k
  end.

Definition get_edges_out := get_edges (edges_from cap).
Definition get_edges_in := get_edges (edges_to cap).

Definition list_owned i (address : string) e : response :=
  match fetch e address with
  | Ok (Some subject) =>
      if negb (readable i subject) then answer 403 (Text "not authorized to read this node")
      else match nodes_by_owner cap e (n_owner subject) (requester i) with Ok ns => answer 200 (NodesBody ns) | Err k => storage_failure k end
  | Ok None => answer 404 (Text "node not found")
  | Err k => storage_failure k
  end.

Definition query_nodes i (kind owner : option string) (limit offset : option nat) e : response :=
  match query (N := N) max_offset e kind owner (requester i) (Nat.min (default 50 limit) 500) (default 0 offset) with
  | Ok ns => answer 200 (NodesBody ns)
  | Err k => storage_failure k
  end.

Definition multiget_nodes i (addresses : list string) e : response :=
  match multi_get e addresses (requester i) with
  | Ok ns => answer 200 (NodesBody ns)
  | Err _ => answer 400 EngineText
  end.

Definition reject_unbounded_predicate (where_ : option (Expr N)) : option response :=
  match where_ with
  | None => None
  | Some x => match validate x with Ok _ => None | Err _ => Some (answer 400 EngineText) end
  end.

(** The selection of a query request, for the caller. *)
Definition selection i (kind owner : option string) (where_ : option (Expr N)) (item_var : string) : filters := MkFilters kind owner (requester i) where_ item_var.

Definition query_nodes_where i (kind owner : option string) (where_ : option (Expr N)) (item_var : string) (order : option string) (desc : bool) (after : option (list Z))
    (limit offset : option nat) e : response :=
  match reject_unbounded_predicate where_ with
  | Some refusal => refusal
  | None =>
      match query_where cap max_offset e (selection i kind owner where_ item_var) order desc after (Nat.min (default 50 limit) 500) (default 0 offset) with
      | Ok page => answer 200 (PageBody page)
      | Err _ => answer 400 EngineText
      end
  end.

Definition count_nodes i (kind owner : option string) (where_ : option (Expr N)) (item_var : string) e : response :=
  match reject_unbounded_predicate where_ with
  | Some refusal => refusal
  | None => match count_where cap e (selection i kind owner where_ item_var) with Ok n => answer 200 (CountBody n) | Err _ => answer 400 EngineText end
  end.

Definition count_nodes_by i (kind owner : option string) (where_ : option (Expr N)) (item_var group_by : string) (values : option (list (value N))) e : response :=
  match reject_unbounded_predicate where_ with
  | Some refusal => refusal
  | None =>
      if String.eqb group_by "" then answer 400 (Text "group_by must name a field")
      else match count_by cap e (selection i kind owner where_ item_var) group_by values with Ok l => answer 200 (CountsBody l) | Err _ => answer 400 EngineText end
  end.

Definition agg_spec (func : string) (field : option string) : option AggSpec :=
  match agg_parse func with None => None | Some f => match spec_new f field with Ok s => Some s | Err _ => None end end.

Definition aggregate_nodes i (kind owner : option string) (where_ : option (Expr N)) (item_var func : string) (field : option string) e : response :=
  match reject_unbounded_predicate where_ with
  | Some refusal => refusal
  | None =>
      match agg_spec func field with
      | None => answer 400 EngineText
      | Some spec => match aggregate_where cap e (selection i kind owner where_ item_var) spec with Ok v => answer 200 (ResultBody v) | Err _ => answer 400 EngineText end
      end
  end.

Definition aggregate_nodes_by i (kind owner : option string) (where_ : option (Expr N)) (item_var group_by : string) (values : option (list (value N)))
    (func : string) (field : option string) e : response :=
  match reject_unbounded_predicate where_ with
  | Some refusal => refusal
  | None =>
      if String.eqb group_by "" then answer 400 (Text "group_by must name a field")
      else match agg_spec func field with
           | None => answer 400 EngineText
           | Some spec => match aggregate_by cap e (selection i kind owner where_ item_var) group_by values spec with Ok l => answer 200 (GroupsBody l) | Err _ => answer 400 EngineText end
           end
  end.

(** ** Writing nodes

    [c] are the process-wide counters a mutation draws from. *)

Definition request_node i (r : CreateNodeRequest) : Node :=
  MkNode (cn_address r) (cn_coordinate r) 0 (cn_kind r) (cn_data r) (ai_owner i) None (if default false (cn_public r) then Public else Private).

(** The refusal of [insert_with_edges] whose text starts with "not authorized". *)
Definition overwrite_forbidden i e (n : Node) : bool :=
  match fetch e (n_address n) with Ok (Some p) => negb (is_admin i || can_write p (n_owner n)) | _ => false end.

Definition create_node i (r : CreateNodeRequest) (c : counters) seen e : engine * response :=
  let n := request_node i r in
  match fetch seen (n_address n) with
  | Err k => (e, storage_failure k)
  | Ok existing =>
      if cn_if_absent r && bool_decide (is_Some existing) then (e, answer 409 (Text "node already exists"))
      else
        let failed := if overwrite_forbidden i e n then answer 403 EngineText else answer 400 EngineText in
        match insert_with_edges clock e n (cn_edges r) (is_admin i) c with
        | Err _ => (e, failed)
        | Ok ops =>
            match apply_admitted (N := N) ops e with
            | (e, Err _) => (e, failed)
            | (e, Ok _) =>
                (e, MkResponse 201 (CreatedBody (n_address n) (map (fun t => MkEdge (n_address n) t.1 t.2 (n_owner n)) (cn_edges r)))
                      (Some (for_node n, NodeCreated (n_address n) (n_kind n))))
            end
        end
  end.

Definition updated_node (n : Node) (r : UpdateNodeRequest) : Node :=
  MkNode (n_address n) (n_coordinate n) (n_value n) (n_kind n) (un_data r) (n_owner n) (n_claimed_by n)
    (match un_public r with Some public => if public then Public else Private | None => n_visibility n end).

(** [StorageEngine::insert]: no ownership is checked. *)
Definition engine_insert (n : Node) (c : counters) e : engine * result refusal unit :=
  match insert_locked clock e n c with
  | Err x => (e, Err x)
  | Ok ops => apply_admitted (N := N) ops e
  end.

Definition update_node i (address : string) (r : UpdateNodeRequest) (c : counters) seen e : engine * response :=
  match fetch seen address with
  | Ok (Some existing) =>
      if negb (is_admin i) && negb (can_write existing (ai_owner i)) then (e, answer 403 (Text "not authorized to modify this node"))
      else
        let updated := updated_node existing r in
        match engine_insert updated c e with
        | (e, Ok _) => (e, MkResponse 200 (Text "Node updated") (Some (for_node updated, NodeUpdated address (n_kind updated))))
        | (e, Err _) => (e, answer 500 EngineText)
        end
  | Ok None => (e, answer 404 (Text "node not found"))
  | Err k => (e, storage_failure k)
  end.

Definition tx_status (x : tx_error) : Z := match x with TxPrecondition => 409 | TxInvalid => 400 | _ => 500 end.

Definition route_delete_node i (address : string) (c : counters) seen e : engine * response :=
  match fetch seen address with
  | Ok (Some existing) =>
      if negb (is_admin i) && negb (can_write existing (ai_owner i)) then (e, answer 403 (Text "not authorized to delete this node"))
      else match delete_node (N := N) max_ops clock e address c with
           | Err x => (e, answer (tx_status x) EngineText)
           | Ok ops =>
               match apply_admitted (N := N) ops e with
               | (e, Ok _) => (e, MkResponse 204 (Text "") (Some (for_node existing, NodeDeleted address (n_kind existing))))
               | (e, Err _) => (e, answer 500 EngineText)
               end
           end
  | Ok None => (e, answer 404 (Text "node not found"))
  | Err k => (e, storage_failure k)
  end.

Definition claim_node i (address : string) (c : counters) seen e : engine * response :=
  let go (audience : Audience) (kind : option string) :=
    match claim clock e address (ai_owner i) c with
    | Err NotFound => (e, answer 404 (Text "node not found"))
    | Err (AlreadyClaimed by_) => (e, answer 409 (HeldBy by_))
    | Err ClaimStorage => (e, answer 500 EngineText)
    | Ok ops =>
        match apply_admitted (N := N) ops e with
        | (e, Ok _) => (e, MkResponse 200 (Text "claimed") (Some (audience, NodeClaimed address kind (ai_owner i))))
        | (e, Err _) => (e, answer 500 EngineText)
        end
    end in
  match fetch seen address with
  | Ok (Some n) =>
      if negb (is_admin i) && negb (can_write n (ai_owner i)) then
        (e, if can_read n (ai_owner i) then answer 403 (Text "not authorized to claim this node") else answer 404 (Text "node not found"))
      else go (for_node n) (Some (n_kind n))
  | Ok None => go (Owner (ai_owner i)) None
  | Err k => (e, storage_failure k)
  end.

(** ** Writing edges *)

Definition is_public e (address : string) : result error_kind bool :=
  n ← fetch e address; Ok match n with Some n => bool_decide (n_visibility n = Public) | None => false end.

Definition public_endpoints e (from to : string) : result error_kind bool :=
  a ← is_public e from;
  if negb a then Ok false else b ← is_public e to; Ok b.

Definition authorize_edge i (from to : string) e : option response :=
  if is_admin i then None
  else
    let target :=
      match fetch e to with
      | Err k => Some (storage_failure k)
      | Ok None => None
      | Ok (Some n) => if can_read n (ai_owner i) then None else Some (answer 400 (MissingEndpoint "to" to))
      end in
    match fetch e from with
    | Err k => Some (storage_failure k)
    | Ok None => target
    | Ok (Some n) =>
        if negb (can_read n (ai_owner i)) then Some (answer 400 (MissingEndpoint "from" from))
        else if negb (can_write n (ai_owner i)) then Some (answer 403 (Text "not authorized to create an edge from this node"))
        else target
    end.

(** The text of a refusal of [insert_edge]. *)
Definition edge_refusal e (edge : Edge) : body N :=
  if negb (contains_node e (e_from edge)) then MissingEndpoint "from" (e_from edge)
  else if negb (contains_node e (e_to edge)) then MissingEndpoint "to" (e_to edge)
  else EngineText.

Definition create_edge i (from to kind : string) seen e : engine * response :=
  match authorize_edge i from to seen with
  | Some refusal => (e, refusal)
  | None =>
      match public_endpoints seen from to with
      | Err k => (e, storage_failure k)
      | Ok public =>
          let edge := MkEdge from to kind (ai_owner i) in
          let audience := if public : bool then Everyone else Owner (ai_owner i) in
          match insert_edge e edge with
          | Err _ => (e, answer 400 (edge_refusal e edge))
          | Ok ops =>
              match apply_admitted (N := N) ops e with
              | (e, Ok _) => (e, MkResponse 201 (Text "Edge created") (Some (audience, EdgeCreated from to kind)))
              | (e, Err _) => (e, answer 400 EngineText)
              end
          end
      end
  end.

Definition route_delete_edge i (from to kind : string) seen e : engine * response :=
  let id := MkEdgeId from to kind in
  match find_edge seen id with
  | Ok (Some existing) =>
      if negb (is_admin i) && negb (edge_can_write existing (ai_owner i)) then (e, answer 403 (Text "not authorized to delete this edge"))
      else match public_endpoints seen from to with
           | Err k => (e, storage_failure k)
           | Ok public =>
               let audience := if public : bool then Everyone else Owner (e_owner existing) in
               match delete_edge e id with
               | Err _ => (e, answer 500 EngineText)
               | Ok ops =>
                   match apply_admitted (N := N) ops e with
                   | (e, Ok _) => (e, MkResponse 204 (Text "") (Some (audience, EdgeDeleted from to kind)))
                   | (e, Err _) => (e, answer 500 EngineText)
                   end
               end
           end
  | Ok None => (e, answer 404 (Text "edge not found"))
  | Err k => (e, storage_failure k)
  end.

(** ** Batches *)

(** Exactly one expectation. *)
Definition stated_expectation (expect_le : option f64) (expect_eq : option (value N)) (expect_absent : option bool) : option (Expectation N) :=
  match (option_list (AtMost <$> expect_le) ++ option_list (Equals <$> expect_eq) ++ option_list (if default false expect_absent then Some Absent else None))%list with
  | [x] => Some x
  | _ => None
  end.

(** One request of the batch: the operation it becomes and the addresses it touches, or the refusal. *)
Definition stage_request i (seen : engine (St := St)) (r : TxOpRequest N) : result response (TxOperation N * list string) :=
  match r with
  | ReqInsertNode address kind coordinate data public owner claimed_by =>
      if negb (is_admin i) && (bool_decide (is_Some owner) || bool_decide (is_Some claimed_by)) then Err (answer 403 (Text "not authorized to set owner or claimed_by"))
      else Ok (TxInsertNode (MkNode address coordinate 0 kind data (default (ai_owner i) owner) claimed_by (if default false public then Public else Private)), [address])
  | ReqInsertEdge from to kind =>
      match authorize_edge i from to seen with
      | Some refusal => Err refusal
      | None => Ok (TxInsertEdge (MkEdge from to kind (ai_owner i)), [])
      end
  | ReqDeleteEdge from to kind =>
      let id := MkEdgeId from to kind in
      let op := Ok (TxDeleteEdge id (ai_owner i) (is_admin i), []) in
      if is_admin i then op
      else match find_edge seen id with
           | Err k => Err (storage_failure k)
           | Ok (Some x) => if edge_can_write x (ai_owner i) then op else Err (answer 403 (Text "not authorized to delete edge"))
           | Ok None => Err (answer 404 (Text "delete target not found"))
           end
  | ReqDeleteNode address =>
      let op := Ok (TxDeleteNode address, [address]) in
      if is_admin i then op
      else match fetch seen address with
           | Err k => Err (storage_failure k)
           | Ok (Some n) => if can_write n (ai_owner i) then op else Err (answer 403 (Text "not authorized to delete"))
           | Ok None => Err (answer 404 (Text "delete target not found"))
           end
  | ReqClearKind kind =>
      match delete_where_targets (N := N) cap seen kind None (ai_owner i) (is_admin i) with
      | Err _ => Err (answer 400 EngineText)
      | Ok addresses => Ok (TxClearKind kind (ai_owner i) (is_admin i), addresses)
      end
  | ReqDeleteWhere kind where_ =>
      match reject_unbounded_predicate where_ with
      | Some refusal => Err refusal
      | None =>
          match delete_where_targets cap seen kind where_ (ai_owner i) (is_admin i) with
          | Err _ => Err (answer 400 EngineText)
          | Ok addresses => Ok (TxDeleteWhere kind where_ (ai_owner i) (is_admin i), addresses)
          end
      end
  | ReqSetIf address field expect_le expect_eq expect_absent set_ =>
      match stated_expectation expect_le expect_eq expect_absent with
      | None => Err (answer 400 (Text "set_if requires exactly one of expect_le, expect_eq, expect_absent"))
      | Some expect => Ok (TxSetIf address field expect set_ (ai_owner i) (is_admin i), [address])
      end
  end.

Fixpoint stage_requests i (seen : engine (St := St)) (rs : list (TxOpRequest N)) : result response (list (TxOperation N) * list string) :=
  match rs with
  | [] => Ok ([], [])
  | r :: rs => x ← stage_request i seen r; y ← stage_requests i seen rs; Ok (x.1 :: y.1, app x.2 y.2)
  end.

Definition route_execute_transaction i (rs : list (TxOpRequest N)) (c : counters) seen e : engine * response :=
  match stage_requests i seen rs with
  | Err refusal => (e, refusal)
  | Ok (ops, touched) =>
      match execute_transaction max_ops clock ops c e with
      | (e, Ok _) => (e, MkResponse 200 (Text "transaction committed") (Some (Owner (ai_owner i), TransactionCommitted touched)))
      | (e, Err TxPrecondition) => (e, answer 412 EngineText)
      | (e, Err TxInvalid) => (e, answer 400 EngineText)
      | (e, Err _) => (e, answer 500 EngineText)
      end
  end.

(** ** Accounts *)

Definition admin_only : response := answer 403 (Text "admin only").

Definition parse_role (role : option string) : option Role :=
  match role with
  | None => Some RoleUser
  | Some r => if String.eqb r "admin" then Some RoleAdmin else if String.eqb r "user" then Some RoleUser else None
  end.

(** The token and its hash come from the system's random generator and the hash function. *)
Definition create_user i (owner : string) (role : option string) (token_hash : string) e : engine * response :=
  if negb (is_admin i) then (e, admin_only)
  else match parse_role role with
       | None => (e, answer 400 (Text "unknown role"))
       | Some role =>
           match apply_admitted (N := N) (insert_user (MkUser token_hash owner role)) e with
           | (e, Ok _) => (e, MkResponse 201 (UsersBody [(owner, role)]) (Some (Owner (ai_owner i), UserCreated owner (ai_owner i))))
           | (e, Err _) => (e, answer 500 EngineText)
           end
       end.

Definition users e : list UserRecord := map snd (map_to_list (e_users e)).

Definition list_users i e : response :=
  if negb (is_admin i) then admin_only else answer 200 (UsersBody (map (fun u => (u_owner u, u_role u)) (users e))).

Fixpoint revoke_each (hashes : list string) e : engine * result refusal unit :=
  match hashes with
  | [] => (e, Ok tt)
  | h :: hashes =>
      match apply_admitted (N := N) (revoke_user h) e with
      | (e, Ok _) => revoke_each hashes e
      | (e, Err x) => (e, Err x)
      end
  end.

Definition route_revoke_user i (owner : string) seen e : engine * response :=
  if negb (is_admin i) then (e, admin_only)
  else match map u_token_hash (filter (fun u => u_owner u = owner) (users seen)) with
       | [] => (e, answer 404 (Text "no persistent user with that owner"))
       | hashes =>
           match revoke_each hashes e with
           | (e, Ok _) => (e, MkResponse 204 (Text "") (Some (Owner (ai_owner i), UserRevoked owner)))
           | (e, Err _) => (e, answer 500 EngineText)
           end
       end.

(** ** Indexes and references *)

Definition list_all_indexes e : list IndexInfo :=
  merge_sort (fun a b => string_le (ii_name a) (ii_name b)) (map info_ordered (data_all e) ++ map info_text (text_all e))%list.

Definition list_indexes i e : response := if negb (is_admin i) then admin_only else answer 200 (IndexesBody (list_all_indexes e)).

Definition route_drop_index i (name : string) e : engine * response :=
  if negb (is_admin i) then (e, admin_only)
  else match drop_index e name with
       | Err _ => (e, answer 404 EngineText)
       | Ok ops => match apply_admitted (N := N) ops e with (e, Ok _) => (e, answer 204 (Text "")) | (e, Err _) => (e, answer 404 EngineText) end
       end.

Definition references_all e : list ReferenceDef :=
  merge_sort (fun a b => string_le (r_name a) (r_name b)) (map snd (map_to_list (e_references e))).

Definition list_references i e : response := if negb (is_admin i) then admin_only else answer 200 (ReferencesBody (references_all e)).

Definition route_drop_reference i (name : string) e : engine * response :=
  if negb (is_admin i) then (e, admin_only)
  else match drop_reference e name with
       | Err _ => (e, answer 404 EngineText)
       | Ok ops => match apply_admitted (N := N) ops e with (e, Ok _) => (e, answer 204 (Text "")) | (e, Err _) => (e, answer 404 EngineText) end
       end.

(** ** Sequences and events *)

(** The refusal of [sequence_next] whose text starts with "not authorized": the block and the name passed. *)
Definition sequence_forbidden i (name : string) (count : Z) e : bool :=
  negb ((count =? 0)%Z || (MAX_SEQUENCE_BLOCK <? count)%Z) &&
  negb ((String.length name =? 0)%nat || (MAX_SEQUENCE_NAME <? String.length name)%nat || contains_colon name) &&
  match fetch e (sequence_address name) with Ok (Some n) => negb (is_admin i || can_write n (ai_owner i)) | _ => false end.

Definition route_sequence_next `{!U64Json N} i (name : string) (count : Z) (c : counters) e : engine * response :=
  match sequence_next (N := N) clock name count (ai_owner i) (is_admin i) c e with
  | (e, Ok first) => (e, answer 200 (SequenceBody first count))
  | (e', Err _) => (e', answer (if sequence_forbidden i name count e then 403 else 400) EngineText)
  end.

Definition MAX_EVENT_PAYLOAD : nat := Z.to_nat 65536.

(** The payload reaches everyone only from an administrator. *)
Definition publish_event i (payload : string) (f : feed) : feed * response :=
  if (MAX_EVENT_PAYLOAD <? String.length payload)%nat then (f, answer 413 EngineText)
  else ((emit (if is_admin i then Everyone else Owner (ai_owner i)) payload f).1, answer 200 (Text "published")).
End routes.
