(* ===== verification/RoutesTheorems.v ===== *)
(** * What requests can and cannot do

    Ownership across the writing requests of [Routes.v], run alone; and the
    requests on which the handlers do not do what their documentation says. *)

From Stdlib Require Import ZArith Lia SpecFloat Ascii String.
From stdpp Require Import base tactics list strings option gmap sorting.
From S2P Require Import Prelude Binary BTree BTreeCells Keys Json GoLower OrderKey Predicate Search Entities Wal Transaction Engine EngineRep EngineApply EngineOps EngineTheorems Query QueryScan QueryRows QueryPaths QueryText QueryTheorems QueryPaging QueryGroup Lower Mutate Constraints LowerView Referential LowerExamples Feed Routes.


(** The requests that write nodes. *)
Inductive node_request (N : Type) :=
| RCreate (r : CreateNodeRequest)
| RUpdate (address : string) (r : UpdateNodeRequest)
| RDelete (address : string)
| RClaim (address : string)
| RBatch (rs : list (TxOpRequest N)).
Arguments RCreate {N} r.
Arguments RUpdate {N} address r.
Arguments RDelete {N} address.
Arguments RClaim {N} address.
Arguments RBatch {N} rs.

Section routes.
Context {St : Type} `{RecordStoreLaws St} {N : Type} `{SerdeLaws N}.
Context (cap max_ops : nat) (clock : Z -> Z).
Implicit Types (e seen : engine (St := St)) (i : AuthIdentity) (d : logical).

Definition handle i (r : node_request N) (c : counters) seen e : engine * response N :=
  match r with
  | RCreate r => create_node clock i r c seen e
  | RUpdate address r => update_node clock i address r c seen e
  | RDelete address => route_delete_node max_ops clock i address c seen e
  | RClaim address => claim_node clock i address c seen e
  | RBatch rs => route_execute_transaction cap max_ops clock i rs c seen e
  end.

(** ** Ownership *)

(** The engine a request leaves: the one it found, or that one with these operations applied. *)
Definition applied e (ops : list Operation) (e' : engine (St := St)) : Prop := e' = e \/ e' = (apply_operations (N := N) ops e).1.

Lemma admitted_applied ops e : applied e ops (apply_admitted (N := N) ops e).1.
Proof.
  unfold applied, apply_admitted. destruct (admit_operations e ops); [right|by left]. by destruct (apply_operations ops e).
Qed.

Lemma applied_nothing e : applied e [] e.
Proof. by left. Qed.

Section owner.
Context e d (Hc : consistent (N := N) e d) (Hr : e_references e = ∅) i (Hi : is_admin i = false) (c : counters).

Definition kept (e' : engine (St := St)) : Prop := exists ops, applied e ops e' /\ foreign_kept d (ai_owner i) ops.

Lemma kept_nothing : kept e.
Proof. exists []. split; [by left|]. apply (foreign_start d (ai_owner i) c). Qed.

(** Writing a node of the caller over nothing, or over a node of the caller. *)
Lemma foreign_overwrite n : n_owner n = ai_owner i -> (forall p, l_nodes d !! n_address n = Some p -> n_owner p = ai_owner i) ->
  foreign_kept d (ai_owner i) (lw_ops (push_op (OInsert n) (match l_nodes d !! n_address n with Some p => push_archive clock p (start_lowering c) | None => start_lowering c end))).
Proof.
  intros Ho Hp. cbn [push_op lw_ops]. destruct (l_nodes d !! n_address n) as [p|] eqn:E.
  - apply foreign_insert; [done| |by apply foreign_archive, foreign_start]. apply own_at_archive. intros q Hq. apply Hp. rewrite <- E. exact Hq.
  - apply foreign_insert; [done| |apply foreign_start]. intros q Hq. cbn in Hq. congruence.
Qed.

Lemma insert_kept n ops : n_owner n = ai_owner i -> (forall p, l_nodes d !! n_address n = Some p -> n_owner p = ai_owner i) ->
  insert_locked clock e n c = Ok ops -> foreign_kept d (ai_owner i) ops.
Proof.
  intros Ho Hp. unfold insert_locked. rewrite (fetch_run e d) by done. cbn [io_refusal map_err mbind result_bind]. intros [= <-]. by apply foreign_overwrite.
Qed.

Lemma foreign_edges ops edges : Forall (fun op => touches op = None) edges -> foreign_kept d (ai_owner i) ops -> foreign_kept d (ai_owner i) (ops ++ edges).
Proof.
  intros He. revert ops. induction He as [|op edges Hop _ IH]; intros ops Hf; [by rewrite app_nil_r|]. replace (ops ++ op :: edges) with ((ops ++ [op]) ++ edges) by (by rewrite <- app_assoc).
  apply IH. by apply foreign_other.
Qed.

Lemma edge_operations_touch address owner targets ops : edge_operations e address owner targets = Ok ops -> Forall (fun op => touches op = None) ops.
Proof.
  revert ops. induction targets as [|[to kind] targets IH]; intros ops; cbn [edge_operations]; [by intros [= <-]|]. destruct (_ && _); [done|].
  destruct (edge_operations e address owner targets) as [rest|]; [|done]. cbn [mbind result_bind]. intros [= <-]. constructor; [done|]. by apply IH.
Qed.

Lemma create_kept r : kept (create_node (N := N) clock i r c e e).1.
Proof.
  unfold create_node. set (n := request_node i r). rewrite (fetch_run e d) by done. destruct (_ && _); [apply kept_nothing|].
  destruct (insert_with_edges clock e n (cn_edges r) (is_admin i) c) as [ops|] eqn:E; [|apply kept_nothing].
  assert (foreign_kept d (ai_owner i) ops) as Hf.
  { unfold insert_with_edges in E. rewrite (fetch_run e d) in E by done. cbn [io_refusal map_err mbind result_bind] in E. rewrite Hi in E. cbn [orb] in E.
    pose proof (foreign_overwrite n eq_refl) as Hw. destruct (l_nodes d !! n_address n) as [p|] eqn:Hp.
    - destruct (can_write p (n_owner n)) eqn:Hcw; cbn [negb] in E; [|done]. apply String.eqb_eq in Hcw.
      destruct (edge_operations e (n_address n) (n_owner n) (cn_edges r)) as [edges|] eqn:Ee; [|done]. cbn [mbind result_bind] in E. injection E as <-.
      apply (foreign_edges (lw_ops (push_op (OInsert n) (push_archive clock p (start_lowering c))))); [by eapply edge_operations_touch|]. apply Hw. intros q [= <-]. exact Hcw.
    - destruct (edge_operations e (n_address n) (n_owner n) (cn_edges r)) as [edges|] eqn:Ee; [|done]. cbn [mbind result_bind] in E. injection E as <-.
      apply (foreign_edges [OInsert n]); [by eapply edge_operations_touch|]. by apply Hw. }
  exists ops. split; [|done]. pose proof (admitted_applied ops e) as Ha. by destruct (apply_admitted ops e) as [e' [[]|]].
Qed.

Lemma owned_write n : can_write n (ai_owner i) = true -> n_owner n = ai_owner i.
Proof. intros E. by apply String.eqb_eq in E. Qed.

Lemma writable_own address n : l_nodes d !! address = Some n -> can_write n (ai_owner i) = true -> n_address n = address /\ n_owner n = ai_owner i /\
  forall p, l_nodes d !! n_address n = Some p -> n_owner p = ai_owner i.
Proof.
  intros Hn Hw%owned_write. pose proof (view_address e d [] address n Hc Hn) as Ha. split_and!; [done|done|]. rewrite Ha. intros p Hp. congruence.
Qed.

Lemma update_kept address r : kept (update_node (N := N) clock i address r c e e).1.
Proof.
  unfold update_node. rewrite (fetch_run e d) by done. destruct (l_nodes d !! address) as [n|] eqn:Hn; [|apply kept_nothing].
  rewrite Hi. cbn [negb andb]. destruct (can_write n (ai_owner i)) eqn:Hw; cbn [negb]; [|apply kept_nothing]. destruct (writable_own _ _ Hn Hw) as (Ha & Ho & Hp).
  unfold engine_insert. destruct (insert_locked clock e (updated_node n r) c) as [ops|] eqn:E; [|apply kept_nothing]. exists ops. split; [|exact (insert_kept (updated_node n r) ops Ho Hp E)].
  pose proof (admitted_applied ops e) as Hap. by destruct (apply_admitted ops e) as [e' [[]|]].
Qed.

Lemma delete_kept address : kept (route_delete_node (N := N) max_ops clock i address c e e).1.
Proof.
  unfold route_delete_node. rewrite (fetch_run e d) by done. destruct (l_nodes d !! address) as [n|] eqn:Hn; [|apply kept_nothing].
  rewrite Hi. cbn [negb andb]. destruct (can_write n (ai_owner i)) eqn:Hw; cbn [negb]; [|apply kept_nothing]. destruct (writable_own _ _ Hn Hw) as (Ha & Ho & Hp).
  destruct (delete_node max_ops clock e address c) as [ops|] eqn:E; [|apply kept_nothing]. exists ops. split.
  - pose proof (admitted_applied ops e) as Hap. by destruct (apply_admitted ops e) as [e' [[]|]].
  - unfold delete_node in E. rewrite (fetch_run e d), Hn in E by done. cbn [tx_storage map_err mbind result_bind] in E.
    destruct (lower_delete_closure max_ops clock e [n] (start_lowering c)) as [lw|] eqn:El; [|done]. cbn [mbind result_bind] in E. injection E as <-.
    eapply foreign_closure; [exact Hr| |apply foreign_start|exact El]. intros m ->%list_elem_of_singleton p Hm. by apply Hp.
Qed.

Lemma claim_kept address : kept (claim_node (N := N) clock i address c e e).1.
Proof.
  assert (forall audience kind, (forall n, l_nodes d !! address = Some n -> can_write n (ai_owner i) = true) ->
    kept (match claim clock e address (ai_owner i) c with
          | Err NotFound => (e, answer (N := N) 404 (Text "node not found")) | Err (AlreadyClaimed by_) => (e, answer 409 (HeldBy by_)) | Err ClaimStorage => (e, answer 500 EngineText)
          | Ok ops => match apply_admitted (N := N) ops e with (e, Ok _) => (e, MkResponse 200 (Text "claimed") (Some (audience, NodeClaimed address kind (ai_owner i)))) | (e, Err _) => (e, answer 500 EngineText) end
          end).1) as Hgo.
  { intros audience kind Hw. destruct (claim clock e address (ai_owner i) c) as [ops|[| |]] eqn:E; [|apply kept_nothing|apply kept_nothing|apply kept_nothing].
    exists ops. split; [pose proof (admitted_applied ops e) as Hap; by destruct (apply_admitted ops e) as [e' [[]|]]|].
    unfold claim in E. rewrite (fetch_run e d) in E by done. cbn [map_err mbind result_bind] in E. destruct (l_nodes d !! address) as [n|] eqn:Hn; [|done].
    destruct (n_claimed_by n); [done|]. destruct (insert_locked _ _ _ _) as [ops'|] eqn:Ei; [|done]. cbn [map_err] in E. injection E as ->.
    destruct (writable_own _ _ Hn (Hw n eq_refl)) as (Ha & Ho & Hp). refine (insert_kept _ _ _ _ Ei); [exact Ho|exact Hp]. }
  unfold claim_node. rewrite (fetch_run e d) by done. destruct (l_nodes d !! address) as [n|] eqn:Hn; [|by apply Hgo].
  rewrite Hi. cbn [negb andb]. destruct (can_write n (ai_owner i)) eqn:Hw; cbn [negb]; [|apply kept_nothing]. apply Hgo. intros m [= <-]. done.
Qed.

Lemma stage_in_name rs ops touched : stage_requests (N := N) cap i e rs = Ok (ops, touched) -> Forall (in_name_of d (ai_owner i)) ops.
Proof.
  revert ops touched. induction rs as [|r rs IH]; intros ops touched; cbn [stage_requests]; [by intros [= <- _]|].
  destruct (stage_request cap i e r) as [[op t]|] eqn:E; [|done]. cbn [mbind result_bind]. destruct (stage_requests cap i e rs) as [[ops' touched']|]; [|done].
  cbn [mbind result_bind]. intros [= <- _]. constructor; [|by eapply IH]. clear IH. unfold stage_request in E. rewrite ?Hi in E. cbn [negb andb] in E.
  destruct r as [address kind co data public owner claimed|from to kind|from to kind|address|kind|kind w|address field le eq_ ab set_]; cbn [fst].
  - destruct (bool_decide _ || _) eqn:Ho; [done|]. injection E as <- _. cbn. apply orb_false_iff in Ho as [Ho _]. apply bool_decide_eq_false in Ho. by destruct owner; [destruct Ho; eexists|].
  - destruct (authorize_edge i from to e); [done|]. by injection E as <- _.
  - destruct (find_edge e _) as [[x|]|]; [|done|done]. destruct (edge_can_write x (ai_owner i)); [|done]. by injection E as <- _.
  - rewrite (fetch_run e d) in E by done. destruct (l_nodes d !! address) as [n|] eqn:Hn; [|done]. destruct (can_write n (ai_owner i)) eqn:Hw; [|done]. injection E as <- _.
    cbn [in_name_of]. intros m Hm. rewrite Hn in Hm. injection Hm as <-. by apply owned_write.
  - destruct (delete_where_targets _ _ _ _ _ _); [|done]. by injection E as <- _.
  - destruct (reject_unbounded_predicate w); [done|]. destruct (delete_where_targets _ _ _ _ _ _); [|done]. by injection E as <- _.
  - destruct (stated_expectation le eq_ ab); [|done]. by injection E as <- _.
Qed.

Lemma batch_kept rs : kept (route_execute_transaction (N := N) cap max_ops clock i rs c e e).1.
Proof.
  unfold route_execute_transaction. destruct (stage_requests cap i e rs) as [[ops touched]|] eqn:Es; [|apply kept_nothing]. pose proof (stage_in_name _ _ _ Es) as Hin.
  assert (kept (execute_transaction max_ops clock ops c e).1) as Hk.
  { unfold execute_transaction. destruct (lower_transaction max_ops clock e ops c) as [lw|] eqn:El; [|apply kept_nothing].
    repeat (case_match; [try apply kept_nothing|try apply kept_nothing]). 
    exists (lw_ops lw). split; [|eapply foreign_ops; [exact Hc|exact Hr|exact Hin|apply start_overlay|apply foreign_start|exact El]].
    right. by case_match. }
  by destruct (execute_transaction max_ops clock ops c e) as [e' [[]|[]]].
Qed.
End owner.

(** C17: A request changes no node of another owner.  With no references declared, whatever one identity without
    administrator rights asks (create, overwrite, update, delete, claim, or any batch), when its handler runs
    alone the engine is left as it was or with operations applied that keep every node of another owner
    exactly as it stood. *)
Theorem request_keeps_foreign_nodes i r c e d : consistent (N := N) e d -> e_references e = ∅ -> is_admin i = false ->
  exists ops, applied e ops (handle i r c e e).1 /\
    forall a n, l_nodes d !! a = Some n -> n_owner n <> ai_owner i -> l_nodes (after d ops) !! a = Some n.
Proof.
  intros Hc Hr Hi. assert (kept e d i (handle i r c e e).1) as (ops & Ha & Hk & _); [|by exists ops].
  destruct r; cbn [handle]; [by apply create_kept|by apply update_kept|by apply delete_kept|by apply claim_kept|by apply batch_kept].
Qed.

(** ** What an answer tells *)

Lemma absent_uncontained e a : fetch e a = Ok None -> contains_node e a = false.
Proof.
  unfold contains_node. intros Hf. apply bool_decide_eq_false. intros [raw Hraw]. revert Hf. lazy [fetch read_node node_location index_get gets node_at lift mbind mret m_bind m_ret snd]. rewrite Hraw.
  destruct (location_decode raw) as [l|]; [|done]. destruct (store_read (e_store e) l) as [[n|x|h]|]; done.
Qed.

(** A claim answers for a node the caller may not read as it answers for an address that holds nothing. *)
Theorem claim_hides_private i address c e e' n : is_admin i = false -> fetch e address = Ok (Some n) -> can_read n (ai_owner i) = false -> fetch e' address = Ok None ->
  (claim_node (N := N) clock i address c e e).2 = (claim_node (N := N) clock i address c e' e').2.
Proof.
  intros Hi Hn Hcr Ha. assert (can_write n (ai_owner i) = false) as Hw by (unfold can_read, can_write in *; by apply orb_false_iff in Hcr as [_ ?]).
  unfold claim_node, claim. by rewrite Hn, Ha, Hi, Hw, Hcr.
Qed.

(** The edge request tells an unreadable node from an absent one.  Asked for an edge from an address that holds
    nothing, it names the target as missing when the target is a private node of someone else, and the source when
    the target is absent too: the address of every private node can be probed. *)
Theorem edge_probe_reveals_private i from to kind e e' n : is_admin i = false -> fetch e from = Ok None -> fetch e' from = Ok None ->
  fetch e to = Ok (Some n) -> can_read n (ai_owner i) = false -> fetch e' to = Ok None ->
  (create_edge (N := N) i from to kind e e).2 = answer 400 (MissingEndpoint "to" to) /\
  (create_edge (N := N) i from to kind e' e').2 = answer 400 (MissingEndpoint "from" from).
Proof.
  intros Hi Hf Hf' Ht Hcr Ht'. unfold create_edge, authorize_edge. rewrite Hi, Hf, Hf', Ht, Hcr, Ht'. split; [done|].
  unfold public_endpoints, is_public. rewrite Hf'. cbn [mbind result_bind negb]. unfold insert_edge, edge_refusal. cbn [e_from]. by rewrite (absent_uncontained e' from Hf').
Qed.
End routes.

(** ** Requests on a concrete engine *)

Section examples.
Local Existing Instance list_heap.
Local Existing Instance list_heap_laws.
Local Existing Instance status_json.
Local Existing Instance status_laws.
Local Open Scope string_scope.

Definition me : AuthIdentity := MkIdentity "me" RoleUser.
Definition you : AuthIdentity := MkIdentity "you" RoleUser.
Definition here : Coordinate := {| coord_x := 0; coord_y := 0; coord_z := 0; coord_q := 0 |}.
Definition create (address data : string) (edges : list (string * string)) (if_absent : bool) : node_request double :=
  RCreate (MkCreate address "Post" here data None edges if_absent).
Definition run i (r : node_request double) seen (e : engine (St := list HeapRecord)) : engine * response double := handle (N := double) 100 10 noon i r first_ids seen e.
Definition update : node_request double := RUpdate "x" (MkUpdate "mine" None).

(** "x" is mine; then I delete it and you create it. *)
Definition mine : engine := (run me (create "x" "open" [] false) empty_engine empty_engine).1.
Definition gone : engine := (run me (RDelete "x") mine mine).1.
Definition yours : engine := (run you (create "x" "done" [] true) gone gone).1.

Lemma request_keeps_foreign_nodes_witness : exists ops, applied (N := double) post_engine ops (run you (RBatch [ReqClearKind "Post"; ReqInsertNode "d" "Post" here "open" None None None]) post_engine post_engine).1 /\
  l_nodes (foldl logical_apply post_nodes ops) !! "a" = Some (post "a" "open").
Proof.
  destruct (request_keeps_foreign_nodes (N := double) 100 10 noon you (RBatch [ReqClearKind "Post"; ReqInsertNode "d" "Post" here "open" None None None]) first_ids post_engine post_nodes) as (ops & Ha & Hk).
  - exact posts_consistent.
  - vm_compute. reflexivity.
  - reflexivity.
  - exists ops. split; [exact Ha|]. apply Hk; [vm_compute; reflexivity|vm_compute; discriminate].
Defined.

Lemma edge_probe_reveals_private_witness :
  (create_edge (N := double) me "nowhere" "x" "k" yours yours).2 = answer 400 (MissingEndpoint "to" "x") /\
  (create_edge (N := double) me "nowhere" "x" "k" gone gone).2 = answer 400 (MissingEndpoint "from" "nowhere").
Proof.
  apply (edge_probe_reveals_private (N := double) me "nowhere" "x" "k" yours gone (MkNode "x" here 0 "Post" "done" "you" None Private)); vm_compute; reflexivity.
Defined.

(** The check and the write of a request are two moments.  While an update of a node waits between them, its
    owner deletes the node and another identity creates its own at the address: the update, authorized against the
    node that is gone, replaces the other's node and takes its ownership, although asked then it is refused.  And
    two creations that both ask for an absent address both succeed, the second over the first. *)
Theorem update_race_takes_foreign_node :
  (run me (create "x" "open" [] false) empty_engine empty_engine).2.(rs_status) = 201%Z /\ (run me (RDelete "x") mine mine).2.(rs_status) = 204%Z /\
  (run you (create "x" "done" [] true) gone gone).2.(rs_status) = 201%Z /\
  fetch yours "x" = Ok (Some (MkNode "x" here 0 "Post" "done" "you" None Private)) /\
  (run me update yours yours).2.(rs_status) = 403%Z /\
  (run me update mine yours).2.(rs_status) = 200%Z /\
  fetch (run me update mine yours).1 "x" = Ok (Some (MkNode "x" here 0 "Post" "mine" "me" None Private)) /\
  (run me (create "y" "a" [] true) gone gone).2.(rs_status) = 201%Z /\
  (run me (create "y" "b" [] true) gone (run me (create "y" "a" [] true) gone gone).1).2.(rs_status) = 201%Z.
Proof. vm_compute. split_and!; reflexivity. Qed.

(** A node created with its edges is not asked whether their targets may be read: the edge that is refused alone is
    made, and its refusal tells an absent target from a private one. *)
Theorem created_edges_unchecked :
  let with_y := (run me (create "y" "a" [] false) yours yours).1 in
  (create_edge (N := double) me "y" "x" "k" with_y with_y).2 = answer 400 (MissingEndpoint "to" "x") /\
  (run me (create "y" "a" [("x", "k")] false) yours yours).2.(rs_body) = CreatedBody "y" [MkEdge "y" "x" "k" "me"] /\
  (run me (create "y" "a" [("nowhere", "k")] false) yours yours).2.(rs_status) = 400%Z.
Proof. vm_compute. split_and!; reflexivity. Qed.
End examples.
