(* ===== verification/Metrics.v ===== *)
(** * Operational metrics ([src/src/metrics.rs])

    Requests are counted by class and timed by a layer around the handlers;
    [GET /stats] closes a window when it is at least a second old and reports
    the percentiles of the requests timed in it.  The counters are shared
    without a lock and the report reads them one by one, so the two run
    together as one step relation in which every access is a step. *)

From Stdlib Require Import ZArith Lia SpecFloat Ascii String.
From stdpp Require Import base tactics list strings option sorting relations.
From S2P Require Import Prelude Utf8 Json GoLower Text Limits Histogram Cells.

(** ** Classes *)

Inductive RequestClass := RcRead | RcWrite | RcExcluded | RcUnclassified.

#[export] Instance request_class_eq_dec : EqDecision RequestClass.
Proof. solve_decision. Defined.

Definition read_patterns : list string :=
  ["/node/:address/history"; "/node/:address/owned"; "/node/:address/edges/out"; "/node/:address/edges/in"; "/nodes"; "/nodes/multiget"; "/nodes/query";
   "/nodes/count"; "/nodes/count_by"; "/nodes/aggregate"; "/nodes/aggregate_by"]%string.
Definition write_patterns : list string := ["/node/:address/claim"; "/sequence/:name/next"; "/edge"; "/transaction"]%string.
Definition excluded_patterns : list string := ["/publish"; "/stats"; "/"; "/events"; "/changes"]%string.

(** [classify], by the pattern that matched. *)
Definition classify (method matched : string) : RequestClass :=
  if decide (matched = "/node") then if decide (method = "POST") then RcWrite else RcUnclassified
  else if decide (matched = "/node/:address") then
    if decide (method = "GET") then RcRead else if decide (method = "PUT" \/ method = "DELETE") then RcWrite else RcUnclassified
  else if decide (matched ∈ read_patterns) then RcRead
  else if decide (matched ∈ write_patterns) then RcWrite
  else if decide (matched ∈ excluded_patterns) then RcExcluded
  else if String.prefix "/admin/" matched then RcExcluded
  else RcUnclassified.

(** ** The registry *)

Local Open Scope Z_scope.

Record WindowStats := MkWindowStats {
  ws_duration_ms : Z; ws_age_ms : Z; ws_cpu_utilization : option f64; ws_read_latency : LatencyStats; ws_write_latency : LatencyStats
}.

Definition window_stats_default : WindowStats := MkWindowStats 0 0 None latency_default latency_default.

Record Window := MkWindow {
  wi_opened : Z; wi_closed : option Z; wi_cpu_at_open : option f64; wi_read_at_open : list Z; wi_write_at_open : list Z; wi_last : WindowStats
}.

Definition window_new (now : Z) (cpu : option f64) : Window := MkWindow now None cpu histogram_new histogram_new window_stats_default.

Record Registry := MkRegistry {
  rg_started : Z; rg_total : Z; rg_read : Z; rg_write : Z; rg_excluded : Z; rg_unclassified : Z;
  rg_read_latency : list Z; rg_write_latency : list Z; rg_queue_depth : Z; rg_queue_contended : Z; rg_window : Window
}.

Definition registry_new (now : Z) (cpu : option f64) : Registry := MkRegistry now 0 0 0 0 0 histogram_new histogram_new 0 0 (window_new now cpu).

(** ** A request through [observe] *)

Definition class_of_request (method : string) (matched : option string) : RequestClass :=
  match matched with Some path => classify method path | None => RcUnclassified end.

Definition count_total (r : Registry) : Registry :=
  MkRegistry (rg_started r) (fetch_add 1 (rg_total r)) (rg_read r) (rg_write r) (rg_excluded r) (rg_unclassified r) (rg_read_latency r) (rg_write_latency r) (rg_queue_depth r) (rg_queue_contended r) (rg_window r).

Definition count_class (c : RequestClass) (r : Registry) : Registry :=
  let add d x := if decide (c = d) then fetch_add 1 x else x in
  MkRegistry (rg_started r) (rg_total r) (add RcRead (rg_read r)) (add RcWrite (rg_write r)) (add RcExcluded (rg_excluded r)) (add RcUnclassified (rg_unclassified r))
    (rg_read_latency r) (rg_write_latency r) (rg_queue_depth r) (rg_queue_contended r) (rg_window r).

(** [started.elapsed().as_micros().min(u64::MAX)] *)
Definition micros (started finished : Z) : Z := Z.min (Z.max 0 (finished - started) / 1000) U64_MAX.

Definition record_latency (c : RequestClass) (us : Z) (r : Registry) : Registry :=
  let add d h := if decide (c = d) then histogram_record us h else h in
  MkRegistry (rg_started r) (rg_total r) (rg_read r) (rg_write r) (rg_excluded r) (rg_unclassified r) (add RcRead (rg_read_latency r)) (add RcWrite (rg_write_latency r))
    (rg_queue_depth r) (rg_queue_contended r) (rg_window r).

(** [observe] by itself, around a handler that starts and finishes at these times. *)
Definition observe (method : string) (matched : option string) (started finished : Z) (r : Registry) : Registry :=
  let c := class_of_request method matched in
  record_latency c (micros started finished) (count_class c (count_total r)).

Definition set_queue (depth contended : Z) (r : Registry) : Registry :=
  MkRegistry (rg_started r) (rg_total r) (rg_read r) (rg_write r) (rg_excluded r) (rg_unclassified r) (rg_read_latency r) (rg_write_latency r) depth contended (rg_window r).

Definition enter_write_queue (r : Registry) : Registry :=
  set_queue (fetch_add 1 (rg_queue_depth r)) (if 0 <? rg_queue_depth r then fetch_add 1 (rg_queue_contended r) else rg_queue_contended r) r.

Definition leave_write_queue (r : Registry) : Registry := set_queue (fetch_add (-1) (rg_queue_depth r)) (rg_queue_contended r) r.

(** ** Windows *)

Definition MIN_WINDOW : Z := NANOS_PER_SEC.

(** [f64::clamp(0.0, 1.0)] *)
Definition clamp01 (x : f64) : f64 :=
  match SFcompare x f64_zero with
  | Some Lt => f64_zero
  | _ => match SFcompare x f64_one with Some Gt => f64_one | _ => x end
  end.

Definition window_elapsed (w : Window) (now : Z) : Z := Z.max 0 (now - wi_opened w).

Definition cpu_utilization (before after cores : option f64) (seconds : f64) : option f64 :=
  match before, after, cores with
  | Some before, Some after, Some cores =>
      if f64_gt cores f64_zero && f64_gt seconds f64_zero then Some (clamp01 (f64_div (f64_sub after before) (f64_mul seconds cores))) else None
  | _, _, _ => None
  end.

(** The window that is old enough is closed with the counts that were loaded, and the next one opened. *)
Definition close_window (now : Z) (read_now write_now : list Z) (cpu_now cores : option f64) (w : Window) : Window :=
  let stats := MkWindowStats (Z.min (window_elapsed w now / 1000000) U64_MAX) 0 (cpu_utilization (wi_cpu_at_open w) cpu_now cores (elapsed (wi_opened w) now))
    (from_delta (window_delta read_now (wi_read_at_open w))) (from_delta (window_delta write_now (wi_write_at_open w))) in
  MkWindow now (Some now) cpu_now read_now write_now stats.

(** What is returned: the newest closed window and its age. *)
Definition newest_window (now : Z) (w : Window) : WindowStats :=
  let age := match wi_closed w with Some closed => Z.min (Z.max 0 (now - closed) / 1000000) U64_MAX | None => 0 end in
  MkWindowStats (ws_duration_ms (wi_last w)) age (ws_cpu_utilization (wi_last w)) (ws_read_latency (wi_last w)) (ws_write_latency (wi_last w)).

Definition set_window (w : Window) (r : Registry) : Registry :=
  MkRegistry (rg_started r) (rg_total r) (rg_read r) (rg_write r) (rg_excluded r) (rg_unclassified r) (rg_read_latency r) (rg_write_latency r) (rg_queue_depth r) (rg_queue_contended r) w.

(** [window_stats] when nothing runs beside it. *)
Definition window_stats (now : Z) (cpu_now cores : option f64) (r : Registry) : Registry * WindowStats :=
  let w := if MIN_WINDOW <=? window_elapsed (rg_window r) now then close_window now (rg_read_latency r) (rg_write_latency r) cpu_now cores (rg_window r) else rg_window r in
  (set_window w r, newest_window now w).

(** ** The process *)

Definition seconds_of (sec usec : Z) : f64 := f64_add (f64_of_Z sec) (f64_div (f64_of_Z usec) (f64_of_Z 1000000)).

(** User and system time of [getrusage], or nothing when it fails. *)
Definition cpu_seconds_total (usage : option ((Z * Z) * (Z * Z))) : option f64 :=
  match usage with Some (u, s) => Some (f64_add (seconds_of u.1 u.2) (seconds_of s.1 s.2)) | None => None end.

(** [str::parse::<u64>] *)
Definition parse_u64 (s : string) : option Z :=
  let l := match as_bytes s with 43 :: l => l | l => l end in
  match digits l with
  | ([], _) => None
  | (ds, []) => if number_of ds <? 2 ^ 64 then Some (number_of ds) else None
  | _ => None
  end.

(** [str::split_whitespace], of the characters; [word] is the piece being read. *)
Fixpoint words (word : list Z) (l : list Z) : list string :=
  match l with
  | [] => match word with [] => [] | _ => [text_of (rev word)] end
  | c :: l => if is_whitespace c then match word with [] => words [] l | _ => text_of (rev word) :: words [] l end else words (c :: word) l
  end.

Definition split_whitespace (s : string) : list string := words [] (chars_of (as_bytes s)).

(** [/proc/self/statm]: the second field, in pages. *)
Definition resident_bytes (statm : option string) (page_size : Z) : option Z :=
  match statm with
  | None => None
  | Some statm =>
      match split_whitespace statm !! 1%nat with
      | None => None
      | Some field =>
          match parse_u64 field with
          | None => None
          | Some pages => if page_size <=? 0 then None else Some ((pages * page_size) mod 2 ^ 64)
          end
      end
  end.

Inductive LimitSource := Cgroup | System.

(** The first line of [/proc/meminfo] with this prefix, its second word, in kilobytes. *)
Definition mem_total (meminfo : string) : option Z :=
  match find (String.prefix "MemTotal:") (split_on "010" meminfo) with
  | None => None
  | Some line => match split_whitespace line !! 1%nat with None => None | Some kb => match parse_u64 kb with Some kb => Some ((kb * 1024) mod 2 ^ 64) | None => None end end
  end.

Definition parse_file (text : option string) : option Z := match text with Some text => parse_u64 (trim text) | None => None end.

(** [probe_memory_limit], with the files it reads. *)
Definition probe_memory_limit (meminfo cgroup_v2 cgroup_v1 : option string) : option (Z * LimitSource) :=
  let system := match meminfo with Some text => mem_total text | None => None end in
  let cgroup := match parse_file cgroup_v2 with Some n => Some n | None => parse_file cgroup_v1 end in
  match cgroup, system with
  | Some limit, Some total => if limit <? total then Some (limit, Cgroup) else Some (total, System)
  | None, Some total => Some (total, System)
  | Some limit, None => Some (limit, Cgroup)
  | None, None => None
  end.

Record ProcessStats := MkProcess {
  ps_cpu_seconds_total : option f64; ps_cpu_cores : option Z; ps_resident_bytes : option Z; ps_memory_limit_bytes : option Z;
  ps_memory_limit_source : option LimitSource; ps_memory_utilization : option f64
}.

Definition process_stats (cpu : option f64) (cores resident : option Z) (limit : option (Z * LimitSource)) : ProcessStats :=
  MkProcess cpu cores resident (fst <$> limit) (snd <$> limit)
    match resident, limit with
    | Some resident, Some (limit, _) => if 0 <? limit then Some (clamp01 (f64_div (f64_of_Z resident) (f64_of_Z limit))) else None
    | _, _ => None
    end.

(** ** Everything at once *)

Record RequestStats := MkRequestStats {
  qs_total : Z; qs_read : Z; qs_write : Z; qs_excluded : Z; qs_unclassified : Z; qs_in_flight : Z; qs_max_concurrent : Z;
  qs_write_queue_depth : Z; qs_write_queue_contended_total : Z
}.

Record RuntimeStats := MkRuntime { ru_uptime_seconds : Z; ru_requests : RequestStats; ru_window : WindowStats; ru_process : ProcessStats }.

Definition snapshot (now : Z) (available max : nat) (cpu_now : option f64) (cores : option Z) (resident : option Z) (limit : option (Z * LimitSource)) (r : Registry) : Registry * RuntimeStats :=
  let requests := MkRequestStats (rg_total r) (rg_read r) (rg_write r) (rg_excluded r) (rg_unclassified r) (Z.of_nat (in_flight_requests max available)) (Z.of_nat max)
    (rg_queue_depth r) (rg_queue_contended r) in
  let '(r, window) := window_stats now cpu_now (f64_of_Z <$> cores) r in
  (r, MkRuntime (Z.max 0 (now - rg_started r) / NANOS_PER_SEC) requests window (process_stats cpu_now cores resident limit)).

(** ** Requests and a report together *)

Inductive request_pc := Started | Totalled | Classed | Timed.

#[export] Instance request_pc_eq_dec : EqDecision request_pc.
Proof. solve_decision. Defined.

(** A request: how it was routed, how long its handler takes, and where [observe] stands. *)
Record request := MkRequest { rq_method : string; rq_matched : option string; rq_micros : Z; rq_pc : request_pc }.

Definition rq_class (q : request) : RequestClass := class_of_request (rq_method q) (rq_matched q).
Definition rq_at (q : request) (pc : request_pc) : request := MkRequest (rq_method q) (rq_matched q) (rq_micros q) pc.

Definition observe_step (q : request) (r : Registry) : option (Registry * request_pc) :=
  match rq_pc q with
  | Started => Some (count_total r, Totalled)
  | Totalled => Some (count_class (rq_class q) r, Classed)
  | Classed => Some (record_latency (rq_class q) (rq_micros q) r, Timed)
  | Timed => None
  end.

(** A report that closes a window: the time it took first, and the buckets it has loaded so far. *)
Inductive poll := PollRead (now : Z) (loaded : list Z) | PollWrite (now : Z) (read_now loaded : list Z).

(** The next load. *)
Definition poll_step (p : poll) (r : Registry) : option poll :=
  match p with
  | PollRead now loaded =>
      Some match rg_read_latency r !! length loaded with Some n => PollRead now (loaded ++ [n]) | None => PollWrite now loaded [] end
  | PollWrite now read_now loaded =>
      match rg_write_latency r !! length loaded with Some n => Some (PollWrite now read_now (loaded ++ [n])) | None => None end
  end.

(** The registry, the requests so far, the report that holds the mutex, and the windows closed so far. *)
Record metrics_state := MkMetrics { mt_registry : Registry; mt_requests : list request; mt_poll : option poll; mt_windows : list WindowStats }.

Definition metrics_start (now : Z) (cpu : option f64) : metrics_state := MkMetrics (registry_new now cpu) [] None [].

Inductive metrics_step : metrics_state -> metrics_state -> Prop :=
| metrics_arrive r qs p ws method matched us : is_u64 us ->
    metrics_step (MkMetrics r qs p ws) (MkMetrics r (qs ++ [MkRequest method matched us Started]) p ws)
| metrics_observe r qs p ws i q r' pc : qs !! i = Some q -> observe_step q r = Some (r', pc) ->
    metrics_step (MkMetrics r qs p ws) (MkMetrics r' (<[i := rq_at q pc]> qs) p ws)
| metrics_enter r qs p ws : metrics_step (MkMetrics r qs p ws) (MkMetrics (enter_write_queue r) qs p ws)
| metrics_leave r qs p ws : metrics_step (MkMetrics r qs p ws) (MkMetrics (leave_write_queue r) qs p ws)
| metrics_poll r qs ws now : MIN_WINDOW <= window_elapsed (rg_window r) now ->
    metrics_step (MkMetrics r qs None ws) (MkMetrics r qs (Some (PollRead now [])) ws)
| metrics_load r qs p p' ws : poll_step p r = Some p' -> metrics_step (MkMetrics r qs (Some p) ws) (MkMetrics r qs (Some p') ws)
| metrics_close r qs now read_now write_now cpu_now cores ws : poll_step (PollWrite now read_now write_now) r = None ->
    metrics_step (MkMetrics r qs (Some (PollWrite now read_now write_now)) ws)
      (let w := close_window now read_now write_now cpu_now cores (rg_window r) in MkMetrics (set_window w r) qs None (ws ++ [wi_last w])).

(** ** What the windows report *)

Definition class_of_kind (write : bool) : RequestClass := if write then RcWrite else RcRead.

(** The latencies recorded for reads or writes. *)
Definition timed (write : bool) (qs : list request) : list Z :=
  map rq_micros (filter (fun q => rq_pc q = Timed /\ rq_class q = class_of_kind write) qs).

Definition latency (r : Registry) (write : bool) : list Z := if write then rg_write_latency r else rg_read_latency r.
Definition at_open (w : Window) (write : bool) : list Z := if write then wi_write_at_open w else wi_read_at_open w.
Definition reported_latency (write : bool) (s : WindowStats) : LatencyStats := if write then ws_write_latency s else ws_read_latency s.

(** The buckets that a report in progress has loaded. *)
Definition loads (write : bool) (p : option poll) : list Z :=
  match p, write with
  | Some (PollRead _ l), false | Some (PollWrite _ l _), false | Some (PollWrite _ _ l), true => l
  | _, _ => []
  end.

Lemma in_bucket_perm xs ys i : xs ≡ₚ ys -> in_bucket xs i = in_bucket ys i.
Proof. intros H. unfold in_bucket. by rewrite (Permutation_length (filter_Permutation _ _ _ H)). Qed.

Lemma tally_perm xs ys : xs ≡ₚ ys -> tally xs = tally ys.
Proof. intros H. apply map_ext. intros i. by apply in_bucket_perm. Qed.

Lemma in_bucket_app xs ys i : in_bucket (xs ++ ys) i = in_bucket xs i + in_bucket ys i.
Proof. unfold in_bucket. rewrite filter_app, length_app. lia. Qed.

(** The samples, split into those of the windows closed so far, those the report in progress has loaded, and the rest. *)
Record split_ok (write : bool) (st : metrics_state) (parts : list (list Z)) (seen rest : list Z) : Prop := {
  so_samples : timed write (mt_requests st) ≡ₚ concat parts ++ seen ++ rest;
  so_counts : latency (mt_registry st) write = tally (timed write (mt_requests st));
  so_open : at_open (rg_window (mt_registry st)) write = tally (concat parts);
  so_windows : Forall2 (fun s xs => reported_latency write s = from_delta (tally xs)) (mt_windows st) parts;
  so_loads : loads write (mt_poll st) = take (length (loads write (mt_poll st))) (tally (concat parts ++ seen));
  so_seen : Forall (fun x => bucket_index x < Z.of_nat (length (loads write (mt_poll st)))) seen
}.

Definition splits (st : metrics_state) : Prop := forall write, exists parts seen rest, split_ok write st parts seen rest.

(** Requests in the stages that a counter has counted. *)
Definition past_total (q : request) : Z := if decide (rq_pc q = Started) then 0 else 1.
Definition past_class (c : RequestClass) (q : request) : Z := if decide ((rq_pc q = Classed \/ rq_pc q = Timed) /\ rq_class q = c) then 1 else 0.

Definition class_counter (r : Registry) (c : RequestClass) : Z :=
  match c with RcRead => rg_read r | RcWrite => rg_write r | RcExcluded => rg_excluded r | RcUnclassified => rg_unclassified r end.

Record metrics_ok (st : metrics_state) : Prop := {
  mo_splits : splits st;
  mo_total : rg_total (mt_registry st) = total past_total (mt_requests st) mod 2 ^ 64;
  mo_class : forall c, class_counter (mt_registry st) c = total (past_class c) (mt_requests st) mod 2 ^ 64;
  mo_micros : Forall (fun q => is_u64 (rq_micros q)) (mt_requests st);
  mo_poll : match mt_poll st with Some (PollWrite _ read_now _) => length read_now = BUCKET_COUNT | _ => True end
}.

Lemma timed_length write qs : (length (timed write qs) <= length qs)%nat.
Proof. unfold timed. rewrite length_map. apply length_filter. Qed.

Lemma timed_u64 write qs : Forall (fun q => is_u64 (rq_micros q)) qs -> Forall is_u64 (timed write qs).
Proof. intros H. apply Forall_map, (Forall_filter (fun q => is_u64 (rq_micros q))). done. Qed.

Lemma timed_app write qs qs' : timed write (qs ++ qs') = timed write qs ++ timed write qs'.
Proof. unfold timed. by rewrite filter_app, map_app. Qed.

Lemma timed_insert write qs i q q' : qs !! i = Some q -> timed write (<[i := q']> qs) ≡ₚ timed write (q' :: delete i qs) /\ timed write qs ≡ₚ timed write (q :: delete i qs).
Proof.
  intros Hi. assert (Hlt : (i < length qs)%nat) by by eapply lookup_lt_Some. split; apply fmap_Permutation, filter_Permutation.
  - rewrite (delete_take_drop qs i), insert_take_drop by done. by rewrite Permutation_middle.
  - by apply delete_Permutation.
Qed.

Lemma length_tally xs : length (tally xs) = BUCKET_COUNT.
Proof. unfold tally. by rewrite length_map, length_seq. Qed.

(** ** Steps *)

(** A step that times no request and touches no window. *)
Lemma split_same w st st' : (exists parts seen rest, split_ok w st parts seen rest) -> timed w (mt_requests st') ≡ₚ timed w (mt_requests st) ->
  latency (mt_registry st') w = latency (mt_registry st) w -> rg_window (mt_registry st') = rg_window (mt_registry st) -> loads w (mt_poll st') = loads w (mt_poll st) ->
  mt_windows st' = mt_windows st -> exists parts seen rest, split_ok w st' parts seen rest.
Proof.
  intros (parts & seen & rest & [H1 H2 H3 H4 H5 H6]) Ht Hl Hw Hp Hws. exists parts, seen, rest. split; rewrite ?Hl, ?Hw, ?Hp, ?Hws; try done.
  - by rewrite Ht.
  - rewrite H2. apply tally_perm. by rewrite Ht.
Qed.

Lemma splits_same st st' : splits st -> (forall w, timed w (mt_requests st') ≡ₚ timed w (mt_requests st)) -> (forall w, latency (mt_registry st') w = latency (mt_registry st) w) ->
  rg_window (mt_registry st') = rg_window (mt_registry st) -> (forall w, loads w (mt_poll st') = loads w (mt_poll st)) -> mt_windows st' = mt_windows st -> splits st'.
Proof. intros Hs Ht Hl Hw Hp Hws w. by apply (split_same w st). Qed.

(** A request that is timed goes to the samples no report has loaded. *)
Lemma split_timed r r' qs qs' p ws w us : (exists parts seen rest, split_ok w (MkMetrics r qs p ws) parts seen rest) -> timed w qs' ≡ₚ timed w qs ++ [us] -> is_u64 us ->
  Z.of_nat (length (timed w qs)) < U64_MAX -> latency r' w = histogram_record us (latency r w) -> rg_window r' = rg_window r ->
  exists parts seen rest, split_ok w (MkMetrics r' qs' p ws) parts seen rest.
Proof.
  intros (parts & seen & rest & [H1 H2 H3 H4 H5 H6]) Ht Hu Hn Hl Hw. cbn [mt_registry mt_requests mt_poll mt_windows] in *. exists parts, seen, (rest ++ [us]).
  split; cbn [mt_registry mt_requests mt_poll mt_windows]; rewrite ?Hw; try done.
  - by rewrite Ht, H1, <- !app_assoc.
  - rewrite Hl, H2, record_tally by done. apply tally_perm. by rewrite Ht.
Qed.

Lemma take_S_tally n xs : (n < BUCKET_COUNT)%nat -> take (S n) (tally xs) = take n (tally xs) ++ [in_bucket xs n].
Proof. intros Hn. by apply take_S_r, lookup_tally. Qed.

Lemma take_tally_ext n xs ys : (forall i, (i < n)%nat -> in_bucket xs i = in_bucket ys i) -> take n (tally xs) = take n (tally ys).
Proof.
  intros H. apply list_eq. intros i. destruct (decide (i < n)%nat) as [Hi|Hi]; [|by rewrite !lookup_take_ge by lia]. rewrite !lookup_take_lt by done.
  destruct (decide (i < BUCKET_COUNT)%nat) as [Hb|Hb]; [by rewrite !lookup_tally, H by done|]. trans (@None Z); [|symmetry]; apply lookup_ge_None_2; rewrite length_tally; lia.
Qed.

Lemma in_bucket_filter xs n : in_bucket (filter (fun x => bucket_index x = Z.of_nat n) xs) n = in_bucket xs n.
Proof. unfold in_bucket. f_equal. f_equal. rewrite list_filter_filter. apply list_filter_iff. tauto. Qed.

Lemma in_bucket_none xs n : Forall (fun x => bucket_index x <> Z.of_nat n) xs -> in_bucket xs n = 0.
Proof. intros H. unfold in_bucket. by rewrite filter_none. Qed.

(** Loading the count of a bucket claims the samples of that bucket. *)
Lemma split_load r qs p p' ws w n : (exists parts seen rest, split_ok w (MkMetrics r qs (Some p) ws) parts seen rest) ->
  latency r w !! length (loads w (Some p)) = Some n -> loads w (Some p') = loads w (Some p) ++ [n] ->
  exists parts seen rest, split_ok w (MkMetrics r qs (Some p') ws) parts seen rest.
Proof.
  intros (parts & seen & rest & [H1 H2 H3 H4 H5 H6]) Hn Hp. cbn [mt_registry mt_requests mt_poll mt_windows] in *. set (k := length (loads w (Some p))) in *.
  assert (Hk : (k < BUCKET_COUNT)%nat) by (rewrite <- (length_tally (timed w qs)), <- H2; by eapply lookup_lt_Some).
  set (new := filter (fun x => bucket_index x = Z.of_nat k) rest). set (old := filter (fun x => bucket_index x <> Z.of_nat k) rest).
  assert (Hperm : rest ≡ₚ new ++ old) by (symmetry; apply (filter_app_complement (fun x => bucket_index x = Z.of_nat k) rest)).
  assert (Hnew : Forall (fun x => bucket_index x = Z.of_nat k) new) by (apply Forall_forall; by intros x [? _]%list_elem_of_filter).
  assert (Hold : Forall (fun x => bucket_index x <> Z.of_nat k) old) by (apply Forall_forall; by intros x [? _]%list_elem_of_filter).
  assert (El : length (loads w (Some p')) = S k) by (rewrite Hp, length_app; cbn; lia).
  assert (En : n = in_bucket (concat parts ++ seen ++ new) k).
  { rewrite H2, lookup_tally in Hn by done. injection Hn as <-. rewrite (in_bucket_perm _ _ k H1), !in_bucket_app, (in_bucket_perm _ _ k Hperm), in_bucket_app, (in_bucket_none old) by done. lia. }
  exists parts, (seen ++ new), old. split; cbn [mt_registry mt_requests mt_poll mt_windows]; [by rewrite H1, Hperm, !app_assoc|done|done|done| |].
  - rewrite El, Hp, H5, En, take_S_tally by done. f_equal. apply take_tally_ext. intros i Hi. rewrite !in_bucket_app. rewrite (in_bucket_none new); [lia|]. apply (Forall_impl _ _ _ Hnew). intros x ->. lia.
  - rewrite El. apply Forall_app. split; [apply (Forall_impl _ _ _ H6)|apply (Forall_impl _ _ _ Hnew)]; intros x Hx; lia.
Qed.

(** Closing a window whose buckets were all loaded. *)
Lemma split_close r qs p ws w s win : (exists parts seen rest, split_ok w (MkMetrics r qs (Some p) ws) parts seen rest) -> length (loads w (Some p)) = BUCKET_COUNT ->
  at_open win w = loads w (Some p) -> reported_latency w s = from_delta (window_delta (loads w (Some p)) (at_open (rg_window r) w)) ->
  exists parts seen rest, split_ok w (MkMetrics (set_window win r) qs None (ws ++ [s])) parts seen rest.
Proof.
  intros (parts & seen & rest & [H1 H2 H3 H4 H5 H6]) Hlen Hopen Hs. cbn [mt_registry mt_requests mt_poll mt_windows] in *. rewrite Hlen in H5.
  assert (Hl : loads w (Some p) = tally (concat parts ++ seen)) by (rewrite H5; apply take_ge; by rewrite length_tally).
  exists (parts ++ [seen]), [], rest. split; cbn [mt_registry mt_requests mt_poll mt_windows rg_window set_window]; rewrite ?concat_app; cbn [concat]; rewrite ?app_nil_r.
  - by rewrite H1, <- app_assoc.
  - by destruct w.
  - by rewrite Hopen.
  - apply Forall2_app; [done|]. constructor; [|constructor]. by rewrite Hs, Hl, H3, tally_window.
  - by destruct w.
  - constructor.
Qed.

(** What the stage of a request contributes to the samples. *)
Lemma timed_one w q : timed w [q] = if decide (rq_pc q = Timed /\ rq_class q = class_of_kind w) then [rq_micros q] else [].
Proof. unfold timed. rewrite filter_cons, filter_nil. by case_decide. Qed.

Lemma timed_cons w q qs : timed w (q :: qs) = timed w [q] ++ timed w qs.
Proof. apply (timed_app w [q] qs). Qed.

Lemma timed_move w qs i q pc : qs !! i = Some q -> rq_pc q <> Timed ->
  timed w (<[i := rq_at q pc]> qs) ≡ₚ timed w qs ++ (if decide (pc = Timed /\ rq_class q = class_of_kind w) then [rq_micros q] else []).
Proof.
  intros Hi Hq. destruct (timed_insert w qs i q (rq_at q pc) Hi) as [-> ->]. rewrite !(timed_cons w _ (delete i qs)), !timed_one. change (rq_class (rq_at q pc)) with (rq_class q). cbn [rq_pc rq_at rq_micros].
  rewrite (decide_False (P := rq_pc q = Timed /\ _)) by tauto. cbn [app]. by rewrite Permutation_app_comm.
Qed.

Lemma observe_untimed q r r' pc : observe_step q r = Some (r', pc) -> rq_pc q <> Timed.
Proof. unfold observe_step. by destruct (rq_pc q). Qed.

Lemma splits_observe r qs p ws i q r' pc : splits (MkMetrics r qs p ws) -> Forall (fun q => is_u64 (rq_micros q)) qs -> qs !! i = Some q -> Z.of_nat (length qs) < 2 ^ 64 ->
  observe_step q r = Some (r', pc) -> splits (MkMetrics r' (<[i := rq_at q pc]> qs) p ws).
Proof.
  intros Hs Hm Hi Hn Hstep. pose proof (observe_untimed _ _ _ _ Hstep) as Hq. assert (Ht := fun w => timed_move w qs i q pc Hi Hq). destruct (decide (pc = Timed)) as [->|Hpc].
  - unfold observe_step in Hstep. destruct (rq_pc q); simplify_eq. intros w. specialize (Ht w). destruct (decide (rq_class q = class_of_kind w)) as [Hc|Hc].
    + rewrite decide_True in Ht by done. eapply (split_timed r _ qs); [apply Hs|exact Ht|by eapply (Forall_lookup_1 _ _ _ _ Hm Hi)| | |done].
      * assert (length (timed w (<[i := rq_at q Timed]> qs)) = S (length (timed w qs))) by (rewrite Ht, length_app; cbn; lia).
        pose proof (timed_length w (<[i := rq_at q Timed]> qs)). rewrite length_insert in *. unfold U64_MAX. lia.
      * rewrite Hc. by destruct w.
    + rewrite decide_False, app_nil_r in Ht by tauto. destruct (Hs w) as (parts & seen & rest & [H1 H2 H3 H4 H5 H6]). exists parts, seen, rest. cbn [mt_registry mt_requests mt_poll mt_windows] in *.
      split; cbn [mt_registry mt_requests mt_poll mt_windows]; try done; [by rewrite Ht|]. rewrite (tally_perm _ _ Ht), <- H2. unfold record_latency, latency. destruct w; cbn in *; by rewrite decide_False.
  - apply (splits_same (MkMetrics r qs p ws)); [done|..]; cbn [mt_registry mt_requests mt_poll mt_windows]; try done.
    + intros w. rewrite (Ht w), decide_False, app_nil_r by tauto. done.
    + unfold observe_step in Hstep. destruct (rq_pc q); simplify_eq; by intros [].
    + unfold observe_step in Hstep. by destruct (rq_pc q); simplify_eq.
Qed.

Lemma splits_poll r qs p p' ws : splits (MkMetrics r qs (Some p) ws) -> poll_step p r = Some p' -> splits (MkMetrics r qs (Some p') ws).
Proof.
  intros Hs Hp w. unfold poll_step in Hp. destruct p as [now loaded|now read_now loaded].
  - destruct (rg_read_latency r !! length loaded) as [n|] eqn:E; simplify_eq.
    + destruct w; [by apply (split_same true (MkMetrics r qs (Some (PollRead now loaded)) ws))|]. eapply split_load; [apply Hs|exact E|done].
    + apply (split_same w (MkMetrics r qs (Some (PollRead now loaded)) ws)); by destruct w.
  - destruct (rg_write_latency r !! length loaded) as [n|] eqn:E; simplify_eq.
    destruct w; [|by apply (split_same false (MkMetrics r qs (Some (PollWrite now read_now loaded)) ws))]. eapply split_load; [apply Hs|exact E|done].
Qed.

(** The counters of requests. *)
Lemma counters_observe r qs i q r' pc : rg_total r = total past_total qs mod 2 ^ 64 -> (forall c, class_counter r c = total (past_class c) qs mod 2 ^ 64) -> qs !! i = Some q ->
  observe_step q r = Some (r', pc) ->
  rg_total r' = total past_total (<[i := rq_at q pc]> qs) mod 2 ^ 64 /\ (forall c, class_counter r' c = total (past_class c) (<[i := rq_at q pc]> qs) mod 2 ^ 64).
Proof.
  intros Ht Hc Hi Hstep. rewrite (total_insert _ _ _ _ _ Hi). assert (Hins := fun c => total_insert (past_class c) qs i q (rq_at q pc) Hi).
  assert (Hsame : forall c, past_class c (rq_at q pc) = past_class c q -> total (past_class c) (<[i := rq_at q pc]> qs) = total (past_class c) qs) by (intros c E; rewrite Hins, E; lia).
  unfold observe_step in Hstep. destruct (rq_pc q) eqn:Epc; simplify_eq; unfold past_total at 2 3; cbn [rq_pc rq_at]; rewrite Epc.
  - split; [rewrite decide_True, decide_False by done; cbn [rg_total count_total]; rewrite Ht, add_total; f_equal; lia|]. intros c. rewrite Hsame; [apply Hc|]. unfold past_class. cbn. rewrite Epc. rewrite !decide_False by (intros [[|] _]; done). done.
  - split; [rewrite !decide_False by done; cbn [rg_total count_class]; rewrite Ht; f_equal; lia|]. intros c. rewrite Hins. specialize (Hc c). unfold past_class at 2 3. cbn [rq_pc rq_at]. change (rq_class (rq_at q Classed)) with (rq_class q).
    rewrite Epc, (decide_False (P := (Totalled = Classed \/ _) /\ _)) by (intros [[|] _]; done). destruct (decide (rq_class q = c)) as [<-|Hne].
    + rewrite decide_True by tauto. destruct (rq_class q) eqn:E; cbn in *; rewrite Hc, add_total; f_equal; lia.
    + rewrite decide_False by tauto. assert (E : class_counter (count_class (rq_class q) r) c = class_counter r c) by (destruct c; cbn; by rewrite decide_False). rewrite E, Hc. f_equal; lia.
  - split; [rewrite !decide_False by done; cbn [rg_total record_latency]; rewrite Ht; f_equal; lia|]. intros c. rewrite Hsame; [rewrite <- (Hc c); by destruct c|]. unfold past_class. cbn. rewrite Epc. change (rq_class (rq_at q Timed)) with (rq_class q).
    destruct (decide (rq_class q = c)); [rewrite !decide_True by tauto; done|rewrite !decide_False by tauto; done].
Qed.

Lemma metrics_step_ok st st' : metrics_step st st' -> Z.of_nat (length (mt_requests st')) < 2 ^ 64 -> metrics_ok st -> metrics_ok st'.
Proof.
  intros Hs Hn [Hsp Ht Hc Hm Hp]. destruct Hs as [r qs p ws method matched us Hu|r qs p ws i q r' pc Hi Hstep|r qs p ws|r qs p ws|r qs ws now Hnow|r qs p p' ws Hstep|r qs now read_now write_now cpu_now cores ws Hend];
    cbn [mt_registry mt_requests mt_poll mt_windows] in *.
  - split; cbn [mt_registry mt_requests mt_poll mt_windows]; [|rewrite total_app, total_one, Ht; f_equal; unfold past_total at 3; cbn [rq_pc]; rewrite decide_True by done; lia| |by apply Forall_app_2; [|constructor]|done].
    + apply (splits_same _ _ Hsp); cbn [mt_registry mt_requests mt_poll mt_windows]; try done. intros w. by rewrite timed_app, timed_one, decide_False, app_nil_r by by intros [].
    + intros c. rewrite total_app, total_one, Hc. f_equal. unfold past_class at 3. rewrite decide_False by (cbn; by intros [[|] _]). lia.
  - rewrite length_insert in Hn. destruct (counters_observe r qs i q r' pc Ht Hc Hi Hstep) as [Ht' Hc']. split; cbn [mt_registry mt_requests mt_poll mt_windows]; try done.
    + by eapply splits_observe.
    + apply Forall_insert; [done|]. by eapply (Forall_lookup_1 _ _ _ _ Hm Hi).
  - split; cbn [mt_registry mt_requests mt_poll mt_windows]; try done. apply (splits_same _ _ Hsp); try done; by intros [].
  - split; cbn [mt_registry mt_requests mt_poll mt_windows]; try done. apply (splits_same _ _ Hsp); try done; by intros [].
  - split; cbn [mt_registry mt_requests mt_poll mt_windows]; try done. apply (splits_same _ _ Hsp); try done; by intros [].
  - split; cbn [mt_registry mt_requests mt_poll mt_windows]; try done; [by eapply splits_poll|]. destruct (Hsp false) as (parts & seen & rest & [_ Hl _ _ Hld _]). cbn [mt_registry mt_requests mt_poll mt_windows latency] in *.
    unfold poll_step in Hstep. destruct p as [now loaded|now read_now loaded]; [|by destruct (rg_write_latency r !! length loaded); simplify_eq].
    destruct (rg_read_latency r !! length loaded) eqn:E; simplify_eq; [done|]. apply lookup_ge_None in E. rewrite Hl, length_tally in E. cbn [loads] in Hld. apply (f_equal length) in Hld. rewrite length_take, length_tally in Hld. lia.
  - split; cbn [mt_registry mt_requests mt_poll mt_windows]; try done.
    assert (Hlen : length write_now = BUCKET_COUNT).
    { destruct (Hsp true) as (parts & seen & rest & [_ Hl _ _ Hld _]). cbn [mt_registry mt_requests mt_poll mt_windows latency poll_step loads] in *. destruct (rg_write_latency r !! length write_now) eqn:E; [done|].
      apply lookup_ge_None in E. rewrite Hl, length_tally in E. apply (f_equal length) in Hld. rewrite length_take, length_tally in Hld. lia. }
    intros w. eapply split_close; [apply Hsp|by destruct w|by destruct w|by destruct w].
Qed.

Lemma metrics_step_requests st st' : metrics_step st st' -> (length (mt_requests st) <= length (mt_requests st'))%nat.
Proof. intros Hs. destruct Hs; cbn [mt_requests]; rewrite ?length_app, ?length_insert; lia. Qed.

Lemma metrics_start_ok now cpu : metrics_ok (metrics_start now cpu).
Proof.
  split; cbn [mt_registry mt_requests mt_poll mt_windows metrics_start]; try done; [|by intros []]. intros w. exists [], [], [].
  split; cbn [mt_registry mt_requests mt_poll mt_windows metrics_start concat app]; rewrite ?tally_nil; by destruct w.
Qed.

Lemma metrics_steps_ok st st' : rtc metrics_step st st' -> Z.of_nat (length (mt_requests st')) < 2 ^ 64 -> metrics_ok st -> metrics_ok st'.
Proof.
  intros Hr Hn. assert (H : (length (mt_requests st) <= length (mt_requests st'))%nat /\ (metrics_ok st -> metrics_ok st')); [|by apply H].
  induction Hr as [st|st1 st2 st3 Hs Hr IH]; [done|]. destruct (IH Hn) as [Hle Hok]. pose proof (metrics_step_requests _ _ Hs). split; [lia|]. intros H1. apply Hok, (metrics_step_ok _ _ Hs); [lia|done].
Qed.

(** Finished requests, by class. *)
Lemma class_counts qs : Forall (fun q => rq_pc q = Timed) qs ->
  total past_total qs = Z.of_nat (length qs) /\
  Z.of_nat (length qs) = total (past_class RcRead) qs + total (past_class RcWrite) qs + total (past_class RcExcluded) qs + total (past_class RcUnclassified) qs /\
  (forall c, 0 <= total (past_class c) qs).
Proof.
  induction 1 as [|q qs Hq _ (IH1 & IH2 & IH3)]; [done|]. unfold total in *. cbn [foldr length]. unfold past_total at 1. rewrite decide_False by by rewrite Hq.
  assert (E : forall c, past_class c q = if decide (rq_class q = c) then 1 else 0).
  { intros c. unfold past_class. destruct (decide (rq_class q = c)); [rewrite decide_True by tauto|rewrite decide_False by tauto]; done. }
  rewrite !E. split_and!; [lia|destruct (rq_class q); repeat (case_decide; [|try congruence]); try congruence; lia|]. intros c. rewrite E. specialize (IH3 c). case_decide; lia.
Qed.

(** C33: However requests pass through the layer while reports close windows, loading the counters one by one: the
    latencies of the requests that finished fall into one part for each closed window and the ones still pending, each
    once, and the report of a window is that of its part; when all requests have finished, the counters add up to their
    number. *)
Theorem windows_partition now cpu st : rtc metrics_step (metrics_start now cpu) st -> Z.of_nat (length (mt_requests st)) < 2 ^ 64 ->
  (forall write, exists parts pending, timed write (mt_requests st) ≡ₚ concat parts ++ pending /\
     Forall2 (fun s xs => reported_latency write s = from_delta (tally xs)) (mt_windows st) parts) /\
  (Forall (fun q => rq_pc q = Timed) (mt_requests st) ->
     rg_total (mt_registry st) = Z.of_nat (length (mt_requests st)) /\
     rg_total (mt_registry st) = rg_read (mt_registry st) + rg_write (mt_registry st) + rg_excluded (mt_registry st) + rg_unclassified (mt_registry st)).
Proof.
  intros Hr Hn. destruct (metrics_steps_ok _ _ Hr Hn (metrics_start_ok now cpu)) as [Hs Ht Hc _ _]. split.
  - intros w. destruct (Hs w) as (parts & seen & rest & [H1 _ _ H4 _ _]). by exists parts, (seen ++ rest).
  - intros Hall. destruct (class_counts (mt_requests st) Hall) as (E & Es & H0). rewrite E in Ht. pose proof (Hc RcRead) as C1. pose proof (Hc RcWrite) as C2. pose proof (Hc RcExcluded) as C3. pose proof (Hc RcUnclassified) as C4.
    cbn [class_counter] in *. pose proof (H0 RcRead). pose proof (H0 RcWrite). pose proof (H0 RcExcluded). pose proof (H0 RcUnclassified). rewrite !Z.mod_small in * by lia. lia.
Qed.

(** ** A run *)

(** A request moves, or the report does its next access or closes the window; what cannot be done is passed over. *)
Inductive event := MoveRequest (i : nat) | MovePoll.

Definition run_event (cpu_now cores : option f64) (ev : event) (st : metrics_state) : metrics_state :=
  match ev with
  | MoveRequest i =>
      match mt_requests st !! i with
      | Some q => match observe_step q (mt_registry st) with
                  | Some (r, pc) => MkMetrics r (<[i := rq_at q pc]> (mt_requests st)) (mt_poll st) (mt_windows st)
                  | None => st
                  end
      | None => st
      end
  | MovePoll =>
      match mt_poll st with
      | None => st
      | Some p =>
          match poll_step p (mt_registry st), p with
          | Some p', _ => MkMetrics (mt_registry st) (mt_requests st) (Some p') (mt_windows st)
          | None, PollWrite now read_now write_now =>
              let w := close_window now read_now write_now cpu_now cores (rg_window (mt_registry st)) in
              MkMetrics (set_window w (mt_registry st)) (mt_requests st) None (mt_windows st ++ [wi_last w])
          | None, _ => st
          end
      end
  end.

Definition run_events (cpu_now cores : option f64) (evs : list event) (st : metrics_state) : metrics_state := foldl (fun st ev => run_event cpu_now cores ev st) st evs.

Lemma run_events_steps cpu_now cores evs st : rtc metrics_step st (run_events cpu_now cores evs st).
Proof.
  revert st. induction evs as [|ev evs IH]; intros st; [done|]. etrans; [|apply (IH (run_event cpu_now cores ev st))]. destruct st as [r qs p ws], ev as [i|]; cbn [run_event mt_registry mt_requests mt_poll mt_windows].
  - destruct (qs !! i) as [q|] eqn:Hi; [|done]. destruct (observe_step q r) as [[r' pc]|] eqn:E; [|done]. by eapply rtc_once, metrics_observe.
  - destruct p as [p|]; [|done]. destruct (poll_step p r) as [p'|] eqn:E; [by apply rtc_once, metrics_load|]. destruct p as [now l|now rn wn]; [done|]. by apply rtc_once, metrics_close.
Qed.

(** Three requests; one is timed while the report loads the buckets, after the bucket it belongs to. *)
Definition three_requests : list request :=
  [MkRequest "GET" (Some "/node/:address") 900 Started; MkRequest "POST" (Some "/nodes/query") 70 Started; MkRequest "POST" (Some "/transaction") 2500 Started]%string.

Definition busy_window : metrics_state :=
  run_events None None
    (map MoveRequest [0; 0; 0; 1; 1; 2; 2; 2]%nat ++ repeat MovePoll 300 ++ [MoveRequest 1] ++ repeat MovePoll 726)
    (MkMetrics (registry_new 0 None) three_requests (Some (PollRead 5000000000 [])) []).

Lemma windows_partition_witness :
  map ws_read_latency (mt_windows busy_window) = [MkLatency 1 (Some 959) (Some 959) (Some 959)] /\ timed false (mt_requests busy_window) = [900; 70] /\
  (exists parts pending, timed false (mt_requests busy_window) ≡ₚ concat parts ++ pending /\
     Forall2 (fun s xs => reported_latency false s = from_delta (tally xs)) (mt_windows busy_window) parts) /\
  rg_total (mt_registry busy_window) = 3.
Proof.
  assert (Hr : rtc metrics_step (metrics_start 0 None) busy_window).
  { etrans; [|apply run_events_steps]. eapply rtc_l; [apply (metrics_arrive _ _ _ _ "GET"%string (Some "/node/:address"%string) 900); split; vm_compute; congruence|].
    eapply rtc_l; [apply (metrics_arrive _ _ _ _ "POST"%string (Some "/nodes/query"%string) 70); split; vm_compute; congruence|].
    eapply rtc_l; [apply (metrics_arrive _ _ _ _ "POST"%string (Some "/transaction"%string) 2500); split; vm_compute; congruence|].
    apply rtc_once. apply (metrics_poll _ _ _ 5000000000). vm_compute. congruence. }
  destruct (windows_partition 0 None busy_window Hr) as [H1 H2]; [vm_compute; reflexivity|]. split_and!; [vm_compute; reflexivity|vm_compute; reflexivity|exact (H1 false)|vm_compute; reflexivity].
Defined.
