(* ===== verification/Stats.v ===== *)
(** * Statistics ([src/src/storage/engine.rs], [stats])

    What [GET /stats] reports of the data: the counts of the collections,
    read off the indexes' entry counters, and the count of every kind from a
    scan of the kind index; the shape of the heap; and the metrics. *)

From Stdlib Require Import ZArith Lia SpecFloat Ascii String.
From stdpp Require Import base tactics list strings option gmap sorting.
From S2P Require Import Prelude Binary BTree BTreeCells BTreeRead Keys Json OrderKey Search Entities Cells Heap Transaction Recovery Engine EngineRep EngineApply EngineTheorems Query QueryScan QueryPaging Histogram Metrics.

(** ** The report *)

Record KindCount := MkKindCount { kc_kind : string; kc_count : nat }.

Record StorageStats := MkStorageStats { ss_page_size : Z; ss_segments : Z; ss_pages : Z; ss_obsolete_bytes : Z }.

(** [storage_stats]; the sums wrap around. *)
Definition storage_stats (data : CatalogData) : StorageStats :=
  let sum f := foldl (fun s m => fetch_add (f m) s) 0%Z (cd_segments data) in
  MkStorageStats (cd_page_size data) (Z.of_nat (length (cd_segments data))) (sum sg_pages) (sum sg_obsolete_bytes).

Record EngineStats := MkEngineStats {
  es_node_count : nat; es_edge_count : nat; es_user_count : nat; es_history_entries : nat; es_kinds : list KindCount;
  es_reads_total : Z; es_writes_total : Z; es_storage : StorageStats; es_runtime : RuntimeStats; es_cells : CellAttribution
}.

(** The visitor of the scan: one more of the kind in front of the key. *)
Definition count_kind (by_kind : gmap string nat) (key : list Z) : gmap string nat :=
  match split_component key with
  | Some (kind, _) => let k := string_of_bytes kind in <[k := S (default 0 (by_kind !! k))]> by_kind
  | None => by_kind
  end.

(** The counts in the order of the kinds. *)
Definition kind_le (a b : string * nat) : Prop := string_le a.1 b.1.

#[export] Instance kind_le_dec a b : Decision (kind_le a b).
Proof. unfold kind_le, string_le, lex_le. apply _. Defined.

Definition kinds_of (t : tree) : list KindCount :=
  map (fun x => MkKindCount x.1 x.2) (merge_sort kind_le (map_to_list (foldl count_kind ∅ (map fst (tree_scan t [] None false))))).

Section stats.
Context {St : Type} `{RecordStoreLaws St} {N : Type} `{SerdeJson N}.
Implicit Types (e : engine (St := St)) (d : logical).

(** [stats], with the counters of the process, the catalog and the table of cells. *)
Definition stats e (reads_total : Z) (data : CatalogData) (runtime : RuntimeStats) (cells : CellTable) : EngineStats :=
  MkEngineStats (base.size (e_trees e Primary)) (base.size (e_trees e EdgeOut)) (base.size (e_users e)) (base.size (e_trees e History)) (kinds_of (e_trees e Kind))
    reads_total (e_writes_total e) (storage_stats data) runtime (cell_stats cells).
End stats.

(** ** The scan *)

Lemma starts_with_nil k : starts_with k [] = true.
Proof. apply starts_with_spec. by exists k. Qed.

Lemma scan_everything t : (forall k v, t !! k = Some v -> bytes k) -> tree_scan t [] None false = tree_sorted t.
Proof.
  intros Hb. rewrite tree_scan_range by done. unfold range_entries. rewrite filter_all; [done|]. apply Forall_forall. intros [k v] _. cbn. by rewrite starts_with_nil.
Qed.

(** What the visitor has counted. *)
Definition kind_of_key (key : list Z) : option string := fst <$> (prod_map string_of_bytes id <$> split_component key).

Lemma count_kinds keys k : foldl count_kind ∅ keys !! k =
  match length (filter (fun key => kind_of_key key = Some k) keys) with O => None | S c => Some (S c) end.
Proof.
  induction keys as [|key keys IH] using rev_ind; [done|]. rewrite foldl_app, filter_app, length_app. cbn [foldl]. unfold count_kind at 1. rewrite filter_cons, filter_nil.
  assert (Ek : kind_of_key key = match split_component key with Some (kind, _) => Some (string_of_bytes kind) | None => None end) by (unfold kind_of_key; by destruct (split_component key) as [[]|]).
  destruct (decide (kind_of_key key = Some k)) as [E|E]; rewrite Ek in E; destruct (split_component key) as [[kind rest]|]; cbn [length]; rewrite ?Nat.add_0_r, ?Nat.add_1_r; try done.
  - injection E as E. rewrite E, lookup_insert_eq, IH. by destruct (length (filter _ keys)).
  - rewrite lookup_insert_ne by congruence. apply IH.
Qed.

Lemma by_kind_le_trans : Transitive kind_le.
Proof. intros a b c. unfold kind_le, string_le. apply lex_le_trans. Qed.

Lemma by_kind_le_total : Total kind_le.
Proof. intros a b. unfold kind_le, string_le. destruct (lex_total (as_bytes a.1) (as_bytes b.1)) as [?|[->|?]]; auto using lex_lt_le, lex_le_refl. Qed.

(** ** Counting entries *)

Section located.
Context {St : Type} `{RecordStoreLaws St} {K V : Type} `{Countable K} (key : K -> list Z) (record : V -> HeapRecord).

(** An index that locates every element of a collection has as many entries. *)
Lemma located_size (m : gmap K V) t s : (forall x y, is_Some (m !! x) -> is_Some (m !! y) -> key x = key y -> x = y) -> located key record m t s -> base.size t = base.size m.
Proof.
  intros Hinj [Hf Hb]. assert (Hp : map fst (map_to_list t) ≡ₚ map (fun x => key x.1) (map_to_list m)).
  { apply NoDup_Permutation; [apply NoDup_fst_map_to_list| |].
    - apply NoDup_fmap_2_strong; [|apply NoDup_map_to_list]. intros [x v] [y w] Hx%elem_of_map_to_list Hy%elem_of_map_to_list E. cbn in E. assert (x = y) as -> by (apply Hinj; eauto). congruence.
    - intros k. rewrite !list_elem_of_fmap. split.
      + intros ([k' raw] & -> & Hk%elem_of_map_to_list). destruct (Hb _ _ Hk) as (x & -> & v & Hx). exists (x, v). by rewrite elem_of_map_to_list.
      + intros ([x v] & -> & Hx%elem_of_map_to_list). destruct (Hf x v Hx) as (l & _ & Hk & _). exists (key x, location_encode l). by rewrite elem_of_map_to_list. }
  apply Permutation_length in Hp. by rewrite !length_map, !length_map_to_list in Hp.
Qed.
End located.

Section exact.
Context {St : Type} `{RecordStoreLaws St} {N : Type} `{SerdeJson N}.
Implicit Types (e : engine (St := St)) (d : logical).

Lemma history_of_inj x y : short (as_bytes x.1) -> short (as_bytes y.1) -> u64 x.2 -> u64 y.2 -> history_of x = history_of y -> x = y.
Proof.
  intros Hx Hy Hvx Hvy E. unfold history_of, history_key in E. apply component_inj in E as [E1 E2]; [|done|done]. apply be_bytes_inj in E2; [|done|done]. apply as_bytes_inj in E1.
  destruct x, y. cbn in *. congruence.
Qed.

(** The nodes of a kind. *)
Definition of_kind (k : string) (nodes : node_map) : list Node := filter (fun n => n_kind n = k) (map snd (map_to_list nodes)).

Lemma kind_entries_nodes e d : consistent (N := N) e d ->
  map fst (tree_sorted (e_trees e Kind)) ≡ₚ map (fun n => kind_key (as_bytes (n_kind n)) (as_bytes (n_address n))) (map snd (map_to_list (l_nodes d))).
Proof.
  intros Hc. pose proof (c_kind _ _ Hc) as Hk. pose proof (c_nodes _ _ Hc) as Hn. apply NoDup_Permutation.
  - unfold tree_sorted. rewrite merge_sort_Permutation. apply NoDup_fst_map_to_list.
  - rewrite map_map. apply NoDup_fmap_2_strong; [|apply NoDup_map_to_list]. intros [x n] [y m] Hx%elem_of_map_to_list Hy%elem_of_map_to_list E. 
    change (kind_key (as_bytes (n_kind n)) (as_bytes (n_address n)) = kind_key (as_bytes (n_kind m)) (as_bytes (n_address m))) in E.
    destruct (Hn _ _ Hx) as [Ex Hnx], (Hn _ _ Hy) as [Ey Hny]. assert (x = y) as ->; [|congruence]. rewrite <- Ex, <- Ey.
    apply (kind_separate n m (kind_key (as_bytes (n_kind n)) (as_bytes (n_address n)))); [done|done|by apply list_elem_of_singleton|rewrite E; by apply list_elem_of_singleton].
  - intros k. rewrite !list_elem_of_fmap. split.
    + intros ([k' v] & -> & Hin%elem_tree_sorted). apply Hk in Hin as (_ & a & n & Ha & ->%list_elem_of_singleton). exists n. split; [done|]. apply list_elem_of_fmap. exists (a, n). by rewrite elem_of_map_to_list.
    + intros (n & -> & ([a n'] & -> & Ha%elem_of_map_to_list)%list_elem_of_fmap). exists (kind_key (as_bytes (n_kind n')) (as_bytes (n_address n')), []). split; [done|]. apply elem_tree_sorted, Hk. split; [done|].
      exists a, n'. split; [done|]. by apply list_elem_of_singleton.
Qed.

Lemma kind_of_node n : node_ok n -> kind_of_key (kind_key (as_bytes (n_kind n)) (as_bytes (n_address n))) = Some (n_kind n).
Proof. intros [(_ & Hs & _) _]%node_ok_spec. unfold kind_of_key, kind_key. rewrite split_component_app by done. cbn [fmap option_fmap option_map prod_map fst]. by rewrite string_of_as_bytes. Qed.

Lemma kind_counts e d k : consistent (N := N) e d ->
  foldl count_kind ∅ (map fst (tree_scan (e_trees e Kind) [] None false)) !! k = match length (of_kind k (l_nodes d)) with O => None | S c => Some (S c) end.
Proof.
  intros Hc. pose proof (c_kind _ _ Hc) as Hk. rewrite scan_everything.
  2:{ intros key v (_ & a & n & _ & ->%list_elem_of_singleton)%Hk. unfold kind_key. apply Forall_app_2; [apply component_bytes|]; apply as_bytes_bytes. }
  rewrite count_kinds. rewrite (Permutation_length (filter_Permutation _ _ _ (kind_entries_nodes e d Hc))). unfold of_kind.
  assert (Hall : Forall node_ok (map snd (map_to_list (l_nodes d)))).
  { apply Forall_forall. intros n ([a n'] & -> & Ha%elem_of_map_to_list)%list_elem_of_fmap. by apply (c_nodes _ _ Hc a). }
  clear - Hall. induction Hall as [|n ns Hn _ IH]; [done|]. cbn [map]. rewrite !filter_cons. rewrite kind_of_node by done.
  destruct (decide (n_kind n = k)) as [->|Hne]; [rewrite decide_True by done|rewrite decide_False by congruence; exact IH]. cbn [length].
  destruct (length (filter _ (map _ ns))), (length (filter _ ns)); congruence.
Qed.

(** C35: On a consistent engine the statistics are exact: the counts of nodes, edges, archived states and users are the
    sizes of the collections, the breakdown lists exactly the kinds that have nodes, each once, in the order of their
    names and with the number of its nodes. *)
Theorem stats_exact e d reads_total data runtime cells : consistent (N := N) e d ->
  let s := stats e reads_total data runtime cells in
  es_node_count s = base.size (l_nodes d) /\ es_edge_count s = base.size (l_edges d) /\ es_history_entries s = base.size (l_history d) /\ es_user_count s = base.size (e_users e) /\
  NoDup (map kc_kind (es_kinds s)) /\ StronglySorted (fun a b => string_le (kc_kind a) (kc_kind b)) (es_kinds s) /\
  (forall k c, MkKindCount k c ∈ es_kinds s <-> c = length (of_kind k (l_nodes d)) /\ (0 < c)%nat).
Proof.
  intros Hc s. set (m := foldl count_kind ∅ (map fst (tree_scan (e_trees e Kind) [] None false))).
  assert (Hk : es_kinds s = map (fun x => MkKindCount x.1 x.2) (merge_sort kind_le (map_to_list m))) by reflexivity.
  assert (Hp : merge_sort kind_le (map_to_list m) ≡ₚ map_to_list m) by apply merge_sort_Permutation. split_and!.
  - apply (located_size as_bytes HNode _ _ (e_store e)); [intros ? ? _ _; apply as_bytes_inj|apply (c_primary _ _ Hc)].
  - apply (located_size edge_out_of HEdge _ _ (e_store e)); [|apply (c_edge_out _ _ Hc)]. intros i j [x Hx] [y Hy]. apply edge_out_inj; [by apply (c_edges _ _ Hc i x)|by apply (c_edges _ _ Hc j y)].
  - apply (located_size history_of HHistory _ _ (e_store e)); [|apply (c_archive _ _ Hc)]. intros x y [h Hx] [h' Hy]. destruct (c_history _ _ Hc x h Hx) as (_ & ? & ?), (c_history _ _ Hc y h' Hy) as (_ & ? & ?). by apply history_of_inj.
  - done.
  - rewrite Hk, map_map, Hp. apply NoDup_fst_map_to_list.
  - rewrite Hk. pose proof by_kind_le_trans. pose proof by_kind_le_total. assert (Hs : StronglySorted kind_le (merge_sort kind_le (map_to_list m))) by (apply StronglySorted_merge_sort; assumption).
    clear - Hs. induction Hs as [|x l _ IH Hx]; [constructor|]. cbn. constructor; [done|]. apply Forall_map. exact Hx.
  - intros k c. rewrite Hk, list_elem_of_fmap. assert (Hm : forall x, x ∈ merge_sort kind_le (map_to_list m) <-> m !! x.1 = Some x.2) by (intros [x y]; by rewrite Hp, elem_of_map_to_list).
    assert (Hc' := kind_counts e d k Hc). fold m in Hc'. split.
    + intros ([k' c'] & [= -> ->] & Hin%Hm). cbn [fst snd] in Hin. rewrite Hc' in Hin. destruct (length (of_kind k' (l_nodes d))) eqn:E; [done|]. injection Hin as <-. split; [done|lia].
    + intros [-> Hpos]. exists (k, length (of_kind k (l_nodes d))). split; [done|]. apply Hm. cbn [fst snd]. rewrite Hc'. destruct (length (of_kind k (l_nodes d))); [lia|done].
Qed.
End exact.

Section examples.
Local Existing Instance list_heap.
Local Existing Instance list_heap_laws.
Local Existing Instance status_json.

(** The report on the posts of the paging examples. *)
Definition posts_report : EngineStats :=
  stats post_engine 0 (MkCatalog 1 16384 2 1 [MkSegment 1 3 40]) (snapshot 7000000000 5 8 None (Some 4%Z) (Some 1000%Z) None (registry_new 0 None)).2 cells_new.

Lemma stats_exact_witness :
  es_node_count posts_report = base.size (l_nodes post_nodes) /\ es_kinds posts_report = [MkKindCount "Post" 3] /\ es_node_count posts_report = 3 /\
  (MkKindCount "Post" 3 ∈ es_kinds posts_report <-> 3 = length (of_kind "Post" (l_nodes post_nodes)) /\ 0 < 3).
Proof.
  destruct (stats_exact (N := double) post_engine post_nodes 0 (MkCatalog 1 16384 2 1 [MkSegment 1 3 40]) (snapshot 7000000000 5 8 None (Some 4%Z) (Some 1000%Z) None (registry_new 0 None)).2 cells_new posts_consistent)
    as (H1 & _ & _ & _ & _ & _ & H7).
  split; [exact H1|]. split; [vm_compute; reflexivity|]. split; [vm_compute; reflexivity|]. exact (H7 "Post"%string 3).
Defined.
End examples.
