(* ===== verification/Auth.v ===== *)
(** * Authentication ([src/src/auth.rs])

    A request presents a token, in a header or as a query parameter; its hash
    is looked up among the bootstrap tokens of the environment and then among
    the stored identities.  The hash function is the class [TokenHash]. *)

From Stdlib Require Import ZArith Lia SpecFloat Ascii String.
From stdpp Require Import base tactics list strings option gmap.
From S2P Require Import Prelude Binary Json Text Entities Transaction Engine EngineTheorems Startup Query Lower Mutate Routes.

Local Open Scope string_scope.

(** [hash_token]: the SHA-256 of the token, in hexadecimal. *)
Class TokenHash := hash_token : string -> string.

Definition DEV_TOKEN : string := "dev-local-key-change-me".
Definition DEV_OWNER : string := "dev".

Inductive CredentialDefect := NoTokensConfigured | TokensConfiguredButEmpty | DevTokenConfigured.

(** One entry, [token:owner[:role]]. *)
Definition token_entry (entry : string) : option (string * string * Role) :=
  match splitn3 ":" entry with
  | token :: owner :: rest =>
      let token := trim token in
      let owner := trim owner in
      let role := match rest with [r] => if String.eqb (trim r) "admin" then RoleAdmin else RoleUser | _ => RoleUser end in
      if String.eqb token "" || String.eqb owner "" then None else Some (token, owner, role)
  | _ => None
  end.

Definition parse_token_entries (raw : string) : list (string * string * Role) := omap token_entry (split_on "," raw).

Definition credential_defect_in (raw : option string) : option CredentialDefect :=
  match raw with
  | None => Some NoTokensConfigured
  | Some raw =>
      match parse_token_entries raw with
      | [] => Some TokensConfiguredButEmpty
      | entries => if existsb (fun x => String.eqb x.1.1 DEV_TOKEN) entries then Some DevTokenConfigured else None
      end
  end.

(** The first pair of the query string with this name. *)
Fixpoint find_param (name : string) (pairs : list string) : option string :=
  match pairs with
  | [] => None
  | p :: pairs => match split_once "=" p with Some (k, v) => if String.eqb k name then Some v else find_param name pairs | None => find_param name pairs end
  end.

Definition query_param (query : option string) (name : string) : option string :=
  match query with Some q => find_param name (split_on "&" q) | None => None end.

Section auth.
Context `{TokenHash} {St : Type} `{RecordStore St} {N : Type} `{SerdeJson N}.
Implicit Types e : engine (St := St).

(** The bootstrap identities: collected into a map, so that a later entry replaces an earlier one. *)
Definition static_token_map (env : option string) : gmap string (string * Role) :=
  match env with
  | Some raw => foldl (fun m x => <[hash_token x.1.1 := (x.1.2, x.2)]> m) ∅ (parse_token_entries raw)
  | None => {[hash_token DEV_TOKEN := (DEV_OWNER, RoleAdmin)]}
  end.

Definition find_user_by_hash e (h : string) : option UserRecord := e_users e !! h.

Inductive refused_key := MissingKey | InvalidKey.

(** The header, else the parameter [key] of the query. *)
Definition presented_key (header query : option string) : option string := match header with Some k => Some k | None => query_param query "key" end.

(** [auth_middleware] up to the call of the handler. *)
Definition auth_middleware (env : option string) (header query : option string) e : result refused_key AuthIdentity :=
  match presented_key header query with
  | None => Err MissingKey
  | Some provided =>
      let h := hash_token provided in
      match static_token_map env !! h with
      | Some (owner, role) => Ok (MkIdentity owner role)
      | None => match find_user_by_hash e h with Some u => Ok (MkIdentity (u_owner u) (u_role u)) | None => Err InvalidKey end
      end
  end.

(** ** Who gets in *)

(** A token is known from the environment, or from a stored identity. *)
Lemma static_lookup env h x : static_token_map env !! h = Some x ->
  match env with
  | None => h = hash_token DEV_TOKEN
  | Some raw => exists token, (token, x.1, x.2) ∈ parse_token_entries raw /\ h = hash_token token
  end.
Proof.
  unfold static_token_map. destruct env as [raw|]; [|rewrite lookup_singleton_Some; by intros [<- _]].
  enough (Hgen : forall l (m : gmap string (string * Role)), foldl (fun m x => <[hash_token x.1.1 := (x.1.2, x.2)]> m) m l !! h = Some x -> m !! h = Some x \/ exists token, (token, x.1, x.2) ∈ l /\ h = hash_token token).
  { intros Hx. destruct (Hgen _ _ Hx) as [Hm|Hm]; [by rewrite lookup_empty in Hm|done]. }
  induction l as [|[[t o] r] l IH]; intros m Hx; [by left|]. cbn [foldl] in Hx. destruct (IH _ Hx) as [Hm|(t' & Hin & Ht)]; [|right; exists t'; split; [by apply list_elem_of_further|done]].
  cbn in Hm. apply lookup_insert_Some in Hm as [[<- <-]|[_ Hm]]; [|by left]. right. exists t. cbn. split; [apply list_elem_of_here|done].
Qed.

Lemma users_keyed e h u : lifetime (N := N) e -> e_users e !! h = Some u -> u_token_hash u = h.
Proof. intros Hl Hu. apply lifetime_logs in Hl. rewrite <- (lo_users e Hl) in Hu. eapply replay_user_key; [|exact Hu]. intros ? ?. by rewrite lookup_empty. Qed.

(** ** Revoking *)

Lemma revoke_each_users hashes e e' : revoke_each (N := N) hashes e = (e', Ok tt) -> forall h, e_users e' !! h = if decide (h ∈ hashes) then None else e_users e !! h.
Proof.
  revert e. induction hashes as [|g hashes IH]; intros e E h; cbn [revoke_each] in E.
  { injection E as <-. destruct (decide (h ∈ [])) as [Hh|]; [by apply elem_of_nil in Hh|done]. }
  unfold apply_admitted in E. destruct (admit_operations e (revoke_user g)) as [[]|]; [|done]. cbn in E. rewrite (IH _ E h). cbn. destruct (decide (h ∈ g :: hashes)) as [Hh|Hh].
  - destruct (decide (h ∈ hashes)); [done|]. apply elem_of_cons in Hh as [->|?]; [|done]. apply lookup_delete_eq.
  - rewrite decide_False by (intros ?; apply Hh; by apply list_elem_of_further). rewrite lookup_delete_ne; [done|]. intros ->. apply Hh, list_elem_of_here.
Qed.

(** C36: A revoked identity is out.  When an administrator's revocation of an owner has been answered with success, no
    token whatever authenticates as that owner any more, unless the environment configures that very token's hash; and every
    other token authenticates exactly as before. *)
Theorem revocation_effective i owner e e' r : lifetime (N := N) e -> route_revoke_user (N := N) i owner e e = (e', r) -> rs_status r = 204%Z ->
  forall env header query,
    (forall j, auth_middleware env header query e' = Ok j -> ai_owner j = owner -> exists k, presented_key header query = Some k /\ is_Some (static_token_map env !! hash_token k)) /\
    (forall j, auth_middleware env header query e = Ok j -> ai_owner j <> owner -> auth_middleware env header query e' = Ok j).
Proof.
  intros Hl E Hs env header query. unfold route_revoke_user in E. destruct (negb (is_admin i)); [injection E as <- <-; done|].
  set (hashes := map u_token_hash (filter (fun u => u_owner u = owner) (users e))) in *.
  assert (Hh : forall h u, e_users e !! h = Some u -> u_owner u = owner <-> h ∈ hashes).
  { intros h u Hu. pose proof (users_keyed e h u Hl Hu) as Hk. unfold hashes. rewrite list_elem_of_fmap. split.
    - intros Ho. exists u. split; [done|]. apply list_elem_of_filter. split; [done|]. unfold users. apply list_elem_of_fmap. exists (h, u). split; [done|]. by apply elem_of_map_to_list.
    - intros (v & -> & Hv). apply list_elem_of_filter in Hv as [Ho Hv]. unfold users in Hv. apply list_elem_of_fmap in Hv as ([g w] & -> & Hw). apply elem_of_map_to_list in Hw. cbn in *.
      pose proof (users_keyed e g w Hl Hw) as Hg. rewrite Hg in Hu. congruence. }
  assert (He : exists e1, revoke_each (N := N) hashes e = (e1, Ok tt) /\ e1 = e').
  { destruct hashes as [|g gs]; [injection E as <- <-; done|]. destruct (revoke_each (g :: gs) e) as [e1 [[]|]]; [|injection E as <- <-; done]. injection E as <- <-. eauto. }
  destruct He as (e1 & Hr & ->). pose proof (revoke_each_users hashes e e' Hr) as Hu. split; intros j Hj Ho; unfold auth_middleware in Hj |- *;
    destruct (presented_key header query) as [k|]; [|done| |done].
  - destruct (static_token_map env !! hash_token k) as [[o ro]|] eqn:Es; [exists k; split; [done|]; by eexists|].
    exfalso. unfold find_user_by_hash in Hj. rewrite Hu in Hj. destruct (decide _) as [|Hn]; [done|]. destruct (e_users e !! hash_token k) as [u|] eqn:Eu; [|done]. injection Hj as <-. by apply Hn, (Hh _ u).
  - destruct (static_token_map env !! hash_token k) as [[o ro]|] eqn:Es; [done|]. unfold find_user_by_hash in *. rewrite Hu. destruct (e_users e !! hash_token k) as [u|] eqn:Eu; [|done]. injection Hj as <-.
    rewrite decide_False; [done|]. intros Hin. by apply (Hh _ u) in Hin.
Qed.

(** A created identity gets in with its token and its role, unless the environment configures the same hash. *)
Theorem created_identity_authenticates i owner role token env e e' r : create_user (N := N) i owner role (hash_token token) e = (e', r) -> rs_status r = 201%Z ->
  static_token_map env !! hash_token token = None -> exists ro, parse_role role = Some ro /\ auth_middleware env (Some token) None e' = Ok (MkIdentity owner ro).
Proof.
  intros E Hs Hn. unfold create_user in E. destruct (negb (is_admin i)); [injection E as <- <-; done|]. destruct (parse_role role) as [ro|]; [|injection E as <- <-; done].
  unfold apply_admitted in E. destruct (admit_operations e _) as [[]|]; [|injection E as <- <-; done]. cbn in E. injection E as <- <-. exists ro. split; [done|].
  unfold auth_middleware. cbn [presented_key]. cbv zeta. rewrite Hn. unfold find_user_by_hash. cbn. by rewrite lookup_insert_eq.
Qed.
End auth.

(** ** Configurations *)

Section examples.
Local Existing Instance list_heap.
Local Existing Instance list_heap_laws.
Local Existing Instance double_json.
(** A hash without collisions. *)
Local Instance plain_hash : TokenHash := fun t => t.

Definition root : AuthIdentity := MkIdentity "root" RoleAdmin.
Definition crowd : engine := run_ops [OInsertUser (MkUser "k1" "alice" RoleUser); OInsertUser (MkUser "k2" "bob" RoleUser); OInsertUser (MkUser "k3" "alice" RoleAdmin)] empty_engine.

Lemma crowd_life : lifetime (N := double) crowd.
Proof. eapply (lifetime_operations _ empty_engine); [apply (life_created [])|]. apply run_ops_ok. vm_compute. reflexivity. Qed.

Lemma revocation_effective_witness :
  let '(e', r) := route_revoke_user (N := double) root "alice" crowd crowd in
  rs_status r = 204%Z /\ (forall j, auth_middleware (Some "k0:root:admin") (Some "k3") None e' = Ok j -> ai_owner j <> "alice") /\
  auth_middleware (Some "k0:root:admin") None (Some "x=1&key=k2") e' = Ok (MkIdentity "bob" RoleUser).
Proof.
  destruct (route_revoke_user (N := double) root "alice" crowd crowd) as [e' r] eqn:E. assert (Hs : rs_status r = 204%Z) by (pose proof (f_equal snd E) as Er; cbn [snd] in Er; rewrite <- Er; vm_compute; reflexivity).
  split; [done|]. split.
  - intros j Hj Ho. destruct (proj1 (revocation_effective root "alice" crowd e' r crowd_life E Hs (Some "k0:root:admin") (Some "k3") None) j Hj Ho) as (k & Hk & [x Hx]).
    injection Hk as <-. vm_compute in Hx. discriminate.
  - apply (proj2 (revocation_effective root "alice" crowd e' r crowd_life E Hs (Some "k0:root:admin") None (Some "x=1&key=k2"))); [vm_compute; reflexivity|done].
Defined.

(** A variable that parses to nothing leaves no bootstrap identity: the development token is refused, although the
    documentation of [CredentialDefect] says that the server falls back to it. *)
Theorem empty_tokens_accept_nobody :
  credential_defect_in (Some "no-colon-here") = Some TokensConfiguredButEmpty /\
  auth_middleware (Some "no-colon-here") (Some DEV_TOKEN) None empty_engine = Err InvalidKey /\
  auth_middleware None (Some DEV_TOKEN) None empty_engine = Ok (MkIdentity DEV_OWNER RoleAdmin).
Proof. vm_compute. split_and!; reflexivity. Qed.
End examples.
