(* ===== verification/Posture.v ===== *)
(** * Deployment, backup and restore ([src/src/config.rs], [src/src/main.rs])

    What the server checks of its environment before it opens anything, and
    the copies of the data directory.  An environment maps the names of the
    variables to text; a directory maps the names of its files to their
    contents. *)

From Stdlib Require Import ZArith Lia SpecFloat Ascii String.
From stdpp Require Import base tactics list strings option gmap sorting.
From S2P Require Import Prelude Utf8 Crypto Binary Json GoLower Text Entities Transaction Engine EngineTheorems Startup Query Lower Mutate Routes Auth.

(** ** The environment *)

Abbreviation environment := (gmap string string).

Local Open Scope string_scope.

Definition TOKENS_ENV : string := "FACETQL_TOKENS".
Definition MASTER_KEY_ENV : string := "FACETQL_MASTER_KEY".
Definition ENV_VAR : string := "FACETQL_ENV".
Definition ALLOW_PLAINTEXT_ENV : string := "FACETQL_ALLOW_PLAINTEXT".

Inductive Deployment := Development | Production.

#[export] Instance deployment_eq_dec : EqDecision Deployment.
Proof. solve_decision. Defined.

(** [deployment_from]: trimmed, with the ASCII letters in lower case. *)
Definition deployment_from (raw : option string) : Deployment :=
  let declared := map Text.to_ascii_lowercase (as_bytes (Text.trim (default "" raw))) in
  if decide (declared = as_bytes "development" \/ declared = as_bytes "dev" \/ declared = as_bytes "test") then Development else Production.

Definition is_production (d : Deployment) : bool := bool_decide (d = Production).

Definition deployment (env : environment) : Deployment := deployment_from (env !! ENV_VAR).

Definition plaintext_acknowledged (env : environment) : bool := bool_decide (is_Some (env !! ALLOW_PLAINTEXT_ENV)).

Definition LEGACY_ENV_ALIASES : list (string * string) := [
  (TOKENS_ENV, "ENOCHIAN_TOKENS");
  (MASTER_KEY_ENV, "ENOCHIAN_MASTER_KEY");
  ("FACETQL_DATA_DIR", "ENOCHIAN_DATA_DIR");
  ("FACETQL_PORT", "ENOCHIAN_PORT");
  ("FACETQL_TLS_IDENTITY", "ENOCHIAN_TLS_IDENTITY");
  ("FACETQL_TLS_IDENTITY_PASSWORD", "ENOCHIAN_TLS_IDENTITY_PASSWORD")
].

Definition apply_alias (env : environment) (names : string * string) : environment :=
  match env !! names.1 with
  | Some _ => env
  | None => match env !! names.2 with Some value => <[names.1 := value]> env | None => env end
  end.

Definition apply_legacy_env_aliases (env : environment) : environment := foldl apply_alias env LEGACY_ENV_ALIASES.

(** [default_data_dir]: under [HOME], or [USERPROFILE], or here. *)
Definition default_data_dir (env : environment) : string :=
  match env !! "HOME" with
  | Some home => home ++ "/.facetql"
  | None => match env !! "USERPROFILE" with Some home => home ++ "/.facetql" | None => "." end
  end.

(** ** The posture *)

Definition key_text (raw : option string) : option (list Z) := match raw with Some s => Some (chars_of (as_bytes s)) | None => None end.

(** The key every record is encrypted under ([cipher]); [None] is its panic. *)
Definition cipher_key (raw : option (list Z)) : option (list Z) :=
  match raw with
  | None => Some (replicate 32 0%Z)
  | Some raw => match decode_hex raw with HexOk key => if (length key =? 32)%nat then Some key else None | _ => None end
  end.

Inductive posture_finding := Credentials (d : CredentialDefect) | MasterKey (d : key_defect) | Plaintext.

(** Started, with the findings printed as warnings; refused, with an exit code; or the panic of the key check. *)
Inductive posture := Starts (findings : list posture_finding) | Refuses (code : Z) (findings : list posture_finding) | PosturePanic.

Definition EXIT_INSECURE_CONFIGURATION : Z := 7.

Definition enforce_deployment_posture (env : environment) (tls_configured : bool) : posture :=
  let credentials := match credential_defect_in (env !! TOKENS_ENV) with Some d => [Credentials d] | None => [] end in
  match key_defect_in (key_text (env !! MASTER_KEY_ENV)) with
  | KeyPanic => PosturePanic
  | check =>
      let key := match check with KeyDefect d => [MasterKey d] | _ => [] end in
      let plaintext := if negb tls_configured && negb (plaintext_acknowledged env) then [Plaintext] else [] in
      match (credentials ++ key ++ plaintext)%list with
      | [] => Starts []
      | findings => if is_production (deployment env) then Refuses EXIT_INSECURE_CONFIGURATION findings else Starts findings
      end
  end.

(** ** Copies of the directory *)

Abbreviation directory := (gmap string (list Z)).

Definition LOCK_FILE : string := "facetql.lock".

(** [str::ends_with] *)
Definition ends_with (s suffix : string) : bool :=
  bool_decide (String.length suffix <= String.length s /\ String.substring (String.length s - String.length suffix) (String.length suffix) s = suffix)%nat.

(** What a backup copies. *)
Definition is_data_file (name : string) : Prop := ends_with name ".tmp" = false /\ name <> LOCK_FILE.

Definition data_files (dir : directory) : list string := merge_sort string_le (filter is_data_file (map fst (map_to_list dir))).

(** One file copied over what the target holds under its name, when the source has it. *)
Definition copy_file (src : directory) (dst : directory) (name : string) : directory := match src !! name with Some contents => <[name := contents]> dst | None => dst end.

Definition run_backup (data output : directory) : directory := foldl (copy_file data) output (data_files data).

(** [None] is the refusal to write over data. *)
Definition run_restore (data input : directory) : option directory :=
  match data_files data with
  | [] => Some (foldl (copy_file input) data (map fst (map_to_list input)))
  | _ => None
  end.

(** ** Nothing starts by default *)

(** A declared deployment is one of three words; anything else is production. *)
Lemma deployment_declared raw : deployment_from raw = Development ->
  exists s, raw = Some s /\ map Text.to_ascii_lowercase (as_bytes (Text.trim s)) ∈ [as_bytes "development"; as_bytes "dev"; as_bytes "test"].
Proof.
  unfold deployment_from. case_decide as H; [|done]. intros _. destruct raw as [s|]; [|exfalso; vm_compute in H; by destruct H as [|[|]]]. exists s. split; [done|]. cbn [default from_option] in H. unfold id in H.
  rewrite !elem_of_cons. tauto.
Qed.

Lemma existsb_dev entries : existsb (fun x : string * string * Role => String.eqb x.1.1 DEV_TOKEN) entries = false -> forall t o r, (t, o, r) ∈ entries -> t <> DEV_TOKEN.
Proof.
  intros He t o r Hin ->. assert (existsb (fun x : string * string * Role => String.eqb x.1.1 DEV_TOKEN) entries = true); [|congruence].
  apply existsb_exists. exists (DEV_TOKEN, o, r). split; [by apply list_elem_of_In|]. apply String.eqb_refl.
Qed.

Section posture.
Context `{TokenHash} {St : Type} `{RecordStore St}.
Context (Hhash : forall t, hash_token t = hash_token DEV_TOKEN -> t = DEV_TOKEN).
Implicit Types e : engine (St := St).

Lemma accepted_tokens env : credential_defect_in env = None -> static_token_map env !! hash_token DEV_TOKEN = None.
Proof.
  intros Hd. destruct (static_token_map env !! hash_token DEV_TOKEN) as [x|] eqn:E; [|done]. apply static_lookup in E. destruct env as [raw|]; [|discriminate Hd]. destruct E as (t & Hin & Ht). symmetry in Ht. apply Hhash in Ht as ->.
  unfold credential_defect_in in Hd. destruct (parse_token_entries raw) as [|y entries]; [discriminate Hd|]. destruct (existsb (fun x => String.eqb x.1.1 DEV_TOKEN) (y :: entries)) eqn:Ex; [discriminate Hd|]. by destruct (existsb_dev _ Ex _ _ _ Hin).
Qed.

Lemma accepted_key raw : key_defect_in raw = KeyAccepted -> exists key, cipher_key raw = Some key /\ length key = 32%nat /\ key <> replicate 32 0%Z.
Proof.
  unfold key_defect_in, cipher_key. destruct raw as [raw|]; [|done]. destruct (decode_hex raw) as [key| |]; try done. destruct (Nat.eqb_spec (length key) 32) as [Hl|]; [|done]. cbn [negb].
  destruct (forallb (fun b => b =? 0)%Z key) eqn:Ez; [done|]. intros _. exists key. split_and!; [done|done|]. intros ->. assert (forallb (fun b => b =? 0)%Z (replicate 32 0%Z) = true) by reflexivity. congruence.
Qed.

(** C37: A production server never serves with development credentials.  When the posture check lets a server start and
    the environment does not declare development, nothing was found; the published development token authenticates only
    an identity an administrator stored under it; the key is one of 32 bytes that are not all zero; and the traffic is
    encrypted or the operator said that it need not be.  *)
Theorem posture_fail_closed env tls findings : enforce_deployment_posture env tls = Starts findings -> deployment env = Production ->
  findings = [] /\
  (forall header query e i, presented_key header query = Some DEV_TOKEN -> auth_middleware (env !! TOKENS_ENV) header query e = Ok i -> exists u, find_user_by_hash e (hash_token DEV_TOKEN) = Some u /\ i = MkIdentity (u_owner u) (u_role u)) /\
  (exists key, cipher_key (key_text (env !! MASTER_KEY_ENV)) = Some key /\ length key = 32%nat /\ key <> replicate 32 0%Z) /\
  (tls = true \/ is_Some (env !! ALLOW_PLAINTEXT_ENV)).
Proof.
  unfold enforce_deployment_posture. intros Hs Hd. rewrite Hd in Hs. destruct (key_defect_in (key_text (env !! MASTER_KEY_ENV))) as [|d|] eqn:Ek; [| |done].
  2:{ destruct (credential_defect_in (env !! TOKENS_ENV)); done. }
  destruct (credential_defect_in (env !! TOKENS_ENV)) eqn:Ec; [done|]. cbn [app] in Hs. destruct (negb tls && negb (plaintext_acknowledged env)) eqn:Ep; [done|]. injection Hs as <-. split_and!; [done| | |].
  - intros header query e i Hp Ha. unfold auth_middleware in Ha. rewrite Hp, (accepted_tokens _ Ec) in Ha. destruct (find_user_by_hash e (hash_token DEV_TOKEN)) as [u|]; [|done]. injection Ha as <-. by exists u.
  - by apply accepted_key.
  - apply andb_false_iff in Ep as [Ep|Ep]; apply negb_false_iff in Ep; [by left|right]. unfold plaintext_acknowledged in Ep. by apply bool_decide_eq_true_1 in Ep.
Qed.
End posture.

(** ** A backup is what a restore brings back *)

#[export] Instance name_trans : Transitive string_le.
Proof. intros a b c. unfold string_le. apply lex_le_trans. Qed.

#[export] Instance name_total : Total string_le.
Proof. intros a b. unfold string_le. destruct (lex_total (as_bytes a) (as_bytes b)) as [?|[->|?]]; auto using lex_lt_le, lex_le_refl. Qed.

#[export] Instance name_antisym : AntiSymm eq string_le.
Proof. intros a b Hab Hba. apply EngineRep.as_bytes_inj. unfold string_le in *. apply lex_le_lt_or_eq in Hab as [Hlt|?]; [|done]. apply lex_le_lt_or_eq in Hba as [?|]; [|done].
  by destruct (lex_lt_irrefl (as_bytes a)); eapply lex_lt_trans. Qed.

Lemma elem_data_files dir f : f ∈ data_files dir <-> is_data_file f /\ is_Some (dir !! f).
Proof.
  unfold data_files. rewrite merge_sort_Permutation, list_elem_of_filter, list_elem_of_fmap. split.
  - intros (Hf & [f' c] & -> & Hin%elem_of_map_to_list). by eauto.
  - intros (Hf & c & Hc). split; [done|]. exists (f, c). by rewrite elem_of_map_to_list.
Qed.

Lemma copies_lookup src names : forall dst f, foldl (copy_file src) dst names !! f = if decide (f ∈ names /\ is_Some (src !! f)) then src !! f else dst !! f.
Proof.
  induction names as [|g names IH]; intros dst f; cbn [foldl]; [by rewrite decide_False by by intros [?%not_elem_of_nil _]|].
  rewrite IH. destruct (decide (f ∈ names /\ is_Some (src !! f))) as [[H1 H2]|Hn]; [by rewrite decide_True by (split; [by right|done])|].
  unfold copy_file. destruct (src !! g) as [c|] eqn:Eg.
  - destruct (decide (f = g)) as [->|Hne]; [rewrite lookup_insert_eq, decide_True by (split; [left|by exists c]); done|]. rewrite lookup_insert_ne by done.
    rewrite decide_False; [done|]. rewrite elem_of_cons. intros [[?|?] ?]; tauto.
  - rewrite decide_False; [done|]. rewrite elem_of_cons. intros [[->|?] ?]; [by rewrite Eg in *; destruct H|tauto].
Qed.

(** The files of a directory are listed once, in the order of their names, so equal files are listed alike. *)
Lemma data_files_ext dir dir' : (forall f, is_data_file f -> dir !! f = dir' !! f) -> data_files dir = data_files dir'.
Proof.
  intros He. assert (Hnd : forall d : directory, NoDup (filter is_data_file (map fst (map_to_list d)))) by (intros d; apply NoDup_filter, NoDup_fst_map_to_list).
  assert (Hp : filter is_data_file (map fst (map_to_list dir)) ≡ₚ filter is_data_file (map fst (map_to_list dir'))).
  { apply NoDup_Permutation; [done|done|]. intros f. pose proof (elem_data_files dir f) as H1. pose proof (elem_data_files dir' f) as H2. unfold data_files in H1, H2. rewrite merge_sort_Permutation in H1, H2. rewrite H1, H2.
    split; intros [Hf Hs]; (split; [done|]); [by rewrite <- He|by rewrite He]. }
  unfold data_files. apply (StronglySorted_unique string_le); [by apply StronglySorted_merge_sort; apply _|by apply StronglySorted_merge_sort; apply _|]. by rewrite !merge_sort_Permutation.
Qed.

(** Restoring a backup that was made into an empty directory, over a directory without data, succeeds and brings back
    exactly the data files, with their contents; a restore over any data is refused and writes nothing. *)
Theorem backup_restore_roundtrip data target :
  (data_files target = [] -> exists restored, run_restore target (run_backup data ∅) = Some restored /\
     data_files restored = data_files data /\ forall f, is_data_file f -> restored !! f = data !! f) /\
  (data_files target <> [] -> forall input, run_restore target input = None).
Proof.
  split; [|intros Hne input; unfold run_restore; by destruct (data_files target)]. intros He. unfold run_restore. rewrite He. eexists. split; [done|].
  assert (Hb : forall f, run_backup data ∅ !! f = if decide (is_data_file f) then data !! f else None).
  { intros f. unfold run_backup. rewrite copies_lookup, lookup_empty. destruct (decide (is_data_file f)) as [Hf|Hf]; case_decide as Hx; rewrite elem_data_files in Hx; try done; [|tauto].
    destruct (data !! f) eqn:E; [|done]. destruct Hx. eauto. }
  assert (Hr : forall f, is_data_file f -> foldl (copy_file (run_backup data ∅)) target (map fst (map_to_list (run_backup data ∅))) !! f = data !! f).
  { intros f Hf. rewrite copies_lookup. case_decide as Hx; [by rewrite Hb, decide_True|]. destruct (data !! f) as [c|] eqn:E.
    - destruct Hx. rewrite Hb, decide_True, E by done. split; [|by eexists]. apply list_elem_of_fmap. exists (f, c). split; [done|]. apply elem_of_map_to_list. by rewrite Hb, decide_True.
    - destruct (target !! f) as [c|] eqn:Et; [|done]. assert (Hin : f ∈ data_files target) by (apply elem_data_files; eauto). rewrite He in Hin. by apply not_elem_of_nil in Hin. }
  split; [|exact Hr]. apply data_files_ext. exact Hr.
Qed.

Section examples.
Local Existing Instance list_heap.
Local Instance same_hash : TokenHash := fun t => t.

(** An environment a production server starts with. *)
Definition good_environment : environment :=
  {[ TOKENS_ENV := "s3cret:root:admin"; MASTER_KEY_ENV := "000102030405060708090a0b0c0d0e0f101112131415161718191a1b1c1d1e1f"; ALLOW_PLAINTEXT_ENV := "1" ]}.

Lemma posture_fail_closed_witness :
  enforce_deployment_posture good_environment false = Starts [] /\ deployment good_environment = Production /\
  auth_middleware (good_environment !! TOKENS_ENV) (Some DEV_TOKEN) None empty_engine = Err InvalidKey /\
  cipher_key (key_text (good_environment !! MASTER_KEY_ENV)) = Some (map Z.of_nat (seq 0 32)).
Proof.
  assert (Hs : enforce_deployment_posture good_environment false = Starts []) by (vm_compute; reflexivity). assert (Hd : deployment good_environment = Production) by (vm_compute; reflexivity).
  destruct (posture_fail_closed (St := list HeapRecord) (fun t Ht => Ht) good_environment false [] Hs Hd) as (_ & H2 & _). split; [exact Hs|]. split; [exact Hd|]. split; [|vm_compute; reflexivity].
  destruct (auth_middleware (good_environment !! TOKENS_ENV) (Some DEV_TOKEN) None empty_engine) as [i|[]] eqn:E; [|done|reflexivity].
  destruct (H2 (Some DEV_TOKEN) None empty_engine i eq_refl E) as (u & Hu & _). vm_compute in Hu. discriminate Hu.
Defined.

(** With nothing set, the server refuses and names the three reasons; a development deployment starts with them as warnings. *)
Example nothing_set_refuses :
  enforce_deployment_posture ∅ false = Refuses 7 [Credentials NoTokensConfigured; MasterKey NotConfigured; Plaintext] /\
  enforce_deployment_posture {[ENV_VAR := " Development "]} false = Starts [Credentials NoTokensConfigured; MasterKey NotConfigured; Plaintext] /\
  deployment_from (Some "developement") = Production.
Proof. vm_compute. split_and!; reflexivity. Qed.

(** The variable of the old name is taken only when the new one is not set. *)
Example legacy_names : apply_legacy_env_aliases {["ENOCHIAN_PORT" := "1"; "FACETQL_PORT" := "2"; "ENOCHIAN_TOKENS" := "t:o"]} !! "FACETQL_PORT" = Some "2" /\
  apply_legacy_env_aliases {["ENOCHIAN_PORT" := "1"; "FACETQL_PORT" := "2"; "ENOCHIAN_TOKENS" := "t:o"]} !! TOKENS_ENV = Some "t:o".
Proof. vm_compute. split; reflexivity. Qed.

Definition live_directory : directory := {["facetql.wal" := [1; 2]; "facetql.lock" := []; "facetql.catalog.tmp" := [9]; "facetql.checkpoint" := [7] ]}%Z.

(** A directory that was only initialised. *)
Definition empty_directory : directory := {["facetql.lock" := []]}.

Lemma backup_restore_roundtrip_witness :
  data_files live_directory = ["facetql.checkpoint"; "facetql.wal"] /\
  (exists restored, run_restore empty_directory (run_backup live_directory ∅) = Some restored /\ data_files restored = data_files live_directory /\ restored !! "facetql.wal" = Some [1; 2]%Z) /\
  run_restore live_directory ∅ = None.
Proof.
  split; [vm_compute; reflexivity|]. split.
  - assert (He : data_files empty_directory = []) by (vm_compute; reflexivity). destruct (proj1 (backup_restore_roundtrip live_directory empty_directory) He) as (r & E & Ed & Ef). exists r. split; [exact E|]. split; [exact Ed|].
    rewrite Ef; [vm_compute; reflexivity|]. split; [vm_compute; reflexivity|discriminate].
  - apply (proj2 (backup_restore_roundtrip live_directory live_directory)). vm_compute. discriminate.
Defined.
End examples.
