(* ===== verification/Router.v ===== *)
(** * The routes ([src/src/api/routes.rs], [ROUTES] and [create_router])

    The table that states, for every route, who may call it and which bucket
    it draws from; the routes the router registers; and the guards in the
    order a request meets them. *)

From Stdlib Require Import ZArith Lia SpecFloat Ascii String.
From stdpp Require Import base tactics list strings option gmap.
From S2P Require Import Prelude Binary Json Text Limits Entities Transaction Engine Startup Query QueryGroup Lower Mutate Routes Auth Metrics.

Local Open Scope string_scope.

Inductive Access := Anonymous | Authenticated | AdminOnly.
#[export] Instance access_eq_dec : EqDecision Access.
Proof. solve_decision. Defined.

(** The column that describes the rule for objects in words is left out. *)
Record RouteSpec := MkRoute { ro_method : string; ro_path : string; ro_access : Access; ro_class : EndpointClass }.

Definition ROUTES : list RouteSpec := [
  MkRoute "GET" "/" Anonymous Read;
  MkRoute "POST" "/node" Authenticated Write;
  MkRoute "GET" "/node/:address" Authenticated Read;
  MkRoute "GET" "/node/:address/history" Authenticated Read;
  MkRoute "PUT" "/node/:address" Authenticated Write;
  MkRoute "DELETE" "/node/:address" Authenticated Write;
  MkRoute "GET" "/node/:address/owned" Authenticated Read;
  MkRoute "POST" "/node/:address/claim" Authenticated Write;
  MkRoute "GET" "/nodes" Authenticated Read;
  MkRoute "POST" "/sequence/:name/next" Authenticated Write;
  MkRoute "POST" "/nodes/multiget" Authenticated Bulk;
  MkRoute "POST" "/nodes/query" Authenticated Bulk;
  MkRoute "POST" "/nodes/count" Authenticated Bulk;
  MkRoute "POST" "/nodes/count_by" Authenticated Bulk;
  MkRoute "POST" "/nodes/aggregate" Authenticated Bulk;
  MkRoute "POST" "/nodes/aggregate_by" Authenticated Bulk;
  MkRoute "POST" "/edge" Authenticated Write;
  MkRoute "DELETE" "/edge" Authenticated Write;
  MkRoute "POST" "/transaction" Authenticated Bulk;
  MkRoute "GET" "/node/:address/edges/out" Authenticated Read;
  MkRoute "GET" "/node/:address/edges/in" Authenticated Read;
  MkRoute "GET" "/events" Authenticated Subscribe;
  MkRoute "GET" "/changes" Authenticated Bulk;
  MkRoute "POST" "/publish" Authenticated Write;
  MkRoute "POST" "/admin/users" AdminOnly Admin;
  MkRoute "GET" "/admin/users" AdminOnly Admin;
  MkRoute "DELETE" "/admin/users/:owner" AdminOnly Admin;
  MkRoute "POST" "/admin/indexes" AdminOnly Admin;
  MkRoute "GET" "/admin/indexes" AdminOnly Admin;
  MkRoute "DELETE" "/admin/indexes/:name" AdminOnly Admin;
  MkRoute "POST" "/admin/references" AdminOnly Admin;
  MkRoute "GET" "/admin/references" AdminOnly Admin;
  MkRoute "DELETE" "/admin/references/:name" AdminOnly Admin;
  MkRoute "GET" "/stats" AdminOnly Admin
].

(** What [create_router] registers, in its order: the stream, the requests, and the liveness probe. *)
Definition registered_routes : list (string * string) := [
  ("GET", "/events");
  ("POST", "/node");
  ("GET", "/node/:address");
  ("GET", "/node/:address/history");
  ("PUT", "/node/:address");
  ("DELETE", "/node/:address");
  ("GET", "/node/:address/owned");
  ("POST", "/node/:address/claim");
  ("GET", "/nodes");
  ("POST", "/sequence/:name/next");
  ("POST", "/nodes/multiget");
  ("POST", "/nodes/query");
  ("POST", "/nodes/count");
  ("POST", "/nodes/count_by");
  ("POST", "/nodes/aggregate");
  ("POST", "/nodes/aggregate_by");
  ("POST", "/edge");
  ("DELETE", "/edge");
  ("POST", "/transaction");
  ("GET", "/node/:address/edges/out");
  ("GET", "/node/:address/edges/in");
  ("GET", "/changes");
  ("POST", "/publish");
  ("POST", "/admin/users");
  ("GET", "/admin/users");
  ("DELETE", "/admin/users/:owner");
  ("POST", "/admin/indexes");
  ("GET", "/admin/indexes");
  ("DELETE", "/admin/indexes/:name");
  ("POST", "/admin/references");
  ("GET", "/admin/references");
  ("DELETE", "/admin/references/:name");
  ("GET", "/stats");
  ("GET", "/")
].

(** ** Matching *)

(** A segment of a pattern takes itself, or anything that is not empty when it is a parameter. *)
Definition segment_fits (pattern segment : string) : bool :=
  match pattern with String ":" _ => negb (String.eqb segment "") | _ => String.eqb pattern segment end.

Fixpoint segments_fit (pattern path : list string) : bool :=
  match pattern, path with
  | [], [] => true
  | p :: pattern, s :: path => segment_fits p s && segments_fit pattern path
  | _, _ => false
  end.

Definition route_matches (pattern path : string) : bool := segments_fit (split_on "/" pattern) (split_on "/" path).

(** ** The guards *)

Record server := MkServer { sv_taken : nat; sv_limiter : limiter }.

Inductive served := Handled (i : AuthIdentity) | Home | Unauthorized (r : refused_key) | Turned (g : guarded).

Section guards.
Context `{TokenHash} {St : Type} `{RecordStore St} (rate : EndpointClass -> option (f64 * f64)) (env : option string) (max : nat).
Implicit Types e : engine (St := St).

(** A request that matched a route, up to its handler: the bound on requests in flight, authentication, the rate limit. *)
Definition serve (method path : string) (header query : option string) (now : Z) e (s : server) : server * served :=
  match start_request max method path (sv_taken s) with
  | (taken, Runs) =>
      if String.eqb path "/" then (MkServer taken (sv_limiter s), Home)
      else match auth_middleware env header query e with
           | Err x => (MkServer taken (sv_limiter s), Unauthorized x)
           | Ok i =>
               match rate_limit rate (Some (ai_owner i)) method path now (sv_limiter s) with
               | (l, Runs) => (MkServer taken l, Handled i)
               | (l, g) => (MkServer taken l, Turned g)
               end
           end
  | (taken, g) => (MkServer taken (sv_limiter s), Turned g)
  end.

(** The handler runs only for the identity the key authenticates; a request that is not authenticated spends nothing of
    anyone's allowance. *)
Lemma serve_handled method path header query now e s s' i : serve method path header query now e s = (s', Handled i) -> auth_middleware env header query e = Ok i.
Proof.
  unfold serve. destruct (start_request _ _ _ _) as [taken [| |]]; [|done|done]. destruct (String.eqb path "/"); [done|]. destruct (auth_middleware _ _ _ _) as [j|]; [|done].
  destruct (rate_limit _ _ _ _ _ _) as [l [| |]]; congruence.
Qed.

Lemma serve_unauthorized method path header query now e s s' x : serve method path header query now e s = (s', Unauthorized x) -> sv_limiter s' = sv_limiter s.
Proof.
  unfold serve. destruct (start_request _ _ _ _) as [taken [| |]]; [|done|done]. destruct (String.eqb path "/"); [done|]. destruct (auth_middleware _ _ _ _) as [j|]; [|intros [= <- _]; done].
  destruct (rate_limit _ _ _ _ _ _) as [l [| |]]; congruence.
Qed.
End guards.

(** ** The table and the router agree *)

Lemma routes_registered : map (fun r => (ro_method r, ro_path r)) ROUTES ≡ₚ registered_routes /\ NoDup registered_routes.
Proof.
  assert (Hn : NoDup registered_routes) by (refine (bool_decide_eq_true_1 _ _); vm_compute; reflexivity). split; [|done].
  apply NoDup_Permutation; [refine (bool_decide_eq_true_1 _ _); vm_compute; reflexivity|done|]. intros x.
  split; intros Hx; revert x Hx; apply Forall_forall; refine (bool_decide_eq_true_1 _ _); vm_compute; reflexivity.
Qed.

Lemma segments_nonempty path segs : split_on "/" path = "" :: segs -> Forall (fun s => s <> "") segs -> segments path = segs.
Proof.
  intros E Hf. unfold segments. rewrite E. rewrite filter_cons_False by (intros Hn; by apply Hn). by apply filter_all.
Qed.

Lemma segment_fits_nonempty p s : p <> "" -> segment_fits p s = true -> s <> "".
Proof. intros Hp Hs ->. unfold segment_fits in Hs. destruct p as [|c p]; [done|]. destruct c as [[] [] [] [] [] [] [] []]; done. Qed.

(** Every route draws from the bucket the table names, whatever its parameters are. *)
Definition classified (r : RouteSpec) : Prop := forall path, route_matches (ro_path r) path = true -> class_of (ro_method r) path = ro_class r.

Lemma match_segments pattern path ps : split_on "/" pattern = "" :: ps -> Forall (fun p => p <> "") ps -> route_matches pattern path = true ->
  exists segs, segments path = segs /\ segments_fit ps segs = true.
Proof.
  intros Ep Hps Hm. unfold route_matches in Hm. rewrite Ep in Hm. destruct (split_on "/" path) as [|s segs] eqn:Es; [done|]. cbn [segments_fit] in Hm. apply andb_prop in Hm as [Hs Hm].
  apply String.eqb_eq in Hs. subst s. exists segs. split; [|done]. apply segments_nonempty; [done|]. clear Ep Es. revert segs Hm. induction Hps as [|p ps Hp _ IH]; intros [|s segs] Hm; cbn [segments_fit] in Hm; try done.
  apply andb_prop in Hm as [Hs Hm]. constructor; [by eapply segment_fits_nonempty|by apply IH].
Qed.

(** One row: the segments are known but for the parameters, which no case looks at. *)
Ltac classify :=
  intros path Hm; cbn [ro_path] in Hm;
  eapply match_segments in Hm as (segs & Hseg & Hfit); [|vm_compute; reflexivity|repeat first [apply Forall_nil_2 | apply Forall_cons_2; [discriminate|]]];
  unfold class_of; rewrite Hseg; clear Hseg; cbn [ro_method ro_class];
  repeat (destruct segs as [|? segs]; cbn [segments_fit] in Hfit; [discriminate Hfit|apply andb_prop in Hfit as [? Hfit]]); destruct segs; [|discriminate Hfit];
  cbn [segment_fits] in *; repeat match goal with H : String.eqb _ _ = true |- _ => apply String.eqb_eq in H; subst end;
  unfold class_of_segments; repeat (case_decide; try (exfalso; intuition congruence)); reflexivity.

(** Every route is registered once, with the class the table gives it: the routes of the router are exactly those of the
    table, each once; a request that matches a route is charged to the class of its row, whatever its parameters hold; and the
    metrics count every route as a read, a write or outside the workload. *)
Theorem routes_table_exact :
  (map (fun r => (ro_method r, ro_path r)) ROUTES ≡ₚ registered_routes /\ NoDup registered_routes) /\ Forall classified ROUTES /\
  Forall (fun x => Metrics.classify x.1 x.2 <> RcUnclassified) registered_routes.
Proof.
  split; [exact routes_registered|]. split; [|refine (bool_decide_eq_true_1 _ _); vm_compute; reflexivity]. unfold ROUTES. apply Forall_cons. split.
  { intros path Hm. unfold route_matches in Hm. cbn in Hm. unfold class_of, segments. destruct (split_on "/" path) as [|a [|b [|]]]; try done; cbn in Hm; [by apply andb_prop in Hm as [_ ?]| |by rewrite !andb_false_r in Hm].
    apply andb_prop in Hm as [Ha Hb]. apply andb_prop in Hb as [Hb _]. by destruct a, b. }
  repeat (apply Forall_cons; split; [classify|]). apply Forall_nil. done.
Qed.

(** A HEAD request, which a GET route also serves, is charged as a write and counted as nothing the metrics know. *)
Example head_is_not_a_read : class_of "HEAD" "/node/a" = Write /\ Metrics.classify "HEAD" "/node/:address" = RcUnclassified.
Proof. split; vm_compute; reflexivity. Qed.
