(* ===== verification/Cli.v ===== *)
(** * The operator's command line ([src/src/cli/mod.rs], [client.rs], [error.rs])

    Every command checks its arguments, asks before it destroys anything,
    and turns into requests to a running server.  A command is a program
    over the server it reaches, what it has sent so far and the lines the
    operator types; the HTTP library carries a request to the server or
    fails.  The texts a command prints are values of an inductive type. *)

From Stdlib Require Import ZArith Lia Ascii String DecimalString.
From stdpp Require Import base tactics list strings option gmap.
From S2P Require Import Prelude Utf8 Json GoLower Text OrderKey Search Entities Aggregate QueryPaging Limits Routes Router.

Local Open Scope string_scope.

(** ** Errors and the exit code *)

(** What [InvalidInput] says. *)
Inductive complaint :=
| EmptySegment (label : string)
| BadSegment (label segment : string)
| EmptyKind
| IndexNameLength
| BadIndexName (name : string)
| EmptyField
| DataNotJson
| UniqueText.

(** What [Request] says. *)
Inductive transport := NoAnswer | UnreadableBody | InvalidJson | NotAnArray.

Inductive CliError :=
| MissingToken
| InvalidInput (c : complaint)
| Request (t : transport)
| Api (status : Z) (message : string)
| Aborted.

(** [CliError::api] *)
Definition api_error (status : Z) (message : string) : CliError := Api status (trim message).

Definition cli_exit_code (x : CliError) : Z :=
  match x with
  | MissingToken | InvalidInput _ => 2
  | Request _ | Api _ _ => 1
  | Aborted => 3
  end.

(** ** What is checked before anything is sent *)

(** [char::is_control] *)
Definition is_control_char (c : Z) : bool := ((c <? 32) || (127 <=? c) && (c <? 160))%Z.

Definition validate_segment (label value : string) : result CliError unit :=
  if String.eqb value "" then Err (InvalidInput (EmptySegment label))
  else if existsb (fun c => (c =? 47)%Z || is_whitespace c || is_control_char c) (chars_of (as_bytes value)) then Err (InvalidInput (BadSegment label value))
  else Ok tt.

Definition validate_kind (kind : string) : result CliError unit :=
  if String.eqb (trim kind) "" then Err (InvalidInput EmptyKind) else Ok tt.

Definition validate_index_name (name : string) : result CliError unit :=
  if String.eqb name "" || (MAX_INDEX_NAME_LEN <? str_len name)%nat then Err (InvalidInput IndexNameLength)
  else if negb (forallb name_byte (as_bytes name)) then Err (InvalidInput (BadIndexName name))
  else Ok tt.

Definition validate_field (field : string) : result CliError unit :=
  if String.eqb (trim field) "" then Err (InvalidInput EmptyField) else Ok tt.

Definition is_affirmative (input : string) : bool :=
  bool_decide (map to_ascii_lowercase (as_bytes (trim input)) ∈ [as_bytes "y"; as_bytes "yes"]).

(** ** Commands *)

Record ClientArgs := MkArgs { ca_url : string; ca_token : option string; ca_json : bool }.

Inductive UserAction :=
| UserCreate (owner : string) (admin : bool)
| UserList
| UserDelete (owner : string) (yes : bool).

Inductive IndexAction :=
| IndexCreate (name kind field : string) (unique text : bool)
| IndexList
| IndexDrop (name : string) (yes : bool).

Inductive ReferenceAction :=
| ReferenceCreate (name kind field parent_kind : string) (parent_field : option string) (on_delete : string)
| ReferenceList
| ReferenceDrop (name : string) (yes : bool).

Inductive Command :=
| CommandUser (a : UserAction)
| CommandIndex (a : IndexAction)
| CommandReference (a : ReferenceAction)
| CommandGet (address : string)
| CommandPut (address kind data : string) (public : bool)
| CommandDelete (address : string) (yes : bool)
| CommandQuery (kind : string) (limit : option nat) (order : option string) (desc : bool)
| CommandStats.

(** ** What travels *)

Record wire_request := MkWire { wq_method : string; wq_url : string; wq_key : string; wq_body : option string }.

(** The status, and the text of the body unless reading it failed. *)
Record wire_response := MkReply { wp_status : Z; wp_text : option string }.

(** [str::trim_end_matches('/')] *)
Fixpoint trim_end_slash (s : string) : string :=
  match s with
  | "" => ""
  | String c s => match trim_end_slash s with "" => if Ascii.eqb c "/" then "" else String c "" | r => String c r end
  end.

Definition decimal (n : nat) : string := NilEmpty.string_of_uint (Nat.to_uint n).

(** [str::replace('-', "_")] *)
Fixpoint underscored (s : string) : string :=
  match s with "" => "" | String c s => String (if Ascii.eqb c "-" then "_"%char else c) (underscored s) end.

(** [str::trim_matches(quote)] *)
Fixpoint skip_char (c : ascii) (l : list ascii) : list ascii :=
  match l with [] => [] | x :: l' => if Ascii.eqb x c then skip_char c l' else l end.

Definition trim_quotes (s : string) : string :=
  string_of_list_ascii (rev (skip_char "034" (rev (skip_char "034" (list_ascii_of_string s))))).

(** What a command shows. *)
Inductive shown (N : Type) :=
| Pretty (v : value N)
| CreatedIdentity (owner role token : string)
| UsersTable (l : list (value N))
| RevokedIdentity (owner : string)
| DeclaredIndex (name kind field : string) (unique text : bool)
| IndexesTable (l : list (value N))
| DroppedIndex (name : string)
| DeclaredReference (name kind field parent on_delete : string)
| ReferencesTable (l : list (value N))
| DroppedReference (name : string)
| ShownNode (v : value N)
| WroteNode (address kind : string)
| DeletedNode (address : string)
| NodesTable (l : list (value N))
| KindCounts (json : bool) (counts : gmap string nat) (total : nat).
Arguments Pretty {N} v.
Arguments CreatedIdentity {N} owner role token.
Arguments UsersTable {N} l.
Arguments RevokedIdentity {N} owner.
Arguments DeclaredIndex {N} name kind field unique text.
Arguments IndexesTable {N} l.
Arguments DroppedIndex {N} name.
Arguments DeclaredReference {N} name kind field parent on_delete.
Arguments ReferencesTable {N} l.
Arguments DroppedReference {N} name.
Arguments ShownNode {N} v.
Arguments WroteNode {N} address kind.
Arguments DeletedNode {N} address.
Arguments NodesTable {N} l.
Arguments KindCounts {N} json counts total.

Section cli.
Context {N : Type} `{SerdeJson N} `{IntJson N}.

Definition validate_data (data : string) : result CliError string :=
  match from_str (N := N) data with Some v => Ok (to_string v) | None => Err (InvalidInput DataNotJson) end.

(** *** The world of a command: the server, what was exchanged with it (last first), and the lines the operator types; a
    line is [None] when reading it fails. *)
Context {W : Type} (http : wire_request -> W -> W * option wire_response).

Record world := MkWorld { wd_server : W; wd_sent : list (wire_request * option wire_response); wd_input : list (option string) }.

Definition C (A : Type) : Type := world -> world * result CliError A.

#[global] Instance c_ret : MRet C := fun A a w => (w, Ok a).
#[global] Instance c_bind : MBind C := fun A B f m w => match m w with (w, Ok a) => f a w | (w, Err x) => (w, Err x) end.

Definition checked {A} (r : result CliError A) : C A := fun w => (w, r).

(** Reads a line; the end of the input and an error both decline. *)
Definition confirm : C bool := fun w =>
  match wd_input w with
  | [] => (w, Ok false)
  | line :: rest => (MkWorld (wd_server w) (wd_sent w) rest, Ok (match line with Some line => is_affirmative line | None => false end))
  end.

Definition confirm_or_abort (skip : bool) : C unit :=
  if skip then mret tt else yes ← confirm; if (yes : bool) then mret tt else checked (Err Aborted).

(** *** The client *)

Record FacetClient := MkClient { fc_base : string; fc_token : string }.

Definition require_token (a : ClientArgs) : result CliError string :=
  match ca_token a with Some t => if String.eqb t "" then Err MissingToken else Ok t | None => Err MissingToken end.

Definition client (a : ClientArgs) : result CliError FacetClient :=
  t ← require_token a; Ok (MkClient (trim_end_slash (ca_url a)) t).

Definition send (c : FacetClient) (method path : string) (body : option (value N)) : C wire_response := fun w =>
  let rq := MkWire method (fc_base c +:+ path) (fc_token c) (to_string <$> body) in
  let '(server, answer) := http rq (wd_server w) in
  (MkWorld server ((rq, answer) :: wd_sent w) (wd_input w), match answer with Some r => Ok r | None => Err (Request NoAnswer) end).

Definition http_get (c : FacetClient) (path : string) : C wire_response := send c "GET" path None.
Definition http_post (c : FacetClient) (path : string) (body : value N) : C wire_response := send c "POST" path (Some body).
Definition http_delete (c : FacetClient) (path : string) : C wire_response := send c "DELETE" path None.

Definition successful (status : Z) : bool := ((200 <=? status) && (status <? 300))%Z.

Definition body_text (r : wire_response) : result CliError string :=
  match wp_text r with Some t => Ok t | None => Err (Request UnreadableBody) end.

Definition read_json (r : wire_response) : result CliError (value N) :=
  text ← body_text r;
  if successful (wp_status r) then match from_str text with Some v => Ok v | None => Err (Request InvalidJson) end
  else Err (api_error (wp_status r) text).

Definition read_json_array (r : wire_response) : result CliError (list (value N)) :=
  v ← read_json r; match v with JArray items => Ok items | _ => Err (Request NotAnArray) end.

Definition expect_success (r : wire_response) : result CliError unit :=
  if successful (wp_status r) then Ok tt else text ← body_text r; Err (api_error (wp_status r) text).

(** The bodies; [serde_json] keeps the keys of an object in their order. *)
Definition num (n : nat) : value N := JNumber (num_of_u64 (Z.of_nat n)).

Definition create_user_body (owner : string) (admin : bool) : value N :=
  JObject [("owner", JString owner); ("role", JString (if admin then "admin" else "user"))].

Definition create_index_body (name kind field : string) (unique : bool) (mode : string) : value N :=
  JObject [("field", JString field); ("kind", JString kind); ("mode", JString mode); ("name", JString name); ("unique", JBool unique)].

Definition create_reference_body (name kind field parent_kind : string) (parent_field : option string) (on_delete : string) : value N :=
  JObject ([("field", JString field); ("kind", JString kind); ("name", JString name); ("on_delete", JString on_delete)] ++
    match parent_field with Some f => [("parent_field", JString f)] | None => [] end ++ [("parent_kind", JString parent_kind)])%list.

Definition put_node_body (address kind data : string) (public : bool) : value N :=
  JObject [("address", JString address); ("data", JString data); ("kind", JString kind); ("public", JBool public);
           ("q", num 0); ("x", num 0); ("y", num 0); ("z", num 0)].

Definition query_body (kind : string) (limit : option nat) (order : option string) (desc : bool) : value N :=
  JObject ([("desc", JBool desc); ("kind", JString kind)] ++ match limit with Some l => [("limit", num l)] | None => [] end ++
    match order with Some o => [("order", JString o)] | None => [] end)%list.

(** A request and the reading of its answer. *)
Definition answered {A} (read : wire_response -> result CliError A) (m : C wire_response) : C A := r ← m; checked (read r).

Definition client_create_user c owner admin : C (value N) := answered read_json (http_post c "/admin/users" (create_user_body owner admin)).
Definition client_list_users c : C (list (value N)) := answered read_json_array (http_get c "/admin/users").
Definition client_delete_user c owner : C unit := answered expect_success (http_delete c ("/admin/users/" +:+ owner)).
Definition client_create_index c name kind field unique mode : C (value N) := answered read_json (http_post c "/admin/indexes" (create_index_body name kind field unique mode)).
Definition client_list_indexes c : C (list (value N)) := answered read_json_array (http_get c "/admin/indexes").
Definition client_drop_index c name : C unit := answered expect_success (http_delete c ("/admin/indexes/" +:+ name)).
Definition client_create_reference c name kind field parent_kind parent_field on_delete : C (value N) :=
  answered read_json (http_post c "/admin/references" (create_reference_body name kind field parent_kind parent_field on_delete)).
Definition client_list_references c : C (list (value N)) := answered read_json_array (http_get c "/admin/references").
Definition client_drop_reference c name : C unit := answered expect_success (http_delete c ("/admin/references/" +:+ name)).
Definition client_get_node c address : C (value N) := answered read_json (http_get c ("/node/" +:+ address)).
Definition client_put_node c address kind data public : C (value N) := answered read_json (http_post c "/node" (put_node_body address kind data public)).
Definition client_delete_node c address : C unit := answered expect_success (http_delete c ("/node/" +:+ address)).
Definition client_query c kind limit order desc : C (value N) := answered read_json (http_post c "/nodes/query" (query_body kind limit order desc)).
Definition client_list_nodes c (limit offset : nat) : C (list (value N)) :=
  answered read_json_array (http_get c ("/nodes" +:+ "?limit=" +:+ decimal limit +:+ "&offset=" +:+ decimal offset)).

(** *** The commands *)

Definition text_field (v : value N) (field : string) (otherwise : string) : string :=
  match get_field v field with Some (JString s) => s | _ => otherwise end.

Definition run_user (common : ClientArgs) (a : UserAction) : C (shown N) :=
  match a with
  | UserCreate owner admin =>
      _ ← checked (validate_segment "owner" owner);
      c ← checked (client common);
      resp ← client_create_user c owner admin;
      mret (if ca_json common then Pretty resp
            else CreatedIdentity owner (match get_field resp "role" with Some r => trim_quotes (to_string r) | None => "" end) (text_field resp "token" ""))
  | UserList =>
      c ← checked (client common);
      users ← client_list_users c;
      mret (if ca_json common then Pretty (JArray users) else UsersTable users)
  | UserDelete owner yes =>
      _ ← checked (validate_segment "owner" owner);
      _ ← confirm_or_abort yes;
      c ← checked (client common);
      _ ← client_delete_user c owner;
      mret (RevokedIdentity owner)
  end.

Definition run_index (common : ClientArgs) (a : IndexAction) : C (shown N) :=
  match a with
  | IndexCreate name kind field unique text =>
      _ ← checked (validate_index_name name);
      _ ← checked (validate_kind kind);
      _ ← checked (validate_field field);
      _ ← checked (if text && unique then Err (InvalidInput UniqueText) else Ok tt);
      c ← checked (client common);
      def ← client_create_index c name kind field unique (if text then "text" else "ordered");
      mret (if ca_json common then Pretty def else DeclaredIndex name kind field unique text)
  | IndexList =>
      c ← checked (client common);
      indexes ← client_list_indexes c;
      mret (if ca_json common then Pretty (JArray indexes) else IndexesTable indexes)
  | IndexDrop name yes =>
      _ ← checked (validate_index_name name);
      _ ← confirm_or_abort yes;
      c ← checked (client common);
      _ ← client_drop_index c name;
      mret (DroppedIndex name)
  end.

Definition run_reference (common : ClientArgs) (a : ReferenceAction) : C (shown N) :=
  match a with
  | ReferenceCreate name kind field parent_kind parent_field on_delete =>
      _ ← checked (validate_index_name name);
      _ ← checked (validate_kind kind);
      _ ← checked (validate_field field);
      _ ← checked (validate_kind parent_kind);
      _ ← checked (match parent_field with Some f => validate_field f | None => Ok tt end);
      c ← checked (client common);
      def ← client_create_reference c name kind field parent_kind parent_field (underscored on_delete);
      mret (if ca_json common then Pretty def
            else DeclaredReference name kind field (match parent_field with Some f => parent_kind +:+ "." +:+ f | None => parent_kind end) on_delete)
  | ReferenceList =>
      c ← checked (client common);
      references ← client_list_references c;
      mret (if ca_json common then Pretty (JArray references) else ReferencesTable references)
  | ReferenceDrop name yes =>
      _ ← checked (validate_index_name name);
      _ ← confirm_or_abort yes;
      c ← checked (client common);
      _ ← client_drop_reference c name;
      mret (DroppedReference name)
  end.

Definition run_get (common : ClientArgs) (address : string) : C (shown N) :=
  _ ← checked (validate_segment "address" address);
  c ← checked (client common);
  node ← client_get_node c address;
  mret (if ca_json common then Pretty node else ShownNode node).

Definition run_put (common : ClientArgs) (address kind data : string) (public : bool) : C (shown N) :=
  _ ← checked (validate_segment "address" address);
  _ ← checked (validate_kind kind);
  data ← checked (validate_data data);
  c ← checked (client common);
  resp ← client_put_node c address kind data public;
  mret (if ca_json common then Pretty resp else WroteNode (text_field resp "address" address) kind).

Definition run_delete (common : ClientArgs) (address : string) (yes : bool) : C (shown N) :=
  _ ← checked (validate_segment "address" address);
  _ ← confirm_or_abort yes;
  c ← checked (client common);
  _ ← client_delete_node c address;
  mret (DeletedNode address).

Definition run_query (common : ClientArgs) (kind : string) (limit : option nat) (order : option string) (desc : bool) : C (shown N) :=
  _ ← checked (validate_kind kind);
  c ← checked (client common);
  page ← client_query c kind limit order desc;
  mret (if ca_json common then Pretty page else NodesTable (match get_field page "nodes" with Some (JArray nodes) => nodes | _ => [] end)).

Definition PAGE : nat := 500.

Definition tally_kind (counts : gmap string nat) (node : value N) : gmap string nat :=
  let kind := text_field node "kind" "<unknown>" in <[kind := S (default 0 (counts !! kind))]> counts.

(** The pages, until one is short; [None] when [fuel] pages were not enough. *)
Fixpoint count_pages (c : FacetClient) (fuel offset : nat) (counts : gmap string nat) (total : nat) : C (option (gmap string nat * nat)) :=
  match fuel with
  | 0 => mret None
  | S fuel =>
      nodes ← client_list_nodes c PAGE offset;
      let counts := foldl tally_kind counts nodes in
      let total := total + length nodes in
      if (length nodes <? PAGE)%nat then mret (Some (counts, total)) else count_pages c fuel (offset + PAGE) counts total
  end.

Definition run_stats (fuel : nat) (common : ClientArgs) : C (option (shown N)) :=
  c ← checked (client common);
  counted ← count_pages c fuel 0 ∅ 0;
  mret ((fun x => KindCounts (ca_json common) x.1 x.2) <$> counted).

(** The commands of [main] that are clients of a server. *)
Definition run (fuel : nat) (common : ClientArgs) (command : Command) : C (option (shown N)) :=
  let some (m : C (shown N)) : C (option (shown N)) := s ← m; mret (Some s) in
  match command with
  | CommandUser a => some (run_user common a)
  | CommandIndex a => some (run_index common a)
  | CommandReference a => some (run_reference common a)
  | CommandGet address => some (run_get common address)
  | CommandPut address kind data public => some (run_put common address kind data public)
  | CommandDelete address yes => some (run_delete common address yes)
  | CommandQuery kind limit order desc => some (run_query common kind limit order desc)
  | CommandStats => run_stats fuel common
  end.

(** The exit code of the process. *)
Definition exits (fuel : nat) (common : ClientArgs) (command : Command) (w : world) : Z :=
  match (run fuel common command w).2 with Ok _ => 0 | Err x => cli_exit_code x end.

(** ** What a command is after *)

(** The route a command calls, and the parameters in its path. *)
Definition aim (command : Command) : string * string * list string :=
  match command with
  | CommandUser (UserCreate _ _) => ("POST", "/admin/users", [])
  | CommandUser UserList => ("GET", "/admin/users", [])
  | CommandUser (UserDelete owner _) => ("DELETE", "/admin/users/:owner", [owner])
  | CommandIndex (IndexCreate _ _ _ _ _) => ("POST", "/admin/indexes", [])
  | CommandIndex IndexList => ("GET", "/admin/indexes", [])
  | CommandIndex (IndexDrop name _) => ("DELETE", "/admin/indexes/:name", [name])
  | CommandReference (ReferenceCreate _ _ _ _ _ _) => ("POST", "/admin/references", [])
  | CommandReference ReferenceList => ("GET", "/admin/references", [])
  | CommandReference (ReferenceDrop name _) => ("DELETE", "/admin/references/:name", [name])
  | CommandGet address => ("GET", "/node/:address", [address])
  | CommandPut _ _ _ _ => ("POST", "/node", [])
  | CommandDelete address _ => ("DELETE", "/node/:address", [address])
  | CommandQuery _ _ _ _ => ("POST", "/nodes/query", [])
  | CommandStats => ("GET", "/nodes", [])
  end.

Definition administrative (command : Command) : bool :=
  match command with CommandUser _ | CommandIndex _ | CommandReference _ => true | _ => false end.

(** The commands that destroy something, with their [--yes]. *)
Definition destructive (command : Command) : option bool :=
  match command with
  | CommandUser (UserDelete _ yes) | CommandIndex (IndexDrop _ yes) | CommandReference (ReferenceDrop _ yes) | CommandDelete _ yes => Some yes
  | _ => None
  end.

(** What the parameters of a pattern take of a path. *)
Fixpoint captured (pattern path : list string) : list string :=
  match pattern, path with
  | p :: pattern, s :: path => (match p with String ":" _ => [s] | _ => [] end ++ captured pattern path)%list
  | _, _ => []
  end.

Definition path_params (pattern path : string) : list string := captured (split_on "/" pattern) (split_on "/" path).

(** *** The characters no part of a URL escapes or cuts at *)

Definition plain_byte (b : Z) : bool := name_byte b || (b =? 46)%Z || (b =? 126)%Z.

Definition plain_segment (s : string) : Prop :=
  s <> "" /\ s <> "." /\ s <> ".." /\ forallb plain_byte (as_bytes s) = true.

Definition plain_path (path : string) : Prop := exists segs, split_on "/" path = "" :: segs /\ Forall plain_segment segs.

Definition plain_query (query : option string) : Prop :=
  match query with Some q => forallb (fun b => plain_byte b || (b =? 61)%Z || (b =? 38)%Z) (as_bytes q) = true | None => True end.

(** The HTTP library's reading of a URL, its path and its query; under a base that names a server, a path and a query of
    plain characters are read as they are. *)
Context (reach : string -> option (string * option string)).

Definition reads_urls (base : string) : Prop := forall path query, plain_path path -> plain_query query ->
  reach (base +:+ path +:+ match query with Some q => "?" +:+ q | None => "" end) = Some (path, query).

(** The operator's arguments that become a part of the path; the names of indexes and references are checked. *)
Definition addressable (command : Command) : Prop :=
  match command with
  | CommandGet s | CommandDelete s _ | CommandUser (UserDelete s _) => plain_segment s
  | _ => True
  end.

(** A request is what the command is for: it carries the operator's token, and reaches the route the command aims at with
    the operator's argument as the parameter. *)
Definition intended (common : ClientArgs) (command : Command) (rq : wire_request) : Prop :=
  let '(method, pattern, params) := aim command in
  ca_token common = Some (wq_key rq) /\ wq_key rq <> "" /\ wq_method rq = method /\
  (addressable command ->
   exists path query, reach (wq_url rq) = Some (path, query) /\ route_matches pattern path = true /\ path_params pattern path = params).

Definition answered_ok (x : wire_request * option wire_response) : Prop := exists r, x.2 = Some r /\ successful (wp_status r) = true.

(** *** Programs that contact the server last *)

(** Every request is a [P]; a failure is the server's exactly when it was contacted, and success takes its success. *)
Definition sends (allow_none : bool) {A} (P : wire_request -> Prop) (m : C A) : Prop := forall w w' r, m w = (w', r) ->
  exists new, wd_sent w' = (new ++ wd_sent w)%list /\ Forall (fun x => P x.1) new /\
    match r with Ok _ => Forall answered_ok new /\ (allow_none = false -> new <> []) | Err x => cli_exit_code x = 1%Z <-> new <> [] end.

Definition fine {A} (P : wire_request -> Prop) (m : C A) : Prop := sends false P m.

(** What runs once the server was contacted. *)
Definition late {A} (P : wire_request -> Prop) (m : C A) : Prop := sends true P m /\ forall w w' x, m w = (w', Err x) -> cli_exit_code x = 1%Z.

Lemma late_ret {A} P (a : A) : late P (mret a).
Proof. split; [|intros w w' x; discriminate]. intros w w' r [= <- <-]. exists []. done. Qed.

Lemma fine_checked {A B} P (x : result CliError A) (f : A -> C B) :
  (forall e, x = Err e -> cli_exit_code e <> 1%Z) -> (forall a, x = Ok a -> fine P (f a)) -> fine P (checked x ≫= f).
Proof.
  intros Hx Hf w w' r E. unfold mbind, c_bind, checked in E. destruct x as [a|e]; [by apply (Hf a)|]. injection E as <- <-. exists [].
  split; [done|]. split; [constructor|]. specialize (Hx e eq_refl). done.
Qed.

Lemma fine_confirm {B} P yes (f : unit -> C B) : fine P (f tt) -> fine P (confirm_or_abort yes ≫= f).
Proof.
  intros Hf w w' r. unfold confirm_or_abort. destruct yes; [exact (Hf w w' r)|]. unfold mbind, c_bind, confirm, checked, mret, c_ret.
  destruct (wd_input w) as [|line rest] eqn:Ei; [intros [= <- <-]; exists []; done|].
  destruct (match line with Some line => is_affirmative line | None => false end); [|intros [= <- <-]; exists []; done].
  intros E. apply (Hf (MkWorld (wd_server w) (wd_sent w) rest) _ _ E).
Qed.

(** A reading of an answer that fails as the server's failure and succeeds on a successful status only. *)
Definition reader {A} (read : wire_response -> result CliError A) : Prop := forall r,
  match read r with Ok _ => successful (wp_status r) = true | Err x => cli_exit_code x = 1%Z end.

Lemma read_json_reader : reader read_json.
Proof. intros r. unfold read_json, body_text. destruct (wp_text r) as [t|]; cbn; [|done]. destruct (successful _); [by destruct (from_str t)|done]. Qed.

Lemma read_json_array_reader : reader read_json_array.
Proof. intros r. unfold read_json_array. pose proof (read_json_reader r) as Hr. destruct (read_json r) as [v|x]; cbn; [by destruct v|done]. Qed.

Lemma expect_success_reader : reader expect_success.
Proof. intros r. unfold expect_success, body_text. destruct (successful _) eqn:E; [done|]. by destruct (wp_text r). Qed.

Lemma request_once {A} (read : wire_response -> result CliError A) c method path body w w' r : reader read ->
  answered read (send c method path body) w = (w', r) ->
  exists answer, wd_sent w' = (MkWire method (fc_base c +:+ path) (fc_token c) (to_string <$> body), answer) :: wd_sent w /\
    match r with Ok _ => exists reply, answer = Some reply /\ successful (wp_status reply) = true | Err e => cli_exit_code e = 1%Z end.
Proof.
  intros Hread E. unfold answered, send, mbind, c_bind, checked in E. destruct (http _ _) as [server answer] eqn:Eh. destruct answer as [reply|].
  - injection E as <- <-. eexists. split; [reflexivity|]. specialize (Hread reply). destruct (read reply); [by exists reply|done].
  - injection E as <- <-. eexists. split; [reflexivity|]. done.
Qed.

Lemma fine_request {A B} (P : wire_request -> Prop) (read : wire_response -> result CliError A) c method path body (g : A -> C B) : reader read ->
  P (MkWire method (fc_base c +:+ path) (fc_token c) (to_string <$> body)) -> (forall a, late P (g a)) -> fine P (answered read (send c method path body) ≫= g).
Proof.
  intros Hread HP Hg w w' r E. unfold mbind, c_bind in E. destruct (answered read _ w) as [w1 [a|x]] eqn:E1.
  - destruct (request_once _ _ _ _ _ _ _ _ Hread E1) as (answer & Es1 & Hok). destruct (Hg a) as [Hs Hx]. destruct (Hs _ _ _ E) as (new & Es & HPs & Hr).
    exists (new ++ [(MkWire method (fc_base c +:+ path) (fc_token c) (to_string <$> body), answer)])%list. rewrite Es, Es1, <- app_assoc. split; [done|].
    split; [apply Forall_app; split; [done|by apply Forall_singleton]|]. destruct r as [b|x].
    + destruct Hr as [Hr _]. split; [|by destruct new]. apply Forall_app. split; [done|]. by apply Forall_singleton.
    + pose proof (Hx _ _ _ E). by destruct new.
  - injection E as <- <-. destruct (request_once _ _ _ _ _ _ _ _ Hread E1) as (answer & Es1 & Hok). eexists [_]. split; [exact Es1|]. split; [by apply Forall_singleton|done].
Qed.

Lemma fine_late {A} P (m : C A) : fine P m -> (forall w w' x, m w = (w', Err x) -> cli_exit_code x = 1%Z) -> late P m.
Proof.
  intros Hm Hx. split; [|done]. intros w w' r E. destruct (Hm _ _ _ E) as (new & Es & HP & Hr). exists new. split; [done|]. split; [done|].
  destruct r; [|done]. by destruct Hr.
Qed.

Lemma late_request {A B} (P : wire_request -> Prop) (read : wire_response -> result CliError A) c method path body (g : A -> C B) : reader read ->
  P (MkWire method (fc_base c +:+ path) (fc_token c) (to_string <$> body)) -> (forall a, late P (g a)) -> late P (answered read (send c method path body) ≫= g).
Proof.
  intros Hread HP Hg. apply fine_late; [by apply fine_request|]. intros w w' x E. unfold mbind, c_bind in E. destruct (answered read _ w) as [w1 [a|y]] eqn:E1.
  - destruct (Hg a) as [_ Hx]. by eapply Hx.
  - injection E as <- <-. by destruct (request_once _ _ _ _ _ _ _ _ Hread E1) as (answer & _ & Hok).
Qed.

(** *** Paths of plain segments *)

Lemma plain_no_slash s : forallb plain_byte (as_bytes s) = true -> split_on "/" s = [s].
Proof.
  induction s as [|c s IH]; [done|]. rewrite as_bytes_cons. cbn [forallb split_on]. intros [Hc Hs]%andb_prop. rewrite (IH Hs).
  destruct (Ascii.eqb_spec c "/"); [|done]. subst c. done.
Qed.

Lemma segment_split s : plain_segment s -> split_on "/" s = [s].
Proof. intros (_ & _ & _ & Hb). by apply plain_no_slash. Qed.

Lemma name_plain name u : validate_index_name name = Ok u -> plain_segment name.
Proof.
  unfold validate_index_name. destruct (String.eqb_spec name ""); cbn [orb]; [done|]. destruct (_ <? _)%nat; [done|].
  destruct (forallb name_byte (as_bytes name)) eqn:E; [|done]. intros _. split; [done|]. split; [by intros ->|]. split; [by intros ->|].
  rewrite forallb_forall in E |- *. intros b Hb. unfold plain_byte. by rewrite (E b Hb).
Qed.

Ltac plain := repeat first [apply Forall_nil_2 | apply Forall_cons_2; [first [assumption | split; [done|]; split; [done|]; split; done]|]].

(** A path of fixed segments, with a plain one at its end or without. *)
Lemma reaches base path query segs pattern : reads_urls base -> split_on "/" path = "" :: segs -> Forall plain_segment segs -> plain_query query ->
  segments_fit (split_on "/" pattern) ("" :: segs) = true ->
  exists p q, reach (base +:+ path +:+ match query with Some q => "?" +:+ q | None => "" end) = Some (p, q) /\ route_matches pattern p = true /\
    path_params pattern p = captured (split_on "/" pattern) ("" :: segs).
Proof.
  intros Hb Es Hs Hq Hm. exists path, query. split; [apply Hb; [by exists segs|done]|]. unfold route_matches, path_params. by rewrite Es.
Qed.

Lemma reaches_path base path segs pattern params : reads_urls base -> split_on "/" path = "" :: segs -> Forall plain_segment segs ->
  segments_fit (split_on "/" pattern) ("" :: segs) = true -> captured (split_on "/" pattern) ("" :: segs) = params ->
  exists p q, reach (base +:+ path) = Some (p, q) /\ route_matches pattern p = true /\ path_params pattern p = params.
Proof.
  intros Hb Es Hs Hm <-. destruct (reaches base path None segs pattern Hb Es Hs I Hm) as (p & q & E & Hr). exists p, q.
  split; [|done]. rewrite <- E. do 2 f_equal. clear. induction path as [|c path IH]; [done|]. exact (f_equal (String c) IH).
Qed.

Lemma decimal_plain n : forallb (fun b => plain_byte b || (b =? 61)%Z || (b =? 38)%Z) (as_bytes (decimal n)) = true.
Proof. unfold decimal. induction (Nat.to_uint n); done. Qed.

Lemma listing_query limit offset : plain_query (Some ("limit=" +:+ decimal limit +:+ "&offset=" +:+ decimal offset)).
Proof. unfold plain_query. rewrite !as_bytes_append, !forallb_app, !decimal_plain. done. Qed.

(** *** Every command is fine *)

Lemma fine_map {A B} P (m : C A) (g : A -> B) : fine P m -> fine P (a ← m; mret (g a)).
Proof.
  intros Hm w w' r. unfold mbind, c_bind, mret, c_ret. destruct (m w) as [w1 [a|x]] eqn:E; intros [= <- <-]; apply (Hm _ _ _ E).
Qed.

Lemma client_ok common c : client common = Ok c -> ca_token common = Some (fc_token c) /\ fc_token c <> "" /\ fc_base c = trim_end_slash (ca_url common).
Proof. unfold client, require_token. destruct (ca_token common) as [t|]; [|done]. cbn. destruct (String.eqb_spec t ""); [done|]. by intros [= <-]. Qed.

Lemma client_err common x : client common = Err x -> cli_exit_code x <> 1%Z.
Proof. unfold client, require_token. destruct (ca_token common) as [t|]; [|by intros [= <-]]. cbn. destruct (String.eqb t ""); by intros [= <-]. Qed.

(** A check that fails is a mistake in the arguments. *)
Lemma argument_err :
  (forall l s x, validate_segment l s = Err x -> cli_exit_code x <> 1%Z) /\ (forall s x, validate_kind s = Err x -> cli_exit_code x <> 1%Z) /\
  (forall s x, validate_index_name s = Err x -> cli_exit_code x <> 1%Z) /\ (forall s x, validate_field s = Err x -> cli_exit_code x <> 1%Z) /\
  (forall s x, validate_data s = Err x -> cli_exit_code x <> 1%Z).
Proof.
  unfold validate_segment, validate_kind, validate_index_name, validate_field, validate_data.
  split_and!; intros; repeat case_match; simplify_eq; done.
Qed.

Lemma fine_client {A} P common (f : FacetClient -> C A) :
  (forall c, ca_token common = Some (fc_token c) -> fc_token c <> "" -> fc_base c = trim_end_slash (ca_url common) -> fine P (f c)) ->
  fine P (checked (client common) ≫= f).
Proof. intros Hf. apply fine_checked; [apply client_err|]. intros c (Ht & Hne & Hb)%client_ok. by apply Hf. Qed.

Section command.
Context (common : ClientArgs) (Hreads : reads_urls (trim_end_slash (ca_url common))).

(** The request of a command, once its client is known. *)
Lemma intended_path command method path body c :
  ca_token common = Some (fc_token c) -> fc_token c <> "" -> fc_base c = trim_end_slash (ca_url common) -> (aim command).1.1 = method ->
  (addressable command -> exists segs, split_on "/" path = "" :: segs /\ Forall plain_segment segs /\
    segments_fit (split_on "/" (aim command).1.2) ("" :: segs) = true /\ captured (split_on "/" (aim command).1.2) ("" :: segs) = (aim command).2) ->
  intended common command (MkWire method (fc_base c +:+ path) (fc_token c) body).
Proof.
  intros Ht Hne Hb Hm Hs. unfold intended. destruct (aim command) as [[m pattern] params]. cbn [fst snd wq_key wq_method wq_url] in *. do 3 (split; [done|]).
  intros (segs & Es & Hp & Hfit & Hcap)%Hs. rewrite Hb. by apply (reaches_path _ path segs pattern params).
Qed.

(** The last segment is the operator's. *)
Lemma last_segment pattern fixed (s : string) path : plain_segment s -> Forall plain_segment fixed -> split_on "/" path = ("" :: fixed ++ split_on "/" s)%list ->
  (forall t, t <> "" -> segments_fit (split_on "/" pattern) ("" :: fixed ++ [t])%list = true /\ captured (split_on "/" pattern) ("" :: fixed ++ [t])%list = [t]) ->
  exists segs, split_on "/" path = "" :: segs /\ Forall plain_segment segs /\
    segments_fit (split_on "/" pattern) ("" :: segs) = true /\ captured (split_on "/" pattern) ("" :: segs) = [s].
Proof.
  intros Hs Hf Es Hp. rewrite (segment_split s Hs) in Es. exists (fixed ++ [s])%list. split; [done|]. split; [apply Forall_app; split; [done|by apply Forall_singleton]|].
  apply Hp. by destruct Hs.
Qed.

Lemma stats_aim c offset : ca_token common = Some (fc_token c) -> fc_token c <> "" -> fc_base c = trim_end_slash (ca_url common) ->
  intended common CommandStats (MkWire "GET" (fc_base c +:+ "/nodes" +:+ "?limit=" +:+ decimal PAGE +:+ "&offset=" +:+ decimal offset) (fc_token c) None).
Proof.
  intros Ht Hne Hb. unfold intended. cbn [aim fst snd wq_key wq_method wq_url]. do 3 (split; [done|]). intros _. rewrite Hb.
  apply (reaches _ "/nodes" (Some ("limit=" +:+ decimal PAGE +:+ "&offset=" +:+ decimal offset)) ["nodes"] "/nodes"); [done|done|plain|apply listing_query|done].
Qed.

Lemma stats_late fuel c offset counts total : ca_token common = Some (fc_token c) -> fc_token c <> "" -> fc_base c = trim_end_slash (ca_url common) ->
  late (intended common CommandStats) (count_pages c fuel offset counts total).
Proof.
  intros Ht Hne Hb. revert offset counts total. induction fuel as [|fuel IH]; intros offset counts total; [apply late_ret|].
  apply late_request; [apply read_json_array_reader|by apply stats_aim|]. intros nodes. destruct (_ <? _)%nat; [apply late_ret|apply IH].
Qed.

Ltac argument := first [apply fine_checked; [first [apply argument_err | case_match; first [apply argument_err | by intros ? ?; simplify_eq]]|intros ? ?] | apply fine_confirm].

Ltac fits := intros t Ht'; cbn; by destruct (String.eqb_spec t "").

(** A path without parameters, and one with the operator's argument at its end. *)
Ltac aimed := eapply intended_path; [eassumption..|reflexivity|intros Haddr].
Ltac aimed_fixed segs := aimed; exists segs; split; [vm_compute; reflexivity|]; split; [plain|]; split; vm_compute; reflexivity.
Ltac aimed_last fixed := aimed; apply (last_segment _ fixed); [first [match goal with Ha : addressable _ |- _ => exact Ha end | by eapply name_plain]|plain|cbn; reflexivity|fits].

Lemma run_fine fuel command : 0 < fuel -> fine (intended common command) (run fuel common command).
Proof.
  intros Hfuel. destruct command as [[owner admin| |owner yes]|[name kind field unique text| |name yes]|[name kind field pk pf od| |name yes]|address|address kind data public|address yes|kind limit order desc|];
    cbn [run run_user run_index run_reference].
  all: try apply fine_map.
  all: unfold run_get, run_put, run_delete, run_query; repeat argument.
  all: apply fine_client; intros c Ht Hne Hb.
  14: { destruct fuel as [|fuel]; [lia|]. apply (fine_map _ (count_pages c (S fuel) 0 ∅ 0) (fun counted => (fun x => KindCounts (ca_json common) x.1 x.2) <$> counted)).
        apply fine_request; [apply read_json_array_reader|by apply stats_aim|]. intros nodes. destruct (_ <? _)%nat; [apply late_ret|by apply stats_late]. }
  all: apply fine_request; [first [apply read_json_reader | apply read_json_array_reader | apply expect_success_reader]| |intros; apply late_ret].
  1, 2: aimed_fixed ["admin"; "users"].
  1: aimed_last ["admin"; "users"].
  1, 2: aimed_fixed ["admin"; "indexes"].
  1: aimed_last ["admin"; "indexes"].
  1, 2: aimed_fixed ["admin"; "references"].
  1: aimed_last ["admin"; "references"].
  1: aimed_last ["node"].
  1: aimed_fixed ["node"].
  1: aimed_last ["node"].
  aimed_fixed ["nodes"; "query"].
Qed.

(** The routes the commands call are routes of the server, open to those the command is for. *)
Lemma aim_served command : exists row, row ∈ ROUTES /\ ro_method row = (aim command).1.1 /\ ro_path row = (aim command).1.2 /\
  ro_access row = if administrative command then AdminOnly else Authenticated.
Proof.
  assert (forall m p a, existsb (fun r => String.eqb (ro_method r) m && String.eqb (ro_path r) p && bool_decide (ro_access r = a)) ROUTES = true ->
    exists row, row ∈ ROUTES /\ ro_method row = m /\ ro_path row = p /\ ro_access row = a) as Hrow.
  { intros m p a (row & Hin & Hb)%existsb_exists. apply andb_prop in Hb as [[Hm Hp]%andb_prop Ha]. exists row. apply list_elem_of_In in Hin.
    apply String.eqb_eq in Hm, Hp. by apply bool_decide_eq_true in Ha. }
  destruct command as [[]|[]|[]| | | | |]; apply Hrow; vm_compute; reflexivity.
Qed.

(** *** A destructive command asks first *)

(** The next line the operator types agrees. *)
Definition agreed (w : world) : bool := match wd_input w with Some line :: _ => is_affirmative line | _ => false end.

Lemma declined {B} (f : unit -> C B) w : agreed w = false -> exists w', (confirm_or_abort false ≫= f) w = (w', Err Aborted) /\ wd_sent w' = wd_sent w.
Proof.
  unfold agreed, confirm_or_abort, mbind, c_bind, confirm, checked, mret, c_ret. destruct (wd_input w) as [|[line|] rest]; [by eexists| |by eexists].
  intros ->. by eexists.
Qed.

Lemma declined_after {B D} (x : result CliError D) (f : unit -> C B) w w' r : agreed w = false ->
  (checked x ≫= fun _ => confirm_or_abort false ≫= f) w = (w', r) -> wd_sent w' = wd_sent w.
Proof.
  intros Hw E. unfold mbind, c_bind at 1, checked in E. destruct x as [d|e]; [|by injection E as <- <-].
  destruct (declined f w Hw) as (w1 & E1 & Es). unfold mbind in E1. rewrite E1 in E. by injection E as <- <-.
Qed.

Lemma run_declined fuel command w w' r : destructive command = Some false -> agreed w = false -> run fuel common command w = (w', r) -> wd_sent w' = wd_sent w.
Proof.
  intros Hd Hw E. destruct command as [[]|[]|[]| | | | |]; cbn [destructive] in Hd; simplify_eq.
  all: cbn [run run_user run_index run_reference] in E; unfold run_delete in E.
  all: unfold mbind at 1, c_bind at 1 in E; match type of E with (match ?m ?x with _ => _ end) = _ => destruct (m x) as [w1 r1] eqn:E1 end.
  all: apply declined_after in E1; [|done]; destruct r1; by injection E as <- <-.
Qed.
End command.

(** C40: A command whose arguments are plain segments of a path does what it was asked, and nothing else.  Every request it
    sends carries the operator's token, whatever the arguments.  When the command puts an address or an identity into a path
    only if it is a plain segment (names of indexes and references are checked by the command itself), every request calls the
    route the command is for, which the router serves with the access the command assumes, with the operator's argument as the
    route's parameter.  Mistakes in the arguments, a missing token and a confirmation that was declined
    are found before anything is sent; a command that destroys something sends nothing unless it was confirmed, by [--yes] or
    by the operator.  It exits with 1 exactly when the server was contacted and failed, and it succeeds only when every
    request was answered with success. *)
Theorem cli_requests_intended common fuel command w w' r :
  reads_urls (trim_end_slash (ca_url common)) -> 0 < fuel -> run fuel common command w = (w', r) ->
  (exists row, row ∈ ROUTES /\ ro_method row = (aim command).1.1 /\ ro_path row = (aim command).1.2 /\
    ro_access row = if administrative command then AdminOnly else Authenticated) /\
  exists new, wd_sent w' = (new ++ wd_sent w)%list /\ Forall (fun x => intended common command x.1) new /\
    (destructive command = Some false -> new <> [] -> agreed w = true) /\
    match r with Ok _ => Forall answered_ok new /\ new <> [] | Err x => cli_exit_code x = 1%Z <-> new <> [] end.
Proof.
  intros Hreads Hfuel E. split; [apply aim_served|]. destruct (run_fine common Hreads fuel command Hfuel _ _ _ E) as (new & Es & HP & Hr). exists new.
  split; [done|]. split; [done|]. split.
  - intros Hd Hnew. destruct (agreed w) eqn:Ha; [done|]. pose proof (run_declined common fuel command w w' r Hd Ha E) as Hs. rewrite Es in Hs.
    destruct new as [|x new]; [done|]. apply (f_equal length) in Hs. rewrite length_app in Hs. cbn in Hs. lia.
  - destruct r; [|done]. destruct Hr as [Hr Hn]. split; [done|by apply Hn].
Qed.
End cli.

(** ** A URL library for concrete runs: the server is "http://h"; the fragment is not sent. *)
Definition cut_path (rest : string) : option (string * option string) :=
  let sent := match split_once "#" rest with Some (a, _) => a | None => rest end in
  match split_once "?" sent with Some (path, query) => Some (path, Some query) | None => Some (sent, None) end.

Definition cut_url (url : string) : option (string * option string) :=
  match url with
  | String "h" (String "t" (String "t" (String "p" (String ":" (String "/" (String "/" (String "h" rest))))))) => cut_path rest
  | _ => None
  end.

Definition lacks (c : ascii) (s : string) : Prop := Forall (fun x => x <> c) (list_ascii_of_string s).

Lemma split_once_none c s : lacks c s -> split_once c s = None.
Proof.
  unfold lacks. induction s as [|x s IH]; [done|]. cbn [list_ascii_of_string split_once]. intros [Hx Hs]%Forall_cons. destruct (Ascii.eqb_spec x c); [done|]. by rewrite IH.
Qed.

Lemma split_once_first c s t : lacks c s -> split_once c (s +:+ String c t) = Some (s, t).
Proof.
  unfold lacks. induction s as [|x s IH].
  - intros _. change (split_once c (String c t) = Some ("", t)). unfold split_once. by destruct (Ascii.eqb_spec c c).
  - cbn [list_ascii_of_string]. intros [Hx Hs]%Forall_cons. change (String x s +:+ String c t) with (String x (s +:+ String c t)). cbn [split_once].
    destruct (Ascii.eqb_spec x c); [done|]. by rewrite IH.
Qed.

Lemma lacks_bytes c s (f : Z -> bool) : f (Z.of_N (N_of_ascii c)) = false -> forallb f (as_bytes s) = true -> lacks c s.
Proof.
  intros Hc. unfold lacks. induction s as [|x s IH]; [constructor|]. rewrite as_bytes_cons. cbn [forallb list_ascii_of_string]. intros [Hx Hs]%andb_prop.
  constructor; [|by apply IH]. intros ->. congruence.
Qed.

Lemma lacks_app c s t : lacks c s -> lacks c t -> lacks c (s +:+ t).
Proof. unfold lacks. intros Hs Ht. induction s as [|x s IH]; [done|]. cbn [list_ascii_of_string String.append]. apply Forall_cons in Hs as [Hx Hs]. constructor; [done|by apply IH]. Qed.

Lemma split_bytes s : Forall (fun p => forallb plain_byte (as_bytes p) = true) (split_on "/" s) -> forallb (fun b => plain_byte b || (b =? 47)%Z) (as_bytes s) = true.
Proof.
  induction s as [|x s IH]; [done|]. rewrite as_bytes_cons. cbn [split_on forallb]. destruct (Ascii.eqb_spec x "/") as [->|Hx].
  - intros [_ Hs]%Forall_cons. by apply IH.
  - destruct (split_on "/" s) as [|p ps].
    + intros [Hp _]%Forall_singleton%andb_prop. rewrite Hp. by apply IH.
    + intros [[Hx' Hp]%andb_prop Hps]%Forall_cons. rewrite Hx'. apply IH. by constructor.
Qed.

Lemma cut_reads : reads_urls cut_url "http://h".
Proof.
  intros path query (segs & Es & Hsegs) Hq.
  assert (forallb (fun b => plain_byte b || (b =? 47)%Z) (as_bytes path) = true) as Hp.
  { apply split_bytes. rewrite Es. constructor; [done|]. eapply Forall_impl; [exact Hsegs|]. by intros s (_ & _ & _ & ?). }
  destruct query as [q|].
  - assert (lacks "#" q) as Hl by (by eapply lacks_bytes; [|exact Hq]).
    change (cut_path (path +:+ String "?" q) = Some (path, Some q)). unfold cut_path.
    rewrite (split_once_none "#") by (apply lacks_app; [by eapply lacks_bytes; [|exact Hp]|by constructor]).
    rewrite split_once_first by (by eapply lacks_bytes; [|exact Hp]). done.
  - assert (path +:+ "" = path) as -> by (clear; induction path as [|c path IH]; [done|]; exact (f_equal (String c) IH)).
    change (cut_path path = Some (path, None)). unfold cut_path. rewrite (split_once_none "#") by (by eapply lacks_bytes; [|exact Hp]).
    rewrite split_once_none by (by eapply lacks_bytes; [|exact Hp]). done.
Qed.

(** ** Concrete runs *)

Section examples.
Local Existing Instance status_json.
Local Existing Instance double_ints.

(** A server that answers every request with an empty object, and one that cannot be reached. *)
Definition empty_answer (rq : wire_request) (w : unit) : unit * option wire_response := (w, Some (MkReply 200 (Some "{}"))).

Definition operator : ClientArgs := MkArgs "http://h/" (Some "key") false.
Definition typed (line : string) : world (W := unit) := MkWorld tt [] [Some line].

Lemma cli_requests_intended_witness : exists new,
  wd_sent (fst (run (N := double) empty_answer 1 operator (CommandDelete "a" false) (typed "y"))) = (new ++ [])%list /\
  Forall (fun x => intended cut_url operator (CommandDelete "a" false) x.1) new /\ new <> [].
Proof.
  destruct (cli_requests_intended (N := double) empty_answer cut_url operator 1 (CommandDelete "a" false) (typed "y") _ _ cut_reads (Nat.lt_0_1) (surjective_pairing _))
    as (_ & new & Es & HP & _ & Hr). exists new. split; [exact Es|]. split; [exact HP|]. vm_compute in Hr. by destruct Hr.
Defined.

(** The check of an address lets through the characters a URL is cut at: deleting the node "a#b" deletes the node "a". *)
Example fragment_deletes_another :
  let w := fst (run (N := double) empty_answer 1 operator (CommandDelete "a#b" true) (typed "")) in
  map (fun x => (wq_method x.1, (fun u => path_params "/node/:address" u.1) <$> cut_url (wq_url x.1))) (wd_sent w) = [("DELETE", Some ["a"])].
Proof. vm_compute. reflexivity. Qed.
End examples.
