(* ===== verification/CliStats.v ===== *)
(** * Counting nodes from outside ([run_stats] of [src/src/cli/mod.rs])

    [facetql stats] has no route of its own: it pages through [GET /nodes] and
    counts the kinds it sees.  Joined to the handler of that route and the
    plain listing of the engine: the counts are exact, as long as the listing
    is short enough to be paged to its end by offset. *)

From Stdlib Require Import ZArith Lia Ascii String DecimalString DecimalNat.
From stdpp Require Import base tactics list strings option gmap sorting.
From S2P Require Import Prelude Keys Json Text OrderKey Search BTreeRead Entities Aggregate Wal Transaction Engine EngineRep EngineApply EngineTheorems Query QueryScan QueryRows QueryPaths QueryTheorems QueryPaging Limits Routes Router Cli.

Local Open Scope nat_scope.

(** ** The pages of the plain listing *)

Section listing.
Context {St : Type} `{RecordStoreLaws St} {N : Type} `{SerdeLaws N} `{CursorLaws N}.
Context (max_offset : nat).
Implicit Types (e : engine (St := St)) (d : logical).

(** What a caller sees of the listing: everything its identity may read. *)
Definition listed (requester : option string) (n : Node) : bool := selected (N := N) (MkFilters None None requester None "") n.

Definition list_visit (requester : option string) (limit offset : nat) (s : list Node * nat) (n : Node) : result error_kind ((list Node * nat) * bool) :=
  let '(nodes, skipped) := s in
  if negb (listed requester n) then Ok (s, true)
  else if skipped <? offset then Ok (nodes, S skipped, true)
  else Ok (nodes ++ [n], skipped, length (nodes ++ [n]) <? limit).

Lemma list_loop requester limit offset ns nodes skipped : length nodes < limit -> skipped <= offset -> (nodes = [] \/ skipped = offset) ->
  exists skipped', visit_entries (list_visit requester limit offset) (nodes, skipped) ns =
    Ok (nodes ++ take (limit - length nodes) (drop (offset - skipped) (filter (fun n => listed requester n = true) ns)), skipped').
Proof.
  revert nodes skipped. induction ns as [|n ns IH]; intros nodes skipped Hl Hs Hor.
  - exists skipped. cbn [visit_entries]. by rewrite filter_nil, drop_nil, take_nil, app_nil_r.
  - cbn [visit_entries list_visit]. destruct (listed requester n) eqn:E; cbn [negb].
    2: { rewrite filter_cons_False by congruence. by apply IH. }
    rewrite filter_cons_True by done. destruct (Nat.ltb_spec skipped offset) as [Hlt|].
    + destruct Hor as [->|]; [|lia]. replace (offset - skipped) with (S (offset - S skipped)) by lia. cbn [drop]. apply IH; [done|lia|by left].
    + replace (offset - skipped) with 0 by lia. rewrite drop_0. rewrite length_app. cbn [length]. destruct (Nat.ltb_spec (length nodes + 1) limit).
      * destruct (IH (nodes ++ [n]) skipped) as [sk Esk]; [rewrite length_app; cbn; lia|done|right; lia|]. exists sk. rewrite Esk, length_app. cbn [length].
        replace (offset - skipped) with 0 by lia. rewrite drop_0. replace (limit - length nodes) with (S (limit - (length nodes + 1))) by lia.
        cbn [take]. by rewrite <- app_assoc.
      * exists skipped. replace (limit - length nodes) with 1 by lia. cbn [take]. done.
Qed.

(** The listing is one list, whatever the page: a page is a slice of it, until the offset is refused. *)
Lemma query_pages e d requester : consistent (N := N) e d -> exists ns, NoDup ns /\
  (forall n, n ∈ ns <-> live (l_nodes d) n /\ listed requester n = true) /\
  forall limit offset, 0 < limit -> query (N := N) max_offset e None None requester limit offset = if max_offset <? offset then Err Prelude.InvalidInput else Ok (take limit (drop offset ns)).
Proof.
  intros Hc. destruct (candidates_rows e d None None None false Hc) as (ns & Hscan & Hin & Hs); [done..|].
  exists (filter (fun n => listed requester n = true) ns). split; [|split].
  - apply NoDup_filter. eapply sorted_nodup; [apply scan_order_irrefl|exact Hs].
  - intros n. rewrite list_elem_of_filter, Hin. cbn [source past_cursor fmap option_fmap option_map]. tauto.
  - intros limit offset Hlim. unfold query. rewrite (proj2 (Nat.eqb_neq _ _)) by lia. destruct (max_offset <? offset); [done|]. rewrite Hscan.
    destruct (list_loop requester limit offset ns [] 0) as [sk Esk]; [cbn; lia|lia|by left|]. unfold list_visit, listed in Esk.
    rewrite Nat.sub_0_r in Esk. cbn [length app] in Esk. rewrite Nat.sub_0_r in Esk. rewrite Esk. done.
Qed.
End listing.

(** ** Counting *)

Section counting.
Context {N : Type} (node_json : Node -> value N).
Context (Hkind : forall n, get_field (node_json n) "kind" = Some (JString (n_kind n))).

Definition of_kind (k : string) (ns : list Node) : nat := length (filter (fun n => n_kind n = k) ns).

(** Every kind with its number of nodes, and no kind without any. *)
Definition counts_kinds (counts : gmap string nat) (ns : list Node) : Prop := forall k, counts !! k = match of_kind k ns with 0 => None | m => Some m end.

Lemma of_kind_snoc k ns n : of_kind k (ns ++ [n]) = of_kind k ns + if decide (n_kind n = k) then 1 else 0.
Proof. unfold of_kind. rewrite filter_app, length_app, filter_cons, filter_nil. by destruct (decide _). Qed.

Lemma tally_counts ns : counts_kinds (foldl tally_kind ∅ (map node_json ns)) ns.
Proof.
  induction ns as [|n ns IH] using rev_ind; [done|]. intros k. rewrite map_app, foldl_app, of_kind_snoc. cbn [map foldl]. unfold tally_kind at 1, text_field. rewrite Hkind.
  destruct (decide (n_kind n = k)) as [<-|Hk].
  - rewrite lookup_insert, decide_True by done. rewrite (IH (n_kind n)). destruct (of_kind (n_kind n) ns) as [|m]; [done|]. cbn. by rewrite Nat.add_1_r.
  - rewrite lookup_insert_ne by done. rewrite (IH k). by rewrite Nat.add_0_r.
Qed.
End counting.

(** ** The command against the server *)

Section stats.
Context {St : Type} `{RecordStoreLaws St} {N : Type} `{SerdeLaws N} `{CursorLaws N} `{IntJson N}.
Context (max_offset : nat).
Implicit Types (e : engine (St := St)) (d : logical).

(** What the HTTP library and serde make of an answer: a list of nodes is an array of objects with a kind, an error has a
    text. *)
Context (node_json : Node -> value N) (wire : body N -> option string).
Context (Hkind : forall n, get_field (node_json n) "kind" = Some (JString (n_kind n))).
Context (Hnodes : forall ns, exists t, wire (NodesBody ns) = Some t /\ from_str t = Some (JArray (map node_json ns))).
Context (message : string) (Hmessage : wire EngineText = Some message).

(** A server that is not written to meanwhile hands every page of the listing to the handler. *)
Context (http : wire_request -> engine (St := St) -> engine (St := St) * option wire_response).

Definition lists (base key : string) (i : AuthIdentity) e : Prop := forall limit offset,
  http (MkWire "GET" (base +:+ "/nodes" +:+ "?limit=" +:+ decimal limit +:+ "&offset=" +:+ decimal offset) key None) e =
  let r := query_nodes (N := N) max_offset i None None (Some limit) (Some offset) e in (e, Some (MkReply (rs_status r) (wire (rs_body r)))).

Definition page_answer (ns : list Node) (offset : nat) : result CliError (list (value N)) :=
  if max_offset <? offset then Err (api_error 400 message) else Ok (map node_json (take PAGE (drop offset ns))).

(** The nodes the identity may read. *)
Definition readable_by (i : AuthIdentity) d (n : Node) : Prop := live (l_nodes d) n /\ readable i n = true.

Lemma list_page base key i e d : consistent (N := N) e d -> lists base key i e -> exists ns, NoDup ns /\ (forall n, n ∈ ns <-> readable_by i d n) /\
  forall offset w, wd_server w = e -> exists w', wd_server w' = e /\ client_list_nodes http (MkClient base key) PAGE offset w = (w', page_answer ns offset).
Proof.
  intros Hc Hl. destruct (query_pages (N := N) max_offset e d (requester i) Hc) as (ns & Hnd & Hin & Hq). exists ns. split; [done|]. split.
  - intros n. rewrite Hin. unfold readable_by, listed, readable, requester, selected. cbn. destruct (is_admin i); cbn; [done|]. by destruct (can_read n _).
  - intros offset w Hw. unfold client_list_nodes, answered, http_get, send, mbind, c_bind, checked. cbn [fc_base fc_token]. rewrite Hw.
    change (to_string <$> None) with (@None string). rewrite (Hl PAGE offset). eexists. split; [|f_equal].
    + reflexivity.
    + unfold query_nodes, page_answer. change (Nat.min (default 50 (Some PAGE)) 500) with PAGE. change (default 0 (Some offset)) with offset. rewrite Hq by (unfold PAGE; lia).
      unfold read_json_array, read_json, body_text. destruct (max_offset <? offset); cbn [rs_status rs_body storage_failure answer wp_text wp_status].
      * by rewrite Hmessage.
      * destruct (Hnodes (take PAGE (drop offset ns))) as (t & -> & Ht). cbn. by rewrite Ht.
Qed.

(** What the whole count comes to. *)
Definition counted (ns : list Node) : result CliError (option (gmap string nat * nat)) :=
  if max_offset <? PAGE * (length ns / PAGE) then Err (api_error 400 message) else Ok (Some (foldl tally_kind ∅ (map node_json ns), length ns)).

Lemma count_loop ns c e : (forall offset w, wd_server w = e -> exists w', wd_server w' = e /\ client_list_nodes http c PAGE offset w = (w', page_answer ns offset)) ->
  forall fuel j w, wd_server w = e -> j <= length ns / PAGE -> length ns / PAGE < j + fuel ->
  exists w', wd_server w' = e /\ count_pages http c fuel (PAGE * j) (foldl tally_kind ∅ (map node_json (take (PAGE * j) ns))) (PAGE * j) w = (w', counted ns).
Proof.
  intros Hpage fuel. assert (PAGE <> 0) as HP by done. pose proof (Nat.div_mod (length ns) PAGE HP) as Hdm. pose proof (Nat.mod_upper_bound (length ns) PAGE HP) as Hub.
  induction fuel as [|fuel IH]; intros j w Hw Hj Hf; [lia|]. cbn [count_pages]. unfold mbind, c_bind. destruct (Hpage (PAGE * j) w Hw) as (w' & Hw' & ->).
  unfold page_answer. destruct (Nat.ltb_spec max_offset (PAGE * j)) as [Hlt|Hge].
  { exists w'. split; [done|]. unfold counted. rewrite (proj2 (Nat.ltb_lt _ _)); [done|]. eapply Nat.lt_le_trans; [exact Hlt|]. by apply Nat.mul_le_mono_l. }
  rewrite length_map, length_take, length_drop, <- foldl_app, <- map_app.
  assert (forall m, take (PAGE * j) ns ++ take m (drop (PAGE * j) ns) = take (PAGE * j + m) ns) as Htake by (intros m; by rewrite take_take_drop).
  rewrite Htake. assert (PAGE * j <= length ns) by (rewrite Hdm; pose proof (Nat.mul_le_mono_l _ _ PAGE Hj); lia).
  destruct (Nat.ltb_spec (Nat.min PAGE (length ns - PAGE * j)) PAGE) as [Hlast|Hmore].
  - exists w'. split; [done|]. assert (j = length ns / PAGE) as Hjj.
    { apply Nat.le_antisymm; [done|]. apply Nat.lt_succ_r. apply Nat.Div0.div_lt_upper_bound. rewrite Nat.mul_succ_r. lia. }
    unfold counted. rewrite <- Hjj, (proj2 (Nat.ltb_ge _ _)) by done. rewrite take_ge by lia. unfold mret, c_ret. do 4 f_equal. lia.
  - rewrite Nat.min_l by lia. replace (PAGE * j + PAGE) with (PAGE * S j) by lia. apply IH; [done| |lia].
    apply Nat.div_le_lower_bound; [done|]. lia.
Qed.

(** C39: [facetql stats] counts every node its identity may read, kind by kind, and ends: with a page of fuel more than the
    listing has, on a server nobody writes to.  It cannot do so past the offset the server accepts: then it fails with the
    server's refusal, instead of reporting a part. *)
Theorem cli_stats_exact e d i common key : consistent (N := N) e d -> ca_token common = Some key -> key <> "" ->
  lists (trim_end_slash (ca_url common)) key i e ->
  exists ns, NoDup ns /\ (forall n, n ∈ ns <-> readable_by i d n) /\
  forall fuel w, wd_server w = e -> length ns / PAGE < fuel ->
  exists w', wd_server w' = e /\
    if max_offset <? PAGE * (length ns / PAGE) then run http fuel common CommandStats w = (w', Err (api_error 400 message))
    else exists counts, counts_kinds counts ns /\ run http fuel common CommandStats w = (w', Ok (Some (KindCounts (ca_json common) counts (length ns)))).
Proof.
  intros Hc Ht Hne Hl. destruct (list_page _ _ _ e d Hc Hl) as (ns & Hnd & Hin & Hpage). exists ns. split; [done|]. split; [done|]. intros fuel w Hw Hf.
  destruct (count_loop ns _ e Hpage fuel 0 w Hw (Nat.le_0_l _) Hf) as (w' & Hw' & E). rewrite Nat.mul_0_r in E. change (map node_json (take 0 ns)) with (@nil (value N)) in E.
  exists w'. split; [done|]. cbn [run]. unfold run_stats, client, require_token. rewrite Ht. destruct (String.eqb_spec key ""); [done|].
  unfold mbind, c_bind, checked. cbn [result_bind mbind]. change (foldl tally_kind ∅ []) with (∅ : gmap string nat) in E.
  unfold counted in E. destruct (max_offset <? _); [|eexists; split; [by apply (tally_counts (N := N) node_json Hkind)|]]; by rewrite E.
Qed.
End stats.

(** ** A concrete count *)

(** A text for a list of kinds: each character after an "x", each kind closed by an "e". *)
Fixpoint kind_text (s : string) : string := match s with EmptyString => "e" | String c s => String "x" (String c (kind_text s)) end.

Definition kinds_text (ks : list string) : string := foldr (fun k t => kind_text k +:+ t) EmptyString ks.

Fixpoint read_kinds (read : string) (s : string) : option (list string) :=
  match s with
  | EmptyString => Some []
  | String "e" s => cons read <$> read_kinds EmptyString s
  | String "x" (String c s) => read_kinds (read +:+ String c EmptyString) s
  | _ => None
  end.

Lemma read_kind read k t : read_kinds read (kind_text k +:+ t) = cons (read +:+ k) <$> read_kinds EmptyString t.
Proof.
  assert (forall a b c : string, (a +:+ b) +:+ c = a +:+ (b +:+ c)) as Hassoc by (intros a b c; induction a as [|x a IH]; [done|]; exact (f_equal (String x) IH)).
  revert read. induction k as [|c k IH]; intros read.
  - change (read_kinds read (String "e" t) = cons (read +:+ EmptyString) <$> read_kinds EmptyString t).
    replace (read +:+ EmptyString) with read; [done|]. clear. induction read as [|x read IH]; [done|]. exact (f_equal (String x) IH).
  - change (read_kinds (read +:+ String c EmptyString) (kind_text k +:+ t) = cons (read +:+ String c k) <$> read_kinds EmptyString t). by rewrite IH, Hassoc.
Qed.

Lemma read_kinds_text ks : read_kinds EmptyString (kinds_text ks) = Some ks.
Proof. induction ks as [|k ks IH]; [done|]. cbn [kinds_text foldr]. rewrite read_kind. fold (kinds_text ks). by rewrite IH. Qed.

Definition kind_object (k : string) : value double := JObject [("kind"%string, JString k)].

Definition kinds_json : SerdeJson double := {|
  num_as_f64 := @num_as_f64 double double_json; num_from_f64 := @num_from_f64 double double_json; num_is_int := @num_is_int double double_json;
  num_eqb := @num_eqb double double_json; to_string := @to_string double double_json;
  from_str := fun s => (fun ks => JArray (map kind_object ks)) <$> read_kinds EmptyString s;
|}.

Lemma kinds_laws : @SerdeLaws double kinds_json.
Proof. exact (let '(@Build_SerdeLaws _ _ a b c d) := double_laws in @Build_SerdeLaws double kinds_json a b c d). Qed.

Section examples.
Local Existing Instance list_heap.
Local Existing Instance list_heap_laws.
Local Existing Instance kinds_json.
Local Existing Instance kinds_laws.
Local Existing Instance example_cursors.
Local Existing Instance example_cursor_laws.
Local Existing Instance double_ints.
Local Open Scope string_scope.

Definition shelf (a kind owner : string) (v : Visibility) : Operation :=
  OInsert (MkNode a {| coord_x := 0; coord_y := 0; coord_z := 0; coord_q := 0 |} 0 kind "e" owner None v).

(** Three nodes, one of them another owner's secret. *)
Definition shelves : list Operation := [shelf "a" "Book" "me" Private; shelf "b" "Map" "you" Public; shelf "c" "Book" "you" Private].
Definition library : engine (St := list HeapRecord) := fst (apply_operations (N := double) shelves empty_engine).
Definition library_nodes : logical := foldl logical_apply (MkLogical ∅ ∅ ∅) shelves.

Lemma library_consistent : consistent (N := double) library library_nodes.
Proof.
  destruct (batch_step (N := double) shelves empty_engine (MkLogical ∅ ∅ ∅) 0) as (e' & E & Hc & _);
    [apply empty_consistent|cbn; lia|split; [vm_compute; reflexivity|repeat constructor]|].
  unfold library. by rewrite E.
Qed.

Definition reader_of (owner : string) : AuthIdentity := MkIdentity owner RoleUser.

Definition library_wire (b : body double) : option string :=
  match b with NodesBody ns => Some (kinds_text (map n_kind ns)) | _ => Some "refused" end.

(** A server that reads the limit and the offset of the listing and hands them to its handler, for one caller. *)
Fixpoint after (p s : string) : option string :=
  match p, s with
  | EmptyString, s => Some s
  | String a p, String b s => if Ascii.eqb a b then after p s else None
  | _, _ => None
  end.

Definition number (s : string) : option nat := Nat.of_uint <$> NilEmpty.uint_of_string s.

Definition page_asked (url : string) : option (nat * nat) :=
  rest ← after "http://h/nodes?limit=" url; '(l, rest) ← split_once "&" rest; o ← after "offset=" rest;
  limit ← number l; offset ← number o; Some (limit, offset).

Definition library_http (max_offset : nat) (rq : wire_request) e : engine (St := list HeapRecord) * option wire_response :=
  match page_asked (wq_url rq) with
  | Some (limit, offset) =>
      let r := query_nodes (N := double) max_offset (reader_of "me") None None (Some limit) (Some offset) e in (e, Some (MkReply (rs_status r) (library_wire (rs_body r))))
  | None => (e, None)
  end.

Lemma decimal_lacks n : lacks "&" (decimal n).
Proof.
  apply (lacks_bytes _ _ name_byte); [done|]. unfold decimal. induction (Nat.to_uint n); done.
Qed.

Lemma number_decimal n : number (decimal n) = Some n.
Proof. unfold number, decimal. rewrite NilEmpty.usu. cbn. by rewrite DecimalNat.Unsigned.of_to. Qed.

Lemma library_lists max_offset : lists (N := double) max_offset library_wire (library_http max_offset) "http://h" "key" (reader_of "me") library.
Proof.
  intros limit offset. unfold library_http. cbn [wq_url].
  assert (page_asked ("http://h" +:+ "/nodes" +:+ "?limit=" +:+ decimal limit +:+ "&offset=" +:+ decimal offset) = Some (limit, offset)) as ->; [|done].
  unfold page_asked. change (after "http://h/nodes?limit=" _) with (Some (decimal limit +:+ String "&" ("offset=" +:+ decimal offset))). cbn [mbind option_bind].
  rewrite split_once_first by apply decimal_lacks. cbn [mbind option_bind]. change (after "offset=" _) with (Some (decimal offset)). cbn [mbind option_bind]. by rewrite !number_decimal.
Qed.

Lemma library_reads ns : exists t, library_wire (NodesBody ns) = Some t /\ from_str t = Some (JArray (map (fun n => kind_object (n_kind n)) ns)).
Proof. exists (kinds_text (map n_kind ns)). split; [done|]. unfold from_str, kinds_json. rewrite read_kinds_text. cbn. by rewrite map_map. Qed.

Definition seen_nodes : list Node := filter (fun n => readable (reader_of "me") n = true) (map snd (map_to_list (l_nodes library_nodes))).

Lemma seen_spec n : n ∈ seen_nodes <-> readable_by (reader_of "me") library_nodes n.
Proof. unfold seen_nodes. rewrite list_elem_of_filter, (live_elem library library_nodes n library_consistent). unfold readable_by. tauto. Qed.

Lemma seen_nodup : NoDup seen_nodes.
Proof. refine (bool_decide_eq_true_1 _ _). vm_compute. reflexivity. Qed.

(** The caller owns one book and may read the public map: two nodes, counted with one page; with no offset allowed at all the
    count still ends on its first page. *)
Lemma cli_stats_exact_witness : exists ns counts w', counts_kinds counts ns /\ length ns = 2 /\
  run (library_http 0) 1 operator CommandStats (MkWorld library [] []) = (w', Ok (Some (KindCounts false counts 2))).
Proof.
  destruct (cli_stats_exact (N := double) 0 (fun n => kind_object (n_kind n)) library_wire (fun n => eq_refl) library_reads "refused" eq_refl
    (library_http 0) library library_nodes (reader_of "me") operator "key" library_consistent eq_refl) as (ns & Hnd & Hin & Hrun); [done|apply library_lists|].
  assert (length ns = 2) as Hlen.
  { transitivity (length seen_nodes); [|vm_compute; reflexivity]. apply Permutation_length, NoDup_Permutation; [exact Hnd|exact seen_nodup|]. intros n. exact (iff_trans (Hin n) (iff_sym (seen_spec n))). }
  rewrite Hlen in Hrun. destruct (Hrun 1 (MkWorld library [] []) eq_refl) as (w' & _ & counts & Hk & E); [vm_compute; lia|].
  exists ns, counts, w'. split; [exact Hk|]. split; [exact Hlen|]. exact E.
Defined.

(** Two pages of offsets are not enough for a thousand nodes: the count is refused once the server has handed out what it
    serves by offset, although the listing goes on. *)
Definition endless (rq : wire_request) (e : unit) : unit * option wire_response :=
  match page_asked (wq_url rq) with
  | Some (limit, offset) => if (500 <? offset)%nat then (e, Some (MkReply 400 (Some "refused"))) else (e, Some (MkReply 200 (Some (kinds_text (repeat "Book" limit)))))
  | None => (e, None)
  end.

Example stats_refused : (run (N := double) endless 9 operator CommandStats (MkWorld tt [] [])).2 = Err (Api 400 "refused").
Proof. vm_compute. reflexivity. Qed.
End examples.
